(* ===== verification/_CoqProject ===== *)
-Q . S2P
Prelude.v
Status.v
KeyEncoding.v
RocksDB.v
MVCCStore.v
MVCCIterator.v
LockManager.v
Crc32.v
GroupCommit.v
LogFile.v
Wal.v
TxnManager.v
TxnLocks.v
Recovery.v
ShardRecovery.v
CoordinatorLog.v
Effects.v
ShardMessages.v
Coordinator.v
TwoPhase.v
RaftLog.v
RaftStateMachine.v
RaftSpec.v
RaftNode.v
RaftCluster.v
RaftReplication.v
RaftOrigin.v
RaftTransport.v
GrpcTransport.v
Text.v
Catalog.v
JoinHandler.v
ShardServer.v
ShardSafety.v
Atomicity.v
Lexer.v
Parser.v
ParserProofs.v
ParserRoundtrip.v
DistributedJoin.v
Executor.v
ExecutorProofs.v
ExecutorRows.v
SelectProofs.v
ExecutorExamples.v
JoinProofs.v
PgWire.v
PgWireProofs.v
PgSession.v
PgWireInput.v
PgRun.v
PgWireExamples.v
PgServer.v
Rounding.v
Tpcc.v
Benchmark.v
TpccProofs.v
WorkloadProofs.v
BenchmarkProofs.v
Cluster.v
ClusterProofs.v
BenchMain.v
BenchMainProofs.v
Programs.v
