(* ===== verification/Prelude.v ===== *)
(** * trans-db: a verification development

    trans-db is a distributed SQL database in C++ (src/src/). Clients speak the
    PostgreSQL wire protocol to a server that parses and executes their statements and
    coordinates transactions over shards; a shard is a group of replicas that agree by
    Raft on a log of transaction steps, and a replica keeps its data as versions in
    RocksDB, with row locks, a write-ahead log and optimistic validation. Here each part
    is translated into executable definitions and its correctness is proved.

    ** Parts, files and what is proved

    Storage of a replica.
    - Status.v (storage/status.h), KeyEncoding.v (storage/key_encoding.cpp): status
      values, and keys whose byte order is the order of rows and then of versions from
      the newest on; the codec is inverse to itself.
    - RocksDB.v: the key-value engine as a class of operations with laws, and an
      instance that shows the laws can hold.
    - MVCCStore.v, MVCCIterator.v (storage/mvcc_store.cpp, mvcc_iterator.cpp): [Get]
      returns the newest visible version and a scan exactly the visible live rows, as long
      as no primary key of a table is a proper prefix of another one.

    Transactions on a replica.
    - LockManager.v (txn/lock_manager.cpp): the critical sections as functions and their
      interleavings as steps; mutual exclusion, and no waiter is forgotten, when a
      transaction waits for one lock at a time.
    - Crc32.v, LogFile.v, Wal.v (txn/wal.cpp), GroupCommit.v (txn/group_commit.cpp): the
      checksum, files with a durable prefix and failing writes, the write-ahead log and
      batched syncs; after any failures and a crash, replay gives an intact initial part
      of the records that has every synced one.
    - TxnManager.v, TxnLocks.v (txn/txn_manager.cpp): all methods; commit is atomic,
      prepare validates the reads, and no row is in the write sets of two transactions
      that took their locks here, whatever transactions are imported from the Raft log
      meanwhile (those take no locks).
    - Recovery.v, ShardRecovery.v: [Recover] is the sequential execution of the log, and
      a crash between any two operations loses nothing that was promised, as long as the
      transactions that are prepared have different rows.

    Replication.
    - RaftLog.v, RaftStateMachine.v, RaftNode.v (raft/): the log and its file, applying
      entries to the transaction manager, and every critical section of a node.
    - RaftSpec.v: the protocol without messages, with its safety proof. RaftCluster.v: a
      group of nodes with requests and responses in flight, crashes and restarts, as a
      step relation, and its refinement of RaftSpec.v. RaftReplication.v: what follows
      for reachable groups: one leader per term, leader completeness, agreement on the
      applied entries and on the stores, and progress of commits; runs of a group as
      executable event sequences. RaftOrigin.v: every entry that a node holds, sends or
      applies was proposed to one of them.
    - RaftTransport.v: the interface [RaftTransport] with its laws; the methods of a node
      that call peers refine the steps of a group on every transport that has the laws.
      The in-process transport (raft/raft_transport.cpp) has them, and in
      GrpcTransport.v the one over gRPC (raft/grpc_raft_transport.cpp,
      raft_grpc_service.cpp, raft_proto_convert.cpp) has them too, with partitions, lost
      calls and duplicates.
    - ShardServer.v, ShardSafety.v (shard/shard_server.cpp): the request handlers, split
      where they wait for replication, interleaved with each other and with the group; a
      vote to commit is backed by an applied entry, and state queries tell the truth.

    Coordination.
    - Effects.v: programs that call out, with their traces. ShardMessages.v
      (proto/shard.proto), CoordinatorLog.v, Coordinator.v (coordinator/): messages, the
      decision log, routing, two-phase commit and recovery. TwoPhase.v: commit requests
      follow unanimous votes and a flushed record, recovery decides as it must.
      Atomicity.v: the coordinator and its replicated shards together; a transaction that
      one replica of one shard commits is durably prepared on all participants, and no
      replica aborts it, when the decisions come from one run of [Commit].

    SQL.
    - Text.v: characters, decimal numbers and IEEE doubles as text. Lexer.v, Parser.v
      (coordinator/parser.cpp): tokenizer and recursive descent parser. ParserProofs.v:
      it ends on every input and what it returns is well formed. ParserRoundtrip.v: a
      printed statement is parsed back.
    - Catalog.v (coordinator/catalog.cpp, row_codec.cpp), JoinHandler.v
      (shard/distributed_join_handler.cpp), DistributedJoin.v
      (coordinator/distributed_join.cpp), Executor.v (coordinator/executor.cpp): tables
      and rows, joins and every statement. ExecutorProofs.v: what a statement does to
      transactions. ExecutorRows.v, SelectProofs.v: the rows it reads and writes, key
      ranges, integer arithmetic. JoinProofs.v: broadcast and shuffle joins return the
      rows of the nested loop. ExecutorExamples.v: concrete runs.
    - PgWire.v (pgwire/pgwire_server.cpp): a client's session over the bytes of its
      connection. PgWireProofs.v: replies are whole messages, one per statement.
      PgSession.v: a message touches no transaction but the session's own, and in a failed
      transaction no message but ROLLBACK and Describe has an effect. PgWireInput.v: messages are read
      whole, statements are split and parameters substituted as intended. PgRun.v: a
      whole connection leaves at most one transaction of its own behind.
      PgWireExamples.v: concrete sessions. PgServer.v: the listener, its accepting thread
      and the threads of the connections as interleaved steps over file descriptors;
      sessions use their own sockets, and Stop ends them and the accepting thread, but for
      one late client.

    The cluster.
    - Cluster.v (cluster/, replica_main.cpp, main.cpp): ports, addresses, command lines,
      the launcher's table of processes. ClusterProofs.v: a launched cluster is wired so
      that the transports of its replicas satisfy the hypothesis of GrpcTransport.v, and
      the launcher knows exactly the processes that run. Programs.v (main.cpp,
      replica_main.cpp, shard/shard_server.cpp): the service of a shard in one process,
      which is a group of RaftCluster.v on the in-process transport, the objects that put
      it behind gRPC servers, and the two programs up to their exit codes; when the server
      returns, nothing that it started is left.

    The benchmark (src/bench/).
    - Tpcc.v (tpcc.cpp): tables, keys, rows and the loader. Benchmark.v (benchmark.cpp):
      the five kinds of transactions, the loop of a worker and the figures. TpccProofs.v:
      transactions as sequences of calls to the coordinator; the loader loads every row
      once, and a transaction that counts as committed did what its kind says.
      WorkloadProofs.v: the transactions find the rows that were loaded. Rounding.v: the
      rounding of a product of doubles that picks the place of a percentile.
      BenchmarkProofs.v: counters and percentiles, in whatever order the rounds end.
    - BenchMain.v (main_bench.cpp): command line, run and reports. BenchMainProofs.v: a run
      that returns has loaded its data and stopped its cluster, and a strict reader of
      JSON reads its report back.

    This file holds what all parts share: fixed-width integers, byte lists in little and
    big endian order and their values, tactics and hint databases.

    ** Conventions

    A C++ integer is a [Z]; wrap-around is written out with [u16], [u32] and [u64] where
    the code can wrap, and signed overflow, which is undefined, is a parameter. Strings
    and byte vectors are lists of bytes. An unordered map is a [gmap], traversed in the
    order of [map_to_list]. A method that holds a mutex throughout is one function; one
    that waits is split there, and threads are interleavings of the pieces. Errors are
    values; an exception nobody catches is a result of its own. Calls to other machines
    and to sockets are actions of a program ([Effects.path]), answered arbitrarily, so
    theorems hold for all answers.

    Recursion is structural, on the input, on lists of peers or shards, or on the retry
    counts of the code. Where the code loops on something else there is fuel, and a
    theorem or the definition itself shows that it is enough: tokenizer and parser get
    one more than the number of characters or tokens and [parse_total] shows that they
    never run out; reading log files gets the number of bytes, the iterator the number of
    remaining entries ([iterator_terminates]), the search for a commit index and the
    application of entries the number of entries, [dec] one more than the binary
    logarithm, which bounds the number of decimal digits. The loops over a socket move at
    least one byte per call and get the number of bytes; the loop of a session gets a
    number of messages and says when the session is still going on. Bounds in theorems
    are those of the code: runs of a Raft group below 2^32 steps, so that terms do not
    overflow, log payloads below 2^32 bytes, wire messages below 2^32 - 4 bytes, ports
    below 2^16; or of double precision: below 2^45 samples the place of a percentile is
    the exact quotient.

    Some theorems speak of runs that keep to rules which the code relies on but does not
    enforce; each says so, and where breaking the rule goes wrong a theorem of its own
    shows how. One run of [Commit] decides about a transaction ([served];
    [recovery_aborts_committed]); a replica that began a transaction proposes its prepare
    entry ([proposed_here]; [stale_registration_diverges]); a transaction has one request
    at a time and writes nothing after it was prepared ([txn_step], [lock_step];
    [late_write_drops_locks], [two_waits_break_exclusion]); prepared transactions have
    different rows ([import_takes_no_locks], [import_breaks_recovery]); primary keys are
    prefix-free ([Get_misses_prefix_key]).

    ** Not modelled

    - RocksDB, gRPC and protobuf, the operating system: parameters with laws (RocksDB.v),
      a network that may lose calls (GrpcTransport.v), file systems whose writes may fail
      (LogFile.v), processes (Cluster.v).
    - Thread objects other than the listener's, condition variables, clocks and random
      numbers: timers, deadlines and draws are arguments or arbitrary. The tasks that the
      coordinator starts for several shards at once run one after the other; they share no
      state, and [overlapped] in Atomicity.v says which traces their overlapping gives.
    - Callers of the write-ahead logs that sync at the same time with a batching window:
      in Wal.v a caller syncs alone, GroupCommit.v has the worker and its waiters.
    - A power failure that loses the unsynced file of a node's term and vote: a restart
      finds it as it was written ([forgotten_vote_is_repeated] shows what is lost).
    - Signals other than the one that stops the server: a SIGPIPE of a send on a closed
      connection is a run that stops there.
    - What the freed memory holds that Describe and Close of the wire protocol read: the
      bytes are an arbitrary answer of the environment ([AStale]).
    - The Windows branches. The search for the replica program in the file system.
    - The interleaving of the calls of two workers of the benchmark within their rounds:
      a round is modelled on its own, and a run is the list of its rounds in the order in
      which they end.
    - Diagnostic output, except that of the benchmark.
    - A node's peers have the order of the group's list; over gRPC they have the order in
      which an unordered map is traversed, which only changes the order of requests. *)
From stdpp Require Import base gmap sets list strings sorting.
From Stdlib Require Import ZArith Lia Strings.Byte.

Local Open Scope Z_scope.

(** ** Notations of the development *)
Declare Scope db_scope.
Delimit Scope db_scope with db.

(** Byte strings: [std::string] and [std::string_view] of the sources. *)
Abbreviation bytes := (list byte).

(** ** Tactics *)

(** Case analysis on the first [match]/[if] scrutinee found in the goal or in a
    hypothesis, keeping the equation, then closing the trivial branches. *)
Ltac case_first :=
  match goal with
  | |- context [match ?x with _ => _ end] => destruct x eqn:?
  | H : context [match ?x with _ => _ end] |- _ => destruct x eqn:?
  end.

Ltac crush_cases := repeat (case_first; simplify_eq/=; try done).

(** Splits conjunctions and existentials in hypotheses. *)
Ltac split_hyps :=
  repeat match goal with
         | H : _ ∧ _ |- _ => destruct H
         | H : ∃ _, _ |- _ => destruct H
         end.

(** ** Hint databases *)
Create HintDb db discriminated.
Create Rewrite HintDb db_len.

(** Lengths of byte strings: [len] normalises them and calls [lia]. *)
Ltac len :=
  autorewrite with db_len in *; simpl length in *; lia.

(** ** Bytes *)

Definition byte_to_Z (b : byte) : Z := Z.of_N (Byte.to_N b).

(** [static_cast<char>(v & 0xff)]: the low eight bits of an integer. *)
Definition byte_of_Z (z : Z) : byte :=
  default x00 (Byte.of_N (Z.to_N (Z.land z 255))).

#[export] Instance byte_eq_decision : EqDecision byte := byte_eq_dec.
#[export] Program Instance byte_countable : Countable byte :=
  inj_countable Byte.to_N Byte.of_N _.
Next Obligation. intros b. apply Byte.of_to_N. Qed.

Lemma byte_to_Z_range b : 0 ≤ byte_to_Z b < 256.
Proof.
  unfold byte_to_Z. pose proof (Byte.to_N_bounded b). lia.
Qed.

Lemma land_255 z : Z.land z 255 = z mod 256.
Proof. change 255 with (Z.ones 8). by rewrite Z.land_ones by lia. Qed.

Lemma byte_to_of_Z z : byte_to_Z (byte_of_Z z) = z mod 256.
Proof.
  unfold byte_to_Z, byte_of_Z. rewrite land_255.
  pose proof (Z.mod_pos_bound z 256 ltac:(lia)) as Hb.
  destruct (Byte.of_N (Z.to_N (z mod 256))) as [b|] eqn:E; simpl.
  - apply Byte.to_of_N in E. rewrite E. lia.
  - apply Byte.of_N_None_iff in E. lia.
Qed.

#[export] Instance byte_to_Z_inj : Inj (=) (=) byte_to_Z.
Proof.
  intros a b H. unfold byte_to_Z in H. apply N2Z.inj in H.
  pose proof (Byte.of_to_N a) as Ha. pose proof (Byte.of_to_N b) as Hb.
  rewrite H in Ha. congruence.
Qed.

Lemma byte_of_to_Z b : byte_of_Z (byte_to_Z b) = b.
Proof.
  apply (inj byte_to_Z). rewrite byte_to_of_Z.
  apply Z.mod_small, byte_to_Z_range.
Qed.

(** ** Machine integers

    Unsigned integers of the sources are [Z] values; arithmetic that can leave
    the range is reduced explicitly with [u32]/[u64]. *)

Definition UINT32_MAX : Z := 4294967295.
Definition UINT64_MAX : Z := 18446744073709551615.
Definition u32 (z : Z) : Z := z mod 4294967296.
Definition u64 (z : Z) : Z := z mod 18446744073709551616.
Definition is_u32 (z : Z) : Prop := 0 ≤ z < 4294967296.
Definition is_u64 (z : Z) : Prop := 0 ≤ z < 18446744073709551616.
Definition is_u32b (z : Z) : bool := (0 <=? z) && (z <? 4294967296).
Definition is_u64b (z : Z) : bool := (0 <=? z) && (z <? 18446744073709551616).

#[export] Instance is_u32_dec z : Decision (is_u32 z).
Proof. unfold is_u32. apply _. Defined.
#[export] Instance is_u64_dec z : Decision (is_u64 z).
Proof. unfold is_u64. apply _. Defined.

Lemma u32_id z : is_u32 z → u32 z = z.
Proof. apply Z.mod_small. Qed.
Lemma u64_id z : is_u64 z → u64 z = z.
Proof. apply Z.mod_small. Qed.
Lemma u32_range z : is_u32 (u32 z).
Proof. unfold is_u32, u32. pose proof (Z.mod_pos_bound z 4294967296); lia. Qed.
Lemma u64_range z : is_u64 (u64 z).
Proof. unfold is_u64, u64. pose proof (Z.mod_pos_bound z 18446744073709551616); lia. Qed.
#[export] Hint Resolve u32_range u64_range byte_to_Z_range : db.

(** ** Little-endian integers

    [le_bytes n v] is the loop "push [v & 0xff]; [v >>= 8]" run [n] times;
    [read_le] is the loop "[v |= byte << (8 * i)]". *)

Fixpoint le_bytes (n : nat) (v : Z) : bytes :=
  match n with
  | O => []
  | S n' => byte_of_Z (Z.land v 255) :: le_bytes n' (Z.shiftr v 8)
  end.

Fixpoint read_le (i acc : Z) (bs : bytes) : Z :=
  match bs with
  | [] => acc
  | b :: bs' => read_le (i + 1) (Z.lor acc (Z.shiftl (byte_to_Z b) (8 * i))) bs'
  end.

(** Closed form of [read_le]. *)
Fixpoint le_value (bs : bytes) : Z :=
  match bs with
  | [] => 0
  | b :: bs' => byte_to_Z b + 256 * le_value bs'
  end.

Lemma length_le_bytes n v : length (le_bytes n v) = n.
Proof. revert v. induction n as [|n IH]; intros v; simpl; [done|]. by rewrite IH. Qed.
#[export] Hint Rewrite length_le_bytes @length_app @length_take @length_drop : db_len.

Lemma le_value_range bs : 0 ≤ le_value bs < 256 ^ Z.of_nat (length bs).
Proof.
  induction bs as [|b bs IH]; simpl le_value; simpl length; [lia|].
  rewrite Nat2Z.inj_succ, Z.pow_succ_r by lia.
  pose proof (byte_to_Z_range b). nia.
Qed.

Lemma land_shiftl_low a b k :
  0 ≤ k → 0 ≤ a < 2 ^ k → Z.land a (Z.shiftl b k) = 0.
Proof.
  intros Hk Ha. apply Z.bits_inj'. intros i Hi. rewrite Z.land_spec, Z.bits_0.
  destruct (Z.lt_ge_cases i k).
  - rewrite Z.shiftl_spec_low by lia. apply andb_false_r.
  - rewrite <- (Z.mod_small a (2 ^ k)) by lia.
    by rewrite Z.mod_pow2_bits_high by lia.
Qed.

Lemma lor_shiftl_add a b k :
  0 ≤ k → 0 ≤ a < 2 ^ k → Z.lor a (Z.shiftl b k) = a + b * 2 ^ k.
Proof.
  intros Hk Ha. pose proof (land_shiftl_low a b k Hk Ha) as Hl.
  rewrite <- Z.shiftl_mul_pow2 by lia.
  rewrite <- Z.lxor_lor by done. symmetry. by apply Z.add_nocarry_lxor.
Qed.

Lemma read_le_spec bs i acc :
  0 ≤ i → 0 ≤ acc < 256 ^ i → read_le i acc bs = acc + 256 ^ i * le_value bs.
Proof.
  revert i acc. induction bs as [|b bs IH]; intros i acc Hi Hacc; simpl; [lia|].
  pose proof (byte_to_Z_range b).
  assert (256 ^ i = 2 ^ (8 * i)) as E.
  { change 256 with (2 ^ 8). by rewrite <- Z.pow_mul_r by lia. }
  rewrite lor_shiftl_add by lia. rewrite <- E.
  assert (256 ^ (i + 1) = 256 * 256 ^ i) as E1 by (rewrite Z.pow_add_r by lia; lia).
  rewrite IH by nia. rewrite E1. ring.
Qed.

Lemma read_le_value bs : read_le 0 0 bs = le_value bs.
Proof. rewrite read_le_spec; lia. Qed.

Lemma le_value_bytes n v : le_value (le_bytes n v) = v mod 256 ^ Z.of_nat n.
Proof.
  revert v. induction n as [|n IH]; intros v; [simpl; by rewrite Z.mod_1_r|].
  cbn [le_bytes le_value].
  rewrite IH, byte_to_of_Z, land_255, Z.mod_mod by lia.
  rewrite Z.shiftr_div_pow2 by lia. change (2 ^ 8) with 256.
  rewrite Nat2Z.inj_succ, Z.pow_succ_r by lia.
  rewrite Z.rem_mul_r by lia. lia.
Qed.

Lemma drop_le n v (rest : bytes) : drop n (le_bytes n v ++ rest) = rest.
Proof. apply drop_app_length'. by rewrite length_le_bytes. Qed.
Lemma take_le n v (rest : bytes) : take n (le_bytes n v ++ rest) = le_bytes n v.
Proof. apply take_app_length'. by rewrite length_le_bytes. Qed.

(** [memcpy] of a little endian integer of [n] bytes at offset [pos]. *)
Definition read_at (pos n : nat) (bs : bytes) : Z := read_le 0 0 (take n (drop pos bs)).

Lemma read_at_le pos pre n v post : pos = length pre →
  read_at pos n (pre ++ le_bytes n v ++ post) = v mod 256 ^ Z.of_nat n.
Proof.
  intros ->. unfold read_at. by rewrite drop_app_length, take_le, read_le_value, le_value_bytes.
Qed.

Lemma le_bytes_value bs : le_bytes (length bs) (le_value bs) = bs.
Proof.
  induction bs as [|b bs IH]; simpl; [done|].
  pose proof (byte_to_Z_range b).
  assert (byte_to_Z b + 256 * le_value bs = byte_to_Z b + le_value bs * 256) as -> by lia.
  f_equal.
  - rewrite land_255, Z_mod_plus_full, Z.mod_small by lia. apply byte_of_to_Z.
  - rewrite Z.shiftr_div_pow2 by lia. change (2 ^ 8) with 256.
    rewrite Z.div_add, Z.div_small by lia. rewrite Z.add_0_l. apply IH.
Qed.

(** ** Big-endian integers

    [be_bytes n v] fills a buffer of [n] bytes from its last position down with
    [v & 0xff], shifting [v] right; [read_be] is "[v = (v << 8) | byte]". *)

Fixpoint be_fill (n : nat) (v : Z) (buf : bytes) : bytes :=
  match n with
  | O => buf
  | S n' => be_fill n' (Z.shiftr v 8) (byte_of_Z (Z.land v 255) :: buf)
  end.
Definition be_bytes (n : nat) (v : Z) : bytes := be_fill n v [].

Fixpoint read_be (wrap : Z → Z) (v : Z) (bs : bytes) : Z :=
  match bs with
  | [] => v
  | b :: bs' => read_be wrap (Z.lor (wrap (Z.shiftl v 8)) (byte_to_Z b)) bs'
  end.

Lemma be_fill_rev n v buf : be_fill n v buf = rev (le_bytes n v) ++ buf.
Proof.
  revert v buf. induction n as [|n IH]; intros v buf; simpl; [done|].
  by rewrite IH, <- app_assoc.
Qed.
Lemma be_bytes_rev n v : be_bytes n v = rev (le_bytes n v).
Proof. unfold be_bytes. by rewrite be_fill_rev, app_nil_r. Qed.
Lemma length_be_bytes n v : length (be_bytes n v) = n.
Proof. by rewrite be_bytes_rev, length_rev, length_le_bytes. Qed.
#[export] Hint Rewrite length_be_bytes : db_len.

(** Closed form of [read_be]. *)
Definition be_value (bs : bytes) : Z := le_value (rev bs).

Lemma le_value_app a b :
  le_value (a ++ b) = le_value a + 256 ^ Z.of_nat (length a) * le_value b.
Proof.
  induction a as [|x a IH]; simpl le_value; simpl length; [lia|].
  rewrite IH, Nat2Z.inj_succ, Z.pow_succ_r by lia. ring.
Qed.

Lemma be_value_cons b bs :
  be_value (b :: bs) = byte_to_Z b * 256 ^ Z.of_nat (length bs) + be_value bs.
Proof.
  unfold be_value. simpl rev. rewrite le_value_app, length_rev. simpl. ring.
Qed.

Lemma be_value_range bs : 0 ≤ be_value bs < 256 ^ Z.of_nat (length bs).
Proof. unfold be_value. pose proof (le_value_range (rev bs)) as H. by rewrite length_rev in H. Qed.

Lemma be_value_bytes n v : be_value (be_bytes n v) = v mod 256 ^ Z.of_nat n.
Proof. unfold be_value. by rewrite be_bytes_rev, rev_involutive, le_value_bytes. Qed.

Lemma be_bytes_value bs : be_bytes (length bs) (be_value bs) = bs.
Proof.
  unfold be_value. rewrite be_bytes_rev, <- (length_rev bs), le_bytes_value.
  apply rev_involutive.
Qed.

Lemma read_be_spec wrap (m : nat) bs v :
  (∀ z, 0 ≤ z < 256 ^ Z.of_nat m → wrap z = z) →
  0 ≤ v → (v + 1) * 256 ^ Z.of_nat (length bs) ≤ 256 ^ Z.of_nat m →
  read_be wrap v bs = v * 256 ^ Z.of_nat (length bs) + be_value bs.
Proof.
  intros Hw. revert v. induction bs as [|b bs IH]; intros v Hv Hb.
  { simpl. change (be_value []) with 0. lia. }
  simpl length in *. rewrite Nat2Z.inj_succ, Z.pow_succ_r in * by lia.
  rewrite be_value_cons. cbn [read_be].
  pose proof (byte_to_Z_range b).
  assert (1 ≤ 256 ^ Z.of_nat (length bs)).
  { pose proof (Z.pow_pos_nonneg 256 (Z.of_nat (length bs))). lia. }
  assert (Z.shiftl v 8 = v * 256) as E8 by (by rewrite Z.shiftl_mul_pow2 by lia).
  rewrite Hw by (rewrite E8; nia).
  rewrite Z.lor_comm, lor_shiftl_add by (simpl; lia).
  change (2 ^ 8) with 256.
  rewrite IH by nia. ring.
Qed.

Lemma read_be_value wrap bs :
  (∀ z, 0 ≤ z < 256 ^ Z.of_nat (length bs) → wrap z = z) →
  read_be wrap 0 bs = be_value bs.
Proof. intros Hw. rewrite (read_be_spec wrap (length bs)); [lia|done|lia|lia]. Qed.

(** ** Bytewise lexicographic order

    [std::string::compare] and RocksDB's [BytewiseComparator]: unsigned bytes
    compared left to right, a proper prefix being smaller. *)

Fixpoint bytes_compare (a b : bytes) : comparison :=
  match a, b with
  | [], [] => Eq
  | [], _ :: _ => Lt
  | _ :: _, [] => Gt
  | x :: a', y :: b' =>
      match Z.compare (byte_to_Z x) (byte_to_Z y) with
      | Eq => bytes_compare a' b'
      | c => c
      end
  end.

Definition bytes_ltb (a b : bytes) : bool :=
  match bytes_compare a b with Lt => true | _ => false end.
Definition bytes_leb (a b : bytes) : bool :=
  match bytes_compare a b with Gt => false | _ => true end.
Definition bytes_lt (a b : bytes) : Prop := bytes_compare a b = Lt.
Definition bytes_le (a b : bytes) : Prop := bytes_compare a b ≠ Gt.

#[export] Instance bytes_lt_dec a b : Decision (bytes_lt a b).
Proof. unfold bytes_lt. apply _. Defined.
#[export] Instance bytes_le_dec a b : Decision (bytes_le a b).
Proof. unfold bytes_le. apply _. Defined.

Lemma bytes_compare_eq a b : bytes_compare a b = Eq ↔ a = b.
Proof.
  split; [|intros ->].
  - revert b. induction a as [|x a IH]; intros [|y b]; simpl; try done.
    destruct (Z.compare_spec (byte_to_Z x) (byte_to_Z y)) as [E| |]; try done.
    intros H. by rewrite (inj byte_to_Z _ _ E), (IH _ H).
  - induction b as [|x b IH]; simpl; [done|]. by rewrite Z.compare_refl.
Qed.

Lemma bytes_compare_refl a : bytes_compare a a = Eq.
Proof. by apply bytes_compare_eq. Qed.

Lemma bytes_compare_antisym a b : bytes_compare b a = CompOpp (bytes_compare a b).
Proof.
  revert b. induction a as [|x a IH]; intros [|y b]; simpl; try done.
  rewrite (Z.compare_antisym (byte_to_Z x)).
  destruct (byte_to_Z x ?= byte_to_Z y); simpl; auto.
Qed.

Lemma bytes_lt_trans a b c : bytes_lt a b → bytes_lt b c → bytes_lt a c.
Proof.
  unfold bytes_lt. revert b c.
  induction a as [|x a IH]; intros [|y b] [|z c]; simpl; try done.
  destruct (Z.compare_spec (byte_to_Z x) (byte_to_Z y)) as [E|L|L],
    (Z.compare_spec (byte_to_Z y) (byte_to_Z z)) as [E'|L'|L'];
    intros H1 H2; try done.
  - rewrite E, E', Z.compare_refl. by apply (IH b).
  - rewrite E. by apply Z.compare_lt_iff in L' as ->.
  - rewrite <- E'. by apply Z.compare_lt_iff in L as ->.
  - assert (byte_to_Z x < byte_to_Z z) as L'' by lia.
    by apply Z.compare_lt_iff in L'' as ->.
Qed.

Lemma bytes_lt_irrefl a : ¬ bytes_lt a a.
Proof. unfold bytes_lt. by rewrite bytes_compare_refl. Qed.

Lemma bytes_lt_le a b : bytes_lt a b → bytes_le a b.
Proof. unfold bytes_lt, bytes_le. by intros ->. Qed.

Lemma bytes_le_lteq a b : bytes_le a b ↔ bytes_lt a b ∨ a = b.
Proof.
  unfold bytes_le, bytes_lt. rewrite <- bytes_compare_eq.
  destruct (bytes_compare a b); naive_solver.
Qed.

Lemma bytes_not_le a b : ¬ bytes_le a b ↔ bytes_lt b a.
Proof.
  unfold bytes_le, bytes_lt. rewrite (bytes_compare_antisym a b).
  destruct (bytes_compare a b); simpl; naive_solver.
Qed.

Lemma bytes_not_lt a b : ¬ bytes_lt a b ↔ bytes_le b a.
Proof.
  unfold bytes_le, bytes_lt. rewrite (bytes_compare_antisym a b).
  destruct (bytes_compare a b); simpl; naive_solver.
Qed.

Lemma bytes_le_trans a b c : bytes_le a b → bytes_le b c → bytes_le a c.
Proof.
  rewrite !bytes_le_lteq. intros [H| ->] [H'| ->]; eauto using bytes_lt_trans.
Qed.

Lemma bytes_lt_le_trans a b c : bytes_lt a b → bytes_le b c → bytes_lt a c.
Proof. rewrite bytes_le_lteq. intros H [H'| <-]; eauto using bytes_lt_trans. Qed.

Lemma bytes_le_lt_trans a b c : bytes_le a b → bytes_lt b c → bytes_lt a c.
Proof. rewrite bytes_le_lteq. intros [H| ->] H'; eauto using bytes_lt_trans. Qed.

Lemma bytes_le_refl a : bytes_le a a.
Proof. rewrite bytes_le_lteq. auto. Qed.

#[export] Instance bytes_lt_strict : StrictOrder bytes_lt.
Proof. split; [intros a; apply bytes_lt_irrefl | intros a b c; apply bytes_lt_trans]. Qed.

#[export] Hint Resolve bytes_lt_irrefl bytes_lt_le bytes_le_refl bytes_lt_trans
  bytes_lt_le_trans bytes_le_lt_trans : db.

Lemma bytes_ltb_spec a b : bytes_ltb a b = true ↔ bytes_lt a b.
Proof. unfold bytes_ltb, bytes_lt. destruct (bytes_compare a b); naive_solver. Qed.
Lemma bytes_leb_spec a b : bytes_leb a b = true ↔ bytes_le a b.
Proof. unfold bytes_leb, bytes_le. destruct (bytes_compare a b); naive_solver. Qed.
Lemma bytes_ltb_false a b : bytes_ltb a b = false ↔ bytes_le b a.
Proof. rewrite <- bytes_not_lt, <- bytes_ltb_spec. destruct (bytes_ltb a b); naive_solver. Qed.

Lemma bytes_compare_app p a b : bytes_compare (p ++ a) (p ++ b) = bytes_compare a b.
Proof. induction p as [|x p IH]; simpl; [done|]. by rewrite Z.compare_refl. Qed.

(** Two strings none of which is a prefix of the other are ordered by
    themselves, whatever is appended to them. *)
Lemma bytes_compare_not_prefix p q a b :
  ¬ p `prefix_of` q → ¬ q `prefix_of` p →
  bytes_compare (p ++ a) (q ++ b) = bytes_compare p q.
Proof.
  revert q. induction p as [|x p IH]; intros [|y q] Hp Hq; simpl.
  - by destruct Hp; apply prefix_nil.
  - by destruct Hp; apply prefix_nil.
  - by destruct Hq; apply prefix_nil.
  - destruct (Z.compare_spec (byte_to_Z x) (byte_to_Z y)) as [E| |]; try done.
    apply (inj byte_to_Z) in E as ->. apply IH.
    + intros ?. by apply Hp, prefix_cons.
    + intros ?. by apply Hq, prefix_cons.
Qed.

(** On strings of one length the order is the order of the big-endian values. *)
Lemma bytes_compare_be_value a b :
  length a = length b → bytes_compare a b = (be_value a ?= be_value b).
Proof.
  revert b. induction a as [|x a IH]; intros [|y b] Hl; simpl in Hl; try done.
  simplify_eq/=. rewrite !be_value_cons, Hl.
  pose proof (be_value_range a) as Ra. pose proof (be_value_range b) as Rb.
  rewrite Hl in Ra.
  destruct (Z.compare_spec (byte_to_Z x) (byte_to_Z y)) as [E|L|L].
  - rewrite E, IH by done. symmetry.
    destruct (Z.compare_spec (be_value a) (be_value b));
      [apply Z.compare_eq_iff|apply Z.compare_lt_iff|apply Z.compare_gt_iff]; lia.
  - symmetry. apply Z.compare_lt_iff. nia.
  - symmetry. apply Z.compare_gt_iff. nia.
Qed.

(** ** Counting and erasing in lists *)

(** [std::find] followed by [erase]: drops the first occurrence. *)
Fixpoint erase_first {A} `{EqDecision A} (x : A) (l : list A) : list A :=
  match l with
  | [] => []
  | y :: l => if decide (x = y) then l else y :: erase_first x l
  end.

Fixpoint cnt {A} `{EqDecision A} (x : A) (l : list A) : nat :=
  match l with
  | [] => 0
  | y :: l => (if decide (x = y) then 1 else 0) + cnt x l
  end.

Section counting.
Context {A : Type} `{EqDecision A}.
Implicit Types (x y : A) (l : list A).

Lemma cnt_app x l1 l2 : cnt x (l1 ++ l2) = (cnt x l1 + cnt x l2)%nat.
Proof. induction l1; simpl; [done|]. rewrite IHl1. lia. Qed.

Lemma cnt_elem_of x l : x ∈ l ↔ (0 < cnt x l)%nat.
Proof.
  induction l as [|y l IH]; simpl; [set_solver by lia|].
  rewrite elem_of_cons, IH. case_decide; [|naive_solver lia].
  split; [lia|by left].
Qed.

Lemma cnt_not_elem_of x l : x ∉ l → cnt x l = 0%nat.
Proof. rewrite cnt_elem_of. lia. Qed.

Lemma cnt_erase_first x y l :
  y ∈ l → cnt x l = ((if decide (x = y) then 1 else 0) + cnt x (erase_first y l))%nat.
Proof.
  induction l as [|z l IH]; simpl; [set_solver|].
  rewrite elem_of_cons. intros Hy. destruct (decide (y = z)) as [->|]; [done|].
  simpl. rewrite IH by naive_solver. lia.
Qed.

Lemma cnt_Permutation x l1 l2 : l1 ≡ₚ l2 → cnt x l1 = cnt x l2.
Proof. induction 1; simpl; lia. Qed.

Lemma erase_first_elem_of x y l : NoDup l → x ∈ erase_first y l ↔ x ∈ l ∧ x ≠ y.
Proof.
  induction l as [|z l IH]; simpl; [set_solver|].
  intros [Hz Hl]%NoDup_cons. case_decide; subst.
  - set_solver.
  - rewrite !elem_of_cons, IH by done. naive_solver.
Qed.

Lemma erase_first_NoDup y l : NoDup l → NoDup (erase_first y l).
Proof.
  induction l as [|z l IH]; simpl; [done|].
  intros [Hz Hl]%NoDup_cons. case_decide; [done|].
  apply NoDup_cons. rewrite erase_first_elem_of by done. naive_solver.
Qed.
End counting.

(** ** Sorted lists *)

Lemma StronglySorted_filter_impl {A} (R R' : relation A) (P : A → Prop) `{∀ x, Decision (P x)} l :
  (∀ a b, P a → P b → R a b → R' a b) → StronglySorted R l → StronglySorted R' (filter P l).
Proof.
  intros HR. induction 1 as [|a l Hl IH Ha]; [constructor|].
  rewrite filter_cons. case_decide as HP; [|done]. constructor; [done|].
  rewrite Forall_forall in Ha |- *. intros b [HPb Hb]%list_elem_of_filter. auto.
Qed.

Lemma StronglySorted_impl {A} (R R' : relation A) l :
  (∀ a b, R a b → R' a b) → StronglySorted R l → StronglySorted R' l.
Proof.
  intros HR. induction 1 as [|a l Hl IH Ha]; constructor; [done|].
  eapply Forall_impl; [done|]. auto.
Qed.
