(* ===== verification/Status.v ===== *)
(** * Status values (src/src/storage/status.h)

    Every fallible operation of the database returns a [Status]: a code and a
    message. *)
From S2P Require Import Prelude.
From stdpp Require Import base strings.
Local Open Scope Z_scope.

Inductive StatusCode :=
  | Ok | NotFound | TimedOut | Conflict | IOError | InvalidArgument | NotSupported.

#[export] Instance StatusCode_eq_dec : EqDecision StatusCode.
Proof. solve_decision. Defined.

(** [static_cast<uint32_t>(StatusCode)] *)
Definition StatusCode_to_Z (c : StatusCode) : Z :=
  match c with
  | Ok => 0 | NotFound => 1 | TimedOut => 2 | Conflict => 3
  | IOError => 4 | InvalidArgument => 5 | NotSupported => 6
  end.

Record Status := MkStatus { code : StatusCode; message : string }.

#[export] Instance Status_eq_dec : EqDecision Status.
Proof. solve_decision. Defined.

Module St.
Definition OK : Status := MkStatus Ok "".
Definition Error (c : StatusCode) (msg : string) : Status := MkStatus c msg.
Definition NotFound (msg : string) : Status := Error NotFound msg.
Definition IOError (msg : string) : Status := Error IOError msg.
Definition ok (s : Status) : bool := bool_decide (code s = Ok).
End St.

Lemma St_ok_OK : St.ok St.OK = true.
Proof. reflexivity. Qed.
Lemma St_ok_spec s : St.ok s = true ↔ code s = Ok.
Proof. unfold St.ok. apply bool_decide_eq_true. Qed.

(** A call that fails with a status or returns a value through its out
    parameters. *)
Abbreviation result A := (Status + A)%type.
