(* ===== verification/KeyEncoding.v ===== *)
(** * Storage keys (src/src/storage/key_encoding.{h,cpp})

    A stored key is [table_id] (4 bytes, big endian), the primary key bytes and
    the complemented write timestamp (8 bytes, big endian), so that the versions
    of one primary key are stored newest first. *)
From Stdlib Require Import Strings.Byte.
From S2P Require Import Prelude.
From stdpp Require Import base list.
Local Open Scope Z_scope.

Definition AppendBigEndianU32 (out : bytes) (v : Z) : bytes :=
  out ++ [byte_of_Z (Z.land (Z.shiftr v 24) 255); byte_of_Z (Z.land (Z.shiftr v 16) 255);
          byte_of_Z (Z.land (Z.shiftr v 8) 255); byte_of_Z (Z.land v 255)].

Definition AppendBigEndianU64 (out : bytes) (v : Z) : bytes := out ++ be_bytes 8 v.

Definition ReadBigEndianU32 (p : bytes) : Z := read_be u32 0 (take 4 p).
Definition ReadBigEndianU64 (p : bytes) : Z := read_be u64 0 (take 8 p).

(** [~write_ts] on 64 bits. *)
Definition InvertTimestamp (write_ts : Z) : Z := Z.land (Z.lnot write_ts) UINT64_MAX.

Definition EncodeKey (table_id : Z) (primary_key : bytes) (write_ts : Z) : bytes :=
  let out := AppendBigEndianU32 [] table_id in
  let out := out ++ primary_key in
  AppendBigEndianU64 out (InvertTimestamp write_ts).

Definition EncodeKeyPrefixNewest (table_id : Z) (primary_key : bytes) : bytes :=
  EncodeKey table_id primary_key UINT64_MAX.

Definition EncodePkSpanEnd (table_id : Z) (end_pk_exclusive : bytes) : bytes :=
  AppendBigEndianU32 [] table_id ++ end_pk_exclusive.

(** [DecodeKey] returns [None] where the code returns [false], and otherwise
    the three out parameters. *)
Definition DecodeKey (encoded : bytes) : option (Z * bytes * Z) :=
  if (length encoded <? 4 + 8)%nat then None
  else
    let table_id := ReadBigEndianU32 encoded in
    let pk_len := (length encoded - 4 - 8)%nat in
    let primary_key := take pk_len (drop 4 encoded) in
    let inv := ReadBigEndianU64 (drop (4 + pk_len) encoded) in
    Some (table_id, primary_key, InvertTimestamp inv).

(** ** Lemmas *)

Lemma AppendBigEndianU32_be out v : AppendBigEndianU32 out v = out ++ be_bytes 4 v.
Proof.
  unfold AppendBigEndianU32, be_bytes. cbn [be_fill].
  by rewrite !Z.shiftr_shiftr by lia.
Qed.

Lemma EncodeKey_alt tid pk ts :
  EncodeKey tid pk ts = be_bytes 4 tid ++ pk ++ be_bytes 8 (InvertTimestamp ts).
Proof.
  unfold EncodeKey, AppendBigEndianU64. by rewrite AppendBigEndianU32_be, <- !app_assoc.
Qed.

Lemma InvertTimestamp_sub ts : is_u64 ts → InvertTimestamp ts = UINT64_MAX - ts.
Proof.
  intros Hts. unfold InvertTimestamp.
  change UINT64_MAX with (Z.ones 64) at 1. rewrite Z.land_ones by lia.
  unfold Z.lnot, is_u64, UINT64_MAX in *.
  replace (Z.pred (- ts)) with (18446744073709551615 - ts + (-1) * 2 ^ 64) by lia.
  rewrite Z_mod_plus_full. apply Z.mod_small. lia.
Qed.

Lemma InvertTimestamp_range ts : is_u64 ts → is_u64 (InvertTimestamp ts).
Proof. intros H. rewrite InvertTimestamp_sub by done. unfold is_u64, UINT64_MAX in *. lia. Qed.

Lemma InvertTimestamp_invol ts : is_u64 ts → InvertTimestamp (InvertTimestamp ts) = ts.
Proof.
  intros H. rewrite (InvertTimestamp_sub (InvertTimestamp ts)), InvertTimestamp_sub by
    auto using InvertTimestamp_range. lia.
Qed.
#[export] Hint Resolve InvertTimestamp_range : db.

Lemma ReadBigEndianU32_be v rest : is_u32 v → ReadBigEndianU32 (be_bytes 4 v ++ rest) = v.
Proof.
  intros Hv. unfold ReadBigEndianU32. rewrite take_app_length' by len.
  rewrite read_be_value.
  - rewrite be_value_bytes. apply Z.mod_small, Hv.
  - intros z. rewrite length_be_bytes. intros Hz. by apply u32_id.
Qed.

Lemma ReadBigEndianU64_be v rest : is_u64 v → ReadBigEndianU64 (be_bytes 8 v ++ rest) = v.
Proof.
  intros Hv. unfold ReadBigEndianU64. rewrite take_app_length' by len.
  rewrite read_be_value.
  - rewrite be_value_bytes. apply Z.mod_small, Hv.
  - intros z. rewrite length_be_bytes. intros Hz. by apply u64_id.
Qed.

Lemma length_EncodeKey tid pk ts : length (EncodeKey tid pk ts) = (length pk + 12)%nat.
Proof. rewrite EncodeKey_alt. len. Qed.

Lemma Decode_Encode tid pk ts :
  is_u32 tid → is_u64 ts → DecodeKey (EncodeKey tid pk ts) = Some (tid, pk, ts).
Proof.
  intros Ht Hs. unfold DecodeKey. rewrite length_EncodeKey.
  destruct (Nat.ltb_spec (length pk + 12) (4 + 8)); [lia|].
  replace (length pk + 12 - 4 - 8)%nat with (length pk) by lia.
  rewrite EncodeKey_alt, ReadBigEndianU32_be by done.
  rewrite drop_app_length' by len. rewrite take_app_length' by done.
  rewrite app_assoc, drop_app_length' by len.
  rewrite <- (app_nil_r (be_bytes 8 _)), ReadBigEndianU64_be by auto with db.
  by rewrite InvertTimestamp_invol.
Qed.

Lemma EncodeKey_inj tid pk ts tid' pk' ts' :
  is_u32 tid → is_u64 ts → is_u32 tid' → is_u64 ts' →
  EncodeKey tid pk ts = EncodeKey tid' pk' ts' → tid = tid' ∧ pk = pk' ∧ ts = ts'.
Proof.
  intros ???? H. apply (f_equal DecodeKey) in H.
  rewrite !Decode_Encode in H by done. naive_solver.
Qed.

Lemma be_bytes_compare n a b :
  0 ≤ a < 256 ^ Z.of_nat n → 0 ≤ b < 256 ^ Z.of_nat n →
  bytes_compare (be_bytes n a) (be_bytes n b) = (a ?= b).
Proof.
  intros Ha Hb. rewrite bytes_compare_be_value by len.
  by rewrite !be_value_bytes, !Z.mod_small by done.
Qed.

(** Versions of one primary key are stored newest first. *)
Lemma EncodeKey_newest_first tid pk ts ts' :
  is_u64 ts → is_u64 ts' →
  bytes_compare (EncodeKey tid pk ts) (EncodeKey tid pk ts') = (ts' ?= ts).
Proof.
  intros H H'. rewrite !EncodeKey_alt, !bytes_compare_app.
  rewrite be_bytes_compare by (apply InvertTimestamp_range; done).
  rewrite !InvertTimestamp_sub by done.
  destruct (Z.compare_spec ts' ts);
    [apply Z.compare_eq_iff|apply Z.compare_lt_iff|apply Z.compare_gt_iff]; lia.
Qed.

(** Keys of different tables are ordered by table id. *)
Lemma EncodeKey_table_order tid tid' pk pk' ts ts' :
  is_u32 tid → is_u32 tid' → tid ≠ tid' →
  bytes_compare (EncodeKey tid pk ts) (EncodeKey tid' pk' ts') = (tid ?= tid').
Proof.
  intros Ht Ht' Hne. rewrite !EncodeKey_alt.
  assert (be_bytes 4 tid ≠ be_bytes 4 tid') as Hb.
  { intros E. apply (f_equal be_value) in E.
    rewrite !be_value_bytes, !Z.mod_small in E by done. done. }
  rewrite bytes_compare_not_prefix.
  - by apply be_bytes_compare.
  - intros Hp. apply Hb, prefix_length_eq; [done|len].
  - intros Hp. apply Hb. symmetry. apply prefix_length_eq; [done|len].
Qed.

(** Keys of one table whose primary keys are not prefixes of each other are
    ordered by primary key. *)
Lemma EncodeKey_pk_order tid pk pk' ts ts' :
  ¬ pk `prefix_of` pk' → ¬ pk' `prefix_of` pk →
  bytes_compare (EncodeKey tid pk ts) (EncodeKey tid pk' ts') = bytes_compare pk pk'.
Proof.
  intros Hp Hq. rewrite !EncodeKey_alt, bytes_compare_app.
  by apply bytes_compare_not_prefix.
Qed.

(** Every string of at least twelve bytes is the encoding of what it decodes to. *)
Lemma Encode_Decode k tid pk ts :
  DecodeKey k = Some (tid, pk, ts) → is_u32 tid ∧ is_u64 ts ∧ EncodeKey tid pk ts = k.
Proof.
  unfold DecodeKey. case_match eqn:Hl; [done|]. apply Nat.ltb_ge in Hl.
  intros [= <- <- <-].
  set (n := (length k - 4 - 8)%nat).
  set (hd := take 4 k). set (tl := drop (S (S (S (S n)))) k).
  assert (length hd = 4%nat) as Hhd by (unfold hd; len).
  assert (length tl = 8%nat) as Htl by (unfold tl, n; len).
  assert (ReadBigEndianU32 k = be_value hd) as ->.
  { unfold ReadBigEndianU32. fold hd. apply read_be_value.
    intros z. rewrite Hhd. apply u32_id. }
  assert (ReadBigEndianU64 tl = be_value tl) as ->.
  { unfold ReadBigEndianU64. rewrite take_ge by lia. apply read_be_value.
    intros z. rewrite Htl. apply u64_id. }
  pose proof (be_value_range hd) as R1. rewrite Hhd in R1.
  pose proof (be_value_range tl) as R2. rewrite Htl in R2.
  assert (is_u64 (be_value tl)) as R3 by exact R2.
  split_and!; [exact R1|auto with db|].
  rewrite EncodeKey_alt, InvertTimestamp_invol by done.
  rewrite <- Hhd, <- Htl at 1. rewrite !be_bytes_value.
  unfold hd, tl. rewrite <- (take_drop 4 k) at 4. f_equal.
  rewrite <- (take_drop n (drop 4 k)) at 2. f_equal. by rewrite drop_drop.
Qed.

(** ** Properties *)

(** The storage key codec is exact: decoding an encoded key returns the
    table, primary key and timestamp it was built from, and a byte string that
    decodes is the encoding of what it decodes to (strings shorter than twelve
    bytes do not decode). *)
Theorem key_codec_roundtrip (tid : Z) (pk : bytes) (ts : Z) (k : bytes)
    (Ht : is_u32 tid) (Hs : is_u64 ts) :
  DecodeKey (EncodeKey tid pk ts) = Some (tid, pk, ts) ∧
  (DecodeKey k = Some (tid, pk, ts) ↔ k = EncodeKey tid pk ts) ∧
  (DecodeKey k = None ↔ (length k < 12)%nat).
Proof.
  split_and!.
  - by apply Decode_Encode.
  - split; [intros (_ & _ & <-)%Encode_Decode|intros ->]; [done|by apply Decode_Encode].
  - unfold DecodeKey. destruct (Nat.ltb_spec (length k) (4 + 8)); naive_solver lia.
Qed.

Lemma key_codec_roundtrip_witness :
  is_u32 7 ∧ is_u64 300 ∧ DecodeKey (EncodeKey 7 [x61; x62] 300) = Some (7, [x61; x62], 300).
Proof.
  split; [done|]. split; [done|].
  apply (key_codec_roundtrip 7 [x61; x62] 300 []); done.
Defined.

(** The byte order of encoded keys is the order of the rows: by table id,
    then, for primary keys none of which is a proper prefix of the other, by
    primary key, and the versions of one row newest first. *)
Theorem key_order (tid tid' : Z) (pk pk' : bytes) (ts ts' : Z)
    (Ht : is_u32 tid) (Ht' : is_u32 tid') (Hs : is_u64 ts) (Hs' : is_u64 ts')
    (Hpk : pk = pk' ∨ (¬ pk `prefix_of` pk' ∧ ¬ pk' `prefix_of` pk)) :
  bytes_compare (EncodeKey tid pk ts) (EncodeKey tid' pk' ts') =
  match tid ?= tid' with
  | Eq => match bytes_compare pk pk' with Eq => ts' ?= ts | c => c end
  | c => c
  end.
Proof.
  destruct (Z.compare_spec tid tid') as [->|Hlt|Hlt].
  - destruct Hpk as [->|[Hp Hq]].
    + by rewrite bytes_compare_refl, EncodeKey_newest_first.
    + rewrite EncodeKey_pk_order by done. destruct (bytes_compare pk pk') eqn:E; [|done..].
      apply bytes_compare_eq in E as ->. by destruct Hp.
  - rewrite EncodeKey_table_order by (done || lia). by apply Z.compare_lt_iff.
  - rewrite EncodeKey_table_order by (done || lia). by apply Z.compare_gt_iff.
Qed.

Lemma key_order_witness :
  bytes_compare (EncodeKey 3 [x61; x62] 10) (EncodeKey 3 [x61; x63] 4) = Lt ∧
  bytes_compare (EncodeKey 3 [x61] 10) (EncodeKey 3 [x61] 4) = Lt.
Proof.
  split.
  - apply (key_order 3 3 [x61; x62] [x61; x63] 10 4); try done.
    right. split; intros [r E]; discriminate E.
  - apply (key_order 3 3 [x61] [x61] 10 4); try done. by left.
Defined.
