(* ===== verification/RocksDB.v ===== *)
(** * The key-value engine under the store

    The repository stores its data in RocksDB, which is not part of it. The
    store is written against this interface: [rdb_put] is [DB::Put] (with the
    text of a non-OK status), [rdb_seek db k] is a fresh iterator positioned
    with [Seek(k)] and read with [Next] until [Valid] is false. The laws are
    the documented behaviour of RocksDB: a successful [Put] sets one key, and an
    iterator shows, in ascending bytewise key order, exactly the entries at or
    after the target that the database held when it was created. *)
From S2P Require Import Prelude.
From stdpp Require Import base gmap list sorting strings.
Local Open Scope Z_scope.

Class RocksDB (DB : Type) := {
  rdb_put : DB → bytes → bytes → DB * option string;
  rdb_seek : DB → bytes → list (bytes * bytes);
  rdb_contents : DB → gmap bytes bytes;
}.

Definition key_lt (a b : bytes * bytes) : Prop := bytes_lt a.1 b.1.

Class RocksDBLaws (DB : Type) `{RocksDB DB} := {
  rdb_put_ok db k v db' :
    rdb_put db k v = (db', None) → rdb_contents db' = <[k := v]> (rdb_contents db);
  rdb_seek_sorted db k : StronglySorted key_lt (rdb_seek db k);
  rdb_seek_elem db k k' v :
    (k', v) ∈ rdb_seek db k ↔ rdb_contents db !! k' = Some v ∧ bytes_le k k';
}.

(** ** An in-memory engine

    A finite map whose iterator sorts the entries; every [Put] succeeds. It
    satisfies the laws, and the concrete runs of the development use it. *)

Definition key_le (a b : bytes * bytes) : Prop := bytes_le a.1 b.1.
#[export] Instance key_le_dec a b : Decision (key_le a b).
Proof. unfold key_le. apply _. Defined.
#[export] Instance key_le_total : Total key_le.
Proof.
  intros a b. unfold key_le. destruct (decide (bytes_le a.1 b.1)) as [|Hn]; [by left|].
  right. apply bytes_not_le in Hn. by apply bytes_lt_le.
Qed.
#[export] Instance key_le_trans : Transitive key_le.
Proof. intros a b c. unfold key_le. apply bytes_le_trans. Qed.

Abbreviation MemDB := (gmap bytes bytes).

#[export] Instance MemDB_RocksDB : RocksDB MemDB := {
  rdb_put db k v := (<[k := v]> db, None);
  rdb_seek db k := merge_sort key_le (map_to_list (filter (λ kv, bytes_le k kv.1) db));
  rdb_contents db := db;
}.

(** A list sorted by [key_le] without repeated keys is sorted strictly. *)
Lemma StronglySorted_key_lt l :
  StronglySorted key_le l → NoDup l.*1 → StronglySorted key_lt l.
Proof.
  induction 1 as [|a l Hs IH Ha]; simpl; [constructor|].
  intros Hnd. apply NoDup_cons in Hnd as [Hnot Hnd].
  constructor; [by apply IH|].
  rewrite Forall_forall in Ha |- *. intros b Hb.
  specialize (Ha b Hb). unfold key_le in Ha. rewrite bytes_le_lteq in Ha.
  destruct Ha as [|E]; [done|]. destruct Hnot. rewrite E. by apply list_elem_of_fmap_2.
Qed.

#[export] Instance MemDB_laws : RocksDBLaws MemDB.
Proof.
  split.
  - intros db k v db' [= <-]. done.
  - intros db k. simpl. apply StronglySorted_key_lt.
    + by apply (StronglySorted_merge_sort key_le).
    + rewrite merge_sort_Permutation. apply NoDup_fst_map_to_list.
  - intros db k k' v. simpl. rewrite merge_sort_Permutation, elem_of_map_to_list.
    by rewrite map_lookup_filter_Some.
Qed.
