(* ===== verification/MVCCStore.v ===== *)
(** * The multi-version store (src/src/storage/mvcc_store.{h,cpp})

    A store is a RocksDB database whose keys are encoded by [EncodeKey]. The
    abstract view of a database is the map of its contents; [visible] is the
    version a snapshot read has to return. *)
From Stdlib Require Import Strings.Byte.
From S2P Require Import Prelude Status KeyEncoding RocksDB.
From stdpp Require Import base gmap list sorting strings.
Local Open Scope Z_scope.

Definition kTombstone : bytes := [x00].

Definition IsTombstone (value : bytes) : bool :=
  (length value =? 1)%nat && bool_decide (head value = Some x00).

Section store.
Context `{RocksDB DB}.

(** The outcome of a RocksDB write as the store reports it. *)
Definition write_status (r : DB * option string) : DB * Status :=
  match r.2 with
  | Some e => (r.1, St.IOError e)
  | None => (r.1, St.OK)
  end.

Definition Put (db : DB) (table_id : Z) (key : bytes) (write_ts : Z) (value : bytes)
  : DB * Status :=
  let enc := EncodeKey table_id key write_ts in
  write_status (rdb_put db enc value).

Definition Delete (db : DB) (table_id : Z) (key : bytes) (write_ts : Z) : DB * Status :=
  let enc := EncodeKey table_id key write_ts in
  write_status (rdb_put db enc kTombstone).

Definition ReplayPut (db : DB) (table_id : Z) (key : bytes) (write_ts : Z) (value : bytes)
  : DB * Status :=
  Put db table_id key write_ts value.

Definition AcquireLock (db : DB) (table_id : Z) (key : bytes) (txn_id timeout : Z) : Status :=
  St.OK.
Definition ReleaseLock (db : DB) (table_id : Z) (key : bytes) (txn_id : Z) : Status :=
  St.OK.

(** The loop of [Get] over the iterator. *)
Fixpoint get_loop (table_id : Z) (key : bytes) (snapshot_ts : Z)
    (it : list (bytes * bytes)) : result (bytes * Z) :=
  match it with
  | [] => inl (St.NotFound "")
  | (k, v) :: it' =>
      match DecodeKey k with
      | None => inl (St.NotFound "")
      | Some (tid, pk, wts) =>
          if negb (tid =? table_id) || negb (bool_decide (pk = key))
          then inl (St.NotFound "")
          else if wts <=? snapshot_ts then
            (if IsTombstone v then inl (St.NotFound "") else inr (v, wts))
          else get_loop table_id key snapshot_ts it'
      end
  end.

Definition Get (db : DB) (table_id : Z) (key : bytes) (snapshot_ts : Z) : result (bytes * Z) :=
  let start := EncodeKeyPrefixNewest table_id key in
  get_loop table_id key snapshot_ts (rdb_seek db start).
End store.

(** ** Abstract view *)

(** The stored value of version [ts] of a primary key. *)
Definition version_at (m : gmap bytes bytes) (tid : Z) (pk : bytes) (ts : Z) : option bytes :=
  m !! EncodeKey tid pk ts.

(** [v], written at [ts], is the newest version at or before [snap]. *)
Definition visible (m : gmap bytes bytes) (tid : Z) (pk : bytes) (snap ts : Z) (v : bytes) : Prop :=
  is_u64 ts ∧ version_at m tid pk ts = Some v ∧ ts ≤ snap ∧
  ∀ ts', is_u64 ts' → ts < ts' ≤ snap → version_at m tid pk ts' = None.

(** Every key of the database is the encoding of some version. *)
Definition store_wf (m : gmap bytes bytes) : Prop :=
  ∀ k v, m !! k = Some v → ∃ tid pk ts, is_u32 tid ∧ is_u64 ts ∧ k = EncodeKey tid pk ts.

(** Neither of two primary keys is a proper prefix of the other. *)
Definition pk_compatible (pk pk' : bytes) : Prop :=
  pk = pk' ∨ (¬ pk `prefix_of` pk' ∧ ¬ pk' `prefix_of` pk).

(** [pk] is compatible with every primary key stored in the table. *)
Definition pk_isolated (m : gmap bytes bytes) (tid : Z) (pk : bytes) : Prop :=
  ∀ pk' ts v, is_u64 ts → version_at m tid pk' ts = Some v → pk_compatible pk pk'.

Lemma pk_compatible_sym pk pk' : pk_compatible pk pk' → pk_compatible pk' pk.
Proof. unfold pk_compatible. intuition. Qed.

(** Primary keys of one length never are proper prefixes of one another. *)
Lemma pk_compatible_same_length pk pk' : length pk = length pk' → pk_compatible pk pk'.
Proof.
  intros Hl. destruct (decide (pk = pk')) as [|Hne]; [by left|right].
  split; intros Hp; apply Hne; [|symmetry]; apply prefix_length_eq; auto; lia.
Qed.

Lemma visible_unique m tid pk snap ts v ts' v' :
  visible m tid pk snap ts v → visible m tid pk snap ts' v' → ts = ts' ∧ v = v'.
Proof.
  intros (Hu & Hv & Hle & Hmax) (Hu' & Hv' & Hle' & Hmax').
  assert (ts = ts') as ->.
  { destruct (Z.lt_trichotomy ts ts') as [L|[|L]]; [|done|].
    - rewrite Hmax in Hv' by (auto; lia). done.
    - rewrite Hmax' in Hv by (auto; lia). done. }
  rewrite Hv in Hv'. naive_solver.
Qed.

(** ** The loop over a sorted list of versions *)

Definition same_pk (tid : Z) (pk : bytes) (e : bytes * bytes) (ts : Z) : Prop :=
  DecodeKey e.1 = Some (tid, pk, ts).

Lemma get_loop_skip tid key snap l1 l2 :
  Forall (λ e, ∃ w, same_pk tid key e w ∧ snap < w) l1 →
  get_loop tid key snap (l1 ++ l2) = get_loop tid key snap l2.
Proof.
  induction 1 as [|[k v] l1 (w & Hd & Hw) _ IH]; [done|]. simpl.
  unfold same_pk in Hd. simpl in Hd. rewrite Hd, Z.eqb_refl. simpl.
  rewrite bool_decide_eq_true_2 by done. simpl.
  by destruct (Z.leb_spec w snap); [lia|].
Qed.

Lemma get_loop_hit tid key snap k v w l :
  same_pk tid key (k, v) w → w ≤ snap →
  get_loop tid key snap ((k, v) :: l) = if IsTombstone v then inl (St.NotFound "") else inr (v, w).
Proof.
  unfold same_pk. simpl. intros -> Hw. rewrite Z.eqb_refl. simpl.
  rewrite bool_decide_eq_true_2 by done. simpl.
  by destruct (Z.leb_spec w snap); [|lia].
Qed.

(** Where a successful loop stopped. *)
Lemma get_loop_found tid key snap l v w :
  get_loop tid key snap l = inr (v, w) →
  ∃ l1 k l2, l = l1 ++ (k, v) :: l2 ∧ same_pk tid key (k, v) w ∧ w ≤ snap ∧
    IsTombstone v = false ∧ Forall (λ e, ∃ w', same_pk tid key e w' ∧ snap < w') l1.
Proof.
  induction l as [|[k x] l IH]; simpl; [done|].
  destruct (DecodeKey k) as [[[t p] w0]|] eqn:Hd; [|done].
  destruct (Z.eqb_spec t tid) as [->|]; simpl; [|done].
  destruct (bool_decide_reflect (p = key)) as [->|]; simpl; [|done].
  destruct (Z.leb_spec w0 snap) as [Hle|Hgt].
  - destruct (IsTombstone x) eqn:Ht; [done|]. intros [= -> ->].
    exists [], k, l. unfold same_pk. auto.
  - intros Hr. destruct (IH Hr) as (l1 & k' & l2 & -> & ? & ? & ? & ?).
    exists ((k, x) :: l1), k', l2. split_and!; auto.
    constructor; [|done]. by exists w0.
Qed.

Lemma get_loop_error tid key snap l s :
  get_loop tid key snap l = inl s → s = St.NotFound "".
Proof.
  induction l as [|[k x] l IH]; simpl; [naive_solver|].
  repeat case_match; naive_solver.
Qed.

Lemma StronglySorted_app_lt {A} (R : A → A → Prop) l1 x l2 y :
  StronglySorted R (l1 ++ x :: l2) → y ∈ l1 → R y x.
Proof.
  induction l1 as [|z l1 IH]; simpl; [by intros _ ?%not_elem_of_nil|].
  intros Hs [->|Hy]%elem_of_cons; apply StronglySorted_inv in Hs as [Hs Hf].
  - rewrite Forall_forall in Hf. apply Hf. set_solver.
  - by apply IH.
Qed.

(** ** Order of the stored keys *)

Lemma EncodeKey_lt_newer tid pk ts ts' :
  is_u64 ts → is_u64 ts' →
  bytes_lt (EncodeKey tid pk ts) (EncodeKey tid pk ts') ↔ ts' < ts.
Proof.
  intros Hs Hs'. unfold bytes_lt. rewrite EncodeKey_newest_first by done.
  apply Z.compare_lt_iff.
Qed.

Lemma seek_start_le tid pk ts :
  is_u64 ts → bytes_le (EncodeKeyPrefixNewest tid pk) (EncodeKey tid pk ts).
Proof.
  intros Hs. unfold bytes_le, EncodeKeyPrefixNewest.
  rewrite EncodeKey_newest_first by (done || (unfold is_u64, UINT64_MAX; lia)).
  unfold is_u64, UINT64_MAX in *. intros Hgt. apply Z.compare_gt_iff in Hgt. lia.
Qed.

(** An entry of another row that an iterator started at a compatible primary
    key shows comes after every version of that primary key. *)
Lemma other_row_after tid key ts tid' pk' ts' :
  is_u32 tid → is_u32 tid' → is_u64 ts → is_u64 ts' →
  (tid' = tid → pk_compatible key pk') → (tid', pk') ≠ (tid, key) →
  bytes_le (EncodeKeyPrefixNewest tid key) (EncodeKey tid' pk' ts') →
  bytes_lt (EncodeKey tid key ts) (EncodeKey tid' pk' ts').
Proof.
  intros Ht Ht' Hs Hs' Hc Hne. unfold bytes_le, bytes_lt, EncodeKeyPrefixNewest.
  destruct (decide (tid = tid')) as [->|Htt].
  - destruct Hc as [->|[Hp Hq]]; [done|done|].
    rewrite !EncodeKey_pk_order by done. intros Hle.
    destruct (bytes_compare key pk') eqn:E; [|done|done].
    apply bytes_compare_eq in E. congruence.
  - rewrite !EncodeKey_table_order by (done || (unfold is_u64, UINT64_MAX; lia)).
    intros Hle. destruct (Z.compare_spec tid tid'); congruence.
Qed.

Section laws.
Context `{RocksDBLaws DB}.
Implicit Types (db : DB) (tid snap ts : Z) (key v : bytes).

Lemma seek_version db k tid pk ts v :
  is_u32 tid → is_u64 ts →
  (EncodeKey tid pk ts, v) ∈ rdb_seek db k ↔
  version_at (rdb_contents db) tid pk ts = Some v ∧ bytes_le k (EncodeKey tid pk ts).
Proof. intros Ht Hs. apply rdb_seek_elem. Qed.

Lemma seek_decode db k e :
  store_wf (rdb_contents db) → e ∈ rdb_seek db k →
  ∃ tid pk ts, is_u32 tid ∧ is_u64 ts ∧ e.1 = EncodeKey tid pk ts ∧ same_pk tid pk e ts ∧
    version_at (rdb_contents db) tid pk ts = Some e.2 ∧ bytes_le k e.1.
Proof.
  destruct e as [k' v]. intros Hwf [Hk Hle]%rdb_seek_elem.
  destruct (Hwf k' v Hk) as (tid & pk & ts & ? & ? & ->).
  exists tid, pk, ts. split_and!; auto. by apply Decode_Encode.
Qed.

(** What [Get] returns is always the visible version. *)
Lemma Get_visible db tid key snap v ts :
  is_u32 tid → Get db tid key snap = inr (v, ts) →
  visible (rdb_contents db) tid key snap ts v ∧ IsTombstone v = false.
Proof.
  intros Ht (l1 & k & l2 & Hl & Hd & Hle & Htomb & Hskip)%get_loop_found.
  pose proof (Encode_Decode _ _ _ _ Hd) as (_ & Hs & Hk). simpl in Hk. subst k.
  assert ((EncodeKey tid key ts, v) ∈ rdb_seek db (EncodeKeyPrefixNewest tid key)) as Hin.
  { rewrite Hl. set_solver. }
  apply seek_version in Hin as [Hv _]; [|done..].
  split; [|done]. split_and!; [done..|]. intros ts' Hs' Hr.
  destruct (version_at (rdb_contents db) tid key ts') as [v'|] eqn:Hv'; [exfalso|done].
  assert ((EncodeKey tid key ts', v') ∈ rdb_seek db (EncodeKeyPrefixNewest tid key)) as Hin'.
  { apply seek_version; auto using seek_start_le. }
  pose proof (rdb_seek_sorted db (EncodeKeyPrefixNewest tid key)) as Hsort.
  assert (bytes_lt (EncodeKey tid key ts') (EncodeKey tid key ts)) as Hlt
    by (apply EncodeKey_lt_newer; auto; lia).
  rewrite Hl in Hin', Hsort. apply elem_of_app in Hin' as [Hin'|Hin'].
  - rewrite Forall_forall in Hskip. destruct (Hskip _ Hin') as (w & Hw & Hgt).
    unfold same_pk in Hw. simpl in Hw. rewrite Decode_Encode in Hw by done.
    simplify_eq. lia.
  - apply elem_of_cons in Hin' as [E|Hin'].
    + apply (f_equal fst) in E. cbn [fst] in E. rewrite E in Hlt.
      by apply bytes_lt_irrefl in Hlt.
    + rewrite (app_assoc l1 [_] l2 : l1 ++ _ :: l2 = _) in Hsort.
      apply list_elem_of_split in Hin' as (m1 & m2 & ->).
      rewrite app_assoc in Hsort.
      pose proof (StronglySorted_app_lt _ _ _ _ (EncodeKey tid key ts, v) Hsort) as Hc.
      apply (bytes_lt_irrefl (EncodeKey tid key ts)).
      eapply bytes_lt_trans; [apply Hc; set_solver|done].
Qed.

(** Under key isolation the visible version is found. *)
Lemma Get_finds db tid key snap ts v :
  is_u32 tid → store_wf (rdb_contents db) → pk_isolated (rdb_contents db) tid key →
  visible (rdb_contents db) tid key snap ts v →
  Get db tid key snap = if IsTombstone v then inl (St.NotFound "") else inr (v, ts).
Proof.
  intros Ht Hwf Hiso (Hs & Hv & Hle & Hmax). unfold Get.
  set (start := EncodeKeyPrefixNewest tid key).
  assert ((EncodeKey tid key ts, v) ∈ rdb_seek db start) as Hin
    by (apply seek_version; [done..|split; [done|by apply seek_start_le]]).
  pose proof (rdb_seek_sorted db start) as Hsort.
  apply list_elem_of_split in Hin as (l1 & l2 & Hl).
  assert (∀ e, e ∈ l1 → e ∈ rdb_seek db start) as Hsub by (rewrite Hl; set_solver).
  rewrite Hl in Hsort |- *. rewrite get_loop_skip.
  - apply get_loop_hit; [|done]. by apply Decode_Encode.
  - apply Forall_forall. intros e He.
    pose proof (StronglySorted_app_lt _ _ _ _ e Hsort He) as Hlt.
    destruct (seek_decode db start e Hwf (Hsub e He)) as
      (tid' & pk' & ts' & Ht' & Hs' & Hk' & Hsame & Hv' & Hstart).
    unfold key_lt in Hlt. simpl in Hlt. rewrite Hk' in Hlt, Hstart.
    destruct (decide ((tid', pk') = (tid, key))) as [[= -> ->]|Hne].
    + exists ts'. split; [done|]. apply EncodeKey_lt_newer in Hlt; [|done..].
      destruct (Z.lt_ge_cases snap ts'); [done|].
      rewrite Hmax in Hv' by (auto; lia). done.
    + exfalso. apply (bytes_lt_irrefl (EncodeKey tid key ts)).
      eapply bytes_lt_trans; [|exact Hlt].
      apply other_row_after; auto. intros ->. by eapply Hiso.
Qed.
End laws.

(** ** Writes *)

Lemma version_at_insert m tid pk ts v tid' pk' ts' :
  is_u32 tid → is_u64 ts → is_u32 tid' → is_u64 ts' →
  version_at (<[EncodeKey tid pk ts := v]> m) tid' pk' ts' =
  if decide ((tid, pk, ts) = (tid', pk', ts')) then Some v else version_at m tid' pk' ts'.
Proof.
  intros Ht Hs Ht' Hs'. unfold version_at. case_decide as Heq.
  - simplify_eq. by rewrite lookup_insert_eq.
  - rewrite lookup_insert_ne; [done|]. intros E.
    apply EncodeKey_inj in E as (-> & -> & ->); auto.
Qed.

Lemma store_wf_insert m tid pk ts v :
  is_u32 tid → is_u64 ts → store_wf m → store_wf (<[EncodeKey tid pk ts := v]> m).
Proof.
  intros Ht Hs Hwf k v' [[<- _]|[_ Hk]]%lookup_insert_Some; [|by eapply Hwf].
  by exists tid, pk, ts.
Qed.

Lemma store_wf_empty : store_wf ∅.
Proof. intros k v. by rewrite lookup_empty. Qed.

(** A write after the snapshot, or to another row, is not seen by it. *)
Lemma visible_insert_unseen m tid pk ts v tid' pk' snap ts' v' :
  is_u32 tid → is_u64 ts → is_u32 tid' → snap < ts ∨ (tid, pk) ≠ (tid', pk') →
  visible (<[EncodeKey tid pk ts := v]> m) tid' pk' snap ts' v' ↔
  visible m tid' pk' snap ts' v'.
Proof.
  intros Ht Hs Ht' Hun.
  assert (∀ w, is_u64 w → w ≤ snap →
    version_at (<[EncodeKey tid pk ts := v]> m) tid' pk' w = version_at m tid' pk' w) as Heq.
  { intros w Hw Hle. rewrite version_at_insert by done.
    rewrite decide_False; [done|]. intros [= -> -> ->]. destruct Hun; [lia|done]. }
  unfold visible. split; intros (Hs' & Hv & Hle & Hmax); split_and!; auto.
  - by rewrite Heq in Hv.
  - intros w Hw Hr. rewrite <- Heq by (auto; lia). by apply Hmax.
  - by rewrite Heq.
  - intros w Hw Hr. rewrite Heq by (auto; lia). by apply Hmax.
Qed.

(** A write that is the newest up to the snapshot is what the snapshot sees. *)
Lemma visible_insert_new m tid pk ts v snap :
  is_u32 tid → is_u64 ts → ts ≤ snap →
  (∀ ts', is_u64 ts' → ts < ts' ≤ snap → version_at m tid pk ts' = None) →
  visible (<[EncodeKey tid pk ts := v]> m) tid pk snap ts v.
Proof.
  intros Ht Hs Hle Hnone. split_and!; auto.
  - rewrite version_at_insert by done. by rewrite decide_True.
  - intros ts' Hs' Hr. rewrite version_at_insert by done.
    rewrite decide_False by naive_solver lia. by apply Hnone.
Qed.

(** ** Key universes

    The primary keys a workload uses. [Get] and [Scan] are exact when no key of
    a table is a proper prefix of another one, for example when all have one
    length. *)
Class KeyUniverse := {
  pk_ok : Z → bytes → Prop;
  pk_ok_compatible tid a b : pk_ok tid a → pk_ok tid b → pk_compatible a b;
}.

Definition store_in `{KeyUniverse} (m : gmap bytes bytes) : Prop :=
  store_wf m ∧ ∀ tid pk ts v, is_u32 tid → is_u64 ts → version_at m tid pk ts = Some v → pk_ok tid pk.

Definition fixed_width (n : nat) : KeyUniverse :=
  {| pk_ok tid k := length k = n;
     pk_ok_compatible tid a b Ha Hb := pk_compatible_same_length a b (eq_trans Ha (eq_sym Hb)) |}.

Section universe.
Context `{KeyUniverse}.

Lemma store_in_empty : store_in ∅.
Proof. split; [apply store_wf_empty|]. intros tid pk ts v _ _. unfold version_at. by rewrite lookup_empty. Qed.

Lemma store_in_insert m tid pk ts v :
  is_u32 tid → is_u64 ts → pk_ok tid pk → store_in m →
  store_in (<[EncodeKey tid pk ts := v]> m).
Proof.
  intros Ht Hs Hok [Hwf Hin]. split; [by apply store_wf_insert|].
  intros tid' pk' ts' v' Ht' Hs'. rewrite version_at_insert by done.
  case_decide; [naive_solver|]. by eapply Hin.
Qed.

Lemma store_in_isolated m tid pk :
  is_u32 tid → store_in m → pk_ok tid pk → pk_isolated m tid pk.
Proof.
  intros Ht [_ Hin] Hok pk' ts v Hs Hv. eapply pk_ok_compatible; [done|].
  by eapply Hin.
Qed.
End universe.
#[export] Hint Resolve store_in_empty store_in_insert store_in_isolated store_wf_empty
  store_wf_insert : db.

Section results.
Context `{RocksDBLaws DB}.
Implicit Types (db : DB) (tid snap ts : Z) (key v : bytes).

Lemma Put_contents db tid key ts v db' s :
  Put db tid key ts v = (db', s) → St.ok s = true →
  rdb_contents db' = <[EncodeKey tid key ts := v]> (rdb_contents db).
Proof.
  unfold Put, write_status. destruct (rdb_put _ _ _) as [d [e|]] eqn:E; simpl;
    intros [= <- <-]; [done|]. intros _. by apply rdb_put_ok.
Qed.

Lemma Delete_Put db tid key ts : Delete db tid key ts = Put db tid key ts kTombstone.
Proof. done. Qed.

Lemma Get_iff db tid key snap :
  is_u32 tid → store_wf (rdb_contents db) → pk_isolated (rdb_contents db) tid key →
  ∀ v ts, Get db tid key snap = inr (v, ts) ↔
    visible (rdb_contents db) tid key snap ts v ∧ IsTombstone v = false.
Proof.
  intros Ht Hwf Hiso v ts. split; [by apply Get_visible|].
  intros [Hv Hn]. rewrite (Get_finds _ _ _ _ _ _ Ht Hwf Hiso Hv). by rewrite Hn.
Qed.

Lemma Get_cases db tid key snap :
  (∃ v ts, Get db tid key snap = inr (v, ts)) ∨ Get db tid key snap = inl (St.NotFound "").
Proof.
  destruct (Get db tid key snap) as [s|[v ts]] eqn:E; [|eauto].
  right. f_equal. unfold Get in E. by apply get_loop_error in E.
Qed.

(** Databases with the same visible versions answer alike. *)
Lemma Get_ext db db' tid key snap :
  is_u32 tid → store_wf (rdb_contents db) → store_wf (rdb_contents db') →
  pk_isolated (rdb_contents db) tid key → pk_isolated (rdb_contents db') tid key →
  (∀ ts v, visible (rdb_contents db) tid key snap ts v ↔
           visible (rdb_contents db') tid key snap ts v) →
  Get db tid key snap = Get db' tid key snap.
Proof.
  intros Ht Hw Hw' Hi Hi' Hvis.
  destruct (Get_cases db tid key snap) as [(v & ts & E)|E].
  - rewrite E. symmetry. apply Get_iff in E as [Hv Hn]; [|done..].
    apply Get_iff; [done..|]. by rewrite <- Hvis.
  - rewrite E. destruct (Get_cases db' tid key snap) as [(v & ts & E')|E']; [|done].
    apply Get_iff in E' as [Hv Hn]; [|done..]. rewrite <- Hvis in Hv.
    assert (Get db tid key snap = inr (v, ts)) by (apply Get_iff; auto). congruence.
Qed.
End results.

(** ** Properties *)

(** A small store used by the concrete runs: rows of table 1 with one-byte
    primary keys; row [a] has two versions, row [b] was deleted at 6. *)
Definition demo_store : MemDB :=
  <[EncodeKey 1 [x61] 5 := [x31]]> (<[EncodeKey 1 [x61] 8 := [x32]]>
    (<[EncodeKey 1 [x62] 3 := [x33]]> (<[EncodeKey 1 [x62] 6 := kTombstone]> ∅))).

Lemma demo_store_in : @store_in (fixed_width 1) demo_store.
Proof.
  unfold demo_store.
  repeat (apply (@store_in_insert (fixed_width 1)); [done..|]).
  apply (@store_in_empty (fixed_width 1)).
Defined.

Lemma demo_table : is_u32 1.
Proof. unfold is_u32. lia. Defined.

#[global] Opaque demo_store.

(** C29. [MVCCStore::Get] is a snapshot read of a key that stands alone. On a store whose
    keys were written by the store, for a primary key that neither extends nor is extended
    by another stored key of its table (a key that another one extends can be missed:
    [Get_misses_prefix_key]), it returns value and timestamp of the newest version at or
    before the snapshot, and NotFound exactly when there is none or it is a tombstone. *)
Theorem Get_correct {DB : Type} `{RocksDBLaws DB} (db : DB) (tid : Z) (key : bytes) (snap : Z)
    (Ht : is_u32 tid) (Hwf : store_wf (rdb_contents db))
    (Hiso : pk_isolated (rdb_contents db) tid key) :
  (∀ v ts, Get db tid key snap = inr (v, ts) ↔
     visible (rdb_contents db) tid key snap ts v ∧ IsTombstone v = false) ∧
  (Get db tid key snap = inl (St.NotFound "") ↔
     ¬ ∃ v ts, visible (rdb_contents db) tid key snap ts v ∧ IsTombstone v = false).
Proof.
  split; [by apply Get_iff|]. split.
  - intros E (v & ts & Hv). apply (Get_iff db) in Hv; [congruence|done..].
  - intros Hn. destruct (Get_cases db tid key snap) as [(v & ts & E)|E]; [|done].
    destruct Hn. exists v, ts. by apply (Get_iff db).
Qed.

Lemma Get_correct_witness :
  Get demo_store 1 [x61] 7 = inr ([x31], 5) ∧ Get demo_store 1 [x61] 9 = inr ([x32], 8) ∧
  Get demo_store 1 [x62] 7 = inl (St.NotFound "") ∧
  visible demo_store 1 [x61] 7 5 [x31].
Proof.
  assert (Get demo_store 1 [x61] 7 = inr ([x31], 5)) as E by (vm_compute; reflexivity).
  split; [exact E|]. split; [vm_compute; reflexivity|]. split; [vm_compute; reflexivity|].
  pose proof (@store_in_isolated (fixed_width 1) demo_store 1 [x61] demo_table demo_store_in eq_refl)
    as Hiso.
  destruct (Get_correct demo_store 1 [x61] 7 demo_table) as [Hc _];
    [exact (proj1 demo_store_in)|exact Hiso|].
  exact (proj1 (proj1 (Hc _ _) E)).
Defined.

(** Snapshot reads are stable: a [Put] or [Delete] at a timestamp after the
    snapshot changes the result of no [Get] at that snapshot, whatever row it
    writes. *)
Theorem Get_snapshot_stable {DB : Type} `{RocksDBLaws DB} {HK : KeyUniverse}
    (db db' : DB) (tid : Z) (key : bytes) (ts : Z) (v : bytes) (tid' : Z) (key' : bytes) (snap : Z)
    (Ht : is_u32 tid) (Hs : is_u64 ts) (Ht' : is_u32 tid')
    (Hk : pk_ok tid key) (Hk' : pk_ok tid' key')
    (Hin : store_in (rdb_contents db)) (Hlt : snap < ts)
    (Hput : Put db tid key ts v = (db', St.OK) ∨ Delete db tid key ts = (db', St.OK)) :
  Get db' tid' key' snap = Get db tid' key' snap.
Proof.
  assert (∃ x, rdb_contents db' = <[EncodeKey tid key ts := x]> (rdb_contents db)) as [x Hc].
  { destruct Hput as [Hp|Hp]; [|rewrite Delete_Put in Hp]; eexists; by eapply Put_contents. }
  assert (store_in (rdb_contents db')) as Hin' by (rewrite Hc; by apply store_in_insert).
  apply Get_ext; [done|apply Hin'|apply Hin|by apply store_in_isolated..|].
  intros w y. rewrite Hc. apply visible_insert_unseen; auto.
Qed.

Lemma Get_snapshot_stable_witness :
  Get (Put demo_store 1 [x61] 9 [x39]).1 1 [x61] 7 = inr ([x31], 5).
Proof.
  transitivity (Get demo_store 1 [x61] 7); [|vm_compute; reflexivity].
  apply (Get_snapshot_stable (HK := fixed_width 1) demo_store
           (Put demo_store 1 [x61] 9 [x39]).1 1 [x61] 9 [x39] 1 [x61] 7);
    [exact demo_table|done|exact demo_table|reflexivity|reflexivity|exact demo_store_in|lia|].
  left. reflexivity.
Defined.

(** A row written at [ts] is read back by every snapshot from [ts] on up to
    the next version, and a deleted row is not found there. *)
Theorem Get_after_write {DB : Type} `{RocksDBLaws DB} {HK : KeyUniverse}
    (db db' : DB) (tid : Z) (key : bytes) (ts : Z) (v : bytes) (snap : Z)
    (Ht : is_u32 tid) (Hs : is_u64 ts) (Hk : pk_ok tid key) (Hin : store_in (rdb_contents db))
    (Hle : ts ≤ snap)
    (Hnone : ∀ ts', is_u64 ts' → ts < ts' ≤ snap → version_at (rdb_contents db) tid key ts' = None) :
  (Put db tid key ts v = (db', St.OK) → IsTombstone v = false →
     Get db' tid key snap = inr (v, ts)) ∧
  (Delete db tid key ts = (db', St.OK) → Get db' tid key snap = inl (St.NotFound "")).
Proof.
  assert (∀ x, Put db tid key ts x = (db', St.OK) →
    Get db' tid key snap = if IsTombstone x then inl (St.NotFound "") else inr (x, ts)) as Hput.
  { intros x Hc. apply Put_contents in Hc; [|done].
    assert (store_in (rdb_contents db')) as Hin' by (rewrite Hc; by apply store_in_insert).
    apply Get_finds; [done|apply Hin'|by apply store_in_isolated|].
    rewrite Hc. by apply visible_insert_new. }
  split.
  - intros Hp Hn. rewrite (Hput v Hp). by rewrite Hn.
  - rewrite Delete_Put. intros Hp. by rewrite (Hput _ Hp).
Qed.

Lemma Get_after_write_witness :
  Get (Put demo_store 1 [x62] 9 [x39]).1 1 [x62] 9 = inr ([x39], 9) ∧
  Get (Delete demo_store 1 [x61] 9).1 1 [x61] 9 = inl (St.NotFound "").
Proof.
  split.
  - apply (Get_after_write (HK := fixed_width 1) demo_store
             (Put demo_store 1 [x62] 9 [x39]).1 1 [x62] 9 [x39] 9);
      [done..|apply demo_store_in|lia|intros; lia|reflexivity|reflexivity].
  - apply (Get_after_write (HK := fixed_width 1) demo_store
             (Delete demo_store 1 [x61] 9).1 1 [x61] 9 [x39] 9);
      [done..|apply demo_store_in|lia|intros; lia|reflexivity].
Defined.

(** Without key isolation [Get] loses rows: once a row whose primary key
    extends the one asked for is stored (here "10" next to "1"), the longer key
    sorts between the seek key and the versions of the shorter one, and [Get]
    answers NotFound for a row that is stored and visible. *)
Theorem Get_misses_prefix_key :
  let db0 : MemDB := (Put (∅ : MemDB) 1 [x31] 5 [x61]).1 in
  let db1 : MemDB := (Put db0 1 [x31; x30] 5 [x62]).1 in
  Get db0 1 [x31] 5 = inr ([x61], 5) ∧
  visible db1 1 [x31] 5 5 [x61] ∧ IsTombstone [x61] = false ∧
  Get db1 1 [x31] 5 = inl (St.NotFound "").
Proof.
  split_and!; [vm_compute; reflexivity| |done|vm_compute; reflexivity].
  apply visible_insert_unseen; [done..|by right|].
  apply visible_insert_new; [done..|lia|intros; lia].
Qed.
