(* ===== verification/MVCCIterator.v ===== *)
(** * Snapshot scans (src/src/storage/mvcc_iterator.cpp)

    [MVCCIterator] walks the RocksDB iterator and shows, for every primary key
    of a range, the version visible at the snapshot, skipping deleted rows. The
    RocksDB iterator is the list of the entries it still has to show. *)
From Stdlib Require Import Strings.Byte.
From S2P Require Import Prelude Status KeyEncoding RocksDB MVCCStore.
From stdpp Require Import base gmap list sorting strings.
Local Open Scope Z_scope.

Definition kTombstoneByte : byte := x00.

Definition IsDeleteMarker (value : bytes) : bool :=
  (length value =? 1)%nat && bool_decide (head value = Some kTombstoneByte).

Record MVCCIterator := MkIter {
  it_ : list (bytes * bytes);
  table_id_ : Z;
  start_pk_ : bytes;
  end_pk_exclusive_ : bytes;
  snapshot_ts_ : Z;
  open_end_exclusive_ : bool;
  valid_ : bool;
  current_pk_ : bytes;
  current_value_ : bytes;
  current_write_ts_ : Z;
}.

Definition set_it (i : MVCCIterator) (l : list (bytes * bytes)) : MVCCIterator :=
  MkIter l (table_id_ i) (start_pk_ i) (end_pk_exclusive_ i) (snapshot_ts_ i)
    (open_end_exclusive_ i) (valid_ i) (current_pk_ i) (current_value_ i) (current_write_ts_ i).
Definition set_valid (i : MVCCIterator) (b : bool) : MVCCIterator :=
  MkIter (it_ i) (table_id_ i) (start_pk_ i) (end_pk_exclusive_ i) (snapshot_ts_ i)
    (open_end_exclusive_ i) b (current_pk_ i) (current_value_ i) (current_write_ts_ i).
Definition set_current (i : MVCCIterator) (pk v : bytes) (ts : Z) : MVCCIterator :=
  MkIter (it_ i) (table_id_ i) (start_pk_ i) (end_pk_exclusive_ i) (snapshot_ts_ i)
    (open_end_exclusive_ i) true pk v ts.

(** The loops that call [it_->Next()] while the entry belongs to row [pk]. *)
Fixpoint skip_row (tid : Z) (pk : bytes) (l : list (bytes * bytes)) : list (bytes * bytes) :=
  match l with
  | [] => []
  | (k, _) :: l' =>
      match DecodeKey k with
      | Some (t, p, _) =>
          if negb (t =? tid) || negb (bool_decide (p = pk)) then l else skip_row tid pk l'
      | None => l
      end
  end.

(** The loop that looks for the first version at or before the snapshot; the
    iterator stays on the version it found. *)
Fixpoint find_visible (tid : Z) (pk : bytes) (snap : Z) (l : list (bytes * bytes))
  : option (bytes * Z) * list (bytes * bytes) :=
  match l with
  | [] => (None, [])
  | (k, v) :: l' =>
      match DecodeKey k with
      | Some (t, p, w) =>
          if negb (t =? tid) || negb (bool_decide (p = pk)) then (None, l)
          else if w <=? snap then (Some (v, w), l)
          else find_visible tid pk snap l'
      | None => (None, l)
      end
  end.

(** [MVCCIterator::Advance]; [fuel] bounds the rounds of its outer loop. *)
Fixpoint Advance_loop (fuel : nat) (i : MVCCIterator) : MVCCIterator :=
  match fuel with
  | O => i
  | S fuel' =>
      match it_ i with
      | [] => set_valid i false
      | (k, _) :: rest =>
          match DecodeKey k with
          | None => Advance_loop fuel' (set_it i rest)
          | Some (tid, pk, _) =>
              if negb (tid =? table_id_ i) then set_valid i false
              else if negb (open_end_exclusive_ i) &&
                      bytes_leb (end_pk_exclusive_ i) pk then set_valid i false
              else if negb (bool_decide (start_pk_ i = [])) && bytes_ltb pk (start_pk_ i)
              then Advance_loop fuel' (set_it i rest)
              else
                match find_visible (table_id_ i) pk (snapshot_ts_ i) (it_ i) with
                | (None, l) => Advance_loop fuel' (set_it i l)
                | (Some (chosen_val, chosen_ts), l) =>
                    if IsDeleteMarker chosen_val
                    then Advance_loop fuel' (set_it i (skip_row (table_id_ i) pk l))
                    else set_it (set_current i pk chosen_val chosen_ts)
                           (skip_row (table_id_ i) pk l)
                end
          end
      end
  end.

(** Every round consumes an entry, so one more round than entries is enough. *)
Definition Advance (i : MVCCIterator) : MVCCIterator := Advance_loop (S (length (it_ i))) i.

Definition Next (i : MVCCIterator) : MVCCIterator :=
  match it_ i with
  | [] => set_valid i false
  | (k, _) :: _ =>
      match DecodeKey k with
      | None => set_valid i false
      | Some (tid, _, _) =>
          if negb (tid =? table_id_ i) then set_valid i false
          else Advance (set_it i (skip_row (table_id_ i) (current_pk_ i) (it_ i)))
      end
  end.

Section scan.
Context `{RocksDB DB}.

(** [MVCCStore::Scan]: the constructor of the iterator. *)
Definition Scan (db : DB) (table_id : Z) (start end_exclusive : bytes) (snapshot_ts : Z)
    (open_end_exclusive : bool) : MVCCIterator :=
  let seek_key := EncodeKeyPrefixNewest table_id start in
  Advance (MkIter (rdb_seek db seek_key) table_id start end_exclusive snapshot_ts
             open_end_exclusive false [] [] 0).
End scan.

(** The client loop "while [Valid]: read the row; [Next]". *)
Fixpoint scan_rows (fuel : nat) (i : MVCCIterator) : list (bytes * bytes * Z) :=
  match fuel with
  | O => []
  | S fuel' =>
      if valid_ i
      then (current_pk_ i, current_value_ i, current_write_ts_ i) :: scan_rows fuel' (Next i)
      else []
  end.

Definition rows_of (i : MVCCIterator) : list (bytes * bytes * Z) := scan_rows (S (length (it_ i))) i.

(** ** Decoded entries

    The proofs work on the decoded entries of the iterator: table, primary key,
    timestamp and value, ordered by table, primary key and falling timestamp. *)

Definition ver : Type := Z * bytes * Z * bytes.
Definition enc (e : ver) : bytes * bytes := let '(t, p, w, v) := e in (EncodeKey t p w, v).
Definition ver_ok (e : ver) : Prop := let '(t, _, w, _) := e in is_u32 t ∧ is_u64 w.
Definition ver_row (e : ver) : Z * bytes := let '(t, p, _, _) := e in (t, p).
Definition ver_ts (e : ver) : Z := let '(_, _, w, _) := e in w.
Definition row_lt (r r' : Z * bytes) : Prop := r.1 < r'.1 ∨ (r.1 = r'.1 ∧ bytes_lt r.2 r'.2).
Definition ver_lt (e e' : ver) : Prop :=
  row_lt (ver_row e) (ver_row e') ∨ (ver_row e = ver_row e' ∧ ver_ts e' < ver_ts e).

Lemma row_lt_irrefl r : ¬ row_lt r r.
Proof. unfold row_lt. intros [|[_ ?%bytes_lt_irrefl]]; [lia|done]. Qed.
Lemma row_lt_trans r1 r2 r3 : row_lt r1 r2 → row_lt r2 r3 → row_lt r1 r3.
Proof.
  unfold row_lt. intros [|[]] [|[]]; [left; lia..|right].
  split; [congruence|eauto with db].
Qed.

Fixpoint drop_row (r : Z * bytes) (l : list ver) : list ver :=
  match l with
  | [] => []
  | e :: l' => if decide (ver_row e = r) then drop_row r l' else l
  end.

Fixpoint find_row (r : Z * bytes) (snap : Z) (l : list ver) : option (bytes * Z) * list ver :=
  match l with
  | [] => (None, [])
  | e :: l' =>
      if decide (ver_row e = r)
      then if decide (ver_ts e ≤ snap) then (Some (e.2, ver_ts e), l) else find_row r snap l'
      else (None, l)
  end.

Lemma row_test t p (t' : Z) (p' : bytes) :
  negb (t' =? t) || negb (bool_decide (p' = p)) = negb (bool_decide ((t', p') = (t, p))).
Proof.
  destruct (Z.eqb_spec t' t) as [->|]; simpl.
  - repeat case_bool_decide; naive_solver.
  - rewrite bool_decide_eq_false_2 by naive_solver. done.
Qed.

Lemma skip_row_enc t p l :
  Forall ver_ok l → skip_row t p (enc <$> l) = enc <$> drop_row (t, p) l.
Proof.
  induction 1 as [|[[[t' p'] w] v] l [Ht Hw] Hl IH]; [done|].
  cbn [skip_row fmap list_fmap enc drop_row ver_row].
  rewrite Decode_Encode, row_test by done. case_bool_decide; case_decide; done.
Qed.

Lemma find_visible_enc t p s l :
  Forall ver_ok l →
  find_visible t p s (enc <$> l) =
  ((find_row (t, p) s l).1, enc <$> (find_row (t, p) s l).2).
Proof.
  induction 1 as [|[[[t' p'] w] v] l [Ht Hw] Hl IH]; [done|].
  cbn [find_visible fmap list_fmap enc find_row ver_row ver_ts].
  rewrite Decode_Encode, row_test by done.
  case_bool_decide; case_decide; try done. simpl.
  destruct (Z.leb_spec w s); case_decide; simpl; try done; lia.
Qed.

Lemma drop_row_suffix r l : drop_row r l `suffix_of` l.
Proof.
  induction l as [|e l IH]; simpl; [done|].
  case_decide; [|done]. by apply suffix_cons_r.
Qed.

Lemma drop_row_length r l : (length (drop_row r l) ≤ length l)%nat.
Proof. apply suffix_length, drop_row_suffix. Qed.

Lemma Forall_suffix {A} (P : A → Prop) l l' : l `suffix_of` l' → Forall P l' → Forall P l.
Proof. intros [k ->]. by intros [_ ?]%Forall_app. Qed.

Lemma suffix_elem {A} (l l' : list A) e : l `suffix_of` l' → e ∈ l → e ∈ l'.
Proof. intros [k ->]. set_solver. Qed.

Lemma StronglySorted_suffix {A} (R : A → A → Prop) l l' :
  l `suffix_of` l' → StronglySorted R l' → StronglySorted R l.
Proof.
  intros [k ->]. induction k as [|x k IH]; simpl; [done|].
  intros [? _]%StronglySorted_inv. by apply IH.
Qed.

(** In a sorted list the entries of the head row are a prefix. *)
Lemma drop_row_elem r l e :
  StronglySorted ver_lt l → (∀ e', head l = Some e' → ver_row e' = r ∨ row_lt r (ver_row e')) →
  e ∈ drop_row r l ↔ e ∈ l ∧ ver_row e ≠ r.
Proof.
  induction l as [|e0 l IH]; simpl; [set_solver|]. intros Hs Hh.
  apply StronglySorted_inv in Hs as [Hs Hf]. rewrite Forall_forall in Hf.
  case_decide as Hr.
  - rewrite elem_of_cons, IH; [naive_solver|done|].
    intros e' He'. assert (e' ∈ l) as Hin by (destruct l; naive_solver set_solver).
    destruct (Hf e' Hin) as [Hlt|[Heq _]]; rewrite <- Hr; auto.
  - destruct (Hh e0 eq_refl) as [|Hlt]; [done|].
    split; [|tauto]. intros He. split; [done|]. apply elem_of_cons in He as [->|He]; [done|].
    intros Her. subst r. destruct (Hf e He) as [Hlt'|[Heq _]].
    + by apply (row_lt_irrefl (ver_row e)), (row_lt_trans _ (ver_row e0)).
    + by rewrite Heq in Hr.
Qed.

Lemma drop_row_after r l e :
  StronglySorted ver_lt l → (∀ e', e' ∈ l → ver_row e' = r ∨ row_lt r (ver_row e')) →
  e ∈ drop_row r l → row_lt r (ver_row e).
Proof.
  intros Hs Ha He. apply drop_row_elem in He as [He Hn]; [|done|].
  - by destruct (Ha e He).
  - intros e' He'. apply Ha. destruct l; naive_solver set_solver.
Qed.

Lemma find_row_drop r s l : drop_row r (find_row r s l).2 = drop_row r l.
Proof.
  induction l as [|e l IH]; simpl; [done|].
  case_decide; [|simpl; by rewrite decide_False].
  case_decide; [simpl; by rewrite decide_True|done].
Qed.

Lemma find_row_suffix r s l : (find_row r s l).2 `suffix_of` l.
Proof.
  induction l as [|e l IH]; simpl; [done|].
  repeat case_decide; [done| |done]. by apply suffix_cons_r.
Qed.

Lemma find_row_None r s l :
  (find_row r s l).1 = None → (find_row r s l).2 = drop_row r l.
Proof.
  induction l as [|e l IH]; simpl; [done|].
  repeat case_decide; simpl; naive_solver.
Qed.

(** [find_row] returns the newest version of the row at or before the snapshot. *)
Lemma find_row_spec t p s l :
  StronglySorted ver_lt l → (∀ e', e' ∈ l → ver_row e' = (t, p) ∨ row_lt (t, p) (ver_row e')) →
  ∀ v w, (find_row (t, p) s l).1 = Some (v, w) ↔
    (t, p, w, v) ∈ l ∧ w ≤ s ∧ ∀ w' v', (t, p, w', v') ∈ l → w' ≤ s → w' ≤ w.
Proof.
  induction l as [|[[[t0 p0] w0] v0] l IH]; intros Hs Ha v w; [simpl; set_solver|].
  apply StronglySorted_inv in Hs as [Hs Hf]. rewrite Forall_forall in Hf.
  cbn [find_row ver_row ver_ts]. case_decide as Hr; [simplify_eq|].
  - case_decide as Hle; simpl.
    + split.
      * intros [= <- <-]. split_and!; [set_solver|done|].
        intros w' v' Hin Hle'. apply elem_of_cons in Hin as [|Hin]; [naive_solver lia|].
        destruct (Hf _ Hin) as [Hlt|[_ Hlt]]; [by apply row_lt_irrefl in Hlt|]. simpl in Hlt. lia.
      * intros (Hin & Hws & Hmax). apply elem_of_cons in Hin as [|Hin]; [naive_solver|].
        destruct (Hf _ Hin) as [Hlt|[_ Hlt]]; [by apply row_lt_irrefl in Hlt|]. simpl in Hlt.
        specialize (Hmax w0 v0 ltac:(set_solver) Hle). lia.
    + rewrite IH by (auto; set_solver). split.
      * intros (Hin & Hws & Hmax). split_and!; [set_solver|done|].
        intros w' v' [|Hin']%elem_of_cons Hle'; [naive_solver lia|eauto].
      * intros (Hin & Hws & Hmax). apply elem_of_cons in Hin as [|Hin]; [naive_solver lia|].
        split_and!; [done..|]. intros w' v' Hin'. apply (Hmax w' v'). set_solver.
  - split; [done|]. intros (Hin & _). exfalso.
    destruct (Ha (t0, p0, w0, v0) ltac:(set_solver)) as [|Hlt]; [done|].
    apply elem_of_cons in Hin as [|Hin]; [naive_solver|].
    destruct (Hf _ Hin) as [Hlt'|[Heq _]]; simpl in *; [|congruence].
    by apply (row_lt_irrefl (t, p)), (row_lt_trans _ (t0, p0)).
Qed.

(** ** What a scan returns *)

Definition in_range (i : MVCCIterator) (pk : bytes) : Prop :=
  bytes_le (start_pk_ i) pk ∧
  (open_end_exclusive_ i = true ∨ bytes_lt pk (end_pk_exclusive_ i)).

Definition row_result (i : MVCCIterator) (l : list ver) (r : bytes * bytes * Z) : Prop :=
  let '(pk, v, ts) := r in
  in_range i pk ∧ (table_id_ i, pk, ts, v) ∈ l ∧ ts ≤ snapshot_ts_ i ∧
  (∀ ts' v', (table_id_ i, pk, ts', v') ∈ l → ts' ≤ snapshot_ts_ i → ts' ≤ ts) ∧
  IsDeleteMarker v = false.

Definition pk_sorted (out : list (bytes * bytes * Z)) : Prop :=
  StronglySorted (λ a b, bytes_lt a.1.1 b.1.1) out.

Definition scan_spec (i : MVCCIterator) (l : list ver) (out : list (bytes * bytes * Z)) : Prop :=
  pk_sorted out ∧ ∀ r, r ∈ out ↔ row_result i l r.

(** Two lists with the same entries of the range have the same results. *)
Lemma scan_spec_sub i l l' out :
  (∀ pk w v, in_range i pk → (table_id_ i, pk, w, v) ∈ l ↔ (table_id_ i, pk, w, v) ∈ l') →
  scan_spec i l out → scan_spec i l' out.
Proof.
  intros Hsub [Hs Hr]. split; [done|]. intros [[pk v] ts]. rewrite Hr. unfold row_result.
  split; intros (Hin & He & Hle & Hmax & Hd); split_and!; auto.
  - by apply Hsub.
  - intros ts' v' Hin'. apply Hmax with v'. by apply Hsub.
  - by apply Hsub.
  - intros ts' v' Hin'. apply Hmax with v'. by apply Hsub.
Qed.

Lemma scan_spec_nil i l :
  (∀ pk w v, in_range i pk → (table_id_ i, pk, w, v) ∉ l) → scan_spec i l [].
Proof.
  intros Hno. split; [constructor|]. intros [[pk v] ts].
  split; [by intros ?%not_elem_of_nil|]. intros (Hin & He & _). by destruct (Hno pk ts v).
Qed.

Section rounds.
Context (i : MVCCIterator) (p : bytes) (l : list ver).
Local Abbreviation row := (table_id_ i, p).
Hypothesis Hsorted : StronglySorted ver_lt l.
Hypothesis Hfrom : ∀ e, e ∈ l → ver_row e = row ∨ row_lt row (ver_row e).

Lemma drop_row_elem_row e : e ∈ drop_row row l ↔ e ∈ l ∧ ver_row e ≠ row.
Proof using Hsorted Hfrom.
  apply drop_row_elem; [done|]. intros e' He'. apply Hfrom. destruct l; naive_solver set_solver.
Qed.

(** The row has no visible version, or a deleted one. *)
Lemma scan_spec_hidden out :
  (∀ v w, (find_row row (snapshot_ts_ i) l).1 = Some (v, w) → IsDeleteMarker v = true) →
  scan_spec i (drop_row row l) out → scan_spec i l out.
Proof using Hsorted Hfrom.
  intros Hhid [Hs Hr]. split; [done|]. intros [[pk v] ts]. rewrite Hr. unfold row_result.
  destruct (decide (pk = p)) as [->|Hne].
  - split; intros (_ & He & Hle & Hmax & Hd); exfalso.
    + by apply drop_row_elem_row in He as [_ []].
    + rewrite (Hhid v ts) in Hd; [done|]. apply find_row_spec; auto.
  - assert (∀ w x, (table_id_ i, pk, w, x) ∈ drop_row row l ↔ (table_id_ i, pk, w, x) ∈ l) as Hd.
    { intros w x. rewrite drop_row_elem_row. naive_solver. }
    rewrite Hd. by setoid_rewrite Hd.
Qed.

(** The row has a visible version. *)
Lemma scan_spec_row out v w :
  in_range i p → (find_row row (snapshot_ts_ i) l).1 = Some (v, w) → IsDeleteMarker v = false →
  scan_spec i (drop_row row l) out → scan_spec i l ((p, v, w) :: out).
Proof using Hsorted Hfrom.
  intros Hin Hf Hdel [Hs Hr]. apply find_row_spec in Hf as (He & Hle & Hmax); [|done..].
  split.
  - constructor; [done|]. apply Forall_forall. intros [[pk v'] ts] Ho.
    apply Hr in Ho as (_ & Ho & _). apply drop_row_after in Ho; [|done..].
    destruct Ho as [Ho|[_ Ho]]; simpl in Ho; [lia|done].
  - intros [[pk v'] ts]. rewrite elem_of_cons, Hr. unfold row_result.
    destruct (decide (pk = p)) as [->|Hne].
    + split.
      * intros [[= -> ->]|(_ & Ho & _)]; [by split_and!|].
        by apply drop_row_elem_row in Ho as [_ []].
      * intros (_ & He' & Hle' & Hmax' & _). left.
        assert (ts = w) as -> by (specialize (Hmax _ _ He' Hle'); specialize (Hmax' _ _ He Hle); lia).
        assert ((find_row row (snapshot_ts_ i) l).1 = Some (v, w)) as E1
          by (apply find_row_spec; auto).
        assert ((find_row row (snapshot_ts_ i) l).1 = Some (v', w)) as E2
          by (apply find_row_spec; auto).
        naive_solver.
    + assert (∀ w x, (table_id_ i, pk, w, x) ∈ drop_row row l ↔ (table_id_ i, pk, w, x) ∈ l) as Hd.
      { intros w' x. rewrite drop_row_elem_row. naive_solver. }
      rewrite Hd. setoid_rewrite Hd. naive_solver.
Qed.
End rounds.

Lemma drop_row_sorted r l : StronglySorted ver_lt l → StronglySorted ver_lt (drop_row r l).
Proof. apply StronglySorted_suffix, drop_row_suffix. Qed.

Lemma drop_row_idem r l : drop_row r (drop_row r l) = drop_row r l.
Proof. induction l as [|e l IH]; simpl; [done|]. case_decide; [done|]. simpl. by rewrite decide_False. Qed.

(** After [Advance] has returned a row, [Next] is [Advance] again. *)
Lemma Next_Advance i l p :
  Forall ver_ok l → current_pk_ i = p → it_ i = enc <$> l →
  drop_row (table_id_ i, p) l = l → Next i = Advance_loop (S (length l)) (set_it i (enc <$> l)).
Proof.
  intros Hok Hp Hit Hdrop. unfold Next.
  assert (set_it i (skip_row (table_id_ i) (current_pk_ i) (it_ i)) = set_it i (enc <$> l)) as ->
    by (by rewrite Hp, Hit, skip_row_enc, Hdrop).
  unfold Advance. cbn [it_ set_it]. rewrite length_fmap, Hit.
  destruct l as [|[[[t q] w] v] l]; [by destruct i; simplify_eq/=|].
  apply Forall_cons in Hok as [[Ht Hw] Hok].
  cbn [fmap list_fmap enc]. cbn [length Advance_loop set_it it_].
  rewrite Decode_Encode by done. cbn [table_id_].
  destruct (Z.eqb_spec t (table_id_ i)) as [->|Hne]; [done|].
  destruct i; simplify_eq/=. by apply Z.eqb_neq in Hne as ->.
Qed.

(** One round of [Advance] on decoded entries. *)
Lemma Advance_loop_cons fuel i t p w v l :
  Forall ver_ok ((t, p, w, v) :: l) →
  Advance_loop (S fuel) (set_it i (enc <$> (t, p, w, v) :: l)) =
  if negb (t =? table_id_ i) then set_valid (set_it i (enc <$> (t, p, w, v) :: l)) false
  else if negb (open_end_exclusive_ i) && bytes_leb (end_pk_exclusive_ i) p
  then set_valid (set_it i (enc <$> (t, p, w, v) :: l)) false
  else if negb (bool_decide (start_pk_ i = [])) && bytes_ltb p (start_pk_ i)
  then Advance_loop fuel (set_it i (enc <$> l))
  else match find_row (table_id_ i, p) (snapshot_ts_ i) ((t, p, w, v) :: l) with
       | (None, l') => Advance_loop fuel (set_it i (enc <$> l'))
       | (Some (cv, cw), l') =>
           if IsDeleteMarker cv
           then Advance_loop fuel (set_it i (enc <$> drop_row (table_id_ i, p) l'))
           else set_it (set_current i p cv cw) (enc <$> drop_row (table_id_ i, p) l')
       end.
Proof.
  intros Hok. pose proof (proj1 (Forall_cons _ _ _) Hok) as [[Ht Hw] Hl].
  cbn [Advance_loop set_it it_]. cbn [fmap list_fmap enc].
  rewrite Decode_Encode by done.
  cbn [table_id_ start_pk_ end_pk_exclusive_ snapshot_ts_ open_end_exclusive_].
  repeat (case_match; [done|]).
  match goal with |- context [find_visible _ _ _ ?x] =>
    change x with (enc <$> (t, p, w, v) :: l) end.
  rewrite find_visible_enc by done.
  assert (Forall ver_ok (find_row (table_id_ i, p) (snapshot_ts_ i) ((t, p, w, v) :: l)).2) as Hok'.
  { eapply Forall_suffix; [|exact Hok]. apply find_row_suffix. }
  destruct (find_row _ _ _) as [[[cv cw]|] l'] eqn:E; simpl in Hok' |- *; [|done].
  by rewrite skip_row_enc by done.
Qed.

Definition same_config (i j : MVCCIterator) : Prop :=
  table_id_ i = table_id_ j ∧ start_pk_ i = start_pk_ j ∧
  end_pk_exclusive_ i = end_pk_exclusive_ j ∧ snapshot_ts_ i = snapshot_ts_ j ∧
  open_end_exclusive_ i = open_end_exclusive_ j.

Lemma scan_spec_config i j l out : same_config i j → scan_spec i l out → scan_spec j l out.
Proof.
  intros (H1 & H2 & H3 & H4 & H5). unfold scan_spec, row_result, in_range.
  by rewrite H1, H2, H3, H4, H5.
Qed.

Lemma before_start p s :
  negb (bool_decide (s = [])) && bytes_ltb p s = bytes_ltb p s.
Proof. case_bool_decide; subst; simpl; [by destruct p|done]. Qed.

(** The round of [Advance] for a row of the range, given that the rounds after
    it are right. *)
Lemma scan_round i p L fA fS :
  Forall ver_ok L → StronglySorted ver_lt L →
  (∀ e, e ∈ L → ver_row e = (table_id_ i, p) ∨ row_lt (table_id_ i, p) (ver_row e)) →
  in_range i p →
  (∀ j fA fS, same_config i j →
     (length (drop_row (table_id_ i, p) L) < fA)%nat →
     (length (drop_row (table_id_ i, p) L) < fS)%nat →
     scan_spec i (drop_row (table_id_ i, p) L)
       (scan_rows fS (Advance_loop fA (set_it j (enc <$> drop_row (table_id_ i, p) L))))) →
  (length (drop_row (table_id_ i, p) L) < fA)%nat →
  (length (drop_row (table_id_ i, p) L) < fS)%nat →
  scan_spec i L
    (scan_rows (S fS)
       (match find_row (table_id_ i, p) (snapshot_ts_ i) L with
        | (None, l') => Advance_loop fA (set_it i (enc <$> l'))
        | (Some (cv, cw), l') =>
            if IsDeleteMarker cv
            then Advance_loop fA (set_it i (enc <$> drop_row (table_id_ i, p) l'))
            else set_it (set_current i p cv cw) (enc <$> drop_row (table_id_ i, p) l')
        end)).
Proof.
  intros Hok Hsort Hord Hin HIH HA HS.
  pose proof (find_row_drop (table_id_ i, p) (snapshot_ts_ i) L) as Hfd.
  pose proof (find_row_None (table_id_ i, p) (snapshot_ts_ i) L) as Hfn.
  destruct (find_row (table_id_ i, p) (snapshot_ts_ i) L) as [[[cv cw]|] l'] eqn:Hf;
    simpl in Hfd, Hfn.
  2:{ rewrite Hfn by done. apply (scan_spec_hidden i p); [done..|by rewrite Hf|].
      apply HIH; [done|lia..]. }
  rewrite Hfd. destruct (IsDeleteMarker cv) eqn:Hdel.
  { apply (scan_spec_hidden i p); [done..|rewrite Hf; naive_solver|].
    apply HIH; [done|lia..]. }
  cbn [scan_rows valid_ set_it set_current current_pk_ current_value_ current_write_ts_].
  apply (scan_spec_row i p); [done..|by rewrite Hf|done|].
  erewrite (Next_Advance _ (drop_row (table_id_ i, p) L) p);
    [|eapply Forall_suffix; [apply drop_row_suffix|done]|done|done|by apply drop_row_idem].
  change (set_it (set_it ?x _) ?y) with (set_it x y).
  apply HIH; [done|lia..].
Qed.

Lemma scan_from n : ∀ i l fA fS,
  (length l ≤ n)%nat → (length l < fA)%nat → (length l < fS)%nat →
  Forall ver_ok l → StronglySorted ver_lt l → (∀ e, e ∈ l → table_id_ i ≤ (ver_row e).1) →
  scan_spec i l (scan_rows fS (Advance_loop fA (set_it i (enc <$> l)))).
Proof.
  induction n as [|n IH]; intros i l fA fS Hn HA HS Hok Hsort Htab;
    (destruct fA as [|fA]; [lia|]); (destruct fS as [|fS]; [lia|]);
    destruct l as [|[[[t p] w] v] l]; try (simpl in Hn; lia).
  1-2: by apply scan_spec_nil; intros ??? _ ?%not_elem_of_nil.
  rewrite Advance_loop_cons by done.
  assert (Hord : ∀ e, e ∈ (t, p, w, v) :: l → ver_row e = (t, p) ∨ row_lt (t, p) (ver_row e)).
  { intros e [->|He]%elem_of_cons; [by left|].
    apply StronglySorted_inv in Hsort as [_ Hf]. rewrite Forall_forall in Hf.
    destruct (Hf e He) as [?|[? _]]; [by right|by left]. }
  assert (Hdl : (length (drop_row (t, p) ((t, p, w, v) :: l)) ≤ length l)%nat).
  { simpl. rewrite decide_True by done. apply drop_row_length. }
  simpl in Hn, HA, HS.
  destruct (Z.eqb_spec t (table_id_ i)) as [->|Hne]; cbn [negb].
  2:{ apply scan_spec_nil. intros pk w' v' _ He. destruct (Hord _ He) as [Hr|[Hr|[Hr _]]];
        simpl in Hr; [naive_solver| |naive_solver].
      specialize (Htab _ (list_elem_of_here _ _)). simpl in Htab. lia. }
  rewrite before_start. case_match eqn:Hend.
  { apply andb_true_iff in Hend as [Ho%negb_true_iff Hend%bytes_leb_spec].
    apply scan_spec_nil. intros pk w' v' [_ [Hc|Hlt]] He; [congruence|].
    apply (bytes_lt_irrefl pk). eapply bytes_lt_le_trans; [exact Hlt|].
    eapply bytes_le_trans; [exact Hend|].
    destruct (Hord _ He) as [Hr|[Hr|[_ Hr]]]; simpl in Hr; [naive_solver auto with db|lia|auto with db]. }
  assert (Htab' : ∀ l', l' `suffix_of` (table_id_ i, p, w, v) :: l →
    ∀ e, e ∈ l' → table_id_ i ≤ (ver_row e).1).
  { intros l' Hl' e He. apply Htab. by eapply suffix_elem. }
  case_match eqn:Hst.
  { apply bytes_ltb_spec in Hst. apply scan_spec_sub with l.
    - intros pk w' v' [Hle _]. split; [set_solver|].
      intros [[= -> -> ->]|He]%elem_of_cons; [|done].
      by apply bytes_not_le in Hst.
    - apply IH; [lia..| | |].
      + by apply Forall_cons in Hok as [_ ?].
      + by apply StronglySorted_inv in Hsort as [? _].
      + apply Htab'. by exists [(table_id_ i, p, w, v)]. }
  apply bytes_ltb_false in Hst. apply scan_round; [done..| | |lia|lia].
  - split; [done|]. apply andb_false_iff in Hend as [Ho%negb_false_iff|Hend]; [by left|right].
    apply bytes_not_le. intros Hle%bytes_leb_spec. congruence.
  - intros j fA' fS' Hj HA' HS'.
    apply scan_spec_config with j; [unfold same_config in *; naive_solver|].
    apply IH; [lia..| | |].
    + eapply Forall_suffix; [apply drop_row_suffix|done].
    + by apply drop_row_sorted.
    + destruct Hj as (<- & _). apply Htab', drop_row_suffix.
Qed.

(** ** Termination: the fuel never runs out *)

Lemma skip_row_le t p l : (length (skip_row t p l) ≤ length l)%nat.
Proof.
  induction l as [|[k v] l IH]; simpl; [lia|].
  destruct (DecodeKey k) as [[[t' p'] w]|]; simpl; [|lia].
  case_match; simpl; lia.
Qed.

Lemma find_visible_le t p s l : (length (find_visible t p s l).2 ≤ length l)%nat.
Proof.
  induction l as [|[k v] l IH]; simpl; [lia|].
  destruct (DecodeKey k) as [[[t' p'] w]|]; simpl; [|lia].
  repeat case_match; simpl; lia.
Qed.

(** A row round consumes at least the entry it started on. *)
Lemma row_round_consumes t p w s k v l :
  DecodeKey k = Some (t, p, w) →
  match find_visible t p s ((k, v) :: l) with
  | (None, l') => (length l' ≤ length l)%nat
  | (Some _, l') => (length (skip_row t p l') ≤ length l)%nat
  end.
Proof.
  intros Hd. cbn [find_visible]. rewrite Hd, row_test, bool_decide_eq_true_2 by done.
  cbn [negb]. destruct (w <=? s).
  - cbn [skip_row]. rewrite Hd, row_test, bool_decide_eq_true_2 by done. simpl. apply skip_row_le.
  - pose proof (find_visible_le t p s l) as Hle.
    destruct (find_visible t p s l) as [[x|] l']; simpl in Hle; [|lia].
    pose proof (skip_row_le t p l'). lia.
Qed.

Lemma Advance_loop_fuel n : ∀ f f' i,
  (length (it_ i) ≤ n)%nat → (length (it_ i) < f)%nat → (length (it_ i) < f')%nat →
  Advance_loop f i = Advance_loop f' i.
Proof.
  induction n as [|n IH]; intros [|f] [|f'] i Hn Hf Hf'; try lia; cbn [Advance_loop];
    destruct (it_ i) as [|[k v] l] eqn:Hit; try done; cbn [length] in *; [lia|].
  destruct (DecodeKey k) as [[[t p] w]|] eqn:Hd; [|apply IH; simpl; lia].
  destruct (Z.eqb_spec t (table_id_ i)) as [->|]; cbn [negb]; [|done].
  case_match; [done|]. case_match; [apply IH; simpl; lia|].
  pose proof (row_round_consumes (table_id_ i) p w (snapshot_ts_ i) k v l Hd) as Hc.
  destruct (find_visible _ _ _ _) as [[[cv cw]|] l'].
  - destruct (IsDeleteMarker cv); [apply IH; simpl; lia|done].
  - apply IH; simpl; lia.
Qed.

Lemma Advance_loop_shrinks f : ∀ i,
  (length (it_ i) < f)%nat → valid_ (Advance_loop f i) = true →
  (length (it_ (Advance_loop f i)) < length (it_ i))%nat.
Proof.
  induction f as [|f IH]; intros i Hf; [lia|]. cbn [Advance_loop].
  destruct (it_ i) as [|[k v] l] eqn:Hit; [done|]. cbn [length] in Hf |- *.
  destruct (DecodeKey k) as [[[t p] w]|] eqn:Hd.
  2:{ intros Hv. specialize (IH (set_it i l)). simpl in IH. specialize (IH ltac:(lia) Hv). lia. }
  destruct (Z.eqb_spec t (table_id_ i)) as [->|]; cbn [negb]; [|done].
  case_match; [done|]. case_match.
  { intros Hv. specialize (IH (set_it i l)). simpl in IH. specialize (IH ltac:(lia) Hv). lia. }
  pose proof (row_round_consumes (table_id_ i) p w (snapshot_ts_ i) k v l Hd) as Hc.
  destruct (find_visible _ _ _ _) as [[[cv cw]|] l'].
  - destruct (IsDeleteMarker cv); [|intros _; cbn [it_ set_it]; lia]. intros Hv.
    specialize (IH (set_it i (skip_row (table_id_ i) p l'))). simpl in IH.
    specialize (IH ltac:(lia) Hv). lia.
  - intros Hv. specialize (IH (set_it i l')). simpl in IH. specialize (IH ltac:(lia) Hv). lia.
Qed.

Lemma Next_shrinks i :
  valid_ (Next i) = true → (length (it_ (Next i)) < length (it_ i))%nat.
Proof.
  unfold Next. destruct (it_ i) as [|[k v] l] eqn:Hit; [done|].
  destruct (DecodeKey k) as [[[t p] w]|]; [|done]. case_match; [done|].
  unfold Advance. intros Hv. apply Advance_loop_shrinks in Hv; [|lia].
  cbn [it_ set_it] in Hv |- *.
  pose proof (skip_row_le (table_id_ i) (current_pk_ i) ((k, v) :: l)). lia.
Qed.

Lemma scan_rows_fuel n : ∀ f f' i,
  (length (it_ i) ≤ n)%nat → (length (it_ i) < f)%nat → (length (it_ i) < f')%nat →
  scan_rows f i = scan_rows f' i.
Proof.
  induction n as [|n IH]; intros [|f] [|f'] i Hn Hf Hf'; try lia; cbn [scan_rows];
    (destruct (valid_ i); [|done]); f_equal;
    (destruct (valid_ (Next i)) eqn:Hv;
      [apply Next_shrinks in Hv|destruct f, f'; cbn [scan_rows]; rewrite ?Hv; done]); [lia|].
  apply IH; lia.
Qed.

(** ** The scan of a store *)

Lemma zeros_le n x : (n ≤ length x)%nat → bytes_le (replicate n x00) x.
Proof.
  unfold bytes_le. revert x. induction n as [|n IH]; intros [|b x] Hl; cbn in Hl |- *; try lia; try done.
  pose proof (byte_to_Z_range b). change (byte_to_Z x00) with 0.
  destruct (byte_to_Z b) eqn:E; [apply IH; lia|done|lia].
Qed.

(** The seek key of a scan is at or before every key it has to show. *)
Lemma seek_covers tid start pk ts :
  bytes_le start pk → bytes_le (EncodeKeyPrefixNewest tid start) (EncodeKey tid pk ts).
Proof.
  intros Hle. unfold EncodeKeyPrefixNewest. rewrite !EncodeKey_alt.
  change (be_bytes 8 (InvertTimestamp UINT64_MAX)) with (replicate 8 x00).
  unfold bytes_le. rewrite bytes_compare_app.
  destruct (decide (start `prefix_of` pk)) as [[r ->]|Hp].
  - rewrite <- app_assoc, bytes_compare_app. apply zeros_le. len.
  - destruct (decide (pk `prefix_of` start)) as [[r ->]|Hq].
    + exfalso. unfold bytes_le in Hle. rewrite <- (app_nil_r pk) in Hle at 2.
      rewrite bytes_compare_app in Hle. destruct r; [|done]. apply Hp. by rewrite app_nil_r.
    + by rewrite bytes_compare_not_prefix.
Qed.

Section correct.
Context `{RocksDBLaws DB} `{KeyUniverse}.
Implicit Types (db : DB).

(** The entries of a seek, decoded and in row order. *)
Lemma seek_decoded db k :
  store_in (rdb_contents db) →
  ∃ l, rdb_seek db k = enc <$> l ∧ Forall ver_ok l ∧ StronglySorted ver_lt l ∧
    ∀ t p w v, (t, p, w, v) ∈ l ↔ is_u32 t ∧ is_u64 w ∧
      version_at (rdb_contents db) t p w = Some v ∧ bytes_le k (EncodeKey t p w).
Proof.
  intros [Hwf Hin].
  assert (∀ l, StronglySorted key_lt l → (∀ e, e ∈ l → e ∈ rdb_seek db k) →
    ∃ l', l = enc <$> l' ∧ Forall ver_ok l' ∧ StronglySorted ver_lt l') as Hdec.
  { induction 1 as [|[ek ev] l Hs IH Hf]; intros Hsub; [by exists []; repeat constructor|].
    destruct IH as (l' & -> & Hok & Hs'); [intros e He; apply Hsub; set_solver|].
    destruct (seek_decode db k (ek, ev) Hwf (Hsub _ (list_elem_of_here _ _)))
      as (t & p & w & Ht & Hw & Hk & _ & Hv & _). simpl in Hk, Hv. subst ek.
    exists ((t, p, w, ev) :: l'). split; [done|]. split; [by constructor|].
    constructor; [done|]. apply Forall_forall. intros [[[t' p'] w'] v'] He.
    assert (enc (t', p', w', v') ∈ enc <$> l') as He' by by apply list_elem_of_fmap_2.
    rewrite Forall_forall in Hf. pose proof (Hf _ He') as Hlt.
    unfold key_lt in Hlt. simpl in Hlt.
    rewrite Forall_forall in Hok. destruct (Hok _ He) as [Ht' Hw'].
    assert (enc (t', p', w', v') ∈ rdb_seek db k) as Hv' by (apply Hsub, elem_of_cons; by right).
    apply seek_version in Hv' as [Hv' _]; [|done..].
    unfold ver_lt, row_lt. simpl. unfold bytes_lt in *.
    destruct (decide (t = t')) as [->|Htt].
    - destruct (pk_ok_compatible t' p p') as [->|[Hp Hq]]; 
        [by apply (Hin t' p w ev)|by apply (Hin t' p' w' v')| |].
      + right. split; [done|]. by apply EncodeKey_lt_newer in Hlt.
      + rewrite EncodeKey_pk_order in Hlt by done. auto.
    - rewrite EncodeKey_table_order in Hlt by done. apply Z.compare_lt_iff in Hlt. auto. }
  destruct (Hdec (rdb_seek db k)) as (l & Hl & Hok & Hs); [apply rdb_seek_sorted|done|].
  exists l. split_and!; [done..|]. intros t p w v. split.
  - intros He. rewrite Forall_forall in Hok. destruct (Hok _ He) as [Ht Hw].
    assert (enc (t, p, w, v) ∈ rdb_seek db k) as He' by (rewrite Hl; by apply list_elem_of_fmap_2).
    apply seek_version in He' as [? ?]; auto.
  - intros (Ht & Hw & Hv & Hk).
    assert ((EncodeKey t p w, v) ∈ rdb_seek db k) as He by by apply seek_version.
    rewrite Hl in He. apply list_elem_of_fmap in He as ([[[t' p'] w'] v'] & E & He).
    rewrite Forall_forall in Hok. destruct (Hok _ He) as [Ht' Hw'].
    pose proof (f_equal fst E) as E1. pose proof (f_equal snd E) as E2.
    cbn [fst snd enc] in E1, E2. apply EncodeKey_inj in E1 as (-> & -> & ->); auto. by subst.
Qed.

Definition scan_range (start end_ : bytes) (open_ : bool) (pk : bytes) : Prop :=
  bytes_le start pk ∧ (open_ = true ∨ bytes_lt pk end_).

Lemma Scan_rows db tid start end_ snap open_ :
  is_u32 tid → store_in (rdb_contents db) →
  let rows := rows_of (Scan db tid start end_ snap open_) in
  pk_sorted rows ∧
  ∀ pk v ts, (pk, v, ts) ∈ rows ↔
    scan_range start end_ open_ pk ∧ visible (rdb_contents db) tid pk snap ts v ∧
    IsTombstone v = false.
Proof.
  intros Ht Hin rows.
  set (i0 := MkIter (rdb_seek db (EncodeKeyPrefixNewest tid start)) tid start end_ snap open_
               false [] [] 0).
  destruct (seek_decoded db (EncodeKeyPrefixNewest tid start) Hin) as (l & Hl & Hok & Hs & Hel).
  assert (rows = scan_rows (S (length l)) (Advance_loop (S (length l)) (set_it i0 (enc <$> l)))) as Hrows.
  { unfold rows, rows_of, Scan. fold i0. unfold Advance.
    assert (set_it i0 (enc <$> l) = i0) as -> by (unfold i0; by rewrite Hl).
    assert (length (it_ i0) = length l) as -> by (unfold i0; cbn [it_]; by rewrite Hl, length_fmap).
    destruct (valid_ (Advance_loop (S (length l)) i0)) eqn:Hv.
    - apply scan_rows_fuel with (length l); [|lia|];
        apply Advance_loop_shrinks in Hv; unfold i0 in *; cbn [it_] in *;
        rewrite Hl, length_fmap in *; lia.
    - cbn [scan_rows]. by rewrite Hv. }
  assert (scan_spec i0 l rows) as [Hsorted Hmem].
  { rewrite Hrows. apply scan_from with (length l); auto with lia.
    intros [[[t p] w] v] He. apply Hel in He as (Ht' & Hw & _ & Hle). cbn [ver_row fst table_id_ i0].
    destruct (Z.le_gt_cases tid t) as [|Hgt]; [done|]. exfalso.
    unfold bytes_le, EncodeKeyPrefixNewest in Hle.
    rewrite EncodeKey_table_order in Hle by (done || lia).
    by apply Hle, Z.compare_gt_iff. }
  split; [done|]. intros pk v ts. rewrite Hmem. unfold row_result, in_range, scan_range, visible.
  cbn [table_id_ start_pk_ end_pk_exclusive_ snapshot_ts_ open_end_exclusive_ i0].
  change (IsTombstone v) with (IsDeleteMarker v).
  setoid_rewrite Hel. split.
  - intros (Hr & (_ & Hw & Hv & _) & Hle & Hmax & Hd). split_and!; auto; try apply Hr.
    intros ts' Hw' Hts'. destruct (version_at _ _ _ ts') as [v'|] eqn:Hv'; [|done].
    assert (ts' ≤ ts); [|lia]. apply (Hmax ts' v'); [|lia].
    split_and!; auto. apply seek_covers, Hr.
  - intros (Hr & (Hw & Hv & Hle & Hmax) & Hd). split_and!; auto; try apply Hr.
    + apply seek_covers, Hr.
    + intros ts' v' (_ & Hw' & Hv' & _) Hle'. destruct (Z.le_gt_cases ts' ts) as [|Hgt]; [done|].
      rewrite Hmax in Hv' by (auto; lia). done.
Qed.
End correct.

(** ** Properties *)

(** C27. A scan returns exactly the visible rows of its range, on primary keys none of
    which extends another. Over a store whose primary keys come from a prefix-free
    universe (all of one length, say; versions of keys that extend one another are mixed
    in the order of the store), the rows an iterator shows are sorted by primary key
    without repetition, and a row is shown, with value and timestamp, exactly when its
    primary key lies in [start, end) (or at or after [start] for an open end), the version
    is the newest one at or before the snapshot, and it is not a tombstone. *)
Theorem Scan_correct {DB : Type} `{RocksDBLaws DB} {HK : KeyUniverse} (db : DB)
    (tid : Z) (start end_ : bytes) (snap : Z) (open_ : bool)
    (Ht : is_u32 tid) (Hin : store_in (rdb_contents db)) :
  let rows := rows_of (Scan db tid start end_ snap open_) in
  StronglySorted (λ a b, bytes_lt a.1.1 b.1.1) rows ∧
  ∀ pk v ts, (pk, v, ts) ∈ rows ↔
    (bytes_le start pk ∧ (open_ = true ∨ bytes_lt pk end_)) ∧
    visible (rdb_contents db) tid pk snap ts v ∧ IsTombstone v = false.
Proof. by apply Scan_rows. Qed.

Lemma Scan_correct_witness :
  rows_of (Scan demo_store 1 [x61] [x63] 5 false) = [([x61], [x31], 5); ([x62], [x33], 3)] ∧
  rows_of (Scan demo_store 1 [] [] 9 true) = [([x61], [x32], 8)] ∧
  visible demo_store 1 [x62] 5 3 [x33].
Proof.
  split; [vm_compute; reflexivity|]. split; [vm_compute; reflexivity|].
  destruct (Scan_correct (HK := fixed_width 1) demo_store 1 [x61] [x63] 5 false demo_table)
    as [_ Hc]; [exact demo_store_in|].
  refine (proj1 (proj2 (proj1 (Hc [x62] [x33] 3) _))).
  assert (rows_of (Scan demo_store 1 [x61] [x63] 5 false) = [([x61], [x31], 5); ([x62], [x33], 3)])
    as -> by (vm_compute; reflexivity).
  right; left.
Defined.

(** The loops of the iterator end: every round of [Advance] consumes an
    entry, so any fuel above the number of remaining entries gives the same
    iterator, and the client loop over [Next] ends after at most one round more
    than there are entries. *)
Theorem iterator_terminates (i : MVCCIterator) (fuel : nat)
    (Hf : (length (it_ i) < fuel)%nat) :
  Advance_loop fuel i = Advance i ∧ scan_rows fuel i = rows_of i ∧
  (valid_ (Advance i) = true → (length (it_ (Advance i)) < length (it_ i))%nat) ∧
  (valid_ (Next i) = true → (length (it_ (Next i)) < length (it_ i))%nat).
Proof.
  split_and!.
  - apply Advance_loop_fuel with (length (it_ i)); lia.
  - apply scan_rows_fuel with (length (it_ i)); lia.
  - apply Advance_loop_shrinks. lia.
  - apply Next_shrinks.
Qed.

Lemma iterator_terminates_witness :
  let i := Scan demo_store 1 [x61] [x63] 5 false in
  (length (it_ i) < 10)%nat ∧ scan_rows 10 i = rows_of i.
Proof.
  split; [vm_compute; lia|]. apply (iterator_terminates _ 10). vm_compute. lia.
Defined.
