(* ===== verification/LockManager.v ===== *)
(** * Row locks (src/src/txn/lock_manager.{h,cpp})

    Exclusive, re-entrant locks with FIFO hand-over. Every method body is a
    sequence of critical sections under [mu_]; each section is one definition
    here, and the interleavings of concurrent callers are the runs of the step
    relation [lock_step]. *)
From stdpp Require Import base gmap sets list strings.
From S2P Require Import Prelude Status KeyEncoding.
Local Open Scope Z_scope.

Record LockEntry := MkLockEntry {
  owner : Z;
  hold_count : Z;
  wait_queue : list Z;
}.

Record LockManager := MkLockManager {
  locks_ : gmap bytes LockEntry;
  txn_locks_ : gmap Z (list bytes);
}.

Definition LockManager_init : LockManager := MkLockManager ∅ ∅.

(** The entry [locks_\[lk\]] creates when there is none. *)
Definition free_entry : LockEntry := MkLockEntry 0 0 [].

Definition MakeLockKey (table_id : Z) (key : bytes) : bytes :=
  AppendBigEndianU32 [] table_id ++ key.

Definition set_entry (lm : LockManager) (lk : bytes) (e : LockEntry) : LockManager :=
  MkLockManager (<[lk := e]> (locks_ lm)) (txn_locks_ lm).

(** [txn_locks_\[txn_id\].push_back(lk)] *)
Definition push_held (lm : LockManager) (txn_id : Z) (lk : bytes) : LockManager :=
  MkLockManager (locks_ lm)
    (<[txn_id := default [] (txn_locks_ lm !! txn_id) ++ [lk]]> (txn_locks_ lm)).

(** [ReleaseInternal]; the condition variable only wakes sleepers up, which the
    step relation allows at any time. *)
Definition ReleaseInternal (lm : LockManager) (lk : bytes) : LockManager :=
  match locks_ lm !! lk with
  | None => lm
  | Some e =>
      if hold_count e =? 0 then lm
      else
        let hold := hold_count e - 1 in
        if 0 <? hold then set_entry lm lk (MkLockEntry (owner e) hold (wait_queue e))
        else
          match wait_queue e with
          | next :: queue => set_entry lm lk (MkLockEntry next 1 queue)
          | [] => MkLockManager (delete lk (locks_ lm)) (txn_locks_ lm)
          end
  end.

(** [Acquire], from its entry up to the first wait: [Some status] when it
    returns at once, [None] when the caller is queued and waits. *)
Definition Acquire_enter (lm : LockManager) (lk : bytes) (txn_id : Z) :
    LockManager * option Status :=
  let e := default free_entry (locks_ lm !! lk) in
  if owner e =? txn_id then
    (push_held (set_entry lm lk (MkLockEntry (owner e) (u32 (hold_count e + 1)) (wait_queue e)))
       txn_id lk, Some St.OK)
  else if owner e =? 0 then
    (push_held (set_entry lm lk (MkLockEntry txn_id 1 (wait_queue e))) txn_id lk, Some St.OK)
  else
    (set_entry lm lk (MkLockEntry (owner e) (hold_count e) (wait_queue e ++ [txn_id])), None).

(** The test at the head of the wait loop, run after every wake-up. *)
Definition Acquire_wake (lm : LockManager) (lk : bytes) (txn_id : Z) :
    LockManager * option Status :=
  let e := default free_entry (locks_ lm !! lk) in
  if (owner e =? txn_id) && (0 <? hold_count e) then (push_held lm txn_id lk, Some St.OK)
  else (lm, None).

(** The branch taken when [wait_until] reports a timeout. *)
Definition Acquire_timeout (lm : LockManager) (lk : bytes) (txn_id : Z) : LockManager * Status :=
  let e := default free_entry (locks_ lm !! lk) in
  if (owner e =? txn_id) && (0 <? hold_count e) then (push_held lm txn_id lk, St.OK)
  else
    (set_entry lm lk (MkLockEntry (owner e) (hold_count e) (erase_first txn_id (wait_queue e))),
     St.Error TimedOut "lock acquire timeout").

(** [Acquire] run to its end with no other caller in between: a caller that has
    to wait times out. *)
Definition Acquire (lm : LockManager) (table_id : Z) (key : bytes) (txn_id : Z) :
    LockManager * Status :=
  let lk := MakeLockKey table_id key in
  match Acquire_enter lm lk txn_id with
  | (lm, Some st) => (lm, st)
  | (lm, None) =>
      match Acquire_wake lm lk txn_id with
      | (lm, Some st) => (lm, st)
      | (lm, None) => Acquire_timeout lm lk txn_id
      end
  end.

Definition Release (lm : LockManager) (table_id : Z) (key : bytes) (txn_id : Z) : LockManager :=
  let lk := MakeLockKey table_id key in
  match locks_ lm !! lk with
  | None => lm
  | Some e =>
      if negb (owner e =? txn_id) then lm
      else
        let held := default [] (txn_locks_ lm !! txn_id) in
        if bool_decide (lk ∈ held) then
          let held := erase_first lk held in
          let tl := match held with
                    | [] => delete txn_id (txn_locks_ lm)
                    | _ => <[txn_id := held]> (txn_locks_ lm)
                    end in
          ReleaseInternal (MkLockManager (locks_ lm) tl) lk
        else MkLockManager (locks_ lm) (<[txn_id := held]> (txn_locks_ lm))
  end.

(** The two critical sections of [ReleaseAll]. *)
Definition ReleaseAll_take (lm : LockManager) (txn_id : Z) : LockManager * list bytes :=
  match txn_locks_ lm !! txn_id with
  | None => (lm, [])
  | Some keys => (MkLockManager (locks_ lm) (delete txn_id (txn_locks_ lm)), keys)
  end.

Definition ReleaseAll_one (txn_id : Z) (lm : LockManager) (lk : bytes) : LockManager :=
  match locks_ lm !! lk with
  | None => lm
  | Some e => if negb (owner e =? txn_id) then lm else ReleaseInternal lm lk
  end.

Definition ReleaseAll_drop (lm : LockManager) (txn_id : Z) (keys : list bytes) : LockManager :=
  foldl (ReleaseAll_one txn_id) lm keys.

Definition ReleaseAll (lm : LockManager) (txn_id : Z) : LockManager :=
  let '(lm, keys) := ReleaseAll_take lm txn_id in ReleaseAll_drop lm txn_id keys.

(** ** Concurrent callers

    [waiting] maps a transaction that sleeps in [Acquire] to the lock it waits
    for; [releasing] holds the callers of [ReleaseAll] between its two critical
    sections. A transaction has at most one [Acquire] that sleeps: the code does
    not enforce this, it relies on callers that issue one request of a
    transaction at a time ([two_waits_break_exclusion] below shows what happens
    otherwise). *)
Record LockSys := MkLockSys {
  lm : LockManager;
  waiting : gmap Z bytes;
  releasing : list (Z * list bytes);
}.

Definition LockSys_init : LockSys := MkLockSys LockManager_init ∅ [].

Inductive lock_step : LockSys → LockSys → Prop :=
  | step_acquire s t lk lm' :
      t ≠ 0 → waiting s !! t = None →
      Acquire_enter (lm s) lk t = (lm', Some St.OK) →
      lock_step s (MkLockSys lm' (waiting s) (releasing s))
  | step_enqueue s t lk lm' :
      t ≠ 0 → waiting s !! t = None →
      Acquire_enter (lm s) lk t = (lm', None) →
      lock_step s (MkLockSys lm' (<[t := lk]> (waiting s)) (releasing s))
  | step_wake s t lk lm' :
      waiting s !! t = Some lk →
      Acquire_wake (lm s) lk t = (lm', Some St.OK) →
      lock_step s (MkLockSys lm' (delete t (waiting s)) (releasing s))
  | step_timeout s t lk lm' st :
      waiting s !! t = Some lk →
      Acquire_timeout (lm s) lk t = (lm', st) →
      lock_step s (MkLockSys lm' (delete t (waiting s)) (releasing s))
  | step_release s t tid key :
      t ≠ 0 →
      lock_step s (MkLockSys (Release (lm s) tid key t) (waiting s) (releasing s))
  | step_take s t lm' keys :
      t ≠ 0 → ReleaseAll_take (lm s) t = (lm', keys) →
      lock_step s (MkLockSys lm' (waiting s) ((t, keys) :: releasing s))
  | step_drop s t keys rs1 rs2 :
      releasing s = rs1 ++ (t, keys) :: rs2 →
      lock_step s (MkLockSys (ReleaseAll_drop (lm s) t keys) (waiting s) (rs1 ++ rs2)).

Inductive lock_steps : nat → LockSys → LockSys → Prop :=
  | steps_refl s : lock_steps 0 s s
  | steps_step n s1 s2 s3 : lock_steps n s1 s2 → lock_step s2 s3 → lock_steps (S n) s1 s3.

(** ** The invariant

    It is stated lock by lock: for one lock key, [oe] is its entry, [h t] the
    number of holds recorded for [t] (in [txn_locks_] or in a [ReleaseAll] under
    way) and [w t] says that [t] sleeps in [Acquire] for this lock. A sleeper
    that was made owner by a release counts as one hold. *)

Record lock_ok (n : Z) (oe : option LockEntry) (h : Z → Z) (w : Z → bool) : Prop := {
  lo_entry : ∀ e, oe = Some e → owner e ≠ 0 ∧ 1 ≤ hold_count e;
  lo_holds : ∀ t, t ≠ 0 →
    h t + (if w t && (owner (default free_entry oe) =? t) then 1 else 0) =
    if owner (default free_entry oe) =? t then hold_count (default free_entry oe) else 0;
  lo_nonneg : ∀ t, 0 ≤ h t;
  lo_nodup : NoDup (wait_queue (default free_entry oe));
  lo_queue : ∀ t, t ∈ wait_queue (default free_entry oe) ↔
    w t = true ∧ owner (default free_entry oe) ≠ t;
  lo_wait : w 0 = false;
  lo_bound : hold_count (default free_entry oe) ≤ n;
}.

(** Pointwise case analysis for the per-lock lemmas. *)
Ltac bcase :=
  repeat match goal with
    | |- context [?a =? ?b] => destruct (Z.eqb_spec a b); subst; simpl
    | H : context [?a =? ?b] |- _ => destruct (Z.eqb_spec a b); subst; simpl in H
    | |- context [if ?b then _ else _] => destruct b eqn:?; simpl
    | H : context [if ?b then _ else _] |- _ => destruct b eqn:?; simpl in H
    end; simpl in *; try done; try congruence; try lia.

Section lock_ok.
Context (n : Z).
Implicit Types (e : LockEntry) (h : Z → Z) (w : Z → bool) (t : Z).

Lemma lock_ok_ext oe h h' w w' :
  (∀ t, t ≠ 0 → h' t = h t) → (∀ t, 0 ≤ h' t) → (∀ t, w' t = w t) →
  lock_ok n oe h w → lock_ok n oe h' w'.
Proof.
  intros Hh Hp Hw [H1 H2 H3 H4 H5 H6 H7]. split; auto.
  - intros t Ht. rewrite Hh, Hw by done. auto.
  - intros t. rewrite Hw. auto.
  - by rewrite Hw.
Qed.

Lemma lock_ok_weaken m oe h w : n ≤ m → lock_ok n oe h w → lock_ok m oe h w.
Proof. intros Hle []. split; auto. lia. Qed.

Lemma lock_ok_init : 0 ≤ n → lock_ok n None (λ _, 0) (λ _, false).
Proof.
  intros Hn. split; simpl; try done; try lia.
  - intros t Ht. bcase.
  - apply NoDup_nil_2.
  - intros t. set_solver.
Qed.

(** A free lock has no waiter. *)
Lemma lock_ok_free oe h w : lock_ok n oe h w → owner (default free_entry oe) = 0 →
  oe = None ∧ ∀ t, w t = false.
Proof.
  intros Hi Ho. destruct oe as [e|]; simpl in *; [by destruct (lo_entry _ _ _ _ Hi e)|].
  split; [done|]. intros t. destruct (w t) eqn:E; [|done].
  destruct (decide (t = 0)) as [->|]; [by rewrite (lo_wait _ _ _ _ Hi) in E|].
  assert (t ∈ @nil Z); [|set_solver]. apply (lo_queue _ _ _ _ Hi). naive_solver.
Qed.

Lemma lock_ok_owned oe h w : lock_ok n oe h w → owner (default free_entry oe) ≠ 0 →
  ∃ e, oe = Some e ∧ 1 ≤ hold_count e.
Proof.
  intros Hi Ho. destruct oe as [e|]; simpl in *; [|done].
  destruct (lo_entry _ _ _ _ Hi e); naive_solver.
Qed.

(** A recorded hold is the owner's. *)
Lemma lock_ok_owner oe h w t : lock_ok n oe h w → t ≠ 0 → 0 < h t →
  owner (default free_entry oe) = t.
Proof.
  intros Hi Ht Hh. pose proof (lo_holds _ _ _ _ Hi t Ht) as E.
  destruct (Z.eqb_spec (owner (default free_entry oe)) t) as [?|Hne]; [done|].
  rewrite andb_false_r in E. lia.
Qed.

Lemma lock_ok_reenter e h w t :
  lock_ok n (Some e) h w → owner e = t →
  lock_ok (n + 1) (Some (MkLockEntry (owner e) (hold_count e + 1) (wait_queue e)))
    (λ t', h t' + if t =? t' then 1 else 0) w.
Proof.
  intros [H1 H2 H3 H4 H5 H6 H7] Ho. destruct (H1 e eq_refl). simpl in *.
  split; simpl; auto; try lia.
  - intros e' [= <-]. simpl. lia.
  - intros t' Ht'. specialize (H2 t' Ht'). bcase.
  - intros t'. specialize (H3 t'). bcase.
Qed.

Lemma lock_ok_take h w t :
  lock_ok n None h w → t ≠ 0 → w t = false → 1 ≤ n →
  lock_ok n (Some (MkLockEntry t 1 [])) (λ t', h t' + if t =? t' then 1 else 0) w.
Proof.
  intros Hi Ht Hw Hn. destruct (lock_ok_free _ _ _ Hi eq_refl) as [_ Hnone].
  destruct Hi as [H1 H2 H3 H4 H5 H6 H7]. simpl in *.
  split; simpl; auto.
  - intros e' [= <-]. simpl. lia.
  - intros t' Ht'. specialize (H2 t' Ht'). rewrite Hnone in *. bcase.
  - intros t'. specialize (H3 t'). bcase.
  - intros t'. rewrite Hnone. set_solver.
Qed.

Lemma lock_ok_enqueue e h w t :
  lock_ok n (Some e) h w → t ≠ 0 → owner e ≠ t → w t = false →
  lock_ok n (Some (MkLockEntry (owner e) (hold_count e) (wait_queue e ++ [t])))
    h (λ t', w t' || (t =? t')).
Proof.
  intros [H1 H2 H3 H4 H5 H6 H7] Ht Ho Hw. simpl in *.
  split; simpl; auto.
  - intros e' [= <-]. simpl. by apply (H1 e).
  - intros t' Ht'. specialize (H2 t' Ht'). destruct (w t') eqn:?; bcase.
  - apply NoDup_app. split_and!; [done| |apply NoDup_singleton].
    intros x Hx ->%list_elem_of_singleton. by apply H5 in Hx as [? _]; congruence.
  - intros t'. rewrite elem_of_app, H5, list_elem_of_singleton, orb_true_iff, Z.eqb_eq.
    clear -Ho. naive_solver.
  - rewrite H6. bcase.
Qed.

Lemma lock_ok_wake e h w t :
  lock_ok n (Some e) h w → owner e = t → w t = true →
  lock_ok n (Some e) (λ t', h t' + if t =? t' then 1 else 0) (λ t', w t' && negb (t =? t')).
Proof.
  intros [H1 H2 H3 H4 H5 H6 H7] Ho Hw. simpl in *.
  split; simpl; auto.
  - intros t' Ht'. specialize (H2 t' Ht'). destruct (w t') eqn:?; bcase.
  - intros t'. specialize (H3 t'). bcase.
  - intros t'. rewrite H5, andb_true_iff, negb_true_iff, Z.eqb_neq. clear -Ho. naive_solver.
  - by rewrite H6.
Qed.

Lemma lock_ok_timeout e h w t :
  lock_ok n (Some e) h w → owner e ≠ t →
  lock_ok n (Some (MkLockEntry (owner e) (hold_count e) (erase_first t (wait_queue e))))
    h (λ t', w t' && negb (t =? t')).
Proof.
  intros [H1 H2 H3 H4 H5 H6 H7] Ho. simpl in *.
  split; simpl; auto.
  - intros e' [= <-]. simpl. by apply (H1 e).
  - intros t' Ht'. specialize (H2 t' Ht'). destruct (w t') eqn:?; bcase.
  - by apply erase_first_NoDup.
  - intros t'. rewrite erase_first_elem_of, H5, andb_true_iff, negb_true_iff, Z.eqb_neq by done.
    clear. naive_solver.
  - by rewrite H6.
Qed.

Lemma lock_ok_unhold e h w t :
  lock_ok n (Some e) h w → owner e = t → t ≠ 0 → 1 ≤ h t → 1 < hold_count e →
  lock_ok n (Some (MkLockEntry (owner e) (hold_count e - 1) (wait_queue e)))
    (λ t', h t' - if t =? t' then 1 else 0) w.
Proof.
  intros [H1 H2 H3 H4 H5 H6 H7] Ho Ht Hh Hc. simpl in *.
  split; simpl; auto; try lia.
  - intros e' [= <-]. simpl. split; [congruence|lia].
  - intros t' Ht'. specialize (H2 t' Ht'). bcase.
  - intros t'. specialize (H3 t'). bcase.
Qed.

(** The last hold is dropped: the head of the queue becomes the owner. *)
Lemma lock_ok_handover e h w t next q :
  lock_ok n (Some e) h w → owner e = t → t ≠ 0 → 1 ≤ h t → hold_count e = 1 →
  wait_queue e = next :: q →
  lock_ok n (Some (MkLockEntry next 1 q)) (λ t', h t' - if t =? t' then 1 else 0) w.
Proof.
  intros [H1 H2 H3 H4 H5 H6 H7] Ho Ht Hh Hc Hq. simpl in *. rewrite Hq in *.
  apply NoDup_cons in H4 as [Hnew Hnd]. assert (w next = true ∧ owner e ≠ next) as [Hwn Hne].
  { apply H5. left. }
  assert (next ≠ 0) by congruence. split; simpl; auto.
  - intros e' [= <-]. simpl. lia.
  - intros t' Ht'. pose proof (H2 t' Ht'). pose proof (H3 t'). destruct (w t') eqn:?; bcase.
  - intros t'. specialize (H3 t'). bcase.
  - intros t'. specialize (H5 t'). rewrite elem_of_cons in H5. split.
    + intros Hin. split; [apply H5; by right|]. congruence.
    + intros [Hw Hn]. destruct (decide (owner e = t')) as [E|Hne'].
      * exfalso. specialize (H2 t' ltac:(congruence)). rewrite Hw, E, Z.eqb_refl in H2. simpl in H2.
        rewrite <- E in H2. rewrite Ho in H2. lia.
      * destruct H5 as [_ H5]. destruct H5; [done|congruence|done].
  - lia.
Qed.

Lemma lock_ok_erase e h w t :
  lock_ok n (Some e) h w → owner e = t → t ≠ 0 → 1 ≤ h t → hold_count e = 1 →
  wait_queue e = [] → 0 ≤ n →
  lock_ok n None (λ t', h t' - if t =? t' then 1 else 0) w.
Proof.
  intros [H1 H2 H3 H4 H5 H6 H7] Ho Ht Hh Hc Hq Hn. simpl in *. rewrite Hq in *.
  assert (∀ t', w t' = true → owner e = t') as Hw.
  { intros t' Hw. destruct (decide (owner e = t')); [done|]. exfalso.
    by apply (not_elem_of_nil t'), H5. }
  assert (∀ t', w t' = false) as Hw0.
  { intros t'. destruct (w t') eqn:E; [|done]. specialize (Hw t' E). subst t'.
    specialize (H2 (owner e) ltac:(congruence)). rewrite E, Z.eqb_refl in H2. simpl in H2.
    rewrite Ho in H2. lia. }
  split; simpl; auto.
  - done.
  - intros t' Ht'. specialize (H2 t' Ht'). rewrite Hw0 in *. bcase.
  - intros t'. specialize (H3 t'). bcase.
  - intros t'. rewrite Hw0. set_solver.
Qed.
End lock_ok.

Definition held_of (lm : LockManager) (t : Z) : list bytes := default [] (txn_locks_ lm !! t).

(** The holds of [t] on [lk] on record: in [txn_locks_], or in the hands of a
    [ReleaseAll] under way (the pairs [P]). *)
Definition recorded (lm : LockManager) (P : list (Z * bytes)) (lk : bytes) (t : Z) : Z :=
  Z.of_nat (cnt lk (held_of lm t) + cnt (t, lk) P).

Definition waits (W : gmap Z bytes) (lk : bytes) (t : Z) : bool := bool_decide (W !! t = Some lk).

Definition lock_inv (n : Z) (lm : LockManager) (W : gmap Z bytes) (P : list (Z * bytes)) : Prop :=
  ∀ lk, lock_ok n (locks_ lm !! lk) (recorded lm P lk) (waits W lk).

(** The holds in the hands of [ReleaseAll] callers. *)
Definition pending (rs : list (Z * list bytes)) : list (Z * bytes) :=
  rs ≫= λ r, (λ lk, (r.1, lk)) <$> r.2.

Definition sys_inv (n : Z) (s : LockSys) : Prop :=
  lock_inv n (lm s) (waiting s) (pending (releasing s)) ∧ Forall (λ r, r.1 ≠ 0) (releasing s).

(** ** Preservation *)

Lemma held_of_push lm t lk t' :
  held_of (push_held lm t lk) t' = if decide (t = t') then held_of lm t ++ [lk] else held_of lm t'.
Proof. unfold held_of, push_held. simpl. by destruct (decide (t = t')) as [->|]; simplify_map_eq. Qed.

Lemma recorded_push lm P t lk lk' t' :
  recorded (push_held lm t lk) P lk' t' =
  recorded lm P lk' t' + if bool_decide (lk = lk') && (t =? t') then 1 else 0.
Proof.
  unfold recorded. rewrite held_of_push.
  destruct (Z.eqb_spec t t') as [->|]; [rewrite decide_True by done|rewrite decide_False by done].
  - rewrite cnt_app. simpl. destruct (decide (lk' = lk)) as [->|].
    + rewrite bool_decide_true by done. simpl. lia.
    + rewrite bool_decide_false by congruence. simpl. lia.
  - rewrite andb_false_r. lia.
Qed.

Lemma recorded_nonneg lm P lk t : 0 ≤ recorded lm P lk t.
Proof. unfold recorded. lia. Qed.
#[export] Hint Resolve recorded_nonneg : db.

Lemma lock_inv_weaken n m lm W P : n ≤ m → lock_inv n lm W P → lock_inv m lm W P.
Proof. intros Hle Hi lk. by eapply lock_ok_weaken. Qed.

(** An operation on one lock key: what it leaves alone and what it does. *)
Lemma lock_inv_update n m lm W P lm' W' P' lk h w :
  lock_inv n lm W P → n ≤ m →
  (∀ lk', lk' ≠ lk → locks_ lm' !! lk' = locks_ lm !! lk' ∧
     ∀ t, recorded lm' P' lk' t = recorded lm P lk' t ∧ waits W' lk' t = waits W lk' t) →
  lock_ok m (locks_ lm' !! lk) h w →
  (∀ t, recorded lm' P' lk t = h t ∧ waits W' lk t = w t) →
  lock_inv m lm' W' P'.
Proof.
  intros Hi Hnm Hne Hok Hlk lk'. destruct (decide (lk' = lk)) as [->|Hd].
  - eapply lock_ok_ext; [| | |done]; intros t; [by destruct (Hlk t)|auto with db|by destruct (Hlk t)].
  - destruct (Hne lk' Hd) as [-> Ht]. eapply lock_ok_weaken; [done|].
    eapply lock_ok_ext; [| | |apply Hi]; intros t; [by destruct (Ht t)|auto with db|by destruct (Ht t)].
Qed.

Lemma waits_insert W t lk lk' t' : W !! t = None →
  waits (<[t := lk]> W) lk' t' = waits W lk' t' || (bool_decide (lk = lk') && (t =? t')).
Proof.
  intros Hn. unfold waits. destruct (Z.eqb_spec t t') as [->|].
  - rewrite lookup_insert_eq, Hn, andb_true_r. simpl. apply bool_decide_ext. naive_solver.
  - by rewrite lookup_insert_ne, andb_false_r, orb_false_r by done.
Qed.

Lemma waits_delete W t lk lk' t' : W !! t = Some lk →
  waits (delete t W) lk' t' = waits W lk' t' && negb (bool_decide (lk = lk') && (t =? t')).
Proof.
  intros Hn. unfold waits. destruct (Z.eqb_spec t t') as [->|].
  - rewrite lookup_delete_eq, Hn, andb_true_r, bool_decide_false by done.
    destruct (decide (lk = lk')); [subst; by rewrite !bool_decide_true|].
    rewrite bool_decide_false by congruence. done.
  - by rewrite lookup_delete_ne, andb_false_r, andb_true_r by done.
Qed.

Section preservation.
Context (n : Z) (Hn0 : 0 ≤ n) (Hn : n < UINT32_MAX).
Implicit Types (lm : LockManager) (W : gmap Z bytes) (P : list (Z * bytes)) (t : Z) (lk : bytes).

(** Replacing one entry, and recording one more hold. *)
Lemma lock_inv_set m lm W W' P lk e w :
  lock_inv n lm W P → n ≤ m →
  (∀ lk' t, waits W' lk' t = if decide (lk = lk') then w t else waits W lk' t) →
  lock_ok m (Some e) (recorded lm P lk) w → lock_inv m (set_entry lm lk e) W' P.
Proof.
  intros Hi Hnm Hw Hok.
  eapply (lock_inv_update n m _ _ _ _ _ _ lk); [done|lia| | |].
  - intros lk' Hne. simpl. rewrite lookup_insert_ne by done. split; [done|]. intros t'.
    by rewrite Hw, decide_False by done.
  - simpl. rewrite lookup_insert_eq. exact Hok.
  - intros t'. by rewrite Hw, decide_True by done.
Qed.

Lemma lock_inv_push m lm W W' P lk e w t :
  lock_inv n lm W P → n ≤ m →
  (∀ lk' t', waits W' lk' t' = if decide (lk = lk') then w t' else waits W lk' t') →
  lock_ok m (Some e) (λ t', recorded lm P lk t' + if t =? t' then 1 else 0) w →
  lock_inv m (push_held (set_entry lm lk e) t lk) W' P.
Proof.
  intros Hi Hnm Hw Hok.
  eapply (lock_inv_update n m _ _ _ _ _ _ lk); [done|lia| | |].
  - intros lk' Hne. simpl. rewrite lookup_insert_ne by done. split; [done|]. intros t'.
    rewrite Hw, decide_False, recorded_push, bool_decide_false by done. split; [|done].
    unfold recorded, held_of, set_entry. simpl. lia.
  - simpl. rewrite lookup_insert_eq. exact Hok.
  - intros t'. rewrite Hw, decide_True, recorded_push, bool_decide_true by done. done.
Qed.

Lemma waits_same W lk lk' t : waits W lk' t = if decide (lk = lk') then waits W lk t else waits W lk' t.
Proof. by case_decide; subst. Qed.

Lemma Acquire_enter_inv lm W P t lk lm' r :
  lock_inv n lm W P → t ≠ 0 → W !! t = None → Acquire_enter lm lk t = (lm', r) →
  (r = Some St.OK ∧ lock_inv (n + 1) lm' W P) ∨
  (r = None ∧ lock_inv (n + 1) lm' (<[t := lk]> W) P).
Proof.
  intros Hi Ht Hw. pose proof (Hi lk) as Hok. unfold Acquire_enter.
  assert (waits W lk t = false) as Hwt by (unfold waits; by rewrite Hw).
  destruct (Z.eqb_spec (owner (default free_entry (locks_ lm !! lk))) t) as [Ho|Ho].
  - destruct (lock_ok_owned _ _ _ _ Hok) as (e & El & ?); [congruence|]. rewrite El in *. simpl in *.
    pose proof (lo_bound _ _ _ _ Hok). simpl in *. rewrite u32_id by (unfold is_u32, UINT32_MAX in *; lia).
    intros [= <- <-]. left. split; [done|].
    eapply lock_inv_push; [done|lia|apply waits_same|]. by apply lock_ok_reenter.
  - destruct (Z.eqb_spec (owner (default free_entry (locks_ lm !! lk))) 0) as [H0|H0].
    + destruct (lock_ok_free _ _ _ _ Hok H0) as [El _]. rewrite El in *. simpl in *.
      intros [= <- <-]. left. split; [done|].
      eapply lock_inv_push; [done|lia|apply waits_same|]. apply lock_ok_take; [|done..|lia].
      eapply lock_ok_weaken; [|done]. lia.
    + destruct (lock_ok_owned _ _ _ _ Hok) as (e & El & _); [congruence|]. rewrite El in *. simpl in *.
      intros [= <- <-]. right. split; [done|].
      eapply lock_inv_set; [done|lia| |].
      * intros lk' t'. rewrite waits_insert by done. destruct (decide (lk = lk')) as [<-|].
        -- rewrite bool_decide_true by done. simpl. reflexivity.
        -- by rewrite bool_decide_false, orb_false_r by done.
      * eapply lock_ok_weaken; [|by apply lock_ok_enqueue]. lia.
Qed.

Lemma waits_delete_at W t lk : W !! t = Some lk → ∀ lk' t',
  waits (delete t W) lk' t' =
  if decide (lk = lk') then waits W lk t' && negb (t =? t') else waits W lk' t'.
Proof.
  intros Hw lk' t'. rewrite (waits_delete _ _ lk) by done.
  destruct (decide (lk = lk')) as [<-|]; [by rewrite bool_decide_true|].
  by rewrite bool_decide_false, andb_true_r by done.
Qed.

Lemma set_entry_id lm lk e : locks_ lm !! lk = Some e → set_entry lm lk e = lm.
Proof. intros E. destruct lm. unfold set_entry. simpl in *. by rewrite insert_id. Qed.

Lemma waiter_state lm W P t lk :
  lock_inv n lm W P → W !! t = Some lk →
  t ≠ 0 ∧ ∃ e, locks_ lm !! lk = Some e ∧ 1 ≤ hold_count e ∧ (owner e = t ∨ t ∈ wait_queue e).
Proof.
  intros Hi Hw. pose proof (Hi lk) as Hok.
  assert (waits W lk t = true) as Hwt by (unfold waits; by rewrite bool_decide_true).
  assert (t ≠ 0) as Ht by (intros ->; by rewrite (lo_wait _ _ _ _ Hok) in Hwt).
  split; [done|].
  destruct (decide (owner (default free_entry (locks_ lm !! lk)) = 0)) as [H0|H0].
  - destruct (lock_ok_free _ _ _ _ Hok H0) as [_ Hf]. by rewrite Hf in Hwt.
  - destruct (lock_ok_owned _ _ _ _ Hok H0) as (e & El & Hc). exists e. split_and!; [done..|].
    pose proof (lo_queue _ _ _ _ Hok t) as Hq. rewrite El in Hq. simpl in Hq.
    destruct (decide (owner e = t)); [by left|right]. by apply Hq.
Qed.

Lemma Acquire_granted_inv lm W P t lk e :
  lock_inv n lm W P → W !! t = Some lk → locks_ lm !! lk = Some e → owner e = t →
  lock_inv n (push_held lm t lk) (delete t W) P.
Proof.
  intros Hi Hw El Ho. rewrite <- (set_entry_id lm lk e El).
  eapply lock_inv_push; [done|lia|by apply waits_delete_at|].
  apply lock_ok_wake; [by rewrite <- El|done|]. unfold waits. by rewrite bool_decide_true.
Qed.

Lemma Acquire_wake_inv lm W P t lk lm' :
  lock_inv n lm W P → W !! t = Some lk → Acquire_wake lm lk t = (lm', Some St.OK) →
  lock_inv n lm' (delete t W) P.
Proof.
  intros Hi Hw. destruct (waiter_state _ _ _ _ _ Hi Hw) as (Ht & e & El & _ & _).
  unfold Acquire_wake. rewrite El. simpl. destruct (Z.eqb_spec (owner e) t); [|done].
  simpl. destruct (_ <? _); [|done]. intros [= <-]. by eapply Acquire_granted_inv.
Qed.

Lemma Acquire_timeout_inv lm W P t lk lm' st :
  lock_inv n lm W P → W !! t = Some lk → Acquire_timeout lm lk t = (lm', st) →
  lock_inv n lm' (delete t W) P.
Proof.
  intros Hi Hw. destruct (waiter_state _ _ _ _ _ Hi Hw) as (Ht & e & El & Hc & Hq).
  unfold Acquire_timeout. rewrite El. simpl. destruct (Z.eqb_spec (owner e) t) as [Ho|Ho].
  - simpl. destruct (Z.ltb_spec 0 (hold_count e)); [|lia].
    intros [= <- <-]. by eapply Acquire_granted_inv.
  - simpl. intros [= <- <-]. eapply lock_inv_set; [done|lia|by apply waits_delete_at|].
    apply lock_ok_timeout; [|done]. by rewrite <- El.
Qed.

Lemma recorded_pending lm P t lk lk' t' :
  recorded lm P lk' t' =
  recorded lm ((t, lk) :: P) lk' t' - if bool_decide (lk = lk') && (t =? t') then 1 else 0.
Proof.
  unfold recorded. simpl. destruct (decide ((t', lk') = (t, lk))) as [[= -> ->]|Hne].
  - rewrite bool_decide_true, Z.eqb_refl by done. simpl. lia.
  - destruct (Z.eqb_spec t t') as [->|]; [|rewrite andb_false_r; lia].
    rewrite bool_decide_false by congruence. simpl. lia.
Qed.

Lemma ReleaseInternal_txn_locks lm lk : txn_locks_ (ReleaseInternal lm lk) = txn_locks_ lm.
Proof. unfold ReleaseInternal. crush_cases. Qed.

Lemma ReleaseInternal_recorded lm P lk lk' t :
  recorded (ReleaseInternal lm lk) P lk' t = recorded lm P lk' t.
Proof. unfold recorded, held_of. by rewrite ReleaseInternal_txn_locks. Qed.

Lemma ReleaseInternal_other lm lk lk' :
  lk' ≠ lk → locks_ (ReleaseInternal lm lk) !! lk' = locks_ lm !! lk'.
Proof. intros Hne. unfold ReleaseInternal. crush_cases; by simplify_map_eq. Qed.

Lemma ReleaseInternal_inv lm W P t lk :
  t ≠ 0 → lock_inv n lm W ((t, lk) :: P) →
  lock_inv n (ReleaseInternal lm lk) W P ∧ owner (default free_entry (locks_ lm !! lk)) = t.
Proof.
  intros Ht Hi. pose proof (Hi lk) as Hok.
  assert (1 ≤ recorded lm ((t, lk) :: P) lk t) as Hpos.
  { pose proof (recorded_pending lm P t lk lk t) as E.
    rewrite bool_decide_true, Z.eqb_refl in E by done. simpl in E.
    pose proof (recorded_nonneg lm P lk t). lia. }
  assert (owner (default free_entry (locks_ lm !! lk)) = t) as Ho
    by (apply (lock_ok_owner _ _ _ _ _ Hok); [done|lia]).
  split; [|done]. destruct (lock_ok_owned _ _ _ _ Hok) as (e & El & Hc); [congruence|].
  rewrite El in Ho, Hok. simpl in Ho.
  eapply (lock_inv_update n n _ _ _ _ _ _ lk _ (waits W lk)); [done|lia| | |].
  - intros lk' Hne. rewrite ReleaseInternal_other by done. split; [done|]. intros t'. split; [|done].
    rewrite ReleaseInternal_recorded, (recorded_pending lm P t lk), bool_decide_false by done.
    simpl. lia.
  - instantiate (1 := λ t', recorded lm ((t, lk) :: P) lk t' - if t =? t' then 1 else 0).
    unfold ReleaseInternal. rewrite El.
    destruct (Z.eqb_spec (hold_count e) 0); [lia|]. destruct (Z.ltb_spec 0 (hold_count e - 1)).
    + simpl. rewrite lookup_insert_eq. apply lock_ok_unhold; auto; lia.
    + destruct (wait_queue e) as [|next q] eqn:Eq; simpl.
      * rewrite lookup_delete_eq. eapply lock_ok_erase; eauto; lia.
      * rewrite lookup_insert_eq. eapply lock_ok_handover; eauto; lia.
  - intros t'. split; [|done].
    by rewrite ReleaseInternal_recorded, (recorded_pending lm P t lk), bool_decide_true by done.
Qed.

(** Where a hold is recorded does not matter. *)
Lemma lock_inv_move lm lm' W P P' :
  lock_inv n lm W P → locks_ lm' = locks_ lm →
  (∀ lk t, t ≠ 0 → recorded lm' P' lk t = recorded lm P lk t) → lock_inv n lm' W P'.
Proof.
  intros Hi El Hr lk. rewrite El. eapply lock_ok_ext; [| | |apply Hi]; auto with db.
Qed.

Lemma ReleaseAll_drop_inv t keys : t ≠ 0 → ∀ lm W P,
  lock_inv n lm W (((λ lk, (t, lk)) <$> keys) ++ P) → lock_inv n (ReleaseAll_drop lm t keys) W P.
Proof.
  intros Ht. induction keys as [|lk keys IH]; intros lm W P Hi; [done|].
  simpl in *. apply IH. apply ReleaseInternal_inv in Hi as [Hi Ho]; [|done].
  unfold ReleaseAll_one. destruct (locks_ lm !! lk) as [e|] eqn:El; simpl in Ho; [|congruence].
  by rewrite Ho, Z.eqb_refl.
Qed.

Lemma cnt_pairs t t' lk keys :
  cnt (t', lk) ((λ lk, (t, lk)) <$> keys) = if decide (t = t') then cnt lk keys else 0%nat.
Proof.
  induction keys as [|k keys IH]; [by case_decide|]. rewrite fmap_cons. cbn [cnt]. rewrite IH.
  destruct (decide (t = t')), (decide ((t', lk) = (t, k))), (decide (lk = k)); naive_solver.
Qed.

Lemma ReleaseAll_take_inv lm W P t lm' keys :
  lock_inv n lm W P → ReleaseAll_take lm t = (lm', keys) →
  lock_inv n lm' W (((λ lk, (t, lk)) <$> keys) ++ P).
Proof.
  unfold ReleaseAll_take. intros Hi. destruct (txn_locks_ lm !! t) as [ks|] eqn:E;
    intros [= <- <-]; [|done].
  eapply lock_inv_move; [done..|]. intros lk t' Ht'. unfold recorded, held_of. simpl.
  rewrite cnt_app. destruct (decide (t = t')) as [->|Hne].
  - rewrite lookup_delete_eq, E, cnt_pairs, decide_True by done. simpl. lia.
  - rewrite lookup_delete_ne, cnt_pairs, decide_False by done. lia.
Qed.

Lemma Release_inv lm W P tid key t :
  t ≠ 0 → lock_inv n lm W P → lock_inv n (Release lm tid key t) W P.
Proof.
  intros Ht Hi. unfold Release. set (lk := MakeLockKey tid key).
  destruct (locks_ lm !! lk) as [e|] eqn:El; [|done].
  destruct (Z.eqb_spec (owner e) t) as [Ho|Ho]; [simpl|done].
  case_bool_decide as Hin.
  - apply (ReleaseInternal_inv _ W P t lk Ht). eapply lock_inv_move; [done..|].
    intros lk' t' Ht'. unfold recorded. simpl.
    set (tl := match erase_first _ _ with [] => _ | _ => _ end).
    assert (held_of (MkLockManager (locks_ lm) tl) t' =
      if decide (t = t') then erase_first lk (held_of lm t) else held_of lm t') as ->.
    { unfold held_of at 1, tl. simpl. fold (held_of lm t).
      destruct (decide (t = t')) as [->|]; destruct (erase_first lk _); by simplify_map_eq. }
    destruct (decide (t = t')) as [->|].
    + rewrite (cnt_erase_first lk' lk (held_of lm t')) by done.
      destruct (decide ((t', lk') = (t', lk))), (decide (lk' = lk)); naive_solver lia.
    + rewrite (decide_False (P := (t', lk') = (t, lk))) by congruence. lia.
  - eapply lock_inv_move; [done..|]. intros lk' t' Ht'. unfold recorded, held_of. simpl.
    destruct (decide (t = t')) as [->|]; by simplify_map_eq.
Qed.
End preservation.

Lemma pending_app rs1 rs2 : pending (rs1 ++ rs2) = pending rs1 ++ pending rs2.
Proof. unfold pending. by rewrite bind_app. Qed.

Lemma pending_cons t keys rs : pending ((t, keys) :: rs) = ((λ lk, (t, lk)) <$> keys) ++ pending rs.
Proof. done. Qed.

Lemma lock_step_inv n s s' : 0 ≤ n < UINT32_MAX → sys_inv n s → lock_step s s' → sys_inv (n + 1) s'.
Proof.
  unfold sys_inv. intros [Hn0 Hn] [Hi Hr] Hstep.
  assert (∀ lm W P, lock_inv n lm W P → lock_inv (n + 1) lm W P) as Hmono
    by (intros; eapply lock_inv_weaken; [|done]; lia).
  destruct Hstep as [s t lk lm' Ht Hw E|s t lk lm' Ht Hw E|s t lk lm' Hw E|s t lk lm' st Hw E
    |s t tid key Ht|s t lm' keys Ht E|s t keys rs1 rs2 E]; simpl.
  - by destruct (Acquire_enter_inv _ Hn0 Hn _ _ _ _ _ _ _ Hi Ht Hw E) as [[??]|[? _]].
  - by destruct (Acquire_enter_inv _ Hn0 Hn _ _ _ _ _ _ _ Hi Ht Hw E) as [[? _]|[??]].
  - split; [|done]. apply Hmono. by eapply Acquire_wake_inv.
  - split; [|done]. apply Hmono. by eapply Acquire_timeout_inv.
  - split; [|done]. apply Hmono. by apply Release_inv.
  - split; [|by constructor]. apply Hmono. by eapply ReleaseAll_take_inv.
  - rewrite E in *. apply Forall_app in Hr as [Hr1 [Ht Hr2]%Forall_cons]. simpl in Ht.
    split; [|by apply Forall_app]. apply Hmono, ReleaseAll_drop_inv; [done..|].
    eapply lock_inv_move; [done..|]. intros lk t' _. unfold recorded. do 2 f_equal.
    rewrite !pending_app, pending_cons, !cnt_app. simpl. lia.
Qed.

Lemma lock_steps_inv n s : lock_steps n LockSys_init s → Z.of_nat n ≤ UINT32_MAX → sys_inv (Z.of_nat n) s.
Proof.
  remember LockSys_init as s0 eqn:E0. induction 1 as [s|n s1 s2 s3 Hs IH Hstep]; intros Hn; subst.
  - split; [|constructor]. intros lk. eapply lock_ok_ext; [| | |apply (lock_ok_init 0)]; try done.
  - replace (Z.of_nat (S n)) with (Z.of_nat n + 1) by lia.
    eapply lock_step_inv; [|apply IH|done]; [lia|done|lia].
Qed.

(** Different rows have different lock keys. *)
Lemma MakeLockKey_inj t1 k1 t2 k2 : is_u32 t1 → is_u32 t2 →
  MakeLockKey t1 k1 = MakeLockKey t2 k2 → t1 = t2 ∧ k1 = k2.
Proof.
  intros H1 H2. unfold MakeLockKey. rewrite !AppendBigEndianU32_be, !app_nil_l. intros E.
  apply app_inj_1 in E as [E ->]; [|by rewrite !length_be_bytes]. split; [|done].
  apply (f_equal be_value) in E. rewrite !be_value_bytes in E.
  change (256 ^ Z.of_nat 4) with 4294967296 in E. unfold is_u32 in *. by rewrite !Z.mod_small in E.
Qed.

(** Taking a lock nobody has. *)
Lemma Acquire_free lm tid key t : t ≠ 0 → locks_ lm !! MakeLockKey tid key = None →
  Acquire lm tid key t =
  (push_held (set_entry lm (MakeLockKey tid key) (MkLockEntry t 1 [])) t (MakeLockKey tid key), St.OK).
Proof.
  intros Ht Hn. unfold Acquire, Acquire_enter. rewrite Hn. simpl.
  by destruct t.
Qed.

(** What releasing the last hold does to an entry. *)
Definition hand_over (e : LockEntry) : option LockEntry :=
  match wait_queue e with
  | [] => None
  | next :: queue => Some (MkLockEntry next 1 queue)
  end.

(** Dropping all recorded holds of a transaction that neither sleeps nor has
    another [ReleaseAll] under way hands over every lock it owns. *)
Lemma ReleaseAll_drop_locks n t keys : t ≠ 0 → 0 ≤ n → ∀ lm W P,
  lock_inv n lm W (((λ lk, (t, lk)) <$> keys) ++ P) →
  W !! t = None → held_of lm t = [] → (∀ lk, (t, lk) ∉ P) →
  ∀ lk, locks_ (ReleaseAll_drop lm t keys) !! lk =
    e ← locks_ lm !! lk; if owner e =? t then hand_over e else Some e.
Proof.
  intros Ht Hn. induction keys as [|k keys IH]; intros lm W P Hi Hw Hh HP lk.
  - simpl. destruct (locks_ lm !! lk) as [e|] eqn:El; [simpl|done].
    destruct (Z.eqb_spec (owner e) t) as [Ho|]; [|done]. exfalso.
    pose proof (Hi lk) as Hok. rewrite El in Hok. destruct (lo_entry _ _ _ _ Hok e eq_refl).
    pose proof (lo_holds _ _ _ _ Hok t Ht) as E. simpl in E. rewrite Ho, Z.eqb_refl in E.
    unfold recorded, waits in E. rewrite Hh, Hw, (cnt_not_elem_of _ P (HP lk)) in E.
    rewrite bool_decide_false in E by done. simpl in E. lia.
  - pose proof (Hi lk) as Hok. rewrite fmap_cons in Hi. simpl in Hi.
    apply ReleaseInternal_inv in Hi as [Hi Ho]; [|done..].
    assert (ReleaseAll_one t lm k = ReleaseInternal lm k) as E1.
    { unfold ReleaseAll_one. destruct (locks_ lm !! k) as [e|] eqn:El; simpl in Ho; [|congruence].
      by rewrite Ho, Z.eqb_refl. }
    simpl. rewrite E1, (IH _ W P); [|done..| |done].
    2: { unfold held_of in *. by rewrite ReleaseInternal_txn_locks. }
    destruct (decide (lk = k)) as [->|Hne]; [|by rewrite ReleaseInternal_other by done].
    unfold ReleaseInternal. destruct (locks_ lm !! k) as [e|] eqn:El; simpl in Ho; [|congruence].
    simpl. rewrite Ho, Z.eqb_refl. destruct (lo_entry _ _ _ _ Hok e eq_refl).
    destruct (Z.eqb_spec (hold_count e) 0); [lia|]. destruct (Z.ltb_spec 0 (hold_count e - 1)).
    + simpl. rewrite lookup_insert_eq. simpl. by rewrite Z.eqb_refl.
    + unfold hand_over. destruct (wait_queue e) as [|next q] eqn:Eq; simpl.
      * by rewrite lookup_delete_eq.
      * rewrite lookup_insert_eq. simpl. destruct (Z.eqb_spec next t); [|done].
        assert (next ∈ wait_queue e) as Hin by (rewrite Eq; left).
        apply (lo_queue _ _ _ _ Hok) in Hin. simpl in Hin. naive_solver.
Qed.

Lemma held_of_take lm t lm' keys : ReleaseAll_take lm t = (lm', keys) →
  held_of lm' t = [] ∧ locks_ lm' = locks_ lm.
Proof.
  unfold ReleaseAll_take, held_of. destruct (txn_locks_ lm !! t) eqn:E; intros [= <- <-]; simpl.
  - by rewrite lookup_delete_eq.
  - by rewrite E.
Qed.

(** ** Properties *)

(** C26. Locks are exclusive, in every interleaving of callers in which no
    transaction sleeps in two calls of [Acquire] at once, as long as fewer than
    2^32 requests were made: a lock key recorded for two transactions in
    [txn_locks_] is recorded for one and the same, which owns the entry, and the
    entry's [hold_count] is the number of its records there, in the calls of
    [ReleaseAll] under way, and the one that its own sleeping [Acquire] will make
    if it was handed the lock. *)
Theorem lock_mutual_exclusion (n : nat) (s : LockSys) (lk : bytes) (t1 t2 : Z)
    (Hrun : lock_steps n LockSys_init s) (Hn : Z.of_nat n ≤ UINT32_MAX)
    (Ht1 : t1 ≠ 0) (Ht2 : t2 ≠ 0)
    (H1 : lk ∈ held_of (lm s) t1) (H2 : lk ∈ held_of (lm s) t2) :
  t1 = t2 ∧ ∃ e, locks_ (lm s) !! lk = Some e ∧ owner e = t1 ∧
    hold_count e = Z.of_nat (cnt lk (held_of (lm s) t1) + cnt (t1, lk) (pending (releasing s))) +
      (if bool_decide (waiting s !! t1 = Some lk) then 1 else 0).
Proof.
  destruct (lock_steps_inv n s Hrun Hn) as [Hi _]. specialize (Hi lk).
  apply cnt_elem_of in H1, H2.
  assert (owner (default free_entry (locks_ (lm s) !! lk)) = t1) as Ho1
    by (eapply lock_ok_owner; eauto; unfold recorded; lia).
  assert (owner (default free_entry (locks_ (lm s) !! lk)) = t2) as Ho2
    by (eapply lock_ok_owner; eauto; unfold recorded; lia).
  split; [congruence|]. destruct (lock_ok_owned _ _ _ _ Hi) as (e & El & _); [congruence|].
  exists e. rewrite El in Ho1. split_and!; [done..|].
  pose proof (lo_holds _ _ _ _ Hi t1 Ht1) as E. rewrite El in E. simpl in *.
  rewrite Ho1, Z.eqb_refl, andb_true_r in E. unfold recorded, waits in E. lia.
Qed.

(** A run with two transactions on one key: 7 takes the lock twice, 8 queues. *)
Definition demo_locks : LockSys :=
  let k := MakeLockKey 1 [] in
  let l1 := (Acquire_enter LockManager_init k 7).1 in
  let l2 := (Acquire_enter l1 k 7).1 in
  MkLockSys (Acquire_enter l2 k 8).1 {[8 := k]} [].

Lemma demo_locks_run : lock_steps 3 LockSys_init demo_locks.
Proof.
  unfold demo_locks. set (k := MakeLockKey 1 []).
  apply (steps_step 2 _ (MkLockSys (Acquire_enter (Acquire_enter LockManager_init k 7).1 k 7).1 ∅ [])).
  - apply (steps_step 1 _ (MkLockSys (Acquire_enter LockManager_init k 7).1 ∅ [])).
    + apply (steps_step 0 _ LockSys_init); [constructor|].
      by apply (step_acquire LockSys_init 7 k).
    + by apply (step_acquire (MkLockSys (Acquire_enter LockManager_init k 7).1 ∅ []) 7 k).
  - by apply (step_enqueue
      (MkLockSys (Acquire_enter (Acquire_enter LockManager_init k 7).1 k 7).1 ∅ []) 8 k).
Defined.

Lemma lock_mutual_exclusion_witness :
  ∃ e, locks_ (lm demo_locks) !! MakeLockKey 1 [] = Some e ∧ owner e = 7 ∧
    hold_count e = Z.of_nat (cnt (MakeLockKey 1 []) (held_of (lm demo_locks) 7) +
        cnt (7, MakeLockKey 1 []) (pending (releasing demo_locks))) +
      (if bool_decide (waiting demo_locks !! 7 = Some (MakeLockKey 1 [])) then 1 else 0).
Proof.
  assert (MakeLockKey 1 [] ∈ held_of (lm demo_locks) 7) as Hin.
  { replace (held_of (lm demo_locks) 7) with [MakeLockKey 1 []; MakeLockKey 1 []]
      by (vm_compute; reflexivity). left. }
  destruct (lock_mutual_exclusion 3 demo_locks (MakeLockKey 1 []) 7 7 demo_locks_run
    ltac:(done) ltac:(done) ltac:(done) Hin Hin) as [_ H]. exact H.
Defined.

(** Transaction 8 waits for the lock of 7 in two calls, with 9 in between. When 7
    releases it, both calls of 8 return, two records for one hold; one release
    of 8 then hands the lock to 9 while 8 still has a record of it. *)
Lemma two_waits_break_exclusion :
  let k := MakeLockKey 1 [] in
  let enter t l := (Acquire_enter l k t).1 in
  let wake t l := (Acquire_wake l k t).1 in
  let l := enter 8 (enter 9 (enter 8 (enter 7 LockManager_init))) in
  let l := wake 8 (wake 8 (Release l 1 [] 7)) in
  let l := wake 9 (Release l 1 [] 8) in
  held_of l 8 = [k] ∧ held_of l 9 = [k] ∧ (owner <$> locks_ l !! k) = Some 9.
Proof. vm_compute. done. Qed.

(** No waiter is forgotten. In every reachable state a transaction that
    sleeps in [Acquire] either was handed the lock, and then its next check
    succeeds, even when its deadline has passed; or it is queued behind an owner
    that really holds the lock: the hold is recorded, is being released, or was
    just granted to that owner's own sleeping [Acquire]. *)
Theorem lock_no_lost_waiter (n : nat) (s : LockSys) (t : Z) (lk : bytes)
    (Hrun : lock_steps n LockSys_init s) (Hn : Z.of_nat n ≤ UINT32_MAX)
    (Hw : waiting s !! t = Some lk) :
  ∃ e, locks_ (lm s) !! lk = Some e ∧
    if decide (owner e = t) then
      (Acquire_wake (lm s) lk t).2 = Some St.OK ∧ (Acquire_timeout (lm s) lk t).2 = St.OK
    else t ∈ wait_queue e ∧ NoDup (wait_queue e) ∧
      (lk ∈ held_of (lm s) (owner e) ∨ (owner e, lk) ∈ pending (releasing s) ∨
       waiting s !! owner e = Some lk).
Proof.
  destruct (lock_steps_inv n s Hrun Hn) as [Hi _].
  destruct (waiter_state _ _ _ _ _ _ Hi Hw) as (Ht & e & El & Hc & Hq). exists e. split; [done|].
  case_decide as Ho.
  - unfold Acquire_wake, Acquire_timeout. rewrite El. simpl.
    rewrite Ho, Z.eqb_refl. by destruct (Z.ltb_spec 0 (hold_count e)); [|lia].
  - destruct Hq as [?|Hq]; [done|]. specialize (Hi lk). rewrite El in Hi.
    split_and!; [done|apply (lo_nodup _ _ _ _ Hi)|].
    destruct (lo_entry _ _ _ _ Hi e eq_refl) as [Ho0 _].
    pose proof (lo_holds _ _ _ _ Hi _ Ho0) as E. simpl in E. rewrite Z.eqb_refl, andb_true_r in E.
    unfold recorded in E. rewrite !cnt_elem_of. unfold waits in E.
    case_bool_decide; [by auto|]. lia.
Qed.

Lemma lock_no_lost_waiter_witness :
  waiting demo_locks !! 8 = Some (MakeLockKey 1 []) ∧
  ∃ e, locks_ (lm demo_locks) !! MakeLockKey 1 [] = Some e ∧
    if decide (owner e = 8) then
      (Acquire_wake (lm demo_locks) (MakeLockKey 1 []) 8).2 = Some St.OK ∧
      (Acquire_timeout (lm demo_locks) (MakeLockKey 1 []) 8).2 = St.OK
    else 8 ∈ wait_queue e ∧ NoDup (wait_queue e) ∧
      (MakeLockKey 1 [] ∈ held_of (lm demo_locks) (owner e) ∨
       (owner e, MakeLockKey 1 []) ∈ pending (releasing demo_locks) ∨
       waiting demo_locks !! owner e = Some (MakeLockKey 1 [])).
Proof.
  split; [vm_compute; reflexivity|].
  apply (lock_no_lost_waiter 3 demo_locks 8 (MakeLockKey 1 []) demo_locks_run);
    [vm_compute; discriminate|vm_compute; reflexivity].
Defined.

(** [ReleaseAll] releases everything, once: called in a reachable state for
    a transaction with no other call under way, it leaves no recorded hold,
    passes each lock the transaction owns to the first waiter (or removes the
    entry when nobody waits), however often the lock was taken, and touches no
    other lock. *)
Theorem ReleaseAll_hands_over (n : nat) (s : LockSys) (t : Z)
    (Hrun : lock_steps n LockSys_init s) (Hn : Z.of_nat n ≤ UINT32_MAX)
    (Ht : t ≠ 0) (Hw : waiting s !! t = None) (Hr : ∀ keys, (t, keys) ∉ releasing s) :
  held_of (ReleaseAll (lm s) t) t = [] ∧
  ∀ lk, locks_ (ReleaseAll (lm s) t) !! lk =
    e ← locks_ (lm s) !! lk; if owner e =? t then hand_over e else Some e.
Proof.
  destruct (lock_steps_inv n s Hrun Hn) as [Hi _]. unfold ReleaseAll.
  destruct (ReleaseAll_take (lm s) t) as [lm' keys] eqn:E.
  destruct (held_of_take _ _ _ _ E) as [Hh El]. split.
  - assert (∀ ks l, held_of (ReleaseAll_drop l t ks) t = held_of l t) as Hd; [|by rewrite Hd].
    intros ks. induction ks as [|k ks IH]; intros l; simpl; [done|]. rewrite IH.
    unfold ReleaseAll_one. crush_cases. unfold held_of. by rewrite ReleaseInternal_txn_locks.
  - intros lk. rewrite <- El. eapply (ReleaseAll_drop_locks (Z.of_nat n)); [done|lia| |done..|].
    + by apply (ReleaseAll_take_inv _ _ _ _ _ _ _ Hi E).
    + intros lk' Hin. unfold pending in Hin.
      apply list_elem_of_bind in Hin as ([t' ks] & Hin & Hks).
      apply list_elem_of_fmap in Hin as (? & [= <- <-] & ?). by eapply Hr.
Qed.

Lemma ReleaseAll_hands_over_witness :
  held_of (ReleaseAll (lm demo_locks) 7) 7 = [] ∧
  locks_ (ReleaseAll (lm demo_locks) 7) !! MakeLockKey 1 [] = Some (MkLockEntry 8 1 []).
Proof.
  destruct (ReleaseAll_hands_over 3 demo_locks 7 demo_locks_run) as [H1 H2];
    [done..|set_solver|]. split; [exact H1|]. rewrite H2. vm_compute. reflexivity.
Defined.
