(* ===== verification/Crc32.v ===== *)
(** * CRC-32 (the copies in src/src/txn/wal.cpp and src/src/coordinator/coordinator_log.cpp)

    The table driven checksum of the write-ahead log and of the coordinator log,
    its equivalence with the bit-serial definition of CRC-32, and the errors it
    detects. *)
From stdpp Require Import base list.
From Stdlib Require Import ZArith Lia Strings.Byte.
From S2P Require Import Prelude.
Local Open Scope Z_scope.

Definition kCrc32Poly : Z := 0xEDB88320.

(** The body of the inner loop of [MakeCrc32Table]. *)
Definition crc_shift (c : Z) : Z :=
  if Z.land c 1 =? 0 then Z.shiftr c 1 else Z.lxor kCrc32Poly (Z.shiftr c 1).

Definition MakeCrc32Table : list Z :=
  (λ i : nat, Nat.iter 8 crc_shift (Z.of_nat i)) <$> seq 0 256.

Definition kCrcTbl : list Z := Eval vm_compute in MakeCrc32Table.

(** One round of the loop of [Crc32Ieee]. *)
Definition crc_round (c : Z) (uc : byte) : Z :=
  Z.lxor (nth (Z.to_nat (Z.land (Z.lxor c (byte_to_Z uc)) 255)) kCrcTbl 0) (Z.shiftr c 8).

Definition Crc32Ieee (data : bytes) : Z :=
  Z.lxor UINT32_MAX (foldl crc_round UINT32_MAX data).

(** ** Reference: the message bits, least significant first, through the
    reflected shift register. *)
Definition crc_bit (c : Z) (b : bool) : Z := crc_shift (Z.lxor c (Z.b2z b)).
Definition byte_bits (b : byte) : list bool :=
  (λ i : nat, Z.testbit (byte_to_Z b) (Z.of_nat i)) <$> seq 0 8.
Definition crc32_spec (data : bytes) : Z :=
  Z.lxor UINT32_MAX (foldl crc_bit UINT32_MAX (data ≫= byte_bits)).

(** ** The shift register is linear and injective *)

Lemma land_1_testbit c : Z.land c 1 = Z.b2z (Z.testbit c 0).
Proof. change 1 with (Z.ones 1) at 1. rewrite Z.land_ones by lia. by rewrite Z.bit0_mod. Qed.

Lemma crc_shift_testbit c :
  crc_shift c = Z.lxor (Z.shiftr c 1) (if Z.testbit c 0 then kCrc32Poly else 0).
Proof.
  unfold crc_shift. rewrite land_1_testbit. destruct (Z.testbit c 0); simpl.
  - apply Z.lxor_comm.
  - by rewrite Z.lxor_0_r.
Qed.

Lemma crc_shift_lxor a b : crc_shift (Z.lxor a b) = Z.lxor (crc_shift a) (crc_shift b).
Proof.
  rewrite !crc_shift_testbit, Z.shiftr_lxor, Z.lxor_spec.
  apply Z.bits_inj'. intros i Hi. rewrite !Z.lxor_spec.
  destruct (Z.testbit a 0), (Z.testbit b 0); simpl; rewrite ?Z.bits_0; 
    destruct (Z.testbit (Z.shiftr a 1) i), (Z.testbit (Z.shiftr b 1) i), (Z.testbit kCrc32Poly i); done.
Qed.

Lemma crc_shift_even a : 0 ≤ a → crc_shift (2 * a) = a.
Proof.
  intros Ha. rewrite crc_shift_testbit.
  rewrite Z.testbit_even_0, Z.lxor_0_r, Z.shiftr_div_pow2 by lia.
  change (2 ^ 1) with 2. rewrite Z.mul_comm, Z.div_mul; lia.
Qed.

Lemma iter_lxor n a b :
  Nat.iter n crc_shift (Z.lxor a b) = Z.lxor (Nat.iter n crc_shift a) (Nat.iter n crc_shift b).
Proof. induction n as [|n IH]; simpl; [done|]. by rewrite IH, crc_shift_lxor. Qed.

Lemma iter_shiftl n a : 0 ≤ a → Nat.iter n crc_shift (Z.shiftl a (Z.of_nat n)) = a.
Proof.
  revert a. induction n as [|n IH]; intros a Ha; [apply Z.shiftl_0_r|].
  rewrite Nat.iter_succ_r, Nat2Z.inj_succ. 
  replace (Z.shiftl a (Z.succ (Z.of_nat n))) with (2 * Z.shiftl a (Z.of_nat n)).
  - rewrite crc_shift_even by (by apply Z.shiftl_nonneg). by apply IH.
  - rewrite !Z.shiftl_mul_pow2, Z.pow_succ_r by lia. ring.
Qed.

Lemma iter8_shiftl a : 0 ≤ a → Nat.iter 8 crc_shift (Z.shiftl a 8) = a.
Proof. exact (iter_shiftl 8 a). Qed.

Lemma lxor_u32 a b : is_u32 a → is_u32 b → is_u32 (Z.lxor a b).
Proof.
  unfold is_u32. intros Ha Hb. assert (0 ≤ Z.lxor a b) by (apply Z.lxor_nonneg; lia).
  split; [done|]. destruct (decide (Z.lxor a b = 0)) as [->|]; [lia|].
  change 4294967296 with (2 ^ 32). apply Z.log2_lt_pow2; [lia|].
  eapply Z.le_lt_trans; [apply Z.log2_lxor; lia|].
  apply Z.max_lub_lt; (destruct (decide (0 < a)), (decide (0 < b)); 
    try (apply Z.log2_lt_pow2; lia); rewrite ?Z.log2_nonpos; lia).
Qed.

Lemma shiftr_u32 c k : 0 ≤ k → is_u32 c → is_u32 (Z.shiftr c k).
Proof.
  unfold is_u32. intros Hk Hc. rewrite Z.shiftr_div_pow2 by lia.
  pose proof (Z.pow_pos_nonneg 2 k ltac:(lia) Hk).
  split; [apply Z.div_pos; lia|]. apply Z.div_lt_upper_bound; nia.
Qed.

Lemma crc_shift_u32 c : is_u32 c → is_u32 (crc_shift c).
Proof.
  intros Hc. rewrite crc_shift_testbit. apply lxor_u32; [by apply shiftr_u32|].
  by destruct (Z.testbit c 0).
Qed.

Lemma iter_u32 n c : is_u32 c → is_u32 (Nat.iter n crc_shift c).
Proof. intros Hc. induction n; simpl; [done|]. by apply crc_shift_u32. Qed.

Lemma testbit_small c k : 0 ≤ c < 2 ^ k → Z.testbit c k = false.
Proof.
  intros Hc. destruct (decide (c = 0)) as [->|]; [apply Z.bits_0|].
  apply Z.bits_above_log2; [lia|]. apply Z.log2_lt_pow2; lia.
Qed.

(** Bit 31 of the result is the bit that was shifted out. *)
Lemma crc_shift_bit31 c : is_u32 c → Z.testbit (crc_shift c) 31 = Z.testbit c 0.
Proof.
  intros Hc. rewrite crc_shift_testbit, Z.lxor_spec, Z.shiftr_spec by lia.
  rewrite (testbit_small c (31 + 1)) by (unfold is_u32 in Hc; simpl; lia).
  by destruct (Z.testbit c 0).
Qed.

Lemma crc_shift_inj a b : is_u32 a → is_u32 b → crc_shift a = crc_shift b → a = b.
Proof.
  intros Ha Hb E. pose proof (crc_shift_bit31 a Ha) as E0. rewrite E, crc_shift_bit31 in E0 by done.
  rewrite !crc_shift_testbit, E0 in E. 
  apply (f_equal (λ x, Z.lxor x (if Z.testbit a 0 then kCrc32Poly else 0))) in E.
  rewrite !Z.lxor_assoc, Z.lxor_nilpotent, !Z.lxor_0_r, !Z.shiftr_div_pow2 in E by lia.
  change (2 ^ 1) with 2 in E. 
  rewrite (Z.div_mod a 2), (Z.div_mod b 2) by lia. rewrite E. f_equal.
  rewrite <- !Z.bit0_mod. congruence.
Qed.

Lemma iter_inj n a b : is_u32 a → is_u32 b → Nat.iter n crc_shift a = Nat.iter n crc_shift b → a = b.
Proof.
  intros Ha Hb. induction n as [|n IH]; simpl; [done|].
  intros E. apply IH, crc_shift_inj; auto using iter_u32.
Qed.

(** ** The table *)

Lemma kCrcTbl_nth i : 0 ≤ i < 256 → nth (Z.to_nat i) kCrcTbl 0 = Nat.iter 8 crc_shift i.
Proof.
  intros Hi. change kCrcTbl with MakeCrc32Table.
  unfold MakeCrc32Table. rewrite <- (Z2Nat.id i) at 2 by lia.
  generalize (Z.to_nat i) (Z2Nat.inj_lt i 256 ltac:(lia) ltac:(lia)). intros k [Hk _].
  specialize (Hk ltac:(lia)). change (Z.to_nat 256) with 256%nat in Hk.
  apply nth_lookup_Some with (d := 0). rewrite list_lookup_fmap, lookup_seq_lt by lia. done.
Qed.

(** A table round is eight shifts of the register with the byte added. *)
Lemma crc_round_shifts c b : 0 ≤ c →
  crc_round c b = Nat.iter 8 crc_shift (Z.lxor c (byte_to_Z b)).
Proof.
  intros Hc. pose proof (byte_to_Z_range b) as Hb. unfold crc_round. set (x := Z.lxor c (byte_to_Z b)).
  assert (0 ≤ x) as Hx by (apply Z.lxor_nonneg; lia).
  rewrite kCrcTbl_nth by (rewrite land_255; apply Z.mod_pos_bound; lia).
  assert (Z.shiftr c 8 = Z.shiftr x 8) as ->.
  { unfold x. rewrite Z.shiftr_lxor. rewrite (Z.shiftr_div_pow2 (byte_to_Z b)) by lia.
    change (2 ^ 8) with 256. by rewrite (Z.div_small (byte_to_Z b)), Z.lxor_0_r by lia. }
  assert (x = Z.lxor (Z.land x 255) (Z.shiftl (Z.shiftr x 8) 8)) as E.
  { apply Z.bits_inj'. intros i Hi. rewrite Z.lxor_spec, Z.land_spec.
    change 255 with (Z.ones 8). destruct (decide (i < 8)).
    - rewrite Z.ones_spec_low, Z.shiftl_spec_low by lia. by rewrite andb_true_r, xorb_false_r.
    - rewrite Z.ones_spec_high, Z.shiftl_spec, Z.shiftr_spec by lia.
      rewrite andb_false_r, xorb_false_l. f_equal. lia. }
  replace (Nat.iter 8 crc_shift x) with
    (Nat.iter 8 crc_shift (Z.lxor (Z.land x 255) (Z.shiftl (Z.shiftr x 8) 8))) by (by rewrite <- E).
  rewrite iter_lxor, (iter8_shiftl (Z.shiftr x 8)) by (by apply Z.shiftr_nonneg). done.
Qed.

(** Eight bits of the reference, starting with bit [k] of a byte whose lower
    bits were consumed. *)
Lemma crc_bits_shifts n c b : 0 ≤ c → 0 ≤ b < 2 ^ Z.of_nat n →
  foldl crc_bit c ((λ i : nat, Z.testbit b (Z.of_nat i)) <$> seq 0 n) =
  Nat.iter n crc_shift (Z.lxor c b).
Proof.
  revert c b. induction n as [|n IH]; intros c b Hc Hb.
  - simpl. replace b with 0 by (change (2 ^ Z.of_nat 0) with 1 in Hb; lia). by rewrite Z.lxor_0_r.
  - rewrite Nat2Z.inj_succ, Z.pow_succ_r in Hb by lia.
    rewrite Nat.iter_succ_r. cbn [seq]. rewrite fmap_cons. cbn [foldl].
    assert (((λ i : nat, Z.testbit b (Z.of_nat i)) <$> seq 1 n) =
            ((λ i : nat, Z.testbit (Z.shiftr b 1) (Z.of_nat i)) <$> seq 0 n)) as ->.
    { rewrite <- seq_shift, <- list_fmap_compose. apply list_fmap_ext. intros _ i _.
      cbn. rewrite Z.shiftr_spec by lia. by replace (Z.of_nat i + 1) with (Z.of_nat (S i)) by lia. }
    assert (0 ≤ crc_bit c (Z.testbit b (Z.of_nat 0))) as H0.
    { unfold crc_bit. rewrite crc_shift_testbit. apply Z.lxor_nonneg. split; intros _; [by case_match|].
      apply Z.shiftr_nonneg, Z.lxor_nonneg. by destruct (Z.testbit b _). }
    assert (0 ≤ Z.shiftr b 1 < 2 ^ Z.of_nat n).
    { rewrite Z.shiftr_div_pow2 by lia. change (2 ^ 1) with 2.
      split; [apply Z.div_pos; lia|apply Z.div_lt_upper_bound; lia]. }
    rewrite IH by done. f_equal. unfold crc_bit. change (Z.of_nat 0) with 0.
    assert (b = Z.lxor (Z.b2z (Z.testbit b 0)) (2 * Z.shiftr b 1)) as E.
    { rewrite <- land_1_testbit. apply Z.bits_inj'. intros i Hi. rewrite Z.lxor_spec, Z.land_spec.
      change 1 with (Z.ones 1) at 1. destruct (decide (i = 0)) as [->|].
      - rewrite Z.ones_spec_low, Z.testbit_even_0 by lia. by rewrite andb_true_r, xorb_false_r.
      - rewrite Z.ones_spec_high, andb_false_r, xorb_false_l by lia.
        replace i with (Z.succ (Z.pred i)) at 2 by lia. rewrite Z.testbit_even_succ by lia.
        rewrite Z.shiftr_spec by lia. f_equal. lia. }
    rewrite E at 3. rewrite <- Z.lxor_assoc.
    by rewrite (crc_shift_lxor (Z.lxor c _)), crc_shift_even by lia.
Qed.

Lemma byte_bits_shifts c b : 0 ≤ c →
  foldl crc_bit c (byte_bits b) = crc_round c b.
Proof.
  intros Hc. rewrite crc_round_shifts by done. apply (crc_bits_shifts 8); [done|].
  apply byte_to_Z_range.
Qed.

Lemma byte_to_Z_u32 b : is_u32 (byte_to_Z b).
Proof. pose proof (byte_to_Z_range b). unfold is_u32. lia. Qed.

Lemma crc_round_u32 c b : is_u32 c → is_u32 (crc_round c b).
Proof.
  intros Hc. rewrite crc_round_shifts by apply Hc. 
  apply iter_u32, lxor_u32; [done|apply byte_to_Z_u32].
Qed.

Lemma crc_fold_u32 data c : is_u32 c → is_u32 (foldl crc_round c data).
Proof. revert c. induction data; simpl; auto using crc_round_u32. Qed.

Lemma Crc32Ieee_u32 data : is_u32 (Crc32Ieee data).
Proof. apply lxor_u32; [done|]. by apply crc_fold_u32. Qed.
#[export] Hint Resolve Crc32Ieee_u32 : db.

(** Feeding [w] is feeding its little endian value, as long as it fits the
    register. *)
Lemma crc_fold_word w c : (length w ≤ 4)%nat → is_u32 c →
  foldl crc_round c w = Nat.iter (8 * length w) crc_shift (Z.lxor c (le_value w)).
Proof.
  intros Hw Hc. revert c Hc. induction w as [|b w IH]; intros c Hc.
  - simpl. by rewrite Z.lxor_0_r.
  - simpl foldl. rewrite IH by (simpl in Hw; first [lia|by apply crc_round_u32]).
    rewrite crc_round_shifts by apply Hc.
    replace (8 * length (b :: w))%nat with (8 * length w + 8)%nat by (simpl; lia).
    rewrite Nat.iter_add. f_equal. simpl le_value.
    pose proof (byte_to_Z_range b). pose proof (le_value_range w).
    assert (byte_to_Z b + 256 * le_value w = Z.lxor (byte_to_Z b) (Z.shiftl (le_value w) 8)) as ->.
    { rewrite Z.add_nocarry_lxor with (b := 256 * le_value w).
      - f_equal. rewrite Z.shiftl_mul_pow2 by lia. lia.
      - replace (256 * le_value w) with (Z.shiftl (le_value w) 8)
          by (rewrite Z.shiftl_mul_pow2 by lia; lia).
        apply land_shiftl_low; lia. }
    rewrite <- Z.lxor_assoc, (iter_lxor 8 (Z.lxor c (byte_to_Z b))), (iter8_shiftl (le_value w)) by lia. done.
Qed.

Lemma le_value_inj a b : length a = length b → le_value a = le_value b → a = b.
Proof. intros Hl E. by rewrite <- (le_bytes_value a), <- (le_bytes_value b), Hl, E. Qed.

Lemma crc_fold_inj data c c' : is_u32 c → is_u32 c' →
  foldl crc_round c data = foldl crc_round c' data → c = c'.
Proof.
  revert c c'. induction data as [|b data IH]; simpl; [done|]. intros c c' Hc Hc' E.
  apply IH in E; [|by apply crc_round_u32..]. rewrite !crc_round_shifts in E by (by apply Hc || apply Hc').
  apply iter_inj in E; [|by apply lxor_u32; [|apply byte_to_Z_u32]..].
  apply (f_equal (λ x, Z.lxor x (byte_to_Z b))) in E.
  by rewrite !Z.lxor_assoc, !Z.lxor_nilpotent, !Z.lxor_0_r in E.
Qed.

(** ** Properties *)

(** [Crc32Ieee] computes CRC-32 (IEEE 802.3, reflected): the table driven
    loop equals feeding the message bit by bit, least significant bit first,
    through the shift register with polynomial 0xEDB88320; and on the standard
    check input "123456789" it gives 0xCBF43926. *)
Theorem Crc32Ieee_correct :
  (∀ data, Crc32Ieee data = crc32_spec data) ∧
  Crc32Ieee [x31; x32; x33; x34; x35; x36; x37; x38; x39] = 0xCBF43926.
Proof.
  split; [|vm_compute; reflexivity]. intros data. unfold Crc32Ieee, crc32_spec. f_equal.
  assert (is_u32 UINT32_MAX) as Hc by done. revert Hc. generalize UINT32_MAX.
  induction data as [|b data IH]; intros c Hc; [done|].
  rewrite bind_cons, foldl_app, byte_bits_shifts by apply Hc. simpl.
  apply IH. by apply crc_round_u32.
Qed.

(** The checksum detects every corruption confined to four consecutive
    bytes: replacing up to four adjacent bytes of a message by different ones of
    the same number changes its CRC. *)
Theorem Crc32Ieee_detects_burst (p w w' s : bytes)
    (Hlen : length w = length w') (Hw : (length w ≤ 4)%nat) (Hne : w ≠ w') :
  Crc32Ieee (p ++ w ++ s) ≠ Crc32Ieee (p ++ w' ++ s).
Proof.
  unfold Crc32Ieee. rewrite !foldl_app. set (c := foldl crc_round UINT32_MAX p).
  assert (is_u32 c) as Hc by (by apply crc_fold_u32). intros E.
  assert (∀ x, is_u32 x → Z.lxor UINT32_MAX (Z.lxor UINT32_MAX x) = x) as Hx
    by (intros; by rewrite <- Z.lxor_assoc, Z.lxor_nilpotent, Z.lxor_0_l).
  apply (f_equal (Z.lxor UINT32_MAX)) in E. rewrite !Hx in E by (by repeat apply crc_fold_u32).
  apply crc_fold_inj in E; [|by apply crc_fold_u32..].
  rewrite !crc_fold_word in E by (first [lia|done]). rewrite Hlen in E.
  assert (∀ v : bytes, (length v ≤ 4)%nat → is_u32 (le_value v)) as Hv.
  { intros v Hl. unfold is_u32. pose proof (le_value_range v).
    pose proof (Z.pow_le_mono_r 256 (Z.of_nat (length v)) 4 ltac:(lia) ltac:(lia)). lia. }
  apply iter_inj in E; [|apply lxor_u32; [done|apply Hv; lia]..].
  apply Hne, le_value_inj; [done|].
  apply (f_equal (Z.lxor c)) in E. by rewrite <- !Z.lxor_assoc, Z.lxor_nilpotent, !Z.lxor_0_l in E.
Qed.

Lemma Crc32Ieee_detects_burst_witness :
  Crc32Ieee ([x31] ++ [x32; x33] ++ [x34]) ≠ Crc32Ieee ([x31] ++ [x00; x33] ++ [x34]).
Proof. apply (Crc32Ieee_detects_burst [x31] [x32; x33] [x00; x33] [x34]); [done|simpl; lia|done]. Defined.
