(* ===== verification/GroupCommit.v ===== *)
(** * Group commit (src/src/txn/group_commit.{h,cpp})

    The configuration read from the environment, the call that makes a log
    durable, and the batching worker: its concurrent runs are the step relation
    [gc_step]. *)
From stdpp Require Import base sets list strings.
From Stdlib Require Import ZArith Lia Ascii.
From S2P Require Import Prelude Status.
Local Open Scope Z_scope.

Record GroupCommitConfig := MkGroupCommitConfig {
  enabled : bool;
  window_us : Z;
  batch_size : Z;
}.

(** ** The environment *)

(** [std::getenv]: [None] is the null pointer. *)
Abbreviation getenv := (string → option string).

Definition EnvTruthy (v : option string) (default_on : bool) : bool :=
  match v with
  | None => default_on
  | Some EmptyString => default_on
  | Some (String c EmptyString) => negb (bool_decide (c = "0"%char))
  | Some _ => true
  end.

(** [std::strtoul(v, nullptr, 10)]: leading white space, a sign, digits; no
    digits give 0, a value out of range gives [ULONG_MAX], a minus sign negates
    modulo 2^64. *)
Definition is_space (c : ascii) : bool :=
  let n := N_of_ascii c in ((n =? 32) || ((9 <=? n) && (n <=? 13)))%N.
Definition digit_value (c : ascii) : option Z :=
  let n := Z.of_N (N_of_ascii c) in
  if (48 <=? n) && (n <=? 57) then Some (n - 48) else None.

Fixpoint skip_space (s : string) : string :=
  match s with
  | String c s' => if is_space c then skip_space s' else s
  | EmptyString => EmptyString
  end.
Fixpoint read_digits (acc : Z) (s : string) : Z :=
  match s with
  | String c s' => match digit_value c with Some d => read_digits (10 * acc + d) s' | None => acc end
  | EmptyString => acc
  end.
Definition strtoul (s : string) : Z :=
  let clamp v := if UINT64_MAX <? v then UINT64_MAX else v in
  match skip_space s with
  | String "-" s' => let v := read_digits 0 s' in if UINT64_MAX <? v then UINT64_MAX else u64 (- v)
  | String "+" s' => clamp (read_digits 0 s')
  | s' => clamp (read_digits 0 s')
  end.

Definition EnvU32 (env : getenv) (name : string) (defv : Z) : Z :=
  match env name with
  | None => defv
  | Some EmptyString => defv
  | Some v => u32 (strtoul v)
  end.

Definition LoadGroupCommitConfigFromEnv (env : getenv) : GroupCommitConfig :=
  let enabled := EnvTruthy (env "TRANS_DB_GROUP_COMMIT") true in
  let window_us := EnvU32 env "TRANS_DB_GROUP_COMMIT_WINDOW_US" 0 in
  let batch_size := EnvU32 env "TRANS_DB_GROUP_COMMIT_BATCH" 32 in
  MkGroupCommitConfig enabled window_us (if batch_size =? 0 then 1 else batch_size).

(** ** [QueueSync] with a single caller *)

(** The process-wide registry is configured once, from the environment. *)
Class GroupCommit := { cfg_ : GroupCommitConfig }.

(** The configuration of a process without the environment variables. *)
Definition default_group_commit : GroupCommit := {| cfg_ := LoadGroupCommitConfigFromEnv (λ _, None) |}.

(** One round of the worker on a batch of callbacks: every callback runs, a
    failure is the status of the whole batch. *)
Fixpoint run_syncs {S} (cbs : list (S → S * Status)) (merged : Status) (s : S) : S * Status :=
  match cbs with
  | [] => (s, merged)
  | cb :: cbs => let '(s, st) := cb s in run_syncs cbs (if St.ok st then merged else st) s
  end.

(** [QueueSync] when no other thread uses the registry: with batching off the
    callback runs in the caller, otherwise the worker runs it as a batch of one
    and the caller returns the status of the batch. With the default window of 0 this is
    what happens for any number of callers, since each flushes itself; with a window and
    several callers the wait is the one of the worker below, and ends on any new
    generation ([QueueSync_early_ack]). *)
Definition QueueSync {S} `{GroupCommit} (flush_sync : S → S * Status) (s : S) : S * Status :=
  if negb (enabled cfg_) then flush_sync s
  else if window_us cfg_ =? 0 then flush_sync s
  else run_syncs [flush_sync] St.OK s.

(** A flush callback reports success with [Status::OK()] itself. *)
Lemma QueueSync_flush {S} `{GroupCommit} (flush_sync : S → S * Status) (s : S) :
  (St.ok (flush_sync s).2 = true → (flush_sync s).2 = St.OK) → QueueSync flush_sync s = flush_sync s.
Proof.
  intros Hok. unfold QueueSync. simpl. destruct (flush_sync s) as [s' st]. simpl in *.
  destruct (negb _), (window_us cfg_ =? 0); try done. destruct (St.ok st) eqn:E; [|done]. by rewrite Hok.
Qed.

(** ** The worker and concurrent callers

    Logs are identified by the sync key; [wrote k] and [durable k] are the number
    of records written to log [k] and known to be on disk. A waiter is a caller
    inside [QueueSync]: the key, how much it had written, the generation it waits
    to pass; [w_idle] records that the worker was not in the middle of a batch
    when it queued its request. *)
Inductive WorkerState :=
  | Collecting
  | Flushing (todo : list Z) (merged : Status).

Record Waiter := MkWaiter { w_key : Z; w_pos : Z; w_gen : Z; w_idle : bool }.

Record Registry := MkRegistry {
  pending_syncs_ : list Z;
  synced_generation_ : Z;
  last_status_ : Status;
  worker : WorkerState;
  waiters : list Waiter;
  wrote : Z → Z;
  durable : Z → Z;
}.

Definition Registry_init : Registry :=
  MkRegistry [] 0 St.OK Collecting [] (λ _, 0) (λ _, 0).

Definition is_collecting (w : WorkerState) : bool :=
  match w with Collecting => true | Flushing _ _ => false end.

Definition upd (f : Z → Z) (k v : Z) : Z → Z := λ k', if k =? k' then v else f k'.

(** The first critical section of [QueueSync] in batching mode. *)
Definition QueueSync_enqueue (r : Registry) (k : Z) : Registry :=
  MkRegistry (pending_syncs_ r ++ [k]) (synced_generation_ r) (last_status_ r) (worker r)
    (MkWaiter k (wrote r k) (synced_generation_ r) (is_collecting (worker r)) :: waiters r)
    (wrote r) (durable r).

(** [WorkerLoop] takes the batch; the map of callbacks keeps one per key. *)
Definition WorkerLoop_swap (r : Registry) : Registry :=
  MkRegistry [] (synced_generation_ r) (last_status_ r)
    (Flushing (remove_dups (pending_syncs_ r)) St.OK) (waiters r) (wrote r) (durable r).

(** [WorkerLoop] runs the callback of key [k], with outcome [st]. *)
Definition WorkerLoop_flush (r : Registry) (k : Z) (todo : list Z) (merged st : Status) : Registry :=
  MkRegistry (pending_syncs_ r) (synced_generation_ r) (last_status_ r)
    (Flushing (erase_first k todo) (if St.ok st then merged else st)) (waiters r) (wrote r)
    (if St.ok st then upd (durable r) k (wrote r k) else durable r).

(** [WorkerLoop] publishes the generation. *)
Definition WorkerLoop_publish (r : Registry) (merged : Status) : Registry :=
  MkRegistry (pending_syncs_ r) (synced_generation_ r + 1) merged Collecting (waiters r)
    (wrote r) (durable r).

Inductive gc_step : Registry → Registry → Prop :=
  | gc_write r k :
      gc_step r (MkRegistry (pending_syncs_ r) (synced_generation_ r) (last_status_ r) (worker r)
        (waiters r) (upd (wrote r) k (wrote r k + 1)) (durable r))
  | gc_enqueue r k : gc_step r (QueueSync_enqueue r k)
  | gc_swap r : worker r = Collecting → pending_syncs_ r ≠ [] → gc_step r (WorkerLoop_swap r)
  | gc_flush r k todo merged st :
      worker r = Flushing todo merged → k ∈ todo → (St.ok st = true → st = St.OK) →
      gc_step r (WorkerLoop_flush r k todo merged st)
  | gc_publish r merged :
      worker r = Flushing [] merged → gc_step r (WorkerLoop_publish r merged)
  | gc_return r w ws1 ws2 :
      waiters r = ws1 ++ w :: ws2 → w_gen w < synced_generation_ r →
      gc_step r (MkRegistry (pending_syncs_ r) (synced_generation_ r) (last_status_ r) (worker r)
        (ws1 ++ ws2) (wrote r) (durable r)).

Inductive gc_reach : Registry → Prop :=
  | gc_init : gc_reach Registry_init
  | gc_next r r' : gc_reach r → gc_step r r' → gc_reach r'.

(** ** What a waiter can rely on *)

Definition waiter_ok (r : Registry) (w : Waiter) : Prop :=
  w_gen w ≤ synced_generation_ r ∧ w_pos w ≤ wrote r (w_key w) ∧
  (w_idle w = true →
   (w_gen w = synced_generation_ r →
    match worker r with
    | Collecting => w_key w ∈ pending_syncs_ r
    | Flushing todo merged =>
        w_key w ∈ todo ∨ St.ok merged = false ∨ w_pos w ≤ durable r (w_key w)
    end) ∧
   (synced_generation_ r = w_gen w + 1 → St.ok (last_status_ r) = true →
    w_pos w ≤ durable r (w_key w))).

Definition gc_inv (r : Registry) : Prop :=
  (∀ k, durable r k ≤ wrote r k) ∧ Forall (waiter_ok r) (waiters r).

Lemma upd_eq f k v : upd f k v k = v.
Proof. unfold upd. by rewrite Z.eqb_refl. Qed.
Lemma upd_ne f k v k' : k ≠ k' → upd f k v k' = f k'.
Proof. unfold upd. intros ?. by destruct (Z.eqb_spec k k'). Qed.

Lemma elem_of_erase k k' (l : list Z) : k ∈ l → k = k' ∨ k ∈ erase_first k' l.
Proof.
  induction l as [|x l IH]; [set_solver|]. intros [->|Hin]%elem_of_cons; simpl; case_decide; set_solver.
Qed.

Lemma gc_step_inv r r' : gc_inv r → gc_step r r' → gc_inv r'.
Proof.
  intros [Hd Hw] Hstep. destruct Hstep as [r k|r k|r Hc Hp|r k todo m st Hc Hk Hst|r m Hc|r w ws1 ws2 E Hg].
  - split; simpl.
    + intros k'. unfold upd. specialize (Hd k'). destruct (Z.eqb_spec k k'); subst; lia.
    + eapply Forall_impl; [done|]. intros w (H1 & H2 & H3). split; [done|]. split; [|done].
      simpl. unfold upd. destruct (Z.eqb_spec k (w_key w)); subst; lia.
  - split; [done|]. simpl. constructor.
    + split; simpl; [lia|]. split; [lia|]. intros Hi. split; [|lia]. intros _.
      destruct (worker r); [set_solver|done].
    + eapply Forall_impl; [done|]. intros w (H1 & H2 & H3). split; [done|]. split; [done|].
      intros Hi. destruct (H3 Hi) as [H4 H5]. split; [|done]. simpl. intros Hg.
      specialize (H4 Hg). destruct (worker r); [set_solver|done].
  - split; [done|]. simpl. eapply Forall_impl; [done|]. intros w (H1 & H2 & H3).
    split; [done|]. split; [done|]. intros Hi. destruct (H3 Hi) as [H4 H5]. split; [|done].
    simpl. intros Hg. specialize (H4 Hg). rewrite Hc in H4. left. by apply elem_of_remove_dups.
  - assert (∀ k', durable r k' ≤ (if St.ok st then upd (durable r) k (wrote r k) else durable r) k')
      as Hmono.
    { intros k'. destruct (St.ok st); [|lia]. unfold upd. specialize (Hd k').
      destruct (Z.eqb_spec k k'); subst; lia. }
    split; simpl.
    + intros k'. specialize (Hd k'). destruct (St.ok st); [|done]. unfold upd.
      destruct (Z.eqb_spec k k'); subst; lia.
    + eapply Forall_impl; [done|]. intros w (H1 & H2 & H3). split; [done|]. split; [done|].
      intros Hi. destruct (H3 Hi) as [H4 H5]. simpl. specialize (Hmono (w_key w)). split.
      * intros Hg. specialize (H4 Hg). rewrite Hc in H4. destruct H4 as [H4|[H4|H4]].
        -- destruct (elem_of_erase _ k _ H4) as [<-|?]; [|by left]. right.
           destruct (St.ok st) eqn:E; [right; by rewrite upd_eq|by left].
        -- right; left. by destruct (St.ok st) eqn:E.
        -- right; right. lia.
      * intros Hg Hok. specialize (H5 Hg Hok). lia.
  - split; [done|]. simpl. eapply Forall_impl; [done|]. intros w (H1 & H2 & H3).
    split; simpl; [lia|]. split; [done|]. intros Hi. destruct (H3 Hi) as [H4 _]. split; [lia|].
    intros Hg Hok. rewrite Hc in H4. specialize (H4 ltac:(lia)).
    destruct H4 as [?|[?|?]]; [set_solver|congruence|done].
  - split; [done|]. simpl. rewrite E in Hw. apply Forall_app in Hw as [? [_ ?]%Forall_cons].
    by apply Forall_app.
Qed.

Lemma gc_reach_inv r : gc_reach r → gc_inv r.
Proof.
  induction 1 as [|r r' _ IH Hs]; [|by eapply gc_step_inv]. split; [done|constructor].
Qed.

(** ** Properties *)

(** A batched sync that was queued while the worker was collecting is
    honest about its own generation: in every interleaving of callers and worker,
    if the generation right after the caller's was published with an ok status,
    everything the caller had written is on disk when it returns. *)
Theorem QueueSync_batched_durable (r : Registry) (w : Waiter)
    (Hr : gc_reach r) (Hw : w ∈ waiters r) (Hi : w_idle w = true)
    (Hg : synced_generation_ r = w_gen w + 1) (Hok : St.ok (last_status_ r) = true) :
  w_pos w ≤ durable r (w_key w).
Proof.
  destruct (gc_reach_inv r Hr) as [_ HF]. rewrite Forall_forall in HF.
  destruct (HF w Hw) as (_ & _ & H). by apply H.
Qed.

(** The runs used below: one record is written to log 1 and its sync is queued
    and taken by the worker; [gc_run_ok] completes that round, [gc_run_late] queues the sync of a
    second record after the fsync of the first one and before its publication. *)
Definition wrote_at (r : Registry) (k : Z) : Registry :=
  MkRegistry (pending_syncs_ r) (synced_generation_ r) (last_status_ r) (worker r)
    (waiters r) (upd (wrote r) k (wrote r k + 1)) (durable r).
Definition gc_run_flushed : Registry :=
  WorkerLoop_flush (WorkerLoop_swap (QueueSync_enqueue (wrote_at Registry_init 1) 1))
    1 [1] St.OK St.OK.
Definition gc_run_ok : Registry := WorkerLoop_publish gc_run_flushed St.OK.
Definition gc_run_late : Registry :=
  WorkerLoop_publish (QueueSync_enqueue (wrote_at gc_run_flushed 1) 1) St.OK.

Lemma gc_run_flushed_reach : gc_reach gc_run_flushed.
Proof.
  unfold gc_run_flushed. eapply gc_next; [|apply gc_flush; [reflexivity|left|done]].
  eapply gc_next; [|apply gc_swap; done]. eapply gc_next; [|apply gc_enqueue].
  eapply gc_next; [|apply gc_write]. constructor.
Defined.

Lemma QueueSync_batched_durable_witness : 1 ≤ durable gc_run_ok 1.
Proof.
  apply (QueueSync_batched_durable gc_run_ok (MkWaiter 1 1 0 true)); [|left|done..].
  eapply gc_next; [apply gc_run_flushed_reach|apply gc_publish; reflexivity].
Defined.

(** Batched syncs acknowledge too early: a request queued after the worker
    took its batch waits for the generation that batch publishes, not for its own.
    There is a run in which a caller may return with an ok status although the
    record it had written is not on disk and its request is still pending. *)
Theorem QueueSync_early_ack :
  ∃ r w, gc_reach r ∧ w ∈ waiters r ∧ w_gen w < synced_generation_ r ∧
    last_status_ r = St.OK ∧ w_key w ∈ pending_syncs_ r ∧ durable r (w_key w) < w_pos w.
Proof.
  exists gc_run_late, (MkWaiter 1 2 0 false). split_and!; [|left|done|done|left|done].
  unfold gc_run_late. eapply gc_next; [|apply gc_publish; reflexivity].
  eapply gc_next; [|apply gc_enqueue]. eapply gc_next; [|apply gc_write].
  apply gc_run_flushed_reach.
Qed.

(** The configuration read from the environment is usable whatever the
    variables hold: the batch size is at least one and all numbers are 32 bit;
    with no variable set, group commit is enabled with a window of 0, that is,
    every sync runs in its caller. *)
Theorem LoadGroupCommitConfig_sane (env : getenv) :
  let cfg := LoadGroupCommitConfigFromEnv env in
  1 ≤ batch_size cfg ∧ is_u32 (batch_size cfg) ∧ is_u32 (window_us cfg) ∧
  LoadGroupCommitConfigFromEnv (λ _, None) = MkGroupCommitConfig true 0 32.
Proof.
  assert (∀ n d, is_u32 d → is_u32 (EnvU32 env n d)) as HU.
  { intros n d Hd. unfold EnvU32. destruct (env n) as [[|c v]|]; auto using u32_range. }
  simpl. pose proof (HU "TRANS_DB_GROUP_COMMIT_BATCH"%string 32 ltac:(done)) as Hb.
  pose proof (HU "TRANS_DB_GROUP_COMMIT_WINDOW_US"%string 0 ltac:(done)) as Hw.
  destruct (Z.eqb_spec (EnvU32 env "TRANS_DB_GROUP_COMMIT_BATCH" 32) 0) as [E|E].
  - split_and!; done.
  - unfold is_u32 in *. split_and!; try done; lia.
Qed.
