(* ===== verification/LogFile.v ===== *)
(** * Append-only log files

    The file handling shared by the logs of the system (the [std::ofstream] opened
    with [app], the descriptor used for [fsync], [ReadWholeFileBinary] and
    [DurableFileSync] of src/src/txn/wal.cpp and their twins in
    src/src/coordinator/coordinator_log.cpp) and the record framing of both logs:
    a 32-bit little endian length and a body that ends in a CRC. *)
From stdpp Require Import base list strings.
From Stdlib Require Import ZArith Lia Strings.Byte.
From S2P Require Import Prelude Status Crc32.
Local Open Scope Z_scope.

(** ** Files and their failures *)

(** The outcome of the operating system calls of one file operation. [io_write]
    and [io_flush] are [None] on success and otherwise say how many bytes got
    through; [io_read] is the message of a failed read; [io_rename] says whether a
    file could be renamed. *)
Record Io := MkIo {
  io_write : option nat;
  io_flush : option nat;
  io_fsync : bool;
  io_read : option string;
  io_open : bool;
  io_fd : bool;
  io_rename : bool;
}.
Definition io_ok : Io := MkIo None None true None true true true.

(** [content] is what was written through the stream, [durable_len] the length
    of its prefix known to be on disk, [failed] the stream's error state,
    [stream_open] and [sync_fd] the handles. [io] lists the outcomes of the
    operations to come; past its end everything succeeds. *)
Record LogFile := MkLogFile {
  content : bytes;
  durable_len : nat;
  failed : bool;
  stream_open : bool;
  sync_fd : bool;
  io : list Io;
}.

Definition next_io (f : LogFile) : Io := default io_ok (head (io f)).
Definition pop_io (f : LogFile) : LogFile :=
  MkLogFile (content f) (durable_len f) (failed f) (stream_open f) (sync_fd f) (tail (io f)).

(** [ofs_.write(data)], with the stream state afterwards. *)
Definition stream_write (f : LogFile) (data : bytes) : LogFile :=
  let o := next_io f in
  let f := pop_io f in
  if failed f || negb (stream_open f) then
    MkLogFile (content f) (durable_len f) true (stream_open f) (sync_fd f) (io f)
  else
    match io_write o with
    | None => MkLogFile (content f ++ data) (durable_len f) false (stream_open f) (sync_fd f) (io f)
    | Some k =>
        MkLogFile (content f ++ take k data) (durable_len f) true (stream_open f) (sync_fd f) (io f)
    end.

(** [ofs_.flush()]: bytes that do not reach the file are lost. *)
Definition stream_flush (f : LogFile) (o : Io) : LogFile :=
  match io_flush o with
  | None => f
  | Some k =>
      MkLogFile (take (Nat.max (durable_len f) k) (content f)) (durable_len f) true
        (stream_open f) (sync_fd f) (io f)
  end.

(** [DurableFileSync]; [what] names the log in the messages. *)
Definition DurableFileSync (what : string) (f : LogFile) : LogFile * Status :=
  let o := next_io f in
  let f := stream_flush (pop_io f) o in
  if failed f then (f, St.IOError (what +:+ " flush failed"))
  else if negb (sync_fd f) then (f, St.IOError (what +:+ " sync fd unavailable"))
  else if negb (io_fsync o) then (f, St.IOError (what +:+ " fsync failed"))
  else
    (MkLogFile (content f) (length (content f)) (failed f) (stream_open f) (sync_fd f) (io f), St.OK).

(** [ReadWholeFileBinary]; a file whose size cannot be read counts as empty. *)
Definition ReadWholeFileBinary (f : LogFile) : LogFile * result bytes :=
  let o := next_io f in
  match content f with
  | [] => (pop_io f, inr [])
  | data => match io_read o with
            | None => (pop_io f, inr data)
            | Some msg => (pop_io f, inl (St.IOError msg))
            end
  end.

(** A crash keeps a prefix of the file that contains the durable part, and
    closes the handles. *)
Definition crash (n : nat) (ios : list Io) (f : LogFile) : LogFile :=
  let n := Nat.max (durable_len f) n in
  MkLogFile (take n (content f)) (Nat.min n (length (content f))) false false false ios.

(** ** Framing *)

Definition frame (body : bytes) : bytes := le_bytes 4 (u32 (Z.of_nat (length body))) ++ body.

(** The loop of [ParseRecordsFromBytes] and of [CoordinatorLog::Replay] over the
    rest of the file: it stops at the first record that is too short, cut off or
    rejected by [decode]. The fuel is the number of remaining bytes and one
    more; every round consumes at least four bytes. *)
Fixpoint parse_frames {A} (min_body : Z) (decode : bytes → option A) (fuel : nat) (data : bytes) :
    list A :=
  match fuel with
  | O => []
  | S fuel =>
      if (length data <? 4)%nat then []
      else
        let reclen := read_le 0 0 (take 4 data) in
        let rest := drop 4 data in
        if (reclen <? min_body) || (Z.of_nat (length rest) <? reclen) then []
        else
          let need := Z.to_nat reclen in
          match decode (take need rest) with
          | None => []
          | Some r => r :: parse_frames min_body decode fuel (drop need rest)
          end
  end.

Section frames.
Context {A : Type} (min_body : Z) (decode : bytes → option A).
Implicit Types (data body t : bytes) (bodies : list bytes).

Abbreviation parse := (parse_frames min_body decode).
Definition parse_all (data : bytes) : list A := parse (S (length data)) data.

(** Any fuel above the number of bytes gives the same records. *)
Lemma parse_frames_fuel n m data :
  (length data < n)%nat → (length data < m)%nat → parse n data = parse m data.
Proof.
  revert m data. induction n as [|n IH]; intros [|m] data Hn Hm; try lia. simpl.
  destruct (Nat.ltb_spec (length data) 4); [done|]. destruct (_ || _); [done|].
  destruct (decode _); [|done]. f_equal. apply IH; rewrite !length_drop; lia.
Qed.

Definition body_ok (body : bytes) : Prop :=
  min_body ≤ Z.of_nat (length body) ∧ is_u32 (Z.of_nat (length body)).

Lemma frame_len_read body rest : body_ok body →
  read_le 0 0 (take 4 (frame body ++ rest)) = Z.of_nat (length body).
Proof.
  intros [_ Hb]. unfold frame. rewrite <- app_assoc, take_app_length' by (by rewrite length_le_bytes).
  rewrite read_le_value, le_value_bytes, u32_id by done. apply Z.mod_small. unfold is_u32 in Hb. lia.
Qed.

Lemma length_frame body : length (frame body) = (4 + length body)%nat.
Proof. unfold frame. len. Qed.

Lemma parse_all_cons body rest r : body_ok body → decode body = Some r →
  parse_all (frame body ++ rest) = r :: parse_all rest.
Proof.
  intros Hb Hd. unfold parse_all at 1. cbn [parse_frames].
  destruct (Nat.ltb_spec (length (frame body ++ rest)) 4) as [Hl|_];
    [rewrite length_app, length_frame in Hl; lia|].
  rewrite frame_len_read by done.
  assert (drop 4 (frame body ++ rest) = body ++ rest) as ->.
  { unfold frame. rewrite <- app_assoc. by rewrite drop_app_length' by (by rewrite length_le_bytes). }
  destruct (Z.ltb_spec (Z.of_nat (length body)) min_body) as [Hlt|_]; [destruct Hb; lia|].
  destruct (Z.ltb_spec (Z.of_nat (length (body ++ rest))) (Z.of_nat (length body))) as [Hlt|_];
    [rewrite length_app in Hlt; lia|].
  simpl orb. rewrite Nat2Z.id, take_app_length, drop_app_length, Hd. f_equal.
  apply parse_frames_fuel; rewrite ?length_app, ?length_frame; lia.
Qed.

(** The cut-off part of a record is not read as a record. *)
Lemma parse_all_torn body k : body_ok body → (k < length (frame body))%nat →
  parse_all (take k (frame body)) = [].
Proof.
  intros Hb Hk. rewrite length_frame in Hk. unfold parse_all. cbn [parse_frames].
  destruct (Nat.ltb_spec (length (take k (frame body))) 4) as [|Hl]; [done|].
  rewrite length_take, length_frame in Hl. rewrite take_take, Nat.min_l by lia.
  pose proof (frame_len_read body [] Hb) as Hr. rewrite app_nil_r in Hr. rewrite Hr.
  destruct (Z.ltb_spec (Z.of_nat (length body)) min_body); [done|].
  destruct (Z.ltb_spec (Z.of_nat (length (drop 4 (take k (frame body))))) (Z.of_nat (length body)))
    as [|Hge]; [done|].
  rewrite length_drop, length_take, length_frame in Hge. lia.
Qed.

Definition frames (bodies : list bytes) : bytes := bodies ≫= frame.

Arguments frames : simpl never.

Lemma frames_app b1 b2 : frames (b1 ++ b2) = frames b1 ++ frames b2.
Proof. apply bind_app. Qed.
Lemma frames_cons b bs : frames (b :: bs) = frame b ++ frames bs.
Proof. done. Qed.

Lemma parse_all_frames bodies rs t :
  Forall2 (λ b r, body_ok b ∧ decode b = Some r) bodies rs →
  parse_all (frames bodies ++ t) = rs ++ parse_all t.
Proof.
  induction 1 as [|b r bodies rs [Hb Hd] _ IH]; [done|].
  rewrite frames_cons, <- app_assoc, (parse_all_cons b _ r) by done. by rewrite IH.
Qed.

Lemma parse_all_nil : parse_all [] = [].
Proof. done. Qed.

(** Cutting a file of well-formed records: the parser returns the records that
    are complete. *)
Lemma parse_all_prefix bodies rs n :
  Forall2 (λ b r, body_ok b ∧ decode b = Some r) bodies rs →
  ∃ m, parse_all (take n (frames bodies)) = take m rs ∧ (m ≤ length rs)%nat ∧
    (length (frames (take m bodies)) ≤ n)%nat ∧
    (m = length rs ∨ (n < length (frames (take (S m) bodies)))%nat).
Proof.
  intros HF. revert n. induction HF as [|b r bodies rs [Hb Hd] HF IH]; intros n.
  - exists 0%nat. replace (frames []) with (@nil byte) by done. rewrite take_nil.
    split_and!; [done|simpl; lia|simpl; lia|by left].
  - rewrite frames_cons. destruct (decide (n < length (frame b))%nat) as [Hn|Hn].
    + exists 0%nat. rewrite take_app_le by lia. rewrite parse_all_torn by done.
      split_and!; [done|simpl; lia|simpl; lia|right]. rewrite firstn_cons, frames_cons, length_app. lia.
    + rewrite take_app_ge by lia. rewrite (parse_all_cons b _ r) by done.
      destruct (IH (n - length (frame b))%nat) as (m & Hm & Hle & Hl & Hs). exists (S m).
      rewrite Hm. split_and!; [done|simpl; lia| |].
      * rewrite firstn_cons, frames_cons, length_app. lia.
      * destruct Hs as [->|Hs]; [by left|right].
        rewrite firstn_cons, frames_cons, length_app. lia.
Qed.
End frames.
#[export] Hint Rewrite length_frame : db_len.

#[global] Arguments frame : simpl never.
#[global] Arguments frames : simpl never.

(** ** A file of framed records *)

(** [bs] are the bodies the appends tried to write, [acked] how many of them a
    successful sync has covered. *)
Record file_inv (f : LogFile) (bs : list bytes) (acked : nat) : Prop := {
  fi_prefix : content f `prefix_of` frames bs;
  fi_whole : failed f = false → content f = frames bs;
  fi_durable : (durable_len f ≤ length (content f))%nat;
  fi_acked : (length (frames (take acked bs)) ≤ durable_len f)%nat;
  fi_acked_le : (acked ≤ length bs)%nat;
}.

Lemma frames_snoc bs b : frames (bs ++ [b]) = frames bs ++ frame b.
Proof. rewrite frames_app, frames_cons. f_equal. apply app_nil_r. Qed.

Lemma frames_take_mono bs i j : (i ≤ j)%nat →
  (length (frames (take i bs)) ≤ length (frames (take j bs)))%nat.
Proof.
  intros Hij. rewrite <- (take_drop i (take j bs)), take_take, Nat.min_l by done.
  rewrite frames_app, length_app. lia.
Qed.

Lemma stream_write_inv f bs acked b :
  file_inv f bs acked → file_inv (stream_write f (frame b)) (bs ++ [b]) acked.
Proof.
  intros [Hp Hw Hd Ha Hl]. unfold stream_write.
  destruct (failed (pop_io f) || negb (stream_open (pop_io f))) eqn:Ef; cbn in Ef |- *.
  - split; cbn; try done.
    + rewrite frames_snoc. by apply prefix_app_r.
    + by rewrite take_app_le by done.
    + rewrite length_app. simpl. lia.
  - apply orb_false_iff in Ef as [Ef _].
    assert (∀ k, content f ++ take k (frame b) `prefix_of` frames (bs ++ [b])) as Hpre.
    { intros k. rewrite frames_snoc, (Hw Ef). apply prefix_app, prefix_take. }
    destruct (io_write (next_io f)) as [k|]; split; cbn; try done;
      rewrite ?length_app, ?take_app_le by done; simpl; try done; try lia.
    + rewrite <- (firstn_all (frame b)). apply Hpre.
    + intros _. by rewrite frames_snoc, (Hw Ef).
Qed.

Lemma stream_flush_inv f bs acked o : file_inv f bs acked → file_inv (stream_flush f o) bs acked.
Proof.
  intros [Hp Hw Hd Ha Hl]. unfold stream_flush. destruct (io_flush o) as [k|]; split; cbn; try done.
  - etransitivity; [apply prefix_take|done].
  - rewrite length_take. lia.
Qed.

Lemma DurableFileSync_inv what f bs acked : file_inv f bs acked →
  file_inv (DurableFileSync what f).1 bs (if St.ok (DurableFileSync what f).2 then length bs else acked).
Proof.
  intros Hi. assert (file_inv (stream_flush (pop_io f) (next_io f)) bs acked) as Hfl.
  { apply stream_flush_inv. destruct Hi. by split. }
  unfold DurableFileSync. destruct (failed (stream_flush (pop_io f) (next_io f))) eqn:Ef; [done|].
  destruct (negb (sync_fd _)); [done|]. destruct (negb (io_fsync _)); [done|].
  destruct Hfl as [Hp Hw Hd _ _]. cbn [fst snd]. rewrite St_ok_OK.
  split; cbn; try done; [auto|]. by rewrite firstn_all, (Hw Ef).
Qed.

Lemma DurableFileSync_not_ok what f : St.ok (DurableFileSync what f).2 = true →
  (DurableFileSync what f).2 = St.OK.
Proof. unfold DurableFileSync. by repeat case_match. Qed.

(** What the parser finds in a prefix of the file. *)
Lemma parse_prefix {A} min_body (decode : bytes → option A) bs rs data :
  Forall2 (λ b r, body_ok min_body b ∧ decode b = Some r) bs rs → data `prefix_of` frames bs →
  ∃ m, parse_all min_body decode data = take m rs ∧ (m ≤ length rs)%nat ∧
    ∀ a, (a ≤ length bs)%nat → (length (frames (take a bs)) ≤ length data)%nat → (a ≤ m)%nat.
Proof.
  intros HF [t Ht]. assert (data = take (length data) (frames bs)) as Ed by (by rewrite Ht, take_app_length).
  destruct (parse_all_prefix min_body decode bs rs (length data)) as (m & Hm & Hle & _ & Hs); [done|].
  rewrite <- Ed in Hm. exists m. split_and!; [done..|]. pose proof (Forall2_length _ _ _ HF).
  intros a Ha Hl. destruct Hs as [->|Hs]; [lia|]. destruct (decide (a ≤ m)%nat); [done|].
  pose proof (frames_take_mono bs (S m) a ltac:(lia)). lia.
Qed.

(** After a crash the file holds an initial segment of the records with
    everything that was synced. *)
Lemma crash_parse {A} min_body (decode : bytes → option A) f bs rs acked n ios :
  Forall2 (λ b r, body_ok min_body b ∧ decode b = Some r) bs rs → file_inv f bs acked →
  ∃ m, (acked ≤ m ≤ length rs)%nat ∧ parse_all min_body decode (content (crash n ios f)) = take m rs.
Proof.
  intros HF [Hp Hw Hd Ha Hl].
  destruct (parse_prefix min_body decode bs rs (content (crash n ios f)) HF) as (m & Hm & Hle & Hack).
  { etransitivity; [apply prefix_take|done]. }
  exists m. split; [|done]. split; [|done]. apply Hack; [done|]. simpl. rewrite length_take. lia.
Qed.

Lemma ReadWholeFileBinary_ok f : io f = [] → ReadWholeFileBinary f = (pop_io f, inr (content f)).
Proof. intros Hio. unfold ReadWholeFileBinary, next_io. rewrite Hio. by destruct (content f). Qed.
