(* ===== verification/Wal.v ===== *)
(** * Write-ahead log (src/src/txn/wal.{h,cpp})

    Records, their payloads, the log file operations, and what a log guarantees
    across a crash. *)
From Stdlib Require Import Strings.Byte.
From stdpp Require Import base list strings.
From Stdlib Require Import ZArith Lia.
From S2P Require Import Prelude Status Crc32 GroupCommit LogFile.
Local Open Scope Z_scope.

(** [UnnamedType] stands for the values of the underlying [uint8_t] that the
    enumeration does not name; the parser can produce them. *)
Inductive WALRecordType :=
  | BEGIN | WRITE | DELETE | PREPARE | COMMIT | ABORT | UnnamedType (v : Z).

#[export] Instance WALRecordType_eq_dec : EqDecision WALRecordType.
Proof. solve_decision. Defined.

Definition WALRecordType_to_Z (t : WALRecordType) : Z :=
  match t with
  | BEGIN => 1 | WRITE => 2 | DELETE => 3 | PREPARE => 4 | COMMIT => 5 | ABORT => 6
  | UnnamedType v => v
  end.

Definition WALRecordType_of_Z (v : Z) : WALRecordType :=
  if v =? 1 then BEGIN else if v =? 2 then WRITE else if v =? 3 then DELETE
  else if v =? 4 then PREPARE else if v =? 5 then COMMIT else if v =? 6 then ABORT
  else UnnamedType v.

Record WALRecord := MkWALRecord {
  lsn : Z;
  txn_id : Z;
  type : WALRecordType;
  payload : bytes;
}.

#[export] Instance WALRecord_eq_dec : EqDecision WALRecord.
Proof. solve_decision. Defined.

(** ** Fixed width integers *)

Definition AppendFixedU8 (dst : bytes) (v : Z) : bytes := dst ++ [byte_of_Z v].
Definition AppendFixedLe32 (dst : bytes) (v : Z) : bytes := dst ++ le_bytes 4 v.
Definition AppendFixedLe64 (dst : bytes) (v : Z) : bytes := dst ++ le_bytes 8 v.

(** The consumed value and the rest of the view; [None] where the code returns
    [false]. *)
Definition ConsumeLe32 (data : bytes) : option (Z * bytes) :=
  if (length data <? 4)%nat then None else Some (read_le 0 0 (take 4 data), drop 4 data).
Definition ConsumeLe64 (data : bytes) : option (Z * bytes) :=
  if (length data <? 8)%nat then None else Some (read_le 0 0 (take 8 data), drop 8 data).

(** ** Records *)

(** [body] of [WriteRecord] before the checksum is appended. *)
Definition record_body (lsn txn_id : Z) (type : WALRecordType) (payload : bytes) : bytes :=
  let body := AppendFixedLe64 [] lsn in
  let body := AppendFixedLe64 body txn_id in
  let body := AppendFixedU8 body (WALRecordType_to_Z type) in
  let body := AppendFixedLe32 body (u32 (Z.of_nat (length payload))) in
  body ++ payload.

(** The bytes [WriteRecord] writes: length, body, checksum. *)
Definition SerializeRecord (lsn txn_id : Z) (type : WALRecordType) (payload : bytes) : bytes :=
  let body := record_body lsn txn_id type payload in
  let crc := Crc32Ieee body in
  frame (AppendFixedLe32 body crc).

(** The body of the loop of [ParseRecordsFromBytes]: the record, or [None] where
    the loop breaks off. *)
Definition kMinBody : Z := 8 + 8 + 1 + 4 + 4.
Definition ParseRecord (body : bytes) : option WALRecord :=
  let lsn := read_le 0 0 (take 8 body) in
  let txn_id := read_le 0 0 (take 8 (drop 8 body)) in
  let type_byte := byte_to_Z (nth 16 body x00) in
  let payload_len := read_le 0 0 (take 4 (drop 17 body)) in
  if Z.of_nat (length body) <? kMinBody then None
  else if negb (payload_len =? Z.of_nat (length body) - kMinBody) then None
  else
    let payload := take (Z.to_nat payload_len) (drop 21 body) in
    let stored_crc := read_le 0 0 (take 4 (drop (length body - 4) body)) in
    if negb (Crc32Ieee (take (length body - 4) body) =? stored_crc) then None
    else Some (MkWALRecord lsn txn_id (WALRecordType_of_Z type_byte) payload).

(** [ParseRecordsFromBytes]: the visited records and [*max_lsn]. *)
Definition ParseRecordsFromBytes (data : bytes) : list WALRecord * Z :=
  let recs := parse_all kMinBody ParseRecord data in
  (recs, foldl (λ m r, Z.max m (lsn r)) 0 recs).

(** ** The log *)

Record WAL := MkWAL {
  file : LogFile;
  next_lsn_ : Z;
}.

Definition WAL_Open (f : LogFile) : LogFile * result WAL :=
  match ReadWholeFileBinary f with
  | (f, inl st) => (f, inl st)
  | (f, inr data) =>
      let max_lsn := (ParseRecordsFromBytes data).2 in
      let o := next_io f in
      let f := pop_io f in
      if negb (io_open o) then (f, inl (St.IOError "WAL open for append failed"))
      else
        let f := MkLogFile (content f) (durable_len f) false true (io_fd o) (io f) in
        (f, inr (MkWAL f (u64 (max_lsn + 1))))
  end.

Definition WriteRecord (w : WAL) (lsn txn_id : Z) (type : WALRecordType) (payload : bytes) :
    WAL * Status :=
  let f := stream_write (file w) (SerializeRecord lsn txn_id type payload) in
  (MkWAL f (next_lsn_ w), if failed f then St.IOError "WAL write failed" else St.OK).

Definition WAL_Append (w : WAL) (txn_id : Z) (type : WALRecordType) (payload : bytes) : WAL * Status :=
  let lsn := next_lsn_ w in
  WriteRecord (MkWAL (file w) (u64 (next_lsn_ w + 1))) lsn txn_id type payload.

Definition WAL_Sync (w : WAL) : WAL * Status :=
  let '(f, st) := DurableFileSync "WAL" (file w) in (MkWAL f (next_lsn_ w), st).

Definition WAL_AppendSync `{GroupCommit} (w : WAL) (txn_id : Z) (type : WALRecordType)
    (payload : bytes) : WAL * Status :=
  let '(w, s) := WAL_Append w txn_id type payload in
  if negb (St.ok s) then (w, s) else QueueSync WAL_Sync w.

(** [Replay]: the log, the status and the records given to the visitor. *)
Definition WAL_Replay (w : WAL) : WAL * Status * list WALRecord :=
  let f := if stream_open (file w) then stream_flush (file w) (next_io (file w)) else file w in
  match ReadWholeFileBinary f with
  | (f, inl st) => (MkWAL f (next_lsn_ w), st, [])
  | (f, inr data) =>
      let '(recs, max_lsn) := ParseRecordsFromBytes data in
      (MkWAL f (u64 (max_lsn + 1)), St.OK, recs)
  end.

(** [Truncate]; [resize_error] is the message of a failing [resize_file]. *)
Definition WAL_Truncate (resize_error : option string) (w : WAL) : WAL * Status :=
  let f := file w in
  let closed := MkLogFile (content f) (durable_len f) (failed f) false (sync_fd f) (io f) in
  match resize_error with
  | Some msg => (MkWAL closed (next_lsn_ w), St.IOError msg)
  | None =>
      let o := next_io f in
      if negb (io_open o) then
        (MkWAL (MkLogFile [] 0 true false (sync_fd f) (tail (io f))) 1,
         St.IOError "WAL reopen after truncate failed")
      else
        (MkWAL (MkLogFile [] 0 false true (io_fd o) (tail (io f))) 1, St.OK)
  end.

(** ** Payloads *)

Definition SerializeBeginPayload (snapshot_ts : Z) : bytes := AppendFixedLe64 [] snapshot_ts.
Definition SerializeWritePayload (table_id : Z) (key value : bytes) (write_ts : Z) : bytes :=
  let s := AppendFixedLe32 [] table_id in
  let s := AppendFixedLe32 s (u32 (Z.of_nat (length key))) in
  let s := s ++ key in
  let s := AppendFixedLe32 s (u32 (Z.of_nat (length value))) in
  let s := s ++ value in
  AppendFixedLe64 s write_ts.
Definition SerializeDeletePayload (table_id : Z) (key : bytes) (write_ts : Z) : bytes :=
  let s := AppendFixedLe32 [] table_id in
  let s := AppendFixedLe32 s (u32 (Z.of_nat (length key))) in
  let s := s ++ key in
  AppendFixedLe64 s write_ts.
Definition SerializePreparePayload (commit_ts : Z) : bytes := AppendFixedLe64 [] commit_ts.
Definition SerializeCommitPayload (commit_ts : Z) : bytes := AppendFixedLe64 [] commit_ts.

Record WriteInfo := MkWriteInfo {
  wi_table_id : Z; wi_key : bytes; wi_value : bytes; wi_write_ts : Z
}.
Record DeleteInfo := MkDeleteInfo { di_table_id : Z; di_key : bytes; di_write_ts : Z }.

Definition DeserializeBeginPayload (payload : bytes) : option Z :=
  if negb (length payload =? 8)%nat then None
  else '(ts, pv) ← ConsumeLe64 payload; if bool_decide (pv = []) then Some ts else None.

Definition DeserializeWritePayload (payload : bytes) : option WriteInfo :=
  '(tid, pv) ← ConsumeLe32 payload;
  '(klen, pv) ← ConsumeLe32 pv;
  if Z.of_nat (length pv) <? klen then None
  else
    let key := take (Z.to_nat klen) pv in
    let pv := drop (Z.to_nat klen) pv in
    '(vlen, pv) ← ConsumeLe32 pv;
    if Z.of_nat (length pv) <? vlen + 8 then None
    else
      let value := take (Z.to_nat vlen) pv in
      let pv := drop (Z.to_nat vlen) pv in
      '(wts, pv) ← ConsumeLe64 pv;
      if bool_decide (pv = []) then Some (MkWriteInfo tid key value wts) else None.

Definition DeserializeDeletePayload (payload : bytes) : option DeleteInfo :=
  '(tid, pv) ← ConsumeLe32 payload;
  '(klen, pv) ← ConsumeLe32 pv;
  if Z.of_nat (length pv) <? klen + 8 then None
  else
    let key := take (Z.to_nat klen) pv in
    let pv := drop (Z.to_nat klen) pv in
    '(wts, pv) ← ConsumeLe64 pv;
    if bool_decide (pv = []) then Some (MkDeleteInfo tid key wts) else None.

Definition DeserializePreparePayload (payload : bytes) : option Z :=
  '(ts, pv) ← ConsumeLe64 payload; if bool_decide (pv = []) then Some ts else None.
Definition DeserializeCommitPayload (payload : bytes) : option Z :=
  '(ts, pv) ← ConsumeLe64 payload; if bool_decide (pv = []) then Some ts else None.

(** ** Lemmas: integers and payloads *)

(** One step of an option computation. *)
Ltac step_bind := cbn [mbind option_bind].

Lemma ConsumeLe32_app v rest : is_u32 v → ConsumeLe32 (le_bytes 4 v ++ rest) = Some (v, rest).
Proof.
  intros Hv. unfold ConsumeLe32. destruct (Nat.ltb_spec (length (le_bytes 4 v ++ rest)) 4) as [Hl|_];
    [autorewrite with db_len in Hl; lia|].
  rewrite take_app_length', drop_app_length' by (by rewrite length_le_bytes).
  rewrite read_le_value, le_value_bytes. do 2 f_equal. by apply Z.mod_small.
Qed.

Lemma ConsumeLe64_app v rest : is_u64 v → ConsumeLe64 (le_bytes 8 v ++ rest) = Some (v, rest).
Proof.
  intros Hv. unfold ConsumeLe64. destruct (Nat.ltb_spec (length (le_bytes 8 v ++ rest)) 8) as [Hl|_];
    [autorewrite with db_len in Hl; lia|].
  rewrite take_app_length', drop_app_length' by (by rewrite length_le_bytes).
  rewrite read_le_value, le_value_bytes. do 2 f_equal. by apply Z.mod_small.
Qed.

Lemma ConsumeLe64_end v : is_u64 v → ConsumeLe64 (le_bytes 8 v) = Some (v, []).
Proof. intros Hv. rewrite <- (app_nil_r (le_bytes 8 v)). by apply ConsumeLe64_app. Qed.

Lemma le_value_take n bs : (n ≤ length bs)%nat → le_bytes n (le_value (take n bs)) = take n bs.
Proof. intros Hl. rewrite <- (le_bytes_value (take n bs)) at 2. by rewrite length_take_le. Qed.

Lemma ConsumeLe32_Some data v rest : ConsumeLe32 data = Some (v, rest) →
  is_u32 v ∧ data = le_bytes 4 v ++ rest.
Proof.
  unfold ConsumeLe32. destruct (Nat.ltb_spec (length data) 4); [done|]. intros [= <- <-].
  rewrite read_le_value. split.
  - pose proof (le_value_range (take 4 data)) as Hr. rewrite length_take_le in Hr by lia. apply Hr.
  - rewrite le_value_take by lia. by rewrite take_drop.
Qed.

Lemma ConsumeLe64_Some data v rest : ConsumeLe64 data = Some (v, rest) →
  is_u64 v ∧ data = le_bytes 8 v ++ rest.
Proof.
  unfold ConsumeLe64. destruct (Nat.ltb_spec (length data) 8); [done|]. intros [= <- <-].
  rewrite read_le_value. split.
  - pose proof (le_value_range (take 8 data)) as Hr. rewrite length_take_le in Hr by lia. apply Hr.
  - rewrite le_value_take by lia. by rewrite take_drop.
Qed.

(** A byte string whose length fits the 32-bit length field. *)
Definition fits32 (s : bytes) : Prop := is_u32 (Z.of_nat (length s)).

Lemma Commit_roundtrip ts : is_u64 ts → DeserializeCommitPayload (SerializeCommitPayload ts) = Some ts.
Proof.
  intros Ht. unfold DeserializeCommitPayload, SerializeCommitPayload, AppendFixedLe64.
  by rewrite app_nil_l, ConsumeLe64_end.
Qed.
Lemma Prepare_roundtrip ts : is_u64 ts → DeserializePreparePayload (SerializePreparePayload ts) = Some ts.
Proof. exact (Commit_roundtrip ts). Qed.
Lemma Begin_roundtrip ts : is_u64 ts → DeserializeBeginPayload (SerializeBeginPayload ts) = Some ts.
Proof.
  intros Ht. unfold DeserializeBeginPayload, SerializeBeginPayload, AppendFixedLe64.
  rewrite app_nil_l, length_le_bytes, Nat.eqb_refl. cbn [negb]. by rewrite ConsumeLe64_end.
Qed.

Lemma Write_roundtrip tid k v ts : is_u32 tid → fits32 k → fits32 v → is_u64 ts →
  DeserializeWritePayload (SerializeWritePayload tid k v ts) = Some (MkWriteInfo tid k v ts).
Proof.
  unfold fits32. intros Ht Hk Hv Hs.
  unfold SerializeWritePayload, AppendFixedLe32, AppendFixedLe64. rewrite !u32_id by done.
  rewrite <- !app_assoc, app_nil_l. unfold DeserializeWritePayload.
  rewrite ConsumeLe32_app by done. step_bind. rewrite ConsumeLe32_app by done. step_bind.
  destruct (Z.ltb_spec (Z.of_nat (length (k ++ le_bytes 4 (Z.of_nat (length v)) ++ v ++ le_bytes 8 ts)))
    (Z.of_nat (length k))) as [Hl|_]; [rewrite length_app in Hl; lia|].
  rewrite Nat2Z.id, take_app_length, drop_app_length, ConsumeLe32_app by done. step_bind.
  destruct (Z.ltb_spec (Z.of_nat (length (v ++ le_bytes 8 ts))) (Z.of_nat (length v) + 8)) as [Hl|_];
    [autorewrite with db_len in Hl; lia|].
  rewrite Nat2Z.id, take_app_length, drop_app_length, ConsumeLe64_end by done. step_bind. done.
Qed.

Lemma Delete_roundtrip tid k ts : is_u32 tid → fits32 k → is_u64 ts →
  DeserializeDeletePayload (SerializeDeletePayload tid k ts) = Some (MkDeleteInfo tid k ts).
Proof.
  unfold fits32. intros Ht Hk Hs.
  unfold SerializeDeletePayload, AppendFixedLe32, AppendFixedLe64. rewrite !u32_id by done.
  rewrite <- !app_assoc, app_nil_l. unfold DeserializeDeletePayload.
  rewrite ConsumeLe32_app by done. step_bind. rewrite ConsumeLe32_app by done. step_bind.
  destruct (Z.ltb_spec (Z.of_nat (length (k ++ le_bytes 8 ts))) (Z.of_nat (length k) + 8)) as [Hl|_];
    [autorewrite with db_len in Hl; lia|].
  rewrite Nat2Z.id, take_app_length, drop_app_length, ConsumeLe64_end by done. step_bind. done.
Qed.

Lemma take_drop_len (z : Z) (s : bytes) : 0 ≤ z → z ≤ Z.of_nat (length s) →
  ∃ a b, s = a ++ b ∧ take (Z.to_nat z) s = a ∧ drop (Z.to_nat z) s = b ∧ Z.of_nat (length a) = z.
Proof.
  intros H0 Hz. exists (take (Z.to_nat z) s), (drop (Z.to_nat z) s). rewrite take_drop, length_take.
  split_and!; try done. lia.
Qed.

(** Only serialized payloads are accepted. *)
Lemma Write_accepts p wi : DeserializeWritePayload p = Some wi →
  p = SerializeWritePayload (wi_table_id wi) (wi_key wi) (wi_value wi) (wi_write_ts wi).
Proof.
  unfold DeserializeWritePayload. intros E.
  apply bind_Some in E as ([tid p1] & E1 & E). apply bind_Some in E as ([klen p2] & E2 & E).
  apply ConsumeLe32_Some in E1 as [Ht ->]. apply ConsumeLe32_Some in E2 as [Hk ->].
  destruct (Z.ltb_spec (Z.of_nat (length p2)) klen); [done|].
  destruct (take_drop_len klen p2) as (k & p3 & Ep & Et & Ed & Ek); [apply Hk|lia|].
  rewrite Et, Ed in E. subst p2. clear Et Ed.
  apply bind_Some in E as ([vlen p4] & E3 & E). apply ConsumeLe32_Some in E3 as [Hv ->].
  destruct (Z.ltb_spec (Z.of_nat (length p4)) (vlen + 8)); [done|].
  destruct (take_drop_len vlen p4) as (v & p5 & Ep & Et & Ed & Ev); [apply Hv|lia|].
  rewrite Et, Ed in E. subst p4. clear Et Ed.
  apply bind_Some in E as ([ts p6] & E4 & E). apply ConsumeLe64_Some in E4 as [Hs ->].
  case_bool_decide; simplify_eq/=. unfold SerializeWritePayload, AppendFixedLe32, AppendFixedLe64.
  rewrite !u32_id by done. by rewrite <- !app_assoc.
Qed.

Lemma Delete_accepts p di : DeserializeDeletePayload p = Some di →
  p = SerializeDeletePayload (di_table_id di) (di_key di) (di_write_ts di).
Proof.
  unfold DeserializeDeletePayload. intros E.
  apply bind_Some in E as ([tid p1] & E1 & E). apply bind_Some in E as ([klen p2] & E2 & E).
  apply ConsumeLe32_Some in E1 as [Ht ->]. apply ConsumeLe32_Some in E2 as [Hk ->].
  destruct (Z.ltb_spec (Z.of_nat (length p2)) (klen + 8)); [done|].
  destruct (take_drop_len klen p2) as (k & p3 & Ep & Et & Ed & Ek); [apply Hk|lia|].
  rewrite Et, Ed in E. subst p2. clear Et Ed.
  apply bind_Some in E as ([ts p6] & E4 & E). apply ConsumeLe64_Some in E4 as [Hs ->].
  case_bool_decide; simplify_eq/=. unfold SerializeDeletePayload, AppendFixedLe32, AppendFixedLe64.
  rewrite !u32_id by done. by rewrite <- !app_assoc.
Qed.

(** ** Lemmas: records *)

Definition record_ok (r : WALRecord) : Prop :=
  is_u64 (lsn r) ∧ is_u64 (txn_id r) ∧
  type r = WALRecordType_of_Z (WALRecordType_to_Z (type r)) ∧
  0 ≤ WALRecordType_to_Z (type r) < 256 ∧ is_u32 (Z.of_nat (length (payload r)) + kMinBody).

#[export] Instance record_ok_dec r : Decision (record_ok r).
Proof. unfold record_ok. apply _. Defined.

Definition full_body (r : WALRecord) : bytes :=
  let b := record_body (lsn r) (txn_id r) (type r) (payload r) in AppendFixedLe32 b (Crc32Ieee b).

Lemma SerializeRecord_frame r :
  SerializeRecord (lsn r) (txn_id r) (type r) (payload r) = frame (full_body r).
Proof. done. Qed.

Lemma record_body_alt l t ty p :
  record_body l t ty p =
  le_bytes 8 l ++ le_bytes 8 t ++ [byte_of_Z (WALRecordType_to_Z ty)] ++
  le_bytes 4 (u32 (Z.of_nat (length p))) ++ p.
Proof.
  unfold record_body, AppendFixedLe64, AppendFixedU8, AppendFixedLe32. by rewrite <- !app_assoc.
Qed.

Lemma length_full_body r : Z.of_nat (length (full_body r)) = Z.of_nat (length (payload r)) + kMinBody.
Proof.
  unfold full_body, AppendFixedLe32, kMinBody. rewrite record_body_alt. autorewrite with db_len.
  simpl length. lia.
Qed.

Lemma ParseRecord_full_body r : record_ok r → ParseRecord (full_body r) = Some r.
Proof.
  intros (Hl & Ht & Hty & Htz & Hp). unfold ParseRecord.
  assert (is_u32 (Z.of_nat (length (payload r)))) as Hpl by (unfold is_u32, kMinBody in *; lia).
  pose proof (length_full_body r) as Hlen.
  set (b := record_body (lsn r) (txn_id r) (type r) (payload r)).
  assert (full_body r = b ++ le_bytes 4 (Crc32Ieee b)) as Hfb by done.
  assert (b = le_bytes 8 (lsn r) ++ le_bytes 8 (txn_id r) ++
    [byte_of_Z (WALRecordType_to_Z (type r))] ++ le_bytes 4 (Z.of_nat (length (payload r))) ++
    payload r) as Hb by (unfold b; by rewrite record_body_alt, u32_id by done).
  clearbody b.
  assert (length (full_body r) - 4 = length b)%nat as Hb4 by (rewrite Hfb; autorewrite with db_len; lia).
  rewrite Hb4. rewrite (Hlen).
  assert (take (length b) (full_body r) = b) as -> by (rewrite Hfb; apply take_app_length).
  assert (drop (length b) (full_body r) = le_bytes 4 (Crc32Ieee b)) as -> by
    (rewrite Hfb; apply drop_app_length).
  assert (full_body r = le_bytes 8 (lsn r) ++ le_bytes 8 (txn_id r) ++
    [byte_of_Z (WALRecordType_to_Z (type r))] ++ le_bytes 4 (Z.of_nat (length (payload r))) ++
    payload r ++ le_bytes 4 (Crc32Ieee b)) as E.
  { rewrite Hfb. rewrite Hb at 1. rewrite <- !app_assoc. reflexivity. }
  assert (drop 16 (full_body r) = [byte_of_Z (WALRecordType_to_Z (type r))] ++
    le_bytes 4 (Z.of_nat (length (payload r))) ++ payload r ++ le_bytes 4 (Crc32Ieee b)) as E16.
  { change 16%nat with (8 + 8)%nat. by rewrite <- drop_drop, E, !drop_le. }
  assert (nth 16 (full_body r) x00 = byte_of_Z (WALRecordType_to_Z (type r))) as ->.
  { rewrite <- (Nat.add_0_r 16), <- nth_skipn, E16. done. }
  assert (drop 17 (full_body r) = le_bytes 4 (Z.of_nat (length (payload r))) ++ payload r ++
    le_bytes 4 (Crc32Ieee b)) as E17.
  { change 17%nat with (16 + 1)%nat. by rewrite <- drop_drop, E16. }
  assert (drop 21 (full_body r) = payload r ++ le_bytes 4 (Crc32Ieee b)) as ->.
  { change 21%nat with (17 + 4)%nat. by rewrite <- drop_drop, E17, drop_le. }
  rewrite E17, take_le. rewrite E, take_le, drop_le, take_le.
  rewrite (firstn_all2 (le_bytes 4 _)) by (by rewrite length_le_bytes).
  rewrite !read_le_value, !le_value_bytes.
  change (256 ^ Z.of_nat 8) with 18446744073709551616. change (256 ^ Z.of_nat 4) with 4294967296.
  rewrite (Z.mod_small (Z.of_nat (length (payload r)))) by (unfold is_u32 in Hpl; lia).
  rewrite (Z.mod_small (Crc32Ieee b)) by apply Crc32Ieee_u32.
  rewrite (Z.mod_small (lsn r)) by apply Hl. rewrite (Z.mod_small (txn_id r)) by apply Ht.
  destruct (Z.ltb_spec (Z.of_nat (length (payload r)) + kMinBody) kMinBody); [lia|].
  rewrite (proj2 (Z.eqb_eq (Z.of_nat (length (payload r))) _)) by lia. simpl.
  rewrite Z.eqb_refl. simpl. rewrite Nat2Z.id, take_app_length.
  rewrite byte_to_of_Z, Z.mod_small by lia. rewrite <- Hty. by destruct r.
Qed.

(** ** The log across a crash *)

Definition empty_file (ios : list Io) : LogFile := MkLogFile [] 0 false true true ios.
Definition new_wal (ios : list Io) : WAL := MkWAL (empty_file ios) 1.

Inductive WalOp :=
  | OpAppend (t : Z) (ty : WALRecordType) (p : bytes)
  | OpAppendSync (t : Z) (ty : WALRecordType) (p : bytes)
  | OpSync.

(** A run keeps the log, the records its appends tried to write and how many of
    them a successful sync has covered. *)
Record WalRun := MkWalRun { rw : WAL; attempted : list WALRecord; acked : nat }.

Definition wal_op `{GroupCommit} (s : WalRun) (op : WalOp) : WalRun :=
  match op with
  | OpAppend t ty p =>
      MkWalRun (WAL_Append (rw s) t ty p).1
        (attempted s ++ [MkWALRecord (next_lsn_ (rw s)) t ty p]) (acked s)
  | OpAppendSync t ty p =>
      let att := attempted s ++ [MkWALRecord (next_lsn_ (rw s)) t ty p] in
      let '(w, st) := WAL_AppendSync (rw s) t ty p in
      MkWalRun w att (if St.ok st then length att else acked s)
  | OpSync =>
      let '(w, st) := WAL_Sync (rw s) in
      MkWalRun w (attempted s) (if St.ok st then length (attempted s) else acked s)
  end.

Definition wal_ops `{GroupCommit} (ios : list Io) (ops : list WalOp) : WalRun :=
  foldl wal_op (MkWalRun (new_wal ios) [] 0) ops.

#[global] Arguments full_body : simpl never.
#[global] Arguments SerializeRecord : simpl never.

Abbreviation bodies rs := (full_body <$> rs).

Record wal_inv (s : WalRun) : Prop := {
  wi_file : file_inv (file (rw s)) (bodies (attempted s)) (acked s);
  wi_lsn : next_lsn_ (rw s) = u64 (1 + Z.of_nat (length (attempted s)));
}.

Lemma wi_acked_le s : wal_inv s → (acked s ≤ length (attempted s))%nat.
Proof. intros [Hf _]. apply fi_acked_le in Hf. by rewrite length_fmap in Hf. Qed.

Lemma WAL_Append_inv s t ty p : wal_inv s →
  wal_inv (MkWalRun (WAL_Append (rw s) t ty p).1
    (attempted s ++ [MkWALRecord (next_lsn_ (rw s)) t ty p]) (acked s)).
Proof.
  intros [Hf Hn]. split; cbn [rw attempted acked].
  - rewrite fmap_app. exact (stream_write_inv _ _ _ (full_body (MkWALRecord (next_lsn_ (rw s)) t ty p)) Hf).
  - cbn. rewrite length_app, Hn. simpl. unfold u64. rewrite Z.add_mod_idemp_l by lia. f_equal. lia.
Qed.

Lemma WAL_Sync_inv s :
  wal_inv s →
  wal_inv (MkWalRun (WAL_Sync (rw s)).1 (attempted s)
    (if St.ok (WAL_Sync (rw s)).2 then length (attempted s) else acked s)).
Proof.
  intros [Hf Hn]. pose proof (DurableFileSync_inv "WAL" _ _ _ Hf) as Hs. rewrite length_fmap in Hs.
  unfold WAL_Sync. by destruct (DurableFileSync "WAL" (file (rw s))) as [f st].
Qed.

Lemma wal_op_inv `{GroupCommit} s op : wal_inv s → wal_inv (wal_op s op).
Proof.
  intros Hi. destruct op as [t ty p|t ty p|]; cbn [wal_op].
  - by apply WAL_Append_inv.
  - unfold WAL_AppendSync. destruct (WAL_Append (rw s) t ty p) as [w st] eqn:E.
    pose proof (WAL_Append_inv s t ty p Hi) as Hi'. rewrite E in Hi'. cbn [fst] in Hi'.
    destruct (St.ok st) eqn:Est; cbn [negb]; [|rewrite Est; exact Hi'].
    rewrite QueueSync_flush.
    + pose proof (WAL_Sync_inv _ Hi') as Hs. cbn [rw attempted acked] in Hs.
      by destruct (WAL_Sync w) as [w' st'].
    + unfold WAL_Sync, DurableFileSync. by repeat case_match; simplify_eq/=.
  - pose proof (WAL_Sync_inv s Hi) as Hs. by destruct (WAL_Sync (rw s)).
Qed.

Lemma wal_ops_inv `{GroupCommit} ios ops : wal_inv (wal_ops ios ops).
Proof.
  unfold wal_ops. assert (wal_inv (MkWalRun (new_wal ios) [] 0)) as Hi.
  { split; [|done]. split; simpl; try done; try lia. }
  revert Hi. generalize (MkWalRun (new_wal ios) [] 0).
  induction ops as [|op ops IH]; intros s Hi; simpl; [done|]. apply IH. by apply wal_op_inv.
Qed.

Lemma records_decode rs : Forall record_ok rs →
  Forall2 (λ b r, body_ok kMinBody b ∧ ParseRecord b = Some r) (bodies rs) rs.
Proof.
  induction 1 as [|r rs Hr _ IH]; [constructor|]. rewrite fmap_cons. constructor; [|done].
  split; [|by apply ParseRecord_full_body]. unfold body_ok. rewrite length_full_body.
  destruct Hr as (_ & _ & _ & _ & Hr). split; [unfold kMinBody; lia|done].
Qed.

(** The records of a run are numbered 1, 2, 3, ... *)
Definition numbered (rs : list WALRecord) : Prop := ∀ i r, rs !! i = Some r → lsn r = u64 (1 + Z.of_nat i).

Lemma wal_ops_numbered `{GroupCommit} ios ops : numbered (attempted (wal_ops ios ops)).
Proof.
  induction ops as [|op ops IH] using rev_ind; [done|].
  pose proof (wi_lsn _ (wal_ops_inv ios ops)) as Hn.
  unfold wal_ops in *. rewrite foldl_app. cbn [foldl].
  set (s := foldl _ _ _) in *.
  assert (∀ t ty p, numbered (attempted s ++ [MkWALRecord (next_lsn_ (rw s)) t ty p])) as Hsnoc.
  { intros t ty p i r [Hi|[Hi Hr]]%lookup_app_Some; [by apply IH|].
    apply list_lookup_singleton_Some in Hr as [Hi0 <-]. simpl. rewrite Hn. f_equal. lia. }
  destruct op as [t ty p|t ty p|]; cbn [wal_op].
  - apply Hsnoc.
  - destruct (WAL_AppendSync _ _ _ _). apply Hsnoc.
  - by destruct (WAL_Sync _).
Qed.

Lemma max_lsn_numbered rs : numbered rs → Z.of_nat (length rs) < UINT64_MAX →
  foldl (λ m r, Z.max m (lsn r)) 0 rs = Z.of_nat (length rs).
Proof.
  induction rs as [|r rs IH] using rev_ind; [done|]. intros Hn Hl. rewrite length_app in Hl. simpl in Hl.
  rewrite foldl_app, IH.
  - simpl. rewrite (Hn (length rs) r) by (by rewrite lookup_app_r, Nat.sub_diag by lia).
    rewrite u64_id by (unfold is_u64, UINT64_MAX in *; lia). rewrite length_app. simpl. lia.
  - intros i r' Hi. apply Hn. by apply lookup_app_l_Some.
  - lia.
Qed.

Lemma numbered_take rs m : numbered rs → numbered (take m rs).
Proof. intros Hn i r [Hi _]%lookup_take_Some. by apply Hn. Qed.

(** Reopening the log of a run after a crash. *)
Lemma crash_reopen s n : wal_inv s → Forall record_ok (attempted s) →
  ∃ m w w', (acked s ≤ m ≤ length (attempted s))%nat ∧
    (WAL_Open (crash n [] (file (rw s)))).2 = inr w ∧
    next_lsn_ w = u64 (foldl (λ m r, Z.max m (lsn r)) 0 (take m (attempted s)) + 1) ∧
    WAL_Replay w = (w', St.OK, take m (attempted s)).
Proof.
  intros [Hf _] Hok. set (f := crash n [] (file (rw s))).
  destruct (crash_parse kMinBody ParseRecord _ _ _ _ n [] (records_decode _ Hok) Hf) as (m & Hm & Hp).
  fold f in Hp.
  exists m, (MkWAL (MkLogFile (content f) (durable_len f) false true true [])
    (u64 (foldl (λ m r, Z.max m (lsn r)) 0 (take m (attempted s)) + 1))). eexists.
  split; [done|]. split_and!; [|done|].
  - unfold WAL_Open. rewrite ReadWholeFileBinary_ok by done. cbn [snd]. unfold ParseRecordsFromBytes.
    by rewrite Hp.
  - unfold WAL_Replay. cbn [stream_open file]. rewrite ReadWholeFileBinary_ok by done.
    unfold ParseRecordsFromBytes. cbn [content pop_io stream_flush next_io io default head io_ok io_flush].
    rewrite Hp. done.
Qed.

(** ** Properties *)

#[local] Existing Instance default_group_commit.

(** The payload codecs of the log are exact: whatever was serialized is read
    back, and the readers of writes and deletes accept nothing else than what the
    serializers produce. *)
Theorem wal_payload_codec (tid ts : Z) (k v : bytes)
    (Ht : is_u32 tid) (Hs : is_u64 ts) (Hk : fits32 k) (Hv : fits32 v) :
  DeserializeBeginPayload (SerializeBeginPayload ts) = Some ts ∧
  DeserializePreparePayload (SerializePreparePayload ts) = Some ts ∧
  DeserializeCommitPayload (SerializeCommitPayload ts) = Some ts ∧
  DeserializeWritePayload (SerializeWritePayload tid k v ts) = Some (MkWriteInfo tid k v ts) ∧
  DeserializeDeletePayload (SerializeDeletePayload tid k ts) = Some (MkDeleteInfo tid k ts) ∧
  (∀ p wi, DeserializeWritePayload p = Some wi →
     p = SerializeWritePayload (wi_table_id wi) (wi_key wi) (wi_value wi) (wi_write_ts wi)) ∧
  (∀ p di, DeserializeDeletePayload p = Some di →
     p = SerializeDeletePayload (di_table_id di) (di_key di) (di_write_ts di)).
Proof.
  split_and!; auto using Begin_roundtrip, Prepare_roundtrip, Commit_roundtrip, Write_roundtrip,
    Delete_roundtrip, Write_accepts, Delete_accepts.
Qed.

Lemma wal_payload_codec_witness :
  DeserializeWritePayload (SerializeWritePayload 1 [x61] [x62; x63] 9) =
  Some (MkWriteInfo 1 [x61] [x62; x63] 9).
Proof. apply (wal_payload_codec 1 9 [x61] [x62; x63]); done. Defined.

(** C25. What the log promises across a crash, for every sequence of appends and
    syncs on a new log and every pattern of I/O failures: after a crash that
    keeps any prefix containing the synced bytes, opening the log succeeds and
    replay visits an initial segment of the records in the order they were
    appended, uncorrupted, and that segment contains every record that was
    followed by (or was part of) a sync that returned OK. Numbering continues
    after the last surviving record. *)
Theorem wal_crash_recovery `{GroupCommit} (ios : list Io) (ops : list WalOp) (n : nat)
    (Hok : Forall record_ok (attempted (wal_ops ios ops)))
    (Hlen : Z.of_nat (length (attempted (wal_ops ios ops))) < UINT64_MAX) :
  let s := wal_ops ios ops in
  ∃ m w, (acked s ≤ m ≤ length (attempted s))%nat ∧
    (WAL_Open (crash n [] (file (rw s)))).2 = inr w ∧
    next_lsn_ w = Z.of_nat m + 1 ∧
    (WAL_Replay w).1.2 = St.OK ∧ (WAL_Replay w).2 = take m (attempted s).
Proof.
  intros s. destruct (crash_reopen s n (wal_ops_inv ios ops) Hok) as (m & w & w' & Hm & Ho & Hn & Hr).
  exists m, w. rewrite Hr. split_and!; try done; try lia. rewrite Hn, max_lsn_numbered.
  - rewrite length_take_le by lia. apply u64_id. fold s in Hlen. unfold is_u64, UINT64_MAX in *. lia.
  - apply numbered_take, wal_ops_numbered.
  - rewrite length_take_le by lia. fold s in Hlen. lia.
Qed.

(** Two records, the first one synced; a failing write cuts the third. *)
Definition demo_ops : list WalOp :=
  [OpAppend 1 BEGIN (SerializeBeginPayload 5); OpAppendSync 1 PREPARE (SerializePreparePayload 6);
   OpAppend 1 COMMIT (SerializeCommitPayload 6)].
Definition demo_ios : list Io := [io_ok; io_ok; io_ok; MkIo (Some 7%nat) None true None true true true].

Lemma wal_crash_recovery_witness :
  let s := wal_ops demo_ios demo_ops in
  acked s = 2%nat ∧ length (attempted s) = 3%nat ∧
  ∃ m w, (acked s ≤ m ≤ length (attempted s))%nat ∧
    (WAL_Open (crash 0 [] (file (rw s)))).2 = inr w ∧
    next_lsn_ w = Z.of_nat m + 1 ∧
    (WAL_Replay w).1.2 = St.OK ∧ (WAL_Replay w).2 = take m (attempted s).
Proof.
  split; [vm_compute; reflexivity|]. split; [vm_compute; reflexivity|].
  apply (wal_crash_recovery demo_ios demo_ops 0); [|vm_compute; reflexivity].
  refine (bool_decide_unpack (Forall record_ok _) _). vm_compute. exact I.
Defined.

(** A torn tail is not cut off when the log is opened again, so later
    records are lost: there is a log, left by a crash in the middle of a record,
    that opens without error and acknowledges a synced COMMIT record, and whose
    replay shows no record at all. *)
Theorem wal_torn_tail_hides_records :
  ∃ n w, let crashed := crash n [] (file (rw (wal_ops [] [OpAppend 1 BEGIN (SerializeBeginPayload 5)]))) in
    (WAL_Open crashed).2 = inr w ∧
    let '(w', st) := WAL_AppendSync w 2 COMMIT (SerializeCommitPayload 7) in
    st = St.OK ∧ durable_len (file w') = length (content (file w')) ∧
    (WAL_Replay w').1.2 = St.OK ∧ (WAL_Replay w').2 = [].
Proof.
  exists 10%nat. eexists. split; [vm_compute; reflexivity|].
  vm_compute. split_and!; reflexivity.
Qed.
