(* ===== verification/TxnManager.v ===== *)
(** * Transactions (src/src/txn/transaction.h, src/src/txn/txn_manager.{h,cpp})

    The transaction manager of a shard: buffered writes under row locks, snapshot
    reads with a read set, validation at prepare time, and commit. Each method is
    a function on the manager's state; [Write] and [Delete] of a blocked caller
    are split at the wait, see [txn_step]. *)
From Stdlib Require Import Strings.Byte.
From stdpp Require Import base gmap sets list strings.
From Stdlib Require Import ZArith Lia.
From S2P Require Import Prelude Status KeyEncoding RocksDB MVCCStore MVCCIterator.
From S2P Require Import LockManager GroupCommit LogFile Wal.
Local Open Scope Z_scope.

Inductive TxnState := ACTIVE | PREPARED | COMMITTED | ABORTED.

#[export] Instance TxnState_eq_dec : EqDecision TxnState.
Proof. solve_decision. Defined.

Record BufferedWrite := MkBufferedWrite {
  bw_table_id : Z;
  bw_key : bytes;
  bw_value : bytes;
  is_delete : bool;
}.

Record ReadEntry := MkReadEntry {
  re_table_id : Z;
  re_key : bytes;
  observed_write_ts : Z;
}.

Record Transaction := MkTransaction {
  t_txn_id : Z;
  snapshot_ts : Z;
  prepare_commit_ts : Z;
  state : TxnState;
  write_set : list BufferedWrite;
  read_set : list ReadEntry;
  locked_keys : list (Z * bytes);
}.

#[export] Instance BufferedWrite_eq_dec : EqDecision BufferedWrite.
Proof. solve_decision. Defined.

Record TxnManager (DB : Type) := MkTxnManager {
  store_ : DB;
  wal_ : WAL;
  lock_mgr_ : LockManager;
  next_txn_id_ : Z;
  txns_ : gmap Z Transaction;
}.
Arguments MkTxnManager {DB}.
Arguments store_ {DB}.
Arguments wal_ {DB}.
Arguments lock_mgr_ {DB}.
Arguments next_txn_id_ {DB}.
Arguments txns_ {DB}.

(** Does a buffered write concern a row? *)
Definition writes_row (table_id : Z) (key : bytes) (w : BufferedWrite) : bool :=
  (bw_table_id w =? table_id) && bool_decide (bw_key w = key).

Fixpoint first_buffered (writes : list BufferedWrite) (table_id : Z) (key : bytes) :
    option BufferedWrite :=
  match writes with
  | [] => None
  | w :: ws => if writes_row table_id key w then Some w else first_buffered ws table_id key
  end.

(** [LatestBuffered] walks the write set backwards. *)
Definition LatestBuffered (writes : list BufferedWrite) (table_id : Z) (key : bytes) :
    option BufferedWrite :=
  first_buffered (rev writes) table_id key.

Module TM.
Section manager.
Context `{RocksDB DB} `{GroupCommit}.
Implicit Types tm : TxnManager DB.

Definition set_store tm (s : DB) : TxnManager DB :=
  MkTxnManager s (wal_ tm) (lock_mgr_ tm) (next_txn_id_ tm) (txns_ tm).
Definition set_wal tm (w : WAL) : TxnManager DB :=
  MkTxnManager (store_ tm) w (lock_mgr_ tm) (next_txn_id_ tm) (txns_ tm).
Definition set_locks tm (l : LockManager) : TxnManager DB :=
  MkTxnManager (store_ tm) (wal_ tm) l (next_txn_id_ tm) (txns_ tm).
Definition set_txns tm (ts : gmap Z Transaction) : TxnManager DB :=
  MkTxnManager (store_ tm) (wal_ tm) (lock_mgr_ tm) (next_txn_id_ tm) ts.

(** [next_txn_id_.fetch_add(1)] *)
Definition take_txn_id tm : TxnManager DB * Z :=
  (MkTxnManager (store_ tm) (wal_ tm) (lock_mgr_ tm) (u64 (next_txn_id_ tm + 1)) (txns_ tm),
   next_txn_id_ tm).

Definition append tm (t : Z) (ty : WALRecordType) (p : bytes) : TxnManager DB * Status :=
  let '(w, st) := WAL_Append (wal_ tm) t ty p in (set_wal tm w, st).
Definition append_sync tm (t : Z) (ty : WALRecordType) (p : bytes) : TxnManager DB * Status :=
  let '(w, st) := WAL_AppendSync (wal_ tm) t ty p in (set_wal tm w, st).

Definition GetTxn tm (txn_id : Z) : option Transaction := txns_ tm !! txn_id.

Definition Begin tm (snapshot_ts : Z) : TxnManager DB * Z :=
  let '(tm, txn_id) := take_txn_id tm in
  let txn := MkTransaction txn_id snapshot_ts 0 ACTIVE [] [] [] in
  let '(tm, _) := append tm txn_id BEGIN (SerializeBeginPayload snapshot_ts) in
  (set_txns tm (<[txn_id := txn]> (txns_ tm)), txn_id).

(** The log record of a buffered write. *)
Definition log_write tm (txn_id : Z) (w : BufferedWrite) : TxnManager DB :=
  if is_delete w then
    (append tm txn_id DELETE (SerializeDeletePayload (bw_table_id w) (bw_key w) 0)).1
  else
    (append tm txn_id WRITE (SerializeWritePayload (bw_table_id w) (bw_key w) (bw_value w) 0)).1.

Definition ImportPreparedTxn tm (snapshot_ts commit_ts : Z) (writes : list BufferedWrite) :
    TxnManager DB * Z :=
  let '(tm, txn_id) := take_txn_id tm in
  let txn := MkTransaction txn_id snapshot_ts commit_ts PREPARED writes [] [] in
  let '(tm, _) := append tm txn_id BEGIN (SerializeBeginPayload snapshot_ts) in
  let tm := foldl (λ tm w, log_write tm txn_id w) tm writes in
  let '(tm, _) := append_sync tm txn_id PREPARE (SerializePreparePayload commit_ts) in
  (set_txns tm (<[txn_id := txn]> (txns_ tm)), txn_id).

Definition unknown_txn : Status := St.Error InvalidArgument "unknown txn".
Definition not_active : Status := St.Error InvalidArgument "txn not active".

Definition add_reads (txn : Transaction) (rs : list ReadEntry) : Transaction :=
  MkTransaction (t_txn_id txn) (snapshot_ts txn) (prepare_commit_ts txn) (state txn)
    (write_set txn) (read_set txn ++ rs) (locked_keys txn).

(** [Read]: the value, or the status that is not ok. *)
Definition Read tm (txn_id table_id : Z) (key : bytes) : TxnManager DB * result bytes :=
  match txns_ tm !! txn_id with
  | None => (tm, inl unknown_txn)
  | Some txn =>
      if negb (bool_decide (state txn = ACTIVE)) then (tm, inl not_active)
      else
        match LatestBuffered (write_set txn) table_id key with
        | Some bw => if is_delete bw then (tm, inl (St.NotFound "")) else (tm, inr (bw_value bw))
        | None =>
            match Get (store_ tm) table_id key (snapshot_ts txn) with
            | inl st => (tm, inl st)
            | inr (mv, value_ts) =>
                (set_txns tm (<[txn_id := add_reads txn [MkReadEntry table_id key value_ts]]>
                                (txns_ tm)), inr mv)
            end
        end
  end.

(** The loop of [Scan]: output rows and new read entries. *)
Fixpoint scan_loop (writes : list BufferedWrite) (table_id : Z) (rows : list (bytes * bytes * Z)) :
    list (bytes * bytes) * list ReadEntry :=
  match rows with
  | [] => ([], [])
  | (pk, mv, value_ts) :: rows =>
      let '(out, reads) := scan_loop writes table_id rows in
      match LatestBuffered writes table_id pk with
      | Some bw => if is_delete bw then (out, reads) else ((pk, bw_value bw) :: out, reads)
      | None => ((pk, mv) :: out, MkReadEntry table_id pk value_ts :: reads)
      end
  end.

Definition Scan tm (txn_id table_id : Z) (range_start_pk range_end_exclusive : bytes)
    (range_end_open : bool) : TxnManager DB * result (list (bytes * bytes)) :=
  match txns_ tm !! txn_id with
  | None => (tm, inl unknown_txn)
  | Some txn =>
      if negb (bool_decide (state txn = ACTIVE)) then (tm, inl not_active)
      else
        let it := MVCCIterator.Scan (store_ tm) table_id range_start_pk
                    (if range_end_open then [] else range_end_exclusive) (snapshot_ts txn)
                    range_end_open in
        let '(out, reads) := scan_loop (write_set txn) table_id (rows_of it) in
        (set_txns tm (<[txn_id := add_reads txn reads]> (txns_ tm)), inr out)
  end.

(** [ValidateReadSet] *)
Definition conflict : Status := St.Error Conflict "read validation failed".
Fixpoint validate (db : DB) (commit_ts : Z) (reads : list ReadEntry) : Status :=
  match reads with
  | [] => St.OK
  | r :: reads =>
      match Get db (re_table_id r) (re_key r) commit_ts with
      | inl _ => conflict
      | inr (_, ts) =>
          if negb (ts =? observed_write_ts r) then conflict else validate db commit_ts reads
      end
  end.
Definition ValidateReadSet tm (txn : Transaction) (commit_ts : Z) : Status :=
  validate (store_ tm) commit_ts (read_set txn).

Definition ApplyWrites (db : DB) (writes : list BufferedWrite) (commit_ts : Z) : DB :=
  foldl (λ db w,
    if is_delete w then (Delete db (bw_table_id w) (bw_key w) commit_ts).1
    else (Put db (bw_table_id w) (bw_key w) commit_ts (bw_value w)).1) db writes.

Definition ReleaseAllLocks tm (txn_id : Z) : TxnManager DB :=
  set_locks tm (ReleaseAll (lock_mgr_ tm) txn_id).

Definition Abort tm (txn_id : Z) : TxnManager DB * Status :=
  match txns_ tm !! txn_id with
  | None => (tm, St.OK)
  | Some _ =>
      let tm := set_txns tm (delete txn_id (txns_ tm)) in
      let '(tm, _) := append_sync tm txn_id ABORT [] in
      (ReleaseAllLocks tm txn_id, St.OK)
  end.

Definition buffer (txn : Transaction) (w : BufferedWrite) : Transaction :=
  MkTransaction (t_txn_id txn) (snapshot_ts txn) (prepare_commit_ts txn) (state txn)
    (write_set txn ++ [w]) (read_set txn) (locked_keys txn ++ [(bw_table_id w, bw_key w)]).

(** [Write] and [Delete] after their call of [Acquire] succeeded. *)
Definition buffer_write tm (txn_id : Z) (w : BufferedWrite) : TxnManager DB * Status :=
  match txns_ tm !! txn_id with
  | None => (ReleaseAllLocks tm txn_id, unknown_txn)
  | Some txn =>
      if negb (bool_decide (state txn = ACTIVE)) then (ReleaseAllLocks tm txn_id, not_active)
      else
        let tm := log_write tm txn_id w in
        (set_txns tm (<[txn_id := buffer txn w]> (txns_ tm)), St.OK)
  end.

(** [Write] and [Delete] after [Acquire] returned [acq]. *)
Definition write_acquired tm (acq : Status) (txn_id : Z) (w : BufferedWrite) :
    TxnManager DB * Status :=
  if negb (St.ok acq) then ((Abort tm txn_id).1, acq) else buffer_write tm txn_id w.

Definition Write tm (txn_id table_id : Z) (key value : bytes) : TxnManager DB * Status :=
  let '(l, acq) := Acquire (lock_mgr_ tm) table_id key txn_id in
  write_acquired (set_locks tm l) acq txn_id (MkBufferedWrite table_id key value false).

Definition Delete tm (txn_id table_id : Z) (key : bytes) : TxnManager DB * Status :=
  let '(l, acq) := Acquire (lock_mgr_ tm) table_id key txn_id in
  write_acquired (set_locks tm l) acq txn_id (MkBufferedWrite table_id key [] true).

Definition set_prepared (txn : Transaction) (commit_ts : Z) : Transaction :=
  MkTransaction (t_txn_id txn) (snapshot_ts txn) commit_ts PREPARED
    (write_set txn) (read_set txn) (locked_keys txn).

Definition Prepare tm (txn_id commit_ts : Z) : TxnManager DB * Status :=
  match txns_ tm !! txn_id with
  | None => (tm, unknown_txn)
  | Some txn =>
      if negb (bool_decide (state txn = ACTIVE)) then (tm, not_active)
      else
        if St.ok (ValidateReadSet tm txn commit_ts) then
          let '(tm, ws) := append_sync tm txn_id PREPARE (SerializePreparePayload commit_ts) in
          if negb (St.ok ws) then (tm, ws)
          else (set_txns tm (<[txn_id := set_prepared txn commit_ts]> (txns_ tm)), St.OK)
        else
          let tm := set_txns tm (delete txn_id (txns_ tm)) in
          let '(tm, _) := append_sync tm txn_id ABORT [] in
          (ReleaseAllLocks tm txn_id, conflict)
  end.

Definition Commit tm (txn_id commit_ts : Z) : TxnManager DB * Status :=
  match txns_ tm !! txn_id with
  | None => (tm, unknown_txn)
  | Some txn =>
      if negb (bool_decide (state txn = PREPARED)) then
        (tm, St.Error InvalidArgument "txn not prepared")
      else
        let tm := set_txns tm (delete txn_id (txns_ tm)) in
        let tm := set_store tm (ApplyWrites (store_ tm) (write_set txn) commit_ts) in
        let '(tm, ws) := append_sync tm txn_id COMMIT (SerializeCommitPayload commit_ts) in
        if negb (St.ok ws) then (tm, ws) else (ReleaseAllLocks tm txn_id, St.OK)
  end.

Definition CommitSingleShard tm (txn_id commit_ts : Z) : TxnManager DB * Status :=
  let '(tm, p) := Prepare tm txn_id commit_ts in
  if negb (St.ok p) then (tm, p) else Commit tm txn_id commit_ts.
End manager.
End TM.

(** ** Commit: what [ApplyWrites] does to the store *)

(** The engine accepts every write. *)
Definition rdb_reliable (DB : Type) `{RocksDB DB} : Prop :=
  ∀ (db : DB) k v, (rdb_put db k v).2 = None.

Lemma MemDB_reliable : rdb_reliable MemDB.
Proof. done. Qed.

(** The value a buffered write leaves in the store. *)
Definition stored_value (w : BufferedWrite) : bytes :=
  if is_delete w then kTombstone else bw_value w.

Definition write_ok (w : BufferedWrite) : Prop := is_u32 (bw_table_id w).

Lemma writes_row_spec tid key w : writes_row tid key w = true ↔ bw_table_id w = tid ∧ bw_key w = key.
Proof. unfold writes_row. rewrite andb_true_iff, Z.eqb_eq, bool_decide_eq_true. done. Qed.

Lemma LatestBuffered_snoc ws w tid key :
  LatestBuffered (ws ++ [w]) tid key = if writes_row tid key w then Some w else LatestBuffered ws tid key.
Proof. unfold LatestBuffered. by rewrite rev_unit. Qed.

Lemma LatestBuffered_None ws tid key :
  LatestBuffered ws tid key = None ↔ ∀ w, w ∈ ws → writes_row tid key w = false.
Proof.
  induction ws as [|w ws IH] using rev_ind.
  - split; [set_solver|done].
  - rewrite LatestBuffered_snoc. destruct (writes_row tid key w) eqn:E.
    + split; [done|]. intros Hw. rewrite Hw in E; [done|set_solver].
    + rewrite IH. split; [|set_solver]. intros Hw w' [| ->%list_elem_of_singleton]%elem_of_app; auto.
Qed.

Lemma LatestBuffered_Some ws tid key w :
  LatestBuffered ws tid key = Some w → w ∈ ws ∧ bw_table_id w = tid ∧ bw_key w = key.
Proof.
  induction ws as [|w' ws IH] using rev_ind; [done|]. rewrite LatestBuffered_snoc.
  destruct (writes_row tid key w') eqn:E.
  - intros [= <-]. apply writes_row_spec in E. set_solver.
  - intros Hw. destruct (IH Hw). set_solver.
Qed.

Section commit.
Context `{RocksDBLaws DB} (Hrel : rdb_reliable DB) {HK : KeyUniverse}.
Implicit Types (db : DB) (ws : list BufferedWrite).

Lemma ApplyWrites_snoc db ws w ts :
  rdb_contents (TM.ApplyWrites db (ws ++ [w]) ts) =
  <[EncodeKey (bw_table_id w) (bw_key w) ts := stored_value w]>
    (rdb_contents (TM.ApplyWrites db ws ts)).
Proof.
  unfold TM.ApplyWrites. rewrite foldl_app. cbn [foldl]. set (db' := foldl _ db ws).
  unfold stored_value. destruct (is_delete w); [rewrite Delete_Put|];
    unfold Put, write_status; match goal with |- context [rdb_put ?d ?k ?v] =>
      pose proof (Hrel d k v) as Hn; destruct (rdb_put d k v) as [d' [e|]] eqn:E; [done|] end;
    simpl; by apply rdb_put_ok.
Qed.

Definition pks_ok ws : Prop := Forall (λ w, is_u32 (bw_table_id w) ∧ pk_ok (bw_table_id w) (bw_key w)) ws.

Lemma ApplyWrites_store_in db ws ts :
  is_u64 ts → pks_ok ws → store_in (rdb_contents db) →
  store_in (rdb_contents (TM.ApplyWrites db ws ts)).
Proof.
  intros Hs Hok Hin. induction ws as [|w ws IH] using rev_ind; [done|].
  apply Forall_app in Hok as [Hok [[??] _]%Forall_cons]. rewrite ApplyWrites_snoc.
  apply store_in_insert; auto.
Qed.

Lemma ApplyWrites_version db ws ts tid key ts' :
  is_u64 ts → pks_ok ws → is_u32 tid → is_u64 ts' →
  version_at (rdb_contents (TM.ApplyWrites db ws ts)) tid key ts' =
  if decide (ts' = ts) then
    match LatestBuffered ws tid key with
    | Some w => Some (stored_value w)
    | None => version_at (rdb_contents db) tid key ts'
    end
  else version_at (rdb_contents db) tid key ts'.
Proof.
  intros Hs Hok Ht Hs'. induction ws as [|w ws IH] using rev_ind.
  - simpl. by case_decide.
  - apply Forall_app in Hok as [Hok [[Hw _] _]%Forall_cons].
    rewrite ApplyWrites_snoc, version_at_insert, IH, LatestBuffered_snoc by done.
    destruct (writes_row tid key w) eqn:E.
    + apply writes_row_spec in E as [<- <-]. case_decide; case_decide; naive_solver.
    + assert (¬ (bw_table_id w = tid ∧ bw_key w = key)) as Hn
        by (rewrite <- writes_row_spec; congruence).
      rewrite decide_False by naive_solver. done.
Qed.
End commit.

(** ** Only [Commit] changes the store *)

Section stores.
Context `{RocksDB DB} `{GroupCommit}.
Implicit Types tm : TxnManager DB.

Lemma Begin_store tm s : store_ (TM.Begin tm s).1 = store_ tm.
Proof. done. Qed.

Lemma log_write_frame tm t w : store_ (TM.log_write tm t w) = store_ tm ∧
  lock_mgr_ (TM.log_write tm t w) = lock_mgr_ tm ∧ txns_ (TM.log_write tm t w) = txns_ tm ∧
  next_txn_id_ (TM.log_write tm t w) = next_txn_id_ tm.
Proof. unfold TM.log_write, TM.append. by destruct (is_delete w). Qed.

Lemma Abort_store tm t : store_ (TM.Abort tm t).1 = store_ tm.
Proof.
  unfold TM.Abort, TM.append_sync. destruct (txns_ tm !! t); [|done].
  by destruct (WAL_AppendSync _ _ _ _).
Qed.

Lemma write_acquired_store tm acq t w : store_ (TM.write_acquired tm acq t w).1 = store_ tm.
Proof.
  unfold TM.write_acquired. destruct (negb _); [apply Abort_store|].
  unfold TM.buffer_write. destruct (txns_ tm !! t); [|done]. destruct (negb _); [done|].
  apply log_write_frame.
Qed.

Lemma Write_store tm t tid k v : store_ (TM.Write tm t tid k v).1 = store_ tm.
Proof. unfold TM.Write. destruct (Acquire _ _ _ _). by rewrite write_acquired_store. Qed.
Lemma Delete_store tm t tid k : store_ (TM.Delete tm t tid k).1 = store_ tm.
Proof. unfold TM.Delete. destruct (Acquire _ _ _ _). by rewrite write_acquired_store. Qed.

Lemma Prepare_store tm t cts : store_ (TM.Prepare tm t cts).1 = store_ tm.
Proof.
  unfold TM.Prepare, TM.append_sync. destruct (txns_ tm !! t); [|done].
  destruct (negb _); [done|]. destruct (St.ok _).
  - destruct (WAL_AppendSync _ _ _ _) as [w st]. by destruct (negb (St.ok st)).
  - by destruct (WAL_AppendSync _ _ _ _).
Qed.
End stores.

(** ** Reads and commits *)

Lemma WAL_AppendSync_durable `{GroupCommit} w t ty p w' st :
  WAL_AppendSync w t ty p = (w', st) → St.ok st = true →
  durable_len (file w') = length (content (file w')).
Proof.
  unfold WAL_AppendSync. destruct (WAL_Append w t ty p) as [w1 s1]. destruct (St.ok s1) eqn:E; simpl.
  - rewrite QueueSync_flush by (unfold WAL_Sync, DurableFileSync; by repeat case_match; simplify_eq/=).
    unfold WAL_Sync, DurableFileSync. intros Hs Hok. by repeat case_match; simplify_eq/=.
  - intros [= <- <-] Hok. congruence.
Qed.

Section reads.
Context `{RocksDBLaws DB} (Hrel : rdb_reliable DB) {HK : KeyUniverse} `{GroupCommit}.
Implicit Types tm : TxnManager DB.

Lemma validate_ok (db : DB) ts reads : St.ok (TM.validate db ts reads) = true →
  Forall (λ r, ∃ v, Get db (re_table_id r) (re_key r) ts = inr (v, observed_write_ts r)) reads.
Proof.
  induction reads as [|r reads IH]; simpl; [constructor|].
  destruct (Get db _ _ ts) as [st|[v ts']] eqn:E; [done|].
  destruct (Z.eqb_spec ts' (observed_write_ts r)) as [->|]; simpl; [|done].
  intros Hv. constructor; eauto.
Qed.

(** Snapshots before the commit timestamp do not see the commit. *)
Lemma ApplyWrites_unseen (db : DB) ws ts tid key snap :
  is_u64 ts → pks_ok ws → store_in (rdb_contents db) → is_u32 tid → pk_ok tid key → snap < ts →
  Get (TM.ApplyWrites db ws ts) tid key snap = Get db tid key snap.
Proof.
  intros Hs Hok Hin Ht Hk Hlt.
  pose proof (ApplyWrites_store_in Hrel db ws ts Hs Hok Hin) as Hin'.
  apply Get_ext; [done|apply Hin'|apply Hin|by apply store_in_isolated..|].
  assert (∀ w, is_u64 w → w ≤ snap →
    version_at (rdb_contents (TM.ApplyWrites db ws ts)) tid key w =
    version_at (rdb_contents db) tid key w) as Heq.
  { intros w Hw Hle. rewrite (ApplyWrites_version Hrel) by done. rewrite decide_False by lia. done. }
  intros w v. unfold visible. split; intros (Hw & Hv & Hle & Hm); split_and!; auto.
  - by rewrite <- Heq.
  - intros w' Hw' ?. rewrite <- Heq by (done || lia). by apply Hm.
  - by rewrite Heq.
  - intros w' Hw' ?. rewrite Heq by (done || lia). by apply Hm.
Qed.

(** Snapshots at or after it see the last buffered write of each row. *)
Lemma ApplyWrites_seen (db : DB) ws ts tid key snap :
  is_u64 ts → pks_ok ws → store_in (rdb_contents db) → is_u32 tid → pk_ok tid key → ts ≤ snap →
  (∀ ts', is_u64 ts' → ts < ts' ≤ snap → version_at (rdb_contents db) tid key ts' = None) →
  Get (TM.ApplyWrites db ws ts) tid key snap =
  match LatestBuffered ws tid key with
  | Some w => if IsTombstone (stored_value w) then inl (St.NotFound "") else inr (stored_value w, ts)
  | None => Get db tid key snap
  end.
Proof.
  intros Hs Hok Hin Ht Hk Hle Hnone.
  pose proof (ApplyWrites_store_in Hrel db ws ts Hs Hok Hin) as Hin'.
  destruct (LatestBuffered ws tid key) as [w|] eqn:E.
  - apply Get_finds; [done|apply Hin'|by apply store_in_isolated|]. split_and!; [done| |done|].
    + rewrite (ApplyWrites_version Hrel), decide_True, E by done. done.
    + intros ts' Hs' Hr. rewrite (ApplyWrites_version Hrel), decide_False by (done || lia). auto.
  - assert (∀ w, is_u64 w →
      version_at (rdb_contents (TM.ApplyWrites db ws ts)) tid key w =
      version_at (rdb_contents db) tid key w) as Heq.
    { intros w Hw. rewrite (ApplyWrites_version Hrel), E by done. by case_decide. }
    apply Get_ext; [done|apply Hin'|apply Hin|by apply store_in_isolated..|].
    intros w v. unfold visible. split; intros (Hw & Hv & Hle' & Hm); split_and!; auto.
    + by rewrite <- Heq.
    + intros w' Hw' ?. rewrite <- Heq by done. by apply Hm.
    + by rewrite Heq.
    + intros w' Hw' ?. rewrite Heq by done. by apply Hm.
Qed.

(** The three outcomes of [Commit] on a prepared transaction agree on
    everything but log, locks and status. *)
Lemma Commit_effect tm t cts txn :
  txns_ tm !! t = Some txn → state txn = PREPARED →
  store_ (TM.Commit tm t cts).1 = TM.ApplyWrites (store_ tm) (write_set txn) cts ∧
  txns_ (TM.Commit tm t cts).1 = delete t (txns_ tm).
Proof.
  intros Ht Hp. unfold TM.Commit. rewrite Ht, bool_decide_true by done. cbn [negb].
  unfold TM.append_sync. destruct (WAL_AppendSync _ _ _ _) as [w st]. by destruct (negb (St.ok st)).
Qed.
End reads.

(** ** Properties *)

#[local] Existing Instance default_group_commit.

(** C23. Commit is atomic and versioned, on primary keys none of which extends another.
    For a prepared transaction, a store that accepts writes and primary keys, in the store
    and in the write set, from a prefix-free universe (with keys "1" and "10" of one table
    it fails, as [Get] does: [Get_misses_prefix_key]), [Commit] removes the transaction and
    makes exactly its write set visible at the commit timestamp: snapshots before it read
    what they read before, and snapshots from it on (up to the next version of the row)
    read the last value the transaction buffered for a row, do not find a row it
    deleted last, and read unwritten rows as before. *)
Theorem Commit_atomic {DB : Type} `{RocksDBLaws DB} {HK : KeyUniverse} `{GroupCommit}
    (tm : TxnManager DB) (t cts : Z) (txn : Transaction)
    (Hrel : rdb_reliable DB) (Htxn : txns_ tm !! t = Some txn) (Hp : state txn = PREPARED)
    (Hs : is_u64 cts) (Hok : pks_ok (write_set txn)) (Hin : store_in (rdb_contents (store_ tm))) :
  let tm' := (TM.Commit tm t cts).1 in
  txns_ tm' = delete t (txns_ tm) ∧ store_in (rdb_contents (store_ tm')) ∧
  ∀ tid key snap, is_u32 tid → pk_ok tid key →
    (snap < cts → Get (store_ tm') tid key snap = Get (store_ tm) tid key snap) ∧
    (cts ≤ snap →
     (∀ ts', is_u64 ts' → cts < ts' ≤ snap →
        version_at (rdb_contents (store_ tm)) tid key ts' = None) →
     Get (store_ tm') tid key snap =
       match LatestBuffered (write_set txn) tid key with
       | Some w =>
           if is_delete w || IsTombstone (bw_value w) then inl (St.NotFound "")
           else inr (bw_value w, cts)
       | None => Get (store_ tm) tid key snap
       end).
Proof.
  destruct (Commit_effect tm t cts txn Htxn Hp) as [Es Et]. simpl. rewrite Es, Et.
  split; [done|]. split; [by apply (ApplyWrites_store_in (HK := HK) Hrel)|]. intros tid key snap Ht Hk. split.
  - intros Hlt. by apply (ApplyWrites_unseen Hrel (HK := HK)).
  - intros Hle Hnone. rewrite (ApplyWrites_seen Hrel (HK := HK)) by done.
    destruct (LatestBuffered _ _ _) as [w|]; [|done]. unfold stored_value. by destruct (is_delete w).
Qed.

(** A manager over an in-memory store with row [a] at timestamp 3; transaction 1
    reads with snapshot 5, updates [a] twice and deletes [b]. *)
Definition demo_tm0 : TxnManager MemDB :=
  MkTxnManager (Put (∅ : MemDB) 1 [x61] 3 [x30]).1 (new_wal []) LockManager_init 1 ∅.
Definition demo_tm1 : TxnManager MemDB :=
  let tm := (TM.Begin demo_tm0 5).1 in
  let tm := (TM.Write tm 1 1 [x61] [x31]).1 in
  let tm := (TM.Write tm 1 1 [x61] [x32]).1 in
  (TM.Delete tm 1 1 [x62]).1.
Definition demo_tm2 : TxnManager MemDB := (TM.Prepare demo_tm1 1 8).1.
Definition demo_writes : list BufferedWrite :=
  [MkBufferedWrite 1 [x61] [x31] false; MkBufferedWrite 1 [x61] [x32] false;
   MkBufferedWrite 1 [x62] [] true].
Definition demo_txn : Transaction :=
  MkTransaction 1 5 8 PREPARED demo_writes [] [(1, [x61]); (1, [x61]); (1, [x62])].

Lemma demo_store0_in : @store_in (fixed_width 1) (store_ demo_tm0).
Proof. 
  apply (@store_in_insert (fixed_width 1) ∅ 1 [x61] 3 [x30]); [done..|apply (@store_in_empty (fixed_width 1))].
Defined.
Lemma demo_tm1_store : store_ demo_tm1 = store_ demo_tm0.
Proof. unfold demo_tm1. by rewrite Delete_store, !Write_store, Begin_store. Qed.
Lemma demo_tm2_store : store_ demo_tm2 = store_ demo_tm0.
Proof. unfold demo_tm2. by rewrite Prepare_store, demo_tm1_store. Qed.
Lemma demo_writes_ok : @pks_ok (fixed_width 1) demo_writes.
Proof. repeat constructor; done. Defined.

Lemma Commit_atomic_witness :
  (TM.Commit demo_tm2 1 8).2 = St.OK ∧
  Get (store_ (TM.Commit demo_tm2 1 8).1) 1 [x61] 9 = inr ([x32], 8) ∧
  Get (store_ (TM.Commit demo_tm2 1 8).1) 1 [x61] 7 = Get (store_ demo_tm2) 1 [x61] 7.
Proof.
  split; [vm_compute; reflexivity|]. split; [vm_compute; reflexivity|].
  refine (proj1 (proj2 (proj2 (Commit_atomic (HK := fixed_width 1) demo_tm2 1 8 demo_txn
    MemDB_reliable _ eq_refl _ demo_writes_ok _)) 1 [x61] 7 _ eq_refl) _).
  - vm_compute. reflexivity.
  - done.
  - rewrite demo_tm2_store. exact demo_store0_in.
  - exact demo_table.
  - lia.
Defined.

(** C28. [Prepare] votes yes only for a validated transaction, durably. When it
    returns OK the transaction was active, is now prepared with the commit
    timestamp, nothing else of the manager changed but the log, every byte of
    the log up to the PREPARE record is on disk, and every version in the read
    set still is the one a read at the commit timestamp returns. When the
    validation fails it returns a conflict, the transaction is gone and its locks
    are released, and the store is untouched. *)
Theorem Prepare_validates {DB : Type} `{RocksDB DB} `{GroupCommit}
    (tm tm' : TxnManager DB) (t cts : Z) (st : Status) (Hp : TM.Prepare tm t cts = (tm', st)) :
  store_ tm' = store_ tm ∧
  (st = St.OK → ∃ txn, txns_ tm !! t = Some txn ∧ state txn = ACTIVE ∧
     txns_ tm' = <[t := TM.set_prepared txn cts]> (txns_ tm) ∧ lock_mgr_ tm' = lock_mgr_ tm ∧
     durable_len (file (wal_ tm')) = length (content (file (wal_ tm'))) ∧
     Forall (λ r, ∃ v, Get (store_ tm) (re_table_id r) (re_key r) cts = inr (v, observed_write_ts r))
       (read_set txn)) ∧
  (st = TM.conflict → txns_ tm' = delete t (txns_ tm) ∧
     lock_mgr_ tm' = ReleaseAll (lock_mgr_ tm) t).
Proof.
  unfold TM.Prepare in Hp. destruct (txns_ tm !! t) as [txn|] eqn:Et; [|by simplify_eq].
  case_bool_decide as Ha; cbn [negb] in Hp; [|by simplify_eq].
  unfold TM.append_sync in Hp. destruct (St.ok (TM.ValidateReadSet tm txn cts)) eqn:Ev.
  - destruct (WAL_AppendSync _ _ PREPARE _) as [w ws] eqn:Ew. simpl in Hp.
    destruct (St.ok ws) eqn:Eo; simpl in Hp; simplify_eq/=.
    + split; [done|]. split; [|done]. intros _. exists txn. split_and!; try done.
      * by eapply WAL_AppendSync_durable.
      * by apply validate_ok.
    + split; [done|]. split; [intros ->; done|]. intros ->. 
      apply (f_equal fst) in Ew as Ew'. clear -Ew. exfalso. revert Ew.
      unfold WAL_AppendSync, WAL_Append, WriteRecord, QueueSync, run_syncs, WAL_Sync, DurableFileSync.
      intros Ew. repeat case_match; simplify_eq/=.
  - destruct (WAL_AppendSync _ _ ABORT _) as [w ws]. simplify_eq/=. split_and!; done.
Qed.

Lemma Prepare_validates_witness :
  TM.Prepare demo_tm1 1 8 = (demo_tm2, St.OK) ∧ store_ demo_tm2 = store_ demo_tm1.
Proof.
  assert (TM.Prepare demo_tm1 1 8 = (demo_tm2, St.OK)) as E.
  { rewrite (surjective_pairing (TM.Prepare demo_tm1 1 8)).
    replace (TM.Prepare demo_tm1 1 8).2 with St.OK by (vm_compute; reflexivity). reflexivity. }
  split; [exact E|]. apply (Prepare_validates demo_tm1 demo_tm2 1 8 St.OK E).
Defined.

(** The effect of a successful [Write] or [Delete]. *)
Lemma write_acquired_ok {DB} `{RocksDB DB} `{GroupCommit} (tm tm' : TxnManager DB) acq t w :
  TM.write_acquired tm acq t w = (tm', St.OK) →
  ∃ txn, txns_ tm !! t = Some txn ∧ state txn = ACTIVE ∧ store_ tm' = store_ tm ∧
    txns_ tm' = <[t := TM.buffer txn w]> (txns_ tm) ∧ lock_mgr_ tm' = lock_mgr_ tm.
Proof.
  unfold TM.write_acquired. destruct (St.ok acq) eqn:Ea; cbn [negb];
    [|intros [= _ Eacq]; by rewrite Eacq in Ea].
  unfold TM.buffer_write. destruct (txns_ tm !! t) as [txn|]; [|by intros [= ?]].
  case_bool_decide as Ha; cbn [negb]; [|by intros [= ?]]. intros [= <-]. exists txn.
  destruct (log_write_frame tm t w) as (Hst & Hl & Htx & _).
  split_and!; try done; cbn [store_ lock_mgr_ txns_ TM.set_txns]. by rewrite Htx.
Qed.

(** What an active transaction reads, as a function of its write set, the store
    and its snapshot. *)
Definition read_result {DB} `{RocksDB DB} (db : DB) (txn : Transaction) (tid : Z) (key : bytes) :
    result bytes :=
  match LatestBuffered (write_set txn) tid key with
  | Some w => if is_delete w then inl (St.NotFound "") else inr (bw_value w)
  | None => match Get db tid key (snapshot_ts txn) with inl st => inl st | inr (v, _) => inr v end
  end.

Lemma Read_active {DB} `{RocksDB DB} (tm : TxnManager DB) t txn tid key :
  txns_ tm !! t = Some txn → state txn = ACTIVE →
  (TM.Read tm t tid key).2 = read_result (store_ tm) txn tid key.
Proof.
  intros Ht Ha. unfold TM.Read, read_result. rewrite Ht, bool_decide_true by done. cbn [negb].
  destruct (LatestBuffered _ _ _) as [w|]; [by destruct (is_delete w)|].
  by destruct (Get _ _ _ _) as [st|[v ts]].
Qed.

(** A transaction reads its own writes: after a [Write] that returned OK
    it reads the new value, after a [Delete] that returned OK it does not find
    the row, and what it reads of all other rows does not change. *)
Theorem Read_own_writes {DB : Type} `{RocksDB DB} `{GroupCommit}
    (tm tm' : TxnManager DB) (t tid : Z) (key v : bytes)
    (Hw : TM.Write tm t tid key v = (tm', St.OK) ∨ TM.Delete tm t tid key = (tm', St.OK)) :
  (TM.Write tm t tid key v = (tm', St.OK) → (TM.Read tm' t tid key).2 = inr v) ∧
  (TM.Delete tm t tid key = (tm', St.OK) → (TM.Read tm' t tid key).2 = inl (St.NotFound "")) ∧
  ∀ tid' key', (tid', key') ≠ (tid, key) →
    (TM.Read tm' t tid' key').2 = (TM.Read tm t tid' key').2.
Proof.
  assert (∀ w l acq, TM.write_acquired (TM.set_locks tm l) acq t w = (tm', St.OK) →
    bw_table_id w = tid → bw_key w = key →
    (TM.Read tm' t tid key).2 = (if is_delete w then inl (St.NotFound "") else inr (bw_value w)) ∧
    ∀ tid' key', (tid', key') ≠ (tid, key) →
      (TM.Read tm' t tid' key').2 = (TM.Read tm t tid' key').2) as Hbuf.
  { intros w l acq Hok Etid Ekey.
    destruct (write_acquired_ok _ _ _ _ _ Hok) as (txn & Ht & Ha & Es & Etx & _). simpl in *.
    assert (txns_ tm' !! t = Some (TM.buffer txn w)) as Ht' by (by rewrite Etx, lookup_insert_eq).
    split.
    - rewrite (Read_active tm' t _ _ _ Ht') by done. unfold read_result. simpl.
      by rewrite LatestBuffered_snoc, (proj2 (writes_row_spec tid key w)).
    - intros tid' key' Hne. rewrite (Read_active tm' t _ _ _ Ht'), (Read_active tm t _ _ _ Ht) by done.
      unfold read_result. simpl. rewrite LatestBuffered_snoc, Es.
      destruct (writes_row tid' key' w) eqn:E; [|done].
      apply writes_row_spec in E as [??]. congruence. }
  unfold TM.Write, TM.Delete in *. destruct (Acquire (lock_mgr_ tm) tid key t) as [l acq].
  split; [|split].
  - intros Hok. by apply (Hbuf _ _ _ Hok).
  - intros Hok. by apply (Hbuf _ _ _ Hok).
  - destruct Hw as [Hok|Hok]; by apply (Hbuf _ _ _ Hok).
Qed.

Lemma Read_own_writes_witness :
  (TM.Read (TM.Write (TM.Begin demo_tm0 5).1 1 1 [x61] [x31]).1 1 1 [x61]).2 = inr [x31] ∧
  (TM.Read (TM.Begin demo_tm0 5).1 1 1 [x61]).2 = inr [x30].
Proof.
  split; [|vm_compute; reflexivity].
  assert (TM.Write (TM.Begin demo_tm0 5).1 1 1 [x61] [x31] =
    ((TM.Write (TM.Begin demo_tm0 5).1 1 1 [x61] [x31]).1, St.OK)) as E.
  { rewrite (surjective_pairing (TM.Write _ _ _ _ _)) at 1. f_equal. }
  exact (proj1 (Read_own_writes _ _ 1 1 [x61] [x31] (or_introl E)) E).
Defined.

(** Reads are repeatable: what an active transaction reads does not change
    when another transaction commits with a timestamp after its snapshot. *)
Theorem Read_repeatable {DB : Type} `{RocksDBLaws DB} {HK : KeyUniverse} `{GroupCommit}
    (tm : TxnManager DB) (t u cts : Z) (txn other : Transaction) (tid : Z) (key : bytes)
    (Hrel : rdb_reliable DB)
    (Ht : txns_ tm !! t = Some txn) (Ha : state txn = ACTIVE)
    (Hu : txns_ tm !! u = Some other) (Hp : state other = PREPARED)
    (Hs : is_u64 cts) (Hsnap : snapshot_ts txn < cts) (Hok : pks_ok (write_set other))
    (Hin : store_in (rdb_contents (store_ tm))) (Htid : is_u32 tid) (Hk : pk_ok tid key) :
  (TM.Read (TM.Commit tm u cts).1 t tid key).2 = (TM.Read tm t tid key).2.
Proof.
  destruct (Commit_effect tm u cts other Hu Hp) as [Es Et].
  assert (txns_ (TM.Commit tm u cts).1 !! t = Some txn) as Ht'.
  { rewrite Et, lookup_delete_ne; [done|]. intros ->. congruence. }
  rewrite (Read_active _ t txn), (Read_active tm t txn) by done. unfold read_result. rewrite Es.
  by rewrite (ApplyWrites_unseen Hrel (HK := HK)).
Qed.

(** Transaction 2 starts at snapshot 6 while transaction 1 is prepared at 8. *)
Definition demo_tm3 : TxnManager MemDB := (TM.Begin demo_tm2 6).1.

Lemma Read_repeatable_witness :
  (TM.Read demo_tm3 2 1 [x61]).2 = inr [x30] ∧
  (TM.Read (TM.Commit demo_tm3 1 8).1 2 1 [x61]).2 = (TM.Read demo_tm3 2 1 [x61]).2.
Proof.
  split; [vm_compute; reflexivity|].
  apply (Read_repeatable (HK := fixed_width 1) demo_tm3 2 1 8
           (MkTransaction 2 6 0 ACTIVE [] [] []) demo_txn 1 [x61] MemDB_reliable);
    [vm_compute; reflexivity|reflexivity|vm_compute; reflexivity|reflexivity|done|simpl; lia
    |exact demo_writes_ok| |exact demo_table|reflexivity].
  unfold demo_tm3. rewrite Begin_store, demo_tm2_store. exact demo_store0_in.
Defined.

Lemma scan_loop_elem writes tid rows pk v :
  (pk, v) ∈ (TM.scan_loop writes tid rows).1 ↔
  ∃ mv ts, (pk, mv, ts) ∈ rows ∧
    match LatestBuffered writes tid pk with
    | Some w => is_delete w = false ∧ v = bw_value w
    | None => v = mv
    end.
Proof.
  induction rows as [|[[p mv] ts] rows IH]; simpl.
  - split; [set_solver|]. intros (? & ? & ? & _). set_solver.
  - destruct (TM.scan_loop writes tid rows) as [out reads]. simpl in IH.
    assert ((∃ mv' ts', (pk, mv', ts') ∈ (p, mv, ts) :: rows ∧
        match LatestBuffered writes tid pk with
        | Some w => is_delete w = false ∧ v = bw_value w | None => v = mv' end) ↔
      (pk = p ∧ match LatestBuffered writes tid p with
        | Some w => is_delete w = false ∧ v = bw_value w | None => v = mv end) ∨ (pk, v) ∈ out) as ->.
    { rewrite IH. setoid_rewrite elem_of_cons. split.
      - intros (mv' & ts' & [[= -> -> ->]|Hin] & Hm); [left; auto|right; eauto].
      - intros [[-> Hm]|(mv' & ts' & Hin & Hm)]; eauto 10. }
    destruct (LatestBuffered writes tid p) as [w|].
    + destruct (is_delete w) eqn:Ed; simpl.
      * naive_solver.
      * rewrite elem_of_cons. naive_solver.
    + simpl. rewrite elem_of_cons. naive_solver.
Qed.

Lemma scan_loop_reads writes tid rows r :
  r ∈ (TM.scan_loop writes tid rows).2 ↔
  ∃ pk mv ts, (pk, mv, ts) ∈ rows ∧ LatestBuffered writes tid pk = None ∧ r = MkReadEntry tid pk ts.
Proof.
  induction rows as [|[[p mv] ts] rows IH]; simpl.
  - split; [set_solver|]. intros (? & ? & ? & ? & _). set_solver.
  - destruct (TM.scan_loop writes tid rows) as [out reads]. simpl in IH.
    setoid_rewrite elem_of_cons.
    destruct (LatestBuffered writes tid p) as [w|] eqn:E.
    + destruct (is_delete w); simpl; rewrite IH; naive_solver.
    + simpl. rewrite elem_of_cons, IH. naive_solver.
Qed.

(** A range scan returns, of the stored rows of the range that are visible
    at the transaction's snapshot, each with its stored value or with the value
    the transaction last wrote to it, without the ones it deleted; and it
    records the version of every row it took from the store in the read set. *)
Theorem TM_Scan_correct {DB : Type} `{RocksDBLaws DB} {HK : KeyUniverse}
    (tm : TxnManager DB) (t : Z) (txn : Transaction) (tid : Z) (start end_ : bytes) (open_ : bool)
    (Ht : txns_ tm !! t = Some txn) (Ha : state txn = ACTIVE)
    (Htid : is_u32 tid) (Hin : store_in (rdb_contents (store_ tm))) :
  let in_range pk := bytes_le start pk ∧ (open_ = true ∨ bytes_lt pk end_) in
  let row pk ts mv := in_range pk ∧
    visible (rdb_contents (store_ tm)) tid pk (snapshot_ts txn) ts mv ∧ IsTombstone mv = false in
  ∃ out reads, TM.Scan tm t tid start end_ open_ =
      (TM.set_txns tm (<[t := TM.add_reads txn reads]> (txns_ tm)), inr out) ∧
    (∀ pk v, (pk, v) ∈ out ↔ ∃ ts mv, row pk ts mv ∧
       match LatestBuffered (write_set txn) tid pk with
       | Some w => is_delete w = false ∧ v = bw_value w
       | None => v = mv
       end) ∧
    (∀ r, r ∈ reads ↔ ∃ pk ts mv, row pk ts mv ∧ LatestBuffered (write_set txn) tid pk = None ∧
       r = MkReadEntry tid pk ts).
Proof.
  intros in_range row. unfold TM.Scan. rewrite Ht, bool_decide_true by done. cbn [negb].
  set (rows := rows_of _).
  assert (∀ pk v ts, (pk, v, ts) ∈ rows ↔ row pk ts v) as Hrows.
  { intros pk v ts. unfold rows, row, in_range.
    destruct (Scan_rows (store_ tm) tid start (if open_ then [] else end_)
      (snapshot_ts txn) open_ Htid Hin) as [_ Hr].
    rewrite Hr. unfold scan_range. destruct open_; [|done].
    split; (intros [[? _] ?]; split; [split; [done|by left]|done]). }
  pose proof (scan_loop_elem (write_set txn) tid rows) as Ho.
  pose proof (scan_loop_reads (write_set txn) tid rows) as Hr.
  destruct (TM.scan_loop (write_set txn) tid rows) as [out reads]. simpl in Ho, Hr.
  exists out, reads. split; [done|]. split.
  - intros pk v. rewrite Ho. setoid_rewrite Hrows. split; intros (a & b & ?); by exists b, a.
  - intros r. rewrite Hr. setoid_rewrite Hrows. split; intros (pk & a & b & ?); by exists pk, b, a.
Qed.

Lemma TM_Scan_correct_witness :
  ∃ out reads, TM.Scan demo_tm3 2 1 [] [] true =
    (TM.set_txns demo_tm3 (<[2 := TM.add_reads (MkTransaction 2 6 0 ACTIVE [] [] []) reads]>
       (txns_ demo_tm3)), inr out).
Proof.
  destruct (TM_Scan_correct (HK := fixed_width 1) demo_tm3 2 (MkTransaction 2 6 0 ACTIVE [] [] [])
    1 [] [] true) as (out & reads & E & _);
    [vm_compute; reflexivity|reflexivity|exact demo_table| |exists out, reads; exact E].
  unfold demo_tm3. rewrite Begin_store, demo_tm2_store. exact demo_store0_in.
Defined.

(** A scan does not show rows the transaction itself inserted: a row that
    is only in the write set is found by [Read] and missing in [Scan]. *)
Theorem Scan_misses_own_inserts :
  let tm := (TM.Write (TM.Begin demo_tm0 5).1 1 1 [x62] [x39]).1 in
  (TM.Read tm 1 1 [x62]).2 = inr [x39] ∧
  (TM.Scan tm 1 1 [] [] true).2 = inr [([x61], [x30])].
Proof. split; vm_compute; reflexivity. Qed.

Definition skew0 : TxnManager MemDB :=
  MkTxnManager (Put (Put (∅ : MemDB) 1 [x61] 3 [x30]).1 1 [x62] 3 [x30]).1
    (new_wal []) LockManager_init 1 ∅.
Definition skew_body (tm : TxnManager MemDB) (t : Z) (r w v : bytes) :
    TxnManager MemDB * result bytes :=
  let '(tm, x) := TM.Read tm t 1 r in ((TM.Write tm t 1 w v).1, x).

(** Validated transactions are not serializable: write skew. Two
    transactions with the same snapshot each read the row the other one
    overwrites; both prepare and both commit, because validation looks at
    committed versions only and not at the locks or the prepared writes of
    others. Run one after the other, in either order, the second one reads the
    first one's write. *)
Theorem prepare_allows_write_skew :
  let tm := (TM.Begin (TM.Begin skew0 5).1 5).1 in
  let '(tm, x1) := skew_body tm 1 [x62] [x61] [x31] in
  let '(tm, x2) := skew_body tm 2 [x61] [x62] [x32] in
  let '(tm, p1) := TM.Prepare tm 1 8 in
  let '(tm, p2) := TM.Prepare tm 2 9 in
  let '(tm, c1) := TM.Commit tm 1 8 in
  let '(tm, c2) := TM.Commit tm 2 9 in
  let serial t1 r1 w1 v1 r2 :=
    let '(s, _) := skew_body (TM.Begin skew0 5).1 t1 r1 w1 v1 in
    let s := (TM.CommitSingleShard s t1 8).1 in
    (TM.Read (TM.Begin s 8).1 2 1 r2).2 in
  x1 = inr [x30] ∧ x2 = inr [x30] ∧ p1 = St.OK ∧ p2 = St.OK ∧ c1 = St.OK ∧ c2 = St.OK ∧
  serial 1 [x62] [x61] [x31] [x61] = inr [x31] ∧ serial 1 [x61] [x62] [x32] [x62] = inr [x32].
Proof. vm_compute. split_and!; reflexivity. Qed.
