(* ===== verification/TxnLocks.v ===== *)
(** * Row locks and transactions together

    Concurrent transactions on one shard: the manager of TxnManager.v with
    callers that block inside [LockManager::Acquire]. The invariant ties the
    write sets of the live transactions to the lock table. *)
From Stdlib Require Import Strings.Byte.
From stdpp Require Import base gmap sets list strings.
From Stdlib Require Import ZArith Lia.
From S2P Require Import Prelude Status KeyEncoding RocksDB MVCCStore MVCCIterator.
From S2P Require Import LockManager GroupCommit LogFile Wal TxnManager.
Local Open Scope Z_scope.

Definition row_lock (w : BufferedWrite) : bytes := MakeLockKey (bw_table_id w) (bw_key w).

(** [blocked] maps a transaction that sleeps in the [Acquire] of a [Write] or
    [Delete] to the write it wants to buffer; [imports] has the transactions that
    were installed by [ImportPreparedTxn], which takes no locks. *)
Record TxnSys (DB : Type) := MkTxnSys {
  mgr : TxnManager DB;
  blocked : gmap Z BufferedWrite;
  imports : gset Z;
}.
Arguments MkTxnSys {DB}.
Arguments mgr {DB}.
Arguments blocked {DB}.
Arguments imports {DB}.

Section system.
Context `{RocksDB DB} `{GroupCommit}.
Implicit Types (s : TxnSys DB) (t : Z) (w : BufferedWrite).

(** The transaction is not prepared: the protocol sends no write after the
    prepare request. *)
Definition may_write (tm : TxnManager DB) t : Prop :=
  ∀ txn, txns_ tm !! t = Some txn → state txn = ACTIVE.

(** The arguments are in the range of their C++ types, and the log record of the
    write is below the 4 GB its length field can hold. *)
Definition write_fits (w : BufferedWrite) : Prop :=
  is_u32 (bw_table_id w) ∧ is_u32 (Z.of_nat (length (bw_key w) + length (bw_value w)) + 64) ∧
  (is_delete w = true → bw_value w = []).

(** The callers of the manager. Assumed of them: a transaction has one request under
    way at a time as long as one of its writes sleeps, and it is sent no write after
    its prepare request ([late_write_drops_locks] below shows why the code needs
    that). *)
Inductive txn_step : TxnSys DB → TxnSys DB → Prop :=
  | ts_begin s snap : is_u64 snap → txn_step s (MkTxnSys (TM.Begin (mgr s) snap).1 (blocked s) (imports s))
  | ts_read s t tid key :
      txn_step s (MkTxnSys (TM.Read (mgr s) t tid key).1 (blocked s) (imports s))
  | ts_scan s t tid a b o :
      txn_step s (MkTxnSys (TM.Scan (mgr s) t tid a b o).1 (blocked s) (imports s))
  | ts_write s t w l :
      t ≠ 0 → blocked s !! t = None → may_write (mgr s) t → write_fits w →
      Acquire_enter (lock_mgr_ (mgr s)) (row_lock w) t = (l, Some St.OK) →
      txn_step s (MkTxnSys (TM.write_acquired (TM.set_locks (mgr s) l) St.OK t w).1 (blocked s) (imports s))
  | ts_block s t w l :
      t ≠ 0 → blocked s !! t = None → may_write (mgr s) t → write_fits w →
      Acquire_enter (lock_mgr_ (mgr s)) (row_lock w) t = (l, None) →
      txn_step s (MkTxnSys (TM.set_locks (mgr s) l) (<[t := w]> (blocked s)) (imports s))
  | ts_wake s t w l :
      blocked s !! t = Some w →
      Acquire_wake (lock_mgr_ (mgr s)) (row_lock w) t = (l, Some St.OK) →
      txn_step s (MkTxnSys (TM.write_acquired (TM.set_locks (mgr s) l) St.OK t w).1
                    (delete t (blocked s)) (imports s))
  | ts_timeout s t w l st :
      blocked s !! t = Some w →
      Acquire_timeout (lock_mgr_ (mgr s)) (row_lock w) t = (l, st) →
      txn_step s (MkTxnSys (TM.write_acquired (TM.set_locks (mgr s) l) st t w).1
                    (delete t (blocked s)) (imports s))
  | ts_prepare s t cts :
      is_u64 cts → blocked s !! t = None → txn_step s (MkTxnSys (TM.Prepare (mgr s) t cts).1 (blocked s) (imports s))
  | ts_commit s t cts : is_u64 cts → txn_step s (MkTxnSys (TM.Commit (mgr s) t cts).1 (blocked s) (imports s))
  | ts_abort s t : txn_step s (MkTxnSys (TM.Abort (mgr s) t).1 (blocked s) (imports s))
  | ts_import s snap cts ws :
      is_u64 snap → is_u64 cts → Forall write_fits ws →
      txn_step s (MkTxnSys (TM.ImportPreparedTxn (mgr s) snap cts ws).1 (blocked s) ({[next_txn_id_ (mgr s)]} ∪ imports s)).

Definition TxnSys_init (db : DB) (ios : list Io) : TxnSys DB :=
  MkTxnSys (MkTxnManager db (new_wal ios) LockManager_init 1 ∅) ∅ ∅.

Inductive txn_steps : nat → TxnSys DB → TxnSys DB → Prop :=
  | txn_refl s : txn_steps 0 s s
  | txn_next n s1 s2 s3 : txn_steps n s1 s2 → txn_step s2 s3 → txn_steps (S n) s1 s3.

(** ** Invariant *)

Record txn_inv (n : Z) s : Prop := {
  ti_locks : lock_inv n (lock_mgr_ (mgr s)) (row_lock <$> blocked s) [];
  ti_held t txn w : txns_ (mgr s) !! t = Some txn → t ∉ imports s → w ∈ write_set txn →
    row_lock w ∈ held_of (lock_mgr_ (mgr s)) t;
  ti_ids t txn : txns_ (mgr s) !! t = Some txn → t ≠ 0;
  ti_blocked t w : blocked s !! t = Some w → t ≠ 0 ∧ (t ∉ imports s → may_write (mgr s) t);
  ti_next : 1 ≤ next_txn_id_ (mgr s) ≤ n + 1;
}.

Lemma held_of_ReleaseAll lm t u : u ≠ t → held_of (ReleaseAll lm t) u = held_of lm u.
Proof.
  intros Hne. unfold ReleaseAll, ReleaseAll_take.
  assert (∀ ks l, held_of (ReleaseAll_drop l t ks) u = held_of l u) as Hd.
  { intros ks. induction ks as [|k ks IH]; intros l; simpl; [done|]. rewrite IH.
    unfold ReleaseAll_one. crush_cases. unfold held_of. by rewrite ReleaseInternal_txn_locks. }
  destruct (txn_locks_ lm !! t) as [ks|]; rewrite Hd; [|done].
  unfold held_of. simpl. by rewrite lookup_delete_ne.
Qed.

Lemma ReleaseAll_inv n lm W t : 0 ≤ n → t ≠ 0 → lock_inv n lm W [] → lock_inv n (ReleaseAll lm t) W [].
Proof.
  intros Hn Ht Hi. unfold ReleaseAll. destruct (ReleaseAll_take lm t) as [l ks] eqn:E.
  apply ReleaseAll_drop_inv; [done..|]. by apply (ReleaseAll_take_inv n lm W [] t l ks).
Qed.

(** A step that ends transaction [t]: it leaves the table and drops its locks. *)
Lemma txn_inv_end n s tm' t :
  0 ≤ n → txn_inv n s → t ≠ 0 →
  txns_ tm' = delete t (txns_ (mgr s)) → lock_mgr_ tm' = ReleaseAll (lock_mgr_ (mgr s)) t →
  next_txn_id_ tm' = next_txn_id_ (mgr s) → txn_inv n (MkTxnSys tm' (blocked s) (imports s)).
Proof.
  intros Hn Hi Ht Etx El Eid. split; cbn [mgr blocked imports].
  - rewrite El. apply ReleaseAll_inv; [done..|]. apply Hi.
  - intros u txn w. rewrite Etx, El. intros [Hne Hu]%lookup_delete_Some HI Hw.
    rewrite held_of_ReleaseAll by done. by eapply ti_held.
  - intros u txn. rewrite Etx. intros [_ Hu]%lookup_delete_Some. by eapply ti_ids.
  - intros u w Hu. destruct (ti_blocked _ _ Hi u w Hu) as [Hz Hm]. split; [done|].
    intros HI txn. rewrite Etx. intros [_ Hu']%lookup_delete_Some. by apply Hm.
  - rewrite Eid. apply Hi.
Qed.

(** A step that leaves locks alone and only touches the read side or the state
    of one transaction. *)
Lemma txn_inv_update n s tm' t txn txn' :
  txn_inv n s → txns_ (mgr s) !! t = Some txn → txns_ tm' = <[t := txn']> (txns_ (mgr s)) →
  write_set txn' = write_set txn → lock_mgr_ tm' = lock_mgr_ (mgr s) →
  next_txn_id_ tm' = next_txn_id_ (mgr s) → (state txn' = ACTIVE ∨ blocked s !! t = None) →
  txn_inv n (MkTxnSys tm' (blocked s) (imports s)).
Proof.
  intros Hi Ht Etx Ew El Eid Hst. split; cbn [mgr blocked imports].
  - rewrite El. apply Hi.
  - intros u x w. rewrite Etx, El. intros [[<- <-]|[Hne Hu]]%lookup_insert_Some.
    + rewrite Ew. by eapply ti_held.
    + by eapply ti_held.
  - intros u x. rewrite Etx. intros [[<- <-]|[Hne Hu]]%lookup_insert_Some; by eapply ti_ids.
  - intros u w Hu. destruct (ti_blocked _ _ Hi u w Hu) as [Hz Hm]. split; [done|].
    intros HI x. rewrite Etx. intros [[<- <-]|[Hne Hu']]%lookup_insert_Some; [|by apply Hm].
    destruct Hst; [done|congruence].
  - rewrite Eid. apply Hi.
Qed.

Lemma Abort_inv n tm B I t : 0 ≤ n → txn_inv n (MkTxnSys tm B I) →
  txn_inv n (MkTxnSys (TM.Abort tm t).1 B I).
Proof.
  intros Hn Hi. unfold TM.Abort, TM.append_sync. destruct (txns_ tm !! t) as [txn|] eqn:Et; [|done].
  destruct (WAL_AppendSync _ _ _ _) as [w st].
  apply (txn_inv_end n (MkTxnSys tm B I) _ t); try done. by eapply (ti_ids _ _ Hi).
Qed.

(** A write whose lock was just recorded for [t]. *)
Lemma write_acquired_inv n tm B I t w :
  0 ≤ n → txn_inv n (MkTxnSys tm B I) → t ≠ 0 → (t ∉ I → may_write tm t) → row_lock w ∈ held_of (lock_mgr_ tm) t →
  txn_inv n (MkTxnSys (TM.write_acquired tm St.OK t w).1 B I).
Proof.
  intros Hn Hi Ht Hm Hh. unfold TM.write_acquired. rewrite St_ok_OK. cbn [negb].
  unfold TM.buffer_write. destruct (txns_ tm !! t) as [txn|] eqn:Et; [case_bool_decide as Hst; cbn [negb fst]|].
  - destruct (log_write_frame tm t w) as (_ & El & Etx & Eid). split; cbn.
    + rewrite El. apply Hi.
    + intros u x w'. rewrite Etx, El.
      intros [[<- <-]|[Hne Hu]]%lookup_insert_Some HI; [|by eapply (ti_held _ _ Hi)].
      cbn. intros [Hw| ->%list_elem_of_singleton]%elem_of_app; [by eapply (ti_held _ _ Hi)|done].
    + intros u x. rewrite Etx.
      intros [[<- <-]|[Hne Hu]]%lookup_insert_Some; by eapply (ti_ids _ _ Hi).
    + intros u w' Hu. destruct (ti_blocked _ _ Hi u w' Hu) as [Hz Hmu]. split; [done|].
      intros HI x. cbn. rewrite Etx.
      intros [[<- <-]|[Hne Hu']]%lookup_insert_Some; [exact Hst|by apply Hmu].
    + rewrite Eid. apply (ti_next _ _ Hi).
  - assert (t ∈ I) as HtI by (destruct (decide (t ∈ I)) as [|HI]; [done|]; by apply (Hm HI) in Et).
    destruct Hi as [Hl Hhe Hid Hb Hnx]. split; cbn in *; try done; [by apply ReleaseAll_inv|].
    intros u x w' Hu HI Hw'. rewrite held_of_ReleaseAll by (by intros ->). by eapply Hhe.
  - apply (txn_inv_end n (MkTxnSys tm B I) _ t); try done. cbn. by rewrite delete_id.
Qed.

(** Locking steps keep the rest of the invariant. *)
Lemma txn_inv_relock n m s l B :
  txn_inv n s → n ≤ m → lock_inv m l (row_lock <$> B) [] →
  (∀ t lk, lk ∈ held_of (lock_mgr_ (mgr s)) t → lk ∈ held_of l t) →
  (∀ t w, B !! t = Some w → t ≠ 0 ∧ (t ∉ imports s → may_write (mgr s) t)) →
  txn_inv m (MkTxnSys (TM.set_locks (mgr s) l) B (imports s)).
Proof.
  intros Hi Hnm Hl Hh HB. split; cbn; auto.
  - intros t txn w Ht HI Hw. apply Hh. by eapply ti_held.
  - intros t txn. apply Hi.
  - pose proof (ti_next _ _ Hi). lia.
Qed.

Lemma held_of_push_elem lm t lk u lk' : lk' ∈ held_of lm u → lk' ∈ held_of (push_held lm t lk) u.
Proof. rewrite held_of_push. case_decide; [subst; set_solver|done]. Qed.

Lemma held_of_push_new lm t lk : lk ∈ held_of (push_held lm t lk) t.
Proof. rewrite held_of_push, decide_True by done. set_solver. Qed.

Lemma Acquire_enter_held lm lk t l r : Acquire_enter lm lk t = (l, r) →
  (∀ u lk', lk' ∈ held_of lm u → lk' ∈ held_of l u) ∧ (r = Some St.OK → lk ∈ held_of l t).
Proof.
  unfold Acquire_enter. destruct (_ =? t); [|destruct (_ =? 0)]; intros [= <- <-];
    (split; [intros u lk' Hl; try by apply held_of_push_elem|]); try done;
    intros _; apply held_of_push_new.
Qed.

Lemma Acquire_wake_held lm lk t l : Acquire_wake lm lk t = (l, Some St.OK) → l = push_held lm t lk.
Proof. unfold Acquire_wake. destruct (_ && _); intros [= <-]; done. Qed.

Lemma Acquire_timeout_held lm lk t l st : Acquire_timeout lm lk t = (l, st) →
  (st = St.OK ∧ l = push_held lm t lk) ∨ (St.ok st = false ∧ ∀ u, held_of l u = held_of lm u).
Proof. unfold Acquire_timeout. destruct (_ && _); intros [= <- <-]; [by left|by right]. Qed.

Lemma blocked_delete (B : gmap Z BufferedWrite) t :
  row_lock <$> delete t B = delete t (row_lock <$> B).
Proof. apply fmap_delete. Qed.

Lemma txn_inv_weaken n m s : n ≤ m → txn_inv n s → txn_inv m s.
Proof.
  intros Hnm [Hl Hh Hi Hb Hn]. split; auto; [|lia]. by eapply lock_inv_weaken.
Qed.

(** The lock was granted to a sleeper: record it and go on with the write. *)
Lemma granted_inv n s t w :
  0 ≤ n → txn_inv n s → blocked s !! t = Some w →
  lock_inv n (push_held (lock_mgr_ (mgr s)) t (row_lock w)) (delete t (row_lock <$> blocked s)) [] →
  txn_inv n (MkTxnSys (TM.write_acquired
    (TM.set_locks (mgr s) (push_held (lock_mgr_ (mgr s)) t (row_lock w))) St.OK t w).1
    (delete t (blocked s)) (imports s)).
Proof.
  intros Hn Hi Hb Hl. destruct (ti_blocked _ _ Hi t w Hb) as [Ht Hm].
  apply write_acquired_inv; try done.
  - eapply (txn_inv_relock n n); [done|lia| | |].
    + by rewrite blocked_delete.
    + intros u lk. apply held_of_push_elem.
    + intros u w' [_ Hu]%lookup_delete_Some. by eapply ti_blocked.
  - apply held_of_push_new.
Qed.

(** What an import does besides logging. *)
Lemma log_writes_frame (tm : TxnManager DB) t ws : let tm' := foldl (λ tm w, TM.log_write tm t w) tm ws in
  store_ tm' = store_ tm ∧ lock_mgr_ tm' = lock_mgr_ tm ∧ txns_ tm' = txns_ tm ∧ next_txn_id_ tm' = next_txn_id_ tm.
Proof.
  revert tm. induction ws as [|w ws IH]; intros tm; cbn; [done|]. destruct (log_write_frame tm t w) as (E1 & E2 & E3 & E4).
  destruct (IH (TM.log_write tm t w)) as (-> & -> & -> & ->). done.
Qed.
Lemma import_frame (tm : TxnManager DB) snap cts ws : let tm' := (TM.ImportPreparedTxn tm snap cts ws).1 in
  lock_mgr_ tm' = lock_mgr_ tm ∧ next_txn_id_ tm' = u64 (next_txn_id_ tm + 1) ∧
  txns_ tm' = <[next_txn_id_ tm := MkTransaction (next_txn_id_ tm) snap cts PREPARED ws [] []]> (txns_ tm).
Proof.
  unfold TM.ImportPreparedTxn, TM.take_txn_id, TM.append, TM.append_sync. cbn [wal_].
  destruct (WAL_Append _ _ _ _) as [w st]. set (tm1 := TM.set_wal _ _).
  destruct (log_writes_frame tm1 (next_txn_id_ tm) ws) as (_ & El & Et & En).
  destruct (WAL_AppendSync _ _ _ _) as [w' st']. cbn. rewrite El, Et, En. done.
Qed.

Lemma txn_step_inv n s s' :
  0 ≤ n < UINT32_MAX → txn_inv n s → txn_step s s' → txn_inv (n + 1) s'.
Proof.
  intros [Hn Hmax] Hi Hstep.
  assert (∀ s, txn_inv n s → txn_inv (n + 1) s) as Hmono
    by (intros; eapply txn_inv_weaken; [|done]; lia).
  destruct Hstep as [s snap Hsn|s t tid key|s t tid a b o|s t w l Ht Hb Hm Hwf E|s t w l Ht Hb Hm Hwf E
    |s t w l Hb E|s t w l st Hb E|s t cts Hc Hb|s t cts Hc|s t|s snap cts ws Hsn Hc Hws].
  - (* Begin *) destruct Hi as [Hl Hh Hid Hbl Hnx]. split; cbn.
    + eapply lock_inv_weaken; [|done]. lia.
    + intros u x w [[<- <-]|[Hne Hu]]%lookup_insert_Some; [set_solver|by eapply Hh].
    + intros u x [[<- <-]|[Hne Hu]]%lookup_insert_Some; [lia|by eapply Hid].
    + intros u w Hu. destruct (Hbl u w Hu) as [Hz Hm]. split; [done|].
      intros HI x. cbn. intros [[<- <-]|[Hne Hu']]%lookup_insert_Some; [done|by apply Hm].
    + unfold u64, UINT32_MAX in *. rewrite Z.mod_small by lia. lia.
  - (* Read *) apply Hmono. unfold TM.Read. destruct (txns_ (mgr s) !! t) as [txn|] eqn:Et; [|by destruct s].
    case_bool_decide as Ha; [|by destruct s]. cbn [negb].
    destruct (LatestBuffered _ _ _) as [w|]; [destruct (is_delete w); by destruct s|].
    destruct (Get _ _ _ _) as [st|[v ts]]; [by destruct s|].
    eapply txn_inv_update; eauto; done.
  - (* Scan *) apply Hmono. unfold TM.Scan. destruct (txns_ (mgr s) !! t) as [txn|] eqn:Et; [|by destruct s].
    case_bool_decide as Ha; [|by destruct s]. cbn [negb].
    destruct (TM.scan_loop _ _ _) as [out reads]. eapply txn_inv_update; eauto; done.
  - (* Write, lock free *)
    destruct (Acquire_enter_held _ _ _ _ _ E) as [Hheld Hnew].
    assert ((row_lock <$> blocked s) !! t = None) as HW by (by rewrite lookup_fmap, Hb).
    destruct (Acquire_enter_inv n Hn Hmax _ _ _ _ _ _ _ (ti_locks _ _ Hi) Ht HW E)
      as [[_ Hl]|[? _]]; [|done].
    apply write_acquired_inv; try done; [lia| |by apply Hnew].
    eapply txn_inv_relock; [done|lia|done|done|]. intros u w'. by apply Hi.
  - (* Write, has to wait *)
    destruct (Acquire_enter_held _ _ _ _ _ E) as [Hheld _].
    assert ((row_lock <$> blocked s) !! t = None) as HW by (by rewrite lookup_fmap, Hb).
    destruct (Acquire_enter_inv n Hn Hmax _ _ _ _ _ _ _ (ti_locks _ _ Hi) Ht HW E)
      as [[? _]|[_ Hl]]; [done|].
    eapply txn_inv_relock; [done|lia| |done|].
    + by rewrite fmap_insert.
    + intros u w' [[<- <-]|[Hne Hu]]%lookup_insert_Some; [done|by eapply ti_blocked].
  - (* woken up *)
    apply Hmono. rewrite (Acquire_wake_held _ _ _ _ E). apply granted_inv; [done..|].
    rewrite <- (Acquire_wake_held _ _ _ _ E).
    eapply Acquire_wake_inv; [apply Hi| |done]. by rewrite lookup_fmap, Hb.
  - (* timed out *)
    apply Hmono.
    assert (lock_inv n l (delete t (row_lock <$> blocked s)) []) as Hl.
    { eapply Acquire_timeout_inv; [apply Hi| |done]. by rewrite lookup_fmap, Hb. }
    destruct (Acquire_timeout_held _ _ _ _ _ E) as [[-> ->]|[Hst Hheld]].
    + by apply granted_inv.
    + unfold TM.write_acquired. rewrite Hst. cbn [negb fst].
      apply Abort_inv; [done|].
      eapply (txn_inv_relock n n); [done|lia| | |].
      * by rewrite blocked_delete.
      * intros u lk. by rewrite Hheld.
      * intros u w' [_ Hu]%lookup_delete_Some. by eapply ti_blocked.
  - (* Prepare *) apply Hmono. unfold TM.Prepare, TM.append_sync.
    destruct (txns_ (mgr s) !! t) as [txn|] eqn:Et; [|by destruct s].
    case_bool_decide as Ha; [|by destruct s]. cbn [negb]. destruct (St.ok _).
    + destruct (WAL_AppendSync _ _ _ _) as [w st]. destruct (St.ok st); cbn [negb fst].
      * eapply txn_inv_update; eauto; done.
      * destruct Hi as [Hl Hh Hid Hbl Hnx]. by split.
    + destruct (WAL_AppendSync _ _ _ _) as [w st]. eapply txn_inv_end; eauto; by eapply ti_ids.
  - (* Commit *) apply Hmono. unfold TM.Commit, TM.append_sync.
    destruct (txns_ (mgr s) !! t) as [txn|] eqn:Et; [|by destruct s].
    case_bool_decide as Ha; [|by destruct s]. cbn [negb].
    destruct (WAL_AppendSync _ _ _ _) as [w st]. destruct (St.ok st); cbn [negb fst].
    + eapply txn_inv_end; eauto; by eapply ti_ids.
    + destruct Hi as [Hl Hh Hid Hbl Hnx]. split; cbn; try done.
      * intros u x w' [_ Hu]%lookup_delete_Some HI. by eapply Hh.
      * intros u x [_ Hu]%lookup_delete_Some. by eapply Hid.
      * intros u w' Hu. destruct (Hbl u w' Hu) as [Hz Hm]. split; [done|].
        intros HI x. cbn. intros [_ Hx]%lookup_delete_Some. by apply Hm.
  - (* Abort *) apply Hmono, Abort_inv; [done|]. by destruct s.
  - (* Import *) destruct (import_frame (mgr s) snap cts ws) as (El & Eid & Etx). destruct Hi as [Hl Hh Hid Hbl Hnx]. split; cbn [mgr blocked imports].
    + rewrite El. eapply lock_inv_weaken; [|done]. lia.
    + intros u x w. rewrite Etx, El. intros [[<- <-]|[Hne Hu]]%lookup_insert_Some HI; [set_solver|]. apply (Hh u x w Hu). set_solver.
    + intros u x. rewrite Etx. intros [[<- <-]|[Hne Hu]]%lookup_insert_Some; [lia|by eapply Hid].
    + intros u w Hu. destruct (Hbl u w Hu) as [Hz Hm]. split; [done|]. intros HI x. rewrite Etx.
      intros [[<- <-]|[Hne Hu']]%lookup_insert_Some; [set_solver|]. apply Hm; [set_solver|exact Hu'].
    + rewrite Eid. unfold u64, UINT32_MAX in *. rewrite Z.mod_small by lia. lia.
Qed.

Lemma txn_steps_inv n db ios s : txn_steps n (TxnSys_init db ios) s → Z.of_nat n ≤ UINT32_MAX →
  txn_inv (Z.of_nat n) s.
Proof.
  remember (TxnSys_init db ios) as s0 eqn:E0.
  induction 1 as [s|n s1 s2 s3 Hs IH Hstep]; intros Hn; subst.
  - split; cbn; try done; try lia.
    intros lk. eapply lock_ok_ext; [| | |apply (lock_ok_init 0)]; try done.
  - replace (Z.of_nat (S n)) with (Z.of_nat n + 1) by lia.
    eapply txn_step_inv; [|apply IH|done]; [lia|done|lia].
Qed.

(** Rows in the write sets of two live transactions that were begun here. *)
Lemma txn_inv_disjoint n s t u x y wx wy :
  txn_inv n s → txns_ (mgr s) !! t = Some x → txns_ (mgr s) !! u = Some y → t ∉ imports s → u ∉ imports s →
  wx ∈ write_set x → wy ∈ write_set y →
  (bw_table_id wx, bw_key wx) = (bw_table_id wy, bw_key wy) →
  t = u ∧ ∃ e, locks_ (lock_mgr_ (mgr s)) !! row_lock wx = Some e ∧ owner e = t.
Proof.
  intros Hi Hx Hy Hti Hui Hwx Hwy Hrow.
  pose proof (ti_held _ _ Hi t x wx Hx Hti Hwx) as Ht. pose proof (ti_held _ _ Hi u y wy Hy Hui Hwy) as Hu.
  assert (row_lock wy = row_lock wx) as E by (unfold row_lock; congruence). rewrite E in Hu.
  pose proof (ti_locks _ _ Hi (row_lock wx)) as Hok.
  assert (∀ v, v ≠ 0 → row_lock wx ∈ held_of (lock_mgr_ (mgr s)) v →
    owner (default free_entry (locks_ (lock_mgr_ (mgr s)) !! row_lock wx)) = v) as Hown.
  { intros v Hv Hin. apply (lock_ok_owner _ _ _ _ _ Hok Hv). unfold recorded.
    apply cnt_elem_of in Hin. lia. }
  pose proof (Hown t (ti_ids _ _ Hi t x Hx) Ht) as Ot.
  pose proof (Hown u (ti_ids _ _ Hi u y Hy) Hu) as Ou. split; [congruence|].
  destruct (lock_ok_owned _ _ _ _ Hok) as (e & Ee & _); [rewrite Ot; by eapply ti_ids|].
  exists e. split; [done|]. by rewrite Ee in Ot.
Qed.
End system.

(** ** Properties *)

#[local] Existing Instance default_group_commit.

(** C24. Writers exclude each other. Take any interleaving of the operations of the
    manager of a shard, including callers that block, time out or are woken up and
    prepared transactions that are imported from the leader: no row is in the write
    sets of two live transactions that were begun here, and such a row is locked by
    its transaction from the moment it is buffered until the transaction ends.
    (Imported transactions take no locks and are not covered. Assumed of the callers:
    no request of a transaction beside a write that sleeps, other than reads, commit
    and abort, no write after its prepare request, fewer than 2^32 operations.) *)
Theorem write_sets_disjoint {DB : Type} `{RocksDB DB} `{GroupCommit}
    (n : nat) (db : DB) (ios : list Io) (s : TxnSys DB) (t u : Z) (x y : Transaction)
    (wx wy : BufferedWrite)
    (Hrun : txn_steps n (TxnSys_init db ios) s) (Hn : Z.of_nat n ≤ UINT32_MAX)
    (Hx : txns_ (mgr s) !! t = Some x) (Hy : txns_ (mgr s) !! u = Some y)
    (Hti : t ∉ imports s) (Hui : u ∉ imports s)
    (Hwx : wx ∈ write_set x) (Hwy : wy ∈ write_set y)
    (Hrow : (bw_table_id wx, bw_key wx) = (bw_table_id wy, bw_key wy)) :
  t = u ∧ ∃ e, locks_ (lock_mgr_ (mgr s)) !! row_lock wx = Some e ∧ owner e = t.
Proof. eapply txn_inv_disjoint; eauto using txn_steps_inv. Qed.

(** One transaction writes a row, a second one blocks on it. *)
Definition lock_demo_w : BufferedWrite := MkBufferedWrite 1 [x61] [x31] false.
Definition lock_demo1 : TxnSys MemDB := MkTxnSys (TM.Begin (mgr (TxnSys_init ∅ [])) 5).1 ∅ ∅.
Definition lock_demo2 : TxnSys MemDB :=
  MkTxnSys (TM.write_acquired (TM.set_locks (mgr lock_demo1)
    (Acquire_enter (lock_mgr_ (mgr lock_demo1)) (row_lock lock_demo_w) 1).1) St.OK 1 lock_demo_w).1 ∅ ∅.

Lemma lock_demo_run : txn_steps 2 (TxnSys_init (∅ : MemDB) []) lock_demo2.
Proof.
  apply (txn_next 1 _ lock_demo1).
  - apply (txn_next 0 _ (TxnSys_init ∅ [])); [constructor|]. apply (ts_begin (TxnSys_init ∅ []) 5). done.
  - apply (ts_write lock_demo1 1 lock_demo_w); [done|reflexivity| |split_and!; done|reflexivity].
    intros txn. vm_compute. by intros [= <-].
Defined.

Lemma write_sets_disjoint_witness :
  ∃ e, locks_ (lock_mgr_ (mgr lock_demo2)) !! row_lock lock_demo_w = Some e ∧ owner e = 1.
Proof.
  refine (proj2 (write_sets_disjoint 2 ∅ [] lock_demo2 1 1
    (MkTransaction 1 5 0 ACTIVE [lock_demo_w] [] [(1, [x61])])
    (MkTransaction 1 5 0 ACTIVE [lock_demo_w] [] [(1, [x61])]) lock_demo_w lock_demo_w
    lock_demo_run _ _ _ _ _ _ _ eq_refl)); try (vm_compute; reflexivity).
  - vm_compute. discriminate.
  - apply not_elem_of_empty.
  - apply not_elem_of_empty.
  - left.
  - left.
Defined.

(** A write sent to a prepared transaction breaks its isolation: it is
    rejected, but on the way out all locks of the prepared transaction are
    released, so that a second transaction can write the same row and prepare
    too. *)
Theorem late_write_drops_locks :
  let tm := (TM.Write (TM.Begin demo_tm0 5).1 1 1 [x61] [x31]).1 in
  let '(tm, p1) := TM.Prepare tm 1 8 in
  let '(tm, w1) := TM.Write tm 1 1 [x62] [x31] in
  let tm := (TM.Begin tm 5).1 in
  let '(tm, w2) := TM.Write tm 2 1 [x61] [x32] in
  let '(tm, p2) := TM.Prepare tm 2 9 in
  p1 = St.OK ∧ w1 = TM.not_active ∧ w2 = St.OK ∧ p2 = St.OK ∧
  (write_set <$> txns_ tm !! 1) = Some [MkBufferedWrite 1 [x61] [x31] false] ∧
  (write_set <$> txns_ tm !! 2) = Some [MkBufferedWrite 1 [x61] [x32] false] ∧
  (state <$> txns_ tm !! 1) = Some PREPARED ∧ (state <$> txns_ tm !! 2) = Some PREPARED.
Proof. vm_compute. split_and!; reflexivity. Qed.

(** A prepared transaction that was imported has no locks, so a second transaction can
    write the same row and prepare too. *)
Theorem import_takes_no_locks :
  let w := MkBufferedWrite 1 [x61] [x31] false in
  let tm := (TM.Begin (TM.ImportPreparedTxn demo_tm0 5 8 [w]).1 5).1 in
  let '(tm, w2) := TM.Write tm 2 1 [x61] [x32] in
  let '(tm, p2) := TM.Prepare tm 2 9 in
  w2 = St.OK ∧ p2 = St.OK ∧
  (state <$> txns_ tm !! 1) = Some PREPARED ∧ (state <$> txns_ tm !! 2) = Some PREPARED ∧
  (write_set <$> txns_ tm !! 1) = Some [w] ∧ (write_set <$> txns_ tm !! 2) = Some [MkBufferedWrite 1 [x61] [x32] false].
Proof. vm_compute. split_and!; reflexivity. Qed.
