(* ===== verification/Recovery.v ===== *)
(** * Recovery of a shard (TxnManager::Recover in src/src/txn/txn_manager.cpp)

    [Recover] rebuilds store, prepared transactions and locks from the
    write-ahead log. The specification is the log read as a program: [log_step]
    executes one record after the other. *)
From Stdlib Require Import Strings.Byte.
From stdpp Require Import base gmap sets list strings sorting.
From Stdlib Require Import ZArith Lia.
From S2P Require Import Prelude Status KeyEncoding RocksDB MVCCStore MVCCIterator.
From S2P Require Import LockManager GroupCommit LogFile Wal TxnManager TxnLocks.
Local Open Scope Z_scope.

(** ** The code *)

(** [last_type\[txn_id\] = type] and [last_index\[txn_id\] = i] for every record. *)
Definition last_type_map (records : list WALRecord) : gmap Z WALRecordType :=
  foldl (λ m r, <[txn_id r := type r]> m) ∅ records.
Definition last_index_map (records : list WALRecord) : gmap Z nat :=
  foldl (λ m ir, <[txn_id ir.2 := ir.1]> m) ∅ (imap pair records).

Definition index_le (last_index : gmap Z nat) (a b : Z) : Prop :=
  (default 0 (last_index !! a) ≤ default 0 (last_index !! b))%nat.
#[export] Instance index_le_dec m a b : Decision (index_le m a b).
Proof. unfold index_le. apply _. Defined.

#[export] Instance index_le_total m : Total (index_le m).
Proof. intros a b. unfold index_le. lia. Qed.
#[export] Instance index_le_trans m : Transitive (index_le m).
Proof. intros a b c. unfold index_le. lia. Qed.

(** The keys of [last_index], sorted by their index. *)
Definition txn_order (records : list WALRecord) : list Z :=
  let last_index := last_index_map records in
  merge_sort (index_le last_index) (map_to_list last_index).*1.

(** Iteration order of [std::set<std::pair<uint32_t, std::string>>]. *)
Definition row_le (a b : Z * bytes) : Prop := a.1 < b.1 ∨ (a.1 = b.1 ∧ bytes_le a.2 b.2).
#[export] Instance row_le_dec a b : Decision (row_le a b).
Proof. unfold row_le. apply _. Defined.
Definition sorted_set (keys : list (Z * bytes)) : list (Z * bytes) :=
  merge_sort row_le (remove_dups keys).

(** The buffered write a log record stands for. *)
Definition write_of (w : WriteInfo) : BufferedWrite :=
  MkBufferedWrite (wi_table_id w) (wi_key w) (wi_value w) false.
Definition delete_of (d : DeleteInfo) : BufferedWrite :=
  MkBufferedWrite (di_table_id d) (di_key d) [] true.

Section recover.
Context `{RocksDB DB} `{GroupCommit}.
Implicit Types (tm : TxnManager DB) (db : DB) (rs : list WALRecord).

(** The replay loop of a committed transaction over the records before its
    COMMIT record; [inl] is the early return. *)
Fixpoint replay_commit (tid cts : Z) (rs : list WALRecord) (db : DB) : DB * option Status :=
  match rs with
  | [] => (db, None)
  | wr :: rs =>
      if negb (txn_id wr =? tid) then replay_commit tid cts rs db
      else if bool_decide (type wr = WRITE) then
        match DeserializeWritePayload (payload wr) with
        | None => (db, Some (St.IOError "bad WAL write payload during recovery"))
        | Some wi =>
            let '(db, st) := ReplayPut db (wi_table_id wi) (wi_key wi) cts (wi_value wi) in
            if negb (St.ok st) then (db, Some (St.IOError "ReplayPut failed during recovery"))
            else replay_commit tid cts rs db
        end
      else if bool_decide (type wr = DELETE) then
        match DeserializeDeletePayload (payload wr) with
        | None => (db, Some (St.IOError "bad WAL delete payload during recovery"))
        | Some di =>
            let tomb := [x00] in
            let '(db, st) := ReplayPut db (di_table_id di) (di_key di) cts tomb in
            if negb (St.ok st) then
              (db, Some (St.IOError "ReplayPut tombstone failed during recovery"))
            else replay_commit tid cts rs db
        end
      else replay_commit tid cts rs db
  end.

Definition set_snapshot (txn : Transaction) (ts : Z) : Transaction :=
  MkTransaction (t_txn_id txn) ts (prepare_commit_ts txn) (state txn) (write_set txn)
    (read_set txn) (locked_keys txn).
Definition add_write (txn : Transaction) (w : BufferedWrite) : Transaction :=
  MkTransaction (t_txn_id txn) (snapshot_ts txn) (prepare_commit_ts txn) (state txn)
    (write_set txn ++ [w]) (read_set txn) (locked_keys txn).
Definition add_locked (txn : Transaction) (keys : list (Z * bytes)) : Transaction :=
  MkTransaction (t_txn_id txn) (snapshot_ts txn) (prepare_commit_ts txn) (state txn)
    (write_set txn) (read_set txn) (locked_keys txn ++ keys).

(** The loop that rebuilds a prepared transaction. *)
Fixpoint rebuild_txn (tid : Z) (rs : list WALRecord) (txn : Transaction) : result Transaction :=
  match rs with
  | [] => inr txn
  | wr :: rs =>
      if negb (txn_id wr =? tid) then rebuild_txn tid rs txn
      else if bool_decide (type wr = BEGIN) then
        match DeserializeBeginPayload (payload wr) with
        | None => inl (St.IOError "bad WAL begin payload during recovery")
        | Some ts => rebuild_txn tid rs (set_snapshot txn ts)
        end
      else if bool_decide (type wr = WRITE) then
        match DeserializeWritePayload (payload wr) with
        | None => inl (St.IOError "bad WAL write payload during recovery")
        | Some wi => rebuild_txn tid rs (add_write txn (write_of wi))
        end
      else if bool_decide (type wr = DELETE) then
        match DeserializeDeletePayload (payload wr) with
        | None => inl (St.IOError "bad WAL delete payload during recovery")
        | Some di => rebuild_txn tid rs (add_write txn (delete_of di))
        end
      else rebuild_txn tid rs txn
  end.

(** The locks of a prepared transaction; stops at the first failure. *)
Fixpoint relock (tid : Z) (keys : list (Z * bytes)) (l : LockManager) : LockManager * Status :=
  match keys with
  | [] => (l, St.OK)
  | (table, key) :: keys =>
      let '(l, acq) := Acquire l table key tid in
      if negb (St.ok acq) then (l, acq) else relock tid keys l
  end.

(** [unique_keys] of a rebuilt transaction. *)
Definition unique_keys (txn : Transaction) : list (Z * bytes) :=
  sorted_set ((λ w, (bw_table_id w, bw_key w)) <$> write_set txn).

(** One round of the loop over [txn_order]; [Some] is an early return. *)
Definition recover_txn (records : list WALRecord) tm (tid : Z) : TxnManager DB * option Status :=
  let last_i := default 0%nat (last_index_map records !! tid) in
  let last_payload := default [] (payload <$> records !! last_i) in
  match last_type_map records !! tid with
  | Some COMMIT =>
      match DeserializeCommitPayload last_payload with
      | None => (tm, Some (St.IOError "bad WAL commit payload during recovery"))
      | Some cts =>
          let '(db, err) := replay_commit tid cts (take last_i records) (store_ tm) in
          (TM.set_store tm db, err)
      end
  | Some ABORT => (tm, None)
  | Some PREPARE =>
      match DeserializePreparePayload last_payload with
      | None => (tm, Some (St.IOError "bad WAL prepare payload during recovery"))
      | Some commit_ts =>
          match rebuild_txn tid (take last_i records)
                  (MkTransaction tid 0 commit_ts PREPARED [] [] []) with
          | inl st => (tm, Some st)
          | inr txn =>
              let '(l, st) := relock tid (unique_keys txn) (lock_mgr_ tm) in
              if negb (St.ok st) then (TM.set_locks tm l, Some st)
              else
                (TM.set_txns (TM.set_locks tm l)
                   (<[tid := add_locked txn (unique_keys txn)]> (txns_ tm)), None)
          end
      end
  | _ => (tm, None)
  end.

Fixpoint recover_loop (records : list WALRecord) (order : list Z) tm : TxnManager DB * Status :=
  match order with
  | [] => (tm, St.OK)
  | tid :: order =>
      match recover_txn records tm tid with
      | (tm, Some st) => (tm, st)
      | (tm, None) => recover_loop records order tm
      end
  end.

Definition set_next_id tm (id : Z) : TxnManager DB :=
  MkTxnManager (store_ tm) (wal_ tm) (lock_mgr_ tm) id (txns_ tm).

Definition Recover tm : TxnManager DB * Status :=
  let '(w, _, records) := WAL_Replay (wal_ tm) in
  let tm := TM.set_wal tm w in
  let max_txn_id := foldl (λ m r, Z.max m (txn_id r)) 0 records in
  let tm := set_next_id tm (u64 (max_txn_id + 1)) in
  recover_loop records (txn_order records) tm.
End recover.

(** ** The log as a program *)

(** The write a record stands for. *)
Definition write_of_record (r : WALRecord) : option BufferedWrite :=
  match type r with
  | WRITE => write_of <$> DeserializeWritePayload (payload r)
  | DELETE => delete_of <$> DeserializeDeletePayload (payload r)
  | _ => None
  end.

Record LogState (DB : Type) := MkLogState { ls_store : DB; ls_live : gmap Z Transaction }.
Arguments MkLogState {DB}.
Arguments ls_store {DB}.
Arguments ls_live {DB}.

(** Executing one record: BEGIN opens a transaction, WRITE and DELETE buffer,
    PREPARE marks it prepared, COMMIT applies its writes to the store, COMMIT and
    ABORT end it. *)
Definition log_step `{RocksDB DB} (s : LogState DB) (r : WALRecord) : LogState DB :=
  let t := txn_id r in
  match type r with
  | BEGIN =>
      let snap := default 0 (DeserializeBeginPayload (payload r)) in
      MkLogState (ls_store s) (<[t := MkTransaction t snap 0 ACTIVE [] [] []]> (ls_live s))
  | WRITE | DELETE =>
      MkLogState (ls_store s)
        (alter (λ txn, match write_of_record r with Some w => add_write txn w | None => txn end)
           t (ls_live s))
  | PREPARE =>
      let ts := default 0 (DeserializePreparePayload (payload r)) in
      MkLogState (ls_store s) (alter (λ txn, TM.set_prepared txn ts) t (ls_live s))
  | COMMIT =>
      let ts := default 0 (DeserializeCommitPayload (payload r)) in
      let writes := default [] (write_set <$> ls_live s !! t) in
      MkLogState (TM.ApplyWrites (ls_store s) writes ts) (delete t (ls_live s))
  | ABORT => MkLogState (ls_store s) (delete t (ls_live s))
  | UnnamedType _ => s
  end.

Definition run_log `{RocksDB DB} (rs : list WALRecord) (db : DB) : LogState DB :=
  foldl log_step (MkLogState db ∅) rs.

(** Logs the manager writes: each transaction is BEGIN, then writes and deletes,
    then possibly PREPARE, then possibly COMMIT (after PREPARE) or ABORT, and the
    payloads decode. [last_type_map rs !! t] is the type of the last record of
    [t]. *)
Definition record_follows (prev : option WALRecordType) (r : WALRecord) : Prop :=
  match type r with
  | BEGIN => prev = None ∧ is_Some (DeserializeBeginPayload (payload r))
  | WRITE | DELETE =>
      (prev = Some BEGIN ∨ prev = Some WRITE ∨ prev = Some DELETE) ∧ is_Some (write_of_record r)
  | PREPARE =>
      (prev = Some BEGIN ∨ prev = Some WRITE ∨ prev = Some DELETE) ∧
      is_Some (DeserializePreparePayload (payload r))
  | COMMIT => prev = Some PREPARE ∧ is_Some (DeserializeCommitPayload (payload r))
  | ABORT =>
      prev = Some BEGIN ∨ prev = Some WRITE ∨ prev = Some DELETE ∨ prev = Some PREPARE
  | UnnamedType _ => False
  end.

Inductive log_ok : list WALRecord → Prop :=
  | log_ok_nil : log_ok []
  | log_ok_snoc rs r :
      log_ok rs → record_follows (last_type_map rs !! txn_id r) r → log_ok (rs ++ [r]).

(** ** The order in which [Recover] visits the transactions *)

(** A transaction is moved to the end by each of its records. *)
Definition order (rs : list WALRecord) : list Z :=
  foldl (λ o r, filter (λ t, t ≠ txn_id r) o ++ [txn_id r]) [] rs.

Lemma order_snoc rs r : order (rs ++ [r]) = filter (λ t, t ≠ txn_id r) (order rs) ++ [txn_id r].
Proof. unfold order. by rewrite foldl_app. Qed.

Lemma last_index_snoc rs r : last_index_map (rs ++ [r]) = <[txn_id r := length rs]> (last_index_map rs).
Proof. unfold last_index_map. rewrite imap_app, foldl_app. simpl. by rewrite Nat.add_0_r. Qed.

Lemma last_type_snoc rs r : last_type_map (rs ++ [r]) = <[txn_id r := type r]> (last_type_map rs).
Proof. unfold last_type_map. by rewrite foldl_app. Qed.

Lemma order_NoDup rs : NoDup (order rs).
Proof.
  induction rs as [|r rs IH] using rev_ind; [constructor|]. rewrite order_snoc.
  apply NoDup_app. split_and!; [by apply NoDup_filter| |apply NoDup_singleton].
  intros x [? _]%list_elem_of_filter ->%list_elem_of_singleton. done.
Qed.

Lemma order_elem rs t : t ∈ order rs ↔ is_Some (last_index_map rs !! t).
Proof.
  induction rs as [|r rs IH] using rev_ind.
  - split; [set_solver|]. intros [? ?]. done.
  - rewrite order_snoc, last_index_snoc, elem_of_app, list_elem_of_filter, list_elem_of_singleton, IH.
    destruct (decide (t = txn_id r)) as [->|Hne].
    + rewrite lookup_insert_eq. split; [eauto|by right].
    + rewrite lookup_insert_ne by done. naive_solver.
Qed.

Lemma last_index_lt rs t i : last_index_map rs !! t = Some i → (i < length rs)%nat.
Proof.
  induction rs as [|r rs IH] using rev_ind; [done|]. rewrite last_index_snoc, length_app. simpl.
  intros [[_ <-]|[_ Hi]]%lookup_insert_Some; [lia|]. specialize (IH Hi). lia.
Qed.

Lemma order_sorted rs :
  StronglySorted (λ a b, ∃ i j, last_index_map rs !! a = Some i ∧ last_index_map rs !! b = Some j ∧ (i < j)%nat)
    (order rs).
Proof.
  induction rs as [|r rs IH] using rev_ind; [constructor|]. rewrite order_snoc.
  apply StronglySorted_app. split_and!.
  - intros a b Ha Hb. apply list_elem_of_singleton in Hb as ->.
    apply list_elem_of_filter in Ha as [Hne Ha]. apply order_elem in Ha as [i Hi].
    exists i, (length rs). rewrite last_index_snoc, lookup_insert_ne, lookup_insert_eq by done.
    split_and!; try done. by apply last_index_lt in Hi.
  - eapply StronglySorted_filter_impl; [|exact IH].
    intros a b Ha Hb (i & j & Hi & Hj & Hlt). exists i, j.
    by rewrite last_index_snoc, !lookup_insert_ne by congruence.
  - repeat constructor.
Qed.

(** [std::sort] by last index gives that order. *)
Lemma txn_order_eq rs : txn_order rs = order rs.
Proof.
  unfold txn_order. set (m := last_index_map rs).
  assert (merge_sort (index_le m) (map_to_list m).*1 ≡ₚ order rs) as Hperm.
  { rewrite merge_sort_Permutation. apply NoDup_Permutation.
    - apply NoDup_fst_map_to_list.
    - apply order_NoDup.
    - intros t. rewrite order_elem. fold m. rewrite list_elem_of_fmap. split.
      + intros ([k i] & -> & Hk%elem_of_map_to_list). simpl. eauto.
      + intros [i Hi]. exists (t, i). split; [done|]. by apply elem_of_map_to_list. }
  eapply (StronglySorted_unique_strong (index_le m)).
  - intros a b Ha Hb Hab Hba.
    rewrite Hperm in Ha. apply order_elem in Ha as [i Hi]. apply order_elem in Hb as [j Hj].
    fold m in Hi, Hj. unfold index_le in Hab, Hba. rewrite Hi, Hj in *. simpl in *.
    assert (i = j) as -> by lia. clear -Hi Hj. unfold m in *.
    induction rs as [|r rs IH] using rev_ind; [done|]. rewrite last_index_snoc in Hi, Hj.
    apply lookup_insert_Some in Hi as [[<- <-]|[Hn1 Hi]]; apply lookup_insert_Some in Hj as [[<- E]|[Hn2 Hj]].
    + done.
    + apply last_index_lt in Hj. lia.
    + subst j. apply last_index_lt in Hi. lia.
    + by apply IH.
  - apply (StronglySorted_merge_sort _).
  - eapply StronglySorted_impl; [|apply order_sorted]. intros a b (i & j & Hi & Hj & Hlt).
    unfold index_le. fold m in Hi, Hj. rewrite Hi, Hj. simpl. lia.
  - done.
Qed.

(** ** What a log says about one transaction *)

Definition log_writes (t : Z) (rs : list WALRecord) : list BufferedWrite :=
  omap write_of_record (filter (λ r, txn_id r = t) rs).

Definition snap_from (s : Z) (t : Z) (rs : list WALRecord) : Z :=
  foldl (λ s r, if bool_decide (type r = BEGIN) then default 0 (DeserializeBeginPayload (payload r)) else s)
    s (filter (λ r, txn_id r = t) rs).

(** The payload of the last record of [t]. *)
Definition last_payload (t : Z) (rs : list WALRecord) : bytes :=
  default [] (payload <$> rs !! default 0%nat (last_index_map rs !! t)).

Definition live_txn (t : Z) (rs : list WALRecord) : option Transaction :=
  match last_type_map rs !! t with
  | Some BEGIN | Some WRITE | Some DELETE =>
      Some (MkTransaction t (snap_from 0 t rs) 0 ACTIVE (log_writes t rs) [] [])
  | Some PREPARE =>
      Some (MkTransaction t (snap_from 0 t rs) (default 0 (DeserializePreparePayload (last_payload t rs)))
              PREPARED (log_writes t rs) [] [])
  | _ => None
  end.

Definition record_decodes (r : WALRecord) : Prop :=
  match type r with
  | BEGIN => is_Some (DeserializeBeginPayload (payload r))
  | WRITE | DELETE => is_Some (write_of_record r)
  | _ => True
  end.

Lemma log_ok_decodes rs : log_ok rs → Forall record_decodes rs.
Proof.
  induction 1 as [|rs r _ IH Hf]; [constructor|]. apply Forall_app. split; [done|].
  constructor; [|constructor]. unfold record_decodes, record_follows in *. by destruct (type r); naive_solver.
Qed.

Lemma log_writes_snoc t rs r :
  log_writes t (rs ++ [r]) =
  log_writes t rs ++ if decide (txn_id r = t) then option_list (write_of_record r) else [].
Proof.
  unfold log_writes. rewrite filter_app, omap_app. f_equal. rewrite filter_cons, filter_nil.
  case_decide; [|done]. simpl. by destruct (write_of_record r).
Qed.

Lemma snap_from_snoc s t rs r :
  snap_from s t (rs ++ [r]) =
  if decide (txn_id r = t ∧ type r = BEGIN) then default 0 (DeserializeBeginPayload (payload r))
  else snap_from s t rs.
Proof.
  unfold snap_from. rewrite filter_app, foldl_app, filter_cons, filter_nil.
  destruct (decide (txn_id r = t)); simpl.
  - case_bool_decide; [rewrite decide_True|rewrite decide_False]; naive_solver.
  - rewrite decide_False; naive_solver.
Qed.

Lemma last_payload_snoc t rs r :
  is_Some (last_index_map rs !! t) ∨ txn_id r = t →
  last_payload t (rs ++ [r]) = if decide (txn_id r = t) then payload r else last_payload t rs.
Proof.
  intros Ht. unfold last_payload. rewrite last_index_snoc. case_decide as E.
  - subst. rewrite lookup_insert_eq. simpl. by rewrite list_lookup_middle.
  - rewrite lookup_insert_ne by done. destruct Ht as [[i Hi]|]; [|done]. rewrite Hi. simpl.
    by rewrite lookup_app_l by (by eapply last_index_lt).
Qed.

Lemma last_type_index rs t : is_Some (last_type_map rs !! t) ↔ is_Some (last_index_map rs !! t).
Proof.
  induction rs as [|r rs IH] using rev_ind; [split; intros [? ?]; done|].
  rewrite last_type_snoc, last_index_snoc.
  destruct (decide (txn_id r = t)) as [->|]; [by rewrite !lookup_insert_eq; split; eauto|].
  by rewrite !lookup_insert_ne.
Qed.

Lemma live_txn_other t rs r : txn_id r ≠ t → live_txn t (rs ++ [r]) = live_txn t rs.
Proof.
  intros Hne. unfold live_txn. rewrite last_type_snoc, lookup_insert_ne, log_writes_snoc, snap_from_snoc by done.
  rewrite (decide_False (P := txn_id r = t)), app_nil_r, decide_False by naive_solver.
  destruct (last_type_map rs !! t) as [ty|] eqn:E; [|done].
  rewrite last_payload_snoc, decide_False by (done || left; apply last_type_index; eauto). done.
Qed.

(** Executing the log keeps exactly the transactions its records leave open. *)
Lemma run_log_live `{RocksDB DB} rs (db : DB) t : log_ok rs →
  ls_live (run_log rs db) !! t = live_txn t rs.
Proof.
  intros Hok. revert t. induction Hok as [|rs r Hok IH Hf]; intros t; [done|].
  unfold run_log. rewrite foldl_app. cbn [foldl]. fold (run_log rs db). set (s := run_log rs db) in *.
  destruct (decide (txn_id r = t)) as [<-|Hne].
  - unfold live_txn. rewrite last_type_snoc, lookup_insert_eq, log_writes_snoc, snap_from_snoc by done.
    rewrite last_payload_snoc by (by right).
    rewrite !(decide_True (P := txn_id r = txn_id r)) by done.
    unfold record_follows in Hf. unfold log_step. pose proof (IH (txn_id r)) as Hl.
    unfold live_txn in Hl.
    destruct (type r) eqn:Ety; cbn [ls_live].
    + destruct Hf as [Hp _]. rewrite lookup_insert_eq, decide_True by done.
      assert (log_writes (txn_id r) rs = []) as ->.
      { clear -Hp. induction rs as [|r' rs IH] using rev_ind; [done|].
        rewrite last_type_snoc in Hp. apply lookup_insert_None in Hp as [Hp Hne].
        rewrite log_writes_snoc, IH, decide_False by done. done. }
      unfold write_of_record. by rewrite Ety.
    + destruct Hf as [Hp [w Hw]]. rewrite lookup_alter_eq, Hl, Hw, decide_False by naive_solver.
      by destruct Hp as [-> |[-> | ->]].
    + destruct Hf as [Hp [w Hw]]. rewrite lookup_alter_eq, Hl, Hw, decide_False by naive_solver.
      by destruct Hp as [-> |[-> | ->]].
    + destruct Hf as [Hp _]. rewrite lookup_alter_eq, Hl, decide_False by naive_solver.
      unfold write_of_record. rewrite Ety. cbn [option_list]. rewrite app_nil_r.
      by destruct Hp as [-> |[-> | ->]].
    + by rewrite lookup_delete_eq.
    + by rewrite lookup_delete_eq.
    + done.
  - rewrite live_txn_other by done. rewrite <- IH. unfold log_step.
    destruct (type r); cbn [ls_live]; by rewrite ?lookup_insert_ne, ?lookup_alter_ne, ?lookup_delete_ne.
Qed.

Section recover_proofs.
Context `{RocksDBLaws DB} (Hrel : rdb_reliable DB).
Implicit Types (tm : TxnManager DB) (db : DB) (rs : list WALRecord).

Lemma Put_reliable db tid k ts v : (Put db tid k ts v).2 = St.OK.
Proof.
  unfold Put, write_status. pose proof (Hrel db (EncodeKey tid k ts) v) as E.
  by destruct (rdb_put _ _ _) as [d [e|]].
Qed.

Lemma replay_commit_ok t cts rs db : Forall record_decodes rs →
  replay_commit t cts rs db = (TM.ApplyWrites db (log_writes t rs) cts, None).
Proof.
  intros HF. revert db. induction HF as [|r rs Hr _ IH]; intros db; [done|]. cbn [replay_commit].
  unfold log_writes. rewrite filter_cons. destruct (Z.eqb_spec (txn_id r) t) as [->|Hne]; cbn [negb].
  2: { rewrite decide_False by done. apply IH. }
  rewrite decide_True by done. cbn [omap list_omap]. fold (log_writes t rs).
  unfold record_decodes, write_of_record in *. unfold ReplayPut.
  destruct (type r) eqn:Ety; try (rewrite !bool_decide_false by done; apply IH).
  - rewrite bool_decide_true by done. destruct Hr as [w Hw].
    destruct (DeserializeWritePayload (payload r)) as [wi|]; [|done]. cbn [fmap option_fmap option_map].
    pose proof (Put_reliable db (wi_table_id wi) (wi_key wi) cts (wi_value wi)) as Hs.
    destruct (Put db _ _ _ _) as [db' st] eqn:E. simpl in Hs. subst st. rewrite St_ok_OK. cbn [negb].
    rewrite IH. unfold TM.ApplyWrites. cbn. by rewrite E.
  - rewrite bool_decide_false, bool_decide_true by done. destruct Hr as [w Hw].
    destruct (DeserializeDeletePayload (payload r)) as [di|]; [|done]. cbn [fmap option_fmap option_map].
    pose proof (Put_reliable db (di_table_id di) (di_key di) cts kTombstone) as Hs.
    rewrite <- Delete_Put in Hs.
    change (Put db (di_table_id di) (di_key di) cts [x00]) with
      (MVCCStore.Delete db (di_table_id di) (di_key di) cts).
    destruct (MVCCStore.Delete db _ _ _) as [db' st] eqn:E. simpl in Hs. subst st. rewrite St_ok_OK.
    cbn [negb]. rewrite IH. unfold TM.ApplyWrites. cbn. by rewrite E.
Qed.

Lemma rebuild_txn_ok t rs txn : Forall record_decodes rs →
  rebuild_txn t rs txn = inr (MkTransaction (t_txn_id txn) (snap_from (snapshot_ts txn) t rs)
    (prepare_commit_ts txn) (state txn) (write_set txn ++ log_writes t rs) (read_set txn) (locked_keys txn)).
Proof.
  intros HF. revert txn. induction HF as [|r rs Hr _ IH]; intros txn; cbn [rebuild_txn].
  { unfold log_writes. rewrite filter_nil. cbn. rewrite app_nil_r. by destruct txn. }
  unfold log_writes, snap_from. rewrite filter_cons.
  destruct (Z.eqb_spec (txn_id r) t) as [->|Hne]; cbn [negb].
  2: { rewrite decide_False by done. apply IH. }
  rewrite decide_True by done. cbn [omap list_omap foldl]. fold (log_writes t rs).
  unfold record_decodes, write_of_record in *.
  destruct (type r) eqn:Ety; rewrite ?bool_decide_true by done;
    rewrite ?bool_decide_false by done; try (rewrite IH; done).
  - destruct Hr as [ts Hts]. rewrite Hts, IH. cbn. done.
  - destruct Hr as [w Hw]. destruct (DeserializeWritePayload (payload r)) as [wi|]; [|done].
    rewrite IH. cbn. by rewrite <- app_assoc.
  - destruct Hr as [w Hw]. destruct (DeserializeDeletePayload (payload r)) as [di|]; [|done].
    rewrite IH. cbn. by rewrite <- app_assoc.
Qed.

(** The commit timestamp and the store effect of a transaction of the log. *)
Definition commit_ts_of (t : Z) rs : Z := default 0 (DeserializeCommitPayload (last_payload t rs)).
Definition commit_effect rs db (t : Z) : DB :=
  if bool_decide (last_type_map rs !! t = Some COMMIT)
  then TM.ApplyWrites db (log_writes t rs) (commit_ts_of t rs) else db.

Lemma commit_effect_other rs r db t :
  txn_id r ≠ t → commit_effect (rs ++ [r]) db t = commit_effect rs db t.
Proof.
  intros Hne. unfold commit_effect, commit_ts_of.
  rewrite last_type_snoc, lookup_insert_ne, log_writes_snoc, (decide_False (P := txn_id r = t)), app_nil_r by done.
  case_bool_decide as E; [|done]. rewrite last_payload_snoc, decide_False by
    (done || (left; apply last_type_index; eauto)). done.
Qed.

Lemma foldl_filter_skip {A B} (f g : A → B → A) (P : B → Prop) `{∀ x, Decision (P x)} l a :
  (∀ a x, x ∈ l → P x → f a x = g a x) → (∀ a x, x ∈ l → ¬ P x → g a x = a) →
  foldl f a (filter P l) = foldl g a l.
Proof.
  revert a. induction l as [|x l IH]; intros a Hf Hg; [done|]. rewrite filter_cons. simpl.
  case_decide as Hx; simpl.
  - rewrite Hf by (done || left). apply IH; intros; [apply Hf|apply Hg]; by try right.
  - rewrite Hg by (done || left). apply IH; intros; [apply Hf|apply Hg]; by try right.
Qed.

(** Applying the committed transactions in visiting order is executing the log. *)
Lemma commits_in_order rs db : log_ok rs →
  foldl (commit_effect rs) db (order rs) = ls_store (run_log rs db).
Proof.
  intros Hok. induction Hok as [|rs r Hok IH Hf]; [done|].
  rewrite order_snoc, foldl_app. cbn [foldl].
  rewrite (foldl_filter_skip _ (commit_effect rs)).
  - rewrite IH. unfold run_log. rewrite foldl_app. cbn [foldl]. fold (run_log rs db).
    set (s := run_log rs db). unfold commit_effect, commit_ts_of.
    rewrite last_type_snoc, lookup_insert_eq, log_writes_snoc, last_payload_snoc by (by right).
    rewrite !(decide_True (P := txn_id r = txn_id r)) by done.
    unfold log_step, record_follows in *.
    pose proof (run_log_live rs db (txn_id r) Hok) as Hl. unfold live_txn in Hl. fold s in Hl.
    destruct (type r) eqn:Ety; try (rewrite bool_decide_false by done; done).
    rewrite bool_decide_true by done. cbn [ls_store]. destruct Hf as [Hp [ts Hts]].
    rewrite Hl, Hp. unfold write_of_record. rewrite Ety, Hts. cbn. by rewrite app_nil_r.
  - intros a x _ Hx. by apply commit_effect_other.
  - intros a x _ Hx. apply dec_stable in Hx. subst x. unfold commit_effect.
    rewrite bool_decide_false; [done|]. intros E. unfold record_follows in Hf. rewrite E in Hf.
    by destruct (type r); naive_solver.
Qed.

(** ** One round of the loop *)

(** The transaction [Recover] builds for a prepared one. *)
Definition locked_txn (txn : Transaction) : Transaction := add_locked txn (unique_keys txn).

Lemma last_index_take rs r t :
  is_Some (last_index_map rs !! t) → txn_id r ≠ t →
  take (default 0%nat (last_index_map (rs ++ [r]) !! t)) (rs ++ [r]) =
  take (default 0%nat (last_index_map rs !! t)) rs.
Proof.
  intros [i Hi] Hne. rewrite last_index_snoc, lookup_insert_ne, Hi by done. simpl.
  rewrite take_app_le; [done|]. apply last_index_lt in Hi. lia.
Qed.

Lemma recover_txn_other rs r tm t :
  is_Some (last_index_map rs !! t) → txn_id r ≠ t →
  recover_txn (rs ++ [r]) tm t = recover_txn rs tm t.
Proof.
  intros Ht Hne. pose proof (last_payload_snoc t rs r (or_introl Ht)) as Hp.
  rewrite decide_False in Hp by done. unfold last_payload in Hp.
  pose proof (last_index_take rs r t Ht Hne) as Htk.
  unfold recover_txn. rewrite Hp, Htk, last_type_snoc, lookup_insert_ne by done. done.
Qed.

(** What the round does, in terms of the log. *)
Definition round_result rs tm (t : Z) : TxnManager DB * option Status :=
  match live_txn t rs with
  | Some txn =>
      if bool_decide (state txn = PREPARED) then
        let '(l, st) := relock t (unique_keys txn) (lock_mgr_ tm) in
        if negb (St.ok st) then (TM.set_locks tm l, Some st)
        else (TM.set_txns (TM.set_locks tm l) (<[t := locked_txn txn]> (txns_ tm)), None)
      else (tm, None)
  | None => (TM.set_store tm (commit_effect rs (store_ tm) t), None)
  end.

Lemma set_store_id tm : TM.set_store tm (store_ tm) = tm.
Proof. by destruct tm. Qed.

Lemma round_result_other rs r tm t :
  txn_id r ≠ t → round_result (rs ++ [r]) tm t = round_result rs tm t.
Proof.
  intros Hne. unfold round_result. rewrite live_txn_other by done.
  destruct (live_txn t rs); [done|]. by rewrite commit_effect_other.
Qed.

Lemma recover_txn_spec rs tm t : log_ok rs → is_Some (last_index_map rs !! t) →
  recover_txn rs tm t = round_result rs tm t.
Proof.
  intros Hok. revert tm t. induction Hok as [|rs r Hok IH Hf]; intros tm t Ht; [by destruct Ht|].
  destruct (decide (txn_id r = t)) as [<-|Hne].
  2: { rewrite last_index_snoc, lookup_insert_ne in Ht by done.
       rewrite recover_txn_other, round_result_other by done. by apply IH. }
  pose proof (log_ok_decodes rs Hok) as HF.
  unfold recover_txn, round_result, live_txn, commit_effect, commit_ts_of.
  rewrite last_index_snoc, last_type_snoc, !lookup_insert_eq.
  change (default 0%nat (Some (length rs))) with (length rs). rewrite take_app_length. rewrite list_lookup_middle by done.
  rewrite log_writes_snoc, snap_from_snoc, last_payload_snoc by (by right).
  rewrite !(decide_True (P := txn_id r = txn_id r)) by done.
  unfold record_follows in Hf. change (default [] (payload <$> Some r)) with (payload r).
  destruct (type r) eqn:Ety; rewrite ?bool_decide_false by done; try done.
  - destruct Hf as [_ [ts Hts]]. rewrite Hts, rebuild_txn_ok by done. change (default 0 (Some ts)) with ts.
    rewrite decide_False by naive_solver. unfold write_of_record. rewrite Ety. cbn [option_list].
    rewrite app_nil_r, bool_decide_true by done. cbn. done.
  - destruct Hf as [_ [ts Hts]]. rewrite Hts, bool_decide_true by done. change (default 0 (Some ts)) with ts.
    rewrite replay_commit_ok by done. unfold write_of_record. rewrite Ety. cbn. by rewrite app_nil_r.
  - by rewrite set_store_id.
Qed.

(** ** The locks of the prepared transactions *)

Definition lock_of (k : Z * bytes) : bytes := MakeLockKey k.1 k.2.

Lemma relock_fresh t keys l : t ≠ 0 → NoDup keys → Forall (λ k, is_u32 k.1) keys →
  (∀ k, k ∈ keys → locks_ l !! lock_of k = None) →
  ∃ l', relock t keys l = (l', St.OK) ∧
    (∀ lk, locks_ l' !! lk =
       if decide (lk ∈ lock_of <$> keys) then Some (MkLockEntry t 1 []) else locks_ l !! lk) ∧
    (∀ u, held_of l' u = if decide (u = t) then held_of l t ++ (lock_of <$> keys) else held_of l u).
Proof.
  intros Ht. revert l. induction keys as [|[tb key] keys IH]; intros l Hnd Hu Hfree.
  - exists l. split; [done|]. split; [done|]. intros u. case_decide; [subst; by rewrite app_nil_r|done].
  - apply NoDup_cons in Hnd as [Hnew Hnd]. apply Forall_cons in Hu as [Hu1 Hu]. simpl in Hu1.
    cbn [relock]. rewrite Acquire_free by (done || by apply (Hfree (tb, key)); left).
    rewrite St_ok_OK. cbn [negb]. rewrite Forall_forall in Hu.
    destruct (IH (push_held (set_entry l (MakeLockKey tb key) (MkLockEntry t 1 [])) t (MakeLockKey tb key)))
      as (l' & Hl & Hlk & Hh); [done|by apply Forall_forall| |].
    { intros [tb' key'] Hk. cbn. rewrite lookup_insert_ne; [apply (Hfree (tb', key')); by right|].
      intros E. destruct (MakeLockKey_inj tb key tb' key' Hu1 (Hu _ Hk) E) as [-> ->]. done. }
    exists l'. split; [done|]. split.
    + intros lk. rewrite Hlk, fmap_cons. cbn [locks_ push_held set_entry].
      destruct (decide (lk ∈ lock_of <$> keys)); [by rewrite decide_True by (by right)|].
      destruct (decide (lk = lock_of (tb, key))) as [->|Hne].
      * rewrite decide_True by left. by rewrite lookup_insert_eq.
      * rewrite decide_False by (rewrite elem_of_cons; naive_solver). by rewrite lookup_insert_ne.
    + intros u. rewrite Hh, !held_of_push. destruct (decide (u = t)) as [->|].
      * rewrite decide_True by done. rewrite fmap_cons, <- app_assoc. done.
      * by rewrite decide_False.
Qed.

Lemma write_of_record_u32 r w : write_of_record r = Some w → is_u32 (bw_table_id w).
Proof.
  unfold write_of_record. destruct (type r); try done; intros E.
  - destruct (DeserializeWritePayload (payload r)) as [wi|] eqn:Ed; [|done]. simplify_eq/=.
    unfold DeserializeWritePayload in Ed. apply bind_Some in Ed as ([tid p1] & E1 & Ed).
    apply ConsumeLe32_Some in E1 as [Ht _]. apply bind_Some in Ed as ([klen p2] & _ & Ed).
    destruct (_ <? _); [done|]. apply bind_Some in Ed as ([vlen p3] & _ & Ed).
    destruct (_ <? _); [done|]. apply bind_Some in Ed as ([ts p4] & _ & Ed).
    case_bool_decide; by simplify_eq/=.
  - destruct (DeserializeDeletePayload (payload r)) as [di|] eqn:Ed; [|done]. simplify_eq/=.
    unfold DeserializeDeletePayload in Ed. apply bind_Some in Ed as ([tid p1] & E1 & Ed).
    apply ConsumeLe32_Some in E1 as [Ht _]. apply bind_Some in Ed as ([klen p2] & _ & Ed).
    destruct (_ <? _); [done|]. apply bind_Some in Ed as ([ts p3] & _ & Ed).
    case_bool_decide; by simplify_eq/=.
Qed.

Lemma log_writes_u32 t rs : Forall (λ w, is_u32 (bw_table_id w)) (log_writes t rs).
Proof.
  apply Forall_forall. intros w (r & _ & Hw)%list_elem_of_omap. by eapply write_of_record_u32.
Qed.

Lemma unique_keys_elem txn k :
  k ∈ unique_keys txn ↔ ∃ w, w ∈ write_set txn ∧ k = (bw_table_id w, bw_key w).
Proof.
  unfold unique_keys, sorted_set. rewrite merge_sort_Permutation, elem_of_remove_dups, list_elem_of_fmap.
  naive_solver.
Qed.

Lemma unique_keys_NoDup txn : NoDup (unique_keys txn).
Proof. unfold unique_keys, sorted_set. rewrite merge_sort_Permutation. apply NoDup_remove_dups. Qed.

(** The prepared transactions of a log. *)
Definition prepared_txn rs (t : Z) : option Transaction :=
  txn ← live_txn t rs; if bool_decide (state txn = PREPARED) then Some txn else None.

(** The rows a prepared transaction has to lock. *)
Definition prepared_keys rs (t : Z) : list (Z * bytes) :=
  default [] (unique_keys <$> prepared_txn rs t).

Lemma prepared_keys_u32 rs t k : k ∈ prepared_keys rs t → is_u32 k.1.
Proof.
  unfold prepared_keys. destruct (prepared_txn rs t) as [x|] eqn:Hp; [|set_solver].
  intros (w & Hw & ->)%unique_keys_elem. simpl.
  assert (write_set x = log_writes t rs) as E.
  { unfold prepared_txn, live_txn in Hp. destruct (last_type_map rs !! t) as [[]|]; by simplify_eq/=. }
  rewrite E in Hw. pose proof (log_writes_u32 t rs) as HF. rewrite Forall_forall in HF. by apply HF.
Qed.

Lemma prepared_keys_NoDup rs t : NoDup (prepared_keys rs t).
Proof. unfold prepared_keys. destruct (prepared_txn rs t); [apply unique_keys_NoDup|constructor]. Qed.

Lemma lock_of_inj rs t u k k' :
  k ∈ prepared_keys rs t → k' ∈ prepared_keys rs u → lock_of k = lock_of k' → k = k'.
Proof.
  intros Hk%prepared_keys_u32 Hk'%prepared_keys_u32 E.
  destruct (MakeLockKey_inj k.1 k.2 k'.1 k'.2 Hk Hk' E). destruct k, k'; simpl in *; congruence.
Qed.

(** A round of the loop: store, transaction table and lock table after it. *)
Lemma recover_round rs tm t : log_ok rs → t ≠ 0 → is_Some (last_index_map rs !! t) →
  (∀ k, k ∈ prepared_keys rs t → locks_ (lock_mgr_ tm) !! lock_of k = None) →
  ∃ tm', recover_txn rs tm t = (tm', None) ∧ store_ tm' = commit_effect rs (store_ tm) t ∧
    wal_ tm' = wal_ tm ∧ next_txn_id_ tm' = next_txn_id_ tm ∧
    txns_ tm' = match prepared_txn rs t with Some x => <[t := locked_txn x]> (txns_ tm) | None => txns_ tm end ∧
    ∀ lk, locks_ (lock_mgr_ tm') !! lk =
      if decide (lk ∈ lock_of <$> prepared_keys rs t) then Some (MkLockEntry t 1 [])
      else locks_ (lock_mgr_ tm) !! lk.
Proof.
  intros Hok Ht Hi Hfree. rewrite recover_txn_spec by done. unfold round_result.
  unfold prepared_keys in *. pose proof (prepared_keys_u32 rs t) as Hu. unfold prepared_keys in Hu.
  unfold prepared_txn in *. destruct (live_txn t rs) as [x|] eqn:El; cbn in *.
  - assert (commit_effect rs (store_ tm) t = store_ tm) as ->.
    { unfold commit_effect. rewrite bool_decide_false; [done|]. intros Ec.
      unfold live_txn in El. by rewrite Ec in El. }
    case_bool_decide as Hst; cbn in *; [|by exists tm].
    destruct (relock_fresh t (unique_keys x) (lock_mgr_ tm)) as (l & Hl & Hlk & _);
      [done|apply unique_keys_NoDup|by apply Forall_forall|done|].
    rewrite Hl, St_ok_OK. cbn [negb]. eexists. split; [done|]. cbn. split_and!; done.
  - eexists. split; [done|]. cbn. split_and!; done.
Qed.

(** No row is in the write sets of two prepared transactions. *)
Definition prepared_disjoint rs : Prop :=
  ∀ t u k, k ∈ prepared_keys rs t → k ∈ prepared_keys rs u → t = u.

Lemma recover_loop_ok rs o tm :
  log_ok rs → prepared_disjoint rs → NoDup o → (∀ t, t ∈ o → t ≠ 0 ∧ is_Some (last_index_map rs !! t)) →
  (∀ t k, t ∈ o → k ∈ prepared_keys rs t → locks_ (lock_mgr_ tm) !! lock_of k = None) →
  ∃ tm', recover_loop rs o tm = (tm', St.OK) ∧
    store_ tm' = foldl (commit_effect rs) (store_ tm) o ∧
    wal_ tm' = wal_ tm ∧ next_txn_id_ tm' = next_txn_id_ tm ∧
    (∀ t, txns_ tm' !! t =
       match (if decide (t ∈ o) then prepared_txn rs t else None) with
       | Some x => Some (locked_txn x)
       | None => txns_ tm !! t
       end) ∧
    (∀ t k, t ∈ o → k ∈ prepared_keys rs t →
       locks_ (lock_mgr_ tm') !! lock_of k = Some (MkLockEntry t 1 [])) ∧
    (∀ lk, (∀ t, t ∈ o → lk ∉ lock_of <$> prepared_keys rs t) →
       locks_ (lock_mgr_ tm') !! lk = locks_ (lock_mgr_ tm) !! lk).
Proof.
  intros Hok Hdis. revert tm. induction o as [|t o IH]; intros tm Hnd Ho Hfree.
  { exists tm. split_and!; try done. intros ??. set_solver. }
  apply NoDup_cons in Hnd as [Hnew Hnd]. destruct (Ho t) as [Ht Hi]; [left|].
  destruct (recover_round rs tm t Hok Ht Hi) as (tm1 & E1 & Es1 & Ew1 & En1 & Et1 & El1);
    [intros k; apply Hfree; left|].
  assert (∀ u k, u ∈ o → k ∈ prepared_keys rs u → lock_of k ∉ lock_of <$> prepared_keys rs t) as Hsep.
  { intros u k Hu Hk (k' & E & Hk')%list_elem_of_fmap.
    rewrite (lock_of_inj rs u t k k' Hk Hk' E) in Hk. by rewrite (Hdis u t k' Hk Hk') in Hu. }
  destruct (IH tm1) as (tm' & E & Es & Ew & En & Et & El & Eo); [done|intros; apply Ho; by right| |].
  { intros u k Hu Hk. rewrite El1, decide_False by (by eapply Hsep). by eapply Hfree; eauto; right. }
  exists tm'. cbn [recover_loop]. rewrite E1. split_and!; try congruence.
  - rewrite Es, Es1. done.
  - intros u. rewrite Et, Et1. destruct (decide (u = t)) as [->|Hne].
    + rewrite decide_False, (decide_True (P := t ∈ t :: o)) by (done || left).
      by destruct (prepared_txn rs t); simplify_map_eq.
    + assert (txns_ tm !! u = match prepared_txn rs t with
        | Some x => <[t := locked_txn x]> (txns_ tm) | None => txns_ tm end !! u) as Eu
        by (by destruct (prepared_txn rs t); simplify_map_eq).
      rewrite <- Eu. destruct (decide (u ∈ o)); [by rewrite decide_True by (by right)|].
      by rewrite decide_False by (rewrite elem_of_cons; naive_solver).
  - intros u k [->|Hu]%elem_of_cons Hk; [|by eapply El]. rewrite Eo, El1.
    + rewrite decide_True; [done|]. by apply list_elem_of_fmap_2.
    + intros u Hu (k' & E' & Hk')%list_elem_of_fmap.
      apply (Hsep u k' Hu Hk'). rewrite <- E'. by apply list_elem_of_fmap_2.
  - intros lk Hne. rewrite Eo by (intros; apply Hne; by right). rewrite El1, decide_False; [done|].
    apply Hne. left.
Qed.

(** What recovery leaves behind when the log replays to [rs]. *)
Definition recovered rs db (tm' : TxnManager DB) : Prop :=
  let s := run_log rs db in
  store_ tm' = ls_store s ∧
  (∀ t, txns_ tm' !! t = locked_txn <$> (x ← ls_live s !! t;
                                         if bool_decide (state x = PREPARED) then Some x else None)) ∧
  (∀ t x wr, txns_ tm' !! t = Some x → wr ∈ write_set x →
     locks_ (lock_mgr_ tm') !! row_lock wr = Some (MkLockEntry t 1 [])) ∧
  (∀ lk e, locks_ (lock_mgr_ tm') !! lk = Some e →
     ∃ x wr, txns_ tm' !! owner e = Some x ∧ wr ∈ write_set x ∧ lk = row_lock wr) ∧
  Forall (λ r, txn_id r < next_txn_id_ tm') rs.

Lemma Recover_spec tm w st rs :
  lock_mgr_ tm = LockManager_init → txns_ tm = ∅ → WAL_Replay (wal_ tm) = (w, st, rs) →
  log_ok rs → prepared_disjoint rs → Forall (λ r, 0 < txn_id r < UINT64_MAX) rs →
  ∃ tm', Recover tm = (tm', St.OK) ∧ recovered rs (store_ tm) tm'.
Proof.
  intros Hlocks Htxns Hlog Hok Hdis Hids. unfold recovered. set (s := run_log rs (store_ tm)). cbn zeta.
  unfold Recover. rewrite Hlog, txn_order_eq.
  set (tm0 := set_next_id (TM.set_wal tm w) _).
  assert (∀ t, is_Some (last_index_map rs !! t) → t ≠ 0) as Hnz.
  { clear -Hids. induction rs as [|r rs IH] using rev_ind; [intros t []; done|].
    apply Forall_app in Hids as [Hids [Hr _]%Forall_cons]. intros t. rewrite last_index_snoc.
    intros [i [[<- _]|[_ Hi]]%lookup_insert_Some]; [lia|]. apply IH; eauto. }
  destruct (recover_loop_ok rs (order rs) tm0 Hok Hdis (order_NoDup rs))
    as (tm' & E & Es & _ & En & Et & El & Eo).
  { intros t Ht%order_elem. auto. }
  { intros t k _ _. cbn. by rewrite Hlocks. }
  assert (∀ t, prepared_txn rs t = x ← ls_live s !! t; if bool_decide (state x = PREPARED) then Some x else None)
    as Hprep by (intros t; unfold s; by rewrite run_log_live).
  assert (∀ t x, prepared_txn rs t = Some x → t ∈ order rs) as Hin.
  { intros t x Hx. apply order_elem, last_type_index. unfold prepared_txn, live_txn in Hx.
    destruct (last_type_map rs !! t); [eauto|done]. }
  assert (∀ t, txns_ tm' !! t = locked_txn <$> prepared_txn rs t) as Htx.
  { intros t. rewrite Et. destruct (prepared_txn rs t) as [x|] eqn:Ex.
    - by rewrite decide_True by (by eapply Hin).
    - case_decide; cbn; by rewrite Htxns. }
  exists tm'. split; [done|]. split; [by rewrite Es, commits_in_order|].
  split; [intros t; by rewrite Htx, Hprep|]. split; [|split].
  - intros t x wr. rewrite Htx. intros (y & Hy & ->)%fmap_Some Hwr.
    apply (El t (bw_table_id wr, bw_key wr)); [by eapply Hin|].
    unfold prepared_keys. rewrite Hy. cbn. apply unique_keys_elem. by exists wr.
  - intros lk e Hlk.
    destruct (decide (Exists (λ t, lk ∈ lock_of <$> prepared_keys rs t) (order rs))) as [Hex|Hnex].
    + apply Exists_exists in Hex as (t & Ht & (k & -> & Hk)%list_elem_of_fmap).
      rewrite (El t k Ht Hk) in Hlk. simplify_eq. cbn. unfold prepared_keys in Hk.
      destruct (prepared_txn rs t) as [x|] eqn:Ex; [|set_solver].
      apply unique_keys_elem in Hk as (wr & Hwr & ->). exists (locked_txn x), wr.
      split_and!; [by rewrite Htx, Ex|done|done].
    + rewrite Eo in Hlk; [cbn in Hlk; by rewrite Hlocks in Hlk|].
      intros t Ht Hlk'. apply Hnex, Exists_exists. eauto.
  - rewrite En. cbn. assert (0 ≤ foldl (λ m r, Z.max m (txn_id r)) 0 rs < UINT64_MAX ∧
      Forall (λ r, txn_id r ≤ foldl (λ m r, Z.max m (txn_id r)) 0 rs) rs) as [Hm Hall].
    { clear -Hids. induction rs as [|r rs IH] using rev_ind; [by vm_compute|].
      apply Forall_app in Hids as [Hids [Hr _]%Forall_cons]. destruct (IH Hids) as [Hm Hall].
      rewrite foldl_app. cbn. split; [lia|]. apply Forall_app. split.
      - eapply Forall_impl; [done|]. intros r' ?; simpl in *; lia.
      - repeat constructor. lia. }
    rewrite u64_id by (unfold is_u64, UINT64_MAX in *; lia).
    eapply Forall_impl; [done|]. intros r ?; simpl in *; lia.
Qed.

End recover_proofs.

(** *** Deciding the hypotheses on a concrete log *)

#[export] Instance record_follows_dec prev r : Decision (record_follows prev r).
Proof. unfold record_follows. destruct (type r); apply _. Defined.

Fixpoint follows_from (m : gmap Z WALRecordType) (rs : list WALRecord) : bool :=
  match rs with
  | [] => true
  | r :: rs => bool_decide (record_follows (m !! txn_id r) r) && follows_from (<[txn_id r := type r]> m) rs
  end.

Lemma log_ok_decide rs0 rs : log_ok rs0 → follows_from (last_type_map rs0) rs = true → log_ok (rs0 ++ rs).
Proof.
  revert rs0. induction rs as [|r rs IH]; intros rs0 Hok; [by rewrite app_nil_r|]. cbn [follows_from].
  rewrite andb_true_iff, bool_decide_eq_true. intros [Hf Hr].
  rewrite (cons_middle r), app_assoc. apply IH; [by constructor|]. by rewrite last_type_snoc.
Qed.

Lemma log_ok_decide_all rs : follows_from ∅ rs = true → log_ok rs.
Proof. exact (log_ok_decide [] rs log_ok_nil). Qed.

Lemma prepared_disjoint_decide rs :
  NoDup (order rs ≫= prepared_keys rs) → prepared_disjoint rs.
Proof.
  intros Hnd t u k Hk Hku.
  assert (∀ v, k ∈ prepared_keys rs v → v ∈ order rs) as Hin.
  { intros v. unfold prepared_keys, prepared_txn, live_txn. intros Hv. apply order_elem, last_type_index.
    destruct (last_type_map rs !! v); [eauto|set_solver]. }
  pose proof (Hin t Hk) as Ht. pose proof (Hin u Hku) as Hu. clear Hin. revert Ht Hu Hnd.
  induction (order rs) as [|v o IH]; [set_solver|]. cbn. rewrite !elem_of_cons, NoDup_app.
  intros Ht Hu (_ & Hd & Hnd).
  assert (∀ w, w ∈ o → k ∈ prepared_keys rs w → k ∉ prepared_keys rs v) as Hsep.
  { intros w Hw Hkw Hkv. apply (Hd k Hkv). apply list_elem_of_bind. eauto. }
  destruct Ht as [->|Ht], Hu as [->|Hu]; auto; exfalso; by eapply Hsep.
Qed.

(** ** Properties *)

#[local] Existing Instance default_group_commit.

(** C30. Recovery is re-execution of the log. Let the log of the manager replay to records
    of the shape a manager writes ([log_ok]), in which no row is in the write sets of two
    transactions left prepared (row locks see to that, but not for transactions that were
    imported from the Raft log: then [Recover] fails, [import_breaks_recovery]), with
    transaction numbers below the largest 64-bit number, and let the store accept writes.
    Then [Recover] succeeds on a fresh manager; the store it leaves is the store that
    executing the records one by one leaves; the transactions it restores are
    exactly those the records leave prepared, with snapshot, commit timestamp and
    write set; every row of such a write set is locked for its transaction and
    nothing else is locked; and new transaction ids start above all old ones. *)
Theorem Recover_correct {DB : Type} `{RocksDBLaws DB} (tm : TxnManager DB) (w : WAL) (st : Status)
    (rs : list WALRecord)
    (Hrel : rdb_reliable DB) (Hlocks : lock_mgr_ tm = LockManager_init) (Htxns : txns_ tm = ∅)
    (Hlog : WAL_Replay (wal_ tm) = (w, st, rs)) (Hok : log_ok rs) (Hdis : prepared_disjoint rs)
    (Hids : Forall (λ r, 0 < txn_id r < UINT64_MAX) rs) :
  ∃ tm', Recover tm = (tm', St.OK) ∧ recovered rs (store_ tm) tm'.
Proof. by apply Recover_spec with w st. Qed.

(** A log with a committed, a prepared and an unfinished transaction. *)
Definition recover_demo_ops : list WalOp :=
  [OpAppend 1 BEGIN (SerializeBeginPayload 5); OpAppend 2 BEGIN (SerializeBeginPayload 6);
   OpAppend 1 WRITE (SerializeWritePayload 1 [x61] [x31] 0);
   OpAppend 2 WRITE (SerializeWritePayload 1 [x62] [x32] 0);
   OpAppendSync 1 PREPARE (SerializePreparePayload 8); OpAppend 3 BEGIN (SerializeBeginPayload 7);
   OpAppendSync 1 COMMIT (SerializeCommitPayload 8); OpAppendSync 2 PREPARE (SerializePreparePayload 9)].
Definition recover_demo : TxnManager MemDB :=
  MkTxnManager ∅ (rw (wal_ops [] recover_demo_ops)) LockManager_init 1 ∅.

Lemma Recover_correct_witness :
  ∃ tm', Recover recover_demo = (tm', St.OK) ∧
    recovered (attempted (wal_ops [] recover_demo_ops)) ∅ tm'.
Proof.
  refine (Recover_correct recover_demo (rw (wal_ops [] recover_demo_ops)) St.OK
    (attempted (wal_ops [] recover_demo_ops)) MemDB_reliable eq_refl eq_refl _ _ _ _).
  - vm_compute. reflexivity.
  - apply log_ok_decide_all. vm_compute. reflexivity.
  - apply prepared_disjoint_decide. refine (bool_decide_unpack (NoDup _) _). vm_compute. exact I.
  - refine (bool_decide_unpack (Forall _ _) _). vm_compute. exact I.
Defined.
