(* ===== verification/ShardRecovery.v ===== *)
(** * A shard across a crash

    The transaction manager of TxnManager.v writes the log that Recovery.v reads:
    every step of the manager is the execution of the record it logs, and a
    shard that crashes at any moment recovers its committed data and its prepared
    transactions. *)
From Stdlib Require Import Strings.Byte.
From stdpp Require Import base gmap sets list strings sorting.
From Stdlib Require Import ZArith Lia.
From S2P Require Import Prelude Status KeyEncoding RocksDB MVCCStore MVCCIterator.
From S2P Require Import LockManager GroupCommit LogFile Wal TxnManager TxnLocks Recovery.
Local Open Scope Z_scope.

(** The part of a transaction the log knows. *)
Definition strip (x : Transaction) : Transaction :=
  MkTransaction (t_txn_id x) (snapshot_ts x) (prepare_commit_ts x) (state x) (write_set x) [] [].

(** The abstract state of a manager: its store and its open transactions. *)
Definition abs {DB} (tm : TxnManager DB) : LogState DB := MkLogState (store_ tm) (strip <$> txns_ tm).

(** A log file without I/O failures. *)
Definition clean (w : WAL) : Prop :=
  io (file w) = [] ∧ failed (file w) = false ∧ stream_open (file w) = true ∧ sync_fd (file w) = true.

Definition unsynced_type (ty : WALRecordType) : Prop := ty = BEGIN ∨ ty = WRITE ∨ ty = DELETE.

Lemma clean_append w t ty p : clean w →
  (WAL_Append w t ty p).2 = St.OK ∧ clean (WAL_Append w t ty p).1.
Proof.
  intros (Hio & Hf & Ho & Hs). unfold WAL_Append, WriteRecord, stream_write, next_io, pop_io. cbn.
  rewrite Hio, Hf, Ho. cbn. unfold clean. cbn. by rewrite Hs.
Qed.

Lemma clean_sync w : clean w → (WAL_Sync w).2 = St.OK ∧ clean (WAL_Sync w).1.
Proof.
  intros (Hio & Hf & Ho & Hs). unfold WAL_Sync, DurableFileSync, next_io, pop_io. rewrite Hio. cbn.
  rewrite Hf, Hs. cbn. by rewrite Ho.
Qed.

Lemma clean_append_sync `{GroupCommit} w t ty p : clean w →
  (WAL_AppendSync w t ty p).2 = St.OK ∧ clean (WAL_AppendSync w t ty p).1.
Proof.
  intros Hc. unfold WAL_AppendSync. destruct (clean_append w t ty p Hc) as [Ha Hc'].
  destruct (WAL_Append w t ty p) as [w' st]. simpl in *. subst st. rewrite St_ok_OK. cbn [negb].
  destruct (clean_sync w' Hc') as [Hs Hc'']. by rewrite QueueSync_flush.
Qed.

(** ** The invariant: the log explains the state *)

Section shard.
Context `{RocksDBLaws DB} `{GroupCommit} (db0 : DB).
Implicit Types (tm : TxnManager DB) (s : TxnSys DB) (rs : list WALRecord).

Record log_inv (n : Z) s rs (ack : nat) : Prop := {
  lg_wal : wal_inv (MkWalRun (wal_ (mgr s)) rs ack);
  lg_clean : clean (wal_ (mgr s));
  lg_tail : Forall (λ r, unsynced_type (type r)) (drop ack rs);
  lg_ok : log_ok rs;
  lg_records : Forall record_ok rs;
  lg_abs : run_log rs db0 = abs (mgr s);
  lg_ids : Forall (λ r, 0 < txn_id r < next_txn_id_ (mgr s)) rs;
  lg_next : 1 ≤ next_txn_id_ (mgr s) ≤ n + 1;
  lg_blocked : ∀ t w, blocked s !! t = Some w → write_fits w;
}.

Lemma lg_live n s rs ack t : log_inv n s rs ack →
  live_txn t rs = strip <$> txns_ (mgr s) !! t.
Proof.
  intros Hi. rewrite <- (run_log_live rs db0 t) by apply Hi. rewrite (lg_abs _ _ _ _ Hi). cbn.
  by rewrite lookup_fmap.
Qed.

(** The last record of an open transaction. *)
Lemma last_active n s rs ack t x : log_inv n s rs ack → txns_ (mgr s) !! t = Some x → state x = ACTIVE →
  last_type_map rs !! t = Some BEGIN ∨ last_type_map rs !! t = Some WRITE ∨ last_type_map rs !! t = Some DELETE.
Proof.
  intros Hi Hx Hst. pose proof (lg_live _ _ _ _ t Hi) as Hl. rewrite Hx in Hl. unfold live_txn in Hl.
  destruct (last_type_map rs !! t) as [[]|]; simplify_eq/=; auto.
  apply (f_equal state) in Hl. simpl in Hl. congruence.
Qed.

Lemma last_prepared n s rs ack t x : log_inv n s rs ack → txns_ (mgr s) !! t = Some x → state x = PREPARED →
  last_type_map rs !! t = Some PREPARE.
Proof.
  intros Hi Hx Hst. pose proof (lg_live _ _ _ _ t Hi) as Hl. rewrite Hx in Hl. unfold live_txn in Hl.
  destruct (last_type_map rs !! t) as [[]|]; simplify_eq/=; auto;
    apply (f_equal state) in Hl; simpl in Hl; congruence.
Qed.

(** Transactions the log leaves open are active or prepared. *)
Lemma open_state n s rs ack t x : log_inv n s rs ack → txns_ (mgr s) !! t = Some x →
  state x = ACTIVE ∨ state x = PREPARED.
Proof.
  intros Hi Hx. pose proof (lg_live _ _ _ _ t Hi) as Hl. rewrite Hx in Hl. unfold live_txn in Hl.
  destruct (last_type_map rs !! t) as [[]|]; simplify_eq/=;
    apply (f_equal state) in Hl; simpl in Hl; auto.
Qed.

Lemma last_fresh rs t : Forall (λ r, txn_id r < t) rs → last_type_map rs !! t = None.
Proof.
  induction rs as [|r rs IH] using rev_ind; [done|]. rewrite Forall_app. intros [HF [Hr _]%Forall_cons].
  rewrite last_type_snoc, lookup_insert_ne by lia. auto.
Qed.

Lemma run_log_snoc rs r (db : DB) : run_log (rs ++ [r]) db = log_step (run_log rs db) r.
Proof. unfold run_log. by rewrite foldl_app. Qed.

Lemma open_id n s rs ack t x : log_inv n s rs ack → txns_ (mgr s) !! t = Some x →
  0 < t < next_txn_id_ (mgr s).
Proof.
  intros Hi Hx. assert (is_Some (last_type_map rs !! t)) as Hl.
  { destruct (open_state _ _ _ _ _ _ Hi Hx) as [Hst|Hst].
    - destruct (last_active _ _ _ _ _ _ Hi Hx Hst) as [-> |[-> | ->]]; eauto.
    - rewrite (last_prepared _ _ _ _ _ _ Hi Hx Hst). eauto. }
  pose proof (lg_ids _ _ _ _ Hi) as HF. clear -HF Hl. revert HF.
  induction rs as [|r rs IH] using rev_ind; intros HF; [by destruct Hl|].
  apply Forall_app in HF as [HF [Hr _]%Forall_cons]. rewrite last_type_snoc in Hl.
  destruct (decide (txn_id r = t)) as [<-|]; [done|]. rewrite lookup_insert_ne in Hl by done. auto.
Qed.

(** One record that is logged and executed. *)
Lemma log_inv_record n m s rs ack tm' B' I' t ty p (sync : bool) :
  log_inv n s rs ack → m ≤ UINT32_MAX →
  let r := MkWALRecord (next_lsn_ (wal_ (mgr s))) t ty p in
  wal_ tm' = (if sync then WAL_AppendSync (wal_ (mgr s)) t ty p else WAL_Append (wal_ (mgr s)) t ty p).1 →
  abs tm' = log_step (abs (mgr s)) r →
  record_follows (last_type_map rs !! t) r → (sync = false → unsynced_type ty) →
  0 < t < next_txn_id_ tm' → next_txn_id_ (mgr s) ≤ next_txn_id_ tm' ≤ m + 1 →
  is_u32 (Z.of_nat (length p) + kMinBody) →
  (∀ u w, B' !! u = Some w → write_fits w) →
  log_inv m (MkTxnSys tm' B' I') (rs ++ [r]) (if sync then S (length rs) else ack).
Proof.
  intros Hi Hmax r Hw Habs Hf Hs Ht Hn Hp HB. 
  assert (ty = WALRecordType_of_Z (WALRecordType_to_Z ty) ∧ 0 ≤ WALRecordType_to_Z ty < 256) as [Hty Htz].
  { unfold record_follows in Hf. destruct ty; try done. }
  destruct Hi as [Hwal Hcl Htl Hok Hrec Hab Hid Hnx _].
  split; cbn [mgr blocked].
  - rewrite Hw. destruct sync.
    + pose proof (wal_op_inv _ (OpAppendSync t ty p) Hwal) as Hi'. cbn [wal_op rw attempted acked] in Hi'.
      destruct (clean_append_sync (wal_ (mgr s)) t ty p Hcl) as [Hst _].
      destruct (WAL_AppendSync (wal_ (mgr s)) t ty p) as [w' st]. cbn in Hst. subst st.
      rewrite St_ok_OK, length_app in Hi'. cbn in Hi'. by rewrite Nat.add_1_r in Hi'.
    + exact (wal_op_inv _ (OpAppend t ty p) Hwal).
  - rewrite Hw. destruct sync; [by apply clean_append_sync|by apply clean_append].
  - destruct sync.
    + rewrite drop_ge by (rewrite length_app; simpl; lia). constructor.
    + rewrite drop_app_le by apply (wi_acked_le _ Hwal). apply Forall_app. split; [done|].
      constructor; [by apply Hs|constructor].
  - by constructor.
  - apply Forall_app. split; [done|]. constructor; [|constructor].
    pose proof (wi_lsn _ Hwal) as Hlsn. cbn in Hlsn.
    split; [cbn; rewrite Hlsn; apply u64_range|].
    split; [cbn; unfold is_u64, UINT32_MAX in *; lia|done].
  - by rewrite run_log_snoc, Hab.
  - apply Forall_app. split; [|by repeat constructor; cbn; lia].
    eapply Forall_impl; [done|]. intros r' ?; simpl in *; lia.
  - lia.
  - done.
Qed.

(** A step that logs nothing. *)
Lemma log_inv_quiet n s rs ack tm' B' I' :
  log_inv n s rs ack → wal_ tm' = wal_ (mgr s) → abs tm' = abs (mgr s) →
  next_txn_id_ tm' = next_txn_id_ (mgr s) → (∀ u w, B' !! u = Some w → write_fits w) →
  log_inv (n + 1) (MkTxnSys tm' B' I') rs ack.
Proof.
  intros [] Hw Ha Hn HB. split; cbn [mgr blocked]; rewrite ?Hw, ?Ha, ?Hn; try done; lia.
Qed.

(** ** Every step of the manager *)

Lemma fmap_strip_insert (m : gmap Z Transaction) t x x' :
  m !! t = Some x → strip x' = strip x → strip <$> <[t := x']> m = strip <$> m.
Proof.
  intros Hx E. rewrite fmap_insert, E. apply insert_id. by rewrite lookup_fmap, Hx.
Qed.

(** Type and payload of the record of a buffered write. *)
Definition write_type (w : BufferedWrite) : WALRecordType := if is_delete w then DELETE else WRITE.
Definition write_payload (w : BufferedWrite) : bytes :=
  if is_delete w then SerializeDeletePayload (bw_table_id w) (bw_key w) 0
  else SerializeWritePayload (bw_table_id w) (bw_key w) (bw_value w) 0.

Lemma log_write_wal tm t w :
  wal_ (TM.log_write tm t w) = (WAL_Append (wal_ tm) t (write_type w) (write_payload w)).1.
Proof. unfold TM.log_write, TM.append, write_type, write_payload. by destruct (is_delete w). Qed.

(** The record of a buffered write decodes to the write. *)
Lemma write_of_logged lsn t w : write_fits w →
  write_of_record (MkWALRecord lsn t (write_type w) (write_payload w)) = Some w ∧
  is_u32 (Z.of_nat (length (write_payload w)) + kMinBody).
Proof.
  intros (Ht & Hl & Hd). unfold write_of_record, write_type, write_payload. destruct w as [tb k v d].
  cbn [bw_table_id bw_key bw_value is_delete] in *. unfold is_u32 in Hl.
  destruct d; cbn [type payload].
  - rewrite Hd in * by done. rewrite Delete_roundtrip by (done || (unfold fits32, is_u32; lia)).
    split; [done|]. unfold SerializeDeletePayload, AppendFixedLe32, AppendFixedLe64, kMinBody, is_u32.
    autorewrite with db_len. simpl length in *. lia.
  - rewrite Write_roundtrip by (done || (unfold fits32, is_u32; lia)).
    split; [done|]. unfold SerializeWritePayload, AppendFixedLe32, AppendFixedLe64, kMinBody, is_u32.
    autorewrite with db_len. simpl length in *. lia.
Qed.

(** There is a log that explains the state. *)
Definition explained (n : Z) s : Prop := ∃ rs ack, log_inv n s rs ack.

Lemma buffer_explained n s B I t w l :
  explained n s → n < UINT32_MAX → write_fits w →
  (∀ u w, B !! u = Some w → write_fits w) →
  explained (n + 1) (MkTxnSys (TM.write_acquired (TM.set_locks (mgr s) l) St.OK t w).1 B I).
Proof.
  intros (rs & ack & Hi) Hn Hw HB. unfold TM.write_acquired. rewrite St_ok_OK. cbn [negb].
  unfold TM.buffer_write. cbn [txns_ TM.set_locks]. destruct (txns_ (mgr s) !! t) as [x|] eqn:Ex; [case_bool_decide as Hst; cbn [negb fst]|].
  - destruct (log_write_frame (TM.set_locks (mgr s) l) t w) as (Es & _ & Etx & Eid).
    pose proof (log_write_wal (TM.set_locks (mgr s) l) t w) as Ew.
    destruct (write_of_logged (next_lsn_ (wal_ (mgr s))) t w Hw) as [Hdec Hlen].
    set (ty := write_type w) in *. set (p := write_payload w) in *.
    eexists _, _. eapply (log_inv_record n (n + 1) s rs ack _ _ _ t ty p false);
      [done|lia|by cbn|..]; cbn [next_txn_id_ TM.set_txns] in *; rewrite ?Eid.
    + unfold abs, log_step. cbn [store_ txns_ TM.set_txns ls_store ls_live txn_id]. rewrite Es, Etx.
      assert (type (MkWALRecord (next_lsn_ (wal_ (mgr s))) t ty p) = WRITE ∨
              type (MkWALRecord (next_lsn_ (wal_ (mgr s))) t ty p) = DELETE) as Hty
        by (cbn; unfold ty, write_type; destruct (is_delete w); auto).
      assert (strip <$> <[t := TM.buffer x w]> (txns_ (mgr s)) =
        alter (λ txn, add_write txn w) t (strip <$> txns_ (mgr s))) as Em.
      { apply map_eq. intros u. destruct (decide (t = u)) as [<-|].
        - by rewrite lookup_fmap, lookup_insert_eq, lookup_alter_eq, lookup_fmap, Ex.
        - by rewrite lookup_fmap, lookup_insert_ne, lookup_alter_ne, lookup_fmap. }
      destruct Hty as [-> | ->]; rewrite Hdec; cbn; by rewrite Em.
    + pose proof (last_active _ _ _ _ _ _ Hi Ex Hst) as Hl. unfold record_follows. cbn [type].
      unfold ty, write_type in *. destruct (is_delete w); (split; [done|]); rewrite Hdec; eauto.
    + intros _. unfold unsynced_type, ty, write_type. destruct (is_delete w); auto.
    + by eapply open_id.
    + pose proof (lg_next _ _ _ _ Hi). cbn. lia.
    + done.
    + done.
  - eexists _, _. by eapply (log_inv_quiet n s rs ack).
  - eexists _, _. by eapply (log_inv_quiet n s rs ack).
Qed.

(** Steps that log an ABORT record and forget the transaction. *)
Lemma abort_explained n s B I tm' t x : explained n s → n < UINT32_MAX →
  (∀ u w, B !! u = Some w → write_fits w) → txns_ (mgr s) !! t = Some x →
  wal_ tm' = (WAL_AppendSync (wal_ (mgr s)) t ABORT []).1 → store_ tm' = store_ (mgr s) →
  txns_ tm' = delete t (txns_ (mgr s)) → next_txn_id_ tm' = next_txn_id_ (mgr s) →
  explained (n + 1) (MkTxnSys tm' B I).
Proof.
  intros (rs & ack & Hi) Hn HB Ex Ew Es Et En.
  eexists _, _. eapply (log_inv_record n (n + 1) s rs ack _ _ _ t ABORT [] true); try done.
  - lia.
  - unfold abs, log_step. cbn. by rewrite Es, Et, fmap_delete.
  - unfold record_follows. cbn. destruct (open_state _ _ _ _ _ _ Hi Ex) as [Hst|Hst].
    + destruct (last_active _ _ _ _ _ _ Hi Ex Hst) as [-> |[-> | ->]]; auto.
    + rewrite (last_prepared _ _ _ _ _ _ Hi Ex Hst). auto.
  - rewrite En. by eapply open_id.
  - rewrite En. pose proof (lg_next _ _ _ _ Hi). lia.
Qed.

Lemma Abort_explained n s B I t l : explained n s → n < UINT32_MAX →
  (∀ u w, B !! u = Some w → write_fits w) →
  explained (n + 1) (MkTxnSys (TM.Abort (TM.set_locks (mgr s) l) t).1 B I).
Proof.
  intros Hi Hn HB. unfold TM.Abort, TM.append_sync. cbn [txns_ TM.set_locks].
  destruct (txns_ (mgr s) !! t) as [x|] eqn:Ex.
  - cbn [wal_ TM.set_txns TM.set_locks]. destruct (WAL_AppendSync _ _ _ _) as [w st] eqn:Ew.
    eapply abort_explained; try done. by rewrite Ew.
  - destruct Hi as (rs & ack & Hi). eexists _, _. by eapply (log_inv_quiet n s rs ack).
Qed.

Lemma blocked_fits n s t w : explained n s → blocked s !! t = Some w → write_fits w.
Proof. intros (rs & ack & Hi). apply Hi. Qed.

Lemma quiet_explained n s tm' B I : explained n s → wal_ tm' = wal_ (mgr s) → store_ tm' = store_ (mgr s) →
  strip <$> txns_ tm' = strip <$> txns_ (mgr s) → next_txn_id_ tm' = next_txn_id_ (mgr s) →
  (∀ u w, B !! u = Some w → write_fits w) → explained (n + 1) (MkTxnSys tm' B I).
Proof.
  intros (rs & ack & Hi) Hw Hs Ht Hn HB. eexists _, _. eapply (log_inv_quiet n s rs ack); try done.
  unfold abs. by rewrite Hs, Ht.
Qed.

(** A new transaction: what [Begin] does, and an import first. *)
Lemma begin_logged n s rs ack snap I : log_inv n s rs ack → n < UINT32_MAX → is_u64 snap →
  ∃ rs' ack', log_inv (n + 1) (MkTxnSys (TM.Begin (mgr s) snap).1 (blocked s) I) rs' ack'.
Proof.
  intros Hi Hn Hs. pose proof (lg_next _ _ _ _ Hi) as Hx.
  assert (u64 (next_txn_id_ (mgr s) + 1) = next_txn_id_ (mgr s) + 1) as Eid
    by (apply u64_id; unfold is_u64, UINT32_MAX in *; lia).
  unfold TM.Begin, TM.take_txn_id, TM.append. cbn [wal_]. destruct (WAL_Append _ _ _ _) as [w st] eqn:Ew.
  eexists _, _. eapply (log_inv_record n (n + 1) s rs ack _ _ _ (next_txn_id_ (mgr s)) BEGIN
    (SerializeBeginPayload snap) false); try done.
  - lia.
  - by rewrite Ew.
  - unfold abs, log_step. cbn -[DeserializeBeginPayload SerializeBeginPayload].
    rewrite Begin_roundtrip by done. cbn. by rewrite fmap_insert.
  - unfold record_follows. cbn -[DeserializeBeginPayload SerializeBeginPayload].
    rewrite Begin_roundtrip by done. split; [|eauto]. apply last_fresh.
    eapply Forall_impl; [apply (lg_ids _ _ _ _ Hi)|]. intros r ?; simpl in *; lia.
  - intros _. by left.
  - cbn. rewrite Eid. lia.
  - cbn. rewrite Eid. lia.
  - apply Hi.
Qed.
Lemma Begin_explained n s snap : explained n s → n < UINT32_MAX → is_u64 snap →
  explained (n + 1) (MkTxnSys (TM.Begin (mgr s) snap).1 (blocked s) (imports s)).
Proof. intros (rs & ack & Hi) Hn Hs. by eapply begin_logged. Qed.

Lemma Prepare_explained n s t cts : explained n s → n < UINT32_MAX → is_u64 cts →
  explained (n + 1) (MkTxnSys (TM.Prepare (mgr s) t cts).1 (blocked s) (imports s)).
Proof.
  intros He Hn Hc. pose proof (λ u w, blocked_fits n s u w He) as HB.
  unfold TM.Prepare, TM.append_sync. destruct (txns_ (mgr s) !! t) as [x|] eqn:Ex; [|by eapply quiet_explained].
  case_bool_decide as Hst; [|by eapply quiet_explained]. cbn [negb]. destruct (St.ok _).
  - destruct He as (rs & ack & Hi).
    destruct (clean_append_sync (wal_ (mgr s)) t PREPARE (SerializePreparePayload cts))
      as [Hok _]; [apply Hi|].
    destruct (WAL_AppendSync _ _ _ _) as [w st] eqn:Ew. cbn in Hok. subst st. rewrite St_ok_OK. cbn [negb fst].
    eexists _, _. eapply (log_inv_record n (n + 1) s rs ack _ _ _ t PREPARE (SerializePreparePayload cts) true); try done.
    + lia.
    + by rewrite Ew.
    + unfold abs, log_step. cbn -[DeserializePreparePayload SerializePreparePayload].
      rewrite Prepare_roundtrip by done. cbn. f_equal. apply map_eq. intros u.
      destruct (decide (t = u)) as [<-|].
      * by rewrite lookup_fmap, lookup_insert_eq, lookup_alter_eq, lookup_fmap, Ex.
      * by rewrite lookup_fmap, lookup_insert_ne, lookup_alter_ne, lookup_fmap.
    + unfold record_follows. cbn -[DeserializePreparePayload SerializePreparePayload].
      rewrite Prepare_roundtrip by done. split; [|eauto]. by eapply last_active.
    + by eapply open_id.
    + pose proof (lg_next _ _ _ _ Hi). cbn. lia.
  - cbn [wal_ TM.set_txns]. destruct (WAL_AppendSync _ _ _ _) as [w st] eqn:Ew.
    eapply abort_explained; try done. by rewrite Ew.
Qed.

Lemma Commit_explained n s t cts : explained n s → n < UINT32_MAX → is_u64 cts →
  explained (n + 1) (MkTxnSys (TM.Commit (mgr s) t cts).1 (blocked s) (imports s)).
Proof.
  intros He Hn Hc. pose proof (λ u w, blocked_fits n s u w He) as HB.
  unfold TM.Commit, TM.append_sync. destruct (txns_ (mgr s) !! t) as [x|] eqn:Ex; [|by eapply quiet_explained].
  case_bool_decide as Hst; [|by eapply quiet_explained]. cbn [negb].
  destruct He as (rs & ack & Hi).
  destruct (clean_append_sync (wal_ (mgr s)) t COMMIT (SerializeCommitPayload cts)) as [Hok _]; [apply Hi|].
  cbn [wal_ TM.set_txns TM.set_store].
  destruct (WAL_AppendSync _ _ _ _) as [w st] eqn:Ew. cbn in Hok. subst st. rewrite St_ok_OK. cbn [negb fst].
  eexists _, _. eapply (log_inv_record n (n + 1) s rs ack _ _ _ t COMMIT (SerializeCommitPayload cts) true); try done.
  - lia.
  - by rewrite Ew.
  - unfold abs, log_step. cbn -[DeserializeCommitPayload SerializeCommitPayload].
    rewrite Commit_roundtrip by done. cbn. by rewrite lookup_fmap, Ex, fmap_delete.
  - unfold record_follows. cbn -[DeserializeCommitPayload SerializeCommitPayload].
    rewrite Commit_roundtrip by done. split; [|eauto]. by eapply last_prepared.
  - by eapply open_id.
  - pose proof (lg_next _ _ _ _ Hi). cbn. lia.
Qed.

(** *** Imports *)

(** The records of the writes [ws] of an open transaction. *)
Definition append_writes (t : Z) (w : WAL) (ws : list BufferedWrite) : WAL :=
  foldl (λ w x, (WAL_Append w t (write_type x) (write_payload x)).1) w ws.
Lemma log_writes_wal tm t ws : wal_ (foldl (λ tm w, TM.log_write tm t w) tm ws) = append_writes t (wal_ tm) ws.
Proof. revert tm. induction ws as [|w ws IH]; intros tm; cbn; [done|]. by rewrite IH, log_write_wal. Qed.

Lemma import_writes m B I st l nx t ws : m ≤ UINT32_MAX → Forall write_fits ws → ∀ w ts x rs ack,
  log_inv m (MkTxnSys (MkTxnManager st w l nx (<[t := x]> ts)) B I) rs ack → state x = ACTIVE →
  ∃ rs' ack', log_inv m (MkTxnSys (MkTxnManager st (append_writes t w ws) l nx (<[t := foldl add_write x ws]> ts)) B I) rs' ack'.
Proof.
  intros Hm HF. induction HF as [|wr ws Hw _ IH]; intros w ts x rs ack Hi Hx; [by eexists _, _|]. cbn [append_writes foldl].
  destruct (write_of_logged (next_lsn_ w) t wr Hw) as [Hdec Hlen].
  set (ty := write_type wr) in *. set (p := write_payload wr) in *. set (s := MkTxnSys _ _ _) in Hi.
  assert (txns_ (mgr s) !! t = Some x) as Et by apply lookup_insert_eq.
  eapply IH; [|exact Hx]. eapply (log_inv_record m m s rs ack _ _ _ t ty p false); [done|done|done|..].
  - unfold abs, log_step. cbn [store_ txns_ ls_store ls_live txn_id mgr s].
    assert (type (MkWALRecord (next_lsn_ w) t ty p) = WRITE ∨ type (MkWALRecord (next_lsn_ w) t ty p) = DELETE) as Hty
      by (cbn; unfold ty, write_type; destruct (is_delete wr); auto).
    assert (strip <$> <[t := add_write x wr]> ts = alter (λ txn, add_write txn wr) t (strip <$> <[t := x]> ts)) as Em.
    { apply map_eq. intros u. destruct (decide (t = u)) as [<-|].
      - by rewrite lookup_fmap, lookup_insert_eq, lookup_alter_eq, lookup_fmap, lookup_insert_eq.
      - by rewrite lookup_fmap, lookup_insert_ne, lookup_alter_ne, lookup_fmap, lookup_insert_ne. }
    cbn [wal_]. destruct Hty as [-> | ->]; rewrite Hdec; cbn; by rewrite Em.
  - pose proof (last_active _ _ _ _ _ _ Hi Et Hx) as Hl. unfold record_follows. cbn [type mgr wal_ s].
    unfold ty, write_type in *. destruct (is_delete wr); (split; [done|]); rewrite Hdec; eauto.
  - intros _. unfold unsynced_type, ty, write_type. destruct (is_delete wr); auto.
  - by eapply (open_id _ _ _ _ _ _ Hi).
  - pose proof (lg_next _ _ _ _ Hi). cbn in *. lia.
  - done.
  - apply Hi.
Qed.
Lemma add_writes x ws : foldl add_write x ws =
  MkTransaction (t_txn_id x) (snapshot_ts x) (prepare_commit_ts x) (state x) (write_set x ++ ws) (read_set x) (locked_keys x).
Proof.
  revert x. induction ws as [|w ws IH]; intros x; cbn [foldl]; [rewrite app_nil_r; by destruct x|]. rewrite IH. cbn. by rewrite <- app_assoc.
Qed.
Lemma Import_explained n s snap cts ws I : explained n s → n < UINT32_MAX → is_u64 snap → is_u64 cts → Forall write_fits ws →
  explained (n + 1) (MkTxnSys (TM.ImportPreparedTxn (mgr s) snap cts ws).1 (blocked s) I).
Proof.
  intros (rs & ack & Hi) Hn Hs Hc Hws. destruct (begin_logged n s rs ack snap I Hi Hn Hs) as (rs1 & ack1 & Hb).
  unfold TM.Begin, TM.ImportPreparedTxn, TM.take_txn_id, TM.append, TM.append_sync in *. cbn [wal_] in *.
  destruct (WAL_Append _ _ _ _) as [w st]. cbn [fst TM.set_wal TM.set_txns store_ wal_ lock_mgr_ next_txn_id_ txns_] in *.
  destruct (import_writes (n + 1) _ _ _ _ _ _ ws ltac:(lia) Hws _ _ _ _ _ Hb eq_refl) as (rs2 & ack2 & Hw2). clear Hb Hi rs ack rs1 ack1.
  set (t := next_txn_id_ (mgr s)) in *. set (tm1 := TM.set_wal _ w) in *.
  destruct (log_writes_frame tm1 t ws) as (Es & _ & Et & En). pose proof (log_writes_wal tm1 t ws) as Ew.
  set (tm2 := foldl _ tm1 ws) in *. clearbody tm2. rewrite add_writes in Hw2. cbn in Hw2, Es, Et, En, Ew.
  set (s2 := MkTxnSys _ _ _) in Hw2. destruct (WAL_AppendSync _ _ _ _) as [w' st'] eqn:Ea. rewrite Ew in Ea.
  assert (txns_ (mgr s2) !! t = Some (MkTransaction t snap 0 ACTIVE ws [] [])) as Ex by apply lookup_insert_eq.
  eexists _, _. eapply (log_inv_record (n + 1) (n + 1) s2 rs2 ack2 _ _ _ t PREPARE (SerializePreparePayload cts) true); [done|lia|..]; try done.
  - change (wal_ (mgr s2)) with (append_writes t w ws). by rewrite Ea.
  - unfold abs, log_step. cbn -[DeserializePreparePayload SerializePreparePayload].
    rewrite Prepare_roundtrip by done. cbn. rewrite Es, Et. f_equal. apply map_eq. intros u. destruct (decide (t = u)) as [<-|].
    + by rewrite lookup_fmap, lookup_insert_eq, lookup_alter_eq, lookup_fmap, lookup_insert_eq.
    + by rewrite lookup_fmap, lookup_insert_ne, lookup_alter_ne, lookup_fmap, lookup_insert_ne.
  - unfold record_follows. cbn -[DeserializePreparePayload SerializePreparePayload].
    rewrite Prepare_roundtrip by done. split; [|eauto]. by eapply (last_active _ _ _ _ _ _ Hw2 Ex).
  - cbn. rewrite En. by eapply (open_id _ _ _ _ _ _ Hw2 Ex).
  - cbn. rewrite En. pose proof (lg_next _ _ _ _ Hw2) as Hx. cbn in Hx. lia.
  - apply Hw2.
Qed.

Lemma txn_step_explained n s s' : 0 ≤ n < UINT32_MAX → txn_inv n s → explained n s → txn_step s s' →
  explained (n + 1) s'.
Proof.
  intros [_ Hn] Hi He Hstep. pose proof (λ u w, blocked_fits n s u w He) as HB.
  assert (∀ t u w, delete t (blocked s) !! u = Some w → write_fits w) as HBd
    by (intros t u w [_ Hu]%lookup_delete_Some; by eapply HB).
  assert (∀ t l, TM.set_locks (mgr s) l = mgr s → explained (n + 1) (MkTxnSys (TM.Abort (mgr s) t).1 (blocked s) (imports s)))
    as Hab by (intros t l El; rewrite <- El; by apply Abort_explained).
  destruct Hstep as [s snap Hsn|s t tid key|s t tid a b o|s t w l Ht Hb Hm Hwf E|s t w l Ht Hb Hm Hwf E
    |s t w l Hb E|s t w l st Hb E|s t cts Hc Hb|s t cts Hc|s t|s snap cts ws Hsn Hc Hws].
  - by apply Begin_explained.
  - unfold TM.Read. destruct (txns_ (mgr s) !! t) as [x|] eqn:Ex; [|by eapply quiet_explained].
    case_bool_decide; [|by eapply quiet_explained]. cbn [negb].
    destruct (LatestBuffered _ _ _) as [w|]; [destruct (is_delete w); by eapply quiet_explained|].
    destruct (Get _ _ _ _) as [st|[v ts]]; [by eapply quiet_explained|].
    eapply quiet_explained; try done. by eapply fmap_strip_insert.
  - unfold TM.Scan. destruct (txns_ (mgr s) !! t) as [x|] eqn:Ex; [|by eapply quiet_explained].
    case_bool_decide; [|by eapply quiet_explained]. cbn [negb].
    destruct (TM.scan_loop _ _ _) as [out reads]. eapply quiet_explained; try done. by eapply fmap_strip_insert.
  - by apply buffer_explained.
  - eapply quiet_explained; try done. intros u w' [[<- <-]|[_ Hu]]%lookup_insert_Some; [done|by eapply HB].
  - apply buffer_explained; eauto.
  - destruct (Acquire_timeout_held _ _ _ _ _ E) as [[-> ->]|[Hst _]]; [apply buffer_explained; eauto|].
    unfold TM.write_acquired. rewrite Hst. cbn [negb fst]. apply Abort_explained; eauto.
  - by apply Prepare_explained.
  - by apply Commit_explained.
  - apply (Hab t (lock_mgr_ (mgr s))). by destruct (mgr s).
  - by apply Import_explained.
Qed.

Lemma txn_steps_explained n s : txn_steps n (TxnSys_init db0 []) s → Z.of_nat n ≤ UINT32_MAX →
  explained (Z.of_nat n) s.
Proof.
  remember (TxnSys_init db0 []) as s0 eqn:E0.
  induction 1 as [s|n s1 s2 s3 Hs IH Hstep]; intros Hn; subst.
  - exists [], 0%nat. split; cbn; try done; try constructor; cbn; try done; try lia.
  - replace (Z.of_nat (S n)) with (Z.of_nat n + 1) by lia.
    eapply txn_step_explained; [| |apply IH|done]; [lia| |done|lia].
    eapply txn_steps_inv; [done|lia].
Qed.

(** ** What a crash loses *)

Lemma prepared_txn_unsynced rs r t : unsynced_type (type r) → record_follows (last_type_map rs !! txn_id r) r →
  prepared_txn (rs ++ [r]) t = prepared_txn rs t.
Proof.
  intros Hty Hf. unfold prepared_txn. destruct (decide (txn_id r = t)) as [<-|Hne]; [|by rewrite live_txn_other].
  unfold live_txn. rewrite last_type_snoc, lookup_insert_eq. unfold record_follows in Hf.
  destruct Hty as [E|[E|E]]; rewrite E in Hf |- *; cbn.
  - destruct Hf as [-> _]. done.
  - by destruct Hf as [[-> |[-> | ->]] _].
  - by destruct Hf as [[-> |[-> | ->]] _].
Qed.

Lemma log_ok_app_l rs rs' : log_ok (rs ++ rs') → log_ok rs.
Proof.
  induction rs' as [|r rs' IH] using rev_ind; [by rewrite app_nil_r|]. rewrite app_assoc.
  intros Hok. apply IH. inversion Hok as [E|rs1 r1 Hok' _ E]; [by destruct (rs ++ rs')|].
  apply app_inj_tail in E as [-> _]. done.
Qed.

Lemma log_ok_snoc_inv rs r : log_ok (rs ++ [r]) → record_follows (last_type_map rs !! txn_id r) r.
Proof.
  intros Hok. inversion Hok as [E|rs1 r1 Hok' Hf E]; [by destruct rs|].
  by apply app_inj_tail in E as [-> ->].
Qed.

(** Unsynced records change neither the store nor the prepared transactions. *)
Lemma unsynced_tail rs tl (db : DB) : log_ok (rs ++ tl) → Forall (λ r, unsynced_type (type r)) tl →
  ls_store (run_log (rs ++ tl) db) = ls_store (run_log rs db) ∧
  ∀ t, prepared_txn (rs ++ tl) t = prepared_txn rs t.
Proof.
  induction tl as [|r tl IH] using rev_ind; [by rewrite app_nil_r|]. rewrite app_assoc, Forall_app.
  intros Hok [HF [Hr _]%Forall_cons]. destruct (IH (log_ok_app_l _ _ Hok) HF) as [Es Et]. split.
  - rewrite run_log_snoc, <- Es. unfold log_step. by destruct Hr as [-> |[-> | ->]].
  - intros t. rewrite <- Et. apply prepared_txn_unsynced; [done|]. by apply log_ok_snoc_inv.
Qed.

(** *** The store the log is replayed on *)

Lemma ls_live_indep rs (db db' : DB) : ls_live (run_log rs db) = ls_live (run_log rs db').
Proof.
  induction rs as [|r rs IH] using rev_ind; [done|]. rewrite !run_log_snoc. unfold log_step.
  destruct (type r); cbn; by rewrite IH.
Qed.

(** A row version is written by the log, the same for every initial store, or
    it is left alone. *)
Definition row_effect (f : DB → DB) (k : bytes) : Prop :=
  (∃ v, ∀ db, rdb_contents (f db) !! k = Some v) ∨ (∀ db, rdb_contents (f db) !! k = rdb_contents db !! k).

Lemma row_effect_comp f g k : row_effect f k → row_effect g k → row_effect (λ db, g (f db)) k.
Proof.
  intros Hf [[v Hv]|Hg]; [left; eauto|].
  destruct Hf as [[v Hv]|Hf]; [left; exists v|right]; intros db; rewrite Hg; auto.
Qed.

Lemma ApplyWrites_effect ws ts k (Hrel : rdb_reliable DB) : row_effect (λ db, TM.ApplyWrites db ws ts) k.
Proof.
  induction ws as [|w ws IH] using rev_ind; [by right|].
  destruct (decide (EncodeKey (bw_table_id w) (bw_key w) ts = k)) as [<-|Hne].
  - left. exists (stored_value w). intros db. by rewrite ApplyWrites_snoc, lookup_insert_eq.
  - destruct IH as [[v Hv]|Hk]; [left; exists v|right]; intros db;
      rewrite ApplyWrites_snoc, lookup_insert_ne by done; auto.
Qed.

Lemma run_log_effect rs k (Hrel : rdb_reliable DB) : row_effect (λ db, ls_store (run_log rs db)) k.
Proof.
  induction rs as [|r rs IH] using rev_ind; [by right|].
  assert (∀ g, row_effect g k → (∀ db, ls_store (run_log (rs ++ [r]) db) = g (ls_store (run_log rs db))) →
    row_effect (λ db, ls_store (run_log (rs ++ [r]) db)) k) as Hstep.
  { intros g Hg E. pose proof (row_effect_comp _ g k IH Hg) as [[v Hv]|Hk]; [left; exists v|right];
      intros db; rewrite E; auto. }
  destruct (decide (type r = COMMIT)) as [Hc|Hc].
  - eapply (Hstep (λ db', TM.ApplyWrites db' (default [] (write_set <$> ls_live (run_log rs db0) !! txn_id r))
      (default 0 (DeserializeCommitPayload (payload r))))); [by apply ApplyWrites_effect|].
    intros db. rewrite run_log_snoc. unfold log_step. rewrite Hc. cbn. by rewrite (ls_live_indep rs db db0).
  - apply (Hstep (λ db, db)); [by right|]. intros db. rewrite run_log_snoc. unfold log_step.
    by destruct (type r).
Qed.

(** Replaying over any mix of the old and the new store gives the new store. *)
Lemma run_log_between rs (db : DB) (Hrel : rdb_reliable DB) :
  (∀ k, rdb_contents db !! k = rdb_contents db0 !! k ∨
        rdb_contents db !! k = rdb_contents (ls_store (run_log rs db0)) !! k) →
  rdb_contents (ls_store (run_log rs db)) = rdb_contents (ls_store (run_log rs db0)).
Proof.
  intros Hdb. apply map_eq. intros k. destruct (run_log_effect rs k Hrel) as [[v Hv]|Hk]; [by rewrite !Hv|].
  rewrite Hk. destruct (Hdb k) as [E|E]; rewrite E; [by rewrite Hk|done].
Qed.

(** The prepared transactions of the log are those of the manager. *)
Lemma prepared_txn_mgr n s rs ack t : log_inv n s rs ack →
  prepared_txn rs t = x ← txns_ (mgr s) !! t; if bool_decide (state x = PREPARED) then Some (strip x) else None.
Proof.
  intros Hi. unfold prepared_txn. rewrite (lg_live _ _ _ _ t Hi). by destruct (txns_ (mgr s) !! t).
Qed.

(** No row is in the write sets of two prepared transactions. *)
Definition prepared_rows_disjoint s : Prop := ∀ t u x y wx wy,
  txns_ (mgr s) !! t = Some x → txns_ (mgr s) !! u = Some y → state x = PREPARED → state y = PREPARED →
  wx ∈ write_set x → wy ∈ write_set y → (bw_table_id wx, bw_key wx) = (bw_table_id wy, bw_key wy) → t = u.
Lemma begun_here_disjoint n s : txn_inv n s → imports s = ∅ → prepared_rows_disjoint s.
Proof.
  intros Hi HI t u x y wx wy Hx Hy _ _ Hwx Hwy E.
  apply (txn_inv_disjoint n s t u x y wx wy); try done; rewrite HI; apply not_elem_of_empty.
Qed.
Lemma prepared_disjoint_mgr n s rs ack : prepared_rows_disjoint s → log_inv n s rs ack → prepared_disjoint rs.
Proof.
  intros Ht Hi.
  assert (∀ v k, k ∈ prepared_keys rs v → ∃ x w, txns_ (mgr s) !! v = Some x ∧ state x = PREPARED ∧ w ∈ write_set x ∧
    k = (bw_table_id w, bw_key w)) as Hk.
  { intros v k. unfold prepared_keys. rewrite (prepared_txn_mgr _ _ _ _ v Hi).
    destruct (txns_ (mgr s) !! v) as [x|]; cbn; [|set_solver]. case_bool_decide; cbn; [|set_solver].
    intros (w & Hw & ->)%unique_keys_elem. by exists x, w. }
  intros t u k (x & wx & Hx & Hpx & Hwx & E)%Hk (y & wy & Hy & Hpy & Hwy & E')%Hk.
  eapply (Ht t u x y wx wy); try done. by rewrite <- E, <- E'.
Qed.

Lemma shard_recovers n k s (db : DB) (Hrel : rdb_reliable DB) :
  prepared_rows_disjoint s → explained n s → n ≤ UINT32_MAX →
  (∀ key, rdb_contents db !! key = rdb_contents db0 !! key ∨
          rdb_contents db !! key = rdb_contents (store_ (mgr s)) !! key) →
  ∃ w tm', (WAL_Open (crash k [] (file (wal_ (mgr s))))).2 = inr w ∧
    Recover (MkTxnManager db w LockManager_init 1 ∅) = (tm', St.OK) ∧
    rdb_contents (store_ tm') = rdb_contents (store_ (mgr s)) ∧
    (∀ t, txns_ tm' !! t = x ← txns_ (mgr s) !! t;
                           if bool_decide (state x = PREPARED) then Some (locked_txn (strip x)) else None) ∧
    (∀ t x wr, txns_ tm' !! t = Some x → wr ∈ write_set x →
       locks_ (lock_mgr_ tm') !! row_lock wr = Some (MkLockEntry t 1 [])) ∧
    (∀ t, is_Some (txns_ tm' !! t) → t < next_txn_id_ tm').
Proof.
  intros Ht (rs & ack & Hi) Hn Hdb.
  destruct (crash_reopen _ k (lg_wal _ _ _ _ Hi) (lg_records _ _ _ _ Hi)) as (m & w & w' & Hm & Ho & _ & Hr).
  cbn [rw attempted acked] in *.
  assert (log_ok (take m rs ++ drop m rs)) as Hok by (rewrite take_drop; apply Hi).
  destruct (unsynced_tail (take m rs) (drop m rs) db0 Hok) as [Es Ep].
  { replace m with (ack + (m - ack))%nat by lia. rewrite <- drop_drop. apply Forall_drop, Hi. }
  rewrite take_drop in Es, Ep. rewrite (lg_abs _ _ _ _ Hi) in Es. cbn in Es.
  assert (prepared_disjoint (take m rs)) as Hdis.
  { intros t u key. unfold prepared_keys. rewrite <- !Ep. by apply (prepared_disjoint_mgr n s rs ack). }
  assert (Forall (λ r, 0 < txn_id r < UINT64_MAX) (take m rs)) as Hids.
  { apply Forall_take. eapply Forall_impl; [apply (lg_ids _ _ _ _ Hi)|]. intros r ?.
    pose proof (lg_next _ _ _ _ Hi). unfold UINT64_MAX, UINT32_MAX in *. simpl in *. lia. }
  destruct (Recover_spec Hrel (MkTxnManager db w LockManager_init 1 ∅) w' St.OK (take m rs) eq_refl eq_refl
    Hr (log_ok_app_l _ _ Hok) Hdis Hids) as (tm' & HR & Rs & Rt & Rl & _ & Rn).
  cbn [store_] in *. exists w, tm'.
  assert (∀ t, txns_ tm' !! t = locked_txn <$> prepared_txn rs t) as Htx.
  { intros t. rewrite Rt, Ep. unfold prepared_txn. rewrite run_log_live; [done|]. by eapply log_ok_app_l. }
  split_and!; [done|done| | |done|].
  - rewrite Rs, Es. apply run_log_between; [done|]. by rewrite <- Es.
  - intros t. rewrite Htx, (prepared_txn_mgr _ _ _ _ t Hi). destruct (txns_ (mgr s) !! t); [|done].
    cbn. by case_bool_decide.
  - intros t. rewrite Htx, Ep. intros [x Hx]. apply fmap_Some in Hx as (y & Hy & _).
    unfold prepared_txn, live_txn in Hy. assert (is_Some (last_type_map (take m rs) !! t)) as Hl
      by (destruct (last_type_map (take m rs) !! t); [eauto|done]).
    clear -Rn Hl. induction (take m rs) as [|r l IH] using rev_ind; [by destruct Hl|].
    apply Forall_app in Rn as [Rn [Hr _]%Forall_cons]. rewrite last_type_snoc in Hl.
    destruct (decide (txn_id r = t)) as [<-|]; [done|]. rewrite lookup_insert_ne in Hl by done. auto.
Qed.
End shard.

(** ** Properties *)

#[local] Existing Instance default_group_commit.

(** C31. A shard survives a crash between two operations. Take a shard that was started
    on an empty log and whose disk works, any interleaving of fewer than 2^32 operations
    of its manager (as [txn_step] has them, with imports of prepared transactions), and
    suppose that nothing was imported or, at the end, no row is in the write sets of two
    prepared transactions. Stop it there and lose any unsynced suffix of the log; of the
    store, any part of what was written since the log began may be lost as well. Then
    the log opens, [Recover] succeeds, the store again holds exactly the data of the
    shard before the crash, and the open transactions are exactly those that were
    prepared, with snapshot, commit timestamp, write set and locks. *)
Theorem shard_crash_recovery {DB : Type} `{RocksDBLaws DB} `{GroupCommit}
    (n k : nat) (db0 db : DB) (s : TxnSys DB)
    (Hrel : rdb_reliable DB) (Hrun : txn_steps n (TxnSys_init db0 []) s) (Hn : Z.of_nat n ≤ UINT32_MAX)
    (Himp : imports s = ∅ ∨ prepared_rows_disjoint s)
    (Hdb : ∀ key, rdb_contents db !! key = rdb_contents db0 !! key ∨
                  rdb_contents db !! key = rdb_contents (store_ (mgr s)) !! key) :
  ∃ w tm', (WAL_Open (crash k [] (file (wal_ (mgr s))))).2 = inr w ∧
    Recover (MkTxnManager db w LockManager_init 1 ∅) = (tm', St.OK) ∧
    rdb_contents (store_ tm') = rdb_contents (store_ (mgr s)) ∧
    (∀ t, txns_ tm' !! t = x ← txns_ (mgr s) !! t;
                           if bool_decide (state x = PREPARED) then Some (locked_txn (strip x)) else None) ∧
    (∀ t x wr, txns_ tm' !! t = Some x → wr ∈ write_set x →
       locks_ (lock_mgr_ tm') !! row_lock wr = Some (MkLockEntry t 1 [])) ∧
    (∀ t, is_Some (txns_ tm' !! t) → t < next_txn_id_ tm').
Proof.
  eapply (shard_recovers db0); eauto using txn_steps_explained.
  destruct Himp as [?|?]; [|done]. eapply begun_here_disjoint; eauto using txn_steps_inv.
Qed.

(** The shard of [lock_demo_run] after its transaction prepared. *)
Definition lock_demo3 : TxnSys MemDB := MkTxnSys (TM.Prepare (mgr lock_demo2) 1 8).1 (blocked lock_demo2) (imports lock_demo2).

Lemma lock_demo3_run : txn_steps 3 (TxnSys_init (∅ : MemDB) []) lock_demo3.
Proof. eapply txn_next; [apply lock_demo_run|]. by apply ts_prepare. Defined.

Lemma shard_crash_recovery_witness :
  ∃ w tm', (WAL_Open (crash 3 [] (file (wal_ (mgr lock_demo3))))).2 = inr w ∧
    Recover (MkTxnManager (∅ : MemDB) w LockManager_init 1 ∅) = (tm', St.OK) ∧
    rdb_contents (store_ tm') = rdb_contents (store_ (mgr lock_demo3)) ∧
    ∀ t, txns_ tm' !! t = x ← txns_ (mgr lock_demo3) !! t;
                          if bool_decide (state x = PREPARED) then Some (locked_txn (strip x)) else None.
Proof.
  destruct (shard_crash_recovery 3 3 ∅ ∅ lock_demo3 MemDB_reliable lock_demo3_run) as (w & tm' & E); [done|by left|by left|].
  exists w, tm'. split_and!; apply E.
Defined.

(** With an imported transaction and a second one prepared on the same row, [Recover]
    cannot lock the row for both and fails: the shard does not start again. *)
Theorem import_breaks_recovery :
  let tm := (TM.Begin (TM.ImportPreparedTxn demo_tm0 5 8 [MkBufferedWrite 1 [x61] [x31] false]).1 5).1 in
  let '(tm, w2) := TM.Write tm 2 1 [x61] [x32] in
  let '(tm, p2) := TM.Prepare tm 2 9 in
  w2 = St.OK ∧ p2 = St.OK ∧
  match (WAL_Open (crash 0 [] (file (wal_ tm)))).2 with
  | inr w => St.ok (Recover (MkTxnManager (∅ : MemDB) w LockManager_init 1 ∅)).2 = false
  | inl _ => False
  end.
Proof. vm_compute. done. Qed.
