(* ===== verification/CoordinatorLog.v ===== *)
(** * Coordinator log (src/src/coordinator/coordinator_log.{h,cpp})

    The decision log of two-phase commit: records, file operations, replay, and
    what the log guarantees across a crash. *)
From Stdlib Require Import Strings.Byte.
From stdpp Require Import base list strings.
From Stdlib Require Import ZArith Lia.
From S2P Require Import Prelude Status Crc32 GroupCommit LogFile Wal.
Local Open Scope Z_scope.

(** [UnnamedDecision] stands for the values of the underlying [uint8_t] that the
    enumeration does not name; replay can produce them. *)
Inductive CoordinatorLogRecordType :=
  | PREPARING | COMMITTING | COMMITTED | ABORTING | ABORTED | UnnamedDecision (v : Z).

#[export] Instance CoordinatorLogRecordType_eq_dec : EqDecision CoordinatorLogRecordType.
Proof. solve_decision. Defined.

Definition CoordinatorLogRecordType_to_Z (t : CoordinatorLogRecordType) : Z :=
  match t with
  | PREPARING => 1 | COMMITTING => 2 | COMMITTED => 3 | ABORTING => 4 | ABORTED => 5
  | UnnamedDecision v => v
  end.

Definition CoordinatorLogRecordType_of_Z (v : Z) : CoordinatorLogRecordType :=
  if v =? 1 then PREPARING else if v =? 2 then COMMITTING else if v =? 3 then COMMITTED
  else if v =? 4 then ABORTING else if v =? 5 then ABORTED else UnnamedDecision v.

Record CoordinatorLogRecord := MkCoordinatorLogRecord {
  cl_type : CoordinatorLogRecordType;
  cl_txn_id : Z;
  timestamp_us : Z;
  shards : list Z;
}.

#[export] Instance CoordinatorLogRecord_eq_dec : EqDecision CoordinatorLogRecord.
Proof. solve_decision. Defined.

(** ** Records *)

Definition AppendLe32 (dst : bytes) (v : Z) : bytes := dst ++ le_bytes 4 v.
Definition AppendLe64 (dst : bytes) (v : Z) : bytes := dst ++ le_bytes 8 v.

(** [body] of [WriteRecord] before the checksum. *)
Definition coord_body (record : CoordinatorLogRecord) : bytes :=
  let body := AppendLe64 [] (cl_txn_id record) in
  let body := AppendLe64 body (timestamp_us record) in
  let body := body ++ [byte_of_Z (CoordinatorLogRecordType_to_Z (cl_type record))] in
  let body := AppendLe32 body (u32 (Z.of_nat (length (shards record)))) in
  foldl AppendLe32 body (shards record).

Definition coord_full_body (record : CoordinatorLogRecord) : bytes :=
  let body := coord_body record in AppendLe32 body (Crc32Ieee body).

Fixpoint read_shards (shard_count pos : nat) (body : bytes) : list Z :=
  match shard_count with
  | O => []
  | S n => read_at pos 4 body :: read_shards n (pos + 4) body
  end.

(** The loop body of [Replay] on one record; [None] where the loop breaks off. *)
Definition coord_min_body : Z := 8 + 8 + 1 + 4 + 4.
Definition DecodeCoordinatorRecord (body : bytes) : option CoordinatorLogRecord :=
  let stored_crc := read_at (length body - 4) 4 body in
  let crc_region := take (length body - 4) body in
  if negb (Crc32Ieee crc_region =? stored_crc) then None
  else
    let txn_id := read_at 0 8 body in
    let timestamp_us := read_at 8 8 body in
    let type := CoordinatorLogRecordType_of_Z (byte_to_Z (nth 16 body x00)) in
    let shard_count := read_at 17 4 body in
    if negb (21 + shard_count * 4 + 4 =? Z.of_nat (length body)) then None
    else Some (MkCoordinatorLogRecord type txn_id timestamp_us
                 (read_shards (Z.to_nat shard_count) 21 body)).

(** ** The log *)

Record CoordinatorLog := MkCoordinatorLog { ofs_ : LogFile }.

Definition CoordinatorLog_Open (f : LogFile) : LogFile * result CoordinatorLog :=
  let o := next_io f in
  let f := pop_io f in
  if negb (io_open o) then (f, inl (St.IOError "CoordinatorLog open failed"))
  else
    let f := MkLogFile (content f) (durable_len f) false true (io_fd o) (io f) in
    (f, inr (MkCoordinatorLog f)).

Definition CoordinatorLog_WriteRecord (l : CoordinatorLog) (record : CoordinatorLogRecord) :
    CoordinatorLog * Status :=
  let f := stream_write (ofs_ l) (frame (coord_full_body record)) in
  (MkCoordinatorLog f, if failed f then St.IOError "CoordinatorLog write failed" else St.OK).

Definition SyncLocked (l : CoordinatorLog) : CoordinatorLog * Status :=
  let '(f, st) := DurableFileSync "CoordinatorLog" (ofs_ l) in (MkCoordinatorLog f, st).

Definition AppendWrite (l : CoordinatorLog) (record : CoordinatorLogRecord) : CoordinatorLog * Status :=
  CoordinatorLog_WriteRecord l record.

Definition CoordinatorLog_Flush `{GroupCommit} (l : CoordinatorLog) : CoordinatorLog * Status :=
  QueueSync SyncLocked l.

Definition CoordinatorLog_Append `{GroupCommit} (l : CoordinatorLog) (record : CoordinatorLogRecord) :
    CoordinatorLog * Status :=
  let '(l, ws) := AppendWrite l record in
  if negb (St.ok ws) then (l, ws) else CoordinatorLog_Flush l.

(** The log, the status and the records given to the visitor. *)
Definition CoordinatorLog_Replay (l : CoordinatorLog) :
    CoordinatorLog * Status * list CoordinatorLogRecord :=
  let f := stream_flush (ofs_ l) (next_io (ofs_ l)) in
  match ReadWholeFileBinary f with
  | (f, inl st) => (MkCoordinatorLog f, st, [])
  | (f, inr buf) => (MkCoordinatorLog f, St.OK, parse_all coord_min_body DecodeCoordinatorRecord buf)
  end.

(** ** Records round trip *)

Definition decision_ok (r : CoordinatorLogRecord) : Prop :=
  is_u64 (cl_txn_id r) ∧ is_u64 (timestamp_us r) ∧ Forall is_u32 (shards r) ∧
  cl_type r = CoordinatorLogRecordType_of_Z (CoordinatorLogRecordType_to_Z (cl_type r)) ∧
  0 ≤ CoordinatorLogRecordType_to_Z (cl_type r) < 256 ∧
  is_u32 (Z.of_nat (length (shards r)) * 4 + coord_min_body).

#[export] Instance decision_ok_dec r : Decision (decision_ok r).
Proof. unfold decision_ok. apply _. Defined.

Lemma ids_cons i ids : (i :: ids) ≫= le_bytes 4 = le_bytes 4 i ++ (ids ≫= le_bytes 4).
Proof. done. Qed.

Lemma foldl_AppendLe32 ids b : foldl AppendLe32 b ids = b ++ (ids ≫= le_bytes 4).
Proof.
  revert b. induction ids as [|i ids IH]; intros b; cbn [foldl]; [by rewrite app_nil_r|].
  rewrite IH, ids_cons. unfold AppendLe32. by rewrite <- app_assoc.
Qed.

Lemma length_ids ids : length (ids ≫= le_bytes 4) = (4 * length ids)%nat.
Proof.
  induction ids as [|i ids IH]; [done|]. rewrite ids_cons, length_app, length_le_bytes, IH. simpl. lia.
Qed.

Lemma read_shards_ids ids pre post : Forall is_u32 ids →
  read_shards (length ids) (length pre) (pre ++ (ids ≫= le_bytes 4) ++ post) = ids.
Proof.
  intros HF. revert pre. induction HF as [|i ids Hi HF IH]; intros pre; [done|].
  rewrite ids_cons, <- app_assoc. cbn [length read_shards]. f_equal.
  - rewrite read_at_le by done. apply Z.mod_small. unfold is_u32 in Hi. lia.
  - specialize (IH (pre ++ le_bytes 4 i)). rewrite length_app, length_le_bytes in IH.
    rewrite <- !app_assoc in IH. exact IH.
Qed.

Lemma coord_body_alt r : coord_body r =
  le_bytes 8 (cl_txn_id r) ++ le_bytes 8 (timestamp_us r) ++
  [byte_of_Z (CoordinatorLogRecordType_to_Z (cl_type r))] ++
  le_bytes 4 (u32 (Z.of_nat (length (shards r)))) ++ (shards r ≫= le_bytes 4).
Proof.
  unfold coord_body. rewrite foldl_AppendLe32. unfold AppendLe64, AppendLe32. by rewrite <- !app_assoc.
Qed.

Lemma length_coord_full_body r :
  length (coord_full_body r) = (25 + 4 * length (shards r))%nat.
Proof.
  unfold coord_full_body, AppendLe32. rewrite coord_body_alt. autorewrite with db_len.
  rewrite length_ids. simpl length. lia.
Qed.

Lemma Decode_coord_full_body r : decision_ok r → DecodeCoordinatorRecord (coord_full_body r) = Some r.
Proof.
  intros (Ht & Hs & Hids & Hty & Htz & Hlen). unfold coord_min_body in Hlen.
  assert (is_u32 (Z.of_nat (length (shards r)))) as Hcnt by (unfold is_u32 in *; lia).
  pose proof (length_coord_full_body r) as Hl.
  assert (coord_full_body r = coord_body r ++ le_bytes 4 (Crc32Ieee (coord_body r))) as Efull by done.
  set (crc := Crc32Ieee (coord_body r)) in *.
  assert (length (coord_full_body r) - 4 = length (coord_body r))%nat as Hb
    by (rewrite Efull, length_app, length_le_bytes; lia).
  unfold DecodeCoordinatorRecord. rewrite Hb, Hl.
  assert (take (length (coord_body r)) (coord_full_body r) = coord_body r) as ->
    by (by rewrite Efull, take_app_length).
  assert (read_at (length (coord_body r)) 4 (coord_full_body r) = crc) as ->.
  { rewrite Efull, <- (app_nil_r (le_bytes 4 crc)), read_at_le by done.
    apply Z.mod_small, Crc32Ieee_u32. }
  fold crc. rewrite Z.eqb_refl. cbn [negb].
  set (t8 := le_bytes 8 (cl_txn_id r)). set (s8 := le_bytes 8 (timestamp_us r)).
  set (ty := byte_of_Z (CoordinatorLogRecordType_to_Z (cl_type r))).
  assert (coord_full_body r = t8 ++ s8 ++ [ty] ++ le_bytes 4 (Z.of_nat (length (shards r))) ++
    (shards r ≫= le_bytes 4) ++ le_bytes 4 crc) as E.
  { rewrite Efull, coord_body_alt, u32_id by done. by rewrite <- !app_assoc. }
  assert (read_at 0 8 (coord_full_body r) = cl_txn_id r) as ->.
  { rewrite E. etransitivity; [by apply (read_at_le 0 [])|]. apply Z.mod_small. unfold is_u64 in Ht. lia. }
  assert (read_at 8 8 (coord_full_body r) = timestamp_us r) as ->.
  { rewrite E. unfold s8. rewrite read_at_le by (unfold t8; by rewrite length_le_bytes).
    apply Z.mod_small. unfold is_u64 in Hs. lia. }
  assert (read_at 17 4 (coord_full_body r) = Z.of_nat (length (shards r))) as ->.
  { rewrite E. rewrite (app_assoc t8), (app_assoc (t8 ++ s8)).
    rewrite read_at_le by (rewrite !length_app; unfold t8, s8; by rewrite !length_le_bytes).
    apply Z.mod_small. unfold is_u32 in Hcnt. lia. }
  assert (nth 16 (coord_full_body r) x00 = ty) as ->.
  { rewrite E, (app_assoc t8), app_nth2; rewrite length_app; unfold t8, s8; rewrite !length_le_bytes; [done|lia]. }
  assert (read_shards (Z.to_nat (Z.of_nat (length (shards r)))) 21 (coord_full_body r) = shards r) as ->.
  { rewrite Nat2Z.id, E. rewrite (app_assoc t8), (app_assoc (t8 ++ s8)), (app_assoc ((t8 ++ s8) ++ [ty])).
    set (pre := ((t8 ++ s8) ++ [ty]) ++ _).
    assert (21 = length pre)%nat as -> by (unfold pre; rewrite !length_app; unfold t8, s8; by rewrite !length_le_bytes).
    by apply read_shards_ids. }
  rewrite (proj2 (Z.eqb_eq _ _)) by lia. cbn [negb]. unfold ty.
  rewrite byte_to_of_Z, Z.mod_small by lia. rewrite <- Hty. by destruct r.
Qed.

Lemma decisions_decode rs : Forall decision_ok rs →
  Forall2 (λ b r, body_ok coord_min_body b ∧ DecodeCoordinatorRecord b = Some r) (coord_full_body <$> rs) rs.
Proof.
  induction 1 as [|r rs Hr _ IH]; [constructor|]. rewrite fmap_cons. constructor; [|done].
  split; [|by apply Decode_coord_full_body]. unfold body_ok. rewrite length_coord_full_body.
  destruct Hr as (_ & _ & _ & _ & _ & Hr). unfold is_u32, coord_min_body in *. lia.
Qed.

(** ** The log across a crash *)

Inductive CoordOp :=
  | OpAppendWrite (r : CoordinatorLogRecord)
  | OpFlush
  | OpAppendFlush (r : CoordinatorLogRecord).

(** The log, the records its calls tried to write and how many of them a
    successful flush has covered. *)
Record CoordRun := MkCoordRun { cr_log : CoordinatorLog; cr_tried : list CoordinatorLogRecord; cr_acked : nat }.

Definition coord_op `{GroupCommit} (s : CoordRun) (op : CoordOp) : CoordRun :=
  match op with
  | OpAppendWrite r => MkCoordRun (AppendWrite (cr_log s) r).1 (cr_tried s ++ [r]) (cr_acked s)
  | OpFlush =>
      let '(l, st) := CoordinatorLog_Flush (cr_log s) in
      MkCoordRun l (cr_tried s) (if St.ok st then length (cr_tried s) else cr_acked s)
  | OpAppendFlush r =>
      let '(l, st) := CoordinatorLog_Append (cr_log s) r in
      MkCoordRun l (cr_tried s ++ [r]) (if St.ok st then length (cr_tried s ++ [r]) else cr_acked s)
  end.

Definition coord_ops `{GroupCommit} (ios : list Io) (ops : list CoordOp) : CoordRun :=
  foldl coord_op (MkCoordRun (MkCoordinatorLog (empty_file ios)) [] 0) ops.

Definition coord_inv (s : CoordRun) : Prop :=
  file_inv (ofs_ (cr_log s)) (coord_full_body <$> cr_tried s) (cr_acked s).

#[global] Arguments coord_full_body : simpl never.

Lemma AppendWrite_inv s r : coord_inv s →
  coord_inv (MkCoordRun (AppendWrite (cr_log s) r).1 (cr_tried s ++ [r]) (cr_acked s)).
Proof. intros Hi. unfold coord_inv. cbn. rewrite fmap_app. by apply stream_write_inv. Qed.

Lemma SyncLocked_inv s : coord_inv s →
  coord_inv (MkCoordRun (SyncLocked (cr_log s)).1 (cr_tried s)
    (if St.ok (SyncLocked (cr_log s)).2 then length (cr_tried s) else cr_acked s)).
Proof.
  intros Hi. pose proof (DurableFileSync_inv "CoordinatorLog" _ _ _ Hi) as Hs. rewrite length_fmap in Hs.
  unfold SyncLocked, coord_inv. by destruct (DurableFileSync "CoordinatorLog" (ofs_ (cr_log s))).
Qed.

Lemma Flush_SyncLocked `{GroupCommit} l : CoordinatorLog_Flush l = SyncLocked l.
Proof.
  unfold CoordinatorLog_Flush. apply QueueSync_flush. unfold SyncLocked.
  pose proof (DurableFileSync_not_ok "CoordinatorLog" (ofs_ l)) as Hd.
  by destruct (DurableFileSync "CoordinatorLog" (ofs_ l)).
Qed.

Lemma coord_op_inv `{GroupCommit} s op : coord_inv s → coord_inv (coord_op s op).
Proof.
  intros Hi. destruct op as [r| |r]; cbn [coord_op].
  - by apply AppendWrite_inv.
  - rewrite Flush_SyncLocked. pose proof (SyncLocked_inv s Hi) as Hs. by destruct (SyncLocked (cr_log s)).
  - unfold CoordinatorLog_Append. pose proof (AppendWrite_inv s r Hi) as Hi'.
    destruct (AppendWrite (cr_log s) r) as [l st]. cbn [fst] in Hi'.
    destruct (St.ok st) eqn:Est; cbn [negb]; [|by rewrite Est].
    rewrite Flush_SyncLocked. pose proof (SyncLocked_inv _ Hi') as Hs. cbn [cr_log cr_tried cr_acked] in Hs.
    by destruct (SyncLocked l).
Qed.

Lemma coord_ops_inv `{GroupCommit} ios ops : coord_inv (coord_ops ios ops).
Proof.
  unfold coord_ops. assert (coord_inv (MkCoordRun (MkCoordinatorLog (empty_file ios)) [] 0)) as Hi
    by (split; simpl; try done; lia).
  revert Hi. generalize (MkCoordRun (MkCoordinatorLog (empty_file ios)) [] 0).
  induction ops as [|op ops IH]; intros s Hi; simpl; [done|]. apply IH. by apply coord_op_inv.
Qed.

(** ** Properties *)

#[local] Existing Instance default_group_commit.

(** The decision log keeps its promises across a crash: after any sequence of
    writes and flushes with any I/O failures, and a crash that keeps any prefix of
    the file containing its synced part, the log opens and replay visits an
    initial segment of the records that were written, uncorrupted and in order,
    with every record that a successful flush covered. *)
Theorem coordinator_log_crash_recovery `{GroupCommit} (ios : list Io) (ops : list CoordOp) (n : nat)
    (Hok : Forall decision_ok (cr_tried (coord_ops ios ops))) :
  let s := coord_ops ios ops in
  ∃ m l, (cr_acked s ≤ m ≤ length (cr_tried s))%nat ∧
    (CoordinatorLog_Open (crash n [] (ofs_ (cr_log s)))).2 = inr l ∧
    (CoordinatorLog_Replay l).1.2 = St.OK ∧ (CoordinatorLog_Replay l).2 = take m (cr_tried s).
Proof.
  intros s. destruct (crash_parse coord_min_body DecodeCoordinatorRecord _ _ _ _ n []
    (decisions_decode _ Hok) (coord_ops_inv ios ops)) as (m & Hm & Hp). fold s in Hm, Hp.
  set (f := crash n [] (ofs_ (cr_log s))) in *.
  exists m, (MkCoordinatorLog (MkLogFile (content f) (durable_len f) false true true [])).
  split; [done|]. split; [done|].
  assert (CoordinatorLog_Replay (MkCoordinatorLog (MkLogFile (content f) (durable_len f) false true true [])) =
    (MkCoordinatorLog (MkLogFile (content f) (durable_len f) false true true []), St.OK, take m (cr_tried s))) as ->.
  { unfold CoordinatorLog_Replay. rewrite ReadWholeFileBinary_ok by done.
    cbn [content stream_flush next_io io default head io_ok io_flush ofs_ pop_io]. rewrite Hp. done. }
  done.
Qed.

(** A flushed PREPARING record, then a write that fails in the middle. *)
Definition coord_demo_ops : list CoordOp :=
  [OpAppendFlush (MkCoordinatorLogRecord PREPARING 1 100 [0; 1]); OpAppendWrite (MkCoordinatorLogRecord COMMITTING 1 101 [])].
Definition coord_demo_ios : list Io := [io_ok; io_ok; MkIo (Some 7%nat) None true None true true true].

Lemma coordinator_log_crash_recovery_witness :
  let s := coord_ops coord_demo_ios coord_demo_ops in
  cr_acked s = 1%nat ∧ ∃ m l, (cr_acked s ≤ m ≤ length (cr_tried s))%nat ∧
    (CoordinatorLog_Open (crash 0 [] (ofs_ (cr_log s)))).2 = inr l ∧
    (CoordinatorLog_Replay l).1.2 = St.OK ∧ (CoordinatorLog_Replay l).2 = take m (cr_tried s).
Proof.
  split; [vm_compute; reflexivity|].
  apply (coordinator_log_crash_recovery coord_demo_ios coord_demo_ops 0).
  refine (bool_decide_unpack (Forall decision_ok _) _). vm_compute. exact I.
Defined.
