(* ===== verification/Effects.v ===== *)
(** * Programs that interact with their environment

    The coordinator and the Raft node call out to other machines and to the disk
    between their own computations. Such code is modelled as a tree of actions
    ([Prog]); a run of it is a list of events, an action with the answer the
    environment gave, and may stop anywhere (a crash). *)
From stdpp Require Import base list.
From S2P Require Import Prelude.

Section prog.
Context {action : Type} {result_of : action → Type}.

Inductive Prog (A : Type) : Type :=
  | Ret (a : A)
  | Act (a : action) (k : result_of a → Prog A).
Arguments Ret {A}.
Arguments Act {A}.

Fixpoint prog_bind {A B} (p : Prog A) (f : A → Prog B) : Prog B :=
  match p with
  | Ret a => f a
  | Act a k => Act a (λ r, prog_bind (k r) f)
  end.

Definition act (a : action) : Prog (result_of a) := Act a Ret.

(** An action and its answer. *)
Definition Event : Type := sigT result_of.
Definition Ev (a : action) (r : result_of a) : Event := existT a r.

(** [path p tr o]: [p] can run through the events [tr]; [o] is its result, or
    [None] when the run stops after [tr]. *)
Fixpoint path {A} (p : Prog A) (tr : list Event) (o : option A) : Prop :=
  match p with
  | Ret a => tr = [] ∧ (o = None ∨ o = Some a)
  | Act a k => (tr = [] ∧ o = None) ∨ ∃ r tr', tr = Ev a r :: tr' ∧ path (k r) tr' o
  end.

(** Running a program against an environment. *)
Fixpoint run {A S} (h : S → ∀ a, S * result_of a) (s : S) (p : Prog A) : S * list Event * A :=
  match p with
  | Ret a => (s, [], a)
  | Act a k =>
      let '(s, r) := h s a in
      let '(s, tr, x) := run h s (k r) in (s, Ev a r :: tr, x)
  end.

Lemma run_path {A S} (h : S → ∀ a, S * result_of a) (p : Prog A) s :
  path p (run h s p).1.2 (Some (run h s p).2).
Proof.
  revert s. induction p as [a|a k IH]; intros s; simpl; [by auto|].
  destruct (h s a) as [s' r]. specialize (IH r s'). destruct (run h s' (k r)) as [[s'' tr] x].
  right. by exists r, tr.
Qed.

(** The answers of a run are those of its environment. *)
Lemma run_answers {A S} (h : S → ∀ a, S * result_of a) (p : Prog A) s e :
  e ∈ (run h s p).1.2 → ∃ s', projT2 e = (h s' (projT1 e)).2.
Proof.
  revert s. induction p as [x|a' k IH]; intros s; simpl; [by intros ?%elem_of_nil|].
  destruct (h s a') as [s' r'] eqn:E. specialize (IH r' s'). destruct (run h s' (k r')) as [[s'' tr] x]. simpl in *.
  intros [->|Hin]%elem_of_cons; [|by apply IH]. exists s. simpl. by rewrite E.
Qed.

(** A run can stop at any point. *)
Lemma path_prefix {A} (p : Prog A) tr1 tr2 o : path p (tr1 ++ tr2) o → path p tr1 (match tr2 with [] => o | _ => None end).
Proof.
  revert tr1. induction p as [a|a k IH]; intros tr1; simpl.
  - intros [[-> ->]%app_eq_nil Ho]. auto.
  - destruct tr1 as [|e tr1]; simpl.
    + intros [[-> ->]|(r & tr' & -> & Hp)]; auto.
    + intros [[? _]|(r & tr' & E & Hp)]; [done|]. injection E as -> <-. right. exists r, tr1. auto.
Qed.

Lemma path_bind_inv {A B} (p : Prog A) (f : A → Prog B) tr o : path (prog_bind p f) tr o →
  (path p tr None ∧ o = None) ∨
  ∃ tr1 tr2 a, tr = tr1 ++ tr2 ∧ path p tr1 (Some a) ∧ path (f a) tr2 o.
Proof.
  revert tr. induction p as [a|a k IH]; intros tr; simpl.
  - intros Hp. right. exists [], tr, a. auto.
  - intros [[-> ->]|(r & tr' & -> & Hp)]; [by auto|].
    destruct (IH r tr' Hp) as [[Hk ->]|(tr1 & tr2 & x & -> & Hk & Hf)].
    + left. split; [|done]. right. eauto.
    + right. exists (Ev a r :: tr1), tr2, x. split_and!; [done| |done]. right. eauto.
Qed.

Lemma path_bind {A B} (p : Prog A) (f : A → Prog B) tr1 tr2 a o :
  path p tr1 (Some a) → path (f a) tr2 o → path (prog_bind p f) (tr1 ++ tr2) o.
Proof.
  revert tr1. induction p as [x|x k IH]; intros tr1 Hp Hf; simpl in *.
  - destruct Hp as [-> [?|?]]; by simplify_eq.
  - destruct Hp as [[_ ?]|(r & tr' & -> & Hp)]; [done|]. right. exists r, (tr' ++ tr2). auto.
Qed.
End prog.
Arguments Prog {action} result_of A.
Arguments Ret {action result_of A}.
Arguments Act {action result_of A}.
