(* ===== verification/ShardMessages.v ===== *)
(** * Messages of the shard service (src/proto/shard.proto)

    The requests and responses that the coordinator and the shard servers
    exchange; fields as in the protocol definition. *)
From stdpp Require Import base list strings.
From Stdlib Require Import ZArith.
From S2P Require Import Prelude Status.
Local Open Scope Z_scope.

Inductive OpType := OP_BEGIN | OP_READ | OP_WRITE | OP_DELETE | OP_SCAN | OP_OTHER (v : Z).

Record ExecuteRequest := MkExecuteRequest {
  eq_raft_txn_id : Z;
  eq_op : OpType;
  eq_table_id : Z;
  eq_key : bytes;
  eq_value : bytes;
  eq_snapshot_ts : Z;
  eq_range_start_pk : bytes;
  eq_range_end_exclusive : bytes;
  eq_range_end_open : bool;
}.

(** [error_code] carries a [StatusCode] ([ErrorCode] in shard_server.cpp). *)
Record ExecuteResponse := MkExecuteResponse {
  er_ok : bool;
  er_error_code : StatusCode;
  er_error_message : string;
  er_value : bytes;
  er_scan_rows : list (bytes * bytes);
}.

Record PrepareResponse := MkPrepareResponse { vote_commit : bool; pr_error_message : string }.
Record CommitResponse := MkCommitResponse { cr_ok : bool; cr_error_message : string }.
Record AbortResponse := MkAbortResponse { ar_ok : bool }.

Inductive TxnStateCode := TXN_UNKNOWN | TXN_IN_FLIGHT | TXN_PREPARED | TXN_COMMITTED | TXN_ABORTED.
#[export] Instance TxnStateCode_eq_dec : EqDecision TxnStateCode.
Proof. solve_decision. Defined.
Record TxnStateResponse := MkTxnStateResponse { tsr_ok : bool; tsr_state : TxnStateCode }.

Inductive JoinPhysicalOp := JOIN_OP_BROADCAST | JOIN_OP_SHUFFLE | JOIN_OP_OTHER (v : Z).
Record JoinRowPayload := MkJoinRowPayload { row_bytes_ : bytes; join_key : bytes }.
(** A [JoinOutputRow]: the names and values of its columns. *)
Abbreviation JoinOutputRow := (list (bytes * bytes)).

Record DistributedJoinRequest := MkDistributedJoinRequest {
  jq_raft_txn_id : Z;
  jq_op : JoinPhysicalOp;
  build_table_id : Z;
  probe_table_id : Z;
  build_join_col : bytes;
  probe_join_col : bytes;
  broadcast_build_rows : list JoinRowPayload;
  shuffle_build_rows : list JoinRowPayload;
  shuffle_probe_rows : list JoinRowPayload;
  build_column_names : list bytes;
  probe_column_names : list bytes;
  build_table_name : bytes;
  probe_table_name : bytes;
}.
Record DistributedJoinResponse := MkDistributedJoinResponse {
  jr_ok : bool;
  jr_error_code : StatusCode;
  jr_error_message : string;
  jr_rows : list JoinOutputRow;
}.

(** A message whose fields have their default values. *)
Definition ExecuteResponse0 : ExecuteResponse := MkExecuteResponse false Ok "" [] [].
Definition PrepareResponse0 : PrepareResponse := MkPrepareResponse false "".
Definition CommitResponse0 : CommitResponse := MkCommitResponse false "".
Definition TxnStateResponse0 : TxnStateResponse := MkTxnStateResponse false TXN_UNKNOWN.
Definition DistributedJoinResponse0 : DistributedJoinResponse := MkDistributedJoinResponse false Ok "" [].
