(* ===== verification/Coordinator.v ===== *)
(** * Coordinator (src/src/coordinator/coordinator.{h,cpp}, timestamp.h)

    Transactions across shards: routing, two-phase commit, the decision log and
    recovery from it. The coordinator's calls to shards, to its log and to the
    clock are actions of a [Prog]; its own state is passed along. *)
From Stdlib Require Import Strings.Byte.
From stdpp Require Import base gmap sets list strings sorting.
From Stdlib Require Import ZArith Lia.
From S2P Require Import Prelude Status CoordinatorLog Effects ShardMessages.
Local Open Scope Z_scope.

(** ** Actions *)

(** [ShardService::Stub]: the connection to a shard or to one replica of it. *)
Inductive Stub := PrimaryStub (shard_id : Z) | ReplicaStub (shard_id : Z) (replica : nat).
Definition stub_shard (s : Stub) : Z :=
  match s with PrimaryStub i => i | ReplicaStub i _ => i end.

(** The answer of a call is [None] when the gRPC status is not ok. *)
Inductive CoordAction :=
  | ALogWrite (rec : CoordinatorLogRecord)
  | ALogFlush
  | ALogReplay
  | AClock
  | AExecute (s : Stub) (req : ExecuteRequest)
  | APrepare (s : Stub) (txn commit_ts : Z)
  | ACommit (s : Stub) (txn commit_ts : Z)
  | AAbort (s : Stub) (txn : Z)
  | AQuery (s : Stub) (txn : Z)
  | AJoin (s : Stub) (req : DistributedJoinRequest).

Definition coord_result (a : CoordAction) : Type :=
  match a with
  | ALogWrite _ | ALogFlush => Status
  | ALogReplay => (Status * list CoordinatorLogRecord)%type
  | AClock => Z
  | AExecute _ _ => option ExecuteResponse
  | APrepare _ _ _ => option PrepareResponse
  | ACommit _ _ _ => option CommitResponse
  | AAbort _ _ => option AbortResponse
  | AQuery _ _ => option TxnStateResponse
  | AJoin _ _ => option DistributedJoinResponse
  end.

(** ** State *)

Record CoordinatorTxn := MkCoordinatorTxn {
  raft_txn_id : Z;
  c_snapshot_ts : Z;
  participant_shards : gset Z;
  aborted : bool;
}.

(** [stubs_] is the set of shards with a primary connection, [replica_stubs_] the
    number of replica connections of a shard. *)
Record Coordinator := MkCoordinator {
  num_shards_ : Z;
  ts_oracle_ : Z;
  next_raft_id_ : Z;
  c_txns_ : gmap Z CoordinatorTxn;
  stubs_ : gset Z;
  replica_stubs_ : gmap Z nat;
  active_replica_index_ : gmap Z nat;
}.

Definition set_ts (c : Coordinator) (ts : Z) : Coordinator :=
  MkCoordinator (num_shards_ c) ts (next_raft_id_ c) (c_txns_ c) (stubs_ c) (replica_stubs_ c)
    (active_replica_index_ c).
Definition set_ctxns (c : Coordinator) (m : gmap Z CoordinatorTxn) : Coordinator :=
  MkCoordinator (num_shards_ c) (ts_oracle_ c) (next_raft_id_ c) m (stubs_ c) (replica_stubs_ c)
    (active_replica_index_ c).
Definition set_active (c : Coordinator) (m : gmap Z nat) : Coordinator :=
  MkCoordinator (num_shards_ c) (ts_oracle_ c) (next_raft_id_ c) (c_txns_ c) (stubs_ c)
    (replica_stubs_ c) m.

(** [TimestampOracle::Now] is [fetch_add(1)]. *)
Definition oracle_now (current : Z) : Z * Z := (u64 (current + 1), current).

(** ** The monad: coordinator state and actions *)

Definition CM (A : Type) : Type := Coordinator → Prog coord_result (Coordinator * A).
#[export] Instance CM_ret : MRet CM := λ A a c, Ret (c, a).
#[export] Instance CM_bind : MBind CM := λ A B f m c, prog_bind (m c) (λ ca, f ca.2 ca.1).

Definition perform (a : CoordAction) : CM (coord_result a) := λ c, Act a (λ r, Ret (c, r)).
Definition get_state : CM Coordinator := λ c, Ret (c, c).
Definition set_state (c : Coordinator) : CM () := λ _, Ret (c, ()).

(** The tasks of a list of [std::async] calls, joined in order. They work on different
    shards: of the state they share they use the entries of their own shard only, so each
    task does what it does here however the tasks overlap, and only the order of calls to
    different shards is a choice of the model. [TwoPhaseCommit] moreover goes on to abort
    at the first vote against the transaction, while prepare requests to later shards may
    be on their way; [overlapped] in Atomicity.v describes the traces that the overlapping
    gives. *)
Fixpoint fan_out {A B} (task : A → CM B) (l : list A) : CM (list B) :=
  match l with
  | [] => mret []
  | x :: l => y ← task x; ys ← fan_out task l; mret (y :: ys)
  end.

Module Coord.

(** The state the constructor builds from the shard ids, the number of shards and
    the number of replica addresses per shard; [None] where it throws. [Recover]
    runs on it before the constructor returns. *)
Definition new_coordinator (shard_ids : list Z) (num_shards : Z) (replicas : list (Z * nat)) :
    option Coordinator :=
  if forallb (λ id, id <? num_shards) shard_ids then
    let replicas := filter (λ r, r.1 < num_shards ∧ r.2 ≠ 0%nat) replicas in
    Some (MkCoordinator num_shards 1 1 ∅ (list_to_set shard_ids) (list_to_map replicas)
            (list_to_map ((λ id, (id, 0%nat)) <$> (shard_ids ++ replicas.*1))))
  else None.

(** *** Routing *)

Definition kFnvOffset : Z := 14695981039346656037.
Definition kFnvPrime : Z := 1099511628211.
Definition fnv_hash (key : bytes) : Z :=
  foldl (λ hash c, u64 (Z.lxor hash (byte_to_Z c) * kFnvPrime)) kFnvOffset key.
Definition RouteShard (c : Coordinator) (key : bytes) : Z := fnv_hash key mod Z.max 1 (num_shards_ c).

Definition find_in (sub s : string) : bool :=
  match String.index 0 sub s with Some _ => true | None => false end.
Definition IsLeaderUnavailableMessage (message : string) : bool :=
  find_in "no raft leader" message || find_in "no leader" message.

(** *** Connections *)

Definition GetStub (shard_id : Z) : CM (option Stub) :=
  c ← get_state;
  mret match replica_stubs_ c !! shard_id with
       | Some (S _) => Some (ReplicaStub shard_id (default 0%nat (active_replica_index_ c !! shard_id)))
       | _ => if decide (shard_id ∈ stubs_ c) then Some (PrimaryStub shard_id) else None
       end.

Definition RotateStub (shard_id : Z) : CM () :=
  c ← get_state;
  match replica_stubs_ c !! shard_id with
  | None => mret ()
  | Some n =>
      if (n <=? 1)%nat then mret ()
      else
        let idx := default 0%nat (active_replica_index_ c !! shard_id) in
        set_state (set_active c (<[shard_id := ((idx + 1) mod n)%nat]> (active_replica_index_ c)))
  end.

Definition attempts (c : Coordinator) (shard_id : Z) : nat :=
  match replica_stubs_ c !! shard_id with Some n => Nat.max 1 n | None => 1 end.

(** *** Calls *)

(** The status of a delivered response and the value it assigns. *)
Definition FromExecuteResponse (resp : ExecuteResponse) : Status * option bytes :=
  if negb (er_ok resp) then (St.Error (er_error_code resp) (er_error_message resp), None)
  else (St.OK, match er_value resp with [] => None | v => Some v end).

Definition RpcExecuteOnShard (shard_id : Z) (req : ExecuteRequest) : CM (option ExecuteResponse) :=
  stub ← GetStub shard_id;
  match stub with
  | None => mret None
  | Some s => perform (AExecute s req)
  end.

Definition kLeaderRetryAttempts : nat := 60.

(** Status, assigned value and response of [ExecuteWithLeaderRetry]. *)
Fixpoint execute_retry (a : nat) (shard_id : Z) (req : ExecuteRequest) (resp : ExecuteResponse) :
    CM (Status * option bytes * ExecuteResponse) :=
  match a with
  | O => mret (St.IOError "no raft leader available on shard", None, resp)
  | S a =>
      r ← RpcExecuteOnShard shard_id req;
      match r with
      | None => RotateStub shard_id ;; execute_retry a shard_id req resp
      | Some resp =>
          let '(st, v) := FromExecuteResponse resp in
          if St.ok st then mret (st, v, resp)
          else if negb (IsLeaderUnavailableMessage (message st)) then mret (st, None, resp)
          else RotateStub shard_id ;; execute_retry a shard_id req resp
      end
  end.
Definition ExecuteWithLeaderRetry (shard_id : Z) (req : ExecuteRequest) :
    CM (Status * option bytes * ExecuteResponse) :=
  execute_retry kLeaderRetryAttempts shard_id req ExecuteResponse0.

Fixpoint prepare_loop (a : nat) (shard_id txn ts : Z) (resp : PrepareResponse) :
    CM (bool * PrepareResponse) :=
  match a with
  | O => mret (false, resp)
  | S a =>
      stub ← GetStub shard_id;
      match stub with
      | None => mret (false, resp)
      | Some s =>
          r ← perform (APrepare s txn ts);
          let resp := default resp r in
          if bool_decide (is_Some r) && vote_commit resp then mret (true, resp)
          else if negb (bool_decide (pr_error_message resp = "")) &&
                  negb (IsLeaderUnavailableMessage (pr_error_message resp)) then mret (false, resp)
          else RotateStub shard_id ;; prepare_loop a shard_id txn ts resp
      end
  end.
Definition PrepareOnShard (shard_id txn ts : Z) : CM (bool * PrepareResponse) :=
  c ← get_state; prepare_loop (attempts c shard_id) shard_id txn ts PrepareResponse0.

Fixpoint commit_loop (a : nat) (shard_id txn ts : Z) (resp : CommitResponse) : CM bool :=
  match a with
  | O => mret false
  | S a =>
      stub ← GetStub shard_id;
      match stub with
      | None => mret false
      | Some s =>
          r ← perform (ACommit s txn ts);
          let resp := default resp r in
          if bool_decide (is_Some r) && cr_ok resp then mret true
          else if negb (bool_decide (cr_error_message resp = "")) &&
                  negb (IsLeaderUnavailableMessage (cr_error_message resp)) then mret false
          else RotateStub shard_id ;; commit_loop a shard_id txn ts resp
      end
  end.
Definition CommitOnShard (shard_id txn ts : Z) : CM bool :=
  c ← get_state; commit_loop (attempts c shard_id) shard_id txn ts CommitResponse0.

Fixpoint abort_loop (a : nat) (shard_id txn : Z) : CM bool :=
  match a with
  | O => mret false
  | S a =>
      stub ← GetStub shard_id;
      match stub with
      | None => mret false
      | Some s =>
          r ← perform (AAbort s txn);
          match r with
          | Some _ => mret true
          | None => RotateStub shard_id ;; abort_loop a shard_id txn
          end
      end
  end.
Definition AbortOnShard (shard_id txn : Z) : CM bool :=
  c ← get_state; abort_loop (attempts c shard_id) shard_id txn.

Fixpoint query_loop (a : nat) (shard_id txn : Z) (resp : TxnStateResponse) :
    CM (bool * TxnStateResponse) :=
  match a with
  | O => mret (false, resp)
  | S a =>
      stub ← GetStub shard_id;
      match stub with
      | None => mret (false, resp)
      | Some s =>
          r ← perform (AQuery s txn);
          let resp := default resp r in
          if bool_decide (is_Some r) && tsr_ok resp then mret (true, resp)
          else RotateStub shard_id ;; query_loop a shard_id txn resp
      end
  end.
Definition QueryTxnStateOnShard (shard_id txn : Z) : CM (bool * TxnStateResponse) :=
  c ← get_state; query_loop (attempts c shard_id) shard_id txn TxnStateResponse0.

Definition QueryShardTxnState (shard_id txn : Z) : CM TxnStateCode :=
  r ← QueryTxnStateOnShard shard_id txn;
  mret (if negb r.1 then TXN_UNKNOWN else tsr_state r.2).

(** *** The decision log *)

Definition AppendCoordinatorRecordWrite (type : CoordinatorLogRecordType) (txn_id : Z)
    (shards : list Z) : CM Status :=
  now ← perform AClock;
  perform (ALogWrite (MkCoordinatorLogRecord type txn_id (u64 now) shards)).

Definition FlushCoordinatorLog : CM Status := perform ALogFlush.

Definition AppendCoordinatorRecord (type : CoordinatorLogRecordType) (txn_id : Z) (shards : list Z) :
    CM Status :=
  ws ← AppendCoordinatorRecordWrite type txn_id shards;
  if negb (St.ok ws) then mret ws else FlushCoordinatorLog.

Definition Now : CM Z :=
  c ← get_state;
  let '(ts, now) := oracle_now (ts_oracle_ c) in
  set_state (set_ts c ts) ;; mret now.

(** *** Transactions *)

Definition Begin : CM Z :=
  c ← get_state;
  let raft_txn_id := next_raft_id_ c in
  let '(ts, snap) := oracle_now (ts_oracle_ c) in
  set_state (MkCoordinator (num_shards_ c) ts (u64 (next_raft_id_ c + 1))
    (<[raft_txn_id := MkCoordinatorTxn raft_txn_id snap ∅ false]> (c_txns_ c))
    (stubs_ c) (replica_stubs_ c) (active_replica_index_ c)) ;;
  mret raft_txn_id.

Definition exec_request (txn : Z) (op : OpType) (table_id : Z) (key value : bytes) : ExecuteRequest :=
  MkExecuteRequest txn op table_id key value 0 [] [] false.

(** [txn] is the shared object in [txns_] under [txn_id]. *)
Definition EnsureShardParticipant (txn_id : Z) (txn : CoordinatorTxn) (shard_id : Z) : CM Status :=
  if decide (shard_id ∈ participant_shards txn) then mret St.OK
  else
    r ← ExecuteWithLeaderRetry shard_id
          (MkExecuteRequest (raft_txn_id txn) OP_BEGIN 0 [] [] (c_snapshot_ts txn) [] [] false);
    let st := r.1.1 in
    if St.ok st then
      c ← get_state;
      set_state (set_ctxns c (alter (λ t, MkCoordinatorTxn (raft_txn_id t) (c_snapshot_ts t)
                                            ({[shard_id]} ∪ participant_shards t) (aborted t))
                               txn_id (c_txns_ c))) ;;
      mret st
    else mret st.

Definition unknown_txn : Status := St.Error InvalidArgument "unknown txn".
Definition txn_aborted : Status := St.Error InvalidArgument "txn aborted".

(** The common part of [Read], [Write] and [Delete]. *)
Definition key_request (txn_id : Z) (key : bytes) (req : CoordinatorTxn → ExecuteRequest) :
    CM (Status * option bytes) :=
  c ← get_state;
  match c_txns_ c !! txn_id with
  | None => mret (unknown_txn, None)
  | Some txn =>
      if aborted txn then mret (txn_aborted, None)
      else
        let shard_id := RouteShard c key in
        es ← EnsureShardParticipant txn_id txn shard_id;
        if negb (St.ok es) then mret (es, None)
        else r ← ExecuteWithLeaderRetry shard_id (req txn); mret r.1
  end.

Definition Read (txn_id table_id : Z) (key : bytes) : CM (Status * option bytes) :=
  key_request txn_id key (λ txn, exec_request (raft_txn_id txn) OP_READ table_id key []).
Definition Write (txn_id table_id : Z) (key value : bytes) : CM Status :=
  r ← key_request txn_id key (λ txn, exec_request (raft_txn_id txn) OP_WRITE table_id key value);
  mret r.1.
Definition Delete (txn_id table_id : Z) (key : bytes) : CM Status :=
  r ← key_request txn_id key (λ txn, exec_request (raft_txn_id txn) OP_DELETE table_id key []);
  mret r.1.

(** The shards 0, 1, ..., [num_shards_ - 1]. *)
Definition all_shards (c : Coordinator) : list Z := seqZ 0 (num_shards_ c).

(** The participation of one shard does not depend on that of the others. *)
Fixpoint ensure_all (txn_id : Z) (txn : CoordinatorTxn) (sids : list Z) : CM Status :=
  match sids with
  | [] => mret St.OK
  | sid :: sids =>
      es ← EnsureShardParticipant txn_id txn sid;
      if negb (St.ok es) then mret es else ensure_all txn_id txn sids
  end.

(** The rows of all shards up to the first failed one. *)
Fixpoint collect_rows (rs : list (Status * list (bytes * bytes))) : Status * list (bytes * bytes) :=
  match rs with
  | [] => (St.OK, [])
  | (st, rows) :: rs =>
      if negb (St.ok st) then (st, []) else let '(st, rest) := collect_rows rs in (st, rows ++ rest)
  end.

Definition row_first_le (a b : bytes * bytes) : Prop := bytes_le a.1 b.1.
#[global] Instance row_first_le_dec a b : Decision (row_first_le a b).
Proof. unfold row_first_le. apply _. Defined.

Definition Scan (txn_id table_id : Z) (range_start_pk range_end_exclusive : bytes)
    (range_end_open : bool) : CM (Status * list (bytes * bytes)) :=
  c ← get_state;
  match c_txns_ c !! txn_id with
  | None => mret (unknown_txn, [])
  | Some txn =>
      if aborted txn then mret (txn_aborted, [])
      else
        es ← ensure_all txn_id txn (all_shards c);
        if negb (St.ok es) then mret (es, [])
        else
          rs ← fan_out (λ sid,
                 r ← ExecuteWithLeaderRetry sid
                       (MkExecuteRequest (raft_txn_id txn) OP_SCAN table_id [] [] 0
                          range_start_pk range_end_exclusive range_end_open);
                 mret (r.1.1, if negb (St.ok r.1.1) then [] else er_scan_rows r.2))
               (all_shards c);
          let '(st, rows) := collect_rows rs in
          if negb (St.ok st) then mret (st, rows) else mret (St.OK, merge_sort row_first_le rows)
  end.

(** *** Joins *)

Definition RpcDistributedJoinOnShard (shard_id : Z) (req : DistributedJoinRequest) :
    CM (option DistributedJoinResponse) :=
  stub ← GetStub shard_id;
  match stub with
  | None => mret None
  | Some s => perform (AJoin s req)
  end.

Fixpoint join_retry (a : nat) (shard_id : Z) (req : DistributedJoinRequest) (resp : DistributedJoinResponse) :
    CM (Status * DistributedJoinResponse) :=
  match a with
  | O => mret (St.IOError "no raft leader available on shard", resp)
  | S a =>
      r ← RpcDistributedJoinOnShard shard_id req;
      match r with
      | None => RotateStub shard_id ;; join_retry a shard_id req resp
      | Some resp =>
          if jr_ok resp then mret (St.OK, resp)
          else if negb (bool_decide (jr_error_message resp = "")) &&
                  negb (IsLeaderUnavailableMessage (jr_error_message resp)) then
            mret (St.Error (jr_error_code resp) (jr_error_message resp), resp)
          else RotateStub shard_id ;; join_retry a shard_id req resp
      end
  end.

Definition set_raft_txn_id (req : DistributedJoinRequest) (id : Z) : DistributedJoinRequest :=
  MkDistributedJoinRequest id (jq_op req) (build_table_id req) (probe_table_id req) (build_join_col req)
    (probe_join_col req) (broadcast_build_rows req) (shuffle_build_rows req) (shuffle_probe_rows req)
    (build_column_names req) (probe_column_names req) (build_table_name req) (probe_table_name req).

Definition DistributedJoinOnShard (shard_id : Z) (req : DistributedJoinRequest) :
    CM (Status * DistributedJoinResponse) :=
  c ← get_state;
  let txn_id := jq_raft_txn_id req in
  match c_txns_ c !! txn_id with
  | None => mret (unknown_txn, DistributedJoinResponse0)
  | Some txn =>
      if aborted txn then mret (txn_aborted, DistributedJoinResponse0)
      else if num_shards_ c <=? shard_id then
        mret (St.Error InvalidArgument "unknown shard id", DistributedJoinResponse0)
      else
        es ← EnsureShardParticipant txn_id txn shard_id;
        if negb (St.ok es) then mret (es, DistributedJoinResponse0)
        else join_retry kLeaderRetryAttempts shard_id (set_raft_txn_id req (raft_txn_id txn)) DistributedJoinResponse0
  end.

(** *** Commit *)

Definition SingleShardCommit (txn shard_id commit_ts : Z) : CM Status :=
  ls ← AppendCoordinatorRecordWrite PREPARING txn [shard_id];
  if negb (St.ok ls) then mret ls else
  ls ← FlushCoordinatorLog;
  if negb (St.ok ls) then mret ls else
  p ← PrepareOnShard shard_id txn commit_ts;
  if negb p.1 then mret (St.IOError "Prepare RPC failed") else
  if negb (vote_commit p.2) then
    AppendCoordinatorRecordWrite ABORTING txn [] ;;
    AbortOnShard shard_id txn ;;
    AppendCoordinatorRecordWrite ABORTED txn [] ;;
    ls ← FlushCoordinatorLog;
    if negb (St.ok ls) then mret ls else mret (St.Error Conflict (pr_error_message p.2))
  else
  ls ← AppendCoordinatorRecordWrite COMMITTING txn [];
  if negb (St.ok ls) then mret ls else
  ok ← CommitOnShard shard_id txn commit_ts;
  if negb ok then mret (St.IOError "Commit RPC failed") else
  ls ← AppendCoordinatorRecordWrite COMMITTED txn [];
  if negb (St.ok ls) then mret ls else FlushCoordinatorLog.

Definition TwoPhaseCommit (txn : Z) (parts : list Z) (commit_ts : Z) : CM Status :=
  ls ← AppendCoordinatorRecordWrite PREPARING txn parts;
  if negb (St.ok ls) then mret ls else
  ls ← FlushCoordinatorLog;
  if negb (St.ok ls) then mret ls else
  ps ← fan_out (λ sid, PrepareOnShard sid txn commit_ts) parts;
  if negb (forallb (λ p, vote_commit p.2) ps) then
    AppendCoordinatorRecordWrite ABORTING txn [] ;;
    fan_out (λ sid, AbortOnShard sid txn) parts ;;
    AppendCoordinatorRecordWrite ABORTED txn [] ;;
    ls ← FlushCoordinatorLog;
    if negb (St.ok ls) then mret ls else mret (St.Error Conflict "2PC prepare failed")
  else
  ls ← AppendCoordinatorRecordWrite COMMITTING txn [];
  if negb (St.ok ls) then mret ls else
  oks ← fan_out (λ sid, CommitOnShard sid txn commit_ts) parts;
  if negb (forallb id oks) then mret (St.IOError "2PC commit failed") else
  ls ← AppendCoordinatorRecordWrite COMMITTED txn [];
  if negb (St.ok ls) then mret ls else FlushCoordinatorLog.

Definition erase_txn (txn_id : Z) : CM () :=
  c ← get_state; set_state (set_ctxns c (delete txn_id (c_txns_ c))).

Definition Commit (txn_id : Z) : CM Status :=
  c ← get_state;
  match c_txns_ c !! txn_id with
  | None => mret unknown_txn
  | Some txn =>
      if aborted txn then erase_txn txn_id ;; mret txn_aborted
      else if decide (participant_shards txn = ∅) then erase_txn txn_id ;; mret St.OK
      else
        let parts := elements (participant_shards txn) in
        commit_ts ← Now;
        out ← match parts with
              | [sid] => SingleShardCommit (raft_txn_id txn) sid commit_ts
              | _ => TwoPhaseCommit (raft_txn_id txn) parts commit_ts
              end;
        erase_txn txn_id ;; mret out
  end.

(** One call per shard, whose outcome is ignored. *)
Definition abort_once (txn sid : Z) : CM () :=
  stub ← GetStub sid;
  match stub with
  | None => mret ()
  | Some s => perform (AAbort s txn) ;; mret ()
  end.

Definition Abort (txn_id : Z) : CM Status :=
  c ← get_state;
  match c_txns_ c !! txn_id with
  | None => mret St.OK
  | Some txn =>
      let parts := elements (participant_shards txn) in
      erase_txn txn_id ;;
      (match parts with
       | [] => mret St.OK
       | _ => AppendCoordinatorRecord ABORTING (raft_txn_id txn) []
       end) ;;
      fan_out (abort_once (raft_txn_id txn)) parts ;;
      (match parts with
       | [] => mret St.OK
       | _ => AppendCoordinatorRecord ABORTED (raft_txn_id txn) []
       end) ;;
      mret St.OK
  end.

(** *** Recovery *)

Definition DriveCommit (txn_id : Z) (shards : list Z) : CM Status :=
  commit_ts ← Now;
  oks ← fan_out (λ sid, CommitOnShard sid txn_id commit_ts) shards;
  mret (if forallb id oks then St.OK else St.IOError "recovery commit failed").

Definition DriveAbort (txn_id : Z) (shards : list Z) : CM Status :=
  fan_out (λ sid, AbortOnShard sid txn_id) shards ;; mret St.OK.

Record TxnRecoveryState := MkTxnRecoveryState {
  rs_shards : list Z;
  saw_preparing : bool;
  saw_committing : bool;
  saw_committed : bool;
  saw_aborting : bool;
  saw_aborted : bool;
}.
Definition no_records : TxnRecoveryState := MkTxnRecoveryState [] false false false false false.

(** The visitor on the state of the record's transaction. *)
Definition see_record (st : TxnRecoveryState) (rec : CoordinatorLogRecord) : TxnRecoveryState :=
  let '(MkTxnRecoveryState sh p c cd a ad) := st in
  match cl_type rec with
  | PREPARING => MkTxnRecoveryState (shards rec) true c cd a ad
  | COMMITTING => MkTxnRecoveryState sh p true cd a ad
  | COMMITTED => MkTxnRecoveryState sh p c true a ad
  | ABORTING => MkTxnRecoveryState sh p c cd true ad
  | ABORTED => MkTxnRecoveryState sh p c cd a true
  | UnnamedDecision _ => st
  end.
Definition recovery_states (recs : list CoordinatorLogRecord) : gmap Z TxnRecoveryState :=
  foldl (λ m rec, <[cl_txn_id rec := see_record (default no_records (m !! cl_txn_id rec)) rec]> m) ∅ recs.

(** Logs a decision, drives it and logs its end. *)
Definition finish_commit (txn_id : Z) (shards : list Z) : CM Status :=
  ls ← AppendCoordinatorRecord COMMITTING txn_id [];
  if negb (St.ok ls) then mret ls else
  cs ← DriveCommit txn_id shards;
  if negb (St.ok cs) then mret cs else AppendCoordinatorRecord COMMITTED txn_id [].
Definition finish_abort (txn_id : Z) (shards : list Z) : CM Status :=
  ls ← AppendCoordinatorRecord ABORTING txn_id [];
  if negb (St.ok ls) then mret ls else
  cs ← DriveAbort txn_id shards;
  if negb (St.ok cs) then mret cs else AppendCoordinatorRecord ABORTED txn_id [].

Definition is_state (s : TxnStateCode) (ss : TxnStateCode) : bool := bool_decide (ss = s).

Definition recover_txn (txn_id : Z) (st : TxnRecoveryState) : CM Status :=
  if negb (saw_preparing st) || saw_committed st || saw_aborted st then mret St.OK
  else if bool_decide (rs_shards st = []) then mret St.OK
  else if saw_committing st then finish_commit txn_id (rs_shards st)
  else if saw_aborting st then finish_abort txn_id (rs_shards st)
  else
    states ← fan_out (λ sid, QueryShardTxnState sid txn_id) (rs_shards st);
    let any_aborted := existsb (is_state TXN_ABORTED) states in
    let any_committed := existsb (is_state TXN_COMMITTED) states in
    let all_prepared := forallb (λ ss, is_state TXN_PREPARED ss || is_state TXN_COMMITTED ss) states in
    if any_aborted then finish_abort txn_id (rs_shards st)
    else if all_prepared || any_committed then finish_commit txn_id (rs_shards st)
    else finish_abort txn_id (rs_shards st).

Fixpoint recover_all (l : list (Z * TxnRecoveryState)) : CM Status :=
  match l with
  | [] => mret St.OK
  | (txn_id, st) :: l =>
      rs ← recover_txn txn_id st;
      if negb (St.ok rs) then mret rs else recover_all l
  end.

Definition Recover : CM Status :=
  r ← perform ALogReplay;
  if negb (St.ok r.1) then mret r.1 else recover_all (map_to_list (recovery_states r.2)).
End Coord.

(** ** Traces *)

Abbreviation CEvent := (Event (result_of := coord_result)).
Implicit Types (tr : list CEvent) (c : Coordinator).

Inductive Phase := PhLog | PhExecute | PhPrepare | PhCommit | PhAbort | PhQuery.
Definition phase (a : CoordAction) : Phase :=
  match a with
  | ALogWrite _ | ALogFlush | ALogReplay | AClock => PhLog
  | AExecute _ _ | AJoin _ _ => PhExecute
  | APrepare _ _ _ => PhPrepare
  | ACommit _ _ _ => PhCommit
  | AAbort _ _ => PhAbort
  | AQuery _ _ => PhQuery
  end.

(** The transaction and shard a call is about. *)
Definition call_of (a : CoordAction) : option (Z * Z) :=
  match a with
  | AExecute s req => Some (eq_raft_txn_id req, stub_shard s)
  | AJoin s req => Some (jq_raft_txn_id req, stub_shard s)
  | APrepare s txn _ | ACommit s txn _ | AAbort s txn | AQuery s txn => Some (txn, stub_shard s)
  | _ => None
  end.

(** A shard's positive vote, its acknowledgement of a commit, its state. *)
Definition vote_of (e : CEvent) : option (Z * Z * Z) :=
  match e with
  | existT (APrepare s txn ts) (Some r) => if vote_commit r then Some (txn, ts, stub_shard s) else None
  | _ => None
  end.
Definition ack_of (e : CEvent) : option (Z * Z * Z) :=
  match e with
  | existT (ACommit s txn ts) (Some r) => if cr_ok r then Some (txn, ts, stub_shard s) else None
  | _ => None
  end.
Definition state_of (e : CEvent) : option (Z * Z * TxnStateCode) :=
  match e with
  | existT (AQuery s txn) (Some r) => if tsr_ok r then Some (txn, stub_shard s, tsr_state r) else None
  | _ => None
  end.

(** Log writes that returned OK, and flushes that did. *)
Definition written_of (e : CEvent) : option CoordinatorLogRecord :=
  match e with existT (ALogWrite r) st => if St.ok st then Some r else None | _ => None end.
Definition flush_ok (e : CEvent) : bool :=
  match e with existT ALogFlush st => St.ok st | _ => false end.
Definition flushed (e : CEvent) : Prop := flush_ok e = true.

Definition voted tr (txn ts sid : Z) : Prop := (txn, ts, sid) ∈ omap vote_of tr.
Definition acked tr (txn ts sid : Z) : Prop := (txn, ts, sid) ∈ omap ack_of tr.
Definition in_phase (ph : Phase) (e : CEvent) : Prop := phase (projT1 e) = ph.

(** A record of this type was written and a flush succeeded after it. *)
Definition logged tr (ty : CoordinatorLogRecordType) (txn : Z) (sh : list Z) : Prop :=
  ∃ tr1 w tr2 f tr3 rec, tr = tr1 ++ w :: tr2 ++ f :: tr3 ∧ written_of w = Some rec ∧
    cl_type rec = ty ∧ cl_txn_id rec = txn ∧ shards rec = sh ∧ flushed f.

(** *** Actions a program can perform *)

Fixpoint only {A} (Q : CoordAction → Prop) (p : Prog coord_result A) : Prop :=
  match p with
  | Ret _ => True
  | Act a k => Q a ∧ ∀ r, only Q (k r)
  end.

Lemma only_bind {A B} Q (p : Prog coord_result A) (f : A → Prog coord_result B) :
  only Q p → (∀ a, only Q (f a)) → only Q (prog_bind p f).
Proof. intros Hp Hf. induction p as [a|a k IH]; simpl in *; [apply Hf|]. destruct Hp; split; auto. Qed.

Lemma only_path {A} Q (p : Prog coord_result A) tr o :
  only Q p → path p tr o → Forall (λ e : CEvent, Q (projT1 e)) tr.
Proof.
  revert tr. induction p as [a|a k IH]; intros tr; simpl.
  - intros _ [-> _]. constructor.
  - intros [Ha Hk] [[-> _]|(r & tr' & -> & Hp)]; constructor; eauto.
Qed.

Lemma only_impl {A} (Q R : CoordAction → Prop) (p : Prog coord_result A) :
  (∀ a, Q a → R a) → only Q p → only R p.
Proof. intros HQ. induction p as [a|a k IH]; simpl; [done|]. intros [? ?]. split; auto. Qed.

Lemma cm_bind_inv {A B} (m : CM A) (f : A → CM B) c tr o : path ((m ≫= f) c) tr o →
  (path (m c) tr None ∧ o = None) ∨
  ∃ tr1 tr2 c' a, tr = tr1 ++ tr2 ∧ path (m c) tr1 (Some (c', a)) ∧ path (f a c') tr2 o.
Proof.
  intros [H|(tr1 & tr2 & [c' a] & -> & H1 & H2)]%path_bind_inv; [by left|right].
  by exists tr1, tr2, c', a.
Qed.

Lemma cm_bind_only {A B} Q (m : CM A) (f : A → CM B) c :
  only Q (m c) → (∀ c a, only Q (f a c)) → only Q ((m ≫= f) c).
Proof. intros Hm Hf. apply only_bind; [done|]. intros [c' a]. apply Hf. Qed.

Lemma perform_inv a c tr o : path (perform a c) tr o →
  (tr = [] ∧ o = None) ∨ ∃ r, tr = [Ev a r] ∧ (o = None ∨ o = Some (c, r)).
Proof. intros [?|(r & tr' & -> & -> & Ho)]; [by left|right]. by exists r. Qed.

Lemma mret_inv {A} (a : A) c tr o : path ((mret a : CM A) c) tr o → tr = [] ∧ (o = None ∨ o = Some (c, a)).
Proof. done. Qed.

Lemma fan_out_only {A B} Q (task : A → CM B) (l : list A) c :
  (∀ x c, x ∈ l → only Q (task x c)) → only Q (fan_out task l c).
Proof.
  revert c. induction l as [|x l IH]; intros c Ht; [done|]. cbn [fan_out].
  apply cm_bind_only; [apply Ht; left|]. intros c1 y. apply cm_bind_only; [|done].
  apply IH. intros x' c' Hx. apply Ht. by right.
Qed.

(** Results of the tasks, one by one. *)
Lemma fan_out_results {A B} (task : A → CM B) (l : list A) c tr c' ys (P : A → B → list CEvent → Prop) :
  (∀ x y tr tr', P x y tr → tr `sublist_of` tr' → P x y tr') →
  (∀ x c tr c' y, x ∈ l → path (task x c) tr (Some (c', y)) → P x y tr) →
  path (fan_out task l c) tr (Some (c', ys)) → Forall2 (λ x y, P x y tr) l ys.
Proof.
  intros Hmono. revert c tr ys. induction l as [|x l IH]; intros c tr ys Ht; cbn [fan_out].
  - intros [-> [?|?]]%mret_inv; by simplify_eq.
  - intros [[_ ?]|(tr1 & tr2 & c1 & y & -> & H1 & H2)]%cm_bind_inv; [done|].
    apply cm_bind_inv in H2 as [[_ ?]|(tr3 & tr4 & c2 & ys' & -> & H2 & H3)]; [done|].
    apply mret_inv in H3 as [-> [?|?]]; simplify_eq. constructor.
    + eapply Hmono; [eapply Ht; [left|done]|]. by apply sublist_inserts_r.
    + eapply Forall2_impl; [eapply IH; [|done]|].
      * intros. eapply Ht; [by right|done].
      * intros x' y' Hp. eapply Hmono; [exact Hp|]. rewrite app_nil_r. by apply sublist_inserts_l.
Qed.
