(* ===== verification/TwoPhase.v ===== *)
(** * Two-phase commit: what the coordinator promises

    Traces of [Coordinator::Commit] and of [Coordinator::Recover] for every
    behaviour of the shards, of the network and of the log, and for a crash at
    any point. *)
From Stdlib Require Import Strings.Byte.
From stdpp Require Import base gmap sets list strings sorting.
From Stdlib Require Import ZArith Lia.
From S2P Require Import Prelude Status Crc32 GroupCommit LogFile CoordinatorLog Effects ShardMessages Coordinator.
Local Open Scope Z_scope.
Implicit Types (tr : list CEvent) (c : Coordinator).

(** ** One call *)

Definition prepare_call (txn ts sid : Z) (a : CoordAction) : Prop :=
  ∃ s, a = APrepare s txn ts ∧ stub_shard s = sid.
Definition commit_call (txn ts sid : Z) (a : CoordAction) : Prop :=
  ∃ s, a = ACommit s txn ts ∧ stub_shard s = sid.
Definition abort_call (txn sid : Z) (a : CoordAction) : Prop := ∃ s, a = AAbort s txn ∧ stub_shard s = sid.
Definition query_call (txn sid : Z) (a : CoordAction) : Prop := ∃ s, a = AQuery s txn ∧ stub_shard s = sid.

Lemma GetStub_ret sid c : ∃ o, Coord.GetStub sid c = Ret (c, o) ∧ ∀ s, o = Some s → stub_shard s = sid.
Proof.
  eexists. split; [reflexivity|]. intros s. repeat case_match; intros; by simplify_eq/=.
Qed.

Lemma RotateStub_ret sid c : ∃ c', Coord.RotateStub sid c = Ret (c', ()).
Proof.
  unfold Coord.RotateStub, get_state, mbind, CM_bind. simpl.
  destruct (replica_stubs_ c !! sid) as [n|]; [|by eexists]. destruct (_ <=? _)%nat; by eexists.
Qed.

(** A bind whose first part is pure. *)
Lemma cm_bind_ret {A B} (m : CM A) (f : A → CM B) c c' a : m c = Ret (c', a) → (m ≫= f) c = f a c'.
Proof. intros E. unfold mbind, CM_bind. by rewrite E. Qed.

Ltac get_stub sid c :=
  let o := fresh "o" in let E := fresh "Estub" in let Hs := fresh "Hstub" in
  destruct (GetStub_ret sid c) as (o & E & Hs); rewrite (cm_bind_ret _ _ _ _ _ E);
  destruct o as [?|].
Ltac rotate_stub sid c :=
  let c' := fresh "c" in let E := fresh "Erot" in
  destruct (RotateStub_ret sid c) as [c' E]; rewrite (cm_bind_ret _ _ _ _ _ E).

Lemma prepare_loop_only n sid txn ts resp c :
  only (prepare_call txn ts sid) (Coord.prepare_loop n sid txn ts resp c).
Proof.
  revert resp c. induction n as [|n IH]; intros resp c; [done|]. cbn [Coord.prepare_loop].
  get_stub sid c; [|done]. apply cm_bind_only; [by split; [eexists; auto|]|]. intros c1 r.
  case_match; [done|]. case_match; [done|]. rotate_stub sid c1. apply IH.
Qed.

Lemma commit_loop_only n sid txn ts resp c :
  only (commit_call txn ts sid) (Coord.commit_loop n sid txn ts resp c).
Proof.
  revert resp c. induction n as [|n IH]; intros resp c; [done|]. cbn [Coord.commit_loop].
  get_stub sid c; [|done]. apply cm_bind_only; [by split; [eexists; auto|]|]. intros c1 r.
  case_match; [done|]. case_match; [done|]. rotate_stub sid c1. apply IH.
Qed.

Lemma abort_loop_only n sid txn c : only (abort_call txn sid) (Coord.abort_loop n sid txn c).
Proof.
  revert c. induction n as [|n IH]; intros c; [done|]. cbn [Coord.abort_loop].
  get_stub sid c; [|done]. apply cm_bind_only; [by split; [eexists; auto|]|]. intros c1 r.
  destruct r; [done|]. rotate_stub sid c1. apply IH.
Qed.

Lemma query_loop_only n sid txn resp c : only (query_call txn sid) (Coord.query_loop n sid txn resp c).
Proof.
  revert resp c. induction n as [|n IH]; intros resp c; [done|]. cbn [Coord.query_loop].
  get_stub sid c; [|done]. apply cm_bind_only; [by split; [eexists; auto|]|]. intros c1 r.
  case_match; [done|]. rotate_stub sid c1. apply IH.
Qed.

Lemma PrepareOnShard_only sid txn ts c :
  only (prepare_call txn ts sid) (Coord.PrepareOnShard sid txn ts c).
Proof. apply prepare_loop_only. Qed.
Lemma CommitOnShard_only sid txn ts c : only (commit_call txn ts sid) (Coord.CommitOnShard sid txn ts c).
Proof. apply commit_loop_only. Qed.
Lemma AbortOnShard_only sid txn c : only (abort_call txn sid) (Coord.AbortOnShard sid txn c).
Proof. apply abort_loop_only. Qed.
Lemma QueryShardTxnState_only sid txn c : only (query_call txn sid) (Coord.QueryShardTxnState sid txn c).
Proof. unfold Coord.QueryShardTxnState. apply cm_bind_only; [apply query_loop_only|done]. Qed.

(** A positive vote was given by the shard. *)
Lemma prepare_loop_vote n sid txn ts resp c tr c' b resp' :
  path (Coord.prepare_loop n sid txn ts resp c) tr (Some (c', (b, resp'))) →
  vote_commit resp = false → vote_commit resp' = true → voted tr txn ts sid.
Proof.
  revert resp c tr. induction n as [|n IH]; intros resp c tr; cbn [Coord.prepare_loop].
  { intros [_ [?|?]]%mret_inv; simplify_eq. congruence. }
  get_stub sid c; [|intros [_ [?|?]]%mret_inv; simplify_eq; congruence].
  intros [[_ ?]|(tr1 & tr2 & c1 & r & -> & H1 & H2)]%cm_bind_inv Hv Hv'; [done|].
  apply (perform_inv (APrepare s txn ts)) in H1 as [[_ ?]|(r' & -> & [?|?])]; simplify_eq. cbn in r'.
  assert (vote_commit (default resp r') = true → voted [Ev (APrepare s txn ts) r'] txn ts sid) as Hvote.
  { intros E. destruct r' as [p|]; cbn in E; [|congruence]. unfold voted. cbn. rewrite E, (Hstub s eq_refl). left. }
  assert (voted [Ev (APrepare s txn ts) r'] txn ts sid →
    voted ([Ev (APrepare s txn ts) r'] ++ tr2) txn ts sid) as Hl.
  { unfold voted. rewrite omap_app, elem_of_app. by left. }
  destruct (vote_commit (default resp r')) eqn:Ev'; [by auto|].
  rewrite andb_false_r in H2. cbn [andb] in H2. unfold voted. rewrite omap_app, elem_of_app. right.
  case_match; [apply mret_inv in H2 as [_ [?|?]]; simplify_eq; congruence|].
  destruct (RotateStub_ret sid c) as [c2 E]. rewrite (cm_bind_ret _ _ _ _ _ E) in H2. by eapply IH.
Qed.

Lemma PrepareOnShard_vote sid txn ts c tr c' p :
  path (Coord.PrepareOnShard sid txn ts c) tr (Some (c', p)) → vote_commit p.2 = true → voted tr txn ts sid.
Proof. destruct p as [b resp]. intros Hp Hv.
  exact (prepare_loop_vote _ sid txn ts PrepareResponse0 c tr c' b resp Hp eq_refl Hv).
Qed.

(** The commit call returns true only on the shard's acknowledgement. *)
Lemma commit_loop_ack n sid txn ts resp c tr c' :
  path (Coord.commit_loop n sid txn ts resp c) tr (Some (c', true)) → acked tr txn ts sid.
Proof.
  revert resp c tr. induction n as [|n IH]; intros resp c tr; cbn [Coord.commit_loop].
  { intros [_ [?|?]]%mret_inv; simplify_eq. }
  get_stub sid c; [|intros [_ [?|?]]%mret_inv; simplify_eq].
  intros [[_ ?]|(tr1 & tr2 & c1 & r & -> & H1 & H2)]%cm_bind_inv; [done|].
  apply (perform_inv (ACommit s txn ts)) in H1 as [[_ ?]|(r' & -> & [?|?])]; simplify_eq. cbn in r'.
  unfold acked. rewrite omap_app, elem_of_app.
  destruct r' as [p|]; cbn in H2.
  - destruct (cr_ok p) eqn:Ep; [left; cbn; rewrite Ep, (Hstub s eq_refl); left|].
    right. case_match; [apply mret_inv in H2 as [_ [?|?]]; simplify_eq|].
    destruct (RotateStub_ret sid c) as [c2 E]. rewrite (cm_bind_ret _ _ _ _ _ E) in H2. by eapply IH.
  - right. case_match; [apply mret_inv in H2 as [_ [?|?]]; simplify_eq|].
    destruct (RotateStub_ret sid c) as [c2 E]. rewrite (cm_bind_ret _ _ _ _ _ E) in H2. by eapply IH.
Qed.

Lemma CommitOnShard_ack sid txn ts c tr c' :
  path (Coord.CommitOnShard sid txn ts c) tr (Some (c', true)) → acked tr txn ts sid.
Proof. exact (commit_loop_ack _ sid txn ts CommitResponse0 c tr c'). Qed.

(** A shard state other than unknown was reported by the shard. *)
Lemma query_loop_state n sid txn resp c tr c' resp' :
  path (Coord.query_loop n sid txn resp c) tr (Some (c', (true, resp'))) →
  (txn, sid, tsr_state resp') ∈ omap state_of tr.
Proof.
  revert resp c tr. induction n as [|n IH]; intros resp c tr; cbn [Coord.query_loop].
  { intros [_ [?|?]]%mret_inv; simplify_eq. }
  get_stub sid c; [|intros [_ [?|?]]%mret_inv; simplify_eq].
  intros [[_ ?]|(tr1 & tr2 & c1 & r & -> & H1 & H2)]%cm_bind_inv; [done|].
  apply (perform_inv (AQuery s txn)) in H1 as [[_ ?]|(r' & -> & [?|?])]; simplify_eq. cbn in r'.
  rewrite omap_app, elem_of_app. destruct r' as [p|]; cbn in H2.
  - destruct (tsr_ok p) eqn:Ep.
    + apply mret_inv in H2 as [_ [?|?]]; simplify_eq. left. cbn. rewrite Ep, (Hstub s eq_refl). left.
    + right. destruct (RotateStub_ret sid c) as [c2 E]. rewrite (cm_bind_ret _ _ _ _ _ E) in H2. by eapply IH.
  - right. destruct (RotateStub_ret sid c) as [c2 E]. rewrite (cm_bind_ret _ _ _ _ _ E) in H2. by eapply IH.
Qed.

Lemma QueryShardTxnState_reported sid txn c tr c' ss :
  path (Coord.QueryShardTxnState sid txn c) tr (Some (c', ss)) →
  ss = TXN_UNKNOWN ∨ (txn, sid, ss) ∈ omap state_of tr.
Proof.
  unfold Coord.QueryShardTxnState.
  intros [[_ ?]|(tr1 & tr2 & c1 & [b r] & -> & H1 & H2)]%cm_bind_inv; [done|].
  apply mret_inv in H2 as [-> [?|?]]; simplify_eq. rewrite app_nil_r.
  destruct b; cbn; [right|by left]. exact (query_loop_state _ sid txn TxnStateResponse0 c tr1 _ r H1).
Qed.

(** ** Segments of a trace *)

Definition nophase (ph : Phase) tr : Prop := Forall (λ e, ¬ in_phase ph e) tr.

(** Every event of a phase satisfies [G] with the events before it. *)
Definition guarded (ph : Phase) (G : list CEvent → CEvent → Prop) tr : Prop :=
  ∀ tr1 e tr2, tr = tr1 ++ e :: tr2 → in_phase ph e → G tr1 e.

Lemma guarded_none ph G tr : nophase ph tr → guarded ph G tr.
Proof.
  intros Hn tr1 e tr2 -> He. apply Forall_app in Hn as [_ Hn]. apply Forall_cons in Hn as [Hn _]. done.
Qed.

Lemma guarded_app ph G tr tr' : nophase ph tr → guarded ph (λ tr1 e, G (tr ++ tr1) e) tr' →
  guarded ph G (tr ++ tr').
Proof.
  intros Hn Hg tr1 e tr2 E He. apply app_eq_inv in E as [(l & -> & E)|(l & -> & E)].
  - destruct l as [|e' l].
    + pose proof (Hg [] e tr2 (eq_sym E) He) as HG. cbn in HG. by rewrite !app_nil_r in HG.
    + injection E as <- ->. apply Forall_app in Hn as [_ Hn]. apply Forall_cons in Hn as [Hn _]. done.
  - by apply (Hg l e tr2).
Qed.

Lemma guarded_app_tail ph G tr tr' : guarded ph G tr → nophase ph tr' → guarded ph G (tr ++ tr').
Proof.
  intros Hg Hn tr1 e tr2 E He. apply app_eq_inv in E as [(l & -> & E)|(l & -> & E)].
  - destruct l as [|e' l].
    + simpl in E. subst tr'. by apply Forall_cons in Hn as [? _].
    + injection E as <- ->. by apply (Hg tr1 e l).
  - subst tr'. apply Forall_app in Hn as [_ [? _]%Forall_cons]. done.
Qed.

Lemma guarded_impl ph (G G' : list CEvent → CEvent → Prop) tr :
  (∀ tr1 e, e ∈ tr → G tr1 e → G' tr1 e) → guarded ph G tr → guarded ph G' tr.
Proof. intros HG Hg tr1 e tr2 -> He. apply HG; [set_solver|]. by eapply Hg. Qed.

Lemma nophase_only {A} (Q : CoordAction → Prop) ph (p : Prog coord_result A) tr o :
  (∀ a, Q a → phase a ≠ ph) → only Q p → path p tr o → nophase ph tr.
Proof.
  intros HQ Ho Hp. eapply Forall_impl; [by eapply only_path|]. intros e He Hph. exact (HQ _ He Hph).
Qed.

Lemma nophase_app ph tr tr' : nophase ph (tr ++ tr') ↔ nophase ph tr ∧ nophase ph tr'.
Proof. apply Forall_app. Qed.

(** Log actions whose writes are of a kind [T]. *)
Definition record_is (ty : CoordinatorLogRecordType) (txn : Z) (sh : list Z) (rec : CoordinatorLogRecord) : Prop :=
  cl_type rec = ty ∧ cl_txn_id rec = txn ∧ shards rec = sh.

Definition writes_only (T : CoordinatorLogRecord → Prop) (e : CEvent) : Prop :=
  ∀ rec, written_of e = Some rec → T rec.
Definition log_event (T : CoordinatorLogRecord → Prop) (e : CEvent) : Prop :=
  in_phase PhLog e ∧ writes_only T e.
Definition log_only (T : CoordinatorLogRecord → Prop) tr : Prop := Forall (log_event T) tr.

Lemma log_only_nophase T ph tr : ph ≠ PhLog → log_only T tr → nophase ph tr.
Proof.
  intros Hph HF. eapply Forall_impl; [exact HF|]. intros e [He _] Hp. unfold in_phase in *. congruence.
Qed.

Lemma log_only_writes T tr : log_only T tr → Forall (writes_only T) tr.
Proof. intros HF. eapply Forall_impl; [exact HF|]. by intros e [_ He]. Qed.

Lemma writes_nolog T (e : CEvent) : ¬ in_phase PhLog e → writes_only T e.
Proof. intros He rec. destruct e as [[] r]; simpl; try done; by destruct He. Qed.

Lemma writes_impl (T U : CoordinatorLogRecord → Prop) tr :
  (∀ r, T r → U r) → Forall (writes_only T) tr → Forall (writes_only U) tr.
Proof. intros HTU HF. eapply Forall_impl; [exact HF|]. intros e He rec Hr. auto. Qed.

Lemma nolog_writes T tr : nophase PhLog tr → Forall (writes_only T) tr.
Proof. intros HF. eapply Forall_impl; [exact HF|]. intros e. apply writes_nolog. Qed.

Lemma log_only_impl (T U : CoordinatorLogRecord → Prop) tr : (∀ r, T r → U r) → log_only T tr → log_only U tr.
Proof. intros HTU HF. eapply Forall_impl; [exact HF|]. intros e [He Hw]. split; [done|]. intros rec Hr. auto. Qed.

(** *** Log writes *)

Lemma append_write_inv ty txn sh c tr o :
  path (Coord.AppendCoordinatorRecordWrite ty txn sh c) tr o →
  log_only (record_is ty txn sh) tr ∧ ∀ c' st, o = Some (c', st) → c' = c ∧ ∃ now rec,
    record_is ty txn sh rec ∧ tr = [Ev AClock now; Ev (ALogWrite rec) st].
Proof.
  unfold Coord.AppendCoordinatorRecordWrite.
  assert (∀ now, log_event (record_is ty txn sh) (Ev AClock now)) as Hclock by done.
  intros [[H ->]|(tr1 & tr2 & c1 & now & -> & H1 & H2)]%cm_bind_inv.
  - apply (perform_inv AClock) in H as [[-> _]|(r & -> & _)]; (split; [repeat constructor; done|done]).
  - apply (perform_inv AClock) in H1 as [[_ ?]|(r & -> & [?|?])]; simplify_eq.
    apply (perform_inv (ALogWrite _)) in H2 as [[-> ->]|(st' & -> & Ho)].
    + split; [by repeat constructor|done].
    + split.
      * constructor; [done|]. constructor; [|constructor]. split; [done|].
        intros rec. cbn. case_match; intros; by simplify_eq.
      * intros c' st ->. destruct Ho as [?|?]; simplify_eq. split; [done|].
        eexists _, (MkCoordinatorLogRecord _ _ _ _). split; [|reflexivity]. done.
Qed.

Lemma flush_inv T c tr o : path (Coord.FlushCoordinatorLog c) tr o →
  log_only T tr ∧ ∀ c' st, o = Some (c', st) → c' = c ∧ tr = [Ev ALogFlush st].
Proof.
  intros [[-> ->]|(st' & -> & Ho)]%(perform_inv ALogFlush).
  - split; [constructor|done].
  - split; [by repeat constructor|]. intros c' st ->. by destruct Ho as [?|?]; simplify_eq.
Qed.

Lemma logged_intro ty txn sh now rec st st' tr :
  record_is ty txn sh rec → St.ok st = true → St.ok st' = true →
  logged (([Ev AClock now; Ev (ALogWrite rec) st] ++ [Ev ALogFlush st']) ++ tr) ty txn sh.
Proof.
  intros (Hty & Htx & Hsh) Hst Hst'.
  exists [Ev AClock now], (Ev (ALogWrite rec) st), [], (Ev ALogFlush st'), tr, rec.
  split_and!; try done. cbn. by rewrite Hst.
Qed.

Lemma logged_app_r tr tr' ty txn sh : logged tr ty txn sh → logged (tr ++ tr') ty txn sh.
Proof.
  intros (tr1 & w & tr2 & f & tr3 & rec & -> & H). exists tr1, w, tr2, f, (tr3 ++ tr'), rec.
  split; [|done]. by rewrite <- app_assoc, <- app_comm_cons, <- app_assoc, <- app_comm_cons.
Qed.
Lemma logged_app_l tr tr' ty txn sh : logged tr' ty txn sh → logged (tr ++ tr') ty txn sh.
Proof.
  intros (tr1 & w & tr2 & f & tr3 & rec & -> & H). exists (tr ++ tr1), w, tr2, f, tr3, rec.
  split; [|done]. by rewrite <- app_assoc.
Qed.

Lemma voted_app_r tr tr' txn ts sid : voted tr txn ts sid → voted (tr ++ tr') txn ts sid.
Proof. unfold voted. rewrite omap_app, elem_of_app. by left. Qed.
Lemma voted_app_l tr tr' txn ts sid : voted tr' txn ts sid → voted (tr ++ tr') txn ts sid.
Proof. unfold voted. rewrite omap_app, elem_of_app. by right. Qed.
Lemma acked_app_r tr tr' txn ts sid : acked tr txn ts sid → acked (tr ++ tr') txn ts sid.
Proof. unfold acked. rewrite omap_app, elem_of_app. by left. Qed.
Lemma acked_app_l tr tr' txn ts sid : acked tr' txn ts sid → acked (tr ++ tr') txn ts sid.
Proof. unfold acked. rewrite omap_app, elem_of_app. by right. Qed.

Lemma omap_sublist {A B} (f : A → option B) x l l' : x ∈ omap f l → l `sublist_of` l' → x ∈ omap f l'.
Proof.
  rewrite !list_elem_of_omap. intros (y & Hy & E) Hs. exists y. split; [by eapply elem_of_sublist|done].
Qed.

(** ** The commit protocol *)

(** The records of a transaction that commits. *)
Definition commit_record (txn : Z) (parts : list Z) (rec : CoordinatorLogRecord) : Prop :=
  cl_txn_id rec = txn ∧
  (cl_type rec = PREPARING ∧ shards rec = parts ∨ cl_type rec = COMMITTING ∨ cl_type rec = COMMITTED).

(** What a run of the protocol guarantees, wherever it stops. *)
Record commit_trace (txn : Z) (parts : list Z) (ts : Z) tr (o : option (Coordinator * Status)) : Prop := {
  ct_prepare : guarded PhPrepare (λ tr1 _, logged tr1 PREPARING txn parts) tr;
  ct_commit : guarded PhCommit (λ tr1 e,
    (∃ sid, sid ∈ parts ∧ commit_call txn ts sid (projT1 e)) ∧
    ∀ sid, sid ∈ parts → voted tr1 txn ts sid) tr;
  ct_decision : nophase PhCommit tr ∨ nophase PhAbort tr;
  ct_query : nophase PhQuery tr;
  ct_own : Forall (writes_only (λ rec, cl_txn_id rec = txn)) tr;
  ct_records : nophase PhCommit tr ∨ Forall (writes_only (commit_record txn parts)) tr;
  ct_ok : ∀ c st, o = Some (c, st) → St.ok st = true →
    nophase PhAbort tr ∧ logged tr COMMITTED txn [] ∧ ∀ sid, sid ∈ parts → acked tr txn ts sid;
}.

(** Before anything is sent. *)
Lemma commit_trace_log txn parts ts tr o : log_only (commit_record txn parts) tr →
  (∀ c st, o = Some (c, st) → St.ok st = false) → commit_trace txn parts ts tr o.
Proof.
  intros Hl Hst. assert (∀ ph, ph ≠ PhLog → nophase ph tr) as Hn by (intros; by eapply log_only_nophase).
  split.
  - by apply guarded_none, Hn.
  - by apply guarded_none, Hn.
  - left. by apply Hn.
  - by apply Hn.
  - eapply writes_impl; [|by apply log_only_writes]. by intros r [? _].
  - right. by apply log_only_writes.
  - intros c st -> Hok. rewrite (Hst c st eq_refl) in Hok. done.
Qed.

(** The log write and flush of the PREPARING record. *)
Lemma commit_trace_start txn parts ts c tr o (k : CM Status) :
  path ((ls ← Coord.AppendCoordinatorRecordWrite PREPARING txn parts;
         if negb (St.ok ls) then mret ls else
         ls ← Coord.FlushCoordinatorLog;
         if negb (St.ok ls) then mret ls else k) c) tr o →
  commit_trace txn parts ts tr o ∨
  ∃ tr0 tr', tr = tr0 ++ tr' ∧ log_only (commit_record txn parts) tr0 ∧ logged tr0 PREPARING txn parts ∧
    path (k c) tr' o.
Proof.
  assert (∀ r, record_is PREPARING txn parts r → commit_record txn parts r) as HT
    by (intros r (Hty & Htx & Hsh); split; [done|by left]).
  intros [[H ->]|(tr1 & tr2 & c1 & st & -> & H1 & H2)]%cm_bind_inv.
  { left. apply commit_trace_log; [|done]. eapply log_only_impl; [exact HT|]. by eapply append_write_inv. }
  apply append_write_inv in H1 as [L1 H1]. apply (log_only_impl _ _ _ HT) in L1.
  destruct (H1 c1 st eq_refl) as (-> & now & rec & Hrec & ->).
  destruct (St.ok st) eqn:Est; cbn [negb] in H2.
  2: { left. apply mret_inv in H2 as [-> Ho]. rewrite app_nil_r. apply commit_trace_log; [done|].
       intros c' st' ->. by destruct Ho; simplify_eq. }
  apply cm_bind_inv in H2 as [[H ->]|(tr3 & tr4 & c2 & st' & -> & H3 & H4)].
  { left. apply commit_trace_log; [|done]. apply Forall_app. split; [done|]. by eapply flush_inv. }
  apply (flush_inv (commit_record txn parts)) in H3 as [L3 H3]. destruct (H3 c2 st' eq_refl) as [-> ->].
  destruct (St.ok st') eqn:Est'; cbn [negb] in H4.
  - right. exists ([Ev AClock now; Ev (ALogWrite rec) st] ++ [Ev ALogFlush st']), tr4.
    split; [by rewrite <- app_assoc|]. split; [by apply Forall_app|]. split; [|done].
    pose proof (logged_intro _ _ _ now rec st st' [] Hrec Est Est') as Hl. by rewrite app_nil_r in Hl.
  - left. apply mret_inv in H4 as [-> Ho]. rewrite app_nil_r. apply commit_trace_log; [by apply Forall_app|].
    intros c' st'' ->. by destruct Ho; simplify_eq.
Qed.

Definition phase_only (ph : Phase) tr : Prop := Forall (in_phase ph) tr.

Lemma phase_only_nophase ph ph' tr : ph ≠ ph' → phase_only ph tr → nophase ph' tr.
Proof. intros Hph HF. eapply Forall_impl; [exact HF|]. unfold in_phase. intros e ??. congruence. Qed.

Lemma phase_only_path {A} (Q : CoordAction → Prop) ph (p : Prog coord_result A) tr o :
  (∀ a, Q a → phase a = ph) → only Q p → path p tr o → phase_only ph tr.
Proof. intros HQ Ho Hp. eapply Forall_impl; [by eapply only_path|]. intros e He. exact (HQ _ He). Qed.

(** Prepare requests, then the decision phase [trd]. *)
Lemma commit_trace_build txn parts ts tr0 trp trd o :
  log_only (commit_record txn parts) tr0 → logged tr0 PREPARING txn parts → phase_only PhPrepare trp →
  nophase PhPrepare trd → nophase PhQuery trd → Forall (writes_only (λ rec, cl_txn_id rec = txn)) trd →
  (nophase PhCommit trd ∨
   nophase PhAbort trd ∧ (∀ sid, sid ∈ parts → voted trp txn ts sid) ∧
   Forall (writes_only (commit_record txn parts)) trd ∧
   Forall (λ e : CEvent, in_phase PhCommit e → ∃ sid, sid ∈ parts ∧ commit_call txn ts sid (projT1 e)) trd) →
  (∀ c st, o = Some (c, st) → St.ok st = true →
     nophase PhAbort trd ∧ logged trd COMMITTED txn [] ∧ ∀ sid, sid ∈ parts → acked trd txn ts sid) →
  commit_trace txn parts ts (tr0 ++ trp ++ trd) o.
Proof.
  intros L0 Hlog Hp Hdp Hdq Hdw Hd Hok.
  assert (∀ ph, ph ≠ PhLog → nophase ph tr0) as N0 by (intros; by eapply log_only_nophase).
  assert (∀ ph, PhPrepare ≠ ph → nophase ph trp) as Np by (intros; by eapply phase_only_nophase).
  split.
  - apply guarded_app; [by apply N0|]. apply guarded_app_tail; [|done].
    intros tr1 e tr2 _ _. by apply logged_app_r.
  - rewrite app_assoc. destruct Hd as [Hd|(_ & Hv & _ & Hc)].
    + apply guarded_none, nophase_app. split; [|done]. apply nophase_app. auto.
    + apply guarded_app; [apply nophase_app; auto|]. intros tr1 e tr2 -> He. split.
      * apply Forall_app in Hc as [_ [Hc _]%Forall_cons]. auto.
      * intros sid Hs. rewrite <- app_assoc. by apply voted_app_l, voted_app_r, Hv.
  - rewrite !nophase_app. destruct Hd as [Hd|(Hd & _)]; [left|right]; split_and!; auto.
  - rewrite !nophase_app. split_and!; auto.
  - rewrite !Forall_app. split_and!; [|by apply nolog_writes, Np|done].
    eapply writes_impl; [|by apply log_only_writes]. by intros r [? _].
  - destruct Hd as [Hd|(_ & _ & Hw & _)]; [left|right].
    + rewrite !nophase_app. split_and!; auto.
    + rewrite !Forall_app. split_and!; [by apply log_only_writes|by apply nolog_writes, Np|done].
  - intros c st Ho Hst. destruct (Hok c st Ho Hst) as (Ha & Hl & Hk). split_and!.
    + rewrite !nophase_app. split_and!; auto.
    + by apply logged_app_l, logged_app_l.
    + intros sid Hs. by apply acked_app_l, acked_app_l, Hk.
Qed.

(** The end of a successful commit: log COMMITTED and flush. *)
Lemma finish_inv txn parts c tr o :
  path ((ls ← Coord.AppendCoordinatorRecordWrite COMMITTED txn [];
         if negb (St.ok ls) then mret ls else Coord.FlushCoordinatorLog) c) tr o →
  log_only (commit_record txn parts) tr ∧
  ∀ c' st, o = Some (c', st) → St.ok st = true → logged tr COMMITTED txn [].
Proof.
  assert (∀ r, record_is COMMITTED txn [] r → commit_record txn parts r) as HT
    by (intros r (Hty & Htx & Hsh); split; [done|by right; right]).
  intros [[H ->]|(tr1 & tr2 & c1 & st & -> & H1 & H2)]%cm_bind_inv.
  { split; [|done]. eapply log_only_impl; [exact HT|]. by eapply append_write_inv. }
  apply append_write_inv in H1 as [L1 H1]. apply (log_only_impl _ _ _ HT) in L1.
  destruct (H1 c1 st eq_refl) as (-> & now & rec & Hrec & ->).
  destruct (St.ok st) eqn:Est; cbn [negb] in H2.
  - apply (flush_inv (commit_record txn parts)) in H2 as [L2 H2]. split; [by apply Forall_app|].
    intros c' st' Ho Hst'. destruct (H2 c' st' Ho) as [_ ->].
    pose proof (logged_intro _ _ _ now rec st st' [] Hrec Est Hst') as Hl. by rewrite app_nil_r in Hl.
  - apply mret_inv in H2 as [-> Ho]. rewrite app_nil_r. split; [done|].
    intros c' st' -> Hst'. destruct Ho; simplify_eq; congruence.
Qed.

(** Events of the abort branch and of the commit branch. *)
Definition abort_event (txn : Z) (e : CEvent) : Prop :=
  log_event (λ rec, cl_txn_id rec = txn) e ∨ in_phase PhAbort e.
Definition commit_event (txn : Z) (parts : list Z) (ts : Z) (e : CEvent) : Prop :=
  log_event (commit_record txn parts) e ∨ ∃ sid, sid ∈ parts ∧ commit_call txn ts sid (projT1 e).

Lemma append_abort_event ty txn c tr o :
  path (Coord.AppendCoordinatorRecordWrite ty txn [] c) tr o → Forall (abort_event txn) tr.
Proof.
  intros [HF _]%append_write_inv. eapply Forall_impl; [exact HF|]. intros e [He Hw]. left. split; [done|].
  intros rec Hr. by destruct (Hw rec Hr) as (_ & ? & _).
Qed.
Lemma flush_abort_event txn c tr o : path (Coord.FlushCoordinatorLog c) tr o → Forall (abort_event txn) tr.
Proof.
  intros [HF _]%(flush_inv (λ rec, cl_txn_id rec = txn)). eapply Forall_impl; [exact HF|]. by left.
Qed.

(** The abort branch of the protocol: no commit is sent. *)
Lemma abort_branch_inv {A} txn (aborts : CM A) st c tr o :
  (∀ c, only (λ a, phase a = PhAbort) (aborts c)) → St.ok st = false →
  path ((Coord.AppendCoordinatorRecordWrite ABORTING txn [] ;;
         aborts ;;
         Coord.AppendCoordinatorRecordWrite ABORTED txn [] ;;
         ls ← Coord.FlushCoordinatorLog;
         if negb (St.ok ls) then mret ls else mret st) c) tr o →
  Forall (abort_event txn) tr ∧ ∀ c' st', o = Some (c', st') → St.ok st' = false.
Proof.
  intros Ha Hst.
  assert (∀ c tr o, path (aborts c) tr o → Forall (abort_event txn) tr) as HA.
  { intros c0 tr0 o0 Hp. eapply Forall_impl; [eapply only_path; [apply Ha|exact Hp]|]. by right. }
  intros [[H ->]|(tr1 & tr2 & c1 & s1 & -> & H1%append_abort_event & H2)]%cm_bind_inv;
    [split; [by eapply append_abort_event|done]|].
  apply cm_bind_inv in H2 as [[H%HA ->]|(tr3 & tr4 & c2 & s2 & -> & H2%HA & H3)];
    [by rewrite Forall_app|].
  apply cm_bind_inv in H3 as [[H%append_abort_event ->]|(tr5 & tr6 & c3 & s3 & -> & H3%append_abort_event & H4)];
    [by rewrite !Forall_app|].
  apply cm_bind_inv in H4 as [[H%(flush_abort_event txn) ->]|
    (tr7 & tr8 & c4 & s4 & -> & H4%(flush_abort_event txn) & H5)]; [by rewrite !Forall_app|].
  destruct (St.ok s4) eqn:E4; cbn [negb] in H5; apply mret_inv in H5 as [-> Ho];
    (split; [by rewrite !Forall_app|]); intros c' st' ->; by destruct Ho; simplify_eq.
Qed.

(** The commit branch: COMMITTING, the commit requests, COMMITTED. *)
Lemma commit_branch_inv {A} txn (parts : list Z) ts (commits : CM A) (ok : A → bool) msg c tr o :
  (∀ c, only (λ a, ∃ sid, sid ∈ parts ∧ commit_call txn ts sid a) (commits c)) →
  (∀ c tr c' x, path (commits c) tr (Some (c', x)) → ok x = true → ∀ sid, sid ∈ parts → acked tr txn ts sid) →
  path ((ls ← Coord.AppendCoordinatorRecordWrite COMMITTING txn [];
         if negb (St.ok ls) then mret ls else
         oks ← commits;
         if negb (ok oks) then mret (St.IOError msg) else
         ls ← Coord.AppendCoordinatorRecordWrite COMMITTED txn [];
         if negb (St.ok ls) then mret ls else Coord.FlushCoordinatorLog) c) tr o →
  Forall (commit_event txn parts ts) tr ∧
  ∀ c' st, o = Some (c', st) → St.ok st = true →
    logged tr COMMITTED txn [] ∧ ∀ sid, sid ∈ parts → acked tr txn ts sid.
Proof.
  intros Hc Hack.
  assert (∀ tr, log_only (commit_record txn parts) tr → Forall (commit_event txn parts ts) tr) as HL
    by (intros ? HF; eapply Forall_impl; [exact HF|]; by left).
  assert (∀ c tr o, path (commits c) tr o → Forall (commit_event txn parts ts) tr) as HC.
  { intros c0 tr0 o0 Hp. eapply Forall_impl; [eapply only_path; [apply Hc|exact Hp]|]. by right. }
  assert (∀ tr, log_only (record_is COMMITTING txn []) tr → Forall (commit_event txn parts ts) tr) as HT.
  { intros tr0 HF. apply HL. eapply log_only_impl; [|exact HF]. intros r (Hty & Htx & Hsh). split; [done|by right; left]. }
  intros [[H ->]|(tr1 & tr2 & c1 & s1 & -> & [H1 _]%append_write_inv & H2)]%cm_bind_inv;
    [split; [by eapply HT, append_write_inv|done]|].
  apply HT in H1. destruct (St.ok s1) eqn:E1; cbn [negb] in H2.
  2: { apply mret_inv in H2 as [-> Ho]. rewrite app_nil_r. split; [done|].
       intros c' st -> Hst. destruct Ho; simplify_eq; congruence. }
  apply cm_bind_inv in H2 as [[H%HC ->]|(tr3 & tr4 & c2 & x & -> & H2 & H3)]; [by rewrite Forall_app|].
  pose proof (HC _ _ _ H2) as H2'. destruct (ok x) eqn:Ex; cbn [negb] in H3.
  - apply (finish_inv txn parts) in H3 as [L3%HL Hfin]. split; [by rewrite !Forall_app|].
    intros c' st Ho Hst. split; [by apply logged_app_l, logged_app_l; eapply Hfin|].
    intros sid Hs. by apply acked_app_l, acked_app_r; eapply Hack.
  - apply mret_inv in H3 as [-> Ho]. split; [by rewrite !Forall_app|].
    intros c' st -> Hst. destruct Ho as [?|[= _ ->]]; done.
Qed.

(** The protocol after the votes, when all of [parts] voted. *)
Lemma decide_commit txn parts ts tr0 trp trd o :
  log_only (commit_record txn parts) tr0 → logged tr0 PREPARING txn parts → phase_only PhPrepare trp →
  (∀ sid, sid ∈ parts → voted trp txn ts sid) → Forall (commit_event txn parts ts) trd →
  (∀ c' st, o = Some (c', st) → St.ok st = true →
    logged trd COMMITTED txn [] ∧ ∀ sid, sid ∈ parts → acked trd txn ts sid) →
  commit_trace txn parts ts (tr0 ++ trp ++ trd) o.
Proof.
  intros L0 Hlog Hp Hv Hd Hok.
  assert (∀ ph, ph ≠ PhLog → ph ≠ PhCommit → nophase ph trd) as Hn.
  { intros ph H1 H2. eapply Forall_impl; [exact Hd|]. unfold in_phase.
    intros e [[He _]|(sid & _ & s & He & _)] Hph; [unfold in_phase in He; congruence|].
    rewrite He in Hph. simpl in Hph. congruence. }
  assert (Forall (writes_only (commit_record txn parts)) trd) as Hw.
  { eapply Forall_impl; [exact Hd|]. intros e [[_ He]|(sid & _ & s & He & _)]; [done|].
    apply writes_nolog. unfold in_phase. by rewrite He. }
  apply commit_trace_build; try done; try (by apply Hn).
  - eapply writes_impl; [|done]. by intros r [? _].
  - right. split_and!; [by apply Hn|done|done|]. eapply Forall_impl; [exact Hd|]. unfold in_phase.
    intros e [[He _]|He] Hph; [unfold in_phase in He; congruence|done].
  - intros c st Ho Hst. split; [by apply Hn|]. by eapply Hok.
Qed.

Lemma decide_abort txn parts ts tr0 trp trd (o : option (Coordinator * Status)) :
  log_only (commit_record txn parts) tr0 → logged tr0 PREPARING txn parts → phase_only PhPrepare trp →
  Forall (abort_event txn) trd → (∀ c st, o = Some (c, st) → St.ok st = false) →
  commit_trace txn parts ts (tr0 ++ trp ++ trd) o.
Proof.
  intros L0 Hlog Hp Hd Hno.
  assert (∀ ph, ph ≠ PhLog → ph ≠ PhAbort → nophase ph trd) as Hn.
  { intros ph H1 H2. eapply Forall_impl; [exact Hd|]. unfold abort_event, log_event, in_phase.
    intros e [[He _]|He] Hph; congruence. }
  apply commit_trace_build; try done; try (by apply Hn).
  - eapply Forall_impl; [exact Hd|]. intros e [[_ He]|He]; [done|]. apply writes_nolog. unfold in_phase in *. congruence.
  - left. by apply Hn.
  - intros c st Ho Hst. rewrite (Hno c st Ho) in Hst. done.
Qed.

Lemma prepare_phase a txn ts sid : prepare_call txn ts sid a → phase a = PhPrepare.
Proof. by intros (s & -> & _). Qed.
Lemma abort_phase a txn sid : abort_call txn sid a → phase a = PhAbort.
Proof. by intros (s & -> & _). Qed.

Lemma TwoPhaseCommit_trace txn parts ts c tr o :
  path (Coord.TwoPhaseCommit txn parts ts c) tr o → commit_trace txn parts ts tr o.
Proof.
  intros [?|(tr0 & tr' & -> & L0 & Hlog & H)]%(commit_trace_start txn parts ts); [done|].
  assert (∀ c, only (λ a, phase a = PhPrepare) (fan_out (λ sid, Coord.PrepareOnShard sid txn ts) parts c)) as Hop.
  { intros c0. apply fan_out_only. intros sid c1 _.
    eapply only_impl; [|apply PrepareOnShard_only]. intros a. apply prepare_phase. }
  apply cm_bind_inv in H as [[H ->]|(trp & trd & c1 & ps & -> & H1 & H2)].
  { rewrite <- (app_nil_r tr'). eapply decide_abort; try done.
    eapply (phase_only_path (λ a, phase a = PhPrepare)); [done|apply Hop|exact H]. }
  assert (phase_only PhPrepare trp) as Hp
    by (eapply (phase_only_path (λ a, phase a = PhPrepare)); [done|apply Hop|exact H1]).
  destruct (forallb _ ps) eqn:Ev; cbn [negb] in H2.
  - apply (commit_branch_inv txn parts ts) in H2 as [Hd Hok].
    + eapply decide_commit; try done. intros sid Hs.
      eapply (fan_out_results _ _ _ _ _ _ (λ sid p tr, vote_commit p.2 = true → voted tr txn ts sid)) in H1.
      * apply list_elem_of_lookup in Hs as [i Hi]. destruct (Forall2_lookup_l _ _ _ _ _ H1 Hi) as (p & Hpi & HP).
        apply HP. rewrite forallb_forall in Ev. apply Ev. apply list_elem_of_In. by eapply list_elem_of_lookup_2.
      * intros x y l l' HP Hsub Hy. eapply omap_sublist; [by apply HP|done].
      * intros x c0 tr1 c' y _ Hpath Hy. by eapply PrepareOnShard_vote.
    + intros c0. apply fan_out_only. intros sid c2 Hs.
      eapply only_impl; [|apply CommitOnShard_only]. intros a Ha. by exists sid.
    + intros c0 tr1 c' oks Hpath Hoks sid Hs.
      eapply (fan_out_results _ _ _ _ _ _ (λ sid b tr, b = true → acked tr txn ts sid)) in Hpath.
      * apply list_elem_of_lookup in Hs as [i Hi]. destruct (Forall2_lookup_l _ _ _ _ _ Hpath Hi) as (b & Hbi & HP).
        apply HP. rewrite forallb_forall in Hoks. apply (Hoks b). apply list_elem_of_In. by eapply list_elem_of_lookup_2.
      * intros x y l l' HP Hsub Hy. eapply omap_sublist; [by apply HP|done].
      * intros x c2 tr2 c3 y _ Hp2 ->. by eapply CommitOnShard_ack.
  - apply (abort_branch_inv txn (fan_out (λ sid, Coord.AbortOnShard sid txn) parts)) in H2 as [Hd Hno]; [|intros c0|done].
    + by eapply decide_abort.
    + apply fan_out_only. intros sid c2 _. eapply only_impl; [|apply AbortOnShard_only]. intros a. apply abort_phase.
Qed.

Lemma SingleShardCommit_trace txn sid ts c tr o :
  path (Coord.SingleShardCommit txn sid ts c) tr o → commit_trace txn [sid] ts tr o.
Proof.
  intros [?|(tr0 & tr' & -> & L0 & Hlog & H)]%(commit_trace_start txn [sid] ts); [done|].
  assert (∀ c tr o, path (Coord.PrepareOnShard sid txn ts c) tr o → phase_only PhPrepare tr) as Hop.
  { intros c0 tr o0. eapply (phase_only_path _ _ _ _ _ (λ a, prepare_phase a txn ts sid)), PrepareOnShard_only. }
  apply cm_bind_inv in H as [[H ->]|(trp & trd & c1 & p & -> & H1 & H2)].
  { rewrite <- (app_nil_r tr'). eapply decide_abort; try done. by eapply Hop. }
  pose proof (Hop _ _ _ H1) as Hp. destruct (negb p.1).
  { apply mret_inv in H2 as [-> Ho]. eapply decide_abort; try done. intros c' st ->. by destruct Ho as [?|[= _ ->]]. }
  destruct (vote_commit p.2) eqn:Ev; cbn [negb] in H2.
  - apply (commit_branch_inv txn [sid] ts (Coord.CommitOnShard sid txn ts) id) in H2 as [Hd Hok].
    + eapply decide_commit; try done. intros s ->%list_elem_of_singleton. by eapply PrepareOnShard_vote.
    + intros c0. eapply only_impl; [|apply CommitOnShard_only]. intros a Ha. exists sid. split; [left|done].
    + intros c0 tr1 c' b Hpath Hb s ->%list_elem_of_singleton. cbn in Hb. subst b. by eapply CommitOnShard_ack.
  - apply (abort_branch_inv txn (Coord.AbortOnShard sid txn)) in H2 as [Hd Hno]; [|intros c0|done].
    + by eapply decide_abort.
    + eapply only_impl; [|apply AbortOnShard_only]. intros a. apply abort_phase.
Qed.

Lemma commit_trace_stop txn parts ts tr o : commit_trace txn parts ts tr o → commit_trace txn parts ts tr None.
Proof. intros []. by split. Qed.

Lemma Commit_trace txn_id txn c tr o :
  c_txns_ c !! txn_id = Some txn → aborted txn = false → participant_shards txn ≠ ∅ →
  path (Coord.Commit txn_id c) tr o →
  commit_trace (raft_txn_id txn) (elements (participant_shards txn)) (ts_oracle_ c) tr o.
Proof.
  intros Htx Hab Hne. unfold Coord.Commit.
  rewrite (cm_bind_ret get_state _ c c c eq_refl), Htx, Hab. rewrite decide_False by done.
  rewrite (cm_bind_ret Coord.Now _ c (set_ts c (u64 (ts_oracle_ c + 1))) (ts_oracle_ c) eq_refl).
  set (c1 := set_ts c _). set (m := match elements _ with [] => _ | _ => _ end).
  assert (∀ tr o, path (m c1) tr o →
    commit_trace (raft_txn_id txn) (elements (participant_shards txn)) (ts_oracle_ c) tr o) as Hm.
  { intros tr1 o1. unfold m. destruct (elements (participant_shards txn)) as [|sid [|sid' l]].
    - apply TwoPhaseCommit_trace.
    - apply SingleShardCommit_trace.
    - apply TwoPhaseCommit_trace. }
  clearbody m. intros [[H ->]|(tr1 & tr2 & c2 & st & -> & H1 & H2)]%cm_bind_inv; [by apply Hm|].
  assert (tr2 = [] ∧ ∀ c' st', o = Some (c', st') → st' = st) as [-> Ho].
  { destruct H2 as [-> Ho]. split; [done|]. intros c' st' ->. by destruct Ho; simplify_eq. }
  rewrite app_nil_r. destruct (Hm _ _ H1) as [G1 G2 G3 G4 G5 G6 G7]. split; try done.
  intros c' st' -> Hst. apply (G7 c2 st); [done|]. by rewrite <- (Ho c' st' eq_refl).
Qed.

(** ** Recovery *)

Abbreviation TxnRecoveryState := Coord.TxnRecoveryState.

(** Participant [sid] reported state [ss] of [txn]. *)
Definition reported tr (txn sid : Z) (ss : TxnStateCode) : Prop := (txn, sid, ss) ∈ omap state_of tr.

(** Why recovery may abort, and why it may commit. *)
Definition abort_reason (txn : Z) (st : TxnRecoveryState) tr : Prop :=
  Coord.saw_committing st = false ∧
  (Coord.saw_aborting st = true ∨
   (∃ sid, sid ∈ Coord.rs_shards st ∧ reported tr txn sid TXN_ABORTED) ∨
   ∀ sid, ¬ reported tr txn sid TXN_COMMITTED).
Definition commit_reason (txn : Z) (st : TxnRecoveryState) tr : Prop :=
  Coord.saw_committing st = true ∨
  Coord.saw_aborting st = false ∧ (∀ sid, ¬ reported tr txn sid TXN_ABORTED) ∧
  ((∃ sid, sid ∈ Coord.rs_shards st ∧ reported tr txn sid TXN_COMMITTED) ∨
   ∀ sid, sid ∈ Coord.rs_shards st → reported tr txn sid TXN_PREPARED ∨ reported tr txn sid TXN_COMMITTED).

Lemma reported_app tr tr' txn sid ss :
  reported (tr ++ tr') txn sid ss ↔ reported tr txn sid ss ∨ reported tr' txn sid ss.
Proof. unfold reported. by rewrite omap_app, elem_of_app. Qed.

Definition decided_call (txn : Z) (sh : list Z) (ph : Phase) (a : CoordAction) : Prop :=
  phase a = PhLog ∨ phase a = ph ∧ ∃ sid, sid ∈ sh ∧ call_of a = Some (txn, sid).

Lemma append_only Q ty txn sh c : (∀ a, phase a = PhLog → Q a) →
  only Q (Coord.AppendCoordinatorRecord ty txn sh c).
Proof.
  intros HQ. unfold Coord.AppendCoordinatorRecord. apply cm_bind_only.
  - split; [by apply HQ|]. intros r. split; [by apply HQ|done].
  - intros c1 ws. case_match; [done|]. split; [by apply HQ|done].
Qed.

Lemma finish_commit_only txn sh c : only (decided_call txn sh PhCommit) (Coord.finish_commit txn sh c).
Proof.
  unfold Coord.finish_commit. apply cm_bind_only; [apply append_only; by left|].
  intros c1 ls. case_match; [done|]. apply cm_bind_only.
  - unfold Coord.DriveCommit. apply cm_bind_only; [done|]. intros c2 ts. apply cm_bind_only; [|done].
    apply fan_out_only. intros sid c3 Hs. eapply only_impl; [|apply CommitOnShard_only].
    intros a (s & -> & <-). right. split; [done|]. by eexists.
  - intros c2 cs. case_match; [done|]. apply append_only. by left.
Qed.

Lemma finish_abort_only txn sh c : only (decided_call txn sh PhAbort) (Coord.finish_abort txn sh c).
Proof.
  unfold Coord.finish_abort. apply cm_bind_only; [apply append_only; by left|].
  intros c1 ls. case_match; [done|]. apply cm_bind_only.
  - unfold Coord.DriveAbort. apply cm_bind_only; [|done].
    apply fan_out_only. intros sid c3 Hs. eapply only_impl; [|apply AbortOnShard_only].
    intros a (s & -> & <-). right. split; [done|]. by eexists.
  - intros c2 cs. case_match; [done|]. apply append_only. by left.
Qed.

(** A phase that decides [ph] only. *)
Lemma decided_nophase {A} txn sh ph ph' (p : Prog coord_result A) tr o :
  ph' ≠ PhLog → ph' ≠ ph → only (decided_call txn sh ph) p → path p tr o → nophase ph' tr.
Proof. intros H1 H2. apply nophase_only. intros a [Ha|[Ha _]]; congruence. Qed.

Lemma decided_report {A} txn sh ph (p : Prog coord_result A) tr o t sid ss :
  ph ≠ PhQuery → only (decided_call txn sh ph) p → path p tr o → ¬ reported tr t sid ss.
Proof.
  intros Hph Ho Hp Hr. apply list_elem_of_omap in Hr as (e & He & E).
  assert (nophase PhQuery tr) as Hn by (by eapply (decided_nophase txn sh ph PhQuery)).
  unfold nophase in Hn. rewrite Forall_forall in Hn. apply (Hn e He). by destruct e as [[] r].
Qed.

(** The answers of the participants are the reports. *)
Lemma query_loop_exact n sid txn resp c tr c' b resp' :
  path (Coord.query_loop n sid txn resp c) tr (Some (c', (b, resp'))) →
  ∀ t s ss, reported tr t s ss → b = true ∧ ss = tsr_state resp'.
Proof.
  revert resp c tr. induction n as [|n IH]; intros resp c tr; cbn [Coord.query_loop].
  { intros [-> _]%mret_inv t s ss Hr. unfold reported in Hr. set_solver. }
  get_stub sid c; [|intros [-> _]%mret_inv t s ss Hr; unfold reported in Hr; set_solver].
  intros [[_ ?]|(tr1 & tr2 & c1 & r & -> & H1 & H2)]%cm_bind_inv; [done|].
  apply (perform_inv (AQuery s txn)) in H1 as [[_ ?]|(r' & -> & [?|?])]; simplify_eq. cbn in r'.
  assert (∀ t s' ss, reported [Ev (AQuery s txn) r'] t s' ss → ∃ p, r' = Some p ∧ tsr_ok p = true ∧ ss = tsr_state p)
    as Hone.
  { intros t s' ss Hr. unfold reported in Hr. cbn in Hr. destruct r' as [p|]; [|set_solver].
    destruct (tsr_ok p) eqn:Ep; [|set_solver]. apply list_elem_of_singleton in Hr. simplify_eq. by exists p. }
  destruct (bool_decide (is_Some r') && tsr_ok (default resp r')) eqn:Eb.
  - apply mret_inv in H2 as [-> [?|?]]; simplify_eq. rewrite app_nil_r.
    intros t s' ss (p & -> & _ & ->)%Hone. done.
  - destruct (RotateStub_ret sid c) as [c2 E]. rewrite (cm_bind_ret _ _ _ _ _ E) in H2.
    intros t s' ss [(p & -> & Ep & _)%Hone|Hr]%reported_app; [|by eapply IH].
    cbn in Eb. congruence.
Qed.

Lemma QueryShardTxnState_exact sid txn c tr c' ss t s ss' :
  path (Coord.QueryShardTxnState sid txn c) tr (Some (c', ss)) → reported tr t s ss' → ss' = ss.
Proof.
  unfold Coord.QueryShardTxnState.
  intros [[_ ?]|(tr1 & tr2 & c1 & [b r] & -> & H1 & H2)]%cm_bind_inv Hr; [done|].
  apply mret_inv in H2 as [-> [?|?]]; simplify_eq. rewrite app_nil_r in Hr.
  destruct (query_loop_exact _ _ _ _ _ _ _ _ _ H1 _ _ _ Hr) as [-> ->]. done.
Qed.

Lemma queries_exact txn sh c tr c' states t s ss :
  path (fan_out (λ sid, Coord.QueryShardTxnState sid txn) sh c) tr (Some (c', states)) →
  reported tr t s ss → ss ∈ states.
Proof.
  revert c tr states. induction sh as [|sid sh IH]; intros c tr states; cbn [fan_out].
  - intros [-> _]%mret_inv Hr. unfold reported in Hr. set_solver.
  - intros [[_ ?]|(tr1 & tr2 & c1 & y & -> & H1 & H2)]%cm_bind_inv; [done|].
    apply cm_bind_inv in H2 as [[_ ?]|(tr3 & tr4 & c2 & ys' & -> & H2 & H3)]; [done|].
    apply mret_inv in H3 as [-> [?|?]]; simplify_eq. rewrite app_nil_r.
    intros [Hr|Hr]%reported_app; [|right; by eapply IH].
    rewrite (QueryShardTxnState_exact _ _ _ _ _ _ _ _ _ H1 Hr). left.
Qed.

Lemma queries_reported txn sh c tr c' states :
  path (fan_out (λ sid, Coord.QueryShardTxnState sid txn) sh c) tr (Some (c', states)) →
  Forall2 (λ sid ss, ss = TXN_UNKNOWN ∨ reported tr txn sid ss) sh states.
Proof.
  intros Hp. eapply (fan_out_results _ _ _ _ _ _ (λ sid ss tr, ss = TXN_UNKNOWN ∨ reported tr txn sid ss)), Hp.
  - intros x y l l' [?|Hr] Hs; [by left|right]. by eapply omap_sublist.
  - intros x c0 tr0 c1 y _. apply QueryShardTxnState_reported.
Qed.

Lemma existsb_state ss states : existsb (Coord.is_state ss) states = true ↔ ss ∈ states.
Proof.
  rewrite existsb_exists. unfold Coord.is_state. setoid_rewrite bool_decide_eq_true.
  setoid_rewrite <- list_elem_of_In. naive_solver.
Qed.

(** ** One transaction *)

Record recover_trace (txn : Z) (st : TxnRecoveryState) tr : Prop := {
  rt_calls : Forall (λ e : CEvent, phase (projT1 e) = PhLog ∨
    Coord.saw_preparing st = true ∧ Coord.saw_committed st = false ∧ Coord.saw_aborted st = false ∧
    ∃ sid, sid ∈ Coord.rs_shards st ∧ call_of (projT1 e) = Some (txn, sid)) tr;
  rt_abort : guarded PhAbort (λ tr1 _, abort_reason txn st tr1) tr;
  rt_commit : guarded PhCommit (λ tr1 _, commit_reason txn st tr1) tr;
}.

(** The queries [trq] decided for commit or for abort. *)
Lemma recover_commit_trace txn st trq trd c o :
  Coord.saw_preparing st = true → Coord.saw_committed st = false → Coord.saw_aborted st = false →
  Forall (λ e : CEvent, ∃ sid, sid ∈ Coord.rs_shards st ∧ query_call txn sid (projT1 e)) trq →
  path (Coord.finish_commit txn (Coord.rs_shards st) c) trd o →
  commit_reason txn st trq → recover_trace txn st (trq ++ trd).
Proof.
  intros Hp Hc Ha Hq Hd Hr. pose proof (finish_commit_only txn (Coord.rs_shards st) c) as Ho.
  assert (∀ ph, ph ≠ PhQuery → nophase ph trq) as Nq.
  { intros ph Hph. eapply Forall_impl; [exact Hq|]. intros e (sid & _ & s & He & _). unfold in_phase. by rewrite He. }
  split.
  - apply Forall_app. split.
    + eapply Forall_impl; [exact Hq|]. intros e (sid & Hs & s & He & <-). right. split_and!; try done.
      rewrite He. by eexists.
    + eapply Forall_impl; [by eapply only_path|]. intros e [He|[_ He]]; [by left|by right].
  - apply guarded_none, nophase_app. split; [by apply Nq|]. by eapply (decided_nophase txn _ PhCommit PhAbort).
  - apply guarded_app; [by apply Nq|]. intros tr1 e tr2 -> _.
    assert (∀ sid ss, reported (trq ++ tr1) txn sid ss ↔ reported trq txn sid ss) as Hrep.
    { intros sid ss. rewrite reported_app. split; [intros [?|Hr1]; [done|]|by left]. exfalso.
      eapply (decided_report txn _ PhCommit); [done|exact Ho| |]; [exact Hd|].
      rewrite reported_app. by left. }
    unfold commit_reason in *. setoid_rewrite Hrep. done.
Qed.

Lemma recover_abort_trace txn st trq trd c o :
  Coord.saw_preparing st = true → Coord.saw_committed st = false → Coord.saw_aborted st = false →
  Forall (λ e : CEvent, ∃ sid, sid ∈ Coord.rs_shards st ∧ query_call txn sid (projT1 e)) trq →
  path (Coord.finish_abort txn (Coord.rs_shards st) c) trd o →
  abort_reason txn st trq → recover_trace txn st (trq ++ trd).
Proof.
  intros Hp Hc Ha Hq Hd Hr. pose proof (finish_abort_only txn (Coord.rs_shards st) c) as Ho.
  assert (∀ ph, ph ≠ PhQuery → nophase ph trq) as Nq.
  { intros ph Hph. eapply Forall_impl; [exact Hq|]. intros e (sid & _ & s & He & _). unfold in_phase. by rewrite He. }
  split.
  - apply Forall_app. split.
    + eapply Forall_impl; [exact Hq|]. intros e (sid & Hs & s & He & <-). right. split_and!; try done.
      rewrite He. by eexists.
    + eapply Forall_impl; [by eapply only_path|]. intros e [He|[_ He]]; [by left|by right].
  - apply guarded_app; [by apply Nq|]. intros tr1 e tr2 -> _.
    assert (∀ sid ss, reported (trq ++ tr1) txn sid ss ↔ reported trq txn sid ss) as Hrep.
    { intros sid ss. rewrite reported_app. split; [intros [?|Hr1]; [done|]|by left]. exfalso.
      eapply (decided_report txn _ PhAbort); [done|exact Ho| |]; [exact Hd|].
      rewrite reported_app. by left. }
    unfold abort_reason in *. setoid_rewrite Hrep. done.
  - apply guarded_none, nophase_app. split; [by apply Nq|]. by eapply (decided_nophase txn _ PhAbort PhCommit).
Qed.

Lemma recover_trace_nil txn st : recover_trace txn st [].
Proof. split; [constructor|by apply guarded_none; constructor..]. Qed.

Lemma recover_txn_trace txn st c tr o : path (Coord.recover_txn txn st c) tr o → recover_trace txn st tr.
Proof.
  unfold Coord.recover_txn.
  destruct (negb (Coord.saw_preparing st) || _ || _) eqn:Eg.
  { intros [-> _]%mret_inv. apply recover_trace_nil. }
  apply orb_false_iff in Eg as [[Ep%negb_false_iff Ec]%orb_false_iff Ea].
  case_bool_decide as Hsh; [intros [-> _]%mret_inv; apply recover_trace_nil|].
  destruct (Coord.saw_committing st) eqn:Ecg.
  { intros Hp. apply (recover_commit_trace txn st [] tr c o); try done. by left. }
  destruct (Coord.saw_aborting st) eqn:Eag.
  { intros Hp. apply (recover_abort_trace txn st [] tr c o); try done. split; [done|by left]. }
  assert (∀ c tr o, path (fan_out (λ sid, Coord.QueryShardTxnState sid txn) (Coord.rs_shards st) c) tr o →
    Forall (λ e : CEvent, ∃ sid, sid ∈ Coord.rs_shards st ∧ query_call txn sid (projT1 e)) tr) as Hq.
  { intros c0 tr0 o0. apply (only_path (λ a, ∃ sid, sid ∈ Coord.rs_shards st ∧ query_call txn sid a)), fan_out_only.
    intros sid c1 Hs.
    eapply only_impl; [|apply QueryShardTxnState_only]. intros a Ha. by exists sid. }
  intros [[H ->]|(trq & trd & c1 & states & -> & H1 & H2)]%cm_bind_inv.
  { pose proof (Hq _ _ _ H) as HF. split.
    - eapply Forall_impl; [exact HF|]. intros e (sid & Hs & s & He & <-). right. split_and!; try done.
      rewrite He. by eexists.
    - apply guarded_none. eapply Forall_impl; [exact HF|]. intros e (sid & _ & s & He & _). unfold in_phase. by rewrite He.
    - apply guarded_none. eapply Forall_impl; [exact HF|]. intros e (sid & _ & s & He & _). unfold in_phase. by rewrite He. }
  pose proof (Hq _ _ _ H1) as HF. pose proof (queries_reported _ _ _ _ _ _ H1) as HR.
  assert (∀ ss, ss ≠ TXN_UNKNOWN → ss ∈ states → ∃ sid, sid ∈ Coord.rs_shards st ∧ reported trq txn sid ss) as Hsome.
  { intros ss Hss Hin. apply list_elem_of_lookup in Hin as [i Hi].
    destruct (Forall2_lookup_r _ _ _ _ _ HR Hi) as (sid & Hsi & [?|Hr]); [done|].
    exists sid. split; [by eapply list_elem_of_lookup_2|done]. }
  cbn zeta in H2. destruct (existsb (Coord.is_state TXN_ABORTED) states) eqn:Eab.
  { eapply recover_abort_trace; try done. split; [done|right; left].
    apply Hsome; [done|]. by apply existsb_state. }
  assert (∀ sid, ¬ reported trq txn sid TXN_ABORTED) as Hnab.
  { intros sid Hr. apply (queries_exact _ _ _ _ _ _ _ _ _ H1), existsb_state in Hr. congruence. }
  destruct (forallb _ states || _) eqn:Ecm.
  - eapply recover_commit_trace; try done. right. split; [done|]. split; [done|].
    apply orb_true_iff in Ecm as [Ecm|Ecm]; [right|left].
    + intros sid Hs. apply list_elem_of_lookup in Hs as [i Hi].
      destruct (Forall2_lookup_l _ _ _ _ _ HR Hi) as (ss & Hsi & Hr).
      rewrite forallb_forall in Ecm. specialize (Ecm ss (proj1 (list_elem_of_In _ _) (list_elem_of_lookup_2 _ _ _ Hsi))).
      apply orb_true_iff in Ecm as [E%bool_decide_eq_true|E%bool_decide_eq_true]; subst ss;
        destruct Hr as [?|Hr]; auto; done.
    + apply Hsome; [done|]. by apply existsb_state.
  - apply orb_false_iff in Ecm as [_ Ecm]. eapply recover_abort_trace; try done. split; [done|right; right].
    intros sid Hr. apply (queries_exact _ _ _ _ _ _ _ _ _ H1), existsb_state in Hr. congruence.
Qed.

(** ** All transactions *)

Definition calls_about (txn : Z) (e : CEvent) : Prop := ∃ sid, call_of (projT1 e) = Some (txn, sid).

(** Recovering one transaction makes no calls about another one of the list. *)
Lemma recover_txn_other_txns t st st' c tr o txn (l : list (Z * TxnRecoveryState)) :
  path (Coord.recover_txn t st c) tr o → t ∉ l.*1 → (txn, st') ∈ l → Forall (λ e, ¬ calls_about txn e) tr.
Proof.
  intros Hp Hnew Hin. eapply Forall_impl; [apply (rt_calls _ _ _ (recover_txn_trace _ _ _ _ _ Hp))|].
  intros e [Hl|(_ & _ & _ & sid & _ & Hc)] [sid' Hc'].
  - destruct (projT1 e); simpl in *; congruence.
  - assert (t = txn) by congruence. subst t. apply Hnew, list_elem_of_fmap. by exists (txn, st').
Qed.

Lemma recover_all_event l c tr o tr1 e tr2 txn : NoDup l.*1 → path (Coord.recover_all l c) tr o →
  tr = tr1 ++ e :: tr2 → calls_about txn e →
  ∃ st tra trb, (txn, st) ∈ l ∧ tr1 = tra ++ trb ∧ Forall (λ e, ¬ calls_about txn e) tra ∧
    recover_trace txn st (trb ++ [e]).
Proof.
  intros Hnd Hp. revert c tr tr1 Hnd Hp. induction l as [|[t st] l IH]; intros c tr tr1 Hnd; cbn [Coord.recover_all].
  { intros [-> _]%mret_inv E. by destruct tr1. }
  rewrite fmap_cons in Hnd. apply NoDup_cons in Hnd as [Hnew Hnd].
  assert (∀ c tr o tr2, path (Coord.recover_txn t st c) tr o → tr = tr1 ++ e :: tr2 → calls_about txn e →
    ∃ st' tra trb, (txn, st') ∈ (t, st) :: l ∧ tr1 = tra ++ trb ∧ Forall (λ e, ¬ calls_about txn e) tra ∧
      recover_trace txn st' (trb ++ [e])) as Hhere.
  { intros c0 tr0 o0 tr3 Hp -> [sid Hsid]. pose proof (recover_txn_trace _ _ _ _ _ Hp) as Ht.
    assert (t = txn) as ->.
    { pose proof (rt_calls _ _ _ Ht) as HF. apply Forall_app in HF as [_ [HF _]%Forall_cons].
      destruct HF as [HF|(_ & _ & _ & sid' & _ & HF)]; [|congruence]. by destruct (projT1 e). }
    exists st, [], tr1. split_and!; [left|done|constructor|].
    eapply recover_txn_trace. eapply (path_prefix _ (tr1 ++ [e]) tr3). rewrite <- app_assoc. exact Hp. }
  intros [[H ->]|(ta & tb & c1 & rs & E & H1 & H2)]%cm_bind_inv Etr He; [by eapply Hhere|].
  subst tr. apply app_eq_inv in Etr as [(k & Ek & E2)|(k & -> & E2)].
  - destruct k as [|e' k].
    + rewrite app_nil_r in Ek. subst ta. cbn in E2. destruct (negb (St.ok rs)).
      { apply mret_inv in H2 as [-> _]. done. }
      destruct (IH c1 tb [] Hnd H2 (eq_sym E2) He) as (st' & tra & trb & Hin & E' & _ & Hr).
      symmetry in E'. apply app_nil in E' as [-> ->].
      exists st', tr1, []. split_and!; [by right|by rewrite app_nil_r| |done].
      by eapply recover_txn_other_txns.
    + injection E2 as <- _. by apply (Hhere c ta (Some (c1, rs)) k).
  - destruct (negb (St.ok rs)); [apply mret_inv in H2 as [-> _]; by destruct k|].
    destruct (IH c1 tb k Hnd H2 E2 He) as (st' & tra & trb & Hin & -> & Hno & Hr).
    exists st', (ta ++ tra), trb. split_and!; [by right|by rewrite app_assoc| |done].
    apply Forall_app. split; [|done]. by eapply recover_txn_other_txns.
Qed.

(** *** What the log says about a transaction *)

Definition has_record (rs : list CoordinatorLogRecord) (txn : Z) (ty : CoordinatorLogRecordType) : bool :=
  existsb (λ r, (cl_txn_id r =? txn) && bool_decide (cl_type r = ty)) rs.

Lemma has_record_snoc rs r txn ty :
  has_record (rs ++ [r]) txn ty = has_record rs txn ty || ((cl_txn_id r =? txn) && bool_decide (cl_type r = ty)).
Proof. unfold has_record. rewrite existsb_app. simpl. by rewrite orb_false_r. Qed.

Lemma has_record_true rs txn ty :
  has_record rs txn ty = true ↔ ∃ r, r ∈ rs ∧ cl_txn_id r = txn ∧ cl_type r = ty.
Proof.
  unfold has_record. rewrite existsb_exists. setoid_rewrite andb_true_iff. setoid_rewrite Z.eqb_eq.
  setoid_rewrite bool_decide_eq_true. setoid_rewrite <- list_elem_of_In. done.
Qed.

Definition flags_of (rs : list CoordinatorLogRecord) (txn : Z) (st : TxnRecoveryState) : Prop :=
  Coord.saw_preparing st = has_record rs txn PREPARING ∧ Coord.saw_committing st = has_record rs txn COMMITTING ∧
  Coord.saw_committed st = has_record rs txn COMMITTED ∧ Coord.saw_aborting st = has_record rs txn ABORTING ∧
  Coord.saw_aborted st = has_record rs txn ABORTED.

Lemma recovery_states_flags rs txn :
  flags_of rs txn (default Coord.no_records (Coord.recovery_states rs !! txn)).
Proof.
  induction rs as [|r rs IH] using rev_ind; [done|].
  unfold Coord.recovery_states. rewrite foldl_app. cbn [foldl]. fold (Coord.recovery_states rs).
  unfold flags_of in *. rewrite !has_record_snoc.
  destruct (Z.eqb_spec (cl_txn_id r) txn) as [<-|Hne].
  - rewrite lookup_insert_eq. cbn [default]. destruct (default _ _) as [sh p cg cd ag ad]. cbn in IH.
    destruct IH as (-> & -> & -> & -> & ->). unfold Coord.see_record.
    destruct (cl_type r); cbn; rewrite ?orb_false_r, ?orb_true_r; done.
  - rewrite lookup_insert_ne by done. cbn [andb]. by rewrite !orb_false_r.
Qed.

Definition replay_of (e : CEvent) : option (Status * list CoordinatorLogRecord) :=
  match e with existT ALogReplay r => Some r | _ => None end.

(** Reports about a transaction come from calls about it. *)
Lemma reported_calls tr txn s ss : Forall (λ e, ¬ calls_about txn e) tr → ¬ reported tr txn s ss.
Proof.
  intros HF (e & He & E)%list_elem_of_omap. rewrite Forall_forall in HF. apply (HF e He).
  destruct e as [[] r]; simpl in E; try done. destruct r as [r|]; [|done]. simpl in E.
  destruct (tsr_ok r); simplify_eq. by eexists.
Qed.

Lemma Recover_event c st0 rs tr' o tr1 e tr2 txn :
  path (Coord.Recover c) (Ev ALogReplay (st0, rs) :: tr') o → tr' = tr1 ++ e :: tr2 → calls_about txn e →
  ∃ st tra trb, flags_of rs txn st ∧ tr1 = tra ++ trb ∧ Forall (λ e, ¬ calls_about txn e) tra ∧
    recover_trace txn st (trb ++ [e]).
Proof.
  unfold Coord.Recover.
  intros [[H ->]|(ta & tb & c1 & [st' rs'] & E & H1 & H2)]%cm_bind_inv -> He.
  { apply (perform_inv ALogReplay) in H as [[? _]|(r & E & _)]; [done|].
    apply (f_equal length) in E. simpl in E. rewrite length_app in E. simpl in E. lia. }
  apply (perform_inv ALogReplay) in H1 as [[_ ?]|(r & -> & [?|Er])]; [done|done|]. injection Er as -> <-.
  assert (st0 = st' ∧ rs = rs' ∧ tb = tr1 ++ e :: tr2) as (-> & -> & ->).
  { pose proof (f_equal (λ l, head l ≫= replay_of) E) as E0. injection E0 as -> ->.
    by injection E as <-. }
  cbn [fst snd] in H2.
  destruct (negb (St.ok st')); [apply mret_inv in H2 as [E' _]; by destruct tr1|].
  destruct (recover_all_event _ _ _ _ _ _ _ txn (NoDup_fst_map_to_list _) H2 eq_refl He)
    as (st & tra & trb & Hin & -> & Hno & Hr).
  exists st, tra, trb. split_and!; try done.
  apply elem_of_map_to_list in Hin. pose proof (recovery_states_flags rs' txn) as Hf. by rewrite Hin in Hf.
Qed.

(** The records of a trace that are still there after a crash: an initial
    segment with everything written before a successful flush. *)
Definition survives tr (rs : list CoordinatorLogRecord) : Prop :=
  ∃ m, rs = take m (omap written_of tr) ∧
    ∀ tr1 f tr2, tr = tr1 ++ f :: tr2 → flushed f → (length (omap written_of tr1) ≤ m)%nat.

Lemma length_omap_cons {A B} (f : A → option B) x l :
  length (omap f (x :: l)) = (length (option_list (f x)) + length (omap f l))%nat.
Proof. cbn. by destruct (f x). Qed.

Fixpoint flush_bound (n m : nat) tr : bool :=
  match tr with
  | [] => true
  | e :: tr =>
      (negb (flush_ok e) || (n <=? m)%nat) &&
      flush_bound (n + length (option_list (written_of e))) m tr
  end.

Lemma survives_decide tr m : flush_bound 0 m tr = true → survives tr (take m (omap written_of tr)).
Proof.
  intros Hb. exists m. split; [done|]. intros tr1 f tr2 -> Hf.
  assert (∀ n, flush_bound n m (tr1 ++ f :: tr2) = true → (n + length (omap written_of tr1) ≤ m)%nat) as H;
    [|by apply (H 0%nat)].
  clear Hb. induction tr1 as [|e tr1 IH]; intros n; cbn [app flush_bound].
  - rewrite Hf. cbn [negb orb]. intros [Hn%Nat.leb_le _]%andb_true_iff. simpl. lia.
  - intros [_ Hb]%andb_true_iff. specialize (IH _ Hb).
    rewrite length_omap_cons. lia.
Qed.

Lemma survives_logged tr rs ty txn sh : survives tr rs → logged tr ty txn sh → has_record rs txn ty = true.
Proof.
  intros (m & -> & Hm) (tr1 & w & tr2 & f & tr3 & rec & -> & Hw & Hty & Htx & _ & Hf).
  apply has_record_true. exists rec. split; [|done].
  specialize (Hm (tr1 ++ w :: tr2) f tr3). rewrite <- app_assoc in Hm. specialize (Hm eq_refl Hf).
  assert (rec ∈ omap written_of (tr1 ++ w :: tr2)) as Hin.
  { apply list_elem_of_omap. exists w. split; [set_solver|done]. }
  replace (tr1 ++ w :: tr2 ++ f :: tr3) with ((tr1 ++ w :: tr2) ++ f :: tr3) by (by rewrite <- app_assoc).
  rewrite omap_app, take_app_ge by done. apply elem_of_app. by left.
Qed.

Lemma survives_records tr rs (T : CoordinatorLogRecord → Prop) :
  survives tr rs → Forall (writes_only T) tr → Forall T rs.
Proof.
  intros (m & -> & _) HF. apply Forall_take, Forall_forall. intros rec (e & He & Hr)%list_elem_of_omap.
  rewrite Forall_forall in HF. by apply (HF e He).
Qed.

Lemma acked_event tr txn ts sid : acked tr txn ts sid → ∃ tr1 e tr2, tr = tr1 ++ e :: tr2 ∧ in_phase PhCommit e.
Proof.
  intros (e & He & E)%list_elem_of_omap. apply list_elem_of_split in He as (tr1 & tr2 & ->).
  exists tr1, e, tr2. split; [done|]. by destruct e as [[] r].
Qed.

Lemma voted_event tr txn ts sid : voted tr txn ts sid → ∃ tr1 e tr2, tr = tr1 ++ e :: tr2 ∧ in_phase PhPrepare e.
Proof.
  intros (e & He & E)%list_elem_of_omap. apply list_elem_of_split in He as (tr1 & tr2 & ->).
  exists tr1, e, tr2. split; [done|]. by destruct e as [[] r].
Qed.

(** Once a participant acknowledged a commit, the log knows the transaction and
    knows nothing of an abort. *)
Lemma acked_logged txn parts ts tr o sid rs : commit_trace txn parts ts tr o → acked tr txn ts sid →
  survives tr rs → has_record rs txn PREPARING = true ∧ has_record rs txn ABORTING = false.
Proof.
  intros Ht Hack Hs. destruct (acked_event _ _ _ _ Hack) as (tr1 & e & tr2 & -> & He).
  destruct (ct_commit _ _ _ _ _ Ht tr1 e tr2 eq_refl He) as [(s & Hs1 & _) Hv].
  destruct (voted_event _ _ _ _ (Hv s Hs1)) as (t1 & e' & t2 & -> & He').
  pose proof (ct_prepare _ _ _ _ _ Ht t1 e' (t2 ++ e :: tr2)) as Hl.
  rewrite <- app_assoc in Hl. specialize (Hl eq_refl He'). cbn in Hl. split.
  - eapply survives_logged; [done|]. rewrite <- app_assoc. by apply logged_app_r.
  - assert (Forall (commit_record txn parts) rs) as HF.
    { eapply survives_records; [done|]. destruct (ct_records _ _ _ _ _ Ht) as [Hn|?]; [|done].
      apply Forall_app in Hn as [_ [Hn _]%Forall_cons]. done. }
    apply not_true_iff_false. intros (r & Hr & _ & Hty)%has_record_true.
    rewrite Forall_forall in HF. destruct (HF r Hr) as [_ [[? _]|[?|?]]]; congruence.
Qed.

(** ** Properties *)

(** C32. Two-phase commit decides once and only on unanimous, logged votes. In
    every run of [Commit] of a transaction with participants, whatever shards,
    network and log answer and wherever the run stops: a prepare request is sent
    only after the PREPARING record with all participants is flushed; a commit
    request is sent only to participants, with the commit timestamp of the
    transaction, and only after every participant voted to commit at that
    timestamp; no run sends both commit and abort requests; and when [Commit]
    returns OK every participant has acknowledged the commit and the COMMITTED
    record is flushed. *)
Theorem two_phase_commit_safe (txn_id : Z) (txn : CoordinatorTxn) (c : Coordinator) (tr : list CEvent)
    (o : option (Coordinator * Status))
    (Htxn : c_txns_ c !! txn_id = Some txn) (Hab : aborted txn = false) (Hne : participant_shards txn ≠ ∅)
    (Hrun : path (Coord.Commit txn_id c) tr o) :
  let id := raft_txn_id txn in
  let parts := elements (participant_shards txn) in
  let ts := ts_oracle_ c in
  (∀ tr1 e tr2, tr = tr1 ++ e :: tr2 → in_phase PhPrepare e → logged tr1 PREPARING id parts) ∧
  (∀ tr1 e tr2, tr = tr1 ++ e :: tr2 → in_phase PhCommit e →
     (∃ s, stub_shard s ∈ parts ∧ projT1 e = ACommit s id ts) ∧ ∀ sid, sid ∈ parts → voted tr1 id ts sid) ∧
  (Forall (λ e, ¬ in_phase PhCommit e) tr ∨ Forall (λ e, ¬ in_phase PhAbort e) tr) ∧
  (∀ c', o = Some (c', St.OK) →
     logged tr COMMITTED id [] ∧ ∀ sid, sid ∈ parts → acked tr id ts sid).
Proof.
  destruct (Commit_trace txn_id txn c tr o Htxn Hab Hne Hrun) as [G1 G2 G3 _ _ _ G7].
  split_and!; [exact G1| |exact G3|].
  - intros tr1 e tr2 E He. destruct (G2 tr1 e tr2 E He) as [(sid & Hs & s & Ea & <-) Hv]. split; [by exists s|done].
  - intros c' Ho. by destruct (G7 c' St.OK Ho eq_refl) as (_ & ? & ?).
Qed.

(** Two shards, transaction 1 with both as participants. *)
Definition demo_coord : Coordinator :=
  MkCoordinator 2 7 2 {[1 := MkCoordinatorTxn 1 3 {[0; 1]} false]} {[0; 1]} ∅ {[0 := 0%nat; 1 := 0%nat]}.

(** An environment: the replayed log and the answers to state queries. *)
Definition demo_env (log : list CoordinatorLogRecord) (query : Z → option TxnStateResponse) (s : ())
    (a : CoordAction) : () * coord_result a :=
  ((), match a return coord_result a with
       | ALogWrite _ => St.OK
       | ALogFlush => St.OK
       | ALogReplay => (St.OK, log)
       | AClock => 100
       | AExecute _ _ => None
       | AJoin _ _ => None
       | APrepare _ _ _ => Some (MkPrepareResponse true "")
       | ACommit _ _ _ => Some (MkCommitResponse true "")
       | AAbort _ _ => Some (MkAbortResponse true)
       | AQuery s _ => query (stub_shard s)
       end).

Lemma two_phase_commit_safe_witness :
  let tr := (run (demo_env [] (λ _, None)) () (Coord.Commit 1 demo_coord)).1.2 in
  length tr = 12%nat ∧ logged tr COMMITTED 1 [] ∧ ∀ sid, sid ∈ elements ({[0; 1]} : gset Z) → acked tr 1 7 sid.
Proof.
  split; [vm_compute; reflexivity|].
  refine (proj2 (proj2 (proj2 (two_phase_commit_safe 1 (MkCoordinatorTxn 1 3 {[0; 1]} false) demo_coord _ _
    _ _ _ (run_path (demo_env [] (λ _, None)) (Coord.Commit 1 demo_coord) ())))) _ _).
  - vm_compute. reflexivity.
  - reflexivity.
  - vm_compute. discriminate.
  - vm_compute. reflexivity.
Defined.

(** C33. Recovery follows the log first and the participants second. Whatever the
    environment answers, [Recover] calls a shard about a transaction only when the
    replayed log has its PREPARING record and neither COMMITTED nor ABORTED. It
    sends an abort only without a COMMITTING record, and then because of an
    ABORTING record, or because a participant reported ABORTED, or because none
    reported COMMITTED. It sends a commit only because of a COMMITTING record, or
    when there is no ABORTING record, nobody reported ABORTED, and either a
    participant reported COMMITTED or the shard the commit goes to reported
    PREPARED or COMMITTED. *)
Theorem recovery_decision (c : Coordinator) (st0 : Status) (rs : list CoordinatorLogRecord)
    (tr tr1 : list CEvent) (e : CEvent) (tr2 : list CEvent) (o : option (Coordinator * Status)) (txn sid : Z)
    (Hrun : path (Coord.Recover c) (Ev ALogReplay (st0, rs) :: tr) o)
    (Hev : tr = tr1 ++ e :: tr2) (Hcall : call_of (projT1 e) = Some (txn, sid)) :
  has_record rs txn PREPARING = true ∧ has_record rs txn COMMITTED = false ∧
  has_record rs txn ABORTED = false ∧
  (in_phase PhAbort e → has_record rs txn COMMITTING = false ∧
     (has_record rs txn ABORTING = true ∨ (∃ s, reported tr1 txn s TXN_ABORTED) ∨
      ∀ s, ¬ reported tr1 txn s TXN_COMMITTED)) ∧
  (in_phase PhCommit e → has_record rs txn COMMITTING = true ∨
     has_record rs txn ABORTING = false ∧ (∀ s, ¬ reported tr1 txn s TXN_ABORTED) ∧
     ((∃ s, reported tr1 txn s TXN_COMMITTED) ∨
      reported tr1 txn sid TXN_PREPARED ∨ reported tr1 txn sid TXN_COMMITTED)).
Proof.
  destruct (Recover_event c st0 rs tr o tr1 e tr2 txn Hrun Hev) as
    (st & tra & trb & (F1 & F2 & F3 & F4 & F5) & -> & Hno & [Rc Ra Rm]); [by exists sid|].
  assert (∀ s ss, reported (tra ++ trb) txn s ss ↔ reported trb txn s ss) as Hrep.
  { intros s ss. rewrite reported_app. split; [intros [Hr|?]; [|done]|by right]. by apply reported_calls in Hr. }
  apply Forall_app in Rc as [_ [Rc _]%Forall_cons].
  destruct Rc as [Rc|(Hp & Hc & Ha & s & Hs & Hcs)]; [by destruct (projT1 e)|].
  rewrite <- F1, <- F2, <- F3, <- F4, <- F5. setoid_rewrite Hrep. split_and!; try done.
  - intros He. destruct (Ra trb e [] eq_refl He) as [Hcm [?|[(s' & _ & ?)|?]]]; (split; [done|]); eauto.
  - intros He. destruct (Rm trb e [] eq_refl He) as [?|(? & ? & [(s' & _ & ?)|Hall])]; [by left|right..];
      split_and!; try done; [left; eauto|right].
    apply Hall. congruence.
Qed.

(** The log after a crash in the middle of committing transaction 1. *)
Definition demo_log : list CoordinatorLogRecord := [MkCoordinatorLogRecord PREPARING 1 100 [1; 0]].
Definition state_reply (ss : TxnStateCode) : option TxnStateResponse := Some (MkTxnStateResponse true ss).
Definition demo_query (sid : Z) : option TxnStateResponse :=
  if sid =? 1 then state_reply TXN_COMMITTED else state_reply TXN_PREPARED.
Definition demo_recovery : list CEvent := (run (demo_env demo_log demo_query) () (Coord.Recover demo_coord)).1.2.

Lemma recovery_decision_witness :
  has_record demo_log 1 PREPARING = true ∧
  (has_record demo_log 1 COMMITTING = true ∨
     has_record demo_log 1 ABORTING = false ∧ (∀ s, ¬ reported (take 5 (tail demo_recovery)) 1 s TXN_ABORTED) ∧
     ((∃ s, reported (take 5 (tail demo_recovery)) 1 s TXN_COMMITTED) ∨
      reported (take 5 (tail demo_recovery)) 1 1 TXN_PREPARED ∨
      reported (take 5 (tail demo_recovery)) 1 1 TXN_COMMITTED)).
Proof.
  pose proof (run_path (demo_env demo_log demo_query) (Coord.Recover demo_coord) ()) as Hrun.
  destruct (recovery_decision demo_coord St.OK demo_log (tail demo_recovery) (take 5 (tail demo_recovery))
    (Ev (ACommit (PrimaryStub 1) 1 7) (Some (MkCommitResponse true ""))) (drop 6 (tail demo_recovery))
    _ 1 1 Hrun eq_refl eq_refl) as (H & _ & _ & _ & Hc).
  split; [exact H|]. apply Hc. reflexivity.
Defined.

(** A commit that reached a participant is not undone by recovery, as long as
    it hears of it. Take a run of [Commit] that stops anywhere (a crash) after a
    participant acknowledged the commit, a log that kept everything that was
    flushed, and the recovery of a coordinator from that log (behind records
    [rs0] of other transactions). Then recovery knows the transaction, no record
    says to abort it, and an abort is sent only if some participant reported
    ABORTED or none reported COMMITTED before. *)
Theorem committed_not_aborted (txn_id : Z) (txn : CoordinatorTxn) (c c2 : Coordinator) (tr tr2 : list CEvent)
    (o o2 : option (Coordinator * Status)) (st0 : Status) (rs0 rs : list CoordinatorLogRecord) (sid : Z)
    (Htxn : c_txns_ c !! txn_id = Some txn) (Hab : aborted txn = false) (Hne : participant_shards txn ≠ ∅)
    (Hrun : path (Coord.Commit txn_id c) tr o) (Hack : acked tr (raft_txn_id txn) (ts_oracle_ c) sid)
    (Hlog : survives tr rs) (Hold : Forall (λ r, cl_txn_id r ≠ raft_txn_id txn) rs0)
    (Hrec : path (Coord.Recover c2) (Ev ALogReplay (st0, rs0 ++ rs) :: tr2) o2) :
  has_record (rs0 ++ rs) (raft_txn_id txn) PREPARING = true ∧
  has_record (rs0 ++ rs) (raft_txn_id txn) ABORTING = false ∧
  ∀ t1 e t2 s, tr2 = t1 ++ e :: t2 → projT1 e = AAbort s (raft_txn_id txn) →
    (∃ p, reported t1 (raft_txn_id txn) p TXN_ABORTED) ∨ ∀ p, ¬ reported t1 (raft_txn_id txn) p TXN_COMMITTED.
Proof.
  destruct (acked_logged _ _ _ _ _ _ _ (Commit_trace txn_id txn c tr o Htxn Hab Hne Hrun) Hack Hlog) as [Hp Ha].
  assert (∀ ty, has_record (rs0 ++ rs) (raft_txn_id txn) ty = has_record rs (raft_txn_id txn) ty) as Happ.
  { intros ty. apply eq_true_iff_eq. rewrite !has_record_true. setoid_rewrite elem_of_app.
    rewrite Forall_forall in Hold. split; [|naive_solver].
    intros (r & [Hr|Hr] & Htx & Hty); [by destruct (Hold r Hr)|eauto]. }
  rewrite !Happ. split_and!; [done..|]. intros t1 e t2 s Hev He.
  destruct (Recover_event c2 st0 _ tr2 o2 t1 e t2 (raft_txn_id txn) Hrec Hev) as
    (st & tra & trb & (F1 & F2 & F3 & F4 & F5) & -> & Hno & [_ Ra _]); [exists (stub_shard s); by rewrite He|].
  assert (in_phase PhAbort e) as Hph by (unfold in_phase; by rewrite He).
  destruct (Ra trb e [] eq_refl Hph) as [_ [Hc|[(p & _ & Hr)|Hr]]].
  - rewrite F4, Happ in Hc. congruence.
  - left. exists p. apply reported_app. by right.
  - right. intros p [Hq|Hq]%reported_app; [by apply reported_calls in Hq|by eapply Hr].
Qed.

(** Shard 1 acknowledged, then the coordinator crashed and lost all but the
    flushed record. *)
Definition demo_crash : list CEvent :=
  take 8 (run (demo_env [] (λ _, None)) () (Coord.Commit 1 demo_coord)).1.2.

Lemma demo_crash_run : path (Coord.Commit 1 demo_coord) demo_crash None.
Proof.
  apply (path_prefix (Coord.Commit 1 demo_coord) demo_crash
    (drop 8 (run (demo_env [] (λ _, None)) () (Coord.Commit 1 demo_coord)).1.2)
    (Some (run (demo_env [] (λ _, None)) () (Coord.Commit 1 demo_coord)).2)).
  unfold demo_crash. rewrite take_drop. apply run_path.
Defined.

Lemma demo_crash_survives : survives demo_crash demo_log.
Proof.
  assert (demo_log = take 1 (omap written_of demo_crash)) as -> by (vm_compute; reflexivity).
  apply survives_decide. vm_compute. reflexivity.
Defined.

Lemma committed_not_aborted_witness :
  has_record demo_log 1 PREPARING = true ∧ has_record demo_log 1 ABORTING = false ∧
  ∀ t1 e t2 s, tail demo_recovery = t1 ++ e :: t2 → projT1 e = AAbort s 1 →
    (∃ p, reported t1 1 p TXN_ABORTED) ∨ ∀ p, ¬ reported t1 1 p TXN_COMMITTED.
Proof.
  refine (committed_not_aborted 1 (MkCoordinatorTxn 1 3 {[0; 1]} false) demo_coord demo_coord demo_crash
    (tail demo_recovery) None _ St.OK [] demo_log 1 _ eq_refl _ demo_crash_run _ demo_crash_survives
    (List.Forall_nil _) (run_path (demo_env demo_log demo_query) (Coord.Recover demo_coord) ())).
  - vm_compute. reflexivity.
  - vm_compute. discriminate.
  - unfold acked. vm_compute. left.
Defined.

(** Recovery can abort a transaction that a participant has committed. The
    COMMITTING record is not flushed before the commit requests are sent, so a
    coordinator that crashes after shard 1 acknowledged may find only the
    PREPARING record; if shard 1 does not answer the state query, recovery aborts
    the transaction on the other participant and logs it as aborted. *)
Theorem recovery_aborts_committed :
  let tr2 := (run (demo_env demo_log (λ sid, if sid =? 1 then None else state_reply TXN_PREPARED)) ()
                (Coord.Recover demo_coord)).1.2 in
  path (Coord.Commit 1 demo_coord) demo_crash None ∧ acked demo_crash 1 7 1 ∧ voted demo_crash 1 7 0 ∧
  survives demo_crash demo_log ∧
  ∃ r, Ev (AAbort (PrimaryStub 0) 1) r ∈ tr2 ∧ logged tr2 ABORTED 1 [].
Proof.
  split; [apply demo_crash_run|]. split; [vm_compute; left|]. split; [vm_compute; right; left|].
  split; [apply demo_crash_survives|]. eexists. split.
  - vm_compute. do 7 right. left.
  - exists (take 9 (run (demo_env demo_log (λ sid, if sid =? 1 then None else state_reply TXN_PREPARED)) ()
                (Coord.Recover demo_coord)).1.2). eexists _, [], _, [], _. vm_compute. split_and!; reflexivity.
Qed.

