(* ===== verification/RaftLog.v ===== *)
(** * Raft log (src/src/raft/raft_log.{h,cpp})

    The replicated log of a shard: entries in memory and their file. *)
From Stdlib Require Import Strings.Byte.
From stdpp Require Import base list strings relations.
From Stdlib Require Import ZArith Lia.
From S2P Require Import Prelude Status Crc32 LogFile.
Local Open Scope Z_scope.

(** [UnnamedEntry] stands for the values of the underlying [uint8_t] that the
    enumeration does not name. *)
Inductive RaftEntryType :=
  | TXN_BEGIN | TXN_WRITE | TXN_DELETE | TXN_PREPARE | TXN_COMMIT | TXN_ABORT | NOOP
  | TXN_PREPARE_BATCH | UnnamedEntry (v : Z).

#[export] Instance RaftEntryType_eq_dec : EqDecision RaftEntryType.
Proof. solve_decision. Defined.

Definition RaftEntryType_to_Z (t : RaftEntryType) : Z :=
  match t with
  | TXN_BEGIN => 1 | TXN_WRITE => 2 | TXN_DELETE => 3 | TXN_PREPARE => 4 | TXN_COMMIT => 5
  | TXN_ABORT => 6 | NOOP => 7 | TXN_PREPARE_BATCH => 8 | UnnamedEntry v => v
  end.
Definition RaftEntryType_of_Z (v : Z) : RaftEntryType :=
  if v =? 1 then TXN_BEGIN else if v =? 2 then TXN_WRITE else if v =? 3 then TXN_DELETE
  else if v =? 4 then TXN_PREPARE else if v =? 5 then TXN_COMMIT else if v =? 6 then TXN_ABORT
  else if v =? 7 then NOOP else if v =? 8 then TXN_PREPARE_BATCH else UnnamedEntry v.

Record RaftLogEntry := MkRaftLogEntry {
  re_index : Z;
  re_term : Z;
  re_type : RaftEntryType;
  re_payload : bytes;
}.

#[export] Instance RaftLogEntry_eq_dec : EqDecision RaftLogEntry.
Proof. solve_decision. Defined.

(** ** Entries on disk *)

Definition SerializeRaftEntry (e : RaftLogEntry) : bytes :=
  le_bytes 8 (re_index e) ++ le_bytes 8 (re_term e) ++ [byte_of_Z (RaftEntryType_to_Z (re_type e))] ++
  le_bytes 4 (u32 (Z.of_nat (length (re_payload e)))) ++ re_payload e.

(** The loop of [Load]; every round consumes 21 bytes at least, and the fuel is
    the size of the file and one more. *)
Fixpoint load_entries (fuel : nat) (data : bytes) : list RaftLogEntry :=
  match fuel with
  | O => []
  | S fuel =>
      if (length data <? 21)%nat then []
      else
        let idx := read_at 0 8 data in
        let term := read_at 8 8 data in
        let type := RaftEntryType_of_Z (byte_to_Z (nth 16 data x00)) in
        let len := read_at 17 4 data in
        let rest := drop 21 data in
        if Z.of_nat (length rest) <? len then []
        else MkRaftLogEntry idx term type (take (Z.to_nat len) rest) ::
             load_entries fuel (drop (Z.to_nat len) rest)
  end.

(** ** The log *)

(** [persistent] is [!path_.empty()]; [raft_file] is the file and its stream. *)
Record RaftLog := MkRaftLog {
  entries_ : list RaftLogEntry;
  persistent : bool;
  raft_file : LogFile;
}.

Definition set_file (l : RaftLog) (f : LogFile) : RaftLog := MkRaftLog (entries_ l) (persistent l) f.
Definition set_entries (l : RaftLog) (es : list RaftLogEntry) : RaftLog :=
  MkRaftLog es (persistent l) (raft_file l).

Definition EnsureAppendFileOpen (l : RaftLog) : RaftLog * bool :=
  if negb (persistent l) then (l, true)
  else if stream_open (raft_file l) then (l, true)
  else
    let o := next_io (raft_file l) in
    let f := pop_io (raft_file l) in
    if negb (io_open o) then (set_file l f, false)
    else
      let fd := if sync_fd f then true else io_fd o in
      (set_file l (MkLogFile (content f) (durable_len f) false true fd (io f)), true).

Definition SyncFileLocked (l : RaftLog) : RaftLog * bool :=
  if negb (persistent l) then (l, true)
  else if negb (stream_open (raft_file l)) then (l, false)
  else let '(f, st) := DurableFileSync "raft log" (raft_file l) in (set_file l f, St.ok st).

Definition AppendEntryToFile (l : RaftLog) (entry : RaftLogEntry) : RaftLog * bool :=
  if negb (persistent l) then (l, true)
  else
    let '(l, opened) := EnsureAppendFileOpen l in
    if negb opened then (l, false)
    else
      let f := stream_write (raft_file l) (SerializeRaftEntry entry) in
      (set_file l f, negb (failed f)).

(** [RewriteFileFromMemory]: the new contents go to a temporary file that replaces
    the log; a failed flush of the temporary file goes unnoticed, and when the
    file cannot be renamed the old one is gone. *)
Definition RewriteFileFromMemory (l : RaftLog) : RaftLog * bool :=
  if negb (persistent l) then (l, true)
  else
    let f := raft_file l in
    let f := if stream_open f then stream_flush f (next_io f) else f in
    let o := next_io f in
    let f := MkLogFile (content f) (durable_len f) (failed f) false false (tail (io f)) in
    if negb (io_open o) then (set_file l f, false)
    else if bool_decide (is_Some (io_write o)) then (set_file l f, false)
    else
      let data := entries_ l ≫= SerializeRaftEntry in
      let data := match io_flush o with None => data | Some k => take k data end in
      let synced := if io_fsync o then length data else 0%nat in
      if negb (io_rename o) then (set_file l (MkLogFile [] 0 (failed f) false false (io f)), false)
      else EnsureAppendFileOpen (set_file l (MkLogFile data synced (failed f) false false (io f))).

Definition Load (persistent : bool) (f : LogFile) : RaftLog :=
  if negb persistent then MkRaftLog [] false f
  else
    match ReadWholeFileBinary f with
    | (f, inl _) => MkRaftLog [] true f
    | (f, inr data) => MkRaftLog (load_entries (S (length data)) data) true f
    end.

Definition new_RaftLog (persistent : bool) (f : LogFile) : RaftLog :=
  (EnsureAppendFileOpen (Load persistent f)).1.

Definition LastIndex (l : RaftLog) : Z :=
  match last (entries_ l) with None => 0 | Some e => re_index e end.

Definition next_index (es : list RaftLogEntry) : Z :=
  match last es with None => 1 | Some e => u64 (re_index e + 1) end.

Definition RaftLog_Append (l : RaftLog) (term : Z) (type : RaftEntryType) (payload : bytes) : RaftLog * Z :=
  let idx := next_index (entries_ l) in
  let e := MkRaftLogEntry idx term type payload in
  let '(l, ok) := AppendEntryToFile l e in
  if negb ok then (l, 0)
  else
    let l := set_entries l (entries_ l ++ [e]) in
    let '(l, ok) := SyncFileLocked l in
    if negb ok then (l, 0) else (l, idx).

Definition RaftLog_Get (l : RaftLog) (index : Z) : option RaftLogEntry :=
  match entries_ l with
  | [] => None
  | first :: _ =>
      if (index =? 0) || (LastIndex l <? index) || (index <? re_index first) then None
      else entries_ l !! Z.to_nat (index - re_index first)
  end.

(** The entries of the indices [s], [s + 1], ..., [e]. *)
Definition GetRange (l : RaftLog) (start_index end_index : Z) : list RaftLogEntry :=
  match entries_ l with
  | [] => []
  | front :: _ =>
      if (start_index =? 0) || (end_index <? start_index) then []
      else
        let first := re_index front in
        let s := Z.max start_index first in
        let e := Z.min end_index (LastIndex l) in
        omap (λ i, entries_ l !! Z.to_nat (i - first)) (seqZ s (e - s + 1))
  end.

Definition TermAt (l : RaftLog) (index : Z) : Z :=
  match entries_ l with
  | [] => 0
  | first :: _ =>
      if (index =? 0) || (index <? re_index first) || (LastIndex l <? index) then 0
      else default 0 (re_term <$> entries_ l !! Z.to_nat (index - re_index first))
  end.

Definition TruncateFrom (l : RaftLog) (index : Z) : RaftLog :=
  match entries_ l with
  | [] => l
  | first :: _ =>
      if (index =? 0) || (LastIndex l <? index) then l
      else
        let erase_from := u64 (index - re_index first) in
        if Z.of_nat (length (entries_ l)) <=? erase_from then l
        else (RewriteFileFromMemory (set_entries l (take (Z.to_nat erase_from) (entries_ l)))).1
  end.

(** One entry of the loop of [AppendEntries]; the flag is [needs_rewrite]. An
    entry with an index below the first one, which no leader sends, is outside
    of the array. *)
Definition append_one (st : RaftLog * bool) (e : RaftLogEntry) : RaftLog * bool :=
  let '(l, needs_rewrite) := st in
  let push (st : RaftLog * bool) :=
    let '(l, needs_rewrite) := st in
    if negb (re_index e =? next_index (entries_ l)) then (l, needs_rewrite)
    else if needs_rewrite then (set_entries l (entries_ l ++ [e]), true)
    else
      let '(l, ok) := AppendEntryToFile l e in
      if negb ok then (l, false) else (set_entries l (entries_ l ++ [e]), false) in
  match entries_ l with
  | [] => push (l, needs_rewrite)
  | first :: _ =>
      if re_index e <=? LastIndex l then
        let off := u64 (re_index e - re_index first) in
        match entries_ l !! Z.to_nat off with
        | None => (l, needs_rewrite)
        | Some cur =>
            if re_term cur =? re_term e then (l, needs_rewrite)
            else push (set_entries l (take (Z.to_nat off) (entries_ l)), true)
        end
      else push (l, needs_rewrite)
  end.

Definition RaftLog_AppendEntries (l : RaftLog) (entries : list RaftLogEntry) : RaftLog :=
  let '(l, needs_rewrite) := foldl append_one (l, false) entries in
  if needs_rewrite then (RewriteFileFromMemory l).1
  else if persistent l then (SyncFileLocked l).1
  else l.

(** ** Entries round trip through the file *)

#[global] Arguments SerializeRaftEntry : simpl never.

Definition entry_ok (e : RaftLogEntry) : Prop :=
  is_u64 (re_index e) ∧ is_u64 (re_term e) ∧ is_u32 (Z.of_nat (length (re_payload e))) ∧
  re_type e = RaftEntryType_of_Z (RaftEntryType_to_Z (re_type e)) ∧ 0 ≤ RaftEntryType_to_Z (re_type e) < 256.
#[export] Instance entry_ok_dec e : Decision (entry_ok e).
Proof. unfold entry_ok. apply _. Defined.

Abbreviation flat es := (es ≫= SerializeRaftEntry).

Lemma flat_cons e (es : list RaftLogEntry) : flat (e :: es) = SerializeRaftEntry e ++ flat es.
Proof. done. Qed.
Lemma flat_snoc (es : list RaftLogEntry) e : flat (es ++ [e]) = flat es ++ SerializeRaftEntry e.
Proof. rewrite bind_app. f_equal. apply app_nil_r. Qed.

Lemma length_SerializeRaftEntry e : length (SerializeRaftEntry e) = (21 + length (re_payload e))%nat.
Proof. unfold SerializeRaftEntry. autorewrite with db_len. simpl length. lia. Qed.

(** One round of the loop of [Load] on a serialized entry. *)
Lemma load_entries_cons fuel e rest : entry_ok e →
  load_entries (S fuel) (SerializeRaftEntry e ++ rest) = e :: load_entries fuel rest.
Proof.
  intros (Hi & Ht & Hp & Hty & Htz). cbn [load_entries].
  set (i8 := le_bytes 8 (re_index e)). set (t8 := le_bytes 8 (re_term e)).
  set (ty := byte_of_Z (RaftEntryType_to_Z (re_type e))).
  assert (SerializeRaftEntry e ++ rest =
    i8 ++ t8 ++ [ty] ++ le_bytes 4 (Z.of_nat (length (re_payload e))) ++ re_payload e ++ rest) as E.
  { unfold SerializeRaftEntry. rewrite u32_id by done. by rewrite <- !app_assoc. }
  destruct (Nat.ltb_spec (length (SerializeRaftEntry e ++ rest)) 21) as [Hl|_].
  { rewrite length_app, length_SerializeRaftEntry in Hl. lia. }
  rewrite E.
  assert (read_at 0 8 (i8 ++ t8 ++ [ty] ++ le_bytes 4 (Z.of_nat (length (re_payload e))) ++ re_payload e ++ rest)
    = re_index e) as ->.
  { etransitivity; [by apply (read_at_le 0 [])|]. apply Z.mod_small. unfold is_u64 in Hi. lia. }
  assert (read_at 8 8 (i8 ++ t8 ++ [ty] ++ le_bytes 4 (Z.of_nat (length (re_payload e))) ++ re_payload e ++ rest)
    = re_term e) as ->.
  { etransitivity; [apply (read_at_le 8 i8); unfold i8; by rewrite length_le_bytes|].
    apply Z.mod_small. unfold is_u64 in Ht. lia. }
  rewrite (app_assoc i8), (app_assoc (i8 ++ t8)).
  assert (length ((i8 ++ t8) ++ [ty]) = 17%nat) as H17
    by (rewrite !length_app; unfold i8, t8; by rewrite !length_le_bytes).
  rewrite read_at_le by done. rewrite (Z.mod_small (Z.of_nat (length (re_payload e)))) by (unfold is_u32 in Hp; lia).
  assert (nth 16 (((i8 ++ t8) ++ [ty]) ++ le_bytes 4 (Z.of_nat (length (re_payload e))) ++ re_payload e ++ rest) x00
    = ty) as ->.
  { rewrite <- app_assoc, app_nth2; rewrite length_app; unfold i8, t8; rewrite !length_le_bytes; [done|lia]. }
  rewrite (app_assoc ((i8 ++ t8) ++ [ty])).
  rewrite drop_app_length' by (rewrite length_app, H17, length_le_bytes; done).
  destruct (Z.ltb_spec (Z.of_nat (length (re_payload e ++ rest))) (Z.of_nat (length (re_payload e)))) as [Hl|_].
  { rewrite length_app in Hl. lia. }
  rewrite Nat2Z.id, take_app_length, drop_app_length. f_equal.
  unfold ty. rewrite byte_to_of_Z, Z.mod_small by lia. rewrite <- Hty. by destruct e.
Qed.

Lemma load_entries_flat fuel (es : list RaftLogEntry) : Forall entry_ok es → (length (flat es) < fuel)%nat →
  load_entries fuel (flat es) = es.
Proof.
  intros HF. revert fuel. induction HF as [|e es He HF IH]; intros [|fuel] Hl; try (simpl in Hl; lia).
  { done. }
  rewrite flat_cons in *. rewrite load_entries_cons by done. f_equal. apply IH.
  rewrite length_app, length_SerializeRaftEntry in Hl. lia.
Qed.

(** ** Well-formed logs *)

(** The entries are numbered 1, 2, 3, ... *)
Definition numbered_from (n : nat) (es : list RaftLogEntry) : Prop :=
  ∀ i e, es !! i = Some e → re_index e = Z.of_nat (n + i) + 1.

Definition log_wf (l : RaftLog) : Prop :=
  numbered_from 0 (entries_ l) ∧ Z.of_nat (length (entries_ l)) < UINT32_MAX.

Lemma numbered_app n es es' :
  numbered_from n (es ++ es') ↔ numbered_from n es ∧ numbered_from (n + length es) es'.
Proof.
  split.
  - intros Hn. split.
    + intros i e Hi. apply Hn. by apply lookup_app_l_Some.
    + intros i e Hi. rewrite <- Nat.add_assoc. apply Hn. rewrite lookup_app_r by lia.
      by replace (length es + i - length es)%nat with i by lia.
  - intros [H1 H2] i e [Hi|[Hl Hi]]%lookup_app_Some; [by apply H1|].
    rewrite (H2 _ _ Hi). f_equal. f_equal. lia.
Qed.

Lemma numbered_from_take n es k : numbered_from n es → numbered_from n (take k es).
Proof. intros Hn i e [Hi _]%lookup_take_Some. by apply Hn. Qed.

Lemma numbered_cons n e es :
  numbered_from n (e :: es) ↔ re_index e = Z.of_nat n + 1 ∧ numbered_from (S n) es.
Proof.
  change (e :: es) with ([e] ++ es). rewrite numbered_app. simpl. rewrite Nat.add_1_r.
  split; intros [H1 H2]; (split; [|done]).
  - rewrite (H1 0%nat e eq_refl). f_equal. f_equal. lia.
  - intros i e' [-> <-]%list_lookup_singleton_Some. rewrite H1. f_equal. f_equal. lia.
Qed.

Lemma LastIndex_wf l : log_wf l → LastIndex l = Z.of_nat (length (entries_ l)).
Proof.
  intros [Hn _]. unfold LastIndex. rewrite last_lookup.
  destruct (entries_ l !! pred (length (entries_ l))) as [e|] eqn:E.
  - rewrite (Hn _ _ E). apply lookup_lt_Some in E. lia.
  - apply lookup_ge_None in E. destruct (entries_ l); simpl in *; lia.
Qed.

Lemma next_index_wf es : numbered_from 0 es → Z.of_nat (length es) < UINT32_MAX →
  next_index es = Z.of_nat (length es) + 1.
Proof.
  intros Hn Hl. unfold next_index. rewrite last_lookup.
  destruct (es !! pred (length es)) as [e|] eqn:E.
  - rewrite (Hn _ _ E). apply lookup_lt_Some in E.
    rewrite u64_id; [lia|]. unfold is_u64, UINT32_MAX in *. lia.
  - apply lookup_ge_None in E. destruct es; simpl in *; lia.
Qed.

Lemma first_wf l e es : log_wf l → entries_ l = e :: es → re_index e = 1.
Proof. intros [Hn _] E. rewrite E in Hn. by rewrite (Hn 0%nat e eq_refl). Qed.

Lemma Get_wf l i : log_wf l →
  RaftLog_Get l i = if 1 <=? i then entries_ l !! Z.to_nat (i - 1) else None.
Proof.
  intros Hwf. unfold RaftLog_Get. rewrite LastIndex_wf by done.
  destruct (entries_ l) as [|e es] eqn:E; [by destruct (1 <=? i)|]. rewrite (first_wf l e es) by done.
  destruct (Z.leb_spec 1 i); destruct (Z.eqb_spec i 0); destruct (Z.ltb_spec i 1); try lia;
    destruct (Z.ltb_spec (Z.of_nat (length (e :: es))) i); simpl orb; cbn [orb]; try done.
  symmetry. apply lookup_ge_None. lia.
Qed.

Lemma TermAt_wf l i : log_wf l →
  TermAt l i = if 1 <=? i then default 0 (re_term <$> entries_ l !! Z.to_nat (i - 1)) else 0.
Proof.
  intros Hwf. unfold TermAt. rewrite LastIndex_wf by done.
  destruct (entries_ l) as [|e es] eqn:E; [by destruct (1 <=? i)|]. rewrite (first_wf l e es) by done.
  destruct (Z.leb_spec 1 i); destruct (Z.eqb_spec i 0); destruct (Z.ltb_spec i 1); try lia;
    destruct (Z.ltb_spec (Z.of_nat (length (e :: es))) i); cbn [orb]; try done.
  rewrite (lookup_ge_None_2 (e :: es)) by lia. done.
Qed.

(** ** Appending a leader's entries *)

(** The reference: keep what agrees, replace from the first entry whose term
    differs. [p] is the number of entries before the request. *)
Fixpoint merge (p : nat) (es req : list RaftLogEntry) : list RaftLogEntry :=
  match req with
  | [] => es
  | e :: req' =>
      match es !! p with
      | Some cur => if re_term cur =? re_term e then merge (S p) es req' else take p es ++ req
      | None => take p es ++ req
      end
  end.

Definition healthy (f : LogFile) : Prop :=
  io f = [] ∧ failed f = false ∧ stream_open f = true ∧ sync_fd f = true.

(** The file while entries are appended; [b] says that it will be rewritten. *)
Definition file_rel (l : RaftLog) (b : bool) : Prop :=
  persistent l = true → healthy (raft_file l) ∧ (b = false → content (raft_file l) = flat (entries_ l)).

(** Memory and disk agree, and the file is on disk. *)
Definition log_synced (l : RaftLog) : Prop :=
  persistent l = true → healthy (raft_file l) ∧ content (raft_file l) = flat (entries_ l) ∧
    durable_len (raft_file l) = length (content (raft_file l)).

Lemma synced_rel l : log_synced l → file_rel l false.
Proof. intros Hs Hp. destruct (Hs Hp) as (? & ? & ?). done. Qed.

Lemma AppendEntryToFile_ok l e : file_rel l false →
  ∃ f, AppendEntryToFile l e = (set_file l f, true) ∧
    (persistent l = true → healthy f ∧ content f = flat (entries_ l) ++ SerializeRaftEntry e).
Proof.
  unfold file_rel, AppendEntryToFile. destruct (persistent l) eqn:Hp; cbn [negb].
  - intros Hr. destruct (Hr eq_refl) as ((Hio & Hf & Ho & Hfd) & Hc). specialize (Hc eq_refl).
    unfold EnsureAppendFileOpen. rewrite Hp, Ho. cbn [negb]. unfold stream_write, next_io.
    rewrite Hio. cbn -[mbind]. rewrite Hf, Ho, Hc, Hfd. cbn -[mbind]. eexists. split; [done|]. intros _. unfold healthy. cbn -[mbind]. by rewrite Hio.
  - intros _. exists (raft_file l). split; [by destruct l|done].
Qed.

Lemma SyncFileLocked_ok l : file_rel l false →
  (SyncFileLocked l).2 = true ∧ log_synced (SyncFileLocked l).1 ∧ entries_ (SyncFileLocked l).1 = entries_ l ∧
  persistent (SyncFileLocked l).1 = persistent l.
Proof.
  unfold file_rel, SyncFileLocked, log_synced. destruct (persistent l) eqn:Hp; cbn [negb].
  - intros Hr. destruct (Hr eq_refl) as ((Hio & Hf & Ho & Hfd) & Hc). specialize (Hc eq_refl).
    rewrite Ho. cbn [negb]. unfold DurableFileSync, next_io, stream_flush, pop_io. rewrite Hio. cbn.
    rewrite Hf, Hfd. cbn. rewrite Ho. done.
  - intros _. cbn [fst snd]. by rewrite Hp.
Qed.

Lemma Rewrite_ok l b : file_rel l b →
  log_synced (RewriteFileFromMemory l).1 ∧ entries_ (RewriteFileFromMemory l).1 = entries_ l ∧
  persistent (RewriteFileFromMemory l).1 = persistent l.
Proof.
  unfold file_rel, RewriteFileFromMemory, log_synced. destruct (persistent l) eqn:Hp; cbn [negb].
  - intros Hr. destruct (Hr eq_refl) as ((Hio & Hf & Ho & Hfd) & _). rewrite Ho.
    unfold stream_flush, next_io. rewrite Hio. cbn -[mbind list_bind]. rewrite Hf, Hio.
    unfold EnsureAppendFileOpen. cbn -[mbind list_bind]. rewrite Hp. cbn -[mbind list_bind]. done.
  - intros _. cbn [fst snd]. by rewrite Hp.
Qed.

(** Appending an entry that comes next. *)
Lemma push_end l b e : file_rel l b →
  ∃ l', (if b then (set_entries l (entries_ l ++ [e]), true)
         else let '(l, ok) := AppendEntryToFile l e in
              if negb ok then (l, false) else (set_entries l (entries_ l ++ [e]), false)) = (l', b) ∧
    entries_ l' = entries_ l ++ [e] ∧ file_rel l' b ∧ persistent l' = persistent l.
Proof.
  intros Hr. destruct b.
  - eexists. split_and!; [done|done| |done]. intros Hp. destruct (Hr Hp). done.
  - destruct (AppendEntryToFile_ok l e Hr) as (f & E & Hf). rewrite E. cbn [negb].
    eexists. split_and!; [done|done| |done]. intros Hp. destruct (Hf Hp) as [Hh Hc].
    split; [done|]. intros _. cbn -[mbind list_bind]. by rewrite flat_snoc.
Qed.

Lemma append_end l b e : log_wf l → file_rel l b → re_index e = Z.of_nat (length (entries_ l)) + 1 →
  ∃ l', append_one (l, b) e = (l', b) ∧ entries_ l' = entries_ l ++ [e] ∧ file_rel l' b ∧
    persistent l' = persistent l.
Proof.
  intros Hwf Hr He. destruct (push_end l b e Hr) as (l' & E & H).
  exists l'. split; [|done]. unfold append_one.
  assert ((re_index e =? next_index (entries_ l)) = true) as Hn
    by (rewrite next_index_wf by apply Hwf; apply Z.eqb_eq; lia).
  rewrite Hn. cbn [negb]. rewrite LastIndex_wf by done.
  destruct (Z.leb_spec (re_index e) (Z.of_nat (length (entries_ l)))) as [Hle|_]; [lia|].
  destruct (entries_ l) eqn:El; rewrite E; done.
Qed.

Lemma append_all l b req : log_wf l → file_rel l b → numbered_from (length (entries_ l)) req →
  Z.of_nat (length (entries_ l) + length req) < UINT32_MAX →
  ∃ l', foldl append_one (l, b) req = (l', b) ∧ entries_ l' = entries_ l ++ req ∧ file_rel l' b ∧
    persistent l' = persistent l.
Proof.
  revert l. induction req as [|e req IH]; intros l Hwf Hr Hn Hl.
  { exists l. by rewrite app_nil_r. }
  apply numbered_cons in Hn as [He Hn]. cbn [foldl].
  destruct (append_end l b e Hwf Hr He) as (l1 & E1 & Ee & Hr1 & Hp1). rewrite E1.
  destruct (IH l1) as (l' & E & Ees & Hr' & Hp').
  - destruct Hwf as [Hw Hb]. split; rewrite Ee; [|rewrite length_app; simpl in *; lia].
    apply numbered_app. split; [done|]. apply numbered_cons. split; [|by intros ??]. done.
  - done.
  - rewrite Ee, length_app. simpl. by rewrite Nat.add_1_r.
  - rewrite Ee, length_app. simpl in *. lia.
  - exists l'. split_and!; [done| |done|congruence]. by rewrite Ees, Ee, <- app_assoc.
Qed.

(** [AppendEntries] on a request that starts right after entry number [p]. *)
Lemma append_merge l p req : log_wf l → file_rel l false → numbered_from p req →
  (p ≤ length (entries_ l))%nat → Z.of_nat (p + length req) < UINT32_MAX →
  ∃ l' b, foldl append_one (l, false) req = (l', b) ∧ entries_ l' = merge p (entries_ l) req ∧
    file_rel l' b ∧ persistent l' = persistent l.
Proof.
  intros Hwf Hr. revert p. induction req as [|e req IH]; intros p Hn Hp Hl.
  { by exists l, false. }
  cbn [merge]. destruct (entries_ l !! p) as [cur|] eqn:Ec.
  - pose proof Hn as [He Hn']%numbered_cons. cbn [foldl]. pose proof (lookup_lt_Some _ _ _ Ec) as Hlt.
    assert (append_one (l, false) e = if re_term cur =? re_term e then (l, false) else
      append_one (set_entries l (take p (entries_ l)), true) e) as ->.
    { unfold append_one at 1. destruct (entries_ l) as [|first es] eqn:Ees; [done|]. rewrite <- Ees in *.
      rewrite LastIndex_wf, (first_wf l first es) by done.
      destruct (Z.leb_spec (re_index e) (Z.of_nat (length (entries_ l)))); [|lia].
      rewrite u64_id by (unfold is_u64, UINT32_MAX in *; lia).
      replace (Z.to_nat (re_index e - 1)) with p by lia. rewrite Ec.
      destruct (re_term cur =? re_term e); [done|].
      unfold append_one. cbn [entries_ set_entries].
      assert (log_wf (set_entries l (take p (entries_ l)))) as Hwf'.
      { destruct Hwf as [Hw Hb]. split; cbn; [by apply numbered_from_take|rewrite length_take; lia]. }
      rewrite (LastIndex_wf _ Hwf'). cbn [entries_ set_entries]. rewrite length_take.
      destruct (Z.leb_spec (re_index e) (Z.of_nat (p `min` length (entries_ l)))); [lia|].
      by destruct (take p (entries_ l)). }
    destruct (re_term cur =? re_term e); [apply IH; try done; simpl in *; lia|].
    set (l0 := set_entries l (take p (entries_ l))).
    assert (length (entries_ l0) = p) as Hl0 by (cbn; rewrite length_take; lia).
    destruct (append_all l0 true (e :: req)) as (l' & E & Ees & Hr' & Hp').
    + destruct Hwf as [Hw Hb]. split; cbn; [by apply numbered_from_take|rewrite length_take; lia].
    + intros Hper. destruct (Hr Hper). done.
    + by rewrite Hl0.
    + rewrite Hl0. simpl in *. lia.
    + exists l', true. cbn [foldl] in E. done.
  - apply lookup_ge_None in Ec. assert (p = length (entries_ l)) as -> by lia.
    rewrite take_ge by lia.
    destruct (append_all l false (e :: req)) as (l' & E & Ees & Hr' & Hp'); [done..|]. by exists l', false.
Qed.

(** *** The merged log *)

Lemma length_merge p es req : (p ≤ length es)%nat → (length (merge p es req) ≤ Nat.max (length es) (p + length req))%nat.
Proof.
  revert p. induction req as [|e req IH]; intros p Hp; cbn [merge]; [simpl; lia|].
  destruct (es !! p) as [cur|] eqn:Ec.
  - apply lookup_lt_Some in Ec. destruct (_ =? _).
    + etrans; [apply IH; lia|]. simpl. lia.
    + rewrite length_app, length_take. simpl. lia.
  - rewrite length_app, length_take. simpl. lia.
Qed.

Lemma merge_numbered p es req : numbered_from 0 es → numbered_from p req → (p ≤ length es)%nat →
  numbered_from 0 (merge p es req).
Proof.
  intros He. revert p. induction req as [|e req IH]; intros p Hn Hp; cbn [merge]; [done|].
  assert (numbered_from 0 (take p es ++ e :: req)) as Hcut.
  { apply numbered_app. split; [by apply numbered_from_take|]. rewrite length_take, Nat.min_l by done. done. }
  destruct (es !! p) as [cur|] eqn:Ec; [|done]. apply lookup_lt_Some in Ec.
  destruct (_ =? _); [|done]. apply numbered_cons in Hn as [_ Hn]. apply IH; [done|lia].
Qed.

(** Entries before the request are kept. *)
Lemma merge_before p es req i : (i < p)%nat → (p ≤ length es)%nat → merge p es req !! i = es !! i.
Proof.
  revert p. induction req as [|e req IH]; intros p Hi Hp; cbn [merge]; [done|].
  assert ((take p es ++ e :: req) !! i = es !! i) as Hcut.
  { rewrite lookup_app_l by (rewrite length_take; lia). by rewrite lookup_take_lt by lia. }
  destruct (es !! p) as [cur|] eqn:Ec; [|done]. apply lookup_lt_Some in Ec.
  destruct (_ =? _); [|done]. apply IH; lia.
Qed.

(** The request is in the log afterwards. *)
Lemma merge_at p es req k e : req !! k = Some e → (p ≤ length es)%nat →
  ∃ e', merge p es req !! (p + k)%nat = Some e' ∧ re_term e' = re_term e.
Proof.
  revert p k. induction req as [|e0 req IH]; intros p k Hk Hp; [done|]. cbn [merge].
  assert (∃ e', (take p es ++ e0 :: req) !! (p + k)%nat = Some e' ∧ re_term e' = re_term e) as Hcut.
  { exists e. split; [|done]. rewrite lookup_app_r by (rewrite length_take; lia).
    rewrite length_take. by replace (p + k - p `min` length es)%nat with k by lia. }
  destruct (es !! p) as [cur|] eqn:Ec; [|done]. pose proof (lookup_lt_Some _ _ _ Ec).
  destruct (Z.eqb_spec (re_term cur) (re_term e0)) as [Et|]; [|done].
  destruct k as [|k].
  - simplify_eq/=. exists cur. rewrite Nat.add_0_r, merge_before by lia. done.
  - rewrite Nat.add_succ_r, <- Nat.add_succ_l. apply IH; [done|lia].
Qed.

(** Without a conflict nothing is lost. *)
Lemma merge_keeps p es req : (p ≤ length es)%nat →
  (∀ k e cur, req !! k = Some e → es !! (p + k)%nat = Some cur → re_term cur = re_term e) →
  es `prefix_of` merge p es req.
Proof.
  revert p. induction req as [|e req IH]; intros p Hp Hc; cbn [merge]; [done|].
  destruct (es !! p) as [cur|] eqn:Ec.
  - pose proof (lookup_lt_Some _ _ _ Ec). rewrite (Hc 0%nat e cur eq_refl) by (by rewrite Nat.add_0_r).
    rewrite Z.eqb_refl. apply IH; [lia|]. intros k e' cur' Hk Hcur. apply (Hc (S k) e' cur'); [done|].
    by rewrite Nat.add_succ_r.
  - apply lookup_ge_None in Ec. rewrite take_ge by lia. by apply prefix_app_r.
Qed.

Lemma AppendEntries_merge l p req : log_wf l → log_synced l → numbered_from p req →
  (p ≤ length (entries_ l))%nat → Z.of_nat (p + length req) < UINT32_MAX →
  entries_ (RaftLog_AppendEntries l req) = merge p (entries_ l) req ∧
  log_synced (RaftLog_AppendEntries l req) ∧ persistent (RaftLog_AppendEntries l req) = persistent l.
Proof.
  intros Hwf Hs Hn Hp Hl.
  destruct (append_merge l p req Hwf (synced_rel l Hs) Hn Hp Hl) as (l' & b & E & Ee & Hr & Hper).
  unfold RaftLog_AppendEntries. rewrite E. destruct b.
  - destruct (Rewrite_ok l' true Hr) as (? & -> & ->). done.
  - destruct (persistent l') eqn:Ep; [|by split_and!; [done|intros Hp'; congruence|congruence]].
    destruct (SyncFileLocked_ok l' Hr) as (_ & ? & -> & ->). split_and!; [done|done|congruence].
Qed.

Lemma AppendEntries_wf l p req : log_wf l → log_synced l → numbered_from p req →
  (p ≤ length (entries_ l))%nat → Z.of_nat (p + length req) < UINT32_MAX → log_wf (RaftLog_AppendEntries l req).
Proof.
  intros Hwf Hs Hn Hp Hl. destruct (AppendEntries_merge l p req) as (E & _ & _); try done.
  destruct Hwf as [Hw Hb]. split; rewrite E; [by apply merge_numbered|].
  pose proof (length_merge p (entries_ l) req Hp). lia.
Qed.

(** ** Steps of a log *)

Lemma RaftLog_Append_ok l term ty payload : log_wf l → log_synced l →
  let e := MkRaftLogEntry (Z.of_nat (length (entries_ l)) + 1) term ty payload in
  entries_ (RaftLog_Append l term ty payload).1 = entries_ l ++ [e] ∧
  log_synced (RaftLog_Append l term ty payload).1 ∧
  persistent (RaftLog_Append l term ty payload).1 = persistent l ∧
  (RaftLog_Append l term ty payload).2 = re_index e.
Proof.
  intros [Hw Hb] Hs e. unfold RaftLog_Append. rewrite next_index_wf by done. fold e.
  destruct (AppendEntryToFile_ok l e (synced_rel l Hs)) as (f & E & Hf). rewrite E. cbn [negb].
  set (l1 := set_entries (set_file l f) (entries_ (set_file l f) ++ [e])).
  assert (file_rel l1 false) as Hr.
  { intros Hp. destruct (Hf Hp) as [Hh Hc]. split; [done|]. intros _. cbn -[mbind]. by rewrite flat_snoc. }
  destruct (SyncFileLocked_ok l1 Hr) as (Hok & Hs1 & He1 & Hp1).
  destruct (SyncFileLocked l1) as [l2 ok]. cbn [fst snd] in *. subst ok. cbn [negb fst snd].
  split_and!; done.
Qed.

Lemma TruncateFrom_ok l i : log_wf l → log_synced l → 1 ≤ i < UINT64_MAX →
  entries_ (TruncateFrom l i) = take (Z.to_nat (i - 1)) (entries_ l) ∧ log_synced (TruncateFrom l i) ∧
  persistent (TruncateFrom l i) = persistent l.
Proof.
  intros Hwf Hs Hi. unfold TruncateFrom. rewrite LastIndex_wf by done.
  destruct (entries_ l) as [|first es] eqn:Ees; [by rewrite take_nil|]. rewrite <- Ees in *.
  rewrite (first_wf l first es) by done.
  destruct (Z.eqb_spec i 0); [lia|]. destruct (Z.ltb_spec (Z.of_nat (length (entries_ l))) i); cbn [orb].
  { rewrite take_ge by lia. done. }
  rewrite u64_id by (unfold is_u64, UINT64_MAX in *; lia).
  destruct (Z.leb_spec (Z.of_nat (length (entries_ l))) (i - 1)); [lia|].
  destruct (Rewrite_ok (set_entries l (take (Z.to_nat (i - 1)) (entries_ l))) true) as (? & -> & ->); [|done].
  intros Hp. destruct (Hs Hp). done.
Qed.

Inductive raft_log_step : RaftLog → RaftLog → Prop :=
  | rl_append l term ty payload :
      entry_ok (MkRaftLogEntry (Z.of_nat (length (entries_ l)) + 1) term ty payload) →
      Z.of_nat (length (entries_ l)) + 1 < UINT32_MAX →
      raft_log_step l (RaftLog_Append l term ty payload).1
  | rl_entries l p req :
      numbered_from p req → Forall entry_ok req → (p ≤ length (entries_ l))%nat →
      Z.of_nat (p + length req) < UINT32_MAX → raft_log_step l (RaftLog_AppendEntries l req)
  | rl_truncate l i : 1 ≤ i < UINT64_MAX → raft_log_step l (TruncateFrom l i).

Definition fresh_file : LogFile := MkLogFile [] 0 false false false [].
Definition fresh_log : RaftLog := new_RaftLog true fresh_file.

Lemma merge_Forall (P : RaftLogEntry → Prop) p es req : Forall P es → Forall P req → Forall P (merge p es req).
Proof.
  intros He. revert p. induction req as [|e req IH]; intros p Hr; cbn [merge]; [done|].
  assert (Forall P (take p es ++ e :: req)) by (apply Forall_app; split; [by apply Forall_take|done]).
  apply Forall_cons in Hr as [_ Hr]. repeat case_match; auto.
Qed.

Lemma raft_log_step_inv l l' :
  log_wf l ∧ log_synced l ∧ Forall entry_ok (entries_ l) ∧ persistent l = true → raft_log_step l l' →
  log_wf l' ∧ log_synced l' ∧ Forall entry_ok (entries_ l') ∧ persistent l' = true.
Proof.
  intros (Hwf & Hs & HF & Hp). destruct 1 as [l term ty payload He Hb|l p req Hn Hr Hle Hb|l i Hi].
  - destruct (RaftLog_Append_ok l term ty payload Hwf Hs) as (E & Hs' & Hp' & _).
    split_and!; [|done| |congruence].
    + destruct Hwf as [Hw _]. split; rewrite E; [|rewrite length_app; simpl; lia].
      apply numbered_app. split; [done|]. apply numbered_cons. split; [done|by intros ??].
    + rewrite E. apply Forall_app. split; [done|]. by constructor.
  - destruct (AppendEntries_merge l p req) as (E & Hs' & Hp'); try done.
    split_and!; [by eapply AppendEntries_wf|done| |congruence]. rewrite E. by apply merge_Forall.
  - destruct (TruncateFrom_ok l i Hwf Hs Hi) as (E & Hs' & Hp').
    split_and!; [|done| |congruence].
    + destruct Hwf as [Hw Hb]. split; rewrite E; [by apply numbered_from_take|rewrite length_take; lia].
    + rewrite E. by apply Forall_take.
Qed.

Lemma fresh_log_inv :
  log_wf fresh_log ∧ log_synced fresh_log ∧ Forall entry_ok (entries_ fresh_log) ∧ persistent fresh_log = true.
Proof. split_and!; done. Qed.

Lemma raft_log_steps_inv l : rtc raft_log_step fresh_log l →
  log_wf l ∧ log_synced l ∧ Forall entry_ok (entries_ l) ∧ persistent l = true.
Proof.
  apply (rtc_ind_r (λ l, log_wf l ∧ log_synced l ∧ Forall entry_ok (entries_ l) ∧ persistent l = true)).
  - exact fresh_log_inv.
  - intros y z _ Hstep Hi. by apply (raft_log_step_inv y).
Qed.

(** A log that was synced is read back after a crash. *)
Lemma reload_synced l n : persistent l = true → log_synced l → Forall entry_ok (entries_ l) →
  entries_ (new_RaftLog true (crash n [] (raft_file l))) = entries_ l.
Proof.
  intros Hp Hs HF. destruct (Hs Hp) as (_ & Hc & Hd). unfold new_RaftLog, Load. cbn [negb].
  rewrite ReadWholeFileBinary_ok by done. unfold EnsureAppendFileOpen. cbn -[load_entries].
  rewrite take_ge, Hc by lia. apply load_entries_flat; [done|lia].
Qed.

(** The log of the new process is in step with its file. *)
Lemma reload_log l n : persistent l = true → log_synced l → Forall entry_ok (entries_ l) →
  log_synced (new_RaftLog true (crash n [] (raft_file l))) ∧ persistent (new_RaftLog true (crash n [] (raft_file l))) = true.
Proof.
  intros Hp Hs HF. pose proof (reload_synced l n Hp Hs HF) as E. destruct (Hs Hp) as (_ & Hc & Hd). revert E.
  unfold new_RaftLog, Load. cbn [negb]. rewrite ReadWholeFileBinary_ok by done. unfold EnsureAppendFileOpen.
  cbn -[load_entries mbind]. rewrite !take_ge by lia. intros E. split; [|done]. intros _.
  cbn -[load_entries mbind]. rewrite E, Hc. split_and!; try done. rewrite <- Hc. lia.
Qed.

(** ** Claims *)

(** C34. A Raft log that starts empty and runs any sequence of [Append],
    [AppendEntries] (requests that continue or overlap the log) and
    [TruncateFrom] on a working disk is numbered 1, 2, 3, ... without gaps;
    [Get] and [TermAt] return the entry with that number; and after a crash at any
    moment between two of them a new [RaftLog] on the same file holds exactly the
    same entries. *)
Theorem raft_log_durable l n i : rtc raft_log_step fresh_log l →
  entries_ (new_RaftLog true (crash n [] (raft_file l))) = entries_ l ∧
  numbered_from 0 (entries_ l) ∧ LastIndex l = Z.of_nat (length (entries_ l)) ∧
  RaftLog_Get l i = (if 1 <=? i then entries_ l !! Z.to_nat (i - 1) else None) ∧
  TermAt l i = default 0 (re_term <$> RaftLog_Get l i).
Proof.
  intros (Hwf & Hs & HF & Hp)%raft_log_steps_inv. split_and!.
  - by apply reload_synced.
  - apply Hwf.
  - by apply LastIndex_wf.
  - by apply Get_wf.
  - rewrite TermAt_wf, Get_wf by done. by destruct (1 <=? i).
Qed.

Definition sample_entry (i t : Z) : RaftLogEntry := MkRaftLogEntry i t TXN_BEGIN [x41; x42].

(** A log with two entries of term 1 of which the second is replaced in term 2. *)
Definition sample_log : RaftLog :=
  RaftLog_AppendEntries
    (RaftLog_Append (RaftLog_Append fresh_log 1 NOOP []).1 1 TXN_BEGIN [x41]).1
    [sample_entry 2 2; sample_entry 3 2].

Lemma sample_log_steps : rtc raft_log_step fresh_log sample_log.
Proof.
  eapply rtc_l; [apply (rl_append fresh_log 1 NOOP []); [apply (bool_decide_unpack _); vm_compute; exact I|done]|].
  eapply rtc_l; [apply (rl_append _ 1 TXN_BEGIN [x41]); [apply (bool_decide_unpack _); vm_compute; exact I|done]|].
  eapply rtc_l; [apply (rl_entries _ 1 [sample_entry 2 2; sample_entry 3 2])|apply rtc_refl].
  - intros [|[|k]] e Hk; simplify_eq/=; done.
  - apply (bool_decide_unpack _). vm_compute. exact I.
  - vm_compute. lia.
  - done.
Qed.

Lemma raft_log_durable_witness :
  entries_ (new_RaftLog true (crash 0 [] (raft_file sample_log))) =
    [MkRaftLogEntry 1 1 NOOP []; sample_entry 2 2; sample_entry 3 2] ∧ TermAt sample_log 3 = 2.
Proof.
  destruct (raft_log_durable sample_log 0 3 sample_log_steps) as (E & _ & _ & Eg & Et).
  split; [rewrite E; vm_compute; reflexivity|rewrite Et, Eg; vm_compute; reflexivity].
Defined.

(** [AppendEntries] on a request that follows entry number [p] keeps what
    agrees with the log and replaces it from the first entry whose term differs
    on. The log stays numbered and on disk, entries up to [p] do not change, every
    entry of the request is in the log with its term, and a request without a
    conflict (a duplicate or a stale one) removes nothing. *)
Theorem AppendEntries_matches l p req : log_wf l → log_synced l → numbered_from p req →
  (p ≤ length (entries_ l))%nat → Z.of_nat (p + length req) < UINT32_MAX →
  let l' := RaftLog_AppendEntries l req in
  entries_ l' = merge p (entries_ l) req ∧ log_wf l' ∧ log_synced l' ∧
  (∀ i, i ≤ Z.of_nat p → RaftLog_Get l' i = RaftLog_Get l i) ∧
  (∀ e, e ∈ req → TermAt l' (re_index e) = re_term e) ∧
  ((∀ e, e ∈ req → re_index e ≤ LastIndex l → TermAt l (re_index e) = re_term e) →
    entries_ l `prefix_of` entries_ l').
Proof.
  intros Hwf Hs Hn Hp Hl. destruct (AppendEntries_merge l p req) as (E & Hs' & _); try done.
  pose proof (AppendEntries_wf l p req Hwf Hs Hn Hp Hl) as Hwf'. split_and!; try done.
  - intros i Hi. rewrite !Get_wf by done. destruct (Z.leb_spec 1 i); [|done]. rewrite E. apply merge_before; lia.
  - intros e [k Hk]%list_elem_of_lookup. rewrite TermAt_wf by done. rewrite (Hn _ _ Hk).
    destruct (Z.leb_spec 1 (Z.of_nat (p + k) + 1)); [|lia]. rewrite E.
    replace (Z.to_nat (Z.of_nat (p + k) + 1 - 1)) with (p + k)%nat by lia.
    destruct (merge_at p (entries_ l) req k e Hk Hp) as (e' & -> & <-). done.
  - intros Hc. rewrite E. apply merge_keeps; [done|]. intros k e cur Hk Hcur.
    rewrite <- (Hc e); [|by eapply list_elem_of_lookup_2|].
    + rewrite TermAt_wf by done. rewrite (Hn _ _ Hk).
      destruct (Z.leb_spec 1 (Z.of_nat (p + k) + 1)); [|lia].
      replace (Z.to_nat (Z.of_nat (p + k) + 1 - 1)) with (p + k)%nat by lia. by rewrite Hcur.
    + rewrite LastIndex_wf, (Hn _ _ Hk) by done. apply lookup_lt_Some in Hcur. lia.
Qed.

(** Entry 3 of term 2 is replaced by one of term 3; entry 2 agrees. *)
Lemma AppendEntries_matches_witness :
  entries_ (RaftLog_AppendEntries sample_log [sample_entry 2 2; sample_entry 3 3]) =
    [MkRaftLogEntry 1 1 NOOP []; sample_entry 2 2; sample_entry 3 3].
Proof.
  destruct (raft_log_steps_inv sample_log sample_log_steps) as (Hwf & Hs & _ & _).
  destruct (AppendEntries_matches sample_log 1 [sample_entry 2 2; sample_entry 3 3] Hwf Hs) as (E & _).
  - intros [|[|k]] e Hk; simplify_eq/=; done.
  - vm_compute. lia.
  - done.
  - rewrite E. vm_compute. reflexivity.
Defined.
