(* ===== verification/RaftStateMachine.v ===== *)
(** * Raft state machine (src/src/raft/raft_state_machine.{h,cpp})

    What a replica of a shard does with a committed entry of the Raft log: the
    payload formats, the map from the transaction numbers of the coordinator to
    those of the replica's own transaction manager, and [Apply]. *)
From Stdlib Require Import Strings.Byte.
From stdpp Require Import base gmap sets list strings.
From Stdlib Require Import ZArith Lia.
From S2P Require Import Prelude Status KeyEncoding RocksDB MVCCStore LockManager GroupCommit LogFile Wal.
From S2P Require Import TxnManager RaftLog.
Local Open Scope Z_scope.

Record PrepareResult := MkPrepareResult { pr_success : bool; pr_error : string }.

Record PrepareBatchWrite := MkPrepareBatchWrite {
  pbw_is_delete : bool;
  pbw_table_id : Z;
  pbw_key : bytes;
  pbw_value : bytes;
}.

(** ** Payloads *)

(** [ReadLe64] stops at the end of the view. *)
Definition ReadLe64 (sv : bytes) : Z := read_le 0 0 (take 8 sv).

Definition PackTxnPayload (wal_payload : bytes) (raft_txn_id : Z) : bytes :=
  wal_payload ++ le_bytes 8 raft_txn_id.
Definition PackAbortPayload (raft_txn_id : Z) : bytes := le_bytes 8 raft_txn_id.

Definition pack_write (w : PrepareBatchWrite) : bytes :=
  [if pbw_is_delete w then x01 else x00] ++ le_bytes 4 (pbw_table_id w) ++
  le_bytes 4 (u32 (Z.of_nat (length (pbw_key w)))) ++ pbw_key w ++
  le_bytes 4 (u32 (Z.of_nat (length (pbw_value w)))) ++ pbw_value w.

Definition PackPrepareBatchPayload (raft_txn_id snapshot_ts commit_ts : Z)
    (writes : list PrepareBatchWrite) : bytes :=
  le_bytes 8 raft_txn_id ++ le_bytes 8 snapshot_ts ++ le_bytes 8 commit_ts ++
  le_bytes 4 (u32 (Z.of_nat (length writes))) ++ (writes ≫= pack_write).

(** The payload of the record and the transaction. *)
Definition UnpackPayload (full_payload : bytes) : option (bytes * Z) :=
  let n := length full_payload in
  if (n <? 8)%nat then None
  else Some (take (n - 8) full_payload, ReadLe64 (drop (n - 8) full_payload)).

(** The loop over the writes; what is left of the payload after the last one is
    not looked at. *)
Fixpoint unpack_writes (num_writes : nat) (payload : bytes) : option (list PrepareBatchWrite) :=
  match num_writes with
  | O => Some []
  | S n =>
      match payload with
      | [] => None
      | d :: payload =>
          '(tid, payload) ← ConsumeLe32 payload;
          '(key_len, payload) ← ConsumeLe32 payload;
          if Z.of_nat (length payload) <? key_len then None
          else
            let key := take (Z.to_nat key_len) payload in
            let payload := drop (Z.to_nat key_len) payload in
            '(val_len, payload) ← ConsumeLe32 payload;
            if Z.of_nat (length payload) <? val_len then None
            else
              let value := take (Z.to_nat val_len) payload in
              let payload := drop (Z.to_nat val_len) payload in
              ws ← unpack_writes n payload;
              Some (MkPrepareBatchWrite (negb (bool_decide (d = x00))) tid key value :: ws)
      end
  end.

Definition UnpackPrepareBatchPayload (payload : bytes) :
    option (Z * Z * Z * list PrepareBatchWrite) :=
  '(raft_txn_id, payload) ← ConsumeLe64 payload;
  '(snapshot_ts, payload) ← ConsumeLe64 payload;
  '(commit_ts, payload) ← ConsumeLe64 payload;
  '(num_writes, payload) ← ConsumeLe32 payload;
  writes ← unpack_writes (Z.to_nat num_writes) payload;
  Some (raft_txn_id, snapshot_ts, commit_ts, writes).

(** ** The state machine *)

Record RaftStateMachine (DB : Type) := MkRaftStateMachine {
  txn_mgr_ : TxnManager DB;
  txn_id_map_ : gmap Z Z;
  prepare_results_ : gmap Z PrepareResult;
}.
Arguments MkRaftStateMachine {DB}.
Arguments txn_mgr_ {DB}.
Arguments txn_id_map_ {DB}.
Arguments prepare_results_ {DB}.

Definition buffered_write (w : PrepareBatchWrite) : BufferedWrite :=
  MkBufferedWrite (pbw_table_id w) (pbw_key w) (pbw_value w) (pbw_is_delete w).

Module SM.
Section machine.
Context `{RocksDB DB} `{GroupCommit}.
Implicit Types sm : RaftStateMachine DB.

Definition new_sm (tm : TxnManager DB) : RaftStateMachine DB := MkRaftStateMachine tm ∅ ∅.

Definition GetLocalTxnId sm (raft_txn_id : Z) : Z := default 0 (txn_id_map_ sm !! raft_txn_id).

Definition IsTxnPrepared sm (raft_txn_id : Z) : bool :=
  match prepare_results_ sm !! raft_txn_id with Some r => pr_success r | None => false end.

Definition TakePrepareResult sm (raft_txn_id : Z) : RaftStateMachine DB * option PrepareResult :=
  match prepare_results_ sm !! raft_txn_id with
  | None => (sm, None)
  | Some out =>
      (MkRaftStateMachine (txn_mgr_ sm) (txn_id_map_ sm) (delete raft_txn_id (prepare_results_ sm)),
       Some out)
  end.

Definition RegisterLocalTxn sm (raft_txn_id local_txn_id : Z) : RaftStateMachine DB :=
  MkRaftStateMachine (txn_mgr_ sm) (<[raft_txn_id := local_txn_id]> (txn_id_map_ sm)) (prepare_results_ sm).

Definition ForgetTxn sm (raft_txn_id : Z) : RaftStateMachine DB :=
  MkRaftStateMachine (txn_mgr_ sm) (delete raft_txn_id (txn_id_map_ sm))
    (delete raft_txn_id (prepare_results_ sm)).

Definition set_mgr sm (tm : TxnManager DB) : RaftStateMachine DB :=
  MkRaftStateMachine tm (txn_id_map_ sm) (prepare_results_ sm).
Definition set_result sm (raft_txn_id : Z) (r : PrepareResult) : RaftStateMachine DB :=
  MkRaftStateMachine (txn_mgr_ sm) (txn_id_map_ sm) (<[raft_txn_id := r]> (prepare_results_ sm)).

Definition apply_abort sm (payload : bytes) : RaftStateMachine DB :=
  if negb (length payload =? 8)%nat then sm
  else
    let raft_tid := ReadLe64 payload in
    match txn_id_map_ sm !! raft_tid with
    | None => sm
    | Some local => ForgetTxn (set_mgr sm (TM.Abort (txn_mgr_ sm) local).1) raft_tid
    end.

Definition apply_prepare_batch sm (payload : bytes) : RaftStateMachine DB :=
  match UnpackPrepareBatchPayload payload with
  | None => sm
  | Some (raft_txn_id, snapshot_ts, commit_ts, writes) =>
      if bool_decide (is_Some (txn_id_map_ sm !! raft_txn_id)) then
        set_result sm raft_txn_id (MkPrepareResult true "")
      else
        let '(tm, local_id) :=
          TM.ImportPreparedTxn (txn_mgr_ sm) snapshot_ts commit_ts (buffered_write <$> writes) in
        set_result (RegisterLocalTxn (set_mgr sm tm) raft_txn_id local_id) raft_txn_id
          (MkPrepareResult true "")
  end.

Definition apply_begin sm (wal_pl : bytes) (raft_txn_id : Z) : RaftStateMachine DB :=
  match DeserializeBeginPayload wal_pl with
  | None => sm
  | Some ts =>
      let '(tm, local) := TM.Begin (txn_mgr_ sm) ts in RegisterLocalTxn (set_mgr sm tm) raft_txn_id local
  end.

(** [Write] and [Delete] run to their end; a caller that has to wait for a lock
    times out. *)
Definition apply_write sm (wal_pl : bytes) (raft_txn_id : Z) : RaftStateMachine DB :=
  match DeserializeWritePayload wal_pl with
  | None => sm
  | Some wi =>
      match txn_id_map_ sm !! raft_txn_id with
      | None => sm
      | Some local => set_mgr sm (TM.Write (txn_mgr_ sm) local (wi_table_id wi) (wi_key wi) (wi_value wi)).1
      end
  end.

Definition apply_delete sm (wal_pl : bytes) (raft_txn_id : Z) : RaftStateMachine DB :=
  match DeserializeDeletePayload wal_pl with
  | None => sm
  | Some di =>
      match txn_id_map_ sm !! raft_txn_id with
      | None => sm
      | Some local => set_mgr sm (TM.Delete (txn_mgr_ sm) local (di_table_id di) (di_key di)).1
      end
  end.

Definition apply_prepare sm (wal_pl : bytes) (raft_txn_id : Z) : RaftStateMachine DB :=
  match DeserializePreparePayload wal_pl with
  | None => set_result sm raft_txn_id (MkPrepareResult false "bad prepare payload")
  | Some commit_ts =>
      match txn_id_map_ sm !! raft_txn_id with
      | None => set_result sm raft_txn_id (MkPrepareResult false "unknown txn")
      | Some local =>
          let '(tm, st) := TM.Prepare (txn_mgr_ sm) local commit_ts in
          let sm := set_result (set_mgr sm tm) raft_txn_id (MkPrepareResult (St.ok st) (message st)) in
          if negb (St.ok st) then
            MkRaftStateMachine (TM.Abort (txn_mgr_ sm) local).1 (delete raft_txn_id (txn_id_map_ sm))
              (prepare_results_ sm)
          else sm
      end
  end.

Definition apply_commit sm (wal_pl : bytes) (raft_txn_id : Z) : RaftStateMachine DB :=
  match DeserializeCommitPayload wal_pl with
  | None => sm
  | Some commit_ts =>
      match txn_id_map_ sm !! raft_txn_id with
      | None => sm
      | Some local => ForgetTxn (set_mgr sm (TM.Commit (txn_mgr_ sm) local commit_ts).1) raft_txn_id
      end
  end.

Definition Apply sm (entry : RaftLogEntry) : RaftStateMachine DB :=
  match re_type entry with
  | NOOP => sm
  | TXN_ABORT => apply_abort sm (re_payload entry)
  | TXN_PREPARE_BATCH => apply_prepare_batch sm (re_payload entry)
  | type =>
      match UnpackPayload (re_payload entry) with
      | None => sm
      | Some (wal_pl, raft_txn_id) =>
          match type with
          | TXN_BEGIN => apply_begin sm wal_pl raft_txn_id
          | TXN_WRITE => apply_write sm wal_pl raft_txn_id
          | TXN_DELETE => apply_delete sm wal_pl raft_txn_id
          | TXN_PREPARE => apply_prepare sm wal_pl raft_txn_id
          | TXN_COMMIT => apply_commit sm wal_pl raft_txn_id
          | _ => sm
          end
      end
  end.
End machine.
End SM.

(** ** Payloads round trip *)

Definition batch_write_ok (w : PrepareBatchWrite) : Prop :=
  is_u32 (pbw_table_id w) ∧ fits32 (pbw_key w) ∧ fits32 (pbw_value w).
#[export] Instance batch_write_ok_dec w : Decision (batch_write_ok w).
Proof. unfold batch_write_ok, fits32. apply _. Defined.

#[global] Arguments pack_write : simpl never.

Lemma take_drop_all (bs rest : bytes) :
  let n := Z.to_nat (Z.of_nat (length bs)) in take n (bs ++ rest) = bs ∧ drop n (bs ++ rest) = rest.
Proof. cbn. by rewrite Nat2Z.id, take_app_length, drop_app_length. Qed.

Lemma unpack_writes_pack ws rest : Forall batch_write_ok ws →
  unpack_writes (length ws) ((ws ≫= pack_write) ++ rest) = Some ws.
Proof.
  induction 1 as [|w ws (Ht & Hk & Hv) HF IH]; [done|]. cbn [length unpack_writes].
  assert ((w :: ws) ≫= pack_write = pack_write w ++ (ws ≫= pack_write)) as -> by done.
  unfold pack_write at 1. unfold fits32 in *. rewrite !u32_id by done. rewrite <- !app_assoc. cbn [app].
  rewrite ConsumeLe32_app by done. step_bind. rewrite ConsumeLe32_app by done. step_bind.
  match goal with |- context [length (pbw_key w ++ ?r)] =>
    destruct (take_drop_all (pbw_key w) r) as [Et Ed]; cbn zeta in Et, Ed; rewrite Et, Ed end.
  destruct (Z.ltb_spec (Z.of_nat (length (pbw_key w ++ le_bytes 4 (Z.of_nat (length (pbw_value w))) ++
    pbw_value w ++ (ws ≫= pack_write) ++ rest))) (Z.of_nat (length (pbw_key w)))) as [Hl|_].
  { rewrite length_app in Hl. lia. }
  rewrite ConsumeLe32_app by done. step_bind.
  match goal with |- context [length (pbw_value w ++ ?r)] =>
    destruct (take_drop_all (pbw_value w) r) as [Et' Ed']; cbn zeta in Et', Ed'; rewrite Et', Ed' end.
  destruct (Z.ltb_spec (Z.of_nat (length (pbw_value w ++ (ws ≫= pack_write) ++ rest)))
    (Z.of_nat (length (pbw_value w)))) as [Hl|_].
  { rewrite length_app in Hl. lia. }
  rewrite IH. step_bind. f_equal. f_equal. destruct w as [[] ? ? ?]; done.
Qed.

Lemma UnpackBatch_pack id snap cts ws rest :
  is_u64 id → is_u64 snap → is_u64 cts → Forall batch_write_ok ws → is_u32 (Z.of_nat (length ws)) →
  UnpackPrepareBatchPayload (PackPrepareBatchPayload id snap cts ws ++ rest) = Some (id, snap, cts, ws).
Proof.
  intros Hid Hs Hc HF Hl. unfold UnpackPrepareBatchPayload, PackPrepareBatchPayload.
  rewrite u32_id by done. rewrite <- !app_assoc.
  rewrite ConsumeLe64_app by done. step_bind. rewrite ConsumeLe64_app by done. step_bind.
  rewrite ConsumeLe64_app by done. step_bind. rewrite ConsumeLe32_app by done. step_bind.
  rewrite Nat2Z.id, unpack_writes_pack by done. done.
Qed.

Lemma ReadLe64_le id : is_u64 id → ReadLe64 (le_bytes 8 id) = id.
Proof.
  intros Hid. unfold ReadLe64. rewrite take_ge by by rewrite length_le_bytes.
  rewrite read_le_value, le_value_bytes. apply Z.mod_small. unfold is_u64 in Hid. lia.
Qed.

Lemma UnpackPayload_pack p id : is_u64 id → UnpackPayload (PackTxnPayload p id) = Some (p, id).
Proof.
  intros Hid. unfold UnpackPayload, PackTxnPayload. rewrite length_app, length_le_bytes.
  destruct (Nat.ltb_spec (length p + 8) 8); [lia|].
  replace (length p + 8 - 8)%nat with (length p) by lia.
  by rewrite take_app_length, drop_app_length, ReadLe64_le.
Qed.

(** ** The replicated state *)

(** What the log means, without replicas: the versions in the store and the
    transactions that are prepared, with their writes. *)
Record Replicated := MkReplicated {
  rp_store : gmap bytes bytes;
  rp_pending : gmap Z (list BufferedWrite);
}.

Inductive Command :=
  | Skip
  | PrepareTxn (id : Z) (ws : list BufferedWrite)
  | CommitTxn (id : Z) (cts : Z)
  | AbortTxn (id : Z).

(** The entries a shard proposes: prepare batches, commits, aborts and no-ops. *)
Definition command_of (e : RaftLogEntry) : option Command :=
  match re_type e with
  | NOOP => Some Skip
  | TXN_ABORT => Some (if (length (re_payload e) =? 8)%nat then AbortTxn (ReadLe64 (re_payload e)) else Skip)
  | TXN_PREPARE_BATCH =>
      Some (match UnpackPrepareBatchPayload (re_payload e) with
            | None => Skip
            | Some (id, _, _, ws) => PrepareTxn id (buffered_write <$> ws)
            end)
  | TXN_COMMIT =>
      Some (match UnpackPayload (re_payload e) with
            | None => Skip
            | Some (p, id) => match DeserializeCommitPayload p with None => Skip | Some cts => CommitTxn id cts end
            end)
  | _ => None
  end.

Definition install (m : gmap bytes bytes) (ws : list BufferedWrite) (cts : Z) : gmap bytes bytes :=
  foldl (λ m w, <[EncodeKey (bw_table_id w) (bw_key w) cts := stored_value w]> m) m ws.

Definition run_command (r : Replicated) (c : Command) : Replicated :=
  match c with
  | Skip => r
  | PrepareTxn id ws =>
      match rp_pending r !! id with
      | Some _ => r
      | None => MkReplicated (rp_store r) (<[id := ws]> (rp_pending r))
      end
  | CommitTxn id cts =>
      match rp_pending r !! id with
      | None => r
      | Some ws => MkReplicated (install (rp_store r) ws cts) (delete id (rp_pending r))
      end
  | AbortTxn id => MkReplicated (rp_store r) (delete id (rp_pending r))
  end.

Definition replay_log (m : gmap bytes bytes) (es : list RaftLogEntry) : Replicated :=
  foldl (λ r e, run_command r (default Skip (command_of e))) (MkReplicated m ∅) es.

(** ** Replicas *)

Section replicas.
Context `{RocksDBLaws DB} (Hrel : rdb_reliable DB) `{GroupCommit}.
Implicit Types (sm : RaftStateMachine DB) (tm : TxnManager DB) (r : Replicated).

Abbreviation txns_of sm := (txns_ (txn_mgr_ sm)).

(** What the leader does to its own transactions between two entries: the calls
    of [ShardServiceImpl::Execute], [Prepare] and [Abort]. [pending] are the
    transactions whose prepare entry has been applied: they are not begun again and
    not aborted past the log, and nothing is written in a transaction that is no
    longer active. *)
Inductive local_step (pending : gmap Z (list BufferedWrite)) : RaftStateMachine DB → RaftStateMachine DB → Prop :=
  | ls_begin sm id snap tm local :
      pending !! id = None → TM.Begin (txn_mgr_ sm) snap = (tm, local) →
      local_step pending sm (SM.RegisterLocalTxn (SM.set_mgr sm tm) id local)
  | ls_read sm local tid key : local_step pending sm (SM.set_mgr sm (TM.Read (txn_mgr_ sm) local tid key).1)
  | ls_scan sm local tid a b o : local_step pending sm (SM.set_mgr sm (TM.Scan (txn_mgr_ sm) local tid a b o).1)
  | ls_write sm local w acq l :
      (∀ txn, txns_of sm !! local = Some txn → state txn = ACTIVE) →
      local_step pending sm
        (SM.set_mgr sm (TM.write_acquired (TM.set_locks (txn_mgr_ sm) l) acq local w).1)
  | ls_prepare sm local cts : local_step pending sm (SM.set_mgr sm (TM.Prepare (txn_mgr_ sm) local cts).1)
  | ls_take sm id : local_step pending sm (SM.TakePrepareResult sm id).1
  | ls_abort sm id local :
      pending !! id = None → (∀ id', txn_id_map_ sm !! id' = Some local → id' = id) →
      local_step pending sm (SM.ForgetTxn (SM.set_mgr sm (TM.Abort (txn_mgr_ sm) local).1) id).

(** A replica that has registered a transaction itself proposed its prepare
    entry, with the writes it prepared, and proposes the commit after it. This is a
    condition on the runs: it excludes the entries of a transaction that a deposed
    leader began and another leader prepared, on which the replicas do diverge
    ([stale_registration_diverges]). *)
Definition proposed_here (pending : gmap Z (list BufferedWrite)) sm (e : RaftLogEntry) : Prop :=
  match command_of e with
  | Some (PrepareTxn id ws) => pending !! id = None → ∀ local, txn_id_map_ sm !! id = Some local →
      ∃ txn, txns_of sm !! local = Some txn ∧ state txn = PREPARED ∧ write_set txn = ws
  | Some (CommitTxn id _) => pending !! id = None → ∀ local txn, txn_id_map_ sm !! id = Some local →
      txns_of sm !! local = Some txn → state txn ≠ PREPARED
  | _ => True
  end.

(** [replica_run tm0 n es sm]: from manager [tm0], in [n] steps, a replica applied
    the entries [es] in order, with steps of its own in between. *)
Inductive replica_run (tm0 : TxnManager DB) : nat → list RaftLogEntry → RaftStateMachine DB → Prop :=
  | rr_start : replica_run tm0 0 [] (SM.new_sm tm0)
  | rr_apply n es sm e :
      replica_run tm0 n es sm → is_Some (command_of e) →
      proposed_here (rp_pending (replay_log (rdb_contents (store_ tm0)) es)) sm e →
      replica_run tm0 (S n) (es ++ [e]) (SM.Apply sm e)
  | rr_local n es sm sm' :
      replica_run tm0 n es sm →
      local_step (rp_pending (replay_log (rdb_contents (store_ tm0)) es)) sm sm' →
      replica_run tm0 (S n) es sm'.

Record replica_inv (bound : Z) sm r : Prop := {
  ri_store : rdb_contents (store_ (txn_mgr_ sm)) = rp_store r;
  ri_pending id ws : rp_pending r !! id = Some ws → ∃ local txn, txn_id_map_ sm !! id = Some local ∧
    txns_of sm !! local = Some txn ∧ state txn = PREPARED ∧ write_set txn = ws;
  ri_inj id id' local : txn_id_map_ sm !! id = Some local → txn_id_map_ sm !! id' = Some local → id = id';
  ri_txns local txn : txns_of sm !! local = Some txn → local < next_txn_id_ (txn_mgr_ sm);
  ri_map id local : txn_id_map_ sm !! id = Some local → local < next_txn_id_ (txn_mgr_ sm);
  ri_next : 0 ≤ next_txn_id_ (txn_mgr_ sm) ≤ bound;
}.

Lemma ApplyWrites_install (db : DB) ws cts :
  rdb_contents (TM.ApplyWrites db ws cts) = install (rdb_contents db) ws cts.
Proof.
  induction ws as [|w ws IH] using rev_ind; [done|].
  rewrite ApplyWrites_snoc by done. unfold install. rewrite foldl_app. cbn [foldl]. by rewrite IH.
Qed.

Lemma not_pending r id : rp_pending r !! id = None →
  r = MkReplicated (rp_store r) (delete id (rp_pending r)).
Proof. intros Hid. by rewrite delete_id; [destruct r|]. Qed.

Lemma replica_inv_weaken b b' sm r : b ≤ b' → replica_inv b sm r → replica_inv b' sm r.
Proof. intros Hb [????? [??]]. split; try done. lia. Qed.

(** A step of the manager that keeps the store, the numbering and every prepared
    transaction. *)
Lemma replica_inv_mgr b sm r tm : replica_inv b sm r →
  store_ tm = store_ (txn_mgr_ sm) → next_txn_id_ tm = next_txn_id_ (txn_mgr_ sm) →
  (∀ local txn, txns_ tm !! local = Some txn → is_Some (txns_of sm !! local)) →
  (∀ local txn, txns_of sm !! local = Some txn → state txn = PREPARED →
    ∃ txn', txns_ tm !! local = Some txn' ∧ state txn' = PREPARED ∧ write_set txn' = write_set txn) →
  replica_inv b (SM.set_mgr sm tm) r.
Proof.
  intros [Hs Hp Hi Ht Hm Hn] Es En Hsub Hkeep. split; cbn.
  - by rewrite Es.
  - intros id ws Hid. destruct (Hp id ws Hid) as (local & txn & Hl & Htx & Hst & <-).
    destruct (Hkeep _ _ Htx Hst) as (txn' & ? & ? & ?). by exists local, txn'.
  - done.
  - intros local txn Hl. destruct (Hsub _ _ Hl) as [txn' Hl']. rewrite En. by eapply Ht.
  - rewrite En. done.
  - by rewrite En.
Qed.

(** A fresh transaction is registered. *)
Lemma replica_inv_fresh b sm r tm id txn ws : replica_inv b sm r → b < UINT64_MAX →
  rp_pending r !! id = None →
  store_ tm = store_ (txn_mgr_ sm) → next_txn_id_ tm = u64 (next_txn_id_ (txn_mgr_ sm) + 1) →
  txns_ tm = <[next_txn_id_ (txn_mgr_ sm) := txn]> (txns_of sm) →
  (ws = None ∨ (state txn = PREPARED ∧ ws = Some (write_set txn))) →
  replica_inv (b + 1) (SM.RegisterLocalTxn (SM.set_mgr sm tm) id (next_txn_id_ (txn_mgr_ sm)))
    (MkReplicated (rp_store r) (partial_alter (λ _, ws) id (rp_pending r))).
Proof.
  intros [Hs Hp Hi Ht Hm Hn] Hb Hid Es En Etx Hw.
  rewrite u64_id in En by (unfold is_u64, UINT64_MAX in *; lia). split; cbn [SM.RegisterLocalTxn SM.set_mgr txn_mgr_ txn_id_map_ rp_store rp_pending].
  - by rewrite Es.
  - intros id' ws'. destruct (decide (id = id')) as [<-|Hne].
    + rewrite lookup_partial_alter_eq. intros ->. destruct Hw as [|[Hst [= ->]]]; [done|].
      eexists _, txn. rewrite Etx. by rewrite !lookup_insert_eq.
    + rewrite lookup_partial_alter_ne by done. intros Hid'.
      destruct (Hp _ _ Hid') as (local & txn' & Hl & Htx & Hst & Hws). exists local, txn'.
      rewrite Etx, !lookup_insert_ne; [done| |done]. intros <-. apply Ht in Htx. lia.
  - intros i i' local [[<- <-]|[_ Hl]]%lookup_insert_Some [[<- E]|[_ Hl']]%lookup_insert_Some; try done.
    + apply Hm in Hl'. lia.
    + apply Hm in Hl. lia.
    + by eapply Hi.
  - intros local txn'. rewrite Etx, En. intros [[<- _]|[_ Hl]]%lookup_insert_Some; [lia|]. apply Ht in Hl. lia.
  - intros i local. rewrite En. intros [[_ <-]|[_ Hl]]%lookup_insert_Some; [lia|]. apply Hm in Hl. lia.
  - rewrite En. lia.
Qed.

(** A transaction leaves the map, and possibly the table. *)
Lemma replica_inv_forget b sm r tm id local m : replica_inv b sm r →
  (∀ id', txn_id_map_ sm !! id' = Some local → id' = id) →
  rdb_contents (store_ tm) = m → next_txn_id_ tm = next_txn_id_ (txn_mgr_ sm) →
  (txns_ tm = txns_of sm ∨ txns_ tm = delete local (txns_of sm)) →
  replica_inv b (SM.ForgetTxn (SM.set_mgr sm tm) id) (MkReplicated m (delete id (rp_pending r))).
Proof.
  intros [Hs Hp Hi Ht Hm Hn] Hloc Es En Etx.
  assert (∀ l txn, txns_ tm !! l = Some txn → txns_of sm !! l = Some txn) as Hsub.
  { destruct Etx as [->| ->]; [done|]. by intros l txn [_ ?]%lookup_delete_Some. }
  split; cbn [SM.ForgetTxn SM.set_mgr txn_mgr_ txn_id_map_ rp_store rp_pending].
  - done.
  - intros id' ws [Hne Hid']%lookup_delete_Some. destruct (Hp _ _ Hid') as (l & txn & Hl & Htx & ?).
    exists l, txn. rewrite lookup_delete_ne by done. split; [done|]. split; [|done].
    destruct Etx as [->| ->]; [done|]. rewrite lookup_delete_ne; [done|]. intros <-. by apply Hloc in Hl.
  - intros i i' l [_ Hl]%lookup_delete_Some [_ Hl']%lookup_delete_Some. by eapply Hi.
  - intros l txn Hl. rewrite En. by eapply Ht, Hsub.
  - intros i l [_ Hl]%lookup_delete_Some. rewrite En. by eapply Hm.
  - by rewrite En.
Qed.

(** *** Frames of the manager's operations *)

(** What an operation on transaction [local] leaves alone: the store, the
    numbering, the other transactions, and [local] itself when it is prepared. *)
Definition mgr_frame tm tm' local : Prop :=
  store_ tm' = store_ tm ∧ next_txn_id_ tm' = next_txn_id_ tm ∧
  (∀ l, l ≠ local → txns_ tm' !! l = txns_ tm !! l) ∧
  (∀ txn, txns_ tm' !! local = Some txn → is_Some (txns_ tm !! local)) ∧
  (∀ txn, txns_ tm !! local = Some txn → state txn = PREPARED → txns_ tm' !! local = Some txn).

Lemma mgr_frame_refl tm local : mgr_frame tm tm local.
Proof. split_and!; done. Qed.

(** The transaction is active, and is replaced or removed. *)
Lemma mgr_frame_active tm tm' local txn : store_ tm' = store_ tm → next_txn_id_ tm' = next_txn_id_ tm →
  txns_ tm !! local = Some txn → state txn = ACTIVE →
  (∃ f, txns_ tm' = partial_alter f local (txns_ tm)) → mgr_frame tm tm' local.
Proof.
  intros Es En Hl Ha [f Et]. split_and!; try done.
  - intros l Hne. by rewrite Et, lookup_partial_alter_ne.
  - intros txn' Hl' Hst. congruence.
Qed.

Lemma Read_frame tm local tid key : mgr_frame tm (TM.Read tm local tid key).1 local.
Proof.
  unfold TM.Read. destruct (txns_ tm !! local) as [txn|] eqn:Hl; [|apply mgr_frame_refl].
  destruct (bool_decide_reflect (state txn = ACTIVE)); [|apply mgr_frame_refl]. cbn [negb].
  destruct (LatestBuffered _ _ _) as [bw|]; [destruct (is_delete bw); apply mgr_frame_refl|].
  destruct (Get _ _ _ _) as [|[mv ts]]; [apply mgr_frame_refl|].
  eapply mgr_frame_active; [done..|]. by eexists (λ _, Some _).
Qed.

Lemma Scan_frame tm local tid a b o : mgr_frame tm (TM.Scan tm local tid a b o).1 local.
Proof.
  unfold TM.Scan. destruct (txns_ tm !! local) as [txn|] eqn:Hl; [|apply mgr_frame_refl].
  destruct (bool_decide_reflect (state txn = ACTIVE)); [|apply mgr_frame_refl]. cbn [negb].
  destruct (TM.scan_loop _ _ _) as [out reads].
  eapply mgr_frame_active; [done..|]. by eexists (λ _, Some _).
Qed.

Lemma Abort_frame tm local : let tm' := (TM.Abort tm local).1 in
  store_ tm' = store_ tm ∧ next_txn_id_ tm' = next_txn_id_ tm ∧ txns_ tm' = delete local (txns_ tm).
Proof.
  cbn. unfold TM.Abort, TM.append_sync. destruct (txns_ tm !! local) eqn:Hl.
  - by destruct (WAL_AppendSync _ _ _ _).
  - by rewrite delete_id.
Qed.

Lemma write_acquired_frame tm acq local w l : (∀ txn, txns_ tm !! local = Some txn → state txn = ACTIVE) →
  mgr_frame tm (TM.write_acquired (TM.set_locks tm l) acq local w).1 local.
Proof.
  intros Ha. unfold TM.write_acquired. destruct (txns_ tm !! local) as [txn|] eqn:Hl.
  - eapply mgr_frame_active; [..|exact Hl|by apply Ha|].
    + by apply (write_acquired_store (TM.set_locks tm l) acq).
    + destruct (negb _); [apply (Abort_frame (TM.set_locks tm l))|]. unfold TM.buffer_write. cbn. rewrite Hl. destruct (negb _); [done|].
      apply (log_write_frame (TM.set_locks tm l) local w).
    + destruct (negb _); [exists (λ _, None); apply (Abort_frame (TM.set_locks tm l))|]. unfold TM.buffer_write. cbn. rewrite Hl.
      rewrite bool_decide_true by (by apply Ha). cbn. exists (λ _, Some (TM.buffer txn w)).
      by rewrite (proj1 (proj2 (proj2 (log_write_frame _ _ _)))).
  - destruct (negb _).
    + unfold TM.Abort. cbn. rewrite Hl. split_and!; done.
    + unfold TM.buffer_write. cbn. rewrite Hl. split_and!; done.
Qed.

Lemma Prepare_frame tm local cts : mgr_frame tm (TM.Prepare tm local cts).1 local.
Proof.
  pose proof (Prepare_store tm local cts) as Es. revert Es. unfold TM.Prepare, TM.append_sync.
  destruct (txns_ tm !! local) as [txn|] eqn:Hl; [|intros; apply mgr_frame_refl].
  destruct (bool_decide_reflect (state txn = ACTIVE)); [|intros; apply mgr_frame_refl]. cbn [negb].
  destruct (St.ok _); destruct (WAL_AppendSync _ _ _ _) as [w st]; [destruct (negb (St.ok st))|]; intros Es;
    (eapply mgr_frame_active; [done..|]).
  - exists (λ _, Some txn). cbn. change (txns_ tm = <[local := txn]> (txns_ tm)). by rewrite insert_id.
  - by eexists (λ _, Some _).
  - by exists (λ _, None).
Qed.

Lemma Begin_frame tm snap : let '(tm', local) := TM.Begin tm snap in
  local = next_txn_id_ tm ∧ store_ tm' = store_ tm ∧ next_txn_id_ tm' = u64 (next_txn_id_ tm + 1) ∧
  txns_ tm' = <[local := MkTransaction local snap 0 ACTIVE [] [] []]> (txns_ tm).
Proof. unfold TM.Begin, TM.take_txn_id, TM.append. by destruct (WAL_Append _ _ _ _) as [w st]. Qed.

Lemma Import_frame tm snap cts ws : let '(tm', local) := TM.ImportPreparedTxn tm snap cts ws in
  local = next_txn_id_ tm ∧ store_ tm' = store_ tm ∧ next_txn_id_ tm' = u64 (next_txn_id_ tm + 1) ∧
  txns_ tm' = <[local := MkTransaction local snap cts PREPARED ws [] []]> (txns_ tm).
Proof.
  unfold TM.ImportPreparedTxn, TM.take_txn_id, TM.append, TM.append_sync.
  destruct (WAL_Append _ _ _ _) as [w st].
  match goal with |- context [foldl ?f ?t ws] => set (fw := f); set (t0 := t) end.
  assert (store_ (foldl fw t0 ws) = store_ t0 ∧ next_txn_id_ (foldl fw t0 ws) = next_txn_id_ t0 ∧
    txns_ (foldl fw t0 ws) = txns_ t0) as (Es & En & Et).
  { generalize t0. clear t0. induction ws as [|x ws IH]; intros t0; [done|]. cbn [foldl].
    destruct (IH (fw t0 x)) as (-> & -> & ->).
    change (fw t0 x) with (TM.log_write t0 (next_txn_id_ tm) x).
    destruct (log_write_frame t0 (next_txn_id_ tm) x) as (-> & _ & -> & ->). done. }
  destruct (WAL_AppendSync _ _ _ _) as [w' st']. cbn. by rewrite Es, En, Et.
Qed.

Lemma Commit_frame tm local cts :
  next_txn_id_ (TM.Commit tm local cts).1 = next_txn_id_ tm ∧
  ((∀ txn, txns_ tm !! local = Some txn → state txn ≠ PREPARED) → (TM.Commit tm local cts).1 = tm).
Proof.
  unfold TM.Commit, TM.append_sync. destruct (txns_ tm !! local) as [txn|]; [|done].
  destruct (bool_decide_reflect (state txn = PREPARED)) as [Hp|]; [|done]. cbn [negb].
  split; [|intros Hn; by destruct (Hn txn)].
  destruct (WAL_AppendSync _ _ _ _) as [w st]. by destruct (negb _).
Qed.

(** *** Steps keep the invariant *)

Lemma replica_inv_frame b sm r tm local : replica_inv b sm r → mgr_frame (txn_mgr_ sm) tm local →
  replica_inv b (SM.set_mgr sm tm) r.
Proof.
  intros Hi (Es & En & Hne & Hsub & Hkeep). apply replica_inv_mgr; [done..| |].
  - intros l txn Hl. destruct (decide (l = local)) as [->|Hl']; [by eapply Hsub|]. rewrite <- Hne by done. by exists txn.
  - intros l txn Hl Hst. exists txn. split; [|done].
    destruct (decide (l = local)) as [->|Hl']; [by apply Hkeep|]. by rewrite Hne.
Qed.

Lemma local_step_inv b sm sm' r : b < UINT64_MAX → replica_inv b sm r → local_step (rp_pending r) sm sm' →
  replica_inv (b + 1) sm' r.
Proof.
  intros Hb Hi. destruct 1 as [sm id snap tm local Hid E|sm local tid key|sm local tid a b' o|sm local w acq l Ha|
    sm local cts|sm id|sm id local Hid Hloc].
  - rewrite (not_pending r id) by done. pose proof (Begin_frame (txn_mgr_ sm) snap) as Hf. rewrite E in Hf.
    destruct Hf as (-> & Es & En & Et). eapply (replica_inv_fresh b _ r); [done..|]. by left.
  - eapply replica_inv_weaken; [|eapply replica_inv_frame, Read_frame; done]. lia.
  - eapply replica_inv_weaken; [|eapply replica_inv_frame, Scan_frame; done]. lia.
  - eapply replica_inv_weaken; [|eapply replica_inv_frame, write_acquired_frame; done]. lia.
  - eapply replica_inv_weaken; [|eapply replica_inv_frame, Prepare_frame; done]. lia.
  - apply (replica_inv_weaken b); [lia|]. unfold SM.TakePrepareResult.
    destruct (prepare_results_ sm !! id); [|done]. destruct Hi. by split.
  - apply (replica_inv_weaken b); [lia|]. destruct (Abort_frame (txn_mgr_ sm) local) as (Es & En & Et).
    rewrite (not_pending r id) by done. eapply replica_inv_forget; [done..| |done|by right]. rewrite Es. apply Hi.
Qed.

Lemma apply_batch_inv b sm r payload id snap cts ws : b < UINT64_MAX → replica_inv b sm r →
  UnpackPrepareBatchPayload payload = Some (id, snap, cts, ws) →
  (rp_pending r !! id = None → ∀ local, txn_id_map_ sm !! id = Some local →
    ∃ txn, txns_of sm !! local = Some txn ∧ state txn = PREPARED ∧ write_set txn = buffered_write <$> ws) →
  replica_inv (b + 1) (SM.apply_prepare_batch sm payload) (run_command r (PrepareTxn id (buffered_write <$> ws))).
Proof.
  intros Hb Hi Hu Hmine. unfold SM.apply_prepare_batch. rewrite Hu. cbn [run_command].
  destruct (txn_id_map_ sm !! id) as [local|] eqn:Hm.
  - rewrite bool_decide_true by done. apply (replica_inv_weaken b); [lia|].
    destruct (rp_pending r !! id) as [ws'|] eqn:Hp; [by destruct Hi; split|].
    destruct (Hmine eq_refl local eq_refl) as (txn & ? & ? & Hws). destruct Hi as [? Hp' ? ? ? ?].
    split; try done. cbn. intros id' ws' [[<- <-]|[_ Hid']]%lookup_insert_Some; [by exists local, txn|by apply Hp'].
  - rewrite bool_decide_false by (by intros []).
    assert (rp_pending r !! id = None) as Hp.
    { destruct (rp_pending r !! id) as [ws'|] eqn:Hp; [|done].
      destruct (ri_pending _ _ _ Hi _ _ Hp) as (? & ? & ? & ?). congruence. }
    rewrite Hp. pose proof (Import_frame (txn_mgr_ sm) snap cts (buffered_write <$> ws)) as Hf.
    destruct (TM.ImportPreparedTxn _ _ _ _) as [tm local]. destruct Hf as (-> & Es & En & Et).
    assert (replica_inv (b + 1) (SM.RegisterLocalTxn (SM.set_mgr sm tm) id (next_txn_id_ (txn_mgr_ sm)))
      (MkReplicated (rp_store r) (<[id := buffered_write <$> ws]> (rp_pending r)))) as Hi'.
    { eapply (replica_inv_fresh b _ r); [done..|]. right. done. }
    destruct Hi'; by split.
Qed.

Lemma apply_commit_inv b sm r p id cts : replica_inv b sm r → DeserializeCommitPayload p = Some cts →
  (rp_pending r !! id = None → ∀ local txn, txn_id_map_ sm !! id = Some local →
    txns_of sm !! local = Some txn → state txn ≠ PREPARED) →
  replica_inv b (SM.apply_commit sm p id) (run_command r (CommitTxn id cts)).
Proof.
  intros Hi Hd Hmine. unfold SM.apply_commit. rewrite Hd. cbn [run_command].
  destruct (rp_pending r !! id) as [ws|] eqn:Hp.
  - destruct (ri_pending _ _ _ Hi _ _ Hp) as (local & txn & Hm & Ht & Hst & <-). rewrite Hm.
    destruct (Commit_effect (txn_mgr_ sm) local cts txn Ht Hst) as [Es Et].
    eapply replica_inv_forget; [done|..].
    + intros id' Hid'. by eapply ri_inj.
    + rewrite Es, ApplyWrites_install. f_equal. apply Hi.
    + apply Commit_frame.
    + by right.
  - destruct (txn_id_map_ sm !! id) as [local|] eqn:Hm; [|done].
    rewrite (proj2 (Commit_frame _ _ _)) by (intros txn Ht; by apply (Hmine eq_refl local)).
    rewrite (not_pending r id) by done. eapply (replica_inv_forget b _ r _ id local); [done|..|done|by left].
    + intros id' Hid'. by eapply ri_inj.
    + apply Hi.
Qed.

Lemma apply_abort_inv b sm r payload : replica_inv b sm r → length payload = 8%nat →
  replica_inv b (SM.apply_abort sm payload) (run_command r (AbortTxn (ReadLe64 payload))).
Proof.
  intros Hi Hl. unfold SM.apply_abort. rewrite Hl. cbn [Nat.eqb negb run_command]. set (id := ReadLe64 payload).
  destruct (txn_id_map_ sm !! id) as [local|] eqn:Hm.
  - destruct (Abort_frame (txn_mgr_ sm) local) as (Es & En & Et).
    eapply replica_inv_forget; [done| | |done|by right].
    + intros id' Hid'. by eapply ri_inj.
    + rewrite Es. apply Hi.
  - rewrite delete_id; [by destruct r|]. destruct (rp_pending r !! id) as [ws|] eqn:Hp; [|done].
    destruct (ri_pending _ _ _ Hi _ _ Hp) as (? & ? & ? & ?). congruence.
Qed.

Lemma Apply_inv b sm r e c : b < UINT64_MAX → replica_inv b sm r → command_of e = Some c →
  proposed_here (rp_pending r) sm e → replica_inv (b + 1) (SM.Apply sm e) (run_command r c).
Proof.
  unfold SM.Apply, proposed_here, command_of. intros Hb Hi Hc Hmine.
  destruct (re_type e); try done.
  - apply (replica_inv_weaken b); [lia|]. destruct (UnpackPayload _) as [[p id]|]; [|by simplify_eq].
    destruct (DeserializeCommitPayload p) as [cts|] eqn:Hd; simplify_eq; [by apply apply_commit_inv|].
    unfold SM.apply_commit. by rewrite Hd.
  - apply (replica_inv_weaken b); [lia|]. destruct (Nat.eqb_spec (length (re_payload e)) 8) as [Hl|Hl]; simplify_eq.
    + by apply apply_abort_inv.
    + unfold SM.apply_abort. apply Nat.eqb_neq in Hl. by rewrite Hl.
  - apply (replica_inv_weaken b); [lia|]. by simplify_eq.
  - destruct (UnpackPrepareBatchPayload _) as [[[[id snap] cts] ws]|] eqn:Hu; simplify_eq.
    + by eapply apply_batch_inv.
    + apply (replica_inv_weaken b); [lia|]. unfold SM.apply_prepare_batch. by rewrite Hu.
Qed.

Lemma replay_snoc m es e :
  replay_log m (es ++ [e]) = run_command (replay_log m es) (default Skip (command_of e)).
Proof. unfold replay_log. by rewrite foldl_app. Qed.

(** The numbers a manager has given out. *)
Definition mgr_ok tm : Prop :=
  0 ≤ next_txn_id_ tm ∧ ∀ local txn, txns_ tm !! local = Some txn → local < next_txn_id_ tm.

Lemma replica_run_inv tm0 n es sm : mgr_ok tm0 → next_txn_id_ tm0 + Z.of_nat n < UINT64_MAX →
  replica_run tm0 n es sm →
  replica_inv (next_txn_id_ tm0 + Z.of_nat n) sm (replay_log (rdb_contents (store_ tm0)) es).
Proof.
  intros [Hn0 Hids] Hb Hrun. induction Hrun as [|n es sm e Hrun IH [c Hc] Hmine|n es sm sm' Hrun IH Hstep].
  - split; cbn; try done. lia.
  - rewrite replay_snoc, Hc. replace (next_txn_id_ tm0 + Z.of_nat (S n)) with
      (next_txn_id_ tm0 + Z.of_nat n + 1) by lia. apply Apply_inv; [lia|apply IH; lia|done|done].
  - replace (next_txn_id_ tm0 + Z.of_nat (S n)) with (next_txn_id_ tm0 + Z.of_nat n + 1) by lia.
    eapply local_step_inv; [lia|apply IH; lia|done].
Qed.

(** *** Followers *)

(** A replica that only applies entries has registered exactly what is pending. *)
Lemma Apply_follower b sm r e c : replica_inv b sm r → command_of e = Some c →
  (∀ id, is_Some (txn_id_map_ sm !! id) → is_Some (rp_pending r !! id)) →
  ∀ id, is_Some (txn_id_map_ (SM.Apply sm e) !! id) → is_Some (rp_pending (run_command r c) !! id).
Proof.
  unfold SM.Apply, command_of. intros Hi Hc Hf id.
  destruct (re_type e); try done.
  - destruct (UnpackPayload _) as [[p i]|]; [|simplify_eq; by apply Hf].
    unfold SM.apply_commit. destruct (DeserializeCommitPayload p) as [cts|]; simplify_eq; [|by apply Hf]. cbn.
    destruct (txn_id_map_ sm !! i) as [l|] eqn:Hm.
    + destruct (Hf i) as [ws ->]; [done|]. cbn. intros [l' [Hne Hl]%lookup_delete_Some].
      rewrite lookup_delete_ne by done. by apply Hf.
    + destruct (rp_pending r !! i) as [ws|] eqn:Hp; [|by apply Hf].
      destruct (ri_pending _ _ _ Hi _ _ Hp) as (? & ? & ? & ?). congruence.
  - unfold SM.apply_abort. destruct (length (re_payload e) =? 8)%nat; simplify_eq/=; [|by apply Hf].
    destruct (txn_id_map_ sm !! ReadLe64 (re_payload e)) as [l|] eqn:Hm; cbn.
    + intros [l' [Hne Hl]%lookup_delete_Some]. rewrite lookup_delete_ne by done. by apply Hf.
    + intros Hid. rewrite lookup_delete_ne; [by apply Hf|]. intros <-. rewrite Hm in Hid. by destruct Hid.
  - simplify_eq. by apply Hf.
  - unfold SM.apply_prepare_batch. destruct (UnpackPrepareBatchPayload _) as [[[[i snap] cts] ws]|]; simplify_eq;
      [|by apply Hf]. cbn [run_command].
    destruct (bool_decide_reflect (is_Some (txn_id_map_ sm !! i))) as [Hm|Hm].
    + destruct (Hf i Hm) as [ws' ->]. by apply Hf.
    + destruct (TM.ImportPreparedTxn _ _ _ _) as [tm l]. cbn. intros Hid.
      destruct (decide (i = id)) as [<-|Hne].
      * destruct (rp_pending r !! i) eqn:Hp; [by rewrite Hp|]. cbn. by rewrite lookup_insert_eq.
      * rewrite lookup_insert_ne in Hid by done. destruct (rp_pending r !! i); [by apply Hf|]. cbn.
        rewrite lookup_insert_ne by done. by apply Hf.
Qed.

Lemma follower_run tm0 es : mgr_ok tm0 → next_txn_id_ tm0 + Z.of_nat (length es) < UINT64_MAX →
  Forall (λ e, is_Some (command_of e)) es →
  replica_run tm0 (length es) es (foldl SM.Apply (SM.new_sm tm0) es) ∧
  ∀ id, is_Some (txn_id_map_ (foldl SM.Apply (SM.new_sm tm0) es) !! id) →
    is_Some (rp_pending (replay_log (rdb_contents (store_ tm0)) es) !! id).
Proof.
  intros Hok. induction es as [|e es IH] using rev_ind; intros Hb HF.
  { split; [constructor|]. cbn. intros id [? ?]. done. }
  apply Forall_app in HF as [HF [[c Hc] _]%Forall_cons]. rewrite length_app in Hb. cbn in Hb.
  destruct IH as [Hrun Hf]; [lia|done|]. rewrite foldl_app. cbn [foldl]. split.
  - rewrite length_app, Nat.add_1_r. apply rr_apply; [done|by exists c|].
    unfold proposed_here. rewrite Hc. destruct c; try done.
    + intros Hp l Hl. destruct (Hf id) as [? ?]; [done|congruence].
    + intros Hp l txn Hl. destruct (Hf id) as [? ?]; [done|congruence].
  - rewrite replay_snoc, Hc. cbn [default].
    eapply Apply_follower; [apply replica_run_inv; [done| |exact Hrun]; lia|done|done].
Qed.
End replicas.

Lemma replica_run_commands {DB} `{RocksDBLaws DB} `{GroupCommit} (tm0 : TxnManager DB) n es sm :
  replica_run tm0 n es sm → Forall (λ e, is_Some (command_of e)) es ∧ (length es ≤ n)%nat.
Proof.
  induction 1 as [|n es sm e _ [IH Hl] He _|n es sm sm' _ [IH Hl] _]; [done| |split; [done|lia]].
  rewrite length_app. cbn. split; [|lia]. apply Forall_app. split; [done|]. by constructor.
Qed.

(** The transaction is prepared on the replica with these writes. *)
Definition prepared_on {DB} (sm : RaftStateMachine DB) (id : Z) (ws : list BufferedWrite) : Prop :=
  ∃ local txn, txn_id_map_ sm !! id = Some local ∧ txns_ (txn_mgr_ sm) !! local = Some txn ∧
    state txn = PREPARED ∧ write_set txn = ws.

(** ** Claims *)

#[local] Existing Instance default_group_commit.

(** The payload formats of the Raft entries round trip: a packed prepare
    batch is unpacked to the same transaction, timestamps and writes, whatever
    follows it; commit payloads with the transaction appended and abort payloads
    too. *)
Theorem raft_payload_roundtrip (id snap cts : Z) (ws : list PrepareBatchWrite) (rest p : bytes)
    (Hid : is_u64 id) (Hsnap : is_u64 snap) (Hcts : is_u64 cts) (Hws : Forall batch_write_ok ws)
    (Hn : is_u32 (Z.of_nat (length ws))) :
  UnpackPrepareBatchPayload (PackPrepareBatchPayload id snap cts ws ++ rest) = Some (id, snap, cts, ws) ∧
  UnpackPayload (PackTxnPayload p id) = Some (p, id) ∧
  ReadLe64 (PackAbortPayload id) = id ∧ length (PackAbortPayload id) = 8%nat.
Proof.
  split_and!; [by apply UnpackBatch_pack|by apply UnpackPayload_pack|by apply ReadLe64_le|apply length_le_bytes].
Qed.

Definition demo_batch : list PrepareBatchWrite :=
  [MkPrepareBatchWrite false 1 [x61] [x31]; MkPrepareBatchWrite true 1 [x62] []].

Lemma raft_payload_roundtrip_witness :
  UnpackPrepareBatchPayload (PackPrepareBatchPayload 7 5 8 demo_batch ++ [x00]) = Some (7, 5, 8, demo_batch).
Proof.
  destruct (raft_payload_roundtrip 7 5 8 demo_batch [x00] []) as (E & _); [done..| |done|exact E].
  apply (bool_decide_unpack (Forall batch_write_ok demo_batch)). vm_compute. exact I.
Defined.

(** Replicas agree. Let a replica, the leader say, apply the entries of the
    log in order and in between begin, execute, prepare and abort transactions of
    its own, proposing what it prepared; let a second replica with the same data
    only apply the entries. Then both stores hold exactly the versions the log
    stands for (the writes of each committed transaction at its commit
    timestamp), and every transaction that is prepared but undecided in the log
    is prepared on both with the same writes. Failures of the replicas' own
    write-ahead logs do not matter. *)
Theorem replicas_agree {DB : Type} `{RocksDBLaws DB} `{GroupCommit} (tm1 tm2 : TxnManager DB)
    (n : nat) (es : list RaftLogEntry) (sm : RaftStateMachine DB) :
  rdb_reliable DB → mgr_ok tm1 → mgr_ok tm2 →
  rdb_contents (store_ tm1) = rdb_contents (store_ tm2) →
  next_txn_id_ tm1 + Z.of_nat n < UINT64_MAX → next_txn_id_ tm2 + Z.of_nat n < UINT64_MAX →
  replica_run tm1 n es sm →
  let r := replay_log (rdb_contents (store_ tm1)) es in
  let follower := foldl SM.Apply (SM.new_sm tm2) es in
  rdb_contents (store_ (txn_mgr_ sm)) = rp_store r ∧
  rdb_contents (store_ (txn_mgr_ follower)) = rp_store r ∧
  ∀ id ws, rp_pending r !! id = Some ws → prepared_on sm id ws ∧ prepared_on follower id ws.
Proof.
  intros Hrel Hok1 Hok2 Heq Hb1 Hb2 Hrun. destruct (replica_run_commands _ _ _ _ Hrun) as [HF Hl].
  pose proof (replica_run_inv Hrel tm1 n es sm Hok1 Hb1 Hrun) as Hi1.
  destruct (follower_run Hrel tm2 es Hok2) as [Hrun2 _]; [lia|done|].
  pose proof (replica_run_inv Hrel tm2 (length es) _ _ Hok2 ltac:(lia) Hrun2) as Hi2. rewrite <- Heq in Hi2.
  split_and!; [apply Hi1|apply Hi2|]. intros id ws Hid. split.
  - destruct (ri_pending _ _ _ Hi1 id ws Hid) as (l & txn & ?). by exists l, txn.
  - destruct (ri_pending _ _ _ Hi2 id ws Hid) as (l & txn & ?). by exists l, txn.
Qed.

(** A leader that begins, writes, prepares and proposes transaction 7. *)
Definition demo_mgr : TxnManager MemDB := MkTxnManager (∅ : MemDB) (new_wal []) LockManager_init 1 ∅.
Definition demo_write7 : BufferedWrite := MkBufferedWrite 1 [x61] [x31] false.
Definition demo_entries : list RaftLogEntry :=
  [MkRaftLogEntry 1 1 TXN_PREPARE_BATCH (PackPrepareBatchPayload 7 5 8 [MkPrepareBatchWrite false 1 [x61] [x31]]);
   MkRaftLogEntry 2 1 TXN_COMMIT (PackTxnPayload (SerializeCommitPayload 8) 7)].
Definition demo_sm1 : RaftStateMachine MemDB :=
  SM.RegisterLocalTxn (SM.set_mgr (SM.new_sm demo_mgr) (TM.Begin demo_mgr 5).1) 7 (TM.Begin demo_mgr 5).2.
Definition demo_sm2 : RaftStateMachine MemDB :=
  SM.set_mgr demo_sm1 (TM.write_acquired
    (TM.set_locks (txn_mgr_ demo_sm1) (Acquire (lock_mgr_ (txn_mgr_ demo_sm1)) 1 [x61] 1).1) St.OK 1 demo_write7).1.
Definition demo_sm3 : RaftStateMachine MemDB := SM.set_mgr demo_sm2 (TM.Prepare (txn_mgr_ demo_sm2) 1 8).1.

Lemma demo_leader_run : replica_run demo_mgr 5 demo_entries (foldl SM.Apply demo_sm3 demo_entries).
Proof.
  unfold demo_entries. cbn [foldl]. apply (rr_apply _ 4 [_]); [|by eexists|by intros [=]].
  apply (rr_apply _ 3 []); [|by eexists|].
  - apply (rr_local _ 2 [] demo_sm2); [|constructor].
    apply (rr_local _ 1 [] demo_sm1).
    + apply (rr_local _ 0 [] (SM.new_sm demo_mgr)); [constructor|].
      apply (ls_begin _ _ 7 5); [done|apply surjective_pairing].
    + apply ls_write. intros txn Ht. assert (Some ACTIVE = Some (state txn)) as [=]; [|done].
      change (Some (state txn)) with (state <$> Some txn). rewrite <- Ht. vm_compute. reflexivity.
  - intros _ local Hl. assert (local = 1) as ->.
    { assert (Some local = Some 1) as [=]; [|done]. rewrite <- Hl. vm_compute. reflexivity. }
    eexists. split; [vm_compute; reflexivity|]. split; vm_compute; reflexivity.
Qed.

Lemma replicas_agree_witness :
  rdb_contents (store_ (txn_mgr_ (foldl SM.Apply (SM.new_sm demo_mgr) demo_entries)))
    !! EncodeKey 1 [x61] 8 = Some [x31].
Proof.
  assert (mgr_ok demo_mgr) as Hok by (split; [done|by intros ??]).
  destruct (replicas_agree demo_mgr demo_mgr 5 demo_entries (foldl SM.Apply demo_sm3 demo_entries)
    MemDB_reliable Hok Hok eq_refl) as (_ & E & _); [done|done|exact demo_leader_run|].
  rewrite E. vm_compute. reflexivity.
Defined.

(** A replica that began a transaction itself, and then lost the leadership,
    ignores the prepare entry the new leader proposes for it: the transaction
    counts as prepared, but the replica's own one is still active, so the commit
    entry is rejected and the replica silently misses writes that every other
    replica has. *)
Theorem stale_registration_diverges :
  let old_leader := foldl SM.Apply demo_sm1 demo_entries in
  let follower := foldl SM.Apply (SM.new_sm demo_mgr) demo_entries in
  SM.IsTxnPrepared (SM.Apply demo_sm1 (MkRaftLogEntry 1 1 TXN_PREPARE_BATCH
    (PackPrepareBatchPayload 7 5 8 [MkPrepareBatchWrite false 1 [x61] [x31]]))) 7 = true ∧
  Get (store_ (txn_mgr_ old_leader)) 1 [x61] 10 = inl (St.NotFound "") ∧
  Get (store_ (txn_mgr_ follower)) 1 [x61] 10 = inr ([x31], 8).
Proof. split_and!; vm_compute; reflexivity. Qed.
