(* ===== verification/RaftSpec.v ===== *)
(** * The Raft protocol, abstractly

    What the nodes of src/src/raft/raft_node.cpp do together, without messages:
    terms, votes, elections, logs and commit positions, and the history a proof
    needs. RaftCluster.v shows that the nodes implement these steps. *)
From stdpp Require Import base functions relations gmap sets strings list.
From Stdlib Require Import ZArith Lia.
From S2P Require Import Prelude RaftLog.
Local Open Scope Z_scope.

Abbreviation Log := (list RaftLogEntry).

Definition last_term (l : Log) : Z := default 0 (re_term <$> last l).
#[global] Arguments last_term : simpl never.

(** A candidate with log [l] may get the vote of a node with log [l']. *)
Definition up_to_date (l l' : Log) : Prop :=
  last_term l' < last_term l ∨ (last_term l = last_term l' ∧ (length l' ≤ length l)%nat).

(** A vote with the log of the voter at the time; [v_late] says that the term
    already had a leader. *)
Record Vote := MkVote {
  v_by : Z; v_term : Z; v_for : Z; v_log : Log; v_late : bool;
}.

(** [rterm], [rlog] and [rcommit] are the state of the nodes. The rest is
    history: the votes, the candidacies with the candidate's log, the leader of a
    term with its log when it was elected, the log of the leader of a term as far
    as it got, and the acknowledgements: node [v] held the first [m] entries of
    the leader's log of term [T] while it was in term [T]. *)
Record Raft := MkRaft {
  rterm : Z → Z;
  rlog : Z → Log;
  rcommit : Z → nat;
  votes : list Vote;
  cands : list (Z * Z * Log);
  leads : gmap Z (Z * Log);
  llog : gmap Z Log;
  acks : list (Z * Z * nat);
}.

Section spec.
Context (ids : list Z).
Implicit Types (s : Raft) (v c t T : Z) (l L M : Log).

Definition quorum (Q : list Z) : Prop :=
  NoDup Q ∧ Q ⊆ ids ∧ (length ids / 2 + 1 ≤ length Q)%nat.

Definition late s t : bool := bool_decide (is_Some (leads s !! t)).

(** Entry number [i] of the log of the leader of term [T], an entry of that term,
    is on a quorum. *)
Definition chosen s T (i : nat) : Prop :=
  ∃ L e Q, llog s !! T = Some L ∧ L !! i = Some e ∧ re_term e = T ∧ quorum Q ∧
    ∀ v, v ∈ Q → ∃ m, (i < m)%nat ∧ (v, T, m) ∈ acks s.

(** The first [n] entries of [L] are safe to apply in term [t]. *)
Definition certified s t (n : nat) L : Prop :=
  n = 0%nat ∨ ∃ T i LT, chosen s T i ∧ llog s !! T = Some LT ∧ T ≤ t ∧ (n ≤ S i)%nat ∧ take n L = take n LT.

(** [raft_step v]: a step of node [v]. *)
Inductive raft_step (v : Z) : Raft → Raft → Prop :=
  | r_term s t : rterm s v < t →
      raft_step v s (MkRaft (<[v := t]> (rterm s)) (rlog s) (rcommit s) (votes s) (cands s) (leads s) (llog s) (acks s))
  | r_cand s t : rterm s v < t →
      raft_step v s (MkRaft (<[v := t]> (rterm s)) (rlog s) (rcommit s)
        (MkVote v t v (rlog s v) (late s t) :: votes s) ((v, t, rlog s v) :: cands s) (leads s) (llog s) (acks s))
  | r_vote s c l : (c, rterm s v, l) ∈ cands s → up_to_date l (rlog s v) →
      (∀ w, w ∈ votes s → v_by w = v → v_term w = rterm s v → v_for w = c) →
      raft_step v s (MkRaft (rterm s) (rlog s) (rcommit s)
        (MkVote v (rterm s v) c (rlog s v) (late s (rterm s v)) :: votes s) (cands s) (leads s) (llog s) (acks s))
  | r_elect s t Q : rterm s v = t → (v, t, rlog s v) ∈ cands s → leads s !! t = None → quorum Q →
      (∀ u, u ∈ Q → ∃ w, w ∈ votes s ∧ v_by w = u ∧ v_term w = t ∧ v_for w = v) →
      raft_step v s (MkRaft (rterm s) (rlog s) (rcommit s) (votes s) (cands s)
        (<[t := (v, rlog s v)]> (leads s)) (<[t := rlog s v]> (llog s)) (acks s))
  | r_append s t l L e : leads s !! t = Some (v, l) → rterm s v = t → llog s !! t = Some L → re_term e = t →
      raft_step v s (MkRaft (rterm s) (<[v := L ++ [e]]> (rlog s)) (rcommit s) (votes s) (cands s) (leads s)
        (<[t := L ++ [e]]> (llog s)) ((v, t, S (length L)) :: acks s))
  | r_accept s t c l L M L' : leads s !! t = Some (c, l) → c ≠ v → rterm s v = t → llog s !! t = Some L →
      M `prefix_of` L → (L' = rlog s v ∧ M `prefix_of` L' ∨ L' = M ∧ ¬ M `prefix_of` rlog s v) →
      raft_step v s (MkRaft (rterm s) (<[v := L']> (rlog s)) (rcommit s) (votes s) (cands s) (leads s) (llog s)
        ((v, t, length M) :: acks s))
  | r_commit s n : certified s (rterm s v) n (rlog s v) →
      raft_step v s (MkRaft (rterm s) (rlog s) (<[v := n]> (rcommit s)) (votes s) (cands s) (leads s) (llog s) (acks s))
  | r_restart s :
      raft_step v s (MkRaft (rterm s) (rlog s) (<[v := 0%nat]> (rcommit s)) (votes s) (cands s) (leads s)
        (llog s) (acks s)).

Definition raft_init : Raft := MkRaft (λ _, 0) (λ _, []) (λ _, 0%nat) [] [] ∅ ∅ [].

(** ** The invariant *)

(** Every entry comes with the history of the leader of its term. *)
Definition log_matches s L : Prop :=
  ∀ i e, L !! i = Some e → ∃ L', llog s !! re_term e = Some L' ∧ take (S i) L `prefix_of` L'.

(** [P], known in term [T], is in [L], or a leader between [T] and [U] was
    elected without it. *)
Definition kept s T P L U : Prop :=
  P `prefix_of` L ∨ ∃ W c l, T < W < U ∧ leads s !! W = Some (c, l) ∧ ¬ P `prefix_of` l.

Record lead_inv s t c l : Prop := {
  li_cand : (c, t, l) ∈ cands s;
  li_votes : ∃ Q, quorum Q ∧ ∀ v, v ∈ Q → ∃ L, MkVote v t c L false ∈ votes s;
  li_log : ∃ rest, llog s !! t = Some (l ++ rest) ∧ (∀ e, e ∈ rest → re_term e = t) ∧
    (rterm s c = t → rlog s c = l ++ rest) ∧ (rest ≠ [] → (c, t, length (l ++ rest)) ∈ acks s);
}.

Record ack_inv s v T (m : nat) : Prop := {
  ai_term : T ≤ rterm s v;
  ai_log : ∃ L, llog s !! T = Some L ∧ (m ≤ length L)%nat ∧
    (∀ k, (k ≤ m)%nat → kept s T (take k L) (rlog s v) (rterm s v + 1)) ∧
    (∀ w k, w ∈ votes s → v_by w = v → T < v_term w → v_late w = false → (k ≤ m)%nat →
      kept s T (take k L) (v_log w) (v_term w));
}.

Record raft_inv s : Prop := {
  ri_term v : 0 ≤ rterm s v;
  ri_vote w : w ∈ votes s → v_term w ≤ rterm s (v_by w) ∧ log_matches s (v_log w) ∧
    (v_late w = true → is_Some (leads s !! v_term w)) ∧
    ∃ l, (v_for w, v_term w, l) ∈ cands s ∧ up_to_date l (v_log w);
  ri_vote_unique w w' : w ∈ votes s → w' ∈ votes s → v_by w = v_by w' → v_term w = v_term w' →
    v_for w = v_for w';
  ri_cand c t l : (c, t, l) ∈ cands s → 0 < t ≤ rterm s c ∧ log_matches s l ∧
    (∀ e, e ∈ l → re_term e < t) ∧ ∀ l', (c, t, l') ∈ cands s → l' = l;
  ri_lead t c l : leads s !! t = Some (c, l) → lead_inv s t c l;
  ri_llog t L : llog s !! t = Some L → is_Some (leads s !! t);
  ri_log v : log_matches s (rlog s v) ∧ ∀ e, e ∈ rlog s v → re_term e ≤ rterm s v;
  ri_ack v T m : (v, T, m) ∈ acks s → ack_inv s v T m;
  ri_commit v : certified s (rterm s v) (rcommit s v) (rlog s v);
}.

(** ** Quorums and prefixes *)

Lemma quorum_meet Q Q' : quorum Q → quorum Q' → ∃ v, v ∈ Q ∧ v ∈ Q'.
Proof.
  intros (HN & Hs & Hl) (HN' & Hs' & Hl').
  destruct (decide (Exists (λ v, v ∈ Q') Q)) as [(v & ? & ?)%Exists_exists|Hn]; [by exists v|].
  exfalso. apply not_Exists_Forall in Hn; [|apply _]. rewrite Forall_forall in Hn.
  assert (NoDup (Q ++ Q')) as HNN by (apply NoDup_app; split_and!; [done|exact Hn|done]).
  assert (Q ++ Q' ⊆+ ids) as Hsub.
  { apply NoDup_submseteq; [done|]. intros x [?|?]%elem_of_app; auto. }
  apply submseteq_length in Hsub. rewrite length_app in Hsub.
  pose proof (Nat.div_mod_eq (length ids) 2). pose proof (Nat.mod_upper_bound (length ids) 2). lia.
Qed.

Lemma prefix_both {A} (P P' L : list A) : P `prefix_of` L → P' `prefix_of` L →
  P `prefix_of` P' ∨ P' `prefix_of` P.
Proof. apply prefix_weak_total. Qed.

Lemma prefix_length_le {A} (P P' L : list A) : P `prefix_of` L → P' `prefix_of` L →
  (length P ≤ length P')%nat → P `prefix_of` P'.
Proof.
  intros H1 H2 Hl. destruct (prefix_both _ _ _ H1 H2) as [?|H]; [done|].
  rewrite (prefix_length_eq _ _ H); [done|]. done.
Qed.

Lemma take_prefix {A} (L : list A) n : take n L `prefix_of` L.
Proof. exists (drop n L). symmetry. apply take_drop. Qed.

Lemma take_of_prefix {A} (P L : list A) n : P `prefix_of` L → (n ≤ length P)%nat → take n L = take n P.
Proof. intros [r ->] Hn. rewrite take_app_le; [done|]. done. Qed.

Lemma prefix_take {A} (P L : list A) : P `prefix_of` L → take (length P) L = P.
Proof. intros [r ->]. apply take_app_length. Qed.

Lemma prefix_lookup {A} (P L : list A) i x : P `prefix_of` L → P !! i = Some x → L !! i = Some x.
Proof. intros [r ->] Hi. by apply lookup_app_l_Some. Qed.

(** ** Histories only grow *)

Record extends s s' : Prop := {
  ex_votes : votes s ⊆ votes s';
  ex_cands : cands s ⊆ cands s';
  ex_leads t x : leads s !! t = Some x → leads s' !! t = Some x;
  ex_llog t L : llog s !! t = Some L → ∃ L', llog s' !! t = Some L' ∧ L `prefix_of` L';
  ex_acks : acks s ⊆ acks s';
}.

Lemma log_matches_mono s s' L : extends s s' → log_matches s L → log_matches s' L.
Proof.
  intros He Hm i e Hi. destruct (Hm i e Hi) as (L1 & H1 & Hp).
  destruct (ex_llog _ _ He _ _ H1) as (L2 & H2 & Hp2). exists L2. split; [done|]. by etrans.
Qed.

Lemma chosen_mono s s' T i : extends s s' → chosen s T i → chosen s' T i.
Proof.
  intros He (L & e & Q & HL & Hi & Ht & HQ & Ha). destruct (ex_llog _ _ He _ _ HL) as (L' & HL' & Hp).
  exists L', e, Q. split_and!; try done; [by eapply prefix_lookup|].
  intros v Hv. destruct (Ha v Hv) as (m & ? & ?). exists m. split; [done|]. by apply (ex_acks _ _ He).
Qed.

Lemma kept_mono s s' T P L U U' : extends s s' → U ≤ U' → kept s T P L U → kept s' T P L U'.
Proof.
  intros He HU [?|(W & c & l & HW & Hl & Hn)]; [by left|]. right. exists W, c, l.
  split; [lia|]. split; [by apply (ex_leads _ _ He)|done].
Qed.

(** A chosen entry is in the leader's log: its position is below the length. *)
Lemma chosen_length s T i L : chosen s T i → llog s !! T = Some L → (i < length L)%nat.
Proof. intros (L' & e & Q & HL & Hi & _) HL'. simplify_eq. by eapply lookup_lt_Some. Qed.

Lemma certified_mono s s' t t' n L : extends s s' → t ≤ t' → certified s t n L → certified s' t' n L.
Proof.
  intros He Ht [->|(T & i & LT & Hc & HL & HT & Hn & E)]; [by left|]. right.
  destruct (ex_llog _ _ He _ _ HL) as (L' & HL' & Hp). exists T, i, L'.
  split; [by eapply chosen_mono|]. split; [done|]. split; [lia|]. split; [done|].
  rewrite E. symmetry. apply take_of_prefix; [done|]. pose proof (chosen_length _ _ _ _ Hc HL). lia.
Qed.

Lemma certified_length s t n L : certified s t n L → (n ≤ length L)%nat.
Proof.
  intros [->|(T & i & LT & Hc & HL & HT & Hn & E)]; [lia|].
  pose proof (chosen_length _ _ _ _ Hc HL). apply (f_equal length) in E. rewrite !length_take in E. lia.
Qed.

(** Logs that agree on the first [n] entries are certified alike. *)
Lemma certified_ext s t n L L' : take n L = take n L' → certified s t n L → certified s t n L'.
Proof. intros E [->|(T & i & LT & Hc & HL & HT & Hn & E')]; [by left|]. right. exists T, i, LT. by rewrite <- E. Qed.

Lemma certified_prefix s t n L L' : L `prefix_of` L' → certified s t n L → certified s t n L'.
Proof.
  intros Hp Hc. eapply certified_ext; [|done]. symmetry. apply take_of_prefix; [done|]. by eapply certified_length.
Qed.

(** ** Log matching *)

Section facts.
Context s (Hi : raft_inv s).

Lemma leader_log_matches t L : llog s !! t = Some L → log_matches s L.
Proof.
  intros HL. destruct (ri_llog _ Hi _ _ HL) as [[c l] Hl]. destruct (ri_lead _ Hi _ _ _ Hl) as [Hc _ Hlog].
  destruct Hlog as (rest & HL' & Hrest & _). simplify_eq. intros i e Hie.
  apply lookup_app_Some in Hie as [Hie|[Hle Hie]].
  - destruct (ri_cand _ Hi _ _ _ Hc) as (_ & Hm & _). destruct (Hm i e Hie) as (L' & HL' & Hp).
    exists L'. split; [done|]. rewrite take_app_le; [done|]. apply lookup_lt_Some in Hie. lia.
  - rewrite (Hrest e) by (by eapply list_elem_of_lookup_2). exists (l ++ rest). split; [done|]. apply take_prefix.
Qed.

Lemma log_matches_prefix L M : M `prefix_of` L → log_matches s L → log_matches s M.
Proof.
  intros Hp Hm i e Hie. destruct (Hm i e) as (L' & HL' & Hp'); [by eapply prefix_lookup|].
  exists L'. split; [done|]. rewrite <- (take_of_prefix M L); [done|done|]. apply lookup_lt_Some in Hie. lia.
Qed.

(** The entries of the leader of term [t]: older ones, then its own. *)
Lemma leader_terms t L e : llog s !! t = Some L → e ∈ L → re_term e ≤ t.
Proof.
  intros HL He. destruct (ri_llog _ Hi _ _ HL) as [[c l] Hl]. destruct (ri_lead _ Hi _ _ _ Hl) as [Hc _ Hlog].
  destruct Hlog as (rest & HL' & Hrest & _). simplify_eq. apply elem_of_app in He as [He|He].
  - destruct (ri_cand _ Hi _ _ _ Hc) as (_ & _ & Ht & _). apply Ht in He. lia.
  - apply Hrest in He. lia.
Qed.

(** Terms increase along a log. *)
Lemma terms_sorted L i j e e' : log_matches s L → L !! i = Some e → L !! j = Some e' → (i ≤ j)%nat →
  re_term e ≤ re_term e'.
Proof.
  intros Hm Hie Hje Hij. destruct (Hm j e' Hje) as (L' & HL' & Hp).
  apply (leader_terms _ L'); [done|]. apply (list_elem_of_lookup_2 _ i), (prefix_lookup _ _ _ _ Hp).
  by rewrite lookup_take_lt by lia.
Qed.

(** Two logs that have entries of the same term at the same place agree up to it. *)
Lemma log_matching L M i e e' : log_matches s L → log_matches s M →
  L !! i = Some e → M !! i = Some e' → re_term e = re_term e' → take (S i) L = take (S i) M.
Proof.
  intros HL HM Hie Hie' Et. destruct (HL i e Hie) as (L1 & H1 & Hp1). destruct (HM i e' Hie') as (L2 & H2 & Hp2).
  rewrite Et in H1. simplify_eq. apply lookup_lt_Some in Hie, Hie'.
  destruct (prefix_both _ _ _ Hp1 Hp2) as [Hp|Hp]; apply prefix_length_eq in Hp; try done;
    rewrite !length_take; lia.
Qed.

(** ** Leader completeness *)

Lemma last_term_lookup L e : last L = Some e → last_term L = re_term e ∧ L !! pred (length L) = Some e ∧
  (0 < length L)%nat.
Proof.
  intros E. unfold last_term. rewrite E. rewrite last_lookup in E. split_and!; try done.
  apply lookup_lt_Some in E. lia.
Qed.

Lemma whole_log L e : log_matches s L → last L = Some e →
  ∃ L', llog s !! re_term e = Some L' ∧ L `prefix_of` L'.
Proof.
  intros Hm (_ & Hl & Hn)%last_term_lookup. destruct (Hm _ _ Hl) as (L' & HL' & Hp). exists L'. split; [done|].
  replace (S (pred (length L))) with (length L) in Hp by lia. by rewrite firstn_all in Hp.
Qed.

(** The entries of the leader of [t] that are of term [t] come after its log when
    it was elected. *)
Lemma own_entries t c l L i e : leads s !! t = Some (c, l) → llog s !! t = Some L → L !! i = Some e →
  re_term e = t → (length l ≤ i)%nat ∧ l `prefix_of` L.
Proof.
  intros Hl HL Hie Ht. destruct (ri_lead _ Hi _ _ _ Hl) as [Hc _ (rest & HL' & _)]. simplify_eq.
  split; [|by eexists]. destruct (decide (length l ≤ i)%nat) as [|Hn]; [done|].
  rewrite lookup_app_l in Hie by lia. apply list_elem_of_lookup_2 in Hie.
  destruct (ri_cand _ Hi _ _ _ Hc) as (_ & _ & Hlt & _). apply Hlt in Hie. lia.
Qed.

(** The voter's log has [P]; so has the log of the candidate it voted for. *)
Lemma up_to_date_keeps T LT i e U (l vl : Log) :
  llog s !! T = Some LT → LT !! i = Some e → re_term e = T → 0 < T →
  log_matches s l → log_matches s vl → (∀ x, x ∈ l → re_term x < U) → up_to_date l vl →
  (∀ W c lw, T < W < U → leads s !! W = Some (c, lw) → take (S i) LT `prefix_of` lw) →
  take (S i) LT `prefix_of` vl → take (S i) LT `prefix_of` l.
Proof.
  intros HLT Hie He HT Hml Hmv Hlt Hup IH Hp.
  assert (vl !! i = Some e) as Hvi.
  { eapply prefix_lookup; [exact Hp|]. rewrite lookup_take_lt by lia. done. }
  destruct (last vl) as [ev|] eqn:Hlv; [|by apply last_None in Hlv; subst].
  destruct (last_term_lookup _ _ Hlv) as (Etv & Hvl & Hnv).
  pose proof (lookup_lt_Some _ _ _ Hvi) as Hiv.
  assert (T ≤ re_term ev) as HTv by (rewrite <- He; eapply (terms_sorted vl); [done..|lia]).
  assert (is_Some (last l)) as [el Hll].
  { destruct (last l) eqn:Hll; [done|]. apply last_None in Hll. subst l. unfold up_to_date in Hup.
    rewrite Etv in Hup. change (last_term []) with 0 in Hup. cbn in Hup. lia. }
  destruct (last_term_lookup _ _ Hll) as (Etl & Hlx & Hnl). destruct (whole_log l el Hml Hll) as (LX & HLX & HpX).
  unfold up_to_date in Hup. rewrite Etv, Etl in Hup. destruct Hup as [Hlt'|[Heq Hlen]].
  - assert (re_term el < U) as HXU by (apply Hlt; by eapply list_elem_of_lookup_2).
    destruct (ri_llog _ Hi _ _ HLX) as [[cx lx] Hlx'].
    destruct (own_entries _ _ _ _ (pred (length l)) el Hlx' HLX) as [Hlen Hpx]; [by eapply prefix_lookup|done|].
    etrans; [apply (IH (re_term el) cx lx); [lia|done]|]. eapply prefix_length_le; [done|done|lia].
  - destruct (whole_log vl ev Hmv Hlv) as (LV & HLV & HpV). rewrite <- Heq in HLV. simplify_eq.
    etrans; [exact Hp|]. by eapply prefix_length_le.
Qed.

Theorem leader_completeness T i LT U c l : chosen s T i → llog s !! T = Some LT →
  leads s !! U = Some (c, l) → T < U → take (S i) LT `prefix_of` l.
Proof.
  intros Hch HLT. pose proof Hch as (LT' & e & Q & HLT' & Hie & He & HQ & Hack).
  assert (LT' = LT) as -> by congruence. clear HLT'.
  revert U c l. enough (∀ n U c l, (Z.to_nat (U - T) < n)%nat → leads s !! U = Some (c, l) →
    T < U → take (S i) LT `prefix_of` l) as Hall by (intros U c l; apply (Hall (S (Z.to_nat (U - T)))); lia).
  induction n as [|n IH]; [lia|]. intros U c l Hn HU HTU.
  destruct (ri_lead _ Hi _ _ _ HU) as [Hc (Q' & HQ' & Hv') _].
  destruct (quorum_meet Q Q' HQ HQ') as (v & Hv & Hv2). destruct (Hv' v Hv2) as (vl & Hw).
  destruct (Hack v Hv) as (m & Hm & Ha). destruct (ri_ack _ Hi _ _ _ Ha) as [_ (L & HL & Hml & _ & HJ)].
  assert (L = LT) as -> by congruence.
  assert (∀ W cw lw, T < W < U → leads s !! W = Some (cw, lw) → take (S i) LT `prefix_of` lw) as IHW.
  { intros W cw lw HW HlW. apply (IH W cw lw); [lia|done|lia]. }
  destruct (HJ _ (S i) Hw eq_refl HTU eq_refl) as [Hp|(W & cw & lw & HW & HlW & Hnp)]; [lia| |]; cbn [v_log v_term] in *.
  - destruct (ri_vote _ Hi _ Hw) as (_ & Hmv & _ & l' & Hc' & Hup). cbn [v_log v_term v_for] in *.
    destruct (ri_cand _ Hi _ _ _ Hc) as (_ & Hmc & Hlt & Hu). rewrite (Hu _ Hc') in Hup.
    destruct (ri_llog _ Hi _ _ HLT) as [[cT lT] HlT]. destruct (ri_lead _ Hi _ _ _ HlT) as [HcT _ _].
    destruct (ri_cand _ Hi _ _ _ HcT) as ((HT0 & _) & _).
    apply (up_to_date_keeps T LT i e U l vl HLT Hie He HT0 Hmc Hmv Hlt Hup IHW Hp).
  - destruct Hnp. by eapply IHW.
Qed.

(** A chosen entry, with all before it, is in the log of every later leader. *)
Lemma chosen_prefix T i LT U LU : chosen s T i → llog s !! T = Some LT → llog s !! U = Some LU → T ≤ U →
  take (S i) LT `prefix_of` LU.
Proof.
  intros Hc HL HU HTU. destruct (decide (T = U)) as [->|Hne]; [simplify_eq; apply take_prefix|].
  destruct (ri_llog _ Hi _ _ HU) as [[c l] Hl]. destruct (ri_lead _ Hi _ _ _ Hl) as [_ _ (rest & HL2 & _)].
  simplify_eq. etrans; [apply (leader_completeness T i LT U c l Hc HL Hl); lia|by eexists].
Qed.

Lemma chosen_take T i LT U LU n : chosen s T i → llog s !! T = Some LT → llog s !! U = Some LU → T ≤ U →
  (n ≤ S i)%nat → take n LU = take n LT.
Proof.
  intros Hc HL HU HTU Hn. pose proof (chosen_length _ _ _ _ Hc HL).
  rewrite (take_of_prefix (take (S i) LT) LU n).
  - rewrite take_take, Nat.min_l by lia. done.
  - by eapply chosen_prefix.
  - rewrite length_take. lia.
Qed.

(** Two certified logs agree. *)
Lemma certified_agree t t' n n' L L' : certified s t n L → certified s t' n' L' → (n ≤ n')%nat →
  take n L = take n L'.
Proof.
  intros [->|(T & i & LT & Hc & HL & HT & Hn & E)] Hc' Hle; [done|].
  destruct Hc' as [->|(T' & i' & LT' & Hc' & HL' & HT' & Hn' & E')]; [by replace n with 0%nat by lia|].
  assert (take n L' = take n LT') as ->.
  { apply (f_equal (take n)) in E'. by rewrite !take_take, !Nat.min_l in E' by lia. }
  rewrite E. destruct (Z.le_ge_cases T T') as [Hlt|Hlt].
  - symmetry. by apply (chosen_take T i LT T').
  - apply (chosen_take T' i' LT' T); [done..|lia].
Qed.
End facts.

(** ** Preservation *)

Lemma raft_step_extends v s s' : raft_inv s → raft_step v s s' → extends s s'.
Proof.
  intros Hi Hs.
  assert (∀ t L, llog s !! t = Some L → ∃ L', llog s !! t = Some L' ∧ L `prefix_of` L') as Hsame by (intros t L HL; by exists L).
  destruct Hs as [| | |s t Q Ht Hc Hnone HQ Hv|s t l L e Hl Ht HL Het| | |]; split; cbn; try done; try set_solver.
  - intros u x Hx. rewrite lookup_insert_ne; [done|]. congruence.
  - intros u L HL. exists L. rewrite lookup_insert_ne; [done|]. intros <-.
    destruct (ri_llog _ Hi _ _ HL). congruence.
  - intros u LU HLU. destruct (decide (u = t)) as [->|Hne].
    + rewrite lookup_insert_eq. simplify_eq. eexists. split; [done|by eexists].
    + rewrite lookup_insert_ne by done. auto.
Qed.

(** What a step of node [v] leaves alone. *)
Record local_to v s s' : Prop := {
  lo_same u : u ≠ v → rterm s' u = rterm s u ∧ rlog s' u = rlog s u ∧ rcommit s' u = rcommit s u;
  lo_votes w : w ∈ votes s' → w ∈ votes s ∨ v_by w = v;
  lo_leads t c l : leads s' !! t = Some (c, l) → leads s !! t = Some (c, l) ∨ c = v;
}.

Lemma raft_step_local v s s' : raft_step v s s' → local_to v s s'.
Proof.
  destruct 1; split; cbn; try done; try (intros u Hu; by rewrite ?fn_lookup_insert_ne by done); try (by left).
  - intros w [->|?]%elem_of_cons; [by right|by left].
  - intros w [->|?]%elem_of_cons; [by right|by left].
  - intros u c l [[_ [= <- _]]|[_ ?]]%lookup_insert_Some; [by right|by left].
Qed.

Lemma lead_inv_mono s s' t c l : extends s s' → llog s' !! t = llog s !! t →
  (rterm s' c = t → rterm s c = t ∧ rlog s' c = rlog s c) → lead_inv s t c l → lead_inv s' t c l.
Proof.
  intros He HL Hc [H1 (Q & HQ & Hv) (rest & H3 & H4 & H5 & H6)]. split.
  - by apply (ex_cands _ _ He).
  - exists Q. split; [done|]. intros v HvQ. destruct (Hv v HvQ) as [L ?]. exists L. by apply (ex_votes _ _ He).
  - exists rest. rewrite HL. split_and!; try done.
    + intros Ht. destruct (Hc Ht) as [Ht' ->]. auto.
    + intros Hr. by apply (ex_acks _ _ He), H6.
Qed.

(** Acknowledgements survive when the log grows, and a new vote of the node shows
    the log it has now. *)
Lemma ack_inv_mono s s' v T m : extends s s' → rterm s v ≤ rterm s' v → rlog s v `prefix_of` rlog s' v →
  (∀ w, w ∈ votes s' → v_by w = v → v_late w = false → w ∈ votes s ∨
    v_log w = rlog s v ∧ rterm s v ≤ v_term w ∧ leads s !! v_term w = None) →
  ack_inv s v T m → ack_inv s' v T m.
Proof.
  intros He Ht Hl Hnew [HT (L & HL & Hm & HK & HJ)]. destruct (ex_llog _ _ He _ _ HL) as (L' & HL' & Hp).
  split; [lia|]. exists L'. pose proof (prefix_length _ _ Hp). split; [done|]. split; [lia|].
  assert (∀ k, (k ≤ m)%nat → take k L' = take k L) as Ek by (intros k Hk; apply take_of_prefix; [done|lia]).
  split.
  - intros k Hk. rewrite Ek by done. apply (kept_mono s s' _ _ _ (rterm s v + 1)); [done|lia|].
    destruct (HK k Hk) as [Hkp|Hex]; [left; by etrans|by right].
  - intros w k Hw Hby HTw Hlate Hk. rewrite Ek by done. destruct (Hnew w Hw Hby Hlate) as [Hold|(-> & Htw & Hnone)].
    + by eapply kept_mono, HJ.
    + destruct (HK k Hk) as [Hkp|(W & c & l & HW & HlW & Hn)]; [by left|]. right. exists W, c, l.
      split; [|split; [by apply (ex_leads _ _ He)|done]]. assert (W ≠ v_term w) by congruence. lia.
Qed.

Lemma vote_mono s s' w : extends s s' → (∀ v, rterm s v ≤ rterm s' v) → raft_inv s → w ∈ votes s →
  v_term w ≤ rterm s' (v_by w) ∧ log_matches s' (v_log w) ∧
  (v_late w = true → is_Some (leads s' !! v_term w)) ∧
  ∃ l, (v_for w, v_term w, l) ∈ cands s' ∧ up_to_date l (v_log w).
Proof.
  intros He Ht Hi Hw. destruct (ri_vote _ Hi w Hw) as (H1 & H2 & H3 & l & H4 & H5). split_and!.
  - specialize (Ht (v_by w)). lia.
  - by eapply log_matches_mono.
  - intros Hl. destruct (H3 Hl) as [x Hx]. exists x. by apply (ex_leads _ _ He).
  - exists l. split; [by apply (ex_cands _ _ He)|done].
Qed.

Ltac at_node v x := destruct (decide (x = v)) as [->|]; rewrite ?fn_lookup_insert, ?fn_lookup_insert_ne by done.

Lemma bump_le s v t x : rterm s v < t → rterm s x ≤ (<[v := t]> (rterm s)) x.
Proof. intros Ht. at_node v x; [lia|done]. Qed.

Lemma step_term_inv s v t : raft_inv s → rterm s v < t →
  raft_inv (MkRaft (<[v := t]> (rterm s)) (rlog s) (rcommit s) (votes s) (cands s) (leads s) (llog s) (acks s)).
Proof.
  intros Hi Ht. set (s' := MkRaft _ _ _ _ _ _ _ _). assert (extends s s') as He by (eapply (raft_step_extends v); [done|by constructor]).
  assert (∀ x, rterm s x ≤ rterm s' x) as Hle by (intros x; by apply bump_le). split.
  - intros x. pose proof (ri_term _ Hi x). specialize (Hle x). lia.
  - intros w Hw. by eapply vote_mono.
  - apply Hi.
  - intros c u l Hc. destruct (ri_cand _ Hi _ _ _ Hc) as (H1 & H2 & H3). specialize (Hle c). split; [lia|].
    split; [by eapply log_matches_mono|done].
  - intros u c l Hl. pose proof (ri_lead _ Hi _ _ _ Hl) as Hli. eapply lead_inv_mono; [done|done| |done].
    cbn. at_node v c; [|done]. intros ->. destruct Hli as [Hc _ _]. destruct (ri_cand _ Hi _ _ _ Hc) as (? & _). lia.
  - apply Hi.
  - intros x. destruct (ri_log _ Hi x) as [H1 H2]. split; [by eapply log_matches_mono|].
    intros e Hel. specialize (H2 e Hel). specialize (Hle x). lia.
  - intros x T m Ha. eapply ack_inv_mono; [done|apply Hle|done|by left|by apply Hi].
  - intros x. eapply certified_mono; [done|apply Hle|apply Hi].
Qed.

Lemma late_false s t : late s t = false → leads s !! t = None.
Proof. unfold late. rewrite bool_decide_eq_false, eq_None_not_Some. done. Qed.
Lemma late_true s t : late s t = true → is_Some (leads s !! t).
Proof. unfold late. by rewrite bool_decide_eq_true. Qed.

Lemma step_cand_inv s v t : raft_inv s → rterm s v < t →
  raft_inv (MkRaft (<[v := t]> (rterm s)) (rlog s) (rcommit s)
    (MkVote v t v (rlog s v) (late s t) :: votes s) ((v, t, rlog s v) :: cands s) (leads s) (llog s) (acks s)).
Proof.
  intros Hi Ht. set (w0 := MkVote v t v _ _). set (s' := MkRaft _ _ _ _ _ _ _ _).
  assert (extends s s') as He by (eapply (raft_step_extends v); [done|by constructor]).
  assert (∀ x, rterm s x ≤ rterm s' x) as Hle by (intros x; by apply bump_le).
  assert (rterm s' v = t) as Hv' by (cbn; by rewrite fn_lookup_insert).
  assert (∀ w, w ∈ votes s → v_by w = v → v_term w ≠ t) as Hnew.
  { intros w Hw <- Hwt. destruct (ri_vote _ Hi _ Hw). lia. }
  split.
  - intros x. pose proof (ri_term _ Hi x). specialize (Hle x). lia.
  - intros w [->|Hw]%elem_of_cons; [|by eapply vote_mono]. cbn [v_by v_term v_log v_late v_for w0]. split_and!.
    + lia.
    + eapply log_matches_mono; [done|apply Hi].
    + apply late_true.
    + exists (rlog s v). split; [apply elem_of_cons; by left|right; split; lia].
  - intros w w' [->|Hw]%elem_of_cons [->|Hw']%elem_of_cons Eb Et; cbn in *; try done.
    + by destruct (Hnew w' Hw').
    + by destruct (Hnew w Hw).
    + by eapply (ri_vote_unique _ Hi).
  - intros c u l [[= -> -> ->]|Hc]%elem_of_cons.
    + pose proof (ri_term _ Hi v). split; [rewrite Hv'; lia|]. destruct (ri_log _ Hi v) as [H1 H2].
      split; [by eapply log_matches_mono|]. split; [intros e Hel; specialize (H2 e Hel); lia|].
      intros l' [[= ->]|Hc']%elem_of_cons; [done|]. destruct (ri_cand _ Hi _ _ _ Hc'). lia.
    + destruct (ri_cand _ Hi _ _ _ Hc) as (H1 & H2 & H3 & H4). specialize (Hle c). split; [lia|].
      split; [by eapply log_matches_mono|]. split; [done|].
      intros l' [[= -> -> ->]|Hc']%elem_of_cons; [lia|by apply H4].
  - intros u c l Hl. pose proof (ri_lead _ Hi _ _ _ Hl) as Hli. eapply lead_inv_mono; [done|done| |done].
    cbn. at_node v c; [|done]. intros ->. destruct Hli as [Hc _ _]. destruct (ri_cand _ Hi _ _ _ Hc) as (? & _). lia.
  - apply Hi.
  - intros x. destruct (ri_log _ Hi x) as [H1 H2]. split; [by eapply log_matches_mono|].
    intros e Hel. specialize (H2 e Hel). specialize (Hle x). lia.
  - intros x T m Ha. eapply ack_inv_mono; [done|apply Hle|done| |by apply Hi].
    intros w [->|Hw]%elem_of_cons; [|by left]. cbn. intros <- Hlate. right. split_and!; [done|lia|by apply late_false].
  - intros x. eapply certified_mono; [done|apply Hle|apply Hi].
Qed.

Lemma step_vote_inv s v c l : raft_inv s → (c, rterm s v, l) ∈ cands s → up_to_date l (rlog s v) →
  (∀ w, w ∈ votes s → v_by w = v → v_term w = rterm s v → v_for w = c) →
  raft_inv (MkRaft (rterm s) (rlog s) (rcommit s)
    (MkVote v (rterm s v) c (rlog s v) (late s (rterm s v)) :: votes s) (cands s) (leads s) (llog s) (acks s)).
Proof.
  intros Hi Hc Hup Hone. set (w0 := MkVote v _ c _ _). set (s' := MkRaft _ _ _ _ _ _ _ _).
  assert (extends s s') as He by (eapply (raft_step_extends v); [done|by econstructor]).
  split.
  - apply Hi.
  - intros w [->|Hw]%elem_of_cons; [|by eapply vote_mono]. cbn [v_by v_term v_log v_late v_for w0]. split_and!.
    + done.
    + eapply log_matches_mono; [done|apply Hi].
    + apply late_true.
    + by exists l.
  - intros w w' [->|Hw]%elem_of_cons [->|Hw']%elem_of_cons Eb Et; cbn in *; try done.
    + symmetry. by apply Hone.
    + by apply Hone.
    + by eapply (ri_vote_unique _ Hi).
  - intros x u l' Hx. destruct (ri_cand _ Hi _ _ _ Hx) as (H1 & H2 & H3).
    split; [done|]. split; [by eapply log_matches_mono|done].
  - intros u x l' Hl. by eapply lead_inv_mono, (ri_lead _ Hi).
  - apply Hi.
  - intros x. destruct (ri_log _ Hi x) as [H1 H2]. split; [by eapply log_matches_mono|done].
  - intros x T m Ha. eapply ack_inv_mono; [done|done|done| |by apply Hi].
    intros w [->|Hw]%elem_of_cons; [|by left]. cbn. intros <- Hlate. right. split_and!; [done|lia|by apply late_false].
  - intros x. eapply certified_mono; [done|done|apply Hi].
Qed.

Lemma step_elect_inv s c t Q : raft_inv s → rterm s c = t → (c, t, rlog s c) ∈ cands s → leads s !! t = None →
  quorum Q → (∀ v, v ∈ Q → ∃ w, w ∈ votes s ∧ v_by w = v ∧ v_term w = t ∧ v_for w = c) →
  raft_inv (MkRaft (rterm s) (rlog s) (rcommit s) (votes s) (cands s)
    (<[t := (c, rlog s c)]> (leads s)) (<[t := rlog s c]> (llog s)) (acks s)).
Proof.
  intros Hi Ht Hc Hnone HQ Hv. set (s' := MkRaft _ _ _ _ _ _ _ _).
  assert (extends s s') as He by (eapply (raft_step_extends c); [done|by econstructor]).
  split.
  - apply Hi.
  - intros w Hw. by eapply vote_mono.
  - apply Hi.
  - intros x u l Hx. destruct (ri_cand _ Hi _ _ _ Hx) as (H1 & H2 & H3).
    split; [done|]. split; [by eapply log_matches_mono|done].
  - cbn. intros u x l [[<- [= <- <-]]|[Hne Hl]]%lookup_insert_Some.
    + split; [done| |].
      * exists Q. split; [done|]. intros v HvQ. destruct (Hv v HvQ) as ([wv wt wf wl wlate] & Hw & <- & <- & <-).
        exists wl. cbn in *. destruct wlate; [|done]. destruct (ri_vote _ Hi _ Hw) as (_ & _ & Hlate & _).
        destruct (Hlate eq_refl). cbn in *. congruence.
      * exists []. cbn. rewrite lookup_insert_eq, app_nil_r. split_and!; try done. set_solver.
    + eapply lead_inv_mono; [done| |done|by apply Hi]. cbn. by rewrite lookup_insert_ne.
  - cbn. intros u L [[<- _]|[Hne HL]]%lookup_insert_Some; [rewrite lookup_insert_eq; by eexists|].
    rewrite lookup_insert_ne by done. by eapply Hi.
  - intros x. destruct (ri_log _ Hi x) as [H1 H2]. split; [by eapply log_matches_mono|done].
  - intros x T m Ha. eapply ack_inv_mono; [done|done|done|by left|by apply Hi].
  - intros x. eapply certified_mono; [done|done|apply Hi].
Qed.

Lemma step_append_inv s c t l L e : raft_inv s → leads s !! t = Some (c, l) → rterm s c = t →
  llog s !! t = Some L → re_term e = t →
  raft_inv (MkRaft (rterm s) (<[c := L ++ [e]]> (rlog s)) (rcommit s) (votes s) (cands s) (leads s)
    (<[t := L ++ [e]]> (llog s)) ((c, t, S (length L)) :: acks s)).
Proof.
  intros Hi Hl Ht HL Het. set (s' := MkRaft _ _ _ _ _ _ _ _).
  destruct (ri_lead _ Hi _ _ _ Hl) as [Hc HQ (rest & HL' & Hrest & Hlog & Hra)]. 
  assert (L = l ++ rest) as -> by congruence. clear HL.
  specialize (Hlog Ht).
  assert (extends s s') as He by (eapply (raft_step_extends c); [done|by econstructor]).
  assert (∀ x, rlog s x `prefix_of` rlog s' x) as Hgrow.
  { intros x. cbn. at_node c x; [|done]. rewrite Hlog. by eexists. }
  assert (log_matches s' ((l ++ rest) ++ [e])) as Hm.
  { intros i x [Hx|[Hlen Hx]]%lookup_app_Some.
    - destruct (leader_log_matches s Hi t (l ++ rest) HL' i x Hx) as (L1 & H1 & Hp1).
      destruct (ex_llog _ _ He _ _ H1) as (L2 & H2 & Hp2). exists L2. split; [done|].
      apply lookup_lt_Some in Hx. rewrite take_app_le by lia. by etrans.
    - apply list_lookup_singleton_Some in Hx as [_ <-]. rewrite Het. exists ((l ++ rest) ++ [e]). cbn.
      rewrite lookup_insert_eq. split; [done|apply take_prefix]. }
  split.
  - apply Hi.
  - intros w Hw. by eapply vote_mono.
  - apply Hi.
  - intros x u l' Hx. destruct (ri_cand _ Hi _ _ _ Hx) as (H1 & H2 & H3).
    split; [done|]. split; [by eapply log_matches_mono|done].
  - intros u x l' Hl'. destruct (decide (u = t)) as [->|Hne].
    + cbn in Hl'. simplify_eq. split; [done|done|]. exists (rest ++ [e]). cbn.
      rewrite lookup_insert_eq, fn_lookup_insert, app_assoc. split_and!; try done.
      * intros y [?| ->%list_elem_of_singleton]%elem_of_app; auto.
      * intros _. rewrite length_app, Nat.add_1_r. set_solver.
    + eapply lead_inv_mono; [done| | |by apply (ri_lead _ Hi)]; cbn; [by rewrite lookup_insert_ne|].
      at_node c x; [congruence|done].
  - cbn. intros u LU [[<- _]|[Hne HLU]]%lookup_insert_Some; [by eexists|by eapply Hi].
  - intros x. cbn. at_node c x.
    + split; [done|]. intros y [Hy| ->%list_elem_of_singleton]%elem_of_app; [|lia].
      rewrite <- Hlog in Hy. by apply (ri_log _ Hi).
    + destruct (ri_log _ Hi x) as [H1 H2]. split; [by eapply log_matches_mono|done].
  - cbn. intros x T m [[= -> -> ->]|Ha]%elem_of_cons.
    + split; [cbn; lia|]. exists ((l ++ rest) ++ [e]). cbn. rewrite lookup_insert_eq, fn_lookup_insert.
      split; [done|]. split; [rewrite (length_app (l ++ rest)); cbn; lia|]. split; [intros k _; left; apply take_prefix|].
      intros w k Hw Hby Hlt. destruct (ri_vote _ Hi _ Hw) as (? & _). subst. lia.
    + eapply ack_inv_mono; [done|done|apply Hgrow|by left|by apply Hi].
  - intros x. eapply certified_prefix; [apply Hgrow|]. eapply certified_mono; [done|done|apply Hi].
Qed.

(** A node that accepts the first entries of the leader's log keeps what is
    certified. *)
Lemma accept_certified s v t L M : raft_inv s → rterm s v = t → llog s !! t = Some L → M `prefix_of` L →
  ¬ M `prefix_of` rlog s v → certified s t (rcommit s v) (rlog s v) → certified s t (rcommit s v) M.
Proof.
  intros Hi Ht HL HM Hn [->|(T & i & LT & Hc & HLT & HT & Hle & E)]; [by left|]. right. exists T, i, LT.
  split_and!; try done. pose proof (chosen_length _ _ _ _ Hc HLT) as Hlen.
  pose proof (chosen_take s Hi T i LT t L _ Hc HLT HL HT Hle) as EL. rewrite <- EL.
  destruct (prefix_both M (take (rcommit s v) L) L HM (take_prefix _ _)) as [Hp|Hp].
  - destruct Hn. etrans; [exact Hp|]. rewrite EL, <- E. apply take_prefix.
  - symmetry. apply take_of_prefix; [done|]. apply (f_equal length) in EL. rewrite !length_take in EL.
    apply prefix_length in Hp. rewrite length_take in Hp. lia.
Qed.

Lemma step_accept_inv s v t c l L M L' : raft_inv s → leads s !! t = Some (c, l) → c ≠ v → rterm s v = t →
  llog s !! t = Some L → M `prefix_of` L →
  (L' = rlog s v ∧ M `prefix_of` L' ∨ L' = M ∧ ¬ M `prefix_of` rlog s v) →
  raft_inv (MkRaft (rterm s) (<[v := L']> (rlog s)) (rcommit s) (votes s) (cands s) (leads s) (llog s)
    ((v, t, length M) :: acks s)).
Proof.
  intros Hi Hl Hcv Ht HL HM HL'. set (s' := MkRaft _ _ _ _ _ _ _ _).
  assert (extends s s') as He by (eapply (raft_step_extends v); [done|by econstructor]).
  assert (M `prefix_of` L') as HML' by (destruct HL' as [[_ ?]|[-> _]]; done).
  assert (log_matches s L' ∧ ∀ e, e ∈ L' → re_term e ≤ t) as [Hm' Ht'].
  { destruct HL' as [[-> _]|[-> _]]; [rewrite <- Ht; apply (ri_log _ Hi)|]. split.
    - eapply log_matches_prefix; [exact HM|by eapply leader_log_matches].
    - intros e Hel. eapply leader_terms; [done|done|]. destruct HM as [r ->]. apply elem_of_app. by left. }
  split.
  - apply Hi.
  - intros w Hw. by eapply vote_mono.
  - apply Hi.
  - intros x u l' Hx. destruct (ri_cand _ Hi _ _ _ Hx) as (H1 & H2 & H3).
    split; [done|]. split; [by eapply log_matches_mono|done].
  - intros u x l' Hx. eapply lead_inv_mono; [done|done| |by apply (ri_lead _ Hi)]. cbn.
    at_node v x; [|done]. intros <-. cbn in Hx. rewrite Ht in Hx. congruence.
  - apply Hi.
  - intros x. cbn. at_node v x; [rewrite Ht; split; [by eapply log_matches_mono|done]|].
    destruct (ri_log _ Hi x) as [H1 H2]. split; [by eapply log_matches_mono|done].
  - intros x T m [[= -> -> ->]|Ha]%elem_of_cons.
    + split; [cbn; lia|]. exists L. cbn. rewrite fn_lookup_insert. split; [done|].
      split; [by apply prefix_length|]. split.
      * intros k Hk. left. rewrite (take_of_prefix M) by done. etrans; [apply take_prefix|done].
      * intros w k Hw Hby Hlt. destruct (ri_vote _ Hi _ Hw) as (? & _). subst. lia.
    + destruct (decide (x = v)) as [->|Hne].
      2: { eapply ack_inv_mono; [done|done| |by left|by apply Hi]. cbn. by rewrite fn_lookup_insert_ne. }
      destruct HL' as [[-> _]|[-> Hn]].
      { eapply ack_inv_mono; [done|done| |by left|by apply Hi]. cbn. by rewrite fn_lookup_insert. }
      destruct (ri_ack _ Hi _ _ _ Ha) as [HT (LT & HLT & Hmn & HK & HJ)]. split; [done|]. exists LT. cbn.
      rewrite fn_lookup_insert. split_and!; [done|done| |].
      * intros k Hk. destruct (HK k Hk) as [Hp|Hex]; [|by right].
        assert (T = t ∨ T < t) as [->|HTt] by lia; [|destruct (decide (take k LT `prefix_of` l)) as [Hpl|Hnl]].
        -- assert (L = LT) as -> by congruence. left.
           destruct (prefix_both (take k LT) M LT (take_prefix _ _) HM) as [?|HMp]; [done|].
           destruct Hn. by etrans.
        -- left. assert (l `prefix_of` L) as Hll.
           { destruct (ri_lead _ Hi _ _ _ Hl) as [_ _ (rest & HL2 & _)]. simplify_eq. by eexists. }
           destruct (prefix_both (take k LT) M L) as [?|HMp]; [by etrans|done|done|]. destruct Hn. by etrans.
        -- right. exists t, c, l. split; [lia|]. done.
      * intros w k Hw Hby HTw Hlate Hk. by apply HJ.
  - intros x. cbn. at_node v x; [|eapply certified_mono; [done|done|apply Hi]].
    eapply certified_mono; [done|reflexivity|]. destruct HL' as [[-> _]|[-> Hn]]; [apply Hi|].
    rewrite Ht. eapply accept_certified; [done..|]. rewrite <- Ht. apply Hi.
Qed.

Lemma step_commit_inv s v n : raft_inv s → certified s (rterm s v) n (rlog s v) →
  raft_inv (MkRaft (rterm s) (rlog s) (<[v := n]> (rcommit s)) (votes s) (cands s) (leads s) (llog s) (acks s)).
Proof.
  intros Hi Hc. set (s' := MkRaft _ _ _ _ _ _ _ _). assert (extends s s') as He by (eapply (raft_step_extends v); [done|by constructor]).
  split.
  - apply Hi.
  - intros w Hw. by eapply vote_mono.
  - apply Hi.
  - intros x u l' Hx. destruct (ri_cand _ Hi _ _ _ Hx) as (H1 & H2 & H3).
    split; [done|]. split; [by eapply log_matches_mono|done].
  - intros u x l' Hl. by eapply lead_inv_mono, (ri_lead _ Hi).
  - apply Hi.
  - intros x. destruct (ri_log _ Hi x) as [H1 H2]. split; [by eapply log_matches_mono|done].
  - intros x T m Ha. eapply ack_inv_mono; [done|done|done|by left|by apply Hi].
  - intros x. cbn. at_node v x; (eapply certified_mono; [done|reflexivity|]); [done|apply Hi].
Qed.

Lemma raft_step_inv v s s' : raft_inv s → raft_step v s s' → raft_inv s'.
Proof.
  intros Hi. destruct 1.
  - by apply step_term_inv.
  - by apply step_cand_inv.
  - by eapply step_vote_inv.
  - by eapply step_elect_inv.
  - by eapply step_append_inv.
  - by eapply step_accept_inv.
  - by apply step_commit_inv.
  - apply step_commit_inv; [done|by left].
Qed.

Lemma raft_init_inv : raft_inv raft_init.
Proof.
  split; cbn; try (by intros; set_solver); try (by intros; simplify_map_eq); [|by left].
  intros v. split; [by intros ??|]. by intros e ?%elem_of_nil.
Qed.

(** ** Several steps of one node *)

#[export] Instance extends_refl : Reflexive extends.
Proof. intros s. split; try done. intros t L HL. by exists L. Qed.
#[export] Instance extends_trans : Transitive extends.
Proof.
  intros s s1 s2 [a1 b1 c1 d1 e1] [a2 b2 c2 d2 e2]. split; try (by etrans); [auto|].
  intros t L HL. destruct (d1 t L HL) as (L1 & HL1 & Hp1). destruct (d2 t L1 HL1) as (L2 & HL2 & Hp2).
  exists L2. split; [done|by etrans].
Qed.
#[export] Instance local_to_refl v : Reflexive (local_to v).
Proof. intros s. split; auto. Qed.
#[export] Instance local_to_trans v : Transitive (local_to v).
Proof.
  intros s s1 s2 [a1 b1 c1] [a2 b2 c2]. split.
  - intros u Hu. destruct (a1 u Hu) as (<- & <- & <-). by apply a2.
  - intros w [Hw|]%b2; [|by right]. by apply b1.
  - intros t c l [Hl| ->]%c2; [|by right]. by apply c1.
Qed.

Lemma raft_steps_facts v s s' : raft_inv s → rtc (raft_step v) s s' →
  raft_inv s' ∧ extends s s' ∧ local_to v s s'.
Proof.
  intros Hi. induction 1 as [s|s s1 s2 Hs _ IH]; [done|].
  destruct (IH (raft_step_inv _ _ _ Hi Hs)) as (H1 & H2 & H3). split_and!; [done| |].
  - etrans; [by eapply raft_step_extends|done].
  - etrans; [by apply raft_step_local|done].
Qed.
End spec.
