(* ===== verification/RaftNode.v ===== *)
(** * Raft node (src/src/raft/raft_node.{h,cpp})

    One member of a Raft group. A method that holds the mutex throughout is one
    function on the node; a method that releases it around calls of the transport
    is split there ([StartElection_begin], [StartElection_reply], ...). Time is
    not part of the state: a test of a timer is an argument. [applied] is the
    sequence of calls of the apply callback. *)
From Stdlib Require Import Strings.Byte.
From stdpp Require Import base gmap sets list strings.
From Stdlib Require Import ZArith Lia Ascii.
From S2P Require Import Prelude Status GroupCommit LogFile RaftLog.
Local Open Scope Z_scope.

Inductive RaftRole := FOLLOWER | CANDIDATE | LEADER.

#[export] Instance RaftRole_eq_dec : EqDecision RaftRole.
Proof. solve_decision. Defined.

Record AppendEntriesRequest := MkAppendEntriesRequest {
  aq_term : Z;
  aq_leader_id : Z;
  aq_prev_log_index : Z;
  aq_prev_log_term : Z;
  aq_entries : list RaftLogEntry;
  aq_leader_commit : Z;
}.
Record AppendEntriesResponse := MkAppendEntriesResponse {
  ar_term : Z;
  ar_success : bool;
  ar_match_index : Z;
}.
Record RequestVoteRequest := MkRequestVoteRequest {
  vq_term : Z;
  vq_candidate_id : Z;
  vq_last_log_index : Z;
  vq_last_log_term : Z;
}.
Record RequestVoteResponse := MkRequestVoteResponse {
  vr_term : Z;
  vr_vote_granted : bool;
}.

#[export] Instance AppendEntriesRequest_eq_dec : EqDecision AppendEntriesRequest.
Proof. solve_decision. Defined.
#[export] Instance RequestVoteRequest_eq_dec : EqDecision RequestVoteRequest.
Proof. solve_decision. Defined.

(** The file [raft_meta]; [None] when it does not exist. [meta_path] says that the
    node has a directory; [meta_io] lists the outcomes of the writes to come. *)
Record MetaFile := MkMetaFile {
  meta_path : bool;
  meta_content : option bytes;
  meta_io : list Io;
}.

Record RaftNode := MkRaftNode {
  current_term_ : Z;
  voted_for_ : option Z;
  meta_ : MetaFile;
  log_ : RaftLog;
  role_ : RaftRole;
  leader_id_ : Z;
  commit_index_ : Z;
  last_applied_ : Z;
  next_index_ : gmap Z Z;
  match_index_ : gmap Z Z;
  node_id_ : Z;
  peer_ids_ : list Z;
  running_ : bool;
  immediate_replicate_ : bool;
  pending_proposals_ : list Z;
  raft_batch_enabled_ : bool;
  raft_batch_max_ : Z;
  applied : list RaftLogEntry;
}.

(** ** Configuration *)

Definition EnvEnabled (v : option string) (defv : bool) : bool :=
  match v with
  | None => defv
  | Some EmptyString => defv
  | Some (String c _) => negb (bool_decide (c = "0"%char))
  end.

(** Does [strtoull] read a digit? Otherwise [end == v]. *)
Definition has_number (s : string) : bool :=
  let starts s := match s with String c _ => bool_decide (is_Some (digit_value c)) | EmptyString => false end in
  match skip_space s with
  | String "-" s' => starts s'
  | String "+" s' => starts s'
  | s' => starts s'
  end.

Definition EnvU64 (v : option string) (defv : Z) : Z :=
  match v with
  | None => defv
  | Some EmptyString => defv
  | Some s => if has_number s then strtoul s else defv
  end.

(** [raft_batch_enabled_], [raft_batch_max_] and the window in microseconds. *)
Definition LoadBatchingConfig (env : getenv) (in_process : bool) : bool * Z * Z :=
  let batch_env := env "TRANS_DB_RAFT_BATCH_ENABLED" in
  let enabled := EnvEnabled batch_env true in
  let enabled := if bool_decide (batch_env = None) && in_process then false else enabled in
  (enabled, Z.max 1 (EnvU64 (env "TRANS_DB_RAFT_BATCH_MAX") 32),
   Z.max 1 (EnvU64 (env "TRANS_DB_RAFT_BATCH_WINDOW_US") 500)).

(** ** Term and vote on disk *)

Definition meta_bytes (term : Z) (vote : option Z) : bytes :=
  le_bytes 8 term ++ [if bool_decide (is_Some vote) then x01 else x00] ++ le_bytes 4 (default 0 vote).

Definition PersistMeta (m : MetaFile) (term : Z) (vote : option Z) : MetaFile :=
  if negb (meta_path m) then m
  else
    let o := default io_ok (head (meta_io m)) in
    let ios := tail (meta_io m) in
    if negb (io_open o) then MkMetaFile true (meta_content m) ios
    else if bool_decide (is_Some (io_write o)) || bool_decide (is_Some (io_flush o)) then
      MkMetaFile true (meta_content m) ios
    else if io_rename o then MkMetaFile true (Some (meta_bytes term vote)) ios
    else MkMetaFile true None ios.

(** The term and the vote, or [None] when the members keep their initial values. *)
Definition LoadMeta (m : MetaFile) : option (Z * option Z) :=
  if negb (meta_path m) then None
  else
    match meta_content m with
    | None => None
    | Some data =>
        if (length data <? 13)%nat then None
        else
          let has_vote := negb (bool_decide (nth 8 data x00 = x00)) in
          Some (read_at 0 8 data, if has_vote then Some (read_at 9 4 data) else None)
    end.

Definition new_RaftNode (node_id : Z) (peer_ids : list Z) (meta : MetaFile) (log : RaftLog)
    (env : getenv) (in_process : bool) : RaftNode :=
  let '(term, vote) := default (0, None) (LoadMeta meta) in
  let '(batch_enabled, batch_max, _) := LoadBatchingConfig env in_process in
  MkRaftNode term vote meta log FOLLOWER UINT32_MAX 0 0 ∅ ∅ node_id peer_ids false false []
    batch_enabled batch_max [].

(** ** Updates *)

Definition set_term_vote (n : RaftNode) (term : Z) (vote : option Z) (meta : MetaFile) : RaftNode :=
  MkRaftNode term vote meta (log_ n) (role_ n) (leader_id_ n) (commit_index_ n) (last_applied_ n)
    (next_index_ n) (match_index_ n) (node_id_ n) (peer_ids_ n) (running_ n) (immediate_replicate_ n)
    (pending_proposals_ n) (raft_batch_enabled_ n) (raft_batch_max_ n) (applied n).
Definition set_role (n : RaftNode) (role : RaftRole) (leader : Z) : RaftNode :=
  MkRaftNode (current_term_ n) (voted_for_ n) (meta_ n) (log_ n) role leader (commit_index_ n)
    (last_applied_ n) (next_index_ n) (match_index_ n) (node_id_ n) (peer_ids_ n) (running_ n)
    (immediate_replicate_ n) (pending_proposals_ n) (raft_batch_enabled_ n) (raft_batch_max_ n) (applied n).
Definition set_log (n : RaftNode) (log : RaftLog) : RaftNode :=
  MkRaftNode (current_term_ n) (voted_for_ n) (meta_ n) log (role_ n) (leader_id_ n) (commit_index_ n)
    (last_applied_ n) (next_index_ n) (match_index_ n) (node_id_ n) (peer_ids_ n) (running_ n)
    (immediate_replicate_ n) (pending_proposals_ n) (raft_batch_enabled_ n) (raft_batch_max_ n) (applied n).
Definition set_commit (n : RaftNode) (commit : Z) : RaftNode :=
  MkRaftNode (current_term_ n) (voted_for_ n) (meta_ n) (log_ n) (role_ n) (leader_id_ n) commit
    (last_applied_ n) (next_index_ n) (match_index_ n) (node_id_ n) (peer_ids_ n) (running_ n)
    (immediate_replicate_ n) (pending_proposals_ n) (raft_batch_enabled_ n) (raft_batch_max_ n) (applied n).
Definition set_progress (n : RaftNode) (next match_ : gmap Z Z) : RaftNode :=
  MkRaftNode (current_term_ n) (voted_for_ n) (meta_ n) (log_ n) (role_ n) (leader_id_ n) (commit_index_ n)
    (last_applied_ n) next match_ (node_id_ n) (peer_ids_ n) (running_ n)
    (immediate_replicate_ n) (pending_proposals_ n) (raft_batch_enabled_ n) (raft_batch_max_ n) (applied n).
Definition set_pending (n : RaftNode) (immediate : bool) (pending : list Z) : RaftNode :=
  MkRaftNode (current_term_ n) (voted_for_ n) (meta_ n) (log_ n) (role_ n) (leader_id_ n) (commit_index_ n)
    (last_applied_ n) (next_index_ n) (match_index_ n) (node_id_ n) (peer_ids_ n) (running_ n)
    immediate pending (raft_batch_enabled_ n) (raft_batch_max_ n) (applied n).
Definition set_applied (n : RaftNode) (last : Z) (es : list RaftLogEntry) : RaftNode :=
  MkRaftNode (current_term_ n) (voted_for_ n) (meta_ n) (log_ n) (role_ n) (leader_id_ n) (commit_index_ n)
    last (next_index_ n) (match_index_ n) (node_id_ n) (peer_ids_ n) (running_ n)
    (immediate_replicate_ n) (pending_proposals_ n) (raft_batch_enabled_ n) (raft_batch_max_ n) es.
Definition set_running (n : RaftNode) (running : bool) : RaftNode :=
  MkRaftNode (current_term_ n) (voted_for_ n) (meta_ n) (log_ n) (role_ n) (leader_id_ n) (commit_index_ n)
    (last_applied_ n) (next_index_ n) (match_index_ n) (node_id_ n) (peer_ids_ n) running
    (immediate_replicate_ n) (pending_proposals_ n) (raft_batch_enabled_ n) (raft_batch_max_ n) (applied n).

(** ** Roles *)

Definition MajorityThreshold (n : RaftNode) : Z := (Z.of_nat (length (peer_ids_ n)) + 1) / 2 + 1.

Definition BecomeFollower (n : RaftNode) (term : Z) : RaftNode :=
  let n := set_term_vote n term None (PersistMeta (meta_ n) term None) in
  set_pending (set_role n FOLLOWER UINT32_MAX) (immediate_replicate_ n) [].

Definition BecomeCandidateLocked (n : RaftNode) : RaftNode :=
  let term := u64 (current_term_ n + 1) in
  let vote := Some (node_id_ n) in
  set_role (set_term_vote n term vote (PersistMeta (meta_ n) term vote)) CANDIDATE UINT32_MAX.

Definition IsBatchingEnabled (n : RaftNode) : bool := raft_batch_enabled_ n.

Definition BecomeLeaderLocked (n : RaftNode) : RaftNode :=
  let n := set_role n LEADER (node_id_ n) in
  let next := foldl (λ m p, <[p := u64 (LastIndex (log_ n) + 1)]> m) (next_index_ n) (peer_ids_ n) in
  let matched := foldl (λ m p, <[p := 0]> m) (match_index_ n) (peer_ids_ n) in
  let n := set_pending (set_progress n next matched) true (pending_proposals_ n) in
  let '(log, idx) := RaftLog_Append (log_ n) (current_term_ n) NOOP [] in
  let n := set_log n log in
  if negb (idx =? 0) && IsBatchingEnabled n then
    set_pending n (immediate_replicate_ n) (pending_proposals_ n ++ [idx])
  else n.

(** ** Elections *)

(** The first critical section of [StartElection]: the request for the peers, or
    [None] when the method returns. *)
Definition StartElection_begin (n : RaftNode) : RaftNode * option RequestVoteRequest :=
  if negb (running_ n) || bool_decide (role_ n = LEADER) then (n, None)
  else
    let n := BecomeCandidateLocked n in
    let lli := LastIndex (log_ n) in
    (n, Some (MkRequestVoteRequest (current_term_ n) (node_id_ n) lli (TermAt (log_ n) lli))).

(** What the loop over the peers does after one reply: go on with this number of
    votes, return, or return as leader. *)
Inductive ElectionNext := NextPeer (votes : Z) | GiveUp | Elected.

Definition StartElection_reply (n : RaftNode) (term_sent votes : Z) (resp : RequestVoteResponse) :
    RaftNode * ElectionNext :=
  if negb (running_ n) then (n, GiveUp)
  else if negb (vr_term resp =? 0) && (current_term_ n <? vr_term resp) then
    (BecomeFollower n (vr_term resp), GiveUp)
  else if negb (current_term_ n =? term_sent) || negb (bool_decide (role_ n = CANDIDATE)) then (n, GiveUp)
  else if negb (vr_term resp =? 0) && (vr_term resp <? term_sent) then (n, NextPeer votes)
  else if (vr_term resp =? 0) && negb (vr_vote_granted resp) then (n, NextPeer votes)
  else
    let votes := if vr_vote_granted resp then votes + 1 else votes in
    if MajorityThreshold n <=? votes then (BecomeLeaderLocked n, Elected) else (n, NextPeer votes).

Definition HandleRequestVote (n : RaftNode) (req : RequestVoteRequest) : RaftNode * RequestVoteResponse :=
  if vq_term req <? current_term_ n then (n, MkRequestVoteResponse (current_term_ n) false)
  else
    let n := if current_term_ n <? vq_term req then BecomeFollower n (vq_term req) else n in
    let last_idx := LastIndex (log_ n) in
    let last_term := TermAt (log_ n) last_idx in
    let up_to_date := (last_term <? vq_last_log_term req) ||
      ((vq_last_log_term req =? last_term) && (last_idx <=? vq_last_log_index req)) in
    let grant := match voted_for_ n with None => true | Some c => c =? vq_candidate_id req end && up_to_date in
    if grant then
      let vote := Some (vq_candidate_id req) in
      let n := set_term_vote n (current_term_ n) vote (PersistMeta (meta_ n) (current_term_ n) vote) in
      (n, MkRequestVoteResponse (current_term_ n) true)
    else (n, MkRequestVoteResponse (current_term_ n) false).

(** ** Replication *)

(** The votes for committing index [i]. *)
Definition peer_has (n : RaftNode) (i p : Z) : bool :=
  match match_index_ n !! p with Some m => i <=? m | None => false end.
Definition commit_votes (n : RaftNode) (i : Z) : Z :=
  1 + Z.of_nat (length (filter (λ p, peer_has n i p = true) (peer_ids_ n))).

(** The loop of [AdvanceCommitIndexLocked] over [i], [i] - 1, ...; [fuel] is the
    number of candidates. *)
Fixpoint find_commit (n : RaftNode) (fuel : nat) (i : Z) : option Z :=
  match fuel with
  | O => None
  | S fuel =>
      if negb (TermAt (log_ n) i =? current_term_ n) then find_commit n fuel (i - 1)
      else if MajorityThreshold n <=? commit_votes n i then Some i
      else find_commit n fuel (i - 1)
  end.

Definition AdvanceCommitIndexLocked (n : RaftNode) : RaftNode :=
  if negb (bool_decide (role_ n = LEADER)) then n
  else
    let last := LastIndex (log_ n) in
    if last <=? commit_index_ n then n
    else
      match find_commit n (Z.to_nat (last - commit_index_ n)) last with
      | Some i => set_commit n i
      | None => n
      end.

(** [ApplyCommitted]: [fuel] is the number of entries to apply. *)
Fixpoint apply_loop (fuel : nat) (n : RaftNode) : RaftNode :=
  match fuel with
  | O => n
  | S fuel =>
      if last_applied_ n <? commit_index_ n then
        let next_idx := last_applied_ n + 1 in
        match RaftLog_Get (log_ n) next_idx with
        | None => n
        | Some e => apply_loop fuel (set_applied n next_idx (applied n ++ [e]))
        end
      else n
  end.
Definition ApplyCommitted (n : RaftNode) : RaftNode :=
  apply_loop (Z.to_nat (commit_index_ n - last_applied_ n)) n.

(** The critical section of [ProcessAppendEntriesResponse]; the flag says that
    [ApplyCommitted] follows. *)
Definition ProcessAppendEntriesResponse_locked (n : RaftNode) (peer_id : Z) (resp : AppendEntriesResponse)
    (sent_term : Z) : RaftNode * bool :=
  if negb (running_ n) then (n, false)
  else if negb (ar_term resp =? 0) && (current_term_ n <? ar_term resp) then
    (BecomeFollower n (ar_term resp), false)
  else if negb (sent_term =? current_term_ n) || negb (bool_decide (role_ n = LEADER)) then (n, false)
  else
    let next := default 0 (next_index_ n !! peer_id) in
    let matched := default 0 (match_index_ n !! peer_id) in
    if negb (ar_success resp) then
      (set_progress n (<[peer_id := Z.max 1 (u64 (next - 1))]> (next_index_ n)) (match_index_ n), false)
    else
      let n := set_progress n
        (<[peer_id := Z.max next (u64 (ar_match_index resp + 1))]> (next_index_ n))
        (<[peer_id := Z.max matched (ar_match_index resp)]> (match_index_ n)) in
      (AdvanceCommitIndexLocked n, true).

Definition ProcessAppendEntriesResponse (n : RaftNode) (peer_id : Z) (resp : AppendEntriesResponse)
    (sent_term : Z) : RaftNode :=
  let '(n, apply) := ProcessAppendEntriesResponse_locked n peer_id resp sent_term in
  if apply then ApplyCommitted n else n.

(** The request for one peer. *)
Definition append_job (n : RaftNode) (p : Z) : AppendEntriesRequest :=
  let ni := default 0 (next_index_ n !! p) in
  let prev := u64 (ni - 1) in
  let last := LastIndex (log_ n) in
  MkAppendEntriesRequest (current_term_ n) (node_id_ n) prev
    (if prev =? 0 then 0 else TermAt (log_ n) prev)
    (if ni <=? last then GetRange (log_ n) ni last else []) (commit_index_ n).

(** The first critical section of [SendAppendEntriesToAll]: the requests by peer. *)
Definition SendAppendEntries_begin (n : RaftNode) : list (Z * AppendEntriesRequest) :=
  if negb (bool_decide (role_ n = LEADER)) || negb (running_ n) then []
  else (λ p, (p, append_job n p)) <$> peer_ids_ n.

(** Its last one, which gives up leadership without a quorum; [overdue] says that
    the last contact with a quorum is longer ago than the election timeout. *)
Definition SendAppendEntries_end (n : RaftNode) (sent_term successful_peers : Z) (overdue : bool) : RaftNode :=
  if negb (running_ n) || negb (bool_decide (role_ n = LEADER)) || negb (current_term_ n =? sent_term) then n
  else if MajorityThreshold n <=? 1 + successful_peers then n
  else if overdue then BecomeFollower n (current_term_ n)
  else n.

(** The critical section of [HandleAppendEntries]; the flag says that
    [ApplyCommitted] follows. *)
Definition HandleAppendEntries_locked (n : RaftNode) (req : AppendEntriesRequest) :
    RaftNode * AppendEntriesResponse * bool :=
  if aq_term req <? current_term_ n then (n, MkAppendEntriesResponse (current_term_ n) false 0, false)
  else
    let n := if current_term_ n <? aq_term req then BecomeFollower n (aq_term req)
             else set_role n FOLLOWER (leader_id_ n) in
    let n := set_role n (role_ n) (aq_leader_id req) in
    if (0 <? aq_prev_log_index req) &&
       ((LastIndex (log_ n) <? aq_prev_log_index req) ||
        negb (TermAt (log_ n) (aq_prev_log_index req) =? aq_prev_log_term req)) then
      (n, MkAppendEntriesResponse (current_term_ n) false 0, false)
    else
      let n := if bool_decide (aq_entries req = []) then n
               else set_log n (RaftLog_AppendEntries (log_ n) (aq_entries req)) in
      let last_idx := LastIndex (log_ n) in
      let n := set_commit n (Z.max (commit_index_ n) (Z.min (aq_leader_commit req) last_idx)) in
      (n, MkAppendEntriesResponse (current_term_ n) true
            (u64 (aq_prev_log_index req + Z.of_nat (length (aq_entries req)))), true).

Definition HandleAppendEntries (n : RaftNode) (req : AppendEntriesRequest) :
    RaftNode * AppendEntriesResponse :=
  let '(n, resp, apply) := HandleAppendEntries_locked n req in
  (if apply then ApplyCommitted n else n, resp).

(** ** Proposals *)

(** The critical section of [Propose]: the index, and whether
    [SendAppendEntriesToAll] follows at once. *)
Definition Propose_locked (n : RaftNode) (type : RaftEntryType) (payload : bytes) : RaftNode * Z * bool :=
  if negb (bool_decide (role_ n = LEADER)) then (n, 0, false)
  else
    let '(log, idx) := RaftLog_Append (log_ n) (current_term_ n) type payload in
    let n := set_log n log in
    if idx =? 0 then (n, 0, false)
    else if IsBatchingEnabled n then
      (set_pending n (immediate_replicate_ n) (pending_proposals_ n ++ [idx]), idx, false)
    else (set_pending n true (pending_proposals_ n), idx, true).

(** The critical section of [FlushPendingProposals] and its result; when it is
    true [SendAppendEntriesToAll] follows. *)
Definition FlushPendingProposals_locked (n : RaftNode) (force : bool) : RaftNode * bool :=
  if negb (running_ n) || negb (bool_decide (role_ n = LEADER)) || bool_decide (pending_proposals_ n = []) then
    (n, false)
  else if negb force && (Z.of_nat (length (pending_proposals_ n)) <? raft_batch_max_ n) then (n, false)
  else (set_pending n true [], true).

(** What the loop of [ProposalBatchLoop] does when it wakes up, and after the
    wait for the window. *)
Inductive BatchAction := BatchStop | BatchAgain | BatchWindow | BatchFlush (force : bool).

Definition ProposalBatch_wake (n : RaftNode) : BatchAction :=
  if negb (running_ n) then BatchStop
  else if negb (bool_decide (role_ n = LEADER)) || bool_decide (pending_proposals_ n = []) then BatchAgain
  else if raft_batch_max_ n <=? Z.of_nat (length (pending_proposals_ n)) then BatchFlush true
  else BatchWindow.

Definition ProposalBatch_window (n : RaftNode) (hit_window : bool) : BatchAction :=
  if negb (running_ n) then BatchStop
  else if negb (bool_decide (role_ n = LEADER)) || bool_decide (pending_proposals_ n = []) then BatchAgain
  else BatchFlush (negb hit_window || (raft_batch_max_ n <=? Z.of_nat (length (pending_proposals_ n)))).

(** [WaitForCommit]: the predicate of the wait. *)
Definition WaitForCommit_done (n : RaftNode) (index : Z) : bool := index <=? last_applied_ n.

(** ** The tick thread *)

Inductive TickAction := TickReturn | TickLeader (should_send : bool) | TickElection.

(** [TickOnce] up to the calls it makes without the mutex. *)
Definition TickOnce_begin (n : RaftNode) (heartbeat_due election_due : bool) : RaftNode * TickAction :=
  let n := ApplyCommitted n in
  if negb (running_ n) then (n, TickReturn)
  else if bool_decide (role_ n = LEADER) then
    (set_pending n false (pending_proposals_ n), TickLeader (immediate_replicate_ n || heartbeat_due))
  else if election_due then (n, TickElection) else (n, TickReturn).

(** Its end in the leader's case. *)
Definition TickOnce_end (n : RaftNode) : RaftNode :=
  let n := if running_ n && bool_decide (role_ n = LEADER) then AdvanceCommitIndexLocked n else n in
  ApplyCommitted n.

Definition Start (n : RaftNode) : RaftNode := set_running n true.
Definition Stop (n : RaftNode) : RaftNode := set_running n false.
