(* ===== verification/RaftCluster.v ===== *)
(** * A Raft group

    The nodes of RaftNode.v with their remote calls in flight, as a step
    relation, and the proof that they implement the protocol of RaftSpec.v: one
    leader per term, and replicas that apply the same entries.

    A request that was sent can be handled at any later time, any number of times
    or never; a caller can get a reply that was given or none (what the transport
    reports as term 0). Files work; a process may stop and start again on its
    files between any two steps. *)
From Stdlib Require Import Strings.Byte.
From stdpp Require Import base functions relations gmap sets strings list.
From Stdlib Require Import ZArith Lia.
From S2P Require Import Prelude Status GroupCommit LogFile RaftLog RaftSpec RaftNode.
Local Open Scope Z_scope.

(** A run of the loop of [StartElection]: the request, the votes so far and the
    peers it has not heard from. *)
Record Election := MkElection {
  el_req : RequestVoteRequest;
  el_votes : Z;
  el_todo : list Z;
}.

(** [past] are the entries that earlier processes of a node applied. *)
Record Cluster := MkCluster {
  nodes : Z → RaftNode;
  elections : gmap Z Election;
  vote_reqs : list (Z * RequestVoteRequest);
  vote_resps : list (Z * RequestVoteRequest * RequestVoteResponse);
  app_reqs : list (Z * AppendEntriesRequest);
  app_resps : list (Z * AppendEntriesRequest * AppendEntriesResponse);
  past : list (Z * RaftLogEntry);
}.

Definition no_vote : RequestVoteResponse := MkRequestVoteResponse 0 false.
Definition no_append : AppendEntriesResponse := MkAppendEntriesResponse 0 false 0.

Section cluster.
Context (ids : list Z) (env : getenv) (in_process on_disk : bool).
Implicit Types (c : Cluster) (s : Raft) (n : RaftNode) (i p t b : Z).

Definition peers_of i : list Z := filter (λ p, p ≠ i) ids.

Definition set_node c i n : Cluster :=
  MkCluster (<[i := n]> (nodes c)) (elections c) (vote_reqs c) (vote_resps c) (app_reqs c) (app_resps c) (past c).

(** The loop of [StartElection] after a reply. *)
Definition next_election c i (el : Election) (todo : list Z) (next : ElectionNext) : gmap Z Election :=
  match next with
  | NextPeer votes =>
      if bool_decide (todo = []) then delete i (elections c)
      else <[i := MkElection (el_req el) votes todo]> (elections c)
  | _ => delete i (elections c)
  end.

(** A node that starts again on the files of an earlier process: of the log the synced
    part and perhaps more is left, and the term and the vote are as they were written.
    The latter holds when the process stops; [PersistMeta] does not sync the file, and
    after a power failure the vote may be forgotten ([forgotten_vote_is_repeated]). *)
Definition restart_node n (k : nat) : RaftNode :=
  new_RaftNode (node_id_ n) (peer_ids_ n) (meta_ n) (new_RaftLog true (crash k [] (raft_file (log_ n))))
    env in_process.

(** The tick thread of node [i] is not in the loop of [StartElection]. *)
Definition idle_election c i : bool :=
  match elections c !! i with None => true | Some el => bool_decide (el_todo el = []) end.

Inductive cluster_step : Cluster → Cluster → Prop :=
  | cs_elect c i n req : i ∈ ids → idle_election c i = true → StartElection_begin (nodes c i) = (n, Some req) →
      cluster_step c (MkCluster (<[i := n]> (nodes c)) (<[i := MkElection req 1 (peer_ids_ n)]> (elections c))
        (((λ p, (p, req)) <$> peer_ids_ n) ++ vote_reqs c) (vote_resps c) (app_reqs c) (app_resps c) (past c))
  | cs_vote c p req n resp : (p, req) ∈ vote_reqs c → HandleRequestVote (nodes c p) req = (n, resp) →
      cluster_step c (MkCluster (<[p := n]> (nodes c)) (elections c) (vote_reqs c) ((p, req, resp) :: vote_resps c)
        (app_reqs c) (app_resps c) (past c))
  | cs_vote_reply c i el p todo resp n next :
      elections c !! i = Some el → el_todo el = p :: todo →
      (resp = no_vote ∨ (p, el_req el, resp) ∈ vote_resps c) →
      StartElection_reply (nodes c i) (vq_term (el_req el)) (el_votes el) resp = (n, next) →
      cluster_step c (MkCluster (<[i := n]> (nodes c)) (next_election c i el todo next) (vote_reqs c) (vote_resps c)
        (app_reqs c) (app_resps c) (past c))
  | cs_send c i : i ∈ ids →
      cluster_step c (MkCluster (nodes c) (elections c) (vote_reqs c) (vote_resps c)
        (SendAppendEntries_begin (nodes c i) ++ app_reqs c) (app_resps c) (past c))
  | cs_append c p req n resp apply : (p, req) ∈ app_reqs c →
      HandleAppendEntries_locked (nodes c p) req = (n, resp, apply) →
      cluster_step c (MkCluster (<[p := n]> (nodes c)) (elections c) (vote_reqs c) (vote_resps c)
        (app_reqs c) ((p, req, resp) :: app_resps c) (past c))
  | cs_append_reply c p req resp : (p, req) ∈ app_reqs c →
      (resp = no_append ∨ (p, req, resp) ∈ app_resps c) →
      let i := aq_leader_id req in
      cluster_step c (set_node c i (ProcessAppendEntriesResponse_locked (nodes c i) p resp (aq_term req)).1)
  | cs_step_down c i sent_term successful overdue : i ∈ ids →
      cluster_step c (set_node c i (SendAppendEntries_end (nodes c i) sent_term successful overdue))
  | cs_propose c i type payload : i ∈ ids → is_u32 (Z.of_nat (length payload)) →
      type = RaftEntryType_of_Z (RaftEntryType_to_Z type) → 0 ≤ RaftEntryType_to_Z type < 256 →
      cluster_step c (set_node c i (Propose_locked (nodes c i) type payload).1.1)
  | cs_flush c i force : i ∈ ids →
      cluster_step c (set_node c i (FlushPendingProposals_locked (nodes c i) force).1)
  | cs_tick c i heartbeat_due election_due : i ∈ ids →
      cluster_step c (set_node c i (TickOnce_begin (nodes c i) heartbeat_due election_due).1)
  | cs_tick_end c i : i ∈ ids → cluster_step c (set_node c i (TickOnce_end (nodes c i)))
  | cs_apply c i : i ∈ ids → cluster_step c (set_node c i (ApplyCommitted (nodes c i)))
  | cs_start c i : i ∈ ids → cluster_step c (set_node c i (Start (nodes c i)))
  | cs_stop c i : i ∈ ids → cluster_step c (set_node c i (Stop (nodes c i)))
  | cs_restart c i k : i ∈ ids → persistent (log_ (nodes c i)) = true →
      cluster_step c (MkCluster (<[i := restart_node (nodes c i) k]> (nodes c)) (delete i (elections c))
        (vote_reqs c) (vote_resps c) (app_reqs c) (app_resps c)
        (((λ e, (i, e)) <$> applied (nodes c i)) ++ past c)).

Definition cluster_init : Cluster :=
  MkCluster (λ i, new_RaftNode i (peers_of i) (MkMetaFile on_disk None []) (new_RaftLog on_disk fresh_file)
                    env in_process) ∅ [] [] [] [] [].

Inductive cluster_steps : nat → Cluster → Prop :=
  | cluster_start : cluster_steps 0 cluster_init
  | cluster_next k c c' : cluster_steps k c → cluster_step c c' → cluster_steps (S k) c'.

(** ** The nodes and the protocol *)

(** The entry is at its place in the log of a leader up to a chosen entry. *)
Definition applied_ok s (e : RaftLogEntry) : Prop :=
  ∃ t (k : nat) L, 0 < re_index e ∧ certified ids s t k L ∧ (Z.to_nat (re_index e) ≤ k)%nat ∧
    L !! Z.to_nat (re_index e - 1) = Some e.

Definition meta_ok n : Prop :=
  meta_io (meta_ n) = [] ∧ meta_path (meta_ n) = persistent (log_ n) ∧
  (meta_path (meta_ n) = true → default (0, None) (LoadMeta (meta_ n)) = (current_term_ n, voted_for_ n)).

Record node_rel s i n : Prop := {
  nr_id : node_id_ n = i;
  nr_peers : peer_ids_ n = peers_of i;
  nr_term : current_term_ n = rterm s i;
  nr_log : entries_ (log_ n) = rlog s i;
  nr_commit : commit_index_ n = Z.of_nat (rcommit s i);
  nr_disk : log_wf (log_ n) ∧ log_synced (log_ n) ∧ Forall entry_ok (rlog s i);
  nr_meta : meta_ok n;
  nr_voted x : voted_for_ n = Some x → x ∈ ids;
  nr_vote w : w ∈ votes s → v_by w = i → v_term w = rterm s i →
    voted_for_ n = Some (v_for w) ∨ voted_for_ n = None ∧ ∃ l, leads s !! rterm s i = Some (i, l);
  nr_cand : role_ n = CANDIDATE → (i, rterm s i, rlog s i) ∈ cands s ∧ ∀ l, leads s !! rterm s i ≠ Some (i, l);
  nr_lead : role_ n = LEADER → ∃ l, leads s !! rterm s i = Some (i, l);
  nr_next p : role_ n = LEADER → p ∈ peers_of i →
    ∃ ni, next_index_ n !! p = Some ni ∧ 1 ≤ ni ≤ Z.of_nat (length (rlog s i)) + 1;
  nr_match p m : role_ n = LEADER → p ∈ peers_of i → match_index_ n !! p = Some m →
    m = 0 ∨ ∃ m', m ≤ Z.of_nat m' ∧ (p, rterm s i, m') ∈ acks s;
  nr_noop l : leads s !! rterm s i = Some (i, l) → last_term (rlog s i) = rterm s i;
  nr_applied e : e ∈ applied n → applied_ok s e;
  nr_seq : numbered_from 0 (applied n) ∧ last_applied_ n = Z.of_nat (length (applied n));
}.

Definition vote_req_ok s (req : RequestVoteRequest) : Prop :=
  vq_candidate_id req ∈ ids ∧ ∃ l, (vq_candidate_id req, vq_term req, l) ∈ cands s ∧
    vq_last_log_index req = Z.of_nat (length l) ∧ vq_last_log_term req = last_term l ∧
    ∃ w, w ∈ votes s ∧ v_by w = vq_candidate_id req ∧ v_term w = vq_term req ∧ v_for w = vq_candidate_id req.

Definition election_ok s i (el : Election) : Prop :=
  i ∈ ids ∧ vq_candidate_id (el_req el) = i ∧ vote_req_ok s (el_req el) ∧
  ∃ asked yes, peers_of i = asked ++ el_todo el ∧ NoDup yes ∧ yes ⊆ asked ∧
    el_votes el = 1 + Z.of_nat (length yes) ∧
    ∀ p, p ∈ yes → ∃ w, w ∈ votes s ∧ v_by w = p ∧ v_term w = vq_term (el_req el) ∧ v_for w = i.

(** The request carries the log of the leader of its term, from the entry after
    [prev] on. *)
Definition append_ok s (req : AppendEntriesRequest) : Prop :=
  ∃ l L M, leads s !! aq_term req = Some (aq_leader_id req, l) ∧ llog s !! aq_term req = Some L ∧ M `prefix_of` L ∧
    0 ≤ aq_prev_log_index req ≤ Z.of_nat (length M) ∧
    (0 < aq_prev_log_index req → aq_prev_log_term req =
      default 0 (re_term <$> M !! Z.to_nat (aq_prev_log_index req - 1))) ∧
    aq_entries req = drop (Z.to_nat (aq_prev_log_index req)) M ∧
    0 ≤ aq_leader_commit req ≤ Z.of_nat (length M) ∧ certified ids s (aq_term req) (Z.to_nat (aq_leader_commit req)) M ∧
    numbered_from 0 M ∧ Forall entry_ok M.

Record msgs_ok s b c : Prop := {
  mo_el i el : elections c !! i = Some el → election_ok s i el;
  mo_vreq p req : (p, req) ∈ vote_reqs c → p ∈ ids ∧ p ≠ vq_candidate_id req ∧ vote_req_ok s req;
  mo_vresp p req resp : (p, req, resp) ∈ vote_resps c → 0 ≤ vr_term resp ≤ b ∧
    (vr_vote_granted resp = true → ∃ w, w ∈ votes s ∧ v_by w = p ∧ v_term w = vq_term req ∧
       v_for w = vq_candidate_id req);
  mo_areq p req : (p, req) ∈ app_reqs c → p ∈ ids ∧ p ≠ aq_leader_id req ∧ aq_leader_id req ∈ ids ∧ append_ok s req;
  mo_aresp p req resp : (p, req, resp) ∈ app_resps c → 0 ≤ ar_term resp ≤ b ∧
    (ar_success resp = true → ∃ m, ar_match_index resp = Z.of_nat m ∧ (p, aq_term req, m) ∈ acks s);
  mo_past i e : (i, e) ∈ past c → applied_ok s e;
}.

Definition bounded s b : Prop :=
  (∀ i, i ∈ ids → rterm s i ≤ b) ∧ ∀ t L, llog s !! t = Some L → Z.of_nat (length L) ≤ b.

Record cluster_rel c s b : Prop := {
  cr_inv : raft_inv ids s;
  cr_nodes i : i ∈ ids → node_rel s i (nodes c i);
  cr_msgs : msgs_ok s b c;
  cr_bound : bounded s b;
}.

(** ** What was true of messages stays true *)

Lemma vote_kept s s' v t x : extends s s' → (∃ w, w ∈ votes s ∧ v_by w = v ∧ v_term w = t ∧ v_for w = x) →
  ∃ w, w ∈ votes s' ∧ v_by w = v ∧ v_term w = t ∧ v_for w = x.
Proof. intros He (w & Hw & ?). exists w. split; [by apply (ex_votes _ _ He)|done]. Qed.

Lemma applied_ok_mono s s' e : extends s s' → applied_ok s e → applied_ok s' e.
Proof. intros He (t & k & L & H0 & Hc & ?). exists t, k, L. split; [done|]. split; [by eapply certified_mono|done]. Qed.

Lemma vote_req_ok_mono s s' req : extends s s' → vote_req_ok s req → vote_req_ok s' req.
Proof.
  intros He (H0 & l & Hc & H1 & H2 & Hw). split; [done|]. exists l. split; [by apply (ex_cands _ _ He)|].
  split_and!; [done|done|by eapply vote_kept].
Qed.

Lemma election_ok_mono s s' i el : extends s s' → election_ok s i el → election_ok s' i el.
Proof.
  intros He (H0 & H1 & H2 & asked & yes & H3 & H4 & H5 & H6 & H7). split_and!; [done..|by eapply vote_req_ok_mono|].
  exists asked, yes. split_and!; [done..|]. intros p Hp. eapply vote_kept; [done|by apply H7].
Qed.

Lemma append_ok_mono s s' req : extends s s' → append_ok s req → append_ok s' req.
Proof.
  intros He (l & L & M & Hl & HL & HM & H1 & H2 & H3 & H4 & Hc & H5). destruct (ex_llog _ _ He _ _ HL) as (L' & HL' & Hp).
  exists l, L', M. split; [by apply (ex_leads _ _ He)|]. split; [done|]. split; [by etrans|].
  do 2 (split; [done|]). split; [done|]. split; [done|]. split; [by eapply certified_mono|done].
Qed.

Lemma msgs_ok_mono s s' b b' c : extends s s' → b ≤ b' → msgs_ok s b c → msgs_ok s' b' c.
Proof.
  intros He Hb [H1 H2 H3 H4 H5 H6]. split.
  - intros i el Hel. by eapply election_ok_mono, H1.
  - intros p req Hr. destruct (H2 p req Hr) as (? & ? & ?). split_and!; [done..|by eapply vote_req_ok_mono].
  - intros p req resp Hr. destruct (H3 p req resp Hr) as (? & Hg). split; [lia|].
    intros Hgr. by eapply vote_kept, Hg.
  - intros p req Hr. destruct (H4 p req Hr) as (? & ? & ? & ?). split_and!; [done..|by eapply append_ok_mono].
  - intros p req resp Hr. destruct (H5 p req resp Hr) as (? & Hg). split; [lia|]. intros Hs.
    destruct (Hg Hs) as (m & ? & ?). exists m. split; [done|by apply (ex_acks _ _ He)].
  - intros i e Hp. by eapply applied_ok_mono, H6.
Qed.

Lemma node_rel_other s s' i j n : extends s s' → local_to i s s' → j ≠ i → node_rel s j n → node_rel s' j n.
Proof.
  intros He Hlo Hji [Hid Hpe Hte Hlg Hco Hdi Hme Hvd Hvo Hca Hle Hne Hma Hno Hap Hla].
  destruct (lo_same _ _ _ Hlo j Hji) as (Et & El & Ec).
  assert (∀ t l, leads s' !! t = Some (j, l) → leads s !! t = Some (j, l)) as Hback.
  { intros t l [?|?]%(lo_leads _ _ _ Hlo); done. }
  split; rewrite ?Et, ?El, ?Ec; try done.
  - intros w Hw Hby Ht. destruct (lo_votes _ _ _ Hlo w Hw) as [Hold|?]; [|congruence].
    destruct (Hvo w Hold Hby Ht) as [?|[? [l ?]]]; [by left|]. right. split; [done|]. exists l. by apply (ex_leads _ _ He).
  - intros Hr. destruct (Hca Hr) as [Hin Hn]. split; [by apply (ex_cands _ _ He)|]. intros l Hl. by apply (Hn l), Hback.
  - intros Hr. destruct (Hle Hr) as [l ?]. exists l. by apply (ex_leads _ _ He).
  - intros p m Hr Hp Hm. destruct (Hma p m Hr Hp Hm) as [?|(m' & ? & ?)]; [by left|]. right. exists m'.
    split; [done|by apply (ex_acks _ _ He)].
  - intros l Hl. by eapply Hno, Hback.
  - intros e Hin. by eapply applied_ok_mono, Hap.
Qed.

(** A step of node [i] whose new state matches the protocol's. *)
Lemma cluster_rel_node c s b i n s' b' els vq vs aq as_ pa : cluster_rel c s b → i ∈ ids →
  rtc (raft_step ids i) s s' → node_rel s' i n → bounded s' b' →
  msgs_ok s' b' (MkCluster (<[i := n]> (nodes c)) els vq vs aq as_ pa) →
  cluster_rel (MkCluster (<[i := n]> (nodes c)) els vq vs aq as_ pa) s' b'.
Proof.
  intros [Hi Hn Hm Hb] Hin Hs Hni Hb' Hm'. destruct (raft_steps_facts _ _ _ _ Hi Hs) as (Hi' & He & Hlo).
  split; [done| |done|done]. intros j Hj. cbn. destruct (decide (j = i)) as [->|Hji].
  - by rewrite fn_lookup_insert.
  - rewrite fn_lookup_insert_ne by done. by eapply node_rel_other, Hn.
Qed.

(** The same when no message is sent. *)
Lemma cluster_rel_set c s b i n s' b' : cluster_rel c s b → i ∈ ids → rtc (raft_step ids i) s s' →
  node_rel s' i n → bounded s' b' → b ≤ b' → cluster_rel (set_node c i n) s' b'.
Proof.
  intros Hr Hin Hs Hni Hb' Hbb. eapply cluster_rel_node; [done..|].
  destruct (raft_steps_facts _ _ _ _ (cr_inv _ _ _ Hr) Hs) as (_ & He & _).
  pose proof (msgs_ok_mono _ _ _ _ _ He Hbb (cr_msgs _ _ _ Hr)) as []. by split.
Qed.

Lemma bounded_mono s b b' : b ≤ b' → bounded s b → bounded s b'.
Proof. intros Hb [H1 H2]. split; [intros i Hi; specialize (H1 i Hi); lia|intros t L HL; specialize (H2 t L HL); lia]. Qed.

(** ** Nodes, one operation at a time *)

Context (Hids : NoDup ids) (Hu32 : Forall is_u32 ids).

Lemma ids_u32 i : i ∈ ids → is_u32 i.
Proof. by apply Forall_forall. Qed.

Lemma peers_of_spec i p : p ∈ peers_of i ↔ p ∈ ids ∧ p ≠ i.
Proof. unfold peers_of. rewrite list_elem_of_filter. tauto. Qed.

Lemma length_peers_of i : i ∈ ids → S (length (peers_of i)) = length ids.
Proof.
  intros Hi. assert (ids ≡ₚ i :: peers_of i) as ->; [|done].
  apply NoDup_Permutation; [done| |].
  - apply NoDup_cons. split; [|by apply NoDup_filter]. rewrite peers_of_spec. tauto.
  - intros x. rewrite elem_of_cons, peers_of_spec. destruct (decide (x = i)) as [->|]; tauto.
Qed.

(** The threshold of a node is the size of a quorum. *)
Lemma majority_quorum s i n (Q : list Z) : node_rel s i n → i ∈ ids → NoDup Q → Q ⊆ ids →
  MajorityThreshold n ≤ Z.of_nat (length Q) → quorum ids Q.
Proof.
  intros Hn Hi HN Hs Hl. split_and!; [done|done|]. unfold MajorityThreshold in Hl.
  rewrite (nr_peers _ _ _ Hn) in Hl. pose proof (length_peers_of i Hi) as Hlen.
  replace (Z.of_nat (length (peers_of i)) + 1) with (Z.of_nat (length ids)) in Hl by lia.
  assert (Z.of_nat (length ids) / 2 = Z.of_nat (length ids / 2)) as E by (by rewrite Nat2Z.inj_div).
  rewrite E in Hl. lia.
Qed.

Lemma LoadMeta_bytes m t v : meta_path m = true → meta_content m = Some (meta_bytes t v) → is_u64 t →
  (∀ x, v = Some x → is_u32 x) → LoadMeta m = Some (t, v).
Proof.
  intros Hp Hc Ht Hv. unfold LoadMeta. rewrite Hp, Hc. cbn [negb]. unfold meta_bytes.
  set (f := if bool_decide (is_Some v) then x01 else x00). set (x := default 0 v).
  assert (is_u32 x) as Hx by (destruct v as [y|]; [by apply Hv|done]).
  assert (length (le_bytes 8 t ++ [f] ++ le_bytes 4 x) = 13%nat) as Hl by (by rewrite !length_app, !length_le_bytes).
  rewrite Hl. cbn [Nat.ltb Nat.leb].
  assert (read_at 0 8 (le_bytes 8 t ++ [f] ++ le_bytes 4 x) = t) as ->.
  { etransitivity; [by apply (read_at_le 0 [])|]. apply Z.mod_small. unfold is_u64 in Ht. lia. }
  rewrite app_nth2; rewrite length_le_bytes; [|lia]. rewrite Nat.sub_diag. cbn [nth app].
  assert (read_at 9 4 (le_bytes 8 t ++ f :: le_bytes 4 x) = x) as ->.
  { etransitivity; [|apply (Z.mod_small x (256 ^ 4)); unfold is_u32 in Hx; lia].
    pose proof (read_at_le 9 (le_bytes 8 t ++ [f]) 4 x []) as E. rewrite app_nil_r, <- app_assoc in E.
    apply E. by rewrite length_app, length_le_bytes. }
  unfold f, x. by destruct v.
Qed.

Lemma PersistMeta_ok n t v : meta_ok n → is_u64 t → (∀ x, v = Some x → x ∈ ids) →
  let m := PersistMeta (meta_ n) t v in
  meta_io m = [] ∧ meta_path m = persistent (log_ n) ∧
  (meta_path m = true → default (0, None) (LoadMeta m) = (t, v)).
Proof.
  intros (Hio & Hp & _) Ht Hv. destruct (meta_path (meta_ n)) eqn:E.
  - assert (PersistMeta (meta_ n) t v = MkMetaFile true (Some (meta_bytes t v)) []) as ->.
    { unfold PersistMeta. by rewrite E, Hio. }
    split_and!; [done|done|]. intros _. rewrite (LoadMeta_bytes _ t v); try done.
    intros x Hx. by apply ids_u32, Hv.
  - assert (PersistMeta (meta_ n) t v = meta_ n) as -> by (unfold PersistMeta; by rewrite E).
    split_and!; [done|congruence|congruence].
Qed.

Definition sp_term s i t : Raft :=
  MkRaft (<[i := t]> (rterm s)) (rlog s) (rcommit s) (votes s) (cands s) (leads s) (llog s) (acks s).

Lemma become_follower_rel s i n t : raft_inv ids s → node_rel s i n → rterm s i < t → is_u64 t →
  node_rel (sp_term s i t) i (BecomeFollower n t).
Proof.
  intros Hi Hn Ht Hu. destruct (PersistMeta_ok n t None (nr_meta _ _ _ Hn) Hu) as (Hm1 & Hm2 & Hm3); [done|].
  assert (∀ l, leads s !! t ≠ Some (i, l)) as Hnl.
  { intros l Hl. destruct (ri_lead _ _ Hi _ _ _ Hl) as [Hc _ _]. destruct (ri_cand _ _ Hi _ _ _ Hc). lia. }
  destruct Hn as [Hid Hpe Hte Hlg Hco Hdi Hme Hvd Hvo Hca Hle Hne Hma Hno Hap Hla].
  split; cbn; rewrite ?fn_lookup_insert; try done.
  - intros w Hw Hby Hwt. destruct (ri_vote _ _ Hi _ Hw) as (Hle' & _). rewrite Hby in Hle'. lia.
  - intros l Hl. by destruct (Hnl l).
Qed.

Lemma bounded_term s i t b : bounded s b → t ≤ b → bounded (sp_term s i t) b.
Proof.
  intros [H1 H2] Ht. split; [|done]. intros j Hj. cbn. destruct (decide (j = i)) as [->|];
    rewrite ?fn_lookup_insert, ?fn_lookup_insert_ne by done; auto.
Qed.

Lemma node_last s i n : node_rel s i n →
  LastIndex (log_ n) = Z.of_nat (length (rlog s i)) ∧ TermAt (log_ n) (LastIndex (log_ n)) = last_term (rlog s i).
Proof.
  intros Hn. destruct (nr_disk _ _ _ Hn) as (Hwf & _ & _). rewrite LastIndex_wf by done. rewrite TermAt_wf by done.
  rewrite (nr_log _ _ _ Hn). split; [done|]. unfold last_term. rewrite last_lookup.
  destruct (Z.leb_spec 1 (Z.of_nat (length (rlog s i)))) as [Hle|Hle].
  - by replace (Z.to_nat (Z.of_nat (length (rlog s i)) - 1)) with (pred (length (rlog s i))) by lia.
  - destruct (rlog s i); [done|]. cbn in Hle. lia.
Qed.

(** A node that led its term grants no vote in it: its last entry is of that
    term, those of a candidate are older. *)
Lemma leader_refuses s i n x l l' : raft_inv ids s → node_rel s i n → leads s !! rterm s i = Some (i, l') →
  (x, rterm s i, l) ∈ cands s → ¬ up_to_date l (rlog s i).
Proof.
  intros Hi Hn Hl Hc Hup. unfold up_to_date in Hup. rewrite (nr_noop _ _ _ Hn _ Hl) in Hup.
  destruct (ri_cand _ _ Hi _ _ _ Hc) as ((H0 & _) & _ & Hlt & _).
  assert (last_term l < rterm s i); [|lia]. unfold last_term. destruct (last l) as [e|] eqn:E; cbn; [|lia].
  apply Hlt. apply last_Some in E as [l2 ->]. set_solver.
Qed.

Definition sp_vote s i x : Raft :=
  MkRaft (rterm s) (rlog s) (rcommit s) (MkVote i (rterm s i) x (rlog s i) (late s (rterm s i)) :: votes s)
    (cands s) (leads s) (llog s) (acks s).

Lemma grant_rel s i n x l : raft_inv ids s → node_rel s i n → (x, rterm s i, l) ∈ cands s → x ∈ ids →
  up_to_date l (rlog s i) → (voted_for_ n = None ∨ voted_for_ n = Some x) → is_u64 (rterm s i) →
  raft_step ids i s (sp_vote s i x) ∧
  node_rel (sp_vote s i x) i (set_term_vote n (current_term_ n) (Some x)
    (PersistMeta (meta_ n) (current_term_ n) (Some x))).
Proof.
  intros Hi Hn Hc Hx Hup Hv Hu.
  assert (∀ w, w ∈ votes s → v_by w = i → v_term w = rterm s i → v_for w = x) as Hone.
  { intros w Hw Hby Hwt. destruct (nr_vote _ _ _ Hn w Hw Hby Hwt) as [E|[E [l' Hl']]].
    - destruct Hv as [Hv|Hv]; congruence.
    - by destruct (leader_refuses s i n x l l'). }
  split; [by apply (r_vote ids i s x l)|].
  destruct (PersistMeta_ok n (current_term_ n) (Some x) (nr_meta _ _ _ Hn)) as (Hm1 & Hm2 & Hm3).
  { by rewrite (nr_term _ _ _ Hn). }
  { by intros ? [= <-]. }
  destruct Hn as [Hid Hpe Hte Hlg Hco Hdi Hme Hvd Hvo Hca Hle Hne Hma Hno Hap Hla].
  split; cbn; try done.
  - by intros ? [= <-].
  - intros w [->|Hw]%elem_of_cons Hby Hwt; left; [done|]. by rewrite (Hone w).
Qed.

Lemma handle_vote_rel s i n req b n' resp : raft_inv ids s → node_rel s i n → i ∈ ids → vote_req_ok s req →
  bounded s b → b < UINT32_MAX → HandleRequestVote n req = (n', resp) →
  ∃ s', rtc (raft_step ids i) s s' ∧ node_rel s' i n' ∧ bounded s' b ∧ 0 ≤ vr_term resp ≤ b ∧
    (vr_vote_granted resp = true → ∃ w, w ∈ votes s' ∧ v_by w = i ∧ v_term w = vq_term req ∧
       v_for w = vq_candidate_id req).
Proof.
  intros Hi Hn Hin (Hx & l & Hc & Eli & Elt & _) Hb Hbb E. unfold HandleRequestVote in E.
  pose proof (ri_term _ _ Hi i) as H0. pose proof (proj1 Hb i Hin) as Hti.
  destruct (ri_cand _ _ Hi _ _ _ Hc) as ((Ht0 & Htc) & _). pose proof (proj1 Hb _ Hx) as Htx.
  rewrite (nr_term _ _ _ Hn) in E.
  destruct (Z.ltb_spec (vq_term req) (rterm s i)).
  { simplify_eq. exists s. split_and!; try done. }
  assert (∃ s1 n1, rtc (raft_step ids i) s s1 ∧ node_rel s1 i n1 ∧ bounded s1 b ∧ raft_inv ids s1 ∧
    rterm s1 i = vq_term req ∧ cands s1 = cands s ∧
    n1 = (if rterm s i <? vq_term req then BecomeFollower n (vq_term req) else n)) as (s1 & n1 & Hs1 & Hn1 & Hb1 & Hi1 & Ht1 & Ec1 & En1).
  { destruct (Z.ltb_spec (rterm s i) (vq_term req)) as [Hlt|Hge].
    - assert (raft_step ids i s (sp_term s i (vq_term req))) as Hst by (by apply r_term).
      exists (sp_term s i (vq_term req)), (BecomeFollower n (vq_term req)). split_and!; try done.
      + by apply rtc_once.
      + apply become_follower_rel; try done. unfold is_u64, UINT32_MAX in *. lia.
      + apply bounded_term; [done|lia].
      + by eapply raft_step_inv.
      + cbn. by rewrite fn_lookup_insert.
    - exists s, n. split_and!; try done. lia. }
  rewrite <- En1 in E. destruct (node_last _ _ _ Hn1) as [Eix Elast]. rewrite Elast, Eix, Eli, Elt, (nr_term _ _ _ Hn1), Ht1 in E.
  match type of E with (if ?g then _ else _) = _ => destruct g eqn:Hg end.
  - apply andb_true_iff in Hg as [Hg1 Hg2].
    rewrite <- Ec1, <- Ht1 in Hc. rewrite <- Ht1 in E.
    destruct (grant_rel s1 i n1 (vq_candidate_id req) l) as [Hst Hn2]; try done.
    + apply orb_true_iff in Hg2 as [Hg2%Z.ltb_lt|[Hg2%Z.eqb_eq Hg3%Z.leb_le]%andb_true_iff]; [by left|right].
      split; [done|lia].
    + destruct (voted_for_ n1) as [y|]; [|by left]. right. f_equal. lia.
    + rewrite Ht1. unfold is_u64, UINT32_MAX in *. lia.
    + rewrite (nr_term _ _ _ Hn1) in Hn2. exists (sp_vote s1 i (vq_candidate_id req)). simplify_eq. split_and!; try done.
      * etrans; [done|by apply rtc_once].
      * cbn. lia.
      * cbn. lia.
      * intros _. eexists. split; [apply elem_of_cons; by left|]. cbn. done.
  - simplify_eq. exists s1. split_and!; try done; cbn; lia.
Qed.

(** *** Elections *)

Definition sp_cand s i t : Raft :=
  MkRaft (<[i := t]> (rterm s)) (rlog s) (rcommit s) (MkVote i t i (rlog s i) (late s t) :: votes s)
    ((i, t, rlog s i) :: cands s) (leads s) (llog s) (acks s).

Lemma candidate_rel s i n t : raft_inv ids s → node_rel s i n → i ∈ ids → current_term_ n + 1 = t → is_u64 t →
  node_rel (sp_cand s i t) i (BecomeCandidateLocked n).
Proof.
  intros Hi Hn Hin Ht Hu. unfold BecomeCandidateLocked. rewrite Ht, u64_id by done.
  rewrite (nr_term _ _ _ Hn) in Ht. rewrite (nr_id _ _ _ Hn).
  destruct (PersistMeta_ok n t (Some i) (nr_meta _ _ _ Hn) Hu) as (Hm1 & Hm2 & Hm3); [by intros ? [= <-]|].
  assert (∀ l, leads s !! t ≠ Some (i, l)) as Hnl.
  { intros l Hl. destruct (ri_lead _ _ Hi _ _ _ Hl) as [Hc _ _]. destruct (ri_cand _ _ Hi _ _ _ Hc) as ((? & ?) & _). lia. }
  destruct Hn as [Hid Hpe Hte Hlg Hco Hdi Hme Hvd Hvo Hca Hle Hne Hma Hno Hap Hla].
  split; cbn; rewrite ?fn_lookup_insert; try done.
  - by intros ? [= <-].
  - intros w [->|Hw]%elem_of_cons Hby Hwt; [by left|]. destruct (ri_vote _ _ Hi _ Hw) as (Hle' & _).
    rewrite Hby in Hle'. lia.
  - intros _. split; [apply elem_of_cons; by left|done].
  - intros l Hl. by destruct (Hnl l).
Qed.

Lemma start_election_rel s i n b n' req : raft_inv ids s → node_rel s i n → i ∈ ids → bounded s b →
  b + 1 < UINT32_MAX → StartElection_begin n = (n', Some req) →
  ∃ s', rtc (raft_step ids i) s s' ∧ node_rel s' i n' ∧ bounded s' (b + 1) ∧ vote_req_ok s' req ∧
    vq_candidate_id req = i.
Proof.
  intros Hi Hn Hin Hb Hbb E. unfold StartElection_begin in E.
  destruct (negb (running_ n) || bool_decide (role_ n = LEADER)); [done|]. simplify_eq.
  set (t := rterm s i + 1). pose proof (ri_term _ _ Hi i) as H0. pose proof (proj1 Hb i Hin) as Hti.
  assert (node_rel (sp_cand s i t) i (BecomeCandidateLocked n)) as Hn'.
  { apply candidate_rel; try done; [by rewrite (nr_term _ _ _ Hn)|]. unfold t, is_u64, UINT32_MAX in *. lia. }
  exists (sp_cand s i t). split_and!; [by apply rtc_once, r_cand; unfold t; lia|done| | |].
  - split; [|intros u L HL; pose proof (proj2 Hb u L HL); lia]. intros j Hj. cbn. pose proof (proj1 Hb j Hj).
    destruct (decide (j = i)) as [->|]; rewrite ?fn_lookup_insert, ?fn_lookup_insert_ne by done; unfold t; lia.
  - destruct (node_last _ _ _ Hn') as [E1 E2]. split; cbn [vq_candidate_id vq_term vq_last_log_index vq_last_log_term].
    + by rewrite (nr_id _ _ _ Hn').
    + rewrite E2, E1, (nr_id _ _ _ Hn'), (nr_term _ _ _ Hn'). exists (rlog s i). cbn. rewrite fn_lookup_insert.
      split; [apply elem_of_cons; by left|]. split_and!; [done|done|]. eexists. split; [apply elem_of_cons; by left|]. done.
  - cbn. apply (nr_id _ _ _ Hn').
Qed.

(** *** Leaders append *)

Lemma rlog_bound s i b : raft_inv ids s → bounded s b → 0 ≤ b → Z.of_nat (length (rlog s i)) ≤ b.
Proof.
  intros Hi [_ Hb] H0. destruct (last (rlog s i)) as [e|] eqn:E.
  - destruct (whole_log s (rlog s i) e) as (L & HL & Hp); [apply (ri_log _ _ Hi)|done|].
    apply prefix_length in Hp. specialize (Hb _ _ HL). lia.
  - apply last_None in E. rewrite E. cbn. lia.
Qed.

Lemma append_log_ok (l : RaftLog) t ty payload : log_wf l → log_synced l → Forall entry_ok (entries_ l) →
  Z.of_nat (length (entries_ l)) + 1 < UINT32_MAX → is_u64 t → is_u32 (Z.of_nat (length payload)) →
  ty = RaftEntryType_of_Z (RaftEntryType_to_Z ty) → 0 ≤ RaftEntryType_to_Z ty < 256 →
  ∃ l' e, RaftLog_Append l t ty payload = (l', Z.of_nat (length (entries_ l)) + 1) ∧ re_term e = t ∧
    entries_ l' = entries_ l ++ [e] ∧ persistent l' = persistent l ∧
    log_wf l' ∧ log_synced l' ∧ Forall entry_ok (entries_ l').
Proof.
  intros Hwf Hs HF Hb Ht Hp Hty Hz. destruct (RaftLog_Append_ok l t ty payload Hwf Hs) as (E & Hs' & Hp' & Eix).
  set (e := MkRaftLogEntry (Z.of_nat (length (entries_ l)) + 1) t ty payload) in *.
  assert (entry_ok e) as He.
  { unfold entry_ok, e; cbn. split; [unfold is_u64, UINT32_MAX in *; lia|]. done. }
  destruct (RaftLog_Append l t ty payload) as [l' ix]. cbn [fst snd] in *. exists l', e.
  split; [by rewrite Eix|]. split; [done|]. split; [done|]. split; [done|]. split; [|split; [done|]].
  - destruct Hwf as [Hw _]. split; rewrite E; [|rewrite length_app; cbn; lia].
    apply numbered_app. split; [done|]. apply numbered_cons. split; [done|by intros ??].
  - rewrite E. apply Forall_app. split; [done|by constructor].
Qed.

Definition sp_append s i t L e : Raft :=
  MkRaft (rterm s) (<[i := L ++ [e]]> (rlog s)) (rcommit s) (votes s) (cands s) (leads s)
    (<[t := L ++ [e]]> (llog s)) ((i, t, S (length L)) :: acks s).

Lemma bounded_append s i t L e b : bounded s b → llog s !! t = Some L → bounded (sp_append s i t L e) (b + 1).
Proof.
  intros [H1 H2] HL. split; [intros j Hj; specialize (H1 j Hj); cbn; lia|]. cbn.
  intros u LU [[<- <-]|[_ HLU]]%lookup_insert_Some.
  - specialize (H2 _ _ HL). rewrite length_app. cbn. lia.
  - specialize (H2 _ _ HLU). lia.
Qed.

(** The leader's log is the log of its term. *)
Lemma leader_log s i l : raft_inv ids s → leads s !! rterm s i = Some (i, l) → llog s !! rterm s i = Some (rlog s i).
Proof. intros Hi Hl. destruct (ri_lead _ _ Hi _ _ _ Hl) as [_ _ (rest & HL & _ & Hlog & _)]. by rewrite Hlog. Qed.

Lemma last_term_snoc (L : Log) e : last_term (L ++ [e]) = re_term e.
Proof. unfold last_term. by rewrite last_snoc. Qed.

Lemma propose_rel s i n b ty payload : raft_inv ids s → node_rel s i n → i ∈ ids → bounded s b → 0 ≤ b →
  b + 1 < UINT32_MAX → is_u32 (Z.of_nat (length payload)) →
  ty = RaftEntryType_of_Z (RaftEntryType_to_Z ty) → 0 ≤ RaftEntryType_to_Z ty < 256 →
  ∃ s', rtc (raft_step ids i) s s' ∧ node_rel s' i (Propose_locked n ty payload).1.1 ∧ bounded s' (b + 1).
Proof.
  intros Hi Hn Hin Hb H0 Hbb Hpl Hty Hz. unfold Propose_locked.
  destruct (bool_decide_reflect (role_ n = LEADER)) as [Hr|Hr]; cbn [negb].
  2: { exists s. split_and!; try done. apply (bounded_mono s b); [lia|done]. }
  destruct (nr_lead _ _ _ Hn Hr) as [l Hl]. pose proof (leader_log s i l Hi Hl) as HL.
  destruct (nr_disk _ _ _ Hn) as (Hwf & Hsy & HF). pose proof (rlog_bound s i b Hi Hb H0) as Hlen.
  pose proof (proj1 Hb i Hin) as Hti. pose proof (ri_term _ _ Hi i) as Ht0.
  destruct (append_log_ok (log_ n) (current_term_ n) ty payload) as (lg & e & E & Het & Ees & Ep & Hwf' & Hsy' & HF'); try done.
  { by rewrite (nr_log _ _ _ Hn). }
  { rewrite (nr_log _ _ _ Hn). lia. }
  { rewrite (nr_term _ _ _ Hn). unfold is_u64, UINT32_MAX in *. lia. }
  rewrite E. rewrite (nr_term _ _ _ Hn) in Het. rewrite (nr_log _ _ _ Hn) in Ees.
  exists (sp_append s i (rterm s i) (rlog s i) e). split_and!; [by eapply rtc_once, r_append| |by apply bounded_append].
  assert (node_rel (sp_append s i (rterm s i) (rlog s i) e) i (set_log n lg)) as Hn'.
  { destruct Hn as [Hid Hpe Hte Hlg Hco Hdi Hme Hvd Hvo Hca Hle Hne Hma Hno Hap Hla].
    assert (extends s (sp_append s i (rterm s i) (rlog s i) e)) as He by (by eapply raft_step_extends, r_append).
    split; cbn; rewrite ?fn_lookup_insert; try done.
    - split_and!; [done..|]. by rewrite <- Ees.
    - unfold meta_ok. cbn. by rewrite Ep.
    - intros Hr'. congruence.
    - intros p Hr' Hp. destruct (Hne p Hr' Hp) as (ni & ? & ?). exists ni. split; [done|]. rewrite length_app. cbn. lia.
    - intros p m Hr' Hp Hm. destruct (Hma p m Hr' Hp Hm) as [?|(m' & ? & ?)]; [by left|]. right. exists m'.
      split; [done|]. apply elem_of_cons. by right.
    - intros _ _. by rewrite last_term_snoc.
    - intros x Hx. by eapply applied_ok_mono, Hap. }
  destruct (Z.eqb_spec (Z.of_nat (length (entries_ (log_ n))) + 1) 0); [lia|].
  destruct (IsBatchingEnabled _); cbn [fst]; by destruct Hn'.
Qed.

(** *** Winning an election *)

Definition sp_elect s i t : Raft :=
  MkRaft (rterm s) (rlog s) (rcommit s) (votes s) (cands s) (<[t := (i, rlog s i)]> (leads s))
    (<[t := rlog s i]> (llog s)) (acks s).

Lemma foldl_insert_lookup (x : Z) (ps : list Z) (m : gmap Z Z) p : p ∈ ps →
  foldl (λ m p, <[p := x]> m) m ps !! p = Some x.
Proof.
  revert m. induction ps as [|q ps IH]; intros m Hp; [by apply elem_of_nil in Hp|]. cbn.
  destruct (decide (p ∈ ps)) as [Hin|Hn]; [by apply IH|]. apply elem_of_cons in Hp as [->|]; [|done].
  assert (∀ qs (m' : gmap Z Z), q ∉ qs → foldl (λ m p, <[p := x]> m) m' qs !! q = m' !! q) as Hother.
  { induction qs as [|q' qs IH']; intros m' Hq; [done|]. cbn. apply not_elem_of_cons in Hq as [? ?].
    rewrite IH' by done. by rewrite lookup_insert_ne. }
  rewrite Hother by done. apply lookup_insert_eq.
Qed.

(** A quorum of votes and a leader of the term: it is the same node. *)
Lemma quorum_leader s Q t x y l : raft_inv ids s → quorum ids Q →
  (∀ v, v ∈ Q → ∃ w, w ∈ votes s ∧ v_by w = v ∧ v_term w = t ∧ v_for w = x) → leads s !! t = Some (y, l) → x = y.
Proof.
  intros Hi HQ Hv Hl. destruct (ri_lead _ _ Hi _ _ _ Hl) as [_ (Q' & HQ' & Hv') _].
  destruct (quorum_meet _ Q Q' HQ HQ') as (v & H1 & H2). destruct (Hv v H1) as (w & Hw & Hby & Ht & <-).
  destruct (Hv' v H2) as (L & Hw'). apply (ri_vote_unique _ _ Hi w _ Hw Hw'); done.
Qed.

Lemma elected_rel s i n b Q : raft_inv ids s → node_rel s i n → i ∈ ids → role_ n = CANDIDATE → quorum ids Q →
  (∀ v, v ∈ Q → ∃ w, w ∈ votes s ∧ v_by w = v ∧ v_term w = rterm s i ∧ v_for w = i) →
  bounded s b → 0 ≤ b → b + 1 < UINT32_MAX →
  ∃ s', rtc (raft_step ids i) s s' ∧ node_rel s' i (BecomeLeaderLocked n) ∧ bounded s' (b + 1).
Proof.
  intros Hi Hn Hin Hr HQ Hv Hb H0 Hbb. destruct (nr_cand _ _ _ Hn Hr) as [Hc Hnl].
  assert (leads s !! rterm s i = None) as Hnone.
  { destruct (leads s !! rterm s i) as [[y l]|] eqn:E; [|done]. 
    assert (i = y) as <- by (by apply (quorum_leader s Q (rterm s i) i y l)). by destruct (Hnl l). }
  set (t := rterm s i) in *. set (s1 := sp_elect s i t). set (L := rlog s i).
  assert (raft_step ids i s s1) as Hs1 by (by apply (r_elect ids i s t Q)).
  pose proof (raft_step_inv _ _ _ _ Hi Hs1) as Hi1.
  assert (leads s1 !! t = Some (i, L)) as Hl1 by apply lookup_insert_eq.
  assert (llog s1 !! t = Some L) as HL1 by apply lookup_insert_eq.
  assert (bounded s1 b) as Hb1.
  { split; [apply Hb|]. cbn. intros u LU [[<- <-]|[_ HLU]]%lookup_insert_Some; [by apply rlog_bound|by eapply Hb]. }
  destruct (nr_disk _ _ _ Hn) as (Hwf & Hsy & HF). pose proof (rlog_bound s i b Hi Hb H0) as Hlen.
  pose proof (proj1 Hb i Hin) as Hti. pose proof (ri_term _ _ Hi i) as Ht0.
  destruct (append_log_ok (log_ n) (current_term_ n) NOOP []) as (lg & e & E & Het & Ees & Ep & Hwf' & Hsy' & HF'); try done.
  { by rewrite (nr_log _ _ _ Hn). }
  { rewrite (nr_log _ _ _ Hn). lia. }
  { rewrite (nr_term _ _ _ Hn). unfold is_u64, UINT32_MAX in *. lia. }
  rewrite (nr_term _ _ _ Hn) in Het. rewrite (nr_log _ _ _ Hn) in Ees. fold L in Ees.
  assert (raft_step ids i s1 (sp_append s1 i t L e)) as Hs2 by (by apply (r_append ids i s1 t L L e)).
  exists (sp_append s1 i t L e). split_and!; [by eapply rtc_l, rtc_once| |by apply bounded_append].
  assert (extends s (sp_append s1 i t L e)) as He by (etrans; by eapply raft_step_extends).
  destruct (node_last _ _ _ Hn) as [Eix _].
  destruct Hn as [Hid Hpe Hte Hlg Hco Hdi Hme Hvd Hvo Hca Hle Hne Hma Hno Hap Hla].
  assert (∀ pend, node_rel (sp_append s1 i t L e) i (set_pending (set_log (set_progress (set_role n LEADER (node_id_ n))
    (foldl (λ m p, <[p := u64 (LastIndex (log_ n) + 1)]> m) (next_index_ n) (peer_ids_ n))
    (foldl (λ m p, <[p := 0]> m) (match_index_ n) (peer_ids_ n))) lg) true pend)) as Hall.
  { intros pend. split; cbn; rewrite ?fn_lookup_insert; try done.
    - split_and!; [done..|]. by rewrite <- Ees.
    - unfold meta_ok. cbn. by rewrite Ep.
    - intros w Hw Hby Hwt. destruct (Hvo w Hw Hby Hwt) as [?|[_ [l Hl]]]; [by left|]. unfold t in Hnone. congruence.
    - intros _. by eexists.
    - intros p _ Hp. rewrite Hpe. rewrite foldl_insert_lookup by done. eexists. split; [done|].
      rewrite Eix, u64_id by (unfold is_u64, UINT32_MAX in *; lia). rewrite length_app. unfold L. cbn. lia.
    - intros p m _ Hp. rewrite Hpe, foldl_insert_lookup by done. intros [= <-]. by left.
    - intros _ _. by rewrite last_term_snoc.
    - intros x Hx. by eapply applied_ok_mono, Hap. }
  unfold BecomeLeaderLocked. cbn -[RaftLog_Append]. rewrite E. cbn.
  destruct (negb _ && _); [apply (Hall (pending_proposals_ n ++ _))|apply (Hall (pending_proposals_ n))].
Qed.

(** What one reply does. *)
Lemma reply_cases n term votes resp n' next : StartElection_reply n term votes resp = (n', next) →
  (n' = n ∧ next = GiveUp) ∨
  (n' = BecomeFollower n (vr_term resp) ∧ next = GiveUp ∧ current_term_ n < vr_term resp) ∨
  (current_term_ n = term ∧ role_ n = CANDIDATE ∧ ∃ g : bool, (g = true → vr_vote_granted resp = true) ∧
    (n' = n ∧ next = NextPeer (votes + if g then 1 else 0) ∨
     n' = BecomeLeaderLocked n ∧ next = Elected ∧ MajorityThreshold n ≤ votes + if g then 1 else 0)).
Proof.
  unfold StartElection_reply. destruct (running_ n); cbn [negb]; [|intros [= <- <-]; by left].
  destruct (negb (vr_term resp =? 0) && (current_term_ n <? vr_term resp)) eqn:E1.
  { apply andb_true_iff in E1 as [_ ?%Z.ltb_lt]. intros [= <- <-]. right. by left. }
  destruct (negb (current_term_ n =? term) || negb (bool_decide (role_ n = CANDIDATE))) eqn:E2.
  { intros [= <- <-]. by left. }
  apply orb_false_iff in E2 as [E2%negb_false_iff%Z.eqb_eq E3%negb_false_iff%bool_decide_eq_true].
  intros E. right; right. split; [done|]. split; [done|].
  assert (∀ r : RaftNode * ElectionNext, r = (n', next) → r = (n, NextPeer votes) → ∃ g : bool,
    (g = true → vr_vote_granted resp = true) ∧ (n' = n ∧ next = NextPeer (votes + if g then 1 else 0) ∨
     n' = BecomeLeaderLocked n ∧ next = Elected ∧ MajorityThreshold n ≤ votes + if g then 1 else 0)) as Hskip.
  { intros r -> [= -> ->]. exists false. rewrite Z.add_0_r. split; [done|]. left. done. }
  destruct (negb (vr_term resp =? 0) && (vr_term resp <? term)); [by eapply Hskip|].
  destruct ((vr_term resp =? 0) && negb (vr_vote_granted resp)); [by eapply Hskip|].
  exists (vr_vote_granted resp). split; [done|].
  replace (votes + (if vr_vote_granted resp then 1 else 0)) with (if vr_vote_granted resp then votes + 1 else votes)
    by (destruct (vr_vote_granted resp); lia).
  destruct (Z.leb_spec (MajorityThreshold n) (if vr_vote_granted resp then votes + 1 else votes)).
  - simplify_eq. by right.
  - simplify_eq. by left.
Qed.

Lemma reply_rel s i n b el p todo resp n' next : raft_inv ids s → node_rel s i n → bounded s b → 0 ≤ b →
  b + 1 < UINT32_MAX → election_ok s i el → el_todo el = p :: todo →
  0 ≤ vr_term resp ≤ b → (vr_vote_granted resp = true → ∃ w, w ∈ votes s ∧ v_by w = p ∧
    v_term w = vq_term (el_req el) ∧ v_for w = i) →
  StartElection_reply n (vq_term (el_req el)) (el_votes el) resp = (n', next) →
  ∃ s', rtc (raft_step ids i) s s' ∧ node_rel s' i n' ∧ bounded s' (b + 1) ∧
    ∀ v, next = NextPeer v → election_ok s' i (MkElection (el_req el) v todo).
Proof.
  intros Hi Hn Hb H0 Hbb Hel Htodo Hrt Hg E. pose proof Hel as (Hin & Hid & Hreq & asked & yes & Hpe & HN & Hsub & Hvt & Hyes).
  assert (bounded s (b + 1)) as Hb1 by (apply (bounded_mono s b); [lia|done]).
  assert (∀ (g : bool) v, (g = true → vr_vote_granted resp = true) → v = el_votes el + (if g then 1 else 0) →
    ∃ yes', NoDup yes' ∧ yes' ⊆ asked ++ [p] ∧ v = 1 + Z.of_nat (length yes') ∧
    ∀ q, q ∈ yes' → ∃ w, w ∈ votes s ∧ v_by w = q ∧ v_term w = vq_term (el_req el) ∧ v_for w = i) as Hcount.
  { intros [] v Hgr ->.
    - exists (p :: yes). split_and!.
      + apply NoDup_cons. split; [|done]. intros Hp%Hsub.
        assert (NoDup (peers_of i)) as HNp by (by apply NoDup_filter). rewrite Hpe, Htodo in HNp.
        apply NoDup_app in HNp as (_ & Hdis & _). apply (Hdis p Hp), elem_of_cons. by left.
      + set_solver.
      + cbn. lia.
      + intros q [->|Hq]%elem_of_cons; [by apply Hg, Hgr|by apply Hyes].
    - exists yes. split_and!; [done|set_solver|lia|done]. }
  assert (∀ (g : bool) v, (g = true → vr_vote_granted resp = true) → v = el_votes el + (if g then 1 else 0) →
    election_ok s i (MkElection (el_req el) v todo)) as Hnext.
  { intros g v Hgr Hv. destruct (Hcount g v Hgr Hv) as (yes' & ? & ? & ? & ?). split_and!; [done..|].
    exists (asked ++ [p]), yes'. cbn. rewrite <- app_assoc, Hpe, Htodo. done. }
  destruct (reply_cases _ _ _ _ _ _ E) as [(-> & ->)|[(-> & -> & Hlt)|(Et & Hr & g & Hgr & [(-> & ->)|(-> & -> & Hmaj)])]].
  - by exists s.
  - rewrite (nr_term _ _ _ Hn) in Hlt. exists (sp_term s i (vr_term resp)).
    split_and!; [by apply rtc_once, r_term| | |done].
    + apply become_follower_rel; try done. unfold is_u64, UINT32_MAX in *. lia.
    + apply bounded_term; [done|lia].
  - exists s. split_and!; try done. intros v [= <-]. by apply (Hnext g).
  - destruct (Hcount g _ Hgr eq_refl) as (yes' & HN' & Hsub' & Hlen & Hyes').
    rewrite (nr_term _ _ _ Hn) in Et. rewrite <- Et in *.
    assert (∀ q, q ∈ yes' → q ∈ peers_of i) as Hpeers.
    { intros q Hq%Hsub'. rewrite Hpe, Htodo. set_solver. }
    destruct Hreq as (_ & _ & _ & _ & _ & Hself). rewrite <- Et, Hid in Hself.
    destruct (elected_rel s i n b (i :: yes')) as (s' & Hs' & Hn' & Hb'); try done.
    + eapply majority_quorum; try done.
      * apply NoDup_cons. split; [|done]. intros Hq%Hpeers. apply peers_of_spec in Hq. tauto.
      * intros q [->|Hq%Hpeers]%elem_of_cons; [done|]. by apply peers_of_spec in Hq as [? _].
      * cbn. lia.
    + intros q [->|Hq]%elem_of_cons; [done|by apply Hyes'].
    + by exists s'.
Qed.

(** *** Followers accept entries *)

Lemma merge_leader s (log M : Log) (k : nat) : raft_inv ids s → log_matches s log → log_matches s M →
  (k ≤ length M)%nat → take k log = take k M →
  (RaftLog.merge k log (drop k M) = log ∧ M `prefix_of` log) ∨
  (RaftLog.merge k log (drop k M) = M ∧ ¬ M `prefix_of` log).
Proof.
  intros Hi Hl HM. remember (drop k M) as req eqn:Er. revert k Er.
  induction req as [|e req IH]; intros k Er Hk Et; cbn [RaftLog.merge].
  { left. split; [done|]. assert (length M ≤ k)%nat by (apply (f_equal length) in Er; rewrite length_drop in Er; cbn in Er; lia).
    rewrite (firstn_all2 M) in Et by lia. rewrite <- Et. apply take_prefix. }
  assert (M !! k = Some e) as HMk.
  { rewrite <- (Nat.add_0_r k), <- lookup_drop, <- Er. done. }
  assert (take k log ++ e :: req = M) as Ecut by (rewrite Er, Et; apply take_drop).
  destruct (log !! k) as [cur|] eqn:Ec.
  - destruct (Z.eqb_spec (re_term cur) (re_term e)) as [Eterm|Hne].
    + apply IH.
      * rewrite (drop_S _ _ _ HMk) in Er. by injection Er.
      * apply lookup_lt_Some in HMk. lia.
      * by eapply log_matching.
    + right. split; [done|]. intros Hp. eapply prefix_lookup in HMk; [|done]. congruence.
  - right. split; [done|]. intros Hp. eapply prefix_lookup in HMk; [|done]. congruence.
Qed.

Lemma numbered_drop (M : Log) (k : nat) : numbered_from 0 M → (k ≤ length M)%nat → numbered_from k (drop k M).
Proof.
  intros Hn Hk. rewrite <- (take_drop k M), numbered_app in Hn. destruct Hn as [_ Hn].
  by rewrite length_take, Nat.min_l in Hn by lia.
Qed.

Definition sp_accept s i t L' (m : nat) : Raft :=
  MkRaft (rterm s) (<[i := L']> (rlog s)) (rcommit s) (votes s) (cands s) (leads s) (llog s) ((i, t, m) :: acks s).

Lemma accept_rel s i n lg x l L M : raft_inv ids s → node_rel s i n → role_ n = FOLLOWER →
  leads s !! rterm s i = Some (x, l) → x ≠ i → llog s !! rterm s i = Some L → M `prefix_of` L →
  (entries_ lg = rlog s i ∧ M `prefix_of` rlog s i ∨ entries_ lg = M ∧ ¬ M `prefix_of` rlog s i) →
  log_wf lg → log_synced lg → Forall entry_ok (entries_ lg) → persistent lg = persistent (log_ n) →
  raft_step ids i s (sp_accept s i (rterm s i) (entries_ lg) (length M)) ∧
  node_rel (sp_accept s i (rterm s i) (entries_ lg) (length M)) i (set_log n lg).
Proof.
  intros Hi Hn Hr Hl Hci HL HM Hlg Hwf Hsy HF Hp.
  assert (raft_step ids i s (sp_accept s i (rterm s i) (entries_ lg) (length M))) as Hst.
  { eapply (r_accept ids i s (rterm s i) x l L M); try done. destruct Hlg as [[-> ?]|[-> ?]]; [by left|by right]. }
  split; [done|]. pose proof (raft_step_extends _ _ _ _ Hi Hst) as He.
  destruct Hn as [Hid Hpe Hte Hlo Hco Hdi Hme Hvd Hvo Hca Hle Hne Hma Hno Hap Hla].
  split; cbn; rewrite ?fn_lookup_insert; try done; try congruence.
  - unfold meta_ok. cbn. by rewrite Hp.
  - intros y Hy. by eapply applied_ok_mono, Hap.
Qed.

Definition sp_commit s i (k : nat) : Raft :=
  MkRaft (rterm s) (rlog s) (<[i := k]> (rcommit s)) (votes s) (cands s) (leads s) (llog s) (acks s).

Lemma commit_rel s i n (k : nat) z : raft_inv ids s → node_rel s i n → certified ids s (rterm s i) k (rlog s i) →
  z = Z.of_nat k → raft_step ids i s (sp_commit s i k) ∧ node_rel (sp_commit s i k) i (set_commit n z).
Proof.
  intros Hi Hn Hc ->. split; [by apply r_commit|].
  destruct Hn as [Hid Hpe Hte Hlo Hco Hdi Hme Hvd Hvo Hca Hle Hne Hma Hno Hap Hla].
  split; cbn; rewrite ?fn_lookup_insert; done.
Qed.

Lemma follower_rel s i n x : node_rel s i n → node_rel s i (set_role n FOLLOWER x).
Proof. intros []. by split. Qed.

(** [TermAt] of a node. *)
Lemma node_TermAt s i n k : node_rel s i n → 0 < k →
  TermAt (log_ n) k = default 0 (re_term <$> rlog s i !! Z.to_nat (k - 1)).
Proof.
  intros Hn Hk. rewrite TermAt_wf by apply (nr_disk _ _ _ Hn). rewrite (nr_log _ _ _ Hn).
  destruct (Z.leb_spec 1 k); [done|lia].
Qed.

(** The check of the previous entry: the log agrees with the leader's up to it. *)
Lemma prev_matches s i n (M : Log) prev term : raft_inv ids s → node_rel s i n → log_matches s M →
  0 ≤ prev ≤ Z.of_nat (length M) →
  (0 < prev → term = default 0 (re_term <$> M !! Z.to_nat (prev - 1))) →
  ((0 <? prev) && ((LastIndex (log_ n) <? prev) || negb (TermAt (log_ n) prev =? term)) = false) →
  take (Z.to_nat prev) (rlog s i) = take (Z.to_nat prev) M.
Proof.
  intros Hi Hn HM Hp Ht Hck. destruct (Z.ltb_spec 0 prev) as [H0|H0]; [|by replace prev with 0 by lia].
  cbn [andb] in Hck. apply orb_false_iff in Hck as [Hl%Z.ltb_ge Ht'%negb_false_iff%Z.eqb_eq].
  destruct (node_last _ _ _ Hn) as [El _]. rewrite El in Hl. rewrite (node_TermAt s i), Ht in Ht' by done.
  replace (Z.to_nat prev) with (S (Z.to_nat (prev - 1))) by lia.
  destruct (lookup_lt_is_Some_2 (rlog s i) (Z.to_nat (prev - 1))) as [e He]; [lia|].
  destruct (lookup_lt_is_Some_2 M (Z.to_nat (prev - 1))) as [e' He']; [lia|].
  rewrite He, He' in Ht'. cbn in Ht'. eapply (log_matching s); [done..|apply (ri_log _ _ Hi)|done|done|done|done].
Qed.

(** The log of a follower after the entries of a request. *)
Lemma append_entries_log s i n (M : Log) (k : nat) b : raft_inv ids s → node_rel s i n → log_matches s M →
  (k ≤ length M)%nat → take k (rlog s i) = take k M → numbered_from 0 M → Forall entry_ok M →
  Z.of_nat (length M) ≤ b → b < UINT32_MAX →
  let lg := if bool_decide (drop k M = []) then log_ n else RaftLog_AppendEntries (log_ n) (drop k M) in
  (entries_ lg = rlog s i ∧ M `prefix_of` rlog s i ∨ entries_ lg = M ∧ ¬ M `prefix_of` rlog s i) ∧
  log_wf lg ∧ log_synced lg ∧ Forall entry_ok (entries_ lg) ∧ persistent lg = persistent (log_ n).
Proof.
  intros Hi Hn HM Hk Et Hnum HF Hlen Hb. destruct (nr_disk _ _ _ Hn) as (Hwf & Hsy & HFl).
  pose proof (merge_leader s (rlog s i) M k Hi (proj1 (ri_log _ _ Hi i)) HM Hk Et) as Hm.
  destruct (bool_decide_reflect (drop k M = [])) as [Ed|Ed]; cbn zeta.
  - rewrite Ed in Hm. cbn [RaftLog.merge] in Hm. split; [|by rewrite (nr_log _ _ _ Hn)].
    rewrite (nr_log _ _ _ Hn). destruct Hm as [[_ ?]|[E ?]]; [by left|]. rewrite E in *. by right.
  - assert (k ≤ length (entries_ (log_ n)))%nat as Hk'.
    { rewrite (nr_log _ _ _ Hn). apply (f_equal length) in Et. rewrite !length_take in Et. lia. }
    assert (Z.of_nat (k + length (drop k M)) < UINT32_MAX) by (rewrite length_drop; lia).
    pose proof (numbered_drop M k Hnum Hk).
    destruct (AppendEntries_merge (log_ n) k (drop k M)) as (E & Hsy' & Hp'); try done.
    rewrite (nr_log _ _ _ Hn) in E. rewrite E. split.
    { destruct Hm as [[-> ?]|[-> ?]]; [by left|by right]. }
    split; [by eapply AppendEntries_wf|]. split; [done|]. split; [|done].
    apply merge_Forall; [done|by apply Forall_drop].
Qed.

Lemma handle_append_rel s i n req b n' resp ap : raft_inv ids s → node_rel s i n → i ∈ ids → i ≠ aq_leader_id req →
  aq_leader_id req ∈ ids → append_ok s req → bounded s b → 0 ≤ b < UINT32_MAX →
  HandleAppendEntries_locked n req = (n', resp, ap) →
  ∃ s', rtc (raft_step ids i) s s' ∧ node_rel s' i n' ∧ bounded s' b ∧ 0 ≤ ar_term resp ≤ b ∧
    (ar_success resp = true → ∃ m, ar_match_index resp = Z.of_nat m ∧ (i, aq_term req, m) ∈ acks s').
Proof.
  intros Hi Hn Hin Hne Hlin (l & L & M & Hl & HL & HM & Hprev & Hpt & Hent & Hlc & Hcert & Hnum & HF) Hb Hbb E.
  pose proof (ri_term _ _ Hi i) as H0. pose proof (proj1 Hb i Hin) as Hti.
  destruct (ri_lead _ _ Hi _ _ _ Hl) as [Hc _ _]. destruct (ri_cand _ _ Hi _ _ _ Hc) as ((Ht0 & Htc) & _).
  pose proof (proj1 Hb _ Hlin) as Htl. unfold HandleAppendEntries_locked in E. rewrite (nr_term _ _ _ Hn) in E.
  destruct (Z.ltb_spec (aq_term req) (rterm s i)).
  { simplify_eq. exists s. split_and!; try done. }
  set (n1 := if rterm s i <? aq_term req then BecomeFollower n (aq_term req) else set_role n FOLLOWER (leader_id_ n)) in E.
  assert (∃ s1, rtc (raft_step ids i) s s1 ∧ node_rel s1 i n1 ∧ role_ n1 = FOLLOWER ∧ bounded s1 b ∧ raft_inv ids s1 ∧
    extends s s1 ∧ rterm s1 i = aq_term req) as (s1 & Hs1 & Hn1 & Hr1 & Hb1 & Hi1 & He1 & Ht1).
  { unfold n1. destruct (Z.ltb_spec (rterm s i) (aq_term req)) as [Hlt|Hge].
    - assert (raft_step ids i s (sp_term s i (aq_term req))) as Hst by (by apply r_term).
      exists (sp_term s i (aq_term req)). split_and!; try done.
      + by apply rtc_once.
      + apply become_follower_rel; try done. unfold is_u64, UINT32_MAX in *. lia.
      + apply bounded_term; [done|lia].
      + by eapply raft_step_inv.
      + by eapply raft_step_extends.
      + cbn. by rewrite fn_lookup_insert.
    - exists s. split_and!; try done; [by apply follower_rel|lia]. }
  rewrite Hr1 in E. pose proof (follower_rel s1 i n1 (aq_leader_id req) Hn1) as Hn2.
  set (n2 := set_role n1 FOLLOWER (aq_leader_id req)) in *.
  destruct (ex_llog _ _ He1 _ _ HL) as (L1 & HL1 & HpL). assert (M `prefix_of` L1) as HM1 by (by etrans).
  pose proof (ex_leads _ _ He1 _ _ Hl) as Hl1. rewrite <- Ht1 in HL1, Hl1.
  assert (log_matches s1 M) as HmM by (eapply log_matches_prefix; [exact HM1|by eapply leader_log_matches]).
  pose proof (proj2 Hb1 _ _ HL1) as HlenL. pose proof (prefix_length _ _ HM1) as HlenM.
  match type of E with (if ?g then _ else _) = _ => destruct g eqn:Hck end.
  { simplify_eq. exists s1. cbn [ar_term ar_success]. rewrite (nr_term _ _ _ Hn2), Ht1. split_and!; try done; lia. }
  pose proof (prev_matches s1 i n2 M _ _ Hi1 Hn2 HmM Hprev Hpt Hck) as Etake.
  destruct (append_entries_log s1 i n2 M (Z.to_nat (aq_prev_log_index req)) b) as (Hlg & Hwf & Hsy & HFl & Hper); try done; [lia..|].
  rewrite <- Hent in *. set (lg := if bool_decide (aq_entries req = []) then log_ n2 else _) in *.
  destruct (accept_rel s1 i n2 lg (aq_leader_id req) l L1 M) as [Hs3 Hn3]; try done.
  set (s3 := sp_accept s1 i (rterm s1 i) (entries_ lg) (length M)) in *.
  pose proof (raft_step_inv _ _ _ _ Hi1 Hs3) as Hi3. pose proof (raft_step_extends _ _ _ _ Hi1 Hs3) as He3.
  assert ((if bool_decide (aq_entries req = []) then n2 else set_log n2 (RaftLog_AppendEntries (log_ n2) (aq_entries req)))
    = set_log n2 lg) as E3 by (unfold lg; case_bool_decide; [by destruct n2|done]).
  rewrite E3 in E. set (n3 := set_log n2 lg) in *. clear E3.
  assert (M `prefix_of` rlog s3 i) as HMr by (cbn; rewrite fn_lookup_insert; destruct Hlg as [[-> ?]|[-> ?]]; done).
  destruct (node_last _ _ _ Hn3) as [E3 _]. rewrite E3 in E. pose proof (prefix_length _ _ HMr) as Hlen3.
  rewrite Z.min_l in E by lia.
  assert (rterm s3 i = aq_term req) as Ht3 by done.
  assert (certified ids s3 (rterm s3 i) (Z.to_nat (Z.max (commit_index_ n3) (aq_leader_commit req))) (rlog s3 i)) as Hcm.
  { destruct (Z.max_spec (commit_index_ n3) (aq_leader_commit req)) as [[_ ->]|[_ ->]].
    - eapply certified_prefix; [exact HMr|]. rewrite Ht3. eapply certified_mono; [|reflexivity|exact Hcert]. by etrans.
    - rewrite (nr_commit _ _ _ Hn3), Nat2Z.id. apply (ri_commit _ _ Hi3). }
  destruct (commit_rel s3 i n3 _ (Z.max (commit_index_ n3) (aq_leader_commit req)) Hi3 Hn3 Hcm) as [Hs4 Hn4]; [lia|].
  simplify_eq. eexists. split_and!.
  - etrans; [exact Hs1|]. eapply rtc_l; [exact Hs3|]. by apply rtc_once.
  - exact Hn4.
  - exact Hb1.
  - cbn [ar_term]. rewrite (nr_term _ _ _ Hn4). cbn. lia.
  - cbn [ar_term]. rewrite (nr_term _ _ _ Hn4). cbn. lia.
  - intros _. exists (length M). split.
    + cbn [ar_match_index]. rewrite Hent, length_drop, u64_id by (unfold is_u64, UINT32_MAX in *; lia). lia.
    + cbn. rewrite Ht1. apply elem_of_cons. by left.
Qed.

(** *** Committing *)

Lemma find_commit_spec n fuel z k : find_commit n fuel z = Some k →
  z - Z.of_nat fuel < k ≤ z ∧ TermAt (log_ n) k = current_term_ n ∧ MajorityThreshold n ≤ commit_votes n k.
Proof.
  revert z. induction fuel as [|fuel IH]; intros z; cbn [find_commit]; [done|].
  destruct (Z.eqb_spec (TermAt (log_ n) z) (current_term_ n)) as [E|E]; cbn [negb].
  - destruct (Z.leb_spec (MajorityThreshold n) (commit_votes n z)); [intros [= <-]; split_and!; [lia..|done|done]|].
    intros (? & ? & ?)%IH. split_and!; [lia..|done|done].
  - intros (? & ? & ?)%IH. split_and!; [lia..|done|done].
Qed.

(** A leader holds all of its log. *)
Lemma leader_ack s i n l : raft_inv ids s → node_rel s i n → leads s !! rterm s i = Some (i, l) →
  (i, rterm s i, length (rlog s i)) ∈ acks s.
Proof.
  intros Hi Hn Hl. pose proof (nr_noop _ _ _ Hn _ Hl) as Hnoop.
  destruct (ri_lead _ _ Hi _ _ _ Hl) as [Hc _ (rest & HL & Hrest & Hlog & Hack)].
  rewrite Hlog in * by done. apply Hack. intros ->. rewrite app_nil_r in Hnoop.
  destruct (ri_cand _ _ Hi _ _ _ Hc) as ((H0 & _) & _ & Hlt & _). unfold last_term in Hnoop.
  destruct (last l) as [e|] eqn:E; cbn in Hnoop; [|lia]. apply last_Some in E as [l2 ->].
  specialize (Hlt e). rewrite Hnoop in Hlt. assert (rterm s i < rterm s i); [|lia]. apply Hlt. set_solver.
Qed.

(** An index a quorum has, with an entry of the leader's term, is committed. *)
Lemma commit_votes_chosen s i n k : raft_inv ids s → node_rel s i n → i ∈ ids → role_ n = LEADER → 0 < k →
  TermAt (log_ n) k = current_term_ n → MajorityThreshold n ≤ commit_votes n k →
  certified ids s (rterm s i) (Z.to_nat k) (rlog s i).
Proof.
  intros Hi Hn Hin Hr Hk Ht Hm. destruct (nr_lead _ _ _ Hn Hr) as [l Hl]. pose proof (leader_log s i l Hi Hl) as HL.
  rewrite (node_TermAt s i), (nr_term _ _ _ Hn) in Ht by done.
  destruct (ri_lead _ _ Hi _ _ _ Hl) as [Hc _ _]. destruct (ri_cand _ _ Hi _ _ _ Hc) as ((H0 & _) & _).
  destruct (rlog s i !! Z.to_nat (k - 1)) as [e|] eqn:Ee; cbn in Ht; [|lia].
  right. exists (rterm s i), (Z.to_nat (k - 1)), (rlog s i). split; [|split_and!; [done..|lia|done]].
  exists (rlog s i), e, (i :: filter (λ p, peer_has n k p = true) (peer_ids_ n)). split_and!; [done..| |].
  - eapply majority_quorum; try done.
    + rewrite (nr_peers _ _ _ Hn). apply NoDup_cons. split; [|by apply NoDup_filter, NoDup_filter].
      rewrite list_elem_of_filter, peers_of_spec. tauto.
    + rewrite (nr_peers _ _ _ Hn). intros q [->|Hq]%elem_of_cons; [done|].
      apply list_elem_of_filter in Hq as [_ Hq]. by apply peers_of_spec in Hq as [? _].
    + unfold commit_votes in Hm. cbn [length]. lia.
  - intros v [->|Hv]%elem_of_cons.
    + exists (length (rlog s i)). split; [by eapply lookup_lt_Some|]. by eapply leader_ack.
    + apply list_elem_of_filter in Hv as [Hh Hv]. rewrite (nr_peers _ _ _ Hn) in Hv. unfold peer_has in Hh.
      destruct (match_index_ n !! v) as [m|] eqn:Em; [|done]. apply Z.leb_le in Hh.
      destruct (nr_match _ _ _ Hn v m Hr Hv Em) as [->|(m' & Hle & Ha)]; [lia|]. exists m'. split; [lia|done].
Qed.

Lemma advance_rel s i n : raft_inv ids s → node_rel s i n → i ∈ ids →
  ∃ s', rtc (raft_step ids i) s s' ∧ node_rel s' i (AdvanceCommitIndexLocked n) ∧ (∀ b, bounded s b → bounded s' b).
Proof.
  intros Hi Hn Hin. unfold AdvanceCommitIndexLocked.
  destruct (bool_decide_reflect (role_ n = LEADER)) as [Hr|]; cbn [negb]; [|by exists s].
  destruct (Z.leb_spec (LastIndex (log_ n)) (commit_index_ n)); [by exists s|].
  destruct (find_commit n _ _) as [k|] eqn:E; [|by exists s]. apply find_commit_spec in E as (Hk & Ht & Hm).
  pose proof (nr_commit _ _ _ Hn). assert (0 < k) by lia.
  pose proof (commit_votes_chosen s i n k Hi Hn Hin Hr ltac:(lia) Ht Hm) as Hcert.
  destruct (commit_rel s i n (Z.to_nat k) k Hi Hn Hcert) as [Hst Hn']; [lia|].
  exists (sp_commit s i (Z.to_nat k)). split_and!; [by apply rtc_once|done|done].
Qed.

Lemma progress_rel s i n nx mt : node_rel s i n →
  (role_ n = LEADER → ∀ p, p ∈ peers_of i → ∃ ni, nx !! p = Some ni ∧ 1 ≤ ni ≤ Z.of_nat (length (rlog s i)) + 1) →
  (role_ n = LEADER → ∀ p m, p ∈ peers_of i → mt !! p = Some m →
    m = 0 ∨ ∃ m', m ≤ Z.of_nat m' ∧ (p, rterm s i, m') ∈ acks s) →
  node_rel s i (set_progress n nx mt).
Proof. intros [] H1 H2. split; cbn; try done; auto. Qed.

Lemma process_rel s i n b p resp sent_term : raft_inv ids s → node_rel s i n → i ∈ ids → p ∈ peers_of i →
  bounded s b → 0 ≤ b < UINT32_MAX → 0 ≤ ar_term resp ≤ b →
  (ar_success resp = true → ∃ m, ar_match_index resp = Z.of_nat m ∧ (p, sent_term, m) ∈ acks s) →
  ∃ s', rtc (raft_step ids i) s s' ∧ node_rel s' i (ProcessAppendEntriesResponse_locked n p resp sent_term).1 ∧
    bounded s' b.
Proof.
  intros Hi Hn Hin Hp Hb Hbb Hrt Hs. unfold ProcessAppendEntriesResponse_locked.
  destruct (running_ n); cbn [negb]; [|by exists s].
  destruct (negb (ar_term resp =? 0) && (current_term_ n <? ar_term resp)) eqn:E1.
  { apply andb_true_iff in E1 as [_ Hlt%Z.ltb_lt]. rewrite (nr_term _ _ _ Hn) in Hlt.
    exists (sp_term s i (ar_term resp)). split_and!; [by apply rtc_once, r_term| |].
    - apply become_follower_rel; try done. unfold is_u64, UINT32_MAX in *. lia.
    - apply bounded_term; [done|lia]. }
  destruct (Z.eqb_spec sent_term (current_term_ n)) as [->|]; cbn [negb orb]; [|by exists s].
  destruct (bool_decide_reflect (role_ n = LEADER)) as [Hr|]; cbn [negb]; [|by exists s].
  destruct (nr_next _ _ _ Hn p Hr Hp) as (ni & Eni & Hni). rewrite Eni. change (default 0 (Some ni)) with ni.
  pose proof (rlog_bound s i b Hi Hb ltac:(lia)) as Hlen.
  destruct (ar_success resp); cbn [negb fst].
  - destruct (Hs eq_refl) as (m & Em & Ha). rewrite (nr_term _ _ _ Hn) in Ha. rewrite Em.
    destruct (nr_lead _ _ _ Hn Hr) as [l Hl]. pose proof (leader_log s i l Hi Hl) as HL.
    destruct (ri_ack _ _ Hi _ _ _ Ha) as [_ (LT & HLT & Hm & _)]. rewrite HL in HLT. injection HLT as <-.
    match goal with |- context [AdvanceCommitIndexLocked ?x] => assert (node_rel s i x) as Hn' end.
    { apply progress_rel; [done| |].
      - intros _ q Hq. destruct (decide (q = p)) as [->|Hqp].
        + rewrite lookup_insert_eq. eexists. split; [done|].
          rewrite u64_id by (unfold is_u64, UINT32_MAX in *; lia). lia.
        + rewrite lookup_insert_ne by done. by apply (nr_next _ _ _ Hn).
      - intros _ q mq Hq [[<- <-]|[Hne Hmq]]%lookup_insert_Some; [|by apply (nr_match _ _ _ Hn q mq Hr)].
        destruct (match_index_ n !! p) as [mp|] eqn:Emp; cbn [default from_option id].
        + destruct (Z.max_spec mp (Z.of_nat m)) as [[_ ->]|[_ ->]]; [right; by exists m|].
          by apply (nr_match _ _ _ Hn p mp Hr).
        + right. exists m. split; [lia|done]. }
    destruct (advance_rel s i _ Hi Hn' Hin) as (s' & Hst & Hn2 & Hb2). exists s'. split_and!; [done|done|by apply Hb2].
  - exists s. split_and!; [done| |done]. apply progress_rel; [done| |].
    + intros _ q Hq. destruct (decide (q = p)) as [->|Hqp].
      * rewrite lookup_insert_eq. eexists. split; [done|].
        rewrite u64_id by (unfold is_u64, UINT32_MAX in *; lia). lia.
      * rewrite lookup_insert_ne by done. by apply (nr_next _ _ _ Hn).
    + intros _ q mq Hq Hmq. by apply (nr_match _ _ _ Hn q mq Hr).
Qed.

(** *** Applying, sending, stepping down, restarting *)

Lemma apply_one_rel s i n e : raft_inv ids s → node_rel s i n → last_applied_ n < commit_index_ n →
  RaftLog_Get (log_ n) (last_applied_ n + 1) = Some e →
  node_rel s i (set_applied n (last_applied_ n + 1) (applied n ++ [e])).
Proof.
  intros Hi Hn Hlt Hg. destruct (nr_seq _ _ _ Hn) as [Hsq Hsl]. destruct (nr_disk _ _ _ Hn) as (Hwf & _ & _).
  rewrite Get_wf in Hg by done. destruct (Z.leb_spec 1 (last_applied_ n + 1)); [|lia].
  pose proof (proj1 Hwf _ _ Hg) as Eix. rewrite (nr_log _ _ _ Hn) in Hg. rewrite (nr_commit _ _ _ Hn) in Hlt.
  assert (applied_ok s e) as Hok.
  { exists (rterm s i), (rcommit s i), (rlog s i). split; [lia|]. split; [apply (ri_commit _ _ Hi)|].
    split; [lia|]. by replace (Z.to_nat (re_index e - 1)) with (Z.to_nat (last_applied_ n + 1 - 1)) by lia. }
  destruct Hn. split; cbn; try done.
  - intros x [Hx| ->%list_elem_of_singleton]%elem_of_app; auto.
  - rewrite length_app. cbn. split; [|lia]. apply numbered_app. split; [done|].
    apply numbered_cons. split; [lia|by intros ??].
Qed.

Lemma apply_rel s i n : raft_inv ids s → node_rel s i n → node_rel s i (ApplyCommitted n).
Proof.
  intros Hi Hn. unfold ApplyCommitted. generalize (Z.to_nat (commit_index_ n - last_applied_ n)). intros fuel.
  revert n Hn. induction fuel as [|fuel IH]; intros n Hn; cbn [apply_loop]; [done|].
  destruct (Z.ltb_spec (last_applied_ n) (commit_index_ n)) as [Hlt|]; [|done].
  destruct (RaftLog_Get _ _) as [e|] eqn:E; [|done]. by apply IH, apply_one_rel.
Qed.

Lemma omap_range (L : Log) (k : nat) :
  omap (λ i, L !! Z.to_nat (i - 1)) (seqZ (Z.of_nat k + 1) (Z.of_nat (length L) - Z.of_nat k)) = drop k L.
Proof.
  remember (length L - k)%nat as d eqn:Ed. revert k Ed. induction d as [|d IH]; intros k Ed.
  - rewrite seqZ_nil by lia. by rewrite drop_ge by lia.
  - rewrite seqZ_cons by lia. destruct (lookup_lt_is_Some_2 L k) as [e He]; [lia|]. rewrite (drop_S _ _ _ He). cbn.
    replace (Z.to_nat (Z.of_nat k + 1 - 1)) with k by lia. rewrite He. f_equal.
    rewrite <- (IH (S k)) by lia. do 2 f_equal; lia.
Qed.

Lemma node_GetRange s i n ni : node_rel s i n → 1 ≤ ni ≤ Z.of_nat (length (rlog s i)) + 1 →
  (if ni <=? LastIndex (log_ n) then GetRange (log_ n) ni (LastIndex (log_ n)) else []) =
  drop (Z.to_nat (ni - 1)) (rlog s i).
Proof.
  intros Hn Hni. destruct (node_last _ _ _ Hn) as [El _]. destruct (nr_disk _ _ _ Hn) as (Hwf & _ & _). rewrite El.
  destruct (Z.leb_spec ni (Z.of_nat (length (rlog s i)))) as [Hle|Hgt].
  2: { by rewrite drop_ge by lia. }
  unfold GetRange. rewrite El. destruct (entries_ (log_ n)) as [|front es] eqn:Ees.
  { rewrite (nr_log _ _ _ Hn) in Ees. rewrite Ees in Hle. cbn in Hle. lia. }
  rewrite (first_wf (log_ n) front es) by done. destruct (Z.eqb_spec ni 0); [lia|].
  destruct (Z.ltb_spec (Z.of_nat (length (rlog s i))) ni); [lia|]. cbn [orb]. rewrite <- Ees, (nr_log _ _ _ Hn).
  rewrite Z.max_l, Z.min_l by lia. rewrite <- omap_range. do 2 f_equal; lia.
Qed.

Lemma send_ok s i n b p req : raft_inv ids s → node_rel s i n → i ∈ ids → bounded s b → 0 ≤ b < UINT32_MAX →
  (p, req) ∈ SendAppendEntries_begin n →
  p ∈ ids ∧ p ≠ aq_leader_id req ∧ aq_leader_id req ∈ ids ∧ append_ok s req.
Proof.
  intros Hi Hn Hin Hb Hbb. unfold SendAppendEntries_begin.
  destruct (bool_decide_reflect (role_ n = LEADER)) as [Hr|]; [|by intros ?%elem_of_nil].
  destruct (running_ n); cbn [negb orb]; [|by intros ?%elem_of_nil].
  intros (q & [= -> ->] & Hq)%list_elem_of_fmap. rewrite (nr_peers _ _ _ Hn) in Hq. pose proof Hq as [Hq1 Hq2]%peers_of_spec.
  destruct (nr_next _ _ _ Hn q Hr Hq) as (ni & Eni & Hni). destruct (nr_lead _ _ _ Hn Hr) as [l Hl].
  pose proof (rlog_bound s i b Hi Hb ltac:(lia)) as Hlen. destruct (nr_disk _ _ _ Hn) as ((Hnum & _) & _ & HF).
  unfold append_job. rewrite Eni. change (default 0 (Some ni)) with ni. cbn [aq_leader_id]. rewrite (nr_id _ _ _ Hn).
  split_and!; [done..|]. rewrite (node_GetRange s i n ni Hn Hni).
  rewrite u64_id by (unfold is_u64, UINT32_MAX in *; lia). exists l, (rlog s i), (rlog s i).
  cbn [aq_term aq_leader_id aq_prev_log_index aq_prev_log_term aq_entries aq_leader_commit].
  rewrite (nr_term _ _ _ Hn), (nr_commit _ _ _ Hn), Nat2Z.id.
  pose proof (ri_commit _ _ Hi i) as Hc. pose proof (certified_length _ _ _ _ _ Hc).
  split; [done|]. split; [by eapply leader_log|]. split; [done|]. split; [lia|].
  split; [|split; [done|]; split; [lia|]; split; [done|]; split; [by rewrite <- (nr_log _ _ _ Hn)|done]].
  intros Hp. destruct (Z.eqb_spec (ni - 1) 0); [lia|]. by apply node_TermAt.
Qed.

Lemma step_down_rel s i n b t k o : raft_inv ids s → node_rel s i n → i ∈ ids → bounded s b → b < UINT32_MAX →
  node_rel s i (SendAppendEntries_end n t k o).
Proof.
  intros Hi Hn Hin Hb Hbb. unfold SendAppendEntries_end. destruct (running_ n); cbn [negb orb]; [|done].
  destruct (bool_decide_reflect (role_ n = LEADER)) as [Hr|]; cbn [negb orb]; [|done].
  destruct (negb _); [done|]. destruct (_ <=? _); [done|]. destruct o; [|done].
  destruct (nr_lead _ _ _ Hn Hr) as [l Hl]. pose proof (proj1 Hb i Hin). pose proof (ri_term _ _ Hi i).
  destruct (PersistMeta_ok n (current_term_ n) None (nr_meta _ _ _ Hn)) as (Hm1 & Hm2 & Hm3); [|done|].
  { rewrite (nr_term _ _ _ Hn). unfold is_u64, UINT32_MAX in *. lia. }
  destruct Hn. split; cbn; try done. intros w Hw Hby Hwt. right. split; [done|by exists l].
Qed.

Lemma restart_rel s i n k : raft_inv ids s → node_rel s i n → persistent (log_ n) = true →
  raft_step ids i s (sp_commit s i 0) ∧ node_rel (sp_commit s i 0) i (restart_node n k).
Proof.
  intros Hi Hn Hp. split; [apply r_restart|]. destruct (nr_disk _ _ _ Hn) as (Hwf & Hsy & HF).
  rewrite <- (nr_log _ _ _ Hn) in HF. pose proof (reload_synced (log_ n) k Hp Hsy HF) as Ere.
  pose proof (reload_log (log_ n) k Hp Hsy HF) as (Hsy' & Hp'). rewrite (nr_log _ _ _ Hn) in HF.
  destruct (nr_meta _ _ _ Hn) as (Hm1 & Hm2 & Hm3). rewrite Hp in Hm2.
  unfold restart_node, new_RaftNode. rewrite (Hm3 Hm2). destruct (LoadBatchingConfig env in_process) as [[be bm] bw].
  destruct Hn as [Hid Hpe Hte Hlo Hco Hdi Hme Hvd Hvo Hca Hle Hne Hma Hno Hap Hla].
  split; cbn -[new_RaftLog]; rewrite ?fn_lookup_insert; try done.
  - by rewrite Ere.
  - split_and!; [|done|done]. destruct Hwf. split; by rewrite Ere.
  - unfold meta_ok. cbn -[new_RaftLog LoadMeta]. by rewrite Hp'.
  - by intros e ?%elem_of_nil.
Qed.

(** ** The group implements the protocol *)

Lemma step_elect_rel c s b i n req : cluster_rel c s b → b + 1 < UINT32_MAX → i ∈ ids →
  StartElection_begin (nodes c i) = (n, Some req) →
  ∃ s', rtc (raft_step ids i) s s' ∧ cluster_rel (MkCluster (<[i := n]> (nodes c))
    (<[i := MkElection req 1 (peer_ids_ n)]> (elections c)) (((λ p, (p, req)) <$> peer_ids_ n) ++ vote_reqs c)
    (vote_resps c) (app_reqs c) (app_resps c) (past c)) s' (b + 1).
Proof.
  intros Hr Hbb Hin E. pose proof Hr as [Hi Hn Hm Hb].
  destruct (start_election_rel s i (nodes c i) b n req) as (s' & Hs & Hn' & Hb' & Hreq & Hcand); try done; [by apply Hn|].
  exists s'. split; [done|]. eapply cluster_rel_node; [done..|].
  destruct (raft_steps_facts _ _ _ _ Hi Hs) as (_ & He & _).
  destruct (msgs_ok_mono s s' b (b + 1) c He ltac:(lia) Hm) as [H1 H2 H3 H4 H5 H6]. split; cbn; try done.
  - intros j el [[<- <-]|[_ Hj]]%lookup_insert_Some; [|by apply H1]. split_and!; [done..|].
    exists [], []. cbn. split_and!; [by rewrite (nr_peers _ _ _ Hn')|constructor|done|done|by intros ? ?%elem_of_nil].
  - intros p q [Hp|Hp]%elem_of_app; [|by apply H2]. apply list_elem_of_fmap in Hp as (x & [= -> ->] & Hx).
    rewrite (nr_peers _ _ _ Hn') in Hx. apply peers_of_spec in Hx as [? ?]. rewrite Hcand. done.
Qed.

Lemma step_reply_rel c s b i el p todo resp n next : cluster_rel c s b → 0 ≤ b → b + 1 < UINT32_MAX →
  elections c !! i = Some el → el_todo el = p :: todo →
  (resp = no_vote ∨ (p, el_req el, resp) ∈ vote_resps c) →
  StartElection_reply (nodes c i) (vq_term (el_req el)) (el_votes el) resp = (n, next) →
  ∃ s', rtc (raft_step ids i) s s' ∧ cluster_rel (MkCluster (<[i := n]> (nodes c)) (next_election c i el todo next)
    (vote_reqs c) (vote_resps c) (app_reqs c) (app_resps c) (past c)) s' (b + 1).
Proof.
  intros Hr H0 Hbb Hel Htodo Hresp E. pose proof Hr as [Hi Hn Hm Hb].
  pose proof (mo_el _ _ _ Hm _ _ Hel) as Heok. pose proof Heok as (Hin & Hid & _).
  assert (0 ≤ vr_term resp ≤ b ∧ (vr_vote_granted resp = true → ∃ w, w ∈ votes s ∧ v_by w = p ∧
    v_term w = vq_term (el_req el) ∧ v_for w = i)) as [Hrt Hg].
  { destruct Hresp as [->|Hin']; [split; [cbn; lia|done]|]. rewrite <- Hid. by apply (mo_vresp _ _ _ Hm). }
  destruct (reply_rel s i (nodes c i) b el p todo resp n next) as (s' & Hs & Hn' & Hb' & Hnext); try done; [by apply Hn|].
  exists s'. split; [done|]. eapply cluster_rel_node; [done..|].
  destruct (raft_steps_facts _ _ _ _ Hi Hs) as (_ & He & _).
  destruct (msgs_ok_mono s s' b (b + 1) c He ltac:(lia) Hm) as [H1 H2 H3 H4 H5 H6]. split; cbn; try done.
  assert (∀ j x, delete i (elections c) !! j = Some x → election_ok s' j x) as Hdel.
  { intros j x [_ ?]%lookup_delete_Some. by apply H1. }
  unfold next_election. destruct next as [v| |]; [|done..]. case_bool_decide; [done|].
  intros j x [[<- <-]|[_ Hj]]%lookup_insert_Some; [by apply Hnext|by apply H1].
Qed.

Lemma cluster_step_rel c c' s b : cluster_rel c s b → 0 ≤ b → b + 1 < UINT32_MAX → cluster_step c c' →
  ∃ i s', rtc (raft_step ids i) s s' ∧ cluster_rel c' s' (b + 1).
Proof.
  intros Hr H0 Hbb Hst. pose proof Hr as [Hi Hn Hm Hb].
  assert (bounded s (b + 1)) as Hbs by (apply (bounded_mono s b); [lia|done]).
  assert (∀ j n, j ∈ ids → node_rel s j n →
    ∃ i s', rtc (raft_step ids i) s s' ∧ cluster_rel (set_node c j n) s' (b + 1)) as Hquiet.
  { intros j n Hin Hnj. exists j, s. split; [done|]. apply (cluster_rel_set c s b j n s); try done. lia. }
  assert (∀ j n, j ∈ ids → (∃ s', rtc (raft_step ids j) s s' ∧ node_rel s' j n ∧ bounded s' (b + 1)) →
    ∃ i s', rtc (raft_step ids i) s s' ∧ cluster_rel (set_node c j n) s' (b + 1)) as Hact.
  { intros j n Hin (s' & Hs & Hnj & Hb'). exists j, s'. split; [done|]. apply (cluster_rel_set c s b j n s'); try done. lia. }
  destruct Hst as [c i n req Hin Hel E|c p req n resp Hreq E|c i el p todo resp n next Hel Htodo Hresp E|c i Hin|
    c p req n resp ap Hreq E|c p req resp Hreq Hresp j|c i t k o Hin|c i ty payload Hin Hpl Hty Hz|c i force Hin|
    c i hb ed Hin|c i Hin|c i Hin|c i Hin|c i Hin|c i k Hin Hp].
  - exists i. by apply step_elect_rel.
  - destruct (mo_vreq _ _ _ Hm _ _ Hreq) as (Hin & Hne & Hok).
    destruct (handle_vote_rel s p (nodes c p) req b n resp) as (s' & Hs & Hn' & Hb' & Hrt & Hg); try done; [by apply Hn|lia|].
    exists p, s'. split; [done|]. destruct (raft_steps_facts _ _ _ _ Hi Hs) as (_ & He & _).
    eapply cluster_rel_node; [done..|by apply (bounded_mono s' b); [lia|]|].
    destruct (msgs_ok_mono s s' b (b + 1) c He ltac:(lia) Hm) as [H1 H2 H3 H4 H5 H6]. split; cbn; try done.
    intros q rq rp [[= -> -> ->]|Hq]%elem_of_cons; [split; [lia|done]|by apply H3].
  - exists i. by eapply step_reply_rel.
  - exists i, s. split; [done|]. split; [done|done| |done].
    destruct (msgs_ok_mono s s b (b + 1) c ltac:(done) ltac:(lia) Hm) as [H1 H2 H3 H4 H5 H6]. split; cbn; try done.
    intros p req [Hp|Hp]%elem_of_app; [|by apply H4]. eapply send_ok; [done|by apply Hn|done|done|lia|done].
  - destruct (mo_areq _ _ _ Hm _ _ Hreq) as (Hin & Hne & Hlin & Hok).
    destruct (handle_append_rel s p (nodes c p) req b n resp ap) as (s' & Hs & Hn' & Hb' & Hrt & Hg); try done; [by apply Hn|lia|].
    exists p, s'. split; [done|]. destruct (raft_steps_facts _ _ _ _ Hi Hs) as (_ & He & _).
    eapply cluster_rel_node; [done..|by apply (bounded_mono s' b); [lia|]|].
    destruct (msgs_ok_mono s s' b (b + 1) c He ltac:(lia) Hm) as [H1 H2 H3 H4 H5 H6]. split; cbn; try done.
    intros q rq rp [[= -> -> ->]|Hq]%elem_of_cons; [split; [lia|done]|by apply H5].
  - destruct (mo_areq _ _ _ Hm _ _ Hreq) as (Hin & Hne & Hlin & Hok).
    assert (0 ≤ ar_term resp ≤ b ∧ (ar_success resp = true →
      ∃ m, ar_match_index resp = Z.of_nat m ∧ (p, aq_term req, m) ∈ acks s)) as [Hrt Hs].
    { destruct Hresp as [->|Hin']; [split; [cbn; lia|done]|]. by apply (mo_aresp _ _ _ Hm). }
    destruct (process_rel s j (nodes c j) b p resp (aq_term req)) as (s' & Hs' & Hn' & Hb'); try done.
    { by apply Hn. } { apply peers_of_spec. done. } { lia. }
    apply Hact; [done|]. exists s'. split_and!; [done|done|]. by apply (bounded_mono s' b); [lia|].
  - apply Hquiet; [done|]. eapply step_down_rel; [done|by apply Hn|done|done|lia].
  - apply Hact; [done|]. eapply propose_rel; try done. by apply Hn.
  - apply Hquiet; [done|]. unfold FlushPendingProposals_locked. pose proof (Hn i Hin) as Hni.
    destruct (_ || _); [done|]. destruct (_ && _); [done|]. by destruct Hni.
  - apply Hquiet; [done|]. pose proof (apply_rel s i _ Hi (Hn i Hin)) as Hni. unfold TickOnce_begin.
    destruct (negb _); [done|]. case_bool_decide; [|by destruct ed]. by destruct Hni.
  - apply Hact; [done|]. unfold TickOnce_end.
    destruct (running_ (nodes c i) && bool_decide (role_ (nodes c i) = LEADER)).
    + destruct (advance_rel s i _ Hi (Hn i Hin) Hin) as (s' & Hs & Hn' & Hb'). exists s'.
      destruct (raft_steps_facts _ _ _ _ Hi Hs) as (Hi' & _ & _). split_and!; [done|by apply apply_rel|by apply Hb'].
    + exists s. split_and!; [done|by apply apply_rel, Hn|done].
  - apply Hquiet; [done|]. by apply apply_rel, Hn.
  - apply Hquiet; [done|]. pose proof (Hn i Hin) as Hni. by destruct Hni.
  - apply Hquiet; [done|]. pose proof (Hn i Hin) as Hni. by destruct Hni.
  - destruct (restart_rel s i (nodes c i) k Hi (Hn i Hin) Hp) as [Hs Hn']. exists i, (sp_commit s i 0).
    split; [by apply rtc_once|]. pose proof (raft_step_extends _ _ _ _ Hi Hs) as He.
    eapply cluster_rel_node; [done|done|by apply rtc_once|done|done|].
    destruct (msgs_ok_mono s (sp_commit s i 0) b (b + 1) c He ltac:(lia) Hm) as [H1 H2 H3 H4 H5 H6]. split; cbn; try done.
    + intros j el [_ Hj]%lookup_delete_Some. by apply H1.
    + intros j e [Hj|Hj]%elem_of_app; [|by eapply H6]. apply list_elem_of_fmap in Hj as (x & [= -> ->] & Hx).
      eapply applied_ok_mono; [done|]. by apply (nr_applied _ _ _ (Hn i Hin)).
Qed.

Definition raft_any s s' : Prop := ∃ i, raft_step ids i s s'.

Lemma cluster_init_rel : cluster_rel cluster_init raft_init 0.
Proof.
  split; [apply raft_init_inv| |split; cbn; set_solver|split; [done|cbn; intros t L HL; by rewrite lookup_empty in HL]].
  intros i Hin. unfold cluster_init. cbn [nodes]. unfold new_RaftNode.
  assert (LoadMeta (MkMetaFile on_disk None []) = None) as -> by (by destruct on_disk).
  destruct (LoadBatchingConfig env in_process) as [[be bm] bw].
  split; cbn -[new_RaftLog]; try done.
  - by destruct on_disk.
  - destruct on_disk; split_and!; try done; by intros ??.
  - unfold meta_ok. by destruct on_disk.
  - by intros w ?%elem_of_nil.
  - by intros e ?%elem_of_nil.
Qed.

Lemma cluster_refines k c : cluster_steps k c → Z.of_nat k < UINT32_MAX →
  ∃ s, rtc raft_any raft_init s ∧ cluster_rel c s (Z.of_nat k).
Proof.
  induction 1 as [|k c c' _ IH Hst]; intros Hk; [exists raft_init; split; [done|apply cluster_init_rel]|].
  destruct IH as (s & Hs & Hr); [lia|].
  destruct (cluster_step_rel c c' s (Z.of_nat k) Hr) as (i & s' & Hs' & Hr'); [lia..|done|].
  exists s'. replace (Z.of_nat (S k)) with (Z.of_nat k + 1) by lia. split; [|done]. etrans; [exact Hs|].
  eapply rtc_subrel; [|exact Hs']. intros x y Hxy. by exists i.
Qed.

(** What any process of node [i] has applied. *)
Definition applied_by c i (e : RaftLogEntry) : Prop := e ∈ applied (nodes c i) ∨ (i, e) ∈ past c.

Lemma applied_by_ok c s b i e : cluster_rel c s b → i ∈ ids → applied_by c i e → applied_ok s e.
Proof. intros [Hi Hn Hm Hb] Hin [He|He]; [by apply (nr_applied _ _ _ (Hn i Hin))|by apply (mo_past _ _ _ Hm i)]. Qed.

Lemma applied_ok_agree s e e' : raft_inv ids s → applied_ok s e → applied_ok s e' → re_index e = re_index e' → e = e'.
Proof.
  intros Hi (t & k & L & H0 & Hc & Hk & He) (t' & k' & L' & H0' & Hc' & Hk' & He') Eix. rewrite <- Eix in *.
  assert (∀ (a : nat) (l l' : Log) x x', take a l = take a l' → (Z.to_nat (re_index e) ≤ a)%nat →
    l !! Z.to_nat (re_index e - 1) = Some x → l' !! Z.to_nat (re_index e - 1) = Some x' → x = x') as Hsame.
  { intros a l l' x x' Et Hle Hx Hx'. rewrite <- (lookup_take_lt l a) in Hx by lia.
    rewrite Et, lookup_take_lt in Hx by lia. congruence. }
  destruct (Nat.le_ge_cases k k') as [Hle|Hle].
  - apply (Hsame k L L'); [by apply (certified_agree ids s Hi t t' k k')|done..].
  - symmetry. apply (Hsame k' L' L); [by apply (certified_agree ids s Hi t' t k' k)|done..].
Qed.
End cluster.
