(* ===== verification/RaftReplication.v ===== *)
(** * Raft groups: what the replicas are promised

    A schedule of the steps of RaftCluster.v as an executable function, and the
    guarantees of a Raft group: one leader per term, committed entries in every
    later leader's log, replicas that apply one sequence of entries and hold the
    data it stands for, and progress once a majority has acknowledged. *)
From Stdlib Require Import Strings.Byte.
From stdpp Require Import base functions relations gmap sets strings list.
From Stdlib Require Import ZArith Lia.
From S2P Require Import Prelude Status KeyEncoding RocksDB GroupCommit LogFile TxnManager RaftLog RaftStateMachine RaftSpec.
From S2P Require Import RaftNode RaftCluster.
Local Open Scope Z_scope.

(** ** Schedules *)

(** A choice among the steps; numbers select a message of the group. *)
Inductive Event :=
  | EvStart (i : Z)
  | EvElect (i : Z)
  | EvVote (k : nat)
  | EvVoteReply (i : Z) (k : nat)
  | EvSend (i : Z)
  | EvAppend (k : nat)
  | EvAppendReply (k : nat)
  | EvPropose (i : Z) (type : RaftEntryType) (payload : bytes)
  | EvApply (i : Z)
  | EvRestart (i : Z)
  | EvVoteLost (i : Z)
  | EvAppendLost (k : nat)
  | EvStepDown (i sent_term successful : Z) (overdue : bool)
  | EvFlush (i : Z) (force : bool)
  | EvTick (i : Z) (heartbeat_due election_due : bool)
  | EvTickEnd (i : Z)
  | EvStop (i : Z)
  | EvCrash (i : Z) (k : nat).

Section schedule.
Context (ids : list Z) (env : getenv) (in_process on_disk : bool).

Definition on_node (c : Cluster) (i : Z) (f : RaftNode → RaftNode) : option Cluster :=
  if bool_decide (i ∈ ids) then Some (set_node c i (f (nodes c i))) else None.

Definition run_event (c : Cluster) (ev : Event) : option Cluster :=
  match ev with
  | EvStart i => on_node c i Start
  | EvApply i => on_node c i ApplyCommitted
  | EvElect i =>
      if bool_decide (i ∈ ids) && idle_election c i then
        match StartElection_begin (nodes c i) with
        | (n, Some req) =>
            Some (MkCluster (<[i := n]> (nodes c)) (<[i := MkElection req 1 (peer_ids_ n)]> (elections c))
              (((λ p, (p, req)) <$> peer_ids_ n) ++ vote_reqs c) (vote_resps c) (app_reqs c) (app_resps c) (past c))
        | _ => None
        end
      else None
  | EvVote k =>
      '(p, req) ← vote_reqs c !! k;
      let '(n, resp) := HandleRequestVote (nodes c p) req in
      Some (MkCluster (<[p := n]> (nodes c)) (elections c) (vote_reqs c) ((p, req, resp) :: vote_resps c)
        (app_reqs c) (app_resps c) (past c))
  | EvVoteReply i k =>
      el ← elections c !! i;
      match el_todo el, vote_resps c !! k with
      | p :: todo, Some (q, req, resp) =>
          if bool_decide (q = p) && bool_decide (req = el_req el) then
            let '(n, next) := StartElection_reply (nodes c i) (vq_term (el_req el)) (el_votes el) resp in
            Some (MkCluster (<[i := n]> (nodes c)) (next_election c i el todo next) (vote_reqs c) (vote_resps c)
              (app_reqs c) (app_resps c) (past c))
          else None
      | _, _ => None
      end
  | EvSend i =>
      if bool_decide (i ∈ ids) then
        Some (MkCluster (nodes c) (elections c) (vote_reqs c) (vote_resps c)
          (SendAppendEntries_begin (nodes c i) ++ app_reqs c) (app_resps c) (past c))
      else None
  | EvAppend k =>
      '(p, req) ← app_reqs c !! k;
      let '(n, resp, _) := HandleAppendEntries_locked (nodes c p) req in
      Some (MkCluster (<[p := n]> (nodes c)) (elections c) (vote_reqs c) (vote_resps c)
        (app_reqs c) ((p, req, resp) :: app_resps c) (past c))
  | EvAppendReply k =>
      '(p, req, resp) ← app_resps c !! k;
      if bool_decide ((p, req) ∈ app_reqs c) then
        let i := aq_leader_id req in
        Some (set_node c i (ProcessAppendEntriesResponse_locked (nodes c i) p resp (aq_term req)).1)
      else None
  | EvPropose i type payload =>
      if bool_decide (is_u32 (Z.of_nat (length payload))) &&
         bool_decide (type = RaftEntryType_of_Z (RaftEntryType_to_Z type)) &&
         bool_decide (0 ≤ RaftEntryType_to_Z type < 256) then
        on_node c i (λ n, (Propose_locked n type payload).1.1)
      else None
  | EvRestart i =>
      if bool_decide (i ∈ ids) && persistent (log_ (nodes c i)) then
        Some (MkCluster (<[i := restart_node env in_process (nodes c i) 0]> (nodes c)) (delete i (elections c))
          (vote_reqs c) (vote_resps c) (app_reqs c) (app_resps c)
          (((λ e, (i, e)) <$> applied (nodes c i)) ++ past c))
      else None
  | EvVoteLost i =>
      el ← elections c !! i;
      match el_todo el with
      | p :: todo =>
          let '(n, next) := StartElection_reply (nodes c i) (vq_term (el_req el)) (el_votes el) no_vote in
          Some (MkCluster (<[i := n]> (nodes c)) (next_election c i el todo next) (vote_reqs c) (vote_resps c)
            (app_reqs c) (app_resps c) (past c))
      | [] => None
      end
  | EvAppendLost k =>
      '(p, req) ← app_reqs c !! k;
      let i := aq_leader_id req in
      Some (set_node c i (ProcessAppendEntriesResponse_locked (nodes c i) p no_append (aq_term req)).1)
  | EvStepDown i sent_term successful overdue => on_node c i (λ n, SendAppendEntries_end n sent_term successful overdue)
  | EvFlush i force => on_node c i (λ n, (FlushPendingProposals_locked n force).1)
  | EvTick i heartbeat_due election_due => on_node c i (λ n, (TickOnce_begin n heartbeat_due election_due).1)
  | EvTickEnd i => on_node c i TickOnce_end
  | EvStop i => on_node c i Stop
  | EvCrash i k =>
      if bool_decide (i ∈ ids) && persistent (log_ (nodes c i)) then
        Some (MkCluster (<[i := restart_node env in_process (nodes c i) k]> (nodes c)) (delete i (elections c))
          (vote_reqs c) (vote_resps c) (app_reqs c) (app_resps c)
          (((λ e, (i, e)) <$> applied (nodes c i)) ++ past c))
      else None
  end.

Fixpoint run_events (c : Cluster) (evs : list Event) : option Cluster :=
  match evs with
  | [] => Some c
  | ev :: evs => c' ← run_event c ev; run_events c' evs
  end.

Lemma run_event_sound c ev c' : run_event c ev = Some c' → cluster_step ids env in_process c c'.
Proof.
  destruct ev; cbn; unfold on_node; intros E; repeat (case_bool_decide; try done; cbn in E); simplify_eq.
  - by apply cs_start.
  - destruct (idle_election c i) eqn:Ei; [|done].
    destruct (StartElection_begin _) as [n [req|]] eqn:Eb; simplify_eq. by apply cs_elect.
  - destruct (vote_reqs c !! k) as [[p req]|] eqn:Ek; [|done]. cbn in E.
    destruct (HandleRequestVote _ _) as [n resp] eqn:Eh. simplify_eq. apply (cs_vote _ _ _ _ p req); [|done].
    by eapply list_elem_of_lookup_2.
  - destruct (elections c !! i) as [el|] eqn:Hel; [|done]. cbn in E. destruct (el_todo el) as [|p todo] eqn:Ht; [done|].
    destruct (vote_resps c !! k) as [[[q req] resp]|] eqn:Ek; [|done].
    destruct (bool_decide_reflect (q = p)) as [->|]; [|done].
    destruct (bool_decide_reflect (req = el_req el)) as [->|]; [|done]. cbn in E.
    destruct (StartElection_reply _ _ _ _) as [n next] eqn:Er. simplify_eq.
    apply (cs_vote_reply _ _ _ c i el p todo resp); try done. right. by eapply list_elem_of_lookup_2.
  - by apply cs_send.
  - destruct (app_reqs c !! k) as [[p req]|] eqn:Ek; [|done]. cbn in E.
    destruct (HandleAppendEntries_locked _ _) as [[n resp] ap] eqn:Eh. simplify_eq.
    eapply cs_append; [by eapply list_elem_of_lookup_2|done].
  - destruct (app_resps c !! k) as [[[p req] resp]|] eqn:Ek; [|done]. cbn in E. case_bool_decide; [|done].
    simplify_eq. apply cs_append_reply; [done|]. right. by eapply list_elem_of_lookup_2.
  - by apply cs_propose.
  - by apply cs_apply.
  - destruct (persistent _) eqn:Ep; [|done]. simplify_eq. by apply cs_restart.
  - destruct (elections c !! i) as [el|] eqn:Hel; [|done]. cbn in E. destruct (el_todo el) as [|p todo] eqn:Ht; [done|].
    destruct (StartElection_reply _ _ _ _) as [n next] eqn:Er. simplify_eq.
    apply (cs_vote_reply _ _ _ c i el p todo no_vote); try done. by left.
  - destruct (app_reqs c !! k) as [[p req]|] eqn:Ek; [|done]. cbn in E. simplify_eq.
    apply cs_append_reply; [by eapply list_elem_of_lookup_2|by left].
  - by apply cs_step_down.
  - by apply cs_flush.
  - by apply cs_tick.
  - by apply cs_tick_end.
  - by apply cs_stop.
  - destruct (persistent _) eqn:Ep; [|done]. simplify_eq. by apply cs_restart.
Qed.

(** The events are all the steps of a group. *)
Lemma run_event_complete c c' : cluster_step ids env in_process c c' → ∃ ev, run_event c ev = Some c'.
Proof.
  assert (Hon : ∀ c i f, i ∈ ids → on_node c i f = Some (set_node c i (f (nodes c i)))).
  { intros d i f Hi. unfold on_node. by rewrite bool_decide_eq_true_2. }
  destruct 1 as [c i n req Hi Hid E|c p req n resp Hin E|c i el p todo resp n next Hel Htd Hr E|c i Hi|c p req n resp ap Hin E
    |c p req resp Hin Hr|c i t k o Hi|c i ty pl Hi Hp Ht Hz|c i f Hi|c i hb ed Hi|c i Hi|c i Hi|c i Hi|c i Hi|c i k Hi Hp].
  - exists (EvElect i). cbn. by rewrite bool_decide_eq_true_2, Hid, E.
  - apply list_elem_of_lookup in Hin as [k Hk]. exists (EvVote k). cbn. rewrite Hk. cbn. by rewrite E.
  - destruct Hr as [->|[k Hk]%list_elem_of_lookup].
    + exists (EvVoteLost i). cbn. rewrite Hel. cbn. by rewrite Htd, E.
    + exists (EvVoteReply i k). cbn. rewrite Hel. cbn. by rewrite Htd, Hk, !bool_decide_eq_true_2, E.
  - exists (EvSend i). cbn. by rewrite bool_decide_eq_true_2.
  - apply list_elem_of_lookup in Hin as [k Hk]. exists (EvAppend k). cbn. rewrite Hk. cbn. by rewrite E.
  - destruct Hr as [->|[k Hk]%list_elem_of_lookup].
    + apply list_elem_of_lookup in Hin as [k Hk]. exists (EvAppendLost k). cbn. by rewrite Hk.
    + exists (EvAppendReply k). cbn. rewrite Hk. cbn. by rewrite bool_decide_eq_true_2.
  - exists (EvStepDown i t k o). by apply Hon.
  - exists (EvPropose i ty pl). cbn. rewrite !bool_decide_eq_true_2 by done. by apply Hon.
  - exists (EvFlush i f). by apply Hon.
  - exists (EvTick i hb ed). by apply Hon.
  - exists (EvTickEnd i). by apply Hon.
  - exists (EvApply i). by apply Hon.
  - exists (EvStart i). by apply Hon.
  - exists (EvStop i). by apply Hon.
  - exists (EvCrash i k). cbn. by rewrite bool_decide_eq_true_2, Hp.
Qed.

Lemma run_events_sound evs c c' k : cluster_steps ids env in_process on_disk k c → run_events c evs = Some c' →
  cluster_steps ids env in_process on_disk (k + length evs) c'.
Proof.
  revert c k. induction evs as [|ev evs IH]; intros c k Hc E; cbn in *.
  { simplify_eq. by rewrite Nat.add_0_r. }
  destruct (run_event c ev) as [c1|] eqn:E1; [|done]. cbn in E. rewrite <- Nat.add_succ_comm.
  eapply IH; [|exact E]. eapply cluster_next; [exact Hc|]. by eapply run_event_sound.
Qed.
End schedule.

(** ** Reachable groups *)

Section reachable.
Context (ids : list Z) (env : getenv) (in_process on_disk : bool).
Context (Hids : NoDup ids) (Hu32 : Forall is_u32 ids).
Implicit Types (c : Cluster) (s : Raft) (n : RaftNode) (i j p : Z).
Local Abbreviation node_rel := (node_rel ids).
Local Abbreviation cluster_rel := (cluster_rel ids).

Lemma related_logs s i j n n' (k : nat) : raft_inv ids s → node_rel s i n → node_rel s j n' → role_ n' = LEADER →
  current_term_ n ≤ current_term_ n' → (k ≤ rcommit s i)%nat → take k (rlog s j) = take k (rlog s i).
Proof.
  intros Hi Hn Hn' Hr Ht Hk. destruct (ri_commit _ _ Hi i) as [E|(T & x & LT & Hc & HL & HT & Hx & E)].
  { by replace k with 0%nat by lia. }
  destruct (nr_lead _ _ _ _ Hn' Hr) as [l Hl]. pose proof (leader_log ids s j l Hi Hl) as HLj.
  rewrite (nr_term _ _ _ _ Hn), (nr_term _ _ _ _ Hn') in Ht.
  assert (take (rcommit s i) (rlog s j) = take (rcommit s i) (rlog s i)) as Ej.
  { rewrite E. eapply chosen_take; [done|exact Hc|exact HL|exact HLj|lia|lia]. }
  apply (f_equal (take k)) in Ej. rewrite !take_take in Ej. by rewrite Nat.min_l in Ej by lia.
Qed.

Lemma applied_prefix s i j n n' : raft_inv ids s → node_rel s i n → node_rel s j n' →
  (length (applied n) ≤ length (applied n'))%nat → applied n = take (length (applied n)) (applied n').
Proof.
  intros Hi Hn Hn' Hl. destruct (nr_seq _ _ _ _ Hn) as [Hq _]. destruct (nr_seq _ _ _ _ Hn') as [Hq' _].
  apply list_eq. intros x. destruct (decide (x < length (applied n))%nat) as [Hx|Hx].
  - rewrite lookup_take_lt by done. destruct (lookup_lt_is_Some_2 (applied n) x Hx) as [e He].
    destruct (lookup_lt_is_Some_2 (applied n') x) as [e' He']; [lia|]. rewrite He, He'. f_equal.
    apply (applied_ok_agree ids s); [done| | |].
    + apply (nr_applied _ _ _ _ Hn). by eapply list_elem_of_lookup_2.
    + apply (nr_applied _ _ _ _ Hn'). by eapply list_elem_of_lookup_2.
    + by rewrite (Hq _ _ He), (Hq' _ _ He').
  - rewrite lookup_take_ge by lia. apply lookup_ge_None. lia.
Qed.

(** *** Progress *)

Lemma find_commit_reaches n fuel z k : z - Z.of_nat fuel < k ≤ z → TermAt (log_ n) k = current_term_ n →
  MajorityThreshold n ≤ commit_votes n k → ∃ m, find_commit n fuel z = Some m ∧ k ≤ m.
Proof.
  revert z. induction fuel as [|fuel IH]; intros z Hz Ht Hm; [lia|]. cbn [find_commit].
  destruct (decide (z = k)) as [->|Hne].
  - rewrite Ht, Z.eqb_refl. cbn [negb]. destruct (Z.leb_spec (MajorityThreshold n) (commit_votes n k)); [by exists k|lia].
  - destruct (IH (z - 1)) as (m & E & Hk); [lia|done|done|].
    destruct (negb _); [by exists m|]. destruct (_ <=? _); [|by exists m]. exists z. split; [done|lia].
Qed.

Lemma advance_reaches n k : role_ n = LEADER → k ≤ LastIndex (log_ n) → TermAt (log_ n) k = current_term_ n →
  MajorityThreshold n ≤ commit_votes n k → k ≤ commit_index_ (AdvanceCommitIndexLocked n).
Proof.
  intros Hr Hk Ht Hm. unfold AdvanceCommitIndexLocked. rewrite Hr.
  rewrite bool_decide_eq_true_2 by done. cbn [negb].
  destruct (Z.leb_spec (LastIndex (log_ n)) (commit_index_ n)); [lia|].
  destruct (decide (k ≤ commit_index_ n)) as [Hle|Hgt].
  - destruct (find_commit _ _ _) as [z|] eqn:E; [|done]. cbn. apply find_commit_spec in E. lia.
  - destruct (find_commit_reaches n (Z.to_nat (LastIndex (log_ n) - commit_index_ n)) (LastIndex (log_ n)) k)
      as (m & E & ?); [lia|done|done|]. by rewrite E.
Qed.

(** [ApplyCommitted] never stops early on a reachable node. *)
Lemma apply_reaches s i n : raft_inv ids s → node_rel s i n →
  commit_index_ n ≤ last_applied_ (ApplyCommitted n).
Proof.
  intros Hi Hn. unfold ApplyCommitted. remember (Z.to_nat (commit_index_ n - last_applied_ n)) as fuel eqn:Hf.
  assert (commit_index_ n - last_applied_ n ≤ Z.of_nat fuel) as Hle by lia. clear Hf. revert n Hn Hle.
  induction fuel as [|fuel IH]; intros n Hn Hle; cbn [apply_loop]; [lia|].
  destruct (Z.ltb_spec (last_applied_ n) (commit_index_ n)) as [Hlt|]; [|lia].
  destruct (nr_disk _ _ _ _ Hn) as (Hwf & _ & _). destruct (nr_seq _ _ _ _ Hn) as [_ Hla].
  pose proof (certified_length _ _ _ _ _ (ri_commit _ _ Hi i)) as Hcl.
  rewrite Get_wf by done. destruct (Z.leb_spec 1 (last_applied_ n + 1)); [|lia].
  destruct (lookup_lt_is_Some_2 (entries_ (log_ n)) (Z.to_nat (last_applied_ n + 1 - 1))) as [e He].
  { rewrite (nr_log _ _ _ _ Hn). rewrite (nr_commit _ _ _ _ Hn) in Hlt. lia. }
  rewrite He. specialize (IH (set_applied n (last_applied_ n + 1) (applied n ++ [e]))). cbn in IH. apply IH; [|lia].
  apply (apply_one_rel ids s i n e); [done|done|done|].
  rewrite Get_wf by done. destruct (Z.leb_spec 1 (last_applied_ n + 1)); [done|lia].
Qed.

Lemma apply_commit_index n : commit_index_ (ApplyCommitted n) = commit_index_ n.
Proof.
  unfold ApplyCommitted. generalize (Z.to_nat (commit_index_ n - last_applied_ n)). intros fuel. revert n.
  induction fuel as [|fuel IH]; intros n; cbn [apply_loop]; [done|]. destruct (_ <? _); [|done].
  destruct (RaftLog_Get _ _); [|done]. by rewrite IH.
Qed.

Lemma length_filter_impl (P Q : Z → Prop) `{∀ x, Decision (P x), ∀ x, Decision (Q x)} (l : list Z) :
  (∀ x, P x → Q x) → (length (filter P l) ≤ length (filter Q l))%nat.
Proof.
  intros HPQ. induction l as [|x l IH]; [done|]. rewrite !filter_cons.
  destruct (decide (P x)), (decide (Q x)); cbn; try lia. by exfalso; auto.
Qed.

(** *** What is applied is committed *)

Definition within_commit n : Prop := last_applied_ n ≤ commit_index_ n.

Lemma within_advance n : within_commit n → within_commit (AdvanceCommitIndexLocked n).
Proof.
  unfold AdvanceCommitIndexLocked, within_commit. intros H0. destruct (negb _); [done|].
  destruct (Z.leb_spec (LastIndex (log_ n)) (commit_index_ n)); [done|].
  destruct (find_commit _ _ _) as [z|] eqn:E; [|done]. apply find_commit_spec in E. cbn. lia.
Qed.

Lemma within_apply n : within_commit n → within_commit (ApplyCommitted n).
Proof.
  unfold ApplyCommitted, within_commit. generalize (Z.to_nat (commit_index_ n - last_applied_ n)). intros fuel. revert n.
  induction fuel as [|fuel IH]; intros n Hn; cbn [apply_loop]; [done|].
  destruct (Z.ltb_spec (last_applied_ n) (commit_index_ n)) as [Hlt|]; [|done].
  destruct (RaftLog_Get _ _) as [e|]; [|done]. apply IH. cbn. lia.
Qed.

Lemma within_elect n n' req : within_commit n → StartElection_begin n = (n', req) → within_commit n'.
Proof. unfold StartElection_begin. intros Hw E. destruct (_ || _); simplify_eq; exact Hw. Qed.

Lemma within_leader n : within_commit n → within_commit (BecomeLeaderLocked n).
Proof.
  unfold BecomeLeaderLocked. intros Hw. destruct (RaftLog_Append _ _ _ _) as [log idx].
  destruct (_ && _); exact Hw.
Qed.

Lemma within_reply n t v resp : within_commit n → within_commit (StartElection_reply n t v resp).1.
Proof.
  unfold StartElection_reply. intros Hw. destruct (negb (running_ n)); [done|]. destruct (_ && _); [exact Hw|].
  destruct (_ || _); [done|]. destruct (_ && _); [done|]. destruct (_ && _); [done|].
  destruct (_ <=? _); [by apply within_leader|done].
Qed.

Lemma within_vote n req : within_commit n → within_commit (HandleRequestVote n req).1.
Proof.
  unfold HandleRequestVote. intros Hw. destruct (_ <? _); [done|].
  destruct (current_term_ n <? _); destruct (_ && _); exact Hw.
Qed.

Lemma within_append n req : within_commit n → within_commit (HandleAppendEntries_locked n req).1.1.
Proof.
  unfold HandleAppendEntries_locked, within_commit. intros Hw. destruct (aq_term req <? _); [done|].
  destruct (current_term_ n <? aq_term req); destruct (_ && _); try exact Hw; case_bool_decide; cbn; lia.
Qed.

Lemma within_process n p resp t : within_commit n → within_commit (ProcessAppendEntriesResponse_locked n p resp t).1.
Proof.
  unfold ProcessAppendEntriesResponse_locked. intros Hw. destruct (negb (running_ n)); [done|].
  destruct (_ && _); [exact Hw|]. destruct (_ || _); [done|]. destruct (negb _); [exact Hw|].
  by apply within_advance.
Qed.

Lemma within_propose n ty pl : within_commit n → within_commit (Propose_locked n ty pl).1.1.
Proof.
  unfold Propose_locked. intros Hw. destruct (negb _); [done|]. destruct (RaftLog_Append _ _ _ _) as [log idx].
  destruct (idx =? 0); [exact Hw|]. destruct (IsBatchingEnabled _); exact Hw.
Qed.

Lemma within_tick n hb ed : within_commit n → within_commit (TickOnce_begin n hb ed).1.
Proof.
  intros Hw%within_apply. unfold TickOnce_begin. destruct (negb _); [done|]. case_bool_decide; [exact Hw|].
  by destruct ed.
Qed.

Lemma within_commit_step c c' : (∀ i, within_commit (nodes c i)) → cluster_step ids env in_process c c' →
  ∀ i, within_commit (nodes c' i).
Proof.
  intros Hw Hst.
  assert (∀ i n, within_commit n → ∀ j, within_commit ((<[i := n]> (nodes c)) j)) as Hset.
  { intros i n Hn j. destruct (decide (j = i)) as [->|Hne]; [by rewrite fn_lookup_insert|by rewrite fn_lookup_insert_ne]. }
  destruct Hst as [c i n req _ _ E|c p req n resp _ E|c i el p todo resp n next _ _ _ E|c i _|
    c p req n resp ap _ E|c p req resp _ _ j|c i t k o _|c i ty payload _ _ _ _|c i force _|
    c i hb ed _|c i _|c i _|c i _|c i _|c i k _ Hp]; cbn [nodes set_node]; try (apply Hset).
  - by eapply within_elect.
  - change n with (n, resp).1. rewrite <- E. by apply within_vote.
  - change n with (n, next).1. rewrite <- E. by apply within_reply.
  - done.
  - change n with (n, resp, ap).1.1. rewrite <- E. by apply within_append.
  - by apply within_process.
  - unfold SendAppendEntries_end. destruct (_ || _); [apply Hw|]. destruct (_ <=? _); [apply Hw|]. destruct o; apply Hw.
  - by apply within_propose.
  - unfold FlushPendingProposals_locked. destruct (_ || _); [apply Hw|]. destruct (_ && _); apply Hw.
  - by apply within_tick.
  - unfold TickOnce_end. apply within_apply. destruct (_ && _); [by apply within_advance|apply Hw].
  - by apply within_apply.
  - apply Hw.
  - apply Hw.
  - unfold restart_node, new_RaftNode. destruct (default (0, None) _) as [t v].
    destruct (LoadBatchingConfig _ _) as [[? ?] ?]. unfold within_commit. cbn. lia.
Qed.

(** An entry of a leader's log that a node which still is in the leader's term
    waited for: it is what was applied. *)
Lemma leader_entry_applied s i n (k : nat) e l L : raft_inv ids s → node_rel s i n → within_commit n →
  leads s !! current_term_ n = Some (i, l) → llog s !! current_term_ n = Some L → L !! k = Some e →
  re_index e = Z.of_nat k + 1 → re_index e ≤ last_applied_ n → applied n !! k = Some e.
Proof.
  intros Hi Hn Hw Hl HL Hk Hix Hla. unfold within_commit in Hw.
  rewrite (nr_term _ _ _ _ Hn) in Hl, HL. pose proof (leader_log ids s i l Hi Hl) as HL'.
  assert (L = rlog s i) as -> by congruence. destruct (nr_seq _ _ _ _ Hn) as [Hsq Hlen].
  destruct (lookup_lt_is_Some_2 (applied n) k) as [x Hx]; [lia|]. rewrite Hx. f_equal.
  apply (applied_ok_agree ids s); [done| | |rewrite (Hsq _ _ Hx), Hix; lia].
  - apply (nr_applied _ _ _ _ Hn). by eapply list_elem_of_lookup_2.
  - exists (rterm s i), (rcommit s i), (rlog s i). split; [lia|]. split; [apply (ri_commit _ _ Hi)|].
    rewrite (nr_commit _ _ _ _ Hn) in Hw. split; [lia|].
    by replace (Z.to_nat (re_index e - 1)) with k by lia.
Qed.

(** An applied entry at a replica that got as far, and in a later leader's log. *)
Lemma applied_everywhere s i j n n' e : raft_inv ids s → node_rel s i n → node_rel s j n' → e ∈ applied n →
  re_index e ≤ last_applied_ n' → e ∈ applied n'.
Proof.
  intros Hi Hn Hn' (x & Hx)%list_elem_of_lookup Hle. destruct (nr_seq _ _ _ _ Hn) as [Hq _].
  destruct (nr_seq _ _ _ _ Hn') as [Hq' Hl']. pose proof (Hq _ _ Hx) as Eix.
  destruct (lookup_lt_is_Some_2 (applied n') x) as [e' He']; [lia|].
  assert (e = e') as ->; [|by eapply list_elem_of_lookup_2].
  apply (applied_ok_agree ids s); [done| | |by rewrite (Hq' _ _ He')].
  - apply (nr_applied _ _ _ _ Hn). by eapply list_elem_of_lookup_2.
  - apply (nr_applied _ _ _ _ Hn'). by eapply list_elem_of_lookup_2.
Qed.

Lemma applied_in_leader s i j n n' e : raft_inv ids s → node_rel s i n → node_rel s j n' → e ∈ applied n →
  within_commit n → role_ n' = LEADER → current_term_ n ≤ current_term_ n' → RaftLog_Get (log_ n') (re_index e) = Some e.
Proof.
  intros Hi Hn Hn' (x & Hx)%list_elem_of_lookup Hw Hr Ht. destruct (nr_seq _ _ _ _ Hn) as [Hq Hl].
  pose proof (Hq _ _ Hx) as Eix. pose proof (lookup_lt_Some _ _ _ Hx) as Hlt. unfold within_commit in Hw.
  rewrite (nr_commit _ _ _ _ Hn) in Hw.
  pose proof (related_logs s i j n n' (rcommit s i) Hi Hn Hn' Hr Ht ltac:(lia)) as E.
  destruct (nr_disk _ _ _ _ Hn') as (Hwf & _ & _). rewrite Get_wf by done. destruct (Z.leb_spec 1 (re_index e)); [|lia].
  rewrite (nr_log _ _ _ _ Hn'). rewrite <- (lookup_take_lt _ (rcommit s i)), E, lookup_take_lt by lia.
  pose proof (certified_length _ _ _ _ _ (ri_commit _ _ Hi i)) as Hcl.
  destruct (lookup_lt_is_Some_2 (rlog s i) (Z.to_nat (re_index e - 1))) as [e' He']; [lia|]. rewrite He'. f_equal.
  destruct (nr_disk _ _ _ _ Hn) as (Hwi & _ & _). pose proof He' as He2. rewrite <- (nr_log _ _ _ _ Hn) in He2.
  pose proof (proj1 Hwi _ _ He2) as Eix'.
  apply (applied_ok_agree ids s); [done| | |lia].
  - exists (rterm s i), (rcommit s i), (rlog s i). split; [lia|]. split; [apply (ri_commit _ _ Hi)|]. split; [lia|].
    by replace (Z.to_nat (re_index e' - 1)) with (Z.to_nat (re_index e - 1)) by lia.
  - apply (nr_applied _ _ _ _ Hn). by eapply list_elem_of_lookup_2.
Qed.

Lemma process_accept n p resp : running_ n = true → role_ n = LEADER →
  ar_term resp = current_term_ n → ar_success resp = true →
  let n1 := set_progress n
    (<[p := Z.max (default 0 (next_index_ n !! p)) (u64 (ar_match_index resp + 1))]> (next_index_ n))
    (<[p := Z.max (default 0 (match_index_ n !! p)) (ar_match_index resp)]> (match_index_ n)) in
  ProcessAppendEntriesResponse_locked n p resp (current_term_ n) = (AdvanceCommitIndexLocked n1, true).
Proof.
  intros Hrun Hr Ht Hs. unfold ProcessAppendEntriesResponse_locked. rewrite Hrun, Hr, Ht, Hs, Z.ltb_irrefl, Z.eqb_refl.
  cbn [negb]. rewrite andb_false_r. by rewrite bool_decide_eq_true_2.
Qed.
End reachable.

(** ** Claims *)

(** C2. State machine safety. In every run of a group, with elections, lost,
    repeated and delayed messages, leaders that step down and processes that stop
    and start again on their files: no two replicas ever apply different entries
    at the same index; each process applies the indexes 1, 2, 3, ... without a
    gap; and what one replica has applied is an initial segment of what the other
    has. Indexes and terms stay exact for the first 2^32 steps. *)
Theorem raft_state_machine_safety (ids : list Z) (env : getenv) (in_process on_disk : bool) (k : nat)
    (c : Cluster) (i j : Z) :
  NoDup ids → Forall is_u32 ids → cluster_steps ids env in_process on_disk k c → Z.of_nat k < UINT32_MAX →
  i ∈ ids → j ∈ ids →
  (∀ e e', applied_by c i e → applied_by c j e' → re_index e = re_index e' → e = e') ∧
  (applied (nodes c i) `prefix_of` applied (nodes c j) ∨ applied (nodes c j) `prefix_of` applied (nodes c i)) ∧
  numbered_from 0 (applied (nodes c i)).
Proof.
  intros HN HF Hc Hk Hi Hj. destruct (cluster_refines ids env in_process on_disk HN HF k c Hc Hk) as (s & _ & Hr).
  pose proof Hr as [Hinv Hn _ _]. split_and!.
  - intros e e' He He'. eapply applied_ok_agree; [done|by eapply (applied_by_ok ids c s _ i)|by eapply (applied_by_ok ids c s _ j)].
  - destruct (Nat.le_ge_cases (length (applied (nodes c i))) (length (applied (nodes c j)))).
    + left. rewrite (applied_prefix ids s i j _ (nodes c j) Hinv (Hn i Hi) (Hn j Hj)) by done. apply take_prefix.
    + right. rewrite (applied_prefix ids s j i _ (nodes c i) Hinv (Hn j Hj) (Hn i Hi)) by done. apply take_prefix.
  - apply (nr_seq _ _ _ _ (Hn i Hi)).
Qed.

Definition demo_ids : list Z := [1; 2; 3].
Definition demo_start : Cluster := cluster_init demo_ids (λ _, None) true true.
(** Node 1 is elected by node 2, replicates a proposal to it and both apply it;
    node 2 restarts and applies the log again. *)
Definition demo_events : list Event :=
  [EvStart 1; EvStart 2; EvElect 1; EvVote 0; EvVoteReply 1 0; EvSend 1; EvAppend 0; EvAppendReply 0; EvApply 1;
   EvPropose 1 TXN_ABORT (le_bytes 8 7); EvSend 1; EvAppend 0; EvAppendReply 0; EvSend 1; EvAppend 0; EvApply 1; EvApply 2;
   EvRestart 2; EvSend 1; EvAppend 0; EvApply 2].
Definition demo_cluster : Cluster :=
  default demo_start (run_events demo_ids (λ _, None) true demo_start demo_events).

Lemma demo_run : cluster_steps demo_ids (λ _, None) true true (length demo_events) demo_cluster.
Proof.
  apply (run_events_sound _ _ _ _ demo_events demo_start _ 0); [constructor|].
  unfold demo_cluster. destruct (run_events _ _ _ _ _) eqn:E; [done|].
  exfalso. revert E. apply (bool_decide_unpack (_ ≠ None)). vm_compute. exact I.
Qed.

Lemma demo_ids_ok : NoDup demo_ids ∧ Forall is_u32 demo_ids.
Proof. split; [apply (bool_decide_unpack (NoDup demo_ids))|apply (bool_decide_unpack (Forall is_u32 demo_ids))]; vm_compute; exact I. Qed.

Definition demo_abort : RaftLogEntry := MkRaftLogEntry 2 1 TXN_ABORT (le_bytes 8 7).

Lemma raft_state_machine_safety_witness :
  applied_by demo_cluster 1 demo_abort ∧ ∀ e, applied_by demo_cluster 2 e → re_index e = 2 → e = demo_abort.
Proof.
  assert (applied_by demo_cluster 1 demo_abort) as H1.
  { left. apply (list_elem_of_lookup_2 _ 1). vm_compute. reflexivity. }
  split; [exact H1|]. intros e He Hix.
  destruct (raft_state_machine_safety demo_ids (λ _, None) true true (length demo_events) demo_cluster 2 1
    (proj1 demo_ids_ok) (proj2 demo_ids_ok) demo_run) as (H & _); [done|by right; left|by left|].
  exact (H e demo_abort He H1 Hix).
Defined.

(** C3. Election safety: in every run of a group there is at most one leader per
    term, also among leaders that have not noticed that they were replaced. *)
Theorem raft_election_safety (ids : list Z) (env : getenv) (in_process on_disk : bool) (k : nat)
    (c : Cluster) (i j : Z) :
  NoDup ids → Forall is_u32 ids → cluster_steps ids env in_process on_disk k c → Z.of_nat k < UINT32_MAX →
  i ∈ ids → j ∈ ids → role_ (nodes c i) = LEADER → role_ (nodes c j) = LEADER →
  current_term_ (nodes c i) = current_term_ (nodes c j) → i = j.
Proof.
  intros HN HF Hc Hk Hi Hj Ri Rj Et. destruct (cluster_refines ids env in_process on_disk HN HF k c Hc Hk) as (s & _ & [_ Hn _ _]).
  destruct (nr_lead _ _ _ _ (Hn i Hi) Ri) as [l Hl]. destruct (nr_lead _ _ _ _ (Hn j Hj) Rj) as [l' Hl'].
  rewrite (nr_term _ _ _ _ (Hn i Hi)), (nr_term _ _ _ _ (Hn j Hj)) in Et. rewrite Et in Hl. congruence.
Qed.

Lemma raft_election_safety_witness :
  role_ (nodes demo_cluster 1) = LEADER ∧
  ∀ j, j ∈ demo_ids → role_ (nodes demo_cluster j) = LEADER → current_term_ (nodes demo_cluster j) = 1 → 1 = j.
Proof.
  assert (role_ (nodes demo_cluster 1) = LEADER) as H1 by (vm_compute; reflexivity).
  split; [exact H1|]. intros j Hj Rj Et.
  apply (raft_election_safety demo_ids (λ _, None) true true (length demo_events) demo_cluster 1 j
    (proj1 demo_ids_ok) (proj2 demo_ids_ok) demo_run); [done|by left|exact Hj|exact H1|exact Rj|].
  rewrite Et. vm_compute. reflexivity.
Defined.

(** Leader completeness: what a node knows to be committed is in the log of
    every leader of the same or a later term, at the same index. *)
Theorem raft_leader_completeness (ids : list Z) (env : getenv) (in_process on_disk : bool) (k : nat)
    (c : Cluster) (i j index : Z) :
  NoDup ids → Forall is_u32 ids → cluster_steps ids env in_process on_disk k c → Z.of_nat k < UINT32_MAX →
  i ∈ ids → j ∈ ids → role_ (nodes c j) = LEADER → current_term_ (nodes c i) ≤ current_term_ (nodes c j) →
  1 ≤ index ≤ commit_index_ (nodes c i) →
  ∃ e, RaftLog_Get (log_ (nodes c i)) index = Some e ∧ RaftLog_Get (log_ (nodes c j)) index = Some e ∧ re_index e = index.
Proof.
  intros HN HF Hc Hk Hi Hj Rj Et Hix.
  destruct (cluster_refines ids env in_process on_disk HN HF k c Hc Hk) as (s & _ & [Hinv Hn _ _]).
  pose proof (Hn i Hi) as Hni. pose proof (Hn j Hj) as Hnj. rewrite (nr_commit _ _ _ _ Hni) in Hix.
  pose proof (certified_length _ _ _ _ _ (ri_commit _ _ Hinv i)) as Hcl.
  destruct (nr_disk _ _ _ _ Hni) as (Hwi & _ & _). destruct (nr_disk _ _ _ _ Hnj) as (Hwj & _ & _).
  rewrite !Get_wf by done. destruct (Z.leb_spec 1 index); [|lia].
  destruct (lookup_lt_is_Some_2 (rlog s i) (Z.to_nat (index - 1))) as [e He]; [lia|].
  pose proof (related_logs ids s i j _ _ (rcommit s i) Hinv Hni Hnj Rj Et ltac:(lia)) as E.
  exists e. rewrite (nr_log _ _ _ _ Hni), (nr_log _ _ _ _ Hnj). split_and!; [done| |].
  - rewrite <- (lookup_take_lt _ (rcommit s i)), E, lookup_take_lt by lia. done.
  - rewrite <- (nr_log _ _ _ _ Hni) in He. rewrite (proj1 Hwi _ _ He). lia.
Qed.

Lemma raft_leader_completeness_witness :
  RaftLog_Get (log_ (nodes demo_cluster 1)) 2 = Some demo_abort.
Proof.
  destruct (raft_leader_completeness demo_ids (λ _, None) true true (length demo_events) demo_cluster 2 1 2
    (proj1 demo_ids_ok) (proj2 demo_ids_ok) demo_run) as (e & He & Hl & _).
  - done.
  - by right; left.
  - by left.
  - vm_compute. reflexivity.
  - vm_compute. congruence.
  - vm_compute. split; congruence.
  - rewrite Hl, <- He. vm_compute. reflexivity.
Defined.

(** C4. The nodes implement the abstract protocol: every reachable group state
    corresponds to a state the protocol's steps reach, with the terms, logs and
    commit positions of the nodes and with every leader recorded as the leader of
    its term; and the protocol state satisfies the protocol's invariant. *)
Theorem raft_refines (ids : list Z) (env : getenv) (in_process on_disk : bool) (k : nat) (c : Cluster) :
  NoDup ids → Forall is_u32 ids → cluster_steps ids env in_process on_disk k c → Z.of_nat k < UINT32_MAX →
  ∃ s, rtc (raft_any ids) raft_init s ∧ raft_inv ids s ∧
    ∀ i, i ∈ ids → current_term_ (nodes c i) = rterm s i ∧ entries_ (log_ (nodes c i)) = rlog s i ∧
      commit_index_ (nodes c i) = Z.of_nat (rcommit s i) ∧
      (role_ (nodes c i) = LEADER → fst <$> leads s !! rterm s i = Some i).
Proof.
  intros HN HF Hc Hk. destruct (cluster_refines ids env in_process on_disk HN HF k c Hc Hk) as (s & Hs & [Hinv Hn _ _]).
  exists s. split_and!; [done|done|]. intros i Hi. pose proof (Hn i Hi) as [_ _ Ht Hl Hco _ _ _ _ _ Hle _ _ _ _ _].
  split_and!; [done|done|done|]. intros [l ->]%Hle. done.
Qed.

Lemma raft_refines_witness : ∃ s, rtc (raft_any demo_ids) raft_init s ∧ rterm s 1 = 1 ∧ length (rlog s 2) = 2%nat.
Proof.
  destruct (raft_refines demo_ids (λ _, None) true true (length demo_events) demo_cluster
    (proj1 demo_ids_ok) (proj2 demo_ids_ok) demo_run) as (s & Hs & _ & H); [done|].
  exists s. split; [exact Hs|]. destruct (H 1) as (E1 & _); [by left|]. destruct (H 2) as (_ & E2 & _); [by right; left|].
  rewrite <- E1, <- E2. split; vm_compute; reflexivity.
Defined.

(** A power failure that loses the last write of the term and the vote, which
    [PersistMeta] does not sync, lets a node vote for two candidates in one term:
    node 1 votes for 2 in term 1, starts again on the files it had before, and
    votes for 3. *)
Theorem forgotten_vote_is_repeated :
  let n := nodes demo_start 1 in
  let vote n who := HandleRequestVote n (MkRequestVoteRequest 1 who 0 0) in
  let n1 := (vote n 2).1 in
  let lost := restart_node (λ _, None) true (set_term_vote n1 (current_term_ n1) (voted_for_ n1) (meta_ n)) 0 in
  (vote n 2).2 = MkRequestVoteResponse 1 true ∧ (vote lost 3).2 = MkRequestVoteResponse 1 true ∧
  (vote (restart_node (λ _, None) true n1 0) 3).2 = MkRequestVoteResponse 1 false.
Proof. vm_compute. split_and!; reflexivity. Qed.

(** C7. Progress of a commit: when the running leader processes an
    acknowledgement of its term and the peers known to have an entry of its own
    term are a majority together with the leader, the entry is committed and
    applied at once: every caller of [WaitForCommit] on that index or a smaller
    one is released. *)
Theorem raft_commit_progress (ids : list Z) (env : getenv) (in_process on_disk : bool) (k : nat)
    (c : Cluster) (p : Z) (req : AppendEntriesRequest) (resp : AppendEntriesResponse) (index : Z) :
  NoDup ids → Forall is_u32 ids → cluster_steps ids env in_process on_disk k c → Z.of_nat k < UINT32_MAX →
  (p, req) ∈ app_reqs c → (p, req, resp) ∈ app_resps c →
  let n := nodes c (aq_leader_id req) in
  running_ n = true → role_ n = LEADER → aq_term req = current_term_ n →
  ar_term resp = current_term_ n → ar_success resp = true →
  index ≤ ar_match_index resp → index ≤ LastIndex (log_ n) → TermAt (log_ n) index = current_term_ n →
  MajorityThreshold n ≤ 1 + Z.of_nat (length (filter (λ q, q = p ∨ peer_has n index q = true) (peer_ids_ n))) →
  let n' := ProcessAppendEntriesResponse n p resp (aq_term req) in
  index ≤ commit_index_ n' ∧ ∀ x, x ≤ index → WaitForCommit_done n' x = true.
Proof.
  intros HN HF Hc Hk Hreq Hresp n Hrun Hr Hqt Hrt Hs Hix Hlast Hterm Hmaj.
  destruct (cluster_refines ids env in_process on_disk HN HF k c Hc Hk) as (s & _ & [Hinv Hn Hm Hb]).
  destruct (mo_areq _ _ _ _ Hm _ _ Hreq) as (Hp & Hne & Hl & _). destruct (mo_aresp _ _ _ _ Hm _ _ _ Hresp) as (Htb & Hack).
  destruct (process_rel ids HN HF s (aq_leader_id req) n (Z.of_nat k) p resp (aq_term req)) as (s' & Hs' & Hn' & _);
    [done|by apply Hn|done|by apply peers_of_spec|done|lia|done|done|].
  destruct (raft_steps_facts _ _ _ _ Hinv Hs') as (Hinv' & _ & _).
  unfold ProcessAppendEntriesResponse. rewrite Hqt in *. rewrite process_accept in * by done. cbn [fst] in Hn'.
  match type of Hn' with node_rel _ _ _ (AdvanceCommitIndexLocked ?x) => set (n1 := x) in * end.
  assert (index ≤ commit_index_ (AdvanceCommitIndexLocked n1)) as Hci.
  { apply advance_reaches; [done..|]. etrans; [exact Hmaj|]. unfold commit_votes. cbn [peer_ids_ n1 set_progress].
    apply Zplus_le_compat_l, Nat2Z.inj_le, length_filter_impl. intros q [-> |Hq]; unfold peer_has, n1 in *; cbn [match_index_ set_progress] in *.
    - rewrite lookup_insert_eq. apply Z.leb_le. lia.
    - destruct (decide (q = p)) as [->|Hqp]; [rewrite lookup_insert_eq; apply Z.leb_le; lia|].
      by rewrite lookup_insert_ne. }
  pose proof (apply_reaches ids s' _ _ Hinv' Hn') as Hap.
  split; [by rewrite apply_commit_index|]. intros x Hx. apply Z.leb_le. lia.
Qed.

(** The group before the leader processes its first acknowledgement. *)
Definition demo_acked : Cluster :=
  default demo_start (run_events demo_ids (λ _, None) true demo_start (take 7 demo_events)).
Definition demo_req : AppendEntriesRequest := MkAppendEntriesRequest 1 1 0 0 [MkRaftLogEntry 1 1 NOOP []] 0.
Definition demo_resp : AppendEntriesResponse := MkAppendEntriesResponse 1 true 1.

Lemma demo_acked_run : cluster_steps demo_ids (λ _, None) true true 7 demo_acked.
Proof.
  apply (run_events_sound _ _ _ _ (take 7 demo_events) demo_start _ 0); [constructor|].
  unfold demo_acked. destruct (run_events _ _ _ _ _) eqn:E; [done|].
  exfalso. revert E. apply (bool_decide_unpack (_ ≠ None)). vm_compute. exact I.
Qed.

Lemma raft_commit_progress_witness :
  WaitForCommit_done (nodes demo_acked 1) 1 = false ∧
  WaitForCommit_done (ProcessAppendEntriesResponse (nodes demo_acked 1) 2 demo_resp 1) 1 = true.
Proof.
  split; [vm_compute; reflexivity|].
  apply (raft_commit_progress demo_ids (λ _, None) true true 7 demo_acked 2 demo_req demo_resp 1
    (proj1 demo_ids_ok) (proj2 demo_ids_ok) demo_acked_run); try (vm_compute; congruence).
  - apply (list_elem_of_lookup_2 _ 0). vm_compute. reflexivity.
  - apply (list_elem_of_lookup_2 _ 0). vm_compute. reflexivity.
Defined.

(** C5. The data of the replicas. Let node [i] of a reachable group run its state
    machine over the entries it applied, with transactions of its own in between,
    and node [j], which has applied no more entries than [i], do so too, on stores
    that accept writes and were equal at the start. A run keeps to the rules of
    [replica_run]: a replica that began a transaction is the one that proposes its
    prepare entry ([proposed_here]; a leader that was deposed before it prepared
    breaks this, and then the replicas diverge, [stale_registration_diverges]), and a
    prepared transaction is not begun again, written to or aborted past the log. Then
    the store of each holds exactly the versions its entries stand for, and the store
    of [j] is the store that [i]'s entries gave when [i] was as far as [j]; with
    equally many entries the stores are equal. Every transaction prepared and
    undecided at that point of the log is prepared on both with the same writes
    when they are equally far. *)
Theorem raft_stores_agree {DB : Type} `{RocksDBLaws DB} `{GroupCommit} (ids : list Z) (env : getenv)
    (in_process on_disk : bool) (k : nat) (c : Cluster) (i j : Z)
    (tm1 tm2 : TxnManager DB) (n1 n2 : nat) (sm1 sm2 : RaftStateMachine DB) :
  NoDup ids → Forall is_u32 ids → cluster_steps ids env in_process on_disk k c → Z.of_nat k < UINT32_MAX →
  i ∈ ids → j ∈ ids →
  rdb_reliable DB → mgr_ok tm1 → mgr_ok tm2 → rdb_contents (store_ tm1) = rdb_contents (store_ tm2) →
  next_txn_id_ tm1 + Z.of_nat n1 < UINT64_MAX → next_txn_id_ tm2 + Z.of_nat n2 < UINT64_MAX →
  replica_run tm1 n1 (applied (nodes c i)) sm1 → replica_run tm2 n2 (applied (nodes c j)) sm2 →
  (length (applied (nodes c j)) ≤ length (applied (nodes c i)))%nat →
  let at_j := replay_log (rdb_contents (store_ tm1)) (take (length (applied (nodes c j))) (applied (nodes c i))) in
  rdb_contents (store_ (txn_mgr_ sm2)) = rp_store at_j ∧
  (∀ id ws, rp_pending at_j !! id = Some ws → prepared_on sm2 id ws) ∧
  (length (applied (nodes c j)) = length (applied (nodes c i)) →
    rdb_contents (store_ (txn_mgr_ sm1)) = rdb_contents (store_ (txn_mgr_ sm2)) ∧
    ∀ id ws, rp_pending at_j !! id = Some ws → prepared_on sm1 id ws).
Proof.
  intros HN HF Hc Hk Hi Hj Hrel Hok1 Hok2 Heq Hb1 Hb2 Hr1 Hr2 Hle at_j.
  destruct (cluster_refines ids env in_process on_disk HN HF k c Hc Hk) as (s & _ & [Hinv Hn _ _]).
  pose proof (applied_prefix ids s j i _ _ Hinv (Hn j Hj) (Hn i Hi) Hle) as Epre.
  pose proof (replica_run_inv Hrel tm1 n1 _ sm1 Hok1 Hb1 Hr1) as Hi1.
  pose proof (replica_run_inv Hrel tm2 n2 _ sm2 Hok2 Hb2 Hr2) as Hi2.
  rewrite <- Heq in Hi2. rewrite Epre in Hi2. fold at_j in Hi2.
  split_and!; [apply Hi2|intros id ws Hid; destruct (ri_pending _ _ _ Hi2 id ws Hid) as (l & txn & ?); by exists l, txn|].
  intros El. unfold at_j in *. rewrite El, firstn_all in *. split.
  - etransitivity; [apply Hi1|]. symmetry. apply Hi2.
  - intros id ws Hid. destruct (ri_pending _ _ _ Hi1 id ws Hid) as (l & txn & ?). by exists l, txn.
Qed.

(** A group that commits a transaction of RaftStateMachine.v: the leader proposes
    the entries [demo_entries] after its first entry. *)
Definition demo_txn_events : list Event :=
  take 9 demo_events ++ [EvPropose 1 TXN_PREPARE_BATCH (default [] (re_payload <$> demo_entries !! 0%nat));
   EvPropose 1 TXN_COMMIT (default [] (re_payload <$> demo_entries !! 1%nat));
   EvSend 1; EvAppend 0; EvAppendReply 0; EvSend 1; EvAppend 0; EvApply 1; EvApply 2].
Definition demo_txn_cluster : Cluster :=
  default demo_start (run_events demo_ids (λ _, None) true demo_start demo_txn_events).
Lemma demo_txn_run : cluster_steps demo_ids (λ _, None) true true (length demo_txn_events) demo_txn_cluster.
Proof.
  apply (run_events_sound _ _ _ _ demo_txn_events demo_start _ 0); [constructor|].
  unfold demo_txn_cluster. destruct (run_events _ _ _ _ _) eqn:E; [done|].
  exfalso. revert E. apply (bool_decide_unpack (_ ≠ None)). vm_compute. exact I.
Qed.

Definition demo_txn_applied : list RaftLogEntry :=
  [MkRaftLogEntry 1 1 NOOP [];
   MkRaftLogEntry 2 1 TXN_PREPARE_BATCH (default [] (re_payload <$> demo_entries !! 0%nat));
   MkRaftLogEntry 3 1 TXN_COMMIT (default [] (re_payload <$> demo_entries !! 1%nat))].

#[local] Existing Instance default_group_commit.

Lemma demo_txn_replica : mgr_ok demo_mgr ∧
  replica_run demo_mgr 3 demo_txn_applied (foldl SM.Apply (SM.new_sm demo_mgr) demo_txn_applied).
Proof.
  assert (mgr_ok demo_mgr) as Hok by (split; [done|by intros ??]). split; [done|].
  apply (follower_run MemDB_reliable demo_mgr demo_txn_applied); [done|done|].
  apply (bool_decide_unpack (Forall (λ e, is_Some (command_of e)) demo_txn_applied)). vm_compute. exact I.
Qed.

Lemma raft_stores_agree_witness :
  rdb_contents (store_ (txn_mgr_ (foldl SM.Apply (SM.new_sm demo_mgr) (applied (nodes demo_txn_cluster 2)))))
    !! EncodeKey 1 [x61] 8 = Some [x31].
Proof.
  assert (applied (nodes demo_txn_cluster 1) = demo_txn_applied) as E1 by (vm_compute; reflexivity).
  assert (applied (nodes demo_txn_cluster 2) = demo_txn_applied) as E2 by (vm_compute; reflexivity).
  destruct (raft_stores_agree demo_ids (λ _, None) true true (length demo_txn_events) demo_txn_cluster 1 2
    demo_mgr demo_mgr 3 3 (foldl SM.Apply (SM.new_sm demo_mgr) demo_txn_applied)
    (foldl SM.Apply (SM.new_sm demo_mgr) (applied (nodes demo_txn_cluster 2)))
    (proj1 demo_ids_ok) (proj2 demo_ids_ok) demo_txn_run) as (E & _);
    [done|by left|by right; left|exact MemDB_reliable|exact (proj1 demo_txn_replica)|exact (proj1 demo_txn_replica)|done|done|done|
     rewrite E1; exact (proj2 demo_txn_replica)|rewrite E2; exact (proj2 demo_txn_replica)|by rewrite E1, E2|].
  rewrite E, E1, E2. vm_compute. reflexivity.
Defined.
