(* ===== verification/RaftOrigin.v ===== *)
(** * Where the entries of a Raft group come from

    Raft moves entries between logs and applies them, but invents none: whatever the
    nodes of a group hold, send or have applied is the empty entry of a new leader or
    was proposed to one of them. *)
From Stdlib Require Import Strings.Byte.
From stdpp Require Import base functions relations gmap sets strings list.
From Stdlib Require Import ZArith Lia.
From S2P Require Import Prelude Status GroupCommit LogFile RaftLog RaftSpec RaftNode RaftCluster RaftReplication.
Local Open Scope Z_scope.

Section origin.
Context (P : RaftEntryType → bytes → Prop).

(** A leader's empty entry, or one whose type and payload satisfy [P]. *)
Definition entry_from (e : RaftLogEntry) : Prop :=
  re_type e = NOOP ∧ re_payload e = [] ∨ P (re_type e) (re_payload e).
Local Abbreviation all_from es := (Forall entry_from es).

(** ** Logs *)

Lemma AppendEntryToFile_entries l e : entries_ (AppendEntryToFile l e).1 = entries_ l.
Proof.
  unfold AppendEntryToFile, EnsureAppendFileOpen. destruct (persistent l); cbn [negb]; [|done].
  destruct (stream_open (raft_file l)); cbn [negb]; [done|]. by destruct (io_open _).
Qed.
Lemma SyncFileLocked_entries l : entries_ (SyncFileLocked l).1 = entries_ l.
Proof.
  unfold SyncFileLocked. destruct (persistent l); cbn [negb]; [|done]. destruct (stream_open (raft_file l)); cbn [negb]; [|done].
  by destruct (DurableFileSync _ _).
Qed.
Lemma RewriteFile_entries l : entries_ (RewriteFileFromMemory l).1 = entries_ l.
Proof.
  unfold RewriteFileFromMemory. destruct (persistent l); cbn [negb]; [|done].
  match goal with |- context [next_io ?f] => set (o := next_io f) end.
  destruct (io_open o); cbn [negb]; [|done]. case_bool_decide; [done|]. destruct (io_rename o); cbn [negb]; [|done].
  unfold EnsureAppendFileOpen. cbn. destruct (persistent l); cbn [negb]; [|done]. by destruct (io_open _).
Qed.

Lemma RaftLog_Append_from l t ty pl : all_from (entries_ l) →
  entry_from (MkRaftLogEntry (next_index (entries_ l)) t ty pl) → all_from (entries_ (RaftLog_Append l t ty pl).1).
Proof.
  intros Hl He. unfold RaftLog_Append. pose proof (AppendEntryToFile_entries l (MkRaftLogEntry (next_index (entries_ l)) t ty pl)) as E.
  destruct (AppendEntryToFile _ _) as [l1 ok]. cbn [fst] in E. destruct ok; cbn [negb fst]; [|by rewrite E].
  match goal with |- context [SyncFileLocked ?x] => pose proof (SyncFileLocked_entries x) as E2; destruct (SyncFileLocked x) as [l2 ok2] end.
  cbn [fst] in E2. assert (all_from (entries_ l2)); [|by destruct ok2].
  rewrite E2. cbn. rewrite E. apply Forall_app. split; [done|]. by apply Forall_singleton.
Qed.

Lemma append_one_from st e : all_from (entries_ st.1) → entry_from e → all_from (entries_ (append_one st e).1).
Proof.
  intros Hl He. destruct st as [l nr]. cbn [fst] in Hl.
  assert (Hsnoc : ∀ es, all_from es → all_from (es ++ [e])) by (intros; apply Forall_app; split; [done|by apply Forall_singleton]).
  assert (Hpush : ∀ (l : RaftLog) (nr : bool), all_from (entries_ l) → all_from (entries_
    (if negb (re_index e =? next_index (entries_ l)) then (l, nr)
     else if nr then (set_entries l (entries_ l ++ [e]), true)
     else let '(l, ok) := AppendEntryToFile l e in if negb ok then (l, false) else (set_entries l (entries_ l ++ [e]), false)).1)).
  { intros l1 nr1 H1. destruct (negb _); [done|]. destruct nr1; [by apply Hsnoc|].
    pose proof (AppendEntryToFile_entries l1 e) as E. destruct (AppendEntryToFile l1 e) as [l2 ok]. cbn [fst] in E.
    destruct ok; cbn [negb fst]; [cbn; rewrite E; by apply Hsnoc|by rewrite E]. }
  pose proof (Hpush l nr Hl) as Hp. pose proof Hl as Hl'. unfold append_one. revert Hp Hl'.
  destruct (entries_ l) as [|first es] eqn:E; intros Hp Hl'; [exact Hp|].
  destruct (_ <=? _); [|exact Hp]. destruct (_ !! _) as [cur|]; [|cbn [fst]; by rewrite E].
  destruct (re_term cur =? re_term e); [cbn [fst]; by rewrite E|]. apply (Hpush (set_entries l _) true). cbn [entries_ set_entries]. by apply Forall_take.
Qed.

Lemma AppendEntries_from l es : all_from (entries_ l) → all_from es → all_from (entries_ (RaftLog_AppendEntries l es)).
Proof.
  intros Hl Hes. assert (Hf : all_from (entries_ (foldl append_one (l, false) es).1)).
  { change l with ((l, false).1) in Hl. revert Hl. generalize (l, false). induction Hes as [|e es He _ IH]; intros st Hst; [done|].
    cbn [foldl]. by apply IH, append_one_from. }
  unfold RaftLog_AppendEntries. destruct (foldl append_one (l, false) es) as [l1 nr]. cbn [fst] in Hf.
  destruct nr; [by rewrite RewriteFile_entries|]. destruct (persistent l1); [by rewrite SyncFileLocked_entries|done].
Qed.

(** ** Nodes *)

Definition node_from (n : RaftNode) : Prop := all_from (entries_ (log_ n)) ∧ all_from (applied n).

Lemma ApplyCommitted_from n : node_from n → node_from (ApplyCommitted n).
Proof.
  unfold ApplyCommitted. generalize (Z.to_nat (commit_index_ n - last_applied_ n)). intros fuel. revert n.
  induction fuel as [|fuel IH]; intros n Hn; cbn [apply_loop]; [done|]. destruct (_ <? _); [|done].
  destruct (RaftLog_Get _ _) as [e|] eqn:E; [|done]. apply IH. destruct Hn as [Hl Ha]. split; [done|]. cbn.
  apply Forall_app. split; [done|]. apply Forall_singleton. rewrite Forall_forall in Hl. apply Hl.
  unfold RaftLog_Get in E. destruct (entries_ (log_ n)); [done|]. destruct (_ || _ || _); [done|]. by eapply list_elem_of_lookup_2.
Qed.
Lemma BecomeLeader_from n : node_from n → node_from (BecomeLeaderLocked n).
Proof.
  intros [Hl Ha]. unfold BecomeLeaderLocked. cbn [log_ set_pending set_progress set_role current_term_].
  pose proof (RaftLog_Append_from (log_ n) (current_term_ n) NOOP [] Hl (or_introl (conj eq_refl eq_refl))) as Hap.
  destruct (RaftLog_Append _ _ _ _) as [lg idx]. cbn [fst] in Hap. by destruct (negb _ && _).
Qed.
Lemma AdvanceCommit_from n : node_from n → node_from (AdvanceCommitIndexLocked n).
Proof.
  intros Hn. unfold AdvanceCommitIndexLocked. destruct (negb _); [done|]. destruct (_ <=? _); [done|]. by destruct (find_commit _ _ _).
Qed.

Lemma StartElection_begin_from n : node_from n → node_from (StartElection_begin n).1.
Proof. intros Hn. unfold StartElection_begin. by destruct (_ || _). Qed.
Lemma StartElection_reply_from n t v r : node_from n → node_from (StartElection_reply n t v r).1.
Proof.
  intros Hn. unfold StartElection_reply. destruct (negb (running_ n)); [done|]. destruct (_ && _); [done|].
  destruct (_ || _); [done|]. destruct (negb _ && _); [done|]. destruct (_ && negb _); [done|].
  destruct (_ <=? _); [|done]. by apply BecomeLeader_from.
Qed.
Lemma HandleRequestVote_from n r : node_from n → node_from (HandleRequestVote n r).1.
Proof.
  intros Hn. unfold HandleRequestVote. destruct (_ <? _); [done|].
  assert (Hb : node_from (if current_term_ n <? vq_term r then BecomeFollower n (vq_term r) else n)) by (by destruct (_ <? _)).
  revert Hb. generalize (if current_term_ n <? vq_term r then BecomeFollower n (vq_term r) else n). intros m Hm. by destruct (_ && _).
Qed.
Lemma HandleAppendEntries_from n r : node_from n → all_from (aq_entries r) → node_from (HandleAppendEntries_locked n r).1.1.
Proof.
  intros [Hl Ha] Hr. unfold HandleAppendEntries_locked. destruct (_ <? _); [done|].
  match goal with |- context [set_role ?x (role_ ?x) (aq_leader_id r)] =>
    assert (Hx : entries_ (log_ x) = entries_ (log_ n) ∧ applied x = applied n) by (by destruct (_ <? _));
    assert (Hlx : log_ x = log_ n) by (by destruct (_ <? _)); set (y := x) in * end.
  destruct Hx as [E1 E2]. destruct (_ && _); [split; cbn; by rewrite ?E1, ?E2|].
  split; cbn; case_bool_decide; cbn; rewrite ?E1, ?E2; try done. rewrite Hlx. by apply AppendEntries_from.
Qed.
Lemma ProcessAppend_from n p r t : node_from n → node_from (ProcessAppendEntriesResponse_locked n p r t).1.
Proof.
  intros Hn. unfold ProcessAppendEntriesResponse_locked. destruct (negb _); [done|]. destruct (_ && _); [done|].
  destruct (_ || _); [done|]. destruct (negb _); [done|]. by apply AdvanceCommit_from.
Qed.
Lemma Propose_from n ty pl : node_from n → P ty pl → node_from (Propose_locked n ty pl).1.1.
Proof.
  intros [Hl Ha] HP. unfold Propose_locked. destruct (negb _); [done|].
  pose proof (RaftLog_Append_from (log_ n) (current_term_ n) ty pl Hl (or_intror HP)) as Hap.
  destruct (RaftLog_Append _ _ _ _) as [lg idx]. cbn [fst] in Hap. destruct (_ =? _); [done|]. by destruct (IsBatchingEnabled _).
Qed.
Lemma Tick_from n hb ed : node_from n → node_from (TickOnce_begin n hb ed).1.
Proof.
  intros Hn%ApplyCommitted_from. unfold TickOnce_begin. destruct (negb _); [done|]. case_bool_decide; [done|]. by destruct ed.
Qed.
Lemma TickEnd_from n : node_from n → node_from (TickOnce_end n).
Proof.
  intros Hn. unfold TickOnce_end. apply ApplyCommitted_from. destruct (_ && _); [by apply AdvanceCommit_from|done].
Qed.
Lemma StepDown_from n t k o : node_from n → node_from (SendAppendEntries_end n t k o).
Proof. intros Hn. unfold SendAppendEntries_end. destruct (_ || _ || _); [done|]. destruct (_ <=? _); [done|]. by destruct o. Qed.
Lemma Flush_from n f : node_from n → node_from (FlushPendingProposals_locked n f).1.
Proof. intros Hn. unfold FlushPendingProposals_locked. destruct (_ || _ || _); [done|]. by destruct (_ && _). Qed.
Lemma Send_from n p r : node_from n → (p, r) ∈ SendAppendEntries_begin n → all_from (aq_entries r).
Proof.
  intros [Hl _]. unfold SendAppendEntries_begin. destruct (_ || _); [by intros ?%elem_of_nil|].
  intros (q & [= -> ->] & _)%list_elem_of_fmap. cbn. destruct (_ <=? _); [|by apply Forall_nil]. unfold GetRange.
  destruct (entries_ (log_ n)) as [|x es] eqn:E; [by apply Forall_nil|]. destruct (_ || _); [by apply Forall_nil|].
  apply Forall_forall. intros e (j & _ & Hj)%list_elem_of_omap. rewrite Forall_forall in Hl. by eapply Hl, list_elem_of_lookup_2.
Qed.

(** ** Groups *)

Record group_from (c : Cluster) : Prop := {
  gf_node i : node_from (nodes c i);
  gf_req p req : (p, req) ∈ app_reqs c → all_from (aq_entries req);
}.

(** Nothing new is proposed by the event, or only what satisfies [P]. *)
Definition event_from (ev : Event) : Prop := match ev with EvPropose _ ty pl => P ty pl | _ => True end.

Lemma set_from (f : Z → RaftNode) i n : (∀ j, node_from (f j)) → node_from n → ∀ j, node_from ((<[i := n]> f) j).
Proof. intros Hf Hn j. destruct (decide (j = i)) as [->|Hj]; [by rewrite fn_lookup_insert|by rewrite fn_lookup_insert_ne]. Qed.

Context (ids : list Z) (env : getenv) (in_process : bool).

Lemma restart_from c s b i k : cluster_rel ids c s b → i ∈ ids → persistent (log_ (nodes c i)) = true →
  node_from (nodes c i) → node_from (restart_node env in_process (nodes c i) k).
Proof.
  intros [_ Hn _ _] Hi Hp [Hl _]. destruct (nr_disk _ _ _ _ (Hn i Hi)) as (_ & Hsy & HF). rewrite <- (nr_log _ _ _ _ (Hn i Hi)) in HF.
  unfold restart_node, new_RaftNode. destruct (default _ (LoadMeta _)). destruct (LoadBatchingConfig _ _) as [[? ?] ?].
  split; cbn [log_ applied]; [|by apply Forall_nil]. by rewrite (reload_synced _ k Hp Hsy HF).
Qed.

Lemma run_event_from c s b ev c' : cluster_rel ids c s b → run_event ids env in_process c ev = Some c' → event_from ev →
  group_from c → group_from c'.
Proof.
  intros Hrel E Hev [Hn Hq].
  assert (Hon : ∀ i f, on_node ids c i f = Some c' → (∀ n, node_from n → node_from (f n)) → group_from c').
  { intros i f Ho Hf. unfold on_node in Ho. case_bool_decide; [|done]. injection Ho as <-. split; cbn; [|done].
    apply set_from; auto. }
  assert (Hset : ∀ els vq vs ap pa i n, node_from n →
    group_from (MkCluster (<[i := n]> (nodes c)) els vq vs (app_reqs c) ap pa)) by (split; cbn; [by apply set_from|done]).
  destruct ev; cbn [run_event event_from] in E, Hev.
  - apply (Hon _ _ E). by intros n [? ?].
  - destruct (bool_decide _ && _); [|done]. pose proof (StartElection_begin_from (nodes c i) (Hn i)) as Hs.
    destruct (StartElection_begin _) as [n [req|]]; [|done]. injection E as <-. by apply Hset.
  - destruct (vote_reqs c !! k) as [[p req]|]; [|done]. cbn in E. pose proof (HandleRequestVote_from (nodes c p) req (Hn p)) as Hs.
    destruct (HandleRequestVote _ _) as [n resp]. injection E as <-. by apply Hset.
  - destruct (elections c !! i) as [el|]; [|done]. cbn in E. destruct (el_todo el); [done|].
    destruct (vote_resps c !! k) as [[[q req] resp]|]; [|done]. destruct (_ && _); [|done].
    pose proof (StartElection_reply_from (nodes c i) (vq_term (el_req el)) (el_votes el) resp (Hn i)) as Hs.
    destruct (StartElection_reply _ _ _ _) as [n next]. injection E as <-. by apply Hset.
  - case_bool_decide; [|done]. injection E as <-. split; cbn; [done|]. intros p req [Hin|Hin]%elem_of_app; [|by eapply Hq].
    by eapply Send_from.
  - destruct (app_reqs c !! k) as [[p req]|] eqn:Ek; [|done]. cbn in E. apply list_elem_of_lookup_2 in Ek.
    pose proof (HandleAppendEntries_from (nodes c p) req (Hn p) (Hq _ _ Ek)) as Hs.
    destruct (HandleAppendEntries_locked _ _) as [[n resp] ap]. injection E as <-. by apply Hset.
  - destruct (app_resps c !! k) as [[[p req] resp]|]; [|done]. cbn in E. case_bool_decide; [|done]. injection E as <-.
    apply Hset. by apply ProcessAppend_from.
  - destruct (_ && _ && _); [|done]. apply (Hon _ _ E). intros n Hnn. by apply Propose_from.
  - apply (Hon _ _ E). apply ApplyCommitted_from.
  - destruct (bool_decide_reflect (i ∈ ids)) as [Hi|]; [|done]. destruct (persistent _) eqn:Hp; [|done]. injection E as <-.
    apply Hset. by eapply restart_from.
  - destruct (elections c !! i) as [el|]; [|done]. cbn in E. destruct (el_todo el); [done|].
    pose proof (StartElection_reply_from (nodes c i) (vq_term (el_req el)) (el_votes el) no_vote (Hn i)) as Hs.
    destruct (StartElection_reply _ _ _ _) as [n next]. injection E as <-. by apply Hset.
  - destruct (app_reqs c !! k) as [[p req]|]; [|done]. cbn in E. injection E as <-. apply Hset. by apply ProcessAppend_from.
  - apply (Hon _ _ E). intros n Hnn. by apply StepDown_from.
  - apply (Hon _ _ E). intros n Hnn. by apply Flush_from.
  - apply (Hon _ _ E). intros n Hnn. by apply Tick_from.
  - apply (Hon _ _ E). apply TickEnd_from.
  - apply (Hon _ _ E). by intros n [? ?].
  - destruct (bool_decide_reflect (i ∈ ids)) as [Hi|]; [|done]. destruct (persistent _) eqn:Hp; [|done]. injection E as <-.
    apply Hset. by eapply restart_from.
Qed.

Lemma cluster_init_from on_disk : group_from (cluster_init ids env in_process on_disk).
Proof.
  split; [|by intros p req ?%elem_of_nil]. intros i. cbn. unfold new_RaftNode. destruct (default _ _).
  destruct (LoadBatchingConfig _ _) as [[? ?] ?]. split; cbn [log_ applied]; [|by apply Forall_nil].
  replace (entries_ (new_RaftLog on_disk fresh_file)) with (@nil RaftLogEntry); [by apply Forall_nil|]. by destruct on_disk.
Qed.
End origin.
