(* ===== verification/RaftTransport.v ===== *)
(** * Transports between Raft nodes (src/src/raft/raft_transport.{h,cpp}, raft_node.{h,cpp})

    [RaftTransport] is the interface a node calls its peers through, and
    [RaftTransportLaws] what a transport has to promise: a call is a delivery of the
    request at the wanted peer, or none, and it returns the answer of the peer or the
    empty one. Module [Node] holds the methods of a node that make such calls:
    [StartElection], [SendAppendEntriesToAll], [Propose] and [TickOnce] are functions on
    the nodes of the group, and on every transport with the laws they are runs of the
    steps of RaftCluster.v. Module [InProcess] is the transport for nodes of one process,
    with simulated partitions; the transport over gRPC is in GrpcTransport.v. *)
From Stdlib Require Import Strings.Byte.
From stdpp Require Import base functions relations gmap sets strings list.
From Stdlib Require Import ZArith Lia.
From S2P Require Import Prelude Status GroupCommit LogFile RaftLog RaftSpec RaftNode RaftCluster RaftReplication.
Local Open Scope Z_scope.

Abbreviation Group := (Z → RaftNode).

(** The calls: they return the nodes as the call leaves them and the response. *)
Class RaftTransport (T : Type) := {
  SendAppendEntries : T → Group → Z → AppendEntriesRequest → Group * AppendEntriesResponse;
  SendRequestVote : T → Group → Z → RequestVoteRequest → Group * RequestVoteResponse;
}.

(** ** Methods of node [i] *)

Module Node.
Section methods.
Context {T : Type} `{RaftTransport T}.
Implicit Types (tr : T) (g : Group).

(** The loop over the jobs; the result counts the successful peers. *)
Fixpoint append_jobs tr (i sent_term : Z) (jobs : list (Z * AppendEntriesRequest)) g (successful : Z) : Group * Z :=
  match jobs with
  | [] => (g, successful)
  | (p, req) :: jobs =>
      let '(g, resp) := SendAppendEntries tr g p req in
      let successful := if ar_success resp then successful + 1 else successful in
      let g := <[i := ProcessAppendEntriesResponse (g i) p resp sent_term]> g in
      append_jobs tr i sent_term jobs g successful
  end.

(** [overdue]: see [SendAppendEntries_end]. *)
Definition SendAppendEntriesToAll tr (overdue : bool) g (i : Z) : Group :=
  if negb (bool_decide (role_ (g i) = LEADER)) || negb (running_ (g i)) then g
  else
    let sent_term := current_term_ (g i) in
    let '(g, successful) := append_jobs tr i sent_term (SendAppendEntries_begin (g i)) g 0 in
    <[i := SendAppendEntries_end (g i) sent_term successful overdue]> g.

(** The loop over the peers; the flag says that the node became leader. *)
Fixpoint ask_votes tr (i : Z) (req : RequestVoteRequest) (peers : list Z) (votes : Z) g : Group * bool :=
  match peers with
  | [] => (g, false)
  | p :: peers =>
      let '(g, resp) := SendRequestVote tr g p req in
      let '(n, next) := StartElection_reply (g i) (vq_term req) votes resp in
      let g := <[i := n]> g in
      match next with
      | NextPeer votes => ask_votes tr i req peers votes g
      | GiveUp => (g, false)
      | Elected => (g, true)
      end
  end.

Definition StartElection tr (overdue : bool) g (i : Z) : Group :=
  match StartElection_begin (g i) with
  | (_, None) => g
  | (n, Some req) =>
      let '(g, elected) := ask_votes tr i req (peer_ids_ n) 1 (<[i := n]> g) in
      if elected then SendAppendEntriesToAll tr overdue g i else g
  end.

Definition Propose tr (overdue : bool) g (i : Z) (type : RaftEntryType) (payload : bytes) : Group * Z :=
  let '(n, idx, send) := Propose_locked (g i) type payload in
  let g := <[i := n]> g in
  (if send then SendAppendEntriesToAll tr overdue g i else g, idx).

Definition FlushPendingProposals tr (overdue : bool) g (i : Z) (force : bool) : Group * bool :=
  let '(n, flush) := FlushPendingProposals_locked (g i) force in
  let g := <[i := n]> g in
  (if flush then SendAppendEntriesToAll tr overdue g i else g, flush).

(** The timers are tested where [TickOnce] reads the clock. *)
Definition TickOnce tr (heartbeat_due election_due overdue : bool) g (i : Z) : Group :=
  let '(n, action) := TickOnce_begin (g i) heartbeat_due election_due in
  let g := <[i := n]> g in
  match action with
  | TickReturn => g
  | TickLeader should_send =>
      let g := if should_send then SendAppendEntriesToAll tr overdue g i else g in
      <[i := TickOnce_end (g i)]> g
  | TickElection => StartElection tr overdue g i
  end.

(** What happens in a group: threads of node [i] tick, flush and propose. *)
Inductive GroupOp :=
  | GStart (i : Z)
  | GStop (i : Z)
  | GTick (i : Z) (heartbeat_due election_due overdue : bool)
  | GPropose (i : Z) (overdue : bool) (type : RaftEntryType) (payload : bytes)
  | GFlush (i : Z) (overdue force : bool).

Definition group_op g (x : T * GroupOp) : Group :=
  let '(tr, op) := x in
  match op with
  | GStart i => <[i := Start (g i)]> g
  | GStop i => <[i := Stop (g i)]> g
  | GTick i heartbeat_due election_due overdue => TickOnce tr heartbeat_due election_due overdue g i
  | GPropose i overdue type payload => (Propose tr overdue g i type payload).1
  | GFlush i overdue force => (FlushPendingProposals tr overdue g i force).1
  end.
End methods.
End Node.

(** ** The transport inside one process *)

(** [nodes_] maps ids to nodes; a node is named by its id in the group. *)
Record InProcessTransport := MkInProcessTransport {
  nodes_ : gmap Z Z;
  disconnected_ : gset Z;
}.

Module InProcess.
Implicit Types (tr : InProcessTransport) (g : Group).

Definition RegisterNode tr (node_id node : Z) : InProcessTransport :=
  MkInProcessTransport (<[node_id := node]> (nodes_ tr)) (disconnected_ tr).

Definition DisconnectNode tr (node_id : Z) : InProcessTransport :=
  MkInProcessTransport (nodes_ tr) ({[node_id]} ∪ disconnected_ tr).

Definition ReconnectNode tr (node_id node : Z) : InProcessTransport :=
  MkInProcessTransport (<[node_id := node]> (nodes_ tr)) (disconnected_ tr ∖ {[node_id]}).

(** The target of a call, or [None] when it gets the empty response. *)
Definition route tr (from target_id : Z) : option Z :=
  if bool_decide (from ∈ disconnected_ tr) || bool_decide (target_id ∈ disconnected_ tr) then None
  else nodes_ tr !! target_id.

Definition SendAppendEntries tr g (target_id : Z) (req : AppendEntriesRequest) : Group * AppendEntriesResponse :=
  match route tr (aq_leader_id req) target_id with
  | None => (g, MkAppendEntriesResponse 0 false 0)
  | Some target =>
      let '(n, resp) := HandleAppendEntries (g target) req in
      (<[target := n]> g, resp)
  end.

Definition SendRequestVote tr g (target_id : Z) (req : RequestVoteRequest) : Group * RequestVoteResponse :=
  match route tr (vq_candidate_id req) target_id with
  | None => (g, MkRequestVoteResponse 0 false)
  | Some target =>
      let '(n, resp) := HandleRequestVote (g target) req in
      (<[target := n]> g, resp)
  end.
End InProcess.

#[export] Instance in_process_transport : RaftTransport InProcessTransport :=
  { SendAppendEntries := InProcess.SendAppendEntries; SendRequestVote := InProcess.SendRequestVote }.

(** ** Runs of a group *)

Section steps.
Context (ids : list Z) (env : getenv) (in_process on_disk : bool).
Context (Hids : NoDup ids) (Hu32 : Forall is_u32 ids).
Implicit Types (g : Group) (c : Cluster) (i p : Z) (m : nat).
Local Abbreviation step := (cluster_step ids env in_process).
Local Abbreviation reached := (cluster_steps ids env in_process on_disk).

(** The nodes of [c] are those of [g]. *)
Definition agree c g : Prop := ∀ j, nodes c j = g j.

(** At most [m] steps lead to a group with the nodes [g]; [keep] holds of it. *)
Definition runs_to m c g (keep : Cluster → Prop) : Prop :=
  ∃ m' c', (m' ≤ m)%nat ∧ nsteps step m' c c' ∧ agree c' g ∧ keep c'.

Lemma runs_to_here m c g (keep : Cluster → Prop) : agree c g → keep c → runs_to m c g keep.
Proof. intros Hg Hk. exists 0%nat, c. split; [lia|]. split; [constructor|done]. Qed.

Lemma runs_to_step m c c1 g (keep : Cluster → Prop) : step c c1 → runs_to m c1 g keep → runs_to (S m) c g keep.
Proof.
  intros Hs (m' & c' & Hm & Hn & Hg & Hk). exists (S m'), c'. split; [lia|]. split; [by eapply nsteps_l|done].
Qed.

Lemma runs_to_trans m1 m2 c g1 g (keep1 keep : Cluster → Prop) : runs_to m1 c g1 keep1 →
  (∀ m c1, (m ≤ m1)%nat → nsteps step m c c1 → agree c1 g1 → keep1 c1 → runs_to m2 c1 g keep) →
  runs_to (m1 + m2) c g keep.
Proof.
  intros (m & c1 & Hm & Hn & Hg & Hk) H. destruct (H m c1 Hm Hn Hg Hk) as (m' & c' & Hm' & Hn' & Hg' & Hk').
  exists (m + m')%nat, c'. split; [lia|]. split; [by eapply nsteps_trans|done].
Qed.

Lemma runs_to_weaken m m' c g (keep keep' : Cluster → Prop) : (m ≤ m')%nat → (∀ c', keep c' → keep' c') →
  runs_to m c g keep → runs_to m' c g keep'.
Proof. intros Hm Hk (x & c' & Hx & Hn & Hg & Hc). exists x, c'. split; [lia|]. split_and!; [done..|auto]. Qed.

Lemma reached_steps k m c c' : reached k c → nsteps step m c c' → reached (k + m) c'.
Proof.
  intros Hk Hn. revert k Hk. induction Hn as [c|m c c1 c' Hs _ IH]; intros k Hk; [by rewrite Nat.add_0_r|].
  rewrite <- Nat.add_succ_comm. apply IH. by eapply cluster_next.
Qed.

(** What the methods rely on about the nodes. *)
Lemma reached_ids k c i : reached k c → Z.of_nat k < UINT32_MAX → i ∈ ids →
  node_id_ (nodes c i) = i ∧ peer_ids_ (nodes c i) = peers_of ids i ∧ Forall entry_ok (entries_ (log_ (nodes c i))).
Proof.
  intros Hc Hk Hi. destruct (cluster_refines ids env in_process on_disk Hids Hu32 k c Hc Hk) as (s & _ & [_ Hn _ _]).
  destruct (Hn i Hi) as [? ? ? El ? (_ & _ & ?)]. by rewrite El.
Qed.

Lemma agree_insert c g i n els vq vs aq ar pa : agree c g →
  agree (MkCluster (<[i := n]> (nodes c)) els vq vs aq ar pa) (<[i := n]> g).
Proof.
  intros Hg j. cbn. destruct (decide (j = i)) as [->|Hne]; [by rewrite !fn_lookup_insert|].
  by rewrite !fn_lookup_insert_ne.
Qed.

Lemma agree_twice c g i n : agree c (<[i := n]> g) → ∀ n', agree (set_node c i n') (<[i := n']> g).
Proof.
  intros Hg n' j. cbn. destruct (decide (j = i)) as [->|Hne]; [by rewrite !fn_lookup_insert|].
  rewrite !fn_lookup_insert_ne by done. rewrite (Hg j). by rewrite fn_lookup_insert_ne.
Qed.

Definition same_calls c c' : Prop := elections c' = elections c ∧ app_reqs c' = app_reqs c ∧ vote_reqs c' = vote_reqs c.


(** What a transport promises, for the transports that satisfy [ok]: a call of
    [SendAppendEntries] takes at most [cost] steps of the group. *)
Class RaftTransportLaws {T : Type} `{RaftTransport T} (ok : T → Prop) (cost : nat) : Prop := {
  append_law (tr : T) c g p req : ok tr → agree c g → (p, req) ∈ app_reqs c → Forall entry_ok (aq_entries req) →
    let '(g1, resp) := SendAppendEntries tr g p req in
    runs_to cost c g1 (λ c1, same_calls c c1 ∧ (resp = no_append ∨ (p, req, resp) ∈ app_resps c1));
  vote_law (tr : T) c g p req : ok tr → agree c g → (p, req) ∈ vote_reqs c →
    let '(g1, resp) := SendRequestVote tr g p req in
    runs_to 1 c g1 (λ c1, same_calls c c1 ∧ (resp = no_vote ∨ (p, req, resp) ∈ vote_resps c1));
}.

(** The deliveries transports are made of. *)
Lemma append_delivery c g p req n resp : agree c g → (p, req) ∈ app_reqs c → p ∈ ids →
  HandleAppendEntries (g p) req = (n, resp) →
  runs_to 2 c (<[p := n]> g) (λ c1, same_calls c c1 ∧ app_resps c1 = (p, req, resp) :: app_resps c).
Proof.
  intros Hg Hreq Hp. unfold HandleAppendEntries.
  destruct (HandleAppendEntries_locked (g p) req) as [[n1 resp1] ap] eqn:E.
  intros Hh. eapply runs_to_step; [apply (cs_append _ _ _ c p req n1 resp1 ap); [done|by rewrite (Hg p)]|].
  match goal with |- runs_to _ ?x _ _ => set (c1 := x) end.
  assert (agree c1 (<[p := n1]> g)) as Hg1 by (by apply agree_insert). injection Hh as <- <-. destruct ap.
  - eapply runs_to_step; [by apply (cs_apply _ _ _ c1 p)|]. rewrite (Hg1 p), fn_lookup_insert.
    apply runs_to_here; [by eapply agree_twice|done].
  - by apply runs_to_here.
Qed.

Lemma vote_delivery c g p req n resp : agree c g → (p, req) ∈ vote_reqs c → HandleRequestVote (g p) req = (n, resp) →
  runs_to 1 c (<[p := n]> g) (λ c1, same_calls c c1 ∧ (p, req, resp) ∈ vote_resps c1).
Proof.
  intros Hg Hreq Hh. eapply runs_to_step; [apply (cs_vote _ _ _ c p req n resp); [done|by rewrite (Hg p)]|].
  apply runs_to_here; [by apply agree_insert|]. split; [done|by left].
Qed.

Lemma same_calls_trans c c1 c2 : same_calls c c1 → same_calls c1 c2 → same_calls c c2.
Proof. unfold same_calls. intros (-> & -> & ->) (-> & -> & ->). done. Qed.
End steps.

(** ** The methods as runs of a group *)

Section runs.
Context (ids : list Z) (env : getenv) (in_process on_disk : bool).
Context (Hids : NoDup ids) (Hu32 : Forall is_u32 ids).
Context {T : Type} `{RaftTransport T} (ok : T → Prop) (cost : nat).
Context (Hlaws : RaftTransportLaws ids env in_process ok cost).
Implicit Types (tr : T) (g : Group) (c : Cluster) (i p : Z) (m : nat).
Local Abbreviation step := (cluster_step ids env in_process).
Local Abbreviation reached := (cluster_steps ids env in_process on_disk).
Local Abbreviation runs_to := (runs_to ids env in_process).
Local Abbreviation reached_ids := (reached_ids ids env in_process on_disk Hids Hu32).

(** A call of [SendAppendEntries] and the processing of its response. *)
Lemma append_call_run tr c g i p req : ok tr → agree c g → (p, req) ∈ app_reqs c → Forall entry_ok (aq_entries req) →
  i ∈ ids → aq_leader_id req = i →
  let '(g1, resp) := SendAppendEntries tr g p req in
  runs_to (cost + 2) c (<[i := ProcessAppendEntriesResponse (g1 i) p resp (aq_term req)]> g1) (same_calls c).
Proof.
  intros Htr Hg Hreq Hok Hi Hl. pose proof (append_law _ _ _ tr c g p req Htr Hg Hreq Hok) as Hcall.
  destruct (SendAppendEntries tr g p req) as [g1 resp]. eapply runs_to_trans; [exact Hcall|].
  intros m c1 _ _ Hg1 [(He & Ha & Hv) Hresp].
  pose proof (cs_append_reply ids env in_process c1 p req resp) as Hs. cbn zeta in Hs. rewrite Hl, Ha, (Hg1 i) in Hs.
  unfold ProcessAppendEntriesResponse. destruct (ProcessAppendEntriesResponse_locked _ _ _ _) as [n ap] eqn:E. cbn in Hs.
  eapply runs_to_step; [apply Hs; [done|]|].
  { destruct Hresp as [->|?]; [by left|by right]. }
  assert (agree (set_node c1 i n) (<[i := n]> g1)) as Hg2 by (by apply agree_insert).
  destruct ap; [|by apply runs_to_here].
  eapply runs_to_step; [by apply (cs_apply _ _ _ _ i)|]. apply runs_to_here; [|done].
  rewrite (Hg2 i), fn_lookup_insert. by eapply agree_twice.
Qed.


Lemma append_jobs_run tr i t jobs : ok tr → i ∈ ids → ∀ c g k, agree c g →
  (∀ p req, (p, req) ∈ jobs → (p, req) ∈ app_reqs c ∧ aq_leader_id req = i ∧ aq_term req = t ∧ Forall entry_ok (aq_entries req)) →
  runs_to ((cost + 2) * length jobs) c (Node.append_jobs tr i t jobs g k).1 (same_calls c).
Proof.
  intros Htr Hi. induction jobs as [|[p req] jobs IH]; intros c g k Hg Hj; cbn [Node.append_jobs].
  { by apply runs_to_here. }
  destruct (Hj p req) as (Hin & Hl & Ht & Hok); [by left|].
  pose proof (append_call_run tr c g i p req Htr Hg Hin Hok Hi Hl) as Hcall.
  destruct (SendAppendEntries tr g p req) as [g1 resp]. rewrite Ht in Hcall.
  replace ((cost + 2) * length ((p, req) :: jobs))%nat with (cost + 2 + (cost + 2) * length jobs)%nat by (cbn; lia).
  eapply runs_to_trans; [exact Hcall|]. intros m c1 _ _ Hg1 Hsame.
  eapply runs_to_weaken; [done| |apply IH; [done|]].
  - intros c2. by apply same_calls_trans.
  - intros q rq Hq. destruct Hsame as (_ & -> & _). apply Hj. by right.
Qed.

Lemma append_job_peer n p req : (p, req) ∈ SendAppendEntries_begin n →
  aq_leader_id req = node_id_ n ∧ aq_term req = current_term_ n ∧ aq_entries req ⊆ entries_ (log_ n).
Proof.
  unfold SendAppendEntries_begin. destruct (_ || _); [by intros ?%elem_of_nil|].
  intros (q & [= -> ->] & _)%list_elem_of_fmap. split_and!; [done..|]. intros e. cbn.
  destruct (_ <=? _); [|by intros ?%elem_of_nil]. unfold GetRange. destruct (entries_ (log_ n)) eqn:E; [by intros ?%elem_of_nil|].
  destruct (_ || _); [by intros ?%elem_of_nil|]. intros (j & _ & Hj)%list_elem_of_omap.
  exact (list_elem_of_lookup_2 _ _ _ Hj).
Qed.

Definition same_elections c c' : Prop := elections c' = elections c.

Lemma send_all_run tr overdue c g i : ok tr → agree c g → i ∈ ids → node_id_ (g i) = i →
  Forall entry_ok (entries_ (log_ (g i))) → runs_to ((cost + 2) * length (peer_ids_ (g i)) + 2) c (Node.SendAppendEntriesToAll tr overdue g i) (same_elections c).
Proof.
  intros Htr Hg Hi Hid Hlog. unfold Node.SendAppendEntriesToAll. destruct (_ || _) eqn:E; [by apply runs_to_here|].
  set (jobs := SendAppendEntries_begin (g i)).
  assert (length jobs = length (peer_ids_ (g i))) as Hlen.
  { unfold jobs, SendAppendEntries_begin. rewrite E. apply length_fmap. }
  rewrite Nat.add_comm. eapply runs_to_step; [by apply (cs_send _ _ _ c i)|]. rewrite (Hg i). fold jobs.
  match goal with |- runs_to _ ?x _ _ => set (c1 := x) end.
  pose proof (append_jobs_run tr i (current_term_ (g i)) jobs Htr Hi c1 g 0) as Hrun.
  destruct (Node.append_jobs _ _ _ _ _ _) as [g1 good]. rewrite <- Hlen.
  apply (runs_to_weaken _ _ _ ((cost + 2) * length jobs + 1) _ _ _ (same_elections c) (same_elections c)); [lia|done|].
  eapply runs_to_trans; [apply Hrun; [done|]|].
  - intros p req Hp. split; [by apply elem_of_app; left|]. destruct (append_job_peer _ _ _ Hp) as (-> & -> & Hsub).
    split_and!; [done..|]. rewrite Forall_forall in Hlog |- *. intros e He. by apply Hlog, Hsub.
  - intros m c2 _ _ Hg2 (He & _). eapply runs_to_step; [by apply (cs_step_down _ _ _ c2 i (current_term_ (g i)) good overdue)|].
    apply runs_to_here; [|done]. rewrite (Hg2 i). by apply agree_insert.
Qed.

(** No other loop of [StartElection] is touched, and that of [i] is over. *)
Definition election_over c i c' : Prop :=
  idle_election c' i = true ∧ ∀ j, j ≠ i → elections c' !! j = elections c !! j.

Lemma ask_votes_run tr i req : ok tr → i ∈ ids → ∀ peers votes c g, agree c g →
  elections c !! i = Some (MkElection req votes peers) → (∀ p, p ∈ peers → (p, req) ∈ vote_reqs c) →
  runs_to (2 * length peers) c (Node.ask_votes tr i req peers votes g).1 (election_over c i).
Proof.
  intros Htr Hi. induction peers as [|p peers IH]; intros votes c g Hg Hel Hp; cbn [Node.ask_votes].
  { apply runs_to_here; [done|]. split; [|done]. unfold idle_election. by rewrite Hel. }
  assert (∀ c1 g1 resp, agree c1 g1 → elections c1 = elections c → vote_reqs c1 = vote_reqs c →
    (resp = no_vote ∨ (p, req, resp) ∈ vote_resps c1) →
    runs_to (1 + 2 * length peers) c1
      (let '(n, next) := StartElection_reply (g1 i) (vq_term req) votes resp in
       match next with
       | NextPeer votes => Node.ask_votes tr i req peers votes (<[i := n]> g1)
       | GiveUp => (<[i := n]> g1, false)
       | Elected => (<[i := n]> g1, true)
       end).1 (election_over c i)) as Hreply.
  { intros c1 g1 resp Hg1 He Hv Hresp. destruct (StartElection_reply _ _ _ _) as [n next] eqn:E.
    eapply runs_to_step; [apply (cs_vote_reply _ _ _ c1 i (MkElection req votes (p :: peers)) p peers resp n next)|];
      [by rewrite He|done|done|by rewrite (Hg1 i)|].
    match goal with |- runs_to _ ?x _ _ => set (c2 := x) end.
    assert (agree c2 (<[i := n]> g1)) as Hg2 by (by apply agree_insert).
    assert (∀ j, j ≠ i → elections c2 !! j = elections c !! j) as Hoth.
    { intros j Hj. cbn. unfold next_election. rewrite He. destruct next; [case_bool_decide| |];
        by rewrite ?lookup_delete_ne, ?lookup_insert_ne by done. }
    assert (elections c2 !! i = None → election_over c i c2) as Hover.
    { intros Hn. split; [unfold idle_election; by rewrite Hn|done]. }
    assert (elections c2 = next_election c1 i (MkElection req votes (p :: peers)) peers next) as He2 by done.
    unfold next_election in He2. cbn [el_req] in He2.
    destruct next as [votes'| |]; [|apply runs_to_here; [done|]; apply Hover; by rewrite He2, lookup_delete_eq..].
    destruct peers as [|q peers].
    - rewrite bool_decide_eq_true_2 in He2 by done. apply runs_to_here; [done|]. apply Hover.
      by rewrite He2, lookup_delete_eq.
    - rewrite bool_decide_eq_false_2 in He2 by done. eapply runs_to_weaken; [|intros c3|apply (IH votes' c2); [done|by rewrite He2, lookup_insert_eq|]]; [lia| |].
      + intros [Hi3 Ho3]. split; [done|]. intros j Hj. rewrite (Ho3 j Hj). by apply Hoth.
      + intros x Hx. cbn. rewrite Hv. apply Hp. by right. }
  replace (2 * length (p :: peers))%nat with (S (1 + 2 * length peers)) by (cbn; lia).
  pose proof (vote_law _ _ _ tr c g p req Htr Hg (Hp p (list_elem_of_here p peers))) as Hcall.
  destruct (SendRequestVote tr g p req) as [g1 resp].
  eapply (runs_to_trans _ _ _ 1 (1 + 2 * length peers)); [exact Hcall|].
  intros m c1 _ _ Hg1 [(He & _ & Hv) Hresp]. by apply Hreply.
Qed.

Definition all_idle c : Prop := ∀ i, idle_election c i = true.

Lemma all_idle_same c c' : same_elections c c' → all_idle c → all_idle c'.
Proof. intros He Hi j. unfold idle_election. rewrite He. apply Hi. Qed.

Lemma election_run tr overdue c g i k : ok tr → agree c g → i ∈ ids → all_idle c → reached k c →
  Z.of_nat (k + 2 * length ids + 1) < UINT32_MAX →
  runs_to ((cost + 4) * length ids + 3) c (Node.StartElection tr overdue g i) all_idle.
Proof.
  intros Htr Hg Hi Hidle Hk Hb. unfold Node.StartElection.
  destruct (StartElection_begin (g i)) as [n [req|]] eqn:E; [|by apply runs_to_here].
  pose proof (cs_elect ids env in_process c i n req Hi (Hidle i)) as Hs. rewrite (Hg i) in Hs. specialize (Hs E).
  match type of Hs with cluster_step _ _ _ _ ?x => set (c1 := x) in * end.
  destruct (reached_ids (k + 1) c1 i) as (_ & Hpe & _); [rewrite Nat.add_1_r; by eapply cluster_next|lia|done|].
  cbn in Hpe. rewrite fn_lookup_insert in Hpe.
  pose proof (length_peers_of ids Hids i Hi) as Hlen. rewrite <- Hpe in Hlen.
  pose proof (ask_votes_run tr i req Htr Hi (peer_ids_ n) 1 c1 (<[i := n]> g)) as Hask.
  destruct (Node.ask_votes _ _ _ _ _ _) as [g1 elected]. cbn [fst] in Hask.
  eapply (runs_to_weaken _ _ _ (S (2 * length (peer_ids_ n) + ((cost + 2) * length ids + 2))) _ _ _ all_idle all_idle); [lia|done|].
  eapply runs_to_step; [exact Hs|]. eapply runs_to_trans; [apply Hask|].
  - by apply agree_insert.
  - cbn. by rewrite lookup_insert_eq.
  - intros p Hp. cbn. apply elem_of_app. left. apply list_elem_of_fmap. by exists p.
  - intros m c2 Hm Hst Hg2 [Hi2 Ho2].
    assert (all_idle c2) as Hidle2.
    { intros j. destruct (decide (j = i)) as [->|Hj]; [done|]. unfold idle_election. rewrite (Ho2 j Hj). cbn.
      rewrite lookup_insert_ne by done. apply (Hidle j). }
    destruct elected; [|by apply runs_to_here].
    destruct (reached_ids (k + 1 + m) c2 i) as (Hid2 & Hpe2 & Hlog2);
      [eapply reached_steps; [rewrite Nat.add_1_r; by eapply cluster_next|done]|lia|done|].
    rewrite (Hg2 i) in Hid2, Hpe2, Hlog2. eapply runs_to_weaken; [| |apply (send_all_run tr overdue c2 g1 i); done].
    + rewrite Hpe2, <- Hpe. lia.
    + intros c3 Hc3. by eapply all_idle_same.
Qed.

Definition op_ok (x : T * Node.GroupOp) : Prop :=
  ok x.1 ∧
  match x.2 with
  | Node.GStart i | Node.GStop i | Node.GTick i _ _ _ | Node.GFlush i _ _ => i ∈ ids
  | Node.GPropose i _ type payload => i ∈ ids ∧ is_u32 (Z.of_nat (length payload)) ∧
      type = RaftEntryType_of_Z (RaftEntryType_to_Z type) ∧ 0 ≤ RaftEntryType_to_Z type < 256
  end.

(** A step of node [i] and then a broadcast, or not. *)
Lemma step_and_send tr overdue (send : bool) c g i n k : ok tr → agree c g → i ∈ ids → all_idle c → reached k c →
  Z.of_nat (k + 1) < UINT32_MAX → step c (set_node c i n) →
  runs_to ((cost + 2) * length ids + 3) c
    (if send then Node.SendAppendEntriesToAll tr overdue (<[i := n]> g) i else <[i := n]> g) all_idle.
Proof.
  intros Htr Hg Hi Hidle Hk Hb Hs. pose proof (agree_insert c g i n (elections c) (vote_reqs c) (vote_resps c)
    (app_reqs c) (app_resps c) (past c) Hg) as Hg1.
  replace ((cost + 2) * length ids + 3)%nat with (S ((cost + 2) * length ids + 2)) by lia.
  eapply runs_to_step; [exact Hs|]. destruct send; [|apply runs_to_here; [exact Hg1|exact Hidle]].
  destruct (reached_ids (k + 1) (set_node c i n) i) as (Hid & Hpe & Hlog);
    [rewrite Nat.add_1_r; by eapply cluster_next|done|done|].
  pose proof (Hg1 i : nodes (set_node c i n) i = (<[i := n]> g) i) as Ei. rewrite Ei in Hid, Hpe, Hlog.
  pose proof (length_peers_of ids Hids i Hi) as Hlen.
  eapply runs_to_weaken; [|intros c2 Hc2|apply send_all_run; [done|exact Hg1|done..]].
  - rewrite Hpe. lia.
  - by eapply all_idle_same.
Qed.

Lemma tick_run tr hb ed overdue c g i k : ok tr → agree c g → i ∈ ids → all_idle c → reached k c →
  Z.of_nat (k + 2 * length ids + 2) < UINT32_MAX →
  runs_to ((cost + 4) * length ids + 4) c (Node.TickOnce tr hb ed overdue g i) all_idle.
Proof.
  intros Htr Hg Hi Hidle Hk Hb. unfold Node.TickOnce.
  pose proof (cs_tick ids env in_process c i hb ed Hi) as Hs. rewrite (Hg i) in Hs.
  destruct (TickOnce_begin (g i) hb ed) as [n action] eqn:E. cbn [fst] in Hs.
  pose proof (agree_insert c g i n (elections c) (vote_reqs c) (vote_resps c) (app_reqs c) (app_resps c) (past c) Hg) as Hg1.
  assert (1 ≤ length ids)%nat as Hne by (destruct ids; [by apply elem_of_nil in Hi|cbn; lia]).
  destruct action as [|send|].
  - replace ((cost + 4) * length ids + 4)%nat with (S ((cost + 4) * length ids + 3)) by lia.
    eapply runs_to_step; [exact Hs|]. by apply runs_to_here.
  - eapply (runs_to_weaken _ _ _ (((cost + 2) * length ids + 3) + 1) _ _ _ all_idle all_idle); [lia|done|].
    eapply runs_to_trans; [apply (step_and_send tr overdue send c g i n k); try done; lia|].
    intros m c2 _ _ Hg2 Hi2. eapply runs_to_step; [by apply (cs_tick_end _ _ _ c2 i)|].
    rewrite (Hg2 i). apply runs_to_here; [by apply agree_insert|exact Hi2].
  - replace ((cost + 4) * length ids + 4)%nat with (S ((cost + 4) * length ids + 3)) by lia.
    eapply runs_to_step; [exact Hs|]. apply (election_run tr overdue _ _ i (k + 1)); try done; [|lia].
    rewrite Nat.add_1_r. by eapply cluster_next.
Qed.

Lemma group_op_run x c g k : op_ok x → agree c g → all_idle c → reached k c →
  Z.of_nat (k + 2 * length ids + 2) < UINT32_MAX →
  runs_to ((cost + 4) * length ids + 4) c (Node.group_op g x) all_idle.
Proof.
  destruct x as [tr op]. intros [Htr Hop] Hg Hidle Hk Hb. cbn [fst snd] in *.
  assert (∀ i n, step c (set_node c i n) → runs_to ((cost + 4) * length ids + 4) c (<[i := n]> g) all_idle) as Hone.
  { intros i n Hs. replace ((cost + 4) * length ids + 4)%nat with (S ((cost + 4) * length ids + 3)) by lia.
    eapply runs_to_step; [exact Hs|]. apply runs_to_here; [by apply agree_insert|exact Hidle]. }
  destruct op as [i|i|i hb ed overdue|i overdue type payload|i overdue force]; cbn [Node.group_op].
  - apply Hone. rewrite <- (Hg i). by apply cs_start.
  - apply Hone. rewrite <- (Hg i). by apply cs_stop.
  - by apply (tick_run tr hb ed overdue c g i k).
  - destruct Hop as (Hi & Hp & Ht & Hz). unfold Node.Propose.
    pose proof (cs_propose ids env in_process c i type payload Hi Hp Ht Hz) as Hs. rewrite (Hg i) in Hs.
    destruct (Propose_locked (g i) type payload) as [[n idx] send]. cbn [fst] in *.
    eapply (runs_to_weaken _ _ _ _ _ _ _ all_idle all_idle); [|done|apply (step_and_send tr overdue send c g i n k); try done]; lia.
  - unfold Node.FlushPendingProposals. pose proof (cs_flush ids env in_process c i force Hop) as Hs. rewrite (Hg i) in Hs.
    destruct (FlushPendingProposals_locked (g i) force) as [n flush]. cbn [fst] in *.
    eapply (runs_to_weaken _ _ _ _ _ _ _ all_idle all_idle); [|done|apply (step_and_send tr overdue flush c g i n k); try done]; lia.
Qed.

Lemma group_run_steps ops : Forall op_ok ops → ∀ c g k, agree c g → all_idle c → reached k c →
  Z.of_nat (k + (1 + length ops) * ((cost + 4) * length ids + 4)) < UINT32_MAX →
  ∃ k' c', (k' ≤ k + length ops * ((cost + 4) * length ids + 4))%nat ∧ reached k' c' ∧ agree c' (foldl Node.group_op g ops).
Proof.
  induction 1 as [|x ops Hx _ IH]; intros c g k Hg Hidle Hk Hb.
  { exists k, c. split; [lia|done]. }
  cbn [length] in Hb. destruct (group_op_run x c g k Hx Hg Hidle Hk) as (m & c1 & Hm & Hst & Hg1 & Hi1); [lia|].
  destruct (IH c1 _ (k + m)%nat Hg1 Hi1) as (k' & c' & Hk' & Hr & Ha); [by eapply reached_steps|lia|].
  exists k', c'. cbn [length foldl]. split; [lia|done].
Qed.
End runs.

(** ** Nodes of one process *)

(** Ids are registered with their own node. *)
Definition registered (ids : list Z) (tr : InProcessTransport) : Prop :=
  ∀ p x, nodes_ tr !! p = Some x → x = p ∧ p ∈ ids.

#[export] Instance in_process_laws ids env in_process : RaftTransportLaws ids env in_process (registered ids) 2.
Proof.
  assert (Hroute : ∀ tr from p x, registered ids tr → InProcess.route tr from p = Some x → x = p ∧ p ∈ ids).
  { intros tr from p x Htr. unfold InProcess.route. destruct (_ || _); [done|]. apply Htr. }
  split; intros tr c g p req Htr Hg Hreq; [intros _|]; cbn.
  - unfold InProcess.SendAppendEntries. destruct (InProcess.route tr _ p) as [x|] eqn:Hr.
    2: { apply runs_to_here; [done|]. split; [done|by left]. }
    destruct (Hroute _ _ _ _ Htr Hr) as [-> Hp]. destruct (HandleAppendEntries (g p) req) as [n resp] eqn:E.
    eapply runs_to_weaken; [done| |by apply append_delivery]. intros c1 [? ->]. split; [done|]. right. by left.
  - unfold InProcess.SendRequestVote. destruct (InProcess.route tr _ p) as [x|] eqn:Hr.
    2: { apply runs_to_here; [done|]. split; [done|by left]. }
    destruct (Hroute _ _ _ _ Htr Hr) as [-> Hp]. destruct (HandleRequestVote (g p) req) as [n resp] eqn:E.
    eapply runs_to_weaken; [done| |by apply vote_delivery]. intros c1 [? ?]. split; [done|by right].
Qed.

(** A group of nodes in one process, on the in-process transport with any
    partitions, is a run of the group's steps: any sequence of ticks, elections,
    broadcasts, proposals and flushes, with the whole of each method executed at
    once, reaches nodes that the steps of the cluster reach, within a number of
    steps linear in the number of operations. The guarantees for reachable groups
    therefore hold of it. *)
Theorem in_process_refines (ids : list Z) (env : getenv) (on_disk : bool)
    (ops : list (InProcessTransport * Node.GroupOp)) :
  NoDup ids → Forall is_u32 ids → Forall (op_ok ids (registered ids)) ops →
  Z.of_nat ((1 + length ops) * (6 * length ids + 4)) < UINT32_MAX →
  let init := nodes (cluster_init ids env true on_disk) in
  ∃ k c, cluster_steps ids env true on_disk k c ∧ (k ≤ length ops * (6 * length ids + 4))%nat ∧
    ∀ i, nodes c i = foldl Node.group_op init ops i.
Proof.
  intros HN HF Hops Hb init. destruct (group_run_steps ids env true on_disk HN HF (registered ids) 2 _ ops Hops
    (cluster_init ids env true on_disk) init 0) as (k & c & Hk & Hr & Ha); [done|done|constructor|lia|].
  by exists k, c.
Qed.

Definition demo_transport : InProcessTransport :=
  InProcess.DisconnectNode (foldl (λ tr i, InProcess.RegisterNode tr i i) (MkInProcessTransport ∅ ∅) demo_ids) 3.
Definition demo_ops : list (InProcessTransport * Node.GroupOp) :=
  (λ op, (demo_transport, op)) <$> [Node.GStart 1; Node.GStart 2; Node.GStart 3;
    Node.GTick 1 false true false; Node.GPropose 1 false TXN_ABORT (le_bytes 8 7);
    Node.GTick 1 true false false].

Lemma demo_ops_ok : Forall (op_ok demo_ids (registered demo_ids)) demo_ops.
Proof.
  assert (registered demo_ids demo_transport) as Hreg.
  { intros p x. unfold demo_transport. cbn [nodes_ InProcess.DisconnectNode demo_ids foldl InProcess.RegisterNode].
    rewrite !lookup_insert_Some, lookup_empty. set_solver. }
  unfold demo_ops. apply Forall_fmap. repeat (apply Forall_cons; split); try (split; [exact Hreg|]); cbn; try apply Forall_nil;
    try set_solver. split; [set_solver|done].
Qed.

(** With node 3 cut off, node 1 is elected and commits the proposal on node 2. *)
Lemma in_process_refines_witness : ∃ k c, cluster_steps demo_ids (λ _, None) true false k c ∧
  role_ (nodes c 1) = LEADER ∧ applied (nodes c 2) = [MkRaftLogEntry 1 1 NOOP []; demo_abort].
Proof.
  destruct (in_process_refines demo_ids (λ _, None) false demo_ops (proj1 demo_ids_ok) (proj2 demo_ids_ok) demo_ops_ok)
    as (k & c & Hc & _ & E); [done|].
  exists k, c. rewrite !E. split; [exact Hc|]. split; vm_compute; reflexivity.
Defined.
