(* ===== verification/GrpcTransport.v ===== *)
(** * Raft over gRPC (src/src/raft/grpc_raft_transport.{h,cpp}, raft_grpc_service.{h,cpp},
    raft_proto_convert.{h,cpp}, src/proto/raft.proto)

    The messages of the Raft service, their conversion from and to the structures of a
    node, the service that answers calls and the transport that makes them. gRPC itself
    is the parameter [Network]: which service listens at an address, and whether a call
    reaches it and its answer comes back. The transport has the laws of RaftTransport.v,
    so a group of replica processes is a run of the group's steps as well. *)
From Stdlib Require Import Strings.Byte Strings.Ascii.
From stdpp Require Import base functions relations gmap sets strings list.
From Stdlib Require Import ZArith Lia.
From S2P Require Import Prelude Status GroupCommit LogFile RaftLog RaftSpec RaftNode RaftCluster RaftReplication RaftTransport.
Local Open Scope Z_scope.

(** ** The messages of raft.proto *)

Module raft.
Record RaftLogEntryMsg := MkRaftLogEntryMsg {
  index : Z;
  term : Z;
  entry_type : Z;
  payload : bytes;
}.
Record AppendEntriesRequest := MkAppendEntriesRequest {
  aq_term : Z;
  aq_leader_id : Z;
  aq_prev_log_index : Z;
  aq_prev_log_term : Z;
  aq_entries : list RaftLogEntryMsg;
  aq_leader_commit : Z;
}.
Record AppendEntriesResponse := MkAppendEntriesResponse {
  ar_term : Z;
  ar_success : bool;
  ar_match_index : Z;
}.
Record RequestVoteRequest := MkRequestVoteRequest {
  vq_term : Z;
  vq_candidate_id : Z;
  vq_last_log_index : Z;
  vq_last_log_term : Z;
}.
Record RequestVoteResponse := MkRequestVoteResponse {
  vr_term : Z;
  vr_vote_granted : bool;
}.
Record InstallSnapshotRequest := MkInstallSnapshotRequest {
  sq_term : Z;
  sq_leader_id : Z;
  sq_last_included_index : Z;
  sq_last_included_term : Z;
  sq_data : bytes;
}.
Record InstallSnapshotResponse := MkInstallSnapshotResponse {
  sr_term : Z;
  sr_success : bool;
}.
End raft.

(** ** Conversion *)

(** The enumeration has one byte, the field of the message 32 bits. *)
Definition EntryTypeToWire (t : RaftEntryType) : Z := u32 (RaftEntryType_to_Z t).
Definition EntryTypeFromWire (t : Z) : RaftEntryType := RaftEntryType_of_Z (t `mod` 256).

Module Convert.
Definition entry_to (e : RaftLogEntry) : raft.RaftLogEntryMsg :=
  raft.MkRaftLogEntryMsg (re_index e) (re_term e) (EntryTypeToWire (re_type e)) (re_payload e).
Definition entry_from (e : raft.RaftLogEntryMsg) : RaftLogEntry :=
  MkRaftLogEntry (raft.index e) (raft.term e) (EntryTypeFromWire (raft.entry_type e)) (raft.payload e).

Definition append_request_to (r : AppendEntriesRequest) : raft.AppendEntriesRequest :=
  raft.MkAppendEntriesRequest (aq_term r) (aq_leader_id r) (aq_prev_log_index r) (aq_prev_log_term r)
    (entry_to <$> aq_entries r) (aq_leader_commit r).
Definition append_request_from (r : raft.AppendEntriesRequest) : AppendEntriesRequest :=
  MkAppendEntriesRequest (raft.aq_term r) (raft.aq_leader_id r) (raft.aq_prev_log_index r) (raft.aq_prev_log_term r)
    (entry_from <$> raft.aq_entries r) (raft.aq_leader_commit r).

Definition append_response_to (r : AppendEntriesResponse) : raft.AppendEntriesResponse :=
  raft.MkAppendEntriesResponse (ar_term r) (ar_success r) (ar_match_index r).
Definition append_response_from (r : raft.AppendEntriesResponse) : AppendEntriesResponse :=
  MkAppendEntriesResponse (raft.ar_term r) (raft.ar_success r) (raft.ar_match_index r).

Definition vote_request_to (r : RequestVoteRequest) : raft.RequestVoteRequest :=
  raft.MkRequestVoteRequest (vq_term r) (vq_candidate_id r) (vq_last_log_index r) (vq_last_log_term r).
Definition vote_request_from (r : raft.RequestVoteRequest) : RequestVoteRequest :=
  MkRequestVoteRequest (raft.vq_term r) (raft.vq_candidate_id r) (raft.vq_last_log_index r) (raft.vq_last_log_term r).

Definition vote_response_to (r : RequestVoteResponse) : raft.RequestVoteResponse :=
  raft.MkRequestVoteResponse (vr_term r) (vr_vote_granted r).
Definition vote_response_from (r : raft.RequestVoteResponse) : RequestVoteResponse :=
  MkRequestVoteResponse (raft.vr_term r) (raft.vr_vote_granted r).
End Convert.

(** ** The service *)

Inductive GrpcStatus := GRPC_OK | FAILED_PRECONDITION | UNAVAILABLE | DEADLINE_EXCEEDED.
#[export] Instance GrpcStatus_eq_dec : EqDecision GrpcStatus.
Proof. solve_decision. Defined.

(** [node_]: the id of the node, or the null pointer. A handler returns the nodes, the
    status and the response. *)
Module RaftServiceImpl.
Definition AppendEntries (node_ : option Z) (g : Group) (request : raft.AppendEntriesRequest) :
    Group * (GrpcStatus * raft.AppendEntriesResponse) :=
  match node_ with
  | None => (g, (FAILED_PRECONDITION, raft.MkAppendEntriesResponse 0 false 0))
  | Some i =>
      let '(n, resp) := HandleAppendEntries (g i) (Convert.append_request_from request) in
      (<[i := n]> g, (GRPC_OK, Convert.append_response_to resp))
  end.

Definition RequestVote (node_ : option Z) (g : Group) (request : raft.RequestVoteRequest) :
    Group * (GrpcStatus * raft.RequestVoteResponse) :=
  match node_ with
  | None => (g, (FAILED_PRECONDITION, raft.MkRequestVoteResponse 0 false))
  | Some i =>
      let '(n, resp) := HandleRequestVote (g i) (Convert.vote_request_from request) in
      (<[i := n]> g, (GRPC_OK, Convert.vote_response_to resp))
  end.

Definition InstallSnapshot (request : raft.InstallSnapshotRequest) : GrpcStatus * raft.InstallSnapshotResponse :=
  (GRPC_OK, raft.MkInstallSnapshotResponse (raft.sq_term request) false).
End RaftServiceImpl.

(** ** gRPC *)

(** A call does not reach the service, or its answer misses the deadline, or neither. *)
Inductive Delivery := Unreached | ReplyLost | Replied.
(** The calls one method makes to one peer. *)
Inductive Rpc := AppendRpc | DuplicateRpc | VoteRpc.
(** The services by the address they listen at, each with its [node_]. *)
Record Network := MkNetwork {
  services : gmap bytes (option Z);
  delivery : Rpc → bytes → Delivery;
}.

(** A blocking call of a stub. *)
Definition grpc_call {Req Resp} (net : Network) (rpc : Rpc) (addr : bytes) (none : Resp)
    (handler : option Z → Group → Req → Group * (GrpcStatus * Resp)) (g : Group) (request : Req) :
    Group * (GrpcStatus * Resp) :=
  match services net !! addr with
  | None => (g, (UNAVAILABLE, none))
  | Some node_ =>
      match delivery net rpc addr with
      | Unreached => (g, (UNAVAILABLE, none))
      | ReplyLost => ((handler node_ g request).1, (DEADLINE_EXCEEDED, none))
      | Replied => handler node_ g request
      end
  end.

(** ** The transport *)

(** Channels and stubs stand for the address they were created with. *)
Record GrpcRaftTransport := MkGrpcRaftTransport {
  local_node_id_ : Z;
  channels_ : gmap Z bytes;
  stubs_ : gmap Z bytes;
  partitioned_peers_ : gset Z;
  disconnected_local_ : gset Z;
}.
Definition new_GrpcRaftTransport : GrpcRaftTransport := MkGrpcRaftTransport UINT32_MAX ∅ ∅ ∅ ∅.

Module Grpc.
Implicit Types (tr : GrpcRaftTransport) (g : Group).

Definition AddPeer tr (peer_id : Z) (raft_addr : bytes) : GrpcRaftTransport :=
  MkGrpcRaftTransport (local_node_id_ tr) (<[peer_id := raft_addr]> (channels_ tr)) (<[peer_id := raft_addr]> (stubs_ tr))
    (partitioned_peers_ tr) (disconnected_local_ tr).
Definition SetLocalNodeId tr (node_id : Z) : GrpcRaftTransport :=
  MkGrpcRaftTransport node_id (channels_ tr) (stubs_ tr) (partitioned_peers_ tr) (disconnected_local_ tr).
Definition set_partitioned tr (ps : gset Z) : GrpcRaftTransport :=
  MkGrpcRaftTransport (local_node_id_ tr) (channels_ tr) (stubs_ tr) ps (disconnected_local_ tr).
Definition DisconnectPeer tr (peer_id : Z) : GrpcRaftTransport := set_partitioned tr ({[peer_id]} ∪ partitioned_peers_ tr).
Definition ReconnectPeer tr (peer_id : Z) : GrpcRaftTransport := set_partitioned tr (partitioned_peers_ tr ∖ {[peer_id]}).
Definition StubFor tr (target_id : Z) : option bytes := stubs_ tr !! target_id.

Definition DuplicateAppendEnabled (env : getenv) : bool :=
  match env "TRANS_DB_RAFT_DUPLICATE_APPEND"%string with
  | Some (String c _) => bool_decide (c = "1"%char)
  | _ => false
  end.

(** The checks both calls begin with: the address to call, if any. *)
Definition route tr (from target_id : Z) : option bytes :=
  if bool_decide (target_id ∈ partitioned_peers_ tr) || bool_decide (from ∈ partitioned_peers_ tr) ||
     bool_decide (local_node_id_ tr ∈ disconnected_local_ tr) then None
  else stubs_ tr !! target_id.

Definition SendAppendEntries (env : getenv) (net : Network) tr g (target_id : Z) (req : AppendEntriesRequest) :
    Group * AppendEntriesResponse :=
  match route tr (aq_leader_id req) target_id with
  | None => (g, MkAppendEntriesResponse 0 false 0)
  | Some stub =>
      let pb_req := Convert.append_request_to req in
      let none := raft.MkAppendEntriesResponse 0 false 0 in
      let '(g, (st, pb_resp)) := grpc_call net AppendRpc stub none RaftServiceImpl.AppendEntries g pb_req in
      if negb (bool_decide (st = GRPC_OK)) then (g, MkAppendEntriesResponse 0 false 0)
      else
        let resp := Convert.append_response_from pb_resp in
        let g := if DuplicateAppendEnabled env
                 then (grpc_call net DuplicateRpc stub none RaftServiceImpl.AppendEntries g pb_req).1 else g in
        (g, resp)
  end.

Definition SendRequestVote (net : Network) tr g (target_id : Z) (req : RequestVoteRequest) :
    Group * RequestVoteResponse :=
  match route tr (vq_candidate_id req) target_id with
  | None => (g, MkRequestVoteResponse 0 false)
  | Some stub =>
      let none := raft.MkRequestVoteResponse 0 false in
      let '(g, (st, pb_resp)) :=
        grpc_call net VoteRpc stub none RaftServiceImpl.RequestVote g (Convert.vote_request_to req) in
      if negb (bool_decide (st = GRPC_OK)) then (g, MkRequestVoteResponse 0 false)
      else (g, Convert.vote_response_from pb_resp)
  end.
End Grpc.

(** A replica process: its environment and transport, and the network at the time of
    a call. *)
Record GrpcCaller := MkGrpcCaller {
  caller_env : getenv;
  caller_transport : GrpcRaftTransport;
  caller_net : Network;
}.
#[export] Instance grpc_transport : RaftTransport GrpcCaller := {
  SendAppendEntries := λ x, Grpc.SendAppendEntries (caller_env x) (caller_net x) (caller_transport x);
  SendRequestVote := λ x, Grpc.SendRequestVote (caller_net x) (caller_transport x)
}.

(** ** What is sent is what arrives *)

Lemma entry_from_to e : entry_ok e → Convert.entry_from (Convert.entry_to e) = e.
Proof.
  intros (_ & _ & _ & Ht & Hb). destruct e as [i t ty pl]. unfold Convert.entry_from, Convert.entry_to. cbn in *. f_equal.
  unfold EntryTypeFromWire, EntryTypeToWire. rewrite u32_id by (unfold is_u32; lia). by rewrite Z.mod_small.
Qed.
Lemma append_request_from_to r : Forall entry_ok (aq_entries r) →
  Convert.append_request_from (Convert.append_request_to r) = r.
Proof.
  intros Hok. destruct r as [t l pi pt es ct]. unfold Convert.append_request_from, Convert.append_request_to. cbn in *. f_equal.
  rewrite <- list_fmap_compose. induction Hok as [|e es He _ IH]; [done|]. cbn. by rewrite entry_from_to, IH.
Qed.
Lemma vote_request_from_to r : Convert.vote_request_from (Convert.vote_request_to r) = r.
Proof. by destruct r. Qed.
Lemma append_response_from_to r : Convert.append_response_from (Convert.append_response_to r) = r.
Proof. by destruct r. Qed.
Lemma vote_response_from_to r : Convert.vote_response_from (Convert.vote_response_to r) = r.
Proof. by destruct r. Qed.

(** ** The laws *)

(** Behind the address of a peer listens the service of that peer, or nobody, or a
    service without a node. *)
Definition wired (ids : list Z) (x : GrpcCaller) : Prop :=
  ∀ p addr i, stubs_ (caller_transport x) !! p = Some addr → services (caller_net x) !! addr = Some (Some i) →
    i = p ∧ p ∈ ids.

Section laws.
Context (ids : list Z) (env : getenv) (in_process : bool).
Implicit Types (c : Cluster) (g : Group) (p : Z).
Local Abbreviation runs_to := (runs_to ids env in_process).

(** A call of a stub: at most one delivery; a successful one returns its answer. *)
Lemma append_call net rpc addr c g p req : (∀ i, services net !! addr = Some (Some i) → i = p ∧ p ∈ ids) →
  agree c g → (p, req) ∈ app_reqs c → Forall entry_ok (aq_entries req) →
  let '(g1, (st, resp)) := grpc_call net rpc addr (raft.MkAppendEntriesResponse 0 false 0)
    RaftServiceImpl.AppendEntries g (Convert.append_request_to req) in
  runs_to 2 c g1 (λ c1, same_calls c c1 ∧
    app_resps c ⊆ app_resps c1 ∧ (st = GRPC_OK → (p, req, Convert.append_response_from resp) ∈ app_resps c1)).
Proof.
  intros Hnet Hg Hreq Hok. unfold grpc_call.
  assert (Hnone : ∀ st resp, st ≠ GRPC_OK → runs_to 2 c g (λ c1, same_calls c c1 ∧
    app_resps c ⊆ app_resps c1 ∧ (st = GRPC_OK → (p, req, Convert.append_response_from resp) ∈ app_resps c1))).
  { intros st resp Hst. by apply runs_to_here. }
  destruct (services net !! addr) as [[i|]|] eqn:Es; [|destruct (delivery net rpc addr); by apply Hnone|by apply Hnone].
  destruct (Hnet i eq_refl) as [-> Hp]. unfold RaftServiceImpl.AppendEntries. rewrite append_request_from_to by done.
  destruct (HandleAppendEntries (g p) req) as [n resp] eqn:E.
  pose proof (append_delivery ids env in_process c g p req n resp Hg Hreq Hp E) as Hd.
  destruct (delivery net rpc addr); [by apply Hnone|..]; cbn [fst];
    (eapply runs_to_weaken; [done| |exact Hd]; intros c1 [Hs ->]; split_and!; [done|by apply list_subseteq_cons|]; try done).
  rewrite append_response_from_to. by left.
Qed.

Lemma vote_call net addr c g p req : (∀ i, services net !! addr = Some (Some i) → i = p ∧ p ∈ ids) →
  agree c g → (p, req) ∈ vote_reqs c →
  let '(g1, (st, resp)) := grpc_call net VoteRpc addr (raft.MkRequestVoteResponse 0 false)
    RaftServiceImpl.RequestVote g (Convert.vote_request_to req) in
  runs_to 1 c g1 (λ c1, same_calls c c1 ∧
    (st = GRPC_OK → (p, req, Convert.vote_response_from resp) ∈ vote_resps c1)).
Proof.
  intros Hnet Hg Hreq. unfold grpc_call.
  assert (Hnone : ∀ st resp, st ≠ GRPC_OK → runs_to 1 c g (λ c1, same_calls c c1 ∧
    (st = GRPC_OK → (p, req, Convert.vote_response_from resp) ∈ vote_resps c1))).
  { intros st resp Hst. by apply runs_to_here. }
  destruct (services net !! addr) as [[i|]|] eqn:Es; [|destruct (delivery net VoteRpc addr); by apply Hnone|by apply Hnone].
  destruct (Hnet i eq_refl) as [-> Hp]. unfold RaftServiceImpl.RequestVote. rewrite vote_request_from_to.
  destruct (HandleRequestVote (g p) req) as [n resp] eqn:E.
  pose proof (vote_delivery ids env in_process c g p req n resp Hg Hreq E) as Hd.
  destruct (delivery net VoteRpc addr); [by apply Hnone|..]; cbn [fst];
    (eapply runs_to_weaken; [done| |exact Hd]; intros c1 [Hs Hin]; split; [done|]; intros Hst; try done).
  by rewrite vote_response_from_to.
Qed.

Lemma wired_route x from p addr : wired ids x → Grpc.route (caller_transport x) from p = Some addr →
  ∀ i, services (caller_net x) !! addr = Some (Some i) → i = p ∧ p ∈ ids.
Proof. unfold Grpc.route. destruct (_ || _ || _); [done|]. intros Hx Hs i. by apply Hx. Qed.

(** The call and its duplicate are two deliveries of the request. *)
#[export] Instance grpc_laws : RaftTransportLaws ids env in_process (wired ids) 4.
Proof.
  split; intros x c g p req Hx Hg Hreq; [intros Hok|]; cbn.
  - unfold Grpc.SendAppendEntries. destruct (Grpc.route _ _ p) as [addr|] eqn:Er.
    2: { apply runs_to_here; [done|]. split; [done|by left]. }
    pose proof (wired_route x _ p addr Hx Er) as Hnet.
    pose proof (append_call (caller_net x) AppendRpc addr c g p req Hnet Hg Hreq Hok) as Hcall.
    destruct (grpc_call _ _ _ _ _ _ _) as [g1 [st resp]]. case_bool_decide as Est; cbn [negb].
    2: { eapply runs_to_weaken; [| |exact Hcall]; [lia|]. intros c1 [Hs _]. split; [done|by left]. }
    eapply (runs_to_trans _ _ _ 2 2); [exact Hcall|]. intros m c1 _ _ Hg1 (Hs & _ & Hin). specialize (Hin Est).
    destruct (Grpc.DuplicateAppendEnabled _); [|apply runs_to_here; [done|]; split; [done|by right]].
    assert (Hreq1 : (p, req) ∈ app_reqs c1) by (by destruct Hs as (_ & -> & _)).
    pose proof (append_call (caller_net x) DuplicateRpc addr c1 g1 p req Hnet Hg1 Hreq1 Hok) as Hdup.
    destruct (grpc_call _ _ _ _ _ g1 _) as [g2 [st2 resp2]]. eapply runs_to_weaken; [done| |exact Hdup].
    intros c2 (Hs2 & Hsub & _). split; [by eapply same_calls_trans|]. right. by apply Hsub.
  - unfold Grpc.SendRequestVote. destruct (Grpc.route _ _ p) as [addr|] eqn:Er.
    2: { apply runs_to_here; [done|]. split; [done|by left]. }
    pose proof (wired_route x _ p addr Hx Er) as Hnet.
    pose proof (vote_call (caller_net x) addr c g p req Hnet Hg Hreq) as Hcall.
    destruct (grpc_call _ _ _ _ _ _ _) as [g1 [st resp]].
    case_bool_decide as Est; cbn [negb]; (eapply runs_to_weaken; [done| |exact Hcall]; intros c1 [Hs Hin]; split; [done|]);
      [right; by apply Hin|by left].
Qed.
End laws.

(** C6. Replica processes that talk over gRPC. On transports whose addresses lead to the
    services of the right peers, with any partitions, calls that do not arrive or are not
    answered in time, and duplicated AppendEntries requests, any sequence of ticks,
    elections, broadcasts, proposals and flushes reaches nodes that the steps of the
    cluster reach, within a number of steps linear in the number of operations: nothing
    is lost or altered between the structures of a node and the messages on the wire, and
    the guarantees for reachable groups hold. *)
Theorem grpc_refines (ids : list Z) (env : getenv) (on_disk : bool) (ops : list (GrpcCaller * Node.GroupOp)) :
  NoDup ids → Forall is_u32 ids → Forall (op_ok ids (wired ids)) ops →
  Z.of_nat ((1 + length ops) * (8 * length ids + 4)) < UINT32_MAX →
  let init := nodes (cluster_init ids env false on_disk) in
  ∃ k c, cluster_steps ids env false on_disk k c ∧ (k ≤ length ops * (8 * length ids + 4))%nat ∧
    ∀ i, nodes c i = foldl Node.group_op init ops i.
Proof.
  intros HN HF Hops Hb init. destruct (group_run_steps ids env false on_disk HN HF (wired ids) 4 _ ops Hops
    (cluster_init ids env false on_disk) init 0) as (k & c & Hk & Hr & Ha); [done|done|constructor|lia|].
  by exists k, c.
Qed.

(** Node 1 duplicates its requests; node 3 does not answer and cannot be reached. *)
Definition demo_addr (i : Z) : bytes := [byte_of_Z i].
Definition demo_net : Network :=
  MkNetwork (list_to_map ((λ i, (demo_addr i, Some i)) <$> demo_ids))
    (λ rpc a, if bool_decide (a = demo_addr 3) then (if rpc is VoteRpc then ReplyLost else Unreached) else Replied).
Definition demo_caller (i : Z) : GrpcCaller :=
  MkGrpcCaller (λ _, Some "1"%string)
    (foldl (λ tr p, Grpc.AddPeer tr p (demo_addr p)) (Grpc.SetLocalNodeId new_GrpcRaftTransport i) (peers_of demo_ids i)) demo_net.
Definition demo_grpc_ops : list (GrpcCaller * Node.GroupOp) :=
  [(demo_caller 1, Node.GStart 1); (demo_caller 2, Node.GStart 2); (demo_caller 3, Node.GStart 3);
   (demo_caller 1, Node.GTick 1 false true false); (demo_caller 1, Node.GPropose 1 false TXN_ABORT (le_bytes 8 7));
   (demo_caller 1, Node.GFlush 1 false true); (demo_caller 1, Node.GTick 1 true false false)].

Lemma demo_caller_wired i : i ∈ demo_ids → wired demo_ids (demo_caller i).
Proof.
  intros Hi p addr j Hs Hn.
  assert (Hall : ∀ q a, stubs_ (caller_transport (demo_caller i)) !! q = Some a → a = demo_addr q ∧ q ∈ demo_ids).
  { set_unfold in Hi. destruct Hi as [-> |[-> |[-> |[]]]]; intros q a; cbn [caller_transport demo_caller];
      match goal with |- context [peers_of demo_ids ?x] => let l := eval vm_compute in (peers_of demo_ids x) in change (peers_of demo_ids x) with l end;
      cbn [foldl Grpc.AddPeer stubs_ Grpc.SetLocalNodeId new_GrpcRaftTransport];
      rewrite !lookup_insert_Some, lookup_empty; set_solver. }
  destruct (Hall _ _ Hs) as [-> Hp]. split; [|done]. apply elem_of_list_to_map_2 in Hn.
  apply list_elem_of_fmap in Hn as (q & [= E ->] & Hq). set_unfold in Hp. set_unfold in Hq.
  destruct Hp as [-> |[-> |[-> |[]]]], Hq as [-> |[-> |[-> |[]]]]; done.
Qed.

Lemma demo_grpc_ops_ok : Forall (op_ok demo_ids (wired demo_ids)) demo_grpc_ops.
Proof.
  unfold demo_grpc_ops. repeat (apply Forall_cons; split); try by apply Forall_nil.
  all: split; [apply demo_caller_wired; set_solver|].
  all: cbn [snd]; apply (bool_decide_unpack _); vm_compute; exact I.
Qed.

Lemma grpc_refines_witness : ∃ k c, cluster_steps demo_ids (λ _, None) false false k c ∧
  role_ (nodes c 1) = LEADER ∧ applied (nodes c 2) = [MkRaftLogEntry 1 1 NOOP []; demo_abort].
Proof.
  destruct (grpc_refines demo_ids (λ _, None) false demo_grpc_ops (proj1 demo_ids_ok) (proj2 demo_ids_ok) demo_grpc_ops_ok)
    as (k & c & Hc & _ & E); [done|].
  exists k, c. rewrite !E. split; [exact Hc|]. split; vm_compute; reflexivity.
Defined.
