(* ===== verification/Text.v ===== *)
(** * Characters and numbers as text

    What the SQL layer uses of the C and C++ standard library: character classes
    in the C locale, [std::to_string] of integers, [std::from_chars], [std::stoll],
    and IEEE doubles with [std::stod], [std::to_string] and stream output at the
    default precision. Doubles are the binary64 numbers of the Standard Library's
    [SpecFloat]. *)
From Stdlib Require Import Strings.Byte Strings.Ascii Strings.String.
From stdpp Require Import base gmap strings list.
From Stdlib Require Import ZArith Lia Floats.SpecFloat.
From S2P Require Import Prelude.
Local Open Scope Z_scope.

(** Text of the sources as bytes. *)
Definition str (s : string) : bytes := list_byte_of_string s.
Definition ch (c : ascii) : byte := byte_of_ascii c.
#[global] Arguments ch _%_char_scope.
#[global] Arguments str _%_string_scope.

(** ** Character classes ([<cctype>] in the C locale) *)

Definition between (a b : Z) (c : byte) : bool := (a <=? byte_to_Z c) && (byte_to_Z c <=? b).
Definition isspace (c : byte) : bool := between 9 13 c || (byte_to_Z c =? 32).
Definition isdigit (c : byte) : bool := between 48 57 c.
Definition isupper (c : byte) : bool := between 65 90 c.
Definition islower (c : byte) : bool := between 97 122 c.
Definition isalpha (c : byte) : bool := isupper c || islower c.
Definition isalnum (c : byte) : bool := isalpha c || isdigit c.
Definition toupper (c : byte) : byte := if islower c then byte_of_Z (byte_to_Z c - 32) else c.
Definition tolower (c : byte) : byte := if isupper c then byte_of_Z (byte_to_Z c + 32) else c.

(** The longest initial segment whose bytes satisfy [p], and the rest. *)
Fixpoint span (p : byte → bool) (s : bytes) : bytes * bytes :=
  match s with
  | [] => ([], [])
  | c :: s' => if p c then let '(a, b) := span p s' in (c :: a, b) else ([], s)
  end.

(** ** Integers *)

Definition digit_val (c : byte) : Z := byte_to_Z c - 48.
Definition digits_value (s : bytes) : Z := foldl (λ a c, 10 * a + digit_val c) 0 s.

(** Decimal digits of [n] in front of [acc]; [fuel] digits at most. *)
Fixpoint dec_digits (fuel : nat) (n : Z) (acc : bytes) : bytes :=
  match fuel with
  | O => acc
  | S fuel =>
      let acc := byte_of_Z (48 + n mod 10) :: acc in
      if n <? 10 then acc else dec_digits fuel (n / 10) acc
  end.
Definition dec (n : Z) : bytes := dec_digits (S (Z.to_nat (Z.log2 n))) n [].

(** [std::to_string] of an integer. *)
Definition to_string (n : Z) : bytes := if n <? 0 then ch "-" :: dec (- n) else dec n.

Definition INT64_MIN : Z := - 2 ^ 63.
Definition INT64_MAX : Z := 2 ^ 63 - 1.
Definition is_i64 (z : Z) : Prop := INT64_MIN ≤ z ≤ INT64_MAX.
#[export] Instance is_i64_dec z : Decision (is_i64 z).
Proof. unfold is_i64. apply _. Defined.

(** [std::from_chars] on the whole of [s]: an optional minus sign and digits, in
    the range of [int64_t]. *)
Definition ParseInt64 (s : bytes) : option Z :=
  let '(neg, ds) := match s with
                    | c :: s' => if bool_decide (c = ch "-") then (true, s') else (false, s)
                    | [] => (false, s)
                    end in
  match ds with
  | [] => None
  | _ =>
      if forallb isdigit ds then
        let v := if (neg : bool) then - digits_value ds else digits_value ds in
        if bool_decide (is_i64 v) then Some v else None
      else None
  end.

(** [std::stoll]: leading white space, a sign, digits, anything; [None] when it
    throws (no digits or out of range). *)
Definition stoll (s : bytes) : option Z :=
  let s := (span isspace s).2 in
  let '(neg, s) := match s with
                   | c :: s' => if bool_decide (c = ch "-") then (true, s')
                                else if bool_decide (c = ch "+") then (false, s') else (false, s)
                   | [] => (false, s)
                   end in
  match (span isdigit s).1 with
  | [] => None
  | ds => let v := if (neg : bool) then - digits_value ds else digits_value ds in
          if bool_decide (is_i64 v) then Some v else None
  end.

(** ** Doubles *)

Abbreviation double := spec_float.
Definition prec : Z := 53.
Definition emax : Z := 1024.

Definition dadd (a b : double) : double := SFadd prec emax a b.
Definition dsub (a b : double) : double := SFsub prec emax a b.
Definition dlt (a b : double) : bool := SFltb a b.
Definition dle (a b : double) : bool := SFleb a b.
Definition dabs (a : double) : double := SFabs a.

(** [static_cast<double>] of an integer. *)
Definition double_of_Z (v : Z) : double := binary_normalize prec emax v 0 false.

(** The double nearest to [num] / [den], ties to even. *)
Definition double_of_ratio (neg : bool) (num den : Z) : double :=
  if num =? 0 then S754_zero neg
  else let '(q, e, l) := SFdiv_core_binary prec emax num 0 den 0 in binary_round_aux prec emax neg q e l.

(** The magnitude of a finite double as a ratio. *)
Definition ratio_of (m : positive) (e : Z) : Z * Z :=
  if 0 <=? e then (Z.pos m * 2 ^ e, 1) else (Z.pos m, 2 ^ (- e)).

(** [static_cast<int64_t>] of a double; [None] where it is undefined. *)
Definition double_to_int64 (d : double) : option Z :=
  match d with
  | S754_zero _ => Some 0
  | S754_finite s m e =>
      let '(n, k) := ratio_of m e in
      let v := if s then - (n / k) else n / k in
      if bool_decide (is_i64 v) then Some v else None
  | _ => None
  end.

(** *** [std::stod] *)

Definition hex_val (c : byte) : option Z :=
  if isdigit c then Some (digit_val c)
  else let u := byte_to_Z (toupper c) in if (65 <=? u) && (u <=? 70) then Some (u - 55) else None.
Definition ishex (c : byte) : bool := bool_decide (is_Some (hex_val c)).
Definition hex_value (s : bytes) : Z := foldl (λ a c, 16 * a + default 0 (hex_val c)) 0 s.

(** An exponent after the letter [letter]: its value and what follows. *)
Definition read_exponent (letter : ascii) (s : bytes) : Z * bytes :=
  match s with
  | c :: s' =>
      if bool_decide (tolower c = ch letter) then
        let '(neg, s'') := match s' with
                           | x :: t => if bool_decide (x = ch "-") then (true, t)
                                       else if bool_decide (x = ch "+") then (false, t) else (false, s')
                           | [] => (false, s')
                           end in
        match span isdigit s'' with
        | ([], _) => (0, s)
        | (ds, rest) => ((if (neg : bool) then - digits_value ds else digits_value ds), rest)
        end
      else (0, s)
  | [] => (0, s)
  end.

(** Digits with an optional point: the digits before and after it, and what
    follows; [None] without a digit. *)
Definition read_mantissa (isd : byte → bool) (s : bytes) : option (bytes * bytes * bytes) :=
  let '(whole, rest) := span isd s in
  let '(frac, rest) := match rest with
                       | c :: r => if bool_decide (c = ch ".") then span isd r else ([], rest)
                       | [] => ([], rest)
                       end in
  match whole ++ frac with [] => None | _ => Some (whole, frac, rest) end.

(** A number with mantissa [m] and scale [base ^ e]; [None] when the result
    overflows or is tiny and inexact ([ERANGE]). *)
Definition scaled_double (neg : bool) (m base e : Z) : option double :=
  if m =? 0 then Some (S754_zero neg)
  else
    let '(num, den) := if 0 <=? e then (m * base ^ e, 1) else (m, base ^ (- e)) in
    let d := double_of_ratio neg num den in
    match d with
    | S754_infinity _ => None
    | S754_finite _ m' e' =>
        let '(n, k) := ratio_of m' e' in
        if (Z.pos m' <? 2 ^ (prec - 1)) && negb (n * den =? num * k) then None else Some d
    | S754_zero _ => None
    | S754_nan => None
    end.

Definition starts_nocase (w : string) (s : bytes) : bool :=
  bool_decide (tolower <$> take (String.length w) s = str w).

(** The value and the number of characters read; [None] when it throws. *)
Definition stod (text : bytes) : option (double * nat) :=
  let s := (span isspace text).2 in
  let '(neg, s) := match s with
                   | c :: s' => if bool_decide (c = ch "-") then (true, s')
                                else if bool_decide (c = ch "+") then (false, s') else (false, s)
                   | [] => (false, s)
                   end in
  let used rest := (List.length text - List.length rest)%nat in
  if starts_nocase "infinity" s then Some (S754_infinity neg, used (drop 8 s))
  else if starts_nocase "inf" s then Some (S754_infinity neg, used (drop 3 s))
  else if starts_nocase "nan" s then Some (S754_nan, used (drop 3 s))
  else
    match (if starts_nocase "0x" s then read_mantissa ishex (drop 2 s) else None) with
    | Some (whole, frac, rest) =>
        let '(e, rest) := read_exponent "p" rest in
        (λ d, (d, used rest)) <$>
          scaled_double neg (hex_value (whole ++ frac)) 2 (e - 4 * Z.of_nat (List.length frac))
    | None =>
        match read_mantissa isdigit s with
        | None => None
        | Some (whole, frac, rest) =>
            let '(e, rest) := read_exponent "e" rest in
            (λ d, (d, used rest)) <$>
              scaled_double neg (digits_value (whole ++ frac)) 10 (e - Z.of_nat (List.length frac))
        end
    end.

(** *** Printing *)

(** [num] / [den] rounded to the nearest integer, ties to even. *)
Definition round_ratio (num den : Z) : Z :=
  let q := num / den in
  let r := num mod den in
  if (2 * r <? den) || ((2 * r =? den) && Z.even q) then q else q + 1.

(** [n] in decimal with at least [k] digits. *)
Definition dec_pad (k : nat) (n : Z) : bytes :=
  let s := dec n in replicate (k - List.length s) (ch "0") ++ s.

Definition sign_text (neg : bool) (s : bytes) : bytes := if neg then ch "-" :: s else s.

(** [std::to_string(double)], that is ["%f"]. *)
Definition double_to_string (d : double) : bytes :=
  match d with
  | S754_zero s => sign_text s (str "0.000000")
  | S754_infinity s => sign_text s (str "inf")
  | S754_nan => str "nan"
  | S754_finite s m e =>
      let '(n, k) := ratio_of m e in
      let v := round_ratio (n * 10 ^ 6) k in
      sign_text s (dec (v / 10 ^ 6) ++ ch "." :: dec_pad 6 (v mod 10 ^ 6))
  end.

(** The exponent [x] with 10^x <= n/k < 10^(x+1). *)
Fixpoint small_exponent (fuel : nat) (n k : Z) (x : Z) : Z :=
  match fuel with
  | O => x
  | S fuel => if k <=? n then x else small_exponent fuel (10 * n) k (x - 1)
  end.
Definition dec_exponent (n k : Z) : Z :=
  if k <=? n then Z.of_nat (List.length (dec (n / k))) - 1 else small_exponent 400 n k 0.

Definition strip_zeros (s : bytes) : bytes := rev (span (λ c, bool_decide (c = ch "0")) (rev s)).2.
Definition with_fraction (whole frac : bytes) : bytes :=
  match strip_zeros frac with [] => whole | f => whole ++ ch "." :: f end.

(** Output to a stream at the default precision, that is ["%g"]. *)
Definition double_to_stream (d : double) : bytes :=
  match d with
  | S754_zero s => sign_text s (str "0")
  | S754_infinity s => sign_text s (str "inf")
  | S754_nan => str "nan"
  | S754_finite s m e =>
      let '(n, k) := ratio_of m e in
      let x := dec_exponent n k in
      let scaled := if x <=? 5 then round_ratio (n * 10 ^ (5 - x)) k else round_ratio n (k * 10 ^ (x - 5)) in
      let '(ds, x) := if scaled =? 10 ^ 6 then (10 ^ 5, x + 1) else (scaled, x) in
      sign_text s
        (if (x <? -4) || (6 <=? x) then
           with_fraction (dec (ds / 10 ^ 5)) (dec_pad 5 (ds mod 10 ^ 5)) ++
           ch "e" :: (if x <? 0 then ch "-" else ch "+") :: dec_pad 2 (Z.abs x)
         else if 0 <=? x then
           with_fraction (dec (ds / 10 ^ (5 - x))) (dec_pad (Z.to_nat (5 - x)) (ds mod 10 ^ (5 - x)))
         else with_fraction (str "0") (dec_pad (Z.to_nat (5 - x)) ds))
  end.

Definition ParseDouble (s : bytes) : option double :=
  match stod s with
  | Some (d, used) => if (used =? List.length s)%nat then Some d else None
  | None => None
  end.

(** ** Checks of the printing and reading of doubles *)

Example stod_text : (double_to_stream ∘ fst) <$> stod (str " 3.25xyz") = Some (str "3.25").
Proof. vm_compute. reflexivity. Qed.
Example stod_tenth : (double_to_string ∘ fst) <$> stod (str "0.1") = Some (str "0.100000").
Proof. vm_compute. reflexivity. Qed.
Example stod_big : (double_to_stream ∘ fst) <$> stod (str "1234567.5") = Some (str "1.23457e+06").
Proof. vm_compute. reflexivity. Qed.
Example stod_tiny : (double_to_stream ∘ fst) <$> stod (str "-0.00001234") = Some (str "-1.234e-05").
Proof. vm_compute. reflexivity. Qed.
Example stod_small : (double_to_stream ∘ fst) <$> stod (str "0.05") = Some (str "0.05").
Proof. vm_compute. reflexivity. Qed.
Example stod_round_up : (double_to_stream ∘ fst) <$> stod (str "999999.7") = Some (str "1e+06").
Proof. vm_compute. reflexivity. Qed.
Example stod_hex : (double_to_stream ∘ fst) <$> stod (str "0x1.8p1") = Some (str "3").
Proof. vm_compute. reflexivity. Qed.
Example stod_throws : stod (str "abc") = None ∧ stod (str "1e999") = None ∧ stod (str "1e-999") = None.
Proof. vm_compute. done. Qed.

(** ** Decimal text round trips *)

Lemma byte_of_Z_small z : 0 ≤ z < 256 → byte_to_Z (byte_of_Z z) = z.
Proof. intros Hz. rewrite byte_to_of_Z. by apply Z.mod_small. Qed.

Lemma digit_char n : 0 ≤ n < 10 → isdigit (byte_of_Z (48 + n)) = true ∧ digit_val (byte_of_Z (48 + n)) = n.
Proof.
  intros Hn. unfold isdigit, between, digit_val. rewrite byte_of_Z_small by lia. split; [|lia].
  apply andb_true_intro. split; apply Z.leb_le; lia.
Qed.

Lemma dec_digits_acc fuel n acc : dec_digits fuel n acc = dec_digits fuel n [] ++ acc.
Proof.
  revert n acc. induction fuel as [|fuel IH]; intros n acc; cbn [dec_digits]; [done|].
  destruct (n <? 10); [done|]. rewrite (IH _ (_ :: acc)), (IH _ [_]), <- app_assoc. done.
Qed.

Lemma digits_value_snoc s c : digits_value (s ++ [c]) = 10 * digits_value s + digit_val c.
Proof. unfold digits_value. by rewrite foldl_app. Qed.

Lemma dec_digits_spec fuel n : 0 ≤ n < 10 ^ Z.of_nat fuel → (0 < fuel)%nat →
  Forall (λ c, isdigit c = true) (dec_digits fuel n []) ∧ digits_value (dec_digits fuel n []) = n ∧
  dec_digits fuel n [] ≠ [].
Proof.
  revert n. induction fuel as [|fuel IH]; intros n Hn Hf; [lia|]. cbn [dec_digits].
  pose proof (Z.mod_pos_bound n 10 ltac:(lia)) as Hm. destruct (digit_char (n mod 10) Hm) as [Hd Hv].
  destruct (Z.ltb_spec n 10) as [Hlt|Hge].
  - rewrite Z.mod_small in * by lia. split_and!; [by constructor|cbn; lia|done].
  - rewrite dec_digits_acc. assert (0 < fuel)%nat as Hf'.
    { destruct fuel; [|lia]. change (10 ^ Z.of_nat 1) with 10 in Hn. lia. }
    destruct (IH (n / 10)) as (HF & Ev & Hne); [|done|].
    { rewrite Nat2Z.inj_succ, Z.pow_succ_r in Hn by lia. split; [apply Z.div_pos; lia|]. apply Z.div_lt_upper_bound; lia. }
    split_and!; [apply Forall_app; split; [done|by constructor]| |by destruct (dec_digits fuel (n / 10) [])].
    rewrite digits_value_snoc, Ev, Hv. pose proof (Z.div_mod n 10 ltac:(lia)). lia.
Qed.

Lemma dec_spec n : 0 ≤ n → Forall (λ c, isdigit c = true) (dec n) ∧ digits_value (dec n) = n ∧ dec n ≠ [].
Proof.
  intros Hn. unfold dec. apply dec_digits_spec; [|lia]. split; [done|].
  destruct (Z.eq_dec n 0) as [->|Hne]; [done|]. pose proof (Z.log2_spec n ltac:(lia)) as [_ Hl].
  pose proof (Z.log2_nonneg n) as H0. rewrite Nat2Z.inj_succ, Z2Nat.id by done.
  eapply Z.lt_le_trans; [exact Hl|]. apply Z.pow_le_mono_l. lia.
Qed.

Lemma Forall_forallb (p : byte → bool) s : Forall (λ c, p c = true) s → forallb p s = true.
Proof. induction 1 as [|c s Hc _ IH]; cbn; [done|]. by rewrite Hc, IH. Qed.
Lemma forallb_Forall (p : byte → bool) s : forallb p s = true → Forall (λ c, p c = true) s.
Proof. induction s as [|c s IH]; cbn; [constructor|]. intros [? ?]%andb_prop. constructor; auto. Qed.

Lemma isdigit_not_minus c : isdigit c = true → c ≠ ch "-".
Proof. intros Hd ->. vm_compute in Hd. done. Qed.

Lemma ParseInt64_dec n : 0 ≤ n ≤ INT64_MAX → ParseInt64 (dec n) = Some n.
Proof.
  intros Hn. destruct (dec_spec n) as (HF & Ev & Hne); [lia|]. unfold ParseInt64.
  destruct (dec n) as [|c s] eqn:E; [done|]. rewrite bool_decide_eq_false_2.
  2: { apply isdigit_not_minus. by apply Forall_cons in HF as [? _]. }
  rewrite (Forall_forallb _ _ HF), Ev, bool_decide_eq_true_2; [done|]. unfold is_i64, INT64_MIN in *. lia.
Qed.

(** The range of what is read. *)
Lemma ParseInt64_range s v : ParseInt64 s = Some v → is_i64 v.
Proof.
  unfold ParseInt64. destruct (match s with [] => _ | _ => _ end) as [neg ds]. destruct ds; [done|].
  destruct (forallb _ _); [|done]. case_bool_decide; [|done]. by intros [= <-].
Qed.

Lemma span_app p s rest : Forall (λ c, p c = true) s → (∀ c, head rest = Some c → p c = false) →
  span p (s ++ rest) = (s, rest).
Proof.
  intros HF Hr. induction HF as [|c s Hc _ IH]; cbn.
  - destruct rest as [|c rest]; [done|]. cbn. by rewrite (Hr c).
  - by rewrite Hc, IH.
Qed.

Lemma span_eq p s a b : span p s = (a, b) → s = a ++ b ∧ Forall (λ c, p c = true) a.
Proof.
  revert a b. induction s as [|c s IH]; intros a b; cbn; [by intros [= <- <-]|].
  destruct (p c) eqn:Hc; [|by intros [= <- <-]]. destruct (span p s) as [a' b'] eqn:E. intros [= <- <-].
  destruct (IH _ _ eq_refl) as [-> ?]. by repeat constructor.
Qed.
