(* ===== verification/Catalog.v ===== *)
(** * Catalog and row format (src/src/coordinator/catalog.{h,cpp}, row_codec.{h,cpp})

    Table definitions by name and number, and the bytes of a stored row: the
    number of cells, then each cell with its length. *)
From Stdlib Require Import Strings.Byte Strings.Ascii.
From stdpp Require Import base gmap sets strings sorting list.
From Stdlib Require Import ZArith Lia.
From S2P Require Import Prelude Text.
Local Open Scope Z_scope.

Inductive ColumnType := INT | BIGINT | FLOAT | VARCHAR.
#[export] Instance ColumnType_eq_dec : EqDecision ColumnType.
Proof. solve_decision. Defined.

Record ColumnDef := MkColumnDef { c_name : bytes; c_type : ColumnType }.
#[export] Instance ColumnDef_eq_dec : EqDecision ColumnDef.
Proof. solve_decision. Defined.

Record TableDef := MkTableDef {
  table_id : Z;
  t_name : bytes;
  columns : list ColumnDef;
  primary_key : bytes;
}.

(** ** [Catalog] *)

Record Catalog := MkCatalog {
  next_table_id_ : Z;
  tables_ : gmap bytes TableDef;
  id_to_name_ : gmap Z bytes;
}.

Definition new_Catalog : Catalog := MkCatalog 1 ∅ ∅.

Definition CreateTable (cat : Catalog) (name : bytes) (cols : list ColumnDef) (pk : bytes) : Catalog * Z :=
  if bool_decide (is_Some (tables_ cat !! name)) then (cat, 0)
  else if negb (existsb (λ c, bool_decide (c_name c = pk)) cols) then (cat, 0)
  else
    let id := next_table_id_ cat in
    (MkCatalog (u32 (id + 1)) (<[name := MkTableDef id name cols pk]> (tables_ cat)) (<[id := name]> (id_to_name_ cat)),
     id).

Definition GetTable (cat : Catalog) (name : bytes) : option TableDef := tables_ cat !! name.

Definition GetTableById (cat : Catalog) (id : Z) : option TableDef :=
  name ← id_to_name_ cat !! id; tables_ cat !! name.

Definition id_le (a b : TableDef) : Prop := table_id a ≤ table_id b.
#[export] Instance id_le_dec a b : Decision (id_le a b).
Proof. unfold id_le. apply _. Defined.
#[export] Instance id_le_total : Total id_le.
Proof. intros a b. unfold id_le. lia. Qed.
#[export] Instance id_le_trans : Transitive id_le.
Proof. intros a b c. unfold id_le. lia. Qed.

(** The tables in the order of the hash table, sorted by number; numbers are
    unique, so the order before sorting does not matter. *)
Definition ListTables (cat : Catalog) : list TableDef := merge_sort id_le (map_to_list (tables_ cat)).*2.

(** *** Invariant *)

Record catalog_inv (cat : Catalog) : Prop := {
  ci_next : 0 < next_table_id_ cat;
  ci_table name t : tables_ cat !! name = Some t → t_name t = name ∧ 0 < table_id t < next_table_id_ cat ∧
    id_to_name_ cat !! table_id t = Some name ∧ primary_key t ∈ (c_name <$> columns t);
  ci_id id name : id_to_name_ cat !! id = Some name → ∃ t, tables_ cat !! name = Some t ∧ table_id t = id;
}.

Inductive catalog_steps : nat → Catalog → Prop :=
  | catalog_start : catalog_steps 0 new_Catalog
  | catalog_create k cat name cols pk : catalog_steps k cat → catalog_steps (S k) (CreateTable cat name cols pk).1.

Lemma pk_column cols pk : existsb (λ c, bool_decide (c_name c = pk)) cols = true ↔ pk ∈ (c_name <$> cols).
Proof.
  rewrite existsb_exists, list_elem_of_fmap. split.
  - intros (c & Hc & E%bool_decide_eq_true). exists c. split; [done|]. by apply list_elem_of_In.
  - intros (c & -> & Hc%list_elem_of_In). exists c. split; [done|]. by apply bool_decide_eq_true.
Qed.

Lemma CreateTable_inv cat name cols pk : catalog_inv cat → next_table_id_ cat < UINT32_MAX →
  catalog_inv (CreateTable cat name cols pk).1 ∧
  next_table_id_ cat ≤ next_table_id_ (CreateTable cat name cols pk).1 ≤ next_table_id_ cat + 1.
Proof.
  intros [Hn Ht Hi] Hb. unfold CreateTable. case_bool_decide as Hex; [split; [done|cbn; lia]|].
  destruct (existsb _ _) eqn:Hpk; cbn [negb]; [|split; [done|cbn; lia]]. apply pk_column in Hpk.
  apply eq_None_not_Some in Hex. cbn [fst].
  assert (u32 (next_table_id_ cat + 1) = next_table_id_ cat + 1) as Eu by (apply u32_id; unfold is_u32, UINT32_MAX in *; lia).
  rewrite Eu. split; [|cbn; lia]. split; cbn.
  - lia.
  - intros nm t [[<- <-]|[Hne Hl]]%lookup_insert_Some; cbn.
    + split_and!; [done|lia|lia|by rewrite lookup_insert_eq|done].
    + destruct (Ht nm t Hl) as (E & Hr & Hid & Hp). split_and!; [done|lia|lia| |done].
      rewrite lookup_insert_ne; [done|lia].
  - intros id nm [[<- <-]|[Hne Hl]]%lookup_insert_Some.
    + rewrite lookup_insert_eq. by eexists.
    + destruct (Hi id nm Hl) as (t & Htn & E). exists t. split; [|done]. rewrite lookup_insert_ne; [done|].
      intros <-. congruence.
Qed.

Lemma catalog_steps_inv k cat : catalog_steps k cat → Z.of_nat k + 1 < UINT32_MAX →
  catalog_inv cat ∧ next_table_id_ cat ≤ Z.of_nat k + 1.
Proof.
  induction 1 as [|k cat name cols pk _ IH]; intros Hk.
  { split; [|cbn; lia]. split; cbn; [lia|by intros ??|by intros ??]. }
  destruct IH as [Hinv Hn]; [lia|]. destruct (CreateTable_inv cat name cols pk Hinv) as [Hi' Hn']; [lia|].
  split; [done|lia].
Qed.

(** Tables of the catalog: after any sequence of at most 2^32 - 3 calls of
    [CreateTable], table numbers are positive and unique, lookup by number and by
    name agree, every table's primary key is one of its columns, and the listing
    shows every table once in order of its number. A call that fails (0: the name
    is taken, or the primary key is not a column) changes nothing; one that
    succeeds adds exactly the new table. *)
Theorem catalog_correct (k : nat) (cat : Catalog) (name : bytes) (cols : list ColumnDef) (pk : bytes) :
  catalog_steps k cat → Z.of_nat k + 2 < UINT32_MAX →
  (∀ nm t, GetTable cat nm = Some t → t_name t = nm ∧ GetTableById cat (table_id t) = Some t ∧
     primary_key t ∈ (c_name <$> columns t)) ∧
  (∀ id t, GetTableById cat id = Some t → table_id t = id ∧ GetTable cat (t_name t) = Some t) ∧
  (StronglySorted id_le (ListTables cat) ∧ ∀ t, t ∈ ListTables cat ↔ GetTable cat (t_name t) = Some t) ∧
  (let '(cat', id) := CreateTable cat name cols pk in
   if id =? 0 then cat' = cat ∧ (is_Some (GetTable cat name) ∨ pk ∉ (c_name <$> cols))
   else GetTable cat name = None ∧
     ∀ nm, GetTable cat' nm = if decide (nm = name) then Some (MkTableDef id name cols pk) else GetTable cat nm).
Proof.
  intros Hst Hk. destruct (catalog_steps_inv k cat Hst) as [[Hn Ht Hi] Hb]; [lia|].
  unfold GetTable, GetTableById. split_and!.
  - intros nm t E. destruct (Ht nm t E) as (<- & _ & Hid & Hp). rewrite Hid. done.
  - intros id t E. destruct (id_to_name_ cat !! id) as [nm|] eqn:E1; [|done]. cbn in E.
    destruct (Hi id nm E1) as (t' & Et' & <-). assert (t' = t) as -> by congruence. split; [done|].
    by destruct (Ht nm t E) as (-> & _).
  - by apply (StronglySorted_merge_sort id_le).
  - intros t. unfold ListTables. rewrite merge_sort_Permutation, list_elem_of_fmap. split.
    + intros ([nm t'] & -> & E%elem_of_map_to_list). cbn. by destruct (Ht nm t' E) as (-> & _).
    + intros E. exists (t_name t, t). split; [done|]. by apply elem_of_map_to_list.
  - unfold CreateTable. case_bool_decide as Hex; [cbn; auto|]. apply eq_None_not_Some in Hex.
    destruct (existsb _ _) eqn:Hpk; cbn [negb]; cbn.
    + destruct (Z.eqb_spec (next_table_id_ cat) 0); [lia|]. split; [done|]. intros nm. cbn. case_decide as Hd.
      * subst. by rewrite lookup_insert_eq.
      * by rewrite lookup_insert_ne.
    + split; [done|]. right. rewrite <- pk_column, Hpk. done.
Qed.

Definition demo_columns : list ColumnDef := [MkColumnDef (str "id") INT; MkColumnDef (str "v") VARCHAR].
Definition demo_catalog : Catalog := (CreateTable new_Catalog (str "t") demo_columns (str "id")).1.

Lemma catalog_correct_witness :
  ∃ t, GetTable demo_catalog (str "t") = Some t ∧ GetTableById demo_catalog (table_id t) = Some t.
Proof.
  assert (is_Some (GetTable demo_catalog (str "t"))) as [t Et] by (vm_compute; by eexists).
  exists t. split; [exact Et|].
  destruct (catalog_correct 1 demo_catalog [] [] []) as (H & _); [apply catalog_create; constructor|done|].
  exact (proj1 (proj2 (H (str "t") t Et))).
Defined.

(** ** Rows *)

(** [ReadU16LE] and [ReadU32LE]: the value and what follows. *)
Definition ReadU16LE (data : bytes) : option (Z * bytes) :=
  if (length data <? 2)%nat then None else Some (read_le 0 0 (take 2 data), drop 2 data).
Definition ReadU32LE (data : bytes) : option (Z * bytes) :=
  if (length data <? 4)%nat then None else Some (read_le 0 0 (take 4 data), drop 4 data).

(** The loop over [n] cells. *)
Fixpoint read_cells (n : nat) (data : bytes) : option (list bytes) :=
  match n with
  | O => Some []
  | S n =>
      match ReadU32LE data with
      | None => None
      | Some (len, data) =>
          if Z.of_nat (length data) <? len then None
          else cells ← read_cells n (drop (Z.to_nat len) data); Some (take (Z.to_nat len) data :: cells)
      end
  end.

(** No cells when the data is malformed. *)
Definition DeserializeStoredRow (data : bytes) : list bytes :=
  match ReadU16LE data with
  | None => []
  | Some (n, data) => default [] (read_cells (Z.to_nat n) data)
  end.

(** The part of a qualified name after the last dot. *)
Definition BaseColumnName (name : bytes) : bytes := rev (span (λ c, negb (bool_decide (c = ch "."))) (rev name)).1.

(** The position of the first column with this name. *)
Fixpoint column_index (cols : list ColumnDef) (name : bytes) : option nat :=
  match cols with
  | [] => None
  | c :: cols => if bool_decide (c_name c = name) then Some 0%nat else S <$> column_index cols name
  end.
Definition ColumnIndexByName (t : TableDef) (name : bytes) : option nat :=
  column_index (columns t) (BaseColumnName name).

Definition CellValueForJoinColumn (t : TableDef) (cells : list bytes) (join_column : bytes) : bytes :=
  match ColumnIndexByName t join_column with
  | None => []
  | Some i => default [] (cells !! i)
  end.

(** The bytes that [SerializeRow] and [ExecUpdate] write for the cells of a row. *)
Definition cell_bytes (cell : bytes) : bytes := le_bytes 4 (Z.of_nat (length cell)) ++ cell.
Definition row_bytes (n : nat) (cells : list bytes) : bytes :=
  le_bytes 2 (Z.of_nat n) ++ concat (cell_bytes <$> cells).

Lemma read_le_bytes n v : 0 ≤ v < 256 ^ Z.of_nat n → read_le 0 0 (le_bytes n v) = v.
Proof. intros Hv. rewrite read_le_value, le_value_bytes. by apply Z.mod_small. Qed.

Lemma ReadU32LE_le v rest : is_u32 v → ReadU32LE (le_bytes 4 v ++ rest) = Some (v, rest).
Proof.
  intros Hv. unfold ReadU32LE. rewrite length_app, length_le_bytes. cbn [Nat.ltb Nat.leb Nat.add].
  rewrite take_le, drop_le, read_le_bytes; [done|]. unfold is_u32 in Hv. change (256 ^ Z.of_nat 4) with (2 ^ 32). lia.
Qed.

Lemma read_cells_row cells rest : Forall (λ c, is_u32 (Z.of_nat (length c))) cells →
  read_cells (length cells) (concat (cell_bytes <$> cells) ++ rest) = Some cells.
Proof.
  induction 1 as [|c cells Hc _ IH]; [done|]. cbn [length read_cells fmap list_fmap concat].
  unfold cell_bytes at 1. rewrite <- !app_assoc, ReadU32LE_le by done.
  destruct (Z.ltb_spec (Z.of_nat (length (c ++ concat (cell_bytes <$> cells) ++ rest))) (Z.of_nat (length c))) as [Hlt|_].
  { rewrite length_app in Hlt. lia. }
  rewrite Nat2Z.id, drop_app_length, take_app_length. by setoid_rewrite IH.
Qed.

Lemma row_bytes_cells cells rest : Z.of_nat (length cells) < 2 ^ 16 →
  Forall (λ c, is_u32 (Z.of_nat (length c))) cells →
  DeserializeStoredRow (row_bytes (length cells) cells ++ rest) = cells.
Proof.
  intros Hn HF. unfold DeserializeStoredRow, row_bytes, ReadU16LE.
  rewrite <- app_assoc, length_app, length_le_bytes. cbn [Nat.ltb Nat.leb Nat.add].
  rewrite take_le, drop_le, read_le_bytes by (change (256 ^ Z.of_nat 2) with (2 ^ 16); lia).
  by rewrite Nat2Z.id, read_cells_row.
Qed.

(** Stored rows round trip: a row with fewer than 2^16 cells, each shorter
    than 2^32 bytes, is read back cell by cell, whatever the cells contain; and
    every cell that is read back from any bytes at all is a piece of them, so
    malformed rows never make up data. *)
Theorem row_roundtrip (cells : list bytes) (data : bytes) :
  Z.of_nat (length cells) < 2 ^ 16 → Forall (λ c, is_u32 (Z.of_nat (length c))) cells →
  DeserializeStoredRow (row_bytes (length cells) cells) = cells ∧
  ∀ c, c ∈ DeserializeStoredRow data → ∃ a b, data = a ++ c ++ b.
Proof.
  intros Hn HF. split.
  { pose proof (row_bytes_cells cells [] Hn HF) as E. by rewrite app_nil_r in E. }
  assert (∀ n d cs c, read_cells n d = Some cs → c ∈ cs → ∃ a b, d = a ++ c ++ b) as Hpiece.
  { induction n as [|n IH]; intros d cs c; cbn [read_cells]; [intros [= <-] ?%elem_of_nil; done|].
    unfold ReadU32LE. destruct (length d <? 4)%nat; [done|]. set (len := read_le 0 0 (take 4 d)).
    destruct (_ <? len); [done|]. destruct (read_cells n _) as [cs'|] eqn:E; [|done]. intros [= <-].
    intros [->|Hc]%elem_of_cons.
    - exists (take 4 d), (drop (Z.to_nat len) (drop 4 d)). by rewrite !take_drop.
    - destruct (IH _ _ _ E Hc) as (a & b & Eab). exists (take 4 d ++ take (Z.to_nat len) (drop 4 d) ++ a), b.
      rewrite <- !app_assoc, <- Eab. by rewrite !take_drop. }
  intros c. unfold DeserializeStoredRow, ReadU16LE. destruct (length data <? 2)%nat; [by intros ?%elem_of_nil|].
  destruct (read_cells _ _) as [cs|] eqn:E; [|by intros ?%elem_of_nil]. intros Hc.
  destruct (Hpiece _ _ _ _ E Hc) as (a & b & Eab). exists (take 2 data ++ a), b. by rewrite <- app_assoc, <- Eab, take_drop.
Qed.

Lemma row_roundtrip_witness : DeserializeStoredRow (row_bytes 2 [str "7"; str "it's"]) = [str "7"; str "it's"].
Proof.
  apply (proj1 (row_roundtrip [str "7"; str "it's"] [] ltac:(done) ltac:(by repeat constructor))).
Defined.
