(* ===== verification/JoinHandler.v ===== *)
(** * Distributed join on a shard (src/src/shard/distributed_join_handler.{h,cpp})

    The hash join that a shard runs on the rows of a request, and its equality with
    the plain nested loop over the pairs of rows with the same key. *)
From Stdlib Require Import Strings.Byte Strings.Ascii.
From stdpp Require Import base gmap strings list.
From Stdlib Require Import ZArith Lia.
From S2P Require Import Prelude Status RocksDB GroupCommit TxnManager ShardMessages Text Catalog.
Local Open Scope Z_scope.

(** The loop over the cells is the one of [DeserializeStoredRow]. *)
Definition DecodeRow (data : bytes) (column_count : nat) : list bytes :=
  match ReadU16LE data with
  | None => []
  | Some (n, data) =>
      if negb (n =? Z.of_nat column_count) then [] else default [] (read_cells (Z.to_nat n) data)
  end.

(** A name and its qualified form, with the cell. *)
Definition named_cells (table : bytes) (names cells : list bytes) : list (bytes * bytes) :=
  concat (zip_with (λ n c, [(n, c); (table ++ ch "." :: n, c)]) names cells).
Definition EmitJoinedRow (build_names : list bytes) (build_table : bytes) (build_cells : list bytes)
    (probe_names : list bytes) (probe_table : bytes) (probe_cells : list bytes) : JoinOutputRow :=
  named_cells build_table build_names build_cells ++ named_cells probe_table probe_names probe_cells.

(** [build_map]: the rows of every key, in their order. *)
Definition build_map (rows : list JoinRowPayload) : gmap bytes (list bytes) :=
  foldl (λ m r, <[join_key r := default [] (m !! join_key r) ++ [row_bytes_ r]]> m) ∅ rows.

Section join.
Context (build_names : list bytes) (build_table : bytes) (probe_names : list bytes) (probe_table : bytes).

(** The output for one row of each side: none when a row cannot be decoded. *)
Definition emit_pair (build_bytes probe_bytes : bytes) : list JoinOutputRow :=
  match DecodeRow probe_bytes (length probe_names) with
  | [] => []
  | probe_cells =>
      match DecodeRow build_bytes (length build_names) with
      | [] => []
      | build_cells => [EmitJoinedRow build_names build_table build_cells probe_names probe_table probe_cells]
      end
  end.

Definition LocalHashJoin (build_rows probe_rows : list JoinRowPayload) : list JoinOutputRow :=
  let m := build_map build_rows in
  concat (map (λ probe,
    match m !! join_key probe with
    | None => []
    | Some bs => concat (map (λ b, emit_pair b (row_bytes_ probe)) bs)
    end) probe_rows).
End join.

(** The join key of a scanned row, when the join column is among the columns and
    the row has such a cell. *)
Fixpoint name_index (names : list bytes) (name : bytes) : nat :=
  match names with [] => 0 | n :: names => if bool_decide (n = name) then 0 else S (name_index names name) end.
Definition probe_payload (req : DistributedJoinRequest) (row : bytes) : option JoinRowPayload :=
  match DecodeRow row (length (probe_column_names req)) with
  | [] => None
  | cells =>
      k ← cells !! name_index (probe_column_names req) (BaseColumnName (probe_join_col req));
      Some (MkJoinRowPayload row k)
  end.

Definition local_join (req : DistributedJoinRequest) (build probe : list JoinRowPayload) : DistributedJoinResponse :=
  MkDistributedJoinResponse true Ok "" (LocalHashJoin (build_column_names req) (build_table_name req)
    (probe_column_names req) (probe_table_name req) build probe).
Definition join_error (st : Status) : DistributedJoinResponse :=
  MkDistributedJoinResponse false (code st) (message st) [].

Definition RunDistributedJoin {DB} `{RocksDB DB} `{GroupCommit} (tm : TxnManager DB) (local_txn_id : Z)
    (req : DistributedJoinRequest) : TxnManager DB * DistributedJoinResponse :=
  if local_txn_id =? 0 then (tm, join_error (St.Error InvalidArgument "txn not active"))
  else
    match jq_op req with
    | JOIN_OP_BROADCAST =>
        let '(tm, r) := TM.Scan tm local_txn_id (probe_table_id req) [] [] true in
        (tm, match r with
             | inl st => join_error st
             | inr scan => local_join req (broadcast_build_rows req) (omap (probe_payload req) scan.*2)
             end)
    | JOIN_OP_SHUFFLE => (tm, local_join req (shuffle_build_rows req) (shuffle_probe_rows req))
    | JOIN_OP_OTHER _ => (tm, join_error (St.Error InvalidArgument "unknown join physical op"))
    end.

(** ** The hash join is the nested loop *)

Definition same_key (a b : JoinRowPayload) : Prop := join_key a = join_key b.
#[export] Instance same_key_dec a b : Decision (same_key a b).
Proof. unfold same_key. apply _. Defined.

Lemma build_map_lookup rows k :
  default [] (build_map rows !! k) = row_bytes_ <$> filter (λ r, join_key r = k) rows.
Proof.
  unfold build_map. induction rows as [|r rows IH] using rev_ind; [done|].
  rewrite foldl_app, filter_app, fmap_app. cbn [foldl]. destruct (decide (join_key r = k)) as [<-|Hne].
  - rewrite lookup_insert_eq, filter_cons_True by done. cbn [default option_map from_option id]. by rewrite IH.
  - rewrite lookup_insert_ne, filter_cons_False by done. cbn. by rewrite app_nil_r.
Qed.

Section nested.
Context (bn : list bytes) (bt : bytes) (pn : list bytes) (pt : bytes).
Abbreviation emit := (emit_pair bn bt pn pt).

(** All pairs with the same key, probe rows outside. *)
Definition nested_join (build probe : list JoinRowPayload) : list JoinOutputRow :=
  p ← probe; b ← build; if bool_decide (same_key b p) then emit (row_bytes_ b) (row_bytes_ p) else [].

Lemma LocalHashJoin_nested build probe : LocalHashJoin bn bt pn pt build probe = nested_join build probe.
Proof.
  unfold LocalHashJoin, nested_join. induction probe as [|p probe IH]; cbn; [done|]. f_equal; [|exact IH].
  assert (E : match build_map build !! join_key p with
              | None => []
              | Some bs => concat (map (λ b, emit b (row_bytes_ p)) bs)
              end = concat (map (λ b, emit b (row_bytes_ p)) (default [] (build_map build !! join_key p))))
    by (by destruct (build_map build !! join_key p)).
  rewrite E, build_map_lookup. clear. induction build as [|b build IH]; [done|]. rewrite filter_cons.
  cbn [mbind list_bind]. rewrite <- IH. unfold same_key.
  destruct (decide (join_key b = join_key p)); [rewrite bool_decide_eq_true_2 by done|rewrite bool_decide_eq_false_2 by done];
    done.
Qed.
End nested.

Section nested_facts.
Context (bn : list bytes) (bt : bytes) (pn : list bytes) (pt : bytes).
Abbreviation nested := (nested_join bn bt pn pt).

(** The matches of one probe row. *)
Definition matches (build : list JoinRowPayload) (p : JoinRowPayload) : list JoinOutputRow :=
  b ← build; if bool_decide (same_key b p) then emit_pair bn bt pn pt (row_bytes_ b) (row_bytes_ p) else [].
Lemma nested_join_cons build p probe : nested build (p :: probe) = matches build p ++ nested build probe.
Proof. done. Qed.
Lemma nested_join_app build probe1 probe2 : nested build (probe1 ++ probe2) = nested build probe1 ++ nested build probe2.
Proof. unfold nested_join. by rewrite bind_app. Qed.
#[export] Instance nested_join_perm build : Proper ((≡ₚ) ==> (≡ₚ)) (nested build).
Proof. intros p p' E. unfold nested_join. by apply bind_Permutation. Qed.

(** Rows of the other side with another key do not matter. *)
Lemma matches_filter (Q : JoinRowPayload → Prop) `{!∀ x, Decision (Q x)} build p :
  (∀ b, same_key b p → Q b) → matches (filter Q build) p = matches build p.
Proof.
  intros HQ. unfold matches. induction build as [|b build IH]; [done|]. rewrite filter_cons. cbn [mbind list_bind].
  destruct (decide (Q b)) as [Hq|Hq]; cbn [mbind list_bind]; rewrite <- IH; [done|].
  rewrite bool_decide_eq_false_2; [done|]. intros Hk. apply Hq, HQ, Hk.
Qed.

(** One block of a concatenation grows. *)
Lemma concat_fmap_grow {A} (l : list Z) (f g : Z → list A) h x : NoDup l → h ∈ l → g h = x ++ f h →
  (∀ i, i ≠ h → g i = f i) → concat (g <$> l) ≡ₚ x ++ concat (f <$> l).
Proof.
  intros Hnd. induction Hnd as [|i l Hi Hnd IH]; intros Hin Hh Hne; [by apply elem_of_nil in Hin|].
  rewrite !fmap_cons. cbn [concat]. apply elem_of_cons in Hin as [<-|Hin].
  - rewrite Hh, <- app_assoc. f_equiv. f_equiv. replace (g <$> l) with (f <$> l); [done|].
    apply list_fmap_ext. intros k y Hk. symmetry. apply Hne. intros ->. apply Hi. by eapply list_elem_of_lookup_2.
  - rewrite Hne by (intros ->; done). rewrite IH by done. rewrite !app_assoc. f_equiv. by rewrite Permutation_app_comm.
Qed.

(** Joining the parts that a hash of the key makes is joining the whole. *)
Lemma nested_join_parts (h : bytes → Z) (sids : list Z) build probe : NoDup sids →
  (∀ p, p ∈ probe → h (join_key p) ∈ sids) →
  concat ((λ sid, nested (filter (λ b, h (join_key b) = sid) build) (filter (λ p, h (join_key p) = sid) probe)) <$> sids)
    ≡ₚ nested build probe.
Proof.
  intros Hnd. induction probe as [|p probe IH]; intros Hin.
  { replace (concat _) with (@nil JoinOutputRow); [done|]. clear. induction sids as [|i l IH]; [done|]. exact IH. }
  rewrite nested_join_cons, <- IH by set_solver.
  apply (concat_fmap_grow _ _ _ (h (join_key p))); [done|set_solver| |].
  - rewrite filter_cons_True by done. rewrite nested_join_cons. f_equal. apply matches_filter.
    intros b Hk. unfold same_key in Hk. by rewrite Hk.
  - intros i Hi. by rewrite filter_cons_False by done.
Qed.
End nested_facts.
