(* ===== verification/ShardServer.v ===== *)
(** * Shard service (src/src/shard/shard_server.{h,cpp})

    The request handlers of a shard over its replicas. A replica is a Raft node
    and a state machine with its transaction manager; the Raft group is the one of
    RaftCluster.v and may have nodes in other processes. [hosted] are the replicas
    of this process, in the order of [replicas_]: all of them in process, one of
    them over gRPC.

    A handler that replicates an entry is split at [ProposeAndWait]: what it does
    before, the proposal, and what it does with the outcome. *)
From Stdlib Require Import Strings.Byte.
From stdpp Require Import base functions relations gmap sets strings list.
From Stdlib Require Import ZArith Lia.
From S2P Require Import Prelude Status RocksDB GroupCommit LogFile Wal LockManager TxnManager Recovery ShardMessages.
From S2P Require Import JoinHandler.
From S2P Require Import RaftLog RaftStateMachine RaftNode RaftCluster RaftTransport.
Local Open Scope Z_scope.

Record PendingTxn := MkPendingTxn {
  pt_raft_txn_id : Z;
  pt_snapshot_ts : Z;
  pt_local_txn_id : Z;
  prepared_replicated : bool;
}.

Record ShardServiceImpl (DB : Type) := MkShardServiceImpl {
  raft_group : Cluster;
  state_machines : Z → RaftStateMachine DB;
  inproc_transport_ : InProcessTransport;
  started_ : bool;
  pending_txns_ : gmap Z PendingTxn;
  terminal_txn_states_ : gmap Z TxnStateCode;
}.
Arguments MkShardServiceImpl {DB}.
Arguments raft_group {DB}.
Arguments state_machines {DB}.
Arguments inproc_transport_ {DB}.
Arguments started_ {DB}.
Arguments pending_txns_ {DB}.
Arguments terminal_txn_states_ {DB}.

(** The entry a handler wants to replicate and what it has to remember. *)
Inductive Pending :=
  | ForPrepare (leader local_txn_id raft_txn_id : Z)
  | ForCommit (raft_txn_id : Z)
  | ForAbort (raft_txn_id : Z).

Record Proposal := MkProposal {
  p_for : Pending;
  p_type : RaftEntryType;
  p_payload : bytes;
}.

Module Shard.
Section service.
Context `{RocksDB DB} `{GroupCommit} (hosted : list Z).
Implicit Types s : ShardServiceImpl DB.

Definition set_sm s (i : Z) (sm : RaftStateMachine DB) : ShardServiceImpl DB :=
  MkShardServiceImpl (raft_group s) (<[i := sm]> (state_machines s)) (inproc_transport_ s) (started_ s)
    (pending_txns_ s) (terminal_txn_states_ s).
Definition set_tm s (i : Z) (tm : TxnManager DB) : ShardServiceImpl DB :=
  set_sm s i (SM.set_mgr (state_machines s i) tm).
Definition set_pending_txns s (m : gmap Z PendingTxn) : ShardServiceImpl DB :=
  MkShardServiceImpl (raft_group s) (state_machines s) (inproc_transport_ s) (started_ s) m (terminal_txn_states_ s).
Definition set_terminal s (id : Z) (st : TxnStateCode) : ShardServiceImpl DB :=
  MkShardServiceImpl (raft_group s) (state_machines s) (inproc_transport_ s) (started_ s)
    (pending_txns_ s) (<[id := st]> (terminal_txn_states_ s)).
Definition set_group s (c : Cluster) : ShardServiceImpl DB :=
  MkShardServiceImpl c (state_machines s) (inproc_transport_ s) (started_ s) (pending_txns_ s) (terminal_txn_states_ s).
Definition set_transport s (tr : InProcessTransport) : ShardServiceImpl DB :=
  MkShardServiceImpl (raft_group s) (state_machines s) tr (started_ s) (pending_txns_ s) (terminal_txn_states_ s).

Definition node s (i : Z) : RaftNode := nodes (raft_group s) i.
Definition tm_of s (i : Z) : TxnManager DB := txn_mgr_ (state_machines s i).

(** A step of the Raft group: the entries that a node of this process applies go
    to its state machine ([WrapApply]). *)
Definition raft_moves s (c : Cluster) : ShardServiceImpl DB :=
  MkShardServiceImpl c
    (λ i, foldl SM.Apply (state_machines s i) (drop (length (applied (node s i))) (applied (nodes c i))))
    (inproc_transport_ s) (started_ s) (pending_txns_ s) (terminal_txn_states_ s).

(** ** Life cycle *)

(** The store has been opened; [None] when the constructor throws. *)
Definition InitReplica (store : DB) (wal_file : LogFile) : option (RaftStateMachine DB) :=
  match (WAL_Open wal_file).2 with
  | inl _ => None
  | inr wal =>
      let '(tm, st) := Recover (MkTxnManager store wal LockManager_init 1 ∅) in
      if negb (St.ok st) then None else Some (SM.new_sm tm)
  end.

Definition Start s : ShardServiceImpl DB :=
  if started_ s then s
  else
    let c := foldl (λ c i, set_node c i (RaftNode.Start (nodes c i))) (raft_group s) hosted in
    MkShardServiceImpl c (state_machines s) (inproc_transport_ s) true (pending_txns_ s) (terminal_txn_states_ s).

Definition Stop s : ShardServiceImpl DB :=
  if negb (started_ s) then s
  else
    let c := foldl (λ c i, set_node c i (RaftNode.Stop (nodes c i))) (raft_group s) hosted in
    MkShardServiceImpl c (state_machines s) (inproc_transport_ s) false (pending_txns_ s) (terminal_txn_states_ s).

Definition FindLeader s : option Z := head (filter (λ i, role_ (node s i) = LEADER) hosted).

Definition GetLeaderReplicaId s : Z :=
  match list_find (λ i, role_ (node s i) = LEADER) hosted with Some (k, _) => Z.of_nat k | None => UINT32_MAX end.

Definition DisconnectReplicaForTest s (replica_id : Z) : ShardServiceImpl DB :=
  set_transport s (InProcess.DisconnectNode (inproc_transport_ s) replica_id).
Definition ReconnectReplicaForTest s (replica_id : Z) : ShardServiceImpl DB :=
  match hosted !! Z.to_nat replica_id with
  | None => s
  | Some i => set_transport s (InProcess.ReconnectNode (inproc_transport_ s) replica_id i)
  end.
Definition SetRaftPeerPartitionForTest s (peer_replica_id : Z) (partitioned : bool) : ShardServiceImpl DB :=
  if partitioned then DisconnectReplicaForTest s peer_replica_id else ReconnectReplicaForTest s peer_replica_id.

(** ** [ProposeAndWait] *)

(** The proposal: the leader and the index, or [None] when the call returns
    false. The broadcast that follows is a step of the group. *)
Definition ProposeAndWait_begin s (type : RaftEntryType) (payload : bytes) : ShardServiceImpl DB * option (Z * Z) :=
  match FindLeader s with
  | None => (s, None)
  | Some l =>
      let '(n, ix, _) := Propose_locked (node s l) type payload in
      let s := set_group s (set_node (raft_group s) l n) in
      if ix =? 0 then (s, None) else (s, Some (l, ix))
  end.

(** The result of [WaitForCommit] when it returns. *)
Definition ProposeAndWait_end s (leader ix : Z) : bool := WaitForCommit_done (node s leader) ix.

(** The whole call; [others] is what other threads do while it waits. *)
Definition ProposeAndWait (others : ShardServiceImpl DB → ShardServiceImpl DB) s (type : RaftEntryType)
    (payload : bytes) : ShardServiceImpl DB * bool :=
  match ProposeAndWait_begin s type payload with
  | (s, None) => (s, false)
  | (s, Some (l, ix)) => let s := others s in (s, ProposeAndWait_end s l ix)
  end.

(** ** [Execute] *)

Definition failed (st : Status) : ExecuteResponse := MkExecuteResponse false (code st) (message st) [] [].
Definition no_raft_leader : ExecuteResponse :=
  MkExecuteResponse false InvalidArgument "no raft leader available" [] [].
Definition not_begun : ExecuteResponse := MkExecuteResponse false InvalidArgument "txn not begun on shard" [] [].
Definition done : ExecuteResponse := MkExecuteResponse true Ok "" [] [].

(** The local transaction, 0 when there is none; reads also look it up in the
    leader's state machine. *)
Definition pending_local s (id : Z) : Z := default 0 (pt_local_txn_id <$> pending_txns_ s !! id).
Definition read_local s (l id : Z) : Z :=
  let local := pending_local s id in
  if local =? 0 then SM.GetLocalTxnId (state_machines s l) id else local.

Definition execute_begin s (l id snapshot_ts : Z) : ShardServiceImpl DB * ExecuteResponse :=
  let '(tm, local) := TM.Begin (tm_of s l) snapshot_ts in
  let s := set_sm s l (SM.RegisterLocalTxn (SM.set_mgr (state_machines s l) tm) id local) in
  (set_pending_txns s (<[id := MkPendingTxn id snapshot_ts local false]> (pending_txns_ s)), done).

Definition execute_read s (l id table_id : Z) (key : bytes) : ShardServiceImpl DB * ExecuteResponse :=
  let local := read_local s l id in
  if local =? 0 then (s, not_begun)
  else
    let '(tm, r) := TM.Read (tm_of s l) local table_id key in
    (set_tm s l tm, match r with inl st => failed st | inr v => MkExecuteResponse true Ok "" v [] end).

Definition execute_write s (l id table_id : Z) (key value : bytes) : ShardServiceImpl DB * ExecuteResponse :=
  let local := pending_local s id in
  if local =? 0 then (s, not_begun)
  else
    let '(tm, st) := TM.Write (tm_of s l) local table_id key value in
    (set_tm s l tm, if St.ok st then done else failed st).

Definition execute_delete s (l id table_id : Z) (key : bytes) : ShardServiceImpl DB * ExecuteResponse :=
  let local := pending_local s id in
  if local =? 0 then (s, not_begun)
  else
    let '(tm, st) := TM.Delete (tm_of s l) local table_id key in
    (set_tm s l tm, if St.ok st then done else failed st).

Definition execute_scan s (l id table_id : Z) (start end_exclusive : bytes) (end_open : bool) :
    ShardServiceImpl DB * ExecuteResponse :=
  let local := read_local s l id in
  if local =? 0 then (s, not_begun)
  else
    let '(tm, r) := TM.Scan (tm_of s l) local table_id start end_exclusive end_open in
    (set_tm s l tm, match r with inl st => failed st | inr rows => MkExecuteResponse true Ok "" [] rows end).

Definition Execute s (req : ExecuteRequest) : ShardServiceImpl DB * ExecuteResponse :=
  match FindLeader s with
  | None => (s, no_raft_leader)
  | Some l =>
      let id := eq_raft_txn_id req in
      match eq_op req with
      | OP_BEGIN => execute_begin s l id (eq_snapshot_ts req)
      | OP_READ => execute_read s l id (eq_table_id req) (eq_key req)
      | OP_WRITE => execute_write s l id (eq_table_id req) (eq_key req) (eq_value req)
      | OP_DELETE => execute_delete s l id (eq_table_id req) (eq_key req)
      | OP_SCAN => execute_scan s l id (eq_table_id req) (eq_range_start_pk req) (eq_range_end_exclusive req)
                     (eq_range_end_open req)
      | OP_OTHER _ => (s, MkExecuteResponse false InvalidArgument "unknown op" [] [])
      end
  end.

Definition DistributedJoin s (req : DistributedJoinRequest) : ShardServiceImpl DB * DistributedJoinResponse :=
  match FindLeader s with
  | None => (s, join_error (St.Error InvalidArgument "no raft leader available"))
  | Some l =>
      let local := read_local s l (jq_raft_txn_id req) in
      if local =? 0 then (s, join_error (St.Error InvalidArgument "txn not begun on shard"))
      else let '(tm, resp) := RunDistributedJoin (tm_of s l) local req in (set_tm s l tm, resp)
  end.

(** ** [Prepare], [Commit], [Abort] *)

(** Gives up the local transaction. *)
Definition drop_local s (l local id : Z) : ShardServiceImpl DB :=
  let s := set_sm s l (SM.ForgetTxn (SM.set_mgr (state_machines s l) (TM.Abort (tm_of s l) local).1) id) in
  set_pending_txns s (delete id (pending_txns_ s)).

Definition batch_write (w : BufferedWrite) : PrepareBatchWrite :=
  MkPrepareBatchWrite (is_delete w) (bw_table_id w) (bw_key w) (bw_value w).

Definition Prepare_local s (id commit_ts : Z) : ShardServiceImpl DB * (PrepareResponse + Proposal) :=
  match FindLeader s with
  | None => (s, inl (MkPrepareResponse false "no leader"))
  | Some l =>
      match pending_txns_ s !! id with
      | None => (s, inl (MkPrepareResponse false "unknown txn"))
      | Some p =>
          let local := pt_local_txn_id p in
          let '(tm, st) := TM.Prepare (tm_of s l) local commit_ts in
          let s := set_tm s l tm in
          if negb (St.ok st) then (drop_local s l local id, inl (MkPrepareResponse false (message st)))
          else
            match TM.GetTxn (tm_of s l) local with
            | None =>
                let s := set_sm s l (SM.ForgetTxn (state_machines s l) id) in
                (set_pending_txns s (delete id (pending_txns_ s)),
                 inl (MkPrepareResponse false "prepared txn missing"))
            | Some txn =>
                (s, inr (MkProposal (ForPrepare l local id) TXN_PREPARE_BATCH
                  (PackPrepareBatchPayload id (pt_snapshot_ts p) commit_ts (batch_write <$> write_set txn))))
            end
      end
  end.

Definition Prepare_end s (l local id : Z) (replicated : bool) : ShardServiceImpl DB * PrepareResponse :=
  if negb replicated then (drop_local s l local id, MkPrepareResponse false "prepare batch not replicated")
  else
    let '(sm, pr) := SM.TakePrepareResult (state_machines s l) id in
    let s := set_sm s l sm in
    match pr with
    | None => (s, MkPrepareResponse false "missing prepare result")
    | Some r =>
        if negb (pr_success r) then (s, MkPrepareResponse false (pr_error r))
        else
          let s := set_pending_txns s (alter (λ p, MkPendingTxn (pt_raft_txn_id p) (pt_snapshot_ts p)
            (pt_local_txn_id p) true) id (pending_txns_ s)) in
          (s, MkPrepareResponse true "")
    end.

Definition Commit_local s (id commit_ts : Z) : CommitResponse + Proposal :=
  match FindLeader s with
  | None => inl (MkCommitResponse false "no leader")
  | Some _ => inr (MkProposal (ForCommit id) TXN_COMMIT (PackTxnPayload (SerializeCommitPayload commit_ts) id))
  end.

Definition Commit_end s (id : Z) (ok : bool) : ShardServiceImpl DB * CommitResponse :=
  (if ok then set_terminal (set_pending_txns s (delete id (pending_txns_ s))) id TXN_COMMITTED else s,
   MkCommitResponse ok "").

Definition Abort_local s (id : Z) : ShardServiceImpl DB * (AbortResponse + Proposal) :=
  match FindLeader s with
  | None => (s, inl (MkAbortResponse true))
  | Some l =>
      let propose := (s, inr (MkProposal (ForAbort id) TXN_ABORT (PackAbortPayload id))) in
      match pending_txns_ s !! id with
      | Some p =>
          if negb (prepared_replicated p) then
            (set_terminal (drop_local s l (pt_local_txn_id p) id) id TXN_ABORTED, inl (MkAbortResponse true))
          else propose
      | None => propose
      end
  end.

Definition Abort_end s (id : Z) (ok : bool) : ShardServiceImpl DB * AbortResponse :=
  (if ok then set_terminal (set_pending_txns s (delete id (pending_txns_ s))) id TXN_ABORTED else s,
   MkAbortResponse ok).

(** The whole handlers; [others] is what other threads do while the handler waits
    for the entry. *)
Definition Prepare (others : ShardServiceImpl DB → ShardServiceImpl DB) s (id commit_ts : Z) :
    ShardServiceImpl DB * PrepareResponse :=
  match Prepare_local s id commit_ts with
  | (s, inl resp) => (s, resp)
  | (s, inr p) =>
      let '(s, ok) := ProposeAndWait others s (p_type p) (p_payload p) in
      match p_for p with
      | ForPrepare l local id => Prepare_end s l local id ok
      | _ => (s, MkPrepareResponse false "")
      end
  end.

Definition Commit (others : ShardServiceImpl DB → ShardServiceImpl DB) s (id commit_ts : Z) :
    ShardServiceImpl DB * CommitResponse :=
  match Commit_local s id commit_ts with
  | inl resp => (s, resp)
  | inr p => let '(s, ok) := ProposeAndWait others s (p_type p) (p_payload p) in Commit_end s id ok
  end.

Definition Abort (others : ShardServiceImpl DB → ShardServiceImpl DB) s (id : Z) :
    ShardServiceImpl DB * AbortResponse :=
  match Abort_local s id with
  | (s, inl resp) => (s, resp)
  | (s, inr p) => let '(s, ok) := ProposeAndWait others s (p_type p) (p_payload p) in Abort_end s id ok
  end.

(** ** [QueryTxnState] *)

Definition QueryTxnState s (id : Z) : TxnStateResponse :=
  match terminal_txn_states_ s !! id with
  | Some st => MkTxnStateResponse true st
  | None =>
      match pending_txns_ s !! id with
      | Some p => MkTxnStateResponse true (if prepared_replicated p then TXN_PREPARED else TXN_IN_FLIGHT)
      | None =>
          match head hosted with
          | Some i =>
              if SM.IsTxnPrepared (state_machines s i) id then MkTxnStateResponse true TXN_PREPARED
              else MkTxnStateResponse true TXN_UNKNOWN
          | None => MkTxnStateResponse true TXN_UNKNOWN
          end
      end
  end.
End service.
End Shard.
