(* ===== verification/ShardSafety.v ===== *)
(** * What a shard's answers mean

    The handlers of ShardServer.v interleaved with each other and with the Raft
    group, as a step relation, and what the answers promise: a yes vote and a
    reported state stand for a replicated prepare entry, and a proposal that was
    waited for in the leader's term was applied. *)
From Stdlib Require Import Strings.Byte.
From stdpp Require Import base functions relations gmap sets strings list.
From Stdlib Require Import ZArith Lia.
From S2P Require Import JoinHandler.
From S2P Require Import Prelude Status KeyEncoding RocksDB MVCCStore LockManager GroupCommit LogFile Wal TxnManager ShardMessages.
From S2P Require Import RaftLog RaftStateMachine RaftSpec RaftNode RaftCluster RaftReplication RaftTransport ShardServer.
Local Open Scope Z_scope.

(** A handler at [ProposeAndWait]: before the proposal, or waiting for the index
    it got. [term] is the term of the entry (not known to the code). *)
Inductive Call :=
  | Proposing (p : Proposal)
  | Waiting (p : Proposal) (leader ix term : Z).

Inductive Reply :=
  | PrepareReply (id : Z) (resp : PrepareResponse)
  | CommitReply (id : Z) (resp : CommitResponse)
  | AbortReply (id : Z) (resp : AbortResponse).

Record Service (DB : Type) := MkService {
  shard : ShardServiceImpl DB;
  calls : list Call;
  replies : list Reply;
}.
Arguments MkService {DB}.
Arguments shard {DB}.
Arguments calls {DB}.
Arguments replies {DB}.

(** The transaction that an entry prepares. *)
Definition prepares_txn (e : RaftLogEntry) : option Z :=
  match re_type e with
  | TXN_PREPARE_BATCH => (λ x, x.1.1.1) <$> UnpackPrepareBatchPayload (re_payload e)
  | TXN_PREPARE => snd <$> UnpackPayload (re_payload e)
  | _ => None
  end.

Section service.
Context `{RocksDB DB} `{GroupCommit} (ids hosted : list Z) (env : getenv) (in_process on_disk : bool).
Implicit Types (s : ShardServiceImpl DB) (v : Service DB).

(** What the handler does with the result of [ProposeAndWait]. *)
Definition finish s (p : Proposal) (ok : bool) : ShardServiceImpl DB * Reply :=
  match p_for p with
  | ForPrepare l local id => let '(s, resp) := Shard.Prepare_end s l local id ok in (s, PrepareReply id resp)
  | ForCommit id => let '(s, resp) := Shard.Commit_end s id ok in (s, CommitReply id resp)
  | ForAbort id => let '(s, resp) := Shard.Abort_end s id ok in (s, AbortReply id resp)
  end.

Inductive service_step : Service DB → Service DB → Prop :=
  | st_raft v c : cluster_step ids env in_process (raft_group (shard v)) c →
      (∀ i, i ∈ hosted → applied (Shard.node (shard v) i) `prefix_of` applied (nodes c i)) →
      service_step v (MkService (Shard.raft_moves (shard v) c) (calls v) (replies v))
  | st_execute v req :
      service_step v (MkService (Shard.Execute hosted (shard v) req).1 (calls v) (replies v))
  | st_join v req :
      service_step v (MkService (Shard.DistributedJoin hosted (shard v) req).1 (calls v) (replies v))
  | st_prepare_refused v id cts s resp : Shard.Prepare_local hosted (shard v) id cts = (s, inl resp) →
      service_step v (MkService s (calls v) (PrepareReply id resp :: replies v))
  | st_prepare v id cts s p : Shard.Prepare_local hosted (shard v) id cts = (s, inr p) →
      service_step v (MkService s (Proposing p :: calls v) (replies v))
  | st_commit_refused v id cts resp : Shard.Commit_local hosted (shard v) id cts = inl resp →
      service_step v (MkService (shard v) (calls v) (CommitReply id resp :: replies v))
  | st_commit v id cts p : Shard.Commit_local hosted (shard v) id cts = inr p →
      service_step v (MkService (shard v) (Proposing p :: calls v) (replies v))
  | st_abort_local v id s resp : Shard.Abort_local hosted (shard v) id = (s, inl resp) →
      service_step v (MkService s (calls v) (AbortReply id resp :: replies v))
  | st_abort v id s p : Shard.Abort_local hosted (shard v) id = (s, inr p) →
      service_step v (MkService s (Proposing p :: calls v) (replies v))
  | st_propose_failed v k p s s' r : calls v !! k = Some (Proposing p) →
      Shard.ProposeAndWait_begin hosted (shard v) (p_type p) (p_payload p) = (s, None) →
      finish s p false = (s', r) → is_u32 (Z.of_nat (length (p_payload p))) →
      service_step v (MkService s' (delete k (calls v)) (r :: replies v))
  | st_propose v k p s l ix : calls v !! k = Some (Proposing p) →
      Shard.ProposeAndWait_begin hosted (shard v) (p_type p) (p_payload p) = (s, Some (l, ix)) →
      is_u32 (Z.of_nat (length (p_payload p))) →
      service_step v (MkService s (Waiting p l ix (current_term_ (Shard.node (shard v) l)) :: delete k (calls v))
        (replies v))
  | st_wait v k p l ix t s' r : calls v !! k = Some (Waiting p l ix t) →
      finish (shard v) p (Shard.ProposeAndWait_end (shard v) l ix) = (s', r) →
      service_step v (MkService s' (delete k (calls v)) (r :: replies v)).

(** A service that has just started: no transactions, a fresh group. *)
Definition service_init (tms : Z → TxnManager DB) : Service DB :=
  MkService (MkShardServiceImpl (cluster_init ids env in_process on_disk) (λ i, SM.new_sm (tms i))
    (MkInProcessTransport ∅ ∅) false ∅ ∅) [] [].

Inductive service_steps (tms : Z → TxnManager DB) : nat → Service DB → Prop :=
  | service_start : service_steps tms 0 (service_init tms)
  | service_next k v v' : service_steps tms k v → service_step v v' → service_steps tms (S k) v'.

(** ** The invariant *)

(** A replica of this process applied an entry that prepares the transaction. *)
Definition backed s (id : Z) : Prop :=
  ∃ i e, i ∈ hosted ∧ e ∈ applied (Shard.node s i) ∧ prepares_txn e = Some id.

Definition results_backed s : Prop :=
  ∀ i id r, i ∈ hosted → prepare_results_ (state_machines s i) !! id = Some r → pr_success r = true →
    ∃ e, e ∈ applied (Shard.node s i) ∧ prepares_txn e = Some id.

Definition wait_ok (a : Raft) (w : Call) : Prop :=
  match w with
  | Proposing p => p_type p = RaftEntryType_of_Z (RaftEntryType_to_Z (p_type p)) ∧ 0 ≤ RaftEntryType_to_Z (p_type p) < 256 ∧
      match p_for p with ForPrepare l _ _ => l ∈ hosted | _ => True end
  | Waiting p l ix t => l ∈ ids ∧ 0 < ix ∧ match p_for p with ForPrepare l _ _ => l ∈ hosted | _ => True end ∧
      ∃ l0 L, leads a !! t = Some (l, l0) ∧ llog a !! t = Some L ∧
        L !! Z.to_nat (ix - 1) = Some (MkRaftLogEntry ix t (p_type p) (p_payload p))
  end.

Record service_inv v (a : Raft) (b : Z) : Prop := {
  si_group : cluster_rel ids (raft_group (shard v)) a b;
  si_commit i : within_commit (Shard.node (shard v) i);
  si_results : results_backed (shard v);
  si_pending id p : pending_txns_ (shard v) !! id = Some p → prepared_replicated p = true → backed (shard v) id;
  si_vote id resp : PrepareReply id resp ∈ replies v → vote_commit resp = true → backed (shard v) id;
  si_terminal id st : terminal_txn_states_ (shard v) !! id = Some st →
    st = TXN_COMMITTED ∧ CommitReply id (MkCommitResponse true "") ∈ replies v ∨
    st = TXN_ABORTED ∧ AbortReply id (MkAbortResponse true) ∈ replies v;
  si_calls w : w ∈ calls v → wait_ok a w;
}.

(** ** Steps that prepare nothing *)

(** The group is the same, and no transaction became prepared. *)
Record quiet s s' : Prop := {
  qu_group : raft_group s' = raft_group s;
  qu_results i id r : prepare_results_ (state_machines s' i) !! id = Some r →
    prepare_results_ (state_machines s i) !! id = Some r;
  qu_pending id p : pending_txns_ s' !! id = Some p → prepared_replicated p = true →
    ∃ p', pending_txns_ s !! id = Some p' ∧ prepared_replicated p' = true;
  qu_terminal : terminal_txn_states_ s' = terminal_txn_states_ s;
}.

Lemma quiet_refl s : quiet s s.
Proof. split; try done. intros id p ??. by exists p. Qed.

Lemma quiet_trans s1 s2 s3 : quiet s1 s2 → quiet s2 s3 → quiet s1 s3.
Proof.
  intros [G1 R1 P1 T1] [G2 R2 P2 T2]. split; [congruence|eauto| |congruence].
  intros id p Hp Hr. destruct (P2 id p Hp Hr) as (p' & Hp' & Hr'). eauto.
Qed.

Lemma quiet_sm s i sm : (∀ id r, prepare_results_ sm !! id = Some r →
    prepare_results_ (state_machines s i) !! id = Some r) → quiet s (Shard.set_sm s i sm).
Proof.
  intros Hsm. split; cbn; try done; [|intros id p ??; by exists p].
  intros j id r. destruct (decide (j = i)) as [->|Hne]; [rewrite fn_lookup_insert; auto|by rewrite fn_lookup_insert_ne].
Qed.

Lemma quiet_tm s i tm : quiet s (Shard.set_tm s i tm).
Proof. by apply quiet_sm. Qed.

Lemma quiet_pending s m : (∀ id p, m !! id = Some p → prepared_replicated p = true →
    ∃ p', pending_txns_ s !! id = Some p' ∧ prepared_replicated p' = true) → quiet s (Shard.set_pending_txns s m).
Proof. intros Hm. by split. Qed.

Lemma quiet_forget s id : quiet s (Shard.set_pending_txns s (delete id (pending_txns_ s))).
Proof. apply quiet_pending. intros id' p [_ Hp]%lookup_delete_Some Hr. by exists p. Qed.

Lemma quiet_drop_local s l local id : quiet s (Shard.drop_local s l local id).
Proof.
  unfold Shard.drop_local. eapply quiet_trans; [|apply quiet_forget]. apply quiet_sm. cbn.
  intros id' r [_ Hr]%lookup_delete_Some. done.
Qed.

Lemma quiet_execute s req : quiet s (Shard.Execute hosted s req).1.
Proof.
  unfold Shard.Execute. destruct (Shard.FindLeader hosted s) as [l|]; [|apply quiet_refl].
  destruct (eq_op req).
  - unfold Shard.execute_begin. destruct (TM.Begin _ _) as [tm local]. cbn [fst].
    eapply quiet_trans; [by apply (quiet_sm s l (SM.RegisterLocalTxn (SM.set_mgr (state_machines s l) tm) (eq_raft_txn_id req) local))|].
    apply quiet_pending. intros id p [[<- <-]|[_ Hp]]%lookup_insert_Some Hr; [done|by exists p].
  - unfold Shard.execute_read. destruct (_ =? 0); [apply quiet_refl|]. destruct (TM.Read _ _ _ _). apply quiet_tm.
  - unfold Shard.execute_write. destruct (_ =? 0); [apply quiet_refl|]. destruct (TM.Write _ _ _ _ _). apply quiet_tm.
  - unfold Shard.execute_delete. destruct (_ =? 0); [apply quiet_refl|]. destruct (TM.Delete _ _ _ _). apply quiet_tm.
  - unfold Shard.execute_scan. destruct (_ =? 0); [apply quiet_refl|]. destruct (TM.Scan _ _ _ _ _ _). apply quiet_tm.
  - apply quiet_refl.
Qed.

Lemma quiet_join s req : quiet s (Shard.DistributedJoin hosted s req).1.
Proof.
  unfold Shard.DistributedJoin. destruct (Shard.FindLeader hosted s) as [l|]; [|apply quiet_refl].
  destruct (_ =? 0); [apply quiet_refl|]. destruct (RunDistributedJoin _ _ _). apply quiet_tm.
Qed.

Lemma Prepare_local_spec s id cts s' r : Shard.Prepare_local hosted s id cts = (s', r) →
  quiet s s' ∧
  match r with
  | inl resp => vote_commit resp = false
  | inr p => ∃ l local payload, l ∈ hosted ∧ p = MkProposal (ForPrepare l local id) TXN_PREPARE_BATCH payload
  end.
Proof.
  unfold Shard.Prepare_local. destruct (Shard.FindLeader hosted s) as [l|] eqn:Hl; [|intros [= <- <-]; by split; [apply quiet_refl|]].
  assert (l ∈ hosted) as Hin.
  { unfold Shard.FindLeader in Hl. apply head_Some_elem_of, list_elem_of_filter in Hl. tauto. }
  destruct (pending_txns_ s !! id) as [p|]; [|intros [= <- <-]; by split; [apply quiet_refl|]].
  destruct (TM.Prepare _ _ _) as [tm st]. pose proof (quiet_tm s l tm) as Hq.
  destruct (negb (St.ok st)).
  { intros [= <- <-]. split; [|done]. eapply quiet_trans; [exact Hq|apply quiet_drop_local]. }
  destruct (TM.GetTxn _ _) as [txn|]; intros [= <- <-].
  - split; [exact Hq|]. by eexists l, _, _.
  - split; [|done]. eapply quiet_trans; [exact Hq|].
    set (s1 := Shard.set_tm s l tm). set (s2 := Shard.set_sm s1 l (SM.ForgetTxn (state_machines s1 l) id)).
    apply (quiet_trans _ s2); [|apply (quiet_forget s2)].
    apply quiet_sm. cbn. intros id' r [_ Hr]%lookup_delete_Some. done.
Qed.

(** ** Entries that prepare *)

Lemma Apply_results (sm : RaftStateMachine DB) e id r :
  prepare_results_ (SM.Apply sm e) !! id = Some r → pr_success r = true →
  prepare_results_ sm !! id = Some r ∨ prepares_txn e = Some id.
Proof.
  unfold SM.Apply, prepares_txn. intros Hr Hs. destruct (re_type e); try (by left).
  all: try (destruct (UnpackPayload (re_payload e)) as [[p i]|]; [|by left]).
  - unfold SM.apply_begin in Hr. destruct (DeserializeBeginPayload p); [|by left].
    destruct (TM.Begin _ _). by left.
  - unfold SM.apply_write in Hr. destruct (DeserializeWritePayload p); [|by left].
    destruct (txn_id_map_ sm !! i); by left.
  - unfold SM.apply_delete in Hr. destruct (DeserializeDeletePayload p); [|by left].
    destruct (txn_id_map_ sm !! i); by left.
  - cbn. destruct (decide (i = id)) as [->|Hne]; [by right|left]. unfold SM.apply_prepare in Hr.
    destruct (DeserializePreparePayload p); [|cbn in Hr; by rewrite lookup_insert_ne in Hr].
    destruct (txn_id_map_ sm !! i); [|cbn in Hr; by rewrite lookup_insert_ne in Hr].
    destruct (TM.Prepare _ _ _) as [tm st]. destruct (negb _); cbn in Hr; by rewrite lookup_insert_ne in Hr.
  - unfold SM.apply_commit in Hr. destruct (DeserializeCommitPayload p); [|by left].
    destruct (txn_id_map_ sm !! i); [|by left]. left. cbn in Hr. by apply lookup_delete_Some in Hr as [_ ?].
  - left. unfold SM.apply_abort in Hr. destruct (negb _); [done|].
    destruct (txn_id_map_ sm !! _); [|done]. cbn in Hr. by apply lookup_delete_Some in Hr as [_ ?].
  - unfold SM.apply_prepare_batch in Hr. destruct (UnpackPrepareBatchPayload _) as [[[[i snap] cts] ws]|]; [|by left].
    cbn. destruct (decide (i = id)) as [->|Hne]; [by right|left].
    case_bool_decide; [cbn in Hr; by rewrite lookup_insert_ne in Hr|].
    destruct (TM.ImportPreparedTxn _ _ _ _). cbn in Hr. by rewrite lookup_insert_ne in Hr.
  - by left.
Qed.

Lemma Apply_all_results es (sm : RaftStateMachine DB) id r :
  prepare_results_ (foldl SM.Apply sm es) !! id = Some r → pr_success r = true →
  prepare_results_ sm !! id = Some r ∨ ∃ e, e ∈ es ∧ prepares_txn e = Some id.
Proof.
  revert sm. induction es as [|e es IH]; intros sm Hr Hs; [by left|].
  destruct (IH _ Hr Hs) as [Hr'|(x & Hx & ?)]; [|right; exists x; split; [by right|done]].
  destruct (Apply_results sm e id r Hr' Hs) as [?|?]; [by left|]. right. exists e. split; [by left|done].
Qed.

(** ** The invariant is kept *)

Context (Hids : NoDup ids) (Hu32 : Forall is_u32 ids) (Hhosted : hosted ⊆ ids).

Lemma FindLeader_spec s l : Shard.FindLeader hosted s = Some l → l ∈ hosted ∧ role_ (Shard.node s l) = LEADER.
Proof. unfold Shard.FindLeader. intros Hl. apply head_Some_elem_of, list_elem_of_filter in Hl. tauto. Qed.

Lemma wait_ok_mono a a' w : extends a a' → wait_ok a w → wait_ok a' w.
Proof.
  intros He. destruct w as [p|p l ix t]; [done|]. intros (Hl & Hix & Hp & l0 & L & Hle & HL & Hk).
  destruct (ex_llog _ _ He _ _ HL) as (L' & HL' & Hpre).
  split_and!; [done..|]. exists l0, L'. split_and!; [by apply (ex_leads _ _ He)|done|by eapply prefix_lookup].
Qed.

Lemma cluster_rel_weaken c a b b' : b ≤ b' → cluster_rel ids c a b → cluster_rel ids c a b'.
Proof.
  intros Hb [Hi Hn Hm Hbd]. split; [done|done| |by eapply bounded_mono].
  by apply (msgs_ok_mono ids a a b b' c).
Qed.

(** A quiet step of a handler. *)
Lemma inv_quiet v a b s cs rs : service_inv v a b → quiet (shard v) s →
  (∀ w, w ∈ cs → wait_ok a w) → replies v ⊆ rs →
  (∀ id resp, PrepareReply id resp ∈ rs → vote_commit resp = true → PrepareReply id resp ∈ replies v) →
  service_inv (MkService s cs rs) a b.
Proof.
  intros [G C R P V T W] [QG QR QP QT] Hcs Hsub Hvote.
  assert (∀ id, backed (shard v) id → backed s id) as Hback.
  { intros id (i & e & ?). exists i, e. unfold Shard.node. by rewrite QG. }
  split; cbn [shard calls replies].
  - by rewrite QG.
  - intros i. unfold Shard.node. rewrite QG. apply C.
  - intros i id r Hi Hr Hs. unfold Shard.node. rewrite QG. by eapply R, Hs; [|apply QR].
  - intros id p Hp Hr. destruct (QP id p Hp Hr) as (p' & Hp' & Hr'). by eapply Hback, P.
  - intros id resp Hin Hv. eapply Hback, V; [by apply Hvote|done].
  - intros id st. rewrite QT. intros [[? ?]|[? ?]]%T; [left|right]; auto.
  - exact Hcs.
Qed.

Lemma inv_raft v a b c : service_inv v a b → 0 ≤ b → b + 1 < UINT32_MAX →
  cluster_step ids env in_process (raft_group (shard v)) c →
  (∀ i, i ∈ hosted → applied (Shard.node (shard v) i) `prefix_of` applied (nodes c i)) →
  ∃ a', service_inv (MkService (Shard.raft_moves (shard v) c) (calls v) (replies v)) a' (b + 1).
Proof.
  intros [G C R P V T W] Hb0 Hb Hs Hpre.
  destruct (cluster_step_rel ids env in_process Hids Hu32 _ c a b G Hb0 Hb Hs) as (i & a' & Ha & Hr).
  destruct (raft_steps_facts _ _ _ _ (cr_inv _ _ _ _ G) Ha) as (_ & He & _).
  assert (∀ id, backed (shard v) id → backed (Shard.raft_moves (shard v) c) id) as Hback.
  { intros id (j & e & Hj & He' & ?). exists j, e. split_and!; [done| |done]. destruct (Hpre j Hj) as [r Er].
    unfold Shard.node, Shard.raft_moves. cbn. rewrite Er. apply elem_of_app. by left. }
  exists a'. split; cbn [shard calls replies Shard.raft_moves raft_group pending_txns_ terminal_txn_states_].
  - done.
  - intros j. apply (within_commit_step ids env in_process (raft_group (shard v)) c); [exact C|done].
  - intros j id r Hj Hr' Hs'. cbn in Hr'. destruct (Apply_all_results _ _ _ _ Hr' Hs') as [Hold|(e & Hin & Hp)].
    + destruct (R j id r Hj Hold Hs') as (e & Hin & Hp). exists e. split; [|done]. destruct (Hpre j Hj) as [x Ex].
      unfold Shard.node, Shard.raft_moves. cbn. rewrite Ex. apply elem_of_app. by left.
    + exists e. split; [|done]. unfold Shard.node. cbn.
      rewrite <- (take_drop (length (applied (Shard.node (shard v) j))) (applied (nodes c j))). apply elem_of_app. by right.
  - intros id p Hp Hr'. by eapply Hback, P.
  - intros id resp Hin Hv. by eapply Hback, V.
  - exact T.
  - intros w Hw. by eapply wait_ok_mono, W.
Qed.

Lemma propose_node n ty pl : applied (Propose_locked n ty pl).1.1 = applied n.
Proof.
  unfold Propose_locked. destruct (negb _); [done|]. destruct (RaftLog_Append _ _ _ _) as [log idx].
  destruct (idx =? 0); [done|]. by destruct (IsBatchingEnabled _).
Qed.

Lemma propose_entry n ty pl n' ix send : log_wf (log_ n) → log_synced (log_ n) → role_ n = LEADER →
  Propose_locked n ty pl = (n', ix, send) → ix ≠ 0 →
  0 < ix ∧ role_ n' = LEADER ∧ current_term_ n' = current_term_ n ∧
  entries_ (log_ n') !! Z.to_nat (ix - 1) = Some (MkRaftLogEntry ix (current_term_ n) ty pl).
Proof.
  intros Hwf Hs Hr E Hix. unfold Propose_locked in E. rewrite Hr, bool_decide_eq_true_2 in E by done. cbn [negb] in E.
  destruct (RaftLog_Append_ok (log_ n) (current_term_ n) ty pl Hwf Hs) as (Ee & _ & _ & Eix).
  destruct (RaftLog_Append _ _ _ _) as [log idx]. cbn [fst snd re_index] in *.
  destruct (idx =? 0) eqn:E0; [injection E as <- <- <-; done|].
  assert (ix = idx ∧ log_ n' = log ∧ role_ n' = LEADER ∧ current_term_ n' = current_term_ n) as (-> & El & ? & ?).
  { destruct (IsBatchingEnabled _); injection E as <- <- <-; done. }
  split_and!; [lia|done|done|]. rewrite El, Ee, Eix.
  replace (Z.to_nat (Z.of_nat (length (entries_ (log_ n))) + 1 - 1)) with (length (entries_ (log_ n))) by lia.
  by rewrite list_lookup_middle.
Qed.

Lemma inv_propose v a b p s r : service_inv v a b → 0 ≤ b → b + 1 < UINT32_MAX →
  Proposing p ∈ calls v → is_u32 (Z.of_nat (length (p_payload p))) →
  Shard.ProposeAndWait_begin hosted (shard v) (p_type p) (p_payload p) = (s, r) →
  ∃ a', service_inv (MkService s (calls v) (replies v)) a' (b + 1) ∧
    ∀ l ix, r = Some (l, ix) → wait_ok a' (Waiting p l ix (current_term_ (Shard.node (shard v) l))).
Proof.
  intros Hinv Hb0 Hb Hc Hlen E. pose proof Hinv as [G C R P V T W].
  destruct (W _ Hc) as (Hty & Hz & Hfor). unfold Shard.ProposeAndWait_begin in E.
  destruct (Shard.FindLeader hosted (shard v)) as [l|] eqn:Hl.
  2: { simplify_eq. exists a. split; [|done]. split; cbn [shard calls replies]; try done.
       apply (cluster_rel_weaken _ a b); [lia|done]. }
  destruct (FindLeader_spec _ _ Hl) as [Hlh Hrole]. pose proof (Hhosted l Hlh) as Hli.
  pose proof (cs_propose ids env in_process (raft_group (shard v)) l (p_type p) (p_payload p) Hli Hlen Hty Hz) as Hstep.
  fold (Shard.node (shard v) l) in Hstep. pose proof (propose_node (Shard.node (shard v) l) (p_type p) (p_payload p)) as Hap.
  destruct (Propose_locked _ _ _) as [[n ix] send] eqn:Ep. cbn [fst] in Hstep, Hap.
  assert (∀ i, applied (nodes (set_node (raft_group (shard v)) l n) i) = applied (Shard.node (shard v) i)) as Happ.
  { intros i. cbn. destruct (decide (i = l)) as [->|Hne]; [by rewrite fn_lookup_insert|by rewrite fn_lookup_insert_ne]. }
  destruct (cluster_step_rel ids env in_process Hids Hu32 _ _ a b G Hb0 Hb Hstep) as (i & a' & Ha & Hr).
  destruct (raft_steps_facts _ _ _ _ (cr_inv _ _ _ _ G) Ha) as (_ & He & _).
  exists a'. split.
  - assert (∀ id, backed (shard v) id → backed (Shard.set_group (shard v) (set_node (raft_group (shard v)) l n)) id) as Hback.
    { intros id (j & e & Hj & He' & ?). exists j, e. split_and!; [done| |done]. unfold Shard.node. cbn [Shard.set_group raft_group].
      by rewrite Happ. }
    assert (s = Shard.set_group (shard v) (set_node (raft_group (shard v)) l n)) as -> by (destruct (ix =? 0); by simplify_eq).
    split; cbn [shard calls replies Shard.set_group raft_group pending_txns_ terminal_txn_states_].
    + done.
    + intros j. by apply (within_commit_step ids env in_process (raft_group (shard v))).
    + intros j id x Hj Hx Hs. destruct (R j id x Hj Hx Hs) as (e & ? & ?). exists e. split; [|done].
      unfold Shard.node. cbn [Shard.set_group raft_group]. by rewrite Happ.
    + intros id x Hx Hr'. by eapply Hback, P.
    + intros id resp Hin Hv. by eapply Hback, V.
    + exact T.
    + intros w Hw. by eapply wait_ok_mono, W.
  - intros l' ix' ->. destruct (Z.eqb_spec ix 0) as [|Hix]; [by simplify_eq|]. injection E as <- <- <-.
    pose proof (cr_nodes _ _ _ _ G l Hli) as Hn. destruct (nr_disk _ _ _ _ Hn) as (Hwf & Hsy & _).
    destruct (propose_entry _ _ _ n ix send Hwf Hsy Hrole Ep Hix) as (Hpos & Hr' & Ht & Hent).
    pose proof (cr_nodes _ _ _ _ Hr l Hli) as Hn'. cbn in Hn'. rewrite fn_lookup_insert in Hn'.
    destruct (nr_lead _ _ _ _ Hn' Hr') as [l0 Hl0].
    pose proof (leader_log ids a' l l0 (cr_inv _ _ _ _ Hr) Hl0) as HL.
    rewrite <- (nr_term _ _ _ _ Hn'), Ht in Hl0, HL. rewrite (nr_log _ _ _ _ Hn') in Hent.
    split_and!; [done|done|done|]. by exists l0, (rlog a' l).
Qed.

Lemma inv_terminal v a b id st : service_inv v a b →
  st = TXN_COMMITTED ∧ CommitReply id (MkCommitResponse true "") ∈ replies v ∨
  st = TXN_ABORTED ∧ AbortReply id (MkAbortResponse true) ∈ replies v →
  service_inv (MkService (Shard.set_terminal (shard v) id st) (calls v) (replies v)) a b.
Proof.
  intros [G C R P V T W] Hst. split; cbn [shard calls replies Shard.set_terminal terminal_txn_states_]; try done.
  intros id' st' [[<- <-]|[_ Hs]]%lookup_insert_Some; [done|by apply T].
Qed.

(** A successful prepare result is taken and reported. *)
Lemma inv_prepared v a b l id r : service_inv v a b → l ∈ hosted →
  prepare_results_ (state_machines (shard v) l) !! id = Some r → pr_success r = true →
  let s1 := Shard.set_sm (shard v) l (SM.TakePrepareResult (state_machines (shard v) l) id).1 in
  service_inv (MkService (Shard.set_pending_txns s1 (alter (λ p, MkPendingTxn (pt_raft_txn_id p) (pt_snapshot_ts p)
    (pt_local_txn_id p) true) id (pending_txns_ s1))) (calls v) (PrepareReply id (MkPrepareResponse true "") :: replies v)) a b.
Proof.
  intros [G C R P V T W] Hl Hr Hs s1.
  assert (backed (shard v) id) as Hb by (destruct (R l id r Hl Hr Hs) as (e & ? & ?); by exists l, e).
  assert (quiet (shard v) s1) as [QG QR QP QT].
  { apply quiet_sm. unfold SM.TakePrepareResult. rewrite Hr. cbn. by intros id' x [_ ?]%lookup_delete_Some. }
  split; cbn [shard calls replies Shard.set_pending_txns raft_group state_machines pending_txns_ terminal_txn_states_].
  - done.
  - exact C.
  - intros j id' x Hj Hx Hs'. by eapply R, Hs'; [|apply QR].
  - intros id' p Hp Hr'. destruct (decide (id' = id)) as [->|Hne]; [exact Hb|].
    cbn in Hp. rewrite lookup_alter_ne in Hp by done. exact (P id' p Hp Hr').
  - intros id' resp [E|Hin]%elem_of_cons Hv; [injection E as -> _; exact Hb|exact (V id' resp Hin Hv)].
  - intros id' st [[? ?]|[? ?]]%T; [left|right]; (split; [done|by right]).
  - exact W.
Qed.

Lemma inv_calls v a b cs : service_inv v a b → (∀ w, w ∈ cs → wait_ok a w) → service_inv (MkService (shard v) cs (replies v)) a b.
Proof. intros [G C R P V T W] Hcs. by split. Qed.

Lemma inv_finish v a b p ok s r : service_inv v a b →
  match p_for p with ForPrepare l _ _ => l ∈ hosted | _ => True end →
  finish (shard v) p ok = (s, r) → service_inv (MkService s (calls v) (r :: replies v)) a b.
Proof.
  intros Hinv Hfor. unfold finish. destruct (p_for p) as [l local id|id|id].
  - unfold Shard.Prepare_end. destruct ok; cbn [negb].
    + pose proof (inv_prepared v a b l id) as Hprep. unfold SM.TakePrepareResult in *.
      destruct (prepare_results_ (state_machines (shard v) l) !! id) as [x|] eqn:Ex.
      * destruct (pr_success x) eqn:Es; cbn [negb]; intros [= <- <-].
        { specialize (Hprep x Hinv Hfor eq_refl Es). exact Hprep. }
        apply (inv_quiet v a b); [done| |by apply Hinv|by right|].
        { apply quiet_sm. cbn. by intros id' y [_ ?]%lookup_delete_Some. }
        intros id' resp [E|?]%elem_of_cons Hv; [by injection E as -> ->|done].
      * intros [= <- <-]. apply (inv_quiet v a b); [done|by apply quiet_sm|by apply Hinv|by right|].
        intros id' resp [E|?]%elem_of_cons Hv; [by injection E as -> ->|done].
    + intros [= <- <-]. apply (inv_quiet v a b); [done|apply quiet_drop_local|by apply Hinv|by right|].
      intros id' resp [E|?]%elem_of_cons Hv; [by injection E as -> ->|done].
  - unfold Shard.Commit_end. intros [= <- <-].
    assert (∀ s', quiet (shard v) s' → service_inv (MkService s' (calls v) (CommitReply id (MkCommitResponse ok "") :: replies v)) a b) as Hq.
    { intros s' Hs'. apply (inv_quiet v a b); [done|exact Hs'|by apply Hinv|by right|].
      by intros id' resp [?|?]%elem_of_cons Hv. }
    destruct ok; [|apply Hq, quiet_refl]. apply (inv_terminal _ a b id TXN_COMMITTED (Hq _ (quiet_forget _ _))).
    left. split; [done|by left].
  - unfold Shard.Abort_end. intros [= <- <-].
    assert (∀ s', quiet (shard v) s' → service_inv (MkService s' (calls v) (AbortReply id (MkAbortResponse ok) :: replies v)) a b) as Hq.
    { intros s' Hs'. apply (inv_quiet v a b); [done|exact Hs'|by apply Hinv|by right|].
      by intros id' resp [?|?]%elem_of_cons Hv. }
    destruct ok; [|apply Hq, quiet_refl]. apply (inv_terminal _ a b id TXN_ABORTED (Hq _ (quiet_forget _ _))).
    right. split; [done|by left].
Qed.

Lemma service_inv_weaken v a b b' : b ≤ b' → service_inv v a b → service_inv v a b'.
Proof. intros Hb [G C R P V T W]. split; try done. by apply (cluster_rel_weaken _ a b). Qed.

Lemma elem_of_delete {A} (k : nat) (l : list A) x : x ∈ delete k l → x ∈ l.
Proof. intros Hx. eapply elem_of_submseteq; [exact Hx|]. apply sublist_submseteq, sublist_delete. Qed.

(** A call that a handler adds. *)
Lemma inv_handler v a b s p : service_inv v a b → quiet (shard v) s → wait_ok a (Proposing p) →
  service_inv (MkService s (Proposing p :: calls v) (replies v)) a b.
Proof.
  intros Hinv Hq Hp. apply (inv_quiet v a b); try done. intros w [->|Hw]%elem_of_cons; [exact Hp|by apply Hinv].
Qed.

Lemma service_step_inv v v' a b : service_inv v a b → 0 ≤ b → b + 1 < UINT32_MAX → service_step v v' →
  ∃ a', service_inv v' a' (b + 1).
Proof.
  intros Hinv Hb0 Hb Hst.
  assert (∀ v2, service_inv v2 a b → ∃ a', service_inv v2 a' (b + 1)) as Hsame.
  { intros v2 H2. exists a. apply (service_inv_weaken _ a b); [lia|done]. }
  assert (∀ v1 a1 b1 k, service_inv v1 a1 b1 → ∀ w, w ∈ delete k (calls v1) → wait_ok a1 w) as Hdel.
  { intros v1 a1 b1 k H1 w Hw. eapply si_calls; [exact H1|]. by eapply elem_of_delete. }
  destruct Hst as [v c Hs Hpre|v req|v req|v id cts s resp E|v id cts s p E|v id cts resp E|v id cts p E|v id s resp E|v id s p E|
    v k p s s' r Hk E Ef Hlen|v k p s l ix Hk E Hlen|v k p l ix t s' r Hk Ef].
  - by apply (inv_raft v a b c).
  - apply Hsame. apply (inv_quiet v a b); try done; [apply quiet_execute|by apply Hinv].
  - apply Hsame. apply (inv_quiet v a b); try done; [apply quiet_join|by apply Hinv].
  - destruct (Prepare_local_spec _ _ _ _ _ E) as [Hq Hv]. apply Hsame.
    apply (inv_quiet v a b); try done; [by apply Hinv|by right|].
    intros id' x [Ex|?]%elem_of_cons Hx; [injection Ex as -> ->; congruence|done].
  - destruct (Prepare_local_spec _ _ _ _ _ E) as [Hq (l & local & pl & Hl & ->)]. apply Hsame. by apply (inv_handler v a b).
  - apply Hsame. apply (inv_quiet v a b); try done; [apply quiet_refl|by apply Hinv|by right|].
    by intros id' x [?|?]%elem_of_cons Hx.
  - apply Hsame. unfold Shard.Commit_local in E. destruct (Shard.FindLeader _ _); [|done]. injection E as <-.
    apply (inv_handler v a b); [done|apply quiet_refl|done].
  - apply Hsame. unfold Shard.Abort_local in E.
    assert (∀ s', quiet (shard v) s' → service_inv (MkService s' (calls v) (AbortReply id (MkAbortResponse true) :: replies v)) a b) as Hq.
    { intros s' Hs'. apply (inv_quiet v a b); [done|exact Hs'|by apply Hinv|by right|].
      by intros id' x [?|?]%elem_of_cons Hx. }
    destruct (Shard.FindLeader _ _) as [l|]; [|injection E as <- <-; apply Hq, quiet_refl].
    destruct (pending_txns_ (shard v) !! id) as [p|]; [|done]. destruct (negb _); [|done]. injection E as <- <-.
    apply (inv_terminal _ a b id TXN_ABORTED (Hq _ (quiet_drop_local _ _ _ _))). right. split; [done|by left].
  - apply Hsame. unfold Shard.Abort_local in E. destruct (Shard.FindLeader _ _) as [l|]; [|done].
    assert (shard v = s ∧ p = MkProposal (ForAbort id) TXN_ABORT (PackAbortPayload id)) as [<- ->].
    { destruct (pending_txns_ (shard v) !! id) as [x|]; [destruct (negb _); [done|]|]; by injection E as <- <-. }
    apply (inv_handler v a b); [done|apply quiet_refl|done].
  - destruct (inv_propose v a b p s None) as (a' & Hinv' & _); try done; [by eapply list_elem_of_lookup_2|].
    exists a'. assert (wait_ok a (Proposing p)) as (_ & _ & Hfor) by (apply Hinv; by eapply list_elem_of_lookup_2).
    pose proof (inv_finish _ a' (b + 1) p false s' r Hinv' Hfor Ef) as Hf.
    apply (inv_calls _ a' _ _ Hf). by apply (Hdel (MkService s (calls v) (replies v)) a' (b + 1) k).
  - destruct (inv_propose v a b p s (Some (l, ix))) as (a' & Hinv' & Hw); try done; [by eapply list_elem_of_lookup_2|].
    exists a'. apply (inv_calls _ a' _ _ Hinv'). intros w [->|Hw']%elem_of_cons; [by apply Hw|].
    by apply (Hdel (MkService s (calls v) (replies v)) a' (b + 1) k).
  - apply Hsame. assert (wait_ok a (Waiting p l ix t)) as (_ & _ & Hfor & _) by (apply Hinv; by eapply list_elem_of_lookup_2).
    pose proof (inv_finish v a b p _ s' r Hinv Hfor Ef) as Hf. apply (inv_calls _ a b _ Hf). by apply (Hdel v a b k).
Qed.

Lemma service_reachable tms k v : service_steps tms k v → Z.of_nat k < UINT32_MAX →
  ∃ a, service_inv v a (Z.of_nat k).
Proof.
  induction 1 as [|k v v' _ IH Hs]; intros Hk.
  - exists raft_init. split; cbn [service_init shard calls replies raft_group pending_txns_ terminal_txn_states_].
    + by apply cluster_init_rel.
    + intros i. unfold Shard.node, within_commit. cbn. unfold new_RaftNode. destruct (default (0, None) _).
      destruct (LoadBatchingConfig _ _) as [[? ?] ?]. cbn. lia.
    + intros i id r Hi Hr. cbn in Hr. by rewrite lookup_empty in Hr.
    + intros id p Hp. by rewrite lookup_empty in Hp.
    + by intros id resp ?%elem_of_nil.
    + intros id st Hst. by rewrite lookup_empty in Hst.
    + by intros w ?%elem_of_nil.
  - destruct IH as (a & Ha); [lia|]. destruct (service_step_inv v v' a (Z.of_nat k) Ha) as (a' & Ha'); [lia|lia|done|].
    exists a'. by replace (Z.of_nat (S k)) with (Z.of_nat k + 1) by lia.
Qed.
End service.

(** ** Schedules of a service *)

Inductive ServiceEvent :=
  | SvRaft (ev : Event)
  | SvExecute (req : ExecuteRequest)
  | SvJoin (req : DistributedJoinRequest)
  | SvPrepare (id cts : Z)
  | SvCommit (id cts : Z)
  | SvAbort (id : Z)
  | SvPropose (k : nat)
  | SvWait (k : nat).

Section schedule.
Context `{RocksDB DB} `{GroupCommit} (ids hosted : list Z) (env : getenv) (in_process on_disk : bool).

Definition add_reply (v : Service DB) (s : ShardServiceImpl DB) (r : Reply) : Service DB :=
  MkService s (calls v) (r :: replies v).
Definition add_call (v : Service DB) (s : ShardServiceImpl DB) (p : Proposal) : Service DB :=
  MkService s (Proposing p :: calls v) (replies v).

Definition run_service (v : Service DB) (ev : ServiceEvent) : option (Service DB) :=
  match ev with
  | SvRaft ev =>
      c ← run_event ids env in_process (raft_group (shard v)) ev;
      if bool_decide (Forall (λ i, applied (Shard.node (shard v) i) `prefix_of` applied (nodes c i)) hosted) then
        Some (MkService (Shard.raft_moves (shard v) c) (calls v) (replies v))
      else None
  | SvExecute req => Some (MkService (Shard.Execute hosted (shard v) req).1 (calls v) (replies v))
  | SvJoin req => Some (MkService (Shard.DistributedJoin hosted (shard v) req).1 (calls v) (replies v))
  | SvPrepare id cts =>
      Some (match Shard.Prepare_local hosted (shard v) id cts with
            | (s, inl resp) => add_reply v s (PrepareReply id resp)
            | (s, inr p) => add_call v s p
            end)
  | SvCommit id cts =>
      Some (match Shard.Commit_local hosted (shard v) id cts with
            | inl resp => add_reply v (shard v) (CommitReply id resp)
            | inr p => add_call v (shard v) p
            end)
  | SvAbort id =>
      Some (match Shard.Abort_local hosted (shard v) id with
            | (s, inl resp) => add_reply v s (AbortReply id resp)
            | (s, inr p) => add_call v s p
            end)
  | SvPropose k =>
      match calls v !! k with
      | Some (Proposing p) =>
          if bool_decide (is_u32 (Z.of_nat (length (p_payload p)))) then
            match Shard.ProposeAndWait_begin hosted (shard v) (p_type p) (p_payload p) with
            | (s, None) => let '(s', r) := finish s p false in Some (MkService s' (delete k (calls v)) (r :: replies v))
            | (s, Some (l, ix)) =>
                Some (MkService s (Waiting p l ix (current_term_ (Shard.node (shard v) l)) :: delete k (calls v)) (replies v))
            end
          else None
      | _ => None
      end
  | SvWait k =>
      match calls v !! k with
      | Some (Waiting p l ix t) =>
          let '(s', r) := finish (shard v) p (Shard.ProposeAndWait_end (shard v) l ix) in
          Some (MkService s' (delete k (calls v)) (r :: replies v))
      | _ => None
      end
  end.

Fixpoint run_services (v : Service DB) (evs : list ServiceEvent) : option (Service DB) :=
  match evs with
  | [] => Some v
  | ev :: evs => v' ← run_service v ev; run_services v' evs
  end.

Lemma run_service_sound v ev v' : run_service v ev = Some v' → service_step ids hosted env in_process v v'.
Proof.
  destruct ev as [ev|req|req|id cts|id cts|id|k|k]; cbn [run_service].
  - destruct (run_event _ _ _ _ _) as [c|] eqn:E; [|done]. cbn. case_bool_decide as HF; [|done]. intros [= <-].
    apply st_raft; [by eapply run_event_sound|]. by apply Forall_forall.
  - intros [= <-]. constructor.
  - intros [= <-]. apply st_join.
  - intros [= <-]. destruct (Shard.Prepare_local _ _ _ _) as [s [resp|p]] eqn:E; by econstructor.
  - intros [= <-]. destruct (Shard.Commit_local _ _ _ _) as [resp|p] eqn:E; by econstructor.
  - intros [= <-]. destruct (Shard.Abort_local _ _ _) as [s [resp|p]] eqn:E; by econstructor.
  - destruct (calls v !! k) as [[p|]|] eqn:Hk; [|done..]. case_bool_decide; [|done].
    destruct (Shard.ProposeAndWait_begin _ _ _ _) as [s [[l ix]|]] eqn:E; [intros [= <-]; by econstructor|].
    destruct (finish s p false) as [s' r] eqn:Ef. intros [= <-]. by eapply st_propose_failed.
  - destruct (calls v !! k) as [[|p l ix t]|] eqn:Hk; [done| |done].
    destruct (finish _ _ _) as [s' r] eqn:Ef. intros [= <-]. by eapply st_wait.
Qed.

Lemma run_services_sound tms evs v v' k : service_steps ids hosted env in_process on_disk tms k v →
  run_services v evs = Some v' → service_steps ids hosted env in_process on_disk tms (k + length evs) v'.
Proof.
  revert v k. induction evs as [|ev evs IH]; intros v k Hv E; cbn in *.
  { simplify_eq. by rewrite Nat.add_0_r. }
  destruct (run_service v ev) as [v1|] eqn:E1; [|done]. cbn in E. rewrite <- Nat.add_succ_comm.
  eapply IH; [|exact E]. eapply service_next; [exact Hv|]. by eapply run_service_sound.
Qed.
End schedule.

(** ** Claims *)

(** A replica of this process applied an entry that prepares the transaction, every
    replica that gets as far applies the same entry, and every leader of that or a later
    term has it in its log. *)
Definition durably_prepared {DB : Type} (ids hosted : list Z) (v : Service DB) (id : Z) : Prop :=
  let node := Shard.node (shard v) in
  ∃ i e, i ∈ hosted ∧ e ∈ applied (node i) ∧ prepares_txn e = Some id ∧
    (∀ j, j ∈ ids → re_index e ≤ last_applied_ (node j) → e ∈ applied (node j)) ∧
    (∀ j, j ∈ ids → role_ (node j) = LEADER → current_term_ (node i) ≤ current_term_ (node j) →
      RaftLog_Get (log_ (node j)) (re_index e) = Some e).

Lemma vote_durably_prepared {DB : Type} `{RocksDB DB} `{GroupCommit} (ids hosted : list Z) (env : getenv)
    (in_process on_disk : bool) (tms : Z → TxnManager DB) (k : nat) (v : Service DB) (id : Z) (resp : PrepareResponse) :
  NoDup ids → Forall is_u32 ids → hosted ⊆ ids →
  service_steps ids hosted env in_process on_disk tms k v → Z.of_nat k < UINT32_MAX →
  PrepareReply id resp ∈ replies v → vote_commit resp = true → durably_prepared ids hosted v id.
Proof.
  intros HN HF Hh Hrun Hk Hin Hv. set (node := Shard.node (shard v)).
  destruct (service_reachable ids hosted env in_process on_disk HN HF Hh tms k v Hrun Hk) as (a & Hinv).
  destruct (si_vote _ _ _ _ _ Hinv id resp Hin Hv) as (i & e & Hi & He & Hp). pose proof (si_group _ _ _ _ _ Hinv) as [Ha Hn _ _].
  exists i, e. split_and!; [done..| |].
  - intros j Hj Hle. by apply (applied_everywhere ids a i j (node i) (node j) e Ha (Hn i (Hh i Hi)) (Hn j Hj)).
  - intros j Hj Hr Ht. apply (applied_in_leader ids a i j (node i) (node j) e Ha (Hn i (Hh i Hi)) (Hn j Hj)); try done.
    apply (si_commit _ _ _ _ _ Hinv).
Qed.

(** C8. A yes vote is kept by the group. Whatever handlers and Raft steps are
    interleaved, when a shard has voted to commit a transaction, a replica of it
    has applied a log entry that prepares the transaction: every replica that gets
    as far as that entry applies the same one, and every leader of that or a later
    term has it in its log. *)
Theorem prepare_vote_durable {DB : Type} `{RocksDB DB} `{GroupCommit} (ids hosted : list Z) (env : getenv)
    (in_process on_disk : bool) (tms : Z → TxnManager DB) (k : nat) (v : Service DB) (id : Z) (resp : PrepareResponse) :
  NoDup ids → Forall is_u32 ids → hosted ⊆ ids →
  service_steps ids hosted env in_process on_disk tms k v → Z.of_nat k < UINT32_MAX →
  PrepareReply id resp ∈ replies v → vote_commit resp = true →
  let node := Shard.node (shard v) in
  ∃ i e, i ∈ hosted ∧ e ∈ applied (node i) ∧ prepares_txn e = Some id ∧
    (∀ j, j ∈ ids → re_index e ≤ last_applied_ (node j) → e ∈ applied (node j)) ∧
    (∀ j, j ∈ ids → role_ (node j) = LEADER → current_term_ (node i) ≤ current_term_ (node j) →
      RaftLog_Get (log_ (node j)) (re_index e) = Some e).
Proof.
  intros HN HF Hh Hrun Hk Hin Hv. exact (vote_durably_prepared ids hosted env in_process on_disk tms k v id resp HN HF Hh Hrun Hk Hin Hv).
Qed.

#[local] Existing Instance default_group_commit.

Definition demo_execute (id : Z) (op : OpType) (key value : bytes) : ServiceEvent :=
  SvExecute (MkExecuteRequest id op 1 key value 5 [] [] false).
(** One round of replication to node 2. *)
Definition demo_round : list ServiceEvent :=
  SvRaft <$> [EvSend 1; EvAppend 0; EvAppendReply 0; EvApply 1].
Definition demo_elected : list ServiceEvent := SvRaft <$> take 9 demo_events.
Definition demo_service_events : list ServiceEvent :=
  demo_elected ++ [demo_execute 7 OP_BEGIN [] []; demo_execute 7 OP_WRITE [x61] [x31]; SvPrepare 7 8; SvPropose 0] ++
  demo_round ++ [SvWait 0].
Definition demo_service_start : Service MemDB := service_init demo_ids (λ _, None) true true (λ _, demo_mgr).
Definition demo_service (evs : list ServiceEvent) : Service MemDB :=
  default demo_service_start (run_services demo_ids demo_ids (λ _, None) true demo_service_start evs).
Definition demo_service_ok (evs : list ServiceEvent) : bool :=
  match run_services demo_ids demo_ids (λ _, None) true demo_service_start evs with Some _ => true | None => false end.

Lemma demo_service_run evs : demo_service_ok evs = true →
  service_steps demo_ids demo_ids (λ _, None) true true (λ _, demo_mgr) (length evs) (demo_service evs).
Proof.
  unfold demo_service_ok, demo_service. intros E.
  apply (run_services_sound _ _ _ _ _ (λ _, demo_mgr) evs demo_service_start _ 0); [constructor|].
  by destruct (run_services _ _ _ _ _ _).
Qed.

Lemma prepare_vote_durable_witness :
  ∃ i e, i ∈ demo_ids ∧ e ∈ applied (Shard.node (shard (demo_service demo_service_events)) i) ∧ prepares_txn e = Some 7.
Proof.
  assert (demo_service_ok demo_service_events = true) as Hok by (vm_compute; reflexivity).
  destruct (prepare_vote_durable demo_ids demo_ids (λ _, None) true true (λ _, demo_mgr) (length demo_service_events)
    (demo_service demo_service_events) 7 (MkPrepareResponse true "") (proj1 demo_ids_ok) (proj2 demo_ids_ok))
    as (i & e & Hi & He & Hp & _).
  - done.
  - exact (demo_service_run demo_service_events Hok).
  - done.
  - apply (list_elem_of_lookup_2 _ 0). vm_compute. reflexivity.
  - done.
  - exists i, e. exact (conj Hi (conj He Hp)).
Defined.

(** [QueryTxnState] tells the truth: PREPARED means that a replica of the
    shard applied an entry that prepares the transaction, COMMITTED that a
    [Commit] of it was answered ok, ABORTED that an [Abort] of it was, and
    IN_FLIGHT that it was begun here. *)
Theorem query_state_truthful {DB : Type} `{RocksDB DB} `{GroupCommit} (ids hosted : list Z) (env : getenv)
    (in_process on_disk : bool) (tms : Z → TxnManager DB) (k : nat) (v : Service DB) (id : Z) :
  NoDup ids → Forall is_u32 ids → hosted ⊆ ids →
  service_steps ids hosted env in_process on_disk tms k v → Z.of_nat k < UINT32_MAX →
  match tsr_state (Shard.QueryTxnState hosted (shard v) id) with
  | TXN_PREPARED => ∃ i e, i ∈ hosted ∧ e ∈ applied (Shard.node (shard v) i) ∧ prepares_txn e = Some id
  | TXN_COMMITTED => CommitReply id (MkCommitResponse true "") ∈ replies v
  | TXN_ABORTED => AbortReply id (MkAbortResponse true) ∈ replies v
  | TXN_IN_FLIGHT => is_Some (pending_txns_ (shard v) !! id)
  | TXN_UNKNOWN => pending_txns_ (shard v) !! id = None
  end.
Proof.
  intros HN HF Hh Hrun Hk.
  destruct (service_reachable ids hosted env in_process on_disk HN HF Hh tms k v Hrun Hk) as (a & [_ _ R P _ T _]).
  unfold Shard.QueryTxnState. destruct (terminal_txn_states_ (shard v) !! id) as [st|] eqn:Et.
  { cbn. by destruct (T id st Et) as [[-> ?]|[-> ?]]. }
  destruct (pending_txns_ (shard v) !! id) as [p|] eqn:Ep.
  { cbn. destruct (prepared_replicated p) eqn:Er; [by apply (P id p)|by exists p]. }
  destruct (head hosted) as [i|] eqn:Ei; [|done]. destruct (SM.IsTxnPrepared _ _) eqn:Ex; [|done]. cbn.
  unfold SM.IsTxnPrepared in Ex. destruct (prepare_results_ _ !! id) as [r|] eqn:Er; [|done].
  apply head_Some_elem_of in Ei. destruct (R i id r Ei Er Ex) as (e & ? & ?). by exists i, e.
Qed.

Lemma query_state_truthful_witness :
  let v := demo_service demo_service_events in
  tsr_state (Shard.QueryTxnState demo_ids (shard v) 7) = TXN_PREPARED ∧
  ∃ i e, i ∈ demo_ids ∧ e ∈ applied (Shard.node (shard v) i) ∧ prepares_txn e = Some 7.
Proof.
  intros v. assert (demo_service_ok demo_service_events = true) as Hok by (vm_compute; reflexivity).
  assert (tsr_state (Shard.QueryTxnState demo_ids (shard v) 7) = TXN_PREPARED) as Eq by (vm_compute; reflexivity).
  split; [exact Eq|].
  pose proof (query_state_truthful demo_ids demo_ids (λ _, None) true true (λ _, demo_mgr) (length demo_service_events) v 7
    (proj1 demo_ids_ok) (proj2 demo_ids_ok) ltac:(done) (demo_service_run demo_service_events Hok)) as HQ.
  rewrite Eq in HQ. apply HQ. reflexivity.
Defined.

(** What [ProposeAndWait] acknowledges: when the wait for a proposal ends
    successfully and the node it was proposed on is still in the term of the
    proposal, that node has applied exactly the proposed entry at the index it
    waited for; so every replica that gets as far applies it. *)
Theorem replicated_ack_applied {DB : Type} `{RocksDB DB} `{GroupCommit} (ids hosted : list Z) (env : getenv)
    (in_process on_disk : bool) (tms : Z → TxnManager DB) (k : nat) (v : Service DB) (p : Proposal) (l ix t : Z) :
  NoDup ids → Forall is_u32 ids → hosted ⊆ ids →
  service_steps ids hosted env in_process on_disk tms k v → Z.of_nat k < UINT32_MAX →
  Waiting p l ix t ∈ calls v → Shard.ProposeAndWait_end (shard v) l ix = true →
  let node := Shard.node (shard v) in
  current_term_ (node l) = t →
  let e := MkRaftLogEntry ix t (p_type p) (p_payload p) in
  applied (node l) !! Z.to_nat (ix - 1) = Some e ∧
  ∀ j, j ∈ ids → ix ≤ last_applied_ (node j) → e ∈ applied (node j).
Proof.
  intros HN HF Hh Hrun Hk Hin Hdone node Ht e.
  destruct (service_reachable ids hosted env in_process on_disk HN HF Hh tms k v Hrun Hk) as (a & [G C _ _ _ _ W]).
  destruct (W _ Hin) as (Hl & Hix & _ & l0 & L & Hle & HL & He). pose proof G as [Ha Hn _ _]. apply Z.leb_le in Hdone.
  assert (applied (node l) !! Z.to_nat (ix - 1) = Some e) as Hap.
  { rewrite <- Ht in Hle, HL.
    apply (leader_entry_applied ids a l (node l) (Z.to_nat (ix - 1)) e l0 L Ha (Hn l Hl) (C l) Hle HL He); cbn; [lia|exact Hdone]. }
  split; [exact Hap|]. intros j Hj Hle'. apply (applied_everywhere ids a l j (node l) (node j) e Ha (Hn l Hl) (Hn j Hj)); [|done].
  by eapply list_elem_of_lookup_2.
Qed.

(** The demo before the vote is given. *)
Definition demo_waiting : list ServiceEvent := take 17 demo_service_events.

Lemma replicated_ack_applied_witness :
  ∃ p, Waiting p 1 2 1 ∈ calls (demo_service demo_waiting) ∧
    applied (Shard.node (shard (demo_service demo_waiting)) 1) !! 1%nat = Some (MkRaftLogEntry 2 1 (p_type p) (p_payload p)).
Proof.
  assert (demo_service_ok demo_waiting = true) as Hok by (vm_compute; reflexivity).
  exists (MkProposal (ForPrepare 1 1 7) TXN_PREPARE_BATCH (PackPrepareBatchPayload 7 5 8 [MkPrepareBatchWrite false 1 [x61] [x31]])).
  match goal with |- ?P ∧ _ => assert P as Hw end.
  { apply (list_elem_of_lookup_2 _ 0). vm_compute. reflexivity. }
  split; [exact Hw|].
  destruct (replicated_ack_applied demo_ids demo_ids (λ _, None) true true (λ _, demo_mgr) (length demo_waiting)
    (demo_service demo_waiting) _ 1 2 1 (proj1 demo_ids_ok) (proj2 demo_ids_ok) ltac:(done)
    (demo_service_run demo_waiting Hok) ltac:(done) Hw) as (E & _); [vm_compute; reflexivity|vm_compute; reflexivity|].
  exact E.
Defined.

(** Node 2 is elected in term 2 with the vote of node 3; node 1 refuses because
    its log is longer. *)
Definition demo_new_leader : list ServiceEvent :=
  SvRaft <$> [EvStart 3; EvElect 2; EvVote 1; EvVote 0; EvVoteReply 2 0; EvVoteReply 2 1].

(** The commit of transaction 7 is proposed on node 1 and not replicated; node 2
    becomes leader, replaces the entry and commits its own at that index. *)
Definition demo_lost_events : list ServiceEvent :=
  demo_service_events ++ [SvCommit 7 8; SvPropose 0] ++ demo_new_leader ++
  (SvRaft <$> [EvSend 2; EvAppend 0; EvAppendReply 0; EvSend 2; EvAppend 0; EvApply 1; EvApply 2]) ++ [SvWait 0].

(** [ProposeAndWait] waits for an index, not for an entry. A leader that is
    replaced while it waits sees another entry applied at the index: [Commit] is
    answered ok and [QueryTxnState] says COMMITTED although no replica has the
    commit entry in its log and no replica stores the row. *)
Theorem commit_ack_lost :
  let v := demo_service demo_lost_events in
  service_steps demo_ids demo_ids (λ _, None) true true (λ _, demo_mgr) (length demo_lost_events) v ∧
  CommitReply 7 (MkCommitResponse true "") ∈ replies v ∧
  Shard.QueryTxnState demo_ids (shard v) 7 = MkTxnStateResponse true TXN_COMMITTED ∧
  Forall (λ i, Forall (λ e, re_type e ≠ TXN_COMMIT) (entries_ (log_ (Shard.node (shard v) i)))) demo_ids ∧
  Forall (λ i, Get (store_ (Shard.tm_of (shard v) i)) 1 [x61] 10 = inl (St.NotFound "")) demo_ids.
Proof.
  intros v. assert (demo_service_ok demo_lost_events = true) as Hok by (vm_compute; reflexivity).
  split; [exact (demo_service_run demo_lost_events Hok)|]. split; [|split; [|split]].
  - apply (list_elem_of_lookup_2 _ 0). vm_compute. reflexivity.
  - vm_compute. reflexivity.
  - unfold v. apply (bool_decide_unpack (Forall (λ i, Forall (λ e, re_type e ≠ TXN_COMMIT)
      (entries_ (log_ (Shard.node (shard (demo_service demo_lost_events)) i)))) demo_ids)). vm_compute. exact I.
  - repeat (apply Forall_cons; split); [vm_compute; reflexivity..|by apply Forall_nil].
Qed.

(** Transaction 7 is begun on leader 1; node 2 becomes leader and transaction 8
    is begun there; transaction 7 then writes a row. *)
Definition demo_mixed_events : list ServiceEvent :=
  demo_elected ++ [demo_execute 7 OP_BEGIN [] []] ++
  (SvRaft <$> [EvElect 2; EvVote 0; EvVoteReply 2 0]) ++
  [demo_execute 8 OP_BEGIN [] []; demo_execute 7 OP_WRITE [x61] [x31]].

(** [pending_txns_] keeps the local number of a transaction but not the
    replica it belongs to. After a change of leader between replicas of one
    process, a write of transaction 7 goes to the local transaction that the new
    leader gave the same number: transaction 8 reads it as its own. *)
Theorem leader_change_mixes_txns :
  let v := demo_service demo_mixed_events in
  service_steps demo_ids demo_ids (λ _, None) true true (λ _, demo_mgr) (length demo_mixed_events) v ∧
  (Shard.Execute demo_ids (shard v) (MkExecuteRequest 8 OP_READ 1 [x61] [] 5 [] [] false)).2 =
    MkExecuteResponse true Ok "" [x31] [].
Proof.
  intros v. assert (demo_service_ok demo_mixed_events = true) as Hok by (vm_compute; reflexivity).
  split; [exact (demo_service_run demo_mixed_events Hok)|]. vm_compute. reflexivity.
Qed.

(** ** What a shard proposes *)

Lemma Prepare_ok_prepared {DB : Type} `{RocksDB DB} `{GroupCommit} (tm tm' : TxnManager DB) local cts st :
  TM.Prepare tm local cts = (tm', st) → St.ok st = true →
  ∃ txn, txns_ tm !! local = Some txn ∧ state txn = ACTIVE ∧
    txns_ tm' !! local = Some (TM.set_prepared txn cts) ∧ store_ tm' = store_ tm.
Proof.
  unfold TM.Prepare. intros E Hok. destruct (txns_ tm !! local) as [txn|] eqn:Ht; [|simplify_eq; done].
  destruct (bool_decide_reflect (state txn = ACTIVE)) as [Ha|]; cbn [negb] in E; [|simplify_eq; done].
  destruct (St.ok (TM.ValidateReadSet tm txn cts)).
  - unfold TM.append_sync in E. destruct (WAL_AppendSync _ _ _ _) as [w ws]. destruct (St.ok ws) eqn:Ews; cbn [negb] in E.
    + injection E as <- <-. exists txn. cbn. by rewrite lookup_insert_eq.
    + injection E as <- <-. congruence.
  - destruct (TM.append_sync _ _ _ _) as [tm1 ?]. injection E as <- <-. done.
Qed.

Lemma buffered_batch (ws : list BufferedWrite) : buffered_write <$> (Shard.batch_write <$> ws) = ws.
Proof. induction ws as [|[] ws IH]; cbn; [done|]. f_equal. exact IH. Qed.

(** The entry that [Prepare] proposes carries what the shard prepared: the
    transaction was active and is now prepared on the leader, its store is
    untouched, and the entry unpacks to the transaction's id, snapshot, commit
    timestamp and exactly its buffered writes, in order. *)
Theorem Prepare_proposes_writes {DB : Type} `{RocksDB DB} `{GroupCommit} (hosted : list Z) (s s' : ShardServiceImpl DB)
    (id cts : Z) (p : Proposal) :
  Shard.Prepare_local hosted s id cts = (s', inr p) → is_u64 id → is_u64 cts →
  (∀ pt, pending_txns_ s !! id = Some pt → is_u64 (pt_snapshot_ts pt)) →
  (∀ l local txn, Shard.FindLeader hosted s = Some l → txns_ (Shard.tm_of s l) !! local = Some txn →
    Forall batch_write_ok (Shard.batch_write <$> write_set txn) ∧ is_u32 (Z.of_nat (length (write_set txn)))) →
  ∃ l pt txn writes, Shard.FindLeader hosted s = Some l ∧ pending_txns_ s !! id = Some pt ∧
    txns_ (Shard.tm_of s l) !! pt_local_txn_id pt = Some txn ∧ state txn = ACTIVE ∧
    txns_ (Shard.tm_of s' l) !! pt_local_txn_id pt = Some (TM.set_prepared txn cts) ∧
    store_ (Shard.tm_of s' l) = store_ (Shard.tm_of s l) ∧
    p_for p = ForPrepare l (pt_local_txn_id pt) id ∧ p_type p = TXN_PREPARE_BATCH ∧
    UnpackPrepareBatchPayload (p_payload p) = Some (id, pt_snapshot_ts pt, cts, writes) ∧
    buffered_write <$> writes = write_set txn.
Proof.
  unfold Shard.Prepare_local. intros E Hid Hcts Hsnap Hws. destruct (Shard.FindLeader hosted s) as [l|] eqn:Hl; [|done].
  destruct (pending_txns_ s !! id) as [pt|] eqn:Hp; [|done]. destruct (TM.Prepare _ _ _) as [tm st] eqn:Ep.
  destruct (St.ok st) eqn:Hok; cbn [negb] in E; [|done].
  destruct (Prepare_ok_prepared _ _ _ _ _ Ep Hok) as (txn & Ht & Ha & Ht' & Hst).
  assert (Shard.tm_of (Shard.set_tm s l tm) l = tm) as Etm.
  { unfold Shard.tm_of, Shard.set_tm, Shard.set_sm. cbn. by rewrite fn_lookup_insert. }
  rewrite Etm in E. unfold TM.GetTxn in E. rewrite Ht' in E. injection E as <- <-.
  destruct (Hws l (pt_local_txn_id pt) txn eq_refl Ht) as [HF Hlen].
  exists l, pt, txn, (Shard.batch_write <$> write_set txn). rewrite Etm. split_and!; try done; [|apply buffered_batch].
  cbn [p_payload write_set TM.set_prepared].
  rewrite <- (app_nil_r (PackPrepareBatchPayload _ _ _ _)). apply UnpackBatch_pack; try done; [by apply Hsnap|].
  by rewrite length_fmap.
Qed.

Definition demo_begun : ShardServiceImpl MemDB := shard (demo_service (take 11 demo_service_events)).

Lemma Prepare_proposes_writes_witness :
  ∃ s p, Shard.Prepare_local demo_ids demo_begun 7 8 = (s, inr p) ∧ p_type p = TXN_PREPARE_BATCH.
Proof.
  destruct (Shard.Prepare_local demo_ids demo_begun 7 8) as [s [resp|p]] eqn:E.
  { exfalso. assert (match (Shard.Prepare_local demo_ids demo_begun 7 8).2 with inl _ => false | inr _ => true end = true)
      as Ht by (vm_compute; reflexivity). rewrite E in Ht. discriminate Ht. }
  exists s, p. split; [reflexivity|].
  destruct (Prepare_proposes_writes demo_ids demo_begun s 7 8 p E) as (l & pt & txn & ws & H1 & H2 & H3 & H4 & H5 & H6 & H7 & H8 & _).
  - unfold is_u64. lia.
  - unfold is_u64. lia.
  - intros pt Hpt. assert (Some 5 = Some (pt_snapshot_ts pt)) as Es;
      [|injection Es as <-; unfold is_u64; lia].
    change (Some (pt_snapshot_ts pt)) with (pt_snapshot_ts <$> Some pt). rewrite <- Hpt. vm_compute. reflexivity.
  - intros l local txn Hl Htxn. assert (Some 1 = Some l) as [= <-] by (rewrite <- Hl; vm_compute; reflexivity).
    assert (map_Forall (λ _ txn, Forall batch_write_ok (Shard.batch_write <$> write_set txn) ∧
      is_u32 (Z.of_nat (length (write_set txn)))) (txns_ (Shard.tm_of demo_begun 1))) as HF.
    { apply (bool_decide_unpack (map_Forall _ _)). vm_compute. exact I. }
    exact (HF local txn Htxn).
  - exact H8.
Defined.
