(* ===== verification/Atomicity.v ===== *)
(** * Atomic commitment across shards

    The coordinator of Coordinator.v and the shards of ShardSafety.v together: a
    transaction that is committed by one replica of one shard is committed by none at
    another timestamp and aborted by none, and every participant holds it prepared. The
    coordinator's run is a trace of calls and answers; a shard's is a sequence of events,
    requests of the coordinator among them. *)
From Stdlib Require Import Strings.Byte.
From stdpp Require Import base functions relations gmap sets strings list.
From Stdlib Require Import ZArith Lia.
From S2P Require Import Prelude Status KeyEncoding RocksDB MVCCStore LockManager GroupCommit LogFile Wal TxnManager ShardMessages.
From S2P Require Import Effects CoordinatorLog Coordinator TwoPhase.
From S2P Require Import RaftLog RaftStateMachine RaftSpec RaftNode RaftCluster RaftReplication RaftOrigin RaftTransport.
From S2P Require Import JoinHandler ShardServer ShardSafety.
Local Open Scope Z_scope.

(** ** Decisions in the log *)

(** What an entry with this type and payload says, as [RaftStateMachine::Apply] reads it. *)
Definition says (ty : RaftEntryType) (pl : bytes) : option Command := command_of (MkRaftLogEntry 0 0 ty pl).
Definition commits (id : Z) (c : option Command) : option Z :=
  match c with Some (CommitTxn i cts) => if i =? id then Some cts else None | _ => None end.
Definition aborts (id : Z) (c : option Command) : bool :=
  match c with Some (AbortTxn i) => i =? id | _ => false end.

(** The commit timestamps that an event at a shard asks for transaction [id], and
    whether it asks for its abort: a request, or the proposal of a fellow replica that
    runs in another process. *)
Definition commit_request (id : Z) (ev : ServiceEvent) : option Z :=
  match ev with
  | SvCommit i cts => if i =? id then Some cts else None
  | SvRaft (EvPropose _ ty pl) => commits id (says ty pl)
  | _ => None
  end.
Definition abort_request (id : Z) (ev : ServiceEvent) : bool :=
  match ev with
  | SvAbort i => i =? id
  | SvRaft (EvPropose _ ty pl) => aborts id (says ty pl)
  | _ => false
  end.
(** Numbers and timestamps are 64-bit. *)
Definition request_ok (ev : ServiceEvent) : Prop :=
  match ev with SvCommit i cts => is_u64 i ∧ is_u64 cts | SvAbort i => is_u64 i | _ => True end.
#[export] Instance request_ok_dec ev : Decision (request_ok ev).
Proof. destruct ev; cbn; apply _. Defined.

(** ** What a shard's replicas apply was asked for *)

Section origin.
Context `{RocksDB DB} `{GroupCommit} (ids hosted : list Z) (env : getenv) (in_process on_disk : bool).
Context (Hids : NoDup ids) (Hu32 : Forall is_u32 ids) (Hhosted : hosted ⊆ ids).
Context (P : RaftEntryType → bytes → Prop).
Implicit Types (v : Service DB) (s : ShardServiceImpl DB).

Definition call_from (w : Call) : Prop :=
  match w with Proposing p | Waiting p _ _ _ => P (p_type p) (p_payload p) end.
Definition service_from v : Prop := group_from P (raft_group (shard v)) ∧ Forall call_from (calls v).

Definition request_from (ev : ServiceEvent) : Prop :=
  match ev with
  | SvRaft ev => event_from P ev
  | SvPrepare id cts => ∀ pl, P TXN_PREPARE_BATCH pl
  | SvCommit id cts => P TXN_COMMIT (PackTxnPayload (SerializeCommitPayload cts) id)
  | SvAbort id => P TXN_ABORT (PackAbortPayload id)
  | _ => True
  end.

Lemma finish_group s p ok : raft_group (finish s p ok).1 = raft_group s.
Proof.
  unfold finish. destruct (p_for p) as [l local id|id|id].
  - unfold Shard.Prepare_end. destruct (negb ok); [done|]. destruct (SM.TakePrepareResult _ _) as [sm [r|]]; [|done].
    by destruct (negb _).
  - unfold Shard.Commit_end. by destruct ok.
  - unfold Shard.Abort_end. by destruct ok.
Qed.
Lemma Abort_local_spec s id s' r : Shard.Abort_local hosted s id = (s', r) →
  raft_group s' = raft_group s ∧ (∀ p, r = inr p → p = MkProposal (ForAbort id) TXN_ABORT (PackAbortPayload id)).
Proof.
  unfold Shard.Abort_local. destruct (Shard.FindLeader hosted s); [|by intros [= <- <-]].
  destruct (pending_txns_ s !! id) as [p|]; [|intros [= <- <-]; split; [done|]; by intros p [= <-]].
  destruct (negb _); intros [= <- <-]; [done|]. split; [done|]. by intros p' [= <-].
Qed.
Lemma Commit_local_spec s id cts p : Shard.Commit_local hosted s id cts = inr p →
  p_type p = TXN_COMMIT ∧ p_payload p = PackTxnPayload (SerializeCommitPayload cts) id.
Proof. unfold Shard.Commit_local. destruct (Shard.FindLeader hosted s); [|done]. by intros [= <-]. Qed.

Lemma service_from_weaken v s cs rs : service_from v → raft_group s = raft_group (shard v) → Forall call_from cs →
  service_from (MkService s cs rs).
Proof. intros [Hg _] E Hc. split; cbn; [by rewrite E|done]. Qed.

Lemma run_service_from v a b ev v' : service_inv ids hosted v a b →
  run_service ids hosted env in_process v ev = Some v' → request_from ev → service_from v → service_from v'.
Proof.
  intros Hinv E Hev Hf. pose proof Hf as [Hg Hc].
  assert (Hcall : ∀ p cs, P (p_type p) (p_payload p) → Forall call_from cs → Forall call_from (Proposing p :: cs)) by (by constructor).
  assert (Hdel : ∀ k, Forall call_from (delete k (calls v))).
  { intros k. rewrite Forall_forall in Hc |- *. intros w Hw. by apply Hc, (elem_of_delete k). }
  destruct ev as [ev|req|req|id cts|id cts|id|k|k]; cbn [run_service request_from] in E, Hev.
  - destruct (run_event _ _ _ _ _) as [c|] eqn:Ec; [|done]. cbn in E. case_bool_decide; [|done]. injection E as <-.
    split; cbn [shard Shard.raft_moves raft_group calls]; [|done].
    eapply run_event_from; [exact (si_group _ _ _ _ _ Hinv)|done..].
  - injection E as <-. apply (service_from_weaken v); [done| |done]. apply (qu_group _ _ (quiet_execute hosted (shard v) req)).
  - injection E as <-. apply (service_from_weaken v); [done| |done]. apply (qu_group _ _ (quiet_join hosted (shard v) req)).
  - injection E as <-. destruct (Shard.Prepare_local _ _ _ _) as [s r] eqn:Ep. apply Prepare_local_spec in Ep as [[Hq _ _ _] Hr].
    destruct r as [resp|p]; apply (service_from_weaken v); try done. destruct Hr as (l & local & pl & _ & ->). by apply Hcall.
  - injection E as <-. destruct (Shard.Commit_local _ _ _ _) as [resp|p] eqn:Ep; apply (service_from_weaken v); try done.
    apply Hcall; [|done]. by destruct (Commit_local_spec _ _ _ _ Ep) as [-> ->].
  - injection E as <-. destruct (Shard.Abort_local _ _ _) as [s r] eqn:Ep. apply Abort_local_spec in Ep as [Hq Hr].
    destruct r as [resp|p]; apply (service_from_weaken v); try done. apply Hcall; [|done]. by rewrite (Hr p eq_refl).
  - destruct (calls v !! k) as [[p|]|] eqn:Hk; [|done..]. case_bool_decide; [|done].
    rewrite Forall_forall in Hc. pose proof (Hc _ (list_elem_of_lookup_2 _ _ _ Hk)) as HP. cbn in HP.
    assert (Hgr : ∀ s r, Shard.ProposeAndWait_begin hosted (shard v) (p_type p) (p_payload p) = (s, r) → group_from P (raft_group s)).
    { intros s r. unfold Shard.ProposeAndWait_begin. destruct (Shard.FindLeader hosted (shard v)) as [l|]; [|by intros [= <- <-]].
      pose proof (Propose_from P _ _ _ (gf_node _ _ Hg l) HP) as Hpr. change (nodes (raft_group (shard v)) l) with (Shard.node (shard v) l) in Hpr.
      destruct (Propose_locked _ _ _) as [[n ix] send]. cbn [fst] in Hpr.
      assert (group_from P (set_node (raft_group (shard v)) l n)).
      { split; cbn; [|apply (gf_req _ _ Hg)]. apply set_from; [apply (gf_node _ _ Hg)|done]. }
      destruct (_ =? _); by intros [= <- <-]. }
    destruct (Shard.ProposeAndWait_begin _ _ _ _) as [s r] eqn:Eb. specialize (Hgr s r eq_refl). destruct r as [[l ix]|].
    + injection E as <-. split; [done|]. cbn. constructor; [done|apply Hdel].
    + pose proof (finish_group s p false) as Hfg. destruct (finish s p false) as [s' r']. injection E as <-. cbn in Hfg.
      split; cbn; [by rewrite Hfg|apply Hdel].
  - destruct (calls v !! k) as [[|p l ix t]|]; [done| |done].
    pose proof (finish_group (shard v) p (Shard.ProposeAndWait_end (shard v) l ix)) as Hfg.
    destruct (finish _ _ _) as [s' r']. injection E as <-. cbn in Hfg. apply (service_from_weaken v); [done|done|apply Hdel].
Qed.

Lemma run_services_from tms evs v v' k : service_steps ids hosted env in_process on_disk tms k v →
  Z.of_nat (k + length evs) < UINT32_MAX → run_services ids hosted env in_process v evs = Some v' →
  Forall request_from evs → service_from v → service_from v'.
Proof.
  revert v k. induction evs as [|ev evs IH]; intros v k Hv Hb E HF Hf; cbn [run_services length] in *; [by simplify_eq|].
  destruct (run_service ids hosted env in_process v ev) as [v1|] eqn:E1; [|done]. cbn in E. apply Forall_cons in HF as [Hev HF].
  destruct (service_reachable ids hosted env in_process on_disk Hids Hu32 Hhosted tms k v Hv) as (a & Hinv); [lia|].
  apply (IH v1 (S k)); [|lia|done|done|by eapply run_service_from].
  eapply service_next; [exact Hv|]. by eapply run_service_sound.
Qed.
End origin.

(** The run of a shard: its replicas, the ones hosted by the process that serves the
    coordinator, their storage, the events and the state they lead to. *)
Record ShardRun (DB : Type) := MkShardRun {
  run_ids : list Z;
  run_hosted : list Z;
  run_tms : Z → TxnManager DB;
  run_events : list ServiceEvent;
  run_end : Service DB;
}.
Arguments MkShardRun {DB} _ _ _ _ _.
Arguments run_ids {DB} _. Arguments run_hosted {DB} _. Arguments run_tms {DB} _. Arguments run_events {DB} _. Arguments run_end {DB} _.

Section shards.
Context `{RocksDB DB} `{GroupCommit} (env : getenv) (in_process on_disk : bool).
Implicit Types r : ShardRun DB.

Record shard_run_ok r : Prop := {
  sr_nodup : NoDup (run_ids r);
  sr_u32 : Forall is_u32 (run_ids r);
  sr_hosted : run_hosted r ⊆ run_ids r;
  sr_run : run_services (run_ids r) (run_hosted r) env in_process
    (service_init (run_ids r) env in_process on_disk (run_tms r)) (run_events r) = Some (run_end r);
  sr_bound : Z.of_nat (length (run_events r)) < UINT32_MAX;
  sr_requests : Forall request_ok (run_events r);
}.

Abbreviation applied_at r i := (applied (Shard.node (shard (run_end r)) i)).

Lemma service_init_from P ids (tms : Z → TxnManager DB) : service_from P (service_init ids env in_process on_disk tms).
Proof. split; [apply cluster_init_from|by apply Forall_nil]. Qed.

(** What the entries of a run may say about transaction [id]: only what was asked. *)
Definition asked (id : Z) (evs : list ServiceEvent) (ty : RaftEntryType) (pl : bytes) : Prop :=
  (∀ cts, commits id (says ty pl) = Some cts → cts ∈ omap (commit_request id) evs) ∧
  (aborts id (says ty pl) = true → ∃ ev, ev ∈ evs ∧ abort_request id ev = true).

Lemma says_commit id cts : is_u64 id → is_u64 cts →
  says TXN_COMMIT (PackTxnPayload (SerializeCommitPayload cts) id) = Some (CommitTxn id cts).
Proof. intros Hid Hc. unfold says, command_of. cbn [re_type re_payload]. by rewrite UnpackPayload_pack, Commit_roundtrip. Qed.
Lemma says_abort id : is_u64 id → says TXN_ABORT (PackAbortPayload id) = Some (AbortTxn id).
Proof.
  intros Hid. unfold says, command_of, PackAbortPayload. cbn [re_type re_payload]. by rewrite length_le_bytes, ReadLe64_le.
Qed.
Lemma says_prepare pl : ∀ id, commits id (says TXN_PREPARE_BATCH pl) = None ∧ aborts id (says TXN_PREPARE_BATCH pl) = false.
Proof. intros id. unfold says, command_of. cbn [re_type re_payload]. by destruct (UnpackPrepareBatchPayload pl) as [[[[??]?]?]|]. Qed.

Lemma request_asked id evs ev : ev ∈ evs → request_ok ev → request_from (asked id evs) ev.
Proof.
  intros Hin Hok.
  assert (Hask : ∀ ty pl, commits id (says ty pl) = commit_request id ev ∨ commits id (says ty pl) = None →
    aborts id (says ty pl) = abort_request id ev ∨ aborts id (says ty pl) = false → asked id evs ty pl).
  { intros ty pl Hc Ha. split; [intros cts Ec|intros Ea].
    - apply list_elem_of_omap. exists ev. split; [done|]. destruct Hc; congruence.
    - exists ev. split; [done|]. destruct Ha; congruence. }
  destruct ev as [ev| | |i cts|i cts|i| |]; cbn [request_from request_ok] in *; try done.
  - destruct ev; try done. by apply Hask; left.
  - intros pl. destruct (says_prepare pl id). by apply Hask; right.
  - destruct Hok. apply Hask; rewrite says_commit by done; by left.
  - apply Hask; rewrite says_abort by done; by left.
Qed.

(** A replica applies the commit or the abort of a transaction only when its shard was
    asked for it. *)
Lemma applied_asked r id i e : shard_run_ok r → e ∈ applied_at r i → asked id (run_events r) (re_type e) (re_payload e).
Proof.
  intros [HN HF Hh Hrun Hb Hok] He.
  assert (service_from (asked id (run_events r)) (run_end r)) as [Hg _].
  { eapply (run_services_from _ _ env in_process on_disk HN HF Hh _ _ (run_events r) _ _ 0); [constructor|exact Hb|exact Hrun| |apply service_init_from].
    rewrite Forall_forall in Hok |- *. intros ev Hev. apply request_asked; auto. }
  destruct (gf_node _ _ Hg i) as [_ Ha]. rewrite Forall_forall in Ha. destruct (Ha e He) as [[-> _]|?]; [|done]. done.
Qed.

(** ** The coordinator and its shards *)

(** The commit timestamps and the aborts of transaction [id] that the coordinator sends to a shard. *)
Definition commit_sent (id sid : Z) (e : CEvent) : option Z :=
  match projT1 e with ACommit s i ts => if (i =? id) && (stub_shard s =? sid) then Some ts else None | _ => None end.
Definition abort_sent (id sid : Z) (e : CEvent) : bool :=
  match projT1 e with AAbort s i => (i =? id) && (stub_shard s =? sid) | _ => false end.

(** What happens in a run [tr0] of [Commit] when the calls of a fan-out to different
    shards overlap, up to some point: [tr] has a part of the events of the run in any
    order, the calls that abort the transaction may overlap with prepare requests that are
    still on their way, but a commit request is sent only when the answers to all prepare
    requests have been collected. *)
Definition overlapped (tr0 tr : list CEvent) : Prop :=
  ∃ rest, tr0 ≡ₚ tr ++ rest ∧
    (Exists (in_phase PhCommit) tr → Forall (λ e, ¬ in_phase PhPrepare e) rest).
Lemma overlapped_self tr : overlapped tr tr.
Proof. exists []. by rewrite app_nil_r. Qed.
Lemma overlapped_elem tr0 tr e : overlapped tr0 tr → e ∈ tr → e ∈ tr0.
Proof. intros (rest & -> & _) He. by apply elem_of_app; left. Qed.
Lemma overlapped_voted tr0 tr ev id ts sid : overlapped tr0 tr → ev ∈ tr → in_phase PhCommit ev →
  voted tr0 id ts sid → voted tr id ts sid.
Proof.
  intros (rest & HP & Hrest) Hev Hph. unfold voted. rewrite !list_elem_of_omap. intros (e & He & Hvote).
  exists e. split; [|done]. rewrite HP in He. apply elem_of_app in He as [?|He]; [done|]. exfalso.
  assert (Exists (in_phase PhCommit) tr) as Hex by (apply Exists_exists; eauto).
  specialize (Hrest Hex). rewrite Forall_forall in Hrest. apply (Hrest e He).
  unfold vote_of, in_phase in *. by destruct e as [[] ?].
Qed.

(** The network between the coordinator and shard [sid]: it may lose, repeat, delay and
    reorder requests and lose answers, but the shard is asked to commit or abort the
    transaction only as this run of the coordinator asked, and a vote the coordinator sees
    was given. So nobody else decides about the transaction: no recovery of a restarted
    coordinator, which can decide otherwise ([recovery_aborts_committed]), and no second
    transaction with the same number. *)
Record served (tr : list CEvent) (id ts sid : Z) r : Prop := {
  sv_commit cts : cts ∈ omap (commit_request id) (run_events r) → cts ∈ omap (commit_sent id sid) tr;
  sv_abort ev : ev ∈ run_events r → abort_request id ev = true → ∃ e, e ∈ tr ∧ abort_sent id sid e = true;
  sv_vote : voted tr id ts sid → ∃ resp, vote_commit resp = true ∧ PrepareReply id resp ∈ replies (run_end r);
}.

Lemma commit_sent_call id sid e ts : commit_sent id sid e = Some ts → commit_call id ts sid (projT1 e).
Proof.
  unfold commit_sent, commit_call. destruct (projT1 e); try done. destruct (_ =? id) eqn:E1; cbn [andb]; [|done].
  destruct (_ =? sid) eqn:E2; [|done]. intros [= ->]. apply Z.eqb_eq in E1 as ->, E2. eauto.
Qed.
Lemma abort_sent_phase id sid e : abort_sent id sid e = true → in_phase PhAbort e.
Proof. unfold abort_sent, in_phase. by destruct (projT1 e). Qed.

Lemma says_entry e : says (re_type e) (re_payload e) = command_of e.
Proof. done. Qed.

(** A commit applied anywhere was sent by the coordinator. *)
Lemma applied_commit_sent tr id ts sid r i e cts : shard_run_ok r → served tr id ts sid r → e ∈ applied_at r i →
  command_of e = Some (CommitTxn id cts) → ∃ ev, ev ∈ tr ∧ commit_call id cts sid (projT1 ev).
Proof.
  intros Hr Hs He Hc. destruct (applied_asked r id i e Hr He) as [Ha _]. rewrite says_entry, Hc in Ha. cbn in Ha.
  rewrite Z.eqb_refl in Ha. specialize (Ha cts eq_refl). apply (sv_commit _ _ _ _ _ Hs) in Ha.
  apply list_elem_of_omap in Ha as (ev & Hev & Hsent). exists ev. split; [done|]. by apply commit_sent_call.
Qed.
Lemma applied_abort_sent tr id ts sid r i e : shard_run_ok r → served tr id ts sid r → e ∈ applied_at r i →
  command_of e = Some (AbortTxn id) → ¬ nophase PhAbort tr.
Proof.
  intros Hr Hs He Hc Hno. destruct (applied_asked r id i e Hr He) as [_ Ha]. rewrite says_entry, Hc in Ha. cbn in Ha.
  rewrite Z.eqb_refl in Ha. destruct (Ha eq_refl) as (ev & Hev & Hreq).
  destruct (sv_abort _ _ _ _ _ Hs ev Hev Hreq) as (x & Hx & Hab). apply abort_sent_phase in Hab.
  unfold nophase in Hno. rewrite Forall_forall in Hno. by apply (Hno x).
Qed.

Lemma run_vote_prepared r id resp : shard_run_ok r → PrepareReply id resp ∈ replies (run_end r) → vote_commit resp = true →
  durably_prepared (run_ids r) (run_hosted r) (run_end r) id.
Proof.
  intros [HN HF Hh Hrun Hb _]. apply (vote_durably_prepared _ _ env in_process on_disk (run_tms r) (length (run_events r))); try done.
  exact (run_services_sound _ _ _ _ on_disk (run_tms r) (run_events r) _ _ 0 (service_start _ _ _ _ _ _) Hrun).
Qed.

End shards.

(** ** A transaction on two shards *)

#[local] Existing Instance default_group_commit.

(** A shard of three nodes prepares transaction 1 and commits it at timestamp 7. *)
Definition demo_shard_events : list ServiceEvent :=
  demo_elected ++ [demo_execute 1 OP_BEGIN [] []; demo_execute 1 OP_WRITE [x61] [x31]; SvPrepare 1 7; SvPropose 0] ++
  demo_round ++ [SvWait 0; SvCommit 1 7; SvPropose 0] ++ demo_round ++ [SvWait 0].
Definition demo_shard : ShardRun MemDB :=
  MkShardRun demo_ids demo_ids (λ _, demo_mgr) demo_shard_events (demo_service demo_shard_events).
Definition demo_shards : gmap Z (ShardRun MemDB) := {[0 := demo_shard; 1 := demo_shard]}.
Definition demo_commit_trace : list CEvent := (run (demo_env [] (λ _, None)) () (Coord.Commit 1 demo_coord)).1.2.

Lemma demo_shard_ok : shard_run_ok (λ _, None) true true demo_shard.
Proof.
  destruct demo_ids_ok as [HN HF]. split; [exact HN|exact HF|done| |reflexivity|].
  - assert (demo_service_ok demo_shard_events = true) as Hok by (vm_compute; reflexivity).
    unfold demo_shard. cbn [run_ids run_hosted run_tms run_events run_end]. unfold demo_service.
    change (service_init demo_ids (λ _, None) true true (λ _ : Z, demo_mgr)) with demo_service_start.
    unfold demo_service_ok in Hok. destruct (run_services _ _ _ _ _ _); [reflexivity|discriminate Hok].
  - apply (bool_decide_unpack _). vm_compute. exact I.
Qed.

Lemma demo_served sid : sid = 0 ∨ sid = 1 → served demo_commit_trace 1 7 sid demo_shard.
Proof.
  intros Hsid. split.
  - assert (omap (commit_request 1) (run_events demo_shard) = [7]) as -> by (vm_compute; reflexivity).
    intros cts ->%list_elem_of_singleton.
    assert (omap (commit_sent 1 sid) demo_commit_trace = [7]) as -> by (destruct Hsid as [-> | ->]; vm_compute; reflexivity).
    by apply list_elem_of_singleton.
  - intros ev Hev Hreq. assert (forallb (λ ev, negb (abort_request 1 ev)) (run_events demo_shard) = true) as Hno by (vm_compute; reflexivity).
    rewrite forallb_forall in Hno. apply list_elem_of_In in Hev. specialize (Hno ev Hev). by rewrite Hreq in Hno.
  - intros _. exists (MkPrepareResponse true ""). split; [done|]. apply (list_elem_of_lookup_2 _ 1). vm_compute. reflexivity.
Qed.

