(* ===== verification/Lexer.v ===== *)
(** * SQL tokens (the tokenizer of src/src/coordinator/parser.{h,cpp})

    [Tokenize] walks over the input with an index; here it consumes the rest of
    the input and counts the position. [fuel] bounds the number of tokens; the
    length of the input and one more is enough. *)
From Stdlib Require Import Strings.Byte Strings.Ascii.
From stdpp Require Import base gmap strings list.
From Stdlib Require Import ZArith Lia.
From S2P Require Import Prelude Text.
Local Open Scope Z_scope.

Module Token.
Inductive Type_ :=
  | IDENT | NUMBER_INT | NUMBER_FLOAT | STRING_LIT | LPAREN | RPAREN | COMMA | SEMICOLON | STAR | PLUS | MINUS | DOT
  | EQ | NE | LT | LE | GT | GE
  | KW_CREATE | KW_TABLE | KW_INSERT | KW_INTO | KW_VALUES | KW_SELECT | KW_FROM | KW_JOIN | KW_INNER | KW_ON | KW_WHERE
  | KW_ORDER | KW_BY | KW_LIMIT | KW_ASC | KW_DESC | KW_UPDATE | KW_SET | KW_DELETE | KW_AND | KW_BEGIN | KW_COMMIT
  | KW_ROLLBACK | KW_PRIMARY | KW_KEY | KW_INT | KW_BIGINT | KW_FLOAT | KW_VARCHAR | KW_NOT | KW_NULL | KW_ABORT
  | KW_COUNT | KW_SUM | KW_MIN | KW_MAX | END_OF_INPUT | UNKNOWN.
End Token.

#[export] Instance TokenType_eq_dec : EqDecision Token.Type_.
Proof. solve_decision. Defined.

Record Token := MkToken {
  tk_type : Token.Type_;
  tk_value : bytes;
  tk_pos : Z;
}.

Definition IsIdentStart (c : byte) : bool := isalpha c || bool_decide (c = ch "_").
Definition IsIdentCont (c : byte) : bool := isalnum c || bool_decide (c = ch "_").

(** [SkipWsAndComments] from position [i]; [in_comment] is the inner loop. The
    line end that stops it is white space. *)
Fixpoint SkipWsAndComments (in_comment : bool) (s : bytes) (i : Z) : bytes * Z :=
  match s with
  | [] => ([], i)
  | c :: s' =>
      if in_comment then
        SkipWsAndComments (negb (bool_decide (c = x0a) || bool_decide (c = x0d))) s' (i + 1)
      else if isspace c then SkipWsAndComments false s' (i + 1)
      else if bool_decide (c = ch "-") then
        match s' with
        | c2 :: s'' => if bool_decide (c2 = ch "-") then SkipWsAndComments true s'' (i + 2) else (s, i)
        | [] => (s, i)
        end
      else (s, i)
  end.

Definition ToUpper (v : bytes) : bytes := toupper <$> v.

Definition keywords : list (bytes * Token.Type_) :=
  [(str "CREATE", Token.KW_CREATE); (str "TABLE", Token.KW_TABLE); (str "INSERT", Token.KW_INSERT);
   (str "INTO", Token.KW_INTO); (str "VALUES", Token.KW_VALUES); (str "SELECT", Token.KW_SELECT);
   (str "FROM", Token.KW_FROM); (str "JOIN", Token.KW_JOIN); (str "INNER", Token.KW_INNER); (str "ON", Token.KW_ON);
   (str "WHERE", Token.KW_WHERE); (str "ORDER", Token.KW_ORDER); (str "BY", Token.KW_BY); (str "LIMIT", Token.KW_LIMIT);
   (str "ASC", Token.KW_ASC); (str "DESC", Token.KW_DESC); (str "UPDATE", Token.KW_UPDATE); (str "SET", Token.KW_SET);
   (str "DELETE", Token.KW_DELETE); (str "AND", Token.KW_AND); (str "BEGIN", Token.KW_BEGIN);
   (str "COMMIT", Token.KW_COMMIT); (str "ROLLBACK", Token.KW_ROLLBACK); (str "PRIMARY", Token.KW_PRIMARY);
   (str "KEY", Token.KW_KEY); (str "INT", Token.KW_INT); (str "BIGINT", Token.KW_BIGINT); (str "FLOAT", Token.KW_FLOAT);
   (str "VARCHAR", Token.KW_VARCHAR); (str "NOT", Token.KW_NOT); (str "NULL", Token.KW_NULL); (str "ABORT", Token.KW_ABORT);
   (str "COUNT", Token.KW_COUNT); (str "SUM", Token.KW_SUM); (str "MIN", Token.KW_MIN); (str "MAX", Token.KW_MAX)].

(** The chain of comparisons. *)
Fixpoint classify (kws : list (bytes * Token.Type_)) (u : bytes) : Token.Type_ :=
  match kws with
  | [] => Token.IDENT
  | (w, t) :: kws => if bool_decide (u = w) then t else classify kws u
  end.
Definition ClassifyKeyword (u : bytes) : Token.Type_ := classify keywords u.

(** What is after the opening quote: the literal and the input after the closing
    quote, or [None] when there is none. *)
Fixpoint lex_string (s : bytes) : option (bytes * bytes) :=
  match s with
  | [] => None
  | c :: s' =>
      if bool_decide (c = ch "'") then
        match s' with
        | c2 :: s'' =>
            if bool_decide (c2 = ch "'") then '(lit, rest) ← lex_string s''; Some (ch "'" :: lit, rest)
            else Some ([], s')
        | [] => Some ([], [])
        end
      else '(lit, rest) ← lex_string s'; Some (c :: lit, rest)
  end.

Definition starts_with (c : byte) (s : bytes) : bool :=
  match s with x :: _ => bool_decide (x = c) | [] => false end.

(** A token at the front of [s], or the last token when the tokenizer stops. *)
Inductive LexResult :=
  | Lexed (t : Token) (rest : bytes)
  | Stopped (t : Token).

Definition lex_word (s : bytes) (start : Z) : LexResult :=
  let '(raw, rest) := span IsIdentCont s in
  let ty := ClassifyKeyword (ToUpper raw) in
  Lexed (MkToken ty (if bool_decide (ty = Token.IDENT) then tolower <$> raw else raw) start) rest.

Definition lex_number (s : bytes) (start : Z) : LexResult :=
  let dot_first := starts_with (ch ".") s in
  let '(whole, rest) := span isdigit s in
  if starts_with (ch ".") rest then
    let '(frac, rest) := span isdigit (drop 1 rest) in
    Lexed (MkToken Token.NUMBER_FLOAT (whole ++ ch "." :: frac) start) rest
  else Lexed (MkToken (if dot_first then Token.NUMBER_FLOAT else Token.NUMBER_INT) whole start) rest.

(** One token of a single character. *)
Definition one_char (c : byte) : option Token.Type_ :=
  if bool_decide (c = ch "(") then Some Token.LPAREN
  else if bool_decide (c = ch ")") then Some Token.RPAREN
  else if bool_decide (c = ch ",") then Some Token.COMMA
  else if bool_decide (c = ch ";") then Some Token.SEMICOLON
  else if bool_decide (c = ch "*") then Some Token.STAR
  else if bool_decide (c = ch "+") then Some Token.PLUS
  else if bool_decide (c = ch "-") then Some Token.MINUS
  else if bool_decide (c = ch ".") then Some Token.DOT
  else if bool_decide (c = ch "=") then Some Token.EQ
  else None.

Definition lex_symbol (c : byte) (s : bytes) (start : Z) : LexResult :=
  match one_char c with
  | Some ty => Lexed (MkToken ty [c] start) s
  | None =>
      if bool_decide (c = ch "!") then
        if starts_with (ch "=") s then Lexed (MkToken Token.NE (str "!=") start) (drop 1 s)
        else Stopped (MkToken Token.UNKNOWN (str "!") start)
      else if bool_decide (c = ch "<") then
        if starts_with (ch "=") s then Lexed (MkToken Token.LE (str "<=") start) (drop 1 s)
        else if starts_with (ch ">") s then Lexed (MkToken Token.NE (str "<>") start) (drop 1 s)
        else Lexed (MkToken Token.LT (str "<") start) s
      else if bool_decide (c = ch ">") then
        if starts_with (ch "=") s then Lexed (MkToken Token.GE (str ">=") start) (drop 1 s)
        else Lexed (MkToken Token.GT (str ">") start) s
      else Stopped (MkToken Token.UNKNOWN [c] start)
  end.

Definition lex_token (c : byte) (s : bytes) (start : Z) : LexResult :=
  if IsIdentStart c then lex_word (c :: s) start
  else if isdigit c || (bool_decide (c = ch ".") && match s with c2 :: _ => isdigit c2 | [] => false end) then
    lex_number (c :: s) start
  else if bool_decide (c = ch "'") then
    match lex_string s with
    | Some (lit, rest) => Lexed (MkToken Token.STRING_LIT lit start) rest
    | None => Stopped (MkToken Token.UNKNOWN (str "'") start)
    end
  else lex_symbol c s start.

(** [Tokenize] from position [i]; [None] when the fuel is used up. *)
Fixpoint tokenize (fuel : nat) (s : bytes) (i : Z) : option (list Token) :=
  match fuel with
  | O => None
  | S fuel =>
      match SkipWsAndComments false s i with
      | ([], j) => Some [MkToken Token.END_OF_INPUT [] j]
      | (c :: s', j) =>
          match lex_token c s' j with
          | Stopped t => Some [t]
          | Lexed t rest =>
              ts ← tokenize fuel rest (j + Z.of_nat (S (length s')) - Z.of_nat (length rest)); Some (t :: ts)
          end
      end
  end.
Definition Tokenize (input : bytes) : option (list Token) := tokenize (S (length input)) input 0.

(** ** What the tokenizer promises to the parser *)

(** The value of an identifier token: lower case and not a keyword. *)
Definition is_name (w : bytes) : bool :=
  match w with c :: _ => IsIdentStart c | [] => false end && forallb IsIdentCont w &&
  bool_decide (tolower <$> w = w) && bool_decide (ClassifyKeyword (ToUpper w) = Token.IDENT).

Definition is_end (ty : Token.Type_) : bool :=
  bool_decide (ty = Token.END_OF_INPUT) || bool_decide (ty = Token.UNKNOWN).

Definition token_ok (n : Z) (t : Token) : Prop :=
  0 ≤ tk_pos t ≤ n ∧
  match tk_type t with
  | Token.IDENT => is_name (tk_value t) = true
  | Token.NUMBER_INT => forallb isdigit (tk_value t) = true
  | _ => True
  end.

(** A list of tokens with the end, and only there, as [Tokenize] leaves it. *)
Inductive stream (n : Z) : list Token → Prop :=
  | stream_end t : token_ok n t → is_end (tk_type t) = true → stream n [t]
  | stream_cons t ts : token_ok n t → is_end (tk_type t) = false → stream n ts → stream n (t :: ts).

Lemma SkipWsAndComments_position b s i s' j : SkipWsAndComments b s i = (s', j) →
  j + Z.of_nat (length s') = i + Z.of_nat (length s) ∧ i ≤ j.
Proof.
  revert b i. remember (length s) as n eqn:Hn. revert s Hn.
  induction n as [n IH] using lt_wf_ind. intros [|c s] -> b i H; cbn in H; [by simplify_eq|].
  assert (Hrec : ∀ b k, SkipWsAndComments b s k = (s', j) → k = i + 1 →
    j + Z.of_nat (length s') = i + Z.of_nat (length (c :: s)) ∧ i ≤ j).
  { intros b' k H' ->. destruct (IH (length s) (le_n _) s eq_refl b' _ H'). cbn [length]. lia. }
  destruct b; [by eauto|]. destruct (isspace c); [by eauto|].
  case_bool_decide; [|simplify_eq; lia]. destruct s as [|c2 s]; [simplify_eq; lia|].
  case_bool_decide; [|simplify_eq; lia].
  destruct (IH (length s) ltac:(cbn [length]; lia) s eq_refl _ _ H). cbn [length]. lia.
Qed.

Lemma toupper_tolower c : toupper (tolower c) = toupper c.
Proof. by destruct c. Qed.
Lemma tolower_twice c : tolower (tolower c) = tolower c.
Proof. by destruct c. Qed.
Lemma tolower_ident c : IsIdentStart (tolower c) = IsIdentStart c ∧ IsIdentCont (tolower c) = IsIdentCont c.
Proof. by destruct c. Qed.
Lemma start_cont c : IsIdentStart c = true → IsIdentCont c = true.
Proof. by destruct c. Qed.

Lemma is_name_lower c w : IsIdentStart c = true → forallb IsIdentCont w = true →
  ClassifyKeyword (ToUpper (c :: w)) = Token.IDENT → is_name (tolower <$> c :: w) = true.
Proof.
  intros Hc Hw HK. unfold is_name. rewrite !andb_true_iff, !bool_decide_eq_true. split_and!.
  - rewrite <- Hc. apply tolower_ident.
  - cbn. rewrite (proj2 (tolower_ident c)), (start_cont c Hc). cbn. clear -Hw.
    induction w as [|d w IH]; cbn in *; [done|]. apply andb_prop in Hw as [Hd Hw].
    by rewrite (proj2 (tolower_ident d)), Hd, IH.
  - rewrite <- list_fmap_compose. apply list_fmap_ext. intros ? ? _. apply tolower_twice.
  - rewrite <- HK. f_equal. unfold ToUpper. rewrite <- list_fmap_compose. apply list_fmap_ext.
    intros ? ? _. apply toupper_tolower.
Qed.

Lemma lex_string_shorter s lit rest : lex_string s = Some (lit, rest) → (length rest < length s)%nat.
Proof.
  remember (length s) as n eqn:Hn. revert s Hn lit rest.
  induction n as [n IH] using lt_wf_ind. intros [|c s] -> lit rest H; cbn in H; [done|]. case_bool_decide.
  - destruct s as [|c2 s]; [simplify_eq; cbn; lia|]. case_bool_decide; [|simplify_eq; cbn; lia].
    destruct (lex_string s) as [[l r]|] eqn:E; cbn in H; [|done]. simplify_eq.
    specialize (IH (length s) ltac:(cbn; lia) s eq_refl _ _ E). cbn. lia.
  - destruct (lex_string s) as [[l r]|] eqn:E; cbn in H; [|done]. simplify_eq.
    specialize (IH (length s) ltac:(cbn; lia) s eq_refl _ _ E). cbn. lia.
Qed.

(** A token is at its start, is well formed and takes at least a character. *)
Lemma lex_word_ok c s n t rest : lex_word (c :: s) n = Lexed t rest → IsIdentStart c = true → 0 ≤ n →
  token_ok n t ∧ (length rest ≤ length s)%nat ∧ is_end (tk_type t) = false.
Proof.
  unfold lex_word. cbn [span]. intros H Hc Hn. rewrite (start_cont c Hc) in H.
  destruct (span IsIdentCont s) as [a b] eqn:E. apply span_eq in E as [-> Ha]. injection H as <- <-.
  unfold token_ok. cbn [tk_type tk_pos tk_value]. rewrite length_app. split_and!; [lia|lia| |lia|].
  - case_bool_decide as Hty.
    + rewrite Hty. by apply is_name_lower; [|apply Forall_forallb|].
    + destruct (ClassifyKeyword _) eqn:Ek; try done. exfalso. clear -Ek. unfold ClassifyKeyword, keywords in Ek.
      cbn [classify] in Ek. by repeat case_bool_decide.
  - unfold ClassifyKeyword, keywords. cbn [classify]. by repeat case_bool_decide.
Qed.

Lemma lex_number_ok c s n t rest : lex_number (c :: s) n = Lexed t rest → 0 ≤ n →
  isdigit c || bool_decide (c = ch ".") = true →
  token_ok n t ∧ (length rest ≤ length s)%nat ∧ is_end (tk_type t) = false.
Proof.
  unfold lex_number, token_ok. destruct (span isdigit (c :: s)) as [a b] eqn:E.
  pose proof E as [Es Ha]%span_eq. intros H Hn Hc.
  destruct (starts_with (ch ".") b) eqn:Hd.
  - destruct (span isdigit (drop 1 b)) as [f r] eqn:Ef. apply span_eq in Ef as [Ef _]. injection H as <- <-.
    cbn [tk_type tk_pos]. split_and!; try done. apply (f_equal length) in Es, Ef.
    rewrite length_app in Es, Ef. rewrite length_drop in Ef. destruct b; [done|]. cbn in *. lia.
  - injection H as <- <-. cbn [tk_type tk_pos tk_value]. split_and!; try done.
    + match goal with |- context [if ?b then _ else _] => destruct b end; [done|]. by apply Forall_forallb.
    + destruct a as [|c' a]; cbn in Es; simplify_eq; [|rewrite length_app; lia].
      cbn in Hd. destruct (isdigit c) eqn:Ed; cbn [span] in E; rewrite Ed in E.
      * destruct (span isdigit s). done.
      * cbn in Hc. congruence.
    + match goal with |- context [if ?b then _ else _] => by destruct b end.
Qed.

Lemma lex_symbol_ok c s n t rest : lex_symbol c s n = Lexed t rest → 0 ≤ n →
  token_ok n t ∧ (length rest ≤ length s)%nat ∧ is_end (tk_type t) = false.
Proof.
  unfold lex_symbol, token_ok. intros H Hn.
  destruct (one_char c) as [ty|] eqn:E.
  - injection H as <- <-. cbn [tk_type tk_pos]. unfold one_char in E.
    repeat case_bool_decide; simplify_eq; split_and!; done.
  - repeat first [case_bool_decide | match type of H with context [if starts_with ?a ?b then _ else _] =>
      destruct (starts_with a b) end]; simplify_eq; cbn [tk_type tk_pos];
      rewrite ?length_drop; split_and!; try done; lia.
Qed.

Lemma lex_token_ok c s n t rest : lex_token c s n = Lexed t rest → 0 ≤ n →
  token_ok n t ∧ (length rest ≤ length s)%nat ∧ is_end (tk_type t) = false.
Proof.
  unfold lex_token. intros H Hn. destruct (IsIdentStart c) eqn:Ei; [by eapply lex_word_ok|].
  destruct (isdigit c || _) eqn:Ed.
  { eapply lex_number_ok; [done..|]. destruct (isdigit c); [done|]. by apply andb_prop in Ed as [? _]. }
  case_bool_decide; [|by eapply lex_symbol_ok].
  destruct (lex_string s) as [[lit r]|] eqn:E; [|done]. apply lex_string_shorter in E. injection H as <- <-.
  unfold token_ok. cbn. split_and!; [lia|lia|done|lia|done].
Qed.

Lemma lex_stopped_ok c s n t : lex_token c s n = Stopped t → 0 ≤ n → token_ok n t ∧ tk_type t = Token.UNKNOWN.
Proof.
  unfold lex_token, lex_word, lex_number, lex_symbol, token_ok. intros H Hn.
  repeat first [case_bool_decide | destruct (span _ _) | destruct (one_char _) |
    match type of H with context [if ?b then _ else _] => destruct b end |
    match type of H with context [match lex_string ?b with _ => _ end] => destruct (lex_string b) as [[? ?]|] end];
    simplify_eq; cbn; (split; [split; [lia|done]|done]).
Qed.

Lemma token_ok_weaken n m t : token_ok n t → n ≤ m → token_ok m t.
Proof. intros [? ?] ?. split; [lia|done]. Qed.

(** The tokenizer ends, within the fuel it is given, with a stream of tokens at
    positions of the input. *)
Lemma tokenize_stream fuel s i : 0 ≤ i → (length s < fuel)%nat →
  ∃ ts, tokenize fuel s i = Some ts ∧ stream (i + Z.of_nat (length s)) ts.
Proof.
  revert s i. induction fuel as [|fuel IH]; intros s i Hi Hf; [lia|]. cbn [tokenize].
  destruct (SkipWsAndComments false s i) as [[|c s'] j] eqn:E;
    apply SkipWsAndComments_position in E as [Ej Hj]; cbn [length] in Ej.
  - eexists. split; [done|]. constructor; [|done]. split; [cbn; lia|done].
  - destruct (lex_token c s' j) as [t rest|t] eqn:El.
    + apply lex_token_ok in El as (Ht & Hr & He); [|lia].
      destruct (IH rest (j + Z.of_nat (S (length s')) - Z.of_nat (length rest))) as (ts & -> & Hts); [lia..|].
      eexists. split; [done|]. constructor; [|done|].
      * eapply token_ok_weaken; [done|lia].
      * replace (i + Z.of_nat (length s)) with
          (j + Z.of_nat (S (length s')) - Z.of_nat (length rest) + Z.of_nat (length rest)) by lia. done.
    + apply lex_stopped_ok in El as [Ht Eu]; [|lia]. eexists. split; [done|].
      constructor; [|by rewrite Eu]. eapply token_ok_weaken; [done|lia].
Qed.

Lemma Tokenize_stream s : ∃ ts, Tokenize s = Some ts ∧ stream (Z.of_nat (length s)) ts.
Proof. apply (tokenize_stream _ s 0); lia. Qed.
