(* ===== verification/Parser.v ===== *)
(** * SQL parser (src/src/coordinator/parser.{h,cpp})

    Statements and the recursive descent parser. The state of the parser is the
    list of tokens from [pos_] on; an exception is [Fail]. Loops carry fuel, the
    number of tokens left and one more; [NoFuel] is shown never to be returned. *)
From Stdlib Require Import Strings.Byte Strings.Ascii.
From stdpp Require Import base gmap strings list.
From Stdlib Require Import ZArith Lia.
From S2P Require Import Prelude Text Catalog Lexer.
Local Open Scope Z_scope.

(** ** Statements *)

Inductive LiteralExpr := LitInt (v : Z) | LitDouble (v : double) | LitString (v : bytes).

Module CompareOp.
Inductive t := EQ | NE | LT | LE | GT | GE.
End CompareOp.
#[export] Instance CompareOp_eq_dec : EqDecision CompareOp.t.
Proof. solve_decision. Defined.
Inductive ArithOp := ADD | SUB.

Record CompareExpr := MkCompareExpr { ce_column : bytes; ce_op : CompareOp.t; ce_value : LiteralExpr }.
Record ArithExpr := MkArithExpr { ae_column : bytes; ae_op : ArithOp; ae_operand : LiteralExpr }.
Abbreviation WhereClause := (list CompareExpr).

Record CreateTableStmt := MkCreateTableStmt {
  ct_table_name : bytes; ct_columns : list ColumnDef; ct_primary_key : bytes;
}.
Record InsertStmt := MkInsertStmt {
  in_table_name : bytes; in_columns : list bytes; in_values : list LiteralExpr;
}.

Inductive AggFunc := COUNT | SUM | MIN | MAX.
#[export] Instance AggFunc_eq_dec : EqDecision AggFunc.
Proof. solve_decision. Defined.
Record Aggregate := MkAggregate { ag_func : AggFunc; ag_column : bytes; ag_star : bool }.
Record JoinClause := MkJoinClause { jc_table_name : bytes; left_column : bytes; right_column : bytes }.

(** [where_], [order_by] and [limit] are [None] when the flags [has_where],
    [has_order_by] and [has_limit] are false; [order_by] has the column and
    [order_desc]. *)
Record SelectStmt := MkSelectStmt {
  se_table_name : bytes;
  se_columns : list bytes;
  select_all : bool;
  aggregates : list Aggregate;
  se_join : option JoinClause;
  se_where : option WhereClause;
  order_by : option (bytes * bool);
  limit : option Z;
}.

(** An assignment has a literal or an arithmetic expression. *)
Record Assignment := MkAssignment { as_column : bytes; as_value : ArithExpr + LiteralExpr }.
Record UpdateStmt := MkUpdateStmt {
  up_table_name : bytes; assignments : list Assignment; up_where : WhereClause;
}.
Record DeleteStmt := MkDeleteStmt { de_table_name : bytes; de_where : WhereClause }.

Inductive Statement :=
  | CreateTableS (s : CreateTableStmt)
  | InsertS (s : InsertStmt)
  | SelectS (s : SelectStmt)
  | UpdateS (s : UpdateStmt)
  | DeleteS (s : DeleteStmt)
  | BeginS
  | CommitS
  | RollbackS.

Record ParseError := MkParseError { pe_message : bytes; pe_position : Z }.

(** ** The parser monad *)

Inductive Outcome (A : Type) :=
  | Fail (e : ParseError)
  | Done (a : A) (rest : list Token)
  | NoFuel.
Arguments Fail {A}.
Arguments Done {A}.
Arguments NoFuel {A}.

Definition P (A : Type) : Type := list Token → Outcome A.
#[export] Instance P_ret : MRet P := λ A a ts, Done a ts.
#[export] Instance P_bind : MBind P := λ A B f p ts,
  match p ts with Done a rest => f a rest | Fail e => Fail e | NoFuel => NoFuel end.

Definition throw {A} (msg : string) (pos : Z) : P A := λ _, Fail (MkParseError (str msg) pos).

(** [Tokenize] always leaves a token, so the default is never used. *)
Definition peek (ts : list Token) : Token := default (MkToken Token.END_OF_INPUT [] 0) (head ts).
Definition AtEnd (ts : list Token) : bool :=
  (length ts <=? 1)%nat || bool_decide (tk_type (peek ts) = Token.END_OF_INPUT) ||
  bool_decide (tk_type (peek ts) = Token.UNKNOWN).
Definition skip_token (ts : list Token) : list Token := if AtEnd ts then ts else drop 1 ts.

Definition Peek : P Token := λ ts, Done (peek ts) ts.
Definition Advance : P Token := λ ts, Done (peek ts) (skip_token ts).
Definition Match_ (ty : Token.Type_) : P bool :=
  t ← Peek; if bool_decide (tk_type t = ty) then _ ← Advance; mret true else mret false.
Definition Expect (ty : Token.Type_) : P Token :=
  t ← Peek;
  if bool_decide (tk_type t = ty) then _ ← Advance; mret t else throw "unexpected token" (tk_pos t).

(** The loop "while Match(sep) push_back(item)". *)
Fixpoint many {A} (fuel : nat) (sep : Token.Type_) (item : P A) (acc : list A) : P (list A) :=
  match fuel with
  | O => λ _, NoFuel
  | S fuel =>
      more ← Match_ sep;
      if (more : bool) then x ← item; many fuel sep item (acc ++ [x]) else mret acc
  end.
(** A loop with the fuel it needs from the tokens left. *)
Definition loop {A} (body : nat → P A) : P A := λ ts, body (S (length ts)) ts.
(** One item and that loop. *)
Definition some_items {A} (sep : Token.Type_) (item : P A) : P (list A) :=
  x ← item; loop (λ fuel, many fuel sep item [x]).

(** ** Grammar *)

Definition ident : P bytes := t ← Expect Token.IDENT; mret (tk_value t).

(** The parts of a qualified name with dots between them. *)
Definition join_dots (parts : list bytes) : bytes :=
  match parts with [] => [] | p :: ps => foldl (λ out q, out ++ ch "." :: q) p ps end.
Definition ParseColumnRef : P bytes := parts ← some_items Token.DOT ident; mret (join_dots parts).

Definition ParseLiteral : P LiteralExpr :=
  t ← Peek;
  match tk_type t with
  | Token.NUMBER_INT =>
      _ ← Advance;
      match ParseInt64 (tk_value t) with
      | Some v => mret (LitInt v)
      | None => throw "bad integer literal" (tk_pos t)
      end
  | Token.NUMBER_FLOAT =>
      _ ← Advance;
      match ParseDouble (tk_value t) with
      | Some v => mret (LitDouble v)
      | None => throw "bad float literal" (tk_pos t)
      end
  | Token.STRING_LIT => _ ← Advance; mret (LitString (tk_value t))
  | _ => throw "expected literal" (tk_pos t)
  end.

Definition compare_op (ty : Token.Type_) : option CompareOp.t :=
  match ty with
  | Token.EQ => Some CompareOp.EQ
  | Token.NE => Some CompareOp.NE
  | Token.LT => Some CompareOp.LT
  | Token.LE => Some CompareOp.LE
  | Token.GT => Some CompareOp.GT
  | Token.GE => Some CompareOp.GE
  | _ => None
  end.

Definition ParseCompare : P CompareExpr :=
  column ← ParseColumnRef;
  pop ← Peek;
  match compare_op (tk_type pop) with
  | Some op => _ ← Advance; value ← ParseLiteral; mret (MkCompareExpr column op value)
  | None => throw "expected comparison operator" (tk_pos pop)
  end.

Definition ParseWhere : P WhereClause := some_items Token.KW_AND ParseCompare.

(** *** CREATE TABLE *)

Definition column_type : P ColumnType :=
  ty ← Peek;
  match tk_type ty with
  | Token.KW_INT => _ ← Advance; mret INT
  | Token.KW_BIGINT => _ ← Advance; mret BIGINT
  | Token.KW_FLOAT => _ ← Advance; mret FLOAT
  | Token.KW_VARCHAR =>
      _ ← Advance;
      sized ← Match_ Token.LPAREN;
      if (sized : bool) then _ ← Expect Token.NUMBER_INT; _ ← Expect Token.RPAREN; mret VARCHAR else mret VARCHAR
  | _ => throw "expected column type" (tk_pos ty)
  end.

(** A column and whether it is the primary key. *)
Definition column_def : P (ColumnDef * bool) :=
  maybe_id ← Peek;
  if negb (bool_decide (tk_type maybe_id = Token.IDENT)) then throw "expected column name" (tk_pos maybe_id)
  else
    _ ← Advance;
    ty ← column_type;
    primary ← Match_ Token.KW_PRIMARY;
    let col := MkColumnDef (tk_value maybe_id) ty in
    if (primary : bool) then _ ← Expect Token.KW_KEY; mret (col, true) else mret (col, false).

Fixpoint column_defs (fuel : nat) (cols : list ColumnDef) (pk_name : bytes) : P (list ColumnDef * bytes) :=
  match fuel with
  | O => λ _, NoFuel
  | S fuel =>
      '(col, primary) ← column_def;
      let pk_name := if (primary : bool) then c_name col else pk_name in
      let cols := cols ++ [col] in
      closed ← Match_ Token.RPAREN;
      if (closed : bool) then mret (cols, pk_name) else _ ← Expect Token.COMMA; column_defs fuel cols pk_name
  end.

Definition ParseCreateTable : P CreateTableStmt :=
  _ ← Expect Token.KW_CREATE;
  _ ← Expect Token.KW_TABLE;
  name ← Expect Token.IDENT;
  _ ← Expect Token.LPAREN;
  '(cols, pk_name) ← loop (λ fuel, column_defs fuel [] []);
  if bool_decide (pk_name = []) then throw "PRIMARY KEY required" (tk_pos name)
  else mret (MkCreateTableStmt (tk_value name) cols pk_name).

(** *** INSERT *)

Definition ParseInsert : P InsertStmt :=
  _ ← Expect Token.KW_INSERT;
  _ ← Expect Token.KW_INTO;
  tn ← Expect Token.IDENT;
  _ ← Expect Token.LPAREN;
  cols ← some_items Token.COMMA ident;
  _ ← Expect Token.RPAREN;
  _ ← Expect Token.KW_VALUES;
  _ ← Expect Token.LPAREN;
  values ← some_items Token.COMMA ParseLiteral;
  _ ← Expect Token.RPAREN;
  if negb (length cols =? length values)%nat then throw "column/value count mismatch" (tk_pos tn)
  else mret (MkInsertStmt (tk_value tn) cols values).

(** *** SELECT *)

Definition agg_func (ty : Token.Type_) : option AggFunc :=
  match ty with
  | Token.KW_COUNT => Some COUNT
  | Token.KW_SUM => Some SUM
  | Token.KW_MIN => Some MIN
  | Token.KW_MAX => Some MAX
  | _ => None
  end.

Definition select_item : P (Aggregate + bytes) :=
  t ← Peek;
  match agg_func (tk_type t) with
  | Some f =>
      _ ← Advance;
      _ ← Expect Token.LPAREN;
      star ← Match_ Token.STAR;
      column ← (if (star : bool) then mret [] else ParseColumnRef);
      _ ← Expect Token.RPAREN;
      mret (inl (MkAggregate f column star))
  | None => column ← ParseColumnRef; mret (inr column)
  end.

Definition aggregates_of (items : list (Aggregate + bytes)) : list Aggregate :=
  omap (λ x, match x with inl a => Some a | inr _ => None end) items.
Definition columns_of (items : list (Aggregate + bytes)) : list bytes :=
  omap (λ x, match x with inl _ => None | inr c => Some c end) items.

Definition join_clause : P JoinClause :=
  table ← ParseColumnRef;
  _ ← Expect Token.KW_ON;
  l ← ParseColumnRef;
  _ ← Expect Token.EQ;
  r ← ParseColumnRef;
  mret (MkJoinClause table l r).

Definition select_join : P (option JoinClause) :=
  inner ← Match_ Token.KW_INNER;
  if (inner : bool) then _ ← Expect Token.KW_JOIN; jc ← join_clause; mret (Some jc)
  else
    plain ← Match_ Token.KW_JOIN;
    if (plain : bool) then jc ← join_clause; mret (Some jc) else mret None.

Definition select_where : P (option WhereClause) :=
  w ← Match_ Token.KW_WHERE;
  if (w : bool) then c ← ParseWhere; mret (Some c) else mret None.

Definition select_order : P (option (bytes * bool)) :=
  o ← Match_ Token.KW_ORDER;
  if (o : bool) then
    _ ← Expect Token.KW_BY;
    column ← ParseColumnRef;
    desc ← Match_ Token.KW_DESC;
    if (desc : bool) then mret (Some (column, true))
    else _ ← Match_ Token.KW_ASC; mret (Some (column, false))
  else mret None.

Definition select_limit : P (option Z) :=
  l ← Match_ Token.KW_LIMIT;
  if (l : bool) then
    lim ← Expect Token.NUMBER_INT;
    match ParseInt64 (tk_value lim) with
    | Some v => if v <? 0 then throw "expected non-negative LIMIT integer" (tk_pos lim) else mret (Some v)
    | None => throw "expected non-negative LIMIT integer" (tk_pos lim)
    end
  else mret None.

Definition ParseSelect : P SelectStmt :=
  _ ← Expect Token.KW_SELECT;
  star ← Match_ Token.STAR;
  items ← (if (star : bool) then mret [] else some_items Token.COMMA select_item);
  _ ← Expect Token.KW_FROM;
  table ← ParseColumnRef;
  join ← select_join;
  where_ ← select_where;
  order ← select_order;
  lim ← select_limit;
  mret (MkSelectStmt table (columns_of items) star (aggregates_of items) join where_ order lim).

(** *** UPDATE and DELETE *)

Definition assignment : P Assignment :=
  column ← ident;
  _ ← Expect Token.EQ;
  first ← Peek;
  if negb (bool_decide (tk_type first = Token.IDENT)) then
    lit ← ParseLiteral; mret (MkAssignment column (inr lit))
  else
    id ← Advance;
    op ← Peek;
    if bool_decide (tk_type op = Token.PLUS) || bool_decide (tk_type op = Token.MINUS) then
      _ ← Advance;
      operand ← ParseLiteral;
      let aop := if bool_decide (tk_type op = Token.PLUS) then ADD else SUB in
      mret (MkAssignment column (inl (MkArithExpr (tk_value id) aop operand)))
    else throw "expected operator after column in SET" (tk_pos op).

Definition ParseUpdate : P UpdateStmt :=
  _ ← Expect Token.KW_UPDATE;
  table ← ident;
  _ ← Expect Token.KW_SET;
  asg ← some_items Token.COMMA assignment;
  _ ← Expect Token.KW_WHERE;
  where_ ← ParseWhere;
  mret (MkUpdateStmt table asg where_).

Definition ParseDelete : P DeleteStmt :=
  _ ← Expect Token.KW_DELETE;
  _ ← Expect Token.KW_FROM;
  table ← ident;
  _ ← Expect Token.KW_WHERE;
  where_ ← ParseWhere;
  mret (MkDeleteStmt table where_).

Definition ParseStatement : P Statement :=
  t ← Peek;
  match tk_type t with
  | Token.KW_CREATE => s ← ParseCreateTable; mret (CreateTableS s)
  | Token.KW_INSERT => s ← ParseInsert; mret (InsertS s)
  | Token.KW_SELECT => s ← ParseSelect; mret (SelectS s)
  | Token.KW_UPDATE => s ← ParseUpdate; mret (UpdateS s)
  | Token.KW_DELETE => s ← ParseDelete; mret (DeleteS s)
  | Token.KW_BEGIN => _ ← Advance; mret BeginS
  | Token.KW_COMMIT => _ ← Advance; mret CommitS
  | Token.KW_ROLLBACK | Token.KW_ABORT => _ ← Advance; mret RollbackS
  | _ => throw "expected statement" (tk_pos t)
  end.

(** ** [Parse] *)

Definition lexer_error (ts : list Token) : option ParseError :=
  (λ tk, MkParseError (str "lexer error near " ++ tk_value tk) (tk_pos tk)) <$>
    head (filter (λ tk, tk_type tk = Token.UNKNOWN) ts).

(** After the statement: an optional semicolon and nothing else. *)
Definition finish_statement : P () := λ ts,
  let ts' := if AtEnd ts then Some ts
             else if bool_decide (tk_type (peek ts) = Token.SEMICOLON) then Some (skip_token ts) else None in
  match ts' with
  | None => throw "unexpected token after statement" (tk_pos (peek ts)) ts
  | Some ts' => if AtEnd ts' then Done () ts' else throw "trailing input after statement" (tk_pos (peek ts')) ts'
  end.

(** [None] would be a loop that does not end. *)
Definition Parse (sql : bytes) : option (ParseError + Statement) :=
  match Tokenize sql with
  | None => None
  | Some ts =>
      match lexer_error ts with
      | Some e => Some (inl e)
      | None =>
          if AtEnd ts then Some (inl (MkParseError (str "empty statement") 0))
          else
            match (st ← ParseStatement; _ ← finish_statement; mret st) ts with
            | Done st _ => Some (inr st)
            | Fail e => Some (inl e)
            | NoFuel => None
            end
      end
  end.

(** *** A few statements *)

Example parse_insert :
  Parse (str "INSERT INTO Acc (id, name) VALUES (7, 'it''s');") =
  Some (inr (InsertS (MkInsertStmt (str "acc") [str "id"; str "name"] [LitInt 7; LitString (str "it's")]))).
Proof. vm_compute. reflexivity. Qed.
Example parse_select :
  Parse (str "select a.x, count(*) from a inner join b on a.x = b.y where a.x >= 10 order by a.x desc limit 3") =
  Some (inr (SelectS (MkSelectStmt (str "a") [str "a.x"] false [MkAggregate COUNT [] true]
    (Some (MkJoinClause (str "b") (str "a.x") (str "b.y")))
    (Some [MkCompareExpr (str "a.x") CompareOp.GE (LitInt 10)]) (Some (str "a.x", true)) (Some 3)))).
Proof. vm_compute. reflexivity. Qed.
(** There are no negative literals: a minus sign is not part of a number. *)
Example parse_negative :
  Parse (str "UPDATE t SET v = -1 WHERE id = 1") = Some (inl (MkParseError (str "expected literal") 17)).
Proof. vm_compute. reflexivity. Qed.
