(* ===== verification/ParserProofs.v ===== *)
(** * Correctness of the SQL parser

    The parser ends on every input; an error is at a position of the input; the
    statements it returns are exactly the well-formed ones: the result of a parse
    is well formed, and every well-formed statement without floating-point
    literals has a text that parses to it. *)
From Stdlib Require Import Strings.Byte Strings.Ascii.
From stdpp Require Import base gmap strings list.
From Stdlib Require Import ZArith Lia.
From S2P Require Import Prelude Text Catalog Lexer Parser.
Local Open Scope Z_scope.

(** ** Well-formed statements *)

Definition name_ok (w : bytes) : Prop := is_name w = true.
Definition column_ref_ok (c : bytes) : Prop := ∃ parts, parts ≠ [] ∧ Forall name_ok parts ∧ c = join_dots parts.
Definition literal_ok (l : LiteralExpr) : Prop := match l with LitInt v => 0 ≤ v ≤ INT64_MAX | _ => True end.
Definition compare_ok (c : CompareExpr) : Prop := column_ref_ok (ce_column c) ∧ literal_ok (ce_value c).
Definition where_ok (w : WhereClause) : Prop := w ≠ [] ∧ Forall compare_ok w.
Definition assignment_ok (a : Assignment) : Prop :=
  name_ok (as_column a) ∧
  match as_value a with inl x => name_ok (ae_column x) ∧ literal_ok (ae_operand x) | inr l => literal_ok l end.
Definition aggregate_ok (a : Aggregate) : Prop := if ag_star a then ag_column a = [] else column_ref_ok (ag_column a).
Definition join_ok (j : JoinClause) : Prop :=
  column_ref_ok (jc_table_name j) ∧ column_ref_ok (left_column j) ∧ column_ref_ok (right_column j).
Definition items_ok (star : bool) (cols : list bytes) (aggs : list Aggregate) : Prop :=
  if star then cols = [] ∧ aggs = []
  else (cols ≠ [] ∨ aggs ≠ []) ∧ Forall column_ref_ok cols ∧ Forall aggregate_ok aggs.

Definition statement_ok (st : Statement) : Prop :=
  match st with
  | CreateTableS s =>
      name_ok (ct_table_name s) ∧ Forall (λ c, name_ok (c_name c)) (ct_columns s) ∧
      ct_primary_key s ∈ (c_name <$> ct_columns s)
  | InsertS s =>
      name_ok (in_table_name s) ∧ in_columns s ≠ [] ∧ Forall name_ok (in_columns s) ∧
      Forall literal_ok (in_values s) ∧ length (in_columns s) = length (in_values s)
  | SelectS s =>
      items_ok (select_all s) (se_columns s) (aggregates s) ∧ column_ref_ok (se_table_name s) ∧
      from_option join_ok True (se_join s) ∧ from_option where_ok True (se_where s) ∧
      from_option (λ o, column_ref_ok o.1) True (order_by s) ∧ from_option (λ v, 0 ≤ v ≤ INT64_MAX) True (limit s)
  | UpdateS s =>
      name_ok (up_table_name s) ∧ assignments s ≠ [] ∧ Forall assignment_ok (assignments s) ∧ where_ok (up_where s)
  | DeleteS s => name_ok (de_table_name s) ∧ where_ok (de_where s)
  | BeginS | CommitS | RollbackS => True
  end.

(** ** Every parser ends, fails inside the input and keeps the stream *)

Section Yields.
Context (n : Z).

Definition yields {A} (p : P A) (Q : A → Prop) : Prop := ∀ ts, stream n ts →
  match p ts with
  | Fail e => 0 ≤ pe_position e ≤ n
  | Done a rest => stream n rest ∧ (length rest ≤ length ts)%nat ∧ Q a
  | NoFuel => False
  end.

Lemma yields_mono {A} (p : P A) (Q Q' : A → Prop) : yields p Q → (∀ a, Q a → Q' a) → yields p Q'.
Proof. intros H HQ ts Hts. specialize (H ts Hts). destruct (p ts); naive_solver. Qed.
Lemma yields_ret {A} (a : A) (Q : A → Prop) : Q a → yields (mret a) Q.
Proof. intros HQ ts Hts. by split_and!. Qed.
Lemma yields_bind {A B} (p : P A) (f : A → P B) (R : A → Prop) (Q : B → Prop) :
  yields p R → (∀ a, R a → yields (f a) Q) → yields (p ≫= f) Q.
Proof.
  intros Hp Hf ts Hts. specialize (Hp ts Hts). unfold mbind, P_bind. destruct (p ts) as [e|a rest|]; [done| |done].
  destruct Hp as (Hr & Hl & HR). specialize (Hf a HR rest Hr). destruct (f a rest); [done| |done].
  destruct Hf as (? & ? & ?). split_and!; [done|lia|done].
Qed.
Lemma yields_throw {A} msg t (Q : A → Prop) : token_ok n t → yields (throw msg (tk_pos t)) Q.
Proof. intros [H _] ts Hts. exact H. Qed.

Lemma stream_peek ts : stream n ts → token_ok n (peek ts).
Proof. by destruct 1. Qed.
Lemma stream_skip ts : stream n ts → stream n (skip_token ts) ∧ (length (skip_token ts) ≤ length ts)%nat.
Proof.
  intros H. unfold skip_token. destruct (AtEnd ts) eqn:E; [done|].
  destruct H as [|t ts Ht He Hs]; [done|]. split; [exact Hs|]. rewrite length_drop. lia.
Qed.
(** A token that is not the end is skipped. *)
Lemma stream_skip_shorter ts : stream n ts → is_end (tk_type (peek ts)) = false →
  (length (skip_token ts) < length ts)%nat.
Proof.
  intros H He. destruct H as [t Ht He'|t ts Ht He' Hs]; cbn in He; [congruence|].
  assert (Hne : ts ≠ []) by (by destruct Hs). unfold skip_token, AtEnd. cbn [peek head default].
  unfold is_end in He'. destruct ts; [done|]. cbn [length Nat.leb]. cbn [option_map from_option id] in *.
  rewrite <- orb_assoc, He'. cbn. lia.
Qed.

Lemma yields_Peek : yields Peek (token_ok n).
Proof. intros ts Hts. split_and!; [done|done|]. by apply stream_peek. Qed.
Lemma yields_Advance : yields Advance (token_ok n).
Proof. intros ts Hts. destruct (stream_skip ts Hts). split_and!; [done|done|]. by apply stream_peek. Qed.
Lemma yields_Expect ty : yields (Expect ty) (λ t, token_ok n t ∧ tk_type t = ty).
Proof.
  eapply yields_bind; [apply yields_Peek|]. intros t Ht. case_bool_decide; [|by apply yields_throw].
  eapply yields_bind; [apply yields_Advance|]. intros _ _. by apply yields_ret.
Qed.
Lemma yields_Match ty : yields (Match_ ty) (λ _, True).
Proof.
  eapply yields_bind; [apply yields_Peek|]. intros t Ht. case_bool_decide; [|by apply yields_ret].
  eapply yields_bind; [apply yields_Advance|]. intros _ _. by apply yields_ret.
Qed.
Lemma Match_shorter ty ts rest : is_end ty = false → stream n ts → Match_ ty ts = Done true rest →
  stream n rest ∧ (length rest < length ts)%nat.
Proof.
  intros He Hts. unfold Match_, mbind, P_bind, Peek. case_bool_decide as Hty; [|done]. cbn. intros [= <-].
  split; [by apply stream_skip|]. apply stream_skip_shorter; [done|]. by rewrite Hty.
Qed.
Lemma Expect_shorter ty ts t rest : is_end ty = false → stream n ts → Expect ty ts = Done t rest →
  stream n rest ∧ (length rest < length ts)%nat.
Proof.
  intros He Hts. unfold Expect, mbind, P_bind, Peek. case_bool_decide as Hty; [|done]. cbn. intros [= <- <-].
  split; [by apply stream_skip|]. apply stream_skip_shorter; [done|]. by rewrite Hty.
Qed.

(** A loop takes at most as many rounds as there are tokens. *)
Lemma yields_many {A} fuel sep (item : P A) (R : A → Prop) acc ts :
  is_end sep = false → yields item R → stream n ts → (length ts < fuel)%nat → acc ≠ [] → Forall R acc →
  match many fuel sep item acc ts with
  | Fail e => 0 ≤ pe_position e ≤ n
  | Done a rest => stream n rest ∧ (length rest ≤ length ts)%nat ∧ a ≠ [] ∧ Forall R a
  | NoFuel => False
  end.
Proof.
  intros Hsep Hitem. revert acc ts. induction fuel as [|fuel IH]; intros acc ts Hts Hf Hne Hacc; [lia|].
  cbn [many]. unfold mbind at 1, P_bind. pose proof (yields_Match sep ts Hts) as HM.
  destruct (Match_ sep ts) as [|[|] rest|] eqn:EM; [done| |by destruct HM as (? & ? & _); split_and!|done].
  apply Match_shorter in EM as [Hr Hl]; [|done..]. specialize (Hitem rest Hr). unfold mbind, P_bind.
  destruct (item rest) as [|x rest'|]; [done| |done]. destruct Hitem as (Hr' & Hl' & HR).
  specialize (IH (acc ++ [x]) rest' Hr' ltac:(lia) ltac:(by destruct acc) ltac:(by apply Forall_app_2; repeat constructor)).
  destruct (many fuel sep item (acc ++ [x]) rest'); [done| |done].
  destruct IH as (? & ? & ?). split_and!; [done|lia|naive_solver..].
Qed.
Lemma yields_some_items {A} sep (item : P A) (R : A → Prop) : is_end sep = false → yields item R →
  yields (some_items sep item) (λ l, l ≠ [] ∧ Forall R l).
Proof.
  intros Hsep Hitem. eapply yields_bind; [done|]. intros x HR ts Hts.
  apply yields_many; [done..|lia|done|]. by repeat constructor.
Qed.
End Yields.

(** One step of a parser: its bind, a branch, the end. *)
Create HintDb parser discriminated.
#[export] Hint Resolve yields_Peek yields_Advance yields_Expect yields_Match : parser.
Ltac parser_step :=
  match goal with
  | |- yields _ (if (if bool_decide ?b then _ else _) then _ else _) _ => fail
  | |- yields _ (_ ≫= _) _ => eapply yields_bind; [solve [eauto with parser nocore] |]; intros
  | |- yields _ (if bool_decide ?b then _ else _) _ => case_bool_decide
  | |- yields _ (if negb (bool_decide ?b) then _ else _) _ => case_bool_decide; cbn [negb]
  | |- yields _ (if ?b then _ else _) _ => destruct b eqn:?
  | |- yields _ (throw _ (tk_pos _)) _ => apply yields_throw; [tauto]
  | |- yields _ (mret _) _ => apply yields_ret
  end.
Ltac parser_steps := repeat (parser_step; cbn beta in *).

Lemma token_name n t : token_ok n t ∧ tk_type t = Token.IDENT → name_ok (tk_value t).
Proof. intros [[_ H] E]. by rewrite E in H. Qed.
Lemma digits_value_nonneg s : forallb isdigit s = true → 0 ≤ digits_value s.
Proof.
  induction s as [|c s IH] using rev_ind; intros H; [done|]. rewrite digits_value_snoc.
  rewrite forallb_app in H. apply andb_prop in H as [Hs Hc]. cbn in Hc. unfold isdigit, between in Hc.
  specialize (IH Hs). unfold digit_val. lia.
Qed.
Lemma token_int n t v : token_ok n t → tk_type t = Token.NUMBER_INT → ParseInt64 (tk_value t) = Some v →
  0 ≤ v ≤ INT64_MAX.
Proof.
  intros [_ H] E HP. rewrite E in H. pose proof (ParseInt64_range _ _ HP) as [_ Hv]. split; [|done].
  unfold ParseInt64 in HP. destruct (tk_value t) as [|c s]; [done|].
  rewrite bool_decide_eq_false_2 in HP by (apply isdigit_not_minus; cbn in H; by apply andb_prop in H as [? _]).
  rewrite H in HP. case_bool_decide; simplify_eq. by apply digits_value_nonneg.
Qed.

Lemma yields_ident n : yields n ident name_ok.
Proof. unfold ident. parser_steps. by eapply token_name. Qed.
#[export] Hint Resolve yields_ident : parser.

Lemma yields_ParseColumnRef n : yields n ParseColumnRef column_ref_ok.
Proof.
  eapply yields_bind; [by apply yields_some_items, yields_ident|]. intros parts [Hne HF]. apply yields_ret. by exists parts.
Qed.
#[export] Hint Resolve yields_ParseColumnRef : parser.

Lemma yields_ParseLiteral n : yields n ParseLiteral literal_ok.
Proof.
  unfold ParseLiteral. parser_step. destruct (tk_type a) eqn:Ety; parser_steps; try done.
  - destruct (ParseInt64 _) eqn:E; parser_steps. cbn. eapply (token_int n a); done.
  - destruct (ParseDouble _) eqn:E; parser_steps. done.
Qed.
#[export] Hint Resolve yields_ParseLiteral : parser.

Lemma yields_ParseCompare n : yields n ParseCompare compare_ok.
Proof. unfold ParseCompare. parser_step. parser_step. destruct (compare_op _); parser_steps. by split. Qed.
Lemma yields_ParseWhere n : yields n ParseWhere where_ok.
Proof. by apply yields_some_items, yields_ParseCompare. Qed.
#[export] Hint Resolve yields_ParseWhere : parser.

Lemma yields_column_type n : yields n column_type (λ _, True).
Proof. unfold column_type. parser_step. destruct (tk_type a); parser_steps; done. Qed.
#[export] Hint Resolve yields_column_type : parser.
Lemma yields_column_def n : yields n column_def (λ c, name_ok (c_name c.1)).
Proof. unfold column_def. parser_steps; by apply (token_name n). Qed.

Definition columns_ok (r : list ColumnDef * bytes) : Prop :=
  Forall (λ c, name_ok (c_name c)) r.1 ∧ (r.2 = [] ∨ r.2 ∈ (c_name <$> r.1)).
Lemma columns_ok_snoc cols pk col (primary : bool) : columns_ok (cols, pk) → name_ok (c_name col) →
  columns_ok (cols ++ [col], if primary then c_name col else pk).
Proof.
  intros [HF Hpk] Hn. split; [by apply Forall_app_2; repeat constructor|]. cbn [fst snd] in *.
  rewrite fmap_app. destruct primary; [right|destruct Hpk; [by left|right]]; set_solver.
Qed.
Lemma yields_column_defs n fuel cols pk ts : columns_ok (cols, pk) → stream n ts → (length ts < fuel)%nat →
  match column_defs fuel cols pk ts with
  | Fail e => 0 ≤ pe_position e ≤ n
  | Done a rest => stream n rest ∧ (length rest ≤ length ts)%nat ∧ columns_ok a
  | NoFuel => False
  end.
Proof.
  revert cols pk ts. induction fuel as [|fuel IH]; intros cols pk ts Hok Hts Hf; [lia|]. cbn [column_defs].
  pose proof (yields_column_def n ts Hts) as HC. unfold mbind at 1, P_bind.
  destruct (column_def ts) as [|[col primary] r1|]; [done| |done]. destruct HC as (H1 & L1 & Hn).
  apply (columns_ok_snoc _ _ col primary) in Hok; [|done]. cbn beta iota zeta.
  pose proof (yields_Match n Token.RPAREN r1 H1) as HM. unfold mbind at 1, P_bind.
  destruct (Match_ _ r1) as [|[|] r2|]; [done| | |done]; destruct HM as (H2 & L2 & _).
  - split_and!; [done|lia|done].
  - unfold mbind, P_bind. pose proof (yields_Expect n Token.COMMA r2 H2) as HE.
    destruct (Expect _ r2) as [|t r3|] eqn:E3; [done| |done].
    apply (Expect_shorter n) in E3 as [H3 L3]; [|done..]. specialize (IH _ _ r3 Hok H3 ltac:(lia)).
    destruct (column_defs _ _ _ r3); [done| |done]. destruct IH as (? & ? & ?). split_and!; [done|lia|done].
Qed.
Lemma yields_ParseCreateTable n : yields n ParseCreateTable (λ s, statement_ok (CreateTableS s)).
Proof.
  unfold ParseCreateTable. parser_step. parser_step. parser_step. parser_step.
  eapply (yields_bind n _ _ columns_ok).
  - intros ts Hts. apply yields_column_defs; [|done|lia]. split; [constructor|by left].
  - intros [cols pk] [HF Hpk]. parser_steps. split_and!; [by eapply token_name|done|].
    destruct Hpk; [by exfalso|done].
Qed.

Lemma yields_ParseInsert n : yields n ParseInsert (λ s, statement_ok (InsertS s)).
Proof.
  unfold ParseInsert. do 4 parser_step.
  eapply yields_bind; [by apply yields_some_items, yields_ident|]. intros cols [Hne Hc]. do 3 parser_step.
  eapply yields_bind; [by apply yields_some_items, yields_ParseLiteral|]. intros vals [_ Hv]. parser_steps.
  cbn. split_and!; [by eapply token_name|done..|]. by apply Nat.eqb_eq, negb_false_iff.
Qed.

Definition item_ok (x : Aggregate + bytes) : Prop :=
  match x with inl a => aggregate_ok a | inr c => column_ref_ok c end.
Lemma yields_select_item n : yields n select_item item_ok.
Proof.
  unfold select_item. parser_step. destruct (agg_func _) as [f|]; [|parser_steps; done]. do 3 parser_step.
  eapply (yields_bind n _ _ (λ c, if a2 then c = [] else column_ref_ok c)).
  - destruct a2; [by apply yields_ret|apply yields_ParseColumnRef].
  - intros c Hc. parser_steps. done.
Qed.
Lemma items_of_ok items : items ≠ [] → Forall item_ok items → items_ok false (columns_of items) (aggregates_of items).
Proof.
  intros Hne HF. assert (Forall column_ref_ok (columns_of items) ∧ Forall aggregate_ok (aggregates_of items)).
  { clear Hne. induction HF as [|[a|c] items Hx _ [? ?]]; cbn; [done|..]; split; auto; by constructor. }
  split; [|done]. destruct items as [|[a|c] items]; [done|by right|by left].
Qed.
Lemma yields_join_clause n : yields n join_clause join_ok.
Proof. unfold join_clause. parser_steps. by split_and!. Qed.
#[export] Hint Resolve yields_join_clause : parser.
Lemma yields_select_join n : yields n select_join (from_option join_ok True).
Proof. unfold select_join. parser_steps; done. Qed.
Lemma yields_select_where n : yields n select_where (from_option where_ok True).
Proof. unfold select_where. parser_steps; done. Qed.
Lemma yields_select_order n : yields n select_order (from_option (λ o, column_ref_ok o.1) True).
Proof. unfold select_order. parser_steps; done. Qed.
Lemma yields_select_limit n : yields n select_limit (from_option (λ v, 0 ≤ v ≤ INT64_MAX) True).
Proof.
  unfold select_limit. parser_steps; [|done]. destruct H0 as [Ht Ety]. destruct (ParseInt64 _) eqn:E; parser_steps.
  by eapply token_int.
Qed.
#[export] Hint Resolve yields_select_join yields_select_where yields_select_order yields_select_limit : parser.

Lemma yields_ParseSelect n : yields n ParseSelect (λ s, statement_ok (SelectS s)).
Proof.
  unfold ParseSelect. do 2 parser_step.
  eapply (yields_bind n _ _ (λ items, items_ok a0 (columns_of items) (aggregates_of items))).
  - destruct a0; [by apply yields_ret|].
    eapply yields_mono; [by apply yields_some_items, yields_select_item|]. intros l [? ?]. by apply items_of_ok.
  - intros items Hi. parser_steps. by split_and!.
Qed.

(** The token [Advance] returns is the one [Peek] has seen. *)
Lemma yields_peek_advance {A} n (b : Token → bool) (p f : Token → P A) Q :
  yields n (t ← Peek; if b t then p t else _ ← Advance; f t) Q →
  yields n (t ← Peek; if b t then p t else t' ← Advance; f t') Q.
Proof. intros H ts Hts. specialize (H ts Hts). unfold mbind, P_bind, Peek, Advance in *. by destruct (b _). Qed.

Lemma yields_assignment n : yields n assignment assignment_ok.
Proof.
  unfold assignment. do 2 parser_step. apply yields_peek_advance. parser_steps; (split; [done|]); [|done].
  split; [by apply (token_name n)|done].
Qed.
Lemma yields_ParseUpdate n : yields n ParseUpdate (λ s, statement_ok (UpdateS s)).
Proof.
  unfold ParseUpdate. do 3 parser_step.
  eapply yields_bind; [by apply yields_some_items, yields_assignment|]. intros asg [? ?]. parser_steps. by split_and!.
Qed.
Lemma yields_ParseDelete n : yields n ParseDelete (λ s, statement_ok (DeleteS s)).
Proof. unfold ParseDelete. parser_steps. by split. Qed.
#[export] Hint Resolve yields_ParseCreateTable yields_ParseInsert yields_ParseSelect yields_ParseUpdate
  yields_ParseDelete : parser.

Lemma yields_ParseStatement n : yields n ParseStatement statement_ok.
Proof. unfold ParseStatement. parser_step. destruct (tk_type a); parser_steps; done. Qed.
Lemma yields_finish_statement n : yields n finish_statement (λ _, True).
Proof.
  intros ts Hts. unfold finish_statement.
  assert (H : ∀ ts', stream n ts' → (length ts' ≤ length ts)%nat →
    match (if AtEnd ts' then Done () ts' else throw "trailing input after statement" (tk_pos (peek ts')) ts') with
    | Fail e => 0 ≤ pe_position e ≤ n
    | Done a rest => stream n rest ∧ (length rest ≤ length ts)%nat ∧ True
    | NoFuel => False
    end).
  { intros ts' H' L. destruct (AtEnd ts'); [done|]. apply stream_peek in H' as [? _]. done. }
  destruct (AtEnd ts) eqn:E; [by apply H|]. case_bool_decide; [|by apply stream_peek in Hts as [? _]].
  destruct (stream_skip n ts Hts). by apply H.
Qed.

Lemma stream_tokens n ts : stream n ts → Forall (token_ok n) ts.
Proof. induction 1; apply Forall_cons; auto using Forall_nil. Qed.

(** The parser ends with an error inside the input or a well-formed statement. *)
Lemma Parse_result sql :
  match Parse sql with
  | Some (inl e) => 0 ≤ pe_position e ≤ Z.of_nat (length sql)
  | Some (inr st) => statement_ok st
  | None => False
  end.
Proof.
  unfold Parse. destruct (Tokenize_stream sql) as (ts & -> & Hts).
  destruct (lexer_error ts) as [e|] eqn:El.
  { unfold lexer_error in El. apply fmap_Some in El as (t & Eh & ->).
    assert (Hin : t ∈ filter (λ tk, tk_type tk = Token.UNKNOWN) ts)
      by (destruct (filter _ ts); cbn in Eh; simplify_eq; apply elem_of_cons; by left).
    apply list_elem_of_filter in Hin as [_ Hin]. apply stream_tokens in Hts. rewrite Forall_forall in Hts.
    by destruct (Hts t Hin). }
  destruct (AtEnd ts); [cbn; lia|].
  pose proof (yields_bind _ ParseStatement (λ st, _ ← finish_statement; mret st) _ _
    (yields_ParseStatement _) (λ st Hst, yields_bind _ _ (λ _, mret st) _ _ (yields_finish_statement _)
      (λ _ _, yields_ret _ st statement_ok Hst)) ts Hts) as H.
  destruct ((st ← ParseStatement; _ ← finish_statement; mret st) ts); naive_solver.
Qed.

(** C9. Parsing ends on every text, with a statement or with an error whose position
    is in the text or just after it: the tokenizer and the loops of the recursive
    descent never run away, since every round takes a token and the token at the end
    of the input is never passed. *)
Theorem parse_total sql : ∃ r, Parse sql = Some r ∧ ∀ e, r = inl e → 0 ≤ pe_position e ≤ Z.of_nat (length sql).
Proof.
  pose proof (Parse_result sql) as H. destruct (Parse sql) as [[e|st]|]; [| |done].
  - exists (inl e). split; [done|]. by intros ? [= <-].
  - exists (inr st). by split.
Qed.

(** C10. A statement the parser returns is well formed: names are identifiers that are
    not keywords, in lower case; qualified names are such names with dots between
    them; integer literals and LIMIT are in the non-negative half of [int64_t]; the
    primary key of a new table is one of its columns; INSERT has as many values as
    columns and at least one; SELECT has a star or a list that is not empty; UPDATE
    and DELETE have a condition. *)
Theorem parse_well_formed sql st : Parse sql = Some (inr st) → statement_ok st.
Proof. intros H. pose proof (Parse_result sql) as HR. by rewrite H in HR. Qed.

Lemma parse_well_formed_witness :
  let sql := str "CREATE TABLE Acc (Id INT PRIMARY KEY, balance BIGINT)" in
  let st := CreateTableS (MkCreateTableStmt (str "acc")
    [MkColumnDef (str "id") INT; MkColumnDef (str "balance") BIGINT] (str "id")) in
  Parse sql = Some (inr st) ∧ statement_ok st.
Proof.
  intros sql st. assert (E : Parse sql = Some (inr st)) by (vm_compute; reflexivity).
  split; [exact E|exact (parse_well_formed sql st E)].
Defined.
