(* ===== verification/ParserRoundtrip.v ===== *)
(** * Every well-formed statement has a text

    A printer of statements as words of the language with spaces between them, and
    the proof that the parser reads the statement back. Floating-point literals are
    left out: their text is rounded. *)
From Stdlib Require Import Strings.Byte Strings.Ascii.
From stdpp Require Import base gmap strings list.
From Stdlib Require Import ZArith Lia.
From S2P Require Import Prelude Text Catalog Lexer Parser ParserProofs.
Local Open Scope Z_scope.

(** ** Words and their text *)

(** A token without its position. *)
Abbreviation word := (Token.Type_ * bytes)%type.
Definition shape (t : Token) : word := (tk_type t, tk_value t).

Definition symbols : list (bytes * Token.Type_) :=
  [(str "(", Token.LPAREN); (str ")", Token.RPAREN); (str ",", Token.COMMA); (str ";", Token.SEMICOLON);
   (str "*", Token.STAR); (str "+", Token.PLUS); (str "-", Token.MINUS); (str ".", Token.DOT); (str "=", Token.EQ);
   (str "!=", Token.NE); (str "<", Token.LT); (str "<=", Token.LE); (str ">", Token.GT); (str ">=", Token.GE)].

(** The words that are always spelled the same. *)
Definition fixed : list (bytes * Token.Type_) := keywords ++ symbols.
Definition kw (s : string) : word := (classify fixed (str s), str s).
Definition name_word (n : bytes) : word := (Token.IDENT, n).

(** A quote in a literal is doubled. *)
Fixpoint quote (s : bytes) : bytes :=
  match s with
  | [] => []
  | c :: s => if bool_decide (c = ch "'") then ch "'" :: ch "'" :: quote s else c :: quote s
  end.
Definition spell (w : word) : bytes :=
  if bool_decide (w.1 = Token.STRING_LIT) then ch "'" :: quote w.2 ++ [ch "'"] else w.2.
Definition text (ws : list word) : bytes := concat (map (λ w, spell w ++ [ch " "]) ws).

Definition word_ok (w : word) : Prop :=
  match w.1 with
  | Token.IDENT => name_ok w.2
  | Token.NUMBER_INT => w.2 ≠ [] ∧ forallb isdigit w.2 = true
  | Token.STRING_LIT => True
  | _ => (w.2, w.1) ∈ fixed
  end.

(** *** The tokenizer reads a word back *)

(** Finitely many cases, decided by evaluation. *)
Lemma keywords_read v ty : (v, ty) ∈ keywords →
  ClassifyKeyword (ToUpper v) = ty ∧ is_end ty = false ∧ ty ≠ Token.IDENT ∧ ty ≠ Token.STRING_LIT ∧
  ∃ c w, v = c :: w ∧ IsIdentStart c = true ∧ Forall (λ c, IsIdentCont c = true) (c :: w) ∧
    isspace c = false ∧ c ≠ ch "-".
Proof.
  intros H. unfold keywords in H. repeat (apply elem_of_cons in H as [H|H]; [injection H as -> ->; split_and!;
    [vm_compute; reflexivity|vm_compute; reflexivity|done|done|
     do 2 eexists; split_and!; [reflexivity|reflexivity|repeat constructor|reflexivity|done]]|]).
  by apply elem_of_nil in H.
Qed.
Lemma symbols_read v ty : (v, ty) ∈ symbols →
  is_end ty = false ∧ ty ≠ Token.STRING_LIT ∧
  ∃ c w, v = c :: w ∧ isspace c = false ∧ (c = ch "-" → w = []) ∧
    ∀ rest pos, lex_token c (w ++ ch " " :: rest) pos = Lexed (MkToken ty v pos) (ch " " :: rest).
Proof.
  intros H. unfold symbols in H. repeat (apply elem_of_cons in H as [H|H]; [injection H as -> ->; split_and!;
    [reflexivity|done|do 2 eexists; split_and!; [reflexivity|reflexivity|done|reflexivity]]|]).
  by apply elem_of_nil in H.
Qed.

Lemma lex_string_quote s rest : lex_string (quote s ++ ch "'" :: ch " " :: rest) = Some (s, ch " " :: rest).
Proof.
  induction s as [|c s IH]; [done|]. cbn [quote]. case_bool_decide as E.
  - subst. cbn [app lex_string]. rewrite !bool_decide_eq_true_2 by done. by rewrite IH.
  - cbn [app lex_string]. rewrite bool_decide_eq_false_2 by done. by rewrite IH.
Qed.

Lemma name_chars v : name_ok v → ∃ c w, v = c :: w ∧ IsIdentStart c = true ∧
  Forall (λ c, IsIdentCont c = true) v ∧ (tolower <$> v) = v ∧ ClassifyKeyword (ToUpper v) = Token.IDENT.
Proof.
  unfold name_ok, is_name. rewrite !andb_true_iff, !bool_decide_eq_true. intros [[[Hc HF] Hl] HK].
  destruct v as [|c w]; [done|]. exists c, w. split_and!; [done..| |done|done]. by apply forallb_Forall.
Qed.

Lemma lex_token_word v rest pos c w : v = c :: w → IsIdentStart c = true → Forall (λ c, IsIdentCont c = true) v →
  lex_token c (w ++ ch " " :: rest) pos =
  Lexed (MkToken (ClassifyKeyword (ToUpper v))
    (if bool_decide (ClassifyKeyword (ToUpper v) = Token.IDENT) then tolower <$> v else v) pos) (ch " " :: rest).
Proof.
  intros E Hc HF. unfold lex_token. rewrite Hc. unfold lex_word.
  change (c :: w ++ ch " " :: rest) with ((c :: w) ++ ch " " :: rest). rewrite <- E, span_app; [done|done|].
  by intros ? [= <-].
Qed.

Lemma start_not_space c : IsIdentStart c = true → isspace c = false ∧ c ≠ ch "-".
Proof. by destruct c. Qed.
Lemma digit_not_space c : isdigit c = true → isspace c = false ∧ c ≠ ch "-" ∧ IsIdentStart c = false ∧ c ≠ ch ".".
Proof. by destruct c. Qed.

Lemma spell_read ty v : word_ok (ty, v) → is_end ty = false ∧
  ∃ c w, spell (ty, v) = c :: w ∧ isspace c = false ∧ (c = ch "-" → w = []) ∧
    ∀ rest pos, lex_token c (w ++ ch " " :: rest) pos = Lexed (MkToken ty v pos) (ch " " :: rest).
Proof.
  unfold word_ok, spell. cbn [fst snd]. intros Hok.
  assert (Hfix : (v, ty) ∈ fixed → is_end ty = false ∧ ∃ c w,
    (if bool_decide (ty = Token.STRING_LIT) then ch "'" :: quote v ++ [ch "'"] else v) = c :: w ∧
    isspace c = false ∧ (c = ch "-" → w = []) ∧
    ∀ rest pos, lex_token c (w ++ ch " " :: rest) pos = Lexed (MkToken ty v pos) (ch " " :: rest)).
  { intros [Hk|Hs]%elem_of_app.
    - apply keywords_read in Hk as (HK & He & Hi & Hs & c & w & -> & Hc & HF & Hsp & Hm). split; [done|].
      rewrite bool_decide_eq_false_2 by done. exists c, w. split_and!; [done..|].
      intros rest pos. rewrite (lex_token_word (c :: w)) by done. by rewrite HK, bool_decide_eq_false_2.
    - apply symbols_read in Hs as (He & Hn & c & w & -> & ?). rewrite bool_decide_eq_false_2 by done.
      split; [done|]. by exists c, w. }
  destruct (decide (ty = Token.IDENT)) as [->|HnI].
  { apply name_chars in Hok as (c & w & E & Hc & HF & Hl & HK). split; [done|]. exists c, w.
    destruct (start_not_space c Hc). split_and!; [done..|]. intros rest pos.
    rewrite (lex_token_word v) by done. by rewrite HK, bool_decide_eq_true_2, Hl. }
  destruct (decide (ty = Token.NUMBER_INT)) as [->|HnN].
  { destruct Hok as [Hne HF]. destruct v as [|c w]; [done|]. split; [done|]. exists c, w. apply forallb_Forall in HF.
    inversion HF as [|? ? Hc Hw]; subst. destruct (digit_not_space c Hc) as (Hs & Hm & Hi & Hd).
    split_and!; [done..|]. intros rest pos. unfold lex_token. rewrite Hi, Hc. cbn [orb]. unfold lex_number.
    change (c :: w ++ ch " " :: rest) with ((c :: w) ++ ch " " :: rest). rewrite span_app; [|done|by intros ? [= <-]].
    cbn [starts_with app]. by rewrite (bool_decide_eq_false_2 (c = ch ".")). }
  destruct (decide (ty = Token.STRING_LIT)) as [->|HnS].
  { split; [done|]. rewrite bool_decide_eq_true_2 by done. do 2 eexists. split_and!; [done..|].
    intros rest pos. unfold lex_token. cbn. rewrite <- app_assoc. cbn [app]. by rewrite lex_string_quote. }
  destruct ty; done || by apply Hfix.
Qed.

Lemma SkipWs_word c w rest i : isspace c = false → (c = ch "-" → w = []) →
  SkipWsAndComments false (c :: w ++ ch " " :: rest) i = (c :: w ++ ch " " :: rest, i).
Proof.
  intros Hs Hm. cbn [SkipWsAndComments]. rewrite Hs. case_bool_decide as E; [|done]. rewrite (Hm E). done.
Qed.
Lemma SkipWs_space s i : SkipWsAndComments false (ch " " :: s) i = SkipWsAndComments false s (i + 1).
Proof. done. Qed.

Definition leading (lead : bool) : bytes := if lead then [ch " "] else [].
Lemma tokenize_text ws (lead : bool) fuel i : Forall word_ok ws → (length ws < fuel)%nat →
  ∃ ts e, tokenize fuel (leading lead ++ text ws) i = Some (ts ++ [e]) ∧
    shape <$> ts = ws ∧ tk_type e = Token.END_OF_INPUT.
Proof.
  revert lead fuel i. induction ws as [|[ty v] ws IH]; intros lead [|fuel] i HF Hf; [cbn in Hf; lia| |cbn in Hf; lia|].
  { exists [], (MkToken Token.END_OF_INPUT [] (if lead then i + 1 else i)). by destruct lead. }
  inversion HF as [|? ? Hw HF']; subst. cbn in Hf.
  destruct (spell_read ty v Hw) as (_ & c & w & Es & Hs & Hm & Hlex).
  assert (Et : text ((ty, v) :: ws) = c :: w ++ ch " " :: text ws)
    by (unfold text; cbn [map concat]; by rewrite Es, <- app_assoc).
  assert (Ek : ∃ j, SkipWsAndComments false (leading lead ++ text ((ty, v) :: ws)) i =
    (c :: w ++ ch " " :: text ws, j)).
  { rewrite Et. destruct lead; cbn [app leading]; [rewrite SkipWs_space|]; rewrite SkipWs_word by done; by eexists. }
  destruct Ek as [j Ek]. cbn [tokenize]. rewrite Ek, Hlex.
  destruct (IH true fuel (j + Z.of_nat (S (length (w ++ ch " " :: text ws))) -
    Z.of_nat (length (ch " " :: text ws)))) as (ts & e & E & Hsh & He); [done|lia|].
  cbn [app leading] in E. rewrite E. exists (MkToken ty v j :: ts), e. cbn. by rewrite Hsh.
Qed.

Lemma Tokenize_text ws : Forall word_ok ws →
  ∃ ts e, Tokenize (text ws) = Some (ts ++ [e]) ∧ shape <$> ts = ws ∧ tk_type e = Token.END_OF_INPUT.
Proof.
  intros HF. apply (tokenize_text ws false); [done|]. induction HF as [|[ty v] ws Hw _ IH]; [cbn; lia|].
  destruct (spell_read ty v Hw) as (_ & c & w & Es & _). unfold text in *. cbn [map concat length].
  rewrite Es. cbn [length app]. rewrite !length_app. lia.
Qed.

(** ** What a parser reads *)

(** [p] reads the words [ws], before a token of a type that [F] allows, and its
    result has [R]. *)
Definition reads {A} (p : P A) (ws : list word) (R : A → Prop) (F : Token.Type_ → bool) : Prop :=
  ∀ ts t rest, shape <$> ts = ws → F (tk_type t) = true →
    ∃ a, p (ts ++ t :: rest) = Done a (t :: rest) ∧ R a.

Definition anything : Token.Type_ → bool := λ _, true.
Definition avoid (l : list Token.Type_) : Token.Type_ → bool := λ ty, negb (bool_decide (ty ∈ l)).
(** The type of the token after a parser, when the words [ws] and then a token of
    type [ty] follow. *)
Definition first (ws : list word) (ty : Token.Type_) : Token.Type_ := match ws with w :: _ => w.1 | [] => ty end.

Lemma reads_ret {A} (a : A) (R : A → Prop) F : R a → reads (mret a) [] R F.
Proof. intros HR ts t rest Hsh _. destruct ts; [|done]. by exists a. Qed.

Lemma reads_bind {A B} (p : P A) (f : A → P B) w1 w2 R1 R2 F1 F2 :
  reads p w1 R1 F1 → (∀ a, R1 a → reads (f a) w2 R2 F2) → (∀ ty, F2 ty = true → F1 (first w2 ty) = true) →
  reads (p ≫= f) (w1 ++ w2) R2 F2.
Proof.
  intros Hp Hf HF ts t rest Hsh Ht. apply fmap_app_inv in Hsh as (t1 & t2 & E1 & E2 & ->). symmetry in E1, E2.
  assert (Ht2 : ∃ u us, t2 ++ t :: rest = u :: us ∧ F1 (tk_type u) = true).
  { destruct t2 as [|u t2]; cbn in E2.
    - exists t, rest. split; [done|]. specialize (HF _ Ht). by rewrite <- E2 in HF.
    - exists u, (t2 ++ t :: rest). split; [done|]. specialize (HF _ Ht). by rewrite <- E2 in HF. }
  destruct Ht2 as (u & us & Eu & Hu). destruct (Hp t1 u us E1 Hu) as (a & Ea & HR).
  destruct (Hf a HR t2 t rest E2 Ht) as (b & Eb & HB). exists b. split; [|done].
  unfold mbind, P_bind. by rewrite <- app_assoc, Eu, Ea, <- Eu, Eb.
Qed.

Lemma skip_one u us : us ≠ [] → is_end (tk_type u) = false → skip_token (u :: us) = us.
Proof.
  intros Hne He. destruct us as [|u' us]; [done|]. unfold skip_token, AtEnd.
  change (peek (u :: u' :: us)) with u. rewrite <- orb_assoc. unfold is_end in He. rewrite He. done.
Qed.

Lemma reads_Advance ty v F : is_end ty = false → reads Advance [(ty, v)] (λ t, shape t = (ty, v)) F.
Proof.
  intros He ts t rest Hsh _. destruct ts as [|u [|]]; try done. cbn in Hsh. exists u. injection Hsh as Ety Ev.
  unfold Advance. cbn [app]. rewrite skip_one by (done || by rewrite Ety). split; [done|]. by rewrite <- Ety, <- Ev.
Qed.
(** [Peek] when there are words to read. *)
Lemma reads_Peek {A} (f : Token → P A) w ws R F : (∀ t, shape t = w → reads (f t) (w :: ws) R F) →
  reads (Peek ≫= f) (w :: ws) R F.
Proof.
  intros Hf ts t rest Hsh Ht. destruct ts as [|u ts]; [done|]. cbn in Hsh. injection Hsh as Eu Es.
  apply (Hf u Eu (u :: ts)); [cbn; congruence|done].
Qed.
Lemma reads_Expect ty v F : is_end ty = false → reads (Expect ty) [(ty, v)] (λ t, shape t = (ty, v)) F.
Proof.
  intros He. apply reads_Peek. intros t Et. rewrite bool_decide_eq_true_2 by (by injection Et).
  eapply (reads_bind Advance _ [(ty, v)] [] _ _ anything); [by apply reads_Advance| |done].
  intros _ _. by apply reads_ret.
Qed.
Lemma reads_Match_yes ty v F : is_end ty = false → reads (Match_ ty) [(ty, v)] (λ b, b = true) F.
Proof.
  intros He. apply reads_Peek. intros t Et. rewrite bool_decide_eq_true_2 by (by injection Et).
  eapply (reads_bind Advance _ [(ty, v)] [] _ _ anything); [by apply reads_Advance| |done].
  intros _ _. by apply reads_ret.
Qed.
Lemma reads_Match_no ty F : (∀ ty', F ty' = true → ty' ≠ ty) → reads (Match_ ty) [] (λ b, b = false) F.
Proof.
  intros HF ts t rest Hsh Ht. destruct ts; [|done]. exists false. unfold Match_, mbind, P_bind, Peek. cbn [app].
  split; [|done]. change (peek (t :: rest)) with t. by rewrite bool_decide_eq_false_2 by (by apply HF).
Qed.

(** A list of items with separators. *)
Definition sep_rest {A} (sep : word) (words : A → list word) (xs : list A) : list word :=
  concat (map (λ x, sep :: words x) xs).
Definition sep_words {A} (sep : word) (words : A → list word) (xs : list A) : list word :=
  match xs with [] => [] | x :: xs => words x ++ sep_rest sep words xs end.

Section SepItems.
Context {A} (sep : Token.Type_) (sv : bytes) (item : P A) (words : A → list word).
Context (Fi F : Token.Type_ → bool).
Context (Hend : is_end sep = false) (Hsep : Fi sep = true) (HF : ∀ ty, F ty = true → Fi ty = true ∧ ty ≠ sep).

Lemma reads_many xs : Forall (λ x, reads item (words x) (λ y, y = x) Fi) xs →
  ∀ fuel acc, (length xs < fuel)%nat →
  reads (many fuel sep item acc) (sep_rest (sep, sv) words xs) (λ l, l = acc ++ xs) F.
Proof.
  induction 1 as [|x xs Hx _ IH]; intros [|fuel] acc Hf; cbn [length] in Hf; [lia| |lia|]; cbn [many].
  - apply (reads_bind (Match_ sep) _ [] [] (λ b, b = false) _ F); [| |done].
    + apply reads_Match_no. intros ty Hty. by apply HF.
    + intros b ->. apply reads_ret. by rewrite app_nil_r.
  - apply (reads_bind (Match_ sep) _ [(sep, sv)] _ (λ b, b = true) _ anything); [by apply reads_Match_yes| |done].
    intros b ->. eapply reads_bind; [exact Hx| |].
    + intros ? ->. specialize (IH fuel (acc ++ [x]) ltac:(lia)). rewrite <- app_assoc in IH. exact IH.
    + intros ty Hty. destruct xs; cbn; [by apply HF|done].
Qed.
Lemma reads_some_items xs : xs ≠ [] → Forall (λ x, reads item (words x) (λ y, y = x) Fi) xs →
  reads (some_items sep item) (sep_words (sep, sv) words xs) (λ l, l = xs) F.
Proof.
  intros Hne HI. destruct xs as [|x xs]; [done|]. inversion HI as [|? ? Hx HI']; subst. cbn [sep_words].
  eapply reads_bind; [exact Hx| |].
  - intros ? ->. intros ts t rest Hsh Ht. unfold loop. eapply (reads_many xs HI' _ [x]); [|done|done].
    apply (f_equal length) in Hsh. rewrite length_fmap in Hsh. rewrite length_app, Hsh. cbn [length]. clear.
    induction xs as [|y xs IH]; [cbn; lia|]. unfold sep_rest in *. cbn [map concat length app]. rewrite length_app. lia.
  - intros ty Hty. destruct xs; cbn; [by apply HF|done].
Qed.
End SepItems.

(** *** Rules for the steps of the grammar *)

Lemma read_expect {A} ty v (f : Token → P A) ws R F : is_end ty = false →
  (∀ t, shape t = (ty, v) → reads (f t) ws R F) → reads (Expect ty ≫= f) ((ty, v) :: ws) R F.
Proof. intros He Hf. eapply (reads_bind _ _ [(ty, v)] _ _ _ anything); [by apply reads_Expect|done|done]. Qed.
Lemma read_advance {A} ty v (f : Token → P A) ws R F : is_end ty = false →
  (∀ t, shape t = (ty, v) → reads (f t) ws R F) → reads (Advance ≫= f) ((ty, v) :: ws) R F.
Proof. intros He Hf. eapply (reads_bind _ _ [(ty, v)] _ _ _ anything); [by apply reads_Advance|done|done]. Qed.
Lemma read_yes {A} ty v (f : bool → P A) ws R F : is_end ty = false →
  reads (f true) ws R F → reads (Match_ ty ≫= f) ((ty, v) :: ws) R F.
Proof.
  intros He Hf. eapply (reads_bind _ _ [(ty, v)] _ _ _ anything); [by apply reads_Match_yes| |done]. by intros b ->.
Qed.
Lemma read_no {A} ty (f : bool → P A) ws R F : (∀ ty', F ty' = true → first ws ty' ≠ ty) →
  reads (f false) ws R F → reads (Match_ ty ≫= f) ws R F.
Proof.
  intros HF Hf. eapply (reads_bind _ _ [] _ (λ b, b = false) _ (avoid [ty])).
  - apply reads_Match_no. intros ty' Hty. unfold avoid in Hty. rewrite negb_true_iff, bool_decide_eq_false in Hty.
    set_solver.
  - by intros b ->.
  - intros ty' Hty. unfold avoid. rewrite negb_true_iff, bool_decide_eq_false. specialize (HF _ Hty). set_solver.
Qed.
(** A parser whose result is known. *)
Lemma read_known {A B} (p : P A) (f : A → P B) w1 w2 a R F1 F :
  reads p w1 (λ y, y = a) F1 → reads (f a) w2 R F → (∀ ty, F ty = true → F1 (first w2 ty) = true) →
  reads (p ≫= f) (w1 ++ w2) R F.
Proof. intros Hp Hf. eapply reads_bind; [done|]. by intros ? ->. Qed.
Lemma reads_mono {A} (p : P A) ws (R R' : A → Prop) (F F' : Token.Type_ → bool) : reads p ws R F →
  (∀ a, R a → R' a) → (∀ ty, F' ty = true → F ty = true) → reads p ws R' F'.
Proof. intros H HR HF ts t rest Hs Ht. destruct (H ts t rest Hs (HF _ Ht)) as (a & ? & ?). eauto. Qed.

Lemma avoid_true l ty : avoid l ty = true ↔ ty ∉ l.
Proof. unfold avoid. by rewrite negb_true_iff, bool_decide_eq_false. Qed.
Lemma read_list {A} sep sv (item : P A) words l xs : is_end sep = false → sep ∉ l → xs ≠ [] →
  Forall (λ x, reads item (words x) (λ y, y = x) (avoid l)) xs →
  reads (some_items sep item) (sep_words (sep, sv) words xs) (λ y, y = xs) (avoid (sep :: l)).
Proof.
  intros He Hl Hne HI. apply (reads_some_items _ _ _ _ (avoid l)); [done|by apply avoid_true| |done|done].
  intros ty Hty. apply avoid_true in Hty. split; [apply avoid_true|]; set_solver.
Qed.

(** ** The printer *)

Fixpoint split_dots (s : bytes) : list bytes :=
  match s with
  | [] => [[]]
  | c :: s =>
      if bool_decide (c = ch ".") then [] :: split_dots s
      else match split_dots s with p :: ps => (c :: p) :: ps | [] => [[c]] end
  end.

Definition column_words (c : bytes) : list word := sep_words (kw ".") (λ n, [name_word n]) (split_dots c).
Definition literal_words (l : LiteralExpr) : list word :=
  match l with
  | LitInt v => [(Token.NUMBER_INT, dec v)]
  | LitString s => [(Token.STRING_LIT, s)]
  | LitDouble _ => []
  end.
Definition op_word (op : CompareOp.t) : word :=
  match op with
  | CompareOp.EQ => kw "=" | CompareOp.NE => kw "!=" | CompareOp.LT => kw "<"
  | CompareOp.LE => kw "<=" | CompareOp.GT => kw ">" | CompareOp.GE => kw ">="
  end.
Definition compare_words (c : CompareExpr) : list word :=
  column_words (ce_column c) ++ op_word (ce_op c) :: literal_words (ce_value c).
Definition where_words (w : WhereClause) : list word := sep_words (kw "AND") compare_words w.

Definition type_word (ty : ColumnType) : word :=
  match ty with INT => kw "INT" | BIGINT => kw "BIGINT" | FLOAT => kw "FLOAT" | VARCHAR => kw "VARCHAR" end.
Definition column_def_words (pk : bytes) (c : ColumnDef) : list word :=
  name_word (c_name c) :: type_word (c_type c) ::
  (if bool_decide (c_name c = pk) then [kw "PRIMARY"; kw "KEY"] else []).

Definition agg_word (f : AggFunc) : word :=
  match f with COUNT => kw "COUNT" | SUM => kw "SUM" | MIN => kw "MIN" | MAX => kw "MAX" end.
Definition item_words (x : Aggregate + bytes) : list word :=
  match x with
  | inl a => agg_word (ag_func a) :: kw "(" :: (if ag_star a then [kw "*"] else column_words (ag_column a)) ++ [kw ")"]
  | inr c => column_words c
  end.
Definition items_of (s : SelectStmt) : list (Aggregate + bytes) := (inr <$> se_columns s) ++ (inl <$> aggregates s).
Definition join_words (j : JoinClause) : list word :=
  kw "JOIN" :: column_words (jc_table_name j) ++ kw "ON" :: column_words (left_column j) ++
    kw "=" :: column_words (right_column j).
Definition order_words (o : bytes * bool) : list word :=
  kw "ORDER" :: kw "BY" :: column_words o.1 ++ (if o.2 then [kw "DESC"] else []).
Definition limit_words (v : Z) : list word := [kw "LIMIT"; (Token.NUMBER_INT, dec v)].

Definition assignment_words (a : Assignment) : list word :=
  name_word (as_column a) :: kw "=" ::
  match as_value a with
  | inl x => name_word (ae_column x) :: (match ae_op x with ADD => kw "+" | SUB => kw "-" end) :: literal_words (ae_operand x)
  | inr l => literal_words l
  end.

Definition statement_words (st : Statement) : list word :=
  match st with
  | CreateTableS s =>
      kw "CREATE" :: kw "TABLE" :: name_word (ct_table_name s) :: kw "(" ::
      sep_words (kw ",") (column_def_words (ct_primary_key s)) (ct_columns s) ++ [kw ")"]
  | InsertS s =>
      kw "INSERT" :: kw "INTO" :: name_word (in_table_name s) :: kw "(" ::
      sep_words (kw ",") (λ n, [name_word n]) (in_columns s) ++ kw ")" :: kw "VALUES" :: kw "(" ::
      sep_words (kw ",") literal_words (in_values s) ++ [kw ")"]
  | SelectS s =>
      kw "SELECT" :: (if select_all s then [kw "*"] else sep_words (kw ",") item_words (items_of s)) ++
      kw "FROM" :: column_words (se_table_name s) ++ from_option join_words [] (se_join s) ++
      from_option (λ w, kw "WHERE" :: where_words w) [] (se_where s) ++
      from_option order_words [] (order_by s) ++ from_option limit_words [] (limit s)
  | UpdateS s =>
      kw "UPDATE" :: name_word (up_table_name s) :: kw "SET" ::
      sep_words (kw ",") assignment_words (assignments s) ++ kw "WHERE" :: where_words (up_where s)
  | DeleteS s => kw "DELETE" :: kw "FROM" :: name_word (de_table_name s) :: kw "WHERE" :: where_words (de_where s)
  | BeginS => [kw "BEGIN"]
  | CommitS => [kw "COMMIT"]
  | RollbackS => [kw "ROLLBACK"]
  end.
Definition print_statement (st : Statement) : bytes := text (statement_words st).

Example print_insert :
  print_statement (InsertS (MkInsertStmt (str "acc") [str "id"; str "name"] [LitInt 7; LitString (str "it's")])) =
  str "INSERT INTO acc ( id , name ) VALUES ( 7 , 'it''s' ) ".
Proof. vm_compute. reflexivity. Qed.

(** Statements without floating-point literals. *)
Definition is_exact (l : LiteralExpr) : Prop := match l with LitDouble _ => False | _ => True end.
Definition where_exact (w : WhereClause) : Prop := Forall (λ c, is_exact (ce_value c)) w.
Definition statement_exact (st : Statement) : Prop :=
  match st with
  | InsertS s => Forall is_exact (in_values s)
  | SelectS s => from_option where_exact True (se_where s)
  | UpdateS s =>
      Forall (λ a, match as_value a with inl x => is_exact (ae_operand x) | inr l => is_exact l end) (assignments s) ∧
      where_exact (up_where s)
  | DeleteS s => where_exact (de_where s)
  | _ => True
  end.

(** ** The parser reads every clause back *)

Lemma reads_ident n F : reads ident [name_word n] (λ y, y = n) F.
Proof. apply read_expect; [done|]. intros t [= _ Ev]. by apply reads_ret. Qed.

Lemma join_dots_cons p ps : join_dots (p :: ps) = p ++ concat (map (cons (ch ".")) ps).
Proof.
  cbn [join_dots]. revert p. induction ps as [|q ps IH]; intros p; cbn [foldl map concat]; [by rewrite app_nil_r|].
  by rewrite IH, <- app_assoc.
Qed.
Lemma split_dots_app p s : Forall (λ c, c ≠ ch ".") p →
  split_dots (p ++ s) = match split_dots s with q :: qs => (p ++ q) :: qs | [] => [p] end.
Proof.
  induction 1 as [|c p Hc _ IH]; cbn [app split_dots]; [by destruct s as [|c s]; cbn; [|case_bool_decide; [|case_match]]|].
  rewrite bool_decide_eq_false_2, IH by done. by destruct (split_dots s).
Qed.
Lemma split_join_dots parts : parts ≠ [] → Forall name_ok parts → split_dots (join_dots parts) = parts.
Proof.
  assert (Hd : ∀ p, name_ok p → Forall (λ c, c ≠ ch ".") p).
  { intros p (c & w & _ & _ & HF & _)%name_chars. eapply Forall_impl; [exact HF|]. by intros d Hd ->. }
  intros Hne HF. destruct parts as [|p ps]; [done|]. rewrite join_dots_cons. clear Hne.
  revert p HF. induction ps as [|q ps IH]; intros p HF; inversion HF as [|? ? Hp HF']; subst;
    rewrite split_dots_app by auto; cbn [map concat app split_dots]; [by rewrite app_nil_r|].
  rewrite bool_decide_eq_true_2 by done. by rewrite IH, app_nil_r.
Qed.

Lemma reads_ParseColumnRef c : column_ref_ok c →
  reads ParseColumnRef (column_words c) (λ y, y = c) (avoid [Token.DOT]).
Proof.
  intros (parts & Hne & HF & ->). unfold column_words, ParseColumnRef. rewrite split_join_dots by done.
  rewrite <- (app_nil_r (sep_words _ _ _)).
  eapply read_known; [apply (read_list Token.DOT _ _ _ []); [done|set_solver|done|]| |done].
  - apply Forall_true. intros n. apply reads_ident.
  - by apply reads_ret.
Qed.
Lemma first_column c ty : column_ref_ok c → first (column_words c) ty = Token.IDENT.
Proof.
  intros (parts & Hne & HF & ->). unfold column_words. rewrite split_join_dots by done. by destruct parts.
Qed.

Lemma reads_ParseLiteral l F : literal_ok l → is_exact l → reads ParseLiteral (literal_words l) (λ y, y = l) F.
Proof.
  intros Hok Hex. destruct l as [v|d|s]; [|done|]; apply reads_Peek; intros t [= Et Ev]; rewrite Et;
    (apply read_advance; [done|]; intros _ _); rewrite Ev; [rewrite ParseInt64_dec by done|]; by apply reads_ret.
Qed.
Lemma reads_ParseCompare c : compare_ok c → is_exact (ce_value c) →
  reads ParseCompare (compare_words c) (λ y, y = c) (avoid []).
Proof.
  intros [Hc Hl] Hex. unfold ParseCompare, compare_words.
  eapply read_known; [by apply reads_ParseColumnRef| |by destruct c as [? [] ?]].
  apply reads_Peek. intros t Et. replace (compare_op (tk_type t)) with (Some (ce_op c))
    by (destruct c as [? [] ?]; by injection Et as ->).
  assert (He : is_end (op_word (ce_op c)).1 = false) by (by destruct c as [? [] ?]).
  destruct (op_word (ce_op c)) as [oty ov]. apply read_advance; [done|]. intros _ _.
  rewrite <- (app_nil_r (literal_words _)). eapply read_known; [by apply (reads_ParseLiteral _ anything)| |done].
  apply reads_ret. by destruct c.
Qed.
Lemma reads_ParseWhere w : where_ok w → where_exact w →
  reads ParseWhere (where_words w) (λ y, y = w) (avoid [Token.KW_AND]).
Proof.
  intros [Hne HF] Hex. apply (read_list Token.KW_AND); [done|set_solver|done|].
  unfold where_exact in Hex. rewrite Forall_forall in HF, Hex |- *. intros c Hc. apply reads_ParseCompare; auto.
Qed.

Lemma reads_column_def pk c : reads column_def (column_def_words pk c)
  (λ y, y = (c, bool_decide (c_name c = pk))) (avoid [Token.LPAREN; Token.KW_PRIMARY]).
Proof.
  unfold column_def, column_def_words. apply reads_Peek. intros t [= Et Ev].
  rewrite bool_decide_eq_true_2 by done. cbn [negb]. apply read_advance; [done|]. intros _ _.
  set (tail := if bool_decide (c_name c = pk) then [kw "PRIMARY"; kw "KEY"] else []).
  assert (Hty : reads column_type [type_word (c_type c)] (λ y, y = c_type c) (avoid [Token.LPAREN])).
  { apply reads_Peek. intros t' Et'.
    destruct (c_type c); injection Et' as Et' _; rewrite Et'; (apply read_advance; [done|]); intros _ _; try by apply reads_ret.
    apply read_no; [|by apply reads_ret]. intros ty ?%avoid_true. set_solver. }
  change (type_word (c_type c) :: tail) with ([type_word (c_type c)] ++ tail).
  eapply read_known; [exact Hty| |].
  - rewrite Ev. subst tail. case_bool_decide.
    + apply read_yes; [done|]. apply read_expect; [done|]. intros _ _. apply reads_ret. by destruct c.
    + apply read_no; [|apply reads_ret; by destruct c]. intros ty ?%avoid_true. set_solver.
  - intros ty Hty'%avoid_true. subst tail. case_bool_decide; [done|]. apply avoid_true. set_solver.
Qed.

(** The primary key after the columns: the last that is marked. *)
Lemma reads_column_defs pk fuel cols acc k0 : cols ≠ [] → (length cols ≤ fuel)%nat →
  reads (column_defs fuel acc k0) (sep_words (kw ",") (column_def_words pk) cols ++ [kw ")"])
    (λ y, y = (acc ++ cols, if bool_decide (pk ∈ (c_name <$> cols)) then pk else k0)) anything.
Proof.
  revert fuel acc k0. induction cols as [|c cols IH]; intros [|fuel] acc k0 Hne Hf; cbn [length] in Hf; [done|done|lia|].
  cbn [sep_words column_defs]. rewrite <- app_assoc.
  eapply read_known; [apply (reads_column_def pk)| |by destruct cols]. cbn beta iota zeta.
  set (k1 := if bool_decide (c_name c = pk) then c_name c else k0). destruct cols as [|d cols].
  - cbn [sep_rest map concat app]. apply read_yes; [done|]. apply reads_ret. f_equal. subst k1. cbn.
    repeat case_bool_decide; set_solver.
  - cbn [sep_rest map concat app]. apply read_no; [done|]. apply read_expect; [done|]. intros _ _.
    specialize (IH fuel (acc ++ [c]) k1 ltac:(done) ltac:(cbn [length] in *; lia)).
    eapply reads_mono; [exact IH| |done]. intros y ->. rewrite <- app_assoc. f_equal. subst k1.
    rewrite !fmap_cons. repeat case_bool_decide; set_solver.
Qed.

Definition final : Token.Type_ → bool := λ ty, bool_decide (ty = Token.END_OF_INPUT).
Lemma final_eq ty : final ty = true → ty = Token.END_OF_INPUT.
Proof. apply bool_decide_eq_true. Qed.

Lemma length_sep_words {A} sep (words : A → list word) xs : (∀ x, words x ≠ []) →
  (length xs ≤ length (sep_words sep words xs))%nat.
Proof.
  intros Hw. destruct xs as [|x xs]; cbn [sep_words length]; [lia|]. specialize (Hw x). rewrite length_app.
  assert (length xs ≤ length (sep_rest sep words xs))%nat.
  { clear Hw x. unfold sep_rest. induction xs as [|y xs IH]; cbn [map concat length app]; [lia|]. rewrite length_app. lia. }
  destruct (words x); cbn [length] in *; [done|lia].
Qed.

Lemma reads_ParseCreateTable s : statement_ok (CreateTableS s) →
  reads ParseCreateTable (statement_words (CreateTableS s)) (λ y, y = s) final.
Proof.
  intros (Hn & HF & Hpk). unfold ParseCreateTable, statement_words.
  assert (Hne : ct_columns s ≠ []) by (intros E; rewrite E in Hpk; set_solver).
  do 2 (apply read_expect; [done|]; intros _ _). apply read_expect; [done|]. intros name [= _ Ename].
  apply read_expect; [done|]. intros _ _.
  rewrite <- (app_nil_r (_ ++ [kw ")"])).
  eapply (read_known (loop _) _ _ _ _ _ anything); [| |done].
  - intros ts t rest Hsh Ht. unfold loop. eapply reads_column_defs; [done| |exact Hsh|done].
    apply (f_equal length) in Hsh. rewrite length_fmap, length_app in Hsh. rewrite length_app, Hsh.
    pose proof (length_sep_words (kw ",") (column_def_words (ct_primary_key s)) (ct_columns s)). cbn [length].
    assert (length (ct_columns s) ≤ length (sep_words (kw ",") (column_def_words (ct_primary_key s)) (ct_columns s)))%nat
      by auto. lia.
  - cbn beta iota. rewrite (bool_decide_eq_true_2 (ct_primary_key s ∈ _)) by done. rewrite bool_decide_eq_false_2.
    + apply reads_ret. rewrite Ename. by destruct s.
    + intros E. rewrite E in Hpk. apply list_elem_of_fmap in Hpk as (c & Ec & Hc). rewrite Forall_forall in HF.
      specialize (HF c Hc). by rewrite <- Ec in HF.
Qed.

Lemma reads_ParseInsert s : statement_ok (InsertS s) → statement_exact (InsertS s) →
  reads ParseInsert (statement_words (InsertS s)) (λ y, y = s) final.
Proof.
  intros (Hn & Hne & Hc & Hv & Hl) Hex. unfold ParseInsert, statement_words.
  do 2 (apply read_expect; [done|]; intros _ _). apply read_expect; [done|]. intros tn [= _ En].
  apply read_expect; [done|]. intros _ _.
  eapply read_known; [apply (read_list Token.COMMA _ _ _ []); [done|set_solver|done|]| |done].
  { apply Forall_true. intros n. apply reads_ident. }
  do 3 (apply read_expect; [done|]; intros _ _).
  eapply read_known; [apply (read_list Token.COMMA _ _ _ []); [done|set_solver| |]| |done].
  { intros E. rewrite E in Hl. by destruct (in_columns s). }
  { unfold statement_exact in Hex. rewrite Forall_forall in Hv, Hex |- *. intros l Hin. apply reads_ParseLiteral; auto. }
  apply read_expect; [done|]. intros _ _. rewrite Hl, Nat.eqb_refl. apply reads_ret. rewrite En. by destruct s.
Qed.

Lemma reads_select_item x : item_ok x → reads select_item (item_words x) (λ y, y = x) (avoid [Token.DOT]).
Proof.
  intros Hok. unfold select_item. destruct x as [a|c]; cbn [item_words item_ok] in *.
  - apply reads_Peek. intros t Et. replace (agg_func (tk_type t)) with (Some (ag_func a))
      by (destruct a as [[] ? ?]; by injection Et as ->).
    assert (He : is_end (agg_word (ag_func a)).1 = false) by (by destruct a as [[] ? ?]).
    destruct (agg_word (ag_func a)) as [aty av]. apply read_advance; [done|]. intros _ _.
    apply read_expect; [done|]. intros _ _. unfold aggregate_ok in Hok. destruct (ag_star a) eqn:Es.
    + cbn [app]. apply read_yes; [done|]. apply (read_known (mret []) _ [] _ [] _ anything); [by apply reads_ret| |done].
      apply read_expect; [done|]. intros _ _. apply reads_ret. destruct a; cbn in *; by subst.
    + apply read_no.
      { intros ty _. destruct (column_words (ag_column a)) eqn:E; [done|]. pose proof (first_column _ ty Hok) as Hf.
        rewrite E in Hf. cbn in Hf |- *. by rewrite Hf. }
      eapply read_known; [by apply reads_ParseColumnRef| |done].
      apply read_expect; [done|]. intros _ _. apply reads_ret. destruct a; cbn in *; by subst.
  - pose proof (first_column c Token.DOT Hok) as Hf. destruct (column_words c) as [|w ws] eqn:E; [done|].
    apply reads_Peek. intros t Et. replace (agg_func (tk_type t)) with (@None AggFunc)
      by (cbn in Hf; rewrite <- Et in Hf; cbn in Hf; by rewrite Hf).
    rewrite <- E, <- (app_nil_r (column_words c)).
    eapply read_known; [by apply reads_ParseColumnRef|by apply reads_ret|done].
Qed.
Lemma items_of_back s : columns_of (items_of s) = se_columns s ∧ aggregates_of (items_of s) = aggregates s.
Proof.
  unfold items_of, columns_of, aggregates_of. rewrite !omap_app. split.
  - replace (omap _ (inl <$> aggregates s)) with (@nil bytes) by (induction (aggregates s); done).
    rewrite app_nil_r. induction (se_columns s) as [|c l IH]; cbn; [done|]. f_equal. exact IH.
  - replace (omap _ (inr <$> se_columns s)) with (@nil Aggregate) by (induction (se_columns s); done).
    cbn. induction (aggregates s) as [|c l IH]; cbn; [done|]. f_equal. exact IH.
Qed.

(** Closes a side condition on the token after a clause. *)
Ltac follow := intros ?ty ?Hty; first [apply avoid_true in Hty; try apply avoid_true | apply final_eq in Hty; subst];
  set_solver.

Lemma reads_join_clause j : join_ok j →
  reads join_clause (column_words (jc_table_name j) ++ kw "ON" :: column_words (left_column j) ++
    kw "=" :: column_words (right_column j)) (λ y, y = j) (avoid [Token.DOT]).
Proof.
  intros (H1 & H2 & H3). unfold join_clause. eapply read_known; [by apply reads_ParseColumnRef| |done].
  apply read_expect; [done|]. intros _ _. eapply read_known; [by apply reads_ParseColumnRef| |done].
  apply read_expect; [done|]. intros _ _. rewrite <- (app_nil_r (column_words (right_column j))).
  eapply read_known; [by apply reads_ParseColumnRef| |done]. apply reads_ret. by destruct j.
Qed.
Lemma reads_select_join o : from_option join_ok True o →
  reads select_join (from_option join_words [] o) (λ y, y = o) (avoid [Token.DOT; Token.KW_INNER; Token.KW_JOIN]).
Proof.
  intros Hok. unfold select_join. destruct o as [j|]; cbn [from_option].
  - apply read_no; [done|]. apply read_yes; [done|].
    rewrite <- (app_nil_r (_ ++ _ :: _)). eapply read_known; [by apply reads_join_clause|by apply reads_ret|follow].
  - apply read_no; [follow|]. apply read_no; [follow|]. by apply reads_ret.
Qed.
Lemma reads_select_where o : from_option where_ok True o → from_option where_exact True o →
  reads select_where (from_option (λ w, kw "WHERE" :: where_words w) [] o) (λ y, y = o)
    (avoid [Token.KW_AND; Token.KW_WHERE]).
Proof.
  intros Hok Hex. unfold select_where. destruct o as [w|]; cbn [from_option].
  - apply read_yes; [done|]. rewrite <- (app_nil_r (where_words w)).
    eapply read_known; [by apply reads_ParseWhere|by apply reads_ret|follow].
  - apply read_no; [follow|]. by apply reads_ret.
Qed.
Lemma reads_select_order o : from_option (λ o, column_ref_ok o.1) True o →
  reads select_order (from_option order_words [] o) (λ y, y = o)
    (avoid [Token.DOT; Token.KW_ORDER; Token.KW_DESC; Token.KW_ASC]).
Proof.
  intros Hok. unfold select_order. destruct o as [[c desc]|]; cbn [from_option] in *.
  - apply read_yes; [done|]. unfold order_words. cbn [fst snd] in *. apply read_expect; [done|]. intros _ _.
    eapply read_known; [by apply reads_ParseColumnRef| |].
    + destruct desc; [apply read_yes; [done|]; by apply reads_ret|].
      apply read_no; [follow|]. apply read_no; [follow|]. by apply reads_ret.
    + destruct desc; [done|follow].
  - apply read_no; [follow|]. by apply reads_ret.
Qed.
Lemma reads_select_limit o : from_option (λ v, 0 ≤ v ≤ INT64_MAX) True o →
  reads select_limit (from_option limit_words [] o) (λ y, y = o) (avoid [Token.KW_LIMIT]).
Proof.
  intros Hok. unfold select_limit. destruct o as [v|]; cbn [from_option] in *.
  - apply read_yes; [done|]. apply read_expect; [done|]. intros t [= _ Ev]. rewrite Ev, ParseInt64_dec by done.
    replace (v <? 0) with false by lia. by apply reads_ret.
  - apply read_no; [follow|]. by apply reads_ret.
Qed.

Lemma reads_select_items s : items_ok (select_all s) (se_columns s) (aggregates s) → select_all s = false →
  reads (some_items Token.COMMA select_item) (sep_words (kw ",") item_words (items_of s)) (λ y, y = items_of s)
    (avoid [Token.COMMA; Token.DOT]).
Proof.
  intros Hok Hs. rewrite Hs in Hok. destruct Hok as (Hne & Hc & Ha).
  apply (read_list Token.COMMA); [done|set_solver| |].
  - unfold items_of. intros [E1 E2]%app_nil. apply fmap_nil_inv in E1, E2. naive_solver.
  - unfold items_of. apply Forall_app_2; apply Forall_fmap; eapply Forall_impl; try eassumption;
      intros; by apply reads_select_item.
Qed.
Lemma first_items s : items_ok (select_all s) (se_columns s) (aggregates s) → select_all s = false →
  ∀ ws ty, first (sep_words (kw ",") item_words (items_of s) ++ ws) ty ≠ Token.STAR.
Proof.
  intros Hok Hs ws ty. rewrite Hs in Hok. destruct Hok as (Hne & Hc & Ha). unfold items_of.
  destruct (se_columns s) as [|c cols].
  - destruct (aggregates s) as [|[[] c b] aggs]; [naive_solver|done..].
  - inversion Hc as [|? ? Hc' _]; subst. cbn [fmap list_fmap app sep_words item_words].
    pose proof (first_column c Token.DOT Hc') as Hf. destruct (column_words c); [done|]. cbn in *. by rewrite Hf.
Qed.

Lemma reads_ParseSelect s : statement_ok (SelectS s) → statement_exact (SelectS s) →
  reads ParseSelect (statement_words (SelectS s)) (λ y, y = s) final.
Proof.
  intros (Hi & Ht & Hj & Hw & Ho & Hl) Hex. unfold ParseSelect, statement_words.
  set (tail := from_option join_words [] (se_join s) ++ _).
  assert (Htail : ∀ R, R s → ∀ items, columns_of items = se_columns s → aggregates_of items = aggregates s →
    reads (_ ← Expect Token.KW_FROM; table ← ParseColumnRef; join ← select_join; where_ ← select_where;
      order ← select_order; lim ← select_limit;
      mret (MkSelectStmt table (columns_of items) (select_all s) (aggregates_of items) join where_ order lim))
      (kw "FROM" :: column_words (se_table_name s) ++ tail) R final).
  { intros R HR items Hc Ha. apply read_expect; [done|]. intros _ _. subst tail.
    eapply read_known; [by apply reads_ParseColumnRef| |].
    2: { intros ty ->%final_eq. by destruct (se_join s), (se_where s), (order_by s), (limit s). }
    eapply read_known; [by apply reads_select_join| |].
    2: { intros ty ->%final_eq. by destruct (se_where s), (order_by s), (limit s). }
    eapply read_known; [by apply reads_select_where| |].
    2: { intros ty ->%final_eq. by destruct (order_by s), (limit s). }
    eapply read_known; [by apply reads_select_order| |].
    2: { intros ty ->%final_eq. by destruct (limit s). }
    rewrite <- (app_nil_r (from_option limit_words _ _)).
    eapply read_known; [by apply reads_select_limit| |by intros ty ->%final_eq].
    apply reads_ret. rewrite Hc, Ha. by destruct s. }
  apply read_expect; [done|]. intros _ _. destruct (select_all s) eqn:Es.
  - apply read_yes; [done|]. destruct Hi as [Ec Ea].
    apply (read_known (mret []) _ [] _ [] _ anything); [by apply reads_ret| |done]. by apply Htail.
  - apply read_no; [intros ty _; apply first_items; by rewrite Es|].
    eapply read_known; [apply reads_select_items; by rewrite ?Es| |done].
    destruct (items_of_back s). by apply Htail.
Qed.

Lemma reads_assignment a : assignment_ok a →
  match as_value a with inl x => is_exact (ae_operand x) | inr l => is_exact l end →
  reads assignment (assignment_words a) (λ y, y = a) (avoid []).
Proof.
  intros [Hn Hv] Hex. unfold assignment, assignment_words.
  eapply (read_known ident _ [_] _ _ _ anything); [apply reads_ident| |done]. apply read_expect; [done|]. intros _ _.
  destruct (as_value a) as [x|l] eqn:Ea.
  - destruct Hv as [Hx Hl]. apply reads_Peek. intros t [= Et _]. rewrite bool_decide_eq_true_2 by done. cbn [negb].
    apply read_advance; [done|]. intros id [= _ Eid]. apply reads_Peek. intros op Eop.
    set (ow := match ae_op x with ADD => kw "+" | SUB => kw "-" end) in *.
    assert (Ho : bool_decide (tk_type op = Token.PLUS) || bool_decide (tk_type op = Token.MINUS) = true ∧
      (if bool_decide (tk_type op = Token.PLUS) then ADD else SUB) = ae_op x ∧ is_end ow.1 = false)
      by (subst ow; by destruct (ae_op x); injection Eop as ->).
    destruct Ho as (-> & Ho & He). destruct ow as [oty ov]. apply read_advance; [done|]. intros _ _.
    rewrite <- (app_nil_r (literal_words _)). eapply read_known; [by apply (reads_ParseLiteral _ anything)| |done].
    apply reads_ret. rewrite Ho, Eid. destruct a, x. cbn in *. by subst.
  - assert (Hl : ∃ w, literal_words l = [w] ∧ w.1 ≠ Token.IDENT)
      by (destruct l; [by eexists|done|by eexists]).
    destruct Hl as (w & El & Hw). rewrite El. apply reads_Peek. intros t Et.
    rewrite bool_decide_eq_false_2 by (by rewrite <- Et in Hw). cbn [negb].
    rewrite <- El, <- (app_nil_r (literal_words l)).
    eapply read_known; [by apply (reads_ParseLiteral _ anything)| |done]. apply reads_ret. destruct a. cbn in *. by subst.
Qed.
Lemma reads_ParseUpdate s : statement_ok (UpdateS s) → statement_exact (UpdateS s) →
  reads ParseUpdate (statement_words (UpdateS s)) (λ y, y = s) final.
Proof.
  intros (Hn & Hne & Ha & Hw) [Hea Hew]. unfold ParseUpdate, statement_words. apply read_expect; [done|]. intros _ _.
  eapply (read_known ident _ [_] _ _ _ anything); [apply reads_ident| |done]. apply read_expect; [done|]. intros _ _.
  eapply read_known; [apply (read_list Token.COMMA _ _ _ []); [done|set_solver|done|]| |done].
  { rewrite Forall_forall in Ha, Hea |- *. intros a Hin. apply reads_assignment; [by apply Ha|exact (Hea a Hin)]. }
  apply read_expect; [done|]. intros _ _. rewrite <- (app_nil_r (where_words _)).
  eapply read_known; [by apply reads_ParseWhere| |by intros ty ->%final_eq]. apply reads_ret. by destruct s.
Qed.
Lemma reads_ParseDelete s : statement_ok (DeleteS s) → statement_exact (DeleteS s) →
  reads ParseDelete (statement_words (DeleteS s)) (λ y, y = s) final.
Proof.
  intros [Hn Hw] Hew. unfold ParseDelete, statement_words. do 2 (apply read_expect; [done|]; intros _ _).
  eapply (read_known ident _ [_] _ _ _ anything); [apply reads_ident| |done]. apply read_expect; [done|]. intros _ _.
  rewrite <- (app_nil_r (where_words _)).
  eapply read_known; [by apply reads_ParseWhere| |by intros ty ->%final_eq]. apply reads_ret. by destruct s.
Qed.

Lemma reads_ParseStatement st : statement_ok st → statement_exact st →
  reads ParseStatement (statement_words st) (λ y, y = st) final.
Proof.
  intros Hok Hex. unfold ParseStatement.
  assert (HC : ∀ {A} (p : P A) ws (a : A) (f : A → Statement), reads p ws (λ y, y = a) final → st = f a →
    reads (s ← p; mret (f s)) ws (λ y, y = st) final).
  { intros A p ws a f Hp E. rewrite <- (app_nil_r ws). eapply read_known; [exact Hp|by apply reads_ret|done]. }
  destruct st as [s|s|s|s|s| | |]; apply reads_Peek; intros t Et; injection Et as Et _; rewrite Et.
  - by eapply HC; [apply reads_ParseCreateTable|].
  - by eapply HC; [apply reads_ParseInsert|].
  - by eapply HC; [apply reads_ParseSelect|].
  - by eapply HC; [apply reads_ParseUpdate|].
  - by eapply HC; [apply reads_ParseDelete|].
  - apply read_advance; [done|]. intros _ _. by apply reads_ret.
  - apply read_advance; [done|]. intros _ _. by apply reads_ret.
  - apply read_advance; [done|]. intros _ _. by apply reads_ret.
Qed.

(** *** The words of a statement can be read *)

Lemma classify_elem l u : classify l u ≠ Token.IDENT → (u, classify l u) ∈ l.
Proof.
  induction l as [|[w t] l IH]; cbn [classify]; [done|]. case_bool_decide as E; intros H; apply elem_of_cons.
  - left. by rewrite E.
  - right. by apply IH.
Qed.
Lemma kw_ok s : (kw s).1 ∉ [Token.IDENT; Token.NUMBER_INT; Token.STRING_LIT] → word_ok (kw s).
Proof.
  intros H. assert (Hin : (str s, classify fixed (str s)) ∈ fixed) by (apply classify_elem; cbn in H; set_solver).
  unfold word_ok, kw in *. cbn [fst snd] in *. destruct (classify fixed (str s)) eqn:E; try done; cbn in H; set_solver.
Qed.
Ltac words_ok := repeat match goal with
  | |- Forall _ [] => constructor
  | |- Forall _ (_ :: _) => apply Forall_cons; split
  | |- Forall _ (_ ++ _) => apply Forall_app; split
  | |- word_ok (kw _) => apply kw_ok; vm_compute; set_solver
  end.

Lemma sep_words_ok {A} sep (words : A → list word) xs : word_ok sep → Forall (λ x, Forall word_ok (words x)) xs →
  Forall word_ok (sep_words sep words xs).
Proof.
  intros Hs HF. destruct HF as [|x xs Hx HF]; [constructor|]. cbn [sep_words]. apply Forall_app. split; [done|].
  unfold sep_rest. induction HF as [|y ys Hy _ IH]; cbn [map concat]; [constructor|].
  apply Forall_app. split; [by constructor|exact IH].
Qed.
Lemma dec_ok v : 0 ≤ v → word_ok (Token.NUMBER_INT, dec v).
Proof. intros Hv. destruct (dec_spec v Hv) as (HF & _ & Hne). split; [done|]. by apply Forall_forallb. Qed.
Lemma column_words_ok c : column_ref_ok c → Forall word_ok (column_words c).
Proof.
  intros (parts & Hne & HF & ->). unfold column_words. rewrite split_join_dots by done.
  apply sep_words_ok; [words_ok|]. eapply Forall_impl; [exact HF|]. intros n Hn. by repeat constructor.
Qed.
Lemma literal_words_ok l : literal_ok l → Forall word_ok (literal_words l).
Proof.
  intros H. destruct l as [v|d|s]; cbn; [|constructor|by repeat constructor]. cbn in H.
  apply Forall_cons. split; [apply dec_ok; lia|constructor].
Qed.
#[local] Hint Resolve column_words_ok literal_words_ok : parser.
Lemma where_words_ok w : where_ok w → Forall word_ok (where_words w).
Proof.
  intros [_ HF]. apply sep_words_ok; [words_ok|]. eapply Forall_impl; [exact HF|]. intros c [Hc Hl].
  unfold compare_words. words_ok; [auto with parser| |auto with parser]. destruct (ce_op c); cbn [op_word]; words_ok.
Qed.
#[local] Hint Resolve where_words_ok : parser.

Lemma column_def_words_ok pk c : name_ok (c_name c) → Forall word_ok (column_def_words pk c).
Proof.
  intros Hn. unfold column_def_words. apply Forall_cons. split; [exact Hn|].
  destruct (c_type c); cbn [type_word]; case_bool_decide; words_ok.
Qed.
Lemma item_words_ok x : item_ok x → Forall word_ok (item_words x).
Proof.
  destruct x as [a|c]; cbn [item_ok item_words]; [|apply column_words_ok]. unfold aggregate_ok. intros H.
  destruct (ag_func a), (ag_star a); cbn [agg_word]; words_ok; by apply column_words_ok.
Qed.
Lemma assignment_words_ok a : assignment_ok a → Forall word_ok (assignment_words a).
Proof.
  intros [Hn Hv]. unfold assignment_words. apply Forall_cons. split; [exact Hn|].
  destruct (as_value a) as [x|l]; words_ok; [apply Hv| |apply literal_words_ok, Hv|by apply literal_words_ok].
  destruct (ae_op x); words_ok.
Qed.
Lemma names_words_ok l : Forall name_ok l → Forall word_ok (sep_words (kw ",") (λ n, [name_word n]) l).
Proof. intros HF. apply sep_words_ok; [words_ok|]. eapply Forall_impl; [exact HF|]. intros n Hn. by repeat constructor. Qed.

Lemma select_words_ok s : statement_ok (SelectS s) → Forall word_ok (statement_words (SelectS s)).
Proof.
  intros (Hi & Ht & Hj & Hw & Ho & Hl). cbn [statement_words]. words_ok.
  - destruct (select_all s) eqn:Es; [words_ok|]. destruct Hi as (_ & Hc & Ha). apply sep_words_ok; [words_ok|].
    unfold items_of. apply Forall_app_2; apply Forall_fmap; eapply Forall_impl; try eassumption;
      intros; by apply item_words_ok.
  - by apply column_words_ok.
  - destruct (se_join s) as [j|]; cbn [from_option] in *; [|constructor]. destruct Hj as (? & ? & ?).
    unfold join_words. words_ok; by apply column_words_ok.
  - destruct (se_where s) as [w|]; cbn [from_option] in *; words_ok. by apply where_words_ok.
  - destruct (order_by s) as [[c []]|]; cbn [from_option] in *; unfold order_words; cbn [fst snd] in *; words_ok;
      by apply column_words_ok.
  - destruct (limit s) as [v|]; cbn [from_option] in *; unfold limit_words; words_ok. apply dec_ok. lia.
Qed.
Lemma statement_words_ok st : statement_ok st → Forall word_ok (statement_words st).
Proof.
  destruct st as [s|s|s|s|s| | |]; [| |apply select_words_ok| | |intros _; cbn [statement_words]; words_ok..].
  - intros (Hn & HF & _). cbn [statement_words]. words_ok; [exact Hn|]. apply sep_words_ok; [words_ok|].
    eapply Forall_impl; [exact HF|]. intros c. apply column_def_words_ok.
  - intros (Hn & _ & Hc & Hv & _). cbn [statement_words]. words_ok; [exact Hn|by apply names_words_ok|].
    apply sep_words_ok; [words_ok|]. eapply Forall_impl; [exact Hv|]. apply literal_words_ok.
  - intros (Hn & _ & Ha & Hw). cbn [statement_words]. words_ok; [exact Hn| |by apply where_words_ok].
    apply sep_words_ok; [words_ok|]. eapply Forall_impl; [exact Ha|]. apply assignment_words_ok.
  - intros (Hn & Hw). cbn [statement_words]. words_ok; [exact Hn|by apply where_words_ok].
Qed.

Lemma shape_nonend ws ts : Forall word_ok ws → shape <$> ts = ws → Forall (λ t, is_end (tk_type t) = false) ts.
Proof.
  intros HF <-. rewrite Forall_fmap in HF. eapply Forall_impl; [exact HF|]. intros t Ht.
  by destruct (spell_read _ _ Ht).
Qed.
Lemma no_lexer_error ts e : Forall (λ t, is_end (tk_type t) = false) ts → tk_type e = Token.END_OF_INPUT →
  lexer_error (ts ++ [e]) = None.
Proof.
  intros HF He. unfold lexer_error. replace (filter _ (ts ++ [e])) with (@nil Token); [done|]. symmetry.
  apply elem_of_nil_inv. intros t [Hu [Ht|Ht]%elem_of_app]%list_elem_of_filter.
  - rewrite Forall_forall in HF. specialize (HF t Ht). by rewrite Hu in HF.
  - apply list_elem_of_singleton in Ht. subst. by rewrite Hu in He.
Qed.

(** C11. Every well-formed statement without floating-point literals has a text that
    parses to exactly that statement: names, qualified names, all clauses and their
    order, the primary key, string literals with quotes in them and integer literals
    up to the largest [int64_t] are read back as they were written. *)
Theorem parse_roundtrip st : statement_ok st → statement_exact st → Parse (print_statement st) = Some (inr st).
Proof.
  intros Hok Hex. pose proof (statement_words_ok st Hok) as HF. unfold Parse, print_statement.
  destruct (Tokenize_text _ HF) as (ts & e & -> & Hsh & He). pose proof (shape_nonend _ _ HF Hsh) as Hne.
  rewrite no_lexer_error by done.
  destruct (reads_ParseStatement st Hok Hex ts e [] Hsh) as (? & E & ->); [by rewrite He|].
  replace (AtEnd (ts ++ [e])) with false.
  - unfold mbind at 1, P_bind. rewrite E. done.
  - destruct ts as [|t ts]; [by destruct st|]. inversion Hne as [|? ? Ht _]; subst. symmetry.
    unfold AtEnd. change (peek ((t :: ts) ++ [e])) with t. unfold is_end in Ht. rewrite <- orb_assoc, Ht.
    rewrite length_app. cbn [length]. by rewrite Nat.add_comm.
Qed.

Lemma parse_roundtrip_witness :
  let st := UpdateS (MkUpdateStmt (str "acc") [MkAssignment (str "balance") (inl (MkArithExpr (str "balance") SUB (LitInt 10)));
      MkAssignment (str "owner") (inr (LitString (str "O'Neil")))] [MkCompareExpr (str "acc.id") CompareOp.GE (LitInt INT64_MAX)]) in
  statement_ok st ∧ Parse (print_statement st) = Some (inr st).
Proof.
  intros st. assert (Hok : statement_ok st).
  { split; [vm_compute; reflexivity|]. split; [done|]. split.
    - repeat (apply Forall_cons; split); [vm_compute; by repeat split..|constructor].
    - split; [done|]. apply Forall_cons. split; [|constructor]. split; [|vm_compute; by repeat split].
      exists [str "acc"; str "id"]. split; [done|]. split; [|vm_compute; reflexivity].
      repeat (apply Forall_cons; split); [vm_compute; reflexivity..|constructor]. }
  split; [exact Hok|]. apply (parse_roundtrip st Hok). repeat constructor.
Defined.
