(* ===== verification/DistributedJoin.v ===== *)
(** * Distributed join planning (src/src/coordinator/distributed_join.{h,cpp})

    The coordinator's side of an inner join: it scans both tables, chooses to
    broadcast the smaller one or to shuffle both by the hash of the join key, lets
    every shard join its part and merges the answers. *)
From Stdlib Require Import Strings.Byte Strings.Ascii.
From stdpp Require Import base gmap sets strings list.
From Stdlib Require Import ZArith Lia.
From S2P Require Import Prelude Status GroupCommit RocksDB TxnManager ShardMessages Effects CoordinatorLog Coordinator.
From S2P Require Import Text Catalog JoinHandler RaftStateMachine ShardServer Parser.
Local Open Scope Z_scope.

(** [HashJoinKey] of row_codec.cpp. *)
Definition HashJoinKey (key : bytes) (num_shards : Z) : Z := Coord.fnv_hash key mod Z.max 1 num_shards.

Definition kBroadcastRowThreshold : nat := 128.
Abbreviation RowMap := (gmap bytes bytes).

Module PhysicalOp.
Inductive t := Auto | Broadcast | Shuffle.
End PhysicalOp.
#[export] Instance PhysicalOp_eq_dec : EqDecision PhysicalOp.t.
Proof. solve_decision. Defined.

Definition ParseJoinPhysicalOpFromEnv (env : getenv) : PhysicalOp.t :=
  match env "TRANS_DB_JOIN_PHYSICAL"%string with
  | None => PhysicalOp.Auto
  | Some v =>
      if bool_decide (v = "broadcast"%string) then PhysicalOp.Broadcast
      else if bool_decide (v = "shuffle"%string) then PhysicalOp.Shuffle
      else PhysicalOp.Auto
  end.

Module DistributedJoinPlanner.

Definition ResolveOp (requested : PhysicalOp.t) (left_rows right_rows : nat) : PhysicalOp.t :=
  match requested with
  | PhysicalOp.Broadcast => PhysicalOp.Broadcast
  | PhysicalOp.Shuffle => PhysicalOp.Shuffle
  | PhysicalOp.Auto =>
      if (Nat.min left_rows right_rows <=? kBroadcastRowThreshold)%nat then PhysicalOp.Broadcast else PhysicalOp.Shuffle
  end.

Definition ScanTable (txn_id : Z) (table : TableDef) : CM (Status * list (bytes * bytes)) :=
  Coord.Scan txn_id (table_id table) [] [] true.

(** The rows of a response as maps: a later column replaces an earlier one of the
    same name. *)
Definition row_map (cols : JoinOutputRow) : RowMap := foldl (λ m nv, <[nv.1 := nv.2]> m) ∅ cols.

Fixpoint MergeShardResponses (responses : list DistributedJoinResponse) : Status * list RowMap :=
  match responses with
  | [] => (St.OK, [])
  | resp :: responses =>
      if negb (jr_ok resp) then (St.Error (jr_error_code resp) (jr_error_message resp), [])
      else let '(st, rest) := MergeShardResponses responses in (st, (row_map <$> jr_rows resp) ++ rest)
  end.

(** A row and its value in the join column. *)
Definition payload (table : TableDef) (join_col : bytes) (kv : bytes * bytes) : JoinRowPayload :=
  MkJoinRowPayload kv.2 (CellValueForJoinColumn table (DeserializeStoredRow kv.2) join_col).

(** The statuses of the futures: the first that is not OK. *)
Fixpoint first_error (l : list (Status * DistributedJoinResponse)) : option Status :=
  match l with [] => None | (st, _) :: l => if negb (St.ok st) then Some st else first_error l end.

(** The tasks of all shards and the merge of what they return. *)
Definition run_on_shards (num_shards : Z) (req : Z → DistributedJoinRequest) : CM (Status * list RowMap) :=
  rs ← fan_out (λ sid, Coord.DistributedJoinOnShard sid (req sid)) (seqZ 0 num_shards);
  match first_error rs with
  | Some st => mret (st, [])
  | None => mret (MergeShardResponses rs.*2)
  end.

Definition broadcast_request (txn_id : Z) (build probe : TableDef) (build_col probe_col : bytes)
    (build_rows : list (bytes * bytes)) : DistributedJoinRequest :=
  MkDistributedJoinRequest txn_id JOIN_OP_BROADCAST (table_id build) (table_id probe) build_col probe_col
    (payload build build_col <$> build_rows) [] [] (c_name <$> columns build) (c_name <$> columns probe)
    (t_name build) (t_name probe).
Definition RunBroadcastJoin (num_shards txn_id : Z) (build probe : TableDef) (build_col probe_col : bytes)
    (build_rows : list (bytes * bytes)) : CM (Status * list RowMap) :=
  run_on_shards num_shards (λ _, broadcast_request txn_id build probe build_col probe_col build_rows).

(** [left_by_shard[sid]] and [right_by_shard[sid]]. *)
Definition by_shard (num_shards sid : Z) (rows : list JoinRowPayload) : list JoinRowPayload :=
  filter (λ p, HashJoinKey (join_key p) num_shards = sid) rows.
Definition shuffle_request (num_shards txn_id : Z) (left right : TableDef) (left_col right_col : bytes)
    (left_rows right_rows : list (bytes * bytes)) (sid : Z) : DistributedJoinRequest :=
  MkDistributedJoinRequest txn_id JOIN_OP_SHUFFLE (table_id left) (table_id right) left_col right_col []
    (by_shard num_shards sid (payload left left_col <$> left_rows))
    (by_shard num_shards sid (payload right right_col <$> right_rows))
    (c_name <$> columns left) (c_name <$> columns right) (t_name left) (t_name right).
Definition RunShuffleJoin (num_shards txn_id : Z) (left right : TableDef) (left_col right_col : bytes)
    (left_rows right_rows : list (bytes * bytes)) : CM (Status * list RowMap) :=
  run_on_shards num_shards (shuffle_request num_shards txn_id left right left_col right_col left_rows right_rows).

(** [ExecuteInnerJoin] after the two scans. *)
Definition join_scanned (num_shards : Z) (j : JoinClause) (left right : TableDef) (txn_id : Z) (op : PhysicalOp.t)
    (left_rows right_rows : list (bytes * bytes)) : CM (Status * list RowMap) :=
  match ResolveOp op (length left_rows) (length right_rows) with
  | PhysicalOp.Broadcast =>
      if (length left_rows <=? length right_rows)%nat then
        RunBroadcastJoin num_shards txn_id left right (left_column j) (right_column j) left_rows
      else RunBroadcastJoin num_shards txn_id right left (right_column j) (left_column j) right_rows
  | _ => RunShuffleJoin num_shards txn_id left right (left_column j) (right_column j) left_rows right_rows
  end.
Definition ExecuteInnerJoin (num_shards : Z) (stmt : SelectStmt) (left right : TableDef) (txn_id : Z)
    (op : PhysicalOp.t) : CM (Status * list RowMap) :=
  match se_join stmt with
  | None => mret (St.Error InvalidArgument "missing join clause", [])
  | Some j =>
      ls ← ScanTable txn_id left;
      if negb (St.ok ls.1) then mret (ls.1, [])
      else
        rs ← ScanTable txn_id right;
        if negb (St.ok rs.1) then mret (rs.1, [])
        else join_scanned num_shards j left right txn_id op ls.2 rs.2
  end.
End DistributedJoinPlanner.

(** ** What the shards together return *)

Abbreviation planner_join := DistributedJoinPlanner.run_on_shards.
Implicit Types tr : list CEvent.

(** Every answer of a shard is what [P] allows. *)
Definition answers (P : Z → DistributedJoinRequest → DistributedJoinResponse → Prop) tr : Prop :=
  ∀ s req resp, Ev (AJoin s req : CoordAction) (Some resp) ∈ tr → P (stub_shard s) req resp.

(** The call whose answer a task returns. *)
Lemma rpc_join_answer sid req c tr c' resp : path (Coord.RpcDistributedJoinOnShard sid req c) tr (Some (c', Some resp)) →
  ∃ s, stub_shard s = sid ∧ Ev (AJoin s req : CoordAction) (Some resp) ∈ tr.
Proof.
  unfold Coord.RpcDistributedJoinOnShard. intros H.
  apply cm_bind_inv in H as [[_ ?]|(tr1 & tr2 & c1 & stub & -> & H1 & H2)]; [done|].
  destruct stub as [s|]; [|by apply mret_inv in H2 as [_ [?|?]]].
  assert (Hs : stub_shard s = sid).
  { cbn in H1. destruct H1 as [_ [?|E]]; [done|]. injection E as _ E.
    destruct (replica_stubs_ c !! sid) as [[|]|]; repeat case_decide; simplify_eq; done. }
  apply (perform_inv (AJoin s req)) in H2 as [[_ ?]|(r' & -> & [?|E])]; [done..|]. injection E as _ <-. exists s. split; [done|]. set_solver.
Qed.
Lemma join_retry_answer a sid req resp0 c tr c' st resp :
  path (Coord.join_retry a sid req resp0 c) tr (Some (c', (st, resp))) → St.ok st = true →
  (∃ s, stub_shard s = sid ∧ Ev (AJoin s req : CoordAction) (Some resp) ∈ tr) ∧ (jr_ok resp = true ∨ jr_error_code resp = Ok).
Proof.
  revert resp0 c tr. induction a as [|a IH]; intros resp0 c tr H Hok; cbn [Coord.join_retry] in H.
  { apply mret_inv in H as [-> [?|E]]; [done|]. by injection E as -> -> ->. }
  apply cm_bind_inv in H as [[_ ?]|(tr1 & tr2 & c1 & r & -> & H1 & H2)]; [done|].
  assert (Hrest : ∀ c2 resp1, path ((Coord.RotateStub sid ;; Coord.join_retry a sid req resp1) c2) tr2 (Some (c', (st, resp))) →
    (∃ s, stub_shard s = sid ∧ Ev (AJoin s req : CoordAction) (Some resp) ∈ tr1 ++ tr2) ∧ (jr_ok resp = true ∨ jr_error_code resp = Ok)).
  { intros c2 resp1 H. apply cm_bind_inv in H as [[_ ?]|(tr3 & tr4 & c3 & r' & -> & _ & H4)]; [done|].
    destruct (IH _ _ _ H4 Hok) as ((s & Es & Hs) & ?). split; [|done]. exists s. split; [done|]. set_solver. }
  destruct r as [resp1|]; [|by eapply Hrest].
  destruct (jr_ok resp1) eqn:Eok; [|destruct (negb _ && _); [|by eapply Hrest]];
    apply mret_inv in H2 as [-> [?|E]]; [done| |done|]; injection E as -> -> ->; rewrite app_nil_r;
    (split; [by eapply rpc_join_answer|]); [by left|]. apply St_ok_spec in Hok. by right.
Qed.
Lemma join_on_shard_answer sid req c tr c' st resp :
  path (Coord.DistributedJoinOnShard sid req c) tr (Some (c', (st, resp))) → St.ok st = true →
  (∃ s id, stub_shard s = sid ∧ Ev (AJoin s (Coord.set_raft_txn_id req id) : CoordAction) (Some resp) ∈ tr) ∧
  (jr_ok resp = true ∨ jr_error_code resp = Ok).
Proof.
  unfold Coord.DistributedJoinOnShard. generalize Coord.kLeaderRetryAttempts. intros a H Hok.
  apply cm_bind_inv in H as [[_ ?]|(tr1 & tr2 & c1 & r & -> & _ & H)]; [done|]. destruct (c_txns_ r !! _) as [txn|].
  2: { apply mret_inv in H as [_ [?|E]]; [done|]. by injection E as -> -> ->. }
  destruct (aborted txn). { apply mret_inv in H as [_ [?|E]]; [done|]. by injection E as -> -> ->. }
  destruct (_ <=? sid). { apply mret_inv in H as [_ [?|E]]; [done|]. by injection E as -> -> ->. }
  apply cm_bind_inv in H as [[_ ?]|(tr3 & tr4 & c3 & es & -> & _ & H)]; [done|].
  destruct (St.ok es) eqn:Ees; cbn [negb] in H.
  - apply join_retry_answer in H as ((s & Es & Hs) & ?); [|done]. split; [|done]. exists s, (raft_txn_id txn).
    split; [done|]. set_solver.
  - apply mret_inv in H as [_ [?|E]]; [done|]. injection E as -> -> ->. congruence.
Qed.

(** When all tasks succeed, the result is the concatenation of what the shards
    answered to their requests. *)
Lemma run_on_shards_ok P n req c tr c' st rows :
  (∀ sid q resp, P sid q resp → jr_ok resp = false → jr_error_code resp ≠ Ok) →
  path (planner_join n req c) tr (Some (c', (st, rows))) → St.ok st = true → answers P tr →
  ∃ resps, Forall2 (λ sid resp, jr_ok resp = true ∧ ∃ id, P sid (Coord.set_raft_txn_id (req sid) id) resp) (seqZ 0 n) resps ∧
    rows = concat ((λ r, DistributedJoinPlanner.row_map <$> jr_rows r) <$> resps).
Proof.
  intros HP H Hok Hans. unfold DistributedJoinPlanner.run_on_shards in H.
  apply cm_bind_inv in H as [[_ ?]|(tr1 & tr2 & c1 & rs & -> & H1 & H2)]; [done|].
  apply (fan_out_results _ _ _ _ _ _ (λ sid r tr, St.ok r.1 = true →
    (∃ s id, stub_shard s = sid ∧ Ev (AJoin s (Coord.set_raft_txn_id (req sid) id) : CoordAction) (Some r.2) ∈ tr) ∧
    (jr_ok r.2 = true ∨ jr_error_code r.2 = Ok))) in H1.
  2: { intros x y t t' Hp Hsub Hy. destruct (Hp Hy) as ((s & id & Es & Hin) & ?). split; [|done]. exists s, id.
       split; [done|]. by eapply elem_of_sublist. }
  2: { intros x c0 t c2 [st0 resp] _ Hp Hy. by eapply join_on_shard_answer. }
  destruct (DistributedJoinPlanner.first_error rs) as [e|] eqn:Ef.
  { exfalso. apply mret_inv in H2 as [_ [?|E]]; [done|]. injection E as -> -> ->. revert Ef Hok. clear.
    induction rs as [|[st0 r0] rs IH]; [done|]. cbn. destruct (St.ok st0) eqn:E; cbn; [done|]. congruence. }
  apply mret_inv in H2 as [-> [?|E]]; [done|]. injection E as -> Em. exists rs.*2.
  assert (Hall : Forall (λ r, St.ok r.1 = true) rs).
  { revert Ef. clear. induction rs as [|[st0 r0] rs IH]; [constructor|]. cbn. destruct (St.ok st0) eqn:E; cbn; [|done].
    constructor; auto. }
  assert (Hresps : Forall2 (λ sid resp, jr_ok resp = true ∧ ∃ id, P sid (Coord.set_raft_txn_id (req sid) id) resp)
    (seqZ 0 n) rs.*2).
  { clear Ef Em. rewrite app_nil_r in Hans. revert Hall. induction H1 as [|sid r sids rs Hr _ IH]; intros Hall; [constructor|].
    inversion Hall as [|? ? Hy Hall']; subst. rewrite fmap_cons. constructor; [|by apply IH].
    destruct (Hr Hy) as ((s & id & <- & Hin) & Hj). pose proof (Hans _ _ _ Hin) as Hr2. split; [|by exists id].
    destruct (jr_ok r.2) eqn:Eok; [done|]. exfalso. destruct Hj as [?|Hc]; [done|]. by eapply HP. }
  split; [done|]. revert Em. clear -Hresps. revert st rows. induction Hresps as [|sid resp sids resps [Hr _] _ IH];
    intros st rows; cbn [DistributedJoinPlanner.MergeShardResponses]; [by intros [= _ ->]|]. rewrite Hr. cbn [negb].
  destruct (DistributedJoinPlanner.MergeShardResponses resps) as [st' rest]. intros [= -> ->]. cbn. f_equal. by eapply IH.
Qed.

Section handler.
Context `{RocksDB DB} `{GroupCommit}.

(** A handler that reports an error reports a code. *)
Lemma scan_error_code (tm tm' : TxnManager DB) t tid a b o st : TM.Scan tm t tid a b o = (tm', inl st) → code st ≠ Ok.
Proof.
  unfold TM.Scan. destruct (txns_ tm !! t); [|by intros [= <- <-]]. destruct (negb _); [by intros [= <- <-]|].
  destruct (TM.scan_loop _ _ _). done.
Qed.
Lemma handler_error_code hosted (sh : ShardServiceImpl DB) req :
  let resp := (Shard.DistributedJoin hosted sh req).2 in jr_ok resp = false → jr_error_code resp ≠ Ok.
Proof.
  unfold Shard.DistributedJoin. destruct (Shard.FindLeader hosted sh); [|done]. destruct (_ =? 0) eqn:E; [done|].
  unfold RunDistributedJoin. rewrite E. destruct (jq_op req); [|done|done].
  destruct (TM.Scan _ _ _ _ _ _) as [tm' [st|scan]] eqn:Es; cbn; [|done]. intros _. by eapply scan_error_code.
Qed.
(** The answer to a shuffle request depends on the request alone. *)
Lemma handler_shuffle hosted (sh : ShardServiceImpl DB) req : jq_op req = JOIN_OP_SHUFFLE →
  let resp := (Shard.DistributedJoin hosted sh req).2 in
  jr_ok resp = true → resp = local_join req (shuffle_build_rows req) (shuffle_probe_rows req).
Proof.
  intros Eop. unfold Shard.DistributedJoin. destruct (Shard.FindLeader hosted sh); [|done]. destruct (_ =? 0) eqn:E; [done|].
  unfold RunDistributedJoin. by rewrite E, Eop.
Qed.
(** The rows of the table that the handler joins: those the transaction sees on
    the leader. *)
Definition sees_rows hosted (sh : ShardServiceImpl DB) (id tid : Z) (rows : list (bytes * bytes)) : Prop :=
  ∀ l, Shard.FindLeader hosted sh = Some l →
    (TM.Scan (Shard.tm_of sh l) (Shard.read_local sh l id) tid [] [] true).2 = inr rows.
Lemma handler_broadcast hosted (sh : ShardServiceImpl DB) req rows : jq_op req = JOIN_OP_BROADCAST →
  sees_rows hosted sh (jq_raft_txn_id req) (probe_table_id req) rows →
  let resp := (Shard.DistributedJoin hosted sh req).2 in
  jr_ok resp = true → resp = local_join req (broadcast_build_rows req) (omap (probe_payload req) rows.*2).
Proof.
  intros Eop Hs. unfold Shard.DistributedJoin. destruct (Shard.FindLeader hosted sh) as [l|] eqn:El; [|done].
  specialize (Hs l El). destruct (_ =? 0) eqn:E; [done|]. unfold RunDistributedJoin. rewrite E, Eop.
  destruct (TM.Scan _ _ _ _ _ _) as [tm' r]. cbn in Hs. by subst r.
Qed.
End handler.
