(* ===== verification/Executor.v ===== *)
(** * SQL executor (src/src/coordinator/executor.{h,cpp})

    Executes a parsed statement through the coordinator, in the transaction of the
    session or in one of its own (autocommit). The executor's calls are those of
    Coordinator.v, so a statement is a program over the same actions.

    [std::stoll] and [std::stod] throw on text that is not a number. Where the code
    catches the exception the model does too; where it does not, the result of the
    statement is [None]: the exception leaves [Execute]. *)
From Stdlib Require Import Strings.Byte Strings.Ascii.
From stdpp Require Import base gmap sets strings sorting list.
From Stdlib Require Import ZArith Lia Floats.SpecFloat.
From S2P Require Import Prelude Status GroupCommit ShardMessages Effects Coordinator.
From S2P Require Import Text Catalog JoinHandler Parser DistributedJoin.
Local Open Scope Z_scope.

(** What the compiled code computes where C++ leaves the value undefined: a cast of
    a double out of range and a sum of integers that overflows. *)
Class Undefined := {
  undefined_cast : double → Z;
  undefined_sum : Z → Z;
}.
(** [std::sort] with a comparison of keys: a permutation in order; the order of
    rows with equal keys is not specified. *)
Class StdSort := {
  std_sort {A} : (A → A → bool) → list A → list A;
  std_sort_perm {A} (lt : A → A → bool) (l : list A) : std_sort lt l ≡ₚ l;
  std_sort_sorted {A} (key : A → bytes) (lt : bytes → bytes → bool) (l : list A) :
    (∀ a, lt a a = false) → (∀ a b c, lt a b = true → lt b c = true → lt a c = true) →
    (∀ a b, lt a b = false → lt b a = false → a = b) →
    StronglySorted (λ x y, lt (key y) (key x) = false) (std_sort (λ x y, lt (key x) (key y)) l);
}.

Definition add_i64 `{Undefined} (a b : Z) : Z := if bool_decide (is_i64 (a + b)) then a + b else undefined_sum (a + b).
Definition cast_i64 `{Undefined} (d : double) : Z := default (undefined_cast d) (double_to_int64 d).

(** ** Results *)

Record ExecResult := MkExecResult {
  x_ok : bool;
  x_error : string;
  x_columns : list bytes;
  x_rows : list (list bytes);
  affected_rows : Z;
  command_tag : bytes;
}.
Record ExecOutput := MkExecOutput { x_result : ExecResult; x_txn_id : Z }.

Definition ExecResult0 : ExecResult := MkExecResult true "" [] [] 0 [].
Definition set_error (r : ExecResult) (e : string) : ExecResult :=
  MkExecResult false e (x_columns r) (x_rows r) (affected_rows r) (command_tag r).
Definition set_tag (r : ExecResult) (t : bytes) : ExecResult :=
  MkExecResult (x_ok r) (x_error r) (x_columns r) (x_rows r) (affected_rows r) t.
Definition set_affected (r : ExecResult) (n : Z) : ExecResult :=
  MkExecResult (x_ok r) (x_error r) (x_columns r) (x_rows r) n (command_tag r).
Definition set_rows (r : ExecResult) (cols : list bytes) (rows : list (list bytes)) : ExecResult :=
  MkExecResult (x_ok r) (x_error r) cols rows (affected_rows r) (command_tag r).
Definition failed_with (e : string) : ExecResult := set_error ExecResult0 e.

Module Exec.
Section executor.
Context `{Undefined} `{StdSort}.

(** ** Values *)

Definition LiteralToString (lit : LiteralExpr) : bytes :=
  match lit with LitInt v => to_string v | LitDouble d => double_to_stream d | LitString s => s end.
Definition LiteralToPkString (lit : LiteralExpr) (ct : ColumnType) : bytes := LiteralToString lit.

(** The [std::visit] conversions; [None] is an exception. *)
Definition literal_double (lit : LiteralExpr) : option double :=
  match lit with LitInt v => Some (double_of_Z v) | LitDouble d => Some d | LitString s => fst <$> stod s end.
Definition literal_int (lit : LiteralExpr) : option Z :=
  match lit with LitInt v => Some v | LitDouble d => Some (cast_i64 d) | LitString s => stoll s end.

Definition eps : double := double_of_ratio false 1 (10 ^ 9).

Definition compare_double (cv : double) (op : CompareOp.t) (lv : double) : bool :=
  match op with
  | CompareOp.EQ => dlt (dabs (dsub cv lv)) eps
  | CompareOp.NE => dle eps (dabs (dsub cv lv))
  | CompareOp.LT => dlt cv (dsub lv eps)
  | CompareOp.LE => dle cv (dadd lv eps)
  | CompareOp.GT => dlt (dadd lv eps) cv
  | CompareOp.GE => dle (dsub lv eps) cv
  end.
Definition compare_int (cv : Z) (op : CompareOp.t) (lv : Z) : bool :=
  match op with
  | CompareOp.EQ => cv =? lv
  | CompareOp.NE => negb (cv =? lv)
  | CompareOp.LT => cv <? lv
  | CompareOp.LE => cv <=? lv
  | CompareOp.GT => lv <? cv
  | CompareOp.GE => lv <=? cv
  end.
Definition compare_text (cell : bytes) (op : CompareOp.t) (lv : bytes) : bool :=
  match op with
  | CompareOp.EQ => bool_decide (cell = lv)
  | CompareOp.NE => bool_decide (cell ≠ lv)
  | CompareOp.LT => bool_decide (bytes_lt cell lv)
  | CompareOp.LE => bool_decide (bytes_le cell lv)
  | CompareOp.GT => bool_decide (bytes_lt lv cell)
  | CompareOp.GE => bool_decide (bytes_le lv cell)
  end.

Definition CompareCell (cell : bytes) (op : CompareOp.t) (lit : LiteralExpr) (ct : ColumnType) : bool :=
  match ct with
  | FLOAT => default false (cv ← fst <$> stod cell; lv ← literal_double lit; Some (compare_double cv op lv))
  | INT | BIGINT => default false (cv ← stoll cell; lv ← literal_int lit; Some (compare_int cv op lv))
  | VARCHAR => compare_text cell op (LiteralToString lit)
  end.

(** ** Rows *)

Definition FindColumn (t : TableDef) (name : bytes) : option ColumnDef :=
  head (filter (λ c, c_name c = name) (columns t)).
(** [None] is -1. *)
Definition ColumnIndex (t : TableDef) (name : bytes) : option nat := column_index (columns t) name.
Definition BaseColName (name : bytes) : bytes := BaseColumnName name.

Definition AppendU16LE (v : Z) : bytes := le_bytes 2 v.
Definition AppendU32LE (v : Z) : bytes := le_bytes 4 v.
Definition append_cells (cells : list bytes) : bytes :=
  concat ((λ cell, AppendU32LE (Z.of_nat (length cell)) ++ cell) <$> cells).

(** The cells in the order of the table; a column without a value is empty. *)
Definition cells_of (t : TableDef) (col_names : list bytes) (values : list LiteralExpr) : list bytes :=
  let m : gmap bytes bytes := foldl (λ m nv, <[nv.1 := LiteralToString nv.2]> m) ∅ (zip col_names values) in
  (λ c, default [] (m !! c_name c)) <$> columns t.
Definition SerializeRow (t : TableDef) (col_names : list bytes) (values : list LiteralExpr) : bytes :=
  AppendU16LE (Z.of_nat (length (columns t))) ++ append_cells (cells_of t col_names values).
(** The loop is the one of [DeserializeStoredRow]. *)
Definition DeserializeRow (data : bytes) : list bytes := DeserializeStoredRow data.

(** ** Primary key ranges *)

Record KeyRange := MkKeyRange {
  k_start : bytes;
  k_end : bytes;
  start_unbounded : bool;
  end_unbounded : bool;
  is_point : bool;
}.
Definition point (k : bytes) : KeyRange := MkKeyRange k [] false false true.

(** The closed interval of the conditions seen so far, and whether one was NE. *)
Record IntBounds := MkIntBounds { lo_i : Z; hi_i : Z; ne_i : bool }.
Definition apply_int_cmp (b : IntBounds) (op : CompareOp.t) (v : Z) : IntBounds :=
  let '(MkIntBounds lo hi ne) := b in
  match op with
  | CompareOp.EQ => MkIntBounds (Z.max lo v) (Z.min hi v) ne
  | CompareOp.NE => MkIntBounds lo hi true
  | CompareOp.GE => MkIntBounds (Z.max lo v) hi ne
  | CompareOp.GT => MkIntBounds (Z.max lo (add_i64 v 1)) hi ne
  | CompareOp.LE => MkIntBounds lo (Z.min hi v) ne
  | CompareOp.LT => MkIntBounds lo (Z.min hi (add_i64 v (-1))) ne
  end.

Record FloatBounds := MkFloatBounds { lo_f : double; hi_f : double; ne_f : bool }.
Definition dmax (a b : double) : double := if dlt a b then b else a.
Definition dmin (a b : double) : double := if dlt b a then b else a.
Definition nextafter (from to : double) : double :=
  match SFcompare from to with
  | Some Lt => SFsucc prec emax from
  | Some Gt => SFpred prec emax from
  | Some Eq => to
  | None => S754_nan
  end.
Definition apply_f_cmp (b : FloatBounds) (op : CompareOp.t) (v : double) : FloatBounds :=
  let '(MkFloatBounds lo hi ne) := b in
  match op with
  | CompareOp.EQ => MkFloatBounds (dmax lo v) (dmin hi v) ne
  | CompareOp.NE => MkFloatBounds lo hi true
  | CompareOp.GE => MkFloatBounds (dmax lo v) hi ne
  | CompareOp.GT => MkFloatBounds (dmax lo (nextafter v hi)) hi ne
  | CompareOp.LE => MkFloatBounds lo (dmin hi v) ne
  | CompareOp.LT => MkFloatBounds lo (dmin hi (nextafter v lo)) ne
  end.

(** The conditions on the primary key, in their order. *)
Definition pk_conditions (pk : bytes) (where_ : WhereClause) : WhereClause := filter (λ e, ce_column e = pk) where_.

(** The text that all conditions require: [None] when one is not an equation or two
    differ. *)
Fixpoint eq_text (acc : option bytes) (conds : WhereClause) : option (option bytes) :=
  match conds with
  | [] => Some acc
  | e :: conds =>
      if negb (bool_decide (ce_op e = CompareOp.EQ)) then None
      else
        let v := LiteralToPkString (ce_value e) VARCHAR in
        match acc with
        | None => eq_text (Some v) conds
        | Some w => if bool_decide (w = v) then eq_text acc conds else None
        end
  end.
(** [None]: a literal does not convert and the exception is not caught. *)
Fixpoint int_bounds (b : IntBounds) (conds : WhereClause) : option IntBounds :=
  match conds with
  | [] => Some b
  | e :: conds => v ← literal_int (ce_value e); int_bounds (apply_int_cmp b (ce_op e) v) conds
  end.
Fixpoint float_bounds (b : FloatBounds) (conds : WhereClause) : option FloatBounds :=
  match conds with
  | [] => Some b
  | e :: conds => v ← literal_double (ce_value e); float_bounds (apply_f_cmp b (ce_op e) v) conds
  end.

Definition int_range (b : IntBounds) : option KeyRange :=
  let '(MkIntBounds lo hi ne) := b in
  if (ne : bool) then None
  else if hi <? lo then Some (point [])
  else if lo =? hi then Some (point (to_string lo))
  else if hi =? INT64_MAX then Some (MkKeyRange (to_string lo) [] false true false)
  else Some (MkKeyRange (to_string lo) (to_string (hi + 1)) false false false).
Definition float_range (b : FloatBounds) : option KeyRange :=
  let '(MkFloatBounds lo hi ne) := b in
  if (ne : bool) then None
  else if dlt (dadd hi eps) lo then Some (point [])
  else if dlt (dabs (dsub lo hi)) eps then Some (point (double_to_stream lo))
  else None.

(** Outer [None]: an exception; inner [None]: [std::nullopt]. *)
Definition ExtractKeyRange (where_ : WhereClause) (t : TableDef) : option (option KeyRange) :=
  match FindColumn t (primary_key t) with
  | None => Some None
  | Some pkcol =>
      let conds := pk_conditions (primary_key t) where_ in
      match c_type pkcol with
      | VARCHAR =>
          Some (match eq_text None conds with
                | Some (Some v) => Some (MkKeyRange v [] false true true)
                | _ => None
                end)
      | INT | BIGINT =>
          b ← int_bounds (MkIntBounds INT64_MIN INT64_MAX false) conds;
          Some (if bool_decide (conds = []) then None else int_range b)
      | FLOAT =>
          b ← float_bounds (MkFloatBounds (S754_infinity true) (S754_infinity false) false) conds;
          Some (if bool_decide (conds = []) then None else float_range b)
      end
  end.
Definition ExtractPrimaryKey (where_ : WhereClause) (t : TableDef) : option (option bytes) :=
  (λ kr, k ← kr; if is_point k then Some (k_start k) else None) <$> ExtractKeyRange where_ t.

(** ** The filters of a row *)

(** The conditions on other columns than the primary key. *)
Inductive Check := Holds | Fails | UnknownColumn.
Fixpoint check_where (t : TableDef) (cells : list bytes) (conds : WhereClause) : Check :=
  match conds with
  | [] => Holds
  | e :: conds =>
      if bool_decide (ce_column e = primary_key t) then check_where t cells conds
      else
        match ColumnIndex t (ce_column e) with
        | None => UnknownColumn
        | Some ci =>
            if CompareCell (default [] (cells !! ci)) (ce_op e) (ce_value e)
                 (default VARCHAR (c_type <$> columns t !! ci)) then check_where t cells conds
            else Fails
        end
  end.

(** ** Autocommit *)

Abbreviation output r t := (mret (Some (MkExecOutput r t))).
Definition say (s : string) (n : Z) : bytes := str s ++ to_string n.
Definition failed_status (r : ExecResult) (st : Status) : ExecResult := set_error r (message st).

(** ** CREATE TABLE and INSERT *)

Definition ExecCreateTable (cat : Catalog) (stmt : CreateTableStmt) (txn_id : Z) : Catalog * ExecOutput :=
  let '(cat, tid) := CreateTable cat (ct_table_name stmt) (ct_columns stmt) (ct_primary_key stmt) in
  (cat, MkExecOutput (if tid =? 0 then failed_with "create table failed (exists or invalid primary key)"
                      else set_tag ExecResult0 (str "CREATE TABLE")) txn_id).

Definition inserted : ExecResult := set_tag (set_affected ExecResult0 1) (str "INSERT 0 1").

(** The key and the row of an INSERT, or what is wrong with it. The parser gives as
    many values as columns, so the primary key has one. *)
Definition insert_row (t : TableDef) (stmt : InsertStmt) : string + (bytes * bytes) :=
  if negb (forallb (λ c, bool_decide (c_name c ∈ in_columns stmt)) (columns t)) then
    inl "INSERT must specify all columns"%string
  else
    let row := SerializeRow t (in_columns stmt) (in_values stmt) in
    match list_find (λ c, c = primary_key t) (in_columns stmt) with
    | None => inl "primary key column missing in INSERT"%string
    | Some (pk_ix, _) =>
        match FindColumn t (primary_key t) with
        | None => inl "table missing primary key column"%string
        | Some pk_def =>
            inr (LiteralToPkString (default (LitString []) (in_values stmt !! pk_ix)) (c_type pk_def), row)
        end
    end.

Definition ExecInsert (cat : Catalog) (stmt : InsertStmt) (txn_id : Z) : CM (option ExecOutput) :=
  match GetTable cat (in_table_name stmt) with
  | None => output (failed_with "unknown table") txn_id
  | Some t =>
      match insert_row t stmt with
      | inl e => output (failed_with e) txn_id
      | inr (pk, row) =>
          if negb (txn_id =? 0) then
            st ← Coord.Write txn_id (table_id t) pk row;
            output (if negb (St.ok st) then failed_status ExecResult0 st else inserted) txn_id
          else
            txn ← Coord.Begin;
            st ← Coord.Write txn (table_id t) pk row;
            if negb (St.ok st) then Coord.Abort txn ;; output (failed_status ExecResult0 st) 0
            else
              c ← Coord.Commit txn;
              output (if negb (St.ok c) then failed_status ExecResult0 c else inserted) 0
      end
  end.

(** ** SELECT with a key range *)

Inductive Classified := Fatal (r : ExecResult) | Skipped | Appended (r : ExecResult).
Fixpoint project (t : TableDef) (cells : list bytes) (names : list bytes) : option (list bytes) :=
  match names with
  | [] => Some []
  | n :: names => ci ← ColumnIndex t n; rest ← project t cells names; Some (default [] (cells !! ci) :: rest)
  end.
Definition classify_cells (t : TableDef) (stmt : SelectStmt) (select_col_names : list bytes) (r : ExecResult)
    (cells : list bytes) : Classified :=
  if negb (length cells =? length (columns t))%nat then Fatal (set_error r "corrupt row")
  else
    match check_where t cells (default [] (se_where stmt)) with
    | UnknownColumn => Fatal (set_error r "unknown column in WHERE")
    | Fails => Skipped
    | Holds =>
        match project t cells select_col_names with
        | None => Fatal (set_error r "unknown column in SELECT")
        | Some projected =>
            Appended (set_rows r (match x_columns r with [] => select_col_names | cs => cs end)
                        (x_rows r ++ [projected]))
        end
    end.
Definition row_error (r : ExecResult) : Status :=
  St.Error InvalidArgument (if bool_decide (x_error r = ""%string) then "invalid row" else x_error r)%string.

Definition run_point (t : TableDef) (stmt : SelectStmt) (names : list bytes) (kr : KeyRange) (tid : Z) :
    CM (ExecResult * Status) :=
  rst ← Coord.Read tid (table_id t) (k_start kr);
  if negb (St.ok rst.1) then mret (ExecResult0, rst.1)
  else
    mret match classify_cells t stmt names ExecResult0 (DeserializeRow (default [] rst.2)) with
         | Fatal r => (r, row_error r)
         | Skipped => (set_tag ExecResult0 (say "SELECT " 0), St.OK)
         | Appended r => (set_tag r (say "SELECT " 1), St.OK)
         end.

Fixpoint range_loop (t : TableDef) (stmt : SelectStmt) (names : list bytes) (r : ExecResult) (emitted : Z)
    (rows : list (bytes * bytes)) : ExecResult * Status :=
  match rows with
  | [] => (set_tag r (say "SELECT " emitted), St.OK)
  | kv :: rows =>
      match classify_cells t stmt names r (DeserializeRow kv.2) with
      | Fatal r => (r, row_error r)
      | Skipped => range_loop t stmt names r emitted rows
      | Appended r => range_loop t stmt names r (emitted + 1) rows
      end
  end.
Definition run_range (t : TableDef) (stmt : SelectStmt) (names : list bytes) (kr : KeyRange) (tid : Z) :
    CM (ExecResult * Status) :=
  rst ← Coord.Scan tid (table_id t) (k_start kr) (k_end kr) (end_unbounded kr);
  mret (if negb (St.ok rst.1) then (ExecResult0, rst.1) else range_loop t stmt names ExecResult0 0 rst.2).

(** The end of a transaction that a SELECT began: [not_found] tells whether a row
    that is not found is an empty result. *)
Definition finish_select (not_found : bool) (txn : Z) (r : ExecResult) (st : Status) : CM (option ExecOutput) :=
  if negb (St.ok st) then
    Coord.Abort txn ;;
    if not_found && bool_decide (code st = NotFound) then output (set_tag r (str "SELECT 0")) 0
    else output (failed_status r st) 0
  else if negb (x_ok r) then Coord.Abort txn ;; output r 0
  else
    c ← Coord.Commit txn;
    output (if negb (St.ok c) then failed_status r c else r) 0.
Definition select_status (not_found : bool) (r : ExecResult) (st : Status) : ExecResult :=
  if St.ok st then r
  else if not_found && bool_decide (code st = NotFound) then set_tag r (str "SELECT 0")
  else failed_status r st.

Definition where_error : string :=
  "WHERE must constrain primary key with a supported predicate (INT/BIGINT point or bounded range; FLOAT point only)".
Definition select_by_key (t : TableDef) (stmt : SelectStmt) (txn_id : Z) : CM (option ExecOutput) :=
  match ExtractKeyRange (default [] (se_where stmt)) t with
  | None => mret None
  | Some None => output (failed_with where_error) txn_id
  | Some (Some kr) =>
      let names := match se_columns stmt with [] => c_name <$> columns t | cs => cs end in
      if is_point kr && bool_decide (k_start kr = []) then output (set_tag ExecResult0 (str "SELECT 0")) txn_id
      else if negb (is_point kr) &&
              ((negb (start_unbounded kr) && bool_decide (k_start kr = [])) ||
               (negb (end_unbounded kr) && bool_decide (k_end kr = []))) then
        output (failed_with "invalid primary key range") txn_id
      else
        let run tid := if is_point kr then run_point t stmt names kr tid else run_range t stmt names kr tid in
        if negb (txn_id =? 0) then
          rs ← run txn_id; output (select_status (is_point kr) rs.1 rs.2) txn_id
        else
          txn ← Coord.Begin;
          rs ← run txn;
          finish_select (is_point kr) txn rs.1 rs.2
  end.

(** ** SELECT over whole tables *)

(** The columns of a row under their names and their qualified names. *)
Definition base_map (t : TableDef) (cells : list bytes) (m : RowMap) : RowMap :=
  foldl (λ m nv, <[nv.1 := nv.2]> m) m (named_cells (t_name t) (c_name <$> columns t) cells).

Fixpoint join_right (right : TableDef) (j : JoinClause) (base : RowMap) (right_scan : list (bytes * bytes)) :
    Status + list RowMap :=
  match right_scan with
  | [] => inr []
  | rkv :: right_scan =>
      let rcells := DeserializeRow rkv.2 in
      if negb (length rcells =? length (columns right))%nat then inl (St.Error InvalidArgument "corrupt right row")
      else
        let joined := base_map right rcells base in
        let keep := match joined !! left_column j, joined !! right_column j with
                    | Some l, Some r => bool_decide (l = r)
                    | _, _ => false
                    end in
        match join_right right j base right_scan with
        | inl e => inl e
        | inr rest => inr (if keep then joined :: rest else rest)
        end
  end.
Fixpoint scan_rows (t : TableDef) (right : option (TableDef * JoinClause)) (left_scan right_scan : list (bytes * bytes)) :
    Status + list RowMap :=
  match left_scan with
  | [] => inr []
  | lkv :: left_scan =>
      let lcells := DeserializeRow lkv.2 in
      if negb (length lcells =? length (columns t))%nat then inl (St.Error InvalidArgument "corrupt left row")
      else
        let base := base_map t lcells ∅ in
        match (match right with None => inr [base] | Some (rt, j) => join_right rt j base right_scan end) with
        | inl e => inl e
        | inr rows =>
            match scan_rows t right left_scan right_scan with inl e => inl e | inr rest => inr (rows ++ rest) end
        end
  end.

Definition find_cell (row : RowMap) (name : bytes) : option bytes :=
  match row !! name with Some v => Some v | None => row !! BaseColName name end.
Definition cond_type (t : TableDef) (right : option TableDef) (name : bytes) : ColumnType :=
  let bn := BaseColName name in
  match FindColumn t bn with
  | Some c => c_type c
  | None => match right with
            | Some rt => match FindColumn rt bn with Some c => c_type c | None => VARCHAR end
            | None => VARCHAR
            end
  end.
Definition row_holds (t : TableDef) (right : option TableDef) (conds : WhereClause) (row : RowMap) : bool :=
  forallb (λ e, match find_cell row (ce_column e) with
                | None => false
                | Some cell => CompareCell cell (ce_op e) (ce_value e) (cond_type t right (ce_column e))
                end) conds.

Definition order_key (column : bytes) (row : RowMap) : bytes := default [] (row !! column).
Definition order_lt (desc : bool) (a b : bytes) : bool :=
  if desc then bool_decide (bytes_lt b a) else bool_decide (bytes_lt a b).
Definition order_rows (o : option (bytes * bool)) (rows : list RowMap) : list RowMap :=
  match o with
  | None => rows
  | Some (column, desc) => std_sort (λ a b, order_lt desc (order_key column a) (order_key column b)) rows
  end.
Definition limit_rows (l : option Z) (rows : list RowMap) : list RowMap :=
  match l with Some n => if n <? Z.of_nat (length rows) then take (Z.to_nat n) rows else rows | None => rows end.

(** *** Aggregates *)

Definition agg_name (f : AggFunc) : bytes :=
  match f with COUNT => str "count" | SUM => str "sum" | MIN => str "min" | MAX => str "max" end.
Record AggState := MkAggState { have : bool; sum_ : double; mn : double; mx : double }.
Definition agg_step (column : bytes) (a : AggState) (row : RowMap) : AggState :=
  match find_cell row column with
  | None => a
  | Some cell =>
      match fst <$> stod cell with
      | None => a
      | Some v =>
          let '(MkAggState have sum mn mx) := a in
          let '(mn, mx) := if (have : bool) then (mn, mx) else (v, v) in
          MkAggState true (dadd sum v) (dmin mn v) (dmax mx v)
      end
  end.
Definition agg_value (a : Aggregate) (rows : list RowMap) : bytes :=
  match ag_func a with
  | COUNT =>
      if ag_star a then to_string (Z.of_nat (length rows))
      else to_string (Z.of_nat (length (filter (λ row, default [] (find_cell row (ag_column a)) ≠ []) rows)))
  | f =>
      let zero := S754_zero false in
      let s := foldl (agg_step (ag_column a)) (MkAggState false zero zero zero) rows in
      if negb (have s) then str "0"
      else double_to_string (match f with SUM => sum_ s | MIN => mn s | _ => mx s end)
  end.

Definition row_value (row : RowMap) (column : bytes) : bytes := default [] (find_cell row column).
Definition select_rows (t : TableDef) (right : option TableDef) (stmt : SelectStmt) (rows : list RowMap) : ExecResult :=
  let r :=
    match aggregates stmt with
    | [] =>
        let cols := if select_all stmt || bool_decide (se_columns stmt = []) then
                      (c_name <$> columns t) ++ from_option (λ rt, c_name <$> columns rt) [] right
                    else se_columns stmt in
        set_rows ExecResult0 cols ((λ row, row_value row <$> cols) <$> rows)
    | aggs =>
        set_rows ExecResult0 (se_columns stmt ++ (agg_name ∘ ag_func <$> aggs))
          [((λ c, from_option (λ row, row_value row c) [] (head rows)) <$> se_columns stmt) ++
           ((λ a, agg_value a rows) <$> aggs)]
    end in
  set_tag r (say "SELECT " (Z.of_nat (length (x_rows r)))).

(** The rows a SELECT is about: joined, filtered, sorted and cut. *)
Definition select_pipeline (t : TableDef) (right : option TableDef) (stmt : SelectStmt) (rows : list RowMap) : list RowMap :=
  let rows := match se_where stmt with Some w => filter (λ row, row_holds t right w row = true) rows | None => rows end in
  limit_rows (limit stmt) (order_rows (order_by stmt) rows).

Definition run_extended (env : getenv) (t : TableDef) (right : option (TableDef * JoinClause)) (stmt : SelectStmt)
    (tid : Z) : CM (ExecResult * Status) :=
  c ← get_state;
  rows ← match right with
         | Some (rt, j) =>
             if 1 <? num_shards_ c then
               r ← DistributedJoinPlanner.ExecuteInnerJoin (num_shards_ c) stmt t rt tid (ParseJoinPhysicalOpFromEnv env);
               mret (if St.ok r.1 then inr r.2 else inl r.1)
             else
               ls ← Coord.Scan tid (table_id t) [] [] true;
               if negb (St.ok ls.1) then mret (inl ls.1)
               else
                 rs ← Coord.Scan tid (table_id rt) [] [] true;
                 mret (if negb (St.ok rs.1) then inl rs.1 else scan_rows t right ls.2 rs.2)
         | None =>
             ls ← Coord.Scan tid (table_id t) [] [] true;
             mret (if negb (St.ok ls.1) then inl ls.1 else scan_rows t None ls.2 [])
         end;
  mret match rows with
       | inl st => (ExecResult0, st)
       | inr rows => (select_rows t (fst <$> right) stmt (select_pipeline t (fst <$> right) stmt rows), St.OK)
       end.

Definition select_extended (env : getenv) (t : TableDef) (right : option (TableDef * JoinClause)) (stmt : SelectStmt)
    (txn_id : Z) : CM (option ExecOutput) :=
  if negb (txn_id =? 0) then
    rs ← run_extended env t right stmt txn_id; output (select_status false rs.1 rs.2) txn_id
  else
    txn ← Coord.Begin;
    rs ← run_extended env t right stmt txn;
    finish_select false txn rs.1 rs.2.

Definition is_extended (stmt : SelectStmt) : bool :=
  bool_decide (is_Some (se_join stmt)) || bool_decide (is_Some (order_by stmt)) || bool_decide (is_Some (limit stmt)) ||
  negb (bool_decide (aggregates stmt = [])) || negb (bool_decide (is_Some (se_where stmt))).

Definition ExecSelect (env : getenv) (cat : Catalog) (stmt : SelectStmt) (txn_id : Z) : CM (option ExecOutput) :=
  match GetTable cat (se_table_name stmt) with
  | None => output (failed_with "unknown table") txn_id
  | Some t =>
      if is_extended stmt then
        match se_join stmt with
        | None => select_extended env t None stmt txn_id
        | Some j =>
            match GetTable cat (jc_table_name j) with
            | None => output (failed_with "unknown JOIN table") txn_id
            | Some rt => select_extended env t (Some (rt, j)) stmt txn_id
            end
        end
      else select_by_key t stmt txn_id
  end.

(** ** UPDATE *)

(** The new text of a cell; [None] is an exception. *)
Definition arith_cell (ct : ColumnType) (cur : bytes) (x : ArithExpr) : option bytes :=
  match ct with
  | FLOAT =>
      base ← fst <$> stod cur;
      opd ← literal_double (ae_operand x);
      Some (double_to_stream (match ae_op x with ADD => dadd base opd | SUB => dsub base opd end))
  | _ =>
      base ← stoll cur;
      opd ← literal_int (ae_operand x);
      Some (to_string (match ae_op x with ADD => add_i64 base opd | SUB => add_i64 base (- opd) end))
  end.
(** Outer [None] is an exception. *)
Fixpoint assign_cells (t : TableDef) (cells : list bytes) (asgs : list Assignment) : option (Status + list bytes) :=
  match asgs with
  | [] => Some (inr cells)
  | a :: asgs =>
      match ColumnIndex t (as_column a) with
      | None => Some (inl (St.Error InvalidArgument "unknown SET column"))
      | Some ci =>
          cell ← match as_value a with
                 | inr lit => Some (LiteralToString lit)
                 | inl x => arith_cell (default VARCHAR (c_type <$> columns t !! ci)) (default [] (cells !! ci)) x
                 end;
          assign_cells t (<[ci := cell]> cells) asgs
      end
  end.

(** The row to change, checked against the conditions. *)
Definition read_row (t : TableDef) (pk : bytes) (conds : WhereClause) (txn : Z) : CM (Status + list bytes) :=
  rs ← Coord.Read txn (table_id t) pk;
  mret (if negb (St.ok rs.1) then inl rs.1
        else
          let cells := DeserializeRow (default [] rs.2) in
          if negb (length cells =? length (columns t))%nat then inl (St.Error InvalidArgument "corrupt row")
          else
            match check_where t cells conds with
            | UnknownColumn => inl (St.Error InvalidArgument "unknown column in WHERE")
            | Fails => inl (St.NotFound "filter mismatch")
            | Holds => inr cells
            end).

Definition apply_update (t : TableDef) (stmt : UpdateStmt) (pk : bytes) (txn : Z) : CM (option Status) :=
  r ← read_row t pk (up_where stmt) txn;
  match r with
  | inl st => mret (Some st)
  | inr cells =>
      match assign_cells t cells (assignments stmt) with
      | None => mret None
      | Some (inl st) => mret (Some st)
      | Some (inr cells) =>
          st ← Coord.Write txn (table_id t) pk (AppendU16LE (Z.of_nat (length (columns t))) ++ append_cells cells);
          mret (Some st)
      end
  end.
Definition apply_delete (t : TableDef) (stmt : DeleteStmt) (pk : bytes) (txn : Z) : CM (option Status) :=
  r ← read_row t pk (de_where stmt) txn;
  match r with
  | inl st => mret (Some st)
  | inr _ => st ← Coord.Delete txn (table_id t) pk; mret (Some st)
  end.

(** What UPDATE and DELETE report: a row that is not found is no error. *)
Definition changed (verb : string) (n : Z) : ExecResult := set_tag (set_affected ExecResult0 n) (say verb n).
Definition change_status (verb : string) (st : Status) : ExecResult :=
  if St.ok st then changed verb 1
  else if bool_decide (code st = NotFound) then changed verb 0
  else failed_status ExecResult0 st.
(** The end of both; an exception from [apply] leaves the transaction open. *)
Definition change_row (verb : string) (apply : Z → CM (option Status)) (txn_id : Z) : CM (option ExecOutput) :=
  if negb (txn_id =? 0) then
    r ← apply txn_id;
    match r with None => mret None | Some st => output (change_status verb st) txn_id end
  else
    txn ← Coord.Begin;
    r ← apply txn;
    match r with
    | None => mret None
    | Some st =>
        if negb (St.ok st) then Coord.Abort txn ;; output (change_status verb st) 0
        else
          c ← Coord.Commit txn;
          output (if negb (St.ok c) then failed_status ExecResult0 c else changed verb 1) 0
    end.

Definition ExecUpdate (cat : Catalog) (stmt : UpdateStmt) (txn_id : Z) : CM (option ExecOutput) :=
  match GetTable cat (up_table_name stmt) with
  | None => output (failed_with "unknown table") txn_id
  | Some t =>
      match ExtractPrimaryKey (up_where stmt) t with
      | None => mret None
      | Some None => output (failed_with "UPDATE requires point lookup on primary key") txn_id
      | Some (Some pk) => change_row "UPDATE " (apply_update t stmt pk) txn_id
      end
  end.
Definition ExecDelete (cat : Catalog) (stmt : DeleteStmt) (txn_id : Z) : CM (option ExecOutput) :=
  match GetTable cat (de_table_name stmt) with
  | None => output (failed_with "unknown table") txn_id
  | Some t =>
      match ExtractPrimaryKey (de_where stmt) t with
      | None => mret None
      | Some None => output (failed_with "DELETE requires point lookup on primary key") txn_id
      | Some (Some pk) => change_row "DELETE " (apply_delete t stmt pk) txn_id
      end
  end.

(** ** Transactions *)

Definition ExecBegin (txn_id : Z) : CM (option ExecOutput) :=
  if negb (txn_id =? 0) then output (failed_with "already in transaction") txn_id
  else txn ← Coord.Begin; output (set_tag ExecResult0 (str "BEGIN")) txn.
Definition ExecCommit (txn_id : Z) : CM (option ExecOutput) :=
  if txn_id =? 0 then output (failed_with "no transaction in progress") 0
  else
    st ← Coord.Commit txn_id;
    if negb (St.ok st) then output (failed_status ExecResult0 st) txn_id
    else output (set_tag ExecResult0 (str "COMMIT")) 0.
Definition ExecRollback (txn_id : Z) : CM (option ExecOutput) :=
  (if negb (txn_id =? 0) then Coord.Abort txn_id else mret St.OK) ;;
  output (set_tag ExecResult0 (str "ROLLBACK")) 0.

(** The catalog after the statement, and its output. *)
Definition Execute (env : getenv) (cat : Catalog) (stmt : Statement) (txn_id : Z) : CM (Catalog * option ExecOutput) :=
  match stmt with
  | CreateTableS s => let '(cat, out) := ExecCreateTable cat s txn_id in mret (cat, Some out)
  | InsertS s => out ← ExecInsert cat s txn_id; mret (cat, out)
  | SelectS s => out ← ExecSelect env cat s txn_id; mret (cat, out)
  | UpdateS s => out ← ExecUpdate cat s txn_id; mret (cat, out)
  | DeleteS s => out ← ExecDelete cat s txn_id; mret (cat, out)
  | BeginS => out ← ExecBegin txn_id; mret (cat, out)
  | CommitS => out ← ExecCommit txn_id; mret (cat, out)
  | RollbackS => out ← ExecRollback txn_id; mret (cat, out)
  end.
End executor.
End Exec.
