(* ===== verification/ExecutorProofs.v ===== *)
(** * Correctness of the executor

    What a statement does with transactions: an autocommit statement leaves no
    transaction behind, a statement in a transaction neither begins nor ends one. *)
From Stdlib Require Import Strings.Byte Strings.Ascii.
From stdpp Require Import base gmap sets strings sorting list.
From Stdlib Require Import ZArith Lia.
From S2P Require Import Prelude Status GroupCommit ShardMessages Effects CoordinatorLog Coordinator.
From S2P Require Import Text Catalog JoinHandler Lexer Parser DistributedJoin Executor.
Local Open Scope Z_scope.

(** ** Programs that keep the open transactions *)

(** Every complete run of [m] relates the states as [Q] says. *)
Definition ensures {A} (m : CM A) (Q : Coordinator → Coordinator → A → Prop) : Prop :=
  ∀ c tr c' a, path (m c) tr (Some (c', a)) → Q c c' a.

(** The transactions the coordinator has, and its next number. *)
Definition open_txns (c : Coordinator) : gset Z := dom (c_txns_ c).
Definition same_txns (c c' : Coordinator) : Prop :=
  open_txns c' = open_txns c ∧ next_raft_id_ c' = next_raft_id_ c ∧ num_shards_ c' = num_shards_ c.
#[export] Instance same_txns_pre : PreOrder same_txns.
Proof. split; [done|]. intros a b c (?&?&?) (?&?&?). split_and!; congruence. Qed.

Definition keeps {A} (m : CM A) : Prop := ensures m (λ c c' _, same_txns c c').

Lemma ensures_mret {A} (a : A) (Q : Coordinator → Coordinator → A → Prop) : (∀ c, Q c c a) → ensures (mret a) Q.
Proof. intros HQ c tr c' x H. apply mret_inv in H as [_ [?|E]]; [done|]. by injection E as -> ->. Qed.
Lemma ensures_bind {A B} (m : CM A) (f : A → CM B) (R : Coordinator → Coordinator → A → Prop)
    (Q : Coordinator → Coordinator → B → Prop) :
  ensures m R → (∀ a, ensures (f a) (λ c1 c2 b, ∀ c, R c c1 a → Q c c2 b)) → ensures (m ≫= f) Q.
Proof.
  intros Hm Hf c tr c' b H. apply cm_bind_inv in H as [[_ ?]|(tr1 & tr2 & c1 & a & -> & H1 & H2)]; [done|].
  eapply Hf; [exact H2|]. by eapply Hm.
Qed.
Lemma ensures_impl {A} (m : CM A) (Q Q' : Coordinator → Coordinator → A → Prop) :
  ensures m Q → (∀ c c' a, Q c c' a → Q' c c' a) → ensures m Q'.
Proof. intros Hm HQ c tr c' a H. eapply HQ, Hm, H. Qed.

Lemma keeps_at {A} (m : CM A) c tr c' a : path (m c) tr (Some (c', a)) → keeps m → same_txns c c'.
Proof. intros H Hm. by eapply Hm. Qed.
Lemma keeps_mret {A} (a : A) : keeps (mret a).
Proof. by apply ensures_mret. Qed.
Lemma keeps_bind {A B} (m : CM A) (f : A → CM B) : keeps m → (∀ a, keeps (f a)) → keeps (m ≫= f).
Proof.
  intros Hm Hf. eapply ensures_bind; [exact Hm|]. intros a. eapply ensures_impl; [apply Hf|].
  intros c1 c2 b H c Hc. by etrans.
Qed.
Lemma keeps_perform a : keeps (perform a).
Proof. intros c tr c' r H. apply perform_inv in H as [[_ ?]|(x & -> & [?|E])]; [done..|]. by injection E as -> ->. Qed.
Lemma keeps_get : keeps get_state.
Proof. intros c tr c' r [_ [?|E]]; [done|]. by injection E as -> ->. Qed.
Lemma keeps_modify {A} (g : Coordinator → Coordinator) (m : CM A) :
  (∀ c, same_txns c (g c)) → keeps m → keeps (c ← get_state; set_state (g c) ;; m).
Proof.
  intros Hg Hm c tr c' a H. apply cm_bind_inv in H as [[_ ?]|(tr1 & tr2 & c1 & x & -> & [_ [?|E]] & H1)]; [done..|].
  injection E as -> ->. apply cm_bind_inv in H1 as [[_ ?]|(tr3 & tr4 & c2 & [] & -> & [_ [?|E]] & H2)]; [done..|].
  injection E as ->. etrans; [apply Hg|by eapply Hm].
Qed.
Lemma keeps_fan_out {A B} (task : A → CM B) l : (∀ x, keeps (task x)) → keeps (fan_out task l).
Proof.
  intros Ht. induction l as [|x l IH]; cbn [fan_out]; [apply keeps_mret|].
  apply keeps_bind; [apply Ht|]. intros y. apply keeps_bind; [exact IH|]. intros ys. apply keeps_mret.
Qed.

Create HintDb keeps discriminated.
#[export] Hint Resolve keeps_mret keeps_perform keeps_get : keeps.
Ltac keep1 := first [match goal with |- keeps (perform ?a) => exact (keeps_perform a) end | apply keeps_mret | solve [auto with keeps nocore]].
Ltac keep :=
  repeat match goal with
  | |- keeps (_ ≫= _) => apply keeps_bind; [solve [keep1 | keep]|]; intros ?
  | |- keeps (if ?b then _ else _) => destruct b
  | |- keeps (match ?x with _ => _ end) => destruct x
  | |- keeps _ => keep1
  end.

Lemma keeps_GetStub sid : keeps (Coord.GetStub sid).
Proof. unfold Coord.GetStub. keep. Qed.
Lemma keeps_RotateStub sid : keeps (Coord.RotateStub sid).
Proof.
  intros c tr c' [] H. unfold Coord.RotateStub in H.
  apply cm_bind_inv in H as [[_ ?]|(tr1 & tr2 & c1 & x & -> & [_ [?|E]] & H1)]; [done..|]. injection E as -> ->.
  destruct (replica_stubs_ c !! sid) as [k|]; [destruct (k <=? 1)%nat|]; destruct H1 as [_ [?|E]]; try done;
    by injection E as ->.
Qed.
#[export] Hint Resolve keeps_GetStub keeps_RotateStub : keeps.

Lemma keeps_RpcExecute sid req : keeps (Coord.RpcExecuteOnShard sid req).
Proof. unfold Coord.RpcExecuteOnShard. keep. Qed.
#[export] Hint Resolve keeps_RpcExecute : keeps.
Lemma keeps_execute_retry a sid req resp : keeps (Coord.execute_retry a sid req resp).
Proof. revert resp. induction a as [|a IH]; intros resp; cbn [Coord.execute_retry]; keep; apply IH. Qed.
Lemma keeps_ExecuteWithLeaderRetry sid req : keeps (Coord.ExecuteWithLeaderRetry sid req).
Proof. apply keeps_execute_retry. Qed.
#[export] Hint Resolve keeps_ExecuteWithLeaderRetry : keeps.

Lemma keeps_EnsureShardParticipant t txn sid : keeps (Coord.EnsureShardParticipant t txn sid).
Proof.
  unfold Coord.EnsureShardParticipant. case_decide; [keep|]. apply keeps_bind; [auto with keeps|]. intros r.
  destruct (St.ok r.1.1); [|keep]. apply keeps_modify; [|keep]. intros c. split_and!; [|done..].
  unfold open_txns. cbn. apply dom_alter_L.
Qed.
#[export] Hint Resolve keeps_EnsureShardParticipant : keeps.
Lemma keeps_key_request t key req : keeps (Coord.key_request t key req).
Proof. unfold Coord.key_request. keep. Qed.
#[export] Hint Resolve keeps_key_request : keeps.
Lemma keeps_Read t tid key : keeps (Coord.Read t tid key).
Proof. apply keeps_key_request. Qed.
Lemma keeps_Write t tid key v : keeps (Coord.Write t tid key v).
Proof. unfold Coord.Write. keep. Qed.
Lemma keeps_Delete t tid key : keeps (Coord.Delete t tid key).
Proof. unfold Coord.Delete. keep. Qed.
Lemma keeps_ensure_all t txn sids : keeps (Coord.ensure_all t txn sids).
Proof. induction sids as [|sid sids IH]; cbn [Coord.ensure_all]; keep. Qed.
#[export] Hint Resolve keeps_Read keeps_Write keeps_Delete keeps_ensure_all : keeps.
Lemma keeps_Scan t tid a b o : keeps (Coord.Scan t tid a b o).
Proof.
  unfold Coord.Scan. keep. apply keeps_bind; [apply keeps_fan_out; intros; keep|]. intros rs. keep.
Qed.
Lemma keeps_join_retry a sid req resp : keeps (Coord.join_retry a sid req resp).
Proof.
  revert resp. induction a as [|a IH]; intros resp; cbn [Coord.join_retry]; [keep|].
  unfold Coord.RpcDistributedJoinOnShard. keep; apply IH.
Qed.
#[export] Hint Resolve keeps_Scan keeps_join_retry : keeps.
Lemma keeps_DistributedJoinOnShard sid req : keeps (Coord.DistributedJoinOnShard sid req).
Proof. unfold Coord.DistributedJoinOnShard. generalize Coord.kLeaderRetryAttempts. intros a. keep. Qed.
#[export] Hint Resolve keeps_DistributedJoinOnShard : keeps.
Lemma keeps_run_on_shards n req : keeps (DistributedJoinPlanner.run_on_shards n req).
Proof.
  unfold DistributedJoinPlanner.run_on_shards. apply keeps_bind; [apply keeps_fan_out; intros; keep|]. intros rs. keep.
Qed.
#[export] Hint Resolve keeps_run_on_shards : keeps.
Lemma keeps_ExecuteInnerJoin n stmt l r t op : keeps (DistributedJoinPlanner.ExecuteInnerJoin n stmt l r t op).
Proof.
  unfold DistributedJoinPlanner.ExecuteInnerJoin, DistributedJoinPlanner.join_scanned, DistributedJoinPlanner.ScanTable,
    DistributedJoinPlanner.RunBroadcastJoin,
    DistributedJoinPlanner.RunShuffleJoin. keep.
Qed.
#[export] Hint Resolve keeps_ExecuteInnerJoin : keeps.

(** *** The commit protocol *)

Lemma keeps_Now : keeps Coord.Now.
Proof.
  intros c tr c' a H. apply cm_bind_inv in H as [[_ ?]|(tr1 & tr2 & c1 & x & -> & [_ [?|E]] & H1)]; [done..|].
  injection E as -> ->. cbn in H1. destruct H1 as [_ [?|E]]; [done|]. by injection E as -> ->.
Qed.
Lemma keeps_prepare_loop a sid t ts resp : keeps (Coord.prepare_loop a sid t ts resp).
Proof. revert resp. induction a as [|a IH]; intros resp; cbn [Coord.prepare_loop]; keep. Qed.
Lemma keeps_commit_loop a sid t ts resp : keeps (Coord.commit_loop a sid t ts resp).
Proof. revert resp. induction a as [|a IH]; intros resp; cbn [Coord.commit_loop]; keep. Qed.
Lemma keeps_abort_loop a sid t : keeps (Coord.abort_loop a sid t).
Proof. induction a as [|a IH]; cbn [Coord.abort_loop]; keep. Qed.
#[export] Hint Resolve keeps_Now keeps_prepare_loop keeps_commit_loop keeps_abort_loop : keeps.
Lemma keeps_append_write ty t sh : keeps (Coord.AppendCoordinatorRecordWrite ty t sh).
Proof. unfold Coord.AppendCoordinatorRecordWrite. keep. Qed.
Lemma keeps_flush : keeps Coord.FlushCoordinatorLog.
Proof. exact (keeps_perform ALogFlush). Qed.
#[export] Hint Resolve keeps_append_write keeps_flush : keeps.
Lemma keeps_append ty t sh : keeps (Coord.AppendCoordinatorRecord ty t sh).
Proof. unfold Coord.AppendCoordinatorRecord. keep. Qed.
Lemma keeps_PrepareOnShard sid t ts : keeps (Coord.PrepareOnShard sid t ts).
Proof. unfold Coord.PrepareOnShard. keep. Qed.
Lemma keeps_CommitOnShard sid t ts : keeps (Coord.CommitOnShard sid t ts).
Proof. unfold Coord.CommitOnShard. keep. Qed.
Lemma keeps_AbortOnShard sid t : keeps (Coord.AbortOnShard sid t).
Proof. unfold Coord.AbortOnShard. keep. Qed.
#[export] Hint Resolve keeps_append keeps_PrepareOnShard keeps_CommitOnShard keeps_AbortOnShard : keeps.
#[export] Hint Extern 1 (keeps (fan_out _ _)) => apply keeps_fan_out; intros : keeps.
Lemma keeps_SingleShardCommit t sid ts : keeps (Coord.SingleShardCommit t sid ts).
Proof. unfold Coord.SingleShardCommit. keep. Qed.
Lemma keeps_TwoPhaseCommit t parts ts : keeps (Coord.TwoPhaseCommit t parts ts).
Proof. unfold Coord.TwoPhaseCommit. keep. Qed.
Lemma keeps_abort_once t sid : keeps (Coord.abort_once t sid).
Proof. unfold Coord.abort_once. keep. Qed.
#[export] Hint Resolve keeps_SingleShardCommit keeps_TwoPhaseCommit keeps_abort_once : keeps.

(** ** Programs that begin and end transactions *)

(** [t] is closed, the other transactions are kept. *)
Definition closes (t : Z) (c c' : Coordinator) : Prop :=
  open_txns c' = open_txns c ∖ {[t]} ∧ next_raft_id_ c' = next_raft_id_ c ∧ num_shards_ c' = num_shards_ c.
Lemma closes_same t c1 c2 c3 c4 : same_txns c1 c2 → closes t c2 c3 → same_txns c3 c4 → closes t c1 c4.
Proof. intros (?&?&?) (?&?&?) (?&?&?). split_and!; congruence. Qed.
Lemma closes_absent t c : c_txns_ c !! t = None → closes t c c.
Proof. intros Hn. split_and!; [|done..]. apply not_elem_of_dom in Hn. unfold open_txns. set_solver. Qed.

Lemma erase_txn_closes t : ensures (Coord.erase_txn t) (λ c c' _, closes t c c').
Proof.
  intros c tr c' a H. apply cm_bind_inv in H as [[_ ?]|(tr1 & tr2 & c1 & x & -> & [_ [?|E]] & H1)]; [done..|].
  injection E as -> ->. destruct H1 as [_ [?|E]]; [done|]. injection E as ->. split_and!; [|done..].
  unfold open_txns. cbn. apply dom_delete_L.
Qed.

(** [Commit] and [Abort] end the transaction whatever happens. *)
Lemma Commit_closes t : ensures (Coord.Commit t) (λ c c' _, closes t c c').
Proof.
  intros c tr c' a H. apply cm_bind_inv in H as [[_ ?]|(tr1 & tr2 & c1 & x & -> & [_ [?|E]] & H1)]; [done..|].
  injection E as -> ->. destruct (c_txns_ c !! t) as [txn|] eqn:Et.
  2: { apply mret_inv in H1 as [_ [?|E]]; [done|]. injection E as -> ->. by apply closes_absent. }
  assert (Herase : ∀ c0 c2 tr st, path ((Coord.erase_txn t ;; (mret st : CM Status)) c0) tr (Some (c2, a)) → closes t c0 c2).
  { intros c0 c2 tr st H. apply cm_bind_inv in H as [[_ ?]|(tr3 & tr4 & c3 & y & -> & H3 & H4)]; [done|].
    apply mret_inv in H4 as [_ [?|E]]; [done|]. injection E as -> ->. by eapply erase_txn_closes. }
  destruct (aborted txn); [by eapply Herase|]. case_decide; [by eapply Herase|].
  apply cm_bind_inv in H1 as [[_ ?]|(tr3 & tr4 & c3 & ts & -> & H3 & H4)]; [done|].
  apply cm_bind_inv in H4 as [[_ ?]|(tr5 & tr6 & c4 & out & -> & H5 & H6)]; [done|].
  apply (closes_same t c c4 c' c'); [|by eapply Herase|done].
  etrans; [by eapply keeps_Now|]. apply keeps_at in H5; [done|]. keep.
Qed.
Lemma Abort_closes t : ensures (Coord.Abort t) (λ c c' _, closes t c c').
Proof.
  intros c tr c' a H. apply cm_bind_inv in H as [[_ ?]|(tr1 & tr2 & c1 & x & -> & [_ [?|E]] & H1)]; [done..|].
  injection E as -> ->. destruct (c_txns_ c !! t) as [txn|] eqn:Et.
  2: { apply mret_inv in H1 as [_ [?|E]]; [done|]. injection E as -> ->. by apply closes_absent. }
  apply cm_bind_inv in H1 as [[_ ?]|(tr3 & tr4 & c3 & ts & -> & H3 & H4)]; [done|].
  apply (closes_same t c c c3 c'); [done|by eapply erase_txn_closes|].
  apply (keeps_at _ _ _ _ _ H4). change (keeps
    ((match elements (participant_shards txn) with [] => mret St.OK | _ => Coord.AppendCoordinatorRecord ABORTING (raft_txn_id txn) [] end) ;;
     fan_out (Coord.abort_once (raft_txn_id txn)) (elements (participant_shards txn)) ;;
     (match elements (participant_shards txn) with [] => mret St.OK | _ => Coord.AppendCoordinatorRecord ABORTED (raft_txn_id txn) [] end) ;;
     mret St.OK)). keep.
Qed.

Section statements.
Context `{Undefined} `{StdSort}.

Lemma Begin_opens : ensures Coord.Begin (λ c c' t, t = next_raft_id_ c ∧ open_txns c' = {[t]} ∪ open_txns c ∧
  next_raft_id_ c' = u64 (next_raft_id_ c + 1)).
Proof.
  intros c tr c' a Hp. cbn in Hp. destruct Hp as [_ [?|E]]; [done|]. injection E as -> ->. split_and!; [done| |done].
  unfold open_txns. cbn. by rewrite dom_insert_L.
Qed.

(** What a statement that ends its own transaction ensures: the transactions are
    those of before. An exception ([None]) is left out. *)
Definition ends_clean (t : Z) (c c' : Coordinator) (o : option ExecOutput) : Prop :=
  ∀ out, o = Some out → open_txns c' = open_txns c ∖ {[t]} ∧ x_txn_id out = 0 ∧ next_raft_id_ c' = next_raft_id_ c.
(** At most one transaction number is used. *)
Definition advances (c c' : Coordinator) : Prop :=
  next_raft_id_ c' = next_raft_id_ c ∨ next_raft_id_ c' = u64 (next_raft_id_ c + 1).
Definition autocommits (c c' : Coordinator) (o : option ExecOutput) : Prop :=
  ∀ out, o = Some out → x_txn_id out = 0 ∧ advances c c' ∧ (next_raft_id_ c ∉ open_txns c → open_txns c' = open_txns c).
Definition keeps_session (txn : Z) (c c' : Coordinator) (o : option ExecOutput) : Prop :=
  open_txns c' = open_txns c ∧ next_raft_id_ c' = next_raft_id_ c ∧ ∀ out, o = Some out → x_txn_id out = txn.

Lemma output_ends r : ensures (mret (Some (MkExecOutput r 0)) : CM (option ExecOutput))
  (λ c c' o, c' = c ∧ ∀ out, o = Some out → x_txn_id out = 0).
Proof. apply ensures_mret. intros c. split; [done|]. by intros out [= <-]. Qed.
Lemma abort_output t r : ensures (Coord.Abort t ;; mret (Some (MkExecOutput r 0))) (ends_clean t).
Proof.
  eapply ensures_bind; [apply Abort_closes|]. intros st. eapply ensures_impl; [apply (output_ends r)|].
  intros c1 c2 o [-> Ho] c (Hc & Hn & _) out Eo. split_and!; [done|by apply Ho|done].
Qed.
Lemma commit_output t (r : Status → ExecResult) :
  ensures (c ← Coord.Commit t; mret (Some (MkExecOutput (r c) 0))) (ends_clean t).
Proof.
  eapply ensures_bind; [apply Commit_closes|]. intros st. eapply ensures_impl; [apply (output_ends (r st))|].
  intros c1 c2 o [-> Ho] c (Hc & Hn & _) out Eo. split_and!; [done|by apply Ho|done].
Qed.
Lemma begin_body {R} (body : Z → CM R) (fin : Z → R → CM (option ExecOutput)) :
  (∀ t, keeps (body t)) → (∀ t r, ensures (fin t r) (ends_clean t)) →
  ensures (t ← Coord.Begin; r ← body t; fin t r) autocommits.
Proof.
  intros Hb Hf. eapply ensures_bind; [apply Begin_opens|]. intros t.
  eapply ensures_bind; [apply Hb|]. intros r. eapply ensures_impl; [apply Hf|].
  intros c3 c4 o Ho c2 (Hs & Hn & _) c (-> & Hc & Hn1) out Eo. destruct (Ho out Eo) as (Hc4 & -> & Hn4). split_and!; [done| |].
  - right. congruence.
  - intros Hfresh. rewrite Hc4, Hs, Hc. set_solver.
Qed.

Lemma finish_select_ends nf t r st : ensures (Exec.finish_select nf t r st) (ends_clean t).
Proof.
  unfold Exec.finish_select. destruct (negb (St.ok st)).
  - destruct (nf && _); apply abort_output.
  - destruct (negb (x_ok r)); [apply abort_output|]. apply (commit_output t (λ c, if negb (St.ok c) then _ else r)).
Qed.
Lemma session_output {A} (m : CM A) (f : A → ExecResult) txn : keeps m →
  ensures (a ← m; mret (Some (MkExecOutput (f a) txn))) (keeps_session txn).
Proof.
  intros Hm. eapply ensures_bind; [exact Hm|]. intros a. apply ensures_mret. intros c c0 (Hs & Hn & _). split_and!; [done..|].
  by intros out [= <-].
Qed.
Lemma failed_output r txn : ensures (mret (Some (MkExecOutput r txn)) : CM (option ExecOutput)) (keeps_session txn).
Proof. apply ensures_mret. intros c. split_and!; [done..|]. by intros out [= <-]. Qed.

(** *** Each statement, in a transaction and without one *)

Definition statement_effect (txn : Z) (m : CM (option ExecOutput)) : Prop :=
  ensures m (λ c c' o, if txn =? 0 then autocommits c c' o else keeps_session txn c c' o).
Lemma effect_failed r txn : statement_effect txn (mret (Some (MkExecOutput r txn))).
Proof.
  eapply ensures_impl; [apply failed_output|]. intros c c' o (Hc & Hn & Ho). destruct (Z.eqb_spec txn 0) as [->|]; [|by split].
  intros out Eo. split_and!; [by apply Ho|by left|done].
Qed.
Lemma effect_throws txn : statement_effect txn (mret None).
Proof.
  apply ensures_mret. intros c. destruct (txn =? 0); [done|by split_and!].
Qed.
(** The two ways to run the body of a statement. *)
Lemma effect_run {R} txn (body : Z → CM R) (f : R → ExecResult) (fin : Z → R → CM (option ExecOutput)) :
  (∀ t, keeps (body t)) → (∀ t r, ensures (fin t r) (ends_clean t)) →
  statement_effect txn (if negb (txn =? 0) then (r ← body txn; mret (Some (MkExecOutput (f r) txn)))
                        else (t ← Coord.Begin; r ← body t; fin t r)).
Proof.
  intros Hb Hf. unfold statement_effect. destruct (txn =? 0); cbn [negb]; [by apply begin_body|by apply session_output].
Qed.

Lemma effect_ExecInsert cat stmt txn : statement_effect txn (Exec.ExecInsert cat stmt txn).
Proof.
  unfold Exec.ExecInsert. destruct (GetTable _ _) as [t|]; [|apply effect_failed].
  destruct (Exec.insert_row t stmt) as [e|[pk row]]; [apply effect_failed|].
  apply (effect_run txn (λ t0, Coord.Write t0 (table_id t) pk row)
    (λ st, if negb (St.ok st) then Exec.failed_status ExecResult0 st else Exec.inserted)); [auto with keeps|].
  intros t0 st. destruct (negb (St.ok st)); [apply abort_output|].
  apply (commit_output t0 (λ c, if negb (St.ok c) then _ else _)).
Qed.
Lemma keeps_run_point t stmt names kr tid : keeps (Exec.run_point t stmt names kr tid).
Proof. unfold Exec.run_point. keep. Qed.
Lemma keeps_run_range t stmt names kr tid : keeps (Exec.run_range t stmt names kr tid).
Proof. unfold Exec.run_range. keep. Qed.
Lemma keeps_run_extended env t right stmt tid : keeps (Exec.run_extended env t right stmt tid).
Proof. unfold Exec.run_extended. keep. Qed.
Lemma effect_ExecSelect env cat stmt txn : statement_effect txn (Exec.ExecSelect env cat stmt txn).
Proof.
  unfold Exec.ExecSelect. destruct (GetTable _ _) as [t|]; [|apply effect_failed].
  assert (He : ∀ right, statement_effect txn (Exec.select_extended env t right stmt txn)).
  { intros right. apply (effect_run txn (Exec.run_extended env t right stmt) (λ rs, Exec.select_status false rs.1 rs.2));
      [intros; apply keeps_run_extended|]. intros. apply finish_select_ends. }
  destruct (Exec.is_extended stmt).
  { destruct (se_join stmt) as [j|]; [|apply He]. destruct (GetTable _ _); [apply He|apply effect_failed]. }
  unfold Exec.select_by_key. destruct (Exec.ExtractKeyRange _ _) as [[kr|]|]; [|apply effect_failed|apply effect_throws].
  destruct (Exec.is_point kr && _); [apply effect_failed|]. destruct (negb (Exec.is_point kr) && _); [apply effect_failed|].
  set (names := match se_columns stmt with [] => _ | _ => _ end).
  apply (effect_run txn (λ t0, if Exec.is_point kr then Exec.run_point t stmt names kr t0 else Exec.run_range t stmt names kr t0)
    (λ rs, Exec.select_status (Exec.is_point kr) rs.1 rs.2)).
  - intros t0. destruct (Exec.is_point kr); [apply keeps_run_point|apply keeps_run_range].
  - intros. apply finish_select_ends.
Qed.
Lemma keeps_apply_update t stmt pk txn : keeps (Exec.apply_update t stmt pk txn).
Proof. unfold Exec.apply_update, Exec.read_row. keep. Qed.
Lemma keeps_apply_delete t stmt pk txn : keeps (Exec.apply_delete t stmt pk txn).
Proof. unfold Exec.apply_delete, Exec.read_row. keep. Qed.
Lemma effect_change_row verb apply txn : (∀ t, keeps (apply t)) → statement_effect txn (Exec.change_row verb apply txn).
Proof.
  intros Ha. unfold Exec.change_row, statement_effect. destruct (txn =? 0); cbn [negb].
  - apply begin_body; [done|]. intros t [st|]; [|by apply ensures_mret].
    destruct (negb (St.ok st)); [apply abort_output|]. apply (commit_output t (λ c, if negb (St.ok c) then _ else _)).
  - eapply ensures_bind; [apply Ha|]. intros [st|]; apply ensures_mret; intros c c0 (Hs & Hn & _); (split_and!; [done..|]);
      [by intros out [= <-]|done].
Qed.
Lemma effect_ExecUpdate cat stmt txn : statement_effect txn (Exec.ExecUpdate cat stmt txn).
Proof.
  unfold Exec.ExecUpdate. destruct (GetTable _ _) as [t|]; [|apply effect_failed].
  destruct (Exec.ExtractPrimaryKey _ _) as [[pk|]|]; [|apply effect_failed|apply effect_throws].
  apply effect_change_row. intros. apply keeps_apply_update.
Qed.
Lemma effect_ExecDelete cat stmt txn : statement_effect txn (Exec.ExecDelete cat stmt txn).
Proof.
  unfold Exec.ExecDelete. destruct (GetTable _ _) as [t|]; [|apply effect_failed].
  destruct (Exec.ExtractPrimaryKey _ _) as [[pk|]|]; [|apply effect_failed|apply effect_throws].
  apply effect_change_row. intros. apply keeps_apply_delete.
Qed.
End statements.

(** *** A statement *)

(** The open transactions and the session's transaction after a statement. *)
Definition txns_after (stmt : Statement) (txn : Z) (c : Coordinator) : gset Z :=
  match stmt with
  | BeginS => if txn =? 0 then {[next_raft_id_ c]} ∪ open_txns c else open_txns c
  | CommitS | RollbackS => if txn =? 0 then open_txns c else open_txns c ∖ {[txn]}
  | _ => open_txns c
  end.
Definition session_after (stmt : Statement) (txn : Z) (ok : bool) (c : Coordinator) : Z :=
  match stmt with
  | BeginS => if txn =? 0 then next_raft_id_ c else txn
  | CommitS => if ok then 0 else txn
  | RollbackS => 0
  | _ => txn
  end.
Lemma execute_transactions `{Undefined} `{StdSort} env cat cat' stmt txn c c' tr out :
  path (Exec.Execute env cat stmt txn c) tr (Some (c', (cat', Some out))) →
  x_txn_id out = session_after stmt txn (x_ok (x_result out)) c ∧ advances c c' ∧
  (txn ≠ 0 ∨ next_raft_id_ c ∉ open_txns c → open_txns c' = txns_after stmt txn c) ∧
  (stmt = BeginS → txn = 0 → next_raft_id_ c' = u64 (next_raft_id_ c + 1)) ∧
  (stmt = RollbackS → x_ok (x_result out) = true).
Proof.
  intros Hp.
  assert (Hstmt : ∀ m, statement_effect txn m → path ((o ← m; mret (cat, o)) c) tr (Some (c', (cat', Some out))) →
    x_txn_id out = txn ∧ advances c c' ∧ (txn ≠ 0 ∨ next_raft_id_ c ∉ open_txns c → open_txns c' = open_txns c)).
  { intros m Hm Hb. apply cm_bind_inv in Hb as [[_ ?]|(tr1 & tr2 & c1 & o & -> & H1 & H2)]; [done|].
    apply mret_inv in H2 as [_ [?|E]]; [done|]. injection E as -> -> <-. specialize (Hm _ _ _ _ H1). cbn in Hm.
    destruct (Z.eqb_spec txn 0) as [->|].
    - destruct (Hm out eq_refl) as (Ht & Ha & Ho). split_and!; [done..|]. intros [?|?]; [done|by apply Ho].
    - destruct Hm as (? & ? & Ho). split_and!; [by apply Ho|by left|done]. }
  destruct stmt as [s|s|s|s|s| | |]; cbn [Exec.Execute] in Hp.
  - unfold Exec.ExecCreateTable in Hp. destruct (CreateTable _ _ _ _) as [cat1 tid].
    apply mret_inv in Hp as [_ [?|E]]; [done|]. injection E as -> -> ->. by split_and!; [|left|..].
  - destruct (Hstmt _ (effect_ExecInsert _ _ _) Hp) as (? & ? & ?). by split_and!.
  - destruct (Hstmt _ (effect_ExecSelect _ _ _ _) Hp) as (? & ? & ?). by split_and!.
  - destruct (Hstmt _ (effect_ExecUpdate _ _ _) Hp) as (? & ? & ?). by split_and!.
  - destruct (Hstmt _ (effect_ExecDelete _ _ _) Hp) as (? & ? & ?). by split_and!.
  - unfold Exec.ExecBegin in Hp. unfold txns_after, session_after. destruct (Z.eqb_spec txn 0) as [->|Hne]; cbn [negb] in Hp.
    + apply cm_bind_inv in Hp as [[_ ?]|(tr1 & tr2 & c1 & o & -> & H1 & H2)]; [done|].
      apply cm_bind_inv in H1 as [[_ ?]|(tr3 & tr4 & c2 & t & -> & H3 & H4)]; [done|].
      apply mret_inv in H4 as [_ [?|E]]; [done|]. injection E as -> ->.
      apply mret_inv in H2 as [_ [?|E]]; [done|]. injection E as -> -> ->. apply Begin_opens in H3 as (-> & -> & ?).
      by split_and!; [|right|..].
    + apply cm_bind_inv in Hp as [[_ ?]|(tr1 & tr2 & c1 & o & -> & H1 & H2)]; [done|].
      apply mret_inv in H1 as [_ [?|E]]; [done|]. injection E as -> ->.
      apply mret_inv in H2 as [_ [?|E]]; [done|]. injection E as -> -> ->. by split_and!; [|left|..].
  - unfold Exec.ExecCommit in Hp. apply cm_bind_inv in Hp as [[_ ?]|(tr1 & tr2 & c1 & o & -> & H1 & H2)]; [done|].
    apply mret_inv in H2 as [_ [?|E]]; [done|]. injection E as -> -> <-. unfold txns_after, session_after.
    destruct (Z.eqb_spec txn 0) as [->|Hne].
    + apply mret_inv in H1 as [_ [?|E]]; [done|]. injection E as -> ->. by split_and!; [|left|..].
    + apply cm_bind_inv in H1 as [[_ ?]|(tr3 & tr4 & c2 & st & -> & H3 & H4)]; [done|].
      apply Commit_closes in H3 as (Hc & Hn & _).
      destruct (negb (St.ok st)); apply mret_inv in H4 as [_ [?|E]]; [done| |done|]; injection E as -> ->; by split_and!; [|left|..].
  - unfold Exec.ExecRollback in Hp. apply cm_bind_inv in Hp as [[_ ?]|(tr1 & tr2 & c1 & o & -> & H1 & H2)]; [done|].
    apply mret_inv in H2 as [_ [?|E]]; [done|]. injection E as -> -> <-. unfold txns_after, session_after.
    apply cm_bind_inv in H1 as [[_ ?]|(tr3 & tr4 & c2 & st & -> & H3 & H4)]; [done|].
    apply mret_inv in H4 as [_ [?|E]]; [done|]. injection E as -> ->. destruct (Z.eqb_spec txn 0) as [->|Hne]; cbn [negb] in H3.
    + apply mret_inv in H3 as [_ [?|E]]; [done|]. injection E as -> _. by split_and!; [|left|..].
    + apply Abort_closes in H3 as (Hc & Hn & _). by split_and!; [|left|..].
Qed.

(** ** Claims *)

(** C12. Statements and transactions. Of every run of a statement that does not end in an
    exception: without a transaction a statement leaves exactly the transactions that
    were open before, whatever calls failed on the way, so autocommit never leaks one;
    BEGIN opens one with a new number and makes it the session's; in a transaction a
    statement neither begins nor ends one; COMMIT and ROLLBACK end the session's and
    no other, also when the commit fails. *)
Theorem session_transactions `{Undefined} `{StdSort} (env : getenv) (cat cat' : Catalog) (stmt : Statement) (txn : Z)
    (c c' : Coordinator) (tr : list CEvent) (out : ExecOutput) :
  path (Exec.Execute env cat stmt txn c) tr (Some (c', (cat', Some out))) → next_raft_id_ c ∉ open_txns c →
  open_txns c' =
    match stmt with
    | BeginS => if txn =? 0 then {[next_raft_id_ c]} ∪ open_txns c else open_txns c
    | CommitS | RollbackS => if txn =? 0 then open_txns c else open_txns c ∖ {[txn]}
    | _ => open_txns c
    end ∧
  x_txn_id out =
    match stmt with
    | BeginS => if txn =? 0 then next_raft_id_ c else txn
    | CommitS => if x_ok (x_result out) then 0 else txn
    | RollbackS => 0
    | _ => txn
    end.
Proof.
  intros Hp Hfresh. destruct (execute_transactions _ _ _ _ _ _ _ _ _ Hp) as (Ht & _ & Ho & _). split; [|exact Ht].
  apply Ho. by right.
Qed.
