(* ===== verification/ExecutorRows.v ===== *)
(** * What the executor reads and writes

    The rows that INSERT and UPDATE store, the keys that a condition selects and the
    calls that a SELECT makes. *)
From Stdlib Require Import Strings.Byte Strings.Ascii.
From stdpp Require Import base gmap sets strings sorting list.
From Stdlib Require Import ZArith Lia.
From S2P Require Import Prelude Status GroupCommit ShardMessages Effects CoordinatorLog Coordinator.
From S2P Require Import Text Catalog JoinHandler Lexer Parser DistributedJoin Executor ExecutorProofs.
Local Open Scope Z_scope.

(** Instances for the examples: overflow wraps around, sorting is by insertion. *)
Definition wrapping : Undefined := {| undefined_cast _ := INT64_MIN; undefined_sum z := (z + 2 ^ 63) mod 2 ^ 64 - 2 ^ 63 |}.

Fixpoint sorted_insert {A} (lt : A → A → bool) (x : A) (l : list A) : list A :=
  match l with [] => [x] | y :: l' => if lt x y then x :: l else y :: sorted_insert lt x l' end.
Definition insertion_sort {A} (lt : A → A → bool) (l : list A) : list A := foldr (sorted_insert lt) [] l.

Lemma sorted_insert_perm {A} (lt : A → A → bool) x l : sorted_insert lt x l ≡ₚ x :: l.
Proof. induction l as [|y l IH]; cbn; [done|]. destruct (lt x y); [done|]. rewrite IH. constructor. Qed.
Lemma insertion_sort_perm {A} (lt : A → A → bool) l : insertion_sort lt l ≡ₚ l.
Proof. induction l as [|x l IH]; cbn; [done|]. rewrite sorted_insert_perm. by f_equiv. Qed.
Lemma insertion_sort_sorted {A} (key : A → bytes) (lt : bytes → bytes → bool) (l : list A) :
  (∀ a, lt a a = false) → (∀ a b c, lt a b = true → lt b c = true → lt a c = true) →
  (∀ a b, lt a b = false → lt b a = false → a = b) →
  StronglySorted (λ x y, lt (key y) (key x) = false) (insertion_sort (λ x y, lt (key x) (key y)) l).
Proof.
  intros Hirr Htr Htot.
  assert (Hasym : ∀ a b, lt a b = true → lt b a = false).
  { intros a b Hab. destruct (lt b a) eqn:E; [|done]. by rewrite <- (Hirr a), (Htr a b a). }
  assert (Hle : ∀ a b c, lt b a = false → lt c b = false → lt c a = false).
  { intros a b c Hba Hcb. destruct (lt c a) eqn:Eca; [|done]. destruct (lt a b) eqn:Eab.
    - by rewrite <- Hcb, (Htr c a b).
    - by rewrite (Htot a b), Hcb in Eca. }
  induction l as [|x l IH]; [constructor|].
  change (insertion_sort (λ x y, lt (key x) (key y)) (x :: l)) with
    (sorted_insert (λ x y, lt (key x) (key y)) x (insertion_sort (λ x y, lt (key x) (key y)) l)).
  revert IH. generalize (insertion_sort (λ x y, lt (key x) (key y)) l).
  clear l. intros l. induction 1 as [|y l Hl IHl Hy]; cbn; [by repeat constructor|].
  destruct (lt (key x) (key y)) eqn:E.
  - constructor; [by constructor|]. constructor; [by apply Hasym|]. eapply Forall_impl; [exact Hy|].
    intros z Hz. cbn in *. eapply Hle; [|exact Hz]. by apply Hasym.
  - constructor; [done|]. rewrite sorted_insert_perm. by constructor.
Qed.
Definition std_insertion_sort : StdSort :=
  {| std_sort := @insertion_sort; std_sort_perm := @insertion_sort_perm; std_sort_sorted := @insertion_sort_sorted |}.

(** ** Integer text *)

Lemma digit_not_minus s : Forall (λ c, isdigit c = true) s → s ≠ [] → head s ≠ Some (ch "-").
Proof. intros HF Hne. destruct HF as [|c s Hc _]; [done|]. intros [= ->]. by vm_compute in Hc. Qed.
Lemma to_string_inj a b : to_string a = to_string b → a = b.
Proof.
  assert (Hd : ∀ n, 0 ≤ n → digits_value (dec n) = n ∧ head (dec n) ≠ Some (ch "-")).
  { intros n Hn. destruct (dec_spec n Hn) as (HF & Hv & Hne). split; [done|by apply digit_not_minus]. }
  assert (Hinj : ∀ n m, 0 ≤ n → 0 ≤ m → dec n = dec m → n = m).
  { intros n m Hn Hm E. destruct (Hd n Hn) as [<- _], (Hd m Hm) as [<- _]. by rewrite E. }
  unfold to_string. intros E. destruct (Z.ltb_spec a 0), (Z.ltb_spec b 0).
  - injection E as E. apply Hinj in E; lia.
  - destruct (Hd b) as [_ Hb]; [lia|]. by rewrite <- E in Hb.
  - destruct (Hd a) as [_ Ha]; [lia|]. by rewrite E in Ha.
  - apply Hinj; [lia..|done].
Qed.
Lemma to_string_nonempty a : to_string a ≠ [].
Proof.
  unfold to_string. destruct (Z.ltb_spec a 0); [done|]. by destruct (dec_spec a) as (_ & _ & ?); [lia|].
Qed.

(** ** The key range of a condition *)

Section key_range.
Context `{Undefined}.

(** A value satisfies the conditions. *)
Definition satisfies (v : Z) (conds : WhereClause) : Prop :=
  Forall (λ e, ∀ w, ce_value e = LitInt w → Exec.compare_int v (ce_op e) w = true) conds.
(** Conditions with integer literals as the parser makes them, below the largest. *)
Definition int_literals (conds : WhereClause) : Prop := Forall (λ e, ∃ w, ce_value e = LitInt w ∧ 0 ≤ w < INT64_MAX) conds.

Lemma apply_int_cmp_exact lo hi op w v : is_i64 v → 0 ≤ w < INT64_MAX → op ≠ CompareOp.NE →
  let b := Exec.apply_int_cmp (Exec.MkIntBounds lo hi false) op w in
  Exec.ne_i b = false ∧ (Exec.lo_i b ≤ v ≤ Exec.hi_i b ↔ lo ≤ v ≤ hi ∧ Exec.compare_int v op w = true).
Proof.
  intros Hv Hw Hop. unfold is_i64, INT64_MAX, INT64_MIN in *.
  assert (Hadd : ∀ d, -1 ≤ d ≤ 1 → add_i64 w d = w + d).
  { intros d Hd. unfold add_i64. rewrite bool_decide_eq_true_2; [done|]. unfold is_i64, INT64_MIN, INT64_MAX. lia. }
  destruct op; cbn; rewrite ?Hadd by lia; try done; (split; [done|]);
    rewrite ?Z.eqb_eq, ?Z.ltb_lt, ?Z.leb_le; lia.
Qed.
Lemma int_bounds_exact conds lo hi : int_literals conds →
  ∃ b, Exec.int_bounds (Exec.MkIntBounds lo hi false) conds = Some b ∧
    (Exec.ne_i b = true ↔ Exists (λ e, ce_op e = CompareOp.NE) conds) ∧
    (Exec.ne_i b = false → ∀ v, is_i64 v → Exec.lo_i b ≤ v ≤ Exec.hi_i b ↔ lo ≤ v ≤ hi ∧ satisfies v conds).
Proof.
  intros HF. revert lo hi.
  assert (Hne : ∀ conds lo hi, int_literals conds →
    ∃ b, Exec.int_bounds (Exec.MkIntBounds lo hi true) conds = Some b ∧ Exec.ne_i b = true).
  { clear. intros conds lo hi HF. revert lo hi. induction HF as [|e conds (w & Ew & Hw) _ IH]; intros lo hi; cbn; [by eexists|].
    rewrite Ew. cbn. destruct (ce_op e); apply IH. }
  induction HF as [|e conds (w & Ew & Hw) HF IH]; intros lo hi.
  { cbn. eexists. split; [done|]. split; [split; [done|by intros ?%Exists_nil]|]. intros _ v _. cbn.
    unfold satisfies. rewrite Forall_nil. tauto. }
  cbn [Exec.int_bounds]. rewrite Ew. cbn [mbind option_bind Exec.literal_int].
  destruct (decide (ce_op e = CompareOp.NE)) as [En|En].
  - rewrite En. cbn [Exec.apply_int_cmp]. destruct (Hne conds lo hi HF) as (b & -> & Hb). exists b. split; [done|].
    split; [|congruence]. rewrite Exists_cons. tauto.
  - pose proof (λ v Hv, apply_int_cmp_exact lo hi (ce_op e) w v Hv Hw En) as Hex. cbn zeta in Hex.
    destruct (Exec.apply_int_cmp (Exec.MkIntBounds lo hi false) (ce_op e) w) as [lo' hi' ne'].
    cbn [Exec.lo_i Exec.hi_i Exec.ne_i] in Hex. destruct (Hex 0) as [-> _]; [by vm_compute|].
    destruct (IH lo' hi') as (b & -> & Hb & Hs). exists b. split; [done|]. split.
    + rewrite Hb, Exists_cons. tauto.
    + intros Eb v Hv. rewrite (Hs Eb v Hv). destruct (Hex v Hv) as [_ ->]. unfold satisfies. rewrite Forall_cons.
      rewrite Ew. split; [intros [[? ?] ?]|intros [? [Hc ?]]]; split_and!; try tauto; try (by intros ? [= <-]).
      by apply Hc.
Qed.

(** What [ExtractKeyRange] gives for conditions on an integer key: the interval of
    the integers that satisfy them, as a single key or as a range of keys. *)
Definition range_describes (conds : WhereClause) (r : option Exec.KeyRange) : Prop :=
  match r with
  | None => conds = [] ∨ Exists (λ e, ce_op e = CompareOp.NE) conds
  | Some kr => ∃ lo hi, (∀ v, is_i64 v → satisfies v conds ↔ lo ≤ v ≤ hi) ∧
      if Exec.is_point kr then
        ∀ v, is_i64 v → satisfies v conds ↔ Exec.k_start kr = to_string v
      else Exec.k_start kr = to_string lo ∧ lo < hi ∧
        if Exec.end_unbounded kr then hi = INT64_MAX else Exec.k_end kr = to_string (hi + 1)
  end.

(** The keys of a condition. For an integer primary key and integer literals, the
    conjunction of the conditions on the key is turned into the interval of exactly
    the integers that satisfy it: a single key is read when one integer does, nothing
    when none does, and else a range from its least to its greatest member; without a
    condition on the key, or with an inequality among them, there is no key range. *)
Theorem key_range_exact (where_ : WhereClause) (t : TableDef) (pkcol : ColumnDef) :
  Exec.FindColumn t (primary_key t) = Some pkcol → c_type pkcol = INT ∨ c_type pkcol = BIGINT →
  int_literals (Exec.pk_conditions (primary_key t) where_) →
  ∃ r, Exec.ExtractKeyRange where_ t = Some r ∧ range_describes (Exec.pk_conditions (primary_key t) where_) r.
Proof.
  intros Hpk Hty HF. set (conds := Exec.pk_conditions _ _) in *. unfold Exec.ExtractKeyRange. rewrite Hpk.
  destruct (int_bounds_exact conds INT64_MIN INT64_MAX HF) as (b & Eb & Hne & Hb).
  assert (Hr : range_describes conds (if bool_decide (conds = []) then None else Exec.int_range b)).
  2: { fold conds. destruct Hty as [-> | ->]; cbn [mbind option_bind]; rewrite Eb; by eexists. }
  case_bool_decide as Ec; [by left|]. destruct b as [lo hi ne]. cbn [Exec.ne_i Exec.lo_i Exec.hi_i] in *.
  unfold Exec.int_range. destruct ne; [right; by apply Hne|].
  assert (Hs : ∀ v, is_i64 v → satisfies v conds ↔ lo ≤ v ≤ hi)
    by (intros v Hv; rewrite (Hb eq_refl v Hv); unfold is_i64 in Hv; tauto).
  destruct (Z.ltb_spec hi lo).
  { exists lo, hi. split; [done|]. intros v Hv. rewrite Hs by done. split; [lia|]. intros E. by destruct (to_string_nonempty v). }
  destruct (Z.eqb_spec lo hi) as [<-|].
  { exists lo, lo. split; [done|]. intros v Hv. rewrite Hs by done. split; [intros ?; cbn; by replace v with lo by lia|].
    intros ->%to_string_inj. lia. }
  destruct (Z.eqb_spec hi INT64_MAX) as [->|]; exists lo, hi || exists lo, INT64_MAX; cbn; split_and!; (done || lia).
Qed.
End key_range.

(** ** The rows that are stored *)

Section rows.
Context `{Undefined} `{StdSort}.

Lemma append_cells_row n cells :
  Exec.AppendU16LE (Z.of_nat n) ++ Exec.append_cells cells = row_bytes n cells.
Proof. done. Qed.

(** The literal that a list of named values gives to a column. *)
Definition gives (names : list bytes) (values : list LiteralExpr) (name : bytes) (v : LiteralExpr) : Prop :=
  ∃ i, names !! i = Some name ∧ values !! i = Some v.
Lemma gives_map names values name v : NoDup names → gives names values name v →
  (foldl (λ (m : gmap bytes bytes) nv, <[nv.1 := Exec.LiteralToString nv.2]> m) ∅ (zip names values)) !! name =
  Some (Exec.LiteralToString v).
Proof.
  intros Hnd (i & Hn & Hv). revert values i Hv Hnd Hn. generalize (∅ : gmap bytes bytes).
  induction names as [|n names IH]; intros m [|w values] [|i]; try done; cbn [zip zip_with foldl fst snd].
  - intros [= ->] [Hn Hnd]%NoDup_cons [= ->]. clear IH.
    assert (Hk : ∀ m : gmap bytes bytes, m !! name = Some (Exec.LiteralToString v) →
      foldl (λ (m : gmap bytes bytes) nv, <[nv.1 := Exec.LiteralToString nv.2]> m) m (zip names values) !! name =
      Some (Exec.LiteralToString v)); [|apply Hk, lookup_insert_eq].
    clear m Hnd. revert values. induction names as [|n names IH]; intros [|w values] m Hm; try done.
    apply not_elem_of_cons in Hn as [Hne Hn]. cbn. apply IH; [done|]. by rewrite lookup_insert_ne.
  - intros Hv [_ Hnd]%NoDup_cons Hn. by apply (IH _ _ i).
Qed.

(** The row of an INSERT, and its key. *)
Lemma insert_row_cells t stmt pk row : NoDup (in_columns stmt) → length (in_columns stmt) = length (in_values stmt) →
  Exec.insert_row t stmt = inr (pk, row) →
  let cells := Exec.cells_of t (in_columns stmt) (in_values stmt) in
  row = row_bytes (length cells) cells ∧
  Forall2 (λ c cell, ∃ v, gives (in_columns stmt) (in_values stmt) (c_name c) v ∧ cell = Exec.LiteralToString v)
    (columns t) cells ∧
  ∃ v, gives (in_columns stmt) (in_values stmt) (primary_key t) v ∧ pk = Exec.LiteralToString v.
Proof.
  intros Hnd Hlen. unfold Exec.insert_row. destruct (forallb _ _) eqn:Hall; cbn [negb]; [|done].
  destruct (list_find _ _) as [[ix w]|] eqn:Ef; [|done]. destruct (Exec.FindColumn _ _) as [pkc|]; [|done].
  intros [= <- <-]. cbn zeta. split; [|split].
  - unfold Exec.SerializeRow. rewrite append_cells_row. f_equal. unfold Exec.cells_of. by rewrite length_fmap.
  - rewrite forallb_forall in Hall. unfold Exec.cells_of. apply Forall2_fmap_r, Forall_Forall2_diag, Forall_forall.
    intros c Hc. apply list_elem_of_In, Hall, bool_decide_eq_true, list_elem_of_lookup in Hc as [i Hi].
    destruct (lookup_lt_is_Some_2 (in_values stmt) i) as [v Hv]; [rewrite <- Hlen; by eapply lookup_lt_Some|].
    assert (Hg : gives (in_columns stmt) (in_values stmt) (c_name c) v) by (by exists i).
    exists v. split; [done|]. by rewrite (gives_map _ _ _ _ Hnd Hg).
  - apply list_find_Some in Ef as (Hi & -> & _).
    destruct (lookup_lt_is_Some_2 (in_values stmt) ix) as [v Hv]; [rewrite <- Hlen; by eapply lookup_lt_Some|].
    exists v. split; [by exists ix|]. by rewrite Hv.
Qed.

(** A successful INSERT outside a transaction begins a transaction, writes one row
    under the text of its primary key and commits; both calls succeeded. The row that
    is written decodes to the texts of the values in the order of the table's columns. *)
Theorem insert_stores_row (cat : Catalog) (stmt : InsertStmt) (t : TableDef) (c c' : Coordinator) (tr : list CEvent)
    (out : ExecOutput) :
  GetTable cat (in_table_name stmt) = Some t →
  NoDup (in_columns stmt) → length (in_columns stmt) = length (in_values stmt) →
  Z.of_nat (length (columns t)) < 2 ^ 16 →
  Forall (λ v, is_u32 (Z.of_nat (length (Exec.LiteralToString v)))) (in_values stmt) →
  path (Exec.ExecInsert cat stmt 0 c) tr (Some (c', Some out)) → x_ok (x_result out) = true →
  ∃ v row c1 c2 tr1 tr2 st1 st2,
    gives (in_columns stmt) (in_values stmt) (primary_key t) v ∧
    Forall2 (λ c cell, ∃ v, gives (in_columns stmt) (in_values stmt) (c_name c) v ∧ cell = Exec.LiteralToString v)
      (columns t) (Exec.DeserializeRow row) ∧
    tr = tr1 ++ tr2 ∧ path (Coord.Begin c) [] (Some (c1, next_raft_id_ c)) ∧
    path (Coord.Write (next_raft_id_ c) (table_id t) (Exec.LiteralToString v) row c1) tr1 (Some (c2, st1)) ∧
    St.ok st1 = true ∧
    path (Coord.Commit (next_raft_id_ c) c2) tr2 (Some (c', st2)) ∧ St.ok st2 = true.
Proof.
  intros Ht Hnd Hlen Hcols Hsize Hp Hok. unfold Exec.ExecInsert in Hp. rewrite Ht in Hp.
  destruct (Exec.insert_row t stmt) as [e|[pk row]] eqn:Er.
  { apply mret_inv in Hp as [_ [?|E]]; [done|]. by injection E as -> ->. }
  destruct (insert_row_cells t stmt pk row Hnd Hlen Er) as (Hrow & Hcells & v & Hv & ->).
  cbn [Z.eqb negb] in Hp. apply cm_bind_inv in Hp as [[_ ?]|(tr0 & tr' & c1 & txn & -> & Hb & Hp)]; [done|].
  assert (txn = next_raft_id_ c ∧ tr0 = []) as [-> ->].
  { destruct (Begin_opens _ _ _ _ Hb) as [-> _]. split; [done|]. by destruct Hb. }
  apply cm_bind_inv in Hp as [[_ ?]|(tr1 & tr2 & c2 & st1 & -> & Hw & Hp)]; [done|].
  destruct (St.ok st1) eqn:Est1; cbn [negb] in Hp.
  2: { apply cm_bind_inv in Hp as [[_ ?]|(tr3 & tr4 & c3 & y & -> & _ & Hp)]; [done|].
       apply mret_inv in Hp as [_ [?|E]]; [done|]. by injection E as -> ->. }
  apply cm_bind_inv in Hp as [[_ ?]|(tr3 & tr4 & c3 & st2 & -> & Hc & Hp)]; [done|].
  apply mret_inv in Hp as [-> [?|E]]; [done|]. injection E as -> ->. destruct (St.ok st2) eqn:Est2; [|done].
  exists v, row, c1, c2, tr1, tr3, st1, st2. split_and!; try done; [|by rewrite app_nil_r].
  replace (Exec.DeserializeRow row) with (Exec.cells_of t (in_columns stmt) (in_values stmt)); [done|].
  rewrite Hrow. unfold Exec.DeserializeRow. rewrite <- (app_nil_r (row_bytes _ _)). symmetry. apply row_bytes_cells.
  - by rewrite <- (Forall2_length _ _ _ Hcells).
  - rewrite Forall_forall in Hsize. apply Forall_forall. intros cell [i Hi]%list_elem_of_lookup.
    destruct (Forall2_lookup_r _ _ _ _ _ Hcells Hi) as (col & _ & w & (k & _ & Hk) & ->).
    apply Hsize. by eapply list_elem_of_lookup_2.
Qed.
(** *** UPDATE *)

(** The conditions on the columns other than the primary key hold of the cells. *)
Definition conditions_hold (t : TableDef) (cells : list bytes) (conds : WhereClause) : Prop :=
  Forall (λ e, ce_column e ≠ primary_key t → ∃ ci, Exec.ColumnIndex t (ce_column e) = Some ci ∧
    Exec.CompareCell (default [] (cells !! ci)) (ce_op e) (ce_value e)
      (default VARCHAR (c_type <$> columns t !! ci)) = true) conds.
Lemma check_where_holds t cells conds : Exec.check_where t cells conds = Exec.Holds → conditions_hold t cells conds.
Proof.
  induction conds as [|e conds IH]; cbn [Exec.check_where]; [by constructor|]. case_bool_decide as Epk.
  { intros Hc. constructor; [done|by apply IH]. }
  destruct (Exec.ColumnIndex _ _) as [ci|] eqn:Eci; [|done]. destruct (Exec.CompareCell _ _ _ _) eqn:Ecmp; [|done].
  intros Hc. constructor; [by exists ci|by apply IH].
Qed.

(** The new text of a cell under an assignment; [None] is an exception. *)
Definition new_cell (ct : ColumnType) (cell : bytes) (v : ArithExpr + LiteralExpr) : option bytes :=
  match v with inr lit => Some (Exec.LiteralToString lit) | inl x => Exec.arith_cell ct cell x end.
Definition type_at (t : TableDef) (i : nat) : ColumnType := default VARCHAR (c_type <$> columns t !! i).

Lemma assign_cells_other t cells asgs cells' i : Exec.assign_cells t cells asgs = Some (inr cells') →
  (∀ a, a ∈ asgs → Exec.ColumnIndex t (as_column a) ≠ Some i) → cells' !! i = cells !! i.
Proof.
  revert cells. induction asgs as [|a asgs IH]; intros cells; cbn [Exec.assign_cells]; [by intros [= ->]|].
  destruct (Exec.ColumnIndex t (as_column a)) as [ci|] eqn:Eci; [|done].
  destruct (match as_value a with inl x => _ | inr lit => _ end) as [cell|]; [|done]. cbn [mbind option_bind].
  intros Ha Hne. rewrite (IH _ Ha); [|intros b Hb; apply Hne; by apply elem_of_cons; right].
  apply list_lookup_insert_ne. intros ->. by apply (Hne a); [apply elem_of_cons; left|].
Qed.
Lemma assign_cells_length t cells asgs cells' : Exec.assign_cells t cells asgs = Some (inr cells') →
  length cells' = length cells.
Proof.
  revert cells. induction asgs as [|a asgs IH]; intros cells; cbn [Exec.assign_cells]; [by intros [= ->]|].
  destruct (Exec.ColumnIndex t (as_column a)) as [ci|]; [|done].
  destruct (match as_value a with inl x => _ | inr lit => _ end) as [cell|]; [|done]. cbn [mbind option_bind].
  intros Ha. by rewrite (IH _ Ha), length_insert.
Qed.
Lemma column_index_name cols n m i : column_index cols n = Some i → column_index cols m = Some i → n = m.
Proof.
  revert i. induction cols as [|c cols IH]; intros i; cbn; [done|]. repeat case_bool_decide; [congruence| | |].
  - intros [= <-]. by destruct (column_index cols m).
  - destruct (column_index cols n); [|done]. by intros [= <-].
  - destruct (column_index cols n) as [x|]; [|done]. destruct (column_index cols m) as [y|]; [|done].
    intros [= <-] [= ->]. by apply (IH x).
Qed.
(** A column that is assigned once gets the value computed from its old text. *)
Lemma assign_cells_assigned t cells asgs cells' a i cell : NoDup (as_column <$> asgs) →
  Exec.assign_cells t cells asgs = Some (inr cells') → a ∈ asgs →
  Exec.ColumnIndex t (as_column a) = Some i → cells !! i = Some cell →
  ∃ new, new_cell (type_at t i) cell (as_value a) = Some new ∧ cells' !! i = Some new.
Proof.
  revert cells. induction asgs as [|b asgs IH]; intros cells Hnd; [by intros _ ?%elem_of_nil|].
  rewrite fmap_cons in Hnd. apply NoDup_cons in Hnd as [Hb Hnd].
  cbn [Exec.assign_cells]. destruct (Exec.ColumnIndex t (as_column b)) as [ci|] eqn:Eci; [|done].
  destruct (match as_value b with inl x => _ | inr lit => _ end) as [nw|] eqn:Ev; [|done]. cbn [mbind option_bind].
  intros Ha Hin Eai Ecell. apply elem_of_cons in Hin as [->|Hin].
  - rewrite Eai in Eci. injection Eci as <-. exists nw. split.
    { rewrite Ecell in Ev. unfold new_cell, type_at. by destruct (as_value b). }
    rewrite (assign_cells_other _ _ _ _ _ Ha); [apply list_lookup_insert_eq; by eapply lookup_lt_Some|].
    intros d Hd Edi. apply Hb. rewrite (column_index_name _ _ _ _ Eai Edi). apply list_elem_of_fmap. by exists d.
  - apply (IH _ Hnd Ha Hin Eai). rewrite list_lookup_insert_ne; [done|]. intros ->. apply Hb.
    rewrite (column_index_name _ _ _ _ Eci Eai). apply list_elem_of_fmap. by exists a.
Qed.

(** What an update makes of the cells of a row. *)
Definition updates_cells (t : TableDef) (asgs : list Assignment) (cells cells' : list bytes) : Prop :=
  length cells' = length cells ∧
  ∀ i cell, cells !! i = Some cell →
    (∀ a, a ∈ asgs → Exec.ColumnIndex t (as_column a) = Some i →
       ∃ new, new_cell (type_at t i) cell (as_value a) = Some new ∧ cells' !! i = Some new) ∧
    ((∀ a, a ∈ asgs → Exec.ColumnIndex t (as_column a) ≠ Some i) → cells' !! i = Some cell).

(** C15. A successful UPDATE reads the row under its primary key, finds every condition on
    the other columns to hold of it, and writes one row back under the same key: each
    assigned column has the value computed from the text the column had before, and
    every other cell is unchanged. *)
Theorem update_rewrites_row (t : TableDef) (stmt : UpdateStmt) (pk : bytes) (txn : Z) (c c' : Coordinator)
    (tr : list CEvent) (st : Status) :
  NoDup (as_column <$> assignments stmt) →
  path (Exec.apply_update t stmt pk txn c) tr (Some (c', Some st)) → St.ok st = true →
  ∃ data cells' c1 tr1 tr2 st0,
    tr = tr1 ++ tr2 ∧ path (Coord.Read txn (table_id t) pk c) tr1 (Some (c1, (st0, data))) ∧ St.ok st0 = true ∧
    let cells := Exec.DeserializeRow (default [] data) in
    length cells = length (columns t) ∧ conditions_hold t cells (up_where stmt) ∧
    updates_cells t (assignments stmt) cells cells' ∧
    path (Coord.Write txn (table_id t) pk (row_bytes (length (columns t)) cells') c1) tr2 (Some (c', st)).
Proof.
  intros Hnd Hp Hok. unfold Exec.apply_update, Exec.read_row in Hp.
  apply cm_bind_inv in Hp as [[_ ?]|(tr0 & tr' & c1 & r & -> & Hr & Hp)]; [done|].
  apply cm_bind_inv in Hr as [[_ ?]|(tr1 & tr2 & c2 & [st0 data] & -> & Hread & Hr)]; [done|].
  apply mret_inv in Hr as [-> [?|E]]; [done|]. cbn [fst snd] in E. rewrite app_nil_r.
  assert (Hfail : ∀ st0, St.ok st0 = false → path ((mret (Some st0) : CM (option Status)) c1) tr' (Some (c', Some st)) → False).
  { intros st1 Hst1 Hm. apply mret_inv in Hm as [_ [?|E1]]; [done|]. injection E1 as -> ->. congruence. }
  destruct (St.ok st0) eqn:Est0; cbn [negb] in E; [|injection E as -> ->; by destruct (Hfail st0)].
  destruct (Nat.eqb_spec (length (Exec.DeserializeRow (default [] data))) (length (columns t))) as [Hlen|];
    cbn [negb] in E; [|injection E as -> ->; (exfalso; by eapply Hfail; [|exact Hp])].
  destruct (Exec.check_where _ _ _) eqn:Ec; [|injection E as -> ->; (exfalso; by eapply Hfail; [|exact Hp])..].
  injection E as -> ->. destruct (Exec.assign_cells _ _ _) as [[est|cells']|] eqn:Ea; [| |by apply mret_inv in Hp as [_ [?|?]]].
  { exfalso. revert Ea. generalize (Exec.DeserializeRow (default [] data)). generalize (assignments stmt). intros asgs.
    induction asgs as [|a asgs IH]; intros cells; cbn [Exec.assign_cells]; [done|].
    destruct (Exec.ColumnIndex _ _); [|intros [= <-]; (exfalso; by eapply Hfail; [|exact Hp])].
    destruct (match as_value a with inl x => _ | inr lit => _ end); [|done]. cbn [mbind option_bind]. apply IH. }
  apply cm_bind_inv in Hp as [[_ ?]|(tr3 & tr4 & c3 & st1 & -> & Hw & Hp)]; [done|].
  apply mret_inv in Hp as [-> [?|E]]; [done|]. injection E as -> ->. rewrite app_nil_r.
  exists data, cells', c2, tr1, tr3, st0. cbn zeta. split; [done|]. split; [exact Hread|]. split; [exact Est0|].
  split; [exact Hlen|]. split; [by apply check_where_holds|]. split; [|exact Hw].
  split; [by eapply assign_cells_length|]. intros i cell Hi. split.
  - intros a Hin Eai. by eapply assign_cells_assigned.
  - intros Hne. by rewrite (assign_cells_other _ _ _ _ _ Ea Hne).
Qed.
End rows.
