(* ===== verification/SelectProofs.v ===== *)
(** * What a SELECT returns and sends

    The rows of a SELECT over a whole table, the arithmetic of UPDATE on integers, and
    that a SELECT asks the shards for reads only. *)
From Stdlib Require Import Strings.Byte Strings.Ascii.
From stdpp Require Import base gmap sets strings sorting list.
From Stdlib Require Import ZArith Lia.
From S2P Require Import Prelude Status GroupCommit ShardMessages Effects CoordinatorLog Coordinator.
From S2P Require Import Text Catalog JoinHandler Lexer Parser DistributedJoin Executor ExecutorProofs ExecutorRows.
Local Open Scope Z_scope.

Section selects.
Context `{Undefined} `{StdSort}.

(** ** Sorting, filtering and cutting *)

(** [a] may stand before [b] in the result. *)
Definition in_order (o : option (bytes * bool)) (a b : RowMap) : Prop :=
  match o with
  | None => True
  | Some (column, desc) =>
      if (desc : bool) then bytes_le (Exec.order_key column b) (Exec.order_key column a)
      else bytes_le (Exec.order_key column a) (Exec.order_key column b)
  end.
Lemma order_lt_laws desc :
  (∀ a, Exec.order_lt desc a a = false) ∧
  (∀ a b c, Exec.order_lt desc a b = true → Exec.order_lt desc b c = true → Exec.order_lt desc a c = true) ∧
  (∀ a b, Exec.order_lt desc a b = false → Exec.order_lt desc b a = false → a = b).
Proof.
  assert (Heq : ∀ a b, ¬ bytes_lt a b → ¬ bytes_lt b a → a = b).
  { intros a b Hab Hba. rewrite bytes_not_lt, bytes_le_lteq in Hab. by destruct Hab as [?| ->]. }
  unfold Exec.order_lt. split_and!; intros a; [|intros b c|intros b]; destruct desc;
    rewrite ?bool_decide_eq_true, ?bool_decide_eq_false; eauto using bytes_lt_trans, bytes_lt_irrefl, eq_sym.
Qed.
Lemma order_rows_sorted o rows : StronglySorted (in_order o) (Exec.order_rows o rows) ∧ Exec.order_rows o rows ≡ₚ rows.
Proof.
  destruct o as [[column desc]|]; cbn [Exec.order_rows].
  - split; [|apply std_sort_perm]. destruct (order_lt_laws desc) as (Hi & Ht & Hq).
    pose proof (std_sort_sorted (Exec.order_key column) (Exec.order_lt desc) rows Hi Ht Hq) as Hs.
    induction Hs as [|x l Hl IH Hx]; constructor; [done|]. eapply Forall_impl; [exact Hx|]. intros y Hy. cbn in *.
    unfold Exec.order_lt in Hy. destruct desc; by rewrite bool_decide_eq_false, bytes_not_lt in Hy.
  - split; [|done]. induction rows as [|r rows IH]; constructor; [done|]. by apply Forall_forall.
Qed.

(** The rows of a scan under their column names. *)
Definition named_rows (t : TableDef) (kvs : list (bytes * bytes)) : list RowMap :=
  (λ kv, Exec.base_map t (Exec.DeserializeRow kv.2) ∅) <$> kvs.
Lemma scan_rows_single t kvs rows : Exec.scan_rows t None kvs [] = inr rows → rows = named_rows t kvs.
Proof.
  revert rows. induction kvs as [|kv kvs IH]; intros rows; cbn [Exec.scan_rows]; [by intros [= <-]|].
  destruct (negb _); [done|]. destruct (Exec.scan_rows t None kvs []) as [|rest]; [done|]. intros [= <-].
  unfold named_rows. rewrite fmap_cons. cbn [app]. f_equal. by apply IH.
Qed.

Definition selected (t : TableDef) (stmt : SelectStmt) (rows : list RowMap) : list RowMap :=
  match se_where stmt with Some w => filter (λ row, Exec.row_holds t None w row = true) rows | None => rows end.

(** The answer [r] of [stmt] on a table [t] whose scan gave [kvs]. *)
Definition answers (t : TableDef) (stmt : SelectStmt) (kvs : list (bytes * bytes)) (r : ExecResult) : Prop :=
  ∃ sorted,
    sorted ≡ₚ selected t stmt (named_rows t kvs) ∧ StronglySorted (in_order (order_by stmt)) sorted ∧
    x_columns r = (if select_all stmt || bool_decide (se_columns stmt = []) then c_name <$> columns t else se_columns stmt) ∧
    x_rows r = (λ row, Exec.row_value row <$> x_columns r) <$>
      match limit stmt with Some n => take (Z.to_nat n) sorted | None => sorted end.
Lemma run_extended_answers (env : getenv) (t : TableDef) (stmt : SelectStmt) (tid : Z) (c c' : Coordinator)
    (tr : list CEvent) (r : ExecResult) (st : Status) :
  aggregates stmt = [] →
  path (Exec.run_extended env t None stmt tid c) tr (Some (c', (r, st))) → St.ok st = true →
  ∃ st0 kvs, path (Coord.Scan tid (table_id t) [] [] true c) tr (Some (c', (st0, kvs))) ∧ St.ok st0 = true ∧
    answers t stmt kvs r.
Proof.
  intros Hagg Hp Hok. unfold Exec.run_extended in Hp.
  apply cm_bind_inv in Hp as [[_ ?]|(tr0 & tr1 & c1 & x & -> & [-> [?|E]] & Hp)]; [done..|]. injection E as -> ->.
  apply cm_bind_inv in Hp as [[_ ?]|(tr2 & tr3 & c2 & rows & -> & Hs & Hp)]; [done|].
  apply cm_bind_inv in Hs as [[_ ?]|(tr4 & tr5 & c3 & [st0 kvs] & -> & Hs & Hr)]; [done|].
  apply mret_inv in Hr as [-> [?|E]]; [done|]. injection E as -> ->.
  apply mret_inv in Hp as [-> [?|E]]; [done|]. rewrite app_nil_l, !app_nil_r. cbn [fst snd] in E.
  destruct (St.ok st0) eqn:Est0; cbn [negb] in E; [|injection E as -> -> ->; congruence].
  destruct (Exec.scan_rows t None kvs []) as [e|rows] eqn:Er.
  { injection E as -> -> ->. exfalso. revert Er. clear -Hok. induction kvs as [|kv kvs IH]; cbn [Exec.scan_rows]; [done|].
    destruct (negb _); [by intros [= <-]|]. destruct (Exec.scan_rows t None kvs []); [|done]. intros [= ->]. by apply IH. }
  injection E as -> -> _. apply scan_rows_single in Er as ->.
  destruct (order_rows_sorted (order_by stmt) (selected t stmt (named_rows t kvs))) as [Hsort Hperm].
  exists st0, kvs; split_and!; [exact Hs|exact Est0|].
  exists (Exec.order_rows (order_by stmt) (selected t stmt (named_rows t kvs))).
  split_and!; [exact Hperm|exact Hsort|..]; unfold Exec.select_rows; rewrite Hagg;
    cbn [set_tag set_rows x_columns x_rows fmap option_fmap option_map from_option]; rewrite ?app_nil_r; [done|].
  unfold Exec.select_pipeline. fold (selected t stmt (named_rows t kvs)).
  destruct (limit stmt) as [n|]; cbn [Exec.limit_rows]; [|done]. f_equal. destruct (Z.ltb_spec n (Z.of_nat (length
    (Exec.order_rows (order_by stmt) (selected t stmt (named_rows t kvs)))))) as [|Hge]; [done|].
  symmetry. apply take_ge. lia.
Qed.
Lemma finish_select_ok nf txn r0 st0 c tr c' x : path (Exec.finish_select nf txn r0 st0 c) tr (Some (c', Some x)) →
  x_ok (x_result x) = true →
  (nf = true ∧ St.ok st0 = false) ∨
  St.ok st0 = true ∧ x_result x = r0 ∧ ∃ st, path (Coord.Commit txn c) tr (Some (c', st)) ∧ St.ok st = true.
Proof.
  intros Hp Hx. unfold Exec.finish_select in Hp. destruct (St.ok st0) eqn:Est; cbn [negb] in Hp.
  - right. destruct (x_ok r0) eqn:Er; cbn [negb] in Hp;
      apply cm_bind_inv in Hp as [[_ ?]|(tr1 & tr2 & c1 & a & -> & Hc & Hp)]; try done;
      apply mret_inv in Hp as [-> [?|E]]; try done; injection E as -> ->; cbn [x_result] in *; [|congruence].
    rewrite app_nil_r. destruct (St.ok a) eqn:Ea; cbn [negb] in *; [|done]. eauto.
  - apply cm_bind_inv in Hp as [[_ ?]|(tr1 & tr2 & c1 & a & -> & Hc & Hp)]; [done|].
    destruct nf; [by left|]. cbn [andb] in Hp. apply mret_inv in Hp as [-> [?|E]]; [done|]. by injection E as -> ->.
Qed.

(** C14. A SELECT that the executor answers from the whole table: one with an ORDER BY or
    a LIMIT or without a WHERE, and with neither a join nor aggregates. (A SELECT that has
    a WHERE alone takes the way by key, which can lose rows, as [key_range_in_text_order]
    shows, and is not meant here.) When it succeeds, all of the table was scanned, in the
    transaction of the session or else in one that was begun for the statement and then
    committed, and the answer has, for every row that satisfies the conditions and for no
    other, the values of the selected columns; the rows are in the order of the texts of
    the column that ORDER BY names, and LIMIT keeps the first ones of them. *)
Theorem select_whole_table (env : getenv) (cat : Catalog) (t : TableDef) (stmt : SelectStmt) (txn_id : Z)
    (c c' : Coordinator) (tr : list CEvent) (x : ExecOutput) :
  GetTable cat (se_table_name stmt) = Some t →
  is_Some (order_by stmt) ∨ is_Some (limit stmt) ∨ se_where stmt = None → se_join stmt = None → aggregates stmt = [] →
  path (Exec.ExecSelect env cat stmt txn_id c) tr (Some (c', Some x)) → x_ok (x_result x) = true →
  ∃ txn c0 c1 tr1 tr2 st kvs,
    tr = tr1 ++ tr2 ∧
    path (Coord.Scan txn (table_id t) [] [] true c0) tr1 (Some (c1, (st, kvs))) ∧ St.ok st = true ∧
    answers t stmt kvs (x_result x) ∧
    if txn_id =? 0 then
      path (Coord.Begin c) [] (Some (c0, txn)) ∧
      ∃ st', path (Coord.Commit txn c1) tr2 (Some (c', st')) ∧ St.ok st' = true
    else txn = txn_id ∧ c0 = c ∧ c1 = c' ∧ tr2 = [].
Proof.
  intros Ht Hext Hj Hagg Hp Hx. unfold Exec.ExecSelect in Hp. rewrite Ht, Hj in Hp.
  assert (Exec.is_extended stmt = true) as He.
  { unfold Exec.is_extended. destruct Hext as [Hs|[Hs| ->]].
    1-2: rewrite (bool_decide_eq_true_2 _ Hs).
    all: by rewrite ?orb_true_r. }
  rewrite He in Hp. unfold Exec.select_extended in Hp. destruct (Z.eqb_spec txn_id 0) as [-> |Hne]; cbn [negb] in Hp.
  - apply cm_bind_inv in Hp as [[_ ?]|(tr0 & tr1 & c0 & txn & -> & Hb & Hp)]; [done|].
    assert (tr0 = []) as ->; [|rewrite app_nil_l in *].
    { unfold Coord.Begin in Hb. apply cm_bind_inv in Hb as [[_ ?]|(? & ? & ? & ? & -> & [-> _] & Hb)]; [done|].
      destruct (oracle_now _) as [ts snap]. by apply cm_bind_inv in Hb as [[_ ?]|(? & ? & ? & ? & -> & [-> _] & [-> _])]. }
    apply cm_bind_inv in Hp as [[_ ?]|(tr2 & tr3 & c1 & [r st] & -> & Hr & Hp)]; [done|].
    apply finish_select_ok in Hp as [[? _]|(Hst & -> & Hc)]; [done| |exact Hx]. cbn [fst snd] in *.
    destruct (run_extended_answers _ _ _ _ _ _ _ _ _ Hagg Hr Hst) as (st0 & kvs & Hs & Hst0 & Ha).
    exists txn, c0, c1, tr2, tr3, st0, kvs. by split_and!.
  - apply cm_bind_inv in Hp as [[_ ?]|(tr2 & tr3 & c1 & [r st] & -> & Hr & Hp)]; [done|].
    apply mret_inv in Hp as [-> [?|E]]; [done|]. injection E as -> ->. unfold Exec.select_status in *. cbn [x_result fst snd] in *.
    destruct (St.ok st) eqn:Hst; cbn [andb] in *; [|done].
    destruct (run_extended_answers _ _ _ _ _ _ _ _ _ Hagg Hr Hst) as (st0 & kvs & Hs & Hst0 & Ha).
    exists txn_id, c, c1, tr2, [], st0, kvs. by split_and!.
Qed.

(** ** Integers in cells *)

Lemma digit_class c : isdigit c = true → isspace c = false ∧ c ≠ ch "-" ∧ c ≠ ch "+".
Proof. destruct c; vm_compute; intros; (split_and!; [done|discriminate..]). Qed.
Lemma stoll_digits neg s z : Forall (λ c, isdigit c = true) s → s ≠ [] →
  z = (if (neg : bool) then - digits_value s else digits_value s) → is_i64 z →
  stoll (if neg then ch "-" :: s else s) = Some z.
Proof.
  intros HF Hne -> Hz. unfold stoll. pose proof (span_app isdigit s [] HF ltac:(done)) as Hs. rewrite app_nil_r in Hs.
  destruct neg.
  - cbn [span]. change (isspace (ch "-")) with false. cbn [snd]. rewrite bool_decide_eq_true_2 by done. rewrite Hs. cbn [fst].
    destruct s; [done|]. by rewrite bool_decide_eq_true_2.
  - destruct s as [|c s]; [done|]. apply Forall_cons in HF as [Hc HF]. destruct (digit_class c Hc) as (Hsp & Hm & Hp).
    cbn [span]. rewrite Hsp. cbn [snd]. rewrite !bool_decide_eq_false_2 by done. rewrite Hs. cbn [fst].
    by rewrite bool_decide_eq_true_2.
Qed.
Lemma stoll_to_string z : is_i64 z → stoll (to_string z) = Some z.
Proof.
  intros Hz. unfold to_string. destruct (Z.ltb_spec z 0).
  - destruct (dec_spec (- z)) as (HF & Hv & Hne); [lia|]. apply (stoll_digits true); [done..|rewrite Hv; lia|done].
  - destruct (dec_spec z) as (HF & Hv & Hne); [lia|]. by apply (stoll_digits false).
Qed.

(** C16. Integers in cells, and their bounds. On a column that is not FLOAT, adding an
    integer to a cell or subtracting one from it is exact as long as the result fits into
    64 bits, and only then is the stored text the one of a mathematical result: past the
    bounds the code computes an undefined sum without noticing. Comparing a cell of an
    INT or BIGINT column with an integer compares the numbers, not their texts. *)
Theorem integer_cells_exact (a b : Z) (col : bytes) (op : ArithOp) (cmp : CompareOp.t) (ct : ColumnType) :
  is_i64 a → is_i64 b → ct ≠ FLOAT →
  let z := match op with ADD => a + b | SUB => a - b end in
  Exec.arith_cell ct (to_string a) (MkArithExpr col op (LitInt b)) =
    Some (to_string (if bool_decide (is_i64 z) then z else undefined_sum z)) ∧
  (ct = VARCHAR ∨ Exec.CompareCell (to_string a) cmp (LitInt b) ct = Exec.compare_int a cmp b).
Proof.
  intros Ha Hb Hct z. split.
  - unfold Exec.arith_cell. rewrite (stoll_to_string a Ha). destruct ct; [| |done|]; cbn [mbind option_bind Exec.literal_int ae_operand ae_op];
      unfold add_i64, z; destruct op; by rewrite ?Z.add_opp_r.
  - destruct ct; [right|right|done|by left]; unfold Exec.CompareCell; by rewrite (stoll_to_string a Ha).
Qed.
End selects.
