(* ===== verification/ExecutorExamples.v ===== *)
(** * The executor on small inputs

    A table, an environment whose shards answer every call, and the statements of the
    executor's theorems on them; two examples of how key ranges are ordered as texts. *)
From Stdlib Require Import Strings.Byte Strings.Ascii.
From stdpp Require Import base gmap sets strings sorting list.
From Stdlib Require Import ZArith Lia.
From S2P Require Import Prelude Status GroupCommit ShardMessages Effects CoordinatorLog Coordinator.
From S2P Require Import Text Catalog JoinHandler Lexer Parser DistributedJoin Executor ExecutorProofs ExecutorRows SelectProofs.
Local Open Scope Z_scope.


#[local] Existing Instance wrapping.
#[local] Existing Instance std_insertion_sort.

Definition demo_users : TableDef :=
  MkTableDef 1 (str "users") [MkColumnDef (str "id") INT; MkColumnDef (str "name") VARCHAR] (str "id").
Definition demo_cat : Catalog := (CreateTable new_Catalog (str "users") (columns demo_users) (str "id")).1.
Definition between (lo hi : Z) : WhereClause :=
  [MkCompareExpr (str "id") CompareOp.GE (LitInt lo); MkCompareExpr (str "id") CompareOp.LE (LitInt hi)].

Lemma key_range_exact_witness :
  ∃ r, Exec.ExtractKeyRange (between 2 10) demo_users = Some r ∧ range_describes (between 2 10) r.
Proof.
  apply (key_range_exact (between 2 10) demo_users (MkColumnDef (str "id") INT)); [reflexivity|by left|].
  repeat (apply Forall_cons; split); [eexists; (split; [reflexivity|vm_compute; split; congruence])..|constructor].
Defined.

(** The range is one of texts: for [id >= 2 AND id <= 10] the scan runs from "2" to
    "11", which is no key at all, and for [id >= 1 AND id <= 5] it also covers "10". *)
Lemma key_range_in_text_order :
  (∃ kr, Exec.ExtractKeyRange (between 2 10) demo_users = Some (Some kr) ∧
     bool_decide (bytes_lt (Exec.k_end kr) (Exec.k_start kr)) = true) ∧
  (∃ kr, Exec.ExtractKeyRange (between 1 5) demo_users = Some (Some kr) ∧
     bool_decide (bytes_le (Exec.k_start kr) (to_string 10)) && bool_decide (bytes_lt (to_string 10) (Exec.k_end kr)) = true).
Proof. split; eexists; (split; [vm_compute; reflexivity|vm_compute; reflexivity]). Qed.

Lemma integer_cells_exact_witness :
  Exec.arith_cell BIGINT (to_string 41) (MkArithExpr (str "n") ADD (LitInt 1)) = Some (str "42") ∧
  (BIGINT = VARCHAR ∨ Exec.CompareCell (to_string 41) CompareOp.LT (LitInt 1) BIGINT = false).
Proof.
  exact (integer_cells_exact 41 1 (str "n") ADD CompareOp.LT BIGINT ltac:(vm_compute; split; congruence)
    ltac:(vm_compute; split; congruence) ltac:(congruence)).
Defined.

(** ** Statements against shards that answer *)

Definition demo_coord : Coordinator := MkCoordinator 2 5 7 ∅ {[0; 1]} ∅ ∅.
Definition demo_stored (id name : string) : bytes := row_bytes 2 [str id; str name].
Definition demo_execute_answer (req : ExecuteRequest) : ExecuteResponse :=
  MkExecuteResponse true Ok "" (match eq_op req with OP_READ => demo_stored "2" "bob" | _ => [] end)
    (match eq_op req with
     | OP_SCAN => [(str "1", demo_stored "1" "cy"); (str "2", demo_stored "2" "bob"); (str "3", demo_stored "3" "al")]
     | _ => []
     end).
Definition demo_env (_ : ()) (a : CoordAction) : () * coord_result a :=
  ((), match a return coord_result a with
       | ALogWrite _ | ALogFlush => St.OK
       | ALogReplay => (St.OK, [])
       | AClock => 0
       | AExecute _ req => Some (demo_execute_answer req)
       | APrepare _ _ _ => Some (MkPrepareResponse true "")
       | ACommit _ _ _ => Some (MkCommitResponse true "")
       | AAbort _ _ => Some (MkAbortResponse true)
       | AQuery _ _ => None
       | AJoin _ _ => None
       end).
Definition demo_run {A} (m : CM A) (c : Coordinator) : () * list CEvent * (Coordinator * A) := run demo_env () (m c).
Lemma demo_run_path {A} (m : CM A) c : path (m c) (demo_run m c).1.2 (Some (demo_run m c).2).
Proof. apply run_path. Qed.

Definition demo_insert : InsertStmt :=
  MkInsertStmt (str "users") [str "name"; str "id"] [LitString (str "ann"); LitInt 4].
Definition no_env : getenv := λ _, None.

Lemma session_transactions_witness :
  let r := demo_run (Exec.Execute no_env demo_cat (InsertS demo_insert) 0) demo_coord in
  open_txns r.2.1 = ∅ ∧ x_ok <$> (x_result <$> r.2.2.2) = Some true.
Proof.
  cbn zeta. split; [|vm_compute; reflexivity].
  set (r := demo_run _ _).
  assert (Hp : path (Exec.Execute no_env demo_cat (InsertS demo_insert) 0 demo_coord) r.1.2
    (Some (r.2.1, (r.2.2.1, Some (MkExecOutput Exec.inserted 0))))) by exact (demo_run_path _ _).
  destruct (session_transactions _ _ _ _ _ _ _ _ _ Hp) as [-> _].
  - apply (bool_decide_unpack _). vm_compute. exact I.
  - vm_compute. reflexivity.
Defined.

Lemma insert_stores_row_witness :
  let r := demo_run (Exec.ExecInsert demo_cat demo_insert 0) demo_coord in
  ∃ v row c1 c2 tr1 tr2 st1 st2,
    gives (in_columns demo_insert) (in_values demo_insert) (str "id") v ∧
    Forall2 (λ c cell, ∃ v, gives (in_columns demo_insert) (in_values demo_insert) (c_name c) v ∧
      cell = Exec.LiteralToString v) (columns demo_users) (Exec.DeserializeRow row) ∧
    r.1.2 = tr1 ++ tr2 ∧ path (Coord.Begin demo_coord) [] (Some (c1, 7)) ∧
    path (Coord.Write 7 1 (Exec.LiteralToString v) row c1) tr1 (Some (c2, st1)) ∧ St.ok st1 = true ∧
    path (Coord.Commit 7 c2) tr2 (Some (r.2.1, st2)) ∧ St.ok st2 = true.
Proof.
  intros r. apply (insert_stores_row demo_cat demo_insert demo_users demo_coord r.2.1 r.1.2 (MkExecOutput Exec.inserted 0)).
  - vm_compute. reflexivity.
  - apply (bool_decide_unpack _). vm_compute. exact I.
  - reflexivity.
  - vm_compute. reflexivity.
  - repeat (apply Forall_cons; split); [vm_compute; split; congruence..|constructor].
  - exact (demo_run_path _ _).
  - reflexivity.
Defined.

Definition demo_update : UpdateStmt :=
  MkUpdateStmt (str "users") [MkAssignment (str "name") (inr (LitString (str "rob")))]
    [MkCompareExpr (str "id") CompareOp.EQ (LitInt 2); MkCompareExpr (str "name") CompareOp.EQ (LitString (str "bob"))].
(** A coordinator with transaction 7 open. *)
Definition demo_open : Coordinator := MkCoordinator 2 6 8 {[7 := MkCoordinatorTxn 7 5 {[0; 1]} false]} {[0; 1]} ∅ ∅.

Lemma update_rewrites_row_witness :
  let r := demo_run (Exec.apply_update demo_users demo_update (str "2") 7) demo_open in
  ∃ data cells' c1 tr1 tr2 st0,
    r.1.2 = tr1 ++ tr2 ∧ path (Coord.Read 7 1 (str "2") demo_open) tr1 (Some (c1, (st0, data))) ∧ St.ok st0 = true ∧
    let cells := Exec.DeserializeRow (default [] data) in
    length cells = 2%nat ∧ conditions_hold demo_users cells (up_where demo_update) ∧
    updates_cells demo_users (assignments demo_update) cells cells' ∧
    path (Coord.Write 7 1 (str "2") (row_bytes 2 cells') c1) tr2 (Some (r.2.1, St.OK)).
Proof.
  intros r. apply (update_rewrites_row demo_users demo_update (str "2") 7 demo_open r.2.1 r.1.2 St.OK).
  - apply (bool_decide_unpack _). vm_compute. exact I.
  - exact (demo_run_path _ _).
  - reflexivity.
Defined.

Definition demo_select : SelectStmt :=
  MkSelectStmt (str "users") [str "name"] false [] None
    (Some [MkCompareExpr (str "id") CompareOp.GT (LitInt 1)]) (Some (str "name", false)) (Some 1).

Lemma select_whole_table_witness :
  let r := demo_run (Exec.ExecSelect no_env demo_cat demo_select 0) demo_coord in
  x_rows (x_result (default (MkExecOutput ExecResult0 0) r.2.2)) = [[str "al"]] ∧
  match r.2.2 with
  | Some x => ∃ txn c0 c1 tr1 tr2 st kvs,
      r.1.2 = tr1 ++ tr2 ∧
      path (Coord.Scan txn 1 [] [] true c0) tr1 (Some (c1, (st, kvs))) ∧ St.ok st = true ∧
      answers demo_users demo_select kvs (x_result x) ∧
      path (Coord.Begin demo_coord) [] (Some (c0, txn)) ∧
      ∃ st', path (Coord.Commit txn c1) tr2 (Some (r.2.1, st')) ∧ St.ok st' = true
  | None => False
  end.
Proof.
  intros r. split; [vm_compute; reflexivity|].
  pose proof (demo_run_path (Exec.ExecSelect no_env demo_cat demo_select 0) demo_coord) as Hp. fold r in Hp.
  assert (Hok : (x_ok ∘ x_result <$> r.2.2) = Some true) by (vm_compute; reflexivity).
  destruct r as [[u tr] [c' [x|]]]; cbn [fst snd] in *; [|discriminate].
  apply (select_whole_table no_env demo_cat demo_users demo_select 0 demo_coord c' tr x).
  - vm_compute. reflexivity.
  - left. by eexists.
  - reflexivity.
  - reflexivity.
  - exact Hp.
  - by injection Hok.
Defined.

(** ** Exceptions *)

(** A literal that is no number in a condition on an integer key is an exception that
    the executor does not catch; nor does it catch one in the arithmetic of an UPDATE,
    whose transaction then stays open. *)
Lemma executor_throws :
  (demo_run (Exec.Execute no_env demo_cat (SelectS (MkSelectStmt (str "users") [str "name"] false [] None
     (Some [MkCompareExpr (str "id") CompareOp.EQ (LitString (str "abc"))]) None None)) 0) demo_coord).2.2.2 = None ∧
  let r := demo_run (Exec.Execute no_env demo_cat (UpdateS (MkUpdateStmt (str "users")
     [MkAssignment (str "name") (inl (MkArithExpr (str "name") ADD (LitInt 1)))]
     [MkCompareExpr (str "id") CompareOp.EQ (LitInt 2)])) 0) demo_coord in
  r.2.2.2 = None ∧ open_txns r.2.1 = {[7]}.
Proof. vm_compute. split_and!; reflexivity. Qed.
