(* ===== verification/JoinProofs.v ===== *)
(** * All ways to join give the same rows

    The executor's nested loop over two scans, the broadcast join and the shuffle
    join of the planner return the same rows, up to their order. *)
From Stdlib Require Import Strings.Byte Strings.Ascii.
From stdpp Require Import base gmap sets strings sorting list.
From Stdlib Require Import ZArith Lia.
From S2P Require Import Prelude Status GroupCommit RocksDB TxnManager ShardMessages Effects CoordinatorLog Coordinator.
From S2P Require Import RaftReplication ShardSafety.
From S2P Require Import Text Catalog JoinHandler RaftStateMachine ShardServer Parser DistributedJoin Executor.
Local Open Scope Z_scope.

(** ** Decoding *)

Lemma read_cells_length n data cells : read_cells n data = Some cells → length cells = n.
Proof.
  revert data cells. induction n as [|n IH]; intros data cells; cbn [read_cells]; [by intros [= <-]|].
  destruct (ReadU32LE data) as [[len d]|]; [|done]. destruct (_ <? len); [done|].
  destruct (read_cells n _) as [cs|] eqn:E; cbn; [|done]. intros [= <-]. cbn. f_equal. by eapply IH.
Qed.
(** A row with as many cells as the table has columns is decoded alike everywhere. *)
Lemma DecodeRow_stored data k : k ≠ 0%nat → length (DeserializeStoredRow data) = k →
  DecodeRow data k = DeserializeStoredRow data.
Proof.
  intros Hk Hl. unfold DecodeRow, DeserializeStoredRow in *. destruct (ReadU16LE data) as [[n d]|] eqn:E; [|done].
  destruct (read_cells (Z.to_nat n) d) as [cs|] eqn:Ec; cbn in Hl |- *; [|congruence].
  pose proof (read_cells_length _ _ _ Ec) as Hc.
  assert (0 ≤ n).
  { unfold ReadU16LE in E. destruct (_ <? 2)%nat; [done|]. injection E as <- _. rewrite read_le_value. apply le_value_range. }
  rewrite (proj2 (Z.eqb_eq n (Z.of_nat k))) by lia. done.
Qed.

(** ** Looking up a column of a joined row *)

Definition plain (w : bytes) : Prop := ch "." ∉ w.
(** A table as the parser and the catalog make them: names without dots, at least
    one column, no column name twice. *)
Record table_ok (t : TableDef) : Prop := {
  tb_name : plain (t_name t);
  tb_plain : Forall (λ c, plain (c_name c)) (columns t);
  tb_nodup : NoDup (c_name <$> columns t);
  tb_some : columns t ≠ [];
}.
Definition row_ok (t : TableDef) (kv : bytes * bytes) : Prop :=
  length (DeserializeStoredRow kv.2) = length (columns t).

Definition qualified (t : TableDef) (col : bytes) : bytes := t_name t ++ ch "." :: col.

Lemma plain_split a b c d : plain a → plain c → a ++ ch "." :: b = c ++ ch "." :: d → a = c ∧ b = d.
Proof.
  unfold plain. revert c. induction a as [|x a IH]; intros [|y c] Ha Hc E; cbn in E.
  - by injection E.
  - injection E as <- _. set_solver.
  - injection E as -> _. set_solver.
  - injection E as -> E. destruct (IH c) as [-> ->]; [set_solver..|done|done].
Qed.

Lemma row_map_app m l1 l2 :
  foldl (λ (m : RowMap) nv, <[nv.1 := nv.2]> m) m (l1 ++ l2) =
  foldl (λ m nv, <[nv.1 := nv.2]> m) (foldl (λ m nv, <[nv.1 := nv.2]> m) m l1) l2.
Proof. apply foldl_app. Qed.
Lemma row_map_other (m : RowMap) l k : (∀ v, (k, v) ∉ l) → foldl (λ m nv, <[nv.1 := nv.2]> m) m l !! k = m !! k.
Proof.
  revert m. induction l as [|[n v] l IH]; intros m Hk; [done|]. cbn [foldl]. rewrite IH by (intros v' ?; apply (Hk v'); by right).
  apply lookup_insert_ne. intros <-. apply (Hk v). by left.
Qed.
Lemma row_map_unique (m : RowMap) l k v : (k, v) ∈ l → (∀ v', (k, v') ∈ l → v' = v) →
  foldl (λ m nv, <[nv.1 := nv.2]> m) m l !! k = Some v.
Proof.
  revert m. induction l as [|[n w] l IH]; intros m Hin Hun; [by apply elem_of_nil in Hin|]. cbn [foldl].
  destruct (decide (Exists (λ nv, nv.1 = k) l)) as [Hex|Hex].
  - apply IH; [|intros v' ?; apply Hun; by right]. apply Exists_exists in Hex as ([k' v'] & Hl & Hk'). cbn in Hk'.
    subst k'. by rewrite <- (Hun v') by (by right).
  - rewrite row_map_other.
    + assert (E : (k, v) = (n, w)).
      { apply elem_of_cons in Hin as [E|Hin]; [done|]. exfalso. apply Hex. apply Exists_exists. by exists (k, v). }
      injection E as -> ->. apply lookup_insert_eq.
    + intros v' Hv. apply Hex. apply Exists_exists. by exists (k, v').
Qed.

Lemma named_cells_elem tn names cells k v : (k, v) ∈ named_cells tn names cells ↔
  ∃ i n, names !! i = Some n ∧ cells !! i = Some v ∧ (k = n ∨ k = tn ++ ch "." :: n).
Proof.
  unfold named_cells. revert cells. induction names as [|n names IH]; intros [|c cells]; cbn.
  - split; [by intros ?%elem_of_nil|]. by intros (i & ? & ? & _).
  - split; [by intros ?%elem_of_nil|]. by intros (i & ? & ? & _).
  - split; [by intros ?%elem_of_nil|]. by intros (i & ? & _ & ? & _).
  - rewrite !elem_of_cons, IH. split.
    + intros [[= -> ->]|[[= -> ->]|(i & n' & ? & ? & ?)]]; [exists 0%nat, n; tauto..|by exists (S i), n'].
    + intros ([|i] & n' & Hn & Hc & Hk); cbn in Hn, Hc; [|right; right; by exists i, n'].
      simplify_eq. destruct Hk as [->| ->]; auto.
Qed.

Lemma column_index_lookup cols col i : NoDup (c_name <$> cols) →
  column_index cols col = Some i ↔ (c_name <$> cols) !! i = Some col.
Proof.
  revert i. induction cols as [|c cols IH]; intros i Hnd; [by split; [|destruct i]|].
  rewrite fmap_cons in Hnd |- *. apply NoDup_cons in Hnd as [Hc Hnd]. cbn [column_index].
  case_bool_decide as E; [subst|].
  - destruct i as [|i]; cbn; [done|]. split; [done|]. intros Hi. exfalso. apply Hc. by eapply list_elem_of_lookup_2.
  - destruct i as [|i]; cbn; [split; [by destruct (column_index cols col)|congruence]|].
    rewrite <- IH by done. destruct (column_index cols col); cbn; split; congruence.
Qed.

Lemma qualified_not_plain t col w : plain w → w ≠ qualified t col.
Proof. unfold plain, qualified. intros Hw ->. apply Hw. rewrite elem_of_app, elem_of_cons. tauto. Qed.

(** The cells of a table under a qualified name of it, and of another table. *)
Lemma named_cells_qualified t cells col i v : table_ok t → (c_name <$> columns t) !! i = Some col → cells !! i = Some v →
  (qualified t col, v) ∈ named_cells (t_name t) (c_name <$> columns t) cells ∧
  ∀ v', (qualified t col, v') ∈ named_cells (t_name t) (c_name <$> columns t) cells → v' = v.
Proof.
  intros Ht Hc Hv. split; [apply named_cells_elem; exists i, col; auto|].
  intros v' (k & n & Hn & Hv' & [E|E])%named_cells_elem.
  - exfalso. symmetry in E. revert E. apply qualified_not_plain.
    apply list_lookup_fmap_Some in Hn as (c & -> & Hin). apply list_elem_of_lookup_2 in Hin.
    pose proof (tb_plain _ Ht) as HF. rewrite Forall_forall in HF. by apply HF.
  - apply plain_split in E as [_ ->]; [|by apply tb_name..]. assert (k = i) as -> by (eapply NoDup_lookup; [by apply tb_nodup|..]; done).
    congruence.
Qed.
Lemma named_cells_foreign t t' cells col v : table_ok t → table_ok t' → t_name t ≠ t_name t' →
  (qualified t col, v) ∉ named_cells (t_name t') (c_name <$> columns t') cells.
Proof.
  intros Ht Ht' Hne (k & n & Hn & _ & [E|E])%named_cells_elem.
  - symmetry in E. revert E. apply qualified_not_plain. apply list_lookup_fmap_Some in Hn as (c & -> & Hin).
    apply list_elem_of_lookup_2 in Hin. pose proof (tb_plain _ Ht') as HF. rewrite Forall_forall in HF. by apply HF.
  - apply plain_split in E as [? _]; [done|by apply tb_name..].
Qed.

Lemma base_qualified t col : plain col → BaseColumnName (qualified t col) = col.
Proof.
  intros Hp. unfold BaseColumnName, qualified. rewrite rev_app_distr. cbn [rev]. rewrite <- app_assoc. cbn [app].
  rewrite span_app; [cbn [fst]; apply rev_involutive| |].
  - apply Forall_forall. intros c Hc. rewrite negb_true_iff, bool_decide_eq_false. intros ->. apply Hp.
    by apply list_elem_of_In, in_rev, list_elem_of_In.
  - intros c [= <-]. done.
Qed.
Lemma join_cell t col cells i v : table_ok t → (c_name <$> columns t) !! i = Some col → cells !! i = Some v →
  CellValueForJoinColumn t cells (qualified t col) = v.
Proof.
  intros Ht Hc Hv. unfold CellValueForJoinColumn, ColumnIndexByName. rewrite base_qualified.
  - rewrite (proj2 (column_index_lookup _ _ _ (tb_nodup _ Ht)) Hc). by rewrite Hv.
  - apply list_lookup_fmap_Some in Hc as (c & -> & Hin). apply list_elem_of_lookup_2 in Hin.
    pose proof (tb_plain _ Ht) as HF. rewrite Forall_forall in HF. by apply HF.
Qed.

Section two_tables.
Context (L R : TableDef) (HL : table_ok L) (HR : table_ok R) (Hne : t_name L ≠ t_name R).
Context (lcol rcol : bytes) (il ir : nat).
Context (Hil : (c_name <$> columns L) !! il = Some lcol) (Hir : (c_name <$> columns R) !! ir = Some rcol).
Let lname := qualified L lcol.
Let rname := qualified R rcol.

Definition joined_row (lcells rcells : list bytes) : RowMap := Exec.base_map R rcells (Exec.base_map L lcells ∅).

Lemma joined_left lcells rcells v : lcells !! il = Some v → joined_row lcells rcells !! lname = Some v.
Proof.
  intros Hv. unfold joined_row, Exec.base_map. rewrite row_map_other; [|intros; by apply named_cells_foreign].
  destruct (named_cells_qualified L lcells lcol il v HL Hil Hv). by apply row_map_unique.
Qed.
Lemma joined_right lcells rcells v : rcells !! ir = Some v → joined_row lcells rcells !! rname = Some v.
Proof.
  intros Hv. destruct (named_cells_qualified R rcells rcol ir v HR Hir Hv). by apply row_map_unique.
Qed.

(** The pairs that the nested loop keeps. *)
Definition cells (kv : bytes * bytes) : list bytes := DeserializeStoredRow kv.2.
Definition pair_rows (l r : bytes * bytes) : list RowMap :=
  if bool_decide (CellValueForJoinColumn L (cells l) lname = CellValueForJoinColumn R (cells r) rname)
  then [joined_row (cells l) (cells r)] else [].

Lemma cell_at t kv i : row_ok t kv → (i < length (columns t))%nat → ∃ v, cells kv !! i = Some v.
Proof. intros Hok Hi. apply lookup_lt_is_Some_2. unfold cells. rewrite Hok. exact Hi. Qed.

Lemma join_right_pairs j l rows : left_column j = lname → right_column j = rname → row_ok L l → Forall (row_ok R) rows →
  Exec.join_right R j (Exec.base_map L (cells l) ∅) rows = inr (r ← rows; pair_rows l r).
Proof.
  intros Ej1 Ej2 Hl HF. induction HF as [|r rows Hr _ IH]; [done|]. cbn [Exec.join_right].
  rewrite IH. unfold Exec.DeserializeRow. rewrite Hr, Nat.eqb_refl. cbn [negb]. rewrite Ej1, Ej2.
  change (Exec.base_map R (DeserializeStoredRow r.2) (Exec.base_map L (cells l) ∅)) with (joined_row (cells l) (cells r)).
  destruct (cell_at L l il Hl) as [lv Hlv]; [by apply lookup_lt_Some in Hil; rewrite length_fmap in Hil|].
  destruct (cell_at R r ir Hr) as [rv Hrv]; [by apply lookup_lt_Some in Hir; rewrite length_fmap in Hir|].
  rewrite (joined_left _ _ lv), (joined_right _ _ rv) by done. cbn [mbind list_bind].
  assert (E : pair_rows l r = if bool_decide (lv = rv) then [joined_row (cells l) (cells r)] else []).
  { unfold pair_rows, lname, rname. by rewrite (join_cell L lcol _ il lv), (join_cell R rcol _ ir rv). }
  rewrite E. by case_bool_decide.
Qed.
Lemma scan_rows_pairs j lrows rrows : left_column j = lname → right_column j = rname →
  Forall (row_ok L) lrows → Forall (row_ok R) rrows →
  Exec.scan_rows L (Some (R, j)) lrows rrows = inr (l ← lrows; r ← rrows; pair_rows l r).
Proof.
  intros Ej1 Ej2 HF HFr. induction HF as [|l lrows Hl _ IH]; [done|]. cbn [Exec.scan_rows].
  unfold Exec.DeserializeRow at 1. rewrite Hl, Nat.eqb_refl. cbn [negb].
  change (Exec.base_map L (Exec.DeserializeRow l.2) ∅) with (Exec.base_map L (cells l) ∅).
  rewrite join_right_pairs by done. by rewrite IH.
Qed.

(** The hash join of the payloads, as maps. *)
Abbreviation L_names := (c_name <$> columns L).
Abbreviation R_names := (c_name <$> columns R).
Abbreviation pay := DistributedJoinPlanner.payload.
Lemma emit_pair_joined l r : row_ok L l → row_ok R r →
  DistributedJoinPlanner.row_map <$> emit_pair L_names (t_name L) R_names (t_name R) l.2 r.2 =
  [joined_row (cells l) (cells r)].
Proof.
  intros Hl Hr. unfold emit_pair. rewrite !length_fmap.
  assert (length (columns L) ≠ 0%nat ∧ length (columns R) ≠ 0%nat) as [HnL HnR].
  { pose proof (tb_some _ HL). pose proof (tb_some _ HR). by destruct (columns L), (columns R). }
  rewrite (DecodeRow_stored r.2), (DecodeRow_stored l.2) by done.
  unfold joined_row, Exec.base_map, cells. unfold row_ok in Hl, Hr.
  destruct (DeserializeStoredRow r.2) as [|rc rcs] eqn:Er; [by destruct (columns R)|].
  destruct (DeserializeStoredRow l.2) as [|lc lcs] eqn:El; [by destruct (columns L)|].
  cbn [fmap list_fmap]. unfold DistributedJoinPlanner.row_map, EmitJoinedRow. by rewrite row_map_app.
Qed.
Lemma nested_join_pairs lrows rrows : Forall (row_ok L) lrows → Forall (row_ok R) rrows →
  DistributedJoinPlanner.row_map <$> nested_join L_names (t_name L) R_names (t_name R) (pay L lname <$> lrows) (pay R rname <$> rrows) =
  (r ← rrows; l ← lrows; pair_rows l r).
Proof.
  intros HFl HFr. induction HFr as [|r rrows Hr _ IH]; [done|]. rewrite fmap_cons. rewrite nested_join_cons, fmap_app, IH.
  cbn [mbind list_bind]. f_equal. unfold matches. clear IH. induction HFl as [|l lrows Hl _ IH]; [done|].
  rewrite fmap_cons. cbn [mbind list_bind]. rewrite fmap_app. setoid_rewrite IH. f_equal. unfold same_key, pair_rows.
  change (join_key (pay L lname l)) with (CellValueForJoinColumn L (cells l) lname).
  change (join_key (pay R rname r)) with (CellValueForJoinColumn R (cells r) rname).
  repeat case_bool_decide; try done. by apply emit_pair_joined.
Qed.
End two_tables.

(** Two loops can be exchanged. *)
Lemma bind_swap {A B C} (f : A → B → list C) xs ys : (x ← xs; y ← ys; f x y) ≡ₚ (y ← ys; x ← xs; f x y).
Proof.
  induction xs as [|x xs IH]; cbn [mbind list_bind].
  - induction ys as [|y ys IHy]; [done|]. exact IHy.
  - rewrite IH. clear IH. induction ys as [|y ys IHy]; [done|]. cbn [mbind list_bind]. rewrite <- IHy.
    rewrite <- !app_assoc. f_equiv. rewrite !app_assoc. f_equiv. apply Permutation_app_comm.
Qed.

(** ** The planner *)

Section planner.
Context `{RocksDB DB} `{GroupCommit}.

(** Every answer is computed by the handler of a shard, where a broadcast finds the
    rows [scans] of the probed table. *)
Definition shard_answer (scans : Z → Z → list (bytes * bytes)) (sid : Z) (q : DistributedJoinRequest)
    (resp : DistributedJoinResponse) : Prop :=
  ∃ hosted (sh : ShardServiceImpl DB), resp = (Shard.DistributedJoin hosted sh q).2 ∧
    (jq_op q = JOIN_OP_BROADCAST → sees_rows hosted sh (jq_raft_txn_id q) (probe_table_id q) (scans (probe_table_id q) sid)).
Lemma shard_answer_code scans sid q resp : shard_answer scans sid q resp → jr_ok resp = false → jr_error_code resp ≠ Ok.
Proof. intros (hosted & sh & -> & _). apply handler_error_code. Qed.

Lemma concat_resps (f : Z → list JoinOutputRow) sids resps :
  Forall2 (λ sid resp, jr_rows resp = f sid) sids resps →
  concat ((λ r, DistributedJoinPlanner.row_map <$> jr_rows r) <$> resps) =
  DistributedJoinPlanner.row_map <$> concat (f <$> sids).
Proof.
  induction 1 as [|sid resp sids resps Hr _ IH]; [done|]. rewrite !fmap_cons. cbn [concat]. by rewrite fmap_app, IH, Hr.
Qed.
Lemma Forall2_elem_l {A B} (Q R : A → B → Prop) l k :
  (∀ x y, x ∈ l → Q x y → R x y) → Forall2 Q l k → Forall2 R l k.
Proof. intros HQ HF. induction HF as [|x y l k Hxy HF IH]; constructor; [apply HQ; [by left|done]|]. apply IH. set_solver. Qed.
Lemma hash_in_range n key : 0 < n → HashJoinKey key n ∈ seqZ 0 n.
Proof.
  intros Hn. apply elem_of_seqZ. unfold HashJoinKey. rewrite Z.max_r by lia.
  pose proof (Z.mod_pos_bound (Coord.fnv_hash key) n Hn). lia.
Qed.

Lemma shuffle_rows scans n txn L R lc rc lrows rrows c tr c' st rows : 0 < n →
  path (DistributedJoinPlanner.RunShuffleJoin n txn L R lc rc lrows rrows c) tr (Some (c', (st, rows))) → St.ok st = true →
  answers (shard_answer scans) tr →
  rows ≡ₚ DistributedJoinPlanner.row_map <$> nested_join (c_name <$> columns L) (t_name L) (c_name <$> columns R) (t_name R)
    (DistributedJoinPlanner.payload L lc <$> lrows) (DistributedJoinPlanner.payload R rc <$> rrows).
Proof.
  intros Hn Hp Hok Hans.
  destruct (run_on_shards_ok _ _ _ _ _ _ _ _ (shard_answer_code scans) Hp Hok Hans) as (resps & HF & ->).
  rewrite (concat_resps (λ sid, nested_join (c_name <$> columns L) (t_name L) (c_name <$> columns R) (t_name R)
    (DistributedJoinPlanner.by_shard n sid (DistributedJoinPlanner.payload L lc <$> lrows))
    (DistributedJoinPlanner.by_shard n sid (DistributedJoinPlanner.payload R rc <$> rrows))) (seqZ 0 n)).
  - apply fmap_Permutation. apply (nested_join_parts _ _ _ _ (λ k, HashJoinKey k n)); [apply NoDup_seqZ|].
    intros p _. by apply hash_in_range.
  - eapply Forall2_impl; [exact HF|]. intros sid resp (Hr & id & hosted & sh & -> & _).
    rewrite handler_shuffle by done. cbn [local_join jr_rows]. apply LocalHashJoin_nested.
Qed.

Lemma probe_payload_ok (build P : TableDef) txn bc pcol ip brows kv : table_ok P →
  (c_name <$> columns P) !! ip = Some pcol → row_ok P kv →
  probe_payload (DistributedJoinPlanner.broadcast_request txn build P bc (qualified P pcol) brows) kv.2 =
  Some (DistributedJoinPlanner.payload P (qualified P pcol) kv).
Proof.
  intros HP Hip Hkv. unfold probe_payload. cbn [DistributedJoinPlanner.broadcast_request probe_column_names probe_join_col].
  rewrite length_fmap, DecodeRow_stored; [|by pose proof (tb_some _ HP); destruct (columns P)|done].
  assert (Hb : BaseColumnName (qualified P pcol) = pcol).
  { apply base_qualified. apply list_lookup_fmap_Some in Hip as (c & -> & Hin). apply list_elem_of_lookup_2 in Hin.
    pose proof (tb_plain _ HP) as HF. rewrite Forall_forall in HF. by apply HF. }
  assert (Hidx : name_index (c_name <$> columns P) pcol = ip).
  { pose proof (tb_nodup _ HP) as Hnd. revert ip Hip Hnd. clear. generalize (c_name <$> columns P). intros names.
    induction names as [|n names IH]; intros [|ip]; cbn; try done.
    - intros [= ->] _. by rewrite bool_decide_eq_true_2.
    - intros Hip [Hn Hnd]%NoDup_cons. rewrite bool_decide_eq_false_2; [f_equal; auto|].
      intros ->. apply Hn. by eapply list_elem_of_lookup_2. }
  rewrite Hb, Hidx. destruct (cell_at P kv ip Hkv) as [v Hv]; [by apply lookup_lt_Some in Hip; rewrite length_fmap in Hip|].
  pose proof (join_cell P pcol _ ip v HP Hip Hv) as Hj. unfold DistributedJoinPlanner.payload. unfold cells in *.
  rewrite Hj. destruct (DeserializeStoredRow kv.2) eqn:E; [done|]. by rewrite Hv.
Qed.

Lemma broadcast_rows scans n txn B P bc pcol ip brows prows c tr c' st rows : table_ok P →
  (c_name <$> columns P) !! ip = Some pcol → Forall (row_ok P) prows →
  concat (scans (table_id P) <$> seqZ 0 n) ≡ₚ prows →
  path (DistributedJoinPlanner.RunBroadcastJoin n txn B P bc (qualified P pcol) brows c) tr (Some (c', (st, rows))) →
  St.ok st = true → answers (shard_answer scans) tr →
  rows ≡ₚ DistributedJoinPlanner.row_map <$> nested_join (c_name <$> columns B) (t_name B) (c_name <$> columns P) (t_name P)
    (DistributedJoinPlanner.payload B bc <$> brows) (DistributedJoinPlanner.payload P (qualified P pcol) <$> prows).
Proof.
  intros HP Hip HF Hperm Hp Hok Hans.
  destruct (run_on_shards_ok _ _ _ _ _ _ _ _ (shard_answer_code scans) Hp Hok Hans) as (resps & HF2 & ->).
  rewrite <- Hperm in HF |- *. clear Hperm.
  set (nest := nested_join (c_name <$> columns B) (t_name B) (c_name <$> columns P) (t_name P)
    (DistributedJoinPlanner.payload B bc <$> brows)).
  rewrite (concat_resps (λ sid, nest (DistributedJoinPlanner.payload P (qualified P pcol) <$> scans (table_id P) sid)) (seqZ 0 n)).
  - replace (concat _) with (nest (DistributedJoinPlanner.payload P (qualified P pcol) <$> concat (scans (table_id P) <$> seqZ 0 n)));
      [done|]. clear. generalize (seqZ 0 n). intros sids. induction sids as [|sid sids IH]; [done|].
    rewrite !fmap_cons. cbn [concat]. rewrite fmap_app. unfold nest. rewrite nested_join_app. f_equal. exact IH.
  - assert (Hrows : ∀ sid, sid ∈ seqZ 0 n → Forall (row_ok P) (scans (table_id P) sid)).
    { intros sid Hs. rewrite Forall_forall in HF |- *. intros kv Hkv. apply HF. apply list_elem_of_In, in_concat.
      exists (scans (table_id P) sid). split; [|by apply list_elem_of_In]. apply list_elem_of_In, list_elem_of_fmap. by exists sid. }
    eapply Forall2_elem_l; [|exact HF2]. intros sid resp Hs (Hr & id & hosted & sh & -> & Hsees).
    rewrite (handler_broadcast _ _ _ (scans (table_id P) sid)) by (done || by apply Hsees).
    cbn [local_join jr_rows]. rewrite LocalHashJoin_nested. unfold nest. f_equal.
    specialize (Hrows sid Hs). revert Hrows. generalize (scans (table_id P) sid). intros kvs Hkvs.
    induction Hkvs as [|kv kvs Hkv _ IH]; [done|]. rewrite !fmap_cons. cbn [omap list_omap].
    pose proof (probe_payload_ok B P id bc pcol ip brows kv HP Hip Hkv) as E. unfold Coord.set_raft_txn_id in *.
    cbn in E |- *. setoid_rewrite E. f_equal. exact IH.
Qed.
End planner.

(** ** The order of the sides *)

Lemma row_map_from (m : RowMap) l k :
  foldl (λ m nv, <[nv.1 := nv.2]> m) m l !! k =
  match foldl (λ (m : RowMap) nv, <[nv.1 := nv.2]> m) ∅ l !! k with Some v => Some v | None => m !! k end.
Proof.
  induction l as [|[n v] l IH] using rev_ind; [cbn [foldl]; by rewrite lookup_empty|]. rewrite !foldl_app. cbn [foldl fst snd].
  destruct (decide (n = k)) as [->|Hne]; [by rewrite !lookup_insert_eq|]. by rewrite !lookup_insert_ne by done.
Qed.
Lemma row_map_key l k v : foldl (λ (m : RowMap) nv, <[nv.1 := nv.2]> m) ∅ l !! k = Some v → (k, v) ∈ l.
Proof.
  induction l as [|[n w] l IH] using rev_ind; [cbn [foldl]; by rewrite lookup_empty|]. rewrite foldl_app. cbn [foldl fst snd].
  intros [[-> ->]|[_ Hl]]%lookup_insert_Some; set_solver.
Qed.
Lemma joined_row_comm L R lcells rcells : table_ok L → table_ok R → t_name L ≠ t_name R →
  (∀ n, n ∈ (c_name <$> columns L) → n ∉ (c_name <$> columns R)) →
  joined_row L R lcells rcells = joined_row R L rcells lcells.
Proof.
  intros HL HR Hne Hdis. unfold joined_row, Exec.base_map. apply map_eq. intros k.
  rewrite (row_map_from (foldl _ ∅ (named_cells (t_name L) _ _))), (row_map_from (foldl _ ∅ (named_cells (t_name R) _ _))).
  destruct (foldl _ ∅ (named_cells (t_name R) _ rcells) !! k) as [rv|] eqn:Er;
    destruct (foldl _ ∅ (named_cells (t_name L) _ lcells) !! k) as [lv|] eqn:El; try done. exfalso.
  apply row_map_key in Er, El.
  assert (Hplain : ∀ t n, table_ok t → n ∈ (c_name <$> columns t) → plain n).
  { intros t n Ht (c & -> & Hc)%list_elem_of_fmap. pose proof (tb_plain _ Ht) as HF. rewrite Forall_forall in HF. by apply HF. }
  apply named_cells_elem in El as (i & n & Hn%list_elem_of_lookup_2 & _ & Hk).
  apply named_cells_elem in Er as (i' & n' & Hn'%list_elem_of_lookup_2 & _ & Hk').
  destruct Hk as [-> | ->], Hk' as [E|E].
  - subst. by apply (Hdis n').
  - by apply (qualified_not_plain R n' n (Hplain _ _ HL Hn)).
  - symmetry in E. by apply (qualified_not_plain L n n' (Hplain _ _ HR Hn')).
  - apply plain_split in E as [? _]; [done|by apply tb_name..].
Qed.

(** C13. Distributed joins are correct for joins that name their columns in full. The
    tables are two different ones with well-formed rows, the join condition compares a
    column of the left one with a column of the right one, both written with the name of
    their table, and the shards answer from scans that together are the two scans of the
    planner. Whatever strategy is chosen, when the planner joins the scans successfully it
    returns, up to their order, exactly the rows that the executor's nested loop makes of
    them: no pair is lost or doubled when both tables are split over the shards by the
    hash of the join key, or when one of them is sent to every shard and each joins the
    rows it holds. When the right table is the smaller one no column may have the same
    name in both tables: it is then broadcast with the sides swapped, and of two columns
    with one name the other one wins. *)
Theorem distributed_join_correct {DB : Type} `{RocksDB DB} `{GroupCommit} (n txn : Z) (j : JoinClause)
    (L R : TableDef) (lcol rcol : bytes) (op : PhysicalOp.t) (lrows rrows : list (bytes * bytes))
    (scans : Z → Z → list (bytes * bytes)) (c c' : Coordinator) (tr : list CEvent) (st : Status) (rows : list RowMap) :
  table_ok L → table_ok R → t_name L ≠ t_name R →
  lcol ∈ (c_name <$> columns L) → rcol ∈ (c_name <$> columns R) →
  left_column j = qualified L lcol → right_column j = qualified R rcol → 0 < n →
  Forall (row_ok L) lrows → Forall (row_ok R) rrows →
  concat (scans (table_id L) <$> seqZ 0 n) ≡ₚ lrows → concat (scans (table_id R) <$> seqZ 0 n) ≡ₚ rrows →
  ((length rrows < length lrows)%nat → ∀ name, name ∈ (c_name <$> columns L) → name ∉ (c_name <$> columns R)) →
  path (DistributedJoinPlanner.join_scanned n j L R txn op lrows rrows c) tr (Some (c', (st, rows))) → St.ok st = true →
  answers (shard_answer (DB := DB) scans) tr →
  ∃ ref, Exec.scan_rows L (Some (R, j)) lrows rrows = inr ref ∧ rows ≡ₚ ref.
Proof.
  intros HL HR Hne [il Hil]%list_elem_of_lookup [ir Hir]%list_elem_of_lookup Elc Erc Hn HFl HFr Hsl Hsr Hdis Hp Hok Hans.
  eexists. split; [by apply (scan_rows_pairs L R HL HR Hne lcol rcol il ir)|].
  unfold DistributedJoinPlanner.join_scanned in Hp. rewrite bind_swap. rewrite Elc, Erc in Hp.
  assert (Hsame : ∀ rows', rows' = (r ← rrows; l ← lrows; pair_rows L R lcol rcol l r) → rows ≡ₚ rows' →
    rows ≡ₚ (r ← rrows; l ← lrows; pair_rows L R lcol rcol l r)) by (by intros ? ->).
  assert (Hsh : path (DistributedJoinPlanner.RunShuffleJoin n txn L R (qualified L lcol) (qualified R rcol) lrows rrows c)
    tr (Some (c', (st, rows))) → rows ≡ₚ (r ← rrows; l ← lrows; pair_rows L R lcol rcol l r)).
  { intros Hs. eapply Hsame; [by apply (nested_join_pairs L R HL HR lcol rcol il ir)|].
    exact (shuffle_rows scans n txn L R _ _ lrows rrows c tr c' st rows Hn Hs Hok Hans). }
  destruct (DistributedJoinPlanner.ResolveOp _ _ _); [exact (Hsh Hp)| |exact (Hsh Hp)].
  destruct (Nat.leb_spec (length lrows) (length rrows)).
  - eapply Hsame; [by apply (nested_join_pairs L R HL HR lcol rcol il ir)|].
    exact (broadcast_rows scans n txn L R _ rcol ir lrows rrows c tr c' st rows HR Hir HFr Hsr Hp Hok Hans).
  - specialize (Hdis ltac:(lia)). rewrite <- bind_swap. etrans;
      [exact (broadcast_rows scans n txn R L _ lcol il rrows lrows c tr c' st rows HL Hil HFl Hsl Hp Hok Hans)|].
    rewrite (nested_join_pairs R L HR HL rcol lcol ir il) by done. apply reflexive_eq.
    apply list_bind_ext; [|done]. intros l. apply list_bind_ext; [|done]. intros r. unfold pair_rows.
    rewrite (joined_row_comm L R) by done. repeat case_bool_decide; congruence.
Qed.

(** *** Two small tables on two shards *)

#[local] Existing Instance default_group_commit.

Definition demo_left : TableDef :=
  MkTableDef 1 (str "a") [MkColumnDef (str "id") INT; MkColumnDef (str "v") VARCHAR] (str "id").
Definition demo_right : TableDef :=
  MkTableDef 2 (str "b") [MkColumnDef (str "k") INT; MkColumnDef (str "w") VARCHAR] (str "k").
Definition demo_row (cells : list bytes) : bytes * bytes := (default [] (head cells), row_bytes 2 cells).
Definition demo_left_rows : list (bytes * bytes) :=
  [demo_row [str "1"; str "x"]; demo_row [str "2"; str "y"]; demo_row [str "3"; str "z"]].
Definition demo_right_rows : list (bytes * bytes) :=
  [demo_row [str "1"; str "y"]; demo_row [str "2"; str "x"]; demo_row [str "3"; str "y"]; demo_row [str "4"; str "q"]].
Definition demo_clause : JoinClause := MkJoinClause (str "b") (str "a.v") (str "b.w").
Definition demo_coordinator : Coordinator :=
  MkCoordinator 2 6 8 {[7 := MkCoordinatorTxn 7 5 {[0; 1]} false]} {[0; 1]} ∅ ∅.
(** A shard on which transaction 7 has begun; it answers joins, other calls fail. *)
Definition demo_shard : ShardServiceImpl MemDB :=
  shard (demo_service (demo_elected ++ [demo_execute 7 OP_BEGIN [] []])).
Definition join_env (sh : ShardServiceImpl MemDB) (_ : ()) (a : CoordAction) : () * coord_result a :=
  ((), match a return coord_result a with
       | ALogWrite _ | ALogFlush => St.OK
       | ALogReplay => (St.OK, [])
       | AClock => 0
       | AExecute _ _ | APrepare _ _ _ | ACommit _ _ _ | AAbort _ _ | AQuery _ _ => None
       | AJoin _ req => Some (Shard.DistributedJoin demo_ids sh req).2
       end).
Lemma join_env_answers {A} sh (p : Prog coord_result A) s req resp :
  Ev (AJoin s req : CoordAction) (Some resp) ∈ (run (join_env sh) () p).1.2 → resp = (Shard.DistributedJoin demo_ids sh req).2.
Proof. intros [u E]%run_answers. cbn in E. by injection E. Qed.
Definition demo_join : () * list CEvent * (Coordinator * (Status * list RowMap)) :=
  run (join_env demo_shard) () (DistributedJoinPlanner.join_scanned 2 demo_clause demo_left demo_right 7 PhysicalOp.Shuffle
    demo_left_rows demo_right_rows demo_coordinator).
Definition demo_scans (tid sid : Z) : list (bytes * bytes) :=
  if negb (sid =? 0) then [] else if tid =? 1 then demo_left_rows else demo_right_rows.

Lemma demo_table_ok : table_ok demo_left ∧ table_ok demo_right.
Proof.
  split; (split; [apply (bool_decide_unpack _); vm_compute; exact I| |apply (bool_decide_unpack _); vm_compute; exact I|done]);
    repeat (apply Forall_cons; split); try constructor; unfold plain; apply (bool_decide_unpack _); vm_compute; exact I.
Qed.

Lemma distributed_join_correct_witness :
  length demo_join.2.2.2 = 3%nat ∧
  ∃ ref, Exec.scan_rows demo_left (Some (demo_right, demo_clause)) demo_left_rows demo_right_rows = inr ref ∧
    demo_join.2.2.2 ≡ₚ ref.
Proof.
  split; [vm_compute; reflexivity|].
  apply (distributed_join_correct (DB := MemDB) 2 7 demo_clause demo_left demo_right (str "v") (str "w") PhysicalOp.Shuffle
    demo_left_rows demo_right_rows demo_scans demo_coordinator demo_join.2.1 demo_join.1.2 demo_join.2.2.1 demo_join.2.2.2
    (proj1 demo_table_ok) (proj2 demo_table_ok)).
  - done.
  - apply (bool_decide_unpack _). vm_compute. exact I.
  - apply (bool_decide_unpack _). vm_compute. exact I.
  - vm_compute. reflexivity.
  - vm_compute. reflexivity.
  - done.
  - repeat (apply Forall_cons; split); [vm_compute; reflexivity..|constructor].
  - repeat (apply Forall_cons; split); [vm_compute; reflexivity..|constructor].
  - change (demo_left_rows ++ [] ≡ₚ demo_left_rows). by rewrite app_nil_r.
  - change (demo_right_rows ++ [] ≡ₚ demo_right_rows). by rewrite app_nil_r.
  - vm_compute. lia.
  - pose proof (run_path (join_env demo_shard) (DistributedJoinPlanner.join_scanned 2 demo_clause demo_left demo_right 7
      PhysicalOp.Shuffle demo_left_rows demo_right_rows demo_coordinator) ()) as Hp.
    change (path (DistributedJoinPlanner.join_scanned 2 demo_clause demo_left demo_right 7
      PhysicalOp.Shuffle demo_left_rows demo_right_rows demo_coordinator) demo_join.1.2 (Some demo_join.2)) in Hp.
    destruct demo_join as [[u tr] [c' [st rows]]]. exact Hp.
  - vm_compute. reflexivity.
  - assert (Hsh : forallb (λ e : CEvent, match projT1 e with
        AJoin _ q => match jq_op q with JOIN_OP_SHUFFLE => true | _ => false end | _ => true end) demo_join.1.2 = true)
      by (vm_compute; reflexivity).
    intros s req resp Hin. rewrite forallb_forall in Hsh. pose proof (Hsh _ (proj1 (list_elem_of_In _ _) Hin)) as Hop.
    apply join_env_answers in Hin as ->. cbn in Hop.
    exists demo_ids, demo_shard. split; [reflexivity|]. intros Eb. rewrite Eb in Hop. discriminate Hop.
Defined.
