(* ===== verification/PgWire.v ===== *)
(** * PostgreSQL wire protocol (src/src/pgwire/pgwire_server.{h,cpp})

    The session of one client: startup, simple queries and the extended protocol over a
    socket, with the statements run by the executor. The socket and the coordinator's
    calls are the actions of the session's program; [recv] may return any part of what
    was asked for and [send] may take any part of what it was given.

    An exception that leaves [Execute] is not caught anywhere in the session or its
    thread and ends the process: the result of the program is then [None]. The POSIX
    branches are modelled. The listening socket, the threads and [Start], [Stop] and
    [AcceptLoop] are not. *)
From Stdlib Require Import Strings.Byte Strings.Ascii.
From stdpp Require Import base gmap sets strings sorting list.
From Stdlib Require Import ZArith Lia.
From S2P Require Import Prelude Status GroupCommit KeyEncoding ShardMessages Effects Coordinator.
From S2P Require Import Text Catalog JoinHandler Parser DistributedJoin Executor.
Local Open Scope Z_scope.

(** ** Integers of the protocol *)

Definition AppendUint32BE (v : Z) : bytes :=
  [byte_of_Z (Z.land (Z.shiftr v 24) 255); byte_of_Z (Z.land (Z.shiftr v 16) 255);
   byte_of_Z (Z.land (Z.shiftr v 8) 255); byte_of_Z (Z.land v 255)].
Definition AppendUint16BE (v : Z) : bytes := [byte_of_Z (Z.land (Z.shiftr v 8) 255); byte_of_Z (Z.land v 255)].
Definition LoadUint32BE (p : bytes) : Z := read_be u32 0 (take 4 p).
Definition u16 (z : Z) : Z := z mod 2 ^ 16.
Definition LoadUint16BE (p : bytes) : Z := read_be u16 0 (take 2 p).
Definition LoadInt32BE (p : bytes) : Z :=
  let v := LoadUint32BE p in if v <? 2 ^ 31 then v else v - 2 ^ 32.

(** ** Text *)

Definition trim_front (s : bytes) : bytes := (span isspace s).2.
Definition TrimSv (s : bytes) : bytes := rev (trim_front (rev (trim_front s))).

Fixpoint number_loop (saw_digit saw_dot : bool) (s : bytes) : bool :=
  match s with
  | [] => saw_digit
  | c :: s =>
      if isdigit c then number_loop true saw_dot s
      else if bool_decide (c = ch ".") && negb saw_dot then number_loop saw_digit true s
      else false
  end.
Definition LooksLikeNumber (s : bytes) : bool :=
  match s with
  | [] => false
  | c :: s' =>
      if bool_decide (c = ch "+") || bool_decide (c = ch "-") then number_loop false false s' else number_loop false false s
  end.

Definition SqlQuoteLiteral (text : bytes) : bytes :=
  ch "'" :: concat ((λ c, if bool_decide (c = ch "'") then [c; c] else [c]) <$> text) ++ [ch "'"].

(** The text up to the first zero byte and what follows it. *)
Fixpoint ParseCString (blob : bytes) : option (bytes * bytes) :=
  match blob with
  | [] => None
  | c :: blob => if bool_decide (c = x00) then Some ([], blob) else '(s, rest) ← ParseCString blob; Some (c :: s, rest)
  end.

Definition LookupColumn (t : TableDef) (name : bytes) : option ColumnDef := head (filter (λ c, c_name c = name) (columns t)).
Definition UnqualifyName (name : bytes) : bytes := BaseColumnName name.

(** ** Splitting and binding *)

Definition add_part (cur : bytes) (out : list bytes) : list bytes :=
  match TrimSv cur with [] => out | part => out ++ [part] end.
Fixpoint split_loop (in_quote : bool) (cur : bytes) (out : list bytes) (sql : bytes) : list bytes :=
  match sql with
  | [] => add_part cur out
  | c :: sql =>
      if bool_decide (c = ch "'") then split_loop (negb in_quote) (cur ++ [c]) out sql
      else if negb in_quote && bool_decide (c = ch ";") then split_loop in_quote [] (add_part cur out) sql
      else split_loop in_quote (cur ++ [c]) out sql
  end.
Definition SplitStatements (sql : bytes) : list bytes := split_loop false [] [] sql.

(** [rest] starts with [pat]; what follows it. *)
Fixpoint strip_prefix (pat rest : bytes) : option bytes :=
  match pat, rest with
  | [], _ => Some rest
  | p :: pat, r :: rest => if bool_decide (p = r) then strip_prefix pat rest else None
  | _ :: _, [] => None
  end.
(** One placeholder: [last_char] is [query[pos - 1]], [rest] the query from [pos] on. The
    loop moves at least one character per round. *)
Fixpoint replace_loop (fuel : nat) (pat rep : bytes) (last_char : option byte) (rest : bytes) : bytes :=
  match fuel with
  | O => rest
  | S fuel =>
      match rest with
      | [] => []
      | c :: rest' =>
          match strip_prefix pat rest with
          | Some after =>
              let ok_left := match last_char with None => true | Some l => negb (isalnum l) end in
              let ok_right := match after with [] => true | r :: _ => negb (isdigit r) end in
              if ok_left && ok_right then
                rep ++ replace_loop fuel pat rep (match last rep with Some l => Some l | None => last_char end) after
              else pat ++ replace_loop fuel pat rep (last pat) after
          | None => c :: replace_loop fuel pat rep (Some c) rest'
          end
      end
  end.
Definition placeholder (i : nat) : bytes := ch "$" :: to_string (Z.of_nat i).
Definition literal_of (raw : bytes) : bytes := if LooksLikeNumber raw then raw else SqlQuoteLiteral raw.
Definition replace_param (i : nat) (raw : bytes) (query : bytes) : bytes :=
  replace_loop (length query) (placeholder i) (literal_of raw) None query.
(** From the last parameter down to the first. *)
Fixpoint SubstituteParams (query : bytes) (n : nat) (param_texts : list bytes) : bytes :=
  match n with
  | O => query
  | S m => SubstituteParams (replace_param n (default [] (param_texts !! m)) query) m param_texts
  end.

(** ** Messages of the server *)

(** A message: its type, its length with the length field, its payload. *)
Definition frame (type : byte) (payload : bytes) : bytes :=
  type :: AppendUint32BE (u32 (4 + Z.of_nat (length payload))) ++ payload.
Definition c_string (s : bytes) : bytes := s ++ [x00].

Definition PgOidFor (ct : ColumnType) : Z := match ct with INT => 23 | BIGINT => 20 | FLOAT => 701 | VARCHAR => 25 end.
Definition PgTyplenFor (ct : ColumnType) : Z := match ct with INT => 4 | BIGINT => 8 | FLOAT => 8 | VARCHAR => -1 end.

Definition column_description (name : bytes) (ct : ColumnType) : bytes :=
  c_string name ++ AppendUint32BE 0 ++ AppendUint16BE 0 ++ AppendUint32BE (PgOidFor ct) ++
  AppendUint16BE (u16 (PgTyplenFor ct)) ++ AppendUint32BE (u32 (-1)) ++ AppendUint16BE 0.

Definition AuthOk : bytes := frame (ch "R") (AppendUint32BE 0).
Definition ParameterStatus (key val : bytes) : bytes := frame (ch "S") (c_string key ++ c_string val).
Definition ReadyForQuery (txn_status : byte) : bytes := ch "Z" :: AppendUint32BE 5 ++ [txn_status].
Definition RowDescription (col_names : list bytes) (col_types : list ColumnType) : bytes :=
  frame (ch "T") (AppendUint16BE (u16 (Z.of_nat (length col_names))) ++
    concat (zip_with column_description col_names col_types)).
Definition DataRow (values : list bytes) : bytes :=
  frame (ch "D") (AppendUint16BE (u16 (Z.of_nat (length values))) ++
    concat ((λ v, AppendUint32BE (u32 (Z.of_nat (length v))) ++ v) <$> values)).
Definition CommandComplete (tag : bytes) : bytes := frame (ch "C") (c_string tag).
Definition ErrorResponse (severity code message : bytes) : bytes :=
  frame (ch "E") (ch "S" :: c_string severity ++ ch "C" :: c_string code ++ ch "M" :: c_string message ++ [x00]).
Definition ParseComplete : bytes := ch "1" :: AppendUint32BE 4.
Definition BindComplete : bytes := ch "2" :: AppendUint32BE 4.
Definition CloseComplete : bytes := ch "3" :: AppendUint32BE 4.
Definition ParameterDescription (param_oids : list Z) : bytes :=
  frame (ch "t") (AppendUint16BE (u16 (Z.of_nat (length param_oids))) ++ concat (AppendUint32BE <$> param_oids)).
Definition NoData : bytes := ch "n" :: AppendUint32BE 4.
Definition EmptyQueryResponse : bytes := ch "I" :: AppendUint32BE 4.

(** ** State and actions *)

Record PreparedStmt := MkPreparedStmt { ps_name : bytes; ps_query : bytes; param_oids : list Z }.
Record Portal := MkPortal { po_stmt_name : bytes; po_query : bytes; param_values : list bytes }.

Record PgSession := MkPgSession {
  current_txn_id_ : Z;
  txn_failed_ : bool;
  io_ok_ : bool;
  prepared_stmts_ : gmap bytes PreparedStmt;
  portals_ : gmap bytes Portal;
  write_buf_ : bytes;
}.
Definition new_PgSession : PgSession := MkPgSession 0 false true ∅ ∅ [].

(** A session with the coordinator and the catalog it shares with the others. *)
Record World := MkWorld { sess : PgSession; coord : Coordinator; cat : Catalog }.

(** [recv] gives the bytes it received, none when it fails or the client is gone;
    [send] gives the number of bytes it took, 0 when it fails. [AStale] is a read through
    a [std::string_view] of a temporary string that has been destroyed, [len] bytes long:
    what the memory holds by then is up to the environment. *)
Inductive PgAction :=
  | ARecv (len : nat)
  | ASend (data : bytes)
  | AStale (len : nat)
  | ACoord (a : CoordAction).
Definition pg_result (a : PgAction) : Type :=
  match a with ARecv _ | AStale _ => bytes | ASend _ => nat | ACoord a => coord_result a end.
Definition PgEvent : Type := sigT pg_result.

(** [None] is an exception that ends the process. *)
Definition SM (A : Type) : Type := World → Prog pg_result (World * option A).
#[export] Instance SM_ret : MRet SM := λ A a w, Ret (w, Some a).
#[export] Instance SM_bind : MBind SM := λ A B f m w,
  prog_bind (m w) (λ wa, match wa.2 with Some a => f a wa.1 | None => Ret (wa.1, None) end).

Definition get_world : SM World := λ w, Ret (w, Some w).
Definition set_world (w : World) : SM () := λ _, Ret (w, Some ()).
Definition pg_perform (a : PgAction) : SM (pg_result a) := λ w, Act a (λ r, Ret (w, Some r)).
Definition throw {A} : SM A := λ w, Ret (w, None).

Definition set_sess (w : World) (s : PgSession) : World := MkWorld s (coord w) (cat w).
Definition modify (f : PgSession → PgSession) : SM () := w ← get_world; set_world (set_sess w (f (sess w))).
Definition set_io (b : bool) (s : PgSession) : PgSession :=
  MkPgSession (current_txn_id_ s) (txn_failed_ s) b (prepared_stmts_ s) (portals_ s) (write_buf_ s).
Definition set_buf (b : bytes) (s : PgSession) : PgSession :=
  MkPgSession (current_txn_id_ s) (txn_failed_ s) (io_ok_ s) (prepared_stmts_ s) (portals_ s) b.
Definition set_txn (t : Z) (s : PgSession) : PgSession :=
  MkPgSession t (txn_failed_ s) (io_ok_ s) (prepared_stmts_ s) (portals_ s) (write_buf_ s).
Definition set_failed (b : bool) (s : PgSession) : PgSession :=
  MkPgSession (current_txn_id_ s) b (io_ok_ s) (prepared_stmts_ s) (portals_ s) (write_buf_ s).
Definition set_prepared (m : gmap bytes PreparedStmt) (s : PgSession) : PgSession :=
  MkPgSession (current_txn_id_ s) (txn_failed_ s) (io_ok_ s) m (portals_ s) (write_buf_ s).
Definition set_portals (m : gmap bytes Portal) (s : PgSession) : PgSession :=
  MkPgSession (current_txn_id_ s) (txn_failed_ s) (io_ok_ s) (prepared_stmts_ s) m (write_buf_ s).

(** A program of the executor as a part of the session's. *)
Fixpoint embed {A} (p : Prog coord_result A) : Prog pg_result A :=
  match p with
  | Ret a => Ret a
  | Act a k => Act (ACoord a : PgAction) (λ r : pg_result (ACoord a), embed (k r))
  end.
Definition call_executor (m : Catalog → CM (Catalog * option ExecOutput)) : SM ExecOutput := λ w,
  prog_bind (embed (m (cat w) (coord w)))
    (λ r : Coordinator * (Catalog * option ExecOutput), Ret (MkWorld (sess w) r.1 r.2.1, r.2.2)).

Module Pg.
Section session.
Context `{Undefined} `{StdSort} (env : getenv).

(** ** Input and output *)

(** The loop of [ReadExact]: [len] bytes are left, [buf] was read. Every round reads a
    byte, so [len] rounds are enough. *)
Fixpoint read_loop (fuel : nat) (len : nat) (buf : bytes) : SM (option bytes) :=
  match len, fuel with
  | O, _ | _, O => mret (Some buf)
  | _, S fuel =>
      r ← pg_perform (ARecv len);
      match r : bytes with
      | [] => modify (set_io false) ;; mret None
      | _ => read_loop fuel (len - length r) (buf ++ r)
      end
  end.
Definition ReadExact (len : nat) : SM (option bytes) := read_loop len len [].

(** [send] without MSG_NOSIGNAL on a connection the client has closed may raise SIGPIPE,
    which nobody handles; a server that ends so is a run that stops after the call, as
    are the runs ([path] without a result) that stop anywhere else. *)
Fixpoint send_loop (fuel : nat) (buf : bytes) : SM bool :=
  match buf, fuel with
  | [], _ | _, O => mret true
  | _, S fuel =>
      s ← pg_perform (ASend buf);
      match s : nat with
      | O => modify (set_io false) ;; mret false
      | _ => send_loop fuel (drop s buf)
      end
  end.
Definition SendBytes (buf : bytes) : SM bool := send_loop (length buf) buf.

Definition write (b : bytes) : SM () := modify (λ s, set_buf (write_buf_ s ++ b) s).
Definition Flush : SM () :=
  w ← get_world;
  match write_buf_ (sess w) with
  | [] => mret ()
  | buf => SendBytes buf ;; modify (set_buf [])
  end.

(** [fuel] bounds the number of SSL requests; [None] when it runs out, and
    [Some false] where the code returns [false]. *)
Fixpoint ReadStartupNegotiation (fuel : nat) : SM (option bool) :=
  match fuel with
  | O => mret None
  | S fuel =>
      lenb ← ReadExact 4;
      match lenb with
      | None => mret (Some false)
      | Some lenb =>
          let total := LoadUint32BE lenb in
          if total <? 8 then modify (set_io false) ;; mret (Some false)
          else
            let read_body := b ← ReadExact (Z.to_nat (total - 4)); mret (Some (bool_decide (is_Some b))) in
            if total =? 8 then
              codeb ← ReadExact 4;
              match codeb with
              | None => mret (Some false)
              | Some codeb =>
                  if LoadUint32BE codeb =? 80877103 then
                    ok ← SendBytes (str "N");
                    if (ok : bool) then ReadStartupNegotiation fuel else mret (Some false)
                  else read_body
              end
            else read_body
      end
  end.

(** [None] where the code returns [false]. *)
Definition ReadBackendMessage : SM (option (byte * bytes)) :=
  type ← ReadExact 1;
  match type with
  | Some [type] =>
      lenb ← ReadExact 4;
      match lenb with
      | None => mret None
      | Some lenb =>
          let len := LoadUint32BE lenb in
          if len <? 4 then modify (set_io false) ;; mret None
          else
            payload ← ReadExact (Z.to_nat (len - 4));
            mret (p ← payload; Some (type, p))
      end
  | _ => mret None
  end.

Definition WriteErrorResponse (severity code message : bytes) : SM () :=
  write (ErrorResponse severity code message) ;; Flush.
Definition error (code : string) (message : bytes) : SM () := WriteErrorResponse (str "ERROR") (str code) message.

Definition TxnIndicator (s : PgSession) : byte :=
  if txn_failed_ s then ch "E" else if negb (current_txn_id_ s =? 0) then ch "T" else ch "I".
Definition WriteReadyForQuery : SM () := w ← get_world; write (ReadyForQuery (TxnIndicator (sess w))).
Definition WriteStartupAck : SM () :=
  write AuthOk ;;
  write (ParameterStatus (str "server_version") (str "15.0")) ;;
  write (ParameterStatus (str "server_encoding") (str "UTF8")) ;;
  write (ParameterStatus (str "client_encoding") (str "UTF8")) ;;
  write (ParameterStatus (str "DateStyle") (str "ISO, MDY")) ;;
  WriteReadyForQuery ;; Flush.

(** ** Statements *)

(** [Parse] always gives a result; the last case does not occur. *)
Definition TryParseStatement (sql : bytes) : bytes + Statement :=
  match Parse sql with
  | Some (inr stmt) => inr stmt
  | Some (inl e) => inl (pe_message e)
  | None => inl []
  end.

Definition resolve_col (left : TableDef) (right : option TableDef) (raw : bytes) : option ColumnType :=
  let look t name := c_type <$> LookupColumn t name in
  let unq := UnqualifyName raw in
  match look left raw with
  | Some ct => Some ct
  | None =>
      match look left unq with
      | Some ct => Some ct
      | None =>
          rt ← right;
          match look rt raw with Some ct => Some ct | None => look rt unq end
      end
  end.
Definition type_or_varchar (left : TableDef) (right : option TableDef) (raw : bytes) : ColumnType :=
  default VARCHAR (resolve_col left right raw).

(** The types of an aggregate in the answer and in the description. *)
Definition agg_type (left : TableDef) (right : option TableDef) (a : Aggregate) : ColumnType :=
  match ag_func a with
  | COUNT => BIGINT
  | _ => if ag_star a then BIGINT else type_or_varchar left right (ag_column a)
  end.
Definition described_agg_type (left : TableDef) (right : option TableDef) (a : Aggregate) : ColumnType :=
  match ag_func a with COUNT => BIGINT | _ => type_or_varchar left right (ag_column a) end.

(** The types of the columns: [agg_ty] is that of an aggregate. The executor returns as
    many columns as the statement has columns and aggregates. *)
Definition out_types (agg_ty : Aggregate → ColumnType) (left : TableDef) (right : option TableDef) (sel : SelectStmt)
    (out_cols : list bytes) : list ColumnType :=
  match aggregates sel with
  | [] => type_or_varchar left right <$> out_cols
  | aggs =>
      imap (λ i _, match se_columns sel !! i with
                   | Some c => type_or_varchar left right c
                   | None => from_option agg_ty VARCHAR (aggs !! (i - length (se_columns sel))%nat)
                   end) out_cols
  end.

(** [None] when a table is unknown. *)
Definition select_tables (c : Catalog) (sel : SelectStmt) : option (TableDef * option TableDef) :=
  lt ← GetTable c (se_table_name sel);
  match se_join sel with
  | None => Some (lt, None)
  | Some j => rt ← GetTable c (jc_table_name j); Some (lt, Some rt)
  end.
Definition infer_select_types (c : Catalog) (sel : SelectStmt) (out_cols : list bytes) : option (list ColumnType) :=
  '(lt, rt) ← select_tables c sel; Some (out_types (agg_type lt rt) lt rt sel out_cols).

Definition write_rows (rows : list (list bytes)) : SM () := write (concat (DataRow <$> rows)).
Definition EmitSuccess (stmt : Statement) (res : ExecResult) : SM () :=
  if negb (x_ok res) then mret ()
  else
    match stmt with
    | SelectS sel =>
        w ← get_world;
        match infer_select_types (cat w) sel (x_columns res) with
        | None => error "XX000" (str "unknown table")
        | Some types =>
            write (RowDescription (x_columns res) types) ;; write_rows (x_rows res) ;;
            write (CommandComplete (command_tag res))
        end
    | _ => write (CommandComplete (command_tag res))
    end.

Definition is_rollback (stmt : Statement) : bool := match stmt with RollbackS => true | _ => false end.
Definition is_commit (stmt : Statement) : bool := match stmt with CommitS => true | _ => false end.
(** An error inside a transaction makes it a failed one. *)
Definition fail_txn : SM () := modify (λ s, if negb (current_txn_id_ s =? 0) then set_failed true s else s).

Definition ProcessSingle (sql_text : bytes) : SM () :=
  match TryParseStatement sql_text with
  | inl perr => error "42601" perr ;; fail_txn
  | inr stmt =>
      w ← get_world;
      if txn_failed_ (sess w) && negb (is_rollback stmt) then
        error "25P02" (str "current transaction is aborted, commands ignored until end of transaction block")
      else
        out ← call_executor (λ c, Exec.Execute env c stmt (current_txn_id_ (sess w)));
        modify (set_txn (x_txn_id out)) ;;
        if negb (x_ok (x_result out)) then
          error "XX000" (if bool_decide (x_error (x_result out) = ""%string) then str "error" else str (x_error (x_result out))) ;;
          fail_txn
        else
          (if is_rollback stmt || is_commit stmt then modify (set_failed false) else mret ()) ;;
          EmitSuccess stmt (x_result out)
  end.

(** ** Simple queries *)

Definition strip_nul (s : bytes) : bytes := rev (span (λ c, bool_decide (c = x00)) (rev s)).2.
(** The statements in turn; [false] when the connection failed. *)
Fixpoint process_all (parts : list bytes) : SM bool :=
  match parts with
  | [] => mret true
  | chunk :: parts =>
      ProcessSingle chunk ;;
      w ← get_world;
      if negb (io_ok_ (sess w)) then mret false else process_all parts
  end.
Definition HandleSync : SM () := WriteReadyForQuery ;; Flush.
Definition HandleSimpleQuery (payload : bytes) : SM () :=
  match SplitStatements (strip_nul payload) with
  | [] => write EmptyQueryResponse ;; HandleSync
  | parts => ok ← process_all parts; if (ok : bool) then HandleSync else mret ()
  end.

(** ** The extended protocol *)

Fixpoint read_oids (n : nat) (b : bytes) : option (list Z * bytes) :=
  match n with
  | O => Some ([], b)
  | S n =>
      if (length b <? 4)%nat then None
      else '(l, rest) ← read_oids n (drop 4 b); Some (LoadUint32BE b :: l, rest)
  end.
(** What a Parse message defines, or what is wrong with it. *)
Definition decode_parse (payload : bytes) : string + PreparedStmt :=
  match ParseCString payload with
  | None => inl "invalid Parse message"%string
  | Some (stmt_name, b) =>
      match ParseCString b with
      | None => inl "invalid Parse message"%string
      | Some (query, b) =>
          if (length b <? 2)%nat then inl "truncated Parse message"%string
          else
            match read_oids (Z.to_nat (LoadUint16BE b)) (drop 2 b) with
            | None => inl "truncated Parse param types"%string
            | Some (oids, _) => inr (MkPreparedStmt stmt_name query oids)
            end
      end
  end.
Definition HandleParse (payload : bytes) : SM () :=
  match decode_parse payload with
  | inl e => error "08P01" (str e)
  | inr ps =>
      modify (λ s, set_prepared (<[ps_name ps := ps]> (prepared_stmts_ s)) s) ;;
      write ParseComplete
  end.

(** 16-bit integer at the front. *)
Definition read_i16 (b : bytes) : option (Z * bytes) :=
  if (length b <? 2)%nat then None else Some (LoadUint16BE b, drop 2 b).
Fixpoint skip_formats (n : nat) (b : bytes) : option bytes :=
  match n with
  | O => Some b
  | S n => if (length b <? 2)%nat then None else skip_formats n (drop 2 b)
  end.
Fixpoint read_params (n : nat) (b : bytes) : string + (list bytes * bytes) :=
  match n with
  | O => inr ([], b)
  | S n =>
      if (length b <? 4)%nat then inl "truncated Bind params"%string
      else
        let plen := LoadInt32BE b in
        let b := drop 4 b in
        if plen <? 0 then
          match read_params n b with inl e => inl e | inr (ps, b) => inr ([] :: ps, b) end
        else if Z.of_nat (length b) <? plen then inl "bad Bind param length"%string
        else
          match read_params n (drop (Z.to_nat plen) b) with
          | inl e => inl e
          | inr (ps, b') => inr (take (Z.to_nat plen) b :: ps, b')
          end
  end.
(** Portal, statement and parameters of a Bind message. *)
Definition decode_bind (payload : bytes) : string + (bytes * bytes * list bytes) :=
  match ParseCString payload with
  | None => inl "invalid Bind message"%string
  | Some (portal_name, b) =>
      match ParseCString b with
      | None => inl "invalid Bind message"%string
      | Some (stmt_name, b) =>
          match read_i16 b with
          | None => inl "invalid Bind message"%string
          | Some (num_formats, b) =>
              match skip_formats (Z.to_nat num_formats) b with
              | None => inl "truncated Bind formats"%string
              | Some b =>
                  match read_i16 b with
                  | None => inl "invalid Bind param count"%string
                  | Some (num_params, b) =>
                      match read_params (Z.to_nat num_params) b with
                      | inl e => inl e
                      | inr (params, b) =>
                          match read_i16 b with
                          | None => inl "invalid Bind result formats"%string
                          | Some _ => inr (portal_name, stmt_name, params)
                          end
                      end
                  end
              end
          end
      end
  end.
(** The entry with this name, else the one without a name. *)
Definition find_named {A} (m : gmap bytes A) (name : bytes) : option A :=
  match m !! name with Some x => Some x | None => m !! [] end.
Definition HandleBind (payload : bytes) : SM () :=
  match decode_bind payload with
  | inl e => error "08P01" (str e)
  | inr (portal_name, stmt_name, params) =>
      w ← get_world;
      match find_named (prepared_stmts_ (sess w)) stmt_name with
      | None => error "26000" (str "unknown prepared statement")
      | Some ps =>
          let port := MkPortal stmt_name (SubstituteParams (ps_query ps) (length params) params) params in
          modify (λ s, set_portals (<[portal_name := port]> (portals_ s)) s) ;;
          write BindComplete
      end
  end.

(** Runs the query to learn its columns; [None] where the code returns [false]. *)
Definition DescribeSelectMeta (query : bytes) : SM (option (list bytes * list ColumnType)) :=
  match TryParseStatement query with
  | inr (SelectS sel) =>
      w ← get_world;
      out ← call_executor (λ c, Exec.Execute env c (SelectS sel) (current_txn_id_ (sess w)));
      if negb (x_ok (x_result out)) then mret None
      else
        w ← get_world;
        mret ('(lt, rt) ← select_tables (cat w) sel;
              Some (x_columns (x_result out),
                    out_types (described_agg_type lt rt) lt rt sel (x_columns (x_result out))))
  | _ => mret None
  end.
(** The view [b] is of the temporary [payload.substr(1)], which ends with the declaration. *)
Definition HandleDescribe (payload : bytes) : SM () :=
  match payload with
  | [] => error "08P01" (str "Describe message too short")
  | kind :: rest =>
      b ← pg_perform (AStale (length rest));
      match ParseCString b with
      | None => error "08P01" (str "invalid Describe name")
      | Some (name, _) =>
          if bool_decide (kind = ch "S") then
            w ← get_world;
            match find_named (prepared_stmts_ (sess w)) name with
            | None => error "26000" (str "unknown prepared statement")
            | Some ps =>
                write (ParameterDescription (param_oids ps)) ;;
                m ← DescribeSelectMeta (ps_query ps);
                match m with
                | Some (cnames, ctypes) => write (RowDescription cnames ctypes)
                | None => write NoData
                end
            end
          else if bool_decide (kind = ch "P") then write NoData
          else error "08P01" (str "unknown Describe kind")
      end
  end.

Definition HandleExecute (payload : bytes) : SM () :=
  match ParseCString payload with
  | None => error "08P01" (str "invalid Execute portal")
  | Some (portal_name, b) =>
      if negb (bool_decide (b = [])) && (length b <? 4)%nat then error "08P01" (str "truncated Execute message")
      else
        w ← get_world;
        match find_named (portals_ (sess w)) portal_name with
        | None => error "34000" (str "unknown portal")
        | Some port => ProcessSingle (po_query port)
        end
  end.
(** The view [b] is of a destroyed temporary, as in [HandleDescribe]. *)
Definition HandleClose (payload : bytes) : SM () :=
  match payload with
  | [] => error "08P01" (str "Close message too short")
  | kind :: rest =>
      b ← pg_perform (AStale (length rest));
      match ParseCString b with
      | None => error "08P01" (str "invalid Close name")
      | Some (name, _) =>
          if bool_decide (kind = ch "S") then
            modify (λ s, set_prepared (delete name (prepared_stmts_ s)) s) ;; write CloseComplete
          else if bool_decide (kind = ch "P") then
            modify (λ s, set_portals (delete name (portals_ s)) s) ;; write CloseComplete
          else error "08P01" (str "unknown Close kind")
      end
  end.

(** ** The session *)

(** One message; [false] ends the session. *)
Definition dispatch (m : byte * bytes) : SM bool :=
  let '(type, payload) := m in
  if bool_decide (type = ch "X") then mret false
  else
    (if bool_decide (type = ch "Q") then HandleSimpleQuery payload
     else if bool_decide (type = ch "P") then HandleParse payload
     else if bool_decide (type = ch "B") then HandleBind payload
     else if bool_decide (type = ch "E") then HandleExecute payload
     else if bool_decide (type = ch "D") then HandleDescribe payload
     else if bool_decide (type = ch "S") then HandleSync
     else if bool_decide (type = ch "H") then Flush
     else if bool_decide (type = ch "C") then HandleClose payload
     else mret ()) ;;
    mret true.
(** The loop of [Run]; [false] when [fuel] runs out, that is when the session is still
    going on. *)
Fixpoint run_loop (fuel : nat) : SM bool :=
  match fuel with
  | O => mret false
  | S fuel =>
      w ← get_world;
      if negb (io_ok_ (sess w)) then mret true
      else
        m ← ReadBackendMessage;
        match m with
        | None => mret true
        | Some m => go_on ← dispatch m; if (go_on : bool) then run_loop fuel else mret true
        end
  end.
Definition Run (fuel : nat) : SM bool :=
  r ← ReadStartupNegotiation fuel;
  match r with
  | None => mret false
  | Some false => mret true
  | Some true => WriteStartupAck ;; run_loop fuel
  end.
End session.
End Pg.
