(* ===== verification/PgWireProofs.v ===== *)
(** * Correctness of the wire protocol session

    What a session sends, what it does to the transactions of the coordinator, and how
    it reads messages from the socket. *)
From Stdlib Require Import Strings.Byte Strings.Ascii.
From stdpp Require Import base gmap sets strings sorting list.
From Stdlib Require Import ZArith Lia.
From S2P Require Import Prelude Status GroupCommit KeyEncoding ShardMessages Effects CoordinatorLog Coordinator.
From S2P Require Import Text Catalog JoinHandler Lexer Parser DistributedJoin Executor ExecutorProofs PgWire.
Local Open Scope Z_scope.

Implicit Types tr : list PgEvent.
Implicit Types w : World.

(** ** Runs of session programs *)

Lemma sm_bind_inv {A B} (m : SM A) (f : A → SM B) w tr w' o : path ((m ≫= f) w) tr (Some (w', o)) →
  (o = None ∧ path (m w) tr (Some (w', None))) ∨
  ∃ tr1 tr2 w1 a, tr = tr1 ++ tr2 ∧ path (m w) tr1 (Some (w1, Some a)) ∧ path (f a w1) tr2 (Some (w', o)).
Proof.
  intros [[_ ?]|(tr1 & tr2 & [w1 [a|]] & -> & H1 & H2)]%path_bind_inv; [done|right|left].
  - by exists tr1, tr2, w1, a.
  - cbn in H2. destruct H2 as [-> [?|E]]; [done|]. injection E as -> ->. by rewrite app_nil_r.
Qed.
Lemma sm_ret_inv {A} (a : A) w tr w' o : path ((mret a : SM A) w) tr (Some (w', o)) → tr = [] ∧ w' = w ∧ o = Some a.
Proof. intros [-> [?|E]]; [done|]. by injection E as -> ->. Qed.
Lemma sm_modify_inv f w tr w' o : path (modify f w) tr (Some (w', o)) → tr = [] ∧ w' = set_sess w (f (sess w)) ∧ o = Some ().
Proof. intros [-> [?|E]]; [done|]. by injection E as -> ->. Qed.
Lemma sm_get_inv w tr w' o : path (get_world w) tr (Some (w', o)) → tr = [] ∧ w' = w ∧ o = Some w.
Proof. intros [-> [?|E]]; [done|]. by injection E as -> ->. Qed.
Lemma sm_perform_inv a w tr w' o : path (pg_perform a w) tr (Some (w', o)) → ∃ r, tr = [Ev a r] ∧ w' = w ∧ o = Some r.
Proof.
  intros [[_ ?]|(r & tr' & -> & [-> [?|E]])]; [done..|]. injection E as -> ->. by exists r.
Qed.

(** The events of the coordinator in a run of the session. *)
Definition coord_events (tr : list PgEvent) : list CEvent :=
  omap (λ e : PgEvent, match e with existT (ACoord a) r => Some (existT a r : CEvent) | _ => None end) tr.
Lemma coord_events_app tr1 tr2 : coord_events (tr1 ++ tr2) = coord_events tr1 ++ coord_events tr2.
Proof. apply omap_app. Qed.
Definition only_coord (tr : list PgEvent) : Prop :=
  Forall (λ e : PgEvent, match projT1 e with ACoord _ => True | _ => False end) tr.
Lemma embed_inv {A} (p : Prog coord_result A) tr o : path (embed p) tr o → path p (coord_events tr) o ∧ only_coord tr.
Proof.
  revert tr. induction p as [a|a k IH]; intros tr; cbn [embed path].
  - intros [-> Ho]. split; [done|constructor].
  - intros [[-> ->]|(r & tr' & -> & Hp)]; [split; [by left|constructor]|]. destruct (IH r tr' Hp) as [Hk Hc]. split.
    + right. by exists r, (coord_events tr').
    + by constructor.
Qed.
Lemma executor_inv m w tr w' o : path (call_executor m w) tr (Some (w', o)) →
  sess w' = sess w ∧ path (m (cat w) (coord w)) (coord_events tr) (Some (coord w', (cat w', o))) ∧ only_coord tr.
Proof.
  unfold call_executor. intros [[_ ?]|(tr1 & tr2 & [c' [cat' r]] & -> & H1 & [-> [?|E]])]%path_bind_inv; [done..|].
  injection E as -> ->. rewrite app_nil_r. apply embed_inv in H1 as [Hp Hc]. done.
Qed.

(** ** What is sent *)

(** The bytes that the socket took. *)
Definition sent (tr : list PgEvent) : bytes :=
  concat ((λ e : PgEvent, match e with existT (ASend data) n => take n data | _ => [] end) <$> tr).
Lemma sent_app tr1 tr2 : sent (tr1 ++ tr2) = sent tr1 ++ sent tr2.
Proof. unfold sent. by rewrite fmap_app, concat_app. Qed.
Lemma sent_coord tr : only_coord tr → sent tr = [].
Proof.
  induction 1 as [|[a r] tr Ha _ IH]; [done|]. cbn in Ha |- *. by destruct a.
Qed.

Abbreviation message := (byte * bytes)%type.
Definition render (fs : list message) : bytes := concat ((λ f, frame f.1 f.2) <$> fs).
Lemma render_app a b : render (a ++ b) = render a ++ render b.
Proof. unfold render. by rewrite fmap_app, concat_app. Qed.
Lemma render_one type payload : frame type payload = render [(type, payload)].
Proof. unfold render. cbn. by rewrite app_nil_r. Qed.

(** As long as the connection works, [m] sends or buffers whole messages, [Q] of them. *)
Definition emits {A} (m : SM A) (Q : World → World → A → list message → Prop) : Prop :=
  ∀ w tr w' a, path (m w) tr (Some (w', Some a)) → io_ok_ (sess w') = true →
    io_ok_ (sess w) = true ∧
    ∃ fs, sent tr ++ write_buf_ (sess w') = write_buf_ (sess w) ++ render fs ∧ Q w w' a fs.

Lemma emits_ret {A} (a : A) (Q : World → World → A → list message → Prop) : (∀ w, Q w w a []) → emits (mret a) Q.
Proof.
  intros HQ w tr w' x Hp Hio. apply sm_ret_inv in Hp as (-> & -> & [= <-]). split; [done|]. exists [].
  cbn. by rewrite app_nil_r.
Qed.
Lemma emits_bind {A B} (m : SM A) (f : A → SM B) (R : World → World → A → list message → Prop)
    (Q : World → World → B → list message → Prop) : emits m R →
  (∀ a, emits (f a) (λ w1 w2 b fs2, ∀ w fs1, R w w1 a fs1 → Q w w2 b (fs1 ++ fs2))) → emits (m ≫= f) Q.
Proof.
  intros Hm Hf w tr w' b Hp Hio. apply sm_bind_inv in Hp as [[? _]|(tr1 & tr2 & w1 & a & -> & H1 & H2)]; [done|].
  destruct (Hf a w1 tr2 w' b H2 Hio) as (Hio1 & fs2 & E2 & HQ). destruct (Hm w tr1 w1 a H1 Hio1) as (Hio0 & fs1 & E1 & HR).
  split; [done|]. exists (fs1 ++ fs2). split; [|by apply HQ].
  by rewrite sent_app, <- app_assoc, E2, app_assoc, E1, render_app, <- app_assoc.
Qed.
Lemma emits_impl {A} (m : SM A) (Q Q' : World → World → A → list message → Prop) :
  emits m Q → (∀ w w' a fs, Q w w' a fs → Q' w w' a fs) → emits m Q'.
Proof.
  intros Hm HQ w tr w' a Hp Hio. destruct (Hm w tr w' a Hp Hio) as (? & fs & ? & ?). split; [done|]. exists fs. auto.
Qed.
Lemma emits_get (Q : World → World → World → list message → Prop) : (∀ w, Q w w w []) → emits get_world Q.
Proof.
  intros HQ w tr w' x Hp Hio. apply sm_get_inv in Hp as (-> & -> & [= <-]). split; [done|]. exists [].
  cbn. by rewrite app_nil_r.
Qed.
Lemma emits_modify f (Q : World → World → () → list message → Prop) :
  (∀ s, io_ok_ (f s) = io_ok_ s ∧ write_buf_ (f s) = write_buf_ s) → (∀ w, Q w (set_sess w (f (sess w))) () []) →
  emits (modify f) Q.
Proof.
  intros Hf HQ w tr w' [] Hp Hio. apply sm_modify_inv in Hp as (-> & -> & _). cbn in Hio |- *.
  destruct (Hf (sess w)) as [Ei Eb]. split; [by rewrite <- Ei|]. exists []. cbn. rewrite Eb, app_nil_r. done.
Qed.

Section session.
Context `{Undefined} `{StdSort} (env : getenv).

Lemma emits_write bs fs : bs = render fs → emits (Pg.write bs) (λ w w' _ fs',
  fs' = fs ∧ w' = set_sess w (set_buf (write_buf_ (sess w) ++ bs) (sess w))).
Proof.
  intros -> w tr w' [] Hp Hio. apply sm_modify_inv in Hp as (-> & -> & _). split; [done|]. by exists fs.
Qed.
Lemma send_loop_sent fuel buf w tr w' a : (length buf ≤ fuel)%nat → path (Pg.send_loop fuel buf w) tr (Some (w', Some a)) →
  io_ok_ (sess w') = true → w' = w ∧ sent tr = buf.
Proof.
  revert buf w tr. induction fuel as [|fuel IH]; intros buf w tr Hlen Hp Hio.
  { destruct buf; [|cbn in Hlen; lia]. by apply sm_ret_inv in Hp as (-> & -> & _). }
  destruct buf as [|c buf]; [by apply sm_ret_inv in Hp as (-> & -> & _)|]. cbn [Pg.send_loop] in Hp.
  apply sm_bind_inv in Hp as [[? _]|(tr1 & tr2 & w1 & n & -> & H1 & H2)]; [done|].
  apply (sm_perform_inv (ASend (c :: buf))) in H1 as (r & -> & -> & [= ->]). destruct r as [|r].
  - apply sm_bind_inv in H2 as [[? _]|(tr3 & tr4 & w2 & [] & -> & H3 & H4)]; [done|].
    apply sm_modify_inv in H3 as (-> & -> & _). by apply sm_ret_inv in H4 as (-> & -> & _).
  - apply IH in H2 as [-> E]; [|rewrite length_drop; cbn in Hlen |- *; lia|done]. split; [done|].
    rewrite sent_app, E. cbn [sent fmap list_fmap concat]. rewrite app_nil_r. apply take_drop.
Qed.
Lemma emits_Flush : emits Pg.Flush (λ w w' _ fs, fs = [] ∧ w' = set_sess w (set_buf [] (sess w))).
Proof.
  intros w tr w' [] Hp Hio. unfold Pg.Flush in Hp.
  apply sm_bind_inv in Hp as [[? _]|(tr1 & tr2 & w1 & x & -> & H1 & H2)]; [done|].
  apply sm_get_inv in H1 as (-> & -> & [= ->]). destruct (write_buf_ (sess w)) as [|c buf] eqn:Eb.
  { apply sm_ret_inv in H2 as (-> & -> & _). split; [done|]. exists []. split; [by rewrite Eb|]. split; [done|].
    destruct w as [[] ? ?]. cbn in *. by subst. }
  apply sm_bind_inv in H2 as [[? _]|(tr3 & tr4 & w2 & b & -> & H3 & H4)]; [done|].
  apply sm_modify_inv in H4 as (-> & -> & _). cbn in Hio.
  apply send_loop_sent in H3 as [-> E]; [|lia|done]. split; [done|]. exists []. split; [|done].
  cbn [app sess set_sess write_buf_ set_buf render fmap list_fmap concat]. by rewrite !app_nil_r, E.
Qed.

(** *** Replies *)

(** Messages that answer a statement: exactly [n] of them end one, by completing it or
    by an error, and none tells the client to go on. *)
Definition ends_statement (f : message) : Prop := f.1 = ch "C" ∨ f.1 = ch "E".
#[local] Instance ends_statement_dec f : Decision (ends_statement f).
Proof. unfold ends_statement. apply _. Defined.
Definition replies (n : nat) (fs : list message) : Prop :=
  length (filter ends_statement fs) = n ∧ Forall (λ f, f.1 ≠ ch "Z") fs.
Lemma replies_app n m fs gs : replies n fs → replies m gs → replies (n + m) (fs ++ gs).
Proof. intros [Hn Hf] [Hm Hg]. split; [by rewrite filter_app, length_app, Hn, Hm|by apply Forall_app]. Qed.
Lemma replies_nil : replies 0 [].
Proof. split; [done|constructor]. Qed.
Lemma replies_end type payload : type = ch "C" ∨ type = ch "E" → replies 1 [(type, payload)].
Proof. intros [-> | ->]; (split; [reflexivity|]); by repeat constructor. Qed.
Lemma replies_other type payload : type = ch "T" ∨ type = ch "D" → replies 0 [(type, payload)].
Proof. intros [-> | ->]; (split; [reflexivity|]); by repeat constructor. Qed.
Lemma replies_rows fs : Forall (λ f, f.1 = ch "D") fs → replies 0 fs.
Proof.
  induction 1 as [|[ty p] fs Hf _ IH]; [apply replies_nil|]. cbn in Hf. subst.
  apply (replies_app 0 0 [_]); [apply replies_other; by right|done].
Qed.

Abbreviation emits_replies m n := (emits m (λ _ _ _ fs, replies n fs)).

Lemma emits_seq {B} n m (p : SM ()) (q : SM B) : emits_replies p n → emits_replies q m → emits_replies (p ;; q) (n + m).
Proof.
  intros Hp Hq. eapply emits_bind; [exact Hp|]. intros []. eapply emits_impl; [exact Hq|].
  intros ? ? ? fs2 H2 ? fs1 H1. by apply replies_app.
Qed.
Lemma emits_then {A B} n (p : SM A) (f : A → SM B) : emits_replies p 0 → (∀ a, emits_replies (f a) n) → emits_replies (p ≫= f) n.
Proof.
  intros Hp Hf. eapply emits_bind; [exact Hp|]. intros a. eapply emits_impl; [apply Hf|].
  intros ? ? ? fs2 H2 ? fs1 H1. by apply (replies_app 0 n).
Qed.
Lemma emits_replies_write bs fs n : bs = render fs → replies n fs → emits_replies (Pg.write bs) n.
Proof. intros Hb Hn. eapply emits_impl; [by apply emits_write|]. by intros ? ? ? ? [-> _]. Qed.
Lemma emits_replies_modify f : (∀ s, io_ok_ (f s) = io_ok_ s ∧ write_buf_ (f s) = write_buf_ s) → emits_replies (modify f) 0.
Proof. intros Hf. apply emits_modify; [done|]. intros. apply replies_nil. Qed.
Lemma emits_replies_get : emits_replies get_world 0.
Proof. apply emits_get. intros. apply replies_nil. Qed.
Lemma emits_error code msg : emits_replies (Pg.error code msg) 1.
Proof.
  apply (emits_seq 1 0).
  - eapply emits_replies_write; [apply render_one|]. apply replies_end. by right.
  - eapply emits_impl; [apply emits_Flush|]. intros ? ? ? ? [-> _]. apply replies_nil.
Qed.
Lemma emits_executor m : emits_replies (call_executor m) 0.
Proof.
  intros w tr w' out Hp Hio. apply executor_inv in Hp as (Es & _ & Hc). rewrite Es in *. split; [done|]. exists [].
  split; [|apply replies_nil]. rewrite (sent_coord _ Hc). cbn. by rewrite app_nil_r.
Qed.
Lemma emits_EmitSuccess stmt res : x_ok res = true → emits_replies (Pg.EmitSuccess stmt res) 1.
Proof.
  intros Hok. unfold Pg.EmitSuccess. rewrite Hok. cbn [negb].
  assert (Hc : emits_replies (Pg.write (CommandComplete (command_tag res))) 1).
  { eapply emits_replies_write; [apply render_one|]. apply replies_end. by left. }
  destruct stmt; try exact Hc. apply emits_then; [apply emits_replies_get|]. intros w.
  destruct (Pg.infer_select_types _ _ _) as [types|]; [|apply emits_error].
  apply (emits_seq 0 1); [eapply emits_replies_write; [apply render_one|]; apply replies_other; by left|].
  apply (emits_seq 0 1); [|exact Hc].
  apply (emits_replies_write _ ((λ r, (ch "D", AppendUint16BE (u16 (Z.of_nat (length r))) ++
    concat ((λ v, AppendUint32BE (u32 (Z.of_nat (length v))) ++ v) <$> r))) <$> x_rows res)).
  - unfold render. by rewrite <- list_fmap_compose.
  - apply replies_rows, Forall_fmap, Forall_forall. done.
Qed.
Lemma emits_ProcessSingle sql : emits_replies (Pg.ProcessSingle env sql) 1.
Proof.
  unfold Pg.ProcessSingle.
  assert (Hfail : emits_replies Pg.fail_txn 0).
  { apply emits_replies_modify. intros s. by destruct (negb _). }
  destruct (Pg.TryParseStatement sql) as [e|stmt]; [apply (emits_seq 1 0); [apply emits_error|exact Hfail]|].
  apply emits_then; [apply emits_replies_get|]. intros w. destruct (_ && _); [apply emits_error|].
  apply emits_then; [apply emits_executor|]. intros out.
  apply (emits_seq 0 1); [by apply emits_replies_modify|].
  destruct (x_ok (x_result out)) eqn:Eok; cbn [negb].
  - apply (emits_seq 0 1); [|by apply emits_EmitSuccess].
    destruct (_ || _); [by apply emits_replies_modify|]. apply emits_ret. intros. apply replies_nil.
  - apply (emits_seq 1 0); [apply emits_error|exact Hfail].
Qed.
Lemma emits_process_all parts : emits (Pg.process_all env parts) (λ _ _ ok fs, ok = true ∧ replies (length parts) fs).
Proof.
  induction parts as [|chunk parts IH]; cbn [Pg.process_all length].
  { apply emits_ret. intros. split; [done|apply replies_nil]. }
  eapply emits_bind; [apply emits_ProcessSingle|]. intros [].
  eapply emits_bind; [apply (emits_get (λ w w' a fs, a = w' ∧ fs = [])); done|]. intros w.
  destruct (io_ok_ (sess w)) eqn:Eio; cbn [negb].
  - eapply emits_impl; [apply IH|]. cbn. intros ? ? ok fs [-> Hfs] w0 fs0 [_ ->] ? fs1 H1. split; [done|].
    rewrite app_nil_l. by apply (replies_app 1 (length parts)).
  - intros w1 tr w2 ok Hp Hio. apply sm_ret_inv in Hp as (-> & -> & [= ->]). split; [done|]. exists [].
    split; [cbn; by rewrite app_nil_r|]. cbn. intros w0 fs0 [-> _]. congruence.
Qed.
Lemma emits_HandleSync : emits Pg.HandleSync (λ w w' _ fs,
  fs = [(ch "Z", [Pg.TxnIndicator (sess w)])] ∧ w' = set_sess w (set_buf [] (sess w))).
Proof.
  apply (emits_bind _ _ (λ w w' _ fs, fs = [(ch "Z", [Pg.TxnIndicator (sess w)])] ∧ ∃ b, w' = set_sess w (set_buf b (sess w)))).
  - eapply emits_bind; [apply (emits_get (λ w w' a fs, a = w ∧ w' = w ∧ fs = [])); done|]. intros w0.
    eapply emits_impl; [apply (emits_write _ [(ch "Z", [Pg.TxnIndicator (sess w0)])]); reflexivity|].
    intros w w' [] fs [-> ->] w1 fs1 (-> & -> & ->). split; [done|]. by eexists.
  - intros []. eapply emits_impl; [apply emits_Flush|]. by intros w w' [] fs [-> ->] w1 fs1 [-> [b ->]].
Qed.

(** C18. The reply to a simple query. As long as the connection works, a Query message is
    answered by whole messages: for every statement of the text, in turn, exactly one
    message that completes it or reports its error (for an empty text, one that says so),
    and then exactly one ReadyForQuery with the state of the session's transaction;
    everything is sent before the next message is read. *)
Theorem simple_query_reply (payload : bytes) (w w' : World) (tr : list PgEvent) :
  path (Pg.HandleSimpleQuery env payload w) tr (Some (w', Some ())) → io_ok_ (sess w') = true →
  write_buf_ (sess w') = [] ∧
  ∃ fs, sent tr = write_buf_ (sess w) ++ render (fs ++ [(ch "Z", [Pg.TxnIndicator (sess w')])]) ∧
    match SplitStatements (Pg.strip_nul payload) with
    | [] => fs = [(ch "I", [])]
    | parts => replies (length parts) fs
    end.
Proof.
  intros Hp Hio.
  assert (He : emits (Pg.HandleSimpleQuery env payload) (λ _ w' _ fs, write_buf_ (sess w') = [] ∧
    ∃ fs0, fs = fs0 ++ [(ch "Z", [Pg.TxnIndicator (sess w')])] ∧
      match SplitStatements (Pg.strip_nul payload) with [] => fs0 = [(ch "I", [])] | parts => replies (length parts) fs0 end)).
  { unfold Pg.HandleSimpleQuery. destruct (SplitStatements _) as [|part parts].
    - eapply emits_bind; [apply (emits_write _ [(ch "I", [])]); reflexivity|]. intros [].
      eapply emits_impl; [apply emits_HandleSync|]. intros ? ? [] ? [-> ->] ? ? [-> _]. split; [done|]. by exists [(ch "I", [])].
    - eapply emits_bind; [apply emits_process_all|]. intros [|].
      + eapply emits_impl; [apply emits_HandleSync|]. intros ? ? [] ? [-> ->] ? fs1 [_ Hr]. split; [done|]. by exists fs1.
      + apply emits_ret. by intros ? ? ? [? _]. }
  destruct (He _ _ _ _ Hp Hio) as (_ & fs & E & Hb & fs0 & -> & Hr). split; [exact Hb|]. exists fs0.
  rewrite Hb, app_nil_r in E. done.
Qed.
End session.
