(* ===== verification/PgSession.v ===== *)
(** * Sessions and transactions

    What a client's messages do to the session's transaction and to the transactions of
    the coordinator. *)
From Stdlib Require Import Strings.Byte Strings.Ascii.
From stdpp Require Import base gmap sets strings sorting list.
From Stdlib Require Import ZArith Lia.
From S2P Require Import Prelude Status GroupCommit KeyEncoding ShardMessages Effects CoordinatorLog Coordinator.
From S2P Require Import Text Catalog JoinHandler Lexer Parser DistributedJoin Executor ExecutorProofs PgWire PgWireProofs.
Local Open Scope Z_scope.

Implicit Types tr : list PgEvent.
Implicit Types w : World.

(** ** Programs that leave the transactions alone *)

(** Nothing but the socket and the other fields of the session is touched, and no
    exception is thrown. *)
Definition same_state w w' : Prop :=
  coord w' = coord w ∧ cat w' = cat w ∧
  current_txn_id_ (sess w') = current_txn_id_ (sess w) ∧ txn_failed_ (sess w') = txn_failed_ (sess w).
#[export] Instance same_state_pre : PreOrder same_state.
Proof. split; [by repeat split|]. intros a b c (?&?&?&?) (?&?&?&?). split_and!; congruence. Qed.
Definition quiet {A} (m : SM A) : Prop :=
  ∀ w tr w' o, path (m w) tr (Some (w', o)) → same_state w w' ∧ coord_events tr = [] ∧ o ≠ None.

Lemma quiet_ret {A} (a : A) : quiet (mret a : SM A).
Proof. intros w tr w' o (-> & -> & ->)%sm_ret_inv. done. Qed.
Lemma quiet_bind {A B} (m : SM A) (f : A → SM B) : quiet m → (∀ a, quiet (f a)) → quiet (m ≫= f).
Proof.
  intros Hm Hf w tr w' o [[-> Hp]|(tr1 & tr2 & w1 & a & -> & H1 & H2)]%sm_bind_inv; [by destruct (Hm _ _ _ _ Hp) as (_ & _ & ?)|].
  destruct (Hm _ _ _ _ H1) as (Hs1 & Hc1 & _), (Hf a _ _ _ _ H2) as (Hs2 & Hc2 & Ho). split_and!; [by etrans| |done].
  by rewrite coord_events_app, Hc1, Hc2.
Qed.
Lemma quiet_get : quiet get_world.
Proof. intros w tr w' o (-> & -> & ->)%sm_get_inv. done. Qed.
Lemma quiet_modify f : (∀ s, current_txn_id_ (f s) = current_txn_id_ s ∧ txn_failed_ (f s) = txn_failed_ s) → quiet (modify f).
Proof. intros Hf w tr w' o (-> & -> & ->)%sm_modify_inv. destruct (Hf (sess w)). by split_and!. Qed.
Lemma quiet_recv n : quiet (pg_perform (ARecv n)).
Proof. intros w tr w' o (r & -> & -> & ->)%sm_perform_inv. done. Qed.
Lemma quiet_send b : quiet (pg_perform (ASend b)).
Proof. intros w tr w' o (r & -> & -> & ->)%sm_perform_inv. done. Qed.
Lemma quiet_stale n : quiet (pg_perform (AStale n)).
Proof. intros w tr w' o (r & -> & -> & ->)%sm_perform_inv. done. Qed.

Create HintDb quiet discriminated.
#[export] Hint Resolve quiet_ret quiet_get quiet_recv quiet_send quiet_stale : quiet.
Ltac quieten :=
  repeat match goal with
  | |- quiet (pg_perform (ARecv ?n)) => exact (quiet_recv n)
  | |- quiet (pg_perform (ASend ?b)) => exact (quiet_send b)
  | |- quiet (pg_perform (AStale ?n)) => exact (quiet_stale n)
  | |- quiet (_ ≫= _) => apply quiet_bind; [solve [auto with quiet nocore | quieten]|]; intros ?
  | |- quiet (modify _) => apply quiet_modify; done
  | |- quiet (if ?b then _ else _) => destruct b
  | |- quiet (match ?x with _ => _ end) => destruct x
  | |- quiet (mret _) => apply quiet_ret
  | |- quiet _ => solve [auto with quiet nocore]
  end.

Lemma quiet_read_loop fuel len buf : quiet (Pg.read_loop fuel len buf).
Proof. revert len buf. induction fuel as [|fuel IH]; intros [|len] buf; cbn [Pg.read_loop]; quieten; apply IH. Qed.
Lemma quiet_ReadExact len : quiet (Pg.ReadExact len).
Proof. apply quiet_read_loop. Qed.
Lemma quiet_send_loop fuel buf : quiet (Pg.send_loop fuel buf).
Proof. revert buf. induction fuel as [|fuel IH]; intros [|c buf]; cbn [Pg.send_loop]; quieten; apply IH. Qed.
Lemma quiet_SendBytes buf : quiet (Pg.SendBytes buf).
Proof. apply quiet_send_loop. Qed.
Lemma quiet_write b : quiet (Pg.write b).
Proof. unfold Pg.write. quieten. Qed.
#[export] Hint Resolve quiet_ReadExact quiet_SendBytes quiet_write : quiet.
Lemma quiet_Flush : quiet Pg.Flush.
Proof. unfold Pg.Flush. quieten. Qed.
#[export] Hint Resolve quiet_Flush : quiet.
Lemma quiet_error code msg : quiet (Pg.error code msg).
Proof. unfold Pg.error, Pg.WriteErrorResponse. quieten. Qed.
Lemma quiet_HandleSync : quiet Pg.HandleSync.
Proof. unfold Pg.HandleSync, Pg.WriteReadyForQuery. quieten. Qed.
#[export] Hint Resolve quiet_error quiet_HandleSync : quiet.
Lemma quiet_EmitSuccess stmt res : quiet (Pg.EmitSuccess stmt res).
Proof. unfold Pg.EmitSuccess, Pg.write_rows. quieten. Qed.
#[export] Hint Resolve quiet_EmitSuccess : quiet.
Lemma quiet_HandleParse p : quiet (Pg.HandleParse p).
Proof. unfold Pg.HandleParse. quieten. Qed.
Lemma quiet_HandleBind p : quiet (Pg.HandleBind p).
Proof. unfold Pg.HandleBind. quieten. Qed.
Lemma quiet_HandleClose p : quiet (Pg.HandleClose p).
Proof. unfold Pg.HandleClose. quieten. Qed.
#[export] Hint Resolve quiet_HandleParse quiet_HandleBind quiet_HandleClose : quiet.

Section session.
Context `{Undefined} `{StdSort} (env : getenv).

(** ** One statement *)

(** The failed flag after a statement that was executed. *)
Definition failed_after (stmt : Statement) (ok : bool) (txn' : Z) (failed : bool) : bool :=
  if ok then (if Pg.is_rollback stmt || Pg.is_commit stmt then false else failed)
  else (if negb (txn' =? 0) then true else failed).
Inductive processed (sql : bytes) w tr w' : Prop :=
  | rejected : coord_events tr = [] → coord w' = coord w → cat w' = cat w →
      current_txn_id_ (sess w') = current_txn_id_ (sess w) →
      txn_failed_ (sess w') = txn_failed_ (sess w) || negb (current_txn_id_ (sess w) =? 0) →
      Pg.TryParseStatement sql ≠ inr RollbackS → processed sql w tr w'
  | executed stmt out : Pg.TryParseStatement sql = inr stmt →
      txn_failed_ (sess w) = false ∨ stmt = RollbackS →
      path (Exec.Execute env (cat w) stmt (current_txn_id_ (sess w)) (coord w)) (coord_events tr)
        (Some (coord w', (cat w', Some out))) →
      current_txn_id_ (sess w') = x_txn_id out →
      txn_failed_ (sess w') = failed_after stmt (x_ok (x_result out)) (x_txn_id out) (txn_failed_ (sess w)) →
      processed sql w tr w'.

Lemma quiet_inv {A} (m : SM A) w tr w' o : quiet m → path (m w) tr (Some (w', o)) →
  coord w' = coord w ∧ cat w' = cat w ∧ current_txn_id_ (sess w') = current_txn_id_ (sess w) ∧
  txn_failed_ (sess w') = txn_failed_ (sess w) ∧ coord_events tr = [].
Proof. intros Hm Hp. by destruct (Hm _ _ _ _ Hp) as ((?&?&?&?)&?&?). Qed.
Lemma error_fail_inv code msg w tr w' : path ((Pg.error code msg ;; Pg.fail_txn) w) tr (Some (w', Some ())) →
  coord_events tr = [] ∧ coord w' = coord w ∧ cat w' = cat w ∧ current_txn_id_ (sess w') = current_txn_id_ (sess w) ∧
  txn_failed_ (sess w') = txn_failed_ (sess w) || negb (current_txn_id_ (sess w) =? 0).
Proof.
  intros [[? _]|(tr1 & tr2 & w1 & [] & -> & H1 & H2)]%sm_bind_inv; [done|].
  apply quiet_inv in H1 as (Ec & Ea & Et & Ef & E1); [|apply quiet_error].
  apply sm_modify_inv in H2 as (-> & -> & _). rewrite app_nil_r. cbn [coord cat sess set_sess].
  split_and!; [done..|by destruct (negb _)|]. rewrite <- Et, <- Ef. by destruct (negb _); cbn; rewrite ?orb_true_r, ?orb_false_r.
Qed.

Lemma ProcessSingle_processed sql w tr w' : (txn_failed_ (sess w) = true → current_txn_id_ (sess w) ≠ 0) →
  path (Pg.ProcessSingle env sql w) tr (Some (w', Some ())) → processed sql w tr w'.
Proof.
  intros Hinv Hp. unfold Pg.ProcessSingle in Hp. destruct (Pg.TryParseStatement sql) as [e|stmt] eqn:Eparse.
  { apply error_fail_inv in Hp as (?&?&?&?&?). apply rejected; try done. by rewrite Eparse. }
  apply sm_bind_inv in Hp as [[? _]|(tr0 & tr1 & w0 & x & -> & Hg & Hp)]; [done|].
  apply sm_get_inv in Hg as (-> & -> & [= ->]). rewrite app_nil_l.
  destruct (txn_failed_ (sess w) && negb (Pg.is_rollback stmt)) eqn:Eg.
  { apply andb_true_iff in Eg as [Ef Er]. apply quiet_inv in Hp as (?&?&?&?&?); [|apply quiet_error].
    apply rejected; try done; [by rewrite Ef in *|]. rewrite Eparse. intros [= ->]. done. }
  apply sm_bind_inv in Hp as [[? _]|(tr2 & tr3 & w1 & out & -> & H1 & Hp)]; [done|].
  apply executor_inv in H1 as (Es & Hx & _).
  apply sm_bind_inv in Hp as [[? _]|(tr4 & tr5 & w2 & [] & -> & H2 & Hp)]; [done|].
  apply sm_modify_inv in H2 as (-> & -> & _). rewrite app_nil_l.
  assert (Hfin : coord_events tr5 = [] ∧ coord w' = coord w1 ∧ cat w' = cat w1 ∧ current_txn_id_ (sess w') = x_txn_id out ∧
    txn_failed_ (sess w') = failed_after stmt (x_ok (x_result out)) (x_txn_id out) (txn_failed_ (sess w))).
  { unfold failed_after. destruct (x_ok (x_result out)); cbn [negb] in Hp.
    - apply sm_bind_inv in Hp as [[? _]|(tr6 & tr7 & w3 & [] & -> & H3 & H4)]; [done|].
      apply quiet_inv in H4 as (Ec & Ea & Et & Ef & E7); [|apply quiet_EmitSuccess]. rewrite Ec, Ea, Et, Ef.
      destruct (Pg.is_rollback stmt || Pg.is_commit stmt).
      + apply sm_modify_inv in H3 as (-> & -> & _). done.
      + apply sm_ret_inv in H3 as (-> & -> & _). cbn. by rewrite Es.
    - apply error_fail_inv in Hp as (E5 & Ec & Ea & Et & Ef). cbn [sess set_sess current_txn_id_ txn_failed_ set_txn coord cat] in *.
      split_and!; [done..|]. rewrite Ef, Es. destruct (negb (x_txn_id out =? 0)); [apply orb_true_r|apply orb_false_r]. }
  destruct Hfin as (E5 & Ec & Ea & Et & Ef). apply (executed sql w (tr2 ++ tr5) w' stmt out);
    [done| |by rewrite coord_events_app, E5, app_nil_r, Ec, Ea|done..].
  destruct (txn_failed_ (sess w)); [right|by left]. by destruct stmt.
Qed.

(** The texts that a message has executed as statements. *)
Definition message_texts (m : message) w : list bytes :=
  if bool_decide (m.1 = ch "Q") then SplitStatements (Pg.strip_nul m.2)
  else if bool_decide (m.1 = ch "E") then
    match ParseCString m.2 with
    | Some (name, _) => option_list (po_query <$> Pg.find_named (portals_ (sess w)) name)
    | None => []
    end
  else [].
(** No shard was asked, and neither the coordinator nor the catalog nor the transaction of
    the session has changed. *)
Definition ignored w (tr : list PgEvent) w' : Prop := same_state w w' ∧ coord_events tr = [].

Lemma ignored_trans w tr w1 tr' w' : ignored w tr w1 → ignored w1 tr' w' → ignored w (tr ++ tr') w'.
Proof. intros [H1 E1] [H2 E2]. split; [by etrans|]. by rewrite coord_events_app, E1, E2. Qed.
Lemma quiet_ignored {A} (p : SM A) w tr w' o : quiet p → path (p w) tr (Some (w', o)) → ignored w tr w'.
Proof. intros Hq Hp. by destruct (Hq _ _ _ _ Hp) as (? & ? & _). Qed.
Lemma ProcessSingle_ignored sql w tr w' : txn_failed_ (sess w) = true → current_txn_id_ (sess w) ≠ 0 → Pg.TryParseStatement sql ≠ inr RollbackS →
  path (Pg.ProcessSingle env sql w) tr (Some (w', Some ())) → ignored w tr w'.
Proof.
  intros Hf Hne Hn Hp. apply ProcessSingle_processed in Hp; [|done].
  destruct Hp as [Hev Hc Hcat Ht Ef _|stmt out Eparse [?| ->] Hx Et Ef]; [|congruence|congruence].
  split; [|exact Hev]. rewrite Hf in Ef. split_and!; [exact Hc|exact Hcat|exact Ht|by rewrite Ef, Hf].
Qed.
Lemma process_all_ignored parts w tr w' ok : txn_failed_ (sess w) = true → current_txn_id_ (sess w) ≠ 0 → Forall (λ sql, Pg.TryParseStatement sql ≠ inr RollbackS) parts →
  path (Pg.process_all env parts w) tr (Some (w', Some ok)) → ignored w tr w'.
Proof.
  intros Hf Hne HF. revert w tr Hf Hne. induction HF as [|sql parts Hn _ IH]; intros w tr Hf Hne Hp; cbn [Pg.process_all] in Hp.
  { by eapply (quiet_ignored (mret true)), Hp; apply quiet_ret. }
  apply sm_bind_inv in Hp as [[? _]|(tr1 & tr2 & w1 & [] & -> & H1 & Hp)]; [done|]. apply ProcessSingle_ignored in H1; [|done..].
  apply sm_bind_inv in Hp as [[? _]|(tr3 & tr4 & w2 & x & -> & Hg & Hp)]; [done|]. apply sm_get_inv in Hg as (-> & -> & [= ->]).
  eapply ignored_trans; [exact H1|]. destruct (io_ok_ (sess w1)); cbn [negb] in Hp.
  - destruct H1 as [(_ & _ & Et & Ef) _]. apply IH; [by rewrite Ef|by rewrite Et|exact Hp].
  - by eapply (quiet_ignored (mret false)), Hp; apply quiet_ret.
Qed.
Lemma dispatch_ignored (m : message) w tr w' go_on : txn_failed_ (sess w) = true → current_txn_id_ (sess w) ≠ 0 → m.1 ≠ ch "D" →
  Forall (λ sql, Pg.TryParseStatement sql ≠ inr RollbackS) (message_texts m w) →
  path (Pg.dispatch env m w) tr (Some (w', Some go_on)) → ignored w tr w'.
Proof.
  intros Hf Hne HD HF Hp. destruct m as [ty payload]. unfold Pg.dispatch, message_texts in *. cbn [fst snd] in *.
  case_bool_decide as Ex; [by eapply (quiet_ignored (mret false)), Hp; apply quiet_ret|].
  apply sm_bind_inv in Hp as [[? _]|(tr1 & tr2 & w1 & [] & -> & H1 & H2)]; [done|].
  apply sm_ret_inv in H2 as (-> & -> & _). rewrite app_nil_r. case_bool_decide as EQ.
  { unfold Pg.HandleSimpleQuery in H1. destruct (SplitStatements _) as [|part parts].
    { eapply quiet_ignored, H1. quieten. }
    apply sm_bind_inv in H1 as [[? _]|(tr3 & tr4 & w2 & ok & -> & H2 & H3)]; [done|]. eapply ignored_trans; [by eapply process_all_ignored|].
    eapply quiet_ignored, H3. quieten. }
  case_bool_decide; [eapply quiet_ignored, H1; auto with quiet nocore|].
  case_bool_decide; [eapply quiet_ignored, H1; auto with quiet nocore|].
  case_bool_decide as EE; [|rewrite (bool_decide_eq_false_2 (ty = ch "D")) in H1 by done; eapply quiet_ignored, H1; quieten].
  unfold Pg.HandleExecute in H1. destruct (ParseCString payload) as [[name b]|]; [|eapply quiet_ignored, H1; apply quiet_error].
  destruct (_ && _); [eapply quiet_ignored, H1; apply quiet_error|].
  apply sm_bind_inv in H1 as [[? _]|(tr3 & tr4 & w2 & x & -> & Hg & H1)]; [done|]. apply sm_get_inv in Hg as (-> & -> & [= ->]).
  destruct (Pg.find_named _ _); [|eapply quiet_ignored, H1; apply quiet_error]. apply Forall_cons in HF as [Hn _]. by eapply ProcessSingle_ignored.
Qed.

(** C19. A failed transaction. After an error inside a transaction, a text that a Query or
    an Execute message has executed is answered, unless it is ROLLBACK, without asking a
    shard or touching the coordinator, the catalog or the session's transaction, which
    stays failed; ROLLBACK ends the transaction at the coordinator and the session is
    idle again. So a message of any type but Describe, with no ROLLBACK in it, has no
    effect. (Describe executes the SELECT of a prepared statement in a failed transaction
    too.) *)
Theorem failed_txn_ignored (w : World) : txn_failed_ (sess w) = true → current_txn_id_ (sess w) ≠ 0 →
  (∀ sql w' tr, path (Pg.ProcessSingle env sql w) tr (Some (w', Some ())) →
    match Pg.TryParseStatement sql with
    | inr RollbackS =>
      Pg.TxnIndicator (sess w') = ch "I" ∧ current_txn_id_ (sess w') = 0 ∧
      open_txns (coord w') = open_txns (coord w) ∖ {[current_txn_id_ (sess w)]}
    | _ =>
      coord_events tr = [] ∧ coord w' = coord w ∧ cat w' = cat w ∧
      Pg.TxnIndicator (sess w') = ch "E" ∧ current_txn_id_ (sess w') = current_txn_id_ (sess w)
    end) ∧
  (∀ m w' tr go_on, path (Pg.dispatch env m w) tr (Some (w', Some go_on)) → m.1 ≠ ch "D" →
    (∀ sql, sql ∈ message_texts m w → Pg.TryParseStatement sql ≠ inr RollbackS) →
    coord_events tr = [] ∧ coord w' = coord w ∧ cat w' = cat w ∧
    Pg.TxnIndicator (sess w') = ch "E" ∧ current_txn_id_ (sess w') = current_txn_id_ (sess w)).
Proof.
  intros Hf Ht. split.
  - intros sql w' tr Hp. apply ProcessSingle_processed in Hp; [|done].
    destruct Hp as [? ? ? ? Ef Hn|stmt out Eparse [?| ->] Hx Et Ef].
    + assert (Hind : Pg.TxnIndicator (sess w') = ch "E") by (unfold Pg.TxnIndicator; by rewrite Ef, Hf).
      destruct (Pg.TryParseStatement sql) as [|[]]; split_and!; try done.
    + congruence.
    + rewrite Eparse. destruct (execute_transactions _ _ _ _ _ _ _ _ _ Hx) as (Ei & _ & Ho & _ & Hok).
      rewrite Hok in Ef by done. cbn in Ef, Ei. rewrite Ei in Et. unfold Pg.TxnIndicator. rewrite Ef, Et. split_and!; [done..|].
      rewrite Ho by (by left). cbn. by rewrite (proj2 (Z.eqb_neq _ _) Ht).
  - intros m w' tr go_on Hp HD HF. apply dispatch_ignored in Hp as [(Ec & Ea & Et & Ef) E]; [|done|done|done|by apply Forall_forall].
    split_and!; try done. unfold Pg.TxnIndicator. by rewrite Ef, Hf.
Qed.

(** ** The invariant of a session *)

(** The numbers of open transactions are positive and below the next one. *)
Definition ids_ok (c : Coordinator) : Prop := 0 < next_raft_id_ c ∧ ∀ t, t ∈ open_txns c → 0 < t < next_raft_id_ c.
Definition session_ok w : Prop :=
  ids_ok (coord w) ∧
  (txn_failed_ (sess w) = true → current_txn_id_ (sess w) ≠ 0) ∧
  (txn_failed_ (sess w) = false → current_txn_id_ (sess w) = 0 ∨ current_txn_id_ (sess w) ∈ open_txns (coord w)).
(** The transactions that are not the session's. *)
Definition others w : gset Z := open_txns (coord w) ∖ {[current_txn_id_ (sess w)]}.
(** [n] more statements do not exhaust the transaction numbers. *)
Definition room (n : nat) w : Prop := next_raft_id_ (coord w) + Z.of_nat n < 2 ^ 64.
Definition follows (n : nat) w w' : Prop :=
  session_ok w' ∧ others w' = others w ∧ next_raft_id_ (coord w') ≤ next_raft_id_ (coord w) + Z.of_nat n.

Lemma follows_same w w' : session_ok w → same_state w w' → follows 0 w w'.
Proof.
  intros Hok (Ec & _ & Et & Ef). unfold follows, session_ok, others in *. rewrite Ec, Et, Ef. split_and!; try tauto. lia.
Qed.
Lemma follows_trans n m w1 w2 w3 : follows n w1 w2 → follows m w2 w3 → follows (n + m) w1 w3.
Proof. intros (_ & E1 & H1) (Hok & E2 & H2). split_and!; [done|congruence|lia]. Qed.
Lemma room_after n m w w' : follows n w w' → room (n + m) w → room m w'.
Proof. intros (_ & _ & H1) H2. unfold room in *. lia. Qed.

(** Numbers and transactions after a statement of the session. *)
Lemma advances_room c c' n : advances c c' → 0 < next_raft_id_ c → next_raft_id_ c + Z.of_nat (S n) < 2 ^ 64 →
  next_raft_id_ c ≤ next_raft_id_ c' ≤ next_raft_id_ c + 1.
Proof. intros [->| ->] Hpos Hr; [lia|]. rewrite u64_id; [lia|]. unfold is_u64. lia. Qed.
Lemma txns_after_others stmt txn ok c : ids_ok c →
  txns_after stmt txn c ∖ {[session_after stmt txn ok c]} = open_txns c ∖ {[txn]}.
Proof.
  intros [Hpos Hids]. assert (Hfresh : next_raft_id_ c ∉ open_txns c) by (intros Hin; specialize (Hids _ Hin); lia).
  assert (Hzero : 0 ∉ open_txns c) by (intros Hin; specialize (Hids _ Hin); lia). clear Hids Hpos.
  unfold txns_after, session_after. destruct stmt; try done; destruct (Z.eqb_spec txn 0) as [->|]; try set_solver;
    destruct ok; set_solver.
Qed.
Lemma txns_after_sub stmt txn c t : t ∈ txns_after stmt txn c → t ∈ open_txns c ∨ stmt = BeginS ∧ txn = 0 ∧ t = next_raft_id_ c.
Proof.
  unfold txns_after. destruct stmt; try (by left); destruct (Z.eqb_spec txn 0); try (by left); rewrite ?elem_of_difference; try tauto.
  rewrite elem_of_union, elem_of_singleton. tauto.
Qed.
Lemma execute_others stmt txn c c' cat cat' (tr : list CEvent) out : ids_ok c → next_raft_id_ c + 1 < 2 ^ 64 →
  path (Exec.Execute env cat stmt txn c) tr (Some (c', (cat', Some out))) →
  ids_ok c' ∧ next_raft_id_ c' ≤ next_raft_id_ c + 1 ∧ open_txns c' ∖ {[x_txn_id out]} = open_txns c ∖ {[txn]} ∧
  (txn = 0 ∨ txn ∈ open_txns c → x_ok (x_result out) = true → x_txn_id out = 0 ∨ x_txn_id out ∈ open_txns c').
Proof.
  intros [Hpos Hids] Hroom Hx. destruct (execute_transactions _ _ _ _ _ _ _ _ _ Hx) as (Et & Ha & Ho & Hb & _).
  assert (Hfresh : next_raft_id_ c ∉ open_txns c) by (intros Hin; specialize (Hids _ Hin); lia).
  assert (Hzero : 0 ∉ open_txns c) by (intros Hin; specialize (Hids _ Hin); lia).
  specialize (Ho (or_intror Hfresh)).
  assert (Hn : next_raft_id_ c ≤ next_raft_id_ c' ≤ next_raft_id_ c + 1) by (apply (advances_room c c' 0); [done..|lia]).
  assert (Hids' : ids_ok c').
  { split; [lia|]. intros t Hin. rewrite Ho in Hin. apply txns_after_sub in Hin as [Hin|(-> & -> & ->)]; [specialize (Hids _ Hin); lia|].
    rewrite (Hb eq_refl eq_refl), u64_id; [lia|]. unfold is_u64. lia. }
  split_and!; [done|lia|..].
  - rewrite Et, Ho. by apply txns_after_others.
  - intros Hin Hok. rewrite Et, Ho, Hok. destruct stmt; cbn [txns_after session_after]; try done; try (by left).
    destruct (Z.eqb_spec txn 0) as [->|]; [right; by apply elem_of_union_l, elem_of_singleton|done].
Qed.

Lemma follows_weaken n m w w' : (n ≤ m)%nat → follows n w w' → follows m w w'.
Proof. intros Hnm (? & ? & ?). split_and!; [done..|lia]. Qed.
Lemma ProcessSingle_follows sql w tr w' : session_ok w → room 1 w →
  path (Pg.ProcessSingle env sql w) tr (Some (w', Some ())) → follows 1 w w'.
Proof.
  intros (Hids & Hft & Hop) Hroom Hp. apply ProcessSingle_processed in Hp; [|done].
  destruct Hp as [_ Ec _ Et Ef _|stmt out _ Hst Hx Et Ef].
  - unfold follows, session_ok, others. rewrite Ec, Et, Ef. split_and!; [done| | |done|lia].
    + destruct (Z.eqb_spec (current_txn_id_ (sess w)) 0) as [E|]; [|done]. cbn. rewrite orb_false_r. apply Hft.
    + destruct (Z.eqb_spec (current_txn_id_ (sess w)) 0) as [E|]; [by left|]. cbn. by rewrite orb_true_r.
  - unfold room in Hroom. destruct (execute_others stmt _ _ _ _ _ _ _ Hids ltac:(lia) Hx) as (Hids' & Hn & Ho & Hin).
    destruct (execute_transactions _ _ _ _ _ _ _ _ _ Hx) as (Ex & _ & _ & _ & Hroll).
    unfold follows, session_ok, others. rewrite Et, Ef. split_and!; [done| | |done|lia]; unfold failed_after.
    + destruct (x_ok (x_result out)) eqn:Eok.
      * destruct Hst as [-> | ->]; [by destruct (_ || _)|done].
      * destruct (Z.eqb_spec (x_txn_id out) 0); [|done]. cbn. destruct Hst as [-> | ->]; [done|]. by discriminate (Hroll eq_refl).
    + destruct (x_ok (x_result out)) eqn:Eok.
      * destruct Hst as [Hff | ->]; [intros _; apply Hin; [by apply Hop|done]|]. intros _. left. by rewrite Ex.
      * destruct (Z.eqb_spec (x_txn_id out) 0); [by left|done].
Qed.
Lemma quiet_follows {A} (m : SM A) w tr w' o : quiet m → session_ok w → path (m w) tr (Some (w', o)) → follows 0 w w'.
Proof. intros Hm Hok Hp. apply follows_same; [done|]. by apply (Hm _ _ _ _ Hp). Qed.
Lemma process_all_follows parts w tr w' ok : session_ok w → room (length parts) w →
  path (Pg.process_all env parts w) tr (Some (w', Some ok)) → follows (length parts) w w'.
Proof.
  revert w tr. induction parts as [|chunk parts IH]; intros w tr Hok Hroom Hp; cbn [Pg.process_all length] in *.
  { by apply (quiet_follows (mret true)) in Hp; [|apply quiet_ret|]. }
  apply sm_bind_inv in Hp as [[? _]|(tr1 & tr2 & w1 & [] & -> & H1 & Hp)]; [done|].
  apply ProcessSingle_follows in H1; [|done|unfold room in *; lia].
  apply sm_bind_inv in Hp as [[? _]|(tr3 & tr4 & w2 & x & -> & Hg & Hp)]; [done|]. apply sm_get_inv in Hg as (-> & -> & [= ->]).
  change (S (length parts)) with (1 + length parts)%nat in *. destruct (io_ok_ (sess w1)); cbn [negb] in Hp.
  - apply (follows_trans 1 _ w w1); [done|]. eapply IH; [by apply H1|by eapply room_after|exact Hp].
  - apply (quiet_follows (mret false)) in Hp; [|apply quiet_ret|by apply H1].
    eapply (follows_weaken (1 + 0)); [lia|by eapply follows_trans].
Qed.
Lemma DescribeSelectMeta_follows query w tr w' o : session_ok w → room 1 w →
  path (Pg.DescribeSelectMeta env query w) tr (Some (w', Some o)) → follows 1 w w'.
Proof.
  intros Hok Hroom Hp. unfold Pg.DescribeSelectMeta in Hp.
  assert (Hq : ∀ tr w1, path ((mret None : SM (option (list bytes * list ColumnType))) w1) tr (Some (w', Some o)) → w' = w1).
  { by intros tr1 w1 (_ & -> & _)%sm_ret_inv. }
  destruct (Pg.TryParseStatement query) as [|[]]; try (apply Hq in Hp as ->; by apply (follows_weaken 0), follows_same; [lia|..]).
  apply sm_bind_inv in Hp as [[? _]|(tr1 & tr2 & w1 & x & -> & Hg & Hp)]; [done|]. apply sm_get_inv in Hg as (-> & -> & [= ->]).
  apply sm_bind_inv in Hp as [[? _]|(tr3 & tr4 & w2 & out & -> & H1 & Hp)]; [done|]. apply executor_inv in H1 as (Es & Hx & _).
  assert (w' = w2) as ->.
  { destruct (negb _); [by apply Hq in Hp as ->|].
    apply sm_bind_inv in Hp as [[? _]|(tr5 & tr6 & w3 & x & -> & Hg & Hp)]; [done|]. apply sm_get_inv in Hg as (-> & -> & [= ->]).
    by apply sm_ret_inv in Hp as (_ & -> & _). }
  unfold room in Hroom. destruct Hok as (Hids & Hft & Hop).
  destruct (execute_others _ _ _ _ _ _ _ _ Hids ltac:(lia) Hx) as (Hids' & Hn & Ho & _).
  destruct (execute_transactions _ _ _ _ _ _ _ _ _ Hx) as (Et & _ & Hsame & _). cbn in Et. rewrite Et in Ho.
  unfold follows, session_ok, others. rewrite Es. split_and!; [done..| |done|lia].
  intros Hf. destruct (Hop Hf) as [?|Hin]; [by left|right]. rewrite Hsame; [done|]. right. intros Hfr.
  destruct Hids as [_ Hids]. specialize (Hids _ Hfr). lia.
Qed.

Lemma HandleExecute_follows payload w tr w' : session_ok w → room 1 w →
  path (Pg.HandleExecute env payload w) tr (Some (w', Some ())) → follows 1 w w'.
Proof.
  intros Hok Hroom Hp. unfold Pg.HandleExecute in Hp.
  assert (He : ∀ code msg tr w', path (Pg.error code msg w) tr (Some (w', Some ())) → follows 1 w w').
  { intros code msg tr0 w0 He. eapply (follows_weaken 0); [lia|]. by eapply quiet_follows; [apply quiet_error| |]. }
  destruct (ParseCString payload) as [[name b]|]; [|by eapply He]. destruct (_ && _); [by eapply He|].
  apply sm_bind_inv in Hp as [[? _]|(tr1 & tr2 & w1 & x & -> & Hg & Hp)]; [done|]. apply sm_get_inv in Hg as (-> & -> & [= ->]).
  destruct (Pg.find_named _ _); [by eapply ProcessSingle_follows|by eapply He].
Qed.
Lemma HandleDescribe_follows payload w tr w' : session_ok w → room 1 w →
  path (Pg.HandleDescribe env payload w) tr (Some (w', Some ())) → follows 1 w w'.
Proof.
  intros Hok Hroom Hp. unfold Pg.HandleDescribe in Hp.
  assert (Hq : ∀ {A} (p : SM A) tr w' o, quiet p → path (p w) tr (Some (w', o)) → follows 1 w w').
  { intros A p tr0 w0 o Hq Hp0. eapply (follows_weaken 0); [lia|]. by eapply quiet_follows. }
  destruct payload as [|kind stale]; [by eapply Hq, Hp; apply quiet_error|].
  apply sm_bind_inv in Hp as [[? _]|(t1 & t2 & w1 & b & -> & Hg & Hp)]; [done|].
  apply (sm_perform_inv (AStale (length stale))) in Hg as (b' & -> & -> & [= ->]).
  destruct (ParseCString b') as [[name rest]|]; [|by eapply Hq, Hp; apply quiet_error].
  case_bool_decide as Ek; [|by eapply Hq, Hp; quieten].
  apply sm_bind_inv in Hp as [[? _]|(tr1 & tr2 & w1 & x & -> & Hg & Hp)]; [done|]. apply sm_get_inv in Hg as (-> & -> & [= ->]).
  destruct (Pg.find_named _ _) as [ps|]; [|by eapply Hq, Hp; apply quiet_error].
  apply sm_bind_inv in Hp as [[? _]|(tr3 & tr4 & w2 & [] & -> & H1 & Hp)]; [done|].
  apply quiet_follows in H1; [|apply quiet_write|done].
  apply sm_bind_inv in Hp as [[? _]|(tr5 & tr6 & w3 & o & -> & H2 & Hp)]; [done|].
  apply DescribeSelectMeta_follows in H2; [|by apply H1|by apply (room_after 0 1 w)].
  apply (follows_trans 0 1 w w2); [done|]. apply (follows_weaken (1 + 0)); [lia|]. eapply follows_trans; [exact H2|].
  eapply quiet_follows; [|by apply H2|exact Hp]. quieten.
Qed.

(** How many statements a message can execute. *)
Definition executions (m : message) : nat :=
  if bool_decide (m.1 = ch "Q") then length (SplitStatements (Pg.strip_nul m.2)) else 1.

(** A message changes no transaction of the coordinator but the session's own, whatever
    the shards answer. *)
Lemma dispatch_follows (m : message) w w' tr go_on : session_ok w → room (executions m) w →
  path (Pg.dispatch env m w) tr (Some (w', Some go_on)) → follows (executions m) w w'.
Proof.
  intros Hok Hroom Hp.
  destruct m as [ty payload]. unfold Pg.dispatch, executions in *. cbn [fst snd] in *.
  assert (Hq : ∀ {A} (p : SM A) tr w' o, quiet p → path (p w) tr (Some (w', o)) → follows 0 w w')
    by (intros; by eapply quiet_follows).
  case_bool_decide as Ex; [apply Hq in Hp; [|apply quiet_ret]; by apply (follows_weaken 0); [lia|]|].
  apply sm_bind_inv in Hp as [[? _]|(tr1 & tr2 & w1 & [] & -> & H1 & H2)]; [done|].
  apply sm_ret_inv in H2 as (-> & -> & _). case_bool_decide as EQ.
  { unfold Pg.HandleSimpleQuery in H1. destruct (SplitStatements _) as [|part parts].
    { apply Hq in H1; [done|]. quieten. }
    apply sm_bind_inv in H1 as [[? _]|(tr3 & tr4 & w2 & ok & -> & H2 & H3)]; [done|].
    apply process_all_follows in H2; [|done..]. apply (follows_weaken (length (part :: parts) + 0)); [lia|].
    eapply follows_trans; [exact H2|]. eapply quiet_follows; [|by apply H2|exact H3]. quieten. }
  case_bool_decide; [apply Hq in H1; [by apply (follows_weaken 0); [lia|]|auto with quiet nocore]|].
  case_bool_decide; [apply Hq in H1; [by apply (follows_weaken 0); [lia|]|auto with quiet nocore]|].
  case_bool_decide; [by eapply HandleExecute_follows|]. case_bool_decide; [by eapply HandleDescribe_follows|].
  apply Hq in H1; [by apply (follows_weaken 0); [lia|]|]. quieten.
Qed.
End session.
