(* ===== verification/PgWireInput.v ===== *)
(** * Reading messages and texts

    The messages of a client are read whole however the socket cuts them, statements are
    split where the client joined them, and parameters are put into a query where the
    query has their placeholders. *)
From Stdlib Require Import Strings.Byte Strings.Ascii.
From stdpp Require Import base gmap sets strings sorting list.
From Stdlib Require Import ZArith Lia.
From S2P Require Import Prelude Status GroupCommit KeyEncoding ShardMessages Effects CoordinatorLog Coordinator.
From S2P Require Import Text Catalog JoinHandler Lexer Parser DistributedJoin Executor ExecutorRows PgWire PgWireProofs.
Local Open Scope Z_scope.

Implicit Types tr : list PgEvent.
Implicit Types w : World.

(** ** Reading from the socket *)

(** The bytes that were received, and the contract of [recv]. *)
Definition received (tr : list PgEvent) : bytes :=
  concat ((λ e : PgEvent, match e with existT (ARecv _) data => data | _ => [] end) <$> tr).
Definition recv_ok (tr : list PgEvent) : Prop :=
  Forall (λ e : PgEvent, match e with existT (ARecv n) data => (length (data : bytes) ≤ n)%nat | _ => True end) tr.
Lemma received_app tr1 tr2 : received (tr1 ++ tr2) = received tr1 ++ received tr2.
Proof. unfold received. by rewrite fmap_app, concat_app. Qed.

Lemma read_loop_received fuel len buf w tr w' x : (len ≤ fuel)%nat → recv_ok tr →
  path (Pg.read_loop fuel len buf w) tr (Some (w', Some (Some x))) →
  w' = w ∧ x = buf ++ received tr ∧ length (received tr) = len.
Proof.
  revert len buf tr. induction fuel as [|fuel IH]; intros len buf tr Hlen Hok Hp.
  { assert (len = 0%nat) as -> by lia. apply sm_ret_inv in Hp as (-> & -> & [= ->]). by rewrite app_nil_r. }
  destruct len as [|len]; [apply sm_ret_inv in Hp as (-> & -> & [= ->]); by rewrite app_nil_r|]. cbn [Pg.read_loop] in Hp.
  apply sm_bind_inv in Hp as [[? _]|(tr1 & tr2 & w1 & r & -> & H1 & H2)]; [done|].
  apply (sm_perform_inv (ARecv (S len))) in H1 as (r' & -> & -> & [= ->]). apply Forall_app in Hok as [Hr Hok].
  apply Forall_cons in Hr as [Hr _]. cbn in Hr. destruct r' as [|c r'].
  { apply sm_bind_inv in H2 as [[? _]|(tr3 & tr4 & w2 & [] & -> & H3 & H4)]; [done|]. by apply sm_ret_inv in H4 as (_ & _ & ?). }
  apply IH in H2 as (-> & -> & Hl); [|cbn in *; lia|done]. split; [done|]. rewrite received_app. cbn [received fmap list_fmap concat].
  rewrite app_nil_r, <- app_assoc. split; [done|]. rewrite length_app, Hl. cbn in *. lia.
Qed.
Lemma ReadExact_received len w tr w' x : recv_ok tr → path (Pg.ReadExact len w) tr (Some (w', Some (Some x))) →
  w' = w ∧ x = received tr ∧ length x = len.
Proof. intros Hok Hp. apply read_loop_received in Hp as (-> & -> & Hl); [done|lia|done]. Qed.

(** A client that sends a stream of bytes, cut into pieces in any way. *)
Definition socket (chunk : nat → nat) (s : bytes) (a : PgAction) : bytes * pg_result a :=
  match a return bytes * pg_result a with
  | ARecv n => (drop (chunk n) s, take (chunk n) s)
  | ASend data => (s, length data)
  | AStale n => (s, replicate n x00)
  | ACoord a =>
      (s, match a return coord_result a with
          | ALogWrite _ | ALogFlush => St.OK
          | ALogReplay => (St.OK, [])
          | AClock => 0
          | AExecute _ _ | APrepare _ _ _ | ACommit _ _ _ | AAbort _ _ | AQuery _ _ | AJoin _ _ => None
          end)
  end.
Definition chunks (chunk : nat → nat) : Prop := ∀ n, (0 < n → 0 < chunk n ≤ n)%nat.

Lemma run_bind {action : Type} {result_of : action → Type} {A B S} (h : S → ∀ a, S * result_of a)
    (p : Prog result_of A) (f : A → Prog result_of B) s :
  (run h s (prog_bind p f)).1.1 = (run h (run h s p).1.1 (f (run h s p).2)).1.1 ∧
  (run h s (prog_bind p f)).2 = (run h (run h s p).1.1 (f (run h s p).2)).2.
Proof.
  revert s. induction p as [a|a k IH]; intros s; [done|]. cbn. destruct (h s a) as [s' r]. specialize (IH r s').
  destruct (run h s' (k r)) as [[s1 tr1] x]. destruct (run h s' (prog_bind (k r) f)) as [[s2 tr2] y]. exact IH.
Qed.

(** What a run against the stream leaves of it, and its result. *)
Definition outcome {A} (chunk : nat → nat) (s : bytes) (m : SM A) w : bytes * (World * option A) :=
  let r := run (socket chunk) s (m w) in (r.1.1, r.2).
Lemma outcome_bind {A B} chunk s (m : SM A) (f : A → SM B) w s' w' a :
  outcome chunk s m w = (s', (w', Some a)) → outcome chunk s (m ≫= f) w = outcome chunk s' (f a) w'.
Proof.
  unfold outcome. intros [= E1 E2]. destruct (run_bind (socket chunk) (m w)
    (λ wa, match wa.2 with Some a => f a wa.1 | None => Ret (wa.1, None) end) s) as [H1 H2].
  unfold mbind, SM_bind. by rewrite H1, H2, E1, E2.
Qed.
Lemma outcome_read_loop chunk fuel len buf s w : chunks chunk → (len ≤ fuel)%nat → (len ≤ length s)%nat →
  outcome chunk s (Pg.read_loop fuel len buf) w = (drop len s, (w, Some (Some (buf ++ take len s)))).
Proof.
  intros Hc. revert len buf s. induction fuel as [|fuel IH]; intros len buf s Hf Hs.
  { assert (len = 0%nat) as -> by lia. rewrite take_0, app_nil_r. done. }
  destruct len as [|len]; [by rewrite take_0, app_nil_r|]. cbn [Pg.read_loop]. destruct (Hc (S len)) as [Hpos Hle]; [lia|].
  rewrite (outcome_bind chunk s (pg_perform (ARecv (S len))) _ w (drop (chunk (S len)) s) w (take (chunk (S len)) s : bytes)) by done.
  destruct (take (chunk (S len)) s) as [|c r] eqn:Er.
  { apply (f_equal length) in Er. rewrite length_take in Er. cbn in Er. lia. }
  rewrite <- Er. rewrite IH; rewrite ?length_take, ?length_drop; [|lia..].
  rewrite Nat.min_l, drop_drop, <- app_assoc by lia. replace (chunk (S len) + (S len - chunk (S len)))%nat with (S len) by lia.
  repeat f_equal. rewrite <- (take_drop (chunk (S len)) (take (S len) s)), take_take, Nat.min_l by lia.
  f_equal. by rewrite skipn_firstn_comm.
Qed.
Lemma outcome_ReadExact chunk len s w : chunks chunk → (len ≤ length s)%nat →
  outcome chunk s (Pg.ReadExact len) w = (drop len s, (w, Some (Some (take len s)))).
Proof. intros. by apply outcome_read_loop. Qed.

(** ** Messages *)

Lemma AppendUint32BE_be v : AppendUint32BE v = be_bytes 4 v.
Proof. exact (AppendBigEndianU32_be [] v). Qed.
Lemma LoadUint32BE_be v rest : is_u32 v → LoadUint32BE (AppendUint32BE v ++ rest) = v.
Proof. rewrite AppendUint32BE_be. apply ReadBigEndianU32_be. Qed.
Lemma LoadUint32BE_value b : length b = 4%nat → LoadUint32BE b = be_value b ∧ AppendUint32BE (be_value b) = b.
Proof.
  intros Hl. split; [|by rewrite AppendUint32BE_be, <- Hl, be_bytes_value].
  unfold LoadUint32BE. rewrite take_ge by lia. apply read_be_value. intros z. rewrite Hl. intros Hz. by apply u32_id.
Qed.
Lemma AppendUint32BE_length v : length (AppendUint32BE v) = 4%nat.
Proof. done. Qed.

(** Reading a message. However the socket cuts the client's bytes into pieces, a
    message whose payload is shorter than 2^32 - 4 bytes is read back whole and what
    follows it stays in the stream; and whenever a message is read at all, the bytes
    received were exactly its frame and nothing else of the session has changed. *)
Theorem message_roundtrip (type : byte) (payload rest : bytes) (chunk : nat → nat) (w : World) :
  4 + Z.of_nat (length payload) < 2 ^ 32 → chunks chunk →
  outcome chunk (frame type payload ++ rest) Pg.ReadBackendMessage w = (rest, (w, Some (Some (type, payload)))) ∧
  (∀ tr w' ty p, path (Pg.ReadBackendMessage w) tr (Some (w', Some (Some (ty, p)))) → recv_ok tr →
    received tr = frame ty p ∧ w' = w).
Proof.
  intros Hlen Hc. split.
  - unfold Pg.ReadBackendMessage, frame. set (n := 4 + Z.of_nat (length payload)) in *.
    assert (Hn : is_u32 n) by (unfold is_u32; lia). rewrite (u32_id n Hn).
    erewrite outcome_bind by (apply outcome_ReadExact; [done|cbn; lia]).
    change (take 1 ((type :: AppendUint32BE n ++ payload) ++ rest)) with [type].
    change (drop 1 ((type :: AppendUint32BE n ++ payload) ++ rest)) with ((AppendUint32BE n ++ payload) ++ rest).
    rewrite <- app_assoc. erewrite outcome_bind by (apply outcome_ReadExact; [done|rewrite length_app, AppendUint32BE_length; lia]).
    rewrite (take_app_length' (AppendUint32BE n)), (drop_app_length' (AppendUint32BE n)) by done.
    pose proof (LoadUint32BE_be n [] Hn) as Hld. rewrite app_nil_r in Hld. rewrite Hld. destruct (Z.ltb_spec n 4); [lia|].
    replace (Z.to_nat (n - 4)) with (length payload) by lia.
    erewrite outcome_bind by (apply outcome_ReadExact; [done|rewrite length_app; lia]).
    by rewrite take_app_length, drop_app_length.
  - intros tr w' ty p Hp Hok. unfold Pg.ReadBackendMessage in Hp.
    apply sm_bind_inv in Hp as [[? _]|(tr1 & tr2 & w1 & [t1|] & -> & H1 & H2)]; [done| |by apply sm_ret_inv in H2 as (_ & _ & ?)].
    apply Forall_app in Hok as [Hok1 Hok]. apply ReadExact_received in H1 as (-> & -> & Hl1); [|done].
    destruct (received tr1) as [|t [|]] eqn:Et; try done.
    apply sm_bind_inv in H2 as [[? _]|(tr3 & tr4 & w2 & [lb|] & -> & H3 & H4)]; [done| |by apply sm_ret_inv in H4 as (_ & _ & ?)].
    apply Forall_app in Hok as [Hok3 Hok]. apply ReadExact_received in H3 as (-> & -> & Hl3); [|done].
    destruct (LoadUint32BE_value (received tr3) Hl3) as [Hv Ha]. rewrite Hv in H4.
    destruct (Z.ltb_spec (be_value (received tr3)) 4).
    { apply sm_bind_inv in H4 as [[? _]|(tr5 & tr6 & w3 & [] & -> & _ & H6)]; [done|]. by apply sm_ret_inv in H6 as (_ & _ & ?). }
    apply sm_bind_inv in H4 as [[? _]|(tr5 & tr6 & w3 & x & -> & H5 & H6)]; [done|].
    apply sm_ret_inv in H6 as (-> & -> & E). destruct x as [x|]; [|done]. injection E as -> ->.
    rewrite app_nil_r in *. apply ReadExact_received in H5 as (-> & -> & Hl5); [|done]. split; [|done].
    rewrite !received_app, Et. unfold frame. cbn [app]. f_equal. f_equal. rewrite Hl5.
    pose proof (be_value_range (received tr3)) as Hr. rewrite Hl3 in Hr. change (256 ^ Z.of_nat 4) with (2 ^ 32) in Hr.
    rewrite u32_id by (unfold is_u32; lia). rewrite Z2Nat.id by lia. by replace (4 + (be_value (received tr3) - 4)) with (be_value (received tr3)) by lia.
Qed.

(** ** Parameters *)

(** A query as a text with placeholders: a first text, then placeholders each with the
    text that follows it. [f] says what stands for a placeholder. *)
Abbreviation pieces := (list (nat * bytes)).
Definition assemble (f : nat → bytes) (t0 : bytes) (ps : pieces) : bytes :=
  t0 ++ concat ((λ p, f p.1 ++ p.2) <$> ps).
Definition no_dollar (s : bytes) : Prop := ch "$" ∉ s.
Definition ends_open (s : bytes) : Prop := ∃ c, last s = Some c ∧ isalnum c = false.
(** No digit after a placeholder, no letter or digit before one. *)
Fixpoint separated (ps : pieces) : Prop :=
  match ps with
  | [] => True
  | (_, t) :: ps' =>
      no_dollar t ∧ (∀ c, head t = Some c → isdigit c = false) ∧ (ps' ≠ [] → ends_open t) ∧ separated ps'
  end.

Lemma strip_prefix_Some pat s rest : strip_prefix pat s = Some rest ↔ s = pat ++ rest.
Proof.
  revert s. induction pat as [|p pat IH]; intros [|c s]; cbn; try done; try (split; [by intros [= ->]|by intros <-]).
  case_bool_decide as E; [|split; [done|by intros [= ? _]]]. subst. rewrite IH. split; [by intros ->|by intros [= ->]].
Qed.
Definition next_last (l : option byte) (s : bytes) : option byte := match last s with Some c => Some c | None => l end.
Lemma next_last_cons l c s : next_last (Some c) s = next_last l (c :: s).
Proof. unfold next_last. destruct s as [|d s]; [done|]. change (last (c :: d :: s)) with (last (d :: s)). by rewrite (last_cons d s); destruct (last s). Qed.

(** Text without a dollar sign is copied. *)
Lemma replace_text fuel j rep l s rest : no_dollar s → (length (s ++ rest) ≤ fuel)%nat →
  ∃ fuel', (length rest ≤ fuel')%nat ∧
    replace_loop fuel (placeholder j) rep l (s ++ rest) = s ++ replace_loop fuel' (placeholder j) rep (next_last l s) rest.
Proof.
  unfold no_dollar. revert fuel l. induction s as [|c s IH]; intros fuel l Hs Hf; [by exists fuel|].
  apply not_elem_of_cons in Hs as [Hc Hs]. destruct fuel as [|fuel]; [cbn in Hf; lia|]. cbn in Hf.
  destruct (IH fuel (Some c) Hs) as (fuel' & Hf' & E); [lia|]. exists fuel'. split; [done|].
  cbn [app replace_loop placeholder strip_prefix]. rewrite bool_decide_eq_false_2 by done. fold (placeholder j).
  rewrite E. by rewrite (next_last_cons l).
Qed.
Lemma number_text i : no_dollar (to_string (Z.of_nat i)) ∧ Forall (λ c, isdigit c = true) (to_string (Z.of_nat i)).
Proof.
  unfold to_string. destruct (Z.ltb_spec (Z.of_nat i) 0); [lia|]. destruct (dec_spec (Z.of_nat i)) as (HF & _); [lia|].
  split; [|done]. intros Hin. rewrite Forall_forall in HF. specialize (HF _ Hin). by vm_compute in HF.
Qed.
Lemma placeholder_inj i j : to_string (Z.of_nat i) = to_string (Z.of_nat j) → i = j.
Proof. intros E. apply ExecutorRows.to_string_inj in E. lia. Qed.

Definition open_left (l : option byte) : bool := match l with None => true | Some c => negb (isalnum c) end.
Definition open_right (s : bytes) : bool := match s with [] => true | c :: _ => negb (isdigit c) end.
(** A placeholder of the parameter itself is replaced. *)
Lemma replace_hit fuel j rep l after : open_left l = true → open_right after = true →
  (length (placeholder j ++ after) ≤ fuel)%nat →
  ∃ fuel', (length after ≤ fuel')%nat ∧
    replace_loop fuel (placeholder j) rep l (placeholder j ++ after) =
    rep ++ replace_loop fuel' (placeholder j) rep (next_last l rep) after.
Proof.
  intros Hl Hr Hf. destruct fuel as [|fuel]; [cbn in Hf; lia|]. exists fuel. rewrite length_app in Hf. cbn in Hf. split; [lia|].
  destruct (placeholder j ++ after) as [|c s] eqn:E; [done|]. cbn [replace_loop]. rewrite <- E.
  rewrite (proj2 (strip_prefix_Some _ _ after) eq_refl). unfold open_left, open_right in *. rewrite Hl, Hr. done.
Qed.
Lemma last_app_next l a b : next_last (next_last l a) b = next_last l (a ++ b).
Proof. unfold next_last. rewrite last_app. by destruct (last b). Qed.
(** A placeholder of another parameter is copied, also when its number begins with
    the number of this one. *)
Lemma replace_miss fuel i j rep l after : i ≠ j → open_right after = true → (length (placeholder i ++ after) ≤ fuel)%nat →
  ∃ fuel', (length after ≤ fuel')%nat ∧
    replace_loop fuel (placeholder j) rep l (placeholder i ++ after) =
    placeholder i ++ replace_loop fuel' (placeholder j) rep (next_last l (placeholder i)) after.
Proof.
  intros Hij Hr Hf. destruct fuel as [|fuel]; [cbn in Hf; lia|]. rewrite length_app in Hf. cbn in Hf.
  destruct (number_text i) as [Hdi Hni], (number_text j) as [_ Hnj].
  unfold placeholder at 2. cbn [app replace_loop]. fold (placeholder j).
  change (ch "$" :: to_string (Z.of_nat i) ++ after) with (placeholder i ++ after).
  destruct (strip_prefix (placeholder j) (placeholder i ++ after)) as [rest|] eqn:E.
  - apply strip_prefix_Some in E. injection E as E. apply app_eq_inv in E as [(l' & Ei & ->)|(l' & Ej & Ea)].
    + destruct l' as [|d l']; [rewrite app_nil_r in Ei; by apply placeholder_inj in Ei|].
      rewrite Ei in Hni. apply Forall_app in Hni as [_ Hd]. apply Forall_cons in Hd as [Hd Hl']. cbn [app]. rewrite Hd, andb_false_r.
      rewrite Ei in Hdi. unfold no_dollar in Hdi. rewrite elem_of_app in Hdi.
      destruct (replace_text fuel j rep (last (placeholder j)) (d :: l') after) as (fuel' & Hf' & Et).
      { unfold no_dollar. tauto. } { rewrite Ei, length_app in Hf. rewrite length_app. lia. }
      cbn [app] in Et. rewrite Et. exists fuel'. split; [done|].
      assert (Epi : placeholder i = placeholder j ++ d :: l') by (unfold placeholder; by rewrite Ei).
      rewrite Epi, <- app_assoc. do 3 f_equal. rewrite <- last_app_next. unfold next_last.
      by destruct (last (d :: l')) eqn:El; [|apply last_None in El].
    + destruct l' as [|d l']; [rewrite app_nil_r in Ej; by apply placeholder_inj in Ej; congruence|].
      exfalso. rewrite Ej in Hnj. apply Forall_app in Hnj as [_ Hd]. apply Forall_cons in Hd as [Hd _].
      rewrite Ea in Hr. cbn in Hr. by rewrite Hd in Hr.
  - destruct (replace_text fuel j rep (Some (ch "$")) (to_string (Z.of_nat i)) after Hdi) as (fuel' & Hf' & ->); [rewrite length_app; lia|].
    exists fuel'. split; [done|]. unfold placeholder at 2. cbn [app]. do 3 f_equal. by rewrite (next_last_cons l).
Qed.

(** One round of [SubstituteParams]. *)
Lemma replace_pieces f f' j rep ps : f j = placeholder j → f' j = rep →
  (∀ i, i ≠ j → f' i = f i ∧ (f i = placeholder i ∨ no_dollar (f i))) → separated ps →
  ∀ t0 l fuel, no_dollar t0 → (ps ≠ [] → open_left (next_last l t0) = true) → (length (assemble f t0 ps) ≤ fuel)%nat →
  replace_loop fuel (placeholder j) rep l (assemble f t0 ps) = assemble f' t0 ps.
Proof.
  intros Hj Hj' Hf. induction ps as [|[i t] ps IH]; intros Hsep t0 l fuel Ht0 Hl Hfuel; unfold assemble in *.
  { cbn [fmap list_fmap concat] in *. destruct (replace_text fuel j rep l t0 [] Ht0 Hfuel) as (fuel' & _ & ->). f_equal. by destruct fuel'. }
  rewrite !fmap_cons in *. cbn [concat fst snd] in *. destruct Hsep as (Ht & Hd & Hne & Hsep).
  destruct (replace_text fuel j rep l t0 _ Ht0 Hfuel) as (fuel1 & Hf1 & ->). f_equal. rewrite <- !app_assoc in *.
  specialize (Hl ltac:(done)).
  assert (Hr : open_right (t ++ concat ((λ p, f p.1 ++ p.2) <$> ps)) = true).
  { destruct t as [|c t]; [|cbn; by rewrite (Hd c)]. destruct ps; [done|]. by destruct Hne as (c & ? & _). }
  assert (Hgo : ∀ l2 fuel2, (length (t ++ concat ((λ p, f p.1 ++ p.2) <$> ps)) ≤ fuel2)%nat →
    replace_loop fuel2 (placeholder j) rep l2 (t ++ concat ((λ p, f p.1 ++ p.2) <$> ps)) = t ++ concat ((λ p, f' p.1 ++ p.2) <$> ps)).
  { intros l2 fuel2 Hf2. apply IH; [done..| |done]. intros Hps. destruct (Hne Hps) as (c & Hc & Ha).
    unfold next_last. rewrite Hc. cbn. by rewrite Ha. }
  destruct (decide (i = j)) as [->|Hij].
  - rewrite Hj, Hj' in *. destruct (replace_hit fuel1 j rep _ _ Hl Hr Hf1) as (fuel2 & Hf2 & ->). f_equal. by apply Hgo.
  - destruct (Hf i Hij) as [-> [Hp|Hnd]].
    + rewrite Hp in *. destruct (replace_miss fuel1 i j rep (next_last l t0) _ Hij Hr Hf1) as (fuel2 & Hf2 & ->). f_equal. by apply Hgo.
    + destruct (replace_text fuel1 j rep (next_last l t0) (f i) _ Hnd Hf1) as (fuel2 & Hf2 & ->). f_equal. by apply Hgo.
Qed.

(** The literals that stand for the parameters above [j]. *)
Definition bound_above (params : list bytes) (j i : nat) : bytes :=
  if (j <? i)%nat then literal_of (default [] (params !! (i - 1)%nat)) else placeholder i.
Lemma literal_no_dollar raw : no_dollar raw → no_dollar (literal_of raw).
Proof.
  intros Hr. unfold literal_of. destruct (LooksLikeNumber raw); [done|]. unfold SqlQuoteLiteral, no_dollar in *.
  assert (Hq : ch "$" ∉ concat ((λ c, if bool_decide (c = ch "'") then [c; c] else [c]) <$> raw)).
  { induction raw as [|c raw IH]; [apply not_elem_of_nil|]. apply not_elem_of_cons in Hr as [Hc Hr]. rewrite fmap_cons. cbn [concat].
    rewrite elem_of_app. intros [Hin|Hin]; [|by apply IH]. case_bool_decide; set_solver. }
  rewrite elem_of_cons, elem_of_app, list_elem_of_singleton. intros [?|[?|?]]; [discriminate|done|discriminate].
Qed.
Lemma substitute_rounds params t0 ps n : no_dollar t0 → (ps ≠ [] → open_left (next_last None t0) = true) → separated ps →
  Forall no_dollar params →
  SubstituteParams (assemble (bound_above params n) t0 ps) n params = assemble (bound_above params 0) t0 ps.
Proof.
  intros Ht0 Hl Hsep HF. induction n as [|n IH]; [done|]. cbn [SubstituteParams]. rewrite <- IH. f_equal.
  unfold replace_param. apply replace_pieces; try done.
  - unfold bound_above. by rewrite (proj2 (Nat.ltb_ge _ _)).
  - unfold bound_above. rewrite (proj2 (Nat.ltb_lt _ _)) by lia. by replace (S n - 1)%nat with n by lia.
  - intros i Hi. unfold bound_above. destruct (Nat.ltb_spec n i), (Nat.ltb_spec (S n) i); try lia; (split; [done|]).
    + right. apply literal_no_dollar. destruct (params !! _) eqn:E; cbn; [|by intros ?%elem_of_nil].
      rewrite Forall_forall in HF. apply HF. by eapply list_elem_of_lookup_2.
    + by left.
Qed.
Lemma quoted_literal_lexed p rest : head rest ≠ Some (ch "'") → lex_string (drop 1 (SqlQuoteLiteral p) ++ rest) = Some (p, rest).
Proof.
  intros Hr. unfold SqlQuoteLiteral. unfold drop. induction p as [|c p IH].
  - destruct rest as [|c rest]; [reflexivity|]. cbn. destruct (decide (c = ch "'")) as [->|Hc]; [by destruct Hr|]. rewrite bool_decide_eq_true_2 by done. by rewrite bool_decide_eq_false_2.
  - rewrite fmap_cons. cbn [concat]. destruct (decide (c = ch "'")) as [->|Ec].
    + change (if bool_decide (ch "'" = ch "'") then [ch "'"; ch "'"] else [ch "'"]) with [ch "'"; ch "'"].
      cbn [app lex_string]. rewrite !bool_decide_eq_true_2 by done. by rewrite IH.
    + rewrite bool_decide_eq_false_2 by done. cbn [app lex_string]. rewrite bool_decide_eq_false_2 by done. by rewrite IH.
Qed.

(** C20. Binding parameters. A query whose placeholders are set off from letters and digits,
    bound to parameters that contain no dollar sign, becomes the query in which every
    placeholder is replaced by the literal of its own parameter, all at once, and nothing
    else is changed, although the code replaces the parameters one after the other in
    texts that already contain others; and a literal that was quoted is read back by the
    tokenizer as exactly the parameter's text, whatever quotes it contains. *)
Theorem bind_substitution (params : list bytes) (t0 : bytes) (ps : pieces) :
  no_dollar t0 → (ps ≠ [] → t0 = [] ∨ ends_open t0) → separated ps →
  Forall (λ p, (1 ≤ p.1 ≤ length params)%nat) ps → Forall no_dollar params →
  SubstituteParams (assemble placeholder t0 ps) (length params) params =
    assemble (λ i, literal_of (default [] (params !! (i - 1)%nat))) t0 ps ∧
  (∀ p rest, head rest ≠ Some (ch "'") → lex_string (drop 1 (SqlQuoteLiteral p) ++ rest) = Some (p, rest)).
Proof.
  intros Ht0 Hl Hsep Hin HF. split; [|intros p rest; apply quoted_literal_lexed].
  assert (He : ∀ f g, Forall (λ p, f p.1 = g p.1) ps → assemble f t0 ps = assemble g t0 ps).
  { intros f g Hfg. unfold assemble. do 2 f_equal. clear -Hfg. induction Hfg as [|p ps E _ IH]; [done|].
    by rewrite !fmap_cons, E, IH. }
  rewrite (He placeholder (bound_above params (length params))).
  - rewrite substitute_rounds; try done.
    + apply He. eapply Forall_impl; [exact Hin|]. intros p Hp. cbn in Hp |- *. unfold bound_above.
      by rewrite (proj2 (Nat.ltb_lt _ _)) by lia.
    + intros Hne. destruct (Hl Hne) as [-> |(c & Hc & Ha)]; [done|]. unfold next_last. rewrite Hc. cbn. by rewrite Ha.
  - eapply Forall_impl; [exact Hin|]. intros p Hp. cbn in Hp |- *. unfold bound_above. by rewrite (proj2 (Nat.ltb_ge _ _)) by lia.
Qed.

(** INSERT INTO t (a, b) VALUES ($1, $2) with the texts it's and 7. *)
Lemma bind_substitution_witness :
  SubstituteParams (str "INSERT INTO t (a, b) VALUES ($1, $2)") 2 [str "it's"; str "7"] =
    str "INSERT INTO t (a, b) VALUES ('it''s', 7)" ∧
  (∀ p rest, head rest ≠ Some (ch "'") → lex_string (drop 1 (SqlQuoteLiteral p) ++ rest) = Some (p, rest)).
Proof.
  exact (bind_substitution [str "it's"; str "7"] (str "INSERT INTO t (a, b) VALUES (")
    [(1%nat, str ", "); (2%nat, str ")")]
    ltac:(apply (bool_decide_unpack _); vm_compute; exact I)
    ltac:(intros _; right; eexists; split; reflexivity)
    ltac:(cbn [separated]; split_and!;
          [apply (bool_decide_unpack _); vm_compute; exact I|by intros c [= <-]|intros _; eexists; split; reflexivity|
           apply (bool_decide_unpack _); vm_compute; exact I|by intros c [= <-]|done|exact I])
    ltac:(repeat (apply Forall_cons; split); [cbn; lia..|constructor])
    ltac:(repeat (apply Forall_cons; split); [apply (bool_decide_unpack _); vm_compute; exact I..|constructor])).
Defined.

(** ** Statements of a query *)

(** Whether a quote is open after the text; [None] when a semicolon is outside quotes. *)
Fixpoint quote_scan (in_quote : bool) (s : bytes) : option bool :=
  match s with
  | [] => Some in_quote
  | c :: s =>
      if bool_decide (c = ch "'") then quote_scan (negb in_quote) s
      else if negb in_quote && bool_decide (c = ch ";") then None
      else quote_scan in_quote s
  end.
Lemma split_text q s q' cur out rest : quote_scan q s = Some q' →
  split_loop q cur out (s ++ rest) = split_loop q' (cur ++ s) out rest.
Proof.
  revert q cur. induction s as [|c s IH]; intros q cur; cbn [quote_scan app split_loop].
  { intros [= ->]. by rewrite app_nil_r. }
  intros Hs. case_bool_decide; [|destruct (negb q && _); [done|]]; rewrite (IH _ _ Hs), <- app_assoc; done.
Qed.
Fixpoint join_statements (texts : list bytes) : bytes :=
  match texts with
  | [] => []
  | [t] => t
  | t :: texts => t ++ ch ";" :: join_statements texts
  end.

(** Splitting a query. When the texts of several statements, none with an open quote or
    with a semicolon outside of quotes, are joined by semicolons, the session splits them
    into exactly these texts again, without surrounding white space and without the empty
    ones; semicolons and doubled quotes inside of string literals do not matter. *)
Theorem split_statements_roundtrip (texts : list bytes) :
  Forall (λ t, quote_scan false t = Some false) texts →
  SplitStatements (join_statements texts) = filter (λ t, t ≠ []) (TrimSv <$> texts).
Proof.
  assert (Hadd : ∀ t out, add_part t out = out ++ filter (λ t, t ≠ []) [TrimSv t]).
  { intros t out. unfold add_part. rewrite filter_cons. destruct (TrimSv t) eqn:E; cbn; [by rewrite app_nil_r|done]. }
  intros HF. unfold SplitStatements. change (filter (λ t, t ≠ []) (TrimSv <$> texts)) with
    ([] ++ filter (λ t, t ≠ []) (TrimSv <$> texts)). generalize (@nil (list byte)).
  induction HF as [|t texts Ht HF IH]; intros out; [cbn; by rewrite app_nil_r|]. destruct texts as [|t2 texts].
  - cbn [join_statements]. rewrite <- (app_nil_r t), (split_text _ _ _ _ _ _ Ht) at 1. cbn [split_loop app].
    by rewrite Hadd.
  - change (join_statements (t :: t2 :: texts)) with (t ++ ch ";" :: join_statements (t2 :: texts)).
    rewrite (split_text _ _ _ _ _ _ Ht). cbn [split_loop negb andb app].
    rewrite bool_decide_eq_false_2 by done. rewrite bool_decide_eq_true_2 by done. rewrite IH, Hadd, <- app_assoc.
    f_equal. symmetry. exact (filter_app _ [TrimSv t] (TrimSv <$> t2 :: texts)).
Qed.

Lemma split_statements_roundtrip_witness :
  SplitStatements (str " INSERT INTO t (a) VALUES ('x;''y') ;; COMMIT") =
    [str "INSERT INTO t (a) VALUES ('x;''y')"; str "COMMIT"].
Proof.
  exact (split_statements_roundtrip [str " INSERT INTO t (a) VALUES ('x;''y') "; []; str " COMMIT"]
    ltac:(repeat (apply Forall_cons; split); [reflexivity..|constructor])).
Defined.
