(* ===== verification/PgRun.v ===== *)
(** * Whole connections

    What a client's connection does from its first byte to its last, message by
    message. *)
From Stdlib Require Import Strings.Byte Strings.Ascii.
From stdpp Require Import base gmap sets strings sorting list.
From Stdlib Require Import ZArith Lia.
From S2P Require Import Prelude Status GroupCommit KeyEncoding ShardMessages Effects CoordinatorLog Coordinator.
From S2P Require Import Text Catalog JoinHandler Parser DistributedJoin Executor ExecutorProofs PgWire PgWireProofs PgSession PgWireInput.
Local Open Scope Z_scope.

Implicit Types tr : list PgEvent.
Implicit Types w : World.

(** ** How many statements the received bytes can hold *)

Lemma add_part_length cur out : (length (add_part cur out) ≤ length out + 1)%nat.
Proof. unfold add_part. destruct (TrimSv cur); [lia|]. rewrite length_app. cbn. lia. Qed.
Lemma split_loop_length q cur out sql : (length (split_loop q cur out sql) ≤ length out + length sql + 1)%nat.
Proof.
  revert q cur out. induction sql as [|c sql IH]; intros q cur out; cbn [split_loop length].
  { pose proof (add_part_length cur out). lia. }
  case_bool_decide; [etransitivity; [apply IH|lia]|]. destruct (negb q && _); (etransitivity; [apply IH|]); [|lia].
  pose proof (add_part_length cur out). lia.
Qed.
Lemma strip_nul_length s : (length (Pg.strip_nul s) ≤ length s)%nat.
Proof.
  unfold Pg.strip_nul. rewrite length_rev, <- (length_rev s). generalize (rev s). intros l.
  induction l as [|c l IH]; cbn; [lia|]. case_bool_decide; [|cbn; lia]. destruct (span _ l). cbn in *. lia.
Qed.
Lemma executions_bound (m : message) : (executions m ≤ 1 + length m.2)%nat.
Proof.
  unfold executions. case_bool_decide; [|lia]. pose proof (split_loop_length false [] [] (Pg.strip_nul m.2)) as Hl.
  pose proof (strip_nul_length m.2). unfold SplitStatements. cbn in Hl. lia.
Qed.

Lemma ReadBackendMessage_length w tr w' m : recv_ok tr → path (Pg.ReadBackendMessage w) tr (Some (w', Some (Some m))) →
  (1 + length m.2 ≤ length (received tr))%nat.
Proof.
  intros Hok Hp. unfold Pg.ReadBackendMessage in Hp.
  apply sm_bind_inv in Hp as [[? _]|(t1 & t2 & w1 & r & -> & H1 & Hp)]; [done|]. apply Forall_app in Hok as [Hok1 Hok].
  destruct r as [[|ty [|? ?]]|]; try (by apply sm_ret_inv in Hp as (_ & _ & ?)).
  apply ReadExact_received in H1 as (-> & E1 & _); [|done].
  apply sm_bind_inv in Hp as [[? _]|(t3 & t4 & w2 & r & -> & H2 & Hp)]; [done|]. apply Forall_app in Hok as [Hok3 Hok].
  destruct r as [lenb|]; [|by apply sm_ret_inv in Hp as (_ & _ & ?)]. destruct (_ <? _).
  { apply sm_bind_inv in Hp as [[? _]|(t5 & t6 & w3 & [] & -> & _ & Hp)]; [done|]. by apply sm_ret_inv in Hp as (_ & _ & ?). }
  apply sm_bind_inv in Hp as [[? _]|(t5 & t6 & w3 & r & -> & H3 & Hp)]; [done|]. apply Forall_app in Hok as [Hok5 _].
  apply sm_ret_inv in Hp as (-> & -> & E). destruct r as [p|]; [|done]. injection E as ->.
  apply ReadExact_received in H3 as (_ & -> & _); [|done]. rewrite !received_app, !length_app, <- E1. cbn. lia.
Qed.

(** ** Connections *)

Lemma quiet_ReadBackendMessage : quiet Pg.ReadBackendMessage.
Proof. unfold Pg.ReadBackendMessage. quieten. Qed.
Lemma quiet_ReadStartup fuel : quiet (Pg.ReadStartupNegotiation fuel).
Proof. induction fuel as [|fuel IH]; cbn [Pg.ReadStartupNegotiation]; quieten; apply IH. Qed.
Lemma quiet_WriteStartupAck : quiet Pg.WriteStartupAck.
Proof. unfold Pg.WriteStartupAck, Pg.WriteReadyForQuery. quieten. Qed.

Section connection.
Context `{Undefined} `{StdSort} (env : getenv).

Lemma run_loop_follows fuel w tr w' over : session_ok w → recv_ok tr → room (length (received tr)) w →
  path (Pg.run_loop env fuel w) tr (Some (w', Some over)) → follows (length (received tr)) w w'.
Proof.
  revert w tr. induction fuel as [|fuel IH]; intros w tr Hok Hrecv Hroom Hp; cbn [Pg.run_loop] in Hp.
  { apply (quiet_follows (mret false)) in Hp; [|apply quiet_ret|done]. eapply follows_weaken; [|exact Hp]. lia. }
  apply sm_bind_inv in Hp as [[? _]|(t1 & t2 & w1 & x & -> & Hg & Hp)]; [done|]. apply sm_get_inv in Hg as (-> & -> & [= ->]).
  cbn [app] in *. destruct (negb _).
  { apply (quiet_follows (mret true)) in Hp; [|apply quiet_ret|done]. eapply follows_weaken; [|exact Hp]. lia. }
  apply sm_bind_inv in Hp as [[? _]|(t3 & t4 & w2 & m & -> & H1 & Hp)]; [done|]. apply Forall_app in Hrecv as [Hr1 Hrecv].
  pose proof (quiet_follows _ _ _ _ _ quiet_ReadBackendMessage Hok H1) as Hf1. rewrite received_app, length_app in *.
  destruct m as [m|].
  2: { apply (quiet_follows (mret true)) in Hp; [|apply quiet_ret|by apply Hf1].
       eapply follows_weaken; [|eapply follows_trans; [exact Hf1|exact Hp]]. lia. }
  apply ReadBackendMessage_length in H1; [|done]. pose proof (executions_bound m) as Hb.
  apply sm_bind_inv in Hp as [[? _]|(t5 & t6 & w3 & go_on & -> & H2 & Hp)]; [done|]. apply Forall_app in Hrecv as [_ Hrecv].
  rewrite received_app, length_app in *.
  apply dispatch_follows in H2; [|by apply Hf1|apply (room_after 0 _ w w2 Hf1); unfold room in *; lia].
  pose proof (follows_trans _ _ _ _ _ Hf1 H2) as Hf. destruct go_on.
  - assert (follows (length (received t6)) w3 w') as Hf3.
    { eapply IH; [by apply Hf|done| |exact Hp]. eapply room_after; [exact Hf|]. unfold room in *. lia. }
    eapply follows_weaken; [|eapply follows_trans; [exact Hf|exact Hf3]]. lia.
  - apply (quiet_follows (mret true)) in Hp; [|apply quiet_ret|by apply Hf].
    eapply follows_weaken; [|eapply follows_trans; [exact Hf|exact Hp]]. lia.
Qed.

Lemma Run_follows fuel w tr w' over : session_ok w → recv_ok tr → room (length (received tr)) w →
  path (Pg.Run env fuel w) tr (Some (w', Some over)) → follows (length (received tr)) w w'.
Proof.
  intros Hok Hrecv Hroom Hp. unfold Pg.Run in Hp.
  apply sm_bind_inv in Hp as [[? _]|(t1 & t2 & w1 & r & -> & H1 & Hp)]; [done|]. apply Forall_app in Hrecv as [_ Hrecv].
  pose proof (quiet_follows _ _ _ _ _ (quiet_ReadStartup fuel) Hok H1) as Hf1. rewrite received_app, length_app in *.
  destruct r as [[|]|].
  - apply sm_bind_inv in Hp as [[? _]|(t3 & t4 & w2 & [] & -> & H2 & Hp)]; [done|]. apply Forall_app in Hrecv as [_ Hrecv].
    apply (quiet_follows Pg.WriteStartupAck) in H2; [|apply quiet_WriteStartupAck|by apply Hf1]. rewrite received_app, length_app in *.
    pose proof (follows_trans _ _ _ _ _ Hf1 H2) as Hf. apply run_loop_follows in Hp; [|by apply Hf|done|].
    + eapply follows_weaken; [|eapply follows_trans; [exact Hf|exact Hp]]. lia.
    + eapply (room_after 0); [exact Hf|]. unfold room in *. lia.
  - apply (quiet_follows (mret true)) in Hp; [|apply quiet_ret|by apply Hf1].
    eapply follows_weaken; [|eapply follows_trans; [exact Hf1|exact Hp]]. lia.
  - apply (quiet_follows (mret false)) in Hp; [|apply quiet_ret|by apply Hf1].
    eapply follows_weaken; [|eapply follows_trans; [exact Hf1|exact Hp]]. lia.
Qed.

(** C17. Sessions keep to themselves. Whatever bytes a client sends in the whole of its
    connection, whatever the shards answer, and whatever the freed memory holds that
    Describe and Close read (a view of a destroyed string): when the session is over, or
    at any point between two messages, the transactions of the coordinator are those that
    were open when the connection was made and at most one more, the session's own; the
    session counts a transaction as failed only while it has one, and the transaction
    it works in is open at the coordinator. So no client ends another's transaction or
    leaves more than one behind. A call of recv returns at most as many bytes as were
    asked for, the numbers of the coordinator's open transactions lie below the next one
    at the start, and the session does not use up the 64-bit numbers. *)
Theorem session_isolated (fuel : nat) (c : Coordinator) (cat : Catalog) (w' : World) (tr : list PgEvent) (over : bool) :
  ids_ok c → recv_ok tr → next_raft_id_ c + Z.of_nat (length (received tr)) < 2 ^ 64 →
  path (Pg.Run env fuel (MkWorld new_PgSession c cat)) tr (Some (w', Some over)) →
  session_ok w' ∧
  open_txns (coord w') ∖ {[current_txn_id_ (sess w')]} = open_txns c.
Proof.
  intros Hids Hrecv Hroom Hp.
  destruct (Run_follows fuel (MkWorld new_PgSession c cat) tr w' over) as (Hok & Ho & _); [|done|done|exact Hp|].
  { split_and!; [done|done|by left]. }
  split; [done|]. unfold others in Ho. rewrite Ho. cbn. destruct Hids as [_ Hids].
  apply set_eq. intros t. rewrite elem_of_difference, elem_of_singleton. split; [by intros [? _]|]. intros Ht. split; [done|].
  apply Hids in Ht. lia.
Qed.
End connection.
