(* ===== verification/PgWireExamples.v ===== *)
(** * Sessions on small inputs

    Sessions against a client and shards that answer, the statements of the session's
    theorems on them, and examples of what goes wrong: parameters that change the
    statement, connections that leave a transaction open, queries that end the server. *)
From Stdlib Require Import Strings.Byte Strings.Ascii.
From stdpp Require Import base gmap sets strings sorting list.
From Stdlib Require Import ZArith Lia.
From S2P Require Import Prelude Status GroupCommit KeyEncoding ShardMessages Effects CoordinatorLog Coordinator.
From S2P Require Import Text Catalog JoinHandler Lexer Parser DistributedJoin Executor ExecutorProofs ExecutorRows.
From S2P Require Import SelectProofs ExecutorExamples PgWire PgWireProofs PgSession PgWireInput PgRun.
Local Open Scope Z_scope.

#[local] Existing Instance wrapping.
#[local] Existing Instance std_insertion_sort.

(** A client that sends the first bytes and has received the second ones; the shards are
    those of the executor's examples. *)
Definition pg_env (s : bytes * bytes) (a : PgAction) : (bytes * bytes) * pg_result a :=
  match a return (bytes * bytes) * pg_result a with
  | ARecv n => ((drop (Nat.min n 3) s.1, s.2), take (Nat.min n 3) s.1)
  | ASend d => ((s.1, s.2 ++ d), length d)
  | AStale n => (s, replicate n x00)
  | ACoord a => (s, (demo_env () a).2)
  end.
Definition demo_world : World := MkWorld new_PgSession demo_coord demo_cat.
Definition in_txn (failed : bool) : World := MkWorld (MkPgSession 7 failed true ∅ ∅ []) demo_open demo_cat.
Definition pg_run {A} (m : SM A) (w : World) : (bytes * bytes) * list PgEvent * (World * option A) := run pg_env ([], []) (m w).
Lemma pg_run_path {A} (m : SM A) w w' o : (pg_run m w).2 = (w', o) → path (m w) (pg_run m w).1.2 (Some (w', o)).
Proof. intros <-. apply run_path. Qed.

Lemma message_roundtrip_witness :
  outcome (λ n, Nat.min n 3) (frame (ch "Q") (str "COMMIT") ++ str "rest") Pg.ReadBackendMessage demo_world =
    (str "rest", (demo_world, Some (Some (ch "Q", str "COMMIT")))) ∧
  (∀ tr w' ty p, path (Pg.ReadBackendMessage demo_world) tr (Some (w', Some (Some (ty, p)))) → recv_ok tr →
    received tr = frame ty p ∧ w' = demo_world).
Proof.
  apply (message_roundtrip (ch "Q") (str "COMMIT") (str "rest") (λ n, Nat.min n 3) demo_world); [vm_compute; reflexivity|].
  intros n Hn. lia.
Defined.

(** Two statements in a transaction: one reply each and then ReadyForQuery. *)
Definition demo_query : bytes := c_string (str "UPDATE users SET name = 'x' WHERE id = 2; SELECT name FROM users WHERE id = 2").
Definition after_query : World := (pg_run (Pg.HandleSimpleQuery no_env demo_query) (in_txn false)).2.1.
Lemma after_query_path :
  path (Pg.HandleSimpleQuery no_env demo_query (in_txn false))
    (pg_run (Pg.HandleSimpleQuery no_env demo_query) (in_txn false)).1.2 (Some (after_query, Some ())).
Proof. apply pg_run_path. vm_compute. reflexivity. Qed.
Lemma simple_query_reply_witness :
  write_buf_ (sess after_query) = [] ∧
  ∃ fs, sent (pg_run (Pg.HandleSimpleQuery no_env demo_query) (in_txn false)).1.2 =
      render (fs ++ [(ch "Z", [ch "T"])]) ∧ replies 2 fs.
Proof.
  exact (simple_query_reply no_env demo_query (in_txn false) after_query _ after_query_path
    ltac:(vm_compute; reflexivity)).
Defined.

Definition after_begin : World := (pg_run (Pg.ProcessSingle no_env (str "BEGIN")) (in_txn true)).2.1.
Lemma failed_txn_ignored_witness :
  coord after_begin = demo_open ∧ Pg.TxnIndicator (sess after_begin) = ch "E".
Proof.
  assert (Hp : path (Pg.ProcessSingle no_env (str "BEGIN") (in_txn true))
    (pg_run (Pg.ProcessSingle no_env (str "BEGIN")) (in_txn true)).1.2 (Some (after_begin, Some ()))).
  { apply pg_run_path. vm_compute. reflexivity. }
  assert (Hb : Pg.TryParseStatement (str "BEGIN") = inr BeginS) by (vm_compute; reflexivity).
  pose proof (proj1 (failed_txn_ignored no_env (in_txn true) eq_refl ltac:(discriminate)) (str "BEGIN") after_begin _ Hp) as Hf.
  rewrite Hb in Hf. destruct Hf as (_ & Hc & _ & Hi & _). split; [exact Hc|exact Hi].
Defined.

(** ** What goes wrong *)

(** A parameter can contain the placeholder of an earlier one, which is then replaced
    inside of the quotes: with " WHERE id = 7 --" for the first parameter and "$1" for the
    second, an update of the rows with id 3 becomes an update of the row 7. *)
Definition injected : bytes :=
  SubstituteParams (str "UPDATE users SET name = $2 WHERE name = $1 AND id = 3") 2 [str " WHERE id = 7 --"; str "$1"].
Lemma bind_param_injection :
  Parse injected = Some (inr (UpdateS (MkUpdateStmt (str "users") [MkAssignment (str "name") (inr (LitString []))]
    [MkCompareExpr (str "id") CompareOp.EQ (LitInt 7)]))).
Proof. vm_compute. reflexivity. Qed.

(** The tokenizer skips comments, but the session does not when it splits a query: a quote
    in a comment hides the semicolons after it. *)
Lemma split_ignores_comments :
  length (SplitStatements (str "-- it's
COMMIT; BEGIN")) = 1%nat.
Proof. vm_compute. reflexivity. Qed.

(** A text parameter that looks like a number is stored as one. *)
Lemma text_param_loses_zeros :
  (Exec.LiteralToString <$>
    match Parse (SubstituteParams (str "INSERT INTO users (id, name) VALUES (1, $1)") 1 [str "007"]) with
    | Some (inr (InsertS s)) => in_values s
    | _ => []
    end) = [str "1"; str "7"].
Proof. vm_compute. reflexivity. Qed.

(** The bytes of a session: startup, a query, and the end of the connection. *)
Definition client (query : string) : bytes :=
  AppendUint32BE 9 ++ AppendUint32BE 196608 ++ [x00] ++ frame (ch "Q") (c_string (str query)).
Definition session (query : string) : World * option bool :=
  (run pg_env (client query, []) (Pg.Run no_env 5 demo_world)).2.
Definition session_trace (query : string) : list PgEvent :=
  (run pg_env (client query, []) (Pg.Run no_env 5 demo_world)).1.2.

Lemma session_path query w' over : session query = (w', Some over) →
  path (Pg.Run no_env 5 demo_world) (session_trace query) (Some (w', Some over)).
Proof. unfold session, session_trace. intros <-. apply run_path. Qed.

Lemma session_isolated_witness :
  current_txn_id_ (sess (session "BEGIN").1) = 7 ∧ session_ok (session "BEGIN").1 ∧
  open_txns (coord (session "BEGIN").1) ∖ {[current_txn_id_ (sess (session "BEGIN").1)]} = open_txns demo_coord.
Proof.
  split; [vm_compute; reflexivity|].
  apply (session_isolated no_env 5 demo_coord demo_cat (session "BEGIN").1 (session_trace "BEGIN") true).
  - split; [reflexivity|]. intros t Ht. exfalso. revert Ht. apply (bool_decide_unpack (t ∉ open_txns demo_coord)).
    vm_compute. exact I.
  - vm_compute. repeat (apply Forall_cons; split; [first [exact I|lia]|]). by apply Forall_nil.
  - vm_compute. reflexivity.
  - exact (session_path "BEGIN" (session "BEGIN").1 true ltac:(vm_compute; reflexivity)).
Defined.

(** A client that goes away in a transaction leaves it open at the coordinator for good:
    nothing ends it when the session is over. *)
Lemma disconnect_leaks_transaction :
  (session "BEGIN").2 = Some true ∧ open_txns (coord (session "BEGIN").1) = {[7]}.
Proof. vm_compute. split; reflexivity. Qed.
(** A query with a text for an integer key ends the whole server: no exception is caught
    between the executor and the thread of the session. *)
Lemma bad_literal_ends_server : (session "SELECT name FROM users WHERE id = 'abc'").2 = None.
Proof. vm_compute. reflexivity. Qed.
(** The statement of a portal returns rows although its description says that it does not. *)
Lemma describe_portal_no_data :
  let r := pg_run (Pg.HandleDescribe no_env (ch "P" :: c_string [])) demo_world in
  (r.1.2 = [Ev (AStale 1 : PgAction) (c_string [])]) ∧ write_buf_ (sess r.2.1) = NoData.
Proof. vm_compute. split; reflexivity. Qed.
(** [Close] of a statement by its name, when the freed memory holds zeros by the time it is
    read: the client is told that it was closed, and it is still there. *)
Lemma stale_close_keeps_statement :
  let w := MkWorld (MkPgSession 0 false true {[str "q1" := MkPreparedStmt (str "q1") (str "SELECT 1") []]} ∅ []) demo_coord demo_cat in
  let r := pg_run (Pg.HandleClose (ch "S" :: c_string (str "q1"))) w in
  write_buf_ (sess r.2.1) = CloseComplete ∧ is_Some (prepared_stmts_ (sess r.2.1) !! str "q1").
Proof. vm_compute. split; [reflexivity|by eexists]. Qed.
