(* ===== verification/PgServer.v ===== *)
(** * The PostgreSQL listener

    [PgWireServer] of pgwire/pgwire_server.cpp: the thread that owns the server starts
    and stops it, one thread accepts connections and one thread per connection runs a
    session (Pg.Run of PgWire.v). The threads share the server's fields and the file
    descriptors of the process, which other parts of the process open and close too.
    Every operation is split where another thread can act. *)
From stdpp Require Import base relations gmap sets strings list.
From Stdlib Require Import ZArith Lia.
From S2P Require Import Prelude Status.
Local Open Scope Z_scope.

(** ** File descriptors *)

Inductive File :=
  | Listener
  | Connection (k : nat)
  | Foreign.
#[export] Instance File_eq_dec : EqDecision File.
Proof. solve_decision. Defined.

(** Connections are numbered as they are accepted. [ended]: nothing more will be
    received, because the client is gone or the socket was shut down. [listening]: the
    server's socket listens and was not shut down; closing the descriptor alone does not
    end an [accept] that waits on it. *)
Record Kernel := MkKernel {
  fds : gmap Z File;
  ended : gset nat;
  accepted : nat;
  listening : bool;
}.
Definition kInvalidSocket : Z := -1.

Definition shutdown (o : Kernel) (s : Z) : Kernel :=
  match fds o !! s with
  | Some (Connection k) => MkKernel (fds o) ({[k]} ∪ ended o) (accepted o) (listening o)
  | Some Listener => MkKernel (fds o) (ended o) (accepted o) false
  | _ => o
  end.
Definition close (o : Kernel) (s : Z) : Kernel := MkKernel (delete s (fds o)) (ended o) (accepted o) (listening o).
Definition open_fd (o : Kernel) (s : Z) (f : File) : Kernel := MkKernel (<[s := f]> (fds o)) (ended o) (accepted o) (listening o).
Definition listen (o : Kernel) : Kernel := MkKernel (fds o) (ended o) (accepted o) true.
(** A new descriptor is not negative and not in use. *)
Definition fresh_fd (o : Kernel) (s : Z) : bool := (0 <=? s) && bool_decide (fds o !! s = None).

Definition ShutdownSocket (o : Kernel) (s : Z) : Kernel :=
  if s =? kInvalidSocket then o else close (shutdown o s) s.

(** ** Threads *)

(** [AcceptLoop]: at the head of the loop, in [accept], with a new socket before the
    check of [running_], before it is put into [client_sockets_], before its thread is
    made. *)
Inductive AcceptPc :=
  | NoThread
  | LoopHead
  | InAccept
  | Returned (c : Z) (k : nat)
  | Register (c : Z) (k : nat)
  | Spawn (c : Z) (k : nat)
  | AcceptDone.

(** A connection's thread: in [PgSession::Run], after it, after the erasure from
    [client_sockets_], at its end. *)
Inductive WorkerPc := Serving | Leaving | Erased | Finished.
#[export] Instance WorkerPc_eq_dec : EqDecision WorkerPc.
Proof. solve_decision. Defined.
Record Worker := MkWorker {
  w_sock : Z;
  w_conn : nat;
  w_pc : WorkerPc;
}.

(** [Stop] before each of its steps; [Idle] outside of it. *)
Inductive OwnerPc :=
  | Idle
  | StopListen
  | StopSnapshot
  | StopClients (snap : list Z)
  | StopAccept
  | StopConns (ts : list nat).

Record PgWireServer := MkPgWireServer {
  requested_port_ : Z;
  listen_sock_ : Z;
  running_ : bool;
  bound_port_ : Z;
  accept_thread_ : AcceptPc;
  conn_threads_ : list nat;
  client_sockets_ : list Z;
}.
Definition new_PgWireServer (listen_port : Z) : PgWireServer :=
  MkPgWireServer listen_port kInvalidSocket false 0 NoThread [] [].

(** The process: the server, its threads and the descriptors. *)
Record Process := MkProcess {
  server : PgWireServer;
  kernel : Kernel;
  workers : list Worker;
  owner : OwnerPc;
}.

Definition set_listen (v : PgWireServer) (s : Z) (run : bool) : PgWireServer :=
  MkPgWireServer (requested_port_ v) s run (bound_port_ v) (accept_thread_ v) (conn_threads_ v) (client_sockets_ v).
Definition set_accept (v : PgWireServer) (a : AcceptPc) : PgWireServer :=
  MkPgWireServer (requested_port_ v) (listen_sock_ v) (running_ v) (bound_port_ v) a (conn_threads_ v) (client_sockets_ v).
Definition set_threads (v : PgWireServer) (ts : list nat) : PgWireServer :=
  MkPgWireServer (requested_port_ v) (listen_sock_ v) (running_ v) (bound_port_ v) (accept_thread_ v) ts (client_sockets_ v).
Definition set_clients (v : PgWireServer) (cs : list Z) : PgWireServer :=
  MkPgWireServer (requested_port_ v) (listen_sock_ v) (running_ v) (bound_port_ v) (accept_thread_ v) (conn_threads_ v) cs.
Definition set_port (v : PgWireServer) (port : Z) : PgWireServer :=
  MkPgWireServer (requested_port_ v) (listen_sock_ v) (running_ v) port (accept_thread_ v) (conn_threads_ v) (client_sockets_ v).
Definition with_server (p : Process) (v : PgWireServer) : Process := MkProcess v (kernel p) (workers p) (owner p).
Definition with_kernel (p : Process) (o : Kernel) : Process := MkProcess (server p) o (workers p) (owner p).
Definition with_owner (p : Process) (a : OwnerPc) : Process := MkProcess (server p) (kernel p) (workers p) a.

(** ** Operations *)

Module Server.

(** What the system answers to [Start]: the new socket, whether [bind] and [listen]
    succeed, and the port of [getsockname]. *)
Record StartIO := MkStartIO {
  io_socket : option Z;
  io_bind : bool;
  io_port : option Z;
}.

Definition Start (p : Process) (io : StartIO) : Process * Status :=
  let v := server p in
  if running_ v then (p, St.Error InvalidArgument "already started") else
  match io_socket io with
  | None => (with_server p (set_listen v kInvalidSocket false), St.IOError "socket")
  | Some s =>
      let o := open_fd (kernel p) s Listener in
      if negb (io_bind io) then
        (MkProcess (set_listen v kInvalidSocket false) (ShutdownSocket o s) (workers p) (owner p), St.IOError "bind/listen")
      else
        let v := set_port (set_listen v s true) (default (bound_port_ v) (io_port io)) in
        (MkProcess (set_accept v LoopHead) (listen o) (workers p) (owner p), St.OK)
  end.

Definition Stop_begin (p : Process) : Process :=
  let v := server p in
  if negb (running_ v) then p else MkProcess (set_listen v (listen_sock_ v) false) (kernel p) (workers p) StopListen.

(** The next step of [Stop]; a join waits until the thread has ended. *)
Definition Stop_next (p : Process) : option Process :=
  let v := server p in
  match owner p with
  | Idle => None
  | StopListen =>
      Some (MkProcess (set_listen v kInvalidSocket (running_ v)) (ShutdownSocket (kernel p) (listen_sock_ v)) (workers p) StopSnapshot)
  | StopSnapshot => Some (MkProcess (set_clients v []) (kernel p) (workers p) (StopClients (client_sockets_ v)))
  | StopClients [] => Some (with_owner p StopAccept)
  | StopClients (s :: snap) => Some (MkProcess v (ShutdownSocket (kernel p) s) (workers p) (StopClients snap))
  | StopAccept =>
      match accept_thread_ v with
      | AcceptDone => Some (MkProcess (set_accept v NoThread) (kernel p) (workers p) (StopConns (conn_threads_ v)))
      | _ => None
      end
  | StopConns [] => Some (MkProcess (set_threads v []) (kernel p) (workers p) Idle)
  | StopConns (t :: ts) =>
      match workers p !! t with
      | Some w => if bool_decide (w_pc w = Finished) then Some (with_owner p (StopConns ts)) else None
      | None => None
      end
  end.

(** [accept] returns an error or a new socket; the latter only from a listening
    socket. An error can come at any time (too many open files, say), but [accept] is sure
    to return only when the socket has been shut down: see [own_event]. *)
Definition accept_returns (p : Process) (r : option Z) : option Process :=
  let v := server p in
  match accept_thread_ v, r with
  | InAccept, None => Some (with_server p (set_accept v AcceptDone))
  | InAccept, Some c =>
      let o := kernel p in
      if fresh_fd o c && bool_decide (fds o !! listen_sock_ v = Some Listener) then
        Some (MkProcess (set_accept v (Returned c (accepted o)))
          (MkKernel (<[c := Connection (accepted o)]> (fds o)) (ended o) (S (accepted o)) (listening o)) (workers p) (owner p))
      else None
  | _, _ => None
  end.

(** The other steps of [AcceptLoop]. The thread of a connection is made and put into
    [conn_threads_] in one step: nobody looks at [conn_threads_] before [AcceptLoop] has
    ended. *)
Definition AcceptLoop_next (p : Process) : option Process :=
  let v := server p in
  match accept_thread_ v with
  | LoopHead => Some (with_server p (set_accept v (if running_ v then InAccept else AcceptDone)))
  | Returned c k => Some (with_server p (set_accept v (if negb (running_ v) then AcceptDone else Register c k)))
  | Register c k => Some (with_server p (set_clients (set_accept v (Spawn c k)) (client_sockets_ v ++ [c])))
  | Spawn c k =>
      Some (MkProcess (set_threads (set_accept v LoopHead) (conn_threads_ v ++ [length (workers p)])) (kernel p)
        (workers p ++ [MkWorker c k Serving]) (owner p))
  | NoThread | InAccept | AcceptDone => None
  end.

(** The thread of a connection: [Run] returns when nothing more can be received. *)
Definition worker_next (p : Process) (t : nat) : option Process :=
  w ← workers p !! t;
  let set pc := <[t := MkWorker (w_sock w) (w_conn w) pc]> (workers p) in
  let v := server p in
  match w_pc w with
  | Serving => if bool_decide (w_conn w ∈ ended (kernel p)) then Some (MkProcess v (kernel p) (set Leaving) (owner p)) else None
  | Leaving =>
      Some (MkProcess (set_clients v (filter (λ c, c ≠ w_sock w) (client_sockets_ v))) (kernel p) (set Erased) (owner p))
  | Erased => Some (MkProcess v (ShutdownSocket (kernel p) (w_sock w)) (set Finished) (owner p))
  | Finished => None
  end.

End Server.

(** ** Runs *)

(** What happens next. The last three are not the server's: a client leaves or its
    session ends for another reason, and other parts of the process open and close
    files. Nor is it up to the server when [Start] and [Stop] are called, when a client
    connects and whether [accept] fails while its socket listens. *)
Inductive ServerEvent :=
  | EvStart (io : Server.StartIO)
  | EvStop
  | EvStopNext
  | EvAcceptReturns (r : option Z)
  | EvAcceptNext
  | EvWorker (t : nat)
  | EvClientGone (k : nat)
  | EvOpen (s : Z)
  | EvClose (s : Z).

(** [Start] and [Stop] are called by one thread. *)
Definition run_server (p : Process) (ev : ServerEvent) : option Process :=
  match ev with
  | EvStart io =>
      match owner p with
      | Idle => if default true (fresh_fd (kernel p) <$> Server.io_socket io) then Some (Server.Start p io).1 else None
      | _ => None
      end
  | EvStop => match owner p with Idle => Some (Server.Stop_begin p) | _ => None end
  | EvStopNext => Server.Stop_next p
  | EvAcceptReturns r => Server.accept_returns p r
  | EvAcceptNext => Server.AcceptLoop_next p
  | EvWorker t => Server.worker_next p t
  | EvClientGone k =>
      if bool_decide (k < accepted (kernel p))%nat then
        Some (with_kernel p (MkKernel (fds (kernel p)) ({[k]} ∪ ended (kernel p)) (accepted (kernel p)) (listening (kernel p))))
      else None
  | EvOpen s => if fresh_fd (kernel p) s then Some (with_kernel p (open_fd (kernel p) s Foreign)) else None
  | EvClose s =>
      if bool_decide (fds (kernel p) !! s = Some Foreign) then Some (with_kernel p (close (kernel p) s)) else None
  end.
(** Events that happen in [p] without anybody else's doing, once they are possible. *)
Definition own_event (p : Process) (ev : ServerEvent) : bool :=
  match ev with
  | EvStopNext | EvAcceptNext | EvWorker _ => true
  | EvAcceptReturns None => negb (listening (kernel p))
  | _ => false
  end.

Definition server_step (p p' : Process) : Prop := ∃ ev, run_server p ev = Some p'.

(** A process whose server has not been started; other files may be open. *)
Definition process_init (port : Z) (files : gset Z) : Process :=
  MkProcess (new_PgWireServer port) (MkKernel (gset_to_gmap Foreign files) ∅ 0 false) [] Idle.
Definition reachable (p : Process) : Prop :=
  ∃ port files, set_Forall (λ s, 0 ≤ s) files ∧ rtc server_step (process_init port files) p.

Fixpoint run_servers (p : Process) (evs : list ServerEvent) : option Process :=
  match evs with
  | [] => Some p
  | ev :: evs => p ← run_server p ev; run_servers p evs
  end.
Lemma run_servers_sound p evs p' : run_servers p evs = Some p' → rtc server_step p p'.
Proof.
  revert p. induction evs as [|ev evs IH]; intros p E; cbn in E; [by simplify_eq|].
  destruct (run_server p ev) as [p1|] eqn:E1; [|done]. eapply rtc_l; [by exists ev|]. by apply IH.
Qed.

(** ** The invariant *)

Definition hand (a : AcceptPc) : option (Z * nat) :=
  match a with Returned c k | Register c k | Spawn c k => Some (c, k) | _ => None end.
(** [Stop] has taken the list of clients. *)
Definition past (a : OwnerPc) : bool := match a with StopClients _ | StopAccept | StopConns _ => true | _ => false end.
Definition snapshot (a : OwnerPc) : list Z := match a with StopClients snap => snap | _ => [] end.
(** The threads that [Stop] has not joined. *)
Definition unjoined (p : Process) : list nat :=
  match owner p with StopConns ts => ts | _ => conn_threads_ (server p) end.
Definition late (a : AcceptPc) : nat := match a with Register _ _ => 1 | _ => 0 end.

(** A thread of the server that will close socket [c] of connection [k], and one whose
    socket is in [client_sockets_] unless [Stop] took it. *)
Definition holds (p : Process) (c : Z) (k : nat) : Prop :=
  (∃ t pc, workers p !! t = Some (MkWorker c k pc) ∧ pc ≠ Finished) ∨ hand (accept_thread_ (server p)) = Some (c, k).
Definition registered (p : Process) (c : Z) (k : nat) : Prop :=
  (∃ t pc, workers p !! t = Some (MkWorker c k pc) ∧ (pc = Serving ∨ pc = Leaving)) ∨ accept_thread_ (server p) = Spawn c k.
Definition conns (p : Process) : list nat :=
  (w_conn <$> workers p) ++ match hand (accept_thread_ (server p)) with Some (_, k) => [k] | None => [] end.

(** The socket is the connection's, or [Stop] has shut it down and closed it. *)
Definition sock_ok (o : Kernel) (a : OwnerPc) (c : Z) (k : nat) : Prop :=
  0 ≤ c ∧ (fds o !! c = Some (Connection k) ∨
    past a = true ∧ k ∈ ended o ∧ (fds o !! c = None ∨ fds o !! c = Some Foreign)).

Record phase_ok (v : PgWireServer) (o : Kernel) (a : OwnerPc) : Prop := {
  ph_running : running_ v = true → a = Idle;
  ph_idle : a = Idle → running_ v = false → accept_thread_ v = NoThread ∧ conn_threads_ v = [];
  ph_thread : accept_thread_ v = NoThread → running_ v = false ∧ (a = Idle ∨ ∃ ts, a = StopConns ts);
  ph_conns ts : a = StopConns ts → accept_thread_ v = NoThread;
  ph_listen : running_ v = true ∨ a = StopListen → fds o !! listen_sock_ v = Some Listener;
  ph_closed : running_ v = false → a ≠ StopListen → listen_sock_ v = kInvalidSocket;
  ph_late : past a = true → (length (client_sockets_ v) + late (accept_thread_ v) ≤ 1)%nat;
}.

Record server_inv (p : Process) : Prop := {
  iv_phase : phase_ok (server p) (kernel p) (owner p);
  iv_fds s : s < 0 → fds (kernel p) !! s = None;
  iv_sock c k : holds p c k → sock_ok (kernel p) (owner p) c k;
  iv_nodup : NoDup (conns p);
  iv_conns : Forall (λ k, (k < accepted (kernel p))%nat) (conns p);
  iv_join t w : workers p !! t = Some w → w_pc w ≠ Finished → t ∈ unjoined p;
  iv_ids : Forall (λ t, (t < length (workers p))%nat) (unjoined p) ∧ Forall (λ t, (t < length (workers p))%nat) (conn_threads_ (server p));
  iv_clients c k : registered p c k →
    c ∈ client_sockets_ (server p) ∨ past (owner p) = true ∧ (c ∈ snapshot (owner p) ∨ k ∈ ended (kernel p));
}.

Lemma registered_holds p c k : registered p c k → holds p c k.
Proof. intros [(t & pc & E & Hpc)|E]; [left; exists t, pc; split; [done|]; by destruct Hpc as [-> | ->]|right; by rewrite E]. Qed.

(** ** Descriptors *)

Lemma fresh_fd_spec o s : fresh_fd o s = true → 0 ≤ s ∧ fds o !! s = None.
Proof. unfold fresh_fd. intros [Hs Hf]%andb_true_iff. apply bool_decide_eq_true in Hf. split; [by apply Z.leb_le|done]. Qed.

Lemma ShutdownSocket_fds o s x : (s = kInvalidSocket → fds o !! s = None) →
  fds (ShutdownSocket o s) !! x = if bool_decide (x = s) then None else fds o !! x.
Proof.
  intros Hs. unfold ShutdownSocket. destruct (Z.eqb_spec s kInvalidSocket) as [E|_].
  { case_bool_decide as Hx; [|done]. subst x. by apply Hs. }
  assert (E : fds (shutdown o s) = fds o) by (unfold shutdown; by destruct (fds o !! s) as [[]|]).
  unfold close. cbn [fds]. rewrite E. case_bool_decide as Hx; [subst; apply lookup_delete_eq|by apply lookup_delete_ne].
Qed.
Lemma ShutdownSocket_accepted o s : accepted (ShutdownSocket o s) = accepted o.
Proof. unfold ShutdownSocket, shutdown. destruct (_ =? _); [done|]. by destruct (fds o !! s) as [[]|]. Qed.
Lemma ShutdownSocket_ended o s : ended o ⊆ ended (ShutdownSocket o s).
Proof. unfold ShutdownSocket, shutdown. destruct (_ =? _); [done|]. destruct (fds o !! s) as [[]|]; cbn; set_solver. Qed.
Lemma ShutdownSocket_ends o s k : 0 ≤ s → fds o !! s = Some (Connection k) → k ∈ ended (ShutdownSocket o s).
Proof.
  intros Hs E. unfold ShutdownSocket, shutdown. destruct (Z.eqb_spec s kInvalidSocket) as [->|_]; [done|]. rewrite E. cbn. set_solver.
Qed.

(** Two descriptor tables that differ in other parts' files only. *)
Definition foreign_change (o o' : Kernel) : Prop :=
  (∀ s, fds o' !! s = fds o !! s ∨ 0 ≤ s ∧ (fds o !! s = None ∨ fds o !! s = Some Foreign) ∧ (fds o' !! s = None ∨ fds o' !! s = Some Foreign)) ∧
  ended o ⊆ ended o' ∧ accepted o' = accepted o ∧ listening o' = listening o.

Lemma sock_ok_foreign o o' a c k : foreign_change o o' → sock_ok o a c k → sock_ok o' a c k.
Proof.
  intros (Hf & He & _) [Hc Hs]. split; [done|]. destruct (Hf c) as [E|(_ & E & E')].
  - rewrite E. destruct Hs as [?|(? & ? & ?)]; [by left|right; auto].
  - destruct Hs as [?|(? & ? & ?)]; [destruct E; congruence|right; auto].
Qed.
Lemma phase_foreign v o o' a : foreign_change o o' → phase_ok v o a → phase_ok v o' a.
Proof.
  intros (Hf & _ & _) [H1 H2 H3 H4 H5 H6 H7]. split; try done. intros Hr. specialize (H5 Hr).
  destruct (Hf (listen_sock_ v)) as [-> |(_ & E & _)]; [done|]. destruct E; congruence.
Qed.
Lemma inv_foreign p o : server_inv p → foreign_change (kernel p) o → server_inv (with_kernel p o).
Proof.
  intros [I1 I2 I3 I4 I5 I6 I7 I8] Hf. pose proof Hf as (Hs & He & Ha & _). split; try done.
  - by eapply phase_foreign.
  - intros s Hneg. cbn. destruct (Hs s) as [-> |(? & _)]; [by apply I2|lia].
  - intros c k Hh. cbn. by eapply sock_ok_foreign, I3.
  - cbn. by rewrite Ha.
  - intros c k Hr. destruct (I8 c k Hr) as [?|(? & [?|?])]; [by left|right; split; [done|by left]|right; split; [done|right; by apply He]].
Qed.

Lemma same_sock p c k k' : server_inv p → holds p c k → holds p c k' → k = k' ∨ past (owner p) = true ∧ k ∈ ended (kernel p) ∧
  k' ∈ ended (kernel p) ∧ (fds (kernel p) !! c = None ∨ fds (kernel p) !! c = Some Foreign).
Proof.
  intros Hi [_ H1]%(iv_sock _ Hi) [_ H2]%(iv_sock _ Hi).
  destruct H1 as [E1|(P1 & G1 & E1)], H2 as [E2|(P2 & G2 & E2)]; [left; congruence|..]; [destruct E2; congruence|destruct E1; congruence|by right].
Qed.

(** ** Stopped servers *)

Lemma stopped_holds p c k : server_inv p → owner p = Idle → running_ (server p) = false → ¬ holds p c k.
Proof.
  intros Hi Ho Hr. destruct (ph_idle _ _ _ (iv_phase _ Hi) Ho Hr) as [Ha Hc].
  intros [(t & pc & E & Hpc)|E]; [|by rewrite Ha in E].
  pose proof (iv_join _ Hi t _ E Hpc) as Ht. unfold unjoined in Ht. rewrite Ho, Hc in Ht. by apply elem_of_nil in Ht.
Qed.

Lemma Start_inv p io : server_inv p → owner p = Idle → default true (fresh_fd (kernel p) <$> Server.io_socket io) = true →
  server_inv (Server.Start p io).1.
Proof.
  intros Hi Ho Hf. unfold Server.Start. destruct (running_ (server p)) eqn:Hr; [done|].
  destruct (ph_idle _ _ _ (iv_phase _ Hi) Ho Hr) as [Ha Hc].
  assert (Hno : ∀ c k, holds p c k → False) by (intros c k; by apply (stopped_holds p c k)).
  pose proof Hi as [I1 I2 I3 I4 I5 I6 I7 I8]. pose proof I1 as [P1 P2 P3 P4 P5 P6 P7].
  destruct (Server.io_socket io) as [s|]; cbn [fmap option_fmap option_map default] in Hf.
  2: { split; try done. cbn. split; cbn; try done; try (by rewrite Ho); [by auto|]. intros [?|?]; congruence. }
  apply fresh_fd_spec in Hf as [Hs Hfr]. destruct (Server.io_bind io); cbn [negb fst].
  - split; cbn; try done.
    + split; cbn; try done; try (by rewrite Ho). intros _. apply lookup_insert_eq.
    + intros s' Hs'. rewrite lookup_insert_ne by lia. by apply I2.
    + intros c k [(t & pc & E & Hpc)|E]; [|done]. destruct (Hno c k). by left; exists t, pc.
    + unfold conns in I4 |- *. cbn. by rewrite Ha in I4.
    + unfold conns in I5 |- *. cbn. by rewrite Ha in I5.
    + intros c k [(t & pc & E & Hpc)|E]; [|done]. destruct (Hno c k). left; exists t, pc. split; [done|]. by destruct Hpc as [-> | ->].
  - assert (Hf' : ∀ x, fds (ShutdownSocket (open_fd (kernel p) s Listener) s) !! x = fds (kernel p) !! x).
    { intros x. rewrite ShutdownSocket_fds by (unfold kInvalidSocket; lia). case_bool_decide; [by subst|]. cbn. by rewrite lookup_insert_ne. }
    split; cbn; try done.
    + split; cbn; try done; try (by rewrite Ho); [by auto|]. intros [?|?]; congruence.
    + intros s' Hs'. rewrite Hf'. by apply I2.
    + intros c k Hh. destruct (Hno c k Hh).
    + rewrite ShutdownSocket_accepted. exact I5.
    + intros c k Hh%registered_holds. destruct (Hno c k Hh).
Qed.

Lemma Stop_begin_inv p : server_inv p → owner p = Idle → server_inv (Server.Stop_begin p).
Proof.
  intros Hi Ho. unfold Server.Stop_begin. destruct (running_ (server p)) eqn:Hr; [|done]. cbn [negb].
  pose proof Hi as [[P1 P2 P3 P4 P5 P6 P7] I2 I3 I4 I5 I6 I7 I8].
  assert (Hp : past (owner p) = false) by (by rewrite Ho).
  split; cbn; try done.
  - split; cbn; try done; [|by intros _; apply P5; left]. intros [? _]%P3. congruence.
  - intros c k Hh. destruct (I3 c k Hh) as [Hc Hs]. split; [done|]. destruct Hs as [?|(? & _)]; [by left|congruence].
  - intros t w E Hw. specialize (I6 t w E Hw). unfold unjoined in I6. by rewrite Ho in I6.
  - unfold unjoined in I7 |- *. rewrite Ho in I7. cbn. apply I7.
  - intros c k Hh. destruct (I8 c k Hh) as [?|(? & _)]; [by left|congruence].
Qed.

(** Closing a socket that no other thread of the server uses keeps theirs. *)
Lemma sock_ok_shutdown p s c k : server_inv p → holds p c k →
  c = s → past (owner p) = true → sock_ok (ShutdownSocket (kernel p) s) (owner p) c k.
Proof.
  intros Hi Hh -> Hp. destruct (iv_sock _ Hi s k Hh) as [Hc Hs]. split; [done|]. right. split; [done|]. split.
  - destruct Hs as [E|(_ & He & _)]; [by apply ShutdownSocket_ends|by apply ShutdownSocket_ended].
  - left. rewrite ShutdownSocket_fds by (unfold kInvalidSocket; lia). by rewrite bool_decide_eq_true_2.
Qed.
Lemma sock_ok_other o a s c k : (s = kInvalidSocket → fds o !! s = None) → c ≠ s → sock_ok o a c k → sock_ok (ShutdownSocket o s) a c k.
Proof.
  intros Hs Hne [Hc Hk]. split; [done|]. rewrite ShutdownSocket_fds by done. rewrite bool_decide_eq_false_2 by done.
  destruct Hk as [?|(? & ? & ?)]; [by left|right; split_and!; [done|by apply ShutdownSocket_ended|done]].
Qed.
Lemma sock_ok_past o a a' c k : (past a = true → past a' = true) → sock_ok o a c k → sock_ok o a' c k.
Proof. intros Hp [Hc Hk]. split; [done|]. destruct Hk as [?|(? & ? & ?)]; [by left|right; auto]. Qed.
Lemma inv_fds_shutdown p s x : server_inv p → x < 0 → fds (ShutdownSocket (kernel p) s) !! x = None.
Proof.
  intros Hi Hx. rewrite ShutdownSocket_fds; [|intros ->; by apply (iv_fds _ Hi)]. case_bool_decide; [done|by apply (iv_fds _ Hi)].
Qed.

Lemma Stop_next_inv p p' : server_inv p → Server.Stop_next p = Some p' → server_inv p'.
Proof.
  intros Hi E. pose proof Hi as [[P1 P2 P3 P4 P5 P6 P7] I2 I3 I4 I5 I6 I7 I8]. unfold Server.Stop_next in E.
  assert (Hinv : ∀ s, s = kInvalidSocket → fds (kernel p) !! s = None) by (by intros s ->; apply I2).
  unfold unjoined in I6, I7. destruct (owner p) as [| | |[|s snap]| |[|t ts]] eqn:Ho; [done|injection E as <-..| | |].
  - assert (Hl := P5 (or_intror eq_refl)). split; cbn; try done.
    + split; cbn; try done; [by intros ?%P1|intros Hn; by destruct (P3 Hn) as [_ [?|(? & ?)]]|]. intros [?%P1|?]; done.
    + intros x Hx. by apply inv_fds_shutdown.
    + intros c k Hh. specialize (I3 c k Hh). eapply sock_ok_past; [|eapply sock_ok_other; [apply Hinv| |exact I3]]; [done|].
      intros ->. destruct I3 as [_ [?|(? & _)]]; [congruence|done].
    + by rewrite ShutdownSocket_accepted.
    + intros c k Hr. destruct (I8 c k Hr) as [?|(? & _)]; [by left|done].
  - split; cbn; try done.
    + split; cbn; try done; [by intros ?%P1|intros Hn; by destruct (P3 Hn) as [_ [?|(? & ?)]]|by intros [?%P1|?]|by intros; apply P6|].
      intros _. by destruct (accept_thread_ (server p)); cbn; lia.
    + intros c k Hh. eapply sock_ok_past; [|by apply I3]. done.
    + intros c k Hr. destruct (I8 c k Hr) as [?|(? & _)]; [right; split; [done|by left]|done].
  - split; cbn; try done.
    + split; cbn; try done; [by intros ?%P1|intros Hn; by destruct (P3 Hn) as [_ [?|(? & ?)]]|by intros [?%P1|?]|by intros; apply P6].
  - split; cbn; try done.
    + split; cbn; try done; [by intros ?%P1|intros Hn; by destruct (P3 Hn) as [_ [?|(? & ?)]]|by intros [?%P1|?]|by intros; apply P6].
    + intros x Hx. by apply inv_fds_shutdown.
    + intros c k Hh. destruct (decide (c = s)) as [Hc|Hc].
      * eapply sock_ok_past; [|apply (sock_ok_shutdown p s c k Hi Hh Hc); by rewrite Ho]. done.
      * eapply sock_ok_past; [|eapply sock_ok_other; [apply Hinv|exact Hc|by apply I3]]. done.
    + by rewrite ShutdownSocket_accepted.
    + intros c k Hr. destruct (I8 c k Hr) as [?|(? & [Hn|?])]; [by left| |right; split; [done|right; by apply ShutdownSocket_ended]].
      right. split; [done|]. apply elem_of_cons in Hn as [-> |?]; [right|by left].
      apply registered_holds in Hr. destruct (I3 s k Hr) as [? [?|(_ & ? & _)]]; [by apply ShutdownSocket_ends|by apply ShutdownSocket_ended].
  - destruct (accept_thread_ (server p)) eqn:Ha; try done. injection E as <-. split; cbn; try done.
    + split; cbn; try done; [by intros ?%P1| |by intros [?%P1|?]|by intros; apply P6].
      intros _. split; [|by eauto]. destruct (running_ (server p)) eqn:Hr; [|done]. by specialize (P1 eq_refl).
    + intros c k [Hh|Hh]; [|done]. eapply sock_ok_past; [|by apply I3; left]. done.
    + unfold conns in I4 |- *. by rewrite Ha in I4.
    + unfold conns in I5 |- *. by rewrite Ha in I5.
    + intros c k [Hr|Hr]; [|done]. by apply I8; left.
  - injection E as <-. assert (Hno : ∀ c k, holds p c k → False).
    { intros c k [(t & pc & Et & Hpc)|Hh]; [|by rewrite (P4 [] eq_refl) in Hh]. specialize (I6 t _ Et Hpc). by apply elem_of_nil in I6. }
    split; cbn; try done.
    + split; cbn; try done; [intros _ _; by rewrite (P4 [] eq_refl)|intros Hn; split; [by apply P3|by left]| |by intros; apply P6].
      intros [?%P1|?]; done.
    + intros c k Hh. destruct (Hno c k Hh).
    + intros c k Hh%registered_holds. destruct (Hno c k Hh).
  - destruct (workers p !! t) as [w|] eqn:Ew; [|done]. case_bool_decide as Hw; [|done]. injection E as <-. split; cbn; try done.
    + split; cbn; try done; [by intros ?%P1|intros Hn; split; [by apply P3|by eauto]|intros ts' _; by eapply P4|by intros [?%P1|?]|by intros; apply P6].
    + intros t' w' Et Hw'. specialize (I6 t' w' Et Hw'). apply elem_of_cons in I6 as [-> |?]; [congruence|done].
    + unfold unjoined. cbn. destruct I7 as [[_ ?]%Forall_cons ?]. done.
Qed.

(** ** The accepting thread *)

Lemma accept_returns_inv p r p' : server_inv p → Server.accept_returns p r = Some p' → server_inv p'.
Proof.
  intros Hi E. pose proof Hi as [[P1 P2 P3 P4 P5 P6 P7] I2 I3 I4 I5 I6 I7 I8]. unfold Server.accept_returns in E.
  destruct (accept_thread_ (server p)) eqn:Ha; try done. unfold conns in I4, I5. rewrite Ha in I4, I5. destruct r as [c|].
  - destruct (fresh_fd _ _) eqn:Hf; cbn [andb] in E; [|done]. case_bool_decide as Hl; [|done]. injection E as <-.
    apply fresh_fd_spec in Hf as [Hc Hf].
    assert (Hp : past (owner p) = false).
    { destruct (past (owner p)) eqn:Hp; [|done]. rewrite P6 in Hl; [by rewrite I2 in Hl| |].
      - destruct (running_ _) eqn:Hr; [|done]. by rewrite (P1 eq_refl) in Hp.
      - intros Ho. by rewrite Ho in Hp. }
    split; cbn; try done.
    + split; cbn; try done; [|by intros ts ?%P4|by intros _; rewrite lookup_insert_ne by congruence].
      intros Ho Hr. by destruct (P2 Ho Hr).
    + intros s Hs. rewrite lookup_insert_ne by lia. by apply I2.
    + intros c' k [Hh|[= <- <-]].
      * destruct (I3 c' k (or_introl Hh)) as [? Hk]. split; [done|]. cbn.
        destruct Hk as [Hk|(? & _)]; [left; by rewrite lookup_insert_ne by congruence|congruence].
      * split; [done|]. left. apply lookup_insert_eq.
    + unfold conns. cbn. rewrite app_nil_r in I4, I5. apply NoDup_app. split; [done|]. split; [|apply NoDup_singleton].
      intros k Hk ->%list_elem_of_singleton. rewrite Forall_forall in I5. specialize (I5 _ Hk). lia.
    + unfold conns. cbn. rewrite app_nil_r in I5. apply Forall_app. split; [|apply Forall_singleton; lia].
      eapply Forall_impl; [exact I5|]. cbn. lia.
    + intros c' k [Hr|Hr]; [|done]. by apply I8; left.
  - injection E as <-. split; cbn; try done.
    + split; cbn; try done; [|by intros ts ?%P4]. intros Ho Hr. by destruct (P2 Ho Hr).
    + intros c k [Hh|Hh]; [|done]. by apply I3; left.
    + intros c k [Hr|Hr]; [|done]. by apply I8; left.
Qed.

Lemma AcceptLoop_next_inv p p' : server_inv p → Server.AcceptLoop_next p = Some p' → server_inv p'.
Proof.
  intros Hi E. pose proof Hi as [[P1 P2 P3 P4 P5 P6 P7] I2 I3 I4 I5 I6 I7 I8]. unfold Server.AcceptLoop_next in E.
  unfold conns in I4, I5. destruct (accept_thread_ (server p)) as [| | |c k|c k|c k|] eqn:Ha; try done; injection E as <-; cbn in I4, I5.
  - assert (Hph : ∀ a, hand a = None → late a = 0%nat → a ≠ NoThread → (∀ c k, a ≠ Spawn c k) →
      server_inv (with_server p (set_accept (server p) a))).
    { intros a Hh Hl Hn Hs. split; cbn; try done.
      - split; cbn; try done; [intros Ho Hr; by destruct (P2 Ho Hr)|by intros ts ?%P4|by rewrite Hl].
      - intros c k [H1|H1]; [by apply I3; left|cbn in H1; congruence].
      - unfold conns. cbn. by rewrite Hh.
      - unfold conns. cbn. by rewrite Hh.
      - intros c k [H1|H1]; [by apply I8; left|by apply Hs in H1]. }
    by destruct (running_ (server p)); apply Hph.
  - destruct (running_ (server p)) eqn:Hr; cbn [negb]; split; cbn; rewrite ?Hr; try done.
    + split; cbn; rewrite ?Hr; try done; [by intros ts ?%P4|]. intros Hp. by rewrite (P1 eq_refl) in Hp.
    + intros c' k' [H1|H1]; [by apply I3; left|by apply I3; right; rewrite Ha].
    + intros c' k' [H1|H1]; [by apply I8; left|done].
    + split; cbn; rewrite ?Hr; try done; [|by intros ts ?%P4]. intros Ho _. by destruct (P2 Ho eq_refl).
    + intros c' k' [H1|H1]; [by apply I3; left|done].
    + unfold conns. cbn. rewrite app_nil_r. by apply NoDup_app in I4 as [? _].
    + unfold conns. cbn. rewrite app_nil_r. by apply Forall_app in I5 as [? _].
    + intros c' k' [H1|H1]; [by apply I8; left|done].
  - split; cbn; try done.
    + split; cbn; try done; [intros Ho Hr; by destruct (P2 Ho Hr)|by intros ts ?%P4|].
      intros Hp. specialize (P7 Hp). rewrite length_app. cbn in *. lia.
    + intros c' k' [H1|H1]; [by apply I3; left|by apply I3; right; rewrite Ha].
    + intros c' k' [H1|[= <- <-]]; [|left; set_solver].
      destruct (I8 c' k' (or_introl H1)) as [?|?]; [left; set_solver|by right].
  - assert (Hu : unjoined p = conn_threads_ (server p)).
    { unfold unjoined. destruct (owner p) eqn:Ho; try done. by specialize (P4 _ eq_refl). }
    assert (Hu' : ∀ q, owner q = owner p → conn_threads_ (server q) = conn_threads_ (server p) ++ [length (workers p)] →
      unjoined q = conn_threads_ (server p) ++ [length (workers p)]).
    { intros q Eo Ec. unfold unjoined. rewrite Eo. destruct (owner p) eqn:Ho; try done. by specialize (P4 _ eq_refl). }
    rewrite Hu in I6, I7. split; cbn; try done.
    + split; cbn; try done; [intros Ho Hr; by destruct (P2 Ho Hr)|by intros ts ?%P4].
    + intros c' k' [(t & pc & [Et|[_ Et]]%lookup_app_Some & Hpc)|H1]; [by apply I3; left; eauto| |done].
      apply list_lookup_singleton_Some in Et as [_ [= <- <- <-]]. apply I3. right. by rewrite Ha.
    + unfold conns. cbn. by rewrite fmap_app, app_nil_r.
    + unfold conns. cbn. by rewrite fmap_app, app_nil_r.
    + intros t w Et Hw. rewrite Hu' by done. apply lookup_app_Some in Et as [Et|[Hlt Et]]; [apply elem_of_app; left; by eapply I6|].
      apply list_lookup_singleton_Some in Et as [Et _]. apply elem_of_app. right. apply list_elem_of_singleton. lia.
    + rewrite Hu' by done. rewrite length_app. cbn. split; (apply Forall_app; split; [|apply Forall_singleton; lia]);
        (eapply Forall_impl; [apply I7|]; cbn; lia).
    + intros c' k' [(t & pc & [Et|[_ Et]]%lookup_app_Some & Hpc)|H1]; [by apply I8; left; eauto| |done].
      apply list_lookup_singleton_Some in Et as [_ [= <- <- <-]]. apply I8. by right.
Qed.

(** ** The threads of connections *)

Lemma conns_update p t w v o pc a : workers p !! t = Some w → accept_thread_ v = accept_thread_ (server p) →
  conns (MkProcess v o (<[t := MkWorker (w_sock w) (w_conn w) pc]> (workers p)) a) = conns p.
Proof.
  intros Et Ea. unfold conns. cbn [workers server]. rewrite Ea, list_fmap_insert. cbn. rewrite list_insert_id; [done|].
  by rewrite list_lookup_fmap, Et.
Qed.
(** No two threads have the same connection. *)
Lemma other_conn p t w c k : server_inv p → workers p !! t = Some w →
  (∃ t' pc', t ≠ t' ∧ workers p !! t' = Some (MkWorker c k pc')) ∨ hand (accept_thread_ (server p)) = Some (c, k) → k ≠ w_conn w.
Proof.
  intros Hi Et Ho ->. pose proof (iv_nodup _ Hi) as Hnd. unfold conns in Hnd. destruct Ho as [(t' & pc' & Ht & E)|E].
  - apply NoDup_app in Hnd as [Hnd _]. rewrite NoDup_alt in Hnd. apply Ht, (Hnd t t' (w_conn w)); by rewrite list_lookup_fmap, ?Et, ?E.
  - rewrite E in Hnd. apply NoDup_app in Hnd as (_ & Hnd & _). apply (Hnd (w_conn w)); [|by apply list_elem_of_singleton].
    apply list_elem_of_fmap. exists w. split; [done|]. by eapply list_elem_of_lookup_2.
Qed.
Lemma holds_update p t w v o pc c k : server_inv p → workers p !! t = Some w → w_pc w ≠ Finished → accept_thread_ v = accept_thread_ (server p) →
  holds (MkProcess v o (<[t := MkWorker (w_sock w) (w_conn w) pc]> (workers p)) (owner p)) c k →
  holds p c k ∧ (pc = Finished → k ≠ w_conn w).
Proof.
  intros Hi Et Hw Ea [(t' & pc' & E & Hpc)|E]; cbn in E.
  - apply list_lookup_insert_Some in E as [(<- & [= <- <- <-] & _)|[Ht E]]; [split; [left; exists t, (w_pc w); by destruct w|done]|].
    split; [left; by exists t', pc'|]. intros _. eapply (other_conn p t w c k Hi Et). left. by exists t', pc'.
  - rewrite Ea in E. split; [by right|]. intros _. apply (other_conn p t w c k Hi Et). by right.
Qed.
Lemma registered_update p t w v o pc c k : server_inv p → workers p !! t = Some w →
  accept_thread_ v = accept_thread_ (server p) → (pc = Leaving → w_pc w = Serving) → pc ≠ Serving →
  registered (MkProcess v o (<[t := MkWorker (w_sock w) (w_conn w) pc]> (workers p)) (owner p)) c k →
  registered p c k ∧ (pc ≠ Leaving → k ≠ w_conn w).
Proof.
  intros Hi Et Ea Hl Hs [(t' & pc' & E & Hpc)|E]; cbn in E.
  - apply list_lookup_insert_Some in E as [(<- & [= <- <- <-] & _)|[Ht E]].
    + destruct Hpc as [?|Hpc]; [done|]. split; [|done]. left. exists t, (w_pc w). split; [by destruct w|]. left. by apply Hl.
    + split; [left; by exists t', pc'|]. intros _. apply (other_conn p t w c k Hi Et). left. by exists t', pc'.
  - rewrite Ea in E. split; [by right|]. intros _. apply (other_conn p t w c k Hi Et). right. by rewrite E.
Qed.

Lemma worker_inv p t w v o pc : server_inv p → workers p !! t = Some w → w_pc w ≠ Finished →
  accept_thread_ v = accept_thread_ (server p) → conn_threads_ v = conn_threads_ (server p) → accepted o = accepted (kernel p) →
  phase_ok v o (owner p) → (∀ s, s < 0 → fds o !! s = None) →
  let p' := MkProcess v o (<[t := MkWorker (w_sock w) (w_conn w) pc]> (workers p)) (owner p) in
  (∀ c k, holds p' c k → sock_ok o (owner p) c k) →
  (∀ c k, registered p' c k → c ∈ client_sockets_ v ∨ past (owner p) = true ∧ (c ∈ snapshot (owner p) ∨ k ∈ ended o)) →
  server_inv p'.
Proof.
  intros Hi Et Hw Ea Ec Eo Hph Hneg p' Hs Hr. pose proof Hi as [_ _ _ I4 I5 I6 I7 _].
  assert (unjoined p' = unjoined p) as Hu by (unfold unjoined, p'; cbn; by rewrite Ec).
  assert (conns p' = conns p) as Hc by (by apply conns_update).
  split; [exact Hph|exact Hneg|exact Hs|by rewrite Hc| | | |exact Hr].
  - rewrite Hc. cbn. by rewrite Eo.
  - rewrite Hu. intros t' w' [(<- & _ & _)|[_ E]]%list_lookup_insert_Some Hw'; [by eapply I6|by eapply I6].
  - rewrite Hu. cbn. by rewrite length_insert, Ec.
Qed.

Lemma worker_next_inv p t p' : server_inv p → Server.worker_next p t = Some p' → server_inv p'.
Proof.
  intros Hi E. pose proof Hi as [I1 I2 I3 I4 I5 I6 I7 I8]. unfold Server.worker_next in E.
  destruct (workers p !! t) as [w|] eqn:Et; [|done]. cbn in E.
  assert (Hself : w_pc w ≠ Finished → holds p (w_sock w) (w_conn w)) by (intros Hw; left; exists t, (w_pc w); by destruct w).
  destruct (w_pc w) eqn:Ew; [case_bool_decide; [|done]| | |done]; injection E as <-.
  - apply worker_inv; try done; [by rewrite Ew| |].
    + intros c k Hh. apply I3. by eapply holds_update in Hh as [? _]; [..|rewrite Ew|].
    + intros c k Hr. apply I8. by eapply registered_update in Hr as [? _].
  - apply worker_inv; try done; [by rewrite Ew| | |].
    + destruct I1 as [P1 P2 P3 P4 P5 P6 P7]. split; cbn; try done. intros Hp. specialize (P7 Hp).
      pose proof (length_filter (λ c, c ≠ w_sock w) (client_sockets_ (server p))). lia.
    + intros c k Hh. apply I3. by eapply holds_update in Hh as [? _]; [..|rewrite Ew|].
    + intros c k Hr. eapply registered_update in Hr as [Hr Hk]; [|done..]. specialize (Hk ltac:(done)).
      destruct (I8 c k Hr) as [Hc|Hc]; [|by right]. destruct (decide (c = w_sock w)) as [-> |Hne].
      * destruct (same_sock p (w_sock w) k (w_conn w) Hi (registered_holds _ _ _ Hr) (Hself ltac:(done))) as [?|(? & ? & _)]; [done|].
        right. split; [done|by right].
      * left. cbn. apply list_elem_of_filter. done.
  - assert (Hneg : w_sock w = kInvalidSocket → fds (kernel p) !! w_sock w = None) by (intros ->; by apply I2).
    apply worker_inv; try done; [by rewrite Ew|by rewrite ShutdownSocket_accepted| | | |].
    + destruct I1 as [P1 P2 P3 P4 P5 P6 P7]. split; cbn; try done. intros Hl. specialize (P5 Hl).
      rewrite ShutdownSocket_fds by done. rewrite bool_decide_eq_false_2; [done|]. intros El. rewrite El in P5.
      destruct (I3 _ _ (Hself ltac:(done))) as [_ [?|(_ & _ & [?|?])]]; congruence.
    + intros s Hs. by apply inv_fds_shutdown.
    + intros c k Hh. eapply holds_update in Hh as [Hh Hk]; [|done|done|by rewrite Ew|done]. specialize (Hk eq_refl).
      destruct (decide (c = w_sock w)) as [-> |Hne]; [|by apply sock_ok_other, I3].
      destruct (same_sock p (w_sock w) k (w_conn w) Hi Hh (Hself ltac:(done))) as [?|(? & _)]; [done|]. by apply sock_ok_shutdown.
    + intros c k Hr. eapply registered_update in Hr as [Hr _]; [|done..].
      destruct (I8 c k Hr) as [?|(? & [?|?])]; [by left|right; auto|right; split; [done|right; by apply ShutdownSocket_ended]].
Qed.

Lemma run_server_inv p ev p' : server_inv p → run_server p ev = Some p' → server_inv p'.
Proof.
  intros Hi E. destruct ev; cbn [run_server] in E.
  - destruct (owner p) eqn:Ho; try done. destruct (default _ _) eqn:Hf; [|done]. injection E as <-. by apply Start_inv.
  - destruct (owner p) eqn:Ho; try done. injection E as <-. by apply Stop_begin_inv.
  - by eapply Stop_next_inv.
  - by eapply accept_returns_inv.
  - by eapply AcceptLoop_next_inv.
  - by eapply worker_next_inv.
  - case_bool_decide; [|done]. injection E as <-. apply inv_foreign; [done|]. split_and!; cbn; [by left|set_solver|done|done].
  - destruct (fresh_fd _ _) eqn:Hf; [|done]. injection E as <-. apply fresh_fd_spec in Hf as [Hs Hf]. apply inv_foreign; [done|].
    split_and!; cbn; [|done..]. intros x. destruct (decide (x = s)) as [->|]; [right; rewrite lookup_insert_eq; auto|left; by rewrite lookup_insert_ne].
  - case_bool_decide as Hf; [|done]. injection E as <-. apply inv_foreign; [done|]. split_and!; cbn; [|done..].
    intros x. destruct (decide (x = s)) as [->|]; [right; rewrite lookup_delete_eq|left; by rewrite lookup_delete_ne].
    split_and!; auto. destruct (Z_lt_le_dec s 0); [|done]. by rewrite (iv_fds _ Hi) in Hf.
Qed.

(** *** The listening socket *)

(** Once [Stop] has closed it, it is down. *)
Definition down_inv (p : Process) : Prop := past (owner p) = true ∨ owner p = StopSnapshot → listening (kernel p) = false.

Lemma ShutdownSocket_down o s : listening o = false → listening (ShutdownSocket o s) = false.
Proof. intros E. unfold ShutdownSocket, shutdown. destruct (_ =? _); [done|]. by destruct (fds o !! s) as [[]|]. Qed.
Lemma ShutdownSocket_listener o s : 0 ≤ s → fds o !! s = Some Listener → listening (ShutdownSocket o s) = false.
Proof. intros Hs E. unfold ShutdownSocket, shutdown. destruct (Z.eqb_spec s kInvalidSocket) as [->|_]; [done|]. by rewrite E. Qed.
Lemma run_server_down p ev p' : server_inv p → down_inv p → run_server p ev = Some p' → down_inv p'.
Proof.
  unfold down_inv. intros Hi Hd E. destruct ev; cbn [run_server] in E.
  - destruct (owner p) eqn:Ho; try done. destruct (default _ _); [|done]. injection E as <-. unfold Server.Start.
    destruct (running_ _); [cbn; rewrite Ho; by intros [?|?]|]. destruct (Server.io_socket io); [destruct (negb _)|]; cbn; rewrite Ho; by intros [?|?].
  - destruct (owner p) eqn:Ho; try done. injection E as <-. unfold Server.Stop_begin. destruct (negb _); [rewrite Ho|]; by intros [?|?].
  - unfold Server.Stop_next in E. destruct (owner p) as [| | |[|s snap]| |[|t ts]] eqn:Ho; try done; try (injection E as <-; cbn; intros _; auto; done).
    + injection E as <-. cbn. intros _. pose proof (ph_listen _ _ _ (iv_phase _ Hi) (or_intror Ho)) as El. apply ShutdownSocket_listener; [|done].
      destruct (Z_lt_le_dec (listen_sock_ (server p)) 0); [|done]. by rewrite (iv_fds _ Hi) in El.
    + injection E as <-. cbn. intros _. apply ShutdownSocket_down. auto.
    + destruct (accept_thread_ _); try done. injection E as <-. cbn. auto.
    + destruct (workers p !! t); [|done]. case_bool_decide; [|done]. injection E as <-. cbn. auto.
  - unfold Server.accept_returns in E. destruct (accept_thread_ _), r; try done; [|by injection E as <-]. destruct (_ && _); [|done]. by injection E as <-.
  - unfold Server.AcceptLoop_next in E. destruct (accept_thread_ _); try done; by injection E as <-.
  - unfold Server.worker_next in E. destruct (workers p !! t) as [w|]; [|done]. cbn in E. destruct (w_pc w); [case_bool_decide; [|done]| | |done]; injection E as <-; cbn; try done.
    intros H. apply ShutdownSocket_down. auto.
  - case_bool_decide; [|done]. by injection E as <-.
  - destruct (fresh_fd _ _); [|done]. by injection E as <-.
  - case_bool_decide; [|done]. by injection E as <-.
Qed.

Lemma reachable_inv p : reachable p → server_inv p ∧ down_inv p.
Proof.
  intros (port & files & Hf & Hrun).
  assert (server_inv (process_init port files)) as Hi.
  { split; cbn; try done.
    - split; cbn; try done; [by auto|by intros [?|?]].
    - intros s Hs. apply lookup_gset_to_gmap_None. intros Hin. specialize (Hf s Hin). cbn in Hf. lia.
    - intros c k [(t & pc & E & _)|E]; done.
    - by apply NoDup_nil.
    - intros c k [(t & pc & E & _)|E]; done. }
  assert (down_inv (process_init port files)) as Hd by (by intros [?|?]).
  induction Hrun as [p|p q r [ev E] _ IH]; [done|]. apply IH; [by eapply run_server_inv|by eapply run_server_down].
Qed.

(** ** Properties *)

(** While the server runs, every session reads and writes its own connection: the
    socket of a thread that has not ended is open and is the connection it was made for,
    so two such threads have different sockets. *)
Theorem sessions_own_sockets p t t' w w' : reachable p → running_ (server p) = true →
  workers p !! t = Some w → w_pc w ≠ Finished → workers p !! t' = Some w' → w_pc w' ≠ Finished →
  fds (kernel p) !! w_sock w = Some (Connection (w_conn w)) ∧ (w_sock w = w_sock w' → t = t').
Proof.
  intros [Hi _]%reachable_inv Hr Et Hw Et' Hw'. pose proof (ph_running _ _ _ (iv_phase _ Hi) Hr) as Ho.
  assert (Hopen : ∀ t w, workers p !! t = Some w → w_pc w ≠ Finished → fds (kernel p) !! w_sock w = Some (Connection (w_conn w))).
  { intros i [c k pc] Ei Hpc. destruct (iv_sock _ Hi c k) as [_ [?|(Hp & _)]]; [left; by exists i, pc|done|]. by rewrite Ho in Hp. }
  split; [by eapply Hopen|]. intros Es. destruct (decide (t = t')) as [|Ht]; [done|]. exfalso.
  apply (other_conn p t w (w_sock w') (w_conn w') Hi Et); [left; exists t', (w_pc w'); by destruct w'|].
  pose proof (Hopen _ _ Et Hw) as E. rewrite Es, (Hopen _ _ Et' Hw') in E. by injection E.
Qed.

Lemma stop_progress p : server_inv p → down_inv p → owner p ≠ Idle → (∃ ev p', own_event p ev = true ∧ run_server p ev = Some p') ∨
  ∃ t w ts, owner p = StopConns (t :: ts) ∧ workers p !! t = Some w ∧ w_pc w = Serving ∧ w_conn w ∉ ended (kernel p).
Proof.
  intros Hi Hd Ho. destruct (Server.Stop_next p) as [p'|] eqn:E; [left; by exists EvStopNext, p'|]. pose proof (iv_phase _ Hi) as Hph.
  unfold Server.Stop_next in E. destruct (owner p) as [| | |[|s snap]| |[|t ts]] eqn:Eo; try done.
  - left. destruct (accept_thread_ (server p)) as [| | |c k|c k|c k|] eqn:Ea; try done.
    + by destruct (ph_thread _ _ _ Hph Ea) as [_ [?|(? & ?)]].
    + exists EvAcceptNext. eexists. split; [done|]. cbn. unfold Server.AcceptLoop_next. by rewrite Ea.
    + exists (EvAcceptReturns None). eexists. split; [cbn; rewrite Hd; [done|left; by rewrite Eo]|]. cbn. unfold Server.accept_returns. by rewrite Ea.
    + exists EvAcceptNext. eexists. split; [done|]. cbn. unfold Server.AcceptLoop_next. by rewrite Ea.
    + exists EvAcceptNext. eexists. split; [done|]. cbn. unfold Server.AcceptLoop_next. by rewrite Ea.
    + exists EvAcceptNext. eexists. split; [done|]. cbn. unfold Server.AcceptLoop_next. by rewrite Ea.
  - destruct (iv_ids _ Hi) as [Hlt _]. unfold unjoined in Hlt. rewrite Eo in Hlt. apply Forall_cons in Hlt as [Hlt _].
    destruct (lookup_lt_is_Some_2 _ _ Hlt) as [w Et]. rewrite Et in E. case_bool_decide as Hw; [done|].
    destruct (Server.worker_next p t) as [p'|] eqn:En; [left; by exists (EvWorker t), p'|]. right. exists t, w, ts.
    unfold Server.worker_next in En. rewrite Et in En. cbn in En. destruct (w_pc w); try done. by case_bool_decide.
Qed.

Lemma stopped_server p : server_inv p → owner p = Idle → running_ (server p) = false →
  accept_thread_ (server p) = NoThread ∧ Forall (λ w, w_pc w = Finished) (workers p) ∧
  conn_threads_ (server p) = [] ∧ listen_sock_ (server p) = kInvalidSocket.
Proof.
  intros Hi Ho Hr. pose proof (iv_phase _ Hi) as Hph. destruct (ph_idle _ _ _ Hph Ho Hr) as [Ha Hc].
  split_and!; try done; [|by apply (ph_closed _ _ _ Hph Hr); rewrite Ho].
  apply Forall_forall. intros w [t Et]%list_elem_of_lookup. destruct (decide (w_pc w = Finished)) as [|Hw]; [done|].
  pose proof (iv_join _ Hi t w Et Hw) as Ht. unfold unjoined in Ht. rewrite Ho, Hc in Ht. by apply elem_of_nil in Ht.
Qed.

(** C21. Stopping the listener. Whatever clients, sessions and other parts of the
    process do meanwhile: once [Stop] has shut down the clients it knew, every session
    still being served has its connection ended, or its socket was put into
    [client_sockets_] after [Stop] took that list, and there is at most one such socket;
    while [Stop] has not returned, some thread of the server can take a step by itself (a
    return of [accept] counts only when the listening socket has been shut down), unless
    [Stop] waits for that one late client; and when [Stop] has returned, the accepting
    thread and all session threads have ended, none is left to join and the server no
    longer listens. *)
Theorem stop_ends_sessions (p : Process) : reachable p →
  (owner p = StopAccept ∨ (∃ ts, owner p = StopConns ts) →
    (length (client_sockets_ (server p)) ≤ 1)%nat ∧
    ∀ t w, workers p !! t = Some w → w_pc w = Serving →
      w_conn w ∈ ended (kernel p) ∨ client_sockets_ (server p) = [w_sock w]) ∧
  (owner p ≠ Idle →
    (∃ ev p', own_event p ev = true ∧ run_server p ev = Some p') ∨
    ∃ t w ts, owner p = StopConns (t :: ts) ∧ workers p !! t = Some w ∧ w_pc w = Serving ∧
      (w_conn w ∉ ended (kernel p)) ∧ client_sockets_ (server p) = [w_sock w]) ∧
  (owner p = Idle → running_ (server p) = false →
    accept_thread_ (server p) = NoThread ∧ Forall (λ w, w_pc w = Finished) (workers p) ∧
    conn_threads_ (server p) = [] ∧ listen_sock_ (server p) = kInvalidSocket).
Proof.
  intros [Hi Hd]%reachable_inv. pose proof (iv_phase _ Hi) as Hph.
  assert (Hlate : owner p = StopAccept ∨ (∃ ts, owner p = StopConns ts) → (length (client_sockets_ (server p)) ≤ 1)%nat ∧
    ∀ t w, workers p !! t = Some w → w_pc w = Serving → w_conn w ∈ ended (kernel p) ∨ client_sockets_ (server p) = [w_sock w]).
  { intros Ho. assert (past (owner p) = true ∧ snapshot (owner p) = []) as [Hp Hs] by (by destruct Ho as [-> |[? ->]]).
    pose proof (ph_late _ _ _ Hph Hp) as Hl. split; [lia|]. intros t w Et Hw.
    destruct (iv_clients _ Hi (w_sock w) (w_conn w)) as [Hin|(_ & [Hin|?])]; [| |by rewrite Hs in Hin; apply elem_of_nil in Hin|by left].
    - left. exists t, Serving. split; [|by left]. rewrite Et. f_equal. destruct w. cbn in *. by subst.
    - right. destruct (client_sockets_ (server p)) as [|c [|c' cs]]; [by apply elem_of_nil in Hin| |cbn in Hl; lia].
      by apply list_elem_of_singleton in Hin as <-. }
  split; [exact Hlate|]. split.
  - intros Ho. destruct (stop_progress p Hi Hd Ho) as [?|(t & w & ts & Eo & Et & Hw & He)]; [by left|right].
    exists t, w, ts. split_and!; try done. destruct (Hlate (or_intror (ex_intro _ _ Eo))) as [_ Hl]. by destruct (Hl t w Et Hw).
  - intros Ho Hr. by apply stopped_server.
Qed.

(** ** Concrete runs *)

(** The server listens on descriptor 5 and accepts a client as descriptor 6. *)
Definition demo_process : Process := process_init 5432 {[0; 1; 2]}.
Definition demo_start : ServerEvent := EvStart (Server.MkStartIO (Some 5) true (Some 5432)).
Definition demo_accept : list ServerEvent := [EvAcceptNext; EvAcceptReturns (Some 6); EvAcceptNext].
Definition demo_serve : list ServerEvent := demo_start :: demo_accept ++ [EvAcceptNext; EvAcceptNext; EvAcceptNext].
Definition demo_worker : list ServerEvent := [EvWorker 0; EvWorker 0; EvWorker 0].
Definition demo_run (evs : list ServerEvent) : Process := default demo_process (run_servers demo_process evs).
Definition demo_run_ok (evs : list ServerEvent) : bool :=
  match run_servers demo_process evs with Some _ => true | None => false end.

Lemma demo_reachable evs : demo_run_ok evs = true → reachable (demo_run evs).
Proof.
  unfold demo_run_ok, demo_run. intros E. exists 5432, {[0; 1; 2]}. split; [intros s Hs; set_solver by lia|].
  apply (run_servers_sound demo_process evs). by destruct (run_servers demo_process evs).
Qed.

(** [Stop] with one client: it takes the list, shuts the client down, and waits until
    both threads have ended. *)
Definition demo_stop : list ServerEvent :=
  demo_serve ++ [EvStop; EvStopNext; EvStopNext; EvStopNext; EvStopNext; EvAcceptReturns None; EvStopNext] ++
  demo_worker ++ [EvStopNext; EvStopNext].

Lemma stop_ends_sessions_witness :
  let p := demo_run demo_stop in
  running_ (server p) = false ∧ length (workers p) = 1%nat ∧ Forall (λ w, w_pc w = Finished) (workers p).
Proof.
  intros p. split; [vm_compute; reflexivity|]. split; [vm_compute; reflexivity|].
  assert (demo_run_ok demo_stop = true) as Hok by (vm_compute; reflexivity).
  destruct (proj2 (proj2 (stop_ends_sessions p (demo_reachable demo_stop Hok)))) as (_ & HF & _);
    [vm_compute; reflexivity|vm_compute; reflexivity|exact HF].
Defined.

Lemma sessions_own_sockets_witness :
  fds (kernel (demo_run demo_serve)) !! 6 = Some (Connection 0).
Proof.
  assert (demo_run_ok demo_serve = true) as Hok by (vm_compute; reflexivity).
  refine (proj1 (sessions_own_sockets (demo_run demo_serve) 0 0 (MkWorker 6 0 Serving) (MkWorker 6 0 Serving)
    (demo_reachable demo_serve Hok) _ _ _ _ _)); vm_compute; first [reflexivity|discriminate].
Defined.

(** A client that was accepted before [Stop] and registered after [Stop] took the list
    of clients is never shut down: [Stop] waits for its session, and no thread of the
    server can take a step until the client leaves. *)
Definition demo_late : list ServerEvent :=
  demo_start :: demo_accept ++ [EvStop; EvStopNext; EvStopNext; EvStopNext; EvAcceptNext; EvAcceptNext; EvAcceptNext; EvStopNext].

Theorem stop_waits_for_late_client :
  let p := demo_run demo_late in
  reachable p ∧ owner p = StopConns [0%nat] ∧ client_sockets_ (server p) = [6] ∧
  ∀ ev, own_event p ev = true → run_server p ev = None.
Proof.
  intros p. assert (demo_run_ok demo_late = true) as Hok by (vm_compute; reflexivity).
  split; [exact (demo_reachable demo_late Hok)|]. split; [vm_compute; reflexivity|]. split; [vm_compute; reflexivity|].
  intros ev Hev. destruct ev as [io| | |[c|]| |[|t]| | |]; try discriminate Hev; vm_compute; reflexivity.
Qed.

(** [Stop] closes the sockets of the clients, and each session closes its socket again
    when it ends. A file that another part of the process opened in between, under the
    same descriptor, is closed. *)
Definition demo_reuse : list ServerEvent :=
  demo_serve ++ [EvStop; EvStopNext; EvStopNext; EvStopNext; EvOpen 6].

Theorem stop_closes_foreign_file :
  reachable (demo_run (demo_reuse ++ demo_worker)) ∧
  fds (kernel (demo_run demo_reuse)) !! 6 = Some Foreign ∧
  fds (kernel (demo_run (demo_reuse ++ demo_worker))) !! 6 = None.
Proof.
  assert (demo_run_ok (demo_reuse ++ demo_worker) = true) as Hok by (vm_compute; reflexivity).
  split; [exact (demo_reachable _ Hok)|]. split; vm_compute; reflexivity.
Qed.

(** A connection that [accept] returns after [Stop] has begun is dropped without being
    closed: the socket is still open when [Stop] has returned. *)
Definition demo_dropped : list ServerEvent :=
  [demo_start; EvAcceptNext; EvAcceptReturns (Some 6); EvStop; EvAcceptNext; EvStopNext; EvStopNext; EvStopNext; EvStopNext; EvStopNext].

Theorem stop_leaks_socket :
  let p := demo_run demo_dropped in
  reachable p ∧ owner p = Idle ∧ running_ (server p) = false ∧ workers p = [] ∧ fds (kernel p) !! 6 = Some (Connection 0).
Proof.
  intros p. assert (demo_run_ok demo_dropped = true) as Hok by (vm_compute; reflexivity).
  split; [exact (demo_reachable demo_dropped Hok)|]. split_and!; vm_compute; reflexivity.
Qed.

(** One failure of [accept] ends the accepting thread while the server still counts as
    started: it takes no more clients and [Start] refuses to start it again. *)
Theorem accept_error_final (io : Server.StartIO) :
  let p := demo_run [demo_start; EvAcceptNext; EvAcceptReturns None] in
  reachable p ∧ running_ (server p) = true ∧ accept_thread_ (server p) = AcceptDone ∧
  Server.Start p io = (p, St.Error InvalidArgument "already started").
Proof.
  intros p. assert (demo_run_ok [demo_start; EvAcceptNext; EvAcceptReturns None] = true) as Hok by (vm_compute; reflexivity).
  split; [exact (demo_reachable _ Hok)|]. split_and!; vm_compute; reflexivity.
Qed.
