(* ===== verification/Rounding.v ===== *)
(** * Rounding of products

    What multiplying two doubles gives, as integers: the exact product of the significands
    rounded to 53 bits. From this, how a fraction of a count is computed. *)
From Stdlib Require Import Strings.Byte.
From stdpp Require Import base list.
From Stdlib Require Import ZArith Lia Floats.SpecFloat.
From S2P Require Import Prelude Text.
Local Open Scope Z_scope.

(** ** Digits *)

Lemma digits2_pos_bounds m : 2 ^ (Z.pos (digits2_pos m) - 1) ≤ Z.pos m < 2 ^ Z.pos (digits2_pos m).
Proof.
  induction m as [m IH|m IH|]; cbn [digits2_pos]; [| |done].
  - rewrite Pos2Z.inj_succ, Z.pow_succ_r by lia. replace (Z.succ (Z.pos (digits2_pos m)) - 1) with (Z.succ (Z.pos (digits2_pos m) - 1)) by lia.
    rewrite Z.pow_succ_r by lia. lia.
  - rewrite Pos2Z.inj_succ, Z.pow_succ_r by lia. replace (Z.succ (Z.pos (digits2_pos m)) - 1) with (Z.succ (Z.pos (digits2_pos m) - 1)) by lia.
    rewrite Z.pow_succ_r by lia. lia.
Qed.
Lemma digits2_unique m d : 0 < d → 2 ^ (d - 1) ≤ Z.pos m < 2 ^ d → Z.pos (digits2_pos m) = d.
Proof.
  intros Hd Hm. pose proof (digits2_pos_bounds m) as Hb. set (k := Z.pos (digits2_pos m)) in *. assert (0 < k) by lia.
  assert (d - 1 < k) by (apply (Z.pow_lt_mono_r_iff 2); lia). assert (k - 1 < d) by (apply (Z.pow_lt_mono_r_iff 2); lia). lia.
Qed.

(** ** Shifting to the right *)

Lemma iter_pos_nat {A} (f : A → A) p x : iter_pos f p x = Nat.iter (Pos.to_nat p) f x.
Proof.
  revert x. induction p as [p IH|p IH|]; intros x; cbn [iter_pos]; [| |done].
  - rewrite !IH, Pos2Nat.inj_xI. rewrite <- Nat.iter_add. replace (S (2 * Pos.to_nat p)) with ((Pos.to_nat p + Pos.to_nat p) + 1)%nat by lia.
    by rewrite (Nat.iter_add (Pos.to_nat p + Pos.to_nat p) 1).
  - rewrite !IH, Pos2Nat.inj_xO, <- Nat.iter_add. f_equal. lia.
Qed.

(** [r] and [s] tell how the part that was shifted out compares with one half. *)
Definition shifted (m0 : Z) (k : nat) (x : shr_record) : Prop :=
  ∃ rem, m0 = shr_m x * 2 ^ Z.of_nat k + rem ∧ 0 ≤ shr_m x ∧ 0 ≤ rem < 2 ^ Z.of_nat k ∧
    match shr_r x, shr_s x with
    | false, false => rem = 0
    | false, true => 0 < 2 * rem < 2 ^ Z.of_nat k
    | true, false => 2 * rem = 2 ^ Z.of_nat k
    | true, true => 2 ^ Z.of_nat k < 2 * rem
    end.
Lemma shr_1_shifted m0 k x : shifted m0 k x → shifted m0 (S k) (shr_1 x).
Proof.
  intros (rem & E & Hm & Hr & Hf). destruct x as [m r s]. cbn [shr_m shr_r shr_s] in *.
  unfold shifted. rewrite Nat2Z.inj_succ, !Z.pow_succ_r by lia. set (P := 2 ^ Z.of_nat k) in *.
  assert (∃ m' b, m = 2 * m' + (if b : bool then 1 else 0) ∧ 0 ≤ m' ∧ shr_1 (Build_shr_record m r s) = Build_shr_record m' b (r || s)) as (m' & b & -> & Hm' & ->).
  { destruct m as [|[p|p|]|p]; [exists 0, false|exists (Z.pos p), true|exists (Z.pos p), false|exists 0, true|lia]; cbn; split_and!; lia || done. }
  exists (rem + if b then P else 0). cbn [shr_m shr_r shr_s]. destruct b, r, s; cbn [orb]; split_and!; lia.
Qed.
Lemma shr_shifted m k : 0 ≤ m → shifted m k (Nat.iter k shr_1 (Build_shr_record m false false)).
Proof.
  intros Hm. induction k as [|k IH]; [|by apply shr_1_shifted]. exists 0. cbn. lia.
Qed.
Lemma shifted_rounds m0 k x : shifted m0 k x →
  let n := round_nearest_even (shr_m x) (loc_of_shr_record x) in
  2 * Z.abs (n * 2 ^ Z.of_nat k - m0) ≤ 2 ^ Z.of_nat k ∧ (n = shr_m x ∨ n = shr_m x + 1).
Proof.
  intros (rem & -> & Hm & Hr & Hf). destruct x as [m r s]. cbn [shr_m shr_r shr_s loc_of_shr_record] in *.
  set (P := 2 ^ Z.of_nat k) in *. destruct r, s; cbn [round_nearest_even]; try (split; [lia|auto]).
  destruct (Z.even m); split; auto; lia.
Qed.

(** ** Rounding to 53 bits *)

Lemma shr_fexp_digits m e d : 0 < d → 2 ^ (d - 1) ≤ m < 2 ^ d → -1000 ≤ d + e →
  shr_fexp prec emax m e loc_Exact =
  if d <=? 53 then (Build_shr_record m false false, e)
  else (Nat.iter (Z.to_nat (d - 53)) shr_1 (Build_shr_record m false false), e + (d - 53)).
Proof.
  intros Hd Hm He. assert (0 < 2 ^ (d - 1)) by (apply Z.pow_pos_nonneg; lia). destruct m as [|m|m]; [lia| |lia].
  unfold shr_fexp. cbn [Zdigits2 shr_record_of_loc]. rewrite (digits2_unique m d Hd Hm). unfold fexp, emin, prec, emax, shr.
  replace (Z.max (d + e - 53) (3 - 1024 - 53)) with (d + e - 53) by lia. replace (d + e - 53 - e) with (d - 53) by lia.
  destruct (Z.leb_spec d 53).
  - by destruct (d - 53) as [|p|p] eqn:E; [|lia|].
  - destruct (d - 53) as [|p|p] eqn:E; [lia| |lia]. by rewrite iter_pos_nat.
Qed.

(** The result is the significand [n] at the exponent [e + d - 53], possibly written with
    one bit less. *)
Lemma binary_round_aux_near m e d : 53 < d → 2 ^ (d - 1) ≤ m < 2 ^ d → -900 ≤ d + e ≤ 900 →
  ∃ n m' b, binary_round_aux prec emax false m e loc_Exact = S754_finite false m' (e + (d - 53) + b) ∧
    (b = 0 ∧ Z.pos m' = n ∨ b = 1 ∧ n = 2 * Z.pos m') ∧ 0 < n ∧ 2 * Z.abs (n * 2 ^ (d - 53) - m) ≤ 2 ^ (d - 53).
Proof.
  intros Hd Hm He. unfold binary_round_aux. rewrite (shr_fexp_digits m e d) by lia. destruct (Z.leb_spec d 53); [lia|].
  set (x := Nat.iter _ _ _). assert (0 ≤ m) as Hm0 by (transitivity (2 ^ (d - 1)); [apply Z.pow_nonneg|]; lia).
  pose proof (shr_shifted m (Z.to_nat (d - 53)) Hm0) as Hs. fold x in Hs. destruct (shifted_rounds _ _ _ Hs) as [Hn Hc].
  rewrite Z2Nat.id in Hn by lia. set (n := round_nearest_even _ _) in *.
  destruct Hs as (rem & E & Hx & Hr & _). rewrite Z2Nat.id in E, Hr by lia. clearbody n x.
  assert (2 ^ (d - 1) = 2 ^ 52 * 2 ^ (d - 53)) as E1 by (rewrite <- Z.pow_add_r by lia; f_equal; lia).
  assert (2 ^ d = 2 ^ 53 * 2 ^ (d - 53)) as E2 by (rewrite <- Z.pow_add_r by lia; f_equal; lia).
  assert (0 < 2 ^ (d - 53)) as Hp by (apply Z.pow_pos_nonneg; lia). set (P := 2 ^ (d - 53)) in *. clearbody P.
  assert (2 ^ 52 ≤ shr_m x < 2 ^ 53) as Hxb by nia. destruct (decide (n = 2 ^ 53)) as [Hn53|Hn53].
  - rewrite (shr_fexp_digits n _ 54) by lia. change (54 <=? 53) with false. cbv iota. change (Z.to_nat (54 - 53)) with 1%nat.
    rewrite Hn53. assert (Nat.iter 1 shr_1 (Build_shr_record (2 ^ 53) false false) = Build_shr_record (Z.pos (2 ^ 52)) false false) as ->
      by (vm_compute; reflexivity).
    cbn [shr_m]. exists (2 ^ 53), (2 ^ 52)%positive, 1. replace (e + (d - 53) + (54 - 53)) with (e + (d - 53) + 1) by lia.
    assert ((e + (d - 53) + 1 <=? emax - prec) = true) as -> by (apply Z.leb_le; unfold emax, prec; lia).
    split_and!; [done|by right|lia|rewrite <- Hn53; lia].
  - rewrite (shr_fexp_digits n _ 53) by lia. change (53 <=? 53) with true. cbn [shr_m]. destruct n as [|p|p]; [lia| |lia].
    exists (Z.pos p), p, 0. assert ((e + (d - 53) <=? emax - prec) = true) as -> by (apply Z.leb_le; unfold emax, prec; lia).
    rewrite Z.add_0_r. split_and!; [done|by left|lia|lia].
Qed.

(** ** Integers as doubles *)

Lemma iter_xO m k : Z.pos (Pos.iter xO m k) = Z.pos m * 2 ^ Z.pos k.
Proof. induction k as [|k IH] using Pos.peano_ind; [cbn; lia|]. rewrite Pos.iter_succ, Pos2Z.inj_xO, IH, Pos2Z.inj_succ, Z.pow_succ_r by lia. lia. Qed.
(** Exact, with a significand of 53 bits. *)
Lemma double_of_Z_exact n : 0 < n < 2 ^ 52 →
  ∃ m d, double_of_Z n = S754_finite false m (d - 53) ∧ 0 < d ≤ 52 ∧ 2 ^ (d - 1) ≤ n < 2 ^ d ∧ Z.pos m = n * 2 ^ (53 - d).
Proof.
  intros Hn. destruct n as [|n|n]; [lia| |lia]. pose proof (digits2_pos_bounds n) as Hb. set (d := Z.pos (digits2_pos n)) in *.
  assert (d - 1 < 52) by (apply (Z.pow_lt_mono_r_iff 2); lia). exists (Pos.iter xO n (Z.to_pos (53 - d))), d.
  assert (Z.pos (Pos.iter xO n (Z.to_pos (53 - d))) = Z.pos n * 2 ^ (53 - d)) as Em by (rewrite iter_xO, Z2Pos.id by lia; done).
  split_and!; [|lia|lia|lia|lia|exact Em].
  unfold double_of_Z, binary_normalize, binary_round. fold d.
  assert (fexp prec emax (d + 0) = d - 53) as -> by (unfold fexp, emin, prec, emax; lia). unfold shl_align.
  replace (d - 53 - 0) with (- (53 - d)) by lia. destruct (53 - d) as [|p|p] eqn:Ed; [lia| |lia]. cbn [Z.opp Z.to_pos] in Em |- *.
  set (m := Pos.iter xO n p) in *.
  assert (2 ^ 52 ≤ Z.pos m < 2 ^ 53) as Hm.
  { rewrite Em. replace (2 ^ 52) with (2 ^ (d - 1) * 2 ^ Z.pos p) by (rewrite <- Z.pow_add_r by lia; f_equal; lia).
    replace (2 ^ 53) with (2 ^ d * 2 ^ Z.pos p) by (rewrite <- Z.pow_add_r by lia; f_equal; lia).
    assert (0 < 2 ^ Z.pos p) by (apply Z.pow_pos_nonneg; lia). nia. }
  unfold binary_round_aux. change (- Z.pos p) with (Z.neg p). cbv iota beta. fold m. rewrite (shr_fexp_digits (Z.pos m) (d - 53) 53) by lia. change (53 <=? 53) with true. cbn [loc_of_shr_record round_nearest_even shr_m].
  rewrite (shr_fexp_digits (Z.pos m) (d - 53) 53) by lia. change (53 <=? 53) with true. cbn [shr_m].
  assert ((d - 53 <=? emax - prec) = true) as -> by (apply Z.leb_le; unfold emax, prec; lia). done.
Qed.

(** ** A fraction of a count *)

(** [N] at scale [K] is the product of [m1] and [P], rounded; [m1] is [c] hundredths at
    scale 2^53, up to [delta], and [P] is the count at scale [T]. *)
Lemma fraction_bounds c m1 delta n q r T P N K :
  100 * m1 = c * 2 ^ 53 - delta → 0 ≤ delta ≤ 40 → 50 ≤ c ≤ 99 → c * n = 100 * q + r → 0 ≤ r < 100 → 0 < n < 2 ^ 45 → 2 ^ 8 ≤ T → P = n * T → P < 2 ^ 53 →
  K = 2 ^ 52 ∧ m1 * P < 2 ^ 105 ∧ delta * 2 ^ 54 < 100 * m1 ∨ K = 2 ^ 53 →
  2 * Z.abs (N * K - m1 * P) ≤ K →
  q * T * 2 ^ 53 - K < N * K < (q + 1) * T * 2 ^ 53.
Proof.
  intros Em Hdel Hc Eq Hr Hn HT EP HP HK HN.
  assert (c * P = 100 * (q * T) + r * T) as E1 by (rewrite EP; transitivity ((c * n) * T); [ring|rewrite Eq; ring]).
  assert (100 * (m1 * P) = 2 ^ 53 * (c * P) - delta * P) as E2 by (transitivity ((100 * m1) * P); [ring|rewrite Em; ring]).
  assert (0 < P) by (rewrite EP; apply Z.mul_pos_pos; lia). assert (P ≤ 2 ^ 45 * T) as HPT by (rewrite EP; apply Z.mul_le_mono_nonneg_r; lia).
  assert (0 ≤ delta * P) by (apply Z.mul_nonneg_nonneg; lia). assert (delta * P ≤ 40 * P) as HdP by (apply Z.mul_le_mono_nonneg_r; lia).
  assert (0 ≤ r * T) by (apply Z.mul_nonneg_nonneg; lia). assert (r * T ≤ 99 * T) as HrT by (apply Z.mul_le_mono_nonneg_r; lia).
  replace ((q + 1) * T * 2 ^ 53) with ((q * T + T) * 2 ^ 53) by ring.
  assert (K = 2 ^ 52 ∨ K = 2 ^ 53) as HK2 by tauto.
  assert (r = 0 ∨ T ≤ r * T) as Hr0.
  { destruct (decide (r = 0)) as [?|]; [by left|right]. rewrite <- (Z.mul_1_l T) at 1. apply Z.mul_le_mono_nonneg_r; lia. }
  assert (2 * (delta * P) < 100 * K) as HD.
  { destruct HK as [(-> & HY & Hdm)| ->]; [|lia]. destruct (decide (delta = 0)) as [-> |]; [lia|].
    apply (Z.mul_lt_mono_pos_l m1); [lia|]. assert (delta * (m1 * P) < delta * 2 ^ 105) by (apply Z.mul_lt_mono_pos_l; lia). lia. }
  clear HK EP Em Eq Hn Hc Hdel. set (A := q * T) in *. set (X := N * K) in *. set (Y := m1 * P) in *. set (D := delta * P) in *. set (B := r * T) in *.
  set (C := c * P) in *. clearbody X Y D C A. split; [|destruct HK2 as [-> | ->]; lia].
  destruct Hr0 as [-> |HB]; [unfold B in *; lia|]. destruct HK2 as [-> | ->]; lia.
Qed.

(** A double that is [c] hundredths, up to the rounding of its last bit, times a count,
    truncated: the integer part of [c] hundredths of the count, exactly. *)
Lemma fraction_floor c m1 delta n : 100 * Z.pos m1 = c * 2 ^ 53 - delta → 0 ≤ delta ≤ 40 → 50 ≤ c ≤ 99 → delta * 2 ^ 54 < 100 * Z.pos m1 →
  0 < n < 2 ^ 45 → double_to_int64 (SFmul prec emax (S754_finite false m1 (-53)) (double_of_Z n)) = Some (c * n / 100).
Proof.
  intros Em Hdel Hc Hdm Hn. destruct (double_of_Z_exact n) as (m2 & d & -> & Hd & Hnd & Em2); [lia|].
  assert (d - 1 < 45) as Hd45 by (apply (Z.pow_lt_mono_r_iff 2); lia).
  assert (2 ^ 52 ≤ Z.pos m2 < 2 ^ 53) as Hm2.
  { rewrite Em2. replace (2 ^ 52) with (2 ^ (d - 1) * 2 ^ (53 - d)) by (rewrite <- Z.pow_add_r by lia; f_equal; lia).
    replace (2 ^ 53) with (2 ^ d * 2 ^ (53 - d)) by (rewrite <- Z.pow_add_r by lia; f_equal; lia).
    assert (0 < 2 ^ (53 - d)) by (apply Z.pow_pos_nonneg; lia). split; [apply Z.mul_le_mono_nonneg_r|apply Z.mul_lt_mono_pos_r]; lia. }
  assert (2 ^ 52 ≤ Z.pos m1 < 2 ^ 53) as Hm1 by lia. assert (Z.pos (m1 * m2) = Z.pos m1 * Z.pos m2) as Ep by lia.
  assert (2 ^ 104 ≤ Z.pos (m1 * m2) < 2 ^ 106) as Hp.
  { rewrite Ep. split; [change (2 ^ 104) with (2 ^ 52 * 2 ^ 52); apply Z.mul_le_mono_nonneg; lia|change (2 ^ 106) with (2 ^ 53 * 2 ^ 53); apply Z.mul_lt_mono_nonneg; lia]. }
  assert (∃ D, (D = 105 ∧ Z.pos m1 * Z.pos m2 < 2 ^ 105 ∨ D = 106) ∧ 2 ^ (D - 1) ≤ Z.pos (m1 * m2) < 2 ^ D) as (D & HD & HpD).
  { destruct (decide (Z.pos (m1 * m2) < 2 ^ 105)) as [?|?]; [exists 105|exists 106]; split; lia. }
  cbn [SFmul xorb]. destruct (binary_round_aux_near (Z.pos (m1 * m2)) (-53 + (d - 53)) D) as (N & m' & b & -> & Hb & HN & Hr); [lia|done|lia|].
  rewrite Ep in Hr. destruct (fraction_bounds c (Z.pos m1) delta n (c * n / 100) (c * n mod 100) (2 ^ (53 - d)) (Z.pos m2) N (2 ^ (D - 53))) as [Hlo Hhi];
    [done|done|done|apply Z.div_mod; lia|apply Z.mod_pos_bound; lia|done|apply (Z.pow_le_mono_r 2 8); lia|done|lia| |done|].
  { destruct HD as [[-> ?]| ->]; [left|right]; split_and?; done. }
  set (K := 2 ^ (D - 53)) in *. assert (0 < K) as HK by (apply Z.pow_pos_nonneg; lia).
  set (W := 2 ^ (159 - d - D)). assert (2 ^ (53 - d) * 2 ^ 53 = W * K) as EW by (unfold W, K; rewrite <- !Z.pow_add_r by lia; f_equal; lia).
  assert (0 < W) as HW by (apply Z.pow_pos_nonneg; lia). set (q := c * n / 100) in *.
  replace (q * 2 ^ (53 - d) * 2 ^ 53) with (q * W * K) in Hlo by (rewrite <- !Z.mul_assoc, EW; ring).
  replace ((q + 1) * 2 ^ (53 - d) * 2 ^ 53) with ((q + 1) * W * K) in Hhi by (rewrite <- !Z.mul_assoc, EW; ring).
  assert (N < (q + 1) * W) as H2 by (apply (Z.mul_lt_mono_pos_r K); lia). assert (q * W - 1 < N) as H1 by (apply (Z.mul_lt_mono_pos_r K); lia).
  assert (N / W = q) as EN by (symmetry; apply (Z.div_unique_pos _ _ _ (N - q * W)); lia).
  assert (0 ≤ q < 2 ^ 45) as Hq. { assert (c * n ≤ 99 * n) by (apply Z.mul_le_mono_nonneg_r; lia). split; [apply Z.div_pos; lia|apply Z.div_lt_upper_bound; lia]. }
  unfold double_to_int64, ratio_of. destruct (Z.leb_spec 0 (-53 + (d - 53) + (D - 53) + b)); [lia|].
  assert (Z.pos m' / 2 ^ (- (-53 + (d - 53) + (D - 53) + b)) = q) as ->; [|rewrite bool_decide_eq_true_2; [done|clear -Hq; unfold is_i64, INT64_MIN, INT64_MAX; lia]].
  destruct Hb as [[-> ->]|[-> ->]].
  - rewrite <- EN. f_equal. unfold W. f_equal. lia.
  - rewrite <- EN. assert (W = 2 * 2 ^ (- (-53 + (d - 53) + (D - 53) + 1))) as -> by (unfold W; rewrite <- Z.pow_succ_r by lia; f_equal; lia).
    rewrite Z.div_mul_cancel_l; [done|apply Z.pow_nonzero; lia|done].
Qed.
