(* ===== verification/Tpcc.v ===== *)
(** * The benchmark's data

    The tables and rows that the benchmark loads before it runs (bench/tpcc.h,
    bench/tpcc.cpp): keys, rows, the transaction that writes a batch of rows, and the
    loader. Where the code ends the process ([std::abort] after a timeout) or throws,
    the result is [None]. *)
From Stdlib Require Import Strings.Byte Strings.Ascii.
From stdpp Require Import base gmap sets strings list.
From Stdlib Require Import ZArith Lia.
From S2P Require Import Prelude Status GroupCommit ShardMessages Effects CoordinatorLog Coordinator.
From S2P Require Import Text Catalog.
Local Open Scope Z_scope.

Record TPCCConfig := MkTPCCConfig {
  num_warehouses : Z;
  districts_per_wh : Z;
  customers_per_dist : Z;
  items_per_wh : Z;
}.
Definition TPCCConfig0 : TPCCConfig := MkTPCCConfig 2 10 100 1000.

(** ** Keys and rows *)

(** [std::setw(10)] and [std::setfill('0')]. *)
Definition FormatPK (id : Z) : bytes := let s := to_string id in replicate (10 - length s) (ch "0") ++ s.
Definition ParsePK (pk : bytes) : option Z := stoll pk.

Module Tpcc.

Definition AppendU16LE (buf : bytes) (v : Z) : bytes := buf ++ le_bytes 2 v.
Definition AppendU32LE (buf : bytes) (v : Z) : bytes := buf ++ le_bytes 4 v.
Definition EncodeRow (cells : list bytes) : bytes :=
  foldl (λ out c, AppendU32LE out (Z.of_nat (length c)) ++ c) (AppendU16LE [] (Z.of_nat (length cells))) cells.

(** The keys of the rows; the products are computed in 64 bits. *)
Definition district_id (w d : Z) : Z := w * 10 + d.
Definition customer_id (w d c : Z) : Z := w * 100000 + d * 10000 + c.
Definition order_id (w d c : Z) : Z := w * 100000000 + d * 1000000 + c.
Definition stock_id (w item : Z) : Z := w * 10000 + item.

(** ** Transactions of the loader *)

Abbreviation kv := (bytes * bytes)%type.

(** [late txn k]: the [k]-th call of transaction [txn] takes longer than the limit. *)
Fixpoint write_all (late : nat → bool) (k : nat) (txn table_id : Z) (kvs : list kv) : CM (option Status) :=
  match kvs with
  | [] => mret (Some St.OK)
  | (key, value) :: kvs =>
      s ← Coord.Write txn table_id key value;
      if late k then mret None
      else if negb (St.ok s) then Coord.Abort txn ;; mret (Some s)
      else write_all late (S k) txn table_id kvs
  end.
Definition RunWriteTx (late : Z → nat → bool) (table_id : Z) (kvs : list kv) : CM (option Status) :=
  txn ← Coord.Begin;
  r ← write_all (late txn) 0 txn table_id kvs;
  match r with
  | None => mret None
  | Some s =>
      if negb (St.ok s) then mret (Some s)
      else
        c ← Coord.Commit txn;
        if late txn (length kvs) then mret None
        else if negb (St.ok c) then Coord.Abort txn ;; mret (Some c)
        else mret (Some c)
  end.

(** ** Tables *)

Record Tables := MkTables {
  t_warehouse : Z;
  t_district : Z;
  t_customer : Z;
  t_orders : Z;
  t_order_line : Z;
  t_stock : Z;
}.

Definition cols (l : list (string * ColumnType)) : list ColumnDef := (λ x, MkColumnDef (str x.1) x.2) <$> l.
Definition table_columns : list (string * list ColumnDef * string) :=
  [("warehouse", cols [("w_id", INT); ("w_name", VARCHAR); ("w_ytd", FLOAT)], "w_id");
   ("district", cols [("d_id", INT); ("d_w_id", INT); ("d_name", VARCHAR); ("d_next_o_id", INT); ("d_ytd", FLOAT)], "d_id");
   ("customer", cols [("c_id", INT); ("c_d_id", INT); ("c_w_id", INT); ("c_name", VARCHAR); ("c_balance", FLOAT)], "c_id");
   ("orders", cols [("o_id", INT); ("o_d_id", INT); ("o_w_id", INT); ("o_c_id", INT); ("o_carrier_id", INT)], "o_id");
   ("order_line", cols [("ol_id", INT); ("ol_o_id", INT); ("ol_i_id", INT); ("ol_quantity", INT); ("ol_amount", FLOAT)], "ol_id");
   ("stock", cols [("s_id", INT); ("s_w_id", INT); ("s_i_id", INT); ("s_quantity", INT)], "s_id")]%string.

(** All six [CreateTable] calls; then the number of a table is the new one, or, when the
    name was taken, that of the table that has it. *)
Definition create_all (cat : Catalog) : Catalog * list Z :=
  foldl (λ '(cat, ids) '(name, columns, pk),
           let '(cat, id) := CreateTable cat (str name) columns (str pk) in (cat, ids ++ [id])) (cat, []) table_columns.
Definition resolve (cat : Catalog) (name : string) (id : Z) : Z :=
  match GetTable cat (str name) with
  | Some t => if id =? 0 then table_id t else id
  | None => id
  end.
Definition create_tables (cat : Catalog) : Catalog * option Tables :=
  let '(cat, ids) := create_all cat in
  (cat, match zip_with (λ '(name, _, _) id, resolve cat name id) table_columns ids with
        | [w; d; c; o; ol; s] =>
            if (w =? 0) || (d =? 0) || (c =? 0) || (o =? 0) || (ol =? 0) || (s =? 0) then None
            else Some (MkTables w d c o ol s)
        | _ => None
        end).

(** ** The loader *)

Definition warehouse_row (w : Z) : kv :=
  (FormatPK w, EncodeRow [to_string w; str "WH-" ++ to_string w; str "300000"]).
Definition district_row (w d : Z) : kv :=
  let d_id := district_id w d in
  (FormatPK d_id, EncodeRow [to_string d_id; to_string w; str "DIST-" ++ to_string w ++ str "-" ++ to_string d; str "1"; str "30000"]).
Definition customer_row (w d c : Z) : kv :=
  let c_id := customer_id w d c in
  (FormatPK c_id, EncodeRow [to_string c_id; to_string d; to_string w; str "CUST-" ++ to_string c; str "-10"]).
Definition order_row (w d c : Z) : kv :=
  let o_id := order_id w d c in
  (FormatPK o_id, EncodeRow [to_string o_id; to_string d; to_string w; to_string c; str "0"]).
Definition order_line_row (w d c : Z) : kv :=
  let o_id := order_id w d c in
  (FormatPK o_id, EncodeRow [to_string o_id; to_string o_id; to_string (c mod 1000 + 1); str "5"; str "10.0"]).
Definition stock_row (w item : Z) : kv :=
  let sid := stock_id w item in
  (FormatPK sid, EncodeRow [to_string sid; to_string w; to_string item; str "100"]).

(** A batch gives the number of its rows; an error is thrown. *)
Definition load_batch (late : Z → nat → bool) (table_id : Z) (kvs : list kv) : CM (option Z) :=
  s ← RunWriteTx late table_id kvs;
  mret (s ← s; if St.ok s then Some (Z.of_nat (length kvs)) else None).

(** One after the other, up to the first that fails; the sum of their rows. *)
Fixpoint in_order (l : list (CM (option Z))) : CM (option Z) :=
  match l with
  | [] => mret (Some 0)
  | m :: l =>
      r ← m;
      match r with
      | None => mret None
      | Some n => r ← in_order l; mret (Z.add n <$> r)
      end
  end.

Definition load_district (late : Z → nat → bool) (cfg : TPCCConfig) (t : Tables) (w d : Z) : CM (option Z) :=
  let cs := seqZ 1 (customers_per_dist cfg) in
  in_order [load_batch late (t_district t) [district_row w d];
            load_batch late (t_customer t) (customer_row w d <$> cs);
            load_batch late (t_orders t) (order_row w d <$> cs);
            load_batch late (t_order_line t) (order_line_row w d <$> cs)].
Definition load_warehouse (late : Z → nat → bool) (cfg : TPCCConfig) (t : Tables) (w : Z) : CM (option Z) :=
  in_order (load_batch late (t_warehouse t) [warehouse_row w] ::
            (load_district late cfg t w <$> seqZ 0 (districts_per_wh cfg)) ++
            [load_batch late (t_stock t) (stock_row w <$> seqZ 1 (items_per_wh cfg))]).

(** The catalog with the tables, and the rows that were loaded. *)
Definition LoadTPCCData (late : Z → nat → bool) (cat : Catalog) (cfg : TPCCConfig) : Catalog * CM (option Z) :=
  let '(cat, tables) := create_tables cat in
  (cat, match tables with
        | None => mret None
        | Some t =>
            r ← in_order (load_warehouse late cfg t <$> seqZ 1 (num_warehouses cfg));
            mret (u64 <$> r)
        end).
End Tpcc.
