(* ===== verification/Benchmark.v ===== *)
(** * The benchmark

    The five kinds of transactions that the benchmark runs against a coordinator, the
    loop of a worker thread, and the figures it reports (bench/benchmark.h,
    bench/benchmark.cpp). Random numbers, clocks and the moments at which the threads see
    the flags change are inputs. A call that takes too long ends the process, and so does
    an exception, which no worker catches: the result is then [None]. *)
From Stdlib Require Import Strings.Byte Strings.Ascii.
From stdpp Require Import base gmap sets strings sorting list.
From Stdlib Require Import ZArith Lia Floats.SpecFloat.
From S2P Require Import Prelude Status GroupCommit ShardMessages Effects CoordinatorLog Coordinator.
From S2P Require Import Text Catalog JoinHandler Parser DistributedJoin Executor Tpcc.
Local Open Scope Z_scope.

Inductive MixMode := Standard | NewOrderOnly | PaymentOnly | OrderStatusOnly | DeliveryOnly | StockLevelOnly.
#[export] Instance MixMode_eq_dec : EqDecision MixMode.
Proof. solve_decision. Defined.

Record BenchConfig := MkBenchConfig {
  num_threads : Z;
  duration_seconds : Z;
  warmup_seconds : Z;
  b_num_shards : Z;
  tpcc : TPCCConfig;
  mix_mode : MixMode;
}.

Record Benchmark := MkBenchmark {
  config_ : BenchConfig;
  tables : Tpcc.Tables;
}.

(** What a transaction draws at random, and which of its calls are too slow. *)
Record Draw := MkDraw {
  dr_w : Z;
  dr_d : Z;
  dr_c : Z;
  dr_amount : double;
  dr_item : Z;
  dr_customers : Z → Z;
  dr_late : nat → bool;
}.

Module Bench.
Section workload.
Context `{Undefined}.

(** The tables must have been loaded. *)
Definition new_Benchmark (cat : Catalog) (config : BenchConfig) : option Benchmark :=
  w ← GetTable cat (str "warehouse");
  d ← GetTable cat (str "district");
  c ← GetTable cat (str "customer");
  o ← GetTable cat (str "orders");
  ol ← GetTable cat (str "order_line");
  s ← GetTable cat (str "stock");
  Some (MkBenchmark config (Tpcc.MkTables (table_id w) (table_id d) (table_id c) (table_id o) (table_id ol) (table_id s))).

Definition DecodeRow (data : bytes) : list bytes :=
  match ReadU16LE data with
  | None => []
  | Some (cols, data) => default [] (read_cells (Z.to_nat cols) data)
  end.
Definition EncodeRow (cells : list bytes) : bytes :=
  foldl (λ out c, (out ++ le_bytes 4 (Z.of_nat (length c))) ++ c) (le_bytes 2 (Z.of_nat (length cells))) cells.

Definition PickTxnType (config : BenchConfig) (r : Z) : Z :=
  match mix_mode config with
  | NewOrderOnly => 0
  | PaymentOnly => 1
  | OrderStatusOnly => 2
  | DeliveryOnly => 3
  | StockLevelOnly => 4
  | Standard => if r <? 45 then 0 else if r <? 88 then 1 else if r <? 92 then 2 else if r <? 96 then 3 else 4
  end.

Definition ShardForKey (config : BenchConfig) (key : bytes) : Z :=
  Coord.fnv_hash key mod Z.max 1 (b_num_shards config).

(** ** Transactions *)

(** [CheckTxnTimeout] never returns [true]: it goes on or ends the process. *)
Definition CheckTxnTimeout (late : bool) (k : CM (option bool)) : CM (option bool) := if late then mret None else k.

Definition abort_txn (txn : Z) : CM (option bool) := Coord.Abort txn ;; mret (Some false).

(** Reading a row, and reading, changing and writing back a row of [n] cells; [i] is the
    number of the next call. *)
Definition read_row (r : Draw) (i : nat) (txn tid : Z) (pk : bytes) (k : bytes → CM (option bool)) : CM (option bool) :=
  x ← Coord.Read txn tid pk;
  if negb (St.ok x.1) then abort_txn txn
  else CheckTxnTimeout (dr_late r i) (k (default [] x.2)).
Definition rewrite_row (r : Draw) (i : nat) (txn tid : Z) (pk : bytes) (n : nat)
    (change : list bytes → option (list bytes)) (k : CM (option bool)) : CM (option bool) :=
  read_row r i txn tid pk (λ row,
    let cells := DecodeRow row in
    if negb (length cells =? n)%nat then abort_txn txn
    else match change cells with
         | None => mret None
         | Some cells =>
             st ← Coord.Write txn tid pk (EncodeRow cells);
             if negb (St.ok st) then abort_txn txn else CheckTxnTimeout (dr_late r (S i)) k
         end).
Definition commit_txn (r : Draw) (i : nat) (txn : Z) : CM (option bool) :=
  cst ← Coord.Commit txn;
  CheckTxnTimeout (dr_late r i) (if negb (St.ok cst) then abort_txn txn else mret (Some true)).

(** [ParseInt] and [ParseDouble] throw on text that is not a number. *)
Definition add_one (i : nat) (cells : list bytes) : option (list bytes) :=
  n ← stoll (default [] (cells !! i)); Some (<[i := to_string (add_i64 n 1)]> cells).
Definition add_amount (i : nat) (amount : double) (cells : list bytes) : option (list bytes) :=
  x ← fst <$> stod (default [] (cells !! i)); Some (<[i := double_to_string (dadd x amount)]> cells).
Definition sub_amount (i : nat) (amount : double) (cells : list bytes) : option (list bytes) :=
  x ← fst <$> stod (default [] (cells !! i)); Some (<[i := double_to_string (dsub x amount)]> cells).

Definition district_pk (w d : Z) : bytes := FormatPK (Tpcc.district_id w d).
Definition customer_pk (w d c : Z) : bytes := FormatPK (Tpcc.customer_id w d c).
Definition order_pk (w d c : Z) : bytes := FormatPK (Tpcc.order_id w d c).
Definition stock_pk (w item : Z) : bytes := FormatPK (Tpcc.stock_id w item).

Definition RunNewOrder (b : Benchmark) (r : Draw) : CM (option bool) :=
  let t := tables b in
  txn ← Coord.Begin;
  CheckTxnTimeout (dr_late r 0) (
  rewrite_row r 1 txn (Tpcc.t_district t) (district_pk (dr_w r) (dr_d r)) 5 (add_one 3) (
  read_row r 3 txn (Tpcc.t_customer t) (customer_pk (dr_w r) (dr_d r) (dr_c r)) (λ _,
  rewrite_row r 4 txn (Tpcc.t_warehouse t) (FormatPK (dr_w r)) 3 (add_amount 2 (dr_amount r)) (
  commit_txn r 6 txn)))).

Definition RunPayment (b : Benchmark) (r : Draw) : CM (option bool) :=
  let t := tables b in
  txn ← Coord.Begin;
  CheckTxnTimeout (dr_late r 0) (
  rewrite_row r 1 txn (Tpcc.t_district t) (district_pk (dr_w r) (dr_d r)) 5 (add_amount 4 (dr_amount r)) (
  rewrite_row r 3 txn (Tpcc.t_warehouse t) (FormatPK (dr_w r)) 3 (add_amount 2 (dr_amount r)) (
  rewrite_row r 5 txn (Tpcc.t_customer t) (customer_pk (dr_w r) (dr_d r) (dr_c r)) 5 (sub_amount 4 (dr_amount r)) (
  commit_txn r 7 txn)))).

Definition RunOrderStatus (b : Benchmark) (r : Draw) : CM (option bool) :=
  let t := tables b in
  txn ← Coord.Begin;
  CheckTxnTimeout (dr_late r 0) (
  read_row r 1 txn (Tpcc.t_customer t) (customer_pk (dr_w r) (dr_d r) (dr_c r)) (λ _,
  read_row r 2 txn (Tpcc.t_orders t) (order_pk (dr_w r) (dr_d r) (dr_c r)) (λ _,
  commit_txn r 3 txn))).

(** The loop over the districts [ds]. *)
Fixpoint deliver (b : Benchmark) (r : Draw) (i : nat) (txn : Z) (ds : list Z) : CM (option bool) :=
  match ds with
  | [] => commit_txn r i txn
  | d :: ds =>
      rewrite_row r i txn (Tpcc.t_customer (tables b)) (customer_pk (dr_w r) d (dr_customers r d)) 5
        (add_amount 4 (double_of_Z 1)) (deliver b r (S (S i)) txn ds)
  end.
Definition district_count (b : Benchmark) : Z := Z.min 10 (districts_per_wh (tpcc (config_ b))).
Definition RunDelivery (b : Benchmark) (r : Draw) : CM (option bool) :=
  txn ← Coord.Begin;
  CheckTxnTimeout (dr_late r 0) (deliver b r 1 txn (seqZ 0 (district_count b))).

Definition stock_customer (b : Benchmark) (item : Z) : Z :=
  item mod Z.max 1 (customers_per_dist (tpcc (config_ b))) + 1.
Definition RunStockLevel (b : Benchmark) (r : Draw) : CM (option bool) :=
  let t := tables b in
  txn ← Coord.Begin;
  CheckTxnTimeout (dr_late r 0) (
  read_row r 1 txn (Tpcc.t_stock t) (stock_pk (dr_w r) (dr_item r)) (λ _,
  read_row r 2 txn (Tpcc.t_order_line t) (order_pk (dr_w r) (dr_d r) (stock_customer b (dr_item r))) (λ _,
  commit_txn r 3 txn))).

(** ** Workers *)

Definition run_txn (b : Benchmark) (txn_type : Z) (r : Draw) : CM (option bool) :=
  if txn_type =? 0 then RunNewOrder b r
  else if txn_type =? 1 then RunPayment b r
  else if txn_type =? 2 then RunOrderStatus b r
  else if txn_type =? 3 then RunDelivery b r
  else RunStockLevel b r.

(** At most [kMaxAttempts] attempts; the list of draws ends when [running_] is seen to be
    false. *)
Definition kMaxAttempts : nat := 8.
Fixpoint attempt_loop (b : Benchmark) (txn_type : Z) (n : nat) (draws : list Draw) : CM (option bool) :=
  match n, draws with
  | S n, r :: draws =>
      ok ← run_txn b txn_type r;
      match ok with
      | Some false => attempt_loop b txn_type n draws
      | _ => mret ok
      end
  | _, _ => mret (Some false)
  end.

(** The pauses in microseconds after an attempt and after a failed transaction; [jitter]
    is drawn between 50 and 300. *)
Definition attempt_pause (attempt jitter : Z) : Z := Z.shiftl 1 (Z.min (attempt + 1) 8) * jitter.
Definition abort_pause (consecutive_aborts jitter : Z) : Z := Z.shiftl 1 consecutive_aborts * jitter.

(** One kind of transaction: how many were committed and aborted, and the latencies. *)
Record Stat := MkStat {
  st_count : Z;
  st_aborts : Z;
  st_lat_us : list double;
}.
Record BenchState := MkBenchState {
  committed_ : Z;
  aborted_ : Z;
  latencies_us_ : list double;
  new_order_ : Stat;
  payment_ : Stat;
  order_status_ : Stat;
  delivery_ : Stat;
  stock_level_ : Stat;
}.
Definition stat0 : Stat := MkStat 0 0 [].
Definition BenchState0 : BenchState := MkBenchState 0 0 [] stat0 stat0 stat0 stat0 stat0.

(** [us] is the latency when [measuring_] is seen to be true. *)
Definition count_stat (s : Stat) (ok : bool) (us : option double) : Stat :=
  if ok then MkStat (u64 (st_count s + 1)) (st_aborts s) (st_lat_us s ++ option_list us)
  else MkStat (st_count s) (u64 (st_aborts s + 1)) (st_lat_us s).
Definition count_txn (st : BenchState) (txn_type : Z) (ok : bool) (us : option double) : BenchState :=
  let '(MkBenchState c a l no pa os de sl) := st in
  let c := if ok then u64 (c + 1) else c in
  let a := if ok then a else u64 (a + 1) in
  let l := if ok then l ++ option_list us else l in
  let on k s := if txn_type =? k then count_stat s ok us else s in
  MkBenchState c a l (on 0 no) (on 1 pa) (on 2 os) (on 3 de) (on 4 sl).

(** [duration<double, std::micro>] of a number of nanoseconds. *)
Definition ddiv (a b : double) : double := SFdiv prec emax a b.
Definition dmul (a b : double) : double := SFmul prec emax a b.
Definition latency_us (ns : Z) : double := ddiv (double_of_Z ns) (double_of_Z 1000).

(** One round of [WorkerThread]: the number drawn for the mix, the attempts, the time it
    took and whether it is measured. *)
Record Round := MkRound {
  rd_mix : Z;
  rd_draws : list Draw;
  rd_ns : Z;
  rd_measuring : bool;
}.
Definition worker_round (b : Benchmark) (rd : Round) (st : BenchState) : CM (option BenchState) :=
  let ty := PickTxnType (config_ b) (rd_mix rd) in
  ok ← attempt_loop b ty kMaxAttempts (rd_draws rd);
  mret (ok ← ok; Some (count_txn st ty ok (if rd_measuring rd then Some (latency_us (rd_ns rd)) else None))).
Fixpoint WorkerThread (b : Benchmark) (rounds : list Round) (st : BenchState) : CM (option BenchState) :=
  match rounds with
  | [] => mret (Some st)
  | rd :: rounds =>
      r ← worker_round b rd st;
      match r with
      | None => mret None
      | Some st => WorkerThread b rounds st
      end
  end.

(** ** Figures *)

Record TxnMetrics := MkTxnMetrics {
  m_committed : Z;
  m_aborted : Z;
  p50 : double;
  p95 : double;
  p99 : double;
  success_rate : double;
}.
Definition dzero : double := S754_zero false.

(** [std::sort] with [operator<]. *)
Definition not_after (a b : double) : Prop := dlt b a = false.
#[export] Instance not_after_dec : RelDecision not_after.
Proof. intros a b. unfold not_after. apply _. Defined.
Definition sort_samples (l : list double) : list double := merge_sort not_after l.

(** The index [std::floor(q * n)], at most [n - 1]. *)
Definition percentile_index (q : double) (n : nat) : nat :=
  Z.to_nat (Z.min (Z.of_nat n - 1) (default 0 (double_to_int64 (dmul q (double_of_Z (Z.of_nat n)))))).
Definition q50 : double := double_of_ratio false 50 100.
Definition q95 : double := double_of_ratio false 95 100.
Definition q99 : double := double_of_ratio false 99 100.
Definition percentile (q : double) (samples : list double) : double :=
  default dzero (sort_samples samples !! percentile_index q (length samples)).

Definition BuildTxnMetrics (samples : list double) (committed aborted : Z) : TxnMetrics :=
  let total := u64 (committed + aborted) in
  let rate := if total =? 0 then dzero
              else ddiv (dmul (double_of_Z 100) (double_of_Z committed)) (double_of_Z total) in
  match samples with
  | [] => MkTxnMetrics committed aborted dzero dzero dzero rate
  | _ => MkTxnMetrics committed aborted (percentile q50 samples) (percentile q95 samples) (percentile q99 samples) rate
  end.

Record BenchResult := MkBenchResult {
  total_txns : Z;
  total_aborts : Z;
  r_duration : double;
  txns_per_second : double;
  r_p50 : double;
  r_p99 : double;
  r_avg : double;
  new_order_count : Z;
  payment_count : Z;
  order_status_count : Z;
  delivery_count : Z;
  stock_level_count : Z;
  new_order_metrics : TxnMetrics;
  payment_metrics : TxnMetrics;
  order_status_metrics : TxnMetrics;
  delivery_metrics : TxnMetrics;
  stock_level_metrics : TxnMetrics;
  overall_p99_latency_us : double;
}.

(** The end of [Run], when the workers have been joined: [elapsed] is the time since
    [measuring_] was set. *)
Definition metrics (s : Stat) : TxnMetrics := BuildTxnMetrics (st_lat_us s) (st_count s) (st_aborts s).
Definition Run_result (st : BenchState) (elapsed : double) : BenchResult :=
  let samples := latencies_us_ st in
  let n := double_of_Z (Z.of_nat (length samples)) in
  let avg := ddiv (foldl dadd dzero (sort_samples samples)) n in
  let '(a, b, c) := match samples with [] => (dzero, dzero, dzero) | _ => (percentile q50 samples, percentile q99 samples, avg) end in
  MkBenchResult (committed_ st) (aborted_ st) elapsed
    (if dlt dzero elapsed then ddiv (double_of_Z (committed_ st)) elapsed else dzero) a b c
    (st_count (new_order_ st)) (st_count (payment_ st)) (st_count (order_status_ st)) (st_count (delivery_ st))
    (st_count (stock_level_ st))
    (metrics (new_order_ st)) (metrics (payment_ st)) (metrics (order_status_ st)) (metrics (delivery_ st))
    (metrics (stock_level_ st)) b.

(** [Run]: the counters start at zero; the workers' rounds end in some order, each
    counted when it ends. *)
Record Finished := MkFinished {
  f_type : Z;
  f_ok : bool;
  f_us : option double;
}.
Definition Run (done : list Finished) (elapsed : double) : BenchResult :=
  Run_result (foldl (λ st f, count_txn st (f_type f) (f_ok f) (f_us f)) BenchState0 done) elapsed.
End workload.
End Bench.
