(* ===== verification/TpccProofs.v ===== *)
(** * What the benchmark loads and runs

    Transactions as sequences of calls that the coordinator answered well, and the
    benchmark's loader and its five kinds of transactions as such sequences. *)
From Stdlib Require Import Strings.Byte Strings.Ascii.
From stdpp Require Import base gmap sets strings sorting list.
From Stdlib Require Import ZArith Lia.
From S2P Require Import Prelude Status GroupCommit ShardMessages Effects CoordinatorLog Coordinator TwoPhase.
From S2P Require Import Text Catalog JoinHandler Lexer Parser DistributedJoin Executor ExecutorProofs ExecutorRows Tpcc Benchmark.
Local Open Scope Z_scope.

(** ** Keys *)

Lemma digits_value_zeros k s : digits_value (replicate k (ch "0") ++ s) = digits_value s.
Proof.
  unfold digits_value. rewrite foldl_app. f_equal. induction k as [|k IH]; [done|]. exact IH.
Qed.
Lemma FormatPK_digits a : 0 ≤ a → Forall (λ c, isdigit c = true) (FormatPK a) ∧ digits_value (FormatPK a) = a ∧ FormatPK a ≠ [].
Proof.
  intros Ha. unfold FormatPK, to_string. destruct (Z.ltb_spec a 0); [lia|]. destruct (dec_spec a Ha) as (HF & Hv & Hne).
  rewrite digits_value_zeros. split_and!; [|done|by intros [_ ?]%app_eq_nil].
  apply Forall_app. split; [|done]. by apply Forall_replicate.
Qed.
Lemma FormatPK_inj a b : 0 ≤ a → 0 ≤ b → FormatPK a = FormatPK b → a = b.
Proof. intros Ha Hb E. destruct (FormatPK_digits a Ha) as (_ & <- & _), (FormatPK_digits b Hb) as (_ & <- & _). by rewrite E. Qed.

Lemma digit_char_plain c : isdigit c = true → isspace c = false ∧ c ≠ ch "-" ∧ c ≠ ch "+".
Proof. intros Hc. destruct c; by vm_compute in Hc |- *. Qed.
(** Keys are read back. *)
Lemma ParsePK_FormatPK a : 0 ≤ a ≤ INT64_MAX → ParsePK (FormatPK a) = Some a.
Proof.
  intros [Ha Hm]. destruct (FormatPK_digits a Ha) as (HF & Hv & Hne). unfold ParsePK, stoll.
  destruct (FormatPK a) as [|c s] eqn:E; [done|]. pose proof HF as [Hc _]%Forall_cons.
  destruct (digit_char_plain c Hc) as (Hs & Hm1 & Hm2). cbn [span]. rewrite Hs. cbn [snd].
  rewrite !bool_decide_eq_false_2 by done. pose proof (span_app isdigit (c :: s) [] HF ltac:(done)) as Hsp. rewrite app_nil_r in Hsp.
  rewrite Hsp. cbn [fst]. rewrite Hv. rewrite bool_decide_eq_true_2; [done|]. unfold is_i64, INT64_MIN. lia.
Qed.

(** ** Rows *)

Lemma EncodeRow_row cells : Bench.EncodeRow cells = row_bytes (length cells) cells.
Proof.
  unfold Bench.EncodeRow, row_bytes. generalize (le_bytes 2 (Z.of_nat (length cells))). induction cells as [|c cells IH]; intros out; cbn.
  { by rewrite app_nil_r. }
  rewrite IH. unfold cell_bytes at 2. by rewrite <- !app_assoc.
Qed.
Lemma Tpcc_EncodeRow cells : Tpcc.EncodeRow cells = Bench.EncodeRow cells.
Proof. done. Qed.
(** What is written is read back cell by cell. *)
Lemma DecodeRow_EncodeRow cells : Z.of_nat (length cells) < 2 ^ 16 → Forall (λ c, is_u32 (Z.of_nat (length c))) cells →
  Bench.DecodeRow (Bench.EncodeRow cells) = cells.
Proof.
  intros Hn HF. rewrite EncodeRow_row. pose proof (row_bytes_cells cells [] Hn HF) as E. rewrite app_nil_r in E. exact E.
Qed.

(** ** Sequences of calls *)

(** A read with the row it gave, and a write. *)
Inductive Op := ReadOp (tid : Z) (pk row : bytes) | WriteOp (tid : Z) (pk row : bytes).

(** The calls of transaction [txn], all answered without an error. *)
Inductive calls (txn : Z) : Coordinator → list Op → list CEvent → Coordinator → Prop :=
  | calls_nil c : calls txn c [] [] c
  | calls_read c tid pk data st tr c1 ops tr' c' : path (Coord.Read txn tid pk c) tr (Some (c1, (st, data))) → St.ok st = true →
      calls txn c1 ops tr' c' → calls txn c (ReadOp tid pk (default [] data) :: ops) (tr ++ tr') c'
  | calls_write c tid pk row st tr c1 ops tr' c' : path (Coord.Write txn tid pk row c) tr (Some (c1, st)) → St.ok st = true →
      calls txn c1 ops tr' c' → calls txn c (WriteOp tid pk row :: ops) (tr ++ tr') c'.

(** A transaction with these calls, begun and committed. *)
Definition committed (c : Coordinator) (ops : list Op) (tr : list CEvent) (c' : Coordinator) : Prop :=
  let txn := next_raft_id_ c in
  ∃ c1 c2 tr1 tr2 st, path (Coord.Begin c) [] (Some (c1, txn)) ∧ calls txn c1 ops tr1 c2 ∧
    path (Coord.Commit txn c2) tr2 (Some (c', st)) ∧ St.ok st = true ∧ tr = tr1 ++ tr2.

Lemma calls_app txn c ops1 tr1 c1 ops2 tr2 c2 : calls txn c ops1 tr1 c1 → calls txn c1 ops2 tr2 c2 →
  calls txn c (ops1 ++ ops2) (tr1 ++ tr2) c2.
Proof. induction 1; intros H2; cbn; [done| |]; rewrite <- app_assoc; econstructor; eauto. Qed.

Lemma Begin_inv c tr c1 txn : path (Coord.Begin c) tr (Some (c1, txn)) → tr = [] ∧ txn = next_raft_id_ c ∧
  path (Coord.Begin c) [] (Some (c1, next_raft_id_ c)).
Proof. intros H. destruct (Begin_opens _ _ _ _ H) as [-> _]. destruct H as [-> ?]. done. Qed.

(** ** Transactions that end *)

(** Unless the process ends, the transaction is closed and the others are kept. *)
Definition ends {A} (t : Z) (m : CM (option A)) : Prop := ensures m (λ c c' o, is_Some o → closes t c c').

Lemma ends_none {A} t : ends t (mret None : CM (option A)).
Proof. apply ensures_mret. by intros c [? ?]. Qed.
Lemma ends_keep {A B} t (m : CM A) (f : A → CM (option B)) : keeps m → (∀ a, ends t (f a)) → ends t (m ≫= f).
Proof.
  intros Hm Hf. eapply ensures_bind; [exact Hm|]. intros a. eapply ensures_impl; [apply Hf|].
  intros c1 c2 o H c Hc Ho. by eapply closes_same; [exact Hc|apply H|].
Qed.
Lemma closes_twice t c1 c2 c3 : closes t c1 c2 → closes t c2 c3 → closes t c1 c3.
Proof. intros (E1 & ? & ?) (E2 & ? & ?). split_and!; [|congruence..]. rewrite E2, E1. set_solver. Qed.
Lemma Abort_ends {A} t (a : A) : ends t (Coord.Abort t ;; mret (Some a)).
Proof.
  eapply ensures_bind; [apply Abort_closes|]. intros st. apply ensures_mret. by intros c1 c Hc _.
Qed.
Lemma Commit_ends {A} t (f : Status → CM (option A)) : (∀ st, f st = mret None ∨ (∃ a, f st = mret (Some a)) ∨ ends t (f st)) →
  ends t (Coord.Commit t ≫= f).
Proof.
  intros Hf. eapply ensures_bind; [apply Commit_closes|]. intros st. destruct (Hf st) as [-> |[[a ->]|He]].
  - apply ensures_mret. by intros c1 c _ [? ?].
  - apply ensures_mret. by intros c1 c Hc _.
  - eapply ensures_impl; [exact He|]. intros c1 c2 o H c Hc Ho. eapply closes_twice; [exact Hc|by apply H].
Qed.

(** A transaction that is begun and ended leaves what was open. *)
Lemma Begin_ends {A} (f : Z → CM (option A)) : (∀ t, ends t (f t)) →
  ensures (Coord.Begin ≫= f) (λ c c' o, is_Some o → next_raft_id_ c ∉ open_txns c →
    open_txns c' = open_txns c ∧ next_raft_id_ c' = u64 (next_raft_id_ c + 1)).
Proof.
  intros Hf. eapply ensures_bind; [apply Begin_opens|]. intros t. eapply ensures_impl; [apply Hf|].
  intros c1 c2 o H c (-> & Ho & Hn) Hs Hfresh. destruct (H Hs) as (E & E2 & _). rewrite E, E2, Ho. split; [set_solver|done].
Qed.

(** ** The five kinds of transactions *)

Section workload.
Context `{Undefined}.
Implicit Types (b : Benchmark) (r : Draw).

Lemma CheckTxnTimeout_ends t late k : ends t k → ends t (Bench.CheckTxnTimeout late k).
Proof. intros Hk. unfold Bench.CheckTxnTimeout. destruct late; [apply ends_none|done]. Qed.
Lemma abort_txn_ends t : ends t (Bench.abort_txn t).
Proof. apply Abort_ends. Qed.
Lemma read_row_ends r i t tid pk k : (∀ row, ends t (k row)) → ends t (Bench.read_row r i t tid pk k).
Proof.
  intros Hk. apply ends_keep; [apply keeps_Read|]. intros x. destruct (negb _); [apply abort_txn_ends|]. by apply CheckTxnTimeout_ends.
Qed.
Lemma rewrite_row_ends r i t tid pk n f k : ends t k → ends t (Bench.rewrite_row r i t tid pk n f k).
Proof.
  intros Hk. apply read_row_ends. intros row. cbv beta zeta. destruct (negb _); [apply abort_txn_ends|]. destruct (f _); [|apply ends_none].
  apply ends_keep; [apply keeps_Write|]. intros st. destruct (negb _); [apply abort_txn_ends|by apply CheckTxnTimeout_ends].
Qed.
Lemma commit_txn_ends r i t : ends t (Bench.commit_txn r i t).
Proof.
  apply Commit_ends. intros st. unfold Bench.CheckTxnTimeout. destruct (dr_late r i); [by left|].
  destruct (negb _); [right; right; apply abort_txn_ends|]. right. left. by exists true.
Qed.
Lemma deliver_ends b r i t ds : ends t (Bench.deliver b r i t ds).
Proof. revert i. induction ds as [|d ds IH]; intros i; cbn [Bench.deliver]; [apply commit_txn_ends|by apply rewrite_row_ends]. Qed.

Create HintDb ends discriminated.
#[local] Hint Resolve CheckTxnTimeout_ends read_row_ends rewrite_row_ends commit_txn_ends deliver_ends : ends.
Lemma run_txn_clean b ty r : ensures (Bench.run_txn b ty r) (λ c c' o, is_Some o → next_raft_id_ c ∉ open_txns c →
  open_txns c' = open_txns c ∧ next_raft_id_ c' = u64 (next_raft_id_ c + 1)).
Proof.
  unfold Bench.run_txn. destruct (ty =? 0); [|destruct (ty =? 1); [|destruct (ty =? 2); [|destruct (ty =? 3)]]];
    apply Begin_ends; intros t; cbv zeta; auto 10 with ends nocore.
Qed.

(** *** What a transaction that succeeds has done *)

(** A row is read, changed and written back. *)
Definition changes_row (tid : Z) (pk : bytes) (n : nat) (change : list bytes → option (list bytes)) (ops : list Op) : Prop :=
  ∃ row cells, length (Bench.DecodeRow row) = n ∧ change (Bench.DecodeRow row) = Some cells ∧
    ops = [ReadOp tid pk row; WriteOp tid pk (Bench.EncodeRow cells)].
Definition reads_row (tid : Z) (pk : bytes) (ops : list Op) : Prop := ∃ row, ops = [ReadOp tid pk row].
(** Several of them in turn. *)
Definition in_turn (steps : list (list Op → Prop)) (ops : list Op) : Prop :=
  ∃ parts, Forall2 (λ step part, step part) steps parts ∧ ops = concat parts.

(** The steps of each kind of transaction. *)
Inductive Step := ChangeRow (tid : Z) (pk : bytes) (n : nat) (change : list bytes → option (list bytes)) | ReadRow (tid : Z) (pk : bytes).
Definition step_ops (s : Step) : list Op → Prop :=
  match s with
  | ChangeRow tid pk n change => changes_row tid pk n change
  | ReadRow tid pk => reads_row tid pk
  end.
Definition txn_steps b (ty : Z) r : list Step :=
  let t := tables b in
  let w := dr_w r in
  let district := Bench.district_pk w (dr_d r) in
  let customer := Bench.customer_pk w (dr_d r) (dr_c r) in
  let warehouse := FormatPK w in
  let amount := dr_amount r in
  if ty =? 0 then
    [ChangeRow (Tpcc.t_district t) district 5 (Bench.add_one 3);
     ReadRow (Tpcc.t_customer t) customer;
     ChangeRow (Tpcc.t_warehouse t) warehouse 3 (Bench.add_amount 2 amount)]
  else if ty =? 1 then
    [ChangeRow (Tpcc.t_district t) district 5 (Bench.add_amount 4 amount);
     ChangeRow (Tpcc.t_warehouse t) warehouse 3 (Bench.add_amount 2 amount);
     ChangeRow (Tpcc.t_customer t) customer 5 (Bench.sub_amount 4 amount)]
  else if ty =? 2 then
    [ReadRow (Tpcc.t_customer t) customer; ReadRow (Tpcc.t_orders t) (Bench.order_pk w (dr_d r) (dr_c r))]
  else if ty =? 3 then
    (λ d, ChangeRow (Tpcc.t_customer t) (Bench.customer_pk w d (dr_customers r d)) 5 (Bench.add_amount 4 (double_of_Z 1)))
      <$> seqZ 0 (Bench.district_count b)
  else
    [ReadRow (Tpcc.t_stock t) (Bench.stock_pk w (dr_item r));
     ReadRow (Tpcc.t_order_line t) (Bench.order_pk w (dr_d r) (Bench.stock_customer b (dr_item r)))].
Definition txn_spec b (ty : Z) r : list Op → Prop := in_turn (step_ops <$> txn_steps b ty r).

(** [m], in transaction [txn], returns [true] only after such steps and a commit. *)
Definition commits_after (txn : Z) (m : CM (option bool)) (steps : list Step) : Prop :=
  ∀ c tr c', path (m c) tr (Some (c', Some true)) →
    ∃ ops c2 tr1 tr2 st, in_turn (step_ops <$> steps) ops ∧ calls txn c ops tr1 c2 ∧
      path (Coord.Commit txn c2) tr2 (Some (c', st)) ∧ St.ok st = true ∧ tr = tr1 ++ tr2.

Lemma abort_txn_false t c tr c' : ¬ path (Bench.abort_txn t c) tr (Some (c', Some true)).
Proof.
  intros [[_ ?]|(? & ? & c1 & ? & _ & _ & H2)]%cm_bind_inv; [done|]. by apply mret_inv in H2 as [_ [?|?]].
Qed.
Lemma CheckTxnTimeout_true late k c tr c' : path (Bench.CheckTxnTimeout late k c) tr (Some (c', Some true)) →
  path (k c) tr (Some (c', Some true)).
Proof. unfold Bench.CheckTxnTimeout. destruct late; [|done]. intros Hp. by apply mret_inv in Hp as [_ [?|?]]. Qed.

Lemma read_row_true r i txn tid pk k c tr c' : path (Bench.read_row r i txn tid pk k c) tr (Some (c', Some true)) →
  ∃ data st c1 tr1 tr2, path (Coord.Read txn tid pk c) tr1 (Some (c1, (st, data))) ∧ St.ok st = true ∧
    path (k (default [] data) c1) tr2 (Some (c', Some true)) ∧ tr = tr1 ++ tr2.
Proof.
  intros [[_ ?]|(tr1 & tr2 & c1 & [st data] & -> & H1 & H2)]%cm_bind_inv; [done|]. cbn [fst snd] in H2.
  destruct (St.ok st) eqn:Est; cbn [negb] in H2; [|by apply abort_txn_false in H2].
  apply CheckTxnTimeout_true in H2. by exists data, st, c1, tr1, tr2.
Qed.
Lemma in_turn_cons (step : list Op → Prop) steps o ops : step o → in_turn steps ops → in_turn (step :: steps) (o ++ ops).
Proof. intros Ho (parts & HF & ->). exists (o :: parts). split; [by constructor|done]. Qed.

Lemma commits_read r i txn tid pk k steps : (∀ row, commits_after txn (k row) steps) →
  commits_after txn (Bench.read_row r i txn tid pk k) (ReadRow tid pk :: steps).
Proof.
  intros Hk c tr c' (data & st & c1 & tr1 & tr2 & Hr & Hst & Hp & ->)%read_row_true.
  destruct (Hk _ _ _ _ Hp) as (ops & c2 & tr3 & tr4 & st' & Hops & Hc & Hcm & Hok & ->).
  exists ([ReadOp tid pk (default [] data)] ++ ops), c2, (tr1 ++ tr3), tr4, st'. split_and!; [|by econstructor|done|done|by rewrite app_assoc].
  apply in_turn_cons; [by eexists|done].
Qed.
Lemma commits_rewrite r i txn tid pk n f k steps : commits_after txn k steps →
  commits_after txn (Bench.rewrite_row r i txn tid pk n f k) (ChangeRow tid pk n f :: steps).
Proof.
  intros Hk c tr c' (data & st & c1 & tr1 & tr2 & Hr & Hst & Hp & ->)%read_row_true.
  cbv beta zeta in Hp. destruct (Nat.eqb_spec (length (Bench.DecodeRow (default [] data))) n) as [Hn|]; cbn [negb] in Hp; [|by apply abort_txn_false in Hp].
  destruct (f _) as [cells|] eqn:Ef; [|by apply mret_inv in Hp as [_ [?|?]]].
  apply cm_bind_inv in Hp as [[_ ?]|(tr3 & tr4 & c2 & st2 & -> & Hw & Hp)]; [done|].
  destruct (St.ok st2) eqn:Est; cbn [negb] in Hp; [|by apply abort_txn_false in Hp]. apply CheckTxnTimeout_true in Hp.
  destruct (Hk _ _ _ Hp) as (ops & c3 & tr5 & tr6 & st' & Hops & Hc & Hcm & Hok & ->).
  exists ([ReadOp tid pk (default [] data); WriteOp tid pk (Bench.EncodeRow cells)] ++ ops), c3, (tr1 ++ tr3 ++ tr5), tr6, st'.
  split_and!; [|econstructor; [done..|by econstructor]|done|done|by rewrite !app_assoc].
  apply in_turn_cons; [|done]. by eexists _, _.
Qed.
Lemma commits_commit r i txn : commits_after txn (Bench.commit_txn r i txn) [].
Proof.
  intros c tr c' [[_ ?]|(tr1 & tr2 & c1 & st & -> & H1 & H2)]%cm_bind_inv; [done|]. apply CheckTxnTimeout_true in H2.
  destruct (St.ok st) eqn:Est; cbn [negb] in H2; [|by apply abort_txn_false in H2].
  apply mret_inv in H2 as [-> [?|E]]; [done|]. injection E as ->. exists [], c, [], tr1, st. rewrite app_nil_r.
  split_and!; [by exists []|constructor|done..].
Qed.
Lemma commits_check late txn k steps : commits_after txn k steps → commits_after txn (Bench.CheckTxnTimeout late k) steps.
Proof. intros Hk c tr c' Hp%CheckTxnTimeout_true. by apply Hk. Qed.
Lemma commits_deliver b r i txn ds : commits_after txn (Bench.deliver b r i txn ds)
  ((λ d, ChangeRow (Tpcc.t_customer (tables b)) (Bench.customer_pk (dr_w r) d (dr_customers r d)) 5
     (Bench.add_amount 4 (double_of_Z 1))) <$> ds).
Proof. revert i. induction ds as [|d ds IH]; intros i; [apply commits_commit|]. apply commits_rewrite, IH. Qed.

#[local] Hint Resolve commits_check commits_read commits_rewrite commits_commit commits_deliver : ends.
Lemma run_txn_commits b ty r c tr c' : path (Bench.run_txn b ty r c) tr (Some (c', Some true)) →
  ∃ ops, txn_spec b ty r ops ∧ committed c ops tr c'.
Proof.
  assert (Hb : ∀ (f : Z → CM (option bool)) steps, (∀ txn, commits_after txn (f txn) steps) →
    path ((Coord.Begin ≫= f) c) tr (Some (c', Some true)) → ∃ ops, in_turn (step_ops <$> steps) ops ∧ committed c ops tr c').
  { intros f steps Hf [[_ ?]|(tr0 & tr' & c1 & txn & -> & Hbg & Hp)]%cm_bind_inv; [done|].
    apply Begin_inv in Hbg as (-> & -> & Hbg). destruct (Hf _ _ _ _ Hp) as (ops & c2 & tr1 & tr2 & st & Ho & Hc & Hcm & Hok & ->).
    exists ops. split; [done|]. by exists c1, c2, tr1, tr2, st. }
  unfold Bench.run_txn, txn_spec, txn_steps. destruct (ty =? 0); [|destruct (ty =? 1); [|destruct (ty =? 2); [|destruct (ty =? 3)]]];
    apply Hb; intros txn; cbv zeta; auto 10 with ends nocore.
Qed.

(** C35. What the benchmark measures. A transaction of any of its five kinds, whatever the
    coordinator answers: unless the process ends, the coordinator has the same open
    transactions as before; and it counts as committed only if the coordinator committed
    a transaction that read and wrote exactly the rows of its kind, each changed row
    being the row it had read with one number changed: the next order number and the
    warehouse's total by New-Order, the amount added to the district and the warehouse
    and taken from the customer by Payment, one customer per district by Delivery, and
    nothing by Order-Status and Stock-Level. *)
Theorem benchmark_transactions b (ty : Z) r (c c' : Coordinator) (tr : list CEvent) (ok : bool) :
  path (Bench.run_txn b ty r c) tr (Some (c', Some ok)) → next_raft_id_ c ∉ open_txns c →
  open_txns c' = open_txns c ∧ next_raft_id_ c' = u64 (next_raft_id_ c + 1) ∧
  (ok = true → ∃ ops, txn_spec b ty r ops ∧ committed c ops tr c').
Proof.
  intros Hp Hfresh. destruct (run_txn_clean b ty r _ _ _ _ Hp) as [Ho Hn]; [done|done|]. split_and!; [done|done|].
  intros ->. by apply run_txn_commits.
Qed.
End workload.

(** ** Worker threads *)

(** [n] more transactions have new numbers. *)
Definition numbers_left (n : nat) (c : Coordinator) : Prop :=
  0 ≤ next_raft_id_ c ∧ next_raft_id_ c + Z.of_nat n < 2 ^ 64 ∧ ∀ t, t ∈ open_txns c → t < next_raft_id_ c.

Section workers.
Context `{Undefined}.
Implicit Types (b : Benchmark) (st : Bench.BenchState).

Lemma numbers_left_next n c c' : numbers_left (S n) c → open_txns c' = open_txns c →
  next_raft_id_ c' = u64 (next_raft_id_ c + 1) → numbers_left n c'.
Proof.
  intros (H0 & Hn & Hlt) Eo En. unfold numbers_left. rewrite Eo, En.
  assert (u64 (next_raft_id_ c + 1) = next_raft_id_ c + 1) as -> by (apply Z.mod_small; lia).
  split_and!; [lia|lia|]. intros t Ht%Hlt. lia.
Qed.
Lemma numbers_left_le n m c : (m ≤ n)%nat → numbers_left n c → numbers_left m c.
Proof. intros Hm (? & ? & ?). split_and!; [done|lia|done]. Qed.
Lemma numbers_left_fresh n c : numbers_left n c → next_raft_id_ c ∉ open_txns c.
Proof. intros (_ & _ & Hlt) Hin%Hlt. lia. Qed.

Lemma attempt_loop_clean b ty n draws k c tr c' o : path (Bench.attempt_loop b ty n draws c) tr (Some (c', Some o)) →
  numbers_left (n + k) c → open_txns c' = open_txns c ∧ numbers_left k c'.
Proof.
  revert draws c tr. induction n as [|n IH]; intros draws c tr Hp Hn.
  { destruct draws; apply mret_inv in Hp as [_ [?|E]]; try done; by injection E as -> ->. }
  destruct draws as [|r draws]; cbn [Bench.attempt_loop] in Hp.
  { apply mret_inv in Hp as [_ [?|E]]; [done|]. injection E as -> ->. split; [done|]. eapply numbers_left_le; [|exact Hn]. lia. }
  apply cm_bind_inv in Hp as [[_ ?]|(tr1 & tr2 & c1 & [ok|] & -> & H1 & H2)]; [done| |].
  2: { apply mret_inv in H2 as [_ [?|?]]; done. }
  destruct (run_txn_clean b ty r _ _ _ _ H1 ltac:(done) (numbers_left_fresh _ _ Hn)) as [Eo En].
  pose proof (numbers_left_next (n + k) _ _ Hn Eo En) as Hn1. destruct ok.
  - apply mret_inv in H2 as [_ [?|E]]; [done|]. injection E as -> ->. split; [done|]. eapply numbers_left_le; [|exact Hn1]. lia.
  - destruct (IH _ _ _ H2 Hn1) as [E2 ?]. split; [congruence|done].
Qed.

(** What a round counts. *)
Definition counted b (rd : Bench.Round) (ok : bool) : Bench.Finished :=
  Bench.MkFinished (Bench.PickTxnType (config_ b) (Bench.rd_mix rd)) ok
    (if Bench.rd_measuring rd then Some (Bench.latency_us (Bench.rd_ns rd)) else None).
Definition count_all st (fs : list Bench.Finished) : Bench.BenchState :=
  foldl (λ st f, Bench.count_txn st (Bench.f_type f) (Bench.f_ok f) (Bench.f_us f)) st fs.

(** A worker that has not been ended leaves no transaction behind, and counts each of
    its rounds once, as committed or as aborted. *)
Theorem worker_rounds b (rounds : list Bench.Round) st (c c' : Coordinator) (tr : list CEvent) st' :
  path (Bench.WorkerThread b rounds st c) tr (Some (c', Some st')) →
  numbers_left (length rounds * Bench.kMaxAttempts) c →
  open_txns c' = open_txns c ∧
  ∃ oks, length oks = length rounds ∧ st' = count_all st (zip_with (counted b) rounds oks).
Proof.
  revert st c tr. induction rounds as [|rd rounds IH]; intros st c tr Hp Hn; cbn [Bench.WorkerThread] in Hp.
  { apply mret_inv in Hp as [_ [?|E]]; [done|]. injection E as -> ->. split; [done|]. by exists []. }
  apply cm_bind_inv in Hp as [[_ ?]|(tr1 & tr2 & c1 & o & -> & H1 & H2)]; [done|]. unfold Bench.worker_round in H1.
  apply cm_bind_inv in H1 as [[_ ?]|(tr3 & tr4 & c2 & ok & -> & H1 & H3)]; [done|].
  apply mret_inv in H3 as [-> [?|E]]; [done|]. injection E as -> ->. destruct ok as [ok|].
  2: { by apply mret_inv in H2 as [_ [?|?]]. }
  cbn [mbind option_bind] in H2. destruct (attempt_loop_clean _ _ _ _ (length rounds * Bench.kMaxAttempts) _ _ _ _ H1) as [Eo Hn1].
  { eapply numbers_left_le; [|exact Hn]. cbn [length Nat.mul]. lia. }
  destruct (IH _ _ _ H2 Hn1) as (Eo2 & oks & Hl & ->). split; [congruence|]. exists (ok :: oks).
  split; [cbn; by rewrite Hl|done].
Qed.
End workers.

(** ** The loader *)

(** One committed transaction per batch of rows. *)
Inductive batches : Coordinator → list (Z * list Tpcc.kv) → list CEvent → Coordinator → Prop :=
  | batches_nil c : batches c [] [] c
  | batches_cons c tid kvs tr c1 bs tr' c' : committed c ((λ x, WriteOp tid x.1 x.2) <$> kvs) tr c1 → batches c1 bs tr' c' →
      batches c ((tid, kvs) :: bs) (tr ++ tr') c'.
Definition rows_of (bs : list (Z * list Tpcc.kv)) : list (Z * Tpcc.kv) := bs ≫= λ b, pair b.1 <$> b.2.

Definition district_batches (cfg : TPCCConfig) (t : Tpcc.Tables) (w d : Z) : list (Z * list Tpcc.kv) :=
  let cs := seqZ 1 (customers_per_dist cfg) in
  [(Tpcc.t_district t, [Tpcc.district_row w d]); (Tpcc.t_customer t, Tpcc.customer_row w d <$> cs);
   (Tpcc.t_orders t, Tpcc.order_row w d <$> cs); (Tpcc.t_order_line t, Tpcc.order_line_row w d <$> cs)].
Definition warehouse_batches (cfg : TPCCConfig) (t : Tpcc.Tables) (w : Z) : list (Z * list Tpcc.kv) :=
  (Tpcc.t_warehouse t, [Tpcc.warehouse_row w]) :: (seqZ 0 (districts_per_wh cfg) ≫= district_batches cfg t w) ++
  [(Tpcc.t_stock t, Tpcc.stock_row w <$> seqZ 1 (items_per_wh cfg))].
Definition tpcc_batches (cfg : TPCCConfig) (t : Tpcc.Tables) : list (Z * list Tpcc.kv) :=
  seqZ 1 (num_warehouses cfg) ≫= warehouse_batches cfg t.

Lemma batches_app c bs1 tr1 c1 bs2 tr2 c2 : batches c bs1 tr1 c1 → batches c1 bs2 tr2 c2 → batches c (bs1 ++ bs2) (tr1 ++ tr2) c2.
Proof. induction 1; intros H2; [done|]. cbn. rewrite <- app_assoc. econstructor; eauto. Qed.

Lemma write_all_ok late k txn tid kvs c tr c' s : path (Tpcc.write_all late k txn tid kvs c) tr (Some (c', Some s)) →
  St.ok s = true → calls txn c ((λ x, WriteOp tid x.1 x.2) <$> kvs) tr c'.
Proof.
  intros Hp Hs. revert k c tr Hp. induction kvs as [|[key v] kvs IH]; intros k c tr Hp; cbn [Tpcc.write_all] in Hp.
  { apply mret_inv in Hp as [-> [?|E]]; [done|]. injection E as -> ->. constructor. }
  apply cm_bind_inv in Hp as [[_ ?]|(tr1 & tr2 & c1 & st & -> & H1 & H2)]; [done|].
  destruct (late k); [by apply mret_inv in H2 as [_ [?|?]]|]. destruct (St.ok st) eqn:Est; cbn [negb] in H2.
  - econstructor; eauto.
  - apply cm_bind_inv in H2 as [[_ ?]|(tr3 & tr4 & c2 & ? & -> & H3 & H4)]; [done|].
    apply mret_inv in H4 as [_ [?|E]]; [done|]. injection E as -> ->. congruence.
Qed.

(** [m] returns a number of rows only when it has committed [bs], which has as many. *)
Definition loads (m : CM (option Z)) (bs : list (Z * list Tpcc.kv)) : Prop :=
  ∀ c tr c' n, path (m c) tr (Some (c', Some n)) → batches c bs tr c' ∧ n = Z.of_nat (length (rows_of bs)).

Lemma load_batch_loads late tid kvs : loads (Tpcc.load_batch late tid kvs) [(tid, kvs)].
Proof.
  intros c tr c' n Hp. unfold Tpcc.load_batch in Hp.
  apply cm_bind_inv in Hp as [[_ ?]|(tr1 & tr2 & c1 & s & -> & H1 & H2)]; [done|].
  apply mret_inv in H2 as [-> [?|E]]; [done|]. injection E as <- E. destruct s as [s|]; [|done]. cbn in E.
  destruct (St.ok s) eqn:Es; [|done]. injection E as ->. rewrite app_nil_r. unfold Tpcc.RunWriteTx in H1.
  apply cm_bind_inv in H1 as [[_ ?]|(tr0 & tr' & c2 & txn & -> & Hb & H1)]; [done|]. apply Begin_inv in Hb as (-> & -> & Hb).
  apply cm_bind_inv in H1 as [[_ ?]|(tr3 & tr4 & c3 & o & -> & Hw & H1)]; [done|].
  destruct o as [s1|]; [|by apply mret_inv in H1 as [_ [?|?]]]. destruct (St.ok s1) eqn:Es1; cbn [negb] in H1.
  2: { apply mret_inv in H1 as [_ [?|E]]; [done|]. injection E as -> ->. congruence. }
  apply cm_bind_inv in H1 as [[_ ?]|(tr5 & tr6 & c4 & s2 & -> & Hc & H1)]; [done|].
  destruct (late _ _); [by apply mret_inv in H1 as [_ [?|?]]|]. destruct (St.ok s2) eqn:Es2; cbn [negb] in H1.
  2: { apply cm_bind_inv in H1 as [[_ ?]|(tr7 & tr8 & c5 & ? & -> & _ & H1)]; [done|].
       apply mret_inv in H1 as [_ [?|E]]; [done|]. injection E as -> ->. congruence. }
  apply mret_inv in H1 as [-> [?|E]]; [done|]. injection E as -> ->. rewrite app_nil_r.
  split; [|unfold rows_of; cbn; by rewrite app_nil_r, length_fmap].
  cbn [app]. rewrite <- (app_nil_r (tr3 ++ tr5)). econstructor; [|constructor].
  exists c2, c3, tr3, tr5, s2. split_and!; try done. by eapply write_all_ok.
Qed.

Lemma in_order_loads ms bss : Forall2 loads ms bss → loads (Tpcc.in_order ms) (concat bss).
Proof.
  induction 1 as [|m bs ms bss Hm _ IH]; intros c tr c' n Hp; cbn [Tpcc.in_order concat] in *.
  { apply mret_inv in Hp as [-> [?|E]]; [done|]. injection E as -> ->. split; [constructor|done]. }
  apply cm_bind_inv in Hp as [[_ ?]|(tr1 & tr2 & c1 & o & -> & H1 & H2)]; [done|].
  destruct o as [n1|]; [|by apply mret_inv in H2 as [_ [?|?]]].
  apply cm_bind_inv in H2 as [[_ ?]|(tr3 & tr4 & c2 & o & -> & H2 & H3)]; [done|].
  apply mret_inv in H3 as [-> [?|E]]; [done|]. injection E as <- E. destruct o as [n2|]; [|done]. injection E as ->.
  rewrite app_nil_r. destruct (Hm _ _ _ _ H1) as [Hb1 ->], (IH _ _ _ _ H2) as [Hb2 ->].
  split; [by eapply batches_app|]. unfold rows_of. rewrite bind_app, length_app. lia.
Qed.
Lemma Forall2_loads {A} (f : A → CM (option Z)) (g : A → list (Z * list Tpcc.kv)) l : (∀ x, loads (f x) (g x)) → Forall2 loads (f <$> l) (g <$> l).
Proof. intros Hfg. apply Forall2_fmap, Forall_Forall2_diag, Forall_forall. auto. Qed.
Lemma bind_concat {A B} (f : A → list B) (l : list A) : concat (f <$> l) = l ≫= f.
Proof. induction l as [|x l IH]; cbn; [done|]. by rewrite IH. Qed.

Lemma load_district_loads late cfg t w d : loads (Tpcc.load_district late cfg t w d) (district_batches cfg t w d).
Proof.
  change (district_batches cfg t w d) with (concat ((λ b : Z * list Tpcc.kv, [b]) <$> district_batches cfg t w d)).
  apply in_order_loads. do 4 (apply Forall2_cons_2; [apply load_batch_loads|]). constructor.
Qed.
Lemma load_warehouse_loads late cfg t w : loads (Tpcc.load_warehouse late cfg t w) (warehouse_batches cfg t w).
Proof.
  replace (warehouse_batches cfg t w) with (concat ([(Tpcc.t_warehouse t, [Tpcc.warehouse_row w])] ::
    (district_batches cfg t w <$> seqZ 0 (districts_per_wh cfg)) ++ [[(Tpcc.t_stock t, Tpcc.stock_row w <$> seqZ 1 (items_per_wh cfg))]])).
  - apply in_order_loads. constructor; [apply load_batch_loads|]. apply Forall2_app; [|apply Forall2_cons_2; [apply load_batch_loads|constructor]].
    apply Forall2_loads. intros d. apply load_district_loads.
  - cbn [concat]. by rewrite concat_app, bind_concat.
Qed.

(** *** No two rows have the same key *)

Definition keys_of (bs : list (Z * list Tpcc.kv)) : list (Z * bytes) := bs ≫= λ b, (λ x : Tpcc.kv, (b.1, x.1)) <$> b.2.
Lemma keys_app bs bs' : keys_of (bs ++ bs') = keys_of bs ++ keys_of bs'.
Proof. apply bind_app. Qed.
Lemma keys_bind {A} (f : A → list (Z * list Tpcc.kv)) (l : list A) : keys_of (l ≫= f) = l ≫= λ x, keys_of (f x).
Proof. induction l as [|x l IH]; cbn; [done|]. rewrite keys_app. by f_equal. Qed.
Lemma keys_rows bs : keys_of bs = (λ x, (x.1, x.2.1)) <$> rows_of bs.
Proof.
  unfold keys_of, rows_of. induction bs as [|[tid kvs] bs IH]; cbn; [done|]. rewrite fmap_app. f_equal; [|exact IH].
  rewrite <- list_fmap_compose. done.
Qed.

Section distinct.
Context (cfg : TPCCConfig) (t : Tpcc.Tables).
Context (Ht : NoDup [Tpcc.t_warehouse t; Tpcc.t_district t; Tpcc.t_customer t; Tpcc.t_orders t; Tpcc.t_order_line t; Tpcc.t_stock t]).
Context (Hd : districts_per_wh cfg ≤ 10) (Hc : customers_per_dist cfg < 10000) (Hi : items_per_wh cfg < 10000).

(** The numbers behind the keys of a district, and of a warehouse. *)
Definition in_district (w d : Z) (x : Z * bytes) : Prop :=
  ∃ v, 0 ≤ v ∧ x.2 = FormatPK v ∧
    (x.1 = Tpcc.t_district t ∧ v = Tpcc.district_id w d ∨
     ∃ c, 1 ≤ c < 10000 ∧ (x.1 = Tpcc.t_customer t ∧ v = Tpcc.customer_id w d c ∨
       (x.1 = Tpcc.t_orders t ∨ x.1 = Tpcc.t_order_line t) ∧ v = Tpcc.order_id w d c)).
Definition in_warehouse (w : Z) (x : Z * bytes) : Prop :=
  (∃ v, 0 ≤ v ∧ x.2 = FormatPK v ∧
    (x.1 = Tpcc.t_warehouse t ∧ v = w ∨ x.1 = Tpcc.t_stock t ∧ ∃ i, 1 ≤ i < 10000 ∧ v = Tpcc.stock_id w i)) ∨
  ∃ d, 0 ≤ d < 10 ∧ in_district w d x.

Local Ltac unfold_ids := unfold Tpcc.district_id, Tpcc.customer_id, Tpcc.order_id, Tpcc.stock_id in *.
Local Ltac table_cases := let Hnd := fresh "Hnd" in pose proof Ht as Hnd; repeat (apply NoDup_cons in Hnd as [? Hnd]); clear Hnd;
  repeat match goal with E : _ ∉ _ :: _ |- _ => apply not_elem_of_cons in E as [? E] | E : _ ∉ [] |- _ => clear E end.
Local Ltac other_table := exfalso; match goal with
  | Hne : ?a ≠ ?b, E : ?a = ?b |- _ => exact (Hne E)
  | Hne : ?a ≠ ?b, E : ?b = ?a |- _ => exact (Hne (eq_sym E))
  end.

Local Ltac same_number := repeat match goal with E : _ ≠ _ |- _ => clear E end; lia.

Lemma district_keys w d x : 1 ≤ w → 0 ≤ d → x ∈ keys_of (district_batches cfg t w d) → in_district w d x.
Proof.
  intros Hw Hd0. unfold keys_of, district_batches, in_district. cbn [mbind list_bind fst snd fmap list_fmap app].
  rewrite elem_of_cons, !elem_of_app, elem_of_nil. rewrite <- !list_fmap_compose.
  rewrite !list_elem_of_fmap. intros [-> |[(c & -> & Hin)|[(c & -> & Hin)|[(c & -> & Hin)|[]]]]]; try apply elem_of_seqZ in Hin; cbn.
  - exists (Tpcc.district_id w d). unfold_ids. split_and!; [lia|done|auto].
  - exists (Tpcc.customer_id w d c). split_and!; [unfold_ids; lia|done|]. right. exists c. split; [lia|auto].
  - exists (Tpcc.order_id w d c). split_and!; [unfold_ids; lia|done|]. right. exists c. split; [lia|auto].
  - exists (Tpcc.order_id w d c). split_and!; [unfold_ids; lia|done|]. right. exists c. split; [lia|auto].
Qed.
Lemma warehouse_keys w x : 1 ≤ w → x ∈ keys_of (warehouse_batches cfg t w) → in_warehouse w x.
Proof.
  intros Hw. unfold warehouse_batches.
  change (keys_of (?a :: ?l)) with (keys_of [a] ++ keys_of l). rewrite keys_app, keys_bind, !elem_of_app.
  intros [Hin|[Hin|Hin]].
  - apply list_elem_of_singleton in Hin as ->. left. exists w. cbn. split_and!; [lia|done|auto].
  - apply list_elem_of_bind in Hin as (d & Hin & Hds%elem_of_seqZ). right. exists d. split; [lia|]. apply district_keys; [done|lia|done].
  - unfold keys_of in Hin. cbn in Hin. rewrite app_nil_r, <- list_fmap_compose in Hin.
    apply list_elem_of_fmap in Hin as (i & -> & Hin%elem_of_seqZ). left. exists (Tpcc.stock_id w i). cbn.
    split_and!; [unfold_ids; lia|done|]. right. split; [done|]. exists i. split; [lia|done].
Qed.

Lemma in_district_inj w w' d d' x : 0 ≤ d < 10 → 0 ≤ d' < 10 → in_district w d x → in_district w' d' x → w = w' ∧ d = d'.
Proof.
  intros Hb Hb' (v & Hv & Ev & Hx) (v' & Hv' & Ev' & Hx'). rewrite Ev in Ev'. apply FormatPK_inj in Ev' as <-; [|done..].
  clear Hd Hc Hi. table_cases. unfold_ids.
  destruct Hx as [[Et ->]|(c & Hcb & [[Et ->]|[[Et|Et] ->]])], Hx' as [[Et' Hv2]|(c' & Hcb' & [[Et' Hv2]|[[Et'|Et'] Hv2]])];
    rewrite Et in Et'; first [other_table|same_number].
Qed.
Lemma in_warehouse_inj w w' x : in_warehouse w x → in_warehouse w' x → w = w'.
Proof.
  table_cases.
  intros [(v & Hv & Ev & Hx)|(d & Hdb & Hx)] [(v' & Hv' & Ev' & Hx')|(d' & Hdb' & Hx')].
  - rewrite Ev in Ev'. apply FormatPK_inj in Ev' as <-; [|done..]. unfold_ids.
    destruct Hx as [[Et ->]|(Et & i & Hib & ->)], Hx' as [[Et' Hv2]|(Et' & i' & Hib' & Hv2)]; rewrite Et in Et';
      first [other_table|same_number].
  - destruct Hx' as (v' & _ & _ & Hx'). exfalso.
    destruct Hx as [[Et _]|(Et & _)], Hx' as [[Et' _]|(? & _ & [[Et' _]|[[Et'|Et'] _]])]; rewrite Et in Et'; other_table.
  - destruct Hx as (v & _ & _ & Hx). exfalso.
    destruct Hx' as [[Et' _]|(Et' & _)], Hx as [[Et _]|(? & _ & [[Et _]|[[Et|Et] _]])]; rewrite Et in Et'; other_table.
  - by destruct (in_district_inj w w' d d' x Hdb Hdb' Hx Hx').
Qed.

Lemma batch_keys_nodup {A} (tid : Z) (f : A → Tpcc.kv) (l : list A) : NoDup l →
  (∀ x y, x ∈ l → y ∈ l → (f x).1 = (f y).1 → x = y) → NoDup (keys_of [(tid, f <$> l)]).
Proof.
  intros Hl Hf. unfold keys_of. cbn. rewrite app_nil_r, <- list_fmap_compose. apply NoDup_fmap_2_strong; [|done].
  intros x y Hx Hy E. apply Hf; [done..|]. by injection E.
Qed.
Lemma keys_of_table bs x : x ∈ keys_of bs → x.1 ∈ bs.*1.
Proof.
  intros (b & (y & -> & _)%list_elem_of_fmap & Hb)%list_elem_of_bind. apply list_elem_of_fmap. by exists b.
Qed.
Lemma keys_nodup_app bs bs' : NoDup (keys_of bs) → (∀ tid, tid ∈ bs.*1 → tid ∈ bs'.*1 → False) → NoDup (keys_of bs') →
  NoDup (keys_of (bs ++ bs')).
Proof.
  intros H1 Hd' H2. rewrite keys_app. apply NoDup_app. split_and!; [done| |done].
  intros x Hx Hx'. by apply (Hd' x.1); apply keys_of_table.
Qed.
Lemma keys_nodup_cons tid kvs bs : NoDup (keys_of [(tid, kvs)]) → tid ∉ bs.*1 → NoDup (keys_of bs) → NoDup (keys_of ((tid, kvs) :: bs)).
Proof. intros H1 Hn H2. apply (keys_nodup_app [_]); [done| |done]. by intros x ->%list_elem_of_singleton. Qed.

Lemma district_nodup w d : 1 ≤ w → 0 ≤ d → NoDup (keys_of (district_batches cfg t w d)).
Proof.
  intros Hw Hd0. table_cases.
  assert (Hinj : ∀ (g : Z → Z) (f : Z → Tpcc.kv) tid, (∀ c, (f c).1 = FormatPK (g c)) → (∀ c c', 1 ≤ c → 1 ≤ c' → g c = g c' → c = c') →
    (∀ c, 1 ≤ c → 0 ≤ g c) → NoDup (keys_of [(tid, f <$> seqZ 1 (customers_per_dist cfg))])).
  { intros g f tid Ef Hg Hp. apply batch_keys_nodup; [apply NoDup_seqZ|]. intros x y Hx%elem_of_seqZ Hy%elem_of_seqZ E.
    rewrite !Ef in E. apply FormatPK_inj in E; [apply Hg; lia|apply Hp; lia..]. }
  unfold district_batches. cbv zeta.
  apply keys_nodup_cons; [apply NoDup_singleton|cbn; rewrite !not_elem_of_cons, elem_of_nil; tauto|].
  apply keys_nodup_cons; [|cbn; rewrite !not_elem_of_cons, elem_of_nil; tauto|].
  { apply (Hinj (Tpcc.customer_id w d)); [done|unfold_ids; same_number..]. }
  apply keys_nodup_cons; [|cbn; rewrite !not_elem_of_cons, elem_of_nil; tauto|].
  { apply (Hinj (Tpcc.order_id w d)); [done|unfold_ids; same_number..]. }
  apply (Hinj (Tpcc.order_id w d)); [done|unfold_ids; same_number..].
Qed.

Lemma warehouse_nodup w : 1 ≤ w → NoDup (keys_of (warehouse_batches cfg t w)).
Proof.
  intros Hw. table_cases.
  assert (Htab : ∀ tid, tid ∈ (seqZ 0 (districts_per_wh cfg) ≫= district_batches cfg t w).*1 →
    tid = Tpcc.t_district t ∨ tid = Tpcc.t_customer t ∨ tid = Tpcc.t_orders t ∨ tid = Tpcc.t_order_line t).
  { intros tid (b & -> & (d & Hb & _)%list_elem_of_bind)%list_elem_of_fmap. unfold district_batches in Hb.
    rewrite !elem_of_cons, elem_of_nil in Hb. destruct Hb as [-> |[-> |[-> |[-> |[]]]]]; cbn; tauto. }
  unfold warehouse_batches. apply keys_nodup_cons; [apply NoDup_singleton| |].
  { rewrite fmap_app, elem_of_app. cbn. rewrite list_elem_of_singleton. intros [Hin%Htab|?]; [|congruence].
    destruct Hin as [?|[?|[?|?]]]; congruence. }
  apply keys_nodup_app.
  - rewrite keys_bind. apply NoDup_bind; [|intros d Hds%elem_of_seqZ; apply district_nodup; same_number|apply NoDup_seqZ].
    intros d d' x Hd1%elem_of_seqZ Hd2%elem_of_seqZ Hx Hx'.
    apply district_keys in Hx, Hx'; [|same_number..]. destruct (in_district_inj w w d d' x) as [_ ?]; [same_number..|done|done|done].
  - intros tid Hin%Htab. cbn. rewrite list_elem_of_singleton. intros ->. destruct Hin as [?|[?|[?|?]]]; congruence.
  - apply batch_keys_nodup; [apply NoDup_seqZ|]. intros x y Hx%elem_of_seqZ Hy%elem_of_seqZ E.
    apply FormatPK_inj in E; unfold_ids; same_number.
Qed.

Lemma tpcc_keys_nodup : NoDup (keys_of (tpcc_batches cfg t)).
Proof.
  unfold tpcc_batches. rewrite keys_bind. apply NoDup_bind; [|intros w Hw%elem_of_seqZ; apply warehouse_nodup; lia|apply NoDup_seqZ].
  intros w w' x Hw%elem_of_seqZ Hw'%elem_of_seqZ Hx Hx'. apply warehouse_keys in Hx, Hx'; [|lia..]. by eapply in_warehouse_inj.
Qed.
End distinct.

(** *** How many rows there are *)

Lemma length_bind_const {A B} (f : A → list B) (l : list A) k : (∀ x, length (f x) = k) → length (l ≫= f) = (length l * k)%nat.
Proof. intros Hf. induction l as [|x l IH]; cbn; [done|]. by rewrite length_app, Hf, IH. Qed.
Lemma rows_app bs bs' : rows_of (bs ++ bs') = rows_of bs ++ rows_of bs'.
Proof. apply bind_app. Qed.
Lemma rows_bind {A} (f : A → list (Z * list Tpcc.kv)) (l : list A) : rows_of (l ≫= f) = l ≫= λ x, rows_of (f x).
Proof. induction l as [|x l IH]; cbn; [done|]. rewrite rows_app. by f_equal. Qed.

Definition row_count (cfg : TPCCConfig) : Z :=
  num_warehouses cfg * (1 + districts_per_wh cfg * (1 + 3 * customers_per_dist cfg) + items_per_wh cfg).
Lemma tpcc_rows_length cfg t : 0 ≤ num_warehouses cfg → 0 ≤ districts_per_wh cfg → 0 ≤ customers_per_dist cfg → 0 ≤ items_per_wh cfg →
  Z.of_nat (length (rows_of (tpcc_batches cfg t))) = row_count cfg.
Proof.
  intros Hw Hd Hc Hi. unfold tpcc_batches. rewrite rows_bind.
  rewrite (length_bind_const _ _ (1 + Z.to_nat (districts_per_wh cfg) * (1 + 3 * Z.to_nat (customers_per_dist cfg)) +
    Z.to_nat (items_per_wh cfg))%nat).
  - rewrite length_seqZ. unfold row_count. nia.
  - intros w. unfold warehouse_batches. change (?a :: ?l) with ([a] ++ l) at 1. rewrite !rows_app, !length_app, rows_bind.
    rewrite (length_bind_const _ _ (1 + 3 * Z.to_nat (customers_per_dist cfg))%nat).
    + unfold rows_of. cbn. rewrite app_nil_r, !length_fmap, !length_seqZ. lia.
    + intros d. unfold rows_of. cbn. rewrite !length_app, !length_fmap, !length_seqZ. cbn. lia.
Qed.

(** *** What stays open *)

Lemma calls_keep txn c ops tr c' : calls txn c ops tr c' → same_txns c c'.
Proof.
  induction 1 as [|c tid pk data st tr c1 ops tr' c' Hr _ _ IH|c tid pk row st tr c1 ops tr' c' Hw _ _ IH]; [done|etrans; [|exact IH]..].
  - by eapply keeps_Read.
  - by eapply keeps_Write.
Qed.
Lemma committed_open c ops tr c' : committed c ops tr c' → next_raft_id_ c ∉ open_txns c →
  open_txns c' = open_txns c ∧ next_raft_id_ c' = u64 (next_raft_id_ c + 1).
Proof.
  intros (c1 & c2 & tr1 & tr2 & st & Hb & Hc & Hcm & _ & _) Hf. destruct (Begin_opens _ _ _ _ Hb) as (_ & Eo & En).
  destruct (calls_keep _ _ _ _ _ Hc) as (Eo2 & En2 & _). destruct (Commit_closes _ _ _ _ _ Hcm) as (Eo3 & En3 & _).
  split; [|congruence]. rewrite Eo3, Eo2, Eo. set_solver.
Qed.
Lemma batches_open c bs tr c' : batches c bs tr c' → numbers_left (length bs) c → open_txns c' = open_txns c.
Proof.
  induction 1 as [|c tid kvs tr c1 bs tr' c' Hc _ IH]; intros Hn; [done|]. cbn in Hn.
  destruct (committed_open _ _ _ _ Hc (numbers_left_fresh _ _ Hn)) as [Eo En]. rewrite IH, Eo; [done|].
  by eapply numbers_left_next.
Qed.

(** The tables of a new catalog. *)
Definition new_tables : Tpcc.Tables := Tpcc.MkTables 1 2 3 4 5 6.
Lemma create_tables_new : (Tpcc.create_tables new_Catalog).2 = Some new_tables.
Proof. vm_compute. reflexivity. Qed.

(** A load that returns has committed every batch. *)
Lemma LoadTPCCData_batches late cfg c c' tr n : path ((Tpcc.LoadTPCCData late new_Catalog cfg).2 c) tr (Some (c', Some n)) →
  batches c (tpcc_batches cfg new_tables) tr c' ∧ n = u64 (Z.of_nat (length (rows_of (tpcc_batches cfg new_tables)))).
Proof.
  intros Hp. unfold Tpcc.LoadTPCCData in Hp. pose proof create_tables_new as Et.
  destruct (Tpcc.create_tables new_Catalog) as [cat ts]. cbn [snd] in Et, Hp. subst ts.
  apply cm_bind_inv in Hp as [[_ ?]|(tr1 & tr2 & c1 & o & -> & H1 & H2)]; [done|].
  apply mret_inv in H2 as [-> [?|E]]; [done|]. injection E as <- E. destruct o as [m|]; [|done]. injection E as ->.
  rewrite app_nil_r. eapply in_order_loads in H1 as [Hb ->]; [|apply Forall2_loads; intros w; apply load_warehouse_loads].
  by rewrite bind_concat in Hb |- *.
Qed.

Definition counts_up (limit : Z) : Prop := 0 ≤ limit < 2 ^ 32 - 1.

(** C36. What the loader reports is loaded. When it returns into a new catalog, every
    batch of rows was written and committed, one transaction after the other; the number
    it returns is that of the rows of all warehouses; no transaction is left open; and
    with at most 10 districts, fewer than 10000 customers per district and fewer than
    10000 items, no two of these rows have the same table and key, so none replaced
    another. (The loops count in 32 bits up to and including their limits, so they only
    end if the limits are below the largest number.) *)
Theorem load_complete (late : Z → nat → bool) (cfg : TPCCConfig) (c c' : Coordinator) (tr : list CEvent) (n : Z) :
  counts_up (num_warehouses cfg) → counts_up (districts_per_wh cfg) → counts_up (customers_per_dist cfg) → counts_up (items_per_wh cfg) →
  path ((Tpcc.LoadTPCCData late new_Catalog cfg).2 c) tr (Some (c', Some n)) →
  let bs := tpcc_batches cfg new_tables in
  batches c bs tr c' ∧ n = u64 (row_count cfg) ∧
  (numbers_left (length bs) c → open_txns c' = open_txns c) ∧
  (districts_per_wh cfg ≤ 10 → customers_per_dist cfg < 10000 → items_per_wh cfg < 10000 →
    NoDup ((λ x, (x.1, x.2.1)) <$> rows_of bs)).
Proof.
  intros Hw Hd Hc Hi Hp bs. destruct (LoadTPCCData_batches _ _ _ _ _ _ Hp) as [Hb ->]. fold bs in Hb |- *.
  split_and!; [done| |by eapply batches_open|].
  - f_equal. apply (tpcc_rows_length cfg new_tables); unfold counts_up in *; lia.
  - intros. rewrite <- keys_rows. apply tpcc_keys_nodup; [|done..]. apply (bool_decide_unpack _). vm_compute. exact I.
Qed.
