(* ===== verification/WorkloadProofs.v ===== *)
(** * The benchmark runs on what was loaded

    Every row that a transaction of the benchmark reads or changes is one of the rows
    that the loader wrote, with the cells that the transaction expects. *)
From Stdlib Require Import Strings.Byte Strings.Ascii.
From stdpp Require Import base gmap sets strings sorting list.
From Stdlib Require Import ZArith Lia.
From S2P Require Import Prelude Status GroupCommit ShardMessages Effects CoordinatorLog Coordinator TwoPhase.
From S2P Require Import Text Catalog JoinHandler Lexer Parser DistributedJoin Executor ExecutorProofs ExecutorRows Tpcc Benchmark TpccProofs.
Local Open Scope Z_scope.

(** ** Which calls are made *)

(** Every call [m] makes satisfies [Q], from any state of the coordinator. *)
Definition asks {A} (Q : CoordAction → Prop) (m : CM A) : Prop := ∀ c, only Q (m c).

Section asks.
Context (Q : CoordAction → Prop).

Lemma asks_mret {A} (a : A) : asks Q (mret a : CM A).
Proof. by intros c. Qed.
Lemma asks_bind {A B} (m : CM A) (f : A → CM B) : asks Q m → (∀ a, asks Q (f a)) → asks Q (m ≫= f).
Proof. intros Hm Hf c. apply cm_bind_only; [apply Hm|]. intros c' a. apply Hf. Qed.
Lemma asks_perform a : Q a → asks Q (perform a).
Proof. by intros Ha c. Qed.
Lemma asks_get : asks Q get_state.
Proof. by intros c. Qed.
Lemma asks_set c : asks Q (set_state c).
Proof. by intros c'. Qed.
Lemma asks_fan_out {A B} (task : A → CM B) l : (∀ x, asks Q (task x)) → asks Q (fan_out task l).
Proof. intros Ht c. apply fan_out_only. intros x c' _. apply Ht. Qed.
End asks.

Create HintDb asks discriminated.
#[export] Hint Resolve asks_mret asks_get asks_set asks_fan_out : asks.
Ltac ask :=
  repeat match goal with
  | |- asks _ (perform _) => apply asks_perform; solve [auto | done]
  | |- asks _ (_ ≫= _) => apply asks_bind; [solve [ask | auto with asks nocore]|]; intros ?
  | |- asks _ (if ?b then _ else _) => destruct b
  | |- asks _ (match ?x with _ => _ end) => destruct x
  | |- asks _ _ => solve [auto with asks nocore]
  end.

Section commit_calls.
Context (Q : CoordAction → Prop) (HQ : ∀ a, phase a ≠ PhExecute → Q a).

#[local] Hint Extern 1 (Q _) => apply HQ; discriminate : core.
Lemma asks_GetStub sid : asks Q (Coord.GetStub sid).
Proof. unfold Coord.GetStub. ask. Qed.
Lemma asks_RotateStub sid : asks Q (Coord.RotateStub sid).
Proof. unfold Coord.RotateStub. ask. Qed.
#[local] Hint Resolve asks_GetStub asks_RotateStub : asks.
Lemma asks_Now : asks Q Coord.Now.
Proof. unfold Coord.Now. ask. Qed.
Lemma asks_prepare_loop a sid t ts resp : asks Q (Coord.prepare_loop a sid t ts resp).
Proof. revert resp. induction a as [|a IH]; intros resp; cbn [Coord.prepare_loop]; ask. Qed.
Lemma asks_commit_loop a sid t ts resp : asks Q (Coord.commit_loop a sid t ts resp).
Proof. revert resp. induction a as [|a IH]; intros resp; cbn [Coord.commit_loop]; ask. Qed.
Lemma asks_abort_loop a sid t : asks Q (Coord.abort_loop a sid t).
Proof. induction a as [|a IH]; cbn [Coord.abort_loop]; ask. Qed.
#[local] Hint Resolve asks_Now asks_prepare_loop asks_commit_loop asks_abort_loop : asks.
Lemma asks_append_write ty t sh : asks Q (Coord.AppendCoordinatorRecordWrite ty t sh).
Proof. unfold Coord.AppendCoordinatorRecordWrite. ask. Qed.
Lemma asks_flush : asks Q Coord.FlushCoordinatorLog.
Proof. unfold Coord.FlushCoordinatorLog. ask. Qed.
#[local] Hint Resolve asks_append_write asks_flush : asks.
Lemma asks_append ty t sh : asks Q (Coord.AppendCoordinatorRecord ty t sh).
Proof. unfold Coord.AppendCoordinatorRecord. ask. Qed.
#[local] Hint Resolve asks_append : asks.
Lemma asks_SingleShardCommit t sid ts : asks Q (Coord.SingleShardCommit t sid ts).
Proof. unfold Coord.SingleShardCommit, Coord.PrepareOnShard, Coord.CommitOnShard, Coord.AbortOnShard. ask. Qed.
Lemma asks_TwoPhaseCommit t parts ts : asks Q (Coord.TwoPhaseCommit t parts ts).
Proof.
  unfold Coord.TwoPhaseCommit, Coord.PrepareOnShard, Coord.CommitOnShard, Coord.AbortOnShard.
  repeat (ask; try (apply asks_bind; [apply asks_fan_out; intros; ask|]; intros ?)).
Qed.
Lemma asks_abort_once t sid : asks Q (Coord.abort_once t sid).
Proof. unfold Coord.abort_once. ask. Qed.
#[local] Hint Resolve asks_SingleShardCommit asks_TwoPhaseCommit asks_abort_once : asks.
Lemma asks_Begin : asks Q Coord.Begin.
Proof. unfold Coord.Begin. ask. Qed.
Lemma asks_Commit t : asks Q (Coord.Commit t).
Proof. unfold Coord.Commit, Coord.erase_txn. ask. Qed.
Lemma asks_Abort t : asks Q (Coord.Abort t).
Proof. unfold Coord.Abort, Coord.erase_txn. ask. Qed.

(** A read or a write asks for its key only, after joining the shard. *)
Lemma asks_execute_retry a sid req resp : (∀ s, Q (AExecute s req)) → asks Q (Coord.execute_retry a sid req resp).
Proof. intros Hr. revert resp. induction a as [|a IH]; intros resp; cbn [Coord.execute_retry]; unfold Coord.RpcExecuteOnShard; ask. Qed.
Lemma asks_key_request t key req : (∀ s r, eq_op r = OP_BEGIN → Q (AExecute s r)) → (∀ s txn, Q (AExecute s (req txn))) →
  asks Q (Coord.key_request t key req).
Proof.
  intros Hb Hr. unfold Coord.key_request, Coord.EnsureShardParticipant, Coord.ExecuteWithLeaderRetry.
  assert (∀ a sid txn, asks Q (Coord.execute_retry a sid (req txn) ExecuteResponse0)) by (intros; by apply asks_execute_retry).
  assert (∀ a sid i ts, asks Q (Coord.execute_retry a sid (MkExecuteRequest i OP_BEGIN 0 [] [] ts [] [] false) ExecuteResponse0))
    by (intros; apply asks_execute_retry; intros; by apply Hb).
  generalize Coord.kLeaderRetryAttempts. intros n. ask.
Qed.
End commit_calls.

(** A successful request was answered by a shard. *)
Lemma execute_retry_answer a sid req resp0 c tr c' st v resp : path (Coord.execute_retry a sid req resp0 c) tr (Some (c', (st, v, resp))) →
  St.ok st = true → ∃ s x, Ev (AExecute s req) (Some x) ∈ tr ∧ Coord.FromExecuteResponse x = (st, v).
Proof.
  intros Hp Hst. revert resp0 c tr Hp. induction a as [|a IH]; intros resp0 c tr Hp; cbn [Coord.execute_retry] in Hp.
  { apply mret_inv in Hp as [_ [?|E]]; [done|]. by injection E as -> -> -> ->. }
  apply cm_bind_inv in Hp as [[_ ?]|(tr1 & tr2 & c1 & o & -> & H1 & H2)]; [done|].
  assert (Hrot : ∀ resp1 c2 tr3, path ((Coord.RotateStub sid ;; Coord.execute_retry a sid req resp1) c2) tr3 (Some (c', (st, v, resp))) →
    ∃ s x, Ev (AExecute s req) (Some x) ∈ tr1 ++ tr3 ∧ Coord.FromExecuteResponse x = (st, v)).
  { intros resp1 c2 tr3 H3. apply cm_bind_inv in H3 as [[_ ?]|(tr4 & tr5 & c3 & u & -> & _ & H4)]; [done|].
    destruct (IH _ _ _ H4) as (s & x & Hin & Hx). exists s, x. split; [|done]. rewrite !elem_of_app. tauto. }
  destruct o as [x|]; [|by eapply Hrot]. destruct (Coord.FromExecuteResponse x) as [st' v'] eqn:Ex. destruct (St.ok st') eqn:Eok.
  - apply mret_inv in H2 as [_ [?|E]]; [done|]. injection E as -> -> -> ->.
    unfold Coord.RpcExecuteOnShard in H1. apply cm_bind_inv in H1 as [[_ ?]|(tr3 & tr4 & c2 & stub & -> & _ & H1)]; [done|].
    destruct stub as [s|]; [|by apply mret_inv in H1 as [_ [?|?]]]. apply (perform_inv (AExecute s req)) in H1 as [[_ ?]|(r & -> & [?|E])]; [done..|].
    injection E as -> <-. exists s, x. split; [rewrite !elem_of_app, list_elem_of_singleton; tauto|done].
  - destruct (negb _); [|by eapply Hrot]. apply mret_inv in H2 as [_ [?|E]]; [done|]. injection E as -> -> -> ->. congruence.
Qed.
Lemma execute_answer sid req c tr c' st v resp : path (Coord.ExecuteWithLeaderRetry sid req c) tr (Some (c', (st, v, resp))) →
  St.ok st = true → ∃ s x, Ev (AExecute s req) (Some x) ∈ tr ∧ Coord.FromExecuteResponse x = (st, v).
Proof. apply execute_retry_answer. Qed.
Lemma Read_answer txn tid pk c tr c' st v : path (Coord.Read txn tid pk c) tr (Some (c', (st, v))) → St.ok st = true →
  ∃ s req x, Ev (AExecute s req) (Some x) ∈ tr ∧ Coord.FromExecuteResponse x = (st, v) ∧ eq_op req = OP_READ ∧ eq_table_id req = tid ∧ eq_key req = pk.
Proof.
  intros Hp Hst. unfold Coord.Read, Coord.key_request in Hp.
  pose proof (execute_answer) as Hans.
  revert Hp Hans. generalize Coord.ExecuteWithLeaderRetry as ex. intros ex.
  generalize Coord.EnsureShardParticipant as es. intros es Hp Hans.
  apply cm_bind_inv in Hp as [[_ ?]|(tr1 & tr2 & c1 & c2 & -> & _ & H1)]; [discriminate|].
  assert (Herr : ∀ s tr c0, path ((mret (s, None) : CM (Status * option bytes)) c0) tr (Some (c', (st, v))) → s = st).
  { intros s tr0 c0 [_ [?|E]]%mret_inv; [discriminate|]. by injection E. }
  destruct (c_txns_ c2 !! txn) as [t|]; [|apply Herr in H1 as <-; discriminate].
  destruct (aborted t); [apply Herr in H1 as <-; discriminate|]. cbv zeta in H1.
  apply cm_bind_inv in H1 as [[_ ?]|(tr3 & tr4 & c3 & e & -> & _ & H1)]; [discriminate|].
  destruct (St.ok e) eqn:Ees; cbn [negb] in H1; [|apply Herr in H1 as <-; congruence].
  apply cm_bind_inv in H1 as [[_ ?]|(tr5 & tr6 & c4 & [[st' v'] resp] & -> & H1 & H2)]; [discriminate|].
  apply mret_inv in H2 as [-> [?|E]]; [discriminate|]. injection E as -> -> ->.
  destruct (Hans _ _ _ _ _ _ _ _ H1 Hst) as (s & x & Hin & Hx).
  exists s, (Coord.exec_request (raft_txn_id t) OP_READ tid pk []), x. split_and!; [|done..]. rewrite !elem_of_app. tauto.
Qed.

(** ** Running on what was loaded *)

(** A call about a loaded row, or none about a row. *)
Definition asks_loaded (rows : list (Z * Tpcc.kv)) (a : CoordAction) : Prop :=
  match a with
  | AExecute _ req => eq_op req = OP_BEGIN ∨ ∃ row, (eq_table_id req, (eq_key req, row)) ∈ rows
  | AJoin _ _ => False
  | _ => True
  end.
(** A read that is answered well gives the loaded row. *)
Definition answers_loaded (rows : list (Z * Tpcc.kv)) (e : CEvent) : Prop :=
  match e with
  | existT (AExecute _ req) (Some resp) =>
      let '(st, v) := Coord.FromExecuteResponse resp in
      eq_op req = OP_READ → St.ok st = true → (eq_table_id req, (eq_key req, default [] v)) ∈ rows
  | _ => True
  end.

(** The coordinator gives an error for a read, a write or the commit of [txn]. *)
Definition refuses (txn : Z) (c : Coordinator) (tr : list CEvent) : Prop :=
  ∃ c' st, St.ok st = false ∧
    ((∃ tid pk v, path (Coord.Read txn tid pk c) tr (Some (c', (st, v)))) ∨
     (∃ tid pk row, path (Coord.Write txn tid pk row c) tr (Some (c', st))) ∨
     path (Coord.Commit txn c) tr (Some (c', st))).
Definition refused (txn : Z) (c : Coordinator) (tr : list CEvent) : Prop :=
  ∃ ops tr1 c1 tr2 tr3, tr = tr1 ++ tr2 ++ tr3 ∧ calls txn c ops tr1 c1 ∧ refuses txn c1 tr2.

Section running.
Context `{Undefined} (rows : list (Z * Tpcc.kv)).
Context (Hkeys : ∀ tid pk row row', (tid, (pk, row)) ∈ rows → (tid, (pk, row')) ∈ rows → row = row').
Context (r : Draw).
Let on_time : Prop := ∀ i, dr_late r i = false.

Lemma asks_loaded_other a : phase a ≠ PhExecute → asks_loaded rows a.
Proof. by destruct a. Qed.
Lemma asks_read_loaded txn tid pk row : (tid, (pk, row)) ∈ rows → asks (asks_loaded rows) (Coord.Read txn tid pk).
Proof. intros Hin. apply asks_key_request; [by left|]. intros s t. right. by exists row. Qed.
Lemma asks_write_loaded txn tid pk row v : (tid, (pk, row)) ∈ rows → asks (asks_loaded rows) (Coord.Write txn tid pk v).
Proof.
  intros Hin. apply asks_bind; [|intros; apply asks_mret]. apply asks_key_request; [by left|]. intros s t. right. by exists row.
Qed.
Lemma asks_abort_txn txn : asks (asks_loaded rows) (Bench.abort_txn txn).
Proof. apply asks_bind; [apply asks_Abort, asks_loaded_other|]. intros. apply asks_mret. Qed.

(** [m], the rest of transaction [txn], asks for loaded rows only; and when the shards
    answer with them, it ends in a commit, or in an abort after an error. *)
Definition runs (txn : Z) (m : CM (option bool)) : Prop :=
  asks (asks_loaded rows) m ∧
  (on_time → ∀ c tr c' out, path (m c) tr (Some (c', out)) → Forall (answers_loaded rows) tr →
    out = Some true ∨ out = Some false ∧ refused txn c tr).

Lemma check_on_time i k : on_time → Bench.CheckTxnTimeout (dr_late r i) k = k.
Proof. intros Hlate. unfold Bench.CheckTxnTimeout. by rewrite Hlate. Qed.
Lemma asks_check Q late k : asks Q k → asks Q (Bench.CheckTxnTimeout late k).
Proof. intros Hk. by destruct late; [apply asks_mret|]. Qed.
Lemma runs_check txn i k : runs txn k → runs txn (Bench.CheckTxnTimeout (dr_late r i) k).
Proof. intros [Ha Hk]. split; [by apply asks_check|]. intros Hlate. rewrite check_on_time by done. by apply Hk. Qed.
Lemma abort_txn_out txn c tr c' out : path (Bench.abort_txn txn c) tr (Some (c', out)) → out = Some false.
Proof.
  intros [[_ ?]|(tr1 & tr2 & c1 & st & -> & _ & H2)]%cm_bind_inv; [done|]. apply mret_inv in H2 as [_ [?|E]]; [done|]. by injection E as -> ->.
Qed.
Lemma refused_now txn c tr1 tr2 : refuses txn c tr1 → refused txn c (tr1 ++ tr2).
Proof. intros Hr. exists [], [], c, tr1, tr2. split_and!; [done|constructor|done]. Qed.
Lemma refused_after txn c ops tr1 c1 tr2 : calls txn c ops tr1 c1 → refused txn c1 tr2 → refused txn c (tr1 ++ tr2).
Proof.
  intros Hc (ops' & tr3 & c2 & tr4 & tr5 & -> & Hc' & Hr). exists (ops ++ ops'), (tr1 ++ tr3), c2, tr4, tr5.
  split_and!; [by rewrite !app_assoc|by eapply calls_app|done].
Qed.

Lemma runs_commit i txn : runs txn (Bench.commit_txn r i txn).
Proof.
  split.
  - apply asks_bind; [apply asks_Commit, asks_loaded_other|]. intros st. apply asks_check. destruct (negb _); [apply asks_abort_txn|apply asks_mret].
  - intros Hlate c tr c' out [[_ ?]|(tr1 & tr2 & c1 & st & -> & H1 & H2)]%cm_bind_inv _; [done|]. rewrite check_on_time in H2 by done.
    destruct (St.ok st) eqn:Est; cbn [negb] in H2.
    + apply mret_inv in H2 as [_ [?|E]]; [done|]. injection E as -> ->. by left.
    + apply abort_txn_out in H2 as ->. right. split; [done|]. apply refused_now. exists c1, st. auto.
Qed.
Lemma runs_read_strong i txn tid pk row k : (tid, (pk, row)) ∈ rows → (∀ x, asks (asks_loaded rows) (k x)) → runs txn (k row) →
  runs txn (Bench.read_row r i txn tid pk k).
Proof.
  intros Hin Hk [_ Hrun]. split.
  - apply asks_bind; [by eapply asks_read_loaded|]. intros x. destruct (negb _); [apply asks_abort_txn|apply asks_check, Hk].
  - intros Hlate c tr c' out [[_ ?]|(tr1 & tr2 & c1 & [st v] & -> & H1 & H2)]%cm_bind_inv HF; [done|]. cbn [fst snd] in H2.
    apply Forall_app in HF as [HF1 HF2]. rewrite check_on_time in H2 by done. destruct (St.ok st) eqn:Est; cbn [negb] in H2.
    + destruct (Read_answer _ _ _ _ _ _ _ _ H1 Est) as (s & req & x & Hev & Ex & Eop & Et & Ek).
      rewrite Forall_forall in HF1. specialize (HF1 _ Hev). cbn in HF1. rewrite Ex in HF1. specialize (HF1 Eop Est). rewrite Et, Ek in HF1.
      pose proof (Hkeys _ _ _ _ Hin HF1) as E. rewrite <- E in H2. destruct (Hrun Hlate _ _ _ _ H2 HF2) as [-> |[-> Hr]]; [by left|right].
      split; [done|]. eapply refused_after; [|exact Hr]. rewrite <- (app_nil_r tr1). eapply calls_read; [exact H1|done|constructor].
    + apply abort_txn_out in H2 as ->. right. split; [done|]. apply refused_now. exists c1, st. split; [done|]. left. by exists tid, pk, v.
Qed.
Lemma runs_read i txn tid pk row k : (tid, (pk, row)) ∈ rows → (∀ x, runs txn (k x)) → runs txn (Bench.read_row r i txn tid pk k).
Proof. intros Hin Hk. eapply runs_read_strong; [exact Hin|intros x; apply Hk|apply Hk]. Qed.
Lemma runs_rewrite i txn tid pk row n f k : (tid, (pk, row)) ∈ rows → length (Bench.DecodeRow row) = n → is_Some (f (Bench.DecodeRow row)) →
  runs txn k → runs txn (Bench.rewrite_row r i txn tid pk n f k).
Proof.
  intros Hin Hn [cells Hf] [Hk Hrun]. eapply runs_read_strong; [exact Hin| |]; cbv beta zeta.
  - intros x. destruct (negb _); [apply asks_abort_txn|]. destruct (f (Bench.DecodeRow x)); [|apply asks_mret].
    apply asks_bind; [by eapply asks_write_loaded|]. intros st. by destruct (negb _); [apply asks_abort_txn|apply asks_check].
  - rewrite Hn, Nat.eqb_refl, Hf. cbn [negb]. split.
    + apply asks_bind; [by eapply asks_write_loaded|]. intros st. by destruct (negb _); [apply asks_abort_txn|apply asks_check].
    + intros Hlate c tr c' out [[_ ?]|(tr1 & tr2 & c1 & st & -> & H1 & H2)]%cm_bind_inv HF; [done|].
      apply Forall_app in HF as [HF1 HF2]. rewrite check_on_time in H2 by done. destruct (St.ok st) eqn:Est; cbn [negb] in H2.
      * destruct (Hrun Hlate _ _ _ _ H2 HF2) as [-> |[-> Hr]]; [by left|right]. split; [done|]. eapply refused_after; [|exact Hr].
        rewrite <- (app_nil_r tr1). eapply calls_write; [exact H1|done|constructor].
      * apply abort_txn_out in H2 as ->. right. split; [done|]. apply refused_now. exists c1, st. split; [done|]. right. left. by eexists _, _, _.
Qed.
End running.

(** ** Cells *)

Lemma dec_digits_length fuel n acc : (length (dec_digits fuel n acc) ≤ fuel + length acc)%nat.
Proof.
  revert n acc. induction fuel as [|fuel IH]; intros n acc; cbn; [done|]. destruct (n <? 10); cbn; [lia|].
  specialize (IH (n / 10) (byte_of_Z (48 + n mod 10) :: acc)). cbn in IH. lia.
Qed.
Lemma to_string_length n : 0 ≤ n < 2 ^ 64 → (length (to_string n) ≤ 64)%nat.
Proof.
  intros Hn. unfold to_string, dec. destruct (Z.ltb_spec n 0); [lia|]. etrans; [apply dec_digits_length|]. cbn [length].
  assert (Z.log2 n < 64); [|lia]. destruct (decide (n = 0)) as [-> |]; [done|]. apply Z.log2_lt_pow2; lia.
Qed.

Definition short (c : bytes) : Prop := (length c ≤ 256)%nat.
Lemma short_number n : 0 ≤ n < 2 ^ 64 → short (to_string n).
Proof. intros Hn%to_string_length. unfold short. lia. Qed.
Lemma short_label s n : (length s ≤ 64)%nat → 0 ≤ n < 2 ^ 64 → short (s ++ to_string n).
Proof. intros Hs Hn%to_string_length. unfold short. rewrite length_app. lia. Qed.
Lemma short_district w d : 0 ≤ w < 2 ^ 64 → 0 ≤ d < 2 ^ 64 → short (str "DIST-" ++ to_string w ++ str "-" ++ to_string d).
Proof.
  intros Hw%to_string_length Hd%to_string_length. unfold short. rewrite !length_app.
  change (length (str "DIST-")) with 5%nat. change (length (str "-")) with 1%nat. lia.
Qed.

Lemma decode_short cells : Forall short cells → (length cells ≤ 10)%nat → Bench.DecodeRow (Tpcc.EncodeRow cells) = cells.
Proof.
  intros HF Hn. rewrite Tpcc_EncodeRow. apply DecodeRow_EncodeRow; [lia|]. eapply Forall_impl; [exact HF|].
  unfold short, is_u32. intros c Hc. lia.
Qed.

(** ** Rows *)

Section loaded.
Context (cfg : TPCCConfig) (t : Tpcc.Tables).
Let rows := rows_of (tpcc_batches cfg t).

Lemma row_in_warehouse w x : 1 ≤ w ≤ num_warehouses cfg → x ∈ rows_of (warehouse_batches cfg t w) → x ∈ rows.
Proof.
  intros Hw Hx. unfold rows, tpcc_batches. rewrite rows_bind. apply list_elem_of_bind. exists w. split; [done|].
  apply elem_of_seqZ. lia.
Qed.
Lemma row_in_batch bs tid kvs x : (tid, kvs) ∈ bs → x ∈ kvs → (tid, x) ∈ rows_of bs.
Proof. intros Hb Hx. apply list_elem_of_bind. exists (tid, kvs). split; [|done]. by apply list_elem_of_fmap; exists x. Qed.

Lemma warehouse_in w : 1 ≤ w ≤ num_warehouses cfg → (Tpcc.t_warehouse t, Tpcc.warehouse_row w) ∈ rows.
Proof. intros Hw. eapply row_in_warehouse; [done|]. eapply row_in_batch; [by left|by left]. Qed.
Lemma stock_in w i : 1 ≤ w ≤ num_warehouses cfg → 1 ≤ i ≤ items_per_wh cfg → (Tpcc.t_stock t, Tpcc.stock_row w i) ∈ rows.
Proof.
  intros Hw Hi. eapply row_in_warehouse; [done|]. eapply row_in_batch; [right; apply elem_of_app; right; by left|].
  apply list_elem_of_fmap. exists i. split; [done|]. apply elem_of_seqZ. lia.
Qed.
Lemma row_in_district w d x : 1 ≤ w ≤ num_warehouses cfg → 0 ≤ d < districts_per_wh cfg →
  x ∈ rows_of (district_batches cfg t w d) → x ∈ rows.
Proof.
  intros Hw Hd Hx. eapply row_in_warehouse; [done|]. unfold warehouse_batches. change (?a :: ?l) with ([a] ++ l) at 1.
  rewrite !rows_app, rows_bind, !elem_of_app. right. left. apply list_elem_of_bind. exists d. split; [done|].
  apply elem_of_seqZ. lia.
Qed.
Lemma district_in w d : 1 ≤ w ≤ num_warehouses cfg → 0 ≤ d < districts_per_wh cfg → (Tpcc.t_district t, Tpcc.district_row w d) ∈ rows.
Proof. intros Hw Hd. eapply row_in_district; [done..|]. eapply row_in_batch; [by left|by left]. Qed.
Lemma per_customer_in w d c tid (f : Z → Tpcc.kv) : 1 ≤ w ≤ num_warehouses cfg → 0 ≤ d < districts_per_wh cfg → 1 ≤ c ≤ customers_per_dist cfg →
  (tid, f <$> seqZ 1 (customers_per_dist cfg)) ∈ district_batches cfg t w d → (tid, f c) ∈ rows.
Proof.
  intros Hw Hd Hc Hb. eapply row_in_district; [done..|]. eapply row_in_batch; [exact Hb|]. apply list_elem_of_fmap. exists c.
  split; [done|]. apply elem_of_seqZ. lia.
Qed.

(** A step finds a loaded row, with the number of cells it expects and, where it
    computes with a cell, a number in it. *)
Definition fits `{Undefined} (s : Step) : Prop :=
  match s with
  | ChangeRow tid pk n change => ∃ row, (tid, (pk, row)) ∈ rows ∧ length (Bench.DecodeRow row) = n ∧ is_Some (change (Bench.DecodeRow row))
  | ReadRow tid pk => ∃ row, (tid, (pk, row)) ∈ rows
  end.

Context `{Undefined}.
Context (Hw32 : num_warehouses cfg < 2 ^ 32 - 1) (Hd32 : districts_per_wh cfg < 2 ^ 32 - 1) (Hc32 : customers_per_dist cfg < 2 ^ 32 - 1).

Lemma fits_change tid x cells n change : (tid, x) ∈ rows → x.2 = Tpcc.EncodeRow cells → Forall short cells → (n ≤ 10)%nat → length cells = n →
  is_Some (change cells) → fits (ChangeRow tid x.1 n change).
Proof.
  intros Hx E HF Hn Hl Hc. exists x.2. rewrite E, decode_short by (done || lia). split_and!; [|done|done]. by destruct x; cbn in *; subst.
Qed.
Lemma fits_read tid x : (tid, x) ∈ rows → fits (ReadRow tid x.1).
Proof. intros Hx. exists x.2. by destruct x. Qed.

Local Ltac shorts := repeat (apply Forall_cons; split); try apply Forall_nil; try done;
  first [apply short_number; lia|apply short_label; [cbn; lia|lia]|apply short_district; lia|vm_compute; lia].

Lemma district_fits w d change : 1 ≤ w ≤ num_warehouses cfg → 0 ≤ d < districts_per_wh cfg →
  (∀ a b c, is_Some (change [a; b; c; str "1"; str "30000"])) → fits (ChangeRow (Tpcc.t_district t) (Bench.district_pk w d) 5 change).
Proof.
  intros Hw Hd Hc. eapply (fits_change _ (Tpcc.district_row w d)); [by apply district_in|reflexivity| |lia|done|apply Hc].
  unfold Tpcc.district_id. shorts.
Qed.
Lemma warehouse_fits w change : 1 ≤ w ≤ num_warehouses cfg → (∀ a b, is_Some (change [a; b; str "300000"])) →
  fits (ChangeRow (Tpcc.t_warehouse t) (FormatPK w) 3 change).
Proof.
  intros Hw Hc. eapply (fits_change _ (Tpcc.warehouse_row w)); [by apply warehouse_in|reflexivity| |lia|done|apply Hc]. shorts.
Qed.
Lemma customer_fits w d c change : 1 ≤ w ≤ num_warehouses cfg → 0 ≤ d < districts_per_wh cfg → 1 ≤ c ≤ customers_per_dist cfg →
  (∀ a b c d, is_Some (change [a; b; c; d; str "-10"])) → fits (ChangeRow (Tpcc.t_customer t) (Bench.customer_pk w d c) 5 change).
Proof.
  intros Hw Hd Hc Hch. eapply (fits_change _ (Tpcc.customer_row w d c)); [|reflexivity| |lia|done|apply Hch].
  - apply (per_customer_in w d c _ (Tpcc.customer_row w d)); [done..|]. right. by left.
  - unfold Tpcc.customer_id. shorts.
Qed.
Lemma customer_read w d c : 1 ≤ w ≤ num_warehouses cfg → 0 ≤ d < districts_per_wh cfg → 1 ≤ c ≤ customers_per_dist cfg →
  fits (ReadRow (Tpcc.t_customer t) (Bench.customer_pk w d c)).
Proof.
  intros Hw Hd Hc. apply (fits_read _ (Tpcc.customer_row w d c)). apply (per_customer_in w d c _ (Tpcc.customer_row w d)); [done..|].
  right. by left.
Qed.
Lemma order_read w d c : 1 ≤ w ≤ num_warehouses cfg → 0 ≤ d < districts_per_wh cfg → 1 ≤ c ≤ customers_per_dist cfg →
  fits (ReadRow (Tpcc.t_orders t) (Bench.order_pk w d c)) ∧ fits (ReadRow (Tpcc.t_order_line t) (Bench.order_pk w d c)).
Proof.
  intros Hw Hd Hc. split.
  - apply (fits_read _ (Tpcc.order_row w d c)). apply (per_customer_in w d c _ (Tpcc.order_row w d)); [done..|]. do 2 right. by left.
  - apply (fits_read _ (Tpcc.order_line_row w d c)). apply (per_customer_in w d c _ (Tpcc.order_line_row w d)); [done..|].
    do 3 right. by left.
Qed.
Lemma stock_read w i : 1 ≤ w ≤ num_warehouses cfg → 1 ≤ i ≤ items_per_wh cfg → fits (ReadRow (Tpcc.t_stock t) (Bench.stock_pk w i)).
Proof. intros Hw Hi. apply (fits_read _ (Tpcc.stock_row w i)). by apply stock_in. Qed.
End loaded.

(** ** Transactions *)

(** What the distributions of the [Run] functions give. *)
Definition in_range (cfg : TPCCConfig) (r : Draw) : Prop :=
  1 ≤ dr_w r ≤ num_warehouses cfg ∧ 0 ≤ dr_d r < districts_per_wh cfg ∧ 1 ≤ dr_c r ≤ customers_per_dist cfg ∧
  1 ≤ dr_item r ≤ 1000 ∧ ∀ d, 1 ≤ dr_customers r d ≤ customers_per_dist cfg.
(** The sizes for which no two loaded rows have the same key (and the loops of the loader
    end), with all the items that Stock-Level draws from. *)
Definition loadable (cfg : TPCCConfig) : Prop :=
  num_warehouses cfg < 2 ^ 32 - 1 ∧ districts_per_wh cfg ≤ 10 ∧ customers_per_dist cfg < 10000 ∧ 1000 ≤ items_per_wh cfg < 10000.

Lemma one_row_per_key cfg tid pk row row' : loadable cfg → let rows := rows_of (tpcc_batches cfg new_tables) in
  (tid, (pk, row)) ∈ rows → (tid, (pk, row')) ∈ rows → row = row'.
Proof.
  intros (_ & Hd & Hc & Hi) rows Hin Hin'. assert (NoDup ((λ x, (x.1, x.2.1)) <$> rows)) as Hnd.
  { unfold rows. rewrite <- keys_rows. apply tpcc_keys_nodup; [|lia..]. apply (bool_decide_unpack _). vm_compute. exact I. }
  apply list_elem_of_lookup in Hin as [i Hi1], Hin' as [j Hj1].
  assert (i = j) as ->; [|congruence]. eapply (NoDup_lookup _ i j (tid, pk)); [exact Hnd|by rewrite list_lookup_fmap, Hi1|by rewrite list_lookup_fmap, Hj1].
Qed.

Section transactions.
Context `{Undefined} (b : Benchmark) (r : Draw).
Let cfg := tpcc (config_ b).
Let rows := rows_of (tpcc_batches cfg new_tables).
Context (Hcfg : loadable cfg) (Ht : tables b = new_tables) (Hr : in_range cfg r).

Lemma runs_change i txn tid pk n f k : fits cfg new_tables (ChangeRow tid pk n f) → runs rows r txn k →
  runs rows r txn (Bench.rewrite_row r i txn tid pk n f k).
Proof.
  intros (row & Hin & Hn & Hf). eapply runs_rewrite; [|exact Hin|exact Hn|exact Hf]. intros t p x y. by apply one_row_per_key.
Qed.
Lemma runs_look i txn tid pk k : fits cfg new_tables (ReadRow tid pk) → (∀ row, runs rows r txn (k row)) →
  runs rows r txn (Bench.read_row r i txn tid pk k).
Proof. intros (row & Hin). eapply runs_read; [|exact Hin]. intros t p x y. by apply one_row_per_key. Qed.
Lemma runs_deliver i txn ds : Forall (λ d, 0 ≤ d < districts_per_wh cfg) ds → runs rows r txn (Bench.deliver b r i txn ds).
Proof.
  destruct Hr as (Hw & _ & _ & _ & Hcs), Hcfg as (Hw32 & Hd10 & Hc4 & _). revert i. induction ds as [|d ds IH]; intros i HF; cbn [Bench.deliver].
  { by apply runs_commit. }
  apply Forall_cons in HF as [Hd HF]. rewrite Ht. apply runs_change; [|by apply IH].
  apply customer_fits; [lia|lia|lia|done|done|apply Hcs|intros; eexists; reflexivity].
Qed.

Lemma runs_transaction ty : ∃ f, Bench.run_txn b ty r = (Coord.Begin ≫= f) ∧ ∀ txn, runs rows r txn (f txn).
Proof.
  pose proof Hr as (Hw & Hd & Hc & Hit & Hcs). pose proof Hcfg as (Hw32 & Hd10 & Hc4 & Hi1 & Hi2).
  assert (1 ≤ Bench.stock_customer b (dr_item r) ≤ customers_per_dist cfg) as Hsc.
  { unfold Bench.stock_customer. fold cfg. pose proof (Z.mod_pos_bound (dr_item r) (Z.max 1 (customers_per_dist cfg))). lia. }
  assert (districts_per_wh cfg < 2 ^ 32 - 1) as Hd32 by lia. assert (customers_per_dist cfg < 2 ^ 32 - 1) as Hc32 by lia.
  unfold Bench.run_txn, Bench.RunNewOrder, Bench.RunPayment, Bench.RunOrderStatus, Bench.RunDelivery, Bench.RunStockLevel. rewrite Ht. cbv zeta.
  destruct (ty =? 0); [|destruct (ty =? 1); [|destruct (ty =? 2); [|destruct (ty =? 3)]]]; (eexists; split; [reflexivity|]); intros txn; apply runs_check.
  - apply runs_change; [by apply district_fits; [..|intros; vm_compute; eauto]|]. apply runs_look; [by apply customer_read|]. intros _.
    apply runs_change; [apply warehouse_fits; [done..|intros; eexists; reflexivity]|]. by apply runs_commit.
  - apply runs_change; [apply district_fits; [done..|intros; eexists; reflexivity]|].
    apply runs_change; [apply warehouse_fits; [done..|intros; eexists; reflexivity]|].
    apply runs_change; [apply customer_fits; [done..|intros; eexists; reflexivity]|]. by apply runs_commit.
  - apply runs_look; [by apply customer_read|]. intros _. apply runs_look; [by apply order_read|]. intros _. by apply runs_commit.
  - apply runs_deliver, Forall_forall. intros d Hds%elem_of_seqZ. unfold Bench.district_count in Hds. fold cfg in Hds. lia.
  - apply runs_look; [apply stock_read; [done|lia]|]. intros _. apply runs_look; [by apply order_read|]. intros _. by apply runs_commit.
Qed.
End transactions.

(** C37. The loader and the transactions agree, for at most 10 districts per warehouse,
    fewer than 10000 customers per district and between 1000 and 9999 items. Whatever
    numbers are drawn and whatever the shards answer, a transaction of any of the five
    kinds, stopped at any point, has asked only for rows that the loader writes, under
    the keys it writes them. When no call is too slow for the benchmark's own limit and
    each read that is answered well gives the loaded row, the transaction does not throw,
    and it ends in a commit unless the coordinator itself has given an error for one of
    its reads or writes or for the commit: never because of a row it finds malformed. *)
Theorem workload_finds_its_rows `{Undefined} (b : Benchmark) (ty : Z) (r : Draw) (c : Coordinator) (tr : list CEvent) (o : option (Coordinator * option bool)) :
  let cfg := tpcc (config_ b) in
  let rows := rows_of (tpcc_batches cfg new_tables) in
  loadable cfg → tables b = new_tables → in_range cfg r →
  path (Bench.run_txn b ty r c) tr o →
  Forall (λ e, asks_loaded rows (projT1 e)) tr ∧
  ((∀ i, dr_late r i = false) → Forall (answers_loaded rows) tr → ∀ c' out, o = Some (c', out) →
    out = Some true ∨ out = Some false ∧ ∃ c1 txn, path (Coord.Begin c) [] (Some (c1, txn)) ∧ refused txn c1 tr).
Proof.
  intros cfg rows Hcfg Ht Hr. destruct (runs_transaction b r Hcfg Ht Hr ty) as (f & -> & Hf). fold cfg rows in Hf. intros Hp. split.
  - eapply (only_path (asks_loaded rows)); [|exact Hp]. apply asks_bind; [apply asks_Begin|]. intros txn. apply Hf.
  - intros Hlate HF c' out ->. apply cm_bind_inv in Hp as [[_ ?]|(tr1 & tr2 & c1 & txn & -> & Hb & H2)]; [done|].
    pose proof (Begin_inv _ _ _ _ Hb) as (-> & _ & _). destruct (Hf txn) as [_ Hrun].
    destruct (Hrun Hlate _ _ _ _ H2 HF) as [-> |[-> Href]]; [by left|right]. split; [done|]. by exists c1, txn.
Qed.
