(* ===== verification/BenchmarkProofs.v ===== *)
(** * The figures of the benchmark

    The counters add up in whatever order the workers' rounds end, percentiles are the
    samples they should be, and what the reported throughput counts. *)
From Stdlib Require Import Strings.Byte Strings.Ascii.
From stdpp Require Import base gmap sets strings sorting list.
From Stdlib Require Import ZArith Lia Floats.SpecFloat.
From S2P Require Import Prelude Status GroupCommit ShardMessages Effects CoordinatorLog Coordinator TwoPhase.
From S2P Require Import Text Catalog JoinHandler Lexer Parser DistributedJoin Executor ExecutorProofs ExecutorRows ExecutorExamples Rounding Tpcc Benchmark TpccProofs WorkloadProofs.
Local Open Scope Z_scope.

#[export] Existing Instance Bench.not_after_dec.

(** ** Order of numbers *)

(** Doubles other than NaN, as triples in lexicographic order. *)
Definition order_key (d : double) : Z * Z * Z :=
  match d with
  | S754_zero _ => (0, 0, 0)
  | S754_infinity s => (if s then -2 else 2, 0, 0)
  | S754_nan => (3, 0, 0)
  | S754_finite s m e => if s then (-1, - e, - Z.pos m) else (1, e, Z.pos m)
  end.
Definition key_lt (x y : Z * Z * Z) : Prop :=
  x.1.1 < y.1.1 ∨ x.1.1 = y.1.1 ∧ (x.1.2 < y.1.2 ∨ x.1.2 = y.1.2 ∧ x.2 < y.2).

Lemma dlt_key x y : x ≠ S754_nan → y ≠ S754_nan → dlt x y = true ↔ key_lt (order_key x) (order_key y).
Proof.
  intros Hx Hy. unfold dlt, SFltb, key_lt. destruct x as [[]|[]| |[] m e], y as [[]|[]| |[] m' e']; try done; cbn; try (split; [done|lia]); try (split; [lia|done]).
  - destruct (Z.compare_spec e e') as [->|?|?]; try (split; [done|lia]); try (split; [lia|done]).
    fold (Pos.compare m m'). destruct (Pos.compare_spec m m') as [->|?|?]; cbn; split; try done; lia.
  - destruct (Z.compare_spec e e') as [->|?|?]; try (split; [done|lia]); try (split; [lia|done]).
    fold (Pos.compare m m'). destruct (Pos.compare_spec m m') as [->|?|?]; cbn; split; try done; lia.
Qed.
Lemma not_after_key x y : x ≠ S754_nan → y ≠ S754_nan → Bench.not_after x y ↔ ¬ key_lt (order_key y) (order_key x).
Proof. intros Hx Hy. unfold Bench.not_after. rewrite <- (dlt_key y x) by done. symmetry. apply not_true_iff_false. Qed.
Lemma dlt_nan x y : x = S754_nan ∨ y = S754_nan → dlt x y = false.
Proof. by intros [-> | ->]; [|destruct x as [| | |]]. Qed.
Lemma nan_dec (x : double) : x = S754_nan ∨ x ≠ S754_nan.
Proof. destruct x; auto. Qed.
#[export] Instance not_after_total : Total Bench.not_after.
Proof.
  intros x y. destruct (nan_dec x) as [-> |Hx]; [left; by apply dlt_nan; right|].
  destruct (nan_dec y) as [-> |Hy]; [left; by apply dlt_nan; left|]. rewrite !not_after_key by done. unfold key_lt. lia.
Qed.
Lemma not_after_trans x y z : x ≠ S754_nan → y ≠ S754_nan → z ≠ S754_nan →
  Bench.not_after x y → Bench.not_after y z → Bench.not_after x z.
Proof. intros Hx Hy Hz. rewrite !not_after_key by done. unfold key_lt. lia. Qed.

Lemma sorted_strongly {A} (R : A → A → Prop) (P : A → Prop) l :
  (∀ x y z, P x → P y → P z → R x y → R y z → R x z) → Forall P l → Sorted R l → StronglySorted R l.
Proof.
  intros Htr HF Hs. induction Hs as [|x l Hs IH Hhd]; [constructor|]. apply Forall_cons in HF as [Hx HF].
  specialize (IH HF). constructor; [done|]. destruct Hhd as [|y l Hxy]; [constructor|]. constructor; [done|].
  apply StronglySorted_inv in IH as [_ Hy]. apply Forall_cons in HF as [Hpy HF]. rewrite Forall_forall in Hy, HF |- *.
  intros z Hz. apply (Htr x y z); auto.
Qed.
Lemma sort_samples_perm l : Bench.sort_samples l ≡ₚ l.
Proof. apply merge_sort_Permutation. Qed.
Lemma sort_samples_sorted l : Forall (λ x, x ≠ S754_nan) l → StronglySorted Bench.not_after (Bench.sort_samples l).
Proof.
  intros HF. apply (sorted_strongly _ (λ x, x ≠ S754_nan)); [apply not_after_trans| |apply Sorted_merge_sort, _].
  by rewrite sort_samples_perm.
Qed.

Lemma sorted_lookup {A} (R : A → A → Prop) l i j x y : StronglySorted R l → (i < j)%nat → l !! i = Some x → l !! j = Some y → R x y.
Proof.
  intros Hs. revert i j. induction Hs as [|a l _ IH Ha]; intros i j Hij Hi Hj; [done|]. destruct j as [|j]; [lia|].
  destruct i as [|i]; cbn in *; [|by apply (IH i j); [lia|..]]. injection Hi as ->. rewrite Forall_forall in Ha.
  by apply Ha, (list_elem_of_lookup_2 _ j).
Qed.
Lemma filter_all {A} (P : A → Prop) `{∀ x, Decision (P x)} l : Forall P l → filter P l = l.
Proof. induction 1 as [|x l Hx _ IH]; [done|]. rewrite filter_cons_True by done. by rewrite IH. Qed.
Lemma filter_count_le {A} (P : A → Prop) `{∀ x, Decision (P x)} l i n : (∀ j x, (i ≤ j < i + n)%nat → l !! j = Some x → P x) →
  (i + n ≤ length l)%nat → (n ≤ length (filter P l))%nat.
Proof.
  intros HP Hn. rewrite <- (take_drop i l), filter_app, length_app, <- (take_drop n (drop i l)), filter_app, length_app.
  rewrite (filter_all P (take n (drop i l))); [rewrite length_take, length_drop; lia|].
  apply Forall_forall. intros x [j Hj]%list_elem_of_lookup. apply lookup_take_Some in Hj as [Hj Hlt]. rewrite lookup_drop in Hj.
  apply (HP (i + j)%nat); [lia|done].
Qed.

(** ** Percentiles *)

Lemma percentile_index_lt q n : (n ≠ 0)%nat → (Bench.percentile_index q n < n)%nat.
Proof. unfold Bench.percentile_index. lia. Qed.

(** A percentile is one of the samples; as many samples as its index says, and one more,
    are not above it, and all the others and itself are not below it. *)
Lemma percentile_rank q samples : Forall (λ x, x ≠ S754_nan) samples → samples ≠ [] →
  let k := Bench.percentile_index q (length samples) in
  let p := Bench.percentile q samples in
  p ∈ samples ∧ (k + 1 ≤ length (filter (λ x, Bench.not_after x p) samples))%nat ∧
  (length samples - k ≤ length (filter (λ x, Bench.not_after p x) samples))%nat.
Proof.
  intros HF Hne k p. pose proof (sort_samples_perm samples) as Hperm. pose proof (sort_samples_sorted _ HF) as Hs.
  assert (Hl : length (Bench.sort_samples samples) = length samples) by by rewrite Hperm.
  assert (k < length samples)%nat as Hk. { apply percentile_index_lt. by destruct samples. }
  assert (Bench.sort_samples samples !! k = Some p) as Hp.
  { unfold p, Bench.percentile. fold k. destruct (lookup_lt_is_Some_2 (Bench.sort_samples samples) k) as [x E]; [by rewrite Hl|].
    by rewrite E. }
  assert (p ≠ S754_nan) as Hpn. { rewrite <- Hperm in HF. by apply (Forall_lookup_1 _ _ _ _ HF Hp). }
  assert (Bench.not_after p p) as Hrefl. { apply not_after_key; [done..|]. unfold key_lt. lia. }
  split_and!.
  - rewrite <- Hperm. by eapply list_elem_of_lookup_2.
  - rewrite <- (Permutation_length (filter_Permutation (λ x, Bench.not_after x p) _ _ Hperm)). apply (filter_count_le _ _ 0); [|lia].
    intros j x Hj Hx. destruct (decide (j = k)) as [-> |]; [congruence|]. eapply sorted_lookup; [exact Hs| |exact Hx|exact Hp]. lia.
  - rewrite <- (Permutation_length (filter_Permutation (λ x, Bench.not_after p x) _ _ Hperm)). apply (filter_count_le _ _ k); [|lia].
    intros j x Hj Hx. destruct (decide (j = k)) as [-> |]; [congruence|]. eapply sorted_lookup; [exact Hs| |exact Hp|exact Hx]. lia.
Qed.

(** The product is computed in doubles, and 0.95 and 0.99 are not doubles: the index is
    still the integer part of the exact product. *)
Definition place (c n : nat) : nat := Nat.min (n - 1) (c * n / 100).
Lemma percentile_index_place q m c delta n : q = S754_finite false m (-53) → 100 * Z.pos m = Z.of_nat c * 2 ^ 53 - delta → 0 ≤ delta ≤ 40 →
  delta * 2 ^ 54 < 100 * Z.pos m → (50 ≤ c ≤ 99)%nat → Z.of_nat n < 2 ^ 45 → Bench.percentile_index q n = place c n.
Proof.
  intros -> Em Hdel Hdm Hc Hn. unfold Bench.percentile_index, place. destruct n as [|n]; [by rewrite Nat.mul_0_r|].
  unfold Bench.dmul. rewrite (fraction_floor (Z.of_nat c) m delta) by lia. cbn [default from_option id].
  assert (Z.of_nat (c * S n / 100) = Z.of_nat c * Z.of_nat (S n) / 100) as E by by rewrite Nat2Z.inj_div, Nat2Z.inj_mul.
  rewrite <- E. lia.
Qed.
Lemma percentile_index_exact n : Z.of_nat n < 2 ^ 45 →
  Bench.percentile_index Bench.q50 n = place 50 n ∧ Bench.percentile_index Bench.q95 n = place 95 n ∧ Bench.percentile_index Bench.q99 n = place 99 n.
Proof.
  intros Hn. split_and!; [apply (percentile_index_place _ 4503599627370496 50 0)|apply (percentile_index_place _ 8556839292003942 95 40)|apply (percentile_index_place _ 8917127262193582 99 8)];
    done || lia || by vm_compute.
Qed.

(** ** Counters *)

Section counts.
Implicit Types (f : Bench.Finished) (fs : list Bench.Finished).

Definition of_kind (k : Z) f : Prop := Bench.f_type f = k.
Definition went (ok : bool) f : Prop := Bench.f_ok f = ok.
#[export] Instance of_kind_dec k f : Decision (of_kind k f).
Proof. unfold of_kind. apply _. Defined.
#[export] Instance went_dec ok f : Decision (went ok f).
Proof. unfold went. apply _. Defined.

(** How many rounds went well or not, and the latencies that were measured. *)
Definition rounds_that (ok : bool) fs : Z := Z.of_nat (length (filter (went ok) fs)).
Definition measured fs : list double := filter (went true) fs ≫= λ f, option_list (Bench.f_us f).
Definition stat_of fs : Bench.Stat := Bench.MkStat (u64 (rounds_that true fs)) (u64 (rounds_that false fs)) (measured fs).
Definition kind_stat (k : Z) fs : Bench.Stat := stat_of (filter (of_kind k) fs).

Lemma u64_S n : u64 (u64 n + 1) = u64 (n + 1).
Proof. unfold u64. by rewrite Z.add_mod_idemp_l. Qed.
Lemma rounds_that_snoc ok fs f : rounds_that ok (fs ++ [f]) = rounds_that ok fs + if bool_decide (went ok f) then 1 else 0.
Proof. unfold rounds_that. rewrite filter_app, length_app. case_bool_decide; [rewrite filter_cons_True by done|rewrite filter_cons_False by done]; cbn; lia. Qed.
Lemma stat_of_snoc fs f : stat_of (fs ++ [f]) = Bench.count_stat (stat_of fs) (Bench.f_ok f) (Bench.f_us f).
Proof.
  unfold stat_of, measured. rewrite !rounds_that_snoc, filter_app, bind_app. destruct f as [ty [] us]; unfold Bench.count_stat; cbn [Bench.f_ok Bench.f_us Bench.st_count Bench.st_aborts Bench.st_lat_us].
  - rewrite filter_cons_True by done. rewrite bool_decide_eq_true_2, bool_decide_eq_false_2 by done. rewrite u64_S, Z.add_0_r. cbn. by rewrite app_nil_r.
  - rewrite filter_cons_False by done. rewrite (bool_decide_eq_false_2 (went true _)), bool_decide_eq_true_2 by done. rewrite u64_S, Z.add_0_r. cbn. by rewrite app_nil_r.
Qed.
Lemma kind_stat_snoc k fs f : kind_stat k (fs ++ [f]) =
  if Bench.f_type f =? k then Bench.count_stat (kind_stat k fs) (Bench.f_ok f) (Bench.f_us f) else kind_stat k fs.
Proof.
  unfold kind_stat. rewrite filter_app. destruct (Z.eqb_spec (Bench.f_type f) k) as [E|E].
  - by rewrite filter_cons_True, stat_of_snoc.
  - by rewrite filter_cons_False, app_nil_r.
Qed.

(** The counters after any number of rounds. *)
Lemma count_all_spec fs : count_all Bench.BenchState0 fs =
  let s := stat_of fs in
  Bench.MkBenchState (Bench.st_count s) (Bench.st_aborts s) (Bench.st_lat_us s)
    (kind_stat 0 fs) (kind_stat 1 fs) (kind_stat 2 fs) (kind_stat 3 fs) (kind_stat 4 fs).
Proof.
  induction fs as [|f fs IH] using rev_ind; [done|]. unfold count_all in *. rewrite foldl_snoc, IH. cbv zeta. rewrite stat_of_snoc.
  unfold Bench.count_txn. rewrite !kind_stat_snoc. unfold Bench.count_stat at 1 2 3. by destruct (Bench.f_ok f).
Qed.

(** *** Figures that do not depend on the order of the rounds *)

(** What a clock gives: neither NaN nor a negative zero. *)
Definition is_latency (x : double) : Prop := x ≠ S754_nan ∧ x ≠ S754_zero true.

Lemma order_key_inj x y : is_latency x → is_latency y → order_key x = order_key y → x = y.
Proof.
  intros [Hx Hx'] [Hy Hy'] E. destruct x as [[]|[]| |[] m e], y as [[]|[]| |[] m' e']; try done; injection E; intros; f_equal; lia.
Qed.
Lemma not_after_antisym x y : is_latency x → is_latency y → Bench.not_after x y → Bench.not_after y x → x = y.
Proof.
  intros Hx Hy. rewrite !not_after_key by apply Hx || apply Hy. intros H1 H2. apply order_key_inj; [done..|].
  unfold key_lt in *. destruct (order_key x) as [[??]?], (order_key y) as [[??]?]. cbn in *. repeat f_equal; lia.
Qed.
Lemma sort_samples_order l l' : Forall is_latency l → l ≡ₚ l' → Bench.sort_samples l = Bench.sort_samples l'.
Proof.
  intros HF Hp. assert (Forall is_latency l') as HF' by by rewrite <- Hp.
  assert (Hnan : ∀ k, Forall is_latency k → Forall (λ x, x ≠ S754_nan) k) by (intros k Hk; eapply Forall_impl; [exact Hk|]; by intros x []).
  apply (StronglySorted_unique_strong Bench.not_after); [|by apply sort_samples_sorted, Hnan..|by rewrite !sort_samples_perm].
  intros x y Hx Hy. rewrite sort_samples_perm in Hx. rewrite sort_samples_perm in Hy. rewrite Forall_forall in HF, HF'. apply not_after_antisym; auto.
Qed.

Lemma percentile_order q l l' : Forall is_latency l → l ≡ₚ l' → Bench.percentile q l = Bench.percentile q l'.
Proof. intros HF Hp. unfold Bench.percentile. by rewrite (sort_samples_order l l'), (Permutation_length Hp). Qed.
Lemma metrics_order l l' c a : Forall is_latency l → l ≡ₚ l' → Bench.BuildTxnMetrics l c a = Bench.BuildTxnMetrics l' c a.
Proof.
  intros HF Hp. unfold Bench.BuildTxnMetrics. destruct l as [|x l], l' as [|x' l']; [done|by apply Permutation_nil_cons in Hp| |].
  - by apply symmetry, Permutation_nil_cons in Hp.
  - by rewrite !(percentile_order _ _ _ HF Hp).
Qed.
Lemma measured_order fs fs' : fs ≡ₚ fs' → measured fs ≡ₚ measured fs'.
Proof. intros Hp. unfold measured. by rewrite Hp. Qed.
Lemma rounds_that_order ok fs fs' : fs ≡ₚ fs' → rounds_that ok fs = rounds_that ok fs'.
Proof. intros Hp. unfold rounds_that. by rewrite Hp. Qed.

(** Every latency was measured by a clock. *)
Definition timed fs : Prop := ∀ f x, f ∈ fs → Bench.f_us f = Some x → is_latency x.
Lemma timed_measured fs : timed fs → Forall is_latency (measured fs).
Proof.
  intros Ht. apply Forall_forall. intros x (f & Hx & [_ Hf]%list_elem_of_filter)%list_elem_of_bind.
  destruct (Bench.f_us f) as [y|] eqn:E; [|by apply elem_of_nil in Hx]. apply list_elem_of_singleton in Hx as ->. by eapply Ht.
Qed.
Lemma timed_filter (P : Bench.Finished → Prop) `{∀ f, Decision (P f)} fs : timed fs → timed (filter P fs).
Proof. intros Ht f x [_ Hf]%list_elem_of_filter. by apply Ht. Qed.
Lemma kind_metrics_order k fs fs' : timed fs → fs ≡ₚ fs' → Bench.metrics (kind_stat k fs) = Bench.metrics (kind_stat k fs').
Proof.
  intros Ht Hp. unfold Bench.metrics, kind_stat, stat_of. cbn. assert (filter (of_kind k) fs ≡ₚ filter (of_kind k) fs') as Hp' by by rewrite Hp.
  rewrite !(rounds_that_order _ _ _ Hp'). by apply metrics_order; [apply timed_measured, timed_filter|apply measured_order].
Qed.

Lemma Run_order fs fs' elapsed : timed fs → fs ≡ₚ fs' → Bench.Run fs elapsed = Bench.Run fs' elapsed.
Proof.
  intros Ht Hp. unfold Bench.Run. fold (count_all Bench.BenchState0 fs). fold (count_all Bench.BenchState0 fs'). rewrite !count_all_spec.
  cbv zeta. unfold Bench.Run_result.
  pose proof (timed_measured _ Ht) as HF. pose proof (measured_order _ _ Hp) as Hm.
  assert (Hk : ∀ k, Bench.metrics (kind_stat k fs) = Bench.metrics (kind_stat k fs')) by (intros; by apply kind_metrics_order).
  assert (Hc : ∀ k, Bench.st_count (kind_stat k fs) = Bench.st_count (kind_stat k fs')).
  { intros k. cbn. f_equal. apply rounds_that_order. by rewrite Hp. }
  cbn [Bench.committed_ Bench.aborted_ Bench.latencies_us_ Bench.new_order_ Bench.payment_ Bench.order_status_ Bench.delivery_ Bench.stock_level_].
  rewrite !Hk, !Hc. unfold stat_of. cbn [Bench.st_count Bench.st_aborts Bench.st_lat_us]. rewrite !(rounds_that_order _ _ _ Hp).
  rewrite !(percentile_order _ _ _ HF Hm), (sort_samples_order _ _ HF Hm), (Permutation_length Hm).
  destruct (measured fs) as [|x l], (measured fs') as [|x' l']; [done|by apply Permutation_nil_cons in Hm| |done].
  by apply symmetry, Permutation_nil_cons in Hm.
Qed.

(** *** What the figures say *)

Lemma rounds_that_cons ok f fs : rounds_that ok (f :: fs) = (if eqb (Bench.f_ok f) ok then 1 else 0) + rounds_that ok fs.
Proof.
  unfold rounds_that. destruct (eqb_spec (Bench.f_ok f) ok) as [E|E]; [rewrite filter_cons_True by done|rewrite filter_cons_False by done]; cbn; lia.
Qed.
Lemma kind_cons k ok f fs : rounds_that ok (filter (of_kind k) (f :: fs)) =
  (if Bench.f_type f =? k then if eqb (Bench.f_ok f) ok then 1 else 0 else 0) + rounds_that ok (filter (of_kind k) fs).
Proof. destruct (Z.eqb_spec (Bench.f_type f) k) as [E|E]; [by rewrite filter_cons_True, rounds_that_cons|by rewrite filter_cons_False]. Qed.
Lemma rounds_that_total fs : rounds_that true fs + rounds_that false fs = Z.of_nat (length fs).
Proof. induction fs as [|f fs IH]; [done|]. rewrite !rounds_that_cons. destruct (Bench.f_ok f); cbn [eqb length]; lia. Qed.
Lemma kinds_total ok fs : Forall (λ f, 0 ≤ Bench.f_type f ≤ 4) fs →
  rounds_that ok fs = foldr Z.add 0 ((λ k, rounds_that ok (filter (of_kind k) fs)) <$> [0; 1; 2; 3; 4]).
Proof.
  induction 1 as [|f fs Hf HF IH]; [done|]. rewrite rounds_that_cons, IH. cbn [foldr fmap list_fmap]. rewrite !kind_cons.
  assert (Bench.f_type f = 0 ∨ Bench.f_type f = 1 ∨ Bench.f_type f = 2 ∨ Bench.f_type f = 3 ∨ Bench.f_type f = 4) as Hk by lia.
  destruct Hk as [E|[E|[E|[E|E]]]]; rewrite !E; cbn; lia.
Qed.
Lemma rounds_that_bounds ok fs : 0 ≤ rounds_that ok fs ≤ Z.of_nat (length fs).
Proof. pose proof (rounds_that_total fs). unfold rounds_that in *. destruct ok; lia. Qed.
Lemma u64_rounds ok fs k : Z.of_nat (length fs) < 2 ^ 64 → u64 (rounds_that ok (filter (of_kind k) fs)) = rounds_that ok (filter (of_kind k) fs).
Proof.
  intros Hn. apply Z.mod_small. pose proof (rounds_that_bounds ok (filter (of_kind k) fs)) as Hb.
  pose proof (length_filter (of_kind k) fs). lia.
Qed.
Lemma metrics_counts s : Bench.m_committed (Bench.metrics s) = Bench.st_count s ∧ Bench.m_aborted (Bench.metrics s) = Bench.st_aborts s.
Proof. unfold Bench.metrics, Bench.BuildTxnMetrics. by destruct (Bench.st_lat_us s). Qed.
End counts.

(** The kinds of transactions of a result. *)
Definition all_metrics (r : Bench.BenchResult) : list Bench.TxnMetrics :=
  [Bench.new_order_metrics r; Bench.payment_metrics r; Bench.order_status_metrics r; Bench.delivery_metrics r; Bench.stock_level_metrics r].
(** [p] stands at place [k] of the samples in order. *)
Definition has_rank (samples : list double) (k : nat) (p : double) : Prop :=
  p ∈ samples ∧ (k + 1 ≤ length (filter (λ x, Bench.not_after x p) samples))%nat ∧
  (length samples - k ≤ length (filter (λ x, Bench.not_after p x) samples))%nat.

(** The median, the 95th and the 99th percentile of the samples of one kind, or zeros. *)
Definition metrics_rank (m : Bench.TxnMetrics) (samples : list double) : Prop :=
  let n := length samples in
  if samples is [] then Bench.p50 m = Bench.dzero ∧ Bench.p95 m = Bench.dzero ∧ Bench.p99 m = Bench.dzero
  else has_rank samples (place 50 n) (Bench.p50 m) ∧ has_rank samples (place 95 n) (Bench.p95 m) ∧ has_rank samples (place 99 n) (Bench.p99 m).

Lemma length_measured fs : (length (measured fs) ≤ length fs)%nat.
Proof.
  unfold measured. etransitivity; [|apply (length_filter (went true))]. generalize (filter (went true) fs) as l. induction l as [|f l IH]; [done|].
  rewrite bind_cons, length_app. cbn [length]. assert (length (option_list (Bench.f_us f)) ≤ 1)%nat by (destruct (Bench.f_us f); cbn; lia). change (S (length l)) with (1 + length l)%nat. by apply Nat.add_le_mono.
Qed.
Lemma timed_not_nan fs : timed fs → Forall (λ x, x ≠ S754_nan) (measured fs).
Proof. intros Ht. eapply Forall_impl; [by apply timed_measured|]. by intros x []. Qed.
Lemma percentiles_rank fs : timed fs → Z.of_nat (length fs) < 2 ^ 45 → measured fs ≠ [] →
  let samples := measured fs in
  let n := length samples in
  has_rank samples (place 50 n) (Bench.percentile Bench.q50 samples) ∧ has_rank samples (place 95 n) (Bench.percentile Bench.q95 samples) ∧
  has_rank samples (place 99 n) (Bench.percentile Bench.q99 samples).
Proof.
  intros Ht Hn Hne samples n. pose proof (length_measured fs). destruct (percentile_index_exact n) as (E1 & E2 & E3); [unfold n, samples; lia|].
  rewrite <- E1, <- E2, <- E3. split_and!; by apply percentile_rank; [apply timed_not_nan|].
Qed.
Lemma kind_rank k fs : timed fs → Z.of_nat (length fs) < 2 ^ 45 →
  metrics_rank (Bench.metrics (kind_stat k fs)) (measured (filter (λ f, Bench.f_type f = k) fs)).
Proof.
  intros Ht Hn. set (fk := filter (λ f, Bench.f_type f = k) fs). assert (kind_stat k fs = stat_of fk) as -> by done.
  unfold metrics_rank, Bench.metrics, Bench.BuildTxnMetrics. cbn [stat_of Bench.st_lat_us].
  pose proof (percentiles_rank fk) as Hr. destruct (measured fk) as [|x l] eqn:E; [done|]. apply Hr; [by apply timed_filter| |done].
  pose proof (length_filter (λ f, Bench.f_type f = k) fs). unfold fk. lia.
Qed.

(** C38. The figures of a run of fewer than 2^45 rounds, of the five kinds and measured by
    a clock, are those of its rounds. They are the same in whatever order the workers'
    rounds ended; the counts of committed and of aborted transactions are exact, add up to
    the number of rounds, and are the sums of the counts of the five kinds. With [n]
    latencies measured, the median and the 99th percentile are those at the places
    min (n - 1, 50 n / 100) and min (n - 1, 99 n / 100) of them in order, rounded down
    although the code computes the places in doubles; and so are the median, the 95th and
    the 99th percentile of each of the five kinds, of the latencies of that kind. *)
Theorem benchmark_figures (fs fs' : list Bench.Finished) (elapsed : double) :
  timed fs → fs ≡ₚ fs' → Forall (λ f, 0 ≤ Bench.f_type f ≤ 4) fs → Z.of_nat (length fs) < 2 ^ 45 →
  let r := Bench.Run fs elapsed in
  let samples := measured fs in
  Bench.Run fs' elapsed = r ∧
  Bench.total_txns r = Z.of_nat (length (filter (λ f, Bench.f_ok f = true) fs)) ∧
  Bench.total_txns r + Bench.total_aborts r = Z.of_nat (length fs) ∧
  Bench.total_txns r = foldr Z.add 0 (Bench.m_committed <$> all_metrics r) ∧
  Bench.total_aborts r = foldr Z.add 0 (Bench.m_aborted <$> all_metrics r) ∧
  (samples ≠ [] → has_rank samples (place 50 (length samples)) (Bench.r_p50 r) ∧ has_rank samples (place 99 (length samples)) (Bench.r_p99 r)) ∧
  ∀ k m, all_metrics r !! k = Some m → metrics_rank m (measured (filter (λ f, Bench.f_type f = Z.of_nat k) fs)).
Proof.
  intros Ht Hp HF Hn r samples. pose proof (rounds_that_bounds true fs) as Hb1. pose proof (rounds_that_bounds false fs) as Hb2.
  assert (Er : r = Bench.Run_result (count_all Bench.BenchState0 fs) elapsed) by done. rewrite count_all_spec in Er. cbv zeta in Er.
  assert (Bench.total_txns r = rounds_that true fs ∧ Bench.total_aborts r = rounds_that false fs ∧
    all_metrics r = (λ k, Bench.metrics (kind_stat k fs)) <$> [0; 1; 2; 3; 4] ∧
    (samples ≠ [] → Bench.r_p50 r = Bench.percentile Bench.q50 samples ∧ Bench.r_p99 r = Bench.percentile Bench.q99 samples))
    as (Ec & Ea & Em & Ep).
  { rewrite Er. unfold Bench.Run_result. cbn [Bench.latencies_us_ stat_of Bench.st_lat_us]. fold samples.
    destruct samples eqn:Es; (split_and!; [by apply Z.mod_small; lia..|done|]); done. }
  rewrite Ec, Ea, Em. split_and!; [symmetry; by apply Run_order|done|apply rounds_that_total| | | |].
  - rewrite (kinds_total true fs HF). rewrite <- list_fmap_compose. f_equal. apply list_fmap_ext. intros i k _. cbn.
    rewrite (proj1 (metrics_counts _)). cbn. by rewrite u64_rounds by lia.
  - rewrite (kinds_total false fs HF). rewrite <- list_fmap_compose. f_equal. apply list_fmap_ext. intros i k _. cbn.
    rewrite (proj2 (metrics_counts _)). cbn. by rewrite u64_rounds by lia.
  - intros Hne. destruct (Ep Hne) as [-> ->]. by destruct (percentiles_rank fs Ht Hn Hne) as (? & _ & ?).
  - intros k m. do 5 (destruct k as [|k]; [intros [= <-]; by apply kind_rank|]). done.
Qed.

(** ** Examples *)

(** Three rounds, one of them in the warm-up and one aborted. *)
Definition demo_rounds : list Bench.Finished :=
  [Bench.MkFinished 0 true None; Bench.MkFinished 1 false None; Bench.MkFinished 1 true (Some (Bench.latency_us 2500))].
Lemma demo_timed : timed demo_rounds.
Proof.
  intros f x Hf E. assert (x = Bench.latency_us 2500) as ->.
  { unfold demo_rounds in Hf. rewrite !elem_of_cons, elem_of_nil in Hf. destruct Hf as [-> |[-> |[-> |[]]]]; try done. by injection E. }
  split; intros E'; vm_compute in E'; discriminate.
Qed.
Lemma benchmark_figures_witness :
  let r := Bench.Run demo_rounds (double_of_Z 1) in
  Bench.Run (reverse demo_rounds) (double_of_Z 1) = r ∧ Bench.total_txns r = 2 ∧ Bench.total_aborts r = 1 ∧
  has_rank [Bench.latency_us 2500] 0 (Bench.r_p50 r) ∧ has_rank [Bench.latency_us 2500] 0 (Bench.p95 (Bench.payment_metrics r)).
Proof.
  assert (demo_rounds ≡ₚ reverse demo_rounds) as Hp by by rewrite reverse_Permutation.
  assert (Forall (λ f, 0 ≤ Bench.f_type f ≤ 4) demo_rounds) as HF by (apply (bool_decide_unpack _); vm_compute; exact I).
  destruct (benchmark_figures demo_rounds (reverse demo_rounds) (double_of_Z 1) demo_timed Hp HF) as (H1 & H2 & H3 & _ & _ & H6 & H7); [done|].
  destruct H6 as [H6 _]; [done|]. specialize (H7 1%nat _ eq_refl) as (_ & H7 & _). intros r. split_and!; [exact H1|exact H2| |exact H6|exact H7].
  unfold r. rewrite H2 in H3. change (Z.of_nat _) with 2 in H3 at 1. change (Z.of_nat _) with 3 in H3. lia.
Defined.

(** The throughput divides every committed transaction, those of the warm-up too, by the
    time since the warm-up ended: two transactions, of which one was measured, in one
    second. *)
Lemma throughput_counts_warmup :
  let r := Bench.Run demo_rounds (double_of_Z 1) in
  length (measured demo_rounds) = 1%nat ∧ Bench.r_duration r = double_of_Z 1 ∧ Bench.txns_per_second r = double_of_Z 2.
Proof. vm_compute. done. Qed.

(** With eleven districts per warehouse, two districts have one key, and the second
    replaces the first. *)
Lemma district_keys_collide : Tpcc.district_id 1 10 = Tpcc.district_id 2 0.
Proof. done. Qed.
Lemma customer_keys_collide : Tpcc.customer_id 1 0 10001 = Tpcc.customer_id 1 1 1.
Proof. done. Qed.

(** *** Against shards that answer *)

#[local] Existing Instance wrapping.

(** The rows of the loader, by the table. *)
Definition bench_answer (req : ExecuteRequest) : ExecuteResponse :=
  let t := eq_table_id req in
  let row := if t =? 1 then Tpcc.warehouse_row 1 else if t =? 2 then Tpcc.district_row 1 0
             else if t =? 3 then Tpcc.customer_row 1 0 1 else Tpcc.order_row 1 0 1 in
  MkExecuteResponse true Ok "" (match eq_op req with OP_READ => row.2 | _ => [] end) [].
Definition bench_env (_ : ()) (a : CoordAction) : () * coord_result a :=
  ((), match a return coord_result a with
       | AExecute _ req => Some (bench_answer req)
       | a => (demo_env () a).2
       end).
Definition bench_run {A} (m : CM A) : () * list CEvent * (Coordinator * A) := run bench_env () (m demo_coord).
Lemma bench_run_path {A} (m : CM A) : path (m demo_coord) (bench_run m).1.2 (Some (bench_run m).2).
Proof. apply run_path. Qed.

Definition one_of_each : TPCCConfig := MkTPCCConfig 1 1 1 1.
Definition demo_bench : Benchmark := MkBenchmark (MkBenchConfig 1 1 0 2 one_of_each Standard) new_tables.
Definition demo_draw : Draw := MkDraw 1 0 1 (double_of_Z 25) 1 (λ _, 1) (λ _, false).

Lemma benchmark_transactions_witness :
  let r := bench_run (Bench.run_txn demo_bench 1 demo_draw) in
  open_txns r.2.1 = ∅ ∧ r.2.2 = Some true ∧ ∃ ops, txn_spec demo_bench 1 demo_draw ops ∧ committed demo_coord ops r.1.2 r.2.1.
Proof.
  intros r. assert (r.2.2 = Some true) as Ho by (vm_compute; reflexivity).
  assert (path (Bench.run_txn demo_bench 1 demo_draw demo_coord) r.1.2 (Some (r.2.1, Some true))) as Hp.
  { rewrite <- Ho, <- surjective_pairing. exact (bench_run_path _). }
  destruct (benchmark_transactions demo_bench 1 demo_draw _ _ _ _ Hp) as (Eo & _ & Hops).
  { apply (bool_decide_unpack _). vm_compute. exact I. }
  split_and!; [rewrite Eo; vm_compute; reflexivity|done|by apply Hops].
Defined.

Lemma load_complete_witness :
  let r := bench_run (Tpcc.LoadTPCCData (λ _ _, false) new_Catalog one_of_each).2 in
  batches demo_coord (tpcc_batches one_of_each new_tables) r.1.2 r.2.1 ∧ r.2.2 = Some 6 ∧
  NoDup ((λ x, (x.1, x.2.1)) <$> rows_of (tpcc_batches one_of_each new_tables)).
Proof.
  intros r. assert (r.2.2 = Some 6) as Ho by (vm_compute; reflexivity).
  assert (path ((Tpcc.LoadTPCCData (λ _ _, false) new_Catalog one_of_each).2 demo_coord) r.1.2 (Some (r.2.1, Some 6))) as Hp.
  { rewrite <- Ho, <- surjective_pairing. exact (bench_run_path _). }
  destruct (load_complete (λ _ _, false) one_of_each demo_coord r.2.1 r.1.2 6) as (Hb & _ & _ & Hd); [vm_compute; split; congruence..|exact Hp|].
  split_and!; [exact Hb|exact Ho|]. apply Hd; vm_compute; congruence.
Defined.

Definition demo_stocked : Benchmark :=
  MkBenchmark (MkBenchConfig 1 1 0 2 (MkTPCCConfig 1 1 1 1000) Standard) new_tables.
#[local] Instance answers_loaded_dec rows e : Decision (answers_loaded rows e).
Proof.
  destruct e as [a x]. destruct a; try (left; exact I). destruct x as [resp|]; [|left; exact I].
  unfold answers_loaded. destruct (Coord.FromExecuteResponse resp). assert (Decision (eq_op req = OP_READ)) by (destruct (eq_op req); first [left; reflexivity|right; discriminate]). apply _.
Defined.
Lemma workload_finds_its_rows_witness :
  let r := bench_run (Bench.run_txn demo_stocked 1 demo_draw) in
  let rows := rows_of (tpcc_batches (tpcc (config_ demo_stocked)) new_tables) in
  Forall (answers_loaded rows) r.1.2 ∧ Forall (λ e, asks_loaded rows (projT1 e)) r.1.2 ∧ r.2.2 = Some true.
Proof.
  intros r rows. assert (Forall (answers_loaded rows) r.1.2) as HF by (apply (bool_decide_unpack _); vm_compute; exact I).
  destruct (workload_finds_its_rows demo_stocked 1 demo_draw demo_coord r.1.2 (Some r.2)) as [Ha Ho].
  - unfold loadable. cbn. lia.
  - done.
  - unfold in_range. cbn. split_and!; intros; lia.
  - exact (bench_run_path _).
  - split_and!; [exact HF|exact Ha|]. destruct (Ho ltac:(done) HF r.2.1 r.2.2 ltac:(by rewrite <- surjective_pairing)) as [E|[E _]]; [exact E|].
    vm_compute in E. discriminate.
Defined.

(** Stock-Level draws one of 1000 items whatever the number of items is: the row of an
    item that was not loaded is not there, and the transaction aborts. *)
Lemma stock_level_misses_items :
  in_range one_of_each (MkDraw 1 0 1 (double_of_Z 25) 2 (λ _, 1) (λ _, false)) ∧
  (Tpcc.t_stock new_tables, Bench.stock_pk 1 2) ∉ keys_of (tpcc_batches one_of_each new_tables).
Proof.
  split; [unfold in_range; cbn; split_and!; intros; lia|]. apply (bool_decide_unpack _). vm_compute. exact I.
Qed.
