(* ===== verification/Cluster.v ===== *)
(** * Launching a cluster (src/src/cluster/cluster_config.{h,cpp}, cluster_launcher.{h,cpp},
    src/src/replica_main.cpp, src/src/main.cpp)

    Ports and addresses of a cluster, the command lines the launcher starts replica
    processes with and what a replica makes of its command line, the launcher's table of
    processes and in-process shards, and the command line of the server. The operating
    system is the record [Os]: the processes that run and the results of the coming
    [fork] calls; [kill] followed by [waitpid] ends a process. The branches for POSIX
    systems are modelled. *)
From Stdlib Require Import Strings.Byte Strings.Ascii Strings.String.
From stdpp Require Import base functions gmap sets strings list.
From Stdlib Require Import ZArith Lia.
From S2P Require Import Prelude Text GroupCommit RaftNode RaftTransport GrpcTransport.
Local Open Scope Z_scope.

(** ** cluster_config *)

Record ClusterTopology := MkClusterTopology {
  num_shards : Z;
  replicas_per_shard : Z;
  shard_base_port : Z;
  raft_base_port : Z;
  port_stride : Z;
}.
Definition default_topology : ClusterTopology := MkClusterTopology 3 3 57000 58000 10.

Definition u16 (z : Z) : Z := z mod 65536.

Definition ShardPort (topo : ClusterTopology) (shard_id replica_id : Z) : Z :=
  u16 (u32 (shard_base_port topo + u32 (shard_id * port_stride topo) + replica_id)).
Definition RaftPort (topo : ClusterTopology) (shard_id replica_id : Z) : Z :=
  u16 (u32 (raft_base_port topo + u32 (shard_id * port_stride topo) + replica_id)).
Definition HostPort (host : bytes) (port : Z) : bytes := host ++ ch ":" :: to_string port.

(** The loops over shards and replicas. *)
Definition shards (topo : ClusterTopology) : list Z := seqZ 0 (num_shards topo).
Definition replicas (topo : ClusterTopology) : list Z := seqZ 0 (replicas_per_shard topo).

Definition BuildShardReplicaAddresses (topo : ClusterTopology) (host : bytes) : gmap Z (list bytes) :=
  foldl (λ out s, <[s := (λ r, HostPort host (ShardPort topo s r)) <$> replicas topo]> out) ∅ (shards topo).
Definition BuildShardEntryAddresses (topo : ClusterTopology) (host : bytes) : gmap Z bytes :=
  foldl (λ out s, <[s := HostPort host (ShardPort topo s 0)]> out) ∅ (shards topo).

(** ** replica_main *)

(** [std::strtoul] on the characters of an argument. *)
Definition strtoul_bytes (s : bytes) : Z := strtoul (string_of_list_byte s).
Definition ParseU32 (s : bytes) (defv : Z) : Z := match s with [] => defv | _ => u32 (strtoul_bytes s) end.

(** Calls of [std::getline] with a delimiter until one fails, which it does when nothing
    is left; [item] is the part of the item read so far. *)
Fixpoint getline_all (delim : byte) (s item : bytes) : list bytes :=
  match s with
  | [] => match item with [] => [] | _ => [item] end
  | c :: s => if bool_decide (c = delim) then item :: getline_all delim s [] else getline_all delim s (item ++ [c])
  end.

(** [std::string::find]. *)
Fixpoint split_at (c : byte) (s : bytes) : option (bytes * bytes) :=
  match s with
  | [] => None
  | x :: s => if bool_decide (x = c) then Some ([], s) else '(a, b) ← split_at c s; Some (x :: a, b)
  end.

Definition ParseRaftPeers (spec : bytes) : gmap Z bytes :=
  foldl (λ peers item,
    match item with
    | [] => peers
    | _ => match split_at (ch "@") item with
           | None => peers
           | Some (id, addr) => <[u32 (strtoul_bytes id) := addr]> peers
           end
    end) ∅ (getline_all (ch ",") spec []).

Record ReplicaArgs := MkReplicaArgs {
  ra_shard_id : Z;
  ra_replica_id : Z;
  ra_data_dir : bytes;
  ra_shard_listen : bytes;
  ra_raft_listen : bytes;
  ra_raft_peers_spec : bytes;
  ra_gc_window_us : Z;
  ra_gc_batch : Z;
}.
Definition default_replica_args : ReplicaArgs :=
  MkReplicaArgs 0 0 (str "./data") (str "0.0.0.0:57000") (str "0.0.0.0:58000") [] 0 0.

(** An option with its value; [None] when the name is none of these. *)
Definition replica_option (a : ReplicaArgs) (name v : bytes) : option ReplicaArgs :=
  let '(MkReplicaArgs s r d sl rl rp gw gb) := a in
  if bool_decide (name = str "--shard") then Some (MkReplicaArgs (ParseU32 v s) r d sl rl rp gw gb)
  else if bool_decide (name = str "--replica") then Some (MkReplicaArgs s (ParseU32 v r) d sl rl rp gw gb)
  else if bool_decide (name = str "--data-dir") then Some (MkReplicaArgs s r v sl rl rp gw gb)
  else if bool_decide (name = str "--shard-listen") then Some (MkReplicaArgs s r d v rl rp gw gb)
  else if bool_decide (name = str "--raft-listen") then Some (MkReplicaArgs s r d sl v rp gw gb)
  else if bool_decide (name = str "--raft-peers") then Some (MkReplicaArgs s r d sl rl v gw gb)
  else if bool_decide (name = str "--gc-window-us") then Some (MkReplicaArgs s r d sl rl rp (ParseU32 v gw) gb)
  else if bool_decide (name = str "--gc-batch") then Some (MkReplicaArgs s r d sl rl rp gw (ParseU32 v gb))
  else None.
(** [argv] from the second element on; [None] when the usage is printed. *)
Fixpoint replica_args (a : ReplicaArgs) (argv : list bytes) : option ReplicaArgs :=
  match argv with
  | [] => Some a
  | name :: argv' =>
      let other := if bool_decide (name = str "--help") || bool_decide (name = str "-h") then None
                   else replica_args a argv' in
      match argv' with
      | v :: argv'' => match replica_option a name v with Some a => replica_args a argv'' | None => other end
      | [] => other
      end
  end.

(** [setenv] before the server is created. *)
Definition string_of (s : bytes) : string := string_of_list_byte s.
Definition set_env (env : getenv) (name value : string) : getenv := λ n, if bool_decide (n = name) then Some value else env n.
Definition replica_env (a : ReplicaArgs) (env : getenv) : getenv :=
  if 0 <? ra_gc_window_us a then
    let env := set_env env "TRANS_DB_GROUP_COMMIT" "1" in
    let env := set_env env "TRANS_DB_GROUP_COMMIT_WINDOW_US" (string_of (to_string (ra_gc_window_us a))) in
    if 0 <? ra_gc_batch a then set_env env "TRANS_DB_GROUP_COMMIT_BATCH" (string_of (to_string (ra_gc_batch a))) else env
  else env.

(** The constructor of [ShardServiceImpl] for one replica: the transport and the peers,
    in the order in which the map is traversed. *)
Definition replica_transport (replica_id : Z) (peer_addrs : gmap Z bytes) : GrpcRaftTransport * list Z :=
  foldl (λ '(tr, peers) '(peer_id, addr),
    if peer_id =? replica_id then (tr, peers) else (Grpc.AddPeer tr peer_id addr, peers ++ [peer_id]))
    (Grpc.SetLocalNodeId new_GrpcRaftTransport replica_id, []) (map_to_list peer_addrs).

(** [DisconnectReplicaForTest], [ReconnectReplicaForTest] and the request that calls
    them, on such a replica. *)
Definition SetRaftPeerPartition (tr : GrpcRaftTransport) (peer_replica_id : Z) (partitioned : bool) : GrpcRaftTransport :=
  if partitioned then Grpc.DisconnectPeer tr peer_replica_id else Grpc.ReconnectPeer tr peer_replica_id.

(** ** cluster_launcher *)

Inductive ClusterTransport := TransportGrpc | TransportInProcess.
#[export] Instance ClusterTransport_eq_dec : EqDecision ClusterTransport.
Proof. solve_decision. Defined.

Record ReplicaProc := MkReplicaProc {
  rp_shard_id : Z;
  rp_replica_id : Z;
  pid : Z;
}.
(** A started [ShardServer]: its shard, directory, address and number of replicas. *)
Record InProcessShard := MkInProcessShard {
  is_shard_id : Z;
  is_data_dir : bytes;
  is_listen : bytes;
  is_replicas : Z;
}.
Record ClusterLauncher := MkClusterLauncher {
  cl_running_ : bool;
  transport_ : ClusterTransport;
  topo_ : ClusterTopology;
  data_dir_ : bytes;
  host_ : bytes;
  replica_binary_ : bytes;
  children_ : list ReplicaProc;
  inprocess_shards_ : list (option InProcessShard);
}.
Definition new_ClusterLauncher : ClusterLauncher :=
  MkClusterLauncher false TransportGrpc default_topology [] [] [] [] [].

(** Running processes with their command lines, and what the next calls of [fork]
    return in the parent: a pid, or nothing when they fail. *)
Record Os := MkOs {
  processes : gmap Z (list bytes);
  forks : list (option Z);
}.

Module Launcher.
Implicit Types (l : ClusterLauncher) (os : Os) (topo : ClusterTopology).

Definition set_running l (b : bool) : ClusterLauncher :=
  MkClusterLauncher b (transport_ l) (topo_ l) (data_dir_ l) (host_ l) (replica_binary_ l) (children_ l) (inprocess_shards_ l).
Definition set_children l (c : list ReplicaProc) : ClusterLauncher :=
  MkClusterLauncher (cl_running_ l) (transport_ l) (topo_ l) (data_dir_ l) (host_ l) (replica_binary_ l) c (inprocess_shards_ l).
Definition set_inprocess l (s : list (option InProcessShard)) : ClusterLauncher :=
  MkClusterLauncher (cl_running_ l) (transport_ l) (topo_ l) (data_dir_ l) (host_ l) (replica_binary_ l) (children_ l) s.

(** [peers.str()]. *)
Definition add_peer topo (host : bytes) (s r : Z) (st : bytes * bool) (p : Z) : bytes * bool :=
  let '(peers, first) := st in
  if p =? r then (peers, first)
  else (peers ++ (if first then [] else [ch ","]) ++ to_string p ++ ch "@" :: HostPort host (RaftPort topo s p), false).
Definition peers_spec topo (host : bytes) (s r : Z) : bytes := (foldl (add_peer topo host s r) ([], true) (replicas topo)).1.

(** The arguments of [execlp]. *)
Definition replica_command l (s r : Z) : list bytes :=
  [replica_binary_ l; str "--shard"; to_string s; str "--replica"; to_string r;
   str "--data-dir"; data_dir_ l ++ str "/shard" ++ to_string s ++ str "_rep" ++ to_string r;
   str "--shard-listen"; str "0.0.0.0:" ++ to_string (ShardPort (topo_ l) s r);
   str "--raft-listen"; str "0.0.0.0:" ++ to_string (RaftPort (topo_ l) s r);
   str "--raft-peers"; peers_spec (topo_ l) (host_ l) s r].

Definition fork_exec os (argv : list bytes) : Os * option Z :=
  match forks os with
  | Some child :: fs => (MkOs (<[child := argv]> (processes os)) fs, Some child)
  | None :: fs => (MkOs (processes os) fs, None)
  | [] => (os, None)
  end.

(** The replicas in turn; [false] when an exception is thrown. *)
Fixpoint start_replicas l os (rs : list (Z * Z)) : ClusterLauncher * Os * bool :=
  match rs with
  | [] => (l, os, true)
  | (s, r) :: rs =>
      match fork_exec os (replica_command l s r) with
      | (os, None) => (l, os, false)
      | (os, Some child) => start_replicas (set_children l (children_ l ++ [MkReplicaProc s r child])) os rs
      end
  end.
Definition all_replicas topo : list (Z * Z) := s ← shards topo; (λ r, (s, r)) <$> replicas topo.

(** [exists_]: [fs::exists]. *)
Definition StartGrpcReplicas (exists_ : bytes → bool) l os : ClusterLauncher * Os * bool :=
  if negb (exists_ (replica_binary_ l)) then (l, os, false) else start_replicas l os (all_replicas (topo_ l)).

Definition in_process_shard l (s : Z) : InProcessShard :=
  MkInProcessShard s (data_dir_ l ++ str "/shard" ++ to_string s) (HostPort (host_ l) (ShardPort (topo_ l) s 0))
    (replicas_per_shard (topo_ l)).
(** [std::vector::resize]. *)
Definition resized (n : nat) (v : list (option InProcessShard)) : list (option InProcessShard) :=
  take n v ++ replicate (n - length v) None.
(** [opens]: the constructor of [ShardServer] for the shard does not throw. *)
Fixpoint start_in_process (opens : Z → bool) l (ss : list Z) : ClusterLauncher * bool :=
  match ss with
  | [] => (l, true)
  | s :: ss =>
      if negb (opens s) then (l, false)
      else start_in_process opens (set_inprocess l (inprocess_shards_ l ++ [Some (in_process_shard l s)])) ss
  end.
Definition StartInProcessShards (opens : Z → bool) l : ClusterLauncher * bool :=
  start_in_process opens (set_inprocess l (resized (Z.to_nat (num_shards (topo_ l))) (inprocess_shards_ l))) (shards (topo_ l)).

(** [WaitForGrpcClusterReady]: [polls] says, for every round before the deadline, which
    addresses answer that they have a leader. The addresses asked, and whether the loop
    ended before the deadline. *)
Fixpoint shard_ready (has_leader : bytes → bool) (addrs : list bytes) : bool * list bytes :=
  match addrs with
  | [] => (false, [])
  | a :: addrs => if has_leader a then (true, [a]) else let '(ok, asked) := shard_ready has_leader addrs in (ok, a :: asked)
  end.
Fixpoint all_shards_ready (has_leader : bytes → bool) (addrs : gmap Z (list bytes)) (ss : list Z) : bool * list bytes :=
  match ss with
  | [] => (true, [])
  | s :: ss =>
      match addrs !! s with
      | None | Some [] => (false, [])
      | Some l =>
          let '(ok, asked) := shard_ready has_leader l in
          if ok then let '(ok, asked') := all_shards_ready has_leader addrs ss in (ok, asked ++ asked') else (false, asked)
      end
  end.
Fixpoint WaitForGrpcClusterReady topo (host : bytes) (polls : list (bytes → bool)) : bool * list bytes :=
  match polls with
  | [] => (false, [])
  | has_leader :: polls =>
      let '(ok, asked) := all_shards_ready has_leader (BuildShardReplicaAddresses topo host) (shards topo) in
      if ok then (true, asked)
      else let '(ok, asked') := WaitForGrpcClusterReady topo host polls in (ok, asked ++ asked')
  end.

(** [kill] and [waitpid]. *)
Definition end_process os (child : Z) : Os := MkOs (delete child (processes os)) (forks os).
Definition stop_child os (c : ReplicaProc) : Os := if 0 <? pid c then end_process os (pid c) else os.

Definition Stop l os : ClusterLauncher * Os :=
  if negb (cl_running_ l) then (l, os)
  else (set_running (set_children (set_inprocess l []) []) false, foldl stop_child os (children_ l)).

(** [default_binary] is what [DefaultReplicaBinary] finds. *)
Definition Start (exists_ : bytes → bool) (opens : Z → bool) (default_binary : bytes) (polls : list (bytes → bool)) l os
    (transport : ClusterTransport) (data_dir : bytes) topo (host replica_binary : bytes) : ClusterLauncher * Os * bool :=
  let '(l, os) := Stop l os in
  let l := MkClusterLauncher (cl_running_ l) transport topo data_dir host
             (match replica_binary with [] => default_binary | _ => replica_binary end) (children_ l) (inprocess_shards_ l) in
  match transport with
  | TransportGrpc =>
      let '(l, os, ok) := StartGrpcReplicas exists_ l os in
      if negb ok then (l, os, false)
      else let '(_, _) := WaitForGrpcClusterReady topo host polls in (set_running l true, os, true)
  | TransportInProcess =>
      let '(l, ok) := StartInProcessShards opens l in
      if negb ok then (l, os, false) else (set_running l true, os, true)
  end.

Definition inprocess_shard l (shard_id : Z) : option InProcessShard :=
  if Z.of_nat (length (inprocess_shards_ l)) <=? shard_id then None
  else default None (inprocess_shards_ l !! Z.to_nat shard_id).

(** The requests [PartitionPeer] sends, by address; with an in-process shard it calls
    the service itself. *)
Inductive PartitionCall :=
  | CallService (s : InProcessShard) (peer_replica_id : Z) (partitioned : bool)
  | CallAddress (addr : bytes) (peer_replica_id : Z) (partitioned : bool).
Definition PartitionPeer l (shard_id peer_replica_id : Z) (partitioned : bool) : list PartitionCall :=
  match transport_ l with
  | TransportInProcess =>
      match inprocess_shard l shard_id with Some s => [CallService s peer_replica_id partitioned] | None => [] end
  | TransportGrpc =>
      match BuildShardReplicaAddresses (topo_ l) (host_ l) !! shard_id with
      | None => []
      | Some addrs => (λ addr, CallAddress addr peer_replica_id partitioned) <$> addrs
      end
  end.

Definition StopShard l os (shard_id : Z) : ClusterLauncher * Os :=
  match transport_ l with
  | TransportInProcess =>
      (match inprocess_shard l shard_id with
       | Some _ => set_inprocess l (<[Z.to_nat shard_id := None]> (inprocess_shards_ l))
       | None => l
       end, os)
  | TransportGrpc =>
      let stopped := filter (λ c, rp_shard_id c = shard_id) (children_ l) in
      (set_children l (filter (λ c, rp_shard_id c ≠ shard_id) (children_ l)), foldl stop_child os stopped)
  end.

Definition StartShard (opens : Z → bool) l os (shard_id : Z) : ClusterLauncher * Os * bool :=
  match transport_ l with
  | TransportInProcess =>
      if (Z.of_nat (length (inprocess_shards_ l)) <=? shard_id) || bool_decide (is_Some (inprocess_shard l shard_id))
      then (l, os, true)
      else if negb (opens shard_id) then (l, os, false)
      else (set_inprocess l (<[Z.to_nat shard_id := Some (in_process_shard l shard_id)]> (inprocess_shards_ l)), os, true)
  | TransportGrpc => start_replicas l os ((λ r, (shard_id, r)) <$> replicas (topo_ l))
  end.
End Launcher.

(** ** main *)

Definition ParseUInt16 (s : bytes) (defv : Z) : Z := match s with [] => defv | _ => u16 (strtoul_bytes s) end.
Definition ParseTransport (s : bytes) : ClusterTransport :=
  if bool_decide (s = str "inproc") || bool_decide (s = str "inprocess") then TransportInProcess else TransportGrpc.

Record ServerArgs := MkServerArgs {
  sa_num_shards : Z;
  sa_pg_port : Z;
  sa_data_dir : bytes;
  sa_transport : ClusterTransport;
}.
Definition default_server_args : ServerArgs := MkServerArgs 3 5432 (str "./data") TransportGrpc.
Definition server_option (a : ServerArgs) (name v : bytes) : option ServerArgs :=
  let '(MkServerArgs n p d t) := a in
  if bool_decide (name = str "--shards") then Some (MkServerArgs (ParseU32 v n) p d t)
  else if bool_decide (name = str "--port") then Some (MkServerArgs n (ParseUInt16 v p) d t)
  else if bool_decide (name = str "--data-dir") then Some (MkServerArgs n p v t)
  else if bool_decide (name = str "--transport") then Some (MkServerArgs n p d (ParseTransport v))
  else None.
Fixpoint server_args (a : ServerArgs) (argv : list bytes) : option ServerArgs :=
  match argv with
  | [] => Some a
  | name :: argv' =>
      let other := if bool_decide (name = str "--help") || bool_decide (name = str "-h") then None
                   else server_args a argv' in
      match argv' with
      | v :: argv'' => match server_option a name v with Some a => server_args a argv'' | None => other end
      | [] => other
      end
  end.
(** The topology the server launches, or the exit code. *)
Definition server_topology (a : ServerArgs) : Z + ClusterTopology :=
  if sa_num_shards a =? 0 then inl 1
  else inr (MkClusterTopology (sa_num_shards a) (replicas_per_shard default_topology) (shard_base_port default_topology)
              (raft_base_port default_topology) (port_stride default_topology)).
