(* ===== verification/ClusterProofs.v ===== *)
(** * The launched cluster is wired correctly

    Command lines are read back by the replicas as the launcher meant them, listening
    addresses never collide, every replica's transport leads to its fellow replicas and
    to nobody else, and the coordinator's addresses to the replicas of the shard; the
    launcher's table lists exactly the processes it has running. *)
From Stdlib Require Import Strings.Byte Strings.Ascii Strings.String.
From stdpp Require Import base functions relations gmap sets strings list.
From Stdlib Require Import ZArith Lia.
From S2P Require Import Prelude Text GroupCommit RaftLog RaftNode RaftCluster RaftReplication RaftTransport GrpcTransport Cluster.
Local Open Scope Z_scope.

(** ** Text *)

Lemma ascii_digit c : digit_value (ascii_of_byte c) = if isdigit c then Some (digit_val c) else None.
Proof. by destruct c. Qed.
Lemma ascii_nondigit c : isdigit c = true → is_space (ascii_of_byte c) = false ∧ ascii_of_byte c ≠ "-"%char ∧ ascii_of_byte c ≠ "+"%char.
Proof. by destruct c. Qed.

Lemma read_digits_value s acc : Forall (λ c, isdigit c = true) s →
  read_digits acc (string_of_list_byte s) = foldl (λ a c, 10 * a + digit_val c) acc s.
Proof.
  intros Hs. revert acc. induction Hs as [|c s Hc _ IH]; intros acc; [done|].
  change (string_of_list_byte (c :: s)) with (String (ascii_of_byte c) (string_of_list_byte s)).
  cbn [read_digits foldl]. by rewrite ascii_digit, Hc, IH.
Qed.

Lemma strtoul_unsigned a s : is_space a = false → a ≠ "-"%char → a ≠ "+"%char →
  strtoul (String a s) = let v := read_digits 0 (String a s) in if UINT64_MAX <? v then UINT64_MAX else v.
Proof.
  intros Hs Hm Hp. unfold strtoul. cbn [skip_space]. rewrite Hs. clear Hs.
  destruct a as [[] [] [] [] [] [] [] []]; done.
Qed.

Lemma strtoul_to_string n : 0 ≤ n ≤ UINT64_MAX → strtoul_bytes (to_string n) = n.
Proof.
  intros Hn. unfold to_string. destruct (Z.ltb_spec n 0); [lia|]. destruct (dec_spec n) as (Hd & Hv & Hne); [lia|].
  unfold strtoul_bytes. destruct (dec n) as [|c s] eqn:E; [done|]. pose proof (Forall_inv Hd) as Hc.
  destruct (ascii_nondigit c Hc) as (Hsp & Hm & Hp).
  change (string_of_list_byte (c :: s)) with (String (ascii_of_byte c) (string_of_list_byte s)).
  rewrite strtoul_unsigned by done. cbv zeta.
  change (String (ascii_of_byte c) (string_of_list_byte s)) with (string_of_list_byte (c :: s)).
  rewrite read_digits_value by done. fold (digits_value (c :: s)). rewrite Hv. by destruct (Z.ltb_spec UINT64_MAX n); [lia|].
Qed.

Lemma ParseU32_to_string n d : is_u32 n → ParseU32 (to_string n) d = n.
Proof.
  intros Hn. unfold ParseU32. rewrite strtoul_to_string by (unfold is_u32, UINT64_MAX in *; lia). rewrite u32_id by done.
  destruct (to_string n) eqn:E; [|done]. exfalso. unfold to_string in E. unfold is_u32 in Hn.
  destruct (Z.ltb_spec n 0); [lia|]. by destruct (dec_spec n) as (_ & _ & ?); [lia|].
Qed.

Lemma to_string_digits n : 0 ≤ n → Forall (λ c, isdigit c = true) (to_string n) ∧ to_string n ≠ [].
Proof. intros Hn. unfold to_string. destruct (Z.ltb_spec n 0); [lia|]. by destruct (dec_spec n) as (? & _ & ?). Qed.
Lemma to_string_u16_inj a b : 0 ≤ a < 65536 → 0 ≤ b < 65536 → to_string a = to_string b → a = b.
Proof.
  intros Ha Hb E. rewrite <- (strtoul_to_string a), <- (strtoul_to_string b) by (unfold UINT64_MAX; lia). by rewrite E.
Qed.
Lemma digits_without c n : isdigit c = false → 0 ≤ n → c ∉ to_string n.
Proof. intros Hc Hn Hin. destruct (to_string_digits n Hn) as [Hd _]. rewrite Forall_forall in Hd. apply Hd in Hin. congruence. Qed.

(** A separator that the first parts do not contain. *)
Lemma sep_inj (c : byte) a a' b b' : c ∉ a → c ∉ a' → a ++ c :: b = a' ++ c :: b' → a = a' ∧ b = b'.
Proof.
  revert a'. induction a as [|x a IH]; intros [|x' a'] Ha Ha' E; cbn in E; simplify_eq; [done|set_solver|set_solver|].
  destruct (IH a') as [-> ->]; set_solver.
Qed.
Lemma split_at_sep c a b : c ∉ a → split_at c (a ++ c :: b) = Some (a, b).
Proof.
  induction a as [|x a IH]; intros Ha; cbn; [by rewrite bool_decide_eq_true_2|].
  rewrite bool_decide_eq_false_2 by set_solver. by rewrite IH by set_solver.
Qed.

(** ** Lists of items *)

Local Abbreviation tail_items items := (concat ((λ i, ch "," :: i) <$> items)).

Lemma getline_items items : ∀ i cur, ch "," ∉ i → cur ++ i ≠ [] → Forall (λ i, (ch "," ∉ i) ∧ i ≠ []) items →
  getline_all (ch ",") (i ++ tail_items items) cur = (cur ++ i) :: items.
Proof.
  induction items as [|j items IHs]; intros i; induction i as [|x i IH]; intros cur Hi Hne HF; cbn [app fmap list_fmap concat].
  - cbn. rewrite app_nil_r in *. by destruct cur.
  - cbn [getline_all]. rewrite bool_decide_eq_false_2 by set_solver. rewrite IH; [by rewrite <- app_assoc|set_solver| |done].
    rewrite <- app_assoc. by destruct cur.
  - cbn [getline_all]. rewrite bool_decide_eq_true_2 by done. apply Forall_cons in HF as [[Hj Hjne] HF].
    rewrite IHs by done. by rewrite app_nil_r.
  - cbn [getline_all]. rewrite bool_decide_eq_false_2 by set_solver. rewrite IH; [by rewrite <- app_assoc|set_solver| |done].
    rewrite <- app_assoc. by destruct cur.
Qed.

Lemma foldl_insert_keys {A B} `{Countable A} (f : A → B) l : ∀ (m : gmap A B) k,
  foldl (λ m x, <[x := f x]> m) m l !! k = if decide (k ∈ l) then Some (f k) else m !! k.
Proof.
  induction l as [|x l IH]; intros m k; cbn [foldl]; [by rewrite decide_False by apply not_elem_of_nil|].
  rewrite IH. destruct (decide (k ∈ l)) as [Hl|Hl]; [by rewrite decide_True by (by right)|].
  destruct (decide (k = x)) as [->|Hx]; [by rewrite lookup_insert_eq, decide_True by left|].
  rewrite lookup_insert_ne by done. by rewrite decide_False by (by intros [?|?]%elem_of_cons).
Qed.

Lemma foldl_insert_pairs {A B} `{Countable A} (l : list (A * B)) : ∀ (m : gmap A B) k, NoDup l.*1 →
  foldl (λ m x, <[x.1 := x.2]> m) m l !! k = match (list_to_map l : gmap A B) !! k with Some v => Some v | None => m !! k end.
Proof.
  induction l as [|[x v] l IH]; intros m k; cbn [fmap list_fmap foldl fst snd list_to_map foldr]; [by rewrite lookup_empty|].
  intros [Hx Hl]%NoDup_cons. rewrite IH by done. destruct (decide (k = x)) as [->|Hk].
  - rewrite (not_elem_of_list_to_map_1 (M := gmap A) l x Hx). by rewrite !lookup_insert_eq.
  - by rewrite !lookup_insert_ne by done.
Qed.

(** ** Ports *)

(** The ports of a shard fit between those of the next one, and the ranges for clients
    and for Raft do not overlap and are ports. *)
Definition topology_ok (topo : ClusterTopology) : Prop :=
  0 ≤ num_shards topo ∧ 0 ≤ replicas_per_shard topo ≤ port_stride topo ∧
  0 ≤ shard_base_port topo ∧ shard_base_port topo + num_shards topo * port_stride topo ≤ 65536 ∧
  0 ≤ raft_base_port topo ∧ raft_base_port topo + num_shards topo * port_stride topo ≤ 65536 ∧
  (shard_base_port topo + num_shards topo * port_stride topo ≤ raft_base_port topo ∨
   raft_base_port topo + num_shards topo * port_stride topo ≤ shard_base_port topo).
#[export] Instance topology_ok_dec topo : Decision (topology_ok topo).
Proof. unfold topology_ok. apply _. Defined.

Section wiring.
Context (topo : ClusterTopology) (Htopo : topology_ok topo).
Implicit Types (s r p : Z) (host : bytes).

Definition placed s r : Prop := s ∈ shards topo ∧ r ∈ replicas topo.

Lemma placed_bounds s r : placed s r ↔ 0 ≤ s < num_shards topo ∧ 0 ≤ r < replicas_per_shard topo.
Proof. unfold placed, shards, replicas. rewrite !elem_of_seqZ. lia. Qed.

Lemma slot_bounds s r : placed s r → 0 ≤ s * port_stride topo ∧ 0 ≤ s * port_stride topo + r < num_shards topo * port_stride topo.
Proof.
  intros Hp%placed_bounds. destruct Htopo as (? & ? & _).
  assert ((s + 1) * port_stride topo ≤ num_shards topo * port_stride topo) by (apply Z.mul_le_mono_nonneg_r; lia).
  assert (0 ≤ s * port_stride topo) by (apply Z.mul_nonneg_nonneg; lia). lia.
Qed.
Lemma slot_inj s r s' r' : placed s r → placed s' r' → s * port_stride topo + r = s' * port_stride topo + r' → s = s' ∧ r = r'.
Proof.
  intros Hp%placed_bounds Hp'%placed_bounds E. destruct Htopo as (_ & ? & _).
  assert (s = s') as <-; [|lia]. rewrite !(Z.mul_comm _ (port_stride topo)) in E.
  apply (Z.div_mod_unique (port_stride topo) s s' r r') in E; lia.
Qed.

Lemma port_value base s r : 0 ≤ base → base + num_shards topo * port_stride topo ≤ 65536 → placed s r →
  u16 (u32 (base + u32 (s * port_stride topo) + r)) = base + (s * port_stride topo + r).
Proof.
  intros Hb Hm Hp. destruct (slot_bounds s r Hp) as [H1 H2]. apply placed_bounds in Hp as [_ Hr]. unfold u16, u32. rewrite (Z.mod_small (s * _)) by lia.
  rewrite (Z.mod_small (_ + _) 4294967296) by lia. rewrite Z.mod_small by lia. lia.
Qed.
Lemma ShardPort_value s r : placed s r → ShardPort topo s r = shard_base_port topo + (s * port_stride topo + r).
Proof. destruct Htopo as (_ & _ & ? & ? & _). by apply port_value. Qed.
Lemma RaftPort_value s r : placed s r → RaftPort topo s r = raft_base_port topo + (s * port_stride topo + r).
Proof. destruct Htopo as (_ & _ & _ & _ & ? & ? & _). by apply port_value. Qed.

Lemma port_range s r : 0 ≤ ShardPort topo s r < 65536 ∧ 0 ≤ RaftPort topo s r < 65536.
Proof. split; apply Z.mod_pos_bound; lia. Qed.

Lemma ports_distinct s r s' r' : placed s r → placed s' r' →
  (ShardPort topo s r = ShardPort topo s' r' → s = s' ∧ r = r') ∧
  (RaftPort topo s r = RaftPort topo s' r' → s = s' ∧ r = r') ∧ RaftPort topo s r ≠ ShardPort topo s' r'.
Proof.
  intros Hp Hp'. rewrite !ShardPort_value, !RaftPort_value by done. pose proof (slot_bounds s r Hp).
  pose proof (slot_bounds s' r' Hp'). split_and!.
  - intros. apply slot_inj; [done..|lia].
  - intros. apply slot_inj; [done..|lia].
  - destruct Htopo as (_ & _ & _ & _ & _ & _ & ?). lia.
Qed.

(** ** What a replica reads from its command line *)

Definition fellows r : list Z := filter (λ p, p ≠ r) (replicas topo).
Definition peer_item host s p : bytes := to_string p ++ ch "@" :: HostPort host (RaftPort topo s p).

Lemma add_peers_false host s r ps out :
  foldl (Launcher.add_peer topo host s r) (out, false) ps =
    (out ++ tail_items (peer_item host s <$> filter (λ p, p ≠ r) ps), false).
Proof.
  revert out. induction ps as [|p ps IH]; intros out; cbn [foldl Launcher.add_peer]; [by rewrite app_nil_r|].
  rewrite filter_cons. destruct (Z.eqb_spec p r) as [->|Hp]; [rewrite decide_False by (intros Hn; by apply Hn); apply IH|].
  rewrite decide_True by done. rewrite IH. cbn [fmap list_fmap concat]. by rewrite <- app_assoc.
Qed.
Lemma peers_spec_items host s r : Launcher.peers_spec topo host s r =
  match peer_item host s <$> fellows r with [] => [] | i :: l => i ++ tail_items l end.
Proof.
  unfold Launcher.peers_spec, fellows. induction (replicas topo) as [|p ps IH]; [done|].
  cbn [foldl Launcher.add_peer]. rewrite filter_cons.
  destruct (Z.eqb_spec p r) as [->|Hp]; [rewrite decide_False by (intros Hn; by apply Hn); apply IH|].
  rewrite decide_True by done. by rewrite add_peers_false.
Qed.

Lemma fellows_range r p : p ∈ fellows r ↔ p ≠ r ∧ 0 ≤ p < replicas_per_shard topo.
Proof. unfold fellows, replicas. rewrite list_elem_of_filter, elem_of_seqZ. lia. Qed.
Lemma replicas_u32 p : 0 ≤ p < replicas_per_shard topo → num_shards topo ≠ 0 → is_u32 p.
Proof. destruct Htopo as (? & ? & ? & ? & _). unfold is_u32. nia. Qed.

Lemma item_ok host s p : ch "," ∉ host → 0 ≤ p → (ch "," ∉ peer_item host s p) ∧ peer_item host s p ≠ [].
Proof.
  intros Hh Hp. unfold peer_item, HostPort. split; [|by destruct (to_string p)].
  rewrite !elem_of_app, !elem_of_cons, elem_of_app, elem_of_cons.
  pose proof (digits_without (ch ",") p eq_refl Hp).
  pose proof (digits_without (ch ",") (RaftPort topo s p) eq_refl (proj1 (proj2 (port_range s p)))). naive_solver.
Qed.

(** The text of the peers is read back as the map from the fellow replicas to their
    addresses. *)
Lemma ParseRaftPeers_spec host s r p : ch "," ∉ host → placed s r →
  ParseRaftPeers (Launcher.peers_spec topo host s r) !! p =
    if decide (p ∈ fellows r) then Some (HostPort host (RaftPort topo s p)) else None.
Proof.
  intros Hh Hpl. apply placed_bounds in Hpl as [Hs Hr]. unfold ParseRaftPeers. rewrite peers_spec_items.
  assert (Hl : getline_all (ch ",") (match peer_item host s <$> fellows r with [] => [] | i :: l => i ++ tail_items l end) [] =
    peer_item host s <$> fellows r).
  { assert (HF : Forall (λ i, (ch "," ∉ i) ∧ i ≠ []) (peer_item host s <$> fellows r)).
    { apply Forall_fmap, Forall_forall. intros q Hq%fellows_range. apply item_ok; [done|lia]. }
    destruct (peer_item host s <$> fellows r) as [|i l]; [done|]. apply Forall_cons in HF as [[Hi Hne] HF].
    by apply getline_items. }
  rewrite Hl. trans (foldl (λ m x, <[x := HostPort host (RaftPort topo s x)]> m) (∅ : gmap Z bytes) (fellows r) !! p);
    [|by rewrite (foldl_insert_keys (λ x, HostPort host (RaftPort topo s x))), lookup_empty]. f_equal.
  assert (Hf : ∀ q, q ∈ fellows r → is_u32 q) by (intros q Hq%fellows_range; apply replicas_u32; lia).
  clear Hl. revert Hf. generalize (∅ : gmap Z bytes). induction (fellows r) as [|q l IH]; intros m Hf; [done|].
  cbn [fmap list_fmap foldl]. rewrite <- IH; [|intros x Hx; apply Hf; by right]. f_equal.
  assert (Hq : is_u32 q) by (apply Hf; by left). assert (0 ≤ q) by (unfold is_u32 in Hq; lia).
  unfold peer_item at 1 2. rewrite split_at_sep by (by apply digits_without).
  destruct (to_string_digits q) as [_ Hne]; [done|]. destruct (to_string q) as [|c d] eqn:E; [done|]. cbn [app].
  rewrite <- E, strtoul_to_string by (unfold is_u32, UINT64_MAX in *; lia). by rewrite u32_id.
Qed.
End wiring.

(** ** The transport of a replica *)

Lemma replica_transport_fold r l tr ps : foldl (λ '(tr, peers) '(peer_id, addr),
    if peer_id =? r then (tr, peers) else (Grpc.AddPeer tr peer_id addr, peers ++ [peer_id])) (tr, ps) l =
  (MkGrpcRaftTransport (local_node_id_ tr)
     (foldl (λ m x, <[x.1 := x.2]> m) (channels_ tr) (filter (λ x, x.1 ≠ r) l))
     (foldl (λ m x, <[x.1 := x.2]> m) (stubs_ tr) (filter (λ x, x.1 ≠ r) l))
     (partitioned_peers_ tr) (disconnected_local_ tr), ps ++ (filter (λ x, x.1 ≠ r) l).*1).
Proof.
  revert tr ps. induction l as [|[p a] l IH]; intros tr ps; [cbn; rewrite app_nil_r; by destruct tr|].
  rewrite filter_cons. cbn [foldl fst]. destruct (Z.eqb_spec p r) as [->|Hp].
  - rewrite decide_False by (intros Hn; by apply Hn). apply IH.
  - rewrite decide_True by done. rewrite IH. cbn. by rewrite <- app_assoc.
Qed.

Lemma replica_stubs r (m : gmap Z bytes) p :
  stubs_ (replica_transport r m).1 !! p = if decide (p = r) then None else m !! p.
Proof.
  unfold replica_transport. rewrite replica_transport_fold. cbn [fst stubs_ Grpc.SetLocalNodeId new_GrpcRaftTransport].
  assert (Hn : NoDup (filter (λ x : Z * bytes, x.1 ≠ r) (map_to_list m)).*1).
  { eapply sublist_NoDup; [apply (NoDup_fst_map_to_list m)|]. apply fmap_sublist, sublist_filter. }
  rewrite foldl_insert_pairs by done. rewrite lookup_empty. destruct (list_to_map _ !! p) as [a|] eqn:E.
  - apply (elem_of_list_to_map (M := gmap Z)) in E; [|done]. apply list_elem_of_filter in E as [Hp Hin].
    rewrite decide_False by done. symmetry. by apply elem_of_map_to_list.
  - destruct (decide (p = r)) as [|Hp]; [done|]. destruct (m !! p) as [a|] eqn:Em; [|done]. exfalso.
    apply (not_elem_of_list_to_map (M := gmap Z)) in E. apply E, list_elem_of_fmap. exists (p, a). split; [done|].
    apply list_elem_of_filter. split; [done|]. by apply elem_of_map_to_list.
Qed.

Lemma replica_peers r (m : gmap Z bytes) :
  (replica_transport r m).2 ≡ₚ filter (λ p, p ≠ r) (elements (dom m)) ∧ local_node_id_ (replica_transport r m).1 = r.
Proof.
  unfold replica_transport. rewrite replica_transport_fold. split; [|done]. cbn [snd app].
  assert (Hm : ∀ l : list (Z * bytes), (filter (λ x, x.1 ≠ r) l).*1 = filter (λ p, p ≠ r) l.*1).
  { intros l. induction l as [|[p a] l IH]; [done|]. rewrite !filter_cons. cbn [fst fmap list_fmap].
    rewrite filter_cons. by destruct (decide (p ≠ r)); cbn; rewrite IH. }
  rewrite Hm. apply filter_Permutation. apply NoDup_Permutation; [apply NoDup_fst_map_to_list|apply NoDup_elements|].
  intros p. rewrite elem_of_elements, elem_of_dom, list_elem_of_fmap. split.
  - intros ([q a] & -> & Hin%elem_of_map_to_list). by eexists.
  - intros [a Ha]. exists (p, a). split; [done|]. by apply elem_of_map_to_list.
Qed.

(** ** Processes *)

(** What the process started for a replica is told. *)
Definition launched_args (l : ClusterLauncher) (s r : Z) : ReplicaArgs :=
  MkReplicaArgs s r (data_dir_ l ++ str "/shard" ++ to_string s ++ str "_rep" ++ to_string r)
    (str "0.0.0.0:" ++ to_string (ShardPort (topo_ l) s r)) (str "0.0.0.0:" ++ to_string (RaftPort (topo_ l) s r))
    (Launcher.peers_spec (topo_ l) (host_ l) s r) 0 0.

Lemma replica_command_args l s r : is_u32 s → is_u32 r →
  replica_args default_replica_args (tail (Launcher.replica_command l s r)) = Some (launched_args l s r).
Proof.
  intros Hs Hr. unfold Launcher.replica_command, default_replica_args. cbn [tail].
  assert (Hone : ∀ a b n v rest, replica_option a n v = Some b → replica_args a (n :: v :: rest) = replica_args b rest)
    by (intros a b n v rest E; cbn [replica_args]; by rewrite E).
  repeat (erewrite Hone; [|reflexivity]). cbn [replica_args].
  by rewrite !ParseU32_to_string.
Qed.

(** The replica that process [c] runs, as the process understands its command line. *)
Definition replica_at (os : Os) (c : Z) (a : ReplicaArgs) : Prop :=
  ∃ argv, processes os !! c = Some argv ∧ replica_args default_replica_args (tail argv) = Some a.
(** A process that listens on all interfaces is reached at the port of its host. *)
Definition reaches (host addr listen : bytes) : Prop :=
  ∃ port, addr = HostPort host port ∧ listen = str "0.0.0.0:" ++ to_string port ∧ 0 ≤ port < 65536.

Definition transport_of (a : ReplicaArgs) : GrpcRaftTransport :=
  (replica_transport (ra_replica_id a) (ParseRaftPeers (ra_raft_peers_spec a))).1.

(** A cluster as it should be: one process for each replica, no two that would use the
    same address or directory; each transport leads to the fellow replicas and nowhere
    else, and the coordinator's addresses to the replicas of their shard. *)
Record cluster_wiring (topo : ClusterTopology) (host : bytes) (os : Os) : Prop := {
  cw_placed c a : replica_at os c a → placed topo (ra_shard_id a) (ra_replica_id a);
  cw_all s r : placed topo s r → ∃ c a, replica_at os c a ∧ ra_shard_id a = s ∧ ra_replica_id a = r;
  cw_distinct c a d b : replica_at os c a → replica_at os d b →
    (ra_shard_listen a = ra_shard_listen b ∨ ra_raft_listen a = ra_raft_listen b ∨ ra_data_dir a = ra_data_dir b → c = d) ∧
    ra_raft_listen a ≠ ra_shard_listen b;
  cw_peers c a p addr : replica_at os c a →
    stubs_ (transport_of a) !! p = Some addr ↔ p ≠ ra_replica_id a ∧
      ∃ d b, replica_at os d b ∧ ra_shard_id b = ra_shard_id a ∧ ra_replica_id b = p ∧ reaches host addr (ra_raft_listen b);
  cw_coordinator s r addr addrs : BuildShardReplicaAddresses topo host !! s = Some addrs → addrs !! r = Some addr →
    ∃ d b, replica_at os d b ∧ ra_shard_id b = s ∧ ra_replica_id b = Z.of_nat r ∧ reaches host addr (ra_shard_listen b);
}.

(** Every [fork] succeeds: the new processes and the table. *)
Lemma start_replicas_ok rs : ∀ l os pids fs, forks os = (Some <$> pids) ++ fs → length pids = length rs →
  Launcher.start_replicas l os rs =
    (Launcher.set_children l (children_ l ++ zip_with (λ x c, MkReplicaProc x.1 x.2 c) rs pids),
     MkOs (foldl (λ m x, <[x.1 := x.2]> m) (processes os)
       (zip_with (λ x c, (c, Launcher.replica_command l x.1 x.2)) rs pids)) fs, true).
Proof.
  induction rs as [|[s r] rs IH]; intros l os pids fs Hf Hlen.
  - destruct pids; [|done]. cbn in Hf. cbn. rewrite app_nil_r, <- Hf. by destruct l, os.
  - destruct pids as [|c pids]; [done|]. cbn in Hf, Hlen. cbn [Launcher.start_replicas]. unfold Launcher.fork_exec. rewrite Hf.
    rewrite (IH _ _ pids fs) by (done || lia). cbn. by rewrite <- app_assoc.
Qed.

Lemma all_replicas_placed topo s r : (s, r) ∈ Launcher.all_replicas topo ↔ placed topo s r.
Proof.
  unfold Launcher.all_replicas, placed. rewrite list_elem_of_bind. split.
  - intros (x & (y & [= -> ->] & Hy)%list_elem_of_fmap & Hx). done.
  - intros [Hs Hr]. exists s. split; [|done]. apply list_elem_of_fmap. by exists r.
Qed.
Lemma all_replicas_NoDup topo : NoDup (Launcher.all_replicas topo).
Proof.
  unfold Launcher.all_replicas. apply NoDup_bind; [| |apply NoDup_seqZ].
  - intros x1 x2 [a b] _ _ (? & [= -> ->] & _)%list_elem_of_fmap (? & [= -> ->] & _)%list_elem_of_fmap. done.
  - intros x _. apply NoDup_fmap_2; [|apply NoDup_seqZ]. by intros ?? [= ->].
Qed.

Section launched.
Context (topo : ClusterTopology) (Htopo : topology_ok topo) (l : ClusterLauncher) (Hl : topo_ l = topo).
Context (Hhost : ch "," ∉ host_ l) (pids : list Z) (Hpids : NoDup pids).
Context (Hlen : length pids = length (Launcher.all_replicas topo)) (os : Os).
Context (Hos : processes os = foldl (λ m x, <[x.1 := x.2]> m) ∅
  (zip_with (λ x c, (c, Launcher.replica_command l x.1 x.2)) (Launcher.all_replicas topo) pids)).
Local Abbreviation rs := (Launcher.all_replicas topo).

Lemma placed_u32 s r : placed topo s r → is_u32 s ∧ is_u32 r.
Proof.
  intros Hp. pose proof (slot_bounds topo Htopo s r Hp) as Hb. apply placed_bounds in Hp as [Hs Hr].
  destruct Htopo as (_ & Hst & ? & ? & _). split; [|apply (replicas_u32 topo Htopo); lia].
  unfold is_u32. assert (s * 1 ≤ s * port_stride topo) by (apply Z.mul_le_mono_nonneg_l; lia). lia.
Qed.

(** The processes are those of the replicas, in order. *)
Lemma replica_at_launched c a : replica_at os c a ↔
  ∃ i s r, rs !! i = Some (s, r) ∧ pids !! i = Some c ∧ a = launched_args l s r.
Proof.
  set (z := zip_with (λ x c, (c, Launcher.replica_command l x.1 x.2)) rs pids) in *.
  assert (Hz : z.*1 = pids).
  { unfold z. apply fmap_zip_with_r; [done|]. by rewrite Hlen. }
  assert (Hat : ∀ argv, processes os !! c = Some argv ↔ (c, argv) ∈ z).
  { intros argv. rewrite Hos, foldl_insert_pairs, lookup_empty by (by rewrite Hz).
    rewrite (elem_of_list_to_map (M := gmap Z)) by (by rewrite Hz). by destruct (_ !! c). }
  assert (Hu : ∀ i s r, rs !! i = Some (s, r) → is_u32 s ∧ is_u32 r).
  { intros i s r Hi%list_elem_of_lookup_2. by apply placed_u32, all_replicas_placed. }
  unfold replica_at. setoid_rewrite Hat. unfold z. split.
  - intros (argv & (i & Hi)%list_elem_of_lookup & Ha). apply lookup_zip_with_Some in Hi as ([s r] & d & [= -> ->] & Hi & Hd).
    destruct (Hu _ _ _ Hi). cbn [fst snd] in Ha. rewrite replica_command_args in Ha by done. injection Ha as <-. by exists i, s, r.
  - intros (i & s & r & Hi & Hd & ->). destruct (Hu _ _ _ Hi). eexists.
    split; [|by apply replica_command_args]. apply list_elem_of_lookup. exists i. apply lookup_zip_with_Some.
    exists (s, r), c. done.
Qed.
Lemma replica_at_placed c a : replica_at os c a → ∃ s r, placed topo s r ∧ a = launched_args l s r.
Proof.
  intros (i & s & r & Hi & _ & ->)%replica_at_launched. exists s, r. split; [|done].
  by apply all_replicas_placed, (list_elem_of_lookup_2 _ i).
Qed.
Lemma placed_replica_at s r : placed topo s r → ∃ c, replica_at os c (launched_args l s r).
Proof.
  intros (i & Hi)%all_replicas_placed%list_elem_of_lookup.
  destruct (lookup_lt_is_Some_2 pids i) as [c Hc]; [rewrite Hlen; by apply lookup_lt_Some in Hi|].
  exists c. apply replica_at_launched. by exists i, s, r.
Qed.
Lemma replica_at_unique c d s r : replica_at os c (launched_args l s r) → replica_at os d (launched_args l s r) → c = d.
Proof.
  intros (i & s1 & r1 & Hi & Hc & E1)%replica_at_launched (j & s2 & r2 & Hj & Hd & E2)%replica_at_launched.
  injection E1 as <- <- _ _ _ _. injection E2 as <- <- _ _ _ _.
  rewrite (NoDup_lookup rs i j (s, r) (all_replicas_NoDup topo) Hi Hj) in Hc. congruence.
Qed.

Lemma listen_inj a b : 0 ≤ a < 65536 → 0 ≤ b < 65536 → str "0.0.0.0:" ++ to_string a = str "0.0.0.0:" ++ to_string b → a = b.
Proof. intros Ha Hb E%app_inv_head. by apply to_string_u16_inj. Qed.
Lemma data_dir_inj s r s' r' : placed topo s r → placed topo s' r' →
  ra_data_dir (launched_args l s r) = ra_data_dir (launched_args l s' r') → s = s' ∧ r = r'.
Proof.
  intros Hp Hp' E%app_inv_head. destruct (placed_u32 _ _ Hp) as [Hs Hr], (placed_u32 _ _ Hp') as [Hs' Hr'].
  unfold is_u32 in *. apply (app_inv_head (str "/shard")) in E. change (str "_rep") with (ch "_" :: str "rep") in E.
  apply (sep_inj (ch "_")) in E as [Es Er]; [|apply digits_without; [done|lia]..].
  apply (app_inv_head (str "rep")) in Er.
  split; [rewrite <- (strtoul_to_string s), <- (strtoul_to_string s')|rewrite <- (strtoul_to_string r), <- (strtoul_to_string r')];
    unfold UINT64_MAX; (lia || congruence).
Qed.

Lemma launched_wiring : cluster_wiring topo (host_ l) os.
Proof.
  split.
  - by intros c a (s & r & Hp & ->)%replica_at_placed.
  - intros s r Hp. destruct (placed_replica_at s r Hp) as [c Hc]. eauto.
  - intros c a d b Ha Hb. pose proof Ha as (s & r & Hp & ->)%replica_at_placed.
    pose proof Hb as (s' & r' & Hp' & ->)%replica_at_placed. cbn [ra_shard_listen ra_raft_listen launched_args]. rewrite Hl.
    destruct (ports_distinct topo Htopo s r s' r' Hp Hp') as (H1 & H2 & H3).
    pose proof (port_range topo s r). pose proof (port_range topo s' r'). split.
    + intros Hsame. assert (s = s' ∧ r = r') as [<- <-]; [|by eapply replica_at_unique].
      destruct Hsame as [E|[E|E]]; [apply H1, listen_inj|apply H2, listen_inj|by apply data_dir_inj]; (done || lia).
    + intros E. apply H3, listen_inj; (done || lia).
  - intros c a p addr (s & r & Hp & ->)%replica_at_placed. unfold transport_of. cbn [ra_replica_id ra_raft_peers_spec launched_args].
    rewrite replica_stubs, Hl, (ParseRaftPeers_spec topo Htopo) by done.
    destruct (decide (p = r)) as [->|Hpr]; [by split; [|intros []]|]. cbn [ra_shard_id launched_args].
    destruct (placed_bounds topo s r) as [Hb _]. specialize (Hb Hp). split.
    + destruct (decide (p ∈ fellows topo r)) as [Hf|]; [|done]. intros [= <-]. split; [done|].
      apply fellows_range in Hf as [_ Hf]. destruct (placed_replica_at s p) as [d Hd]; [apply placed_bounds; lia|].
      exists d, (launched_args l s p). split_and!; [done..|]. exists (RaftPort topo s p). cbn [ra_raft_listen launched_args].
      rewrite Hl. split_and!; [done..| |]; apply port_range.
    + intros (_ & d & b & (s' & p' & Hp' & ->)%replica_at_placed & <- & <- & port & -> & E & Hport). cbn in Hpr.
      destruct (placed_bounds topo s' p') as [Hb' _]. specialize (Hb' Hp'). cbn [ra_replica_id ra_shard_id launched_args] in *.
      rewrite decide_True by (apply fellows_range; tauto). do 2 f_equal. cbn [ra_raft_listen launched_args] in E.
      rewrite Hl in E. apply listen_inj in E; [done|apply port_range|done].
  - intros s r addr addrs. unfold BuildShardReplicaAddresses.
    rewrite (foldl_insert_keys (λ s, (λ r, HostPort (host_ l) (ShardPort topo s r)) <$> replicas topo)), lookup_empty.
    case_decide as Hs; [|done]. intros [= <-]. rewrite list_lookup_fmap. unfold replicas.
    destruct (seqZ _ _ !! r) as [x|] eqn:Ex; [|done]. intros [= <-]. apply lookup_seqZ in Ex as [-> Hr].
    destruct (placed_replica_at s (0 + Z.of_nat r)) as [d Hd].
    { split; [done|]. unfold replicas. apply elem_of_seqZ. lia. }
    exists d, (launched_args l s (0 + Z.of_nat r)). split_and!; [done|done|cbn; lia|].
    exists (ShardPort topo s (0 + Z.of_nat r)). cbn [ra_shard_listen launched_args]. rewrite Hl. split_and!; [done..| |]; apply port_range.
Qed.
End launched.

(** A process has one command line, and an address reaches one port. *)
Lemma replica_at_fun os c a b : replica_at os c a → replica_at os c b → a = b.
Proof. intros (x & Hx & Ha) (y & Hy & Hb). congruence. Qed.
Lemma reaches_fun host addr x y : reaches host addr x → reaches host addr y → x = y.
Proof.
  intros (p & -> & -> & Hp) (q & E & -> & Hq). apply app_inv_head in E. injection E as E. by apply to_string_u16_inj in E as ->.
Qed.

(** A transport whose stubs are those of a replica leads to its fellows only, when the
    services of the shard are the replicas that are reached. *)
Lemma wiring_wired topo host os c a env tr net : cluster_wiring topo host os → replica_at os c a →
  stubs_ tr = stubs_ (transport_of a) →
  (∀ addr i, services net !! addr = Some (Some i) → ∃ d b, replica_at os d b ∧
     ra_shard_id b = ra_shard_id a ∧ ra_replica_id b = i ∧ reaches host addr (ra_raft_listen b)) →
  wired (replicas topo) (MkGrpcCaller env tr net).
Proof.
  intros Hw Ha Htr Hnet p addr i Hs Hi. cbn in Hs, Hi. rewrite Htr in Hs.
  apply (cw_peers _ _ _ Hw c a p addr Ha) in Hs as (_ & d & b & Hb & _ & <- & Hr).
  destruct (Hnet _ _ Hi) as (d' & b' & Hb' & _ & <- & Hr'). split; [|by apply (cw_placed _ _ _ Hw d b Hb)].
  destruct (cw_distinct _ _ _ Hw _ _ _ _ Hb Hb') as [Hd _].
  assert (d = d') as <- by (apply Hd; right; left; by eapply reaches_fun).
  by rewrite (replica_at_fun _ _ _ _ Hb Hb').
Qed.

(** C22. Launching a cluster. Provided the ports of the topology fit, the replica program
    exists and processes can be created, [Start] succeeds, whether or not the shards
    become ready in time, and the command lines make a correct cluster of the processes:
    there is exactly one for each replica, no two share an address or a directory, the
    peers each replica parses from its command line are exactly the addresses its fellow
    replicas listen on, and the coordinator's addresses are those of the replicas. The
    transport of every replica, under any partitions, is then one on which a group of
    replicas behaves as Raft. *)
Theorem cluster_launch (topo : ClusterTopology) (host data_dir default_binary replica_binary : bytes)
    (exists_ : bytes → bool) (opens : Z → bool) (polls : list (bytes → bool)) (os : Os) (pids : list Z) (fs : list (option Z)) :
  topology_ok topo → (ch "," ∉ host) → exists_ (match replica_binary with [] => default_binary | _ => replica_binary end) = true →
  processes os = ∅ → forks os = (Some <$> pids) ++ fs → NoDup pids → length pids = length (Launcher.all_replicas topo) →
  ∃ l' os', Launcher.Start exists_ opens default_binary polls new_ClusterLauncher os TransportGrpc data_dir topo host
      replica_binary = (l', os', true) ∧
    cl_running_ l' = true ∧ cluster_wiring topo host os' ∧
    ∀ c a env tr net, replica_at os' c a → stubs_ tr = stubs_ (transport_of a) →
      (∀ addr i, services net !! addr = Some (Some i) → ∃ d b, replica_at os' d b ∧
         ra_shard_id b = ra_shard_id a ∧ ra_replica_id b = i ∧ reaches host addr (ra_raft_listen b)) →
      wired (replicas topo) (MkGrpcCaller env tr net).
Proof.
  intros Htopo Hhost Hex Hos Hf Hnd Hlen. unfold Launcher.Start. cbn [Launcher.Stop new_ClusterLauncher cl_running_ negb children_ inprocess_shards_].
  unfold Launcher.StartGrpcReplicas. cbn [replica_binary_]. rewrite Hex. cbn [negb topo_].
  rewrite (start_replicas_ok _ _ _ pids fs Hf Hlen). cbn [negb].
  destruct (Launcher.WaitForGrpcClusterReady topo host polls) as [ready asked].
  match goal with |- context [Launcher.replica_command ?x] => set (l := x) end.
  eexists _, _. split; [reflexivity|]. split; [done|].
  match goal with |- cluster_wiring _ _ ?x ∧ _ => assert (Hw : cluster_wiring topo host x) end.
  { apply (launched_wiring topo Htopo l eq_refl Hhost pids Hnd Hlen). cbn [processes]. by rewrite Hos. }
  split; [done|]. intros c a env tr net. by apply wiring_wired.
Qed.

(** The default topology: nine processes. *)
Lemma cluster_launch_witness : ∃ l' os',
  Launcher.Start (λ _, true) (λ _, true) (str "trans_db_replica") [] new_ClusterLauncher (MkOs ∅ (Some <$> seqZ 100 9)) TransportGrpc
    (str "./data") default_topology (str "127.0.0.1") [] = (l', os', true) ∧
  cluster_wiring default_topology (str "127.0.0.1") os' ∧ length (children_ l') = 9%nat.
Proof.
  destruct (cluster_launch default_topology (str "127.0.0.1") (str "./data") (str "trans_db_replica") [] (λ _, true) (λ _, true) []
    (MkOs ∅ (Some <$> seqZ 100 9)) (seqZ 100 9) []) as (l' & os' & E & _ & Hw & _).
  - apply (bool_decide_unpack _). vm_compute. exact I.
  - apply (bool_decide_unpack _). vm_compute. exact I.
  - reflexivity.
  - reflexivity.
  - reflexivity.
  - apply NoDup_seqZ.
  - reflexivity.
  - exists l', os'. split; [exact E|]. split; [exact Hw|]. vm_compute in E. injection E as <- _. reflexivity.
Defined.

(** The server chooses the number of shards and nothing else: up to one hundred shards
    fit, and the next one's clients would be sent to a port of Raft. *)
Lemma server_shards_fit a topo : server_topology a = inr topo → 0 ≤ sa_num_shards a → topology_ok topo ↔ sa_num_shards a ≤ 100.
Proof.
  unfold server_topology. destruct (Z.eqb_spec (sa_num_shards a) 0); [done|]. intros [= <-]. unfold topology_ok. cbn. lia.
Qed.
Lemma server_ports_collide : ∃ topo,
  server_topology (default default_server_args (server_args default_server_args [str "--shards"; str "101"])) = inr topo ∧
  ShardPort topo 100 0 = RaftPort topo 0 0 ∧ ¬ topology_ok topo.
Proof.
  eexists. split; [vm_compute; reflexivity|]. split; [reflexivity|]. apply (bool_decide_eq_false_1 _). vm_compute. reflexivity.
Qed.

(** ** The table of processes *)

Inductive LauncherOp :=
  | LStart (transport : ClusterTransport) (data_dir : bytes) (topo : ClusterTopology) (host binary : bytes)
  | LStop
  | LStopShard (s : Z)
  | LStartShard (s : Z).

Section table.
Context (exists_ : bytes → bool) (opens : Z → bool) (default_binary : bytes) (polls : list (bytes → bool)).
Implicit Types (l : ClusterLauncher) (os : Os).

(** An operation of the launcher, with or without an exception. *)
Definition launcher_op (x : ClusterLauncher * Os) (op : LauncherOp) : ClusterLauncher * Os :=
  let '(l, os) := x in
  match op with
  | LStart t d topo h b => (Launcher.Start exists_ opens default_binary polls l os t d topo h b).1
  | LStop => Launcher.Stop l os
  | LStopShard s => Launcher.StopShard l os s
  | LStartShard s => (Launcher.StartShard opens l os s).1
  end.

(** [fork] returns positive pids that are not in use. *)
Definition forks_fresh os : Prop :=
  NoDup (omap id (forks os)) ∧ ∀ p, Some p ∈ forks os → 0 < p ∧ processes os !! p = None.
Definition tracked l os : Prop :=
  NoDup (pid <$> children_ l) ∧ Forall (λ c, 0 < pid c) (children_ l) ∧
  ∀ p, is_Some (processes os !! p) ↔ p ∈ pid <$> children_ l.
Definition launcher_ok l os : Prop := forks_fresh os ∧ tracked l os.

Lemma stop_children cs os p : Forall (λ c, 0 < pid c) cs →
  processes (foldl Launcher.stop_child os cs) !! p = (if decide (p ∈ pid <$> cs) then None else processes os !! p) ∧
  forks (foldl Launcher.stop_child os cs) = forks os.
Proof.
  intros Hc. revert os. induction Hc as [|c cs Hc _ IH]; intros os; cbn [foldl fmap list_fmap].
  { by rewrite decide_False by apply not_elem_of_nil. }
  destruct (IH (Launcher.stop_child os c)) as [-> ->]. unfold Launcher.stop_child.
  rewrite (proj2 (Z.ltb_lt _ _)) by done. cbn. split; [|done].
  destruct (decide (p ∈ pid <$> cs)) as [Hin|Hin]; [by rewrite decide_True by (by right)|].
  destruct (decide (p = pid c)) as [->|Hp]; [by rewrite lookup_delete_eq, decide_True by left|].
  rewrite lookup_delete_ne by done. by rewrite decide_False by (by intros [?|?]%elem_of_cons).
Qed.

Lemma Forall_filter_of {A} (P Q : A → Prop) `{∀ x, Decision (P x)} cs : Forall Q cs → Forall Q (filter P cs).
Proof. rewrite !Forall_forall. intros HQ c [_ Hc]%list_elem_of_filter. by apply HQ. Qed.
Lemma pid_inj cs c1 c2 : NoDup (pid <$> cs) → c1 ∈ cs → c2 ∈ cs → pid c1 = pid c2 → c1 = c2.
Proof.
  intros Hnd [i Hi]%list_elem_of_lookup [j Hj]%list_elem_of_lookup E. assert (i = j) as <-; [|congruence].
  apply (NoDup_lookup _ i j (pid c1) Hnd); rewrite list_lookup_fmap, ?Hi, ?Hj; cbn; congruence.
Qed.
Lemma elem_of_filter_pids cs (P : ReplicaProc → Prop) `{∀ c, Decision (P c)} c : NoDup (pid <$> cs) → c ∈ cs →
  pid c ∈ pid <$> filter P cs ↔ P c.
Proof.
  intros Hnd Hc. rewrite list_elem_of_fmap. split.
  - intros (d & E & [HP Hd]%list_elem_of_filter). by rewrite (pid_inj cs c d).
  - intros HP. exists c. split; [done|]. by apply list_elem_of_filter.
Qed.

(** Some of the children are stopped and taken off the table. *)
Lemma stop_some_ok l os (P : ReplicaProc → Prop) `{∀ c, Decision (P c)} l' : launcher_ok l os →
  children_ l' = filter (λ c, ¬ P c) (children_ l) → launcher_ok l' (foldl Launcher.stop_child os (filter P (children_ l))).
Proof.
  intros [[Hn Hf] (Hnd & Hpos & Htr)] Hl'.
  pose proof (Forall_filter_of P _ _ Hpos) as HF.
  pose proof (λ p, stop_children (filter P (children_ l)) os p HF) as Hst.
  split; [split|split_and!].
  - by rewrite (proj2 (Hst 0)).
  - intros p. rewrite (proj2 (Hst p)), (proj1 (Hst p)). intros Hp. destruct (Hf p Hp) as [? ?]. split; [done|]. by case_decide.
  - rewrite Hl'. eapply sublist_NoDup; [exact Hnd|]. apply fmap_sublist, sublist_filter.
  - rewrite Hl'. by apply Forall_filter_of.
  - intros p. rewrite (proj1 (Hst p)), Hl'. split.
    + case_decide as Hd; [by intros []|]. intros Hp%Htr. apply list_elem_of_fmap in Hp as (c & -> & Hc).
      rewrite elem_of_filter_pids by done. by rewrite elem_of_filter_pids in Hd by done.
    + intros Hp. assert (Hc : p ∈ pid <$> children_ l).
      { apply list_elem_of_fmap in Hp as (c & -> & [_ Hc]%list_elem_of_filter). apply list_elem_of_fmap. by exists c. }
      rewrite decide_False; [by apply Htr|]. apply list_elem_of_fmap in Hc as (c & -> & Hc).
      rewrite elem_of_filter_pids by done. by rewrite elem_of_filter_pids in Hp by done.
Qed.

Lemma start_replicas_tracked rs : ∀ l os, launcher_ok l os →
  launcher_ok (Launcher.start_replicas l os rs).1.1 (Launcher.start_replicas l os rs).1.2.
Proof.
  induction rs as [|[s r] rs IH]; intros l os Hok; [done|]. cbn [Launcher.start_replicas].
  destruct Hok as [[Hn Hf] (Hnd & Hpos & Htr)]. unfold Launcher.fork_exec. destruct (forks os) as [|[c|] fs] eqn:E.
  - cbn. split; [|done]. unfold forks_fresh. by rewrite E.
  - cbn [omap list_omap id] in Hn. apply NoDup_cons in Hn as [Hc Hn]. destruct (Hf c) as [Hcp Hnone]; [by left|].
    assert (Hnew : c ∉ pid <$> children_ l) by (intros [? ?]%Htr; congruence).
    apply IH. split; [split; [done|]|].
    + intros p Hp. cbn in Hp |- *. destruct (Hf p) as [? ?]; [by right|]. split; [done|].
      rewrite lookup_insert_ne; [done|]. intros ->. apply Hc. apply list_elem_of_omap. by exists (Some p).
    + unfold tracked. cbn [children_ Launcher.set_children processes]. rewrite fmap_app. cbn. split_and!.
      * apply NoDup_app. split_and!; [done| |apply NoDup_singleton]. intros x Hx ->%list_elem_of_singleton. done.
      * apply Forall_app. split; [done|]. by apply Forall_singleton.
      * intros p. rewrite elem_of_app, list_elem_of_singleton, <- Htr. destruct (decide (p = c)) as [->|Hpc].
        -- rewrite lookup_insert_eq. split; [by right|by eexists].
        -- rewrite lookup_insert_ne by done. naive_solver.
  - cbn. split; [split|done]; [done|]. intros p Hp. apply Hf. by right.
Qed.

Lemma stop_ok l os : launcher_ok l os → launcher_ok (Launcher.Stop l os).1 (Launcher.Stop l os).2.
Proof.
  intros Hok. unfold Launcher.Stop. destruct (cl_running_ l); [|done]. cbn [negb fst snd].
  assert (Hall : filter (λ _ : ReplicaProc, True) (children_ l) = children_ l).
  { induction (children_ l) as [|c cs IH]; [done|]. rewrite filter_cons, decide_True by done. by rewrite IH. }
  replace (foldl Launcher.stop_child os (children_ l)) with
    (foldl Launcher.stop_child os (filter (λ _, True) (children_ l))) by (by rewrite Hall).
  apply stop_some_ok; [done|]. cbn. clear Hall Hok. induction (children_ l) as [|c cs IH]; [done|].
  rewrite filter_cons, decide_False by tauto. done.
Qed.

Lemma start_in_process_children ss : ∀ l, children_ (Launcher.start_in_process opens l ss).1 = children_ l.
Proof.
  induction ss as [|s ss IH]; intros l; [done|]. cbn [Launcher.start_in_process].
  destruct (negb (opens s)); [done|]. by rewrite IH.
Qed.

Lemma launcher_op_ok l os op : launcher_ok l os → launcher_ok (launcher_op (l, os) op).1 (launcher_op (l, os) op).2.
Proof.
  intros Hok. destruct op as [t d topo h b| |s|s]; cbn [launcher_op].
  - unfold Launcher.Start. pose proof (stop_ok l os Hok) as Hs. destruct (Launcher.Stop l os) as [l1 os1]. cbn [fst snd] in Hs.
    destruct t; cbn [fst snd].
    + unfold Launcher.StartGrpcReplicas. destruct (negb (exists_ _)); [exact Hs|].
      match goal with |- context [Launcher.start_replicas ?l2 ?o ?r] =>
        pose proof (start_replicas_tracked r l2 o Hs) as Ht; destruct (Launcher.start_replicas l2 o r) as [[l3 os3] ok] end.
      cbn [fst snd] in Ht. destruct ok; cbn [negb fst snd]; [|done].
      by destruct (Launcher.WaitForGrpcClusterReady topo h polls).
    + match goal with |- context [Launcher.StartInProcessShards opens ?l2] =>
        pose proof (start_in_process_children (shards (topo_ l2))
          (Launcher.set_inprocess l2 (Launcher.resized (Z.to_nat (num_shards (topo_ l2))) (inprocess_shards_ l2)))) as Hc end.
      unfold Launcher.StartInProcessShards.
      destruct (Launcher.start_in_process _ _ _) as [l3 ok]. cbn [fst children_ Launcher.set_inprocess] in Hc.
      destruct Hs as [? Ht]. unfold launcher_ok, tracked in *. destruct ok; cbn [negb fst snd Launcher.set_running children_] in *; by rewrite Hc.
  - by apply stop_ok.
  - unfold Launcher.StopShard. destruct (transport_ l); cbn [fst snd].
    + by apply stop_some_ok.
    + by destruct (Launcher.inprocess_shard l s).
  - unfold Launcher.StartShard. destruct (transport_ l); [by apply start_replicas_tracked|].
    destruct (_ || _); [done|]. by destruct (negb (opens s)).
Qed.
End table.

(** The launcher's table of processes. Whatever the launcher is asked to do, and
    whichever calls of [fork] fail, the processes it has running are exactly those in its
    table: none is lost and none is listed twice. Stopping a running launcher therefore
    ends all of them, and stopping a shard ends the processes of that shard and no other. *)
Theorem launcher_tracks_processes (exists_ : bytes → bool) (opens : Z → bool) (default_binary : bytes)
    (polls : list (bytes → bool)) (os : Os) (ops : list LauncherOp) (l' : ClusterLauncher) (os' : Os) :
  processes os = ∅ → forks_fresh os →
  foldl (launcher_op exists_ opens default_binary polls) (new_ClusterLauncher, os) ops = (l', os') →
  NoDup (pid <$> children_ l') ∧ (∀ p, is_Some (processes os' !! p) ↔ p ∈ pid <$> children_ l') ∧
  (cl_running_ l' = true → processes (Launcher.Stop l' os').2 = ∅ ∧ children_ (Launcher.Stop l' os').1 = []) ∧
  (transport_ l' = TransportGrpc → ∀ s c, c ∈ children_ l' →
     processes (Launcher.StopShard l' os' s).2 !! pid c = if decide (rp_shard_id c = s) then None else processes os' !! pid c).
Proof.
  intros Hos Hfr Hrun.
  assert (Hok : launcher_ok l' os').
  { assert (H0 : launcher_ok new_ClusterLauncher os).
    { split; [done|]. split_and!; [apply NoDup_nil_2|by apply Forall_nil|]. intros p. rewrite Hos, lookup_empty. cbn.
      split; [by intros []|by intros ?%elem_of_nil]. }
    revert H0 Hrun. clear Hos Hfr. generalize new_ClusterLauncher os. induction ops as [|op ops IH]; intros l o Hlo; cbn [foldl].
    - by intros [= <- <-].
    - pose proof (launcher_op_ok exists_ opens default_binary polls l o op Hlo) as Hop.
      destruct (launcher_op _ _ _ _ (l, o) op) as [l1 o1]. by apply IH. }
  destruct Hok as [_ (Hnd & Hpos & Htr)]. split_and!; [done|done|..].
  - intros Hr. unfold Launcher.Stop. rewrite Hr. split; [|done]. cbn [negb snd]. apply map_eq. intros p.
    rewrite (proj1 (stop_children _ _ _ Hpos)), lookup_empty. case_decide as Hp; [done|].
    destruct (processes os' !! p) eqn:E; [|done]. exfalso. apply Hp, Htr. by eexists.
  - intros Ht s c Hc. unfold Launcher.StopShard. rewrite Ht. cbn [snd].
    rewrite (proj1 (stop_children _ _ _ (Forall_filter_of _ _ _ Hpos))).
    pose proof (elem_of_filter_pids _ (λ c, rp_shard_id c = s) c Hnd Hc). repeat case_decide; tauto.
Qed.

(** A cluster that was started is stopped without a trace. *)
Lemma start_stop exists_ opens binary polls os t dir topo host bin l os' :
  processes os = ∅ → forks_fresh os →
  Launcher.Start exists_ opens binary polls new_ClusterLauncher os t dir topo host bin = (l, os', true) →
  processes (Launcher.Stop l os').2 = ∅.
Proof.
  intros Hos Hf E.
  destruct (launcher_tracks_processes exists_ opens binary polls os [LStart t dir topo host bin] l os' Hos Hf) as (_ & _ & Hs & _).
  - cbn [foldl launcher_op]. by rewrite E.
  - apply Hs. clear -E. unfold Launcher.Start in E. cbn [Launcher.Stop new_ClusterLauncher cl_running_ negb] in E. destruct t.
    + destruct (Launcher.StartGrpcReplicas _ _ _) as [[l1 os1] [|]]; cbn [negb] in E; [|done].
      destruct (Launcher.WaitForGrpcClusterReady _ _ _). by injection E as <- <-.
    + destruct (Launcher.StartInProcessShards _ _) as [l1 [|]]; cbn [negb] in E; [|done]. by injection E as <- <-.
Qed.

Definition demo_topology : ClusterTopology := MkClusterTopology 2 2 57000 58000 10.
Definition demo_start_op (t : ClusterTransport) : LauncherOp := LStart t (str "./data") demo_topology (str "127.0.0.1") [].
Definition demo_launch (forks : list (option Z)) (ops : list LauncherOp) : ClusterLauncher * Os :=
  foldl (launcher_op (λ _, true) (λ _, true) (str "trans_db_replica") []) (new_ClusterLauncher, MkOs ∅ forks) ops.

(** A shard is stopped and started again, but one of its replicas cannot be created. *)
Lemma launcher_tracks_processes_witness :
  let x := demo_launch [Some 11; Some 12; Some 13; Some 14; Some 15; None] [demo_start_op TransportGrpc; LStopShard 0; LStartShard 0] in
  pid <$> children_ x.1 = [13; 14; 15] ∧ (∀ p, is_Some (processes x.2 !! p) ↔ p ∈ pid <$> children_ x.1) ∧
  processes (Launcher.Stop x.1 x.2).2 = ∅.
Proof.
  intros x. destruct (launcher_tracks_processes (λ _, true) (λ _, true) (str "trans_db_replica") []
    (MkOs ∅ [Some 11; Some 12; Some 13; Some 14; Some 15; None]) [demo_start_op TransportGrpc; LStopShard 0; LStartShard 0] x.1 x.2)
    as (_ & Htr & Hstop & _).
  - reflexivity.
  - split; [apply (bool_decide_unpack _); vm_compute; exact I|]. intros p Hp. split; [|apply lookup_empty].
    cbn in Hp. rewrite !elem_of_cons, elem_of_nil in Hp.
    destruct Hp as [[= ->]|[[= ->]|[[= ->]|[[= ->]|[[= ->]|[?|[]]]]]]]; done.
  - apply surjective_pairing.
  - split; [vm_compute; reflexivity|]. split; [exact Htr|]. apply Hstop. vm_compute. reflexivity.
Defined.

(** ** Where the launcher fails *)

(** When [Start] throws because a process cannot be created, [Stop] does not end the
    ones that were, because the launcher does not count as running. *)
Lemma failed_start_leaks :
  let x := demo_launch [Some 11; None] [demo_start_op TransportGrpc; LStop] in
  cl_running_ x.1 = false ∧ is_Some (processes x.2 !! 11).
Proof. split; [reflexivity|]. apply (bool_decide_unpack _). vm_compute. exact I. Qed.

(** The in-process shards are appended behind as many empty slots: no shard is found
    under its number, and starting one again makes a second server at its address. *)
Lemma in_process_shards_misplaced :
  let l := (demo_launch [] [demo_start_op TransportInProcess]).1 in
  let l' := (demo_launch [] [demo_start_op TransportInProcess; LStopShard 0; LStartShard 0]).1 in
  Launcher.inprocess_shard l 0 = None ∧ Launcher.inprocess_shard l 1 = None ∧
  is_listen <$> omap id (inprocess_shards_ l') =
    [str "127.0.0.1:57000"; str "127.0.0.1:57000"; str "127.0.0.1:57010"].
Proof. split_and!; vm_compute; reflexivity. Qed.

(** Partitions: once [PartitionPeer] has told every replica of the shard, no call of the
    cut-off replica or to it has any effect. *)
Lemma partition_isolates env net (tr : GrpcRaftTransport) (g : Group) (peer target : Z) (aq : AppendEntriesRequest)
    (vq : RequestVoteRequest) :
  let tr := SetRaftPeerPartition tr peer true in
  (peer = target ∨ peer = aq_leader_id aq → Grpc.SendAppendEntries env net tr g target aq = (g, no_append)) ∧
  (peer = target ∨ peer = vq_candidate_id vq → Grpc.SendRequestVote net tr g target vq = (g, no_vote)).
Proof.
  cbn. assert (Hr : ∀ from, peer = target ∨ peer = from → Grpc.route (Grpc.DisconnectPeer tr peer) from target = None).
  { intros from Hp. unfold Grpc.route. cbn [partitioned_peers_ Grpc.DisconnectPeer Grpc.set_partitioned].
    destruct Hp as [-> | ->]; [rewrite bool_decide_eq_true_2 by set_solver; done|].
    rewrite (bool_decide_eq_true_2 (from ∈ _)) by set_solver. by rewrite orb_true_r. }
  split; intros Hp; [unfold Grpc.SendAppendEntries|unfold Grpc.SendRequestVote]; by rewrite Hr.
Qed.
