(* ===== verification/BenchMain.v ===== *)
(** * The benchmark program (bench/main_bench.cpp)

    The command line, the environment it sets, the run and the reports it writes. The
    clocks, the files it reads, the calls of the launcher and the rounds of the worker
    threads are inputs. An exception that nobody catches ends the process, and so do the
    time limits of the benchmark: the program then has no exit code. *)
From Stdlib Require Import Strings.Byte Strings.Ascii Strings.String.
From stdpp Require Import base functions gmap sets strings sorting list.
From Stdlib Require Import ZArith Lia Floats.SpecFloat.
From S2P Require Import Prelude Status GroupCommit ShardMessages Effects CoordinatorLog Coordinator TwoPhase.
From S2P Require Import Text Catalog JoinHandler Parser DistributedJoin Executor RaftNode RaftTransport GrpcTransport.
From S2P Require Import Cluster ClusterProofs Tpcc Benchmark.
Local Open Scope Z_scope.

Module BenchMain.

(** ** The command line

    [ParseU32] is the same function as in replica_main.cpp: it is the one of Cluster.v. *)

Definition ParseMixMode (mix : bytes) : MixMode :=
  if bool_decide (mix = str "standard") then Standard
  else if bool_decide (mix = str "new-order-only") then NewOrderOnly
  else if bool_decide (mix = str "payment-only") then PaymentOnly
  else if bool_decide (mix = str "order-status-only") then OrderStatusOnly
  else if bool_decide (mix = str "delivery-only") then DeliveryOnly
  else if bool_decide (mix = str "stock-level-only") then StockLevelOnly
  else Standard.

Record Args := MkArgs {
  a_num_shards : Z;
  a_num_threads : Z;
  a_duration_s : Z;
  a_warmup_s : Z;
  a_tpcc : TPCCConfig;
  a_mix : bytes;
  a_data_dir : bytes;
  a_transport : ClusterTransport;
}.
Definition default_args : Args :=
  MkArgs 3 8 30 5 TPCCConfig0 (str "standard") (str "./bench_data") TransportGrpc.

Definition arg_transport (t : bytes) : ClusterTransport :=
  if bool_decide (t = str "inproc") || bool_decide (t = str "inprocess") then TransportInProcess else TransportGrpc.
(** An option with its value. *)
Definition option_value (a : Args) (name v : bytes) : option Args :=
  let '(MkArgs n th du wa (MkTPCCConfig w d c i) mix dir tr) := a in
  let opt o := bool_decide (name = str o) in
  if opt "--shards" then Some (MkArgs (ParseU32 v n) th du wa (MkTPCCConfig w d c i) mix dir tr)
  else if opt "--threads" then Some (MkArgs n (ParseU32 v th) du wa (MkTPCCConfig w d c i) mix dir tr)
  else if opt "--duration" then Some (MkArgs n th (ParseU32 v du) wa (MkTPCCConfig w d c i) mix dir tr)
  else if opt "--warmup" then Some (MkArgs n th du (ParseU32 v wa) (MkTPCCConfig w d c i) mix dir tr)
  else if opt "--warehouses" then Some (MkArgs n th du wa (MkTPCCConfig (ParseU32 v w) d c i) mix dir tr)
  else if opt "--districts" then Some (MkArgs n th du wa (MkTPCCConfig w (ParseU32 v d) c i) mix dir tr)
  else if opt "--customers" then Some (MkArgs n th du wa (MkTPCCConfig w d (ParseU32 v c) i) mix dir tr)
  else if opt "--items" then Some (MkArgs n th du wa (MkTPCCConfig w d c (ParseU32 v i)) mix dir tr)
  else if opt "--data-dir" then Some (MkArgs n th du wa (MkTPCCConfig w d c i) mix v tr)
  else if opt "--mix" then Some (MkArgs n th du wa (MkTPCCConfig w d c i) v dir tr)
  else if opt "--transport" then Some (MkArgs n th du wa (MkTPCCConfig w d c i) mix dir (arg_transport v))
  else None.
(** [argv] from the second element on; [None] when the usage is printed. *)
Fixpoint parse_args (a : Args) (argv : list bytes) : option Args :=
  match argv with
  | [] => Some a
  | name :: argv' =>
      let other := if bool_decide (name = str "--help") || bool_decide (name = str "-h") then None
                   else parse_args a argv' in
      match argv' with
      | v :: argv'' => match option_value a name v with Some a => parse_args a argv'' | None => other end
      | [] => other
      end
  end.
Definition valid_args (a : Args) : bool :=
  let c := a_tpcc a in
  negb ((a_num_shards a =? 0) || (a_num_threads a =? 0) || (a_duration_s a =? 0) || (num_warehouses c =? 0) ||
        (districts_per_wh c =? 0) || (customers_per_dist c =? 0) || (items_per_wh c =? 0)).

Definition PrintUsage : bytes :=
  str "bench_tpcc [--shards N] [--threads T] [--duration S] [--warmup S] [--warehouses W] " ++
  str "[--districts D] [--customers C] [--items I] [--data-dir PATH] " ++
  str "[--transport grpc|inproc] " ++
  str "[--mix standard|new-order-only|payment-only|order-status-only|delivery-only|stock-level-only]" ++ [x0a].

Definition EnsureBenchGroupCommitDefaults (env : getenv) : getenv :=
  let env := set_env env "TRANS_DB_GROUP_COMMIT_WINDOW_US" "0" in
  match env "TRANS_DB_GROUP_COMMIT_BATCH"%string with
  | None => set_env env "TRANS_DB_GROUP_COMMIT_BATCH" "64"
  | Some _ => env
  end.

Definition topology (a : Args) : ClusterTopology :=
  MkClusterTopology (a_num_shards a) (replicas_per_shard default_topology) (shard_base_port default_topology)
    (raft_base_port default_topology) (port_stride default_topology).
Definition bench_config (a : Args) : BenchConfig :=
  MkBenchConfig (a_num_threads a) (a_duration_s a) (a_warmup_s a) (a_num_shards a) (a_tpcc a) (ParseMixMode (a_mix a)).

(** ** Reports *)

Definition quote : byte := x22.
Definition newline : byte := x0a.
Definition EscapeJson (s : bytes) : bytes :=
  s ≫= λ c, if bool_decide (c = ch "\") || bool_decide (c = quote) then [ch "\"; c]
            else if bool_decide (c = newline) then str "\n" else [c].

(** The first line of a file. *)
Definition first_line (s : bytes) : bytes := (span (λ c, negb (bool_decide (c = newline))) s).1.
(** [None] where [substr] throws. *)
Definition ReadGitCommit (files : bytes → option bytes) : option bytes :=
  let or_unknown s := match s with [] => str "unknown" | _ => s end in
  match files (str ".git/HEAD") with
  | None => Some (str "unknown")
  | Some f =>
      let head := first_line f in
      if bool_decide (take 4 head = str "ref:") then
        if (length head <? 5)%nat then None
        else match files (str ".git/" ++ drop 5 head) with
             | None => Some (str "unknown")
             | Some rf => Some (or_unknown (first_line rf))
             end
      else Some (or_unknown head)
  end.

(** Members and objects. *)
Definition quoted (s : bytes) : bytes := quote :: s ++ [quote].
Definition member (name : string) (v : bytes) : bytes := quoted (str name) ++ ch ":" :: v.
Fixpoint join (l : list bytes) : bytes :=
  match l with
  | [] => []
  | [x] => x
  | x :: l => x ++ ch "," :: join l
  end.
Definition object (members : list bytes) : bytes := ch "{" :: join members ++ [ch "}"].

Definition emit_txn (name : string) (m : Bench.TxnMetrics) : bytes :=
  member name (object
    [member "count" (to_string (Bench.m_committed m));
     member "p50_us" (double_to_stream (Bench.p50 m));
     member "p95_us" (double_to_stream (Bench.p95 m));
     member "p99_us" (double_to_stream (Bench.p99 m));
     member "success_rate" (double_to_stream (Bench.success_rate m))]).
Definition report_json (a : Args) (commit now : bytes) (res : Bench.BenchResult) : bytes :=
  object
    [member "run_metadata" (object
       [member "commit" (quoted (EscapeJson commit));
        member "host" (quoted (str "local"));
        member "date" (quoted (EscapeJson now));
        member "build_flags" (quoted (str "Release"));
        member "cluster_topology" (quoted (to_string (a_num_shards a) ++ str "_shards_" ++
          match a_transport a with TransportGrpc => str "grpc_9proc" | TransportInProcess => str "inproc" end))]);
     member "config" (object
       [member "warehouses" (to_string (num_warehouses (a_tpcc a)));
        member "threads" (to_string (a_num_threads a));
        member "duration" (to_string (a_duration_s a));
        member "warmup" (to_string (a_warmup_s a));
        member "mix_ratios" (object
          [member "new_order" (str "45"); member "payment" (str "43"); member "order_status" (str "4");
           member "delivery" (str "4"); member "stock_level" (str "4")])]);
     member "per_txn_type" (object
       [emit_txn "new_order" (Bench.new_order_metrics res);
        emit_txn "payment" (Bench.payment_metrics res);
        emit_txn "order_status" (Bench.order_status_metrics res);
        emit_txn "delivery" (Bench.delivery_metrics res);
        emit_txn "stock_level" (Bench.stock_level_metrics res)]);
     member "overall_throughput_tps" (double_to_stream (Bench.txns_per_second res));
     member "overall_p99_latency_us" (double_to_stream (Bench.overall_p99_latency_us res))] ++ [newline].

Definition gc_on (env : getenv) : bool := negb (bool_decide (env "TRANS_DB_GROUP_COMMIT"%string = Some "0"%string)).
Definition line (parts : list bytes) : bytes := concat parts ++ [newline].
Definition report_md (env : getenv) (a : Args) (now : bytes) (res : Bench.BenchResult) : bytes :=
  let var name default := match env name with Some v => str v | None => str default end in
  concat
    ([line [str "# TPC-C-style benchmark (gRPC Raft topology"; if gc_on env then str ", group commit" else []; str ")"];
      line [];
      line [str "- Topology: "; to_string (a_num_shards a); str " shards x 3 Raft replicas (9 OS processes)"];
      line [str "- Transport: gRPC inter-replica Raft RPC"];
      line [str "- Group commit: "; if gc_on env then str "enabled" else str "disabled"]] ++
     (if gc_on env
      then [line [str "- Group commit window_us: "; var "TRANS_DB_GROUP_COMMIT_WINDOW_US" "0";
                  str ", batch: "; var "TRANS_DB_GROUP_COMMIT_BATCH" "32"]]
      else []) ++
     [line [str "- Throughput: "; double_to_stream (Bench.txns_per_second res); str " txn/sec"];
      line [str "- p99 latency (overall): "; double_to_stream (Bench.overall_p99_latency_us res); str " us"];
      line [str "- Threads: "; to_string (a_num_threads a); str ", duration: "; to_string (a_duration_s a);
            str "s, warmup: "; to_string (a_warmup_s a); str "s"];
      line [str "- Warehouses: "; to_string (num_warehouses (a_tpcc a))];
      line [str "- Historical / superseded: see `bench/results/tpcc_grpc.md` (canonical P0 baseline section)"];
      line [str "- Date: "; now]]).

(** The files that are written, with their contents. *)
Definition write_reports (can_write : bytes → bool) (env : getenv) (a : Args) (full_commit now : bytes)
    (res : Bench.BenchResult) : list (bytes * bytes) :=
  let commit := take 12 full_commit in
  let json := str "bench/results/tpcc_style_full_mix_" ++ commit ++ str ".json" in
  let md := if gc_on env then str "bench/results/tpcc_group_commit.md" else str "bench/results/tpcc_grpc.md" in
  (if can_write json then [(json, report_json a commit now res)] else []) ++
  match a_transport a with
  | TransportGrpc => if can_write md then [(md, report_md env a now res)] else []
  | TransportInProcess => []
  end.

(** The text on the standard output, where numbers have two decimals. *)
Definition double_fixed2 (d : double) : bytes :=
  match d with
  | S754_zero s => sign_text s (str "0.00")
  | S754_infinity s => sign_text s (str "inf")
  | S754_nan => str "nan"
  | S754_finite s m e =>
      let '(n, k) := ratio_of m e in
      let v := round_ratio (n * 100) k in
      sign_text s (dec (v / 100) ++ ch "." :: dec_pad 2 (v mod 100))
  end.
Definition abort_rate (res : Bench.BenchResult) : double :=
  let total := u64 (Bench.total_txns res + Bench.total_aborts res) in
  if 0 <? total then
    Bench.ddiv (Bench.dmul (double_of_Z 100) (double_of_Z (Bench.total_aborts res))) (double_of_Z total)
  else Bench.dzero.
Definition report_out (a : Args) (loaded : Z) (load_s : double) (res : Bench.BenchResult) : bytes :=
  concat
    [line []; line [str "=== TPCC Benchmark (Simplified) ==="];
     line [str "Shards: "; to_string (a_num_shards a); str ", Threads: "; to_string (a_num_threads a);
           str ", Warehouses: "; to_string (num_warehouses (a_tpcc a))];
     line [str "Rows loaded: "; to_string loaded; str " in "; double_fixed2 load_s; str " s"];
     line [str "Throughput: "; double_fixed2 (Bench.txns_per_second res); str " txn/sec"];
     line [str "Latency p50: "; double_fixed2 (Bench.r_p50 res); str " us, p99: "; double_fixed2 (Bench.r_p99 res);
           str " us, avg: "; double_fixed2 (Bench.r_avg res); str " us"];
     line [str "Committed: "; to_string (Bench.total_txns res); str ", Aborted: "; to_string (Bench.total_aborts res);
           str " ("; double_fixed2 (abort_rate res); str "% abort rate)"];
     line [str "New-Order: "; to_string (Bench.new_order_count res); str ", Payment: "; to_string (Bench.payment_count res);
           str ", OrderStatus: "; to_string (Bench.order_status_count res); str ", Delivery: ";
           to_string (Bench.delivery_count res); str ", StockLevel: "; to_string (Bench.stock_level_count res)]].

(** ** The program *)

Record Inputs := MkInputs {
  i_env : getenv;
  i_exists : bytes → bool;
  i_opens : Z → bool;
  i_binary : bytes;
  i_polls : list (bytes → bool);
  i_late : Z → nat → bool;
  i_load_s : double;
  i_workers : Benchmark → CM (option (list Bench.Finished * double));
  i_files : bytes → option bytes;
  i_now : bytes;
  i_can_write : bytes → bool;
}.
(** The exit code, the processes, what was printed and the files that were written. *)
Record Outcome := MkOutcome {
  o_exit : option Z;
  o_os : Os;
  o_out : bytes;
  o_files : list (bytes * bytes);
}.
Definition ended (os : Os) : Outcome := MkOutcome None os [] [].

(** The constructor of the coordinator: the addresses of the launcher. *)
Definition connect (l : ClusterLauncher) (num_shards : Z) : option Coordinator :=
  Coord.new_coordinator (map_to_list (BuildShardEntryAddresses (topo_ l) (host_ l))).*1 num_shards
    ((λ x, (x.1, length x.2)) <$> map_to_list (BuildShardReplicaAddresses (topo_ l) (host_ l))).

(** After the cluster was started. *)
Definition run_bench (i : Inputs) (env : getenv) (a : Args) (l : ClusterLauncher) (os : Os) : CM Outcome :=
  Coord.Recover ;;
  let '(cat, load) := Tpcc.LoadTPCCData (i_late i) new_Catalog (a_tpcc a) in
  loaded ← load;
  match loaded with
  | None => mret (ended os)
  | Some loaded =>
      match Bench.new_Benchmark cat (bench_config a) with
      | None => mret (ended os)
      | Some b =>
          r ← i_workers i b;
          match r with
          | None => mret (ended os)
          | Some (rounds, elapsed) =>
              let res := Bench.Run rounds elapsed in
              let out := report_out a loaded (i_load_s i) res in
              match ReadGitCommit (i_files i) with
              | None => mret (MkOutcome None os out [])
              | Some commit =>
                  let files := write_reports (i_can_write i) env a commit (i_now i) res in
                  let artifacts := concat ((λ path, line [str "Artifact: "; path]) <$> files.*1) in
                  let '(_, os) := Launcher.Stop l os in
                  mret (MkOutcome (Some 0) os (out ++ artifacts) files)
              end
          end
      end
  end.
Definition main (i : Inputs) (argv : list bytes) (os : Os) : Prog coord_result Outcome :=
  match parse_args default_args argv with
  | None => Ret (MkOutcome (Some 0) os PrintUsage [])
  | Some a =>
      if negb (valid_args a) then Ret (MkOutcome (Some 1) os [] [])
      else
        let env := EnsureBenchGroupCommitDefaults (i_env i) in
        let '(l, os, ok) := Launcher.Start (i_exists i) (i_opens i) (i_binary i) (i_polls i) new_ClusterLauncher os
          (a_transport a) (a_data_dir a) (topology a) (str "127.0.0.1") [] in
        if negb ok then Ret (ended os)
        else match connect l (a_num_shards a) with
             | None => Ret (ended os)
             | Some c => prog_bind (run_bench i env a l os c) (λ x, Ret x.2)
             end
  end.
End BenchMain.
