(* ===== verification/BenchMainProofs.v ===== *)
(** * The benchmark program: what it leaves and what it reports

    A run that returns has loaded its data, leaves no process behind and writes reports
    of that run; the JSON report is read back as the figures it was made of. *)
From Stdlib Require Import Strings.Byte Strings.Ascii Strings.String.
From stdpp Require Import base functions gmap sets strings sorting list.
From Stdlib Require Import ZArith Lia Floats.SpecFloat.
From S2P Require Import Prelude Status GroupCommit ShardMessages Effects CoordinatorLog Coordinator TwoPhase.
From S2P Require Import Text Catalog JoinHandler Lexer Parser DistributedJoin Executor ExecutorProofs ExecutorRows ExecutorExamples.
From S2P Require Import RaftNode RaftTransport GrpcTransport Cluster ClusterProofs Tpcc Benchmark TpccProofs WorkloadProofs BenchmarkProofs BenchMain.
Local Open Scope Z_scope.

Lemma new_Benchmark_loaded cfg : Bench.new_Benchmark (Tpcc.create_tables new_Catalog).1 cfg = Some (MkBenchmark cfg new_tables).
Proof. vm_compute. reflexivity. Qed.

(** ** A run that returns *)

Section program.
Implicit Types (i : BenchMain.Inputs) (a : BenchMain.Args) (o : BenchMain.Outcome).

(** What a run of the benchmark with these arguments did. *)
Definition ran i a o : Prop :=
  ∃ c0 c1 c2 c3 tr1 tr2 tr3 st n rounds elapsed commit,
    let b := MkBenchmark (BenchMain.bench_config a) new_tables in
    let res := Bench.Run rounds elapsed in
    path (Coord.Recover c0) tr1 (Some (c1, st)) ∧
    batches c1 (tpcc_batches (BenchMain.a_tpcc a) new_tables) tr2 c2 ∧ n = u64 (Z.of_nat (length (rows_of (tpcc_batches (BenchMain.a_tpcc a) new_tables)))) ∧
    path (BenchMain.i_workers i b c2) tr3 (Some (c3, Some (rounds, elapsed))) ∧
    BenchMain.ReadGitCommit (BenchMain.i_files i) = Some commit ∧
    BenchMain.o_files o = BenchMain.write_reports (BenchMain.i_can_write i)
      (BenchMain.EnsureBenchGroupCommitDefaults (BenchMain.i_env i)) a commit (BenchMain.i_now i) res.

Lemma LoadTPCCData_catalog late cfg : (Tpcc.LoadTPCCData late new_Catalog cfg).1 = (Tpcc.create_tables new_Catalog).1.
Proof. unfold Tpcc.LoadTPCCData. by destruct (Tpcc.create_tables new_Catalog). Qed.

Lemma run_bench_inv i env a l os c tr c' o : path (BenchMain.run_bench i env a l os c) tr (Some (c', o)) →
  env = BenchMain.EnsureBenchGroupCommitDefaults (BenchMain.i_env i) → is_Some (BenchMain.o_exit o) →
  BenchMain.o_exit o = Some 0 ∧ BenchMain.o_os o = (Launcher.Stop l os).2 ∧ ran i a o.
Proof.
  intros Hp Henv Ho. unfold BenchMain.run_bench in Hp.
  apply cm_bind_inv in Hp as [[_ ?]|(tr1 & tr' & c1 & st & -> & H1 & Hp)]; [discriminate|].
  rewrite (surjective_pairing (Tpcc.LoadTPCCData _ _ _)), LoadTPCCData_catalog in Hp. cbv beta iota in Hp.
  assert (Hend : ∀ c tr os' out files, path ((mret (BenchMain.MkOutcome None os' out files) : CM _) c) tr (Some (c', o)) → False).
  { intros c2 tr2 os' out files H. apply mret_inv in H as [_ [?|E]]; [discriminate|]. injection E as -> ->. by destruct Ho. }
  apply (cm_bind_inv (Tpcc.LoadTPCCData _ _ _).2) in Hp as [[_ ?]|(tr2 & tr3 & c2 & n & -> & H2 & Hp)]; [discriminate|]. destruct n as [n|]; [|destruct (Hend _ _ _ _ _ Hp)].
  rewrite new_Benchmark_loaded in Hp. apply cm_bind_inv in Hp as [[_ ?]|(tr4 & tr5 & c3 & r & -> & H3 & Hp)]; [discriminate|].
  destruct r as [[rounds elapsed]|]; [|destruct (Hend _ _ _ _ _ Hp)]. cbv zeta in Hp.
  destruct (BenchMain.ReadGitCommit (BenchMain.i_files i)) as [commit|] eqn:Eg; [|destruct (Hend _ _ _ _ _ Hp)].
  destruct (Launcher.Stop l os) as [l' os']. apply mret_inv in Hp as [_ [?|E]]; [discriminate|]. injection E as -> ->. subst env.
  split_and!; [reflexivity|reflexivity|]. exists c, c1, c2, c3, tr1, tr2, tr4, st, n, rounds, elapsed, commit.
  destruct (LoadTPCCData_batches _ _ _ _ _ _ H2). split_and!; [exact H1|assumption|assumption|exact H3|exact Eg|reflexivity].
Qed.

Lemma main_inv i argv os tr o : path (BenchMain.main i argv os) tr (Some o) → is_Some (BenchMain.o_exit o) →
  BenchMain.o_os o = os ∧ BenchMain.o_files o = [] ∨
  ∃ a l os', BenchMain.parse_args BenchMain.default_args argv = Some a ∧ BenchMain.valid_args a = true ∧
    Launcher.Start (BenchMain.i_exists i) (BenchMain.i_opens i) (BenchMain.i_binary i) (BenchMain.i_polls i) new_ClusterLauncher os
      (BenchMain.a_transport a) (BenchMain.a_data_dir a) (BenchMain.topology a) (str "127.0.0.1") [] = (l, os', true) ∧
    BenchMain.o_exit o = Some 0 ∧ BenchMain.o_os o = (Launcher.Stop l os').2 ∧ ran i a o.
Proof.
  intros Hp Ho. unfold BenchMain.main in Hp. destruct (BenchMain.parse_args _ argv) as [a|].
  2: { destruct Hp as [_ [?|E]]; [discriminate|]. injection E as ->. by left. }
  destruct (BenchMain.valid_args a) eqn:Ev; cbn [negb] in Hp.
  2: { destruct Hp as [_ [?|E]]; [discriminate|]. injection E as ->. by left. }
  cbv zeta in Hp. destruct (Launcher.Start _ _ _ _ _ _ _ _ _ _ _) as [[l os'] [|]] eqn:Es; cbn [negb] in Hp.
  2: { destruct Hp as [_ [?|E]]; [discriminate|]. injection E as ->. by destruct Ho. }
  destruct (BenchMain.connect l _) as [c|].
  2: { destruct Hp as [_ [?|E]]; [discriminate|]. injection E as ->. by destruct Ho. }
  apply path_bind_inv in Hp as [[_ ?]|(tr1 & tr2 & [c' o'] & -> & H1 & H2)]; [discriminate|]. destruct H2 as [-> [?|E]]; [discriminate|]. injection E as ->.
  right. exists a, l, os'. destruct (run_bench_inv _ _ _ _ _ _ _ _ _ H1 eq_refl Ho) as (E1 & E2 & Hr). by split_and!.
Qed.

(** The program cleans up after itself. When it returns an exit code, whatever the
    command line, the coordinator's answers and the workers did, no process that it
    started is left; and either it wrote no file, or the arguments were valid, the
    database was loaded, one committed transaction per batch, the workers ran on those
    tables with the configuration of the command line, and the files are the reports of
    that run. *)
Theorem bench_program i (argv : list bytes) (os : Os) (tr : list CEvent) o :
  processes os = ∅ → forks_fresh os → path (BenchMain.main i argv os) tr (Some o) → is_Some (BenchMain.o_exit o) →
  processes (BenchMain.o_os o) = ∅ ∧
  (BenchMain.o_files o = [] ∨
   ∃ a, BenchMain.parse_args BenchMain.default_args argv = Some a ∧ BenchMain.valid_args a = true ∧
     BenchMain.o_exit o = Some 0 ∧ ran i a o).
Proof.
  intros Hos Hf Hp Ho. destruct (main_inv _ _ _ _ _ Hp Ho) as [[-> ->]|(a & l & os' & Ea & Ev & Es & Ex & -> & Hr)]; [auto|].
  split; [by eapply start_stop|]. right. by exists a.
Qed.
End program.

(** ** Examples *)

Definition demo_inputs : BenchMain.Inputs :=
  BenchMain.MkInputs (λ _, None) (λ _, true) (λ _, true) (str "trans_db_replica") [] (λ _ _, false) (double_of_Z 1)
    (λ _, mret (Some (demo_rounds, double_of_Z 1)))
    (λ f, if bool_decide (f = str ".git/HEAD") then Some (str "0123456789abcdef") else None) (str "2024-01-01T00:00:00Z") (λ _, true).
Definition demo_argv : list bytes :=
  str <$> ["--shards"; "1"; "--warehouses"; "1"; "--districts"; "1"; "--customers"; "1"; "--items"; "1"]%string.
Definition demo_os : Os := MkOs ∅ [Some 11; Some 12; Some 13].
Lemma demo_forks_fresh : forks_fresh demo_os.
Proof.
  split; [apply (bool_decide_unpack _); vm_compute; exact I|]. intros p Hp. split; [|apply lookup_empty].
  cbn in Hp. rewrite !elem_of_cons, elem_of_nil in Hp. destruct Hp as [[= ->]|[[= ->]|[[= ->]|[]]]]; done.
Qed.

Lemma bench_program_witness :
  let o := (run bench_env () (BenchMain.main demo_inputs demo_argv demo_os)).2 in
  BenchMain.o_exit o = Some 0 ∧ processes (BenchMain.o_os o) = ∅ ∧
  (BenchMain.o_files o).*1 = str <$> ["bench/results/tpcc_style_full_mix_0123456789ab.json"; "bench/results/tpcc_group_commit.md"]%string ∧
  ∃ a, BenchMain.valid_args a = true ∧ ran demo_inputs a o.
Proof.
  intros o. assert (BenchMain.o_exit o = Some 0) as Ho by (vm_compute; reflexivity).
  assert ((BenchMain.o_files o).*1 = str <$> ["bench/results/tpcc_style_full_mix_0123456789ab.json"; "bench/results/tpcc_group_commit.md"]%string)
    as Hf by (vm_compute; reflexivity).
  destruct (bench_program demo_inputs demo_argv demo_os _ o eq_refl demo_forks_fresh (run_path bench_env _ ())) as [Hp Hr]; [rewrite Ho; by eexists|].
  clearbody o. split; [exact Ho|]. split; [exact Hp|]. split; [exact Hf|].
  destruct Hr as [Hr|(a & _ & Ha & _ & Hr)]; [rewrite Hr in Hf; discriminate Hf|]. exists a. split; [exact Ha|exact Hr].
Defined.

(** An error while the data is loaded is thrown past the launcher: the process ends and
    its replicas stay. *)
Definition failing_env (_ : ()) (a : CoordAction) : () * coord_result a :=
  ((), match a return coord_result a with
       | AExecute _ req => Some (MkExecuteResponse false IOError "write failed" [] [])
       | a => (demo_env () a).2
       end).
Lemma failed_load_leaks :
  let o := (run failing_env () (BenchMain.main demo_inputs demo_argv demo_os)).2 in
  BenchMain.o_exit o = None ∧ dom (processes (BenchMain.o_os o)) = {[11; 12; 13]}.
Proof. vm_compute. done. Qed.

(** ** Reading the JSON report *)

(** Numbers are kept as texts. *)
#[local] Set Warnings "-register-all".
Inductive Json := JNum (text : bytes) | JStr (s : bytes) | JObj (members : list (bytes * Json)).

Definition is_number_char (c : byte) : bool :=
  isdigit c || bool_decide (c ∈ [ch "+"; ch "-"; ch "."; ch "e"; ch "E"]).
(** -? (0 | [1-9] [0-9]* ) (. [0-9]+)? ([eE] [+-]? [0-9]+)? *)
Definition all_digits (s : bytes) : bool := match s with [] => false | _ => forallb isdigit s end.
Definition is_exponent (s : bytes) : bool :=
  match s with
  | [] => true
  | e :: s =>
      (bool_decide (e = ch "e") || bool_decide (e = ch "E")) &&
      all_digits (match s with c :: s' => if bool_decide (c = ch "+") || bool_decide (c = ch "-") then s' else s | [] => [] end)
  end.
Definition is_fraction (s : bytes) : bool :=
  match s with
  | c :: s' => if bool_decide (c = ch ".") then let '(ds, rest) := span isdigit s' in all_digits ds && is_exponent rest else is_exponent s
  | [] => true
  end.
Definition is_number (s : bytes) : bool :=
  let s := match s with c :: s' => if bool_decide (c = ch "-") then s' else s | [] => s end in
  match span isdigit s with
  | ([], _) => false
  | (c :: ds, rest) => (negb (bool_decide (c = ch "0")) || bool_decide (ds = [])) && is_fraction rest
  end.

(** The rest of a string after its opening quote: no control characters, and the escapes
    of one letter (none with a code, which the program does not write). *)
Definition is_control (c : byte) : bool := byte_to_Z c <? 32.
Definition unescape (e : byte) : option byte :=
  if bool_decide (e ∈ [ch "\"; x22; ch "/"]) then Some e
  else if bool_decide (e = ch "n") then Some x0a else if bool_decide (e = ch "t") then Some x09
  else if bool_decide (e = ch "r") then Some x0d else if bool_decide (e = ch "b") then Some x08
  else if bool_decide (e = ch "f") then Some x0c else None.
Fixpoint read_string (s : bytes) : option (bytes * bytes) :=
  match s with
  | [] => None
  | c :: s =>
      if bool_decide (c = x22) then Some ([], s)
      else if is_control c then None
      else if bool_decide (c = ch "\") then
        match s with
        | e :: s => c ← unescape e; '(t, rest) ← read_string s; Some (c :: t, rest)
        | [] => None
        end
      else '(t, rest) ← read_string s; Some (c :: t, rest)
  end.
(** Each value and each member takes one unit of fuel. *)
Fixpoint read_value (fuel : nat) (s : bytes) : option (Json * bytes) :=
  match fuel with
  | O => None
  | S fuel =>
      match s with
      | [] => None
      | c :: s' =>
          if bool_decide (c = x22) then '(t, rest) ← read_string s'; Some (JStr t, rest)
          else if bool_decide (c = ch "{") then '(ms, rest) ← read_members fuel s'; Some (JObj ms, rest)
          else match span is_number_char s with
               | (t, rest) => if is_number t then Some (JNum t, rest) else None
               end
      end
  end
with read_members (fuel : nat) (s : bytes) : option (list (bytes * Json) * bytes) :=
  match fuel with
  | O => None
  | S fuel =>
      match s with
      | q :: s =>
          if bool_decide (q = x22) then
            '(name, s) ← read_string s;
            match s with
            | colon :: s =>
                if bool_decide (colon = ch ":") then
                  '(v, s) ← read_value fuel s;
                  match s with
                  | c :: s =>
                      if bool_decide (c = ch ",") then '(ms, rest) ← read_members fuel s; Some ((name, v) :: ms, rest)
                      else if bool_decide (c = ch "}") then Some ([(name, v)], s) else None
                  | [] => None
                  end
                else None
            | [] => None
            end
          else None
      | [] => None
      end
  end.

(** Reading [s] gives [v] wherever [s] is followed by the end of a member. *)
Definition ends_member (rest : bytes) : Prop := ∃ c rest', rest = c :: rest' ∧ is_number_char c = false.
Definition reads (s : bytes) (v : Json) : Prop :=
  ∀ fuel rest, (length s ≤ fuel)%nat → ends_member rest → read_value fuel (s ++ rest) = Some (v, rest).

(** A text without control characters other than newlines is read back as it was before
    it was escaped. *)
Definition printable (c : byte) : Prop := is_control c = false ∨ c = x0a.
#[export] Instance printable_dec c : Decision (printable c).
Proof. unfold printable. apply _. Defined.
Lemma read_string_escape s rest : Forall printable s → read_string (BenchMain.EscapeJson s ++ x22 :: rest) = Some (s, rest).
Proof.
  induction 1 as [|c s Hc _ IH]; [done|]. change (BenchMain.EscapeJson (c :: s)) with
    ((if bool_decide (c = ch "\") || bool_decide (c = x22) then [ch "\"; c] else if bool_decide (c = x0a) then str "\n" else [c]) ++
     BenchMain.EscapeJson s).
  rewrite <- app_assoc. remember (BenchMain.EscapeJson s ++ x22 :: rest) as r eqn:Er. clear Er.
  destruct (decide (c = ch "\")) as [-> |Hb]; [vm_compute in IH |- *; by rewrite IH|].
  destruct (decide (c = x22)) as [-> |Hq]; [vm_compute in IH |- *; by rewrite IH|].
  destruct (decide (c = x0a)) as [-> |Hn]; [vm_compute in IH |- *; by rewrite IH|]. destruct Hc as [Hc|?]; [|done].
  rewrite !bool_decide_eq_false_2 by done. cbn [orb app read_string]. rewrite Hc, !bool_decide_eq_false_2 by done. by rewrite IH.
Qed.
(** Characters that are written as they are. *)
Definition plain_char (c : byte) : Prop := is_control c = false ∧ c ≠ ch "\" ∧ c ≠ x22.
#[export] Instance plain_char_dec c : Decision (plain_char c).
Proof. unfold plain_char. apply _. Defined.
Lemma EscapeJson_plain s : Forall plain_char s → BenchMain.EscapeJson s = s.
Proof.
  induction 1 as [|c s (Hc & Hb & Hq) _ IH]; [done|]. unfold BenchMain.EscapeJson in *. cbn [mbind list_bind].
  assert (c ≠ BenchMain.newline) by (intros ->; by vm_compute in Hc). rewrite !bool_decide_eq_false_2 by done. cbn. by f_equal.
Qed.
Lemma read_string_plain s rest : Forall plain_char s → read_string (s ++ x22 :: rest) = Some (s, rest).
Proof.
  intros Hs. rewrite <- (EscapeJson_plain s Hs) at 1. apply read_string_escape. eapply Forall_impl; [exact Hs|]. intros c (Hc & _). by left.
Qed.
Lemma reads_string s : Forall printable s → reads (BenchMain.quoted (BenchMain.EscapeJson s)) (JStr s).
Proof.
  intros Hs fuel rest Hf _. destruct fuel; [cbn in Hf; lia|]. unfold BenchMain.quoted, BenchMain.quote. cbn [app read_value].
  rewrite bool_decide_eq_true_2 by done. rewrite <- app_assoc. cbn [app]. by rewrite read_string_escape.
Qed.
Lemma reads_plain s : Forall plain_char s → reads (BenchMain.quoted s) (JStr s).
Proof.
  intros Hs. rewrite <- (EscapeJson_plain s Hs) at 1. apply reads_string. eapply Forall_impl; [exact Hs|]. intros c (Hc & _). by left.
Qed.
Lemma reads_number s : Forall (λ c, is_number_char c = true) s → is_number s = true → reads s (JNum s).
Proof.
  intros HF Hs fuel rest Hf (c & rest' & -> & Hc). destruct s as [|d s]; [done|]. destruct fuel; [by cbn in Hf; lia|].
  cbn [app read_value]. pose proof HF as [Hd _]%Forall_cons.
  assert (d ≠ x22 ∧ d ≠ ch "{") as [H1 H2] by (split; intros ->; by vm_compute in Hd).
  rewrite !bool_decide_eq_false_2 by done. rewrite (app_comm_cons s _ d). rewrite span_app; [by rewrite Hs|done|]. by intros ? [= <-].
Qed.

(** *** Objects *)

(** The members [ms], as texts, are read as [vs]. *)
Definition reads_member (m : bytes) (v : bytes * Json) : Prop :=
  ∃ name s, m = BenchMain.member name s ∧ v.1 = str name ∧ Forall plain_char (str name) ∧ reads s v.2.

Lemma ends_comma rest : ends_member (ch "," :: rest).
Proof. by exists (ch ","), rest. Qed.
Lemma ends_brace rest : ends_member (ch "}" :: rest).
Proof. by exists (ch "}"), rest. Qed.

Lemma read_member fuel name s v rest : Forall plain_char (str name) → reads s v →
  (length s ≤ fuel)%nat → ends_member rest →
  read_members (S fuel) (BenchMain.member name s ++ rest) =
  match rest with
  | c :: s =>
      if bool_decide (c = ch ",") then '(ms, rest) ← read_members fuel s; Some ((str name, v) :: ms, rest)
      else if bool_decide (c = ch "}") then Some ([(str name, v)], s) else None
  | [] => None
  end.
Proof.
  intros Hn Hs Hf He. unfold BenchMain.member, BenchMain.quoted, BenchMain.quote. cbn [app read_members]. rewrite bool_decide_eq_true_2 by done.
  rewrite <- !app_assoc. cbn [app]. rewrite read_string_plain by done. cbn [mbind option_bind]. rewrite bool_decide_eq_true_2 by done.
  by rewrite Hs.
Qed.
Lemma read_members_join ms vs : Forall2 reads_member ms vs → ms ≠ [] → ∀ fuel rest, (length (BenchMain.join ms) < fuel)%nat →
  read_members fuel (BenchMain.join ms ++ ch "}" :: rest) = Some (vs, rest).
Proof.
  induction 1 as [|m [vn v] ms vs (name & s & -> & Ev & Hn & Hs) HF IH]; intros Hne fuel rest Hf; [done|]. cbn [fst snd] in Ev, Hs. subst vn.
  destruct fuel as [|fuel]; [lia|]. destruct HF as [|m2 v2 ms vs Hm HF].
  - cbn [BenchMain.join] in *. rewrite (read_member fuel name s v) by (done || apply ends_brace || (unfold BenchMain.member in Hf; rewrite length_app in Hf; cbn in Hf; lia)).
    rewrite bool_decide_eq_false_2 by done. by rewrite bool_decide_eq_true_2.
  - change (BenchMain.join (BenchMain.member name s :: m2 :: ms)) with (BenchMain.member name s ++ ch "," :: BenchMain.join (m2 :: ms)) in *.
    rewrite length_app in Hf. cbn [length] in Hf. rewrite <- app_assoc. cbn [app].
    rewrite (read_member fuel name s v) by (done || apply ends_comma || (unfold BenchMain.member in Hf; rewrite length_app in Hf; cbn in Hf; lia)).
    rewrite bool_decide_eq_true_2 by done. rewrite IH; [done|done|lia].
Qed.
Lemma reads_object ms vs : Forall2 reads_member ms vs → ms ≠ [] → reads (BenchMain.object ms) (JObj vs).
Proof.
  intros HF Hne fuel rest Hf _. unfold BenchMain.object in *. cbn [length] in Hf. rewrite length_app in Hf. cbn [length] in Hf.
  destruct fuel as [|fuel]; [lia|]. cbn [app read_value]. rewrite bool_decide_eq_false_2, bool_decide_eq_true_2 by done.
  rewrite <- app_assoc. cbn [app]. rewrite (read_members_join ms vs HF Hne) by lia. done.
Qed.

(** *** Numbers *)

Definition digits (s : bytes) : Prop := Forall (λ c, isdigit c = true) s ∧ s ≠ [].
(** Digits with no zero in front, unless that is all. *)
Definition whole (s : bytes) : Prop := digits s ∧ (hd x00 s ≠ ch "0" ∨ length s = 1%nat).
Definition fraction (s : bytes) : Prop := s = [] ∨ ∃ ds, s = ch "." :: ds ∧ digits ds.
Definition exponent (s : bytes) : Prop := s = [] ∨ ∃ sg ds, s = ch "e" :: sg :: ds ∧ (sg = ch "+" ∨ sg = ch "-") ∧ digits ds.
Definition number_text (s : bytes) : Prop := ∃ neg w f x, s = sign_text neg (w ++ f ++ x) ∧ whole w ∧ fraction f ∧ exponent x.

Lemma digits_char s : digits s → Forall (λ c, is_number_char c = true) s.
Proof. intros [HF _]. eapply Forall_impl; [exact HF|]. intros c Hc. unfold is_number_char. by rewrite Hc. Qed.
Lemma digits_all s : digits s → all_digits s = true.
Proof. intros [HF Hne]. unfold all_digits. destruct s as [|c s]; [done|]. clear Hne. induction HF as [|d l Hd _ IH]; [done|]. cbn. by rewrite Hd, IH. Qed.
Lemma exponent_is x : exponent x → is_exponent x = true ∧ Forall (λ c, is_number_char c = true) x ∧ ∀ c x', x = c :: x' → isdigit c = false ∧ c ≠ ch ".".
Proof.
  intros [-> |(sg & ds & -> & Hsg & Hds)]; [by split_and!; [|apply Forall_nil|]|]. split_and!.
  - destruct Hsg as [-> | ->]; by apply digits_all.
  - apply Forall_cons. split; [done|]. apply Forall_cons. split; [by destruct Hsg as [-> | ->]|by apply digits_char].
  - by intros c x' [= <- _].
Qed.
Lemma fraction_is f x : fraction f → exponent x → is_fraction (f ++ x) = true ∧ Forall (λ c, is_number_char c = true) (f ++ x) ∧
  ∀ c r, f ++ x = c :: r → isdigit c = false.
Proof.
  intros Hf (Hx & HFx & Hhd)%exponent_is. destruct Hf as [-> |(ds & -> & Hds)]; cbn [app].
  - split_and!; [|done|intros c r E; by destruct (Hhd c r E)]. destruct x as [|c x]; [done|]. cbn [is_fraction].
    destruct (Hhd c x eq_refl) as [_ Hc]. by rewrite bool_decide_eq_false_2.
  - split_and!; [|apply Forall_cons; split; [done|apply Forall_app; split; [by apply digits_char|done]]|by intros c r [= <- _]].
    cbn [is_fraction]. rewrite bool_decide_eq_true_2 by done. rewrite span_app; [by rewrite digits_all, Hx|apply Hds|].
    destruct x as [|c x]; [done|]. intros c' [= <-]. by destruct (Hhd c x eq_refl).
Qed.
Lemma number_is s : number_text s → is_number s = true ∧ Forall (λ c, is_number_char c = true) s.
Proof.
  intros (neg & w & f & x & -> & (Hw & Hz) & Hf & Hx). destruct (fraction_is f x Hf Hx) as (Hfx & HF & Hhd).
  assert (is_number (w ++ f ++ x) = true ∧ match w ++ f ++ x with c :: _ => c ≠ ch "-" | [] => True end) as [E Hc].
  { unfold is_number. destruct w as [|c w]; [by destruct Hw|]. pose proof Hw as [[Hd _]%Forall_cons _]. cbn [app].
    assert (c ≠ ch "-") as Hm by (intros ->; by vm_compute in Hd). split; [|done]. rewrite bool_decide_eq_false_2 by done. rewrite app_comm_cons.
    rewrite span_app; [|apply Hw|].
    - rewrite Hfx, andb_true_r. destruct Hz as [Hz|Hz]; [by rewrite bool_decide_eq_false_2|]. destruct w; [by rewrite orb_true_r|done].
    - destruct (f ++ x) as [|c' r]; [done|]. intros ? [= <-]. by eapply Hhd. }
  assert (Forall (λ c, is_number_char c = true) (w ++ f ++ x)) by (apply Forall_app; split; [by apply digits_char|done]).
  unfold sign_text. destruct neg; [|done]. split; [|by apply Forall_cons]. unfold is_number in *. destruct (w ++ f ++ x) as [|c r]; [done|].
  rewrite (bool_decide_eq_false_2 (c = ch "-")) in E by done. rewrite (bool_decide_eq_true_2 (ch "-" = ch "-")) by done. exact E.
Qed.
Lemma number_reads s : number_text s → reads s (JNum s).
Proof. intros [H1 H2]%number_is. by apply reads_number. Qed.

Lemma digit_byte d : 0 ≤ d < 10 → isdigit (byte_of_Z (48 + d)) = true ∧ (d ≠ 0 → byte_of_Z (48 + d) ≠ ch "0").
Proof.
  intros Hd. assert (d ∈ seqZ 0 10) as Hin by (apply elem_of_seqZ; lia). clear Hd. revert d Hin. apply Forall_forall.
  apply (bool_decide_unpack _). vm_compute. exact I.
Qed.
Lemma dec_digits_head fuel n acc : 1 ≤ n < 10 ^ Z.of_nat fuel → digits acc ∨ acc = [] →
  digits (dec_digits fuel n acc) ∧ hd x00 (dec_digits fuel n acc) ≠ ch "0".
Proof.
  revert n acc. induction fuel as [|fuel IH]; intros n acc Hn Ha; [change (10 ^ Z.of_nat 0) with 1 in Hn; lia|]. cbn [dec_digits].
  pose proof (digit_byte (n mod 10) (Z.mod_pos_bound n 10 ltac:(lia))) as [Hd Hnz].
  assert (digits (byte_of_Z (48 + n mod 10) :: acc)) as Hds by (split; [apply Forall_cons; split; [done|by destruct Ha as [[? _]| ->]]|done]).
  destruct (Z.ltb_spec n 10).
  - split; [done|]. cbn [hd]. apply Hnz. rewrite Z.mod_small; lia.
  - apply IH; [|by left]. rewrite Nat2Z.inj_succ, Z.pow_succ_r in Hn by lia.
    split; [apply Z.div_le_lower_bound; lia|apply Z.div_lt_upper_bound; lia].
Qed.
Lemma dec_whole n : whole (dec n).
Proof.
  unfold dec. destruct (Z.ltb_spec n 10) as [Hn|Hn].
  - pose proof (digit_byte (n mod 10) (Z.mod_pos_bound n 10 ltac:(lia))) as [Hd _]. cbn [dec_digits].
    destruct (Z.ltb_spec n 10); [|lia]. split; [split; [by apply Forall_singleton|done]|by right].
  - pose proof (Z.log2_spec n ltac:(lia)) as [_ Hl]. pose proof (Z.log2_nonneg n).
    destruct (dec_digits_head (S (Z.to_nat (Z.log2 n))) n []) as [Hd Hh]; [|by right|by split; [|left]].
    split; [lia|]. rewrite Nat2Z.inj_succ, Z2Nat.id by done. eapply Z.lt_le_trans; [exact Hl|]. apply Z.pow_le_mono_l. lia.
Qed.
Lemma dec_pad_digits k n : digits (dec_pad k n).
Proof.
  unfold dec_pad. destruct (dec_whole n) as [[HF Hne] _]. split; [apply Forall_app; split; [by apply Forall_replicate|done]|].
  by intros [_ ?]%app_eq_nil.
Qed.
Lemma to_string_text n : number_text (to_string n).
Proof.
  unfold to_string. destruct (n <? 0); [exists true, (dec (- n)), [], []|exists false, (dec n), [], []];
    (split_and!; [by rewrite app_nil_r|apply dec_whole|by left|by left]).
Qed.
Lemma span_Forall (P : byte → Prop) p s : Forall P s → Forall P (span p s).2.
Proof.
  induction 1 as [|c s Hc HF IH]; cbn; [by apply Forall_nil|]. destruct (p c); [by destruct (span p s)|]. by apply Forall_cons.
Qed.
Lemma with_fraction_split w ds : digits ds → ∃ f, with_fraction w ds = w ++ f ∧ fraction f.
Proof.
  intros [Hf _]. unfold with_fraction. assert (Forall (λ c, isdigit c = true) (strip_zeros ds)) as Hs.
  { unfold strip_zeros. apply Forall_rev, span_Forall, Forall_rev, Hf. }
  destruct (strip_zeros ds) as [|c s]; [exists []|exists (ch "." :: c :: s)]; (split; [by rewrite ?app_nil_r|]); [by left|right]. by exists (c :: s).
Qed.
Lemma with_fraction_number neg w ds x : whole w → digits ds → exponent x → number_text (sign_text neg (with_fraction w ds ++ x)).
Proof.
  intros Hw Hds Hx. destruct (with_fraction_split w ds Hds) as (f & -> & Hf). exists neg, w, f, x. by rewrite <- app_assoc.
Qed.

Definition is_finite (d : double) : Prop := match d with S754_infinity _ | S754_nan => False | _ => True end.
(** What is written of a finite number is a number of JSON. *)
Lemma double_to_stream_number d : is_finite d → number_text (double_to_stream d).
Proof.
  assert (whole (str "0")) as H0 by (split; [split; [by apply Forall_singleton|done]|by right]). assert (exponent []) as Hx0 by by left.
  destruct d as [sg|sg| |sg m e]; intros Hd; [exists sg, (str "0"), [], []; by split_and!; [|..|left|left]|done|done|]. unfold double_to_stream.
  destruct (ratio_of m e) as [n k]. cbv zeta. destruct (if _ : bool then (_, _) else _) as [ds x].
  destruct (_ || _); [|destruct (0 <=? x)].
  - apply with_fraction_number; [apply dec_whole|apply dec_pad_digits|]. right. eexists _, _. split; [reflexivity|]. split; [destruct (x <? 0); auto|apply dec_pad_digits].
  - rewrite <- (app_nil_r (with_fraction _ _)). apply with_fraction_number; [apply dec_whole|apply dec_pad_digits|done].
  - rewrite <- (app_nil_r (with_fraction _ _)). apply with_fraction_number; [done|apply dec_pad_digits|done].
Qed.

(** *** The report *)

Definition metrics_tree (m : Bench.TxnMetrics) : Json :=
  JObj [(str "count", JNum (to_string (Bench.m_committed m)));
        (str "p50_us", JNum (double_to_stream (Bench.p50 m)));
        (str "p95_us", JNum (double_to_stream (Bench.p95 m)));
        (str "p99_us", JNum (double_to_stream (Bench.p99 m)));
        (str "success_rate", JNum (double_to_stream (Bench.success_rate m)))].
Definition metadata_tree (a : BenchMain.Args) (commit now : bytes) : Json :=
  JObj [(str "commit", JStr commit);
        (str "host", JStr (str "local"));
        (str "date", JStr now);
        (str "build_flags", JStr (str "Release"));
        (str "cluster_topology", JStr (to_string (BenchMain.a_num_shards a) ++ str "_shards_" ++
           match BenchMain.a_transport a with TransportGrpc => str "grpc_9proc" | TransportInProcess => str "inproc" end))].
Definition config_tree (a : BenchMain.Args) : Json :=
  JObj [(str "warehouses", JNum (to_string (num_warehouses (BenchMain.a_tpcc a))));
        (str "threads", JNum (to_string (BenchMain.a_num_threads a)));
        (str "duration", JNum (to_string (BenchMain.a_duration_s a)));
        (str "warmup", JNum (to_string (BenchMain.a_warmup_s a)));
        (str "mix_ratios", JObj [(str "new_order", JNum (str "45")); (str "payment", JNum (str "43"));
           (str "order_status", JNum (str "4")); (str "delivery", JNum (str "4")); (str "stock_level", JNum (str "4"))])].
Definition report_tree (a : BenchMain.Args) (commit now : bytes) (res : Bench.BenchResult) : Json :=
  JObj [(str "run_metadata", metadata_tree a commit now);
        (str "config", config_tree a);
        (str "per_txn_type", JObj [(str "new_order", metrics_tree (Bench.new_order_metrics res));
           (str "payment", metrics_tree (Bench.payment_metrics res));
           (str "order_status", metrics_tree (Bench.order_status_metrics res));
           (str "delivery", metrics_tree (Bench.delivery_metrics res));
           (str "stock_level", metrics_tree (Bench.stock_level_metrics res))]);
        (str "overall_throughput_tps", JNum (double_to_stream (Bench.txns_per_second res)));
        (str "overall_p99_latency_us", JNum (double_to_stream (Bench.overall_p99_latency_us res)))].

Definition finite_metrics (m : Bench.TxnMetrics) : Prop :=
  Forall is_finite [Bench.p50 m; Bench.p95 m; Bench.p99 m; Bench.success_rate m].

Lemma member_reads name s v : bool_decide (Forall plain_char (str name)) = true → reads s v →
  reads_member (BenchMain.member name s) (str name, v).
Proof. intros Hn%bool_decide_eq_true Hs. by exists name, s. Qed.

Create HintDb json discriminated.
#[local] Hint Resolve number_reads to_string_text double_to_stream_number reads_string : json.
Local Ltac object := apply reads_object; [|discriminate]; repeat (apply Forall2_cons_2; [apply member_reads; [vm_compute; reflexivity|]|]); try apply Forall2_nil_2.
Local Ltac plain := apply reads_plain, (bool_decide_unpack _); vm_compute; exact I.

Lemma metrics_reads m : finite_metrics m → reads (BenchMain.object
    [BenchMain.member "count" (to_string (Bench.m_committed m));
     BenchMain.member "p50_us" (double_to_stream (Bench.p50 m));
     BenchMain.member "p95_us" (double_to_stream (Bench.p95 m));
     BenchMain.member "p99_us" (double_to_stream (Bench.p99 m));
     BenchMain.member "success_rate" (double_to_stream (Bench.success_rate m))]) (metrics_tree m).
Proof.
  unfold finite_metrics. rewrite !Forall_cons. intros (H1 & H2 & H3 & H4 & _). object; auto with json.
Qed.
Lemma topology_plain n t : Forall plain_char (to_string n ++ str "_shards_" ++
  match t with TransportGrpc => str "grpc_9proc" | TransportInProcess => str "inproc" end).
Proof.
  apply Forall_app. split; [|apply (bool_decide_unpack _); by destruct t]. destruct (number_is _ (to_string_text n)) as [_ HF]. eapply Forall_impl; [exact HF|].
  intros c Hc. apply (bool_decide_unpack _). by destruct c.
Qed.

(** C39. The JSON report can be read. When the commit and the date have no control
    characters other than newlines and the figures are finite, a reader of JSON, which
    refuses control characters in strings and takes numbers only as JSON writes them,
    gets from the report, up to the newline that ends the file, an object with exactly
    the members that the program means to write: the texts as they were before they were
    escaped, and every number as it was printed. *)
Theorem report_reads_back (a : BenchMain.Args) (commit now : bytes) (res : Bench.BenchResult) :
  Forall printable commit → Forall printable now →
  Forall finite_metrics (all_metrics res) → is_finite (Bench.txns_per_second res) → is_finite (Bench.overall_p99_latency_us res) →
  let s := BenchMain.report_json a commit now res in
  read_value (length s) s = Some (report_tree a commit now res, [x0a]).
Proof.
  intros Hcommit Hnow HF H1 H2 s. unfold all_metrics in HF. rewrite !Forall_cons in HF. destruct HF as (Hm1 & Hm2 & Hm3 & Hm4 & Hm5 & _).
  unfold s, BenchMain.report_json, BenchMain.emit_txn, BenchMain.newline.
  match goal with |- context [BenchMain.object ?ms ++ _] => assert (reads (BenchMain.object ms) (report_tree a commit now res)) as Hr end.
  2: { apply Hr; [rewrite length_app; lia|by exists x0a, []]. }
  object; try (apply metrics_reads; done); auto with json.
  - object; [by apply reads_string|plain|by apply reads_string|plain|apply reads_plain, topology_plain].
  - object; [auto with json..|]. object; (apply reads_number; [apply (bool_decide_unpack _); vm_compute; exact I|vm_compute; reflexivity]).
  - object; by apply metrics_reads.
Qed.

Lemma report_reads_back_witness :
  let s := BenchMain.report_json BenchMain.default_args (str "abc") [x22; x0a] (Bench.Run demo_rounds (double_of_Z 1)) in
  read_value (length s) s =
  Some (report_tree BenchMain.default_args (str "abc") [x22; x0a] (Bench.Run demo_rounds (double_of_Z 1)), [x0a]).
Proof.
  apply (report_reads_back BenchMain.default_args (str "abc") [x22; x0a] (Bench.Run demo_rounds (double_of_Z 1))).
  - apply (bool_decide_unpack _). vm_compute. exact I.
  - apply (bool_decide_unpack _). vm_compute. exact I.
  - unfold all_metrics, finite_metrics. repeat (apply Forall_cons; split; [repeat (apply Forall_cons; split; [vm_compute; exact I|]); by apply Forall_nil|]).
    by apply Forall_nil.
  - vm_compute. exact I.
  - vm_compute. exact I.
Defined.

(** Other control characters are written as they are, which no reader of JSON takes: a
    carriage return at the end of the line in .git/HEAD is enough. *)
Lemma control_characters_unescaped :
  let s := BenchMain.report_json BenchMain.default_args (str "abc" ++ [x0d]) (str "now") (Bench.Run demo_rounds (double_of_Z 1)) in
  read_value (length s) s = None.
Proof. vm_compute. reflexivity. Qed.

(** The report names nine processes and the standard mix whatever the arguments are. *)
Lemma report_ignores_arguments a mix commit now res :
  BenchMain.report_json a commit now res =
  BenchMain.report_json (BenchMain.MkArgs (BenchMain.a_num_shards a) (BenchMain.a_num_threads a) (BenchMain.a_duration_s a)
    (BenchMain.a_warmup_s a) (BenchMain.a_tpcc a) mix (BenchMain.a_data_dir a) (BenchMain.a_transport a)) commit now res.
Proof. reflexivity. Qed.
