(* ===== verification/Programs.v ===== *)
(** * The servers and the programs around them

    The constructor of a shard's service in one process, the objects that put it behind
    gRPC servers (shard/shard_server.h, shard/shard_server.cpp), and the two programs
    that run them (main.cpp, replica_main.cpp) from the start to the exit code. *)
From Stdlib Require Import Strings.Byte Strings.Ascii Strings.String.
From stdpp Require Import base functions relations gmap sets strings list.
From Stdlib Require Import ZArith Lia.
From S2P Require Import Prelude Status Text RocksDB GroupCommit LogFile Wal LockManager TxnManager Recovery ShardMessages.
From S2P Require Import RaftLog RaftStateMachine RaftNode RaftCluster RaftTransport GrpcTransport ShardServer PgServer Cluster ClusterProofs.
Local Open Scope Z_scope.

Module Programs.

(** ** Services and servers *)

Section servers.
Context `{RocksDB DB} `{GroupCommit}.

(** What a replica finds in its directory. *)
Record Disk := MkDisk {
  d_store : DB;
  d_wal : LogFile;
  d_meta : MetaFile;
  d_raft_log : RaftLog;
}.

Inductive ShardTransportMode := InProcessMode | GrpcMode.

(** The paths of the replicas. *)
Definition replica_path (data_dir : bytes) (shard_id i : Z) : bytes :=
  data_dir ++ str "/shard" ++ to_string shard_id ++ str "_rep" ++ to_string i.

(** One replica after the other; [disk] gives nothing where the store cannot be opened. *)
Fixpoint init_replicas (env : getenv) (disk : bytes → option Disk) (data_dir : bytes) (shard_id : Z) (ids : list Z)
    (s : ShardServiceImpl DB) (todo : list Z) : option (ShardServiceImpl DB) :=
  match todo with
  | [] => Some s
  | i :: todo =>
      d ← disk (replica_path data_dir shard_id i);
      sm ← Shard.InitReplica (d_store d) (d_wal d);
      let peers := filter (λ j, j ≠ i) ids in
      let node := new_RaftNode i peers (d_meta d) (d_raft_log d) env true in
      let s := MkShardServiceImpl (set_node (raft_group s) i node) (<[i := sm]> (state_machines s))
        (InProcess.RegisterNode (inproc_transport_ s) i i) (started_ s) (pending_txns_ s) (terminal_txn_states_ s) in
      init_replicas env disk data_dir shard_id ids s todo
  end.
(** The constructor for all replicas of a shard; [rest] and [nobody] stand for the
    replicas that are not there. *)
Definition new_ShardServiceImpl (rest : Z → RaftNode) (nobody : RaftStateMachine DB) (env : getenv) (disk : bytes → option Disk)
    (shard_id : Z) (data_dir : bytes) (num_replicas : Z) (mode : ShardTransportMode) : option (ShardServiceImpl DB) :=
  match mode with
  | GrpcMode => None
  | InProcessMode =>
      let ids := seqZ 0 num_replicas in
      init_replicas env disk data_dir shard_id ids
        (MkShardServiceImpl (MkCluster rest ∅ [] [] [] [] []) (λ _, nobody) (MkInProcessTransport ∅ ∅) false ∅ ∅) ids
  end.

(** [ShardServer]: the gRPC server is there when it could listen. *)
Record ShardServer := MkShardServer {
  service_ : ShardServiceImpl DB;
  listen_addr_ : bytes;
  server_ : bool;
}.
Definition ShardServer_Start (hosted : list Z) (can_listen : bytes → bool) (s : ShardServer) : ShardServer :=
  MkShardServer (Shard.Start hosted (service_ s)) (listen_addr_ s) (can_listen (listen_addr_ s)).
Definition ShardServer_Stop (hosted : list Z) (s : ShardServer) : ShardServer :=
  MkShardServer (Shard.Stop hosted (service_ s)) (listen_addr_ s) false.

(** [ReplicaServer]: one replica behind two gRPC servers, for the clients of the shard
    and for the other replicas. *)
Record ReplicaServer := MkReplicaServer {
  raft_transport_ : GrpcRaftTransport;
  shard_service_ : ShardServiceImpl DB;
  raft_peers : list Z;
  shard_listen_addr_ : bytes;
  raft_listen_addr_ : bytes;
  shard_server_ : bool;
  raft_server_ : bool;
}.
(** The constructor; [None] where [InitReplica] throws. *)
Definition new_ReplicaServer (rest : Z → RaftNode) (nobody : RaftStateMachine DB) (env : getenv) (disk : bytes → option Disk)
    (replica_id : Z) (data_dir shard_listen raft_listen : bytes) (raft_peer_addrs : gmap Z bytes) : option ReplicaServer :=
  let '(tr, peers) := replica_transport replica_id raft_peer_addrs in
  d ← disk data_dir;
  sm ← Shard.InitReplica (d_store d) (d_wal d);
  let node := new_RaftNode replica_id peers (d_meta d) (d_raft_log d) env false in
  let s := MkShardServiceImpl (MkCluster (<[replica_id := node]> rest) ∅ [] [] [] [] []) (<[replica_id := sm]> (λ _, nobody))
    (MkInProcessTransport ∅ ∅) false ∅ ∅ in
  Some (MkReplicaServer tr s peers shard_listen raft_listen false false).
Definition ReplicaServer_Start (id : Z) (can_listen : bytes → bool) (s : ReplicaServer) : ReplicaServer :=
  MkReplicaServer (raft_transport_ s) (Shard.Start [id] (shard_service_ s)) (raft_peers s) (shard_listen_addr_ s)
    (raft_listen_addr_ s) (can_listen (shard_listen_addr_ s)) (can_listen (raft_listen_addr_ s)).
Definition ReplicaServer_Stop (id : Z) (s : ReplicaServer) : ReplicaServer :=
  MkReplicaServer (raft_transport_ s) (Shard.Stop [id] (shard_service_ s)) (raft_peers s) (shard_listen_addr_ s)
    (raft_listen_addr_ s) false false.

(** ** replica_main *)

(** Where the program is: waiting for a signal, returned with an exit code, or ended by
    an exception. *)
Inductive ReplicaMain :=
  | ReplicaWaits (id : Z) (s : ReplicaServer)
  | ReplicaExit (code : Z) (s : option ReplicaServer)
  | ReplicaEnded.
Definition replica_main (rest : Z → RaftNode) (nobody : RaftStateMachine DB) (env : getenv) (disk : bytes → option Disk)
    (can_listen : bytes → bool) (argv : list bytes) : ReplicaMain :=
  match replica_args default_replica_args argv with
  | None => ReplicaExit 0 None
  | Some a =>
      let env := replica_env a env in
      match new_ReplicaServer rest nobody env disk (ra_replica_id a) (ra_data_dir a) (ra_shard_listen a) (ra_raft_listen a)
              (ParseRaftPeers (ra_raft_peers_spec a)) with
      | None => ReplicaEnded
      | Some s => ReplicaWaits (ra_replica_id a) (ReplicaServer_Start (ra_replica_id a) can_listen s)
      end
  end.
(** SIGINT or SIGTERM. *)
Definition replica_signal (m : ReplicaMain) : ReplicaMain :=
  match m with
  | ReplicaWaits id s => ReplicaExit 0 (Some (ReplicaServer_Stop id s))
  | _ => m
  end.
End servers.

(** ** main *)

Inductive MainPc := MainWaits | MainStopsPg | MainExit (code : Z) | MainEnded.
Record ServerMain := MkServerMain {
  m_pc : MainPc;
  g_stop : bool;
  m_cluster : ClusterLauncher;
  m_os : Os;
  m_process : Process;
}.
(** From the start to the waiting loop: [io] are the calls of [PgWireServer::Start]. The
    coordinator is the one of Coordinator.v, with the addresses of the launcher and no
    log. *)
Definition server_main (exists_ : bytes → bool) (opens : Z → bool) (default_binary : bytes) (polls : list (bytes → bool))
    (io : Server.StartIO) (files : gset Z) (argv : list bytes) (os : Os) : ServerMain :=
  let here pc l os := MkServerMain pc false l os (process_init 5432 files) in
  match server_args default_server_args argv with
  | None => here (MainExit 0) new_ClusterLauncher os
  | Some a =>
      match server_topology a with
      | inl code => here (MainExit code) new_ClusterLauncher os
      | inr topo =>
          let '(l, os, ok) := Launcher.Start exists_ opens default_binary polls new_ClusterLauncher os
            (sa_transport a) (sa_data_dir a) topo (str "127.0.0.1") [] in
          if negb ok then here MainEnded l os
          else
            let '(p, st) := Server.Start (process_init (sa_pg_port a) files) io in
            if negb (St.ok st) then
              let '(l, os) := Launcher.Stop l os in MkServerMain (MainExit 1) false l os p
            else MkServerMain MainWaits false l os p
      end
  end.

(** The signal handler, the server's other threads, and the program itself, which stops
    the server and then the cluster. *)
Inductive MainEvent := MainSignal | MainThreads (ev : ServerEvent) | MainNext.
Definition main_event (m : ServerMain) (ev : MainEvent) : option ServerMain :=
  let '(MkServerMain pc stop l os p) := m in
  match ev, pc with
  | MainSignal, _ => Some (MkServerMain pc true l os p)
  | MainThreads (EvStart _ | EvStop | EvStopNext), _ => None
  | MainThreads ev, (MainWaits | MainStopsPg) => p ← run_server p ev; Some (MkServerMain pc stop l os p)
  | MainThreads _, _ => None
  | MainNext, MainWaits => Some (if stop then MkServerMain MainStopsPg stop l os (Server.Stop_begin p) else m)
  | MainNext, MainStopsPg =>
      match owner p with
      | Idle => let '(l, os) := Launcher.Stop l os in Some (MkServerMain (MainExit 0) stop l os p)
      | _ => p ← Server.Stop_next p; Some (MkServerMain MainStopsPg stop l os p)
      end
  | MainNext, _ => None
  end.
Definition main_step (m m' : ServerMain) : Prop := ∃ ev, main_event m ev = Some m'.
End Programs.

(** ** A service in one process is a Raft group *)

Section wired.
Context `{RocksDB DB} `{GroupCommit}.

(** Replicas without history: no term and vote and no Raft log on the disk. *)
Definition fresh_disks (on_disk : bool) (disk : bytes → option (@Programs.Disk DB)) : Prop :=
  ∀ p d, disk p = Some d → Programs.d_meta d = MkMetaFile on_disk None [] ∧ Programs.d_raft_log d = new_RaftLog on_disk fresh_file.

Lemma init_replicas_wired env on_disk disk data_dir shard_id ids todo s s' : fresh_disks on_disk disk →
  todo ⊆ ids → (∀ i, nodes (raft_group s) i = nodes (cluster_init ids env true on_disk) i) →
  RaftTransport.registered ids (inproc_transport_ s) → disconnected_ (inproc_transport_ s) = ∅ →
  Programs.init_replicas env disk data_dir shard_id ids s todo = Some s' →
  (∀ i, nodes (raft_group s') i = nodes (cluster_init ids env true on_disk) i) ∧ RaftTransport.registered ids (inproc_transport_ s') ∧
  disconnected_ (inproc_transport_ s') = ∅ ∧
  (∀ i, i ∈ todo ∨ nodes_ (inproc_transport_ s) !! i = Some i → nodes_ (inproc_transport_ s') !! i = Some i) ∧
  started_ s' = started_ s ∧ pending_txns_ s' = pending_txns_ s ∧ terminal_txn_states_ s' = terminal_txn_states_ s.
Proof.
  intros Hfr. revert s. induction todo as [|i todo IH]; intros s Hin Hn Hr Hd E; cbn [Programs.init_replicas] in E.
  { injection E as <-. split_and!; try done. intros i [[]%elem_of_nil|?]; done. }
  destruct (disk _) as [d|] eqn:Ed; [|done]. cbn [mbind option_bind] in E. destruct (Shard.InitReplica _ _) as [sm|]; [|done].
  cbn [mbind option_bind] in E. cbv zeta in E. destruct (Hfr _ _ Ed) as [Em El].
  apply IH in E as (E1 & E2 & E3 & E4 & E5 & E6 & E7).
  - split_and!; try done. intros j Hj. apply E4. rewrite elem_of_cons in Hj. cbn [inproc_transport_ InProcess.RegisterNode nodes_].
    destruct (decide (j = i)) as [-> |Hji]; [right; by rewrite lookup_insert_eq|]. destruct Hj as [[?|?]|?]; [done|by left|right; by rewrite lookup_insert_ne].
  - intros j Hj. apply Hin. by right.
  - intros j. cbn [raft_group set_node nodes]. destruct (decide (j = i)) as [-> |Hji].
    + rewrite fn_lookup_insert. cbn [cluster_init nodes]. by rewrite Em, El.
    + rewrite fn_lookup_insert_ne by done. apply Hn.
  - intros p x. cbn [inproc_transport_ InProcess.RegisterNode nodes_]. rewrite lookup_insert_Some. intros [[<- <-]|[_ Hx]]; [|by apply Hr].
    split; [done|]. apply Hin. by left.
  - done.
Qed.

(** The group that the constructor builds from empty directories is the one whose steps
    are those of RaftCluster.v: every replica has the others as its peers, and the
    transport leads from each of them to each. *)
Lemma new_service_wired env on_disk disk shard_id data_dir n nobody s : fresh_disks on_disk disk →
  let ids := seqZ 0 n in
  Programs.new_ShardServiceImpl (nodes (cluster_init ids env true on_disk)) nobody env disk shard_id data_dir n Programs.InProcessMode = Some s →
  (∀ i, nodes (raft_group s) i = nodes (cluster_init ids env true on_disk) i) ∧
  RaftTransport.registered ids (inproc_transport_ s) ∧
  (∀ i j, i ∈ ids → j ∈ ids → InProcess.route (inproc_transport_ s) i j = Some j) ∧
  started_ s = false ∧ pending_txns_ s = ∅ ∧ terminal_txn_states_ s = ∅.
Proof.
  intros Hfr ids E. apply (init_replicas_wired env on_disk) in E as (E1 & E2 & E3 & E4 & E5 & E6 & E7); [|done..].
  split_and!; try done. intros i j Hi Hj. unfold InProcess.route. rewrite E3, (E4 j) by auto. done.
Qed.
End wired.

(** ** The server program *)

Definition thread_event (ev : ServerEvent) : bool := match ev with EvStart _ | EvStop | EvStopNext => false | _ => true end.

(** The threads of the server do not decide whether it runs. *)
Lemma thread_event_keeps p ev p' : thread_event ev = true → run_server p ev = Some p' →
  PgServer.running_ (server p') = PgServer.running_ (server p) ∧ owner p' = owner p.
Proof.
  intros Ht E. destruct ev as [| | |r| |t|k|x|x]; try done; cbn [run_server] in E.
  - unfold Server.accept_returns in E. destruct (accept_thread_ _); try done. destruct r; [|by injection E as <-].
    destruct (_ && _); [|done]. by injection E as <-.
  - unfold Server.AcceptLoop_next in E. destruct (accept_thread_ _); try done; by injection E as <-.
  - unfold Server.worker_next in E. destruct (workers p !! t) as [w|]; [|done]. cbn [mbind option_bind] in E.
    destruct (w_pc w); [case_bool_decide; [|done]| | |done]; by injection E as <-.
  - case_bool_decide; [|done]. by injection E as <-.
  - destruct (fresh_fd _ _); [|done]. by injection E as <-.
  - case_bool_decide; [|done]. by injection E as <-.
Qed.
Lemma Stop_next_keeps p p' : Server.Stop_next p = Some p' → PgServer.running_ (server p') = PgServer.running_ (server p).
Proof.
  unfold Server.Stop_next. intros E. destruct (owner p) as [| | |[|? ?]| |[|t ts]]; try done; try (by injection E as <-).
  - destruct (accept_thread_ _); try done. by injection E as <-.
  - destruct (workers p !! t); [|done]. case_bool_decide; [|done]. by injection E as <-.
Qed.
Lemma Stop_begin_stops p : PgServer.running_ (server (Server.Stop_begin p)) = false.
Proof. unfold Server.Stop_begin. destruct (PgServer.running_ (server p)) eqn:E; [done|]. exact E. Qed.

(** While the program runs, stopping the cluster would end every process; the server is
    reachable in the sense of PgServer.v; and it no longer runs once it is being
    stopped. *)
Definition main_inv (m : Programs.ServerMain) : Prop :=
  server_inv (Programs.m_process m) ∧
  match Programs.m_pc m with
  | Programs.MainWaits => processes (Launcher.Stop (Programs.m_cluster m) (Programs.m_os m)).2 = ∅ ∧ owner (Programs.m_process m) = Idle
  | Programs.MainStopsPg =>
      processes (Launcher.Stop (Programs.m_cluster m) (Programs.m_os m)).2 = ∅ ∧ PgServer.running_ (server (Programs.m_process m)) = false
  | Programs.MainExit _ =>
      processes (Programs.m_os m) = ∅ ∧ owner (Programs.m_process m) = Idle ∧ PgServer.running_ (server (Programs.m_process m)) = false
  | Programs.MainEnded => True
  end.

Lemma main_step_inv m m' : main_inv m → Programs.main_step m m' → main_inv m'.
Proof.
  intros [Hi Hpc] [ev E]. destruct m as [pc stop l os p]. cbn in Hi, Hpc.
  assert (Hthreads : ∀ ev0 p0, thread_event ev0 = true → run_server p ev0 = Some p0 → pc = Programs.MainWaits ∨ pc = Programs.MainStopsPg →
    main_inv (Programs.MkServerMain pc stop l os p0)).
  { intros ev0 p0 Ht E0 Hp. destruct (thread_event_keeps _ _ _ Ht E0) as [Er Eo]. split; [by eapply run_server_inv|]. cbn.
    destruct Hp as [-> | ->]; by rewrite ?Er, ?Eo. }
  destruct ev as [|ev|]; cbn [Programs.main_event] in E.
  - injection E as <-. by split.
  - assert (thread_event ev = true ∧ (pc = Programs.MainWaits ∨ pc = Programs.MainStopsPg) ∧
      ∃ p0, run_server p ev = Some p0 ∧ m' = Programs.MkServerMain pc stop l os p0) as (Ht & Hp & p0 & E0 & ->).
    { destruct ev; try done; destruct pc; try done;
        (destruct (run_server p _) as [p0|] eqn:E0; [|done]; injection E as <-; split_and!; [done|auto|by exists p0]). }
    by eapply Hthreads.
  - destruct pc; try done.
    + destruct stop; injection E as <-; [|by split]. destruct Hpc as [Hs Ho]. split; [by apply Stop_begin_inv|]. cbn. split; [done|apply Stop_begin_stops].
    + destruct Hpc as [Hs Hr]. assert (owner p = Idle ∨ owner p ≠ Idle) as [Ho|Ho] by (destruct (owner p); auto).
      * rewrite Ho in E. destruct (Launcher.Stop l os) as [l1 os1]. injection E as <-. by split.
      * assert (∃ p0, Server.Stop_next p = Some p0 ∧ m' = Programs.MkServerMain Programs.MainStopsPg stop l os p0) as (p0 & E0 & ->).
        { destruct (owner p); try done; (destruct (Server.Stop_next p) as [p0|] eqn:E0; [|done]; injection E as <-; by exists p0). }
        split; [by eapply Stop_next_inv|]. cbn. split; [done|]. by rewrite (Stop_next_keeps _ _ E0).
Qed.

Lemma process_init_inv port files : set_Forall (λ s, 0 ≤ s) files → server_inv (process_init port files).
Proof. intros Hf. apply reachable_inv. exists port, files. split; [done|constructor]. Qed.
Lemma Server_Start_fails p io : PgServer.running_ (server p) = false → owner p = Idle → St.ok (Server.Start p io).2 = false →
  owner (Server.Start p io).1 = Idle ∧ PgServer.running_ (server (Server.Start p io).1) = false.
Proof. intros Hr Ho. unfold Server.Start. rewrite Hr. destruct (Server.io_socket io); [|done]. by destruct (negb (Server.io_bind io)). Qed.
Lemma Server_Start_owner p io : owner p = Idle → owner (Server.Start p io).1 = Idle.
Proof.
  intros Ho. unfold Server.Start. destruct (PgServer.running_ _); [done|]. destruct (Server.io_socket io); [|done]. by destruct (negb (Server.io_bind io)).
Qed.

Lemma server_main_inv exists_ opens default_binary polls io files argv os :
  processes os = ∅ → forks_fresh os → set_Forall (λ s, 0 ≤ s) files →
  default true (fresh_fd (kernel (process_init 0 files)) <$> Server.io_socket io) = true →
  main_inv (Programs.server_main exists_ opens default_binary polls io files argv os).
Proof.
  intros Hos Hf Hfiles Hfd. unfold Programs.server_main. cbv zeta. pose proof (λ port, process_init_inv port files Hfiles) as Hp.
  destruct (server_args _ argv) as [a|]; [|split; [apply Hp|done]]. destruct (server_topology a) as [code|topo]; [split; [apply Hp|done]|].
  destruct (Launcher.Start _ _ _ _ _ _ _ _ _ _ _) as [[l os'] [|]] eqn:Es; cbn [negb]; [|split; [apply Hp|done]].
  pose proof (start_stop _ _ _ _ _ _ _ _ _ _ _ _ Hos Hf Es) as Hs.
  assert (server_inv (Server.Start (process_init (sa_pg_port a) files) io).1) as Hi by by apply Start_inv.
  pose proof (Server_Start_owner (process_init (sa_pg_port a) files) io eq_refl) as Ho.
  pose proof (Server_Start_fails (process_init (sa_pg_port a) files) io eq_refl eq_refl) as Hfail.
  destruct (Server.Start _ io) as [p st]. cbn [fst snd] in *. destruct (St.ok st) eqn:Est; cbn [negb]; [by split|].
  destruct (Launcher.Stop l os') as [l1 os1]. cbn [snd] in Hs. destruct (Hfail eq_refl). by split.
Qed.

(** C40. The server program cleans up. Whatever its command line, the results of the calls
    it makes, and however the signal and the steps of the server's threads fall, when it
    returns an exit code no replica process is left, and all threads of the SQL server
    have ended and it no longer listens: also when the SQL server could not be started. *)
Theorem server_program (exists_ : bytes → bool) (opens : Z → bool) (default_binary : bytes) (polls : list (bytes → bool))
    (io : Server.StartIO) (files : gset Z) (argv : list bytes) (os : Os) (m : Programs.ServerMain) (code : Z) :
  processes os = ∅ → forks_fresh os → set_Forall (λ s, 0 ≤ s) files →
  default true (fresh_fd (kernel (process_init 0 files)) <$> Server.io_socket io) = true →
  rtc Programs.main_step (Programs.server_main exists_ opens default_binary polls io files argv os) m →
  Programs.m_pc m = Programs.MainExit code →
  let p := Programs.m_process m in
  processes (Programs.m_os m) = ∅ ∧ accept_thread_ (server p) = NoThread ∧ Forall (λ w, w_pc w = Finished) (workers p) ∧
  listen_sock_ (server p) = kInvalidSocket.
Proof.
  intros Hos Hf Hfiles Hfd Hsteps Hpc p.
  assert (main_inv m) as [Hi Hm].
  { assert (main_inv (Programs.server_main exists_ opens default_binary polls io files argv os)) as H0 by by apply server_main_inv.
    clear Hpc p. induction Hsteps as [|m0 m1 m2 Hs _ IH]; [done|]. by apply IH, (main_step_inv m0). }
  rewrite Hpc in Hm. destruct Hm as (? & Ho & Hr). destruct (stopped_server _ Hi Ho Hr) as (? & ? & _ & ?). done.
Qed.

Definition served : list Programs.MainEvent :=
  [Programs.MainNext; Programs.MainSignal; Programs.MainNext] ++ replicate 3 Programs.MainNext ++
  [Programs.MainThreads EvAcceptNext] ++ replicate 3 Programs.MainNext.
Definition served_main : Programs.ServerMain :=
  Programs.server_main (λ _, true) (λ _, true) (str "trans_db_replica") [] (Server.MkStartIO (Some 5) true (Some 5432)) {[0; 1; 2]}
    [str "--shards"; str "1"] (MkOs ∅ [Some 11; Some 12; Some 13]).
Fixpoint run_main (m : Programs.ServerMain) (evs : list Programs.MainEvent) : option Programs.ServerMain :=
  match evs with
  | [] => Some m
  | ev :: evs => m ← Programs.main_event m ev; run_main m evs
  end.
Lemma run_main_steps evs m m' : run_main m evs = Some m' → rtc Programs.main_step m m'.
Proof.
  revert m. induction evs as [|ev evs IH]; intros m E; cbn in E; [by injection E as ->|].
  destruct (Programs.main_event m ev) as [m1|] eqn:E1; [|done]. eapply rtc_l; [by exists ev|by apply IH].
Qed.
Lemma server_program_witness :
  ∃ m, run_main served_main served = Some m ∧ dom (processes (Programs.m_os served_main)) = {[11; 12; 13]} ∧
    processes (Programs.m_os m) = ∅ ∧ accept_thread_ (server (Programs.m_process m)) = NoThread.
Proof.
  destruct (run_main served_main served) as [m|] eqn:E; [|by vm_compute in E]. exists m. split; [done|].
  split; [apply (bool_decide_unpack _); vm_compute; exact I|].
  assert (Programs.m_pc m = Programs.MainExit 0) as Hpc.
  { assert (Programs.m_pc <$> run_main served_main served = Some (Programs.MainExit 0)) as Hr by (vm_compute; reflexivity).
    rewrite E in Hr. by injection Hr. }
  destruct (server_program (λ _, true) (λ _, true) (str "trans_db_replica") [] (Server.MkStartIO (Some 5) true (Some 5432)) {[0; 1; 2]}
    [str "--shards"; str "1"] (MkOs ∅ [Some 11; Some 12; Some 13]) m 0) as (H1 & H2 & _).
  - reflexivity.
  - split; [apply (bool_decide_unpack _); vm_compute; exact I|]. intros p Hp. split; [|apply lookup_empty].
    cbn in Hp. rewrite !elem_of_cons, elem_of_nil in Hp. destruct Hp as [[= ->]|[[= ->]|[[= ->]|[]]]]; done.
  - apply (bool_decide_unpack _). vm_compute. exact I.
  - vm_compute. reflexivity.
  - exact (run_main_steps _ _ _ E).
  - exact Hpc.
  - done.
Defined.

(** A replica that cannot listen waits for a signal all the same. *)
Lemma replica_serves_nobody `{RocksDB DB} `{GroupCommit} rest nobody env disk argv id s :
  Programs.replica_main rest nobody env disk (λ _, false) argv = Programs.ReplicaWaits id s →
  Programs.shard_server_ s = false ∧ Programs.raft_server_ s = false ∧ started_ (Programs.shard_service_ s) = true.
Proof.
  unfold Programs.replica_main. destruct (replica_args _ argv) as [a|]; [|done]. cbv zeta.
  destruct (Programs.new_ReplicaServer _ _ _ _ _ _ _ _ _) as [s0|]; [|done]. intros [= <- <-]. split_and!; [done|done|].
  cbn. unfold Shard.Start. by destruct (started_ (Programs.shard_service_ s0)) eqn:E.
Qed.
(** A signal stops both gRPC servers and the replica. *)
Lemma replica_signal_stops `{RocksDB DB} `{GroupCommit} (id : Z) (s : @Programs.ReplicaServer DB) : ∃ s',
  Programs.replica_signal (Programs.ReplicaWaits id s) = Programs.ReplicaExit 0 (Some s') ∧
  Programs.shard_server_ s' = false ∧ Programs.raft_server_ s' = false ∧ started_ (Programs.shard_service_ s') = false.
Proof.
  eexists. split_and!; [done..|]. cbn. unfold Shard.Stop. by destruct (started_ (Programs.shard_service_ s)) eqn:E.
Qed.
